(* ===== verification/_CoqProject ===== *)
-Q . S2P
Prelude.v
Text.v
Json.v
Goal.v
Message.v
Scalars.v
Lifecycle.v
Todo.v
TodoList.v
TodoTool.v
Publication.v
PublicationStore.v
Assembly.v
Conversation.v
Attempt.v
Planning.v
Authority.v
Capacity.v
Inbox.v
Schedule.v
ScheduleStore.v
ScheduledStart.v
StartRecovery.v
Questionnaire.v
Interaction.v
Rendezvous.v
RendezvousSafety.v
RendezvousFacts.v
Workflow.v
WorkflowGraph.v
WorkflowFlow.v
WorkflowBudget.v
WorkflowSchema.v
WorkflowExpr.v
WorkflowRun.v
WorkflowSound.v
