(* ===== verification/Prelude.v ===== *)
(** rustX: a verification development.

    rustX runs conversations of a human, a model and tools.  Work arrives in a durable Inbox;
    an attempt adopts it into the canonical conversation, streams a model response, runs the
    tool calls of that response and commits the results; what a stream shows while it runs
    is published frame by frame and reconciled with what was committed; a long conversation
    is compacted; a Goal and a scheduler bring in autonomous work.  Each of these parts keeps
    a durable state that must survive crashes, retries and concurrent callers.  The
    development models the parts that decide this, from the source under [src/src/], and
    proves what they promise.

    ** The parts and how they meet

    - [Prelude], [Text], [Json]: Rust's [Result] as a monad ([?] is bind, a panic an
      explicit [fault]), checked integers, iterator methods, strings as scalar values with
      their UTF-8 lengths, JSON values; generic lemmas on lists, filters, maps and
      reachability; the tactic [inv_result] and the hint database [rustx].
    - [Message] ([message/types.rs], [message/content.rs], [tools/types.rs]): the three
      message roles and their blocks, used by every later file.
    - [Goal] ([goal.rs]): the revisioned Goal and its transition function.  [Inbox] stores it.
    - [Todo], [TodoList], [TodoTool] ([tools/todo.rs], [tools/native/todo/], the commit in
      [agent/execution/tools.rs]): the task list and its validation; the mutations of a batch,
      staging, settlement and rebuild; the tool, and the batch as the attempt drives it.
    - [Publication], [PublicationStore] ([publication/frame.rs], [publication/coalescer.rs],
      [agent/execution/publication.rs]; [durable/sqlite/publication.rs],
      [publication/proposal.rs]): frames, their coalescing and audit in memory; the
      stream, frame, proposal and audit tables with one transaction each.
    - [Assembly] ([model/assembly.rs], [model/event.rs], [model/finish.rs]): a provider stream
      becomes one Assistant content or a violation; what it publishes is [Publication]'s.
    - [Conversation] ([conversation/]): Ledger, Surface, selection and the one commit path.
    - [Attempt] ([agent/state.rs], [agent/cancellation.rs], [runtime/cancellation.rs]): the
      state machine of an attempt, and the start and commit gates as threads whose
      statements interleave.
    - [Planning] ([context/planning.rs], [context/engine.rs], [context/summarizer.rs]): the
      prefix one compaction retires.  The estimator is the class [ContextEngine], with the
      promise [MonotoneEngine] of the engines that make it.
    - [Authority], [Capacity] ([runtime/auxiliary/authority.rs], [context/compaction_budget.rs],
      [runtime/auxiliary/capacity.rs]): the allowance and usage of auxiliary requests, and the
      semaphores such calls reserve.
    - [Inbox] ([durable/sqlite/inbox.rs], [durable/inbox.rs], with [canonical/ledger.rs] and
      [append_validation.rs]): acceptance, adoption, edits and Goal rounds, one transaction
      each; the Ledger rows and the transcript order they use.
    - [Schedule], [ScheduleStore] ([scheduler.rs], [scheduler/calendar.rs];
      [durable/sqlite/schedule.rs], [scheduled_workflow.rs]): timings and occurrences; the
      schedule commands and admissions.  An admission calls [Inbox]'s acceptance, and the
      runs of [ScheduleStore] contain those of [Inbox].

    - [ScheduledStart], [StartRecovery] ([durable/sqlite/scheduled_workflow.rs],
      [runtime/workflow/scheduled/], the event rules of [durable/sqlite/journal.rs] and
      [journal/reference.rs] on scheduled interactions;
      [runtime/conversation_runtime/scheduled.rs], [scheduler.rs]): what becomes of an
      admitted start: its claim, effect receipts, interactions, settlement and retention; the
      proof of its effects from native evidence, the settlement loop and the operator's
      controls.  The runs of [ScheduledStart] are runs of [ScheduleStore], with its tables
      refined.
    - [Workflow], [WorkflowGraph], [WorkflowFlow] ([runtime/workflow.rs], [workflow/flow.rs]):
      the Workflow language; the checks of a block's graph with its topological order; the
      activation proofs that decide which producers a node may read.  Decision diagrams are
      the class [Bdds] with the laws [BddLaws]; [Formulas] is an instance by truth tables.
    - [WorkflowBudget], [WorkflowRun] ([workflow/execution.rs], with [bounded_value_bytes] of
      [workflow/expressions.rs]): the budgets of a run, its reservations of bytes, the
      Variable Assigner and the merge of its writes; the loop that runs the nodes of a block
      concurrently.  [WorkflowRun] runs the program [WorkflowGraph] accepts, takes its
      completions' writes through [WorkflowBudget], and meets the scopes of [WorkflowFlow].
    - [WorkflowSchema], [WorkflowExpr] ([runtime/workflow.rs], [workflow/defaults.rs];
      [workflow/expressions.rs], [expressions/inference.rs], [references.rs]): the schemas of
      values, their compatibility and defaults; the typing, the evaluation and the reads of
      values and conditions.  The validator of JSON Schema is the class [Validator] with the
      documented laws [JsonSchema]; [Checks] is an instance.
    - [WorkflowSound]: the two together, for the nodes of a root block as [WorkflowRun] runs
      them.
    - [Lifecycle] ([runtime/types.rs]): the states of a conversation's runtime and the guards
      of its admitted operations.  A part of the runtime that counts its own guards takes
      them through [native_ok]; [RendezvousSafety] does.
    - [Scalars], [Questionnaire] ([events/interaction.rs], [events/review.rs]): what a human
      may be asked and may answer, its validation and normal forms; the calendar and URL
      parsers are the class [Formats], the digests the class [Digests].
    - [Interaction], [Rendezvous] ([runtime/interaction.rs]): the coordinator of questions to
      a human: its requests, facts and pending collection, each operation on it a function;
      then the asynchronous operations as tasks, [Task], that run from one lock or await to
      the next and interleave with each other, with cancellations, with drops of payloads and
      with [Lifecycle]'s own steps.  Waiters meet their answer on a oneshot channel.
    - [RendezvousSafety], [RendezvousFacts]: the theorems on its runs.  The first gives every
      guard, channel end, identity and payload a weight no critical section increases; the
      second carries what each task knows to be recorded.

    A component is a record of its state, one definition per operation that returns the new
    state or the source's error, and, where operations interleave, a step relation whose
    reflexive transitive closure gives the reachable states ([gate_step], [budget_step],
    [cap_step], [inbox_step], [schedule_step], [starts_step], [native_step],
    [step] of [Rendezvous], the traces [run] of [WorkflowRun] and the runs of [PublicationStore] and
    [TodoTool]).  A definition has the name of the Rust item it translates where Rocq allows
    it.  An invariant record ([inbox_ok], [schedule_ok], ...) is shown to hold at the start
    and across every step; the theorems about runs are read off it.  Each theorem with a
    hypothesis is applied to a concrete state at the end of its file, that of
    [RendezvousSafety] in [RendezvousFacts], on the same run as its own.

    ** What is shown

    - Publication.  What a stream publishes agrees with what is committed or audited, and no
      Assistant is canonical without its terminal; settled and audited streams are frozen; an
      audit is always possible; coalescing changes neither content nor order, numbers frames
      without a gap and keeps the buffer bounded; a settlement survives its encoding.
    - Tasks.  The committed list is the one of the history after any batches and rebuilds;
      a tool call applies all of its mutations or none; validation accepts exactly the well
      formed lists, and the cycle search is exact.
    - Assembly.  A finished turn is acceptable to the conversation, carries exactly the text
      of its deltas and has its tool calls consistent with its finish.
    - Conversation.  A commit appends one fresh message or is refused with its own error;
      earlier revisions keep their meaning; the recovery gate is exact; the search for a
      context identity ends.
    - Attempt.  No model start follows the cancellation of the attempt however calls
      interleave; the gates do not deadlock; an attempt settles once; an executor can not
      cancel or relabel what it was lent.
    - Compaction and auxiliary calls.  The planned prefix is the best admissible one, by
      either search; a compaction starts at most 12 requests and keeps its deadline;
      reported usage is exact; capacity limits hold and nothing leaks.
    - Inbox.  A correlated acceptance is answered the same for ever; adoption moves exactly
      the pending prefix, in order and once; accepted work is not lost or doubled; every
      autonomous round is accounted to the Goal's budget.
    - Scheduler.  A revision of a schedule is admitted at most once, and a due one is
      admitted; a committed command is replayed without effect; counts stay within their
      bounds; a late occurrence is the latest aligned one.
    - Scheduled starts.  The detailed tables refine the scheduler's; a start is claimed by
      one owner; it settles only with every receipt proven and every interaction answered,
      and then stays; nothing begins after a cancellation; receipts have no gap; with
      evidence of its owners the settlement loop ends.
    - Workflows.  An accepted block has one Start and an order in which every edge goes
      forward; under every choice of exits, a producer in the scope of a node has run before
      it and its schema tells success from failure; two unordered writers never both run;
      an Aggregate always finds a source.  At run time a node starts at most once, after
      all nodes before it and never after a failure; the scope it was compiled with is
      there, with the values its producers committed; a block that ends has run exactly the
      nodes its exits lead to, or reports every failure; no reachable state is stuck.  An
      Assigner keeps types, and bytes are charged exactly.  A schema found compatible with
      another admits no value the other refuses; an input with its defaults meets what the
      compiler assumes of it; and so no expression of a started node goes wrong, but for the
      bounds on sizes and depth.

    - Interactions.  Every question has one identity, one recorded request, at most one
      decision and one settlement, whoever answers, cancels, drains or loses the parent at
      the same time; nothing is shown or told before it is recorded; a waiter and a responder
      are told the same, recorded outcome; no waiter is orphaned; a quiescent conversation
      has no question left.  A response is accepted exactly when its settlement may be
      stored; a submission has one normal form, and a scalar one spelling; the pages of the
      pending collection are consistent.
    - Lifecycle.  The states go one way, quiescence is final and without live guards, and an
      idle drain never closes over an active operation.

    ** Bounds and fuel

    Unsigned integers are [N] with their width in the checked and saturating operations the
    source uses; SQLite integers stop at [i64_max].  The fuel of [Todo.closes_cycle] is one
    more than the blocker references of the list and the candidate, each of which the search
    pushes at most once; [Todo.closes_cycle_correct] covers that it never runs out.
    [Conversation.allocate_context_message_id] has one more step than the Ledger has
    messages, which suffices because each refused candidate is a distinct Ledger identity.
    The binary search of [Planning] has as much fuel as there are boundaries and halves its
    range each step.  Kahn's algorithm has one turn per node and the search of the reachable
    nodes one per edge and the Start; [topological_order_exact] and [reachable_nodes_exact]
    show that they end within them.  The search for the compatibility of two schemas has one level for each of their depths,
    and [schemas_compatible_sound] shows that it decides; the checks of schemas and the filling
    in of defaults recurse once per level they are allowed.  The worklist of a settled node resolves each node at most
    once, so [resolve] has one turn per node; [resolve_ok] shows that it ends.  The settlement loop of [StartRecovery] runs over a list with one
    observation for each turn; [StartRecovery.finish_settles] says how many suffice.  Other
    recursion is structural.

    ** What is left out

    - Third-party and generated code is a parameter or a class with its documented laws:
      serde's encodings, SHA-256, chrono's text formats, the croner calendar, tokio's
      cancellation token and semaphores (their documented counting), token estimators.
      Timestamps are instants; stored timestamp text is compared as the instant, which is
      its order for the years 0 to 9999.
    - Disk faults, row encodings, observation layouts, receipts and display indexes: they
      never decide an outcome of the operations modelled.
    - The preparation of a scheduled start's contract and the run of its graph, the polling
      driver and the summary read of the scheduler.  [accept_inbound_with_event] and [accept_subagent_terminal]
      combine an acceptance with a Journal event whose rules are not modelled.
    - Of workflows: the checks of single node kinds, the rounds of Loop and Iteration, the
      native calls, the authoring analysis with its budget and the read model; a node's
      work is what its owner reports to [complete].  [control_flow] leaves out the activation scopes it ends with;
      they are [activation_scopes].
    - Of interactions: the layouts of observations, the test gates and synchronous test
      paths, the JSON schemas, and the mark a failed questionnaire leaves on its attempt.  A
      route and the durable commit answer as they like; the identities are as the source
      spells them.
    - Subagent processes, capability composition, native tools,
      provider adapters, the app server and observation projections: mostly I/O, process
      control and read models.

    Publication carryover, the rounds of Loop and Iteration and the scheduler's driver are
    the parts closest to what is modelled; they are not. *)

From stdpp Require Export base gmap sets list strings numbers sorting.
From stdpp Require Import options.

Declare Scope rustx_scope.
Delimit Scope rustx_scope with rustx.
Open Scope rustx_scope.

(** ** [Result<A, E>] as a monad

    [result E] is Rust's [Result<_, E>]; the bind is the [?] operator: the first
    [Err] is returned as it is and nothing after it runs. *)
Inductive result (E A : Type) : Type :=
| Ok (a : A)
| Err (e : E).
Arguments Ok {E A} a.
Arguments Err {E A} e.

#[export] Instance result_ret E : MRet (result E) := λ A a, Ok a.
#[export] Instance result_bind E : MBind (result E) := λ A B f m,
  match m with Ok a => f a | Err e => Err e end.
#[export] Instance result_fmap E : FMap (result E) := λ A B f m,
  match m with Ok a => Ok (f a) | Err e => Err e end.

#[export] Instance result_eq_dec `{EqDecision E, EqDecision A} : EqDecision (result E A).
Proof. solve_decision. Defined.

(** [result.map_err(f)] *)
Definition map_err {E F A} (f : E → F) (m : result E A) : result F A :=
  match m with Ok a => Ok a | Err e => Err (f e) end.

(** [option.ok_or(e)] *)
Definition ok_or {E A} (e : E) (o : option A) : result E A :=
  match o with Some a => Ok a | None => Err e end.

(** [if b { return Err(e) }] *)
Definition guard_err {E} (b : bool) (e : E) : result E () :=
  if b then Err e else Ok ().

(** How a call that may also panic ends without a value. *)
Inductive fault (E : Type) : Type :=
| Panic
| Fail (e : E).
Arguments Panic {E}.
Arguments Fail {E} e.

(** [option.expect(..)], an [assert!] and an index out of range panic. *)
Definition expect {E A} (o : option A) : result (fault E) A := ok_or Panic o.

(** A fallible call that does not panic. *)
Definition lift {E F A} (f : E → F) (m : result E A) : result (fault F) A :=
  map_err (λ e, Fail (f e)) m.

Definition is_ok {E A} (m : result E A) : Prop := ∃ a, m = Ok a.

Lemma bind_ok {E A B} (m : result E A) (f : A → result E B) b :
  m ≫= f = Ok b ↔ ∃ a, m = Ok a ∧ f a = Ok b.
Proof. destruct m; cbn; naive_solver. Qed.

Lemma bind_err {E A B} (m : result E A) (f : A → result E B) e :
  m ≫= f = Err e ↔ m = Err e ∨ ∃ a, m = Ok a ∧ f a = Err e.
Proof. destruct m; cbn; naive_solver. Qed.

Lemma map_err_ok {E F A} (f : E → F) (m : result E A) a :
  map_err f m = Ok a ↔ m = Ok a.
Proof. destruct m; cbn; naive_solver. Qed.

Lemma map_err_err {E F A} (f : E → F) (m : result E A) e :
  map_err f m = Err e ↔ ∃ e', m = Err e' ∧ e = f e'.
Proof. destruct m; cbn; naive_solver. Qed.

Lemma ok_or_ok {E A} (e : E) (o : option A) a : ok_or e o = Ok a ↔ o = Some a.
Proof. destruct o; cbn; naive_solver. Qed.

Lemma guard_err_ok {E} (b : bool) (e : E) u : guard_err b e = Ok u ↔ b = false.
Proof. destruct b, u; cbn; naive_solver. Qed.

Lemma guard_err_err {E} (b : bool) (e e' : E) : guard_err b e = Err e' ↔ b = true ∧ e' = e.
Proof. destruct b; cbn; naive_solver. Qed.

(** ** Machine integers

    Unsigned integers are [N]; the width enters through the checked and saturating
    operations the source uses. *)
Definition u64_max : N := 2 ^ 64 - 1.
Definition u32_max : N := 2 ^ 32 - 1.
Definition u8_max : N := 2 ^ 8 - 1.

(** [a.checked_add(b)] on [u64] *)
Definition u64_checked_add (a b : N) : option N :=
  if (a + b <=? u64_max)%N then Some (a + b)%N else None.

(** [a.saturating_add(b)] and [a.saturating_sub(b)] on [u64] (and 64-bit [usize]) *)
Definition u64_saturating_add (a b : N) : N := N.min (a + b) u64_max.
Definition saturating_sub (a b : N) : N := (a - b)%N.

Lemma u64_checked_add_Some a b c :
  u64_checked_add a b = Some c ↔ c = (a + b)%N ∧ (a + b <= u64_max)%N.
Proof.
  unfold u64_checked_add. destruct (N.leb_spec (a + b) u64_max); naive_solver lia.
Qed.

Lemma u64_checked_add_None a b :
  u64_checked_add a b = None ↔ (u64_max < a + b)%N.
Proof.
  unfold u64_checked_add. destruct (N.leb_spec (a + b) u64_max); naive_solver lia.
Qed.

Lemma u64_saturating_add_small a b :
  (a + b <= u64_max)%N → u64_saturating_add a b = (a + b)%N.
Proof. unfold u64_saturating_add. lia. Qed.

(** ** Iterators *)

(** [iter.find_map(f)] *)
Section find_map.
Context {A B : Type} (f : A → option B).

Fixpoint find_map (l : list A) : option B :=
  match l with
  | [] => None
  | x :: l => match f x with Some b => Some b | None => find_map l end
  end.
End find_map.

(** [iter.find(p)] *)
Definition find_first {A} (p : A → bool) : list A → option A :=
  find_map (λ x, if p x then Some x else None).

Lemma find_first_Some {A} (p : A → bool) l x :
  find_first p l = Some x → x ∈ l ∧ p x = true.
Proof.
  unfold find_first. induction l as [|y l IH]; cbn; [done|]. destruct (p y) eqn:E.
  - intros [= ->]. split; [constructor|done].
  - intros [? ?]%IH. split; [by constructor|done].
Qed.

Lemma find_map_split {A B} (f : A → option B) l b :
  find_map f l = Some b → ∃ l1 x l2, l = l1 ++ x :: l2 ∧ f x = Some b ∧ ∀ y, y ∈ l1 → f y = None.
Proof.
  induction l as [|x l IH]; cbn; [done|]. destruct (f x) as [c|] eqn:E.
  - intros [= ->]. exists [], x, l. split_and!; [done|done|].
    intros y Hy. by apply not_elem_of_nil in Hy.
  - intros (l1 & y & l2 & -> & Hy & Hl1)%IH. exists (x :: l1), y, l2. split_and!; [done|done|].
    intros z [->|Hz]%elem_of_cons; [done|by apply Hl1].
Qed.

Lemma find_map_None {A B} (f : A → option B) l :
  find_map f l = None ↔ ∀ x, x ∈ l → f x = None.
Proof.
  induction l as [|x l IH]; cbn.
  - split; [intros _ x H; by apply not_elem_of_nil in H | done].
  - destruct (f x) as [b|] eqn:E.
    + split; [done|]. intros H. rewrite (H x) in E by constructor. done.
    + rewrite IH. split.
      * intros H y [->|Hy]%elem_of_cons; auto.
      * intros H y Hy. apply H. by constructor.
Qed.

Lemma find_map_Some {A B} (f : A → option B) l b :
  find_map f l = Some b → ∃ x, x ∈ l ∧ f x = Some b.
Proof.
  induction l as [|x l IH]; cbn; [done|].
  destruct (f x) eqn:E.
  - intros [= ->]. exists x. split; [constructor | done].
  - intros (y & Hy & Hf)%IH. exists y. split; [by constructor | done].
Qed.

Lemma find_map_app {A B} (f : A → option B) l k :
  find_map f (l ++ k) = match find_map f l with Some b => Some b | None => find_map f k end.
Proof. induction l as [|x l IH]; cbn; [done|]. by destruct (f x). Qed.

Lemma find_first_None {A} (p : A → bool) l :
  find_first p l = None ↔ ∀ x, x ∈ l → p x = false.
Proof.
  unfold find_first. rewrite find_map_None. split; intros H x Hx; specialize (H x Hx);
    by destruct (p x).
Qed.

(** [iter_mut().find(p)] followed by a change of the element found *)
Fixpoint update_first {A} (p : A → bool) (f : A → A) (l : list A) : option (list A) :=
  match l with
  | [] => None
  | x :: l => if p x then Some (f x :: l) else l' ← update_first p f l; Some (x :: l')
  end.

Section update_first.
Context {A : Type} (p : A → bool).
Implicit Types (f g : A → A) (l : list A).

Lemma update_first_None f l : update_first p f l = None ↔ find_first p l = None.
Proof.
  unfold find_first. induction l as [|x l IH]; cbn; [done|]. destruct (p x); [done|].
  destruct (update_first p f l); [|naive_solver]. split; [done|]. by intros H%IH.
Qed.

(** A second change of the same target composes with the first. *)
Lemma update_first_twice f g l l' :
  (∀ x, p x = true → p (f x) = true) → update_first p f l = Some l' →
  update_first p g l' = update_first p (λ x, g (f x)) l.
Proof.
  intros Hp. revert l'. induction l as [|x l IH]; cbn; [done|]. intros l'.
  destruct (p x) eqn:E.
  - intros [= <-]. cbn. by rewrite Hp.
  - destruct (update_first p f l) as [k|]; cbn; [|done]. intros [= <-]. cbn.
    by rewrite E, (IH k).
Qed.

Lemma update_first_last f l x :
  update_first p f l = None → p x = true → update_first p f (l ++ [x]) = Some (l ++ [f x]).
Proof.
  intros H Hx. induction l as [|y l IH]; cbn in *; [by rewrite Hx|].
  destruct (p y); [done|]. destruct (update_first p f l); [done|]. cbn. by rewrite IH.
Qed.

Lemma update_first_ext f g l :
  (∀ x, x ∈ l → p x = true → f x = g x) → update_first p f l = update_first p g l.
Proof.
  induction l as [|x l IH]; cbn; [done|]. intros H. destruct (p x) eqn:E.
  - rewrite (H x); [done|constructor|done].
  - rewrite IH; [done|]. intros y Hy. apply H. by constructor.
Qed.

(** With one target at most, the change is a map. *)
Lemma update_first_map {K} (key : A → K) c f l l' :
  (∀ x, p x = true ↔ key x = c) → NoDup (map key l) → update_first p f l = Some l' →
  l' = map (λ x, if p x then f x else x) l.
Proof.
  intros Hp. revert l'. induction l as [|x l IH]; cbn; [done|].
  intros l' [Hx Hnd]%NoDup_cons. destruct (p x) eqn:E.
  - intros [= <-]. f_equal. symmetry. transitivity (map (λ x, x) l); [|by rewrite map_id].
    apply map_ext_in. intros y Hy%list_elem_of_In. destruct (p y) eqn:Ey; [|done].
    exfalso. apply Hx, list_elem_of_In, in_map_iff. exists y.
    apply Hp in E, Ey. split; [congruence|by apply list_elem_of_In].
  - destruct (update_first p f l) as [k|]; cbn; [|done]. intros [= <-]. by rewrite (IH k).
Qed.

(** The list splits at the element changed. *)
Lemma update_first_Some f l l' :
  update_first p f l = Some l' ↔
  ∃ l1 x l2, l = l1 ++ x :: l2 ∧ l' = l1 ++ f x :: l2 ∧ p x = true ∧
    ∀ y, y ∈ l1 → p y = false.
Proof.
  revert l'. induction l as [|x l IH]; intros l'; cbn.
  - split; [done|]. intros ([|??] & ? & ? & ? & _); done.
  - destruct (p x) eqn:E.
    + split.
      * intros [= <-]. exists [], x, l. split_and!; try done.
        intros y Hy. by apply not_elem_of_nil in Hy.
      * intros ([|y l1] & z & l2 & [= -> ->] & -> & Hz & Hl1); [done|].
        by rewrite (Hl1 y) in E by constructor.
    + split.
      * destruct (update_first p f l) as [k|] eqn:Ek; cbn; [|done]. intros [= <-].
        destruct (proj1 (IH k) eq_refl) as (l1 & z & l2 & -> & -> & Hz & Hl1).
        exists (x :: l1), z, l2. split_and!; try done.
        intros y [->|Hy]%elem_of_cons; [done|by apply Hl1].
      * intros ([|y l1] & z & l2 & [= -> ->] & -> & Hz & Hl1); [by rewrite Hz in E|].
        rewrite (proj2 (IH (l1 ++ f z :: l2))); [done|].
        exists l1, z, l2. split_and!; try done. intros w Hw. apply Hl1. by constructor.
Qed.
End update_first.

(** Two lists that project to the same targets are changed alike. *)
Lemma update_first_omap {A B} (g : A → option B) p q (f : A → A) (h : B → B) (l : list A) :
  (∀ x, p x = match g x with Some y => q y | None => false end) →
  (∀ x y, g x = Some y → g (f x) = Some (h y)) →
  update_first q h (omap g l : list B) = (λ k : list A, omap g k : list B) <$> update_first p f l.
Proof.
  intros Hp Hf. induction l as [|x l IH]; cbn; [done|].
  rewrite Hp. destruct (g x) as [y|] eqn:E; cbn.
  - destruct (q y); cbn; [by rewrite (Hf x y E)|]. rewrite IH.
    destruct (update_first p f l); cbn; [by rewrite E|done].
  - rewrite IH. destruct (update_first p f l); cbn; [by rewrite E|done].
Qed.

(** [iter.position(p)] *)
Fixpoint position {A} (p : A → bool) (l : list A) : option nat :=
  match l with
  | [] => None
  | x :: l => if p x then Some O else S <$> position p l
  end.

Lemma position_Some {A} (p : A → bool) l i :
  position p l = Some i → ∃ x, l !! i = Some x ∧ p x = true.
Proof.
  revert i. induction l as [|x l IH]; cbn; intros i; [done|].
  destruct (p x) eqn:E.
  - intros [= <-]. by exists x.
  - destruct (position p l) as [j|]; cbn; [|done]. intros [= <-]. cbn. auto.
Qed.

Lemma position_first {A} (p : A → bool) l i j x :
  position p l = Some i → j < i → l !! j = Some x → p x = false.
Proof.
  revert i j. induction l as [|y l IH]; cbn; intros i j; [done|].
  destruct (p y) eqn:E; [intros [= <-]; lia|].
  destruct (position p l) as [k|]; cbn; [|done]. intros [= <-] Hj.
  destruct j as [|j]; [by intros [= <-]|]. apply (IH k); (done || lia).
Qed.

Lemma position_None {A} (p : A → bool) l :
  position p l = None ↔ ∀ x, x ∈ l → p x = false.
Proof.
  induction l as [|x l IH]; cbn.
  - split; [intros _ x H; by apply not_elem_of_nil in H | done].
  - destruct (p x) eqn:E.
    + split; [done|]. intros H. rewrite (H x) in E by constructor. done.
    + rewrite fmap_None, IH. split.
      * intros H y [->|Hy]%elem_of_cons; auto.
      * intros H y Hy. apply H. by constructor.
Qed.

(** [slice.windows(2).any(|pair| p(pair[0], pair[1]))] *)
Fixpoint any_window2 {A} (p : A → A → bool) (l : list A) : bool :=
  match l with
  | x :: ((y :: _) as l') => p x y || any_window2 p l'
  | _ => false
  end.

Lemma any_window2_false {A} (p : A → A → bool) l :
  any_window2 p l = false ↔ Sorted (λ x y, p x y = false) l.
Proof.
  induction l as [|x [|y l] IH]; [by split; constructor|by split; repeat constructor|].
  change (any_window2 p (x :: y :: l)) with (p x y || any_window2 p (y :: l)).
  rewrite orb_false_iff, IH. split.
  - intros [? ?]. constructor; [done|by constructor].
  - intros [Hs Hd]%Sorted_inv. by inversion Hd.
Qed.

Lemma Sorted_N_lt l : Sorted (λ x y, (y <=? x)%N = false) l ↔ StronglySorted N.lt l.
Proof.
  split.
  - intros H. apply Sorted_StronglySorted; [intros ???; lia|].
    induction H as [|x l _ IH Hd]; constructor; [done|].
    destruct Hd; constructor. by apply N.leb_gt.
  - intros H%StronglySorted_Sorted. induction H as [|x l _ IH Hd]; constructor; [done|].
    destruct Hd; constructor. by apply N.leb_gt.
Qed.

Lemma NoDup_map_inj {A B} (f : A → B) l x y :
  NoDup (map f l) → x ∈ l → y ∈ l → f x = f y → x = y.
Proof.
  induction l as [|z l IH]; cbn; intros Hnd Hx Hy E; [by apply not_elem_of_nil in Hx|].
  assert (Hin : ∀ w, w ∈ l → f w ∈ map f l)
    by (intros w Hw; by apply list_elem_of_In, in_map, list_elem_of_In).
  apply NoDup_cons in Hnd as [Hz Hnd].
  apply elem_of_cons in Hx as [->|Hx], Hy as [->|Hy]; [done| | |by apply IH].
  - destruct Hz. rewrite E. auto.
  - destruct Hz. rewrite <-E. auto.
Qed.

Lemma StronglySorted_lt_NoDup l : StronglySorted N.lt l → NoDup l.
Proof.
  induction 1 as [|x l _ IH Hx]; constructor; [|done].
  rewrite Forall_forall in Hx. intros Hin%Hx. lia.
Qed.

Lemma StronglySorted_map_filter {A} (f : A → N) (p : A → bool) l :
  StronglySorted N.lt (map f l) → StronglySorted N.lt (map f (List.filter p l)).
Proof.
  induction l as [|x l IH]; cbn; [done|]. inversion_clear 1 as [|?? Hs Hx].
  destruct (p x); cbn; [|auto]. constructor; [auto|].
  rewrite Forall_forall in *. intros y (z & -> & Hz)%list_elem_of_fmap.
  apply list_elem_of_In, filter_In in Hz as [Hz%list_elem_of_In _].
  apply Hx, list_elem_of_fmap. eauto.
Qed.

Lemma NoDup_map_filter {A B} (f : A → B) (p : A → bool) l :
  NoDup (map f l) → NoDup (map f (List.filter p l)).
Proof.
  induction l as [|x l IH]; cbn; [done|]. intros [Hx Hn]%NoDup_cons.
  destruct (p x); cbn; [|auto]. apply NoDup_cons. split; [|auto].
  intros (z & E & Hz)%list_elem_of_fmap. apply list_elem_of_In, filter_In in Hz as [Hz%list_elem_of_In _].
  apply Hx, list_elem_of_fmap. eauto.
Qed.

(** A list is the permutation of the elements a test refuses and those it accepts. *)
Lemma filter_filter {A} (f g : A → bool) l : List.filter f (List.filter g l) = List.filter (λ x, g x && f x) l.
Proof. induction l as [|x l IH]; [done|]. cbn. destruct (g x); cbn; [destruct (f x)|]; by rewrite IH. Qed.

Lemma filter_all_true {A} (f : A → bool) l : (∀ x, x ∈ l → f x = true) → List.filter f l = l.
Proof.
  induction l as [|x l IH]; cbn; [done|]. intros Hf. rewrite (Hf x) by constructor.
  f_equal. apply IH. intros y Hy. apply Hf. by constructor.
Qed.
Lemma filter_all_false {A} (f : A → bool) l : (∀ x, x ∈ l → f x = false) → List.filter f l = [].
Proof.
  induction l as [|x l IH]; cbn; [done|]. intros Hf. rewrite (Hf x) by constructor.
  apply IH. intros y Hy. apply Hf. by constructor.
Qed.

Lemma Permutation_filter_split {A} (p : A → bool) l :
  List.filter (λ x, negb (p x)) l ++ List.filter p l ≡ₚ l.
Proof.
  induction l as [|x l IH]; cbn; [done|]. destruct (p x); cbn; [|by rewrite IH].
  by rewrite <-Permutation_middle, IH.
Qed.

Lemma omap_map_compose {A B C} (f : B → option C) (g : A → B) (l : list A) : omap f (map g l) = omap (f ∘ g) l.
Proof. induction l as [|x l IH]; cbn; [done|]. by rewrite IH. Qed.

Lemma omap_ext_in {A B} (f g : A → option B) (l : list A) : (∀ x, x ∈ l → f x = g x) → omap f l = omap g l.
Proof.
  induction l as [|x l IH]; intros H; cbn; [done|].
  rewrite (H x), IH; [done|intros y Hy; apply H|]; rewrite elem_of_cons; auto.
Qed.

(** Dropping elements a partial map skips does not change its image. *)
Lemma omap_filter_None {A B} (f : A → option B) (p : A → bool) (l : list A) :
  (∀ x, x ∈ l → p x = false → f x = None) → omap f (List.filter p l) = omap f l.
Proof.
  induction l as [|x l IH]; intros H; cbn; [done|].
  assert (IH' : omap f (List.filter p l) = omap f l) by (apply IH; intros y ?; apply H; rewrite elem_of_cons; auto).
  destruct (p x) eqn:E; cbn; [by rewrite IH'|].
  rewrite (H x), IH' by (rewrite ?elem_of_cons; auto). done.
Qed.

Lemma sublist_omap_map {A B} (f : A → option B) (g : A → B) (l : list A) :
  (∀ x y, f x = Some y → g x = y) → omap f l `sublist_of` map g l.
Proof.
  intros H. induction l as [|x l IH]; cbn; [done|].
  destruct (f x) as [y|] eqn:E; [|by constructor]. rewrite (H x y E). by constructor.
Qed.

Lemma sublist_List_filter {A} (p : A → bool) (l : list A) : List.filter p l `sublist_of` l.
Proof. induction l as [|x l IH]; cbn; [done|]. destruct (p x); by constructor. Qed.

Lemma sublist_List_filter_mono {A} (p : A → bool) (l k : list A) :
  l `sublist_of` k → List.filter p l `sublist_of` List.filter p k.
Proof. induction 1; cbn; [done|..]; destruct (p x); auto using sublist. Qed.

Lemma sublist_omap {A B} (f : A → option B) (l k : list A) :
  l `sublist_of` k → omap f l `sublist_of` omap f k.
Proof. induction 1; cbn; [done|..]; destruct (f x); auto using sublist. Qed.

(** A separator that neither head contains splits a list in one way. *)
Lemma app_sep_inj {A} (c : A) (a b x y : list A) :
  c ∉ a → c ∉ b → a ++ c :: x = b ++ c :: y → a = b ∧ x = y.
Proof.
  revert b. induction a as [|z a IH]; intros [|w b] Ha Hb E; cbn in E; simplify_eq; try done.
  - set_solver.
  - set_solver.
  - destruct (IH b) as [-> ->]; [set_solver..|done|done].
Qed.

(** [1, .., n] *)
Definition count_to (n : N) : list N := map N.of_nat (seq 1 (N.to_nat n)).

Lemma count_to_snoc n : count_to (n + 1) = count_to n ++ [(n + 1)%N].
Proof.
  unfold count_to. replace (N.to_nat (n + 1)) with (S (N.to_nat n)) by lia.
  rewrite seq_S, map_app. cbn. do 2 f_equal. lia.
Qed.

(** [iter.try_for_each(f)]: the first error is returned *)
Fixpoint try_for_each {E A} (f : A → result E ()) (l : list A) : result E () :=
  match l with
  | [] => Ok ()
  | x :: l => _ ← f x; try_for_each f l
  end.

Lemma try_for_each_ok {E A} (f : A → result E ()) l u :
  try_for_each f l = Ok u ↔ Forall (λ x, f x = Ok ()) l.
Proof.
  destruct u. induction l as [|x l IH]; cbn; [by split; constructor|].
  rewrite Forall_cons, <-IH, bind_ok. split.
  - intros ([] & ? & ?). done.
  - intros [H1 H2]. eauto.
Qed.

(** ** Reachability *)
Section star.
Context {A : Type} (R : A → A → Prop).

Lemma tc_inv_l x z : tc R x z → ∃ y, R x y ∧ rtc R y z.
Proof. destruct 1; eauto using tc_rtc, rtc_refl. Qed.

(** An invariant that holds initially and is preserved by every step holds in every
    reachable state. *)
Lemma rtc_invariant (P : A → Prop) x y :
  (∀ a b, R a b → P a → P b) → rtc R x y → P x → P y.
Proof. intros HR. induction 1; eauto. Qed.
End star.

(** ** Automation *)

(** Split a run of the [result] monad into the facts of its steps. *)
Ltac inv_result :=
  repeat match goal with
  | H : Ok _ = Ok _ |- _ => injection H as H; subst
  | H : Err _ = Err _ |- _ => injection H as H; subst
  | H : Ok _ = Err _ |- _ => discriminate H
  | H : Err _ = Ok _ |- _ => discriminate H
  | H : mret _ = _ |- _ => unfold mret, result_ret in H
  | H : (_ ≫= _) = Ok _ |- _ => apply bind_ok in H as (? & ? & ?)
  | H : ok_or _ _ = Ok _ |- _ => apply ok_or_ok in H
  | H : map_err _ _ = Ok _ |- _ => apply map_err_ok in H
  | H : guard_err _ _ = Ok _ |- _ => apply guard_err_ok in H
  | u : () |- _ => destruct u
  end.

Create HintDb rustx.
Create Rewrite HintDb rustx_rw.
#[export] Hint Rewrite @bind_ok @map_err_ok @ok_or_ok @guard_err_ok @try_for_each_ok : rustx_rw.
#[export] Hint Resolve u64_saturating_add_small : rustx.
