(* ===== verification/Text.v ===== *)
(** Rust strings: sequences of Unicode scalar values with their UTF-8 byte lengths, the
    [str] methods the sources use ([len], [trim], [is_char_boundary], slicing at a byte
    offset, [join]), decimal formatting of unsigned integers, their order, and
    [BTreeSet<String>] as a finite set read in ascending order. *)

From S2P Require Import Prelude.
From stdpp Require Import pretty.
From Stdlib Require Import Ascii.
From stdpp Require Import options.

(** A [String] is the list of its [char]s (Unicode scalar values). *)
Abbreviation char := N (only parsing).
Abbreviation str := (list N) (only parsing).

(** String literals of the sources. *)
Fixpoint lit (s : string) : str :=
  match s with
  | EmptyString => []
  | String a s => N_of_ascii a :: lit s
  end.

#[export] Instance lit_inj : Inj (=) (=) lit.
Proof.
  intros s. induction s as [|a s IH]; intros [|b t]; cbn; try done.
  intros [= Ha Hs]. f_equal; [|auto].
  by rewrite <-(ascii_N_embedding a), <-(ascii_N_embedding b), Ha.
Qed.

(** [format!("{n}")] for an unsigned integer. *)
Definition dec (n : N) : str := lit (pretty n).

#[export] Instance dec_inj : Inj (=) (=) dec.
Proof. intros n m H%(inj lit). by apply (inj pretty). Qed.

(** Its characters are digits. *)
Lemma pretty_N_go_digits n s :
  Forall (λ c, 48 <= c <= 57)%N (lit s) → Forall (λ c, 48 <= c <= 57)%N (lit (pretty.pretty_N_go n s)).
Proof.
  revert s. induction (N.lt_wf_0 n) as [n _ IH]; intros s Hs.
  destruct (decide (0 < n)%N) as [Hn|]; [|by replace n with 0%N by lia].
  rewrite pretty.pretty_N_go_step by done. apply IH; [by apply N.div_lt|].
  cbn. constructor; [|done]. unfold pretty.pretty_N_char. by repeat case_match.
Qed.

Lemma dec_digits n c : c ∈ dec n → (48 <= c <= 57)%N.
Proof.
  assert (Hd : Forall (λ c, 48 <= c <= 57)%N (dec n)); [|by revert c; apply Forall_forall].
  unfold dec, pretty, pretty.pretty_N. destruct (decide (n = 0)%N); [by repeat constructor|].
  apply pretty_N_go_digits. constructor.
Qed.

(** [char::len_utf8] and [str::len] (in bytes). *)
Definition len_utf8 (c : char) : N :=
  if (c <? 0x80)%N then 1 else if (c <? 0x800)%N then 2
  else if (c <? 0x10000)%N then 3 else 4.

Fixpoint len (s : str) : N :=
  match s with
  | [] => 0
  | c :: s => len_utf8 c + len s
  end.

Lemma len_utf8_bounds c : (1 <= len_utf8 c <= 4)%N.
Proof. unfold len_utf8. repeat case_match; lia. Qed.

Lemma len_app s t : len (s ++ t) = (len s + len t)%N.
Proof. induction s as [|c s IH]; cbn; [done|]. rewrite IH. lia. Qed.

Lemma len_nil_inv s : len s = 0%N → s = [].
Proof. destruct s as [|c s]; cbn; [done|]. pose proof (len_utf8_bounds c). lia. Qed.

(** [char::is_whitespace]: the Unicode [White_Space] property. *)
Definition is_whitespace (c : char) : bool :=
  ((0x9 <=? c) && (c <=? 0xd) || (c =? 0x20) || (c =? 0x85) || (c =? 0xa0)
   || (c =? 0x1680) || ((0x2000 <=? c) && (c <=? 0x200a)) || (c =? 0x2028)
   || (c =? 0x2029) || (c =? 0x202f) || (c =? 0x205f) || (c =? 0x3000))%N.

(** [char::is_control]: the Unicode general category [Cc]. *)
Definition is_control (c : char) : bool :=
  ((c <=? 0x1f) || ((0x7f <=? c) && (c <=? 0x9f)))%N.

Fixpoint trim_start (s : str) : str :=
  match s with
  | c :: t => if is_whitespace c then trim_start t else s
  | [] => []
  end.

(** [str::trim] *)
Definition trim (s : str) : str := rev (trim_start (rev (trim_start s))).

Lemma trim_start_suffix s : ∃ p, s = p ++ trim_start s ∧ Forall (λ c, is_whitespace c = true) p.
Proof.
  induction s as [|c s (p & Hp & Hw)]; cbn; [by exists []|].
  destruct (is_whitespace c) eqn:E; [|by exists []].
  exists (c :: p). split; [by rewrite Hp at 1 | by constructor].
Qed.

Lemma trim_start_head s c t : trim_start s = c :: t → is_whitespace c = false.
Proof.
  induction s as [|d s IH]; cbn; [done|].
  destruct (is_whitespace d) eqn:E; [done|]. by intros [= -> _].
Qed.

Lemma trim_start_id s : (∀ c t, s = c :: t → is_whitespace c = false) → trim_start s = s.
Proof. destruct s as [|c s]; cbn; [done|]. intros H. by rewrite (H c s). Qed.

Lemma trim_start_subset s c : c ∈ trim_start s → c ∈ s.
Proof.
  destruct (trim_start_suffix s) as (p & Hp & _). intros H. rewrite Hp.
  apply elem_of_app. by right.
Qed.

Lemma elem_of_rev {A} (l : list A) x : x ∈ rev l ↔ x ∈ l.
Proof. by rewrite !list_elem_of_In, <-in_rev. Qed.

Lemma trim_subset s c : c ∈ trim s → c ∈ s.
Proof.
  unfold trim. rewrite elem_of_rev. intros H%trim_start_subset.
  rewrite elem_of_rev in H. by apply trim_start_subset.
Qed.

Lemma trim_idemp s : trim (trim s) = trim s.
Proof.
  unfold trim at 1. set (u := trim s).
  assert (Hhd : ∀ c t, u = c :: t → is_whitespace c = false).
  { intros c t Hu. unfold u, trim in Hu.
    destruct (trim_start_suffix (rev (trim_start s))) as (p & Hp & _).
    apply (f_equal (λ l, rev l)) in Hp. rewrite rev_involutive, rev_app_distr, Hu in Hp.
    cbn in Hp. by eapply trim_start_head. }
  assert (Hlast : ∀ c t, rev u = c :: t → is_whitespace c = false).
  { intros c t Hu. unfold u, trim in Hu. rewrite rev_involutive in Hu.
    by eapply trim_start_head. }
  rewrite (trim_start_id u Hhd), (trim_start_id (rev u) Hlast). apply rev_involutive.
Qed.

(** [s.is_char_boundary(i)]: the byte offset [i] starts a [char] or ends the string. *)
Fixpoint is_char_boundary (s : str) (i : N) : bool :=
  match s with
  | [] => (i =? 0)%N
  | c :: s => (i =? 0)%N || ((len_utf8 c <=? i)%N && is_char_boundary s (i - len_utf8 c))
  end.

(** [&s[..i]] and [&s[i..]] at a char boundary [i]. *)
Fixpoint take_bytes (s : str) (i : N) : str :=
  match s with
  | [] => []
  | c :: s => if (len_utf8 c <=? i)%N then c :: take_bytes s (i - len_utf8 c) else []
  end.

Fixpoint drop_bytes (s : str) (i : N) : str :=
  match s with
  | [] => []
  | c :: t => if (len_utf8 c <=? i)%N then drop_bytes t (i - len_utf8 c) else s
  end.

Lemma take_drop_bytes s i : take_bytes s i ++ drop_bytes s i = s.
Proof. revert i. induction s as [|c s IH]; intros i; cbn; [done|]. case_match; cbn; [by rewrite IH|done]. Qed.

Lemma take_bytes_app s t : take_bytes (s ++ t) (len s) = s.
Proof.
  induction s as [|c s IH]; cbn [app len take_bytes].
  - destruct t as [|c t]; cbn; [done|]. pose proof (len_utf8_bounds c).
    by rewrite (proj2 (N.leb_gt _ _)) by lia.
  - rewrite (proj2 (N.leb_le _ _)) by lia.
    replace (len_utf8 c + len s - len_utf8 c)%N with (len s) by lia. by rewrite IH.
Qed.

Lemma len_take_bytes_le s i : (len (take_bytes s i) <= i)%N.
Proof.
  revert i. induction s as [|c s IH]; intros i; cbn; [lia|].
  case_match eqn:E; cbn; [|lia]. apply N.leb_le in E. specialize (IH (i - len_utf8 c)%N). lia.
Qed.

Lemma len_take_bytes s i : is_char_boundary s i = true → len (take_bytes s i) = i.
Proof.
  revert i. induction s as [|c s IH]; intros i; cbn.
  - intros ->%N.eqb_eq. done.
  - intros [->%N.eqb_eq | [H%N.leb_le Hb]%andb_true_iff]%orb_true_iff.
    + pose proof (len_utf8_bounds c). case_match eqn:E; [apply N.leb_le in E; lia | done].
    + rewrite (proj2 (N.leb_le _ _) H). cbn. rewrite IH by done. lia.
Qed.

Lemma len_drop_bytes s i : is_char_boundary s i = true → len (drop_bytes s i) = (len s - i)%N.
Proof.
  intros H. pose proof (f_equal len (take_drop_bytes s i)) as E.
  rewrite len_app, (len_take_bytes _ _ H) in E. lia.
Qed.

Lemma is_char_boundary_0 s : is_char_boundary s 0 = true.
Proof. by destruct s. Qed.

Lemma is_char_boundary_len s : is_char_boundary s (len s) = true.
Proof.
  induction s as [|c s IH]; cbn; [done|]. apply orb_true_iff. right.
  rewrite (proj2 (N.leb_le _ _)) by lia. cbn.
  by replace (len_utf8 c + len s - len_utf8 c)%N with (len s) by lia.
Qed.

(** ** The order of strings

    Rust compares strings bytewise; on UTF-8 that is the lexicographic order of the
    scalar values. *)
Fixpoint str_cmp (s t : str) : comparison :=
  match s, t with
  | [], [] => Eq
  | [], _ :: _ => Lt
  | _ :: _, [] => Gt
  | c :: s, d :: t => match (c ?= d)%N with Eq => str_cmp s t | o => o end
  end.

Definition str_lt (s t : str) : Prop := str_cmp s t = Lt.
Definition str_le (s t : str) : Prop := str_cmp s t ≠ Gt.

#[export] Instance str_lt_dec : RelDecision str_lt.
Proof. intros s t. unfold str_lt. apply _. Defined.
#[export] Instance str_le_dec : RelDecision str_le.
Proof. intros s t. unfold str_le. apply _. Defined.

Lemma str_cmp_eq s t : str_cmp s t = Eq ↔ s = t.
Proof.
  revert t. induction s as [|c s IH]; intros [|d t]; cbn; try done.
  destruct (N.compare_spec c d) as [->|H|H].
  - rewrite IH. naive_solver.
  - split; [done|]. intros [= -> _]. lia.
  - split; [done|]. intros [= -> _]. lia.
Qed.

Lemma str_cmp_antisym s t : str_cmp t s = CompOpp (str_cmp s t).
Proof.
  revert t. induction s as [|c s IH]; intros [|d t]; cbn; try done.
  rewrite N.compare_antisym. destruct (c ?= d)%N; cbn; auto.
Qed.

Lemma str_lt_cons c s d t :
  str_lt (c :: s) (d :: t) ↔ (c < d)%N ∨ c = d ∧ str_lt s t.
Proof.
  unfold str_lt. cbn. destruct (N.compare_spec c d); naive_solver lia.
Qed.

#[export] Instance str_lt_trans : Transitive str_lt.
Proof.
  intros s. induction s as [|c s IH]; intros [|d t] [|e u]; try done.
  rewrite !str_lt_cons. intros [H1|[-> H1]] [H2|[-> H2]]; [left; lia | by left | by left |].
  right. eauto.
Qed.

Lemma str_lt_neq s t : str_lt s t → s ≠ t.
Proof. intros H ->. unfold str_lt in H. by rewrite (proj2 (str_cmp_eq t t)) in H. Qed.

#[export] Instance str_lt_irrefl : Irreflexive str_lt.
Proof. intros s H. by apply str_lt_neq in H. Qed.

Lemma str_le_lteq s t : str_le s t ↔ str_lt s t ∨ s = t.
Proof.
  unfold str_le, str_lt. rewrite <-str_cmp_eq.
  destruct (str_cmp s t); naive_solver.
Qed.

Lemma str_lt_gt s t : ¬ str_le s t ↔ str_lt t s.
Proof.
  unfold str_le, str_lt. rewrite (str_cmp_antisym s t).
  destruct (str_cmp s t); cbn; naive_solver.
Qed.

#[export] Instance str_le_total : Total str_le.
Proof.
  intros s t. destruct (decide (str_le s t)) as [H|H]; [by left|].
  right. apply str_le_lteq. left. by apply str_lt_gt.
Qed.

#[export] Instance str_le_trans : Transitive str_le.
Proof.
  intros s t u H1%str_le_lteq H2%str_le_lteq. apply str_le_lteq.
  destruct H1 as [H1| ->], H2 as [H2| ->]; eauto using str_lt_trans.
Qed.

(** ** [BTreeSet<String>]

    A finite set of strings, iterated in ascending order. *)
Definition ascending (X : gset str) : list str := merge_sort str_le (elements X).

Lemma elem_of_ascending X s : s ∈ ascending X ↔ s ∈ X.
Proof. unfold ascending. by rewrite (merge_sort_Permutation str_le), elem_of_elements. Qed.

Lemma ascending_StronglySorted X : StronglySorted str_lt (ascending X).
Proof.
  assert (Hs : StronglySorted str_le (ascending X)).
  { apply Sorted_StronglySorted, Sorted_merge_sort; apply _. }
  assert (Hn : NoDup (ascending X)).
  { unfold ascending. rewrite (merge_sort_Permutation str_le). apply NoDup_elements. }
  revert Hs Hn. induction (ascending X) as [|s l IH]; intros Hs Hn; [constructor|].
  apply NoDup_cons in Hn as [Hx Hn]. apply StronglySorted_inv in Hs as [Hs Hall].
  constructor; [auto|]. apply Forall_forall. intros t Ht.
  pose proof (proj1 (Forall_forall _ _) Hall t Ht) as [?| ->]%str_le_lteq; done.
Qed.

(** ** Lists of strings *)

(** [parts.join(sep)] *)
Fixpoint join (sep : str) (l : list str) : str :=
  match l with
  | [] => []
  | [x] => x
  | x :: l => x ++ sep ++ join sep l
  end.

(** Literals and numbers stay folded in proofs; [vm_compute] still evaluates them. *)
#[global] Arguments lit : simpl never.
#[global] Arguments dec : simpl never.
#[global] Arguments trim : simpl never.
