(* ===== verification/Json.v ===== *)
(** [serde_json::Value] and [BTreeMap<String, _>].

    Both are third-party or standard-library types; the model keeps their constructors
    and the map operations the sources call.  A [BTreeMap] is an association list in
    ascending key order: [map_insert] keeps the order, and iteration is the list. *)

From S2P Require Import Prelude Text.
From stdpp Require Import options.

(** [BTreeMap::get], [insert] and [remove]. *)
Section btree.
Context {V : Type}.
Implicit Types m : list (str * V).

Fixpoint map_get (k : str) m : option V :=
  match m with
  | [] => None
  | (k', v) :: m => if decide (k = k') then Some v else map_get k m
  end.

Fixpoint map_insert (k : str) (v : V) m : list (str * V) :=
  match m with
  | [] => [(k, v)]
  | (k', v') :: m' =>
      match str_cmp k k' with
      | Lt => (k, v) :: m
      | Eq => (k, v) :: m'
      | Gt => (k', v') :: map_insert k v m'
      end
  end.

Fixpoint map_remove (k : str) m : list (str * V) :=
  match m with
  | [] => []
  | (k', v') :: m' => if decide (k = k') then map_remove k m' else (k', v') :: map_remove k m'
  end.

(** The keys of a [BTreeMap] are strictly ascending. *)
Definition map_sorted m : Prop := StronglySorted str_lt m.*1.

Lemma map_get_insert k k' v m :
  map_get k' (map_insert k v m) = if decide (k' = k) then Some v else map_get k' m.
Proof.
  induction m as [|[k0 v0] m IH]; cbn; [done|].
  pose proof (str_cmp_eq k k0) as Heq.
  destruct (str_cmp k k0) eqn:E; cbn.
  - rewrite (proj1 Heq eq_refl). by repeat case_decide.
  - done.
  - rewrite IH. repeat case_decide; subst; try done. naive_solver.
Qed.

Lemma map_get_remove k k' m :
  map_get k' (map_remove k m) = if decide (k' = k) then None else map_get k' m.
Proof.
  induction m as [|[k0 v0] m IH]; cbn; [by case_decide|].
  repeat case_decide; subst; cbn; rewrite ?IH; repeat case_decide; congruence.
Qed.

Lemma elem_of_map_insert k v m k' :
  k' ∈ (map_insert k v m).*1 → k' = k ∨ k' ∈ m.*1.
Proof.
  induction m as [|[k0 v0] m IH]; cbn; [set_solver|].
  destruct (str_cmp k k0); cbn; set_solver.
Qed.

Lemma map_insert_sorted k v m : map_sorted m → map_sorted (map_insert k v m).
Proof.
  unfold map_sorted. induction m as [|[k0 v0] m IH]; cbn; [repeat constructor|].
  intros [Hs Hall]%StronglySorted_inv. pose proof (str_cmp_antisym k k0) as Ha.
  destruct (str_cmp k k0) eqn:E; cbn in *.
  - apply str_cmp_eq in E as ->. by constructor.
  - constructor; [by constructor|]. constructor; [done|].
    eapply Forall_impl; [done|]. intros x Hx. by trans k0.
  - constructor; [auto|]. apply Forall_forall. intros x [->|Hx]%elem_of_map_insert.
    + done.
    + by eapply (proj1 (Forall_forall _ _) Hall).
Qed.

Lemma elem_of_map_remove k m k' : k' ∈ (map_remove k m).*1 → k' ∈ m.*1.
Proof. induction m as [|[k0 v0] m IH]; cbn; [done|]. case_decide; cbn; set_solver. Qed.

Lemma map_remove_sorted k m : map_sorted m → map_sorted (map_remove k m).
Proof.
  unfold map_sorted. induction m as [|[k0 v0] m IH]; cbn; [done|].
  intros [Hs Hall]%StronglySorted_inv. case_decide; cbn; [auto|].
  constructor; [auto|]. apply Forall_forall. intros x Hx%elem_of_map_remove.
  by eapply (proj1 (Forall_forall _ _) Hall).
Qed.
End btree.

(** [serde_json::Number]: the integers exactly, a float as its printed form. *)
Inductive json_number :=
| PosInt (n : N)
| NegInt (z : Z)
| Float (repr : str).

(** [serde_json::Value]; an object is a [BTreeMap] (the [preserve_order] feature is off). *)
Inductive json :=
| Null
| Bool (b : bool)
| Number (n : json_number)
| String (s : str)
| Array (l : list json)
| Object (m : list (str * json)).

#[export] Instance json_number_eq_dec : EqDecision json_number.
Proof. solve_decision. Defined.

Definition json_eq_dec_fix : ∀ x y : json, {x = y} + {x ≠ y}.
Proof.
  fix IH 1. intros x y. unfold EqDecision, Decision in *.
  decide equality.
  - apply bool_dec.
  - apply (decide (_ = _)).
  - apply (decide (_ = _)).
  - by apply List.list_eq_dec.
  - apply List.list_eq_dec. intros [k v] [k' v']. decide equality. apply (decide (_ = _)).
Defined.
#[export] Instance json_eq_dec : EqDecision json := json_eq_dec_fix.

(** [Value::is_null] *)
Definition is_null (v : json) : bool := match v with Null => true | _ => false end.

Example json_eq_dec_computes :
  bool_decide (Object [(lit "k", Array [Null; Bool true])]
               = Object [(lit "k", Array [Null; Bool true])]) = true.
Proof. vm_compute. reflexivity. Qed.
