(* ===== verification/Goal.v ===== *)
(** The Goal state machine ([src/src/goal.rs]): the revisioned snapshot, its
    mutations and the pure [transition] the durable store runs inside its write
    transaction. *)

From S2P Require Import Prelude Text.
From stdpp Require Import options.

Definition MAX_ROUND_BUDGET : N := 100.
Definition MAX_OBJECTIVE_BYTES : N := 8192.

Record GoalRef := { goal_id : str; revision : N }.

Inductive GoalPhase := Active | Paused | Blocked | Complete.

Inductive GoalOrigin :=
| HumanAttempt (message_id : str) (attempt_id : str)
| RuntimeControl.

Record GoalSnapshot := {
  reference : GoalRef;
  objective : str;
  phase : GoalPhase;
  blocked_reason : option str;
  autonomous_round_budget : N;
  autonomous_rounds_consumed : N;
  origin : GoalOrigin;
  last_round_message_id : option str;
}.

Inductive GoalMutation :=
| Pause
| Resume
| Block (reason : str)
| MComplete
| Edit (new_objective : str)
| Budget (rounds : N).

Record GoalRejection := { rej_reason : str; rej_current : option GoalSnapshot }.

Abbreviation GoalResult := (result GoalRejection GoalSnapshot).

Inductive GoalWrite :=
| Create (new_objective : str) (budget : N) (new_origin : GoalOrigin)
| Mutate (expected : GoalRef) (mutation : GoalMutation).

Inductive GoalChange := CCreate | CPause | CResume | CBlock | CComplete | CEdit | CBudget.

Inductive GoalFact :=
| Written (previous : option GoalRef) (current : GoalRef) (fact_phase : GoalPhase)
    (change : GoalChange)
| RoundAdmitted (previous : GoalRef) (current : GoalRef) (round : N) (message_id : str).

#[export] Instance GoalRef_eq_dec : EqDecision GoalRef.
Proof. solve_decision. Defined.
#[export] Instance GoalPhase_eq_dec : EqDecision GoalPhase.
Proof. solve_decision. Defined.
#[export] Instance GoalOrigin_eq_dec : EqDecision GoalOrigin.
Proof. solve_decision. Defined.
#[export] Instance GoalSnapshot_eq_dec : EqDecision GoalSnapshot.
Proof. solve_decision. Defined.

Definition reject (reason : str) (current : option GoalSnapshot) : GoalRejection :=
  {| rej_reason := reason; rej_current := current |}.

Definition validate_text (text : str) : bool :=
  negb (bool_decide (trim text = [])) && (len text <=? MAX_OBJECTIVE_BYTES)%N.

(** [(1..=MAX_ROUND_BUDGET).contains(&n)] *)
Definition budget_in_bounds (n : N) : bool := ((1 <=? n) && (n <=? MAX_ROUND_BUDGET))%N.

(** The field updates of a [&mut GoalSnapshot]. *)
Definition with_phase (p : GoalPhase) (b : option str) (g : GoalSnapshot) : GoalSnapshot :=
  {| reference := reference g; objective := objective g; phase := p; blocked_reason := b;
     autonomous_round_budget := autonomous_round_budget g;
     autonomous_rounds_consumed := autonomous_rounds_consumed g; origin := origin g;
     last_round_message_id := last_round_message_id g |}.

Definition with_objective (o : str) (g : GoalSnapshot) : GoalSnapshot :=
  {| reference := reference g; objective := o; phase := phase g;
     blocked_reason := blocked_reason g;
     autonomous_round_budget := autonomous_round_budget g;
     autonomous_rounds_consumed := autonomous_rounds_consumed g; origin := origin g;
     last_round_message_id := last_round_message_id g |}.

Definition with_budget (n : N) (g : GoalSnapshot) : GoalSnapshot :=
  {| reference := reference g; objective := objective g; phase := phase g;
     blocked_reason := blocked_reason g; autonomous_round_budget := n;
     autonomous_rounds_consumed := autonomous_rounds_consumed g; origin := origin g;
     last_round_message_id := last_round_message_id g |}.

Definition with_revision (r : N) (g : GoalSnapshot) : GoalSnapshot :=
  {| reference := {| goal_id := goal_id (reference g); revision := r |};
     objective := objective g; phase := phase g; blocked_reason := blocked_reason g;
     autonomous_round_budget := autonomous_round_budget g;
     autonomous_rounds_consumed := autonomous_rounds_consumed g; origin := origin g;
     last_round_message_id := last_round_message_id g |}.

Definition create_goal (current : option GoalSnapshot) (objective : str) (budget : N)
    (origin : GoalOrigin) : GoalResult :=
  if match current with Some g => negb (bool_decide (phase g = Complete)) | None => false end
  then Err (reject (lit "An unfinished Goal already exists") current)
  else if negb (validate_text objective) || negb (budget_in_bounds budget)
  then Err (reject (lit "Objective or autonomous-round budget is out of bounds") current)
  else
    revision ← ok_or (reject (lit "Goal revision exhausted") current)
                 (match current with
                  | None => Some 1%N
                  | Some g => u64_checked_add (revision (reference g)) 1
                  end);
    Ok {| reference := {| goal_id := lit "goal-" ++ dec revision; revision := revision |};
          objective := objective; phase := Active; blocked_reason := None;
          autonomous_round_budget := budget; autonomous_rounds_consumed := 0;
          origin := origin; last_round_message_id := None |}.

(** The match of [transition] on the mutation: the mutated goal, or [None] for the
    catch-all arm. *)
Definition apply_mutation (goal : GoalSnapshot) (mutation : GoalMutation)
    : option GoalSnapshot :=
  match mutation with
  | Pause =>
      if bool_decide (phase goal = Active)
      then Some (with_phase Paused (blocked_reason goal) goal) else None
  | Resume =>
      if bool_decide (phase goal = Paused) || bool_decide (phase goal = Blocked)
      then Some (with_phase Active None goal) else None
  | Block reason =>
      if bool_decide (phase goal = Active) && validate_text reason
      then Some (with_phase Blocked (Some reason) goal) else None
  | MComplete =>
      if bool_decide (phase goal = Active)
      then Some (with_phase Complete (blocked_reason goal) goal) else None
  | Edit objective => if validate_text objective then Some (with_objective objective goal) else None
  | Budget rounds =>
      if budget_in_bounds rounds && (autonomous_rounds_consumed goal <=? rounds)%N
      then Some (with_budget rounds goal) else None
  end.

Definition mutate_goal (current : option GoalSnapshot) (expected : GoalRef)
    (mutation : GoalMutation) : GoalResult :=
  match current with
  | None => Err (reject (lit "No current Goal") current)
  | Some goal =>
      if negb (bool_decide (reference goal = expected))
      then Err (reject (lit "Stale GoalRef; observe current state before trying again") current)
      else if bool_decide (phase goal = Complete)
      then Err (reject (lit "Complete is terminal") current)
      else
        goal ← ok_or (reject (lit "Invalid Goal transition or value") current)
                 (apply_mutation goal mutation);
        revision ← ok_or (reject (lit "Goal revision exhausted") current)
                     (u64_checked_add (revision (reference goal)) 1);
        Ok (with_revision revision goal)
  end.

Definition transition (current : option GoalSnapshot) (write : GoalWrite) : GoalResult :=
  match write with
  | Create objective budget origin => create_goal current objective budget origin
  | Mutate expected mutation => mutate_goal current expected mutation
  end.

(** [GoalWrite::change] *)
Definition change (w : GoalWrite) : GoalChange :=
  match w with
  | Create _ _ _ => CCreate
  | Mutate _ m =>
      match m with
      | Pause => CPause | Resume => CResume | Block _ => CBlock
      | MComplete => CComplete | Edit _ => CEdit | Budget _ => CBudget
      end
  end.

(** [GoalDomain::authorizes_continuation] on the loaded snapshot: [Active] with budget
    left. *)
Definition authorizes_continuation (current : option GoalSnapshot) : bool :=
  match current with
  | Some g => bool_decide (phase g = Active)
              && (autonomous_rounds_consumed g <? autonomous_round_budget g)%N
  | None => false
  end.

(** ** The invariant of every durable Goal snapshot *)
Record goal_ok (g : GoalSnapshot) : Prop := {
  ok_objective : validate_text (objective g) = true;
  ok_budget : budget_in_bounds (autonomous_round_budget g) = true;
  ok_consumed : (autonomous_rounds_consumed g <= autonomous_round_budget g)%N;
  ok_revision : (1 <= revision (reference g) <= u64_max)%N;
  ok_blocked : ∀ r, blocked_reason g = Some r → phase g = Blocked ∧ validate_text r = true;
  ok_blocked_reason : phase g = Blocked → is_Some (blocked_reason g);
}.

(** The phase graph: the edges a mutation may take. *)
Inductive phase_edge : GoalPhase → GoalPhase → Prop :=
| edge_pause : phase_edge Active Paused
| edge_block : phase_edge Active Blocked
| edge_complete : phase_edge Active Complete
| edge_resume_paused : phase_edge Paused Active
| edge_resume_blocked : phase_edge Blocked Active
| edge_stay p : p ≠ Complete → phase_edge p p.

Lemma apply_mutation_reference g m g' :
  apply_mutation g m = Some g' → reference g' = reference g.
Proof. destruct m; cbn; repeat case_match; naive_solver. Qed.

Lemma apply_mutation_edge g m g' :
  phase g ≠ Complete → apply_mutation g m = Some g' → phase_edge (phase g) (phase g').
Proof.
  intros Hc. destruct m; cbn; intros H; repeat case_match; simplify_eq; cbn in *;
    repeat match goal with
    | H : _ && _ = true |- _ => apply andb_true_iff in H as [? ?]
    | H : _ || _ = true |- _ => apply orb_true_iff in H as [?|?]
    | H : bool_decide _ = true |- _ => apply bool_decide_eq_true in H; rewrite H in *
    end; constructor; done.
Qed.

Lemma apply_mutation_ok g m g' : goal_ok g → apply_mutation g m = Some g' → goal_ok g'.
Proof.
  intros [Ho Hb Hc Hr Hbl Hbr] H. destruct m; cbn in H; repeat case_match; simplify_eq;
    repeat match goal with
    | H : _ && _ = true |- _ => apply andb_true_iff in H as [? ?]
    | H : bool_decide _ = true |- _ => apply bool_decide_eq_true in H
    | H : (_ <=? _)%N = true |- _ => apply N.leb_le in H
    end; split; cbn; try done; try naive_solver.
  all: intros r [? ?]%Hbl; congruence.
Qed.

Lemma with_revision_ok g r : goal_ok g → (1 <= r <= u64_max)%N → goal_ok (with_revision r g).
Proof. intros [] ?; split; cbn; done. Qed.

Lemma mutate_goal_Ok c e m g' :
  mutate_goal c e m = Ok g' →
  ∃ g g1, c = Some g ∧ reference g = e ∧ phase g ≠ Complete ∧
    apply_mutation g m = Some g1 ∧ g' = with_revision (revision (reference g) + 1) g1 ∧
    (revision (reference g) + 1 <= u64_max)%N.
Proof.
  unfold mutate_goal. destruct c as [g|]; [|done].
  case_bool_decide as Href; cbn; [|done]. case_bool_decide as Hph; [done|].
  intros H. inv_result. rename x into g1. pose proof (apply_mutation_reference _ _ _ H) as E.
  rewrite E in *. apply u64_checked_add_Some in H0 as [-> ?]. eauto 10.
Qed.

Definition current_revision (c : option GoalSnapshot) : N :=
  match c with Some g => revision (reference g) | None => 0 end.

Lemma create_goal_Ok c o b og g' :
  create_goal c o b og = Ok g' →
  validate_text o = true ∧ budget_in_bounds b = true ∧
  (∀ g, c = Some g → phase g = Complete ∧ (revision (reference g) + 1 <= u64_max)%N) ∧
  g' = {| reference := {| goal_id := lit "goal-" ++ dec (current_revision c + 1);
                          revision := current_revision c + 1 |};
          objective := o; phase := Active; blocked_reason := None;
          autonomous_round_budget := b; autonomous_rounds_consumed := 0;
          origin := og; last_round_message_id := None |}.
Proof.
  unfold create_goal. destruct (match c with Some g => _ | None => _ end) eqn:Hc; [done|].
  destruct (negb _ || negb _) eqn:Hv; [done|].
  apply orb_false_iff in Hv as [Hv1%negb_false_iff Hv2%negb_false_iff].
  intros H. inv_result. split_and!; try done; destruct c as [g|]; cbn in *; try done.
  - intros g0 [= <-]. apply negb_false_iff, bool_decide_eq_true in Hc.
    by apply u64_checked_add_Some in H as [-> ?].
  - by apply u64_checked_add_Some in H as [-> ?].
  - by injection H as <-.
Qed.

(** The Goal invariant is inductive: whatever the write, a successful transition from an
    absent or well-formed Goal gives a well-formed Goal (bounded objective, budget within
    1..=100, consumption within the budget, a blocked reason exactly while Blocked). *)
Theorem transition_preserves_ok c w g' :
  (∀ g, c = Some g → goal_ok g) → transition c w = Ok g' → goal_ok g'.
Proof.
  intros Hc. destruct w as [o b og|e m]; cbn.
  - intros (Ho & Hb & Hg & ->)%create_goal_Ok. split; cbn; try done; [apply N.le_0_l|].
    destruct c as [g|]; cbn; [|done]. specialize (Hg g eq_refl) as [_ ?]. lia.
  - intros (g & g1 & -> & _ & _ & Ha & -> & Hr)%mutate_goal_Ok.
    apply with_revision_ok; [|lia]. eapply apply_mutation_ok; eauto.
Qed.

(** Optimistic concurrency: a mutation succeeds only against the exact current
    reference; it keeps the Goal's identity, origin and round accounting, moves the phase
    along the phase graph and advances the revision by exactly one. *)
Theorem mutate_effect c e m g' :
  transition c (Mutate e m) = Ok g' →
  ∃ g, c = Some g ∧ reference g = e ∧ phase_edge (phase g) (phase g') ∧
    goal_id (reference g') = goal_id e ∧ revision (reference g') = (revision e + 1)%N ∧
    autonomous_rounds_consumed g' = autonomous_rounds_consumed g ∧ origin g' = origin g.
Proof.
  intros (g & g1 & -> & <- & Hp & Ha & -> & _)%mutate_goal_Ok. exists g.
  pose proof (apply_mutation_reference _ _ _ Ha) as Hr.
  pose proof (apply_mutation_edge _ _ _ Hp Ha) as He.
  split_and!; cbn; try done; [by rewrite Hr | |];
    destruct m; cbn in Ha; repeat case_match; simplify_eq; done.
Qed.

(** A history of the singleton Goal row: the results of successful writes. *)
Inductive goal_step : option GoalSnapshot → option GoalSnapshot → Prop :=
| goal_step_write c w g : transition c w = Ok g → goal_step c (Some g).

Lemma goal_step_revision c c' : goal_step c c' → current_revision c' = (current_revision c + 1)%N.
Proof.
  intros [c0 w g H]. destruct w as [o b og|e m]; cbn in H.
  - apply create_goal_Ok in H as (_ & _ & _ & ->). by destruct c0.
  - by apply mutate_goal_Ok in H as (g0 & g1 & -> & _ & _ & _ & -> & _).
Qed.

Lemma goal_steps_revision c c' : rtc goal_step c c' → (current_revision c <= current_revision c')%N.
Proof.
  induction 1 as [|c1 c2 c3 H1 H2 IH]; [done|]. apply goal_step_revision in H1. lia.
Qed.

(** No ABA: once any write has succeeded after an observation, the observed reference is
    stale for ever.  Every later mutation that names it is rejected, even across
    completion and the creation of a new Goal. *)
Theorem stale_reference_never_revives g c1 c2 m :
  goal_step (Some g) c1 → rtc goal_step c1 c2 →
  ∃ why, transition c2 (Mutate (reference g) m) = Err (reject why c2).
Proof.
  intros H1%goal_step_revision H2%goal_steps_revision.
  destruct c2 as [g2|]; cbn in *; [|by eexists].
  case_bool_decide as He; cbn; [|by eexists]. rewrite He in H2. lia.
Qed.

(** Complete is terminal: no mutation leaves it, and only [Create] succeeds, with a fresh
    identity that names the next revision. *)
Theorem complete_is_terminal g w g' :
  phase g = Complete → transition (Some g) w = Ok g' →
  ∃ o b og, w = Create o b og ∧ phase g' = Active ∧
    revision (reference g') = (revision (reference g) + 1)%N ∧
    goal_id (reference g') = lit "goal-" ++ dec (revision (reference g) + 1).
Proof.
  intros Hp. destruct w as [o b og|e m]; unfold transition.
  - intros (_ & _ & _ & ->)%create_goal_Ok. cbn. eauto 10.
  - intros (g0 & g1 & [= <-] & _ & Hn & _)%mutate_goal_Ok. done.
Qed.

(** ** Concrete instances *)

Definition demo_goal (p : GoalPhase) : GoalSnapshot :=
  {| reference := {| goal_id := lit "goal-1"; revision := 1 |}; objective := lit "Ship it";
     phase := p; blocked_reason := None; autonomous_round_budget := 5;
     autonomous_rounds_consumed := 2; origin := RuntimeControl; last_round_message_id := None |}.

Definition demo_paused : GoalResult :=
  transition (Some (demo_goal Active)) (Mutate (reference (demo_goal Active)) Pause).

Definition demo_result : GoalSnapshot := match demo_paused with Ok g => g | Err _ => demo_goal Active end.

Lemma demo_paused_ok : demo_paused = Ok demo_result.
Proof. by vm_compute. Qed.

Lemma transition_preserves_ok_witness : goal_ok demo_result ∧ phase demo_result = Paused.
Proof.
  split; [|by vm_compute].
  eapply (transition_preserves_ok (Some (demo_goal Active))); [|exact demo_paused_ok].
  intros g [= <-].
  split; [by vm_compute|by vm_compute|by vm_compute|split; by vm_compute|done|done].
Defined.

Lemma mutate_effect_witness :
  ∃ g, Some (demo_goal Active) = Some g ∧ phase_edge (phase g) (phase demo_result).
Proof.
  destruct (mutate_effect _ _ _ _ demo_paused_ok) as (g & Hg & _ & He & _). by exists g.
Defined.

Lemma stale_reference_never_revives_witness :
  ∃ why, transition (Some demo_result) (Mutate (reference (demo_goal Active)) Resume)
    = Err (reject why (Some demo_result)).
Proof.
  eapply (stale_reference_never_revives (demo_goal Active) (Some demo_result)); [|done].
  eapply goal_step_write. exact demo_paused_ok.
Defined.

Definition demo_created : GoalResult :=
  transition (Some (demo_goal Complete)) (Create (lit "Next") 3 RuntimeControl).

Lemma complete_is_terminal_witness :
  match demo_created with
  | Ok g => ∃ o b og, Create (lit "Next") 3 RuntimeControl = Create o b og ∧ phase g = Active
  | Err _ => False
  end.
Proof.
  destruct demo_created as [g|] eqn:H; [|by vm_compute in H].
  destruct (complete_is_terminal (demo_goal Complete) (Create (lit "Next") 3 RuntimeControl) g
    eq_refl H)
    as (o & b & og & Hw & Hp & _). by exists o, b, og.
Defined.
