(* ===== verification/Message.v ===== *)
(** The canonical conversation model ([src/src/message/types.rs],
    [src/src/message/content.rs]) and the tool-plane values it carries
    ([src/src/tools/types.rs]): the three message roles, their content blocks, and the
    two metadata values with invariants of their own, [CompactionSummaryMetadata] and
    [AgentStatusGenerationMetadata].

    Identities ([MessageId], [ToolCallId], ...) are their strings; a [DateTime<Utc>] is
    its instant as an integer. *)

From S2P Require Import Prelude Text Json Goal.
From stdpp Require Import options.

Abbreviation MessageId := (list N).
Abbreviation ToolCallId := (list N).
Abbreviation ToolId := (list N).
Abbreviation DateTime := Z.

(** ** Shared content blocks *)

Record ImageReference := { img_artifact_id : str; img_alt : option str }.
Record FileReference := {
  file_artifact_id : str; file_name : option str; file_mime_type : option str;
  file_description : option str }.
Record UploadedFileRef := { batch_id : str; upload_name : str }.

(** ** Tool-plane values *)

Record ToolCallStart := { start_id : ToolCallId; start_tool_id : ToolId; start_name : str }.
Record ToolCall := {
  call_id : ToolCallId; call_tool_id : ToolId; call_name : str; call_arguments : json }.

Inductive CancellationReason :=
| UserRequested | RuntimeShutdown | ParentCancelled | SubagentExecutionDeadlineExceeded.

Inductive ToolCancellationPhase := BeforeStart | DuringExecution.

Inductive ToolExecutionStatus :=
| Success
| Failed (error : str)
| Denied (reason : str)
| Cancelled (why : CancellationReason) (at_phase : ToolCancellationPhase)
| TimedOut
| OutcomeUnknown (detail : str).

Inductive ToolResultContent :=
| RText (text : str)
| RJson (value : json)
| RFile (file : FileReference)
| RImage (image : ImageReference).

(** The status, content and timing of a [ToolExecutionResult]; the delivery, truncation,
    workflow and managed-output attachments are not part of this model. *)
Record ToolExecutionResult := {
  status : ToolExecutionStatus;
  result_content : list ToolResultContent;
  duration_ms : N;
  exit_code : option Z;
}.

(** ** Canonical message blocks *)

Inductive OpenAiResponsesContinuation :=
| Stored (previous_response_id : str)
| Stateless (items : list json).

Inductive ProviderContinuationState :=
| OpenAiResponses (c : OpenAiResponsesContinuation)
| Anthropic (opaque : json).

Record ReasoningBlock := {
  reasoning_text : option str; provider_state : option ProviderContinuationState }.

Inductive AssistantContentBlock :=
| AText (text : str)
| AReasoning (block : ReasoningBlock)
| AToolCall (call : ToolCall)
| ARefusal (text : str)
| AImage (image : ImageReference).

Record AssistantMessageBlock := {
  assistant_id : MessageId; assistant_content : list AssistantContentBlock }.

Record ToolCallOccurrenceRef := { assistant_message_id : MessageId; block_index : N }.

Record ToolMessageBlock := {
  tool_message_id : MessageId;
  occurrence : ToolCallOccurrenceRef;
  tool_call_id : ToolCallId;
  tool_id : ToolId;
  tool_result : ToolExecutionResult;
}.

Inductive UserSource :=
| Human
| Agent (agent_id : str)
| Fleet
| ExternalSystem
| Runtime
| Extension (contributor : str).

Inductive UserContentBlock :=
| UUploadedFile (file : UploadedFileRef)
| UText (text : str)
| UImage (image : ImageReference)
| UFile (file : FileReference).

Inductive AgentStatusModuleId := Time | Background | Todo.

Record AgentStatusGenerationMetadata := {
  generated_at : DateTime; modules : list AgentStatusModuleId }.

Inductive ContextKind :=
| NativeEnvironment
| GoalStatus (goal : GoalSnapshot)
| RuntimeToolObservation
| ExtensionEnvironment
| AgentStatus (metadata : AgentStatusGenerationMetadata).

Inductive InboundKind :=
| GoalContinuation (goal : GoalRef)
| KMessage
| Context (kind : ContextKind).

Record UserMessageBlock := {
  user_id : MessageId;
  user_content : list UserContentBlock;
  user_source : UserSource;
  user_kind : InboundKind;
  user_timestamp : option DateTime;
}.

Inductive MessageBlock :=
| User (m : UserMessageBlock)
| Assistant (m : AssistantMessageBlock)
| Tool (m : ToolMessageBlock).

(** ** Decidable equality ([#[derive(PartialEq)]]) *)
#[export] Instance ImageReference_eq_dec : EqDecision ImageReference.
Proof. solve_decision. Defined.
#[export] Instance FileReference_eq_dec : EqDecision FileReference.
Proof. solve_decision. Defined.
#[export] Instance UploadedFileRef_eq_dec : EqDecision UploadedFileRef.
Proof. solve_decision. Defined.
#[export] Instance ToolCallStart_eq_dec : EqDecision ToolCallStart.
Proof. solve_decision. Defined.
#[export] Instance ToolCall_eq_dec : EqDecision ToolCall.
Proof. solve_decision. Defined.
#[export] Instance CancellationReason_eq_dec : EqDecision CancellationReason.
Proof. solve_decision. Defined.
#[export] Instance ToolCancellationPhase_eq_dec : EqDecision ToolCancellationPhase.
Proof. solve_decision. Defined.
#[export] Instance ToolExecutionStatus_eq_dec : EqDecision ToolExecutionStatus.
Proof. solve_decision. Defined.
#[export] Instance ToolResultContent_eq_dec : EqDecision ToolResultContent.
Proof. solve_decision. Defined.
#[export] Instance ToolExecutionResult_eq_dec : EqDecision ToolExecutionResult.
Proof. solve_decision. Defined.
#[export] Instance OpenAiResponsesContinuation_eq_dec : EqDecision OpenAiResponsesContinuation.
Proof. solve_decision. Defined.
#[export] Instance ProviderContinuationState_eq_dec : EqDecision ProviderContinuationState.
Proof. solve_decision. Defined.
#[export] Instance ReasoningBlock_eq_dec : EqDecision ReasoningBlock.
Proof. solve_decision. Defined.
#[export] Instance AssistantContentBlock_eq_dec : EqDecision AssistantContentBlock.
Proof. solve_decision. Defined.
#[export] Instance AssistantMessageBlock_eq_dec : EqDecision AssistantMessageBlock.
Proof. solve_decision. Defined.
#[export] Instance ToolCallOccurrenceRef_eq_dec : EqDecision ToolCallOccurrenceRef.
Proof. solve_decision. Defined.
#[export] Instance ToolMessageBlock_eq_dec : EqDecision ToolMessageBlock.
Proof. solve_decision. Defined.
#[export] Instance UserSource_eq_dec : EqDecision UserSource.
Proof. solve_decision. Defined.
#[export] Instance UserContentBlock_eq_dec : EqDecision UserContentBlock.
Proof. solve_decision. Defined.
#[export] Instance AgentStatusModuleId_eq_dec : EqDecision AgentStatusModuleId.
Proof. solve_decision. Defined.
#[export] Instance AgentStatusGenerationMetadata_eq_dec : EqDecision AgentStatusGenerationMetadata.
Proof. solve_decision. Defined.
#[export] Instance ContextKind_eq_dec : EqDecision ContextKind.
Proof. solve_decision. Defined.
#[export] Instance InboundKind_eq_dec : EqDecision InboundKind.
Proof. solve_decision. Defined.
#[export] Instance UserMessageBlock_eq_dec : EqDecision UserMessageBlock.
Proof. solve_decision. Defined.
#[export] Instance MessageBlock_eq_dec : EqDecision MessageBlock.
Proof. solve_decision. Defined.
#[export] Instance ToolCallOccurrenceRef_countable : Countable ToolCallOccurrenceRef.
Proof.
  apply (inj_countable' (λ o, (assistant_message_id o, block_index o))
           (λ p, {| assistant_message_id := p.1; block_index := p.2 |})).
  by intros [].
Defined.

(** ** Accessors *)

(** [MessageBlock::id] and [conversation::message_id_of] *)
Definition message_id_of (m : MessageBlock) : MessageId :=
  match m with
  | User u => user_id u
  | Assistant a => assistant_id a
  | Tool t => tool_message_id t
  end.

(** [MessageBlock::agent_status_metadata] *)
Definition agent_status_metadata (m : MessageBlock) : option AgentStatusGenerationMetadata :=
  match m with
  | User u => match user_kind u with
              | Context (AgentStatus metadata) => Some metadata
              | Context _ | KMessage | GoalContinuation _ => None
              end
  | Assistant _ | Tool _ => None
  end.

(** ** [CompactionSummaryMetadata] *)

Record CompactionSummaryMetadata := { read_files : list str; modified_files : list str }.

Inductive CompactionSummaryMetadataError :=
| DuplicatePath (path : str)
| NonCanonicalOrder (previous next : str)
| ReadModifiedOverlap (path : str).

Fixpoint validate_ordered_unique (paths : list str)
    : result CompactionSummaryMetadataError () :=
  match paths with
  | previous :: ((next :: _) as rest) =>
      if decide (previous = next) then Err (DuplicatePath previous)
      else if decide (str_lt next previous) then Err (NonCanonicalOrder previous next)
      else validate_ordered_unique rest
  | _ => Ok ()
  end.

(** [CompactionSummaryMetadata::new]; [binary_search] runs on a slice already proved
    ascending, where it decides membership. *)
Definition summary_new (read modified : list str)
    : result CompactionSummaryMetadataError CompactionSummaryMetadata :=
  _ ← validate_ordered_unique read;
  _ ← validate_ordered_unique modified;
  _ ← try_for_each (λ path, guard_err (bool_decide (path ∈ read)) (ReadModifiedOverlap path))
        modified;
  Ok {| read_files := read; modified_files := modified |}.

(** [CompactionSummaryMetadata::accumulate] *)
Definition accumulate (inherited : list CompactionSummaryMetadata)
    (new_read new_modified : list str) : CompactionSummaryMetadata :=
  let read : gset str := list_to_set (concat (map read_files inherited) ++ new_read) in
  let modified : gset str :=
    list_to_set (concat (map modified_files inherited) ++ new_modified) in
  {| read_files := ascending (read ∖ modified); modified_files := ascending modified |}.

Lemma validate_ordered_unique_ok paths u :
  validate_ordered_unique paths = Ok u ↔ StronglySorted str_lt paths.
Proof.
  destruct u. split.
  - intros H. apply Sorted_StronglySorted; [apply _|]. revert H.
    induction paths as [|p [|q l] IH]; cbn; [constructor|repeat constructor|].
    destruct (decide (p = q)) as [|Hne]; [done|]. destruct (decide (str_lt q p)) as [|Hlt]; [done|].
    intros H. constructor; [by apply IH|]. constructor.
    destruct (decide (str_le p q)) as [[?| ->]%str_le_lteq|?%str_lt_gt]; done.
  - induction paths as [|p [|q l] IH]; [done|done|].
    intros [Hs Hall]%StronglySorted_inv. apply Forall_cons in Hall as [Hpq _]. cbn.
    destruct (decide (p = q)) as [->|]; [by apply str_lt_neq in Hpq|].
    destruct (decide (str_lt q p)) as [H|]; [|by apply IH].
    assert (Hpp : str_lt p p) by (by trans q). by apply str_lt_neq in Hpp.
Qed.

Lemma summary_new_ok read modified s :
  summary_new read modified = Ok s ↔
  s = {| read_files := read; modified_files := modified |} ∧
  StronglySorted str_lt read ∧ StronglySorted str_lt modified ∧
  (∀ path, path ∈ modified → path ∉ read).
Proof.
  unfold summary_new. rewrite bind_ok. setoid_rewrite bind_ok. setoid_rewrite bind_ok.
  setoid_rewrite try_for_each_ok. setoid_rewrite validate_ordered_unique_ok.
  setoid_rewrite Forall_forall. split.
  - intros ([] & Hr & [] & Hm & [] & Hd & [= <-]). split_and!; try done.
    intros p Hp. specialize (Hd p Hp). apply guard_err_ok in Hd.
    by apply bool_decide_eq_false in Hd.
  - intros (-> & Hr & Hm & Hd). exists (). split; [done|]. exists (). split; [done|].
    exists (). split; [|done]. intros p Hp. apply guard_err_ok. apply bool_decide_eq_false.
    auto.
Qed.

(** Accumulated compaction metadata always satisfies the contract decoding enforces:
    whatever the inherited summaries and the new paths, [accumulate] yields strictly
    ascending, disjoint path lists that [new] (and so [Deserialize]) accepts unchanged, and
    a path modified anywhere is never reported as merely read. *)
Theorem accumulate_valid inherited nr nm :
  let s := accumulate inherited nr nm in
  summary_new (read_files s) (modified_files s) = Ok s ∧
  (∀ p, p ∈ modified_files s ↔ p ∈ nm ∨ ∃ m, m ∈ inherited ∧ p ∈ modified_files m) ∧
  (∀ p, p ∈ read_files s ↔
        (p ∈ nr ∨ ∃ m, m ∈ inherited ∧ p ∈ read_files m) ∧ p ∉ modified_files s).
Proof.
  assert (Hcat : ∀ (f : CompactionSummaryMetadata → list str) extra p,
    p ∈ (list_to_set (concat (map f inherited) ++ extra) : gset str) ↔
    p ∈ extra ∨ ∃ m, m ∈ inherited ∧ p ∈ f m).
  { intros f extra p. rewrite elem_of_list_to_set, elem_of_app, !list_elem_of_In, in_concat.
    split.
    - intros [(l & (m & <- & Hm)%in_map_iff & Hp)|?]; [right|by left].
      exists m. by rewrite !list_elem_of_In.
    - intros [?|(m & Hm & Hp)]; [by right|left]. apply list_elem_of_In in Hm, Hp.
      exists (f m). split; [|done]. apply in_map_iff. eauto. }
  cbn. split_and!.
  - apply summary_new_ok. split_and!; [done|apply ascending_StronglySorted..|].
    intros p. rewrite !elem_of_ascending. set_solver.
  - intros p. by rewrite elem_of_ascending, Hcat.
  - intros p. by rewrite !elem_of_ascending, elem_of_difference, Hcat.
Qed.

(** ** [AgentStatusGenerationMetadata] *)

Inductive AgentStatusMetadataError :=
| EmptyModules
| DuplicateModule (m : AgentStatusModuleId)
| NonCanonicalModules (previous next : AgentStatusModuleId).

(** The derived [Ord] of the module identities: declaration order. *)
Definition module_rank (m : AgentStatusModuleId) : nat :=
  match m with Time => 0 | Background => 1 | Todo => 2 end.

Fixpoint validate_modules (validated modules : list AgentStatusModuleId)
    : result AgentStatusMetadataError (list AgentStatusModuleId) :=
  match modules with
  | [] => Ok validated
  | module :: rest =>
      if bool_decide (module ∈ validated) then Err (DuplicateModule module)
      else match last validated with
           | Some previous =>
               if (module_rank module <? module_rank previous)%nat
               then Err (NonCanonicalModules previous module)
               else validate_modules (validated ++ [module]) rest
           | None => validate_modules (validated ++ [module]) rest
           end
  end.

(** [AgentStatusGenerationMetadata::new] *)
Definition status_metadata_new (at_ : DateTime) (ms : list AgentStatusModuleId)
    : result AgentStatusMetadataError AgentStatusGenerationMetadata :=
  validated ← validate_modules [] ms;
  _ ← guard_err (bool_decide (validated = [])) EmptyModules;
  Ok {| generated_at := at_; modules := validated |}.
