(* ===== verification/Scalars.v ===== *)
(** The scalar answers of a questionnaire ([src/src/events/interaction.rs]): a finite binary64
    carried as its bits in hexadecimal text, and an exact [i64] carried as decimal text, with
    the standard library's integer parsing and printing they are built on.

    An [f64] is its 64-bit pattern; comparison is IEEE 754's on those bits. *)

From S2P Require Import Prelude Text.
From stdpp Require Import pretty.
From stdpp Require Import options.

(** ** Integers as text *)

Definition is_ascii_digit (c : char) : bool := ((48 <=? c) && (c <=? 57))%N.
Definition is_lower_hex (c : char) : bool := is_ascii_digit c || ((97 <=? c) && (c <=? 102))%N.

(** [text.bytes().all(p)] for a [p] of ASCII bytes: no byte of a longer encoding is one. *)
Definition bytes_all (p : char → bool) (s : str) : bool := forallb p s.

(** [char::to_digit], for the radixes 10 and 16 *)
Definition to_digit (radix : N) (c : char) : option N :=
  let d := if is_ascii_digit c then Some (c - 48)%N
           else if ((97 <=? c) && (c <=? 102))%N then Some (c - 87)%N
           else if ((65 <=? c) && (c <=? 70))%N then Some (c - 55)%N else None in
  d ← d; if (d <? radix)%N then Some d else None.

Fixpoint digits_value (radix acc : N) (s : str) : option N :=
  match s with
  | [] => Some acc
  | c :: s => d ← to_digit radix c; digits_value radix (acc * radix + d) s
  end.

(** The digits after the sign.  The checked arithmetic of [from_str_radix] overflows exactly
    when the value is out of range, which its callers below decide at the end. *)
Definition magnitude (radix : N) (s : str) : option N :=
  match s with [] => None | _ => digits_value radix 0 s end.

(** [u64::from_str_radix] *)
Definition u64_from_str_radix (radix : N) (s : str) : option N :=
  n ← magnitude radix (match s with 43%N :: s => s | _ => s end);
  if (n <=? u64_max)%N then Some n else None.

Definition i64_min : Z := - 2 ^ 63.
Definition i64_max : Z := 2 ^ 63 - 1.

(** [str::parse::<i64>] *)
Definition i64_parse (s : str) : option Z :=
  match s with
  | 45%N :: s => n ← magnitude 10 s; if (Z.of_N n <=? 2 ^ 63)%Z then Some (- Z.of_N n)%Z else None
  | 43%N :: s => n ← magnitude 10 s; if (Z.of_N n <=? i64_max)%Z then Some (Z.of_N n) else None
  | _ => n ← magnitude 10 s; if (Z.of_N n <=? i64_max)%Z then Some (Z.of_N n) else None
  end.

(** [i64::to_string] *)
Definition i64_to_string (z : Z) : str :=
  if (z <? 0)%Z then 45%N :: dec (Z.to_N (- z)) else dec (Z.to_N z).

Definition hex_digit (d : N) : char := if (d <? 10)%N then (48 + d)%N else (87 + d)%N.

(** [format!("{n:0width$x}")] for an [n] of at most [width] digits *)
Fixpoint hex_fixed (width : nat) (n : N) : str :=
  match width with
  | 0 => []
  | S width => hex_fixed width (n / 16) ++ [hex_digit (n mod 16)]
  end.

(** ** Decimal and hexadecimal printing *)

Lemma digits_value_snoc radix acc s c :
  digits_value radix acc (s ++ [c]) =
    (v ← digits_value radix acc s; d ← to_digit radix c; Some (v * radix + d)%N).
Proof.
  revert acc. induction s as [|b s IH]; intros acc; cbn -[to_digit]; [done|].
  destruct (to_digit radix b); cbn -[to_digit]; [apply IH|done].
Qed.

(** The digits of a radix, one by one. *)
Lemma below (k : nat) (P : N → Prop) :
  Forall P (map N.of_nat (seq 0 k)) → ∀ d, (d < N.of_nat k)%N → P d.
Proof.
  intros H d Hd. apply (proj1 (Forall_forall _ _) H), list_elem_of_In, in_map_iff.
  exists (N.to_nat d). split; [apply N2Nat.id|]. apply in_seq. lia.
Qed.

Lemma hex_digit_value d : (d < 16)%N → to_digit 16 (hex_digit d) = Some d.
Proof. revert d. apply (below 16). cbn. by repeat constructor. Qed.

Lemma to_digit_hex c : is_lower_hex c = true → ∃ d, to_digit 16 c = Some d ∧ (d < 16)%N ∧ hex_digit d = c.
Proof.
  unfold is_lower_hex, to_digit, is_ascii_digit, hex_digit. intros H.
  destruct ((48 <=? c) && (c <=? 57))%N eqn:Hc; cbn in H |- *.
  - apply andb_true_iff in Hc as [?%N.leb_le ?%N.leb_le]. exists (c - 48)%N.
    rewrite (proj2 (N.ltb_lt _ _)) by lia. repeat split; [lia|].
    rewrite (proj2 (N.ltb_lt _ _)) by lia. lia.
  - rewrite H. apply andb_true_iff in H as [?%N.leb_le ?%N.leb_le]. exists (c - 87)%N. cbn.
    rewrite (proj2 (N.ltb_lt _ _)) by lia. repeat split; [lia|].
    rewrite (proj2 (N.ltb_ge _ _)) by lia. lia.
Qed.

Lemma hex_fixed_length w n : length (hex_fixed w n) = w.
Proof. revert n. induction w as [|w IH]; intros n; cbn; [done|]. rewrite length_app, IH. cbn. lia. Qed.

Lemma hex_digit_lower d : (d < 16)%N → is_lower_hex (hex_digit d) = true.
Proof. revert d. apply (below 16). cbn. by repeat constructor. Qed.

Lemma hex_fixed_lower w n : bytes_all is_lower_hex (hex_fixed w n) = true.
Proof.
  unfold bytes_all. revert n. induction w as [|w IH]; intros n; cbn -[is_lower_hex hex_digit]; [done|].
  rewrite forallb_app, IH. cbn -[is_lower_hex hex_digit]. rewrite hex_digit_lower; [done|].
  apply N.mod_lt. lia.
Qed.

Lemma hex_fixed_value w n : (n < 16 ^ N.of_nat w)%N → digits_value 16 0 (hex_fixed w n) = Some n.
Proof.
  revert n. induction w as [|w IH]; intros n Hn.
  - cbn in *. f_equal. lia.
  - assert (Hs : (16 ^ N.of_nat (S w) = 16 * 16 ^ N.of_nat w)%N)
      by (rewrite Nat2N.inj_succ, N.pow_succ_r'; lia).
    cbn [hex_fixed]. rewrite digits_value_snoc, IH, hex_digit_value.
    + cbn. f_equal. pose proof (N.div_mod n 16 ltac:(done)). lia.
    + apply N.mod_lt. lia.
    + apply N.Div0.div_lt_upper_bound. lia.
Qed.

Lemma hex_fixed_of_value s : bytes_all is_lower_hex s = true →
  ∃ n, digits_value 16 0 s = Some n ∧ (n < 16 ^ N.of_nat (length s))%N ∧ hex_fixed (length s) n = s.
Proof.
  unfold bytes_all. induction s as [|c s IH] using rev_ind; intros H.
  - exists 0%N. done.
  - rewrite forallb_app in H. cbn in H. rewrite andb_true_r in H.
    apply andb_true_iff in H as [Hs Hc].
    destruct (IH Hs) as (n & Hv & Hn & He). destruct (to_digit_hex c Hc) as (d & Hd & Hl & Hh).
    exists (n * 16 + d)%N. rewrite digits_value_snoc, Hv. cbn -[to_digit]. rewrite Hd.
    rewrite length_app, Nat.add_comm. cbn [length Nat.add hex_fixed].
    assert (Hp : (16 ^ N.of_nat (S (length s)) = 16 * 16 ^ N.of_nat (length s))%N)
      by (rewrite Nat2N.inj_succ, N.pow_succ_r'; lia).
    repeat split; [cbn; lia|].
    rewrite N.div_add_l, (N.div_small d), N.add_0_r, He by lia.
    rewrite N.add_comm, N.Div0.mod_add, N.mod_small, Hh by lia. done.
Qed.

Lemma decimal_digit d : (d < 10)%N → lit (String (pretty.pretty_N_char d) EmptyString) = [(48 + d)%N].
Proof. revert d. apply (below 10). cbn. by repeat constructor. Qed.

Lemma lit_go n s :
  lit (pretty.pretty_N_go n s) = lit (pretty.pretty_N_go n EmptyString) ++ lit s.
Proof.
  revert s. induction (N.lt_wf_0 n) as [n _ IH]; intros s.
  destruct (decide (0 < n)%N) as [Hn|]; [|by replace n with 0%N by lia].
  assert (Hlt : (n / 10 < n)%N) by (by apply N.div_lt).
  rewrite (pretty.pretty_N_go_step n s), (pretty.pretty_N_go_step n EmptyString) by done.
  rewrite (IH _ Hlt (String _ s)), (IH _ Hlt (String _ EmptyString)), <-app_assoc. done.
Qed.

(** The last digit of a decimal spelling. *)
Lemma dec_digit d : (d < 10)%N → dec d = [(48 + d)%N].
Proof. revert d. apply (below 10). cbn. by repeat constructor. Qed.

Lemma dec_snoc n : (10 <= n)%N → dec n = dec (n / 10) ++ [(48 + n mod 10)%N].
Proof.
  intros Hn. unfold dec, pretty, pretty.pretty_N.
  assert (0 < n / 10)%N by (apply N.div_str_pos; lia).
  rewrite !decide_False by lia. rewrite pretty.pretty_N_go_step, lit_go by lia. f_equal.
  apply decimal_digit, N.mod_lt. done.
Qed.

Lemma decimal_digit_value d : (d < 10)%N → to_digit 10 (48 + d) = Some d.
Proof. revert d. apply (below 10). cbn. by repeat constructor. Qed.

Lemma dec_nonempty n : dec n ≠ [].
Proof.
  destruct (decide (n < 10)%N) as [Hn|Hn]; [by rewrite dec_digit|].
  rewrite dec_snoc by lia. by destruct (dec (n / 10)).
Qed.

Lemma dec_value n : digits_value 10 0 (dec n) = Some n.
Proof.
  induction (N.lt_wf_0 n) as [n _ IH]. destruct (decide (n < 10)%N) as [Hn|Hn].
  - rewrite dec_digit by done. cbn -[to_digit]. by rewrite decimal_digit_value.
  - rewrite dec_snoc, digits_value_snoc, IH by (try apply N.div_lt; lia).
    cbn -[to_digit N.mul N.div N.modulo N.add].
    rewrite decimal_digit_value by (apply N.mod_lt; lia). cbn -[N.mul N.div N.modulo N.add].
    f_equal. pose proof (N.div_mod n 10 ltac:(done)). lia.
Qed.

Lemma magnitude_dec n : magnitude 10 (dec n) = Some n.
Proof. unfold magnitude. pose proof (dec_nonempty n). destruct (dec n) eqn:E; [done|]. rewrite <-E. apply dec_value. Qed.

Lemma to_digit_decimal c : is_ascii_digit c = true → ∃ d, to_digit 10 c = Some d ∧ (d < 10)%N ∧ c = (48 + d)%N.
Proof.
  unfold to_digit. intros H. rewrite H. apply andb_true_iff in H as [?%N.leb_le ?%N.leb_le].
  exists (c - 48)%N. cbn. rewrite (proj2 (N.ltb_lt _ _)) by lia. repeat split; lia.
Qed.

(** A decimal spelling without a leading zero is the printed value. *)
Lemma dec_of_digits s : bytes_all is_ascii_digit s = true → s ≠ [] → (head s = Some 48%N → s = [48%N]) →
  ∃ n, digits_value 10 0 s = Some n ∧ dec n = s ∧ (head s ≠ Some 48%N → n ≠ 0%N).
Proof.
  unfold bytes_all. induction s as [|c s IH] using rev_ind; intros H Hne Hz; [done|].
  rewrite forallb_app in H. cbn in H. rewrite andb_true_r in H. apply andb_true_iff in H as [Hs Hc].
  destruct (to_digit_decimal c Hc) as (d & Hd & Hl & ->).
  rewrite digits_value_snoc. destruct s as [|b s].
  - exists d. cbn -[to_digit]. rewrite Hd. cbn. repeat split; [|intros Hd0 ->; done].
    by apply dec_digit.
  - assert (Hb : head (b :: s) ≠ Some 48%N).
    { intros [= ->]. assert (E : 48%N :: s ++ [(48 + d)%N] = [48%N]) by (by apply Hz).
      injection E as E. by destruct s. }
    destruct (IH Hs) as (n & Hv & He & Hn); [done|done|]. rewrite Hv. cbn -[to_digit]. rewrite Hd.
    specialize (Hn Hb). exists (n * 10 + d)%N. cbn -[dec N.mul N.add].
    repeat split; [|intros _; lia].
    rewrite dec_snoc, N.div_add_l, (N.div_small d), N.add_0_r, He by lia.
    rewrite (N.add_comm (n * 10)), N.Div0.mod_add, N.mod_small by lia. done.
Qed.

(** ** Finite binary64 *)

(** The comparison of [f64]: by sign and magnitude, false on a NaN. *)
Definition f64_nan (b : N) : bool := (2047 * 2 ^ 52 <? N.ldiff b (2 ^ 63))%N.
Definition f64_is_finite (b : N) : bool := negb (N.land (N.shiftr b 52) 2047 =? 2047)%N.
Definition f64_key (b : N) : Z :=
  if N.testbit b 63 then (- Z.of_N (N.ldiff b (2 ^ 63)))%Z else Z.of_N b.
Definition f64_lt (a b : N) : bool := negb (f64_nan a) && negb (f64_nan b) && (f64_key a <? f64_key b)%Z.
Definition f64_gt (a b : N) : bool := f64_lt b a.

Record FiniteNumber := { to_bits : N }.
#[export] Instance FiniteNumber_eq_dec : EqDecision FiniteNumber.
Proof. solve_decision. Defined.

Definition FINITE_NUMBER_WIRE_CHARS : nat := 16.
Definition NEGATIVE_ZERO_BITS : N := 9223372036854775808.

Section text.
(** [{text:?}], the standard library's quoting of a string in a message *)
Context (debug : str → str).

(** [FiniteNumber::try_new] *)
Definition try_new (value : N) : result str FiniteNumber :=
  guard_err (negb (f64_is_finite value)) (lit "the numeric value is not finite");;
  if (value =? NEGATIVE_ZERO_BITS)%N then Ok {| to_bits := 0 |} else Ok {| to_bits := value |}.

(** [FiniteNumber::to_wire] *)
Definition to_wire (x : FiniteNumber) : str := hex_fixed FINITE_NUMBER_WIRE_CHARS (to_bits x).

(** [FiniteNumber::from_wire] *)
Definition from_wire (text : str) : result str FiniteNumber :=
  let malformed := debug text ++ lit " is not a canonical binary64 value: write exactly " ++
    dec (N.of_nat FINITE_NUMBER_WIRE_CHARS) ++ lit " lowercase hexadecimal digits of its IEEE-754 bit pattern" in
  guard_err (negb (len text =? N.of_nat FINITE_NUMBER_WIRE_CHARS)%N || negb (bytes_all is_lower_hex text)) malformed;;
  bits ← ok_or malformed (u64_from_str_radix 16 text);
  guard_err (bits =? NEGATIVE_ZERO_BITS)%N
    (debug text ++ lit " spells negative zero, which this domain canonicalizes to " ++
     debug (to_wire {| to_bits := 0 |}));;
  guard_err (negb (f64_is_finite bits))
    (debug text ++ lit " does not name a finite 64-bit binary floating-point number");;
  Ok {| to_bits := bits |}.

(** What a [FiniteNumber] holds: 64 bits of a finite number other than negative zero. *)
Definition finite_number (x : FiniteNumber) : Prop :=
  (to_bits x <= u64_max)%N ∧ f64_is_finite (to_bits x) = true ∧ to_bits x ≠ NEGATIVE_ZERO_BITS.

(** ** Exact integers *)

Record ExactInteger := { get : Z }.

(** [ExactInteger::parse] *)
Definition parse (text : str) : result str ExactInteger :=
  let digits := match text with 45%N :: s => s | _ => text end in
  guard_err (bool_decide (digits = []) || negb (bytes_all is_ascii_digit digits))
    (debug text ++ lit " is not a decimal integer: write an optional " ++ [34%N] ++ lit "-" ++ [34%N] ++
     lit " followed by digits");;
  guard_err (((1 <? len digits)%N && bool_decide (head digits = Some 48%N)) || bool_decide (text = lit "-0"))
    (debug text ++ lit " is not a canonical decimal integer");;
  match i64_parse text with
  | Some z => Ok {| get := z |}
  | None => Err (debug text ++ lit " is outside the supported 64-bit whole-number range")
  end.

(** [Serialize for ExactInteger] *)
Definition integer_wire (x : ExactInteger) : str := i64_to_string (get x).

Definition exact_integer (x : ExactInteger) : Prop := (i64_min <= get x <= i64_max)%Z.
End text.

#[export] Instance ExactInteger_eq_dec : EqDecision ExactInteger.
Proof. solve_decision. Defined.

(** ** The wire is exact and canonical *)

Lemma len_digits s p : (∀ c, p c = true → (c < 128)%N) → bytes_all p s = true → len s = N.of_nat (length s).
Proof.
  intros Hp. unfold bytes_all. induction s as [|c s IH]; cbn -[N.add]; [done|].
  intros [Hc%Hp Hs]%andb_true_iff. rewrite IH by done. unfold len_utf8.
  rewrite (proj2 (N.ltb_lt c 128)) by done. lia.
Qed.

Lemma hex_ascii c : is_lower_hex c = true → (c < 128)%N.
Proof.
  unfold is_lower_hex, is_ascii_digit.
  intros [[? ?]%andb_true_iff|[? ?]%andb_true_iff]%orb_true_iff; rewrite ?N.leb_le in *; lia.
Qed.

Lemma u64_hex s n : s ≠ [] → bytes_all is_lower_hex s = true → digits_value 16 0 s = Some n →
  (n <= u64_max)%N → u64_from_str_radix 16 s = Some n.
Proof.
  intros Hne Hs Hv Hn. destruct s as [|c s]; [done|]. cbn in Hs. apply andb_true_iff in Hs as [Hc _].
  assert (H43 : c ≠ 43%N) by (by intros ->). unfold u64_from_str_radix.
  assert (Hm : (match c :: s with 43%N :: s => s | _ => c :: s end) = c :: s) by (repeat (case_match; try done)).
  rewrite Hm. unfold magnitude. rewrite Hv. cbn. by rewrite (proj2 (N.leb_le _ _)).
Qed.

Lemma hex_fixed_u64 n : (n <= u64_max)%N → u64_from_str_radix 16 (hex_fixed 16 n) = Some n.
Proof.
  intros Hn. apply u64_hex; [|apply hex_fixed_lower| |done].
  - intros E%(f_equal length). by rewrite hex_fixed_length in E.
  - apply hex_fixed_value. unfold u64_max in Hn. change (16 ^ N.of_nat 16)%N with (2 ^ 64)%N. lia.
Qed.

Lemma hex_parse s : bytes_all is_lower_hex s = true → length s = 16 →
  ∃ n, u64_from_str_radix 16 s = Some n ∧ (n <= u64_max)%N ∧ hex_fixed 16 n = s.
Proof.
  intros Hs Hl. destruct (hex_fixed_of_value s Hs) as (n & Hv & Hn & He). rewrite Hl in *.
  exists n. assert (n <= u64_max)%N by (unfold u64_max; change (16 ^ N.of_nat 16)%N with (2 ^ 64)%N in Hn; lia).
  repeat split; [|done..]. by apply u64_hex; [intros ->|..].
Qed.

(** [from_wire] reads exactly the spellings [to_wire] writes. *)
Lemma from_wire_exact debug t x : from_wire debug t = Ok x ↔ finite_number x ∧ to_wire x = t.
Proof.
  unfold from_wire, finite_number, to_wire, FINITE_NUMBER_WIRE_CHARS. split.
  - intros H. inv_result. apply orb_false_iff in H as [Hl%negb_false_iff Hs%negb_false_iff].
    rewrite (len_digits _ _ hex_ascii Hs) in Hl. apply N.eqb_eq, Nat2N.inj in Hl.
    destruct (hex_parse t Hs Hl) as (n & Hu & Hn & He). simplify_eq.
    repeat match goal with H : negb _ = false |- _ => apply negb_false_iff in H end.
    cbn. repeat split; [done|done|]. by apply N.eqb_neq.
  - intros [(Hb & Hf & Hz) <-].
    rewrite (len_digits _ _ hex_ascii (hex_fixed_lower _ _)), hex_fixed_length, N.eqb_refl, hex_fixed_lower.
    rewrite hex_fixed_u64 by done. cbn -[hex_fixed].
    rewrite (proj2 (N.eqb_neq _ _)), Hf by done. cbn. by destruct x.
Qed.

Lemma magnitude_cons r s n : s ≠ [] → digits_value r 0 s = Some n → magnitude r s = Some n.
Proof. by destruct s. Qed.

Lemma i64_parse_digits s : s ≠ [] → bytes_all is_ascii_digit s = true → 
  i64_parse s = (n ← magnitude 10 s; if (Z.of_N n <=? i64_max)%Z then Some (Z.of_N n) else None).
Proof.
  destruct s as [|c s]; [done|]. intros _ Hc. cbn in Hc. apply andb_true_iff in Hc as [Hc _].
  unfold i64_parse. destruct (decide (c = 45%N)) as [->|]; [done|].
  destruct (decide (c = 43%N)) as [->|]; [done|]. repeat (case_match; try done).
Qed.

Lemma dec_all_digits n : bytes_all is_ascii_digit (dec n) = true.
Proof.
  unfold bytes_all. apply forallb_forall. intros c Hc%list_elem_of_In.
  apply dec_digits in Hc. apply andb_true_iff. rewrite !N.leb_le. lia.
Qed.

Lemma dec_leading n : head (dec n) = Some 48%N → n = 0%N.
Proof.
  induction (N.lt_wf_0 n) as [n _ IH]. destruct (decide (n < 10)%N) as [Hn|Hn].
  - rewrite dec_digit by done. intros [= H]. lia.
  - rewrite dec_snoc by lia. intros H. assert (Hd : head (dec (n / 10)) = Some 48%N).
    { pose proof (dec_nonempty (n / 10)). by destruct (dec (n / 10)). }
    apply IH in Hd; [|apply N.div_lt; lia]. apply N.div_small_iff in Hd; lia.
Qed.

Lemma digit_ascii c : is_ascii_digit c = true → (c < 128)%N.
Proof. intros [? ?]%andb_true_iff. rewrite !N.leb_le in *. lia. Qed.

(** The two refusals of [parse] that are about form. *)
Lemma canonical_digits s : bytes_all is_ascii_digit s = true → s ≠ [] →
  ((1 <? len s)%N && bool_decide (head s = Some 48%N) = false) ↔ (head s = Some 48%N → s = [48%N]).
Proof.
  intros Hs Hne. rewrite (len_digits _ _ digit_ascii Hs), andb_false_iff, N.ltb_ge, bool_decide_eq_false.
  destruct s as [|c [|d s]]; cbn [length head]; [done|..]; split.
  - by intros _ [= ->].
  - intros _. left. lia.
  - intros [?|?]; [lia|done].
  - intros H. right. intros E. by apply H in E.
Qed.

(** [parse] reads exactly what [to_string] writes: first the spellings without a sign. *)
Lemma parse_unsigned debug t x : head t ≠ Some 45%N →
  parse debug t = Ok x ↔ exact_integer x ∧ (0 <= get x)%Z ∧ integer_wire x = t.
Proof.
  intros Ht. unfold parse, exact_integer, integer_wire, i64_to_string.
  assert (Hm : (match t with 45%N :: s => s | _ => t end) = t) by (repeat (case_match; try done)).
  rewrite Hm. split.
  - intros H. inv_result. apply orb_false_iff in H as [Hne%bool_decide_eq_false Hs%negb_false_iff].
    apply orb_false_iff in H0 as [Hz _].
    pose proof (proj1 (canonical_digits _ Hs Hne) Hz) as Hz'.
    destruct (dec_of_digits t Hs Hne Hz') as (n & Hv & He & _).
    rewrite i64_parse_digits, (magnitude_cons _ _ n) in H1 by done. cbn in H1.
    match type of H1 with context [(?a <=? ?b)%Z] => destruct (Z.leb_spec a b) as [Hle|] end; [|done].
    inv_result. cbn.
    rewrite (proj2 (Z.ltb_ge _ _)), N2Z.id by lia. unfold i64_min. repeat split; lia.
  - destruct x as [z]. cbn. intros (Hr & Hz & He). rewrite (proj2 (Z.ltb_ge _ _)) in He by lia.
    assert (Hs : bytes_all is_ascii_digit t = true) by (by rewrite <-He; apply dec_all_digits).
    assert (Hne : t ≠ []) by (by rewrite <-He; apply dec_nonempty).
    rewrite (bool_decide_false (t = [])), Hs by done. cbn -[len].
    rewrite (proj2 (canonical_digits t Hs Hne)).
    + rewrite bool_decide_false by (by intros ->). cbn.
      rewrite i64_parse_digits, <-He, magnitude_dec by done. cbn.
      rewrite Z2N.id, (proj2 (Z.leb_le _ _)) by (unfold i64_max in *; lia). done.
    + rewrite <-He. intros ->%dec_leading. done.
Qed.

Lemma parse_negative debug s x :
  parse debug (45%N :: s) = Ok x ↔ exact_integer x ∧ (get x < 0)%Z ∧ integer_wire x = 45%N :: s.
Proof.
  unfold parse, exact_integer, integer_wire, i64_to_string. split.
  - intros H. inv_result. apply orb_false_iff in H as [Hne%bool_decide_eq_false Hs%negb_false_iff].
    apply orb_false_iff in H0 as [Hz Hm%bool_decide_eq_false].
    pose proof (proj1 (canonical_digits _ Hs Hne) Hz) as Hz'.
    destruct (dec_of_digits s Hs Hne Hz') as (n & Hv & He & Hn).
    assert (n ≠ 0%N). { apply Hn. intros E. apply Hm. by rewrite (Hz' E). }
    unfold i64_parse in H1. rewrite (magnitude_cons _ _ n) in H1 by done. cbn in H1.
    match type of H1 with context [(?a <=? ?b)%Z] => destruct (Z.leb_spec a b) as [Hle|] end; [|done].
    inv_result. cbn [get].
    rewrite (proj2 (Z.ltb_lt _ _)), Z.opp_involutive, N2Z.id by lia.
    unfold i64_min, i64_max. repeat split; lia.
  - destruct x as [z]. cbn [get]. intros (Hr & Hz & He). rewrite (proj2 (Z.ltb_lt _ _)) in He by lia.
    injection He as He.
    assert (Hs : bytes_all is_ascii_digit s = true) by (by rewrite <-He; apply dec_all_digits).
    assert (Hne : s ≠ []) by (by rewrite <-He; apply dec_nonempty).
    assert (Hlead : head s ≠ Some 48%N) by (rewrite <-He; intros ?%dec_leading; lia).
    rewrite (bool_decide_false (s = [])), Hs by done. cbn -[len lit].
    rewrite (proj2 (canonical_digits s Hs Hne)) by done.
    rewrite bool_decide_false by (intros [= ->]; by apply Hlead). cbn.
    rewrite <-He, magnitude_dec. cbn.
    rewrite Z2N.id, (proj2 (Z.leb_le _ _)), Z.opp_involutive by (unfold i64_min in *; lia). done.
Qed.

Lemma parse_exact debug t x : parse debug t = Ok x ↔ exact_integer x ∧ integer_wire x = t.
Proof.
  destruct t as [|c s]; [|destruct (decide (c = 45%N)) as [->|Hc]].
  - rewrite parse_unsigned by done. unfold integer_wire, i64_to_string. split; [naive_solver|].
    intros [? H]. exfalso. case_match; [done|]. by apply dec_nonempty in H.
  - rewrite parse_negative. unfold integer_wire, i64_to_string. split; [naive_solver|].
    intros [? H]. case_match eqn:E; [by apply Z.ltb_lt in E|].
    assert (Hd : (45 ∈ dec (Z.to_N (get x)))%N) by (rewrite H; left). apply dec_digits in Hd. lia.
  - rewrite parse_unsigned by (by intros [= ->]). unfold integer_wire, i64_to_string. split; [naive_solver|].
    intros [? H]. case_match eqn:E; [by injection H as <- _; destruct Hc|]. by apply Z.ltb_ge in E.
Qed.

(** C37 The scalar answers cross the client protocol as text: what is written reads back as the
    same value, and a text that is read is exactly the spelling of the value it gives, so
    every value has one spelling; what reads or is made of a computed value is finite, or in
    the range of [i64]. *)
Theorem scalar_wire_roundtrip debug :
  (∀ x, finite_number x → from_wire debug (to_wire x) = Ok x) ∧
  (∀ t x, from_wire debug t = Ok x → finite_number x ∧ to_wire x = t) ∧
  (∀ v x, (v <= u64_max)%N → try_new v = Ok x →
    finite_number x ∧ (to_bits x = v ∨ to_bits x = 0%N ∧ v = NEGATIVE_ZERO_BITS)) ∧
  (∀ z, exact_integer z → parse debug (integer_wire z) = Ok z) ∧
  (∀ t z, parse debug t = Ok z → exact_integer z ∧ integer_wire z = t).
Proof.
  split; [|split; [|split; [|split]]].
  - intros x Hx. by apply (from_wire_exact debug).
  - intros t x Hx. by apply (from_wire_exact debug).
  - intros v x Hv Hx. unfold try_new in Hx. inv_result. apply negb_false_iff in H.
    case_match eqn:E; inv_result; cbn.
    + apply N.eqb_eq in E as ->. split; [done|by right].
    + apply N.eqb_neq in E. split; [done|by left].
  - intros z Hz. by apply (parse_exact debug).
  - intros t z Hz. by apply (parse_exact debug).
Qed.
