(* ===== verification/Lifecycle.v ===== *)
(** The lifecycle of a conversation runtime ([src/src/runtime/types.rs]): inactive, running,
    draining, quiescent, and the count of admitted operations that keeps it from becoming
    quiescent under them.

    Every operation but the drop of a guard runs under the commit boundary, so it is one step;
    a drop is one or two atomic subtractions without it.  The idle probe holds the boundary
    but reads its two counters one after the other, so it is two steps, between which guards
    may be dropped. *)

From S2P Require Import Prelude.
From stdpp Require Import options.

Inductive ConversationLifecycleState := Inactive | Running | Draining | Quiescent.

#[export] Instance ConversationLifecycleState_eq_dec : EqDecision ConversationLifecycleState.
Proof. solve_decision. Defined.

(** [LifecycleInner] *)
Record Lifecycle := {
  lc_state : ConversationLifecycleState;
  admissions : nat;
  resident_resources : nat;
  activity : N;
}.

(** [ConversationLifecycle::default] *)
Definition lifecycle_new : Lifecycle :=
  {| lc_state := Inactive; admissions := 0; resident_resources := 0; activity := 0 |}.

Definition set_state (s : ConversationLifecycleState) (l : Lifecycle) : Lifecycle :=
  {| lc_state := s; admissions := admissions l; resident_resources := resident_resources l;
     activity := activity l |}.

(** [state.compare_exchange(from, to)] *)
Definition compare_exchange (from to : ConversationLifecycleState) (l : Lifecycle) : bool * Lifecycle :=
  if decide (lc_state l = from) then (true, set_state to l) else (false, l).

Definition activate : Lifecycle → bool * Lifecycle := compare_exchange Inactive Running.
Definition begin_drain : Lifecycle → bool * Lifecycle := compare_exchange Running Draining.
Definition begin_inactive_drain : Lifecycle → bool * Lifecycle := compare_exchange Inactive Draining.

(** [activity.fetch_add(1)] and [admissions.fetch_add(1)], for a guard *)
Definition enter (l : Lifecycle) : Lifecycle :=
  {| lc_state := lc_state l; admissions := S (admissions l); resident_resources := resident_resources l;
     activity := (activity l + 1) mod 2 ^ 64 |}.

Definition enter_when (allowed : ConversationLifecycleState → bool) (l : Lifecycle)
    : result ConversationLifecycleState Lifecycle :=
  if allowed (lc_state l) then Ok (enter l) else Err (lc_state l).

(** The admission of [admit_running_commit], [with_running_commit] and [try_enter_running] *)
Definition admit_running : Lifecycle → result ConversationLifecycleState Lifecycle :=
  enter_when (λ s, bool_decide (s = Running)).
(** [try_enter_preparation] *)
Definition try_enter_preparation : Lifecycle → result ConversationLifecycleState Lifecycle :=
  enter_when (λ s, bool_decide (s = Inactive) || bool_decide (s = Running)).
(** [try_enter_settlement] *)
Definition try_enter_settlement : Lifecycle → result ConversationLifecycleState Lifecycle :=
  enter_when (λ s, bool_decide (s = Running) || bool_decide (s = Draining)).

Inductive NativeAdmissionRefusal := Busy | Closed (state : ConversationLifecycleState).

(** [try_admit_running_commit]; [held] is whether another holds the boundary. *)
Definition try_admit_running_commit (held : bool) (l : Lifecycle) : result NativeAdmissionRefusal Lifecycle :=
  guard_err held Busy;; map_err Closed (admit_running l).

(** [LifecycleAdmission::into_resident_resource], of a guard that is not one *)
Definition into_resident_resource (l : Lifecycle) : Lifecycle :=
  {| lc_state := lc_state l; admissions := admissions l; resident_resources := S (resident_resources l);
     activity := activity l |}.

(** The two subtractions of [Drop for LifecycleAdmission] *)
Definition leave_resident (l : Lifecycle) : Lifecycle :=
  {| lc_state := lc_state l; admissions := admissions l; resident_resources := pred (resident_resources l);
     activity := activity l |}.
Definition leave (l : Lifecycle) : Lifecycle :=
  {| lc_state := lc_state l; admissions := pred (admissions l); resident_resources := resident_resources l;
     activity := activity l |}.

(** [mark_quiescent] *)
Definition mark_quiescent (l : Lifecycle) : bool * Lifecycle :=
  if decide (admissions l = 0) then compare_exchange Draining Quiescent l else (false, l).

(** ** The runtime's operations on it

    [guards] are the live guards with their [resident_resource] flags; [leaving] counts drops
    of resident guards between their two subtractions; [probe] is the idle probe that holds
    the boundary, with the [admissions] it has read and, for [begin_idle_drain], its epoch. *)
Record Native := {
  lifecycle : Lifecycle;
  guards : list bool;
  leaving : nat;
  probe : option (nat * option N);
}.

Definition native_new : Native :=
  {| lifecycle := lifecycle_new; guards := []; leaving := 0; probe := None |}.

Definition set_lifecycle (l : Lifecycle) (n : Native) : Native :=
  {| lifecycle := l; guards := guards n; leaving := leaving n; probe := probe n |}.
Definition with_guards (l : Lifecycle) (g : list bool) (k : nat) (n : Native) : Native :=
  {| lifecycle := l; guards := g; leaving := k; probe := probe n |}.
Definition with_probe (p : option (nat * option N)) (n : Native) : Native :=
  {| lifecycle := lifecycle n; guards := guards n; leaving := leaving n; probe := p |}.

(** [idle_epoch], after its last load: the epoch, when nothing was active *)
Definition idle_epoch_result (a : nat) (l : Lifecycle) : option N :=
  if decide (a = resident_resources l) then Some (activity l) else None.

(** [begin_idle_drain], after its last load *)
Definition begin_idle_drain_finish (a : nat) (epoch : N) (l : Lifecycle) : bool * Lifecycle :=
  if decide (a = resident_resources l ∧ activity l = epoch) then (true, set_state Draining l) else (false, l).

(** The admissions that return a guard. *)
Definition admitting (f : Lifecycle → result ConversationLifecycleState Lifecycle) : Prop :=
  f = admit_running ∨ f = try_enter_preparation ∨ f = try_enter_settlement.

Inductive native_step : Native → Native → Prop :=
| native_activate n : probe n = None →
    native_step n (set_lifecycle (snd (activate (lifecycle n))) n)
| native_begin_drain n : probe n = None →
    native_step n (set_lifecycle (snd (begin_drain (lifecycle n))) n)
| native_begin_inactive_drain n : probe n = None →
    native_step n (set_lifecycle (snd (begin_inactive_drain (lifecycle n))) n)
| native_mark_quiescent n : probe n = None →
    native_step n (set_lifecycle (snd (mark_quiescent (lifecycle n))) n)
| native_enter n enter_op l : probe n = None →
    admitting enter_op → enter_op (lifecycle n) = Ok l →
    native_step n (with_guards l (false :: guards n) (leaving n) n)
| native_resident n g1 g2 : probe n = None → guards n = g1 ++ false :: g2 →
    native_step n (with_guards (into_resident_resource (lifecycle n)) (g1 ++ true :: g2) (leaving n) n)
| native_drop n g1 g2 : guards n = g1 ++ false :: g2 →
    native_step n (with_guards (leave (lifecycle n)) (g1 ++ g2) (leaving n) n)
| native_drop_resident n g1 g2 : guards n = g1 ++ true :: g2 →
    native_step n (with_guards (leave_resident (lifecycle n)) (g1 ++ g2) (S (leaving n)) n)
| native_drop_finish n k : leaving n = S k →
    native_step n (with_guards (leave (lifecycle n)) (guards n) k n)
| native_probe n epoch : probe n = None → lc_state (lifecycle n) = Running →
    native_step n (with_probe (Some (admissions (lifecycle n), epoch)) n)
| native_idle_epoch n a : probe n = Some (a, None) →
    native_step n (with_probe None n)
| native_begin_idle_drain n a epoch : probe n = Some (a, Some epoch) →
    native_step n (with_probe None (set_lifecycle (snd (begin_idle_drain_finish a epoch (lifecycle n))) n)).

(** ** What the counters count *)

Definition residents (n : Native) : nat := length (List.filter id (guards n)).

(** [mine] guards are held by a component that keeps account of them itself. *)
Record native_ok (mine : nat) (n : Native) : Prop := {
  no_admissions : admissions (lifecycle n) = length (guards n) + leaving n + mine;
  no_residents : resident_resources (lifecycle n) = residents n;
  no_quiet : lc_state (lifecycle n) = Quiescent → admissions (lifecycle n) = 0;
  (** A probe holds the boundary: the state is the one it saw, and nothing was admitted. *)
  no_probe : ∀ a e, probe n = Some (a, e) →
    lc_state (lifecycle n) = Running ∧ length (guards n) + mine <= a;
}.

Lemma compare_exchange_eq from to l :
  snd (compare_exchange from to l) = if decide (lc_state l = from) then set_state to l else l.
Proof. unfold compare_exchange. by case_decide. Qed.

Lemma residents_app g1 g2 : length (List.filter id (g1 ++ g2)) = length (List.filter id g1) + length (List.filter id g2).
Proof. by rewrite List.filter_app, length_app. Qed.

Lemma residents_le n : residents n <= length (guards n).
Proof. unfold residents. induction (guards n) as [|[] g IH]; cbn; lia. Qed.

Lemma enter_when_ok allowed l l' : enter_when allowed l = Ok l' → allowed (lc_state l) = true ∧ l' = enter l.
Proof. unfold enter_when. case_match; intros [= <-]; done. Qed.

Lemma admitting_ok f l l' : admitting f → f l = Ok l' → lc_state l ≠ Quiescent ∧ l' = enter l.
Proof.
  unfold admitting, admit_running, try_enter_preparation, try_enter_settlement.
  intros [->|[->| ->]] [Hs ->]%enter_when_ok; (split; [|done]); intros E; by rewrite E in Hs.
Qed.

Lemma native_new_ok : native_ok 0 native_new.
Proof. by split. Qed.

(** A change of the state alone: only [mark_quiescent] may make it quiescent. *)
Lemma set_state_ok mine n s : native_ok mine n → probe n = None →
  (s = Quiescent → admissions (lifecycle n) = 0) →
  native_ok mine (set_lifecycle (set_state s (lifecycle n)) n).
Proof.
  intros [Ha Hr Hq Hp] Hn Hs. split; cbn; try done. intros a e H. congruence.
Qed.

Lemma set_same n : set_lifecycle (lifecycle n) n = n.
Proof. by destruct n. Qed.

Lemma native_step_ok mine n n' : native_ok mine n → native_step n n' → native_ok mine n'.
Proof.
  intros Hok Hstep. pose proof Hok as [Ha Hr Hq Hp]. destruct Hstep.
  - unfold activate. rewrite compare_exchange_eq. case_decide; [|by rewrite set_same]. by apply set_state_ok.
  - unfold begin_drain. rewrite compare_exchange_eq. case_decide; [|by rewrite set_same]. by apply set_state_ok.
  - unfold begin_inactive_drain. rewrite compare_exchange_eq. case_decide; [|by rewrite set_same]. by apply set_state_ok.
  - unfold mark_quiescent. case_decide; cbn [snd]; [|by rewrite set_same].
    rewrite compare_exchange_eq. case_decide; [|by rewrite set_same]. by apply set_state_ok.
  - destruct (admitting_ok _ _ _ H0 H1) as [Hs ->].
    split; cbn; [lia|done|done|]. intros a e Hn. congruence.
  - split; cbn.
    + rewrite Ha, H0, !length_app. done.
    + unfold residents in *. cbn. rewrite Hr, H0, !residents_app. cbn. lia.
    + done.
    + intros a e Hn. congruence.
  - split; cbn.
    + rewrite Ha, H, !length_app. cbn. lia.
    + unfold residents in *. cbn. rewrite Hr, H, !residents_app. cbn. lia.
    + intros ->%Hq. done.
    + intros a e Hn. apply Hp in Hn as [? Hl]. rewrite H, length_app in Hl. cbn in Hl. rewrite length_app. split; [done|lia].
  - split; cbn.
    + rewrite Ha, H, !length_app. cbn. lia.
    + unfold residents in *. cbn. rewrite Hr, H, !residents_app. cbn. lia.
    + done.
    + intros a e Hn. apply Hp in Hn as [? Hl]. rewrite H, length_app in Hl. cbn in Hl. rewrite length_app. split; [done|lia].
  - split; cbn; [lia|done| |done]. intros ->%Hq. done.
  - split; cbn; try done. intros a e [= <- <-]. split; [done|lia].
  - split; cbn; done.
  - apply Hp in H as [Hrun Hl]. unfold begin_idle_drain_finish. case_decide; cbn; split; cbn; done.
Qed.

(** A guard of the component that keeps account of its own *)
Lemma own_enter_ok mine n : native_ok mine n → probe n = None → lc_state (lifecycle n) ≠ Quiescent →
  native_ok (S mine) (set_lifecycle (enter (lifecycle n)) n).
Proof.
  intros [Ha Hr Hq Hp] Hn Hs. split; cbn; [lia|done|done|]. intros a e H. congruence.
Qed.

Lemma own_leave_ok mine n : native_ok (S mine) n → native_ok mine (set_lifecycle (leave (lifecycle n)) n).
Proof.
  intros [Ha Hr Hq Hp]. split; cbn; [lia|done| |].
  - intros ->%Hq. done.
  - intros a e H. apply Hp in H as [? ?]. split; [done|lia].
Qed.

(** The states go one way, and a quiescent runtime admits nothing. *)
Definition rank (s : ConversationLifecycleState) : nat :=
  match s with Inactive => 0 | Running => 1 | Draining => 2 | Quiescent => 3 end.

Lemma compare_exchange_rank from to l : rank from <= rank to →
  rank (lc_state l) <= rank (lc_state (snd (compare_exchange from to l))).
Proof. intros H. rewrite compare_exchange_eq. destruct (decide (lc_state l = from)) as [->|]; cbn; lia. Qed.

Lemma native_step_rank mine n n' : native_ok mine n → native_step n n' →
  rank (lc_state (lifecycle n)) <= rank (lc_state (lifecycle n')).
Proof.
  intros [Ha Hr Hq Hp] Hstep. destruct Hstep; cbn; try lia.
  1-3: apply compare_exchange_rank; cbn; lia.
  - unfold mark_quiescent. case_decide; cbn [snd]; [|lia]. apply compare_exchange_rank. cbn. lia.
  - by destruct (admitting_ok _ _ _ H0 H1) as [_ ->].
  - apply Hp in H as [Hrun _]. unfold begin_idle_drain_finish. case_decide; cbn; rewrite ?Hrun; cbn; lia.
Qed.

Lemma native_steps_ok mine n n' : native_ok mine n → rtc native_step n n' → native_ok mine n'.
Proof. intros Hn Hs. revert Hs Hn. apply rtc_invariant. intros a b Hab Ha. by apply (native_step_ok mine a). Qed.

Lemma native_steps_rank n n' : native_ok 0 n → rtc native_step n n' →
  rank (lc_state (lifecycle n)) <= rank (lc_state (lifecycle n')).
Proof.
  intros Hn Hs. induction Hs as [|a b c Hab Hbc IH]; [done|].
  pose proof (native_step_rank 0 a b Hn Hab). specialize (IH (native_step_ok _ _ _ Hn Hab)). lia.
Qed.

(** C33 Whatever the runtime's parts do, the lifecycle moves one way only; once it is quiescent
    it stays so, no guard is live or half dropped, and no operation is ever admitted again;
    and an idle drain closes admission only while every live guard is a resident resource,
    although its two counters are read one after the other. *)
Theorem quiescence_final n n' :
  rtc native_step native_new n → rtc native_step n n' →
  rank (lc_state (lifecycle n)) <= rank (lc_state (lifecycle n')) ∧
  (lc_state (lifecycle n) = Quiescent →
    lc_state (lifecycle n') = Quiescent ∧ guards n' = [] ∧ leaving n' = 0 ∧
    (∀ enter_op, admitting enter_op → enter_op (lifecycle n') = Err Quiescent)) ∧
  (∀ a epoch, probe n = Some (a, Some epoch) →
    fst (begin_idle_drain_finish a epoch (lifecycle n)) = true →
    lc_state (lifecycle n) = Running ∧ activity (lifecycle n) = epoch ∧ Forall (eq true) (guards n)).
Proof.
  intros Hn Hs. apply (native_steps_ok 0) in Hn; [|apply native_new_ok].
  pose proof (native_steps_rank n n' Hn Hs) as Hr. pose proof (native_steps_ok 0 n n' Hn Hs) as Hn'.
  split; [done|]. split.
  - intros Hq. rewrite Hq in Hr. assert (Hq' : lc_state (lifecycle n') = Quiescent).
    { destruct (lc_state (lifecycle n')); cbn in Hr; [lia..|done]. }
    destruct Hn' as [Ha _ Hz _]. rewrite (Hz Hq') in Ha. split; [done|].
    split; [by destruct (guards n'); cbn in *|]. split; [lia|].
    intros f [->|[->| ->]]; unfold admit_running, try_enter_preparation, try_enter_settlement, enter_when;
      by rewrite Hq'.
  - intros a e Hp Hf. destruct Hn as [Ha Hres _ Hpr]. apply Hpr in Hp as [Hrun Hl].
    unfold begin_idle_drain_finish in Hf. destruct (decide _) as [[-> ->]|] in Hf; [|done].
    split; [done|]. split; [done|]. rewrite Hres in Hl. unfold residents in Hl. revert Hl.
    assert (Hle : ∀ g, length (List.filter id g) <= length g) by (induction g as [|[] g IH]; cbn; lia).
    generalize (guards n). induction l as [|[] g IH]; cbn; intros Hl; [constructor|constructor; [done|]|].
    + apply IH. lia.
    + specialize (Hle g). lia.
Qed.

(** An activation, an admitted operation that returns, a drain that becomes quiescent. *)
Definition sample_end : Native :=
  {| lifecycle := {| lc_state := Quiescent; admissions := 0; resident_resources := 0; activity := 1 |};
     guards := []; leaving := 0; probe := None |}.

Lemma lifecycle_sample_run : rtc native_step native_new sample_end.
Proof.
  eapply rtc_l; [by apply native_activate|].
  eapply rtc_l; [by eapply (native_enter _ admit_running); [|left|]|].
  eapply rtc_l; [by apply (native_drop _ [] [])|].
  eapply rtc_l; [by apply native_begin_drain|].
  eapply rtc_l; [by apply native_mark_quiescent|]. apply rtc_refl.
Qed.

Lemma quiescence_final_witness :
  lc_state (lifecycle sample_end) = Quiescent ∧
  ∀ n, rtc native_step sample_end n → lc_state (lifecycle n) = Quiescent ∧ guards n = [].
Proof.
  split; [done|]. intros n Hn.
  destruct (quiescence_final sample_end n lifecycle_sample_run Hn) as (_ & Hq & _).
  by destruct (Hq eq_refl) as (? & ? & _).
Defined.
