(* ===== verification/Todo.v ===== *)
(** The conversation task list, state half ([src/src/tools/todo.rs]): the published
    [TodoSnapshot], its validation, the dependency graph, and the bounded read-only
    presentation.  The mutations and the batch protocol are in [TodoList]. *)

From S2P Require Import Prelude Text Json.
From stdpp Require Import options.

Definition MAX_TODO_STATUS_TASKS : nat := 6.
Definition MAX_TODO_STATUS_TEXT_BYTES : N := 256.

Inductive TodoStatus := Pending | InProgress | Completed | Deleted.

#[export] Instance TodoStatus_eq_dec : EqDecision TodoStatus.
Proof. solve_decision. Defined.

Definition can_transition_to (from to : TodoStatus) : bool :=
  match from with
  | Deleted => bool_decide (to = Deleted)
  | Completed => bool_decide (to = Completed) || bool_decide (to = Deleted)
  | Pending | InProgress => true
  end.

Abbreviation Metadata := (list ((list N) * json)).

Record TodoTask := {
  id : N;
  subject : str;
  description : option str;
  active_form : option str;
  status : TodoStatus;
  blocked_by : list N;
  owner : option str;
  metadata : option Metadata;
}.

#[export] Instance TodoTask_eq_dec : EqDecision TodoTask.
Proof. solve_decision. Defined.

(** [TodoTask::text_fields]: field name, value, whether it may span lines. *)
Definition text_fields (t : TodoTask) : list (str * str * bool) :=
  [(lit "subject", subject t, false)]
  ++ match active_form t with Some v => [(lit "active_form", v, false)] | None => [] end
  ++ match owner t with Some v => [(lit "owner", v, false)] | None => [] end
  ++ match description t with Some v => [(lit "description", v, true)] | None => [] end.

(** The [Bidi_Control] half of [forbidden_control]. *)
Definition bidi_control (c : char) : bool :=
  ((c =? 0x61c) || (c =? 0x200e) || (c =? 0x200f)
   || ((0x202a <=? c) && (c <=? 0x202e)) || ((0x2066 <=? c) && (c <=? 0x2069)))%N.

Definition forbidden_control (value : str) (multiline : bool) : option char :=
  find_first (λ c, if multiline && (c =? 10)%N then false
                   else is_control c || bidi_control c) value.

Fixpoint json_control (value : json) : option char :=
  match value with
  | String text => forbidden_control text false
  | Array items => find_map json_control items
  | Object fields =>
      find_map (λ '(key, nested),
                  match forbidden_control key false with
                  | Some c => Some c
                  | None => json_control nested
                  end) fields
  | _ => None
  end.

Definition metadata_control (m : Metadata) : option char :=
  find_map (λ '(key, value), match forbidden_control key false with
                             | Some c => Some c
                             | None => json_control value
                             end) m.

Inductive TodoSnapshotError :=
| UnusableAllocator
| DuplicateId (i : N)
| UnallocatedId (i next : N)
| OutOfCreationOrder (pos : nat) (i expected : N)
| AllocatorAhead (next : N) (count : nat)
| SBlankSubject (i : N)
| ControlCharacter (i : N) (field : str) (codepoint : N)
| SSelfBlock (i : N)
| SUnknownDependency (i blocker : N)
| UnnormalizedDependencies (i : N)
| SDependencyCycle (i : N).

Record TodoSnapshot := { tasks : list TodoTask; next_id : N }.

#[export] Instance TodoSnapshot_eq_dec : EqDecision TodoSnapshot.
Proof. solve_decision. Defined.

Definition empty_snapshot : TodoSnapshot := {| tasks := []; next_id := 1 |}.

(** [TodoSnapshot::task] *)
Definition task (s : TodoSnapshot) (i : N) : option TodoTask :=
  find_first (λ t, (id t =? i)%N) (tasks s).

(** [TodoSnapshot::blocks] *)
Definition blocks (s : TodoSnapshot) (i : N) : list N :=
  map id (List.filter (λ t, bool_decide (i ∈ blocked_by t)) (tasks s)).

(** [TodoSnapshot::progress] *)
Definition progress (s : TodoSnapshot) : nat * nat :=
  (length (List.filter (λ t, bool_decide (status t = Completed)) (tasks s)),
   length (List.filter (λ t, negb (bool_decide (status t = Deleted))) (tasks s))).

(** ** The dependency graph *)

(** The [while let Some(id) = frontier.pop()] loop of [closes_cycle].  The [Vec] is kept
    with its end first, so [pop] takes the head and [extend] pushes the reversed
    dependencies.  [None] is running out of fuel; [closes_cycle_fuel] is enough
    ([cycle_loop_total]). *)
Fixpoint cycle_loop (fuel : nat) (s : TodoSnapshot) (target : N) (seen : gset N)
    (frontier : list N) : option bool :=
  match fuel with
  | O => None
  | S fuel =>
      match frontier with
      | [] => Some false
      | i :: frontier =>
          if (i =? target)%N then Some true
          else if bool_decide (i ∈ seen) then cycle_loop fuel s target seen frontier
          else cycle_loop fuel s target ({[i]} ∪ seen)
                 (match task s i with
                  | Some t => rev (blocked_by t) ++ frontier
                  | None => frontier
                  end)
      end
  end.

Definition edge_count (ts : list TodoTask) : nat := sum_list (map (λ t, length (blocked_by t)) ts).

Definition closes_cycle_fuel (s : TodoSnapshot) (candidate : TodoTask) : nat :=
  S (length (blocked_by candidate) + edge_count (tasks s)).

Definition closes_cycle (s : TodoSnapshot) (candidate : TodoTask) : bool :=
  default false (cycle_loop (closes_cycle_fuel s candidate) s (id candidate) ∅
                   (rev (blocked_by candidate))).

(** ** [TodoSnapshot::validate] *)

Definition no_control (i : N) (field : str) (found : option char)
    : result TodoSnapshotError () :=
  match found with Some c => Err (ControlCharacter i field c) | None => Ok () end.

(** The body of the first loop, for the task at [position]. *)
Definition validate_task (next : N) (position : nat) (seen : gset N) (t : TodoTask)
    : result TodoSnapshotError () :=
  _ ← guard_err (bool_decide (id t ∈ seen)) (DuplicateId (id t));
  _ ← guard_err ((id t =? 0) || (next <=? id t))%N (UnallocatedId (id t) next);
  _ ← guard_err (negb (id t =? N.of_nat position + 1)%N)
        (OutOfCreationOrder position (id t) (N.of_nat position + 1));
  _ ← guard_err (bool_decide (trim (subject t) = [])) (SBlankSubject (id t));
  _ ← try_for_each (λ '(field, value, multiline),
                       no_control (id t) field (forbidden_control value multiline))
        (text_fields t);
  match metadata t with
  | Some m => no_control (id t) (lit "metadata") (metadata_control m)
  | None => Ok ()
  end.

Fixpoint validate_tasks (next : N) (position : nat) (seen : gset N) (ts : list TodoTask)
    : result TodoSnapshotError (gset N) :=
  match ts with
  | [] => Ok seen
  | t :: ts =>
      _ ← validate_task next position seen t;
      validate_tasks next (S position) ({[id t]} ∪ seen) ts
  end.

(** The body of the second loop. *)
Definition validate_dependencies (s : TodoSnapshot) (seen : gset N) (t : TodoTask)
    : result TodoSnapshotError () :=
  _ ← try_for_each (λ blocker,
        _ ← guard_err (blocker =? id t)%N (SSelfBlock (id t));
        guard_err (negb (bool_decide (blocker ∈ seen))) (SUnknownDependency (id t) blocker))
        (blocked_by t);
  _ ← guard_err (any_window2 (λ a b, (b <=? a)%N) (blocked_by t))
        (UnnormalizedDependencies (id t));
  guard_err (closes_cycle s t) (SDependencyCycle (id t)).

Definition validate (s : TodoSnapshot) : result TodoSnapshotError () :=
  _ ← guard_err (next_id s =? 0)%N UnusableAllocator;
  seen ← validate_tasks (next_id s) 0 ∅ (tasks s);
  _ ← guard_err (negb (next_id s =? N.of_nat (length (tasks s)) + 1)%N)
        (AllocatorAhead (next_id s) (length (tasks s)));
  try_for_each (validate_dependencies s seen) (tasks s).

(** ** The bounded presentation *)

Record TodoStatusTask := {
  st_id : N; st_subject : str; st_active_form : option str; st_status : TodoStatus;
  st_blocked : bool }.

Record TodoStatusPresentation := {
  current : option TodoStatusTask;
  shown : list TodoStatusTask;
  active_count : nat;
  blocked_count : nat;
  completed_count : nat;
  deleted_count : nat;
  omitted_count : nat;
}.

(** [while end > 0 && !text.is_char_boundary(end) { end -= 1 }], counting down. *)
Fixpoint back_to_boundary (text : str) (end_ : nat) : nat :=
  match end_ with
  | O => O
  | S e => if is_char_boundary text (N.of_nat end_) then end_ else back_to_boundary text e
  end.

(** U+2026 HORIZONTAL ELLIPSIS *)
Definition ellipsis : str := [0x2026%N].

Definition bound_status_text (text : str) : str :=
  if (len text <=? MAX_TODO_STATUS_TEXT_BYTES)%N then text
  else
    let limit := saturating_sub MAX_TODO_STATUS_TEXT_BYTES (len ellipsis) in
    let end_ := N.of_nat (back_to_boundary text (N.to_nat (N.min limit (len text)))) in
    take_bytes text end_ ++ ellipsis.

Definition is_active (t : TodoTask) : bool :=
  match status t with Pending | InProgress => true | Completed | Deleted => false end.

(** [states.get(blocker).is_some_and(active)] for some blocker; [states] is the
    [BTreeMap] of every task's status, a later duplicate id winning. *)
Definition task_states (ts : list TodoTask) : gmap N TodoStatus :=
  foldl (λ m t, <[id t := status t]> m) ∅ ts.

Definition is_blocked (states : gmap N TodoStatus) (t : TodoTask) : bool :=
  existsb (λ blocker, match states !! blocker with
                      | Some (Pending | InProgress) => true
                      | _ => false
                      end) (blocked_by t).

Definition status_task (states : gmap N TodoStatus) (t : TodoTask) : TodoStatusTask :=
  {| st_id := id t; st_subject := bound_status_text (subject t);
     st_active_form := bound_status_text <$> active_form t; st_status := status t;
     st_blocked := is_blocked states t |}.

(** The loop over the active tasks. *)
Fixpoint present (states : gmap N TodoStatus) (current_id : option N) (limit : nat)
    (active : list TodoTask) (current : option TodoStatusTask) (shown : list TodoStatusTask)
    : option TodoStatusTask * list TodoStatusTask :=
  match active with
  | [] => (current, shown)
  | t :: active =>
      let bounded := status_task states t in
      if bool_decide (Some (id t) = current_id)
      then present states current_id limit active (Some bounded) shown
      else if (length shown <? limit)%nat
      then present states current_id limit active current (shown ++ [bounded])
      else present states current_id limit active current shown
  end.

Definition status_presentation (s : TodoSnapshot) : TodoStatusPresentation :=
  let states := task_states (tasks s) in
  let active := List.filter is_active (tasks s) in
  let current_id : option N := id <$> find_first (λ t, bool_decide (status t = InProgress)) (tasks s) in
  let limit := if current_id then (MAX_TODO_STATUS_TASKS - 1)%nat else MAX_TODO_STATUS_TASKS in
  let '(current, shown) := present states current_id limit active None [] in
  let displayed := ((if current then 1 else 0) + length shown)%nat in
  {| current := current; shown := shown;
     active_count := length active;
     blocked_count := length (List.filter (is_blocked states) active);
     completed_count := length (List.filter (λ t, bool_decide (status t = Completed)) (tasks s));
     deleted_count := length (List.filter (λ t, bool_decide (status t = Deleted)) (tasks s));
     omitted_count := (length active - displayed)%nat |}.

(** ** The graph search is reachability *)

(** [i] waits on [j] in the snapshot. *)
Definition waits_on (s : TodoSnapshot) (i j : N) : Prop :=
  ∃ t, task s i = Some t ∧ j ∈ blocked_by t.

(** The candidate reaches itself through the graph it would create. *)
Definition reaches_itself (s : TodoSnapshot) (c : TodoTask) : Prop :=
  ∃ j, j ∈ blocked_by c ∧ rtc (waits_on s) j (id c).

Lemma task_Some s i t : task s i = Some t → t ∈ tasks s ∧ id t = i.
Proof. intros [? ?%N.eqb_eq]%find_first_Some. done. Qed.

(** Edges whose source has not been expanded yet. *)
Definition fresh_edges (seen : gset N) (ts : list TodoTask) : nat :=
  edge_count (List.filter (λ t, negb (bool_decide (id t ∈ seen))) ts).

Lemma fresh_edges_mono seen i ts : (fresh_edges ({[i]} ∪ seen) ts <= fresh_edges seen ts)%nat.
Proof.
  unfold fresh_edges, edge_count. induction ts as [|t ts IH]; cbn; [lia|].
  repeat case_bool_decide; cbn; try lia. set_solver.
Qed.

Lemma fresh_edges_task seen i t ts :
  find_first (λ t, (id t =? i)%N) ts = Some t → i ∉ seen →
  (length (blocked_by t) + fresh_edges ({[i]} ∪ seen) ts <= fresh_edges seen ts)%nat.
Proof.
  unfold find_first. induction ts as [|t0 ts IH]; [done|]. intros H Hi. cbn [find_map] in H.
  pose proof (fresh_edges_mono seen i ts) as Hm. unfold fresh_edges, edge_count in *. cbn.
  destruct (id t0 =? i)%N eqn:E.
  - injection H as <-. apply N.eqb_eq in E as <-.
    rewrite bool_decide_eq_true_2 by set_solver. rewrite (bool_decide_eq_false_2 (id t0 ∈ seen)) by done.
    cbn. lia.
  - specialize (IH H Hi). apply N.eqb_neq in E. repeat case_bool_decide; cbn; try lia; set_solver.
Qed.

Lemma fresh_edges_empty ts : fresh_edges ∅ ts = edge_count ts.
Proof.
  unfold fresh_edges. induction ts as [|t ts IH]; cbn; [done|].
  case_bool_decide; [set_solver|]. unfold edge_count in *. cbn. by rewrite IH.
Qed.

(** The fuel always suffices: the loop returns. *)
Lemma cycle_loop_total fuel s target seen frontier :
  (length frontier + fresh_edges seen (tasks s) < fuel)%nat →
  is_Some (cycle_loop fuel s target seen frontier).
Proof.
  revert seen frontier. induction fuel as [|fuel IH]; intros seen frontier Hf; [lia|].
  destruct frontier as [|i frontier]; cbn in *; [by eexists|].
  destruct (i =? target)%N; [by eexists|]. case_bool_decide as Hi; [apply IH; lia|].
  apply IH. destruct (task s i) as [t|] eqn:Ht.
  - pose proof (fresh_edges_task seen i t (tasks s) Ht Hi). rewrite length_app, length_rev. lia.
  - pose proof (fresh_edges_mono seen i (tasks s)). lia.
Qed.

Lemma closes_cycle_total s c :
  ∃ b, cycle_loop (closes_cycle_fuel s c) s (id c) ∅ (rev (blocked_by c)) = Some b.
Proof.
  destruct (cycle_loop_total (closes_cycle_fuel s c) s (id c) ∅ (rev (blocked_by c))) as [b Hb];
    [|by exists b].
  unfold closes_cycle_fuel. rewrite length_rev, fresh_edges_empty. lia.
Qed.

(** [true] is a path: every frontier entry is reachable from the candidate's edges. *)
Lemma cycle_loop_true fuel s target seen frontier :
  cycle_loop fuel s target seen frontier = Some true →
  ∃ i, i ∈ frontier ∧ rtc (waits_on s) i target.
Proof.
  revert seen frontier. induction fuel as [|fuel IH]; intros seen frontier; cbn; [done|].
  destruct frontier as [|i frontier]; [done|].
  destruct (i =? target)%N eqn:E.
  - apply N.eqb_eq in E as ->. intros _. exists target. split; [constructor|done].
  - case_bool_decide; intros (j & Hj & Hr)%IH.
    + exists j. split; [by constructor|done].
    + destruct (task s i) as [t|] eqn:Ht; [|exists j; split; [by constructor|done]].
      apply elem_of_app in Hj as [Hj|Hj]; [|exists j; split; [by constructor|done]].
      exists i. split; [constructor|]. eapply rtc_l; [|done]. exists t. by rewrite elem_of_rev in Hj.
Qed.

(** [false] is a closed set that avoids the target. *)
Lemma cycle_loop_false fuel s target seen frontier :
  cycle_loop fuel s target seen frontier = Some false →
  target ∉ seen →
  (∀ i j, i ∈ seen → waits_on s i j → j ∈ seen ∨ j ∈ frontier) →
  ∀ i, i ∈ seen ∨ i ∈ frontier → ¬ rtc (waits_on s) i target.
Proof.
  revert seen frontier. induction fuel as [|fuel IH]; intros seen frontier; cbn; [done|].
  destruct frontier as [|i frontier].
  - intros _ Ht Hc k Hk Hr. destruct Hk as [Hk|Hk%not_elem_of_nil]; [|done].
    induction Hr as [k|k l m Hkl _ IHr]; [done|].
    destruct (Hc k l Hk Hkl) as [?|?%not_elem_of_nil]; [|done]. by apply IHr.
  - destruct (i =? target)%N eqn:E; [done|]. apply N.eqb_neq in E.
    case_bool_decide as Hi; intros Hl Ht Hc k Hk; apply (IH _ _ Hl).
    + done.
    + intros a b Ha Hab. destruct (Hc a b Ha Hab) as [?|[->|?]%elem_of_cons]; auto.
    + destruct Hk as [?|[->|?]%elem_of_cons]; auto.
    + set_solver.
    + intros a b [->%elem_of_singleton|Ha]%elem_of_union (t & Htk & Hb).
      * rewrite Htk. right. apply elem_of_app. left. by rewrite elem_of_rev.
      * destruct (Hc a b Ha) as [?|[->|?]%elem_of_cons]; [by exists t|set_solver|set_solver|].
        right. destruct (task s i); set_solver.
    + destruct Hk as [?|[->|?]%elem_of_cons]; [set_solver|set_solver|].
      right. destruct (task s i); set_solver.
Qed.

(** The worklist search of [closes_cycle] terminates on every snapshot (well-formed or
    not) and decides exactly reachability: it answers true if and only if the candidate
    reaches itself through the graph it would create. *)
Theorem closes_cycle_correct s c : closes_cycle s c = true ↔ reaches_itself s c.
Proof.
  unfold closes_cycle, reaches_itself. destruct (closes_cycle_total s c) as [b Hb]. rewrite Hb. cbn.
  destruct b; split; try done.
  - intros _. apply cycle_loop_true in Hb as (i & Hi & Hr). exists i. by rewrite elem_of_rev in Hi.
  - intros (j & Hj & Hr). exfalso. revert Hr.
    apply (cycle_loop_false _ _ _ _ _ Hb); [set_solver|set_solver|]. right. by rewrite elem_of_rev.
Qed.

(** ** What [validate] means *)

(** No text of the task is blank or undrawable. *)
Record task_text_ok (t : TodoTask) : Prop := {
  text_subject : trim (subject t) ≠ [];
  text_plain : ∀ f v ml, (f, v, ml) ∈ text_fields t → forbidden_control v ml = None;
  text_metadata : ∀ m, metadata t = Some m → metadata_control m = None;
}.

(** Dense, ordered ids: the task at position [k] is number [k + 1]. *)
Definition dense (ts : list TodoTask) : Prop :=
  ∀ k t, ts !! k = Some t → id t = (N.of_nat k + 1)%N.

Record todo_wf (s : TodoSnapshot) : Prop := {
  wf_dense : dense (tasks s);
  wf_next : next_id s = (N.of_nat (length (tasks s)) + 1)%N;
  wf_text : ∀ t, t ∈ tasks s → task_text_ok t;
  wf_sorted : ∀ t, t ∈ tasks s → StronglySorted N.lt (blocked_by t);
  wf_known : ∀ t b, t ∈ tasks s → b ∈ blocked_by t → (1 <= b < next_id s)%N;
  wf_acyclic : ∀ i, ¬ tc (waits_on s) i i;
}.

Lemma no_control_ok i f o u : no_control i f o = Ok u ↔ o = None.
Proof. destruct o, u; cbn; naive_solver. Qed.

Lemma validate_task_ok next pos seen t u :
  validate_task next pos seen t = Ok u ↔
  id t ∉ seen ∧ id t = (N.of_nat pos + 1)%N ∧ (id t < next)%N ∧ task_text_ok t.
Proof.
  destruct u. unfold validate_task. rewrite !bind_ok. setoid_rewrite bind_ok.
  setoid_rewrite bind_ok. setoid_rewrite bind_ok. setoid_rewrite bind_ok.
  setoid_rewrite guard_err_ok. setoid_rewrite try_for_each_ok. setoid_rewrite Forall_forall.
  setoid_rewrite bool_decide_eq_false. setoid_rewrite orb_false_iff.
  setoid_rewrite negb_false_iff. setoid_rewrite N.eqb_eq. setoid_rewrite N.leb_gt.
  split.
  - intros (_ & ? & _ & [? ?] & _ & ? & _ & ? & _ & Hf & Hm). split_and!; try done. split; [done| |].
    + intros f v ml Hv. specialize (Hf _ Hv). by apply no_control_ok in Hf.
    + intros m Hmd. rewrite Hmd in Hm. by apply no_control_ok in Hm.
  - intros (? & ? & ? & [? Hf Hm]). eexists tt; split; [done|]. eexists tt; split; [|].
    { split; [apply N.eqb_neq; lia|done]. }
    eexists tt; split; [done|]. eexists tt; split; [done|]. eexists tt; split.
    + intros [[f v] ml] Hv. apply no_control_ok. eauto.
    + destruct (metadata t) as [m|]; [|done]. apply no_control_ok. auto.
Qed.

Definition ids_upto (n : nat) (seen : gset N) : Prop :=
  ∀ x, x ∈ seen ↔ (1 <= x <= N.of_nat n)%N.

Lemma validate_tasks_ok next pos seen ts :
  ids_upto pos seen →
  (∃ seen', validate_tasks next pos seen ts = Ok seen' ∧ ids_upto (pos + length ts) seen') ∧
  (∀ k t, ts !! k = Some t →
     id t = (N.of_nat (pos + k) + 1)%N ∧ (id t < next)%N ∧ task_text_ok t)
  ∨ (∃ e, validate_tasks next pos seen ts = Err e) ∧
    ¬ (∀ k t, ts !! k = Some t →
         id t = (N.of_nat (pos + k) + 1)%N ∧ (id t < next)%N ∧ task_text_ok t).
Proof.
  revert pos seen. induction ts as [|t ts IH]; intros pos seen Hseen; cbn.
  { left. split; [|done]. exists seen. by rewrite Nat.add_0_r. }
  destruct (validate_task next pos seen t) as [[]|e] eqn:Ht; cbn.
  - apply validate_task_ok in Ht as (Hn & Hid & Hlt & Htx).
    assert (Hs' : ids_upto (S pos) ({[id t]} ∪ seen)).
    { intros x. rewrite elem_of_union, elem_of_singleton, (Hseen x). lia. }
    destruct (IH _ _ Hs') as [[(seen' & He & Hs) Hall]|[He Hnot]]; [left|right].
    + split; [exists seen'; split; [done|]; by rewrite Nat.add_succ_r|].
      intros [|k] t0 Hk; cbn in Hk; [injection Hk as <-; by rewrite Nat.add_0_r|].
      rewrite Nat.add_succ_r. by apply Hall.
    + split; [done|]. intros Hall. apply Hnot. intros k t0 Hk.
      specialize (Hall (S k) t0 Hk). by rewrite Nat.add_succ_r in Hall.
  - right. split; [by eexists|]. intros Hall. destruct (Hall 0 t eq_refl) as (Hid & Hlt & Htx).
    rewrite Nat.add_0_r in Hid. enough (validate_task next pos seen t = Ok ()) by congruence.
    apply validate_task_ok. split_and!; try done. rewrite (Hseen (id t)). lia.
Qed.

Lemma task_dense s i t : dense (tasks s) → task s i = Some t ↔ t ∈ tasks s ∧ id t = i.
Proof.
  intros Hd. split; [apply task_Some|]. intros [Hin <-].
  destruct (task s (id t)) as [t'|] eqn:E.
  - f_equal. apply task_Some in E as [Hin' Hid].
    apply list_elem_of_lookup in Hin as [k Hk], Hin' as [k' Hk'].
    pose proof (Hd _ _ Hk). pose proof (Hd _ _ Hk'). assert (k = k') as -> by lia. congruence.
  - exfalso. apply (proj1 (find_first_None _ _) E) in Hin. cbn in Hin.
    by rewrite N.eqb_refl in Hin.
Qed.

Lemma reaches_itself_tc s t :
  dense (tasks s) → t ∈ tasks s → reaches_itself s t ↔ tc (waits_on s) (id t) (id t).
Proof.
  intros Hd Ht. assert (Htk : task s (id t) = Some t) by (by apply task_dense). split.
  - intros (j & Hj & Hr). eapply tc_rtc_r; [|done]. apply tc_once. by exists t.
  - intros H. apply tc_inv_l in H as (j & (t' & Ht' & Hj) & Hr).
    rewrite Htk in Ht'. injection Ht' as <-. by exists j.
Qed.

Lemma validate_dependencies_ok s seen n t u :
  ids_upto n seen →
  validate_dependencies s seen t = Ok u ↔
  (∀ b, b ∈ blocked_by t → b ≠ id t ∧ (1 <= b <= N.of_nat n)%N) ∧
  StronglySorted N.lt (blocked_by t) ∧ ¬ reaches_itself s t.
Proof.
  intros Hseen. destruct u. unfold validate_dependencies.
  assert (Hb : ∀ b, (_ ← guard_err (b =? id t)%N (SSelfBlock (id t));
      guard_err (negb (bool_decide (b ∈ seen))) (SUnknownDependency (id t) b)) = Ok () ↔
      b ≠ id t ∧ (1 <= b <= N.of_nat n)%N).
  { intros b. rewrite <-(Hseen b), <-N.eqb_neq, bind_ok. split.
    - intros (? & ?%guard_err_ok & H%guard_err_ok). split; [done|].
      by apply negb_false_iff, bool_decide_eq_true in H.
    - intros [? ?]. exists (). rewrite !guard_err_ok. split; [done|].
      by apply negb_false_iff, bool_decide_eq_true. }
  assert (Hc : closes_cycle s t = false ↔ ¬ reaches_itself s t)
    by (by rewrite <-closes_cycle_correct, not_true_iff_false).
  rewrite <-Hc, <-Sorted_N_lt, <-any_window2_false. split.
  - intros (? & Hf%try_for_each_ok & (? & ?%guard_err_ok & ?%guard_err_ok)%bind_ok)%bind_ok.
    split_and!; [|done..]. intros b Hin. apply Hb. by eapply (proj1 (Forall_forall _ _) Hf).
  - intros (Hk & ? & ?). apply bind_ok. exists (). split.
    + apply try_for_each_ok, Forall_forall. intros b Hin. by apply Hb, Hk.
    + apply bind_ok. exists (). by rewrite !guard_err_ok.
Qed.

(** [validate] accepts exactly the lists some history of mutations could have produced:
    dense ids in creation order, an allocator one past them, drawable non-blank text,
    ascending dependency sets over existing tasks, and an acyclic graph. *)
Theorem validate_sound_complete s : validate s = Ok () ↔ todo_wf s.
Proof.
  assert (H0 : ids_upto 0 ∅) by (intros x; split; [set_solver|lia]).
  unfold validate. split.
  - intros (? & _ & (seen & Hv & (? & Hn%guard_err_ok & Hdeps)%bind_ok)%bind_ok)%bind_ok.
    apply negb_false_iff, N.eqb_eq in Hn. rewrite try_for_each_ok, Forall_forall in Hdeps.
    destruct (validate_tasks_ok (next_id s) 0 ∅ (tasks s) H0)
      as [[(seen' & He & Hs) Hall]|[[e He] _]]; [|congruence].
    rewrite Hv in He. injection He as <-. cbn in Hs, Hall.
    assert (Hd : dense (tasks s)) by (intros k t Hk; by destruct (Hall k t Hk)).
    assert (Hdep : ∀ t, t ∈ tasks s → _) by
      (intros t Ht; exact (proj1 (validate_dependencies_ok s _ _ t () Hs) (Hdeps t Ht))).
    split; try done.
    + intros t [k Hk]%list_elem_of_lookup. by destruct (Hall k t Hk) as (_ & _ & ?).
    + intros t Ht. by destruct (Hdep t Ht) as (_ & ? & _).
    + intros t b Ht Hb. destruct (Hdep t Ht) as (Hk & _ & _). destruct (Hk b Hb). lia.
    + intros i Hi. pose proof Hi as (j & (t & Ht & _) & _)%tc_inv_l.
      apply task_Some in Ht as [Ht <-]. destruct (Hdep t Ht) as (_ & _ & Hc).
      by apply Hc, reaches_itself_tc.
  - intros [Hd Hn Htx Hso Hk Ha]. apply bind_ok. exists ().
    split; [apply guard_err_ok, N.eqb_neq; lia|].
    destruct (validate_tasks_ok (next_id s) 0 ∅ (tasks s) H0)
      as [[(seen' & He & Hs) _]|[_ Hnot]].
    + apply bind_ok. exists seen'. split; [done|]. apply bind_ok. exists ().
      split; [apply guard_err_ok, negb_false_iff, N.eqb_eq; done|].
      apply try_for_each_ok, Forall_forall. intros t Ht.
      apply (validate_dependencies_ok _ _ _ _ _ Hs). split_and!; [|auto|].
      * intros b Hb. specialize (Hk t b Ht Hb). split; [|cbn in *; lia]. intros ->.
        apply (Ha (id t)), tc_once. exists t. split; [by apply task_dense|done].
      * intros Hc%reaches_itself_tc; [by apply (Ha (id t))|done|done].
    + exfalso. apply Hnot. intros k t Hkt. cbn. pose proof (Hd k t Hkt). split_and!; [done| |].
      * apply lookup_lt_Some in Hkt. lia.
      * apply Htx. apply list_elem_of_lookup. by exists k.
Qed.

(** ** The presentation is bounded *)

Lemma back_to_boundary_le text e : (back_to_boundary text e <= e)%nat.
Proof. induction e as [|e IH]; cbn; [done|]. case_match; lia. Qed.

Lemma back_to_boundary_ok text e : is_char_boundary text (N.of_nat (back_to_boundary text e)) = true.
Proof.
  induction e as [|e IH]; cbn -[N.of_nat]; [apply is_char_boundary_0|]. by case_match.
Qed.

Lemma bound_status_text_len text : (len (bound_status_text text) <= MAX_TODO_STATUS_TEXT_BYTES)%N.
Proof.
  unfold bound_status_text. case_match eqn:E; [by apply N.leb_le|].
  rewrite len_app. set (e := back_to_boundary _ _).
  pose proof (back_to_boundary_le text (N.to_nat (N.min
    (saturating_sub MAX_TODO_STATUS_TEXT_BYTES (len ellipsis)) (len text)))) as He. fold e in He.
  pose proof (len_take_bytes_le text (N.of_nat e)).
  assert (H3 : len ellipsis = 3%N) by reflexivity.
  unfold saturating_sub, MAX_TODO_STATUS_TEXT_BYTES in *. lia.
Qed.

(** Either the text itself or a whole-character prefix of it and the ellipsis. *)
Lemma bound_status_text_prefix text :
  bound_status_text text = text ∨
  ∃ p q, text = p ++ q ∧ bound_status_text text = p ++ ellipsis.
Proof.
  unfold bound_status_text. case_match; [by left|right].
  eexists _, _. split; [symmetry; apply take_drop_bytes|done].
Qed.

Definition opt_count {A} (o : option A) : nat := if o then 1 else 0.

Lemma present_bounds st cid limit act cur sh :
  let r := present st cid limit act cur sh in
  (length r.2 <= max (length sh) limit)%nat ∧
  (opt_count r.1 + length r.2 <= opt_count cur + length sh + length act)%nat ∧
  (cid = None → r.1 = cur).
Proof.
  revert cur sh. induction act as [|t act IH]; intros cur sh; cbn; [split_and!; [lia|lia|done]|].
  case_bool_decide as Hc.
  - destruct (IH (Some (status_task st t)) sh) as (H1 & H2 & _).
    split_and!; [done|destruct cur; cbn in *; lia|intros ->; done].
  - case_match eqn:E; [apply Nat.ltb_lt in E|].
    + destruct (IH cur (sh ++ [status_task st t])) as (H1 & H2 & H3).
      rewrite length_app in H1, H2. cbn in *. split_and!; [lia|lia|done].
    + destruct (IH cur sh) as (H1 & H2 & H3). split_and!; [done|lia|done].
Qed.

Lemma present_from st cid limit act cur sh x :
  let r := present st cid limit act cur sh in
  r.1 = Some x ∨ x ∈ r.2 →
  cur = Some x ∨ x ∈ sh ∨ ∃ t, t ∈ act ∧ x = status_task st t.
Proof.
  revert cur sh. induction act as [|t act IH]; intros cur sh; cbn; [naive_solver|].
  case_bool_decide; [|case_match]; intros Hx%IH; set_solver.
Qed.

(** The presentation another extension reads is bounded whatever the list holds: at most
    six tasks are shown, every shown text fits 256 UTF-8 bytes, and the omission count is
    exact: shown and omitted tasks together are the active ones. *)
Theorem presentation_bounded s :
  let p := status_presentation s in
  let displayed := (opt_count (current p) + length (shown p))%nat in
  (displayed <= MAX_TODO_STATUS_TASKS)%nat ∧
  active_count p = (displayed + omitted_count p)%nat ∧
  (∀ x, current p = Some x ∨ x ∈ shown p →
     (len (st_subject x) <= MAX_TODO_STATUS_TEXT_BYTES)%N ∧
     (∀ a, st_active_form x = Some a → (len a <= MAX_TODO_STATUS_TEXT_BYTES)%N)).
Proof.
  unfold status_presentation. set (cid := id <$> _). set (st := task_states _).
  set (act := List.filter is_active _). set (limit := if cid then _ else _).
  pose proof (present_bounds st cid limit act None []) as (H1 & H2 & H3).
  pose proof (present_from st cid limit act None []) as H4.
  destruct (present st cid limit act None []) as [cur sh]. cbn in *. split_and!.
  - unfold limit, MAX_TODO_STATUS_TASKS in *. destruct cid; cbn in *.
    + destruct cur; cbn in *; lia.
    + rewrite H3 by done. cbn. lia.
  - unfold opt_count in *. destruct cur; lia.
  - intros x Hx%H4. destruct Hx as [?|[?%not_elem_of_nil|(t & _ & ->)]]; [done..|].
    split; [apply bound_status_text_len|]. intros a Ha. cbn in Ha.
    apply fmap_Some in Ha as (b & _ & ->). apply bound_status_text_len.
Qed.
