(* ===== verification/TodoList.v ===== *)
(** The conversation task list, authority half ([src/src/tools/todo.rs]): the batch-scoped
    mutations, staging, settlement and the rebuild from canonical history, with the
    result contract of the [todo] tool ([src/src/tools/native/todo/mod.rs]).

    The list is shared behind [Arc<Mutex<TodoListState>>]; each operation takes the lock
    once, so the model passes the locked state explicitly.  A batch token and a writer are
    the number of their batch.  A mutation changes the state only when it succeeds. *)

From S2P Require Import Prelude Text Json Message Todo.
From stdpp Require Import options.

Definition TODO_TOOL_ID : ToolId := lit "tool-todo".

(** ** State *)

Record StagedTodos := { batch : N; snapshot : TodoSnapshot }.

Record TodoListState := {
  committed : TodoSnapshot;
  staged : option StagedTodos;
  open : option N;
  next_batch : N;
}.

Definition working_for (st : TodoListState) (b : N) : TodoSnapshot :=
  match staged st with
  | Some s => if (batch s =? b)%N then snapshot s else committed st
  | None => committed st
  end.

(** [ConversationTodoList::over] *)
Definition over (s : TodoSnapshot) : TodoListState :=
  {| committed := s; staged := None; open := None; next_batch := 1 |}.

Inductive TodoMutationError :=
| BlankSubject
| UnknownTask (i : N)
| UnknownDependency (field : str) (i : N)
| DeletedDependency (field : str) (i : N)
| SelfBlock (i : N)
| DependencyCycle
| EmptyUpdate
| IllegalTransition (from to : TodoStatus)
| AlreadyDeleted (i : N)
| AllocatorExhausted
| Unpublishable (e : TodoSnapshotError)
| BatchClosed.

Record TodoCreate := {
  c_subject : str; c_description : option str; c_active_form : option str;
  c_owner : option str; c_blocked_by : list N; c_metadata : option Metadata }.

Record TodoChange := {
  ch_subject : option str; ch_description : option str; ch_active_form : option str;
  ch_owner : option str; ch_status : option TodoStatus; add_blocked_by : list N;
  remove_blocked_by : list N; ch_metadata : option Metadata }.

(** [TodoChange::is_empty] *)
Definition change_is_empty (c : TodoChange) : bool :=
  match c with
  | {| ch_subject := None; ch_description := None; ch_active_form := None; ch_owner := None;
       ch_status := None; add_blocked_by := []; remove_blocked_by := [];
       ch_metadata := None |} => true
  | _ => false
  end.

Record TodoUpdate := {
  u_task : TodoTask; previous_status : option TodoStatus; unchanged : bool }.

(** ** Helpers of the mutations *)

Fixpoint dedup (l : list N) : list N :=
  match l with
  | x :: ((y :: _) as l') => if (x =? y)%N then dedup l' else x :: dedup l'
  | _ => l
  end.

Definition normalize_ids (ids : list N) : list N := dedup (merge_sort N.le ids).

Definition check_dependency (s : TodoSnapshot) (field : str) (i : N)
    : result TodoMutationError () :=
  match task s i with
  | None => Err (UnknownDependency field i)
  | Some t => if bool_decide (status t = Deleted) then Err (DeletedDependency field i) else Ok ()
  end.

Definition merge_metadata (current : option Metadata) (patch : Metadata) : option Metadata :=
  let merged := foldl (λ m '(key, value),
                         if is_null value then map_remove key m else map_insert key value m)
                      (default [] current) patch in
  if bool_decide (merged = []) then None else Some merged.

(** [stage]: only a list a rebuild could adopt is ever staged. *)
Definition stage (st : TodoListState) (b : N) (next : TodoSnapshot)
    : result TodoMutationError (TodoSnapshot * TodoListState) :=
  _ ← map_err Unpublishable (validate next);
  Ok (next, {| committed := committed st; staged := Some {| batch := b; snapshot := next |};
               open := open st; next_batch := next_batch st |}).

(** [TodoWriter::guard] *)
Definition guard (st : TodoListState) (b : N) : result TodoMutationError () :=
  guard_err (negb (bool_decide (open st = Some b))) BatchClosed.

(** ** The writer *)

(** [TodoWriter::snapshot] *)
Definition writer_snapshot (b : N) (st : TodoListState)
    : result TodoMutationError TodoSnapshot :=
  _ ← guard st b; Ok (working_for st b).

(** [TodoWriter::create] *)
Definition create (b : N) (spec : TodoCreate) (st : TodoListState)
    : result TodoMutationError (TodoTask * TodoSnapshot * TodoListState) :=
  let subject := trim (c_subject spec) in
  _ ← guard_err (bool_decide (subject = [])) BlankSubject;
  _ ← guard st b;
  let next := working_for st b in
  let blocked_by := normalize_ids (c_blocked_by spec) in
  _ ← try_for_each (check_dependency next (lit "blocked_by")) blocked_by;
  let t := {| id := next_id next; subject := subject; description := c_description spec;
              active_form := c_active_form spec; status := Pending; blocked_by := blocked_by;
              owner := c_owner spec;
              metadata := match c_metadata spec with Some [] => None | m => m end |} in
  next_id' ← ok_or AllocatorExhausted (u64_checked_add (next_id next) 1);
  '(s, st) ← stage st b {| tasks := tasks next ++ [t]; next_id := next_id' |};
  Ok (t, s, st).

(** The patched task of [update], from the status check to the normalized dependencies. *)
Definition patch_task (next : TodoSnapshot) (i : N) (current : TodoTask) (c : TodoChange)
    : result TodoMutationError TodoTask :=
  new_status ← match ch_status c with
           | Some to => if can_transition_to (status current) to then Ok to
                        else Err (IllegalTransition (status current) to)
           | None => Ok (status current)
           end;
  new_subject ← match ch_subject c with
            | Some s => if bool_decide (trim s = []) then Err BlankSubject else Ok (trim s)
            | None => Ok (subject current)
            end;
  _ ← try_for_each (λ added,
        _ ← guard_err (added =? i)%N (SelfBlock i);
        check_dependency next (lit "add_blocked_by") added) (add_blocked_by c);
  Ok {| id := id current; subject := new_subject;
        description := match ch_description c with Some d => Some d | None => description current end;
        active_form := match ch_active_form c with Some a => Some a | None => active_form current end;
        status := new_status;
        blocked_by :=
          normalize_ids
            (List.filter (λ x, negb (bool_decide (x ∈ remove_blocked_by c))) (blocked_by current)
             ++ add_blocked_by c);
        owner := match ch_owner c with Some o => Some o | None => owner current end;
        metadata := match ch_metadata c with
                    | Some patch => merge_metadata (metadata current) patch
                    | None => metadata current
                    end |}.

(** [TodoWriter::update] *)
Definition update (b : N) (i : N) (c : TodoChange) (st : TodoListState)
    : result TodoMutationError (TodoUpdate * TodoSnapshot * TodoListState) :=
  _ ← guard_err (change_is_empty c) EmptyUpdate;
  _ ← guard st b;
  let next := working_for st b in
  pos ← ok_or (UnknownTask i) (position (λ t, (id t =? i)%N) (tasks next));
  current ← ok_or (UnknownTask i) (tasks next !! pos);
  updated ← patch_task next i current c;
  _ ← guard_err (negb (bool_decide (add_blocked_by c = [])) && closes_cycle next updated)
        DependencyCycle;
  '(s, st) ← stage st b {| tasks := <[pos := updated]> (tasks next); next_id := next_id next |};
  Ok ({| u_task := updated;
         previous_status := if bool_decide (status updated = status current) then None
                            else Some (status current);
         unchanged := bool_decide (updated = current) |}, s, st).

Definition tombstone (t : TodoTask) : TodoTask :=
  {| id := id t; subject := subject t; description := description t;
     active_form := active_form t; status := Deleted; blocked_by := blocked_by t;
     owner := owner t; metadata := metadata t |}.

(** [TodoWriter::delete] *)
Definition delete (b : N) (i : N) (st : TodoListState)
    : result TodoMutationError (TodoTask * TodoSnapshot * TodoListState) :=
  _ ← guard st b;
  let next := working_for st b in
  pos ← ok_or (UnknownTask i) (position (λ t, (id t =? i)%N) (tasks next));
  current ← ok_or (UnknownTask i) (tasks next !! pos);
  _ ← guard_err (bool_decide (status current = Deleted)) (AlreadyDeleted i);
  '(s, st) ← stage st b
      {| tasks := <[pos := tombstone current]> (tasks next); next_id := next_id next |};
  Ok (tombstone current, s, st).

(** [TodoWriter::clear] *)
Definition clear (b : N) (st : TodoListState)
    : result TodoMutationError (nat * TodoSnapshot * TodoListState) :=
  _ ← guard st b;
  let dropped := length (tasks (working_for st b)) in
  '(s, st) ← stage st b empty_snapshot;
  Ok (dropped, s, st).

(** ** The batch protocol *)

(** [ConversationTodoList::open_batch] *)
Definition open_batch (st : TodoListState) : option (N * TodoListState) :=
  match open st with
  | Some _ => None
  | None =>
      let b := next_batch st in
      next ← u64_checked_add b 1;
      Some (b, {| committed := committed st; staged := None; open := Some b; next_batch := next |})
  end.

(** [Drop for TodoBatch] *)
Definition drop_batch (b : N) (st : TodoListState) : TodoListState :=
  if bool_decide (open st = Some b)
  then {| committed := committed st; staged := None; open := None; next_batch := next_batch st |}
  else st.

Inductive TodoRebuildError :=
| Missing
| Undecodable (error : str)
| Invalid (e : TodoSnapshotError).

(** The serde codec of [TodoSnapshot] is derived code outside the repository: its
    interface is the two conversions and their documented round trip. *)
Class SnapshotCodec := {
  to_value : TodoSnapshot → json;
  from_value : json → result str TodoSnapshot;
  from_to_value : ∀ s, from_value (to_value s) = Ok s;
}.

Section codec.
Context `{SnapshotCodec}.

Definition decode_snapshot (value : json) : result TodoRebuildError TodoSnapshot :=
  s ← map_err Undecodable (from_value value);
  _ ← map_err Invalid (validate s);
  Ok s.

Definition published_snapshot (message : MessageBlock)
    : option (result TodoRebuildError TodoSnapshot) :=
  match message with
  | Tool tool =>
      if negb (bool_decide (tool_id tool = TODO_TOOL_ID))
         || negb (bool_decide (Message.status (tool_result tool) = Success))
      then None
      else match find_map (λ c, match c with RJson value => Some value | _ => None end)
                   (result_content (tool_result tool)) with
           | Some value => Some (decode_snapshot value)
           | None => Some (Err Missing)
           end
  | _ => None
  end.

Definition last_snapshot (history : list MessageBlock)
    : option (result TodoRebuildError TodoSnapshot) :=
  find_map published_snapshot (rev history).

(** [ConversationTodoList::rebuilt] *)
Definition rebuilt (history : list MessageBlock) : result TodoRebuildError TodoListState :=
  s ← match last_snapshot history with Some r => r | None => Ok empty_snapshot end;
  Ok (over s).

Inductive TodoSettlement := Installed | Unchanged.

(** [TodoBatch::settle]; the token is dropped at the end of the call. *)
Definition settle (b : N) (published : list MessageBlock) (st : TodoListState)
    : TodoSettlement * TodoListState :=
  let release c :=
    {| committed := c; staged := None; open := None; next_batch := next_batch st |} in
  match last_snapshot published with
  | Some (Ok s) => (Installed, drop_batch b (release s))
  | _ => (Unchanged, drop_batch b (release (committed st)))
  end.

(** [native::todo::settled]: the summary, then the complete list. *)
Definition settled (summary : str) (s : TodoSnapshot) : ToolExecutionResult :=
  {| Message.status := Success; result_content := [RText summary; RJson (to_value s)];
     duration_ms := 0; exit_code := None |}.

(** [native::support::failed_result] *)
Definition failed_result (error : str) : ToolExecutionResult :=
  {| Message.status := Failed error; result_content := []; duration_ms := 0;
     exit_code := None |}.
End codec.

(** ** Normalized dependency sets *)

Lemma elem_of_dedup l x : x ∈ dedup l ↔ x ∈ l.
Proof.
  induction l as [|y [|z l] IH]; [done|done|].
  change (dedup (y :: z :: l)) with (if (y =? z)%N then dedup (z :: l) else y :: dedup (z :: l)).
  destruct (N.eqb_spec y z) as [->|]; rewrite ?elem_of_cons, IH; set_solver.
Qed.

Lemma dedup_StronglySorted l : StronglySorted N.le l → StronglySorted N.lt (dedup l).
Proof.
  induction l as [|y [|z l] IH]; [constructor|repeat constructor|].
  change (dedup (y :: z :: l)) with (if (y =? z)%N then dedup (z :: l) else y :: dedup (z :: l)).
  intros [Hs Hall]%StronglySorted_inv. specialize (IH Hs).
  destruct (N.eqb_spec y z) as [->|Hne]; [done|]. constructor; [done|].
  apply Forall_forall. intros x Hx. rewrite elem_of_dedup in Hx.
  pose proof (proj1 (Forall_forall _ _) Hall z ltac:(constructor)).
  apply StronglySorted_inv in Hs as [_ Hz].
  apply elem_of_cons in Hx as [->|Hx]; [lia|].
  pose proof (proj1 (Forall_forall _ _) Hz x Hx). lia.
Qed.

Lemma elem_of_normalize_ids l x : x ∈ normalize_ids l ↔ x ∈ l.
Proof. unfold normalize_ids. by rewrite elem_of_dedup, (merge_sort_Permutation N.le). Qed.

Lemma normalize_ids_sorted l : StronglySorted N.lt (normalize_ids l).
Proof.
  unfold normalize_ids. apply dedup_StronglySorted.
  apply Sorted_StronglySorted; [intros ???; lia|].
  apply Sorted_merge_sort. intros x y. lia.
Qed.

Lemma check_dependency_ok s f i u :
  check_dependency s f i = Ok u ↔ ∃ t, task s i = Some t ∧ status t ≠ Deleted.
Proof.
  destruct u. unfold check_dependency. destruct (task s i) as [t|]; [|naive_solver].
  case_bool_decide; naive_solver.
Qed.

(** ** Structure without text: what the mutations' own guards establish *)
Record todo_structure (s : TodoSnapshot) : Prop := {
  str_dense : dense (tasks s);
  str_next : next_id s = (N.of_nat (length (tasks s)) + 1)%N;
  str_subject : ∀ t, t ∈ tasks s → trim (subject t) ≠ [];
  str_sorted : ∀ t, t ∈ tasks s → StronglySorted N.lt (blocked_by t);
  str_known : ∀ t b, t ∈ tasks s → b ∈ blocked_by t → (1 <= b < next_id s)%N;
  str_acyclic : ∀ i, ¬ tc (waits_on s) i i;
}.

Lemma todo_wf_structure s : todo_wf s → todo_structure s.
Proof. intros [? ? Ht ? ? ?]. split; try done. intros t Hin. by destruct (Ht t Hin). Qed.

Lemma no_control_err i f o e : no_control i f o = Err e → ∃ c, e = ControlCharacter i f c.
Proof. destruct o; cbn; naive_solver. Qed.

Lemma try_for_each_err {E A} (f : A → result E ()) l e :
  try_for_each f l = Err e → ∃ x, x ∈ l ∧ f x = Err e.
Proof.
  induction l as [|x l IH]; cbn; [done|]. intros [Hx|([] & Hx & (y & Hy & He)%IH)]%bind_err.
  - exists x. split; [constructor|done].
  - exists y. split; [by constructor|done].
Qed.

Definition text_error (e : TodoSnapshotError) : Prop := ∃ i f c, e = ControlCharacter i f c.

Lemma validate_task_structure next pos seen t e :
  id t ∉ seen → id t = (N.of_nat pos + 1)%N → (id t < next)%N → trim (subject t) ≠ [] →
  validate_task next pos seen t = Err e → text_error e.
Proof.
  intros H1 H2 H3 H4. unfold validate_task.
  intros [[Hb _]%guard_err_err|(_ & _ & He)]%bind_err; [by apply bool_decide_eq_true in Hb|].
  revert He. intros [[Hb _]%guard_err_err|(_ & _ & He)]%bind_err.
  { apply orb_true_iff in Hb as [Hb%N.eqb_eq|Hb%N.leb_le]; lia. }
  revert He. intros [[Hb _]%guard_err_err|(_ & _ & He)]%bind_err.
  { by rewrite (proj2 (N.eqb_eq _ _) H2) in Hb. }
  revert He. intros [[Hb _]%guard_err_err|(_ & _ & He)]%bind_err.
  { by apply bool_decide_eq_true in Hb. }
  revert He.
  intros [([[f v] ml] & _ & [c ->]%no_control_err)%try_for_each_err|([] & _ & Hm)]%bind_err.
  - by eexists _, _, _.
  - destruct (metadata t); [|done]. apply no_control_err in Hm as [c ->]. by eexists _, _, _.
Qed.

Lemma validate_tasks_structure next pos seen ts e :
  ids_upto pos seen →
  (∀ k t, ts !! k = Some t →
     id t = (N.of_nat (pos + k) + 1)%N ∧ (id t < next)%N ∧ trim (subject t) ≠ []) →
  validate_tasks next pos seen ts = Err e → text_error e.
Proof.
  revert pos seen. induction ts as [|t ts IH]; intros pos seen Hseen Hall; cbn; [done|].
  destruct (Hall 0 t eq_refl) as (Hid & Hlt & Hsub). rewrite Nat.add_0_r in Hid.
  intros [Ht|([] & Ht & Hr)]%bind_err.
  - eapply validate_task_structure, Ht; try done. rewrite (Hseen (id t)). lia.
  - eapply IH, Hr.
    + intros x. rewrite elem_of_union, elem_of_singleton, (Hseen x). lia.
    + intros k t0 Hk. specialize (Hall (S k) t0 Hk). by rewrite Nat.add_succ_r in Hall.
Qed.

(** A structurally sound list can only be refused for an undrawable character. *)
Lemma validate_structure s e : todo_structure s → validate s = Err e → text_error e.
Proof.
  intros [Hd Hn Hsub Hso Hk Ha]. unfold validate.
  rewrite (proj2 (N.eqb_neq (next_id s) 0)) by lia. cbn [guard_err].
  assert (H0 : ids_upto 0 ∅) by (intros x; split; [set_solver|lia]).
  intros [?|(_ & _ & [Hv|(seen & Hv & [Hx|(_ & _ & He)]%bind_err)]%bind_err)]%bind_err; [done|..].
  - eapply validate_tasks_structure, Hv; [done|]. intros k t Hkt. pose proof (Hd k t Hkt).
    split_and!; [done| |apply Hsub, list_elem_of_lookup; by exists k].
    apply lookup_lt_Some in Hkt. lia.
  - by rewrite (proj2 (N.eqb_eq _ _) Hn) in Hx.
  - apply try_for_each_err in He as (t & Ht & He). exfalso.
    destruct (validate_tasks_ok (next_id s) 0 ∅ (tasks s) H0)
      as [[(seen' & Hv' & Hs) _]|[[e' He'] _]]; [|congruence].
    rewrite Hv in Hv'. injection Hv' as <-.
    enough (validate_dependencies s seen t = Ok ()) by congruence.
    apply (validate_dependencies_ok _ _ _ _ _ Hs). split_and!; [|auto|].
    + intros b Hb. specialize (Hk t b Ht Hb). split; [|cbn in *; lia]. intros ->.
      apply (Ha (id t)), tc_once. exists t. split; [by apply task_dense|done].
    + intros Hc%reaches_itself_tc; [by apply (Ha (id t))|done|done].
Qed.

(** ** The structure survives each mutation *)

Lemma task_in_range s i : todo_structure s → is_Some (task s i) → (1 <= i < next_id s)%N.
Proof.
  intros [Hd Hn _ _ _ _] [t [[k Hk]%list_elem_of_lookup <-]%task_Some].
  pose proof (Hd k t Hk). apply lookup_lt_Some in Hk. lia.
Qed.

(** [i] gets the edges [es]; the other edges stay. *)
Definition rewired (s s' : TodoSnapshot) (i : N) (es : list N) : Prop :=
  ∀ a b, waits_on s' a b ↔ (a = i ∧ b ∈ es) ∨ (a ≠ i ∧ waits_on s a b).

Lemma rewired_path s s' i es j : rewired s s' i es → rtc (waits_on s') j i → rtc (waits_on s) j i.
Proof.
  intros Hr. induction 1 as [|a b c Hab _ IH]; [done|].
  destruct (decide (a = c)) as [->|Hne]; [done|].
  apply Hr in Hab as [[-> _]|[_ Hab]]; [done|]. eapply rtc_l; [done|]. by apply IH.
Qed.

Lemma rewired_cycle s s' i es x y :
  rewired s s' i es → tc (waits_on s') x y →
  tc (waits_on s) x y ∨ (rtc (waits_on s') x i ∧ tc (waits_on s') i y).
Proof.
  intros Hr. induction 1 as [a b Hab|a b c Hab Hbc IH].
  - destruct (decide (a = i)) as [->|Hne].
    + right. split; [done|by apply tc_once].
    + left. apply tc_once. apply Hr in Hab as [[? _]|[_ ?]]; done.
  - destruct (decide (a = i)) as [->|Hne].
    + right. split; [done|by eapply tc_l].
    + destruct IH as [IH|[IH1 IH2]].
      * left. eapply tc_l; [|done]. apply Hr in Hab as [[? _]|[_ ?]]; done.
      * right. split; [by eapply rtc_l|done].
Qed.

(** Rewiring one task keeps the graph acyclic when the new edges do not lead back to it. *)
Lemma rewired_acyclic s s' i es :
  rewired s s' i es → (∀ x, ¬ tc (waits_on s) x x) →
  (∀ j, j ∈ es → ¬ rtc (waits_on s) j i) → ∀ x, ¬ tc (waits_on s') x x.
Proof.
  intros Hr Ha Hes x Hx.
  assert (Hi : ¬ tc (waits_on s') i i).
  { intros (j & [[_ Hj]|[? _]]%Hr & Hji)%tc_inv_l; [|done].
    apply (Hes j Hj). by eapply rewired_path. }
  destruct (rewired_cycle s s' i es x x Hr Hx) as [?|[H1 H2]]; [by eapply Ha|].
  apply Hi. by eapply tc_rtc_r.
Qed.

Lemma insert_rewired s pos u current :
  dense (tasks s) → tasks s !! pos = Some current → id u = id current →
  dense (<[pos := u]> (tasks s)) ∧
  rewired s {| tasks := <[pos := u]> (tasks s); next_id := next_id s |} (id current) (blocked_by u).
Proof.
  intros Hd Hpos Hid. pose proof (lookup_lt_Some _ _ _ Hpos) as Hlt.
  assert (Hd' : dense (<[pos := u]> (tasks s))).
  { intros k t Hk. apply list_lookup_insert_Some in Hk as [(-> & -> & _)|[_ Hk]]; [|by apply Hd].
    rewrite Hid. by apply Hd. }
  split; [done|]. intros a b. unfold waits_on. split.
  - intros (t & Ht & Hb). apply (task_dense {| tasks := _; next_id := _ |}) in Ht as [Ht <-];
      [|done]. apply list_elem_of_lookup in Ht as [k Hk]. cbn in Hk.
    apply list_lookup_insert_Some in Hk as [(<- & -> & _)|[Hne Hk]]; [by left|right].
    pose proof (Hd k t Hk). pose proof (Hd pos current Hpos). split; [lia|].
    exists t. split; [|done]. apply task_dense; [done|]. split; [|done].
    apply list_elem_of_lookup. by exists k.
  - intros [[-> Hb]|[Hne (t & Ht & Hb)]].
    + exists u. split; [|done]. apply (task_dense {| tasks := _; next_id := _ |}); [done|].
      split; [|done]. apply list_elem_of_lookup. exists pos. by apply list_lookup_insert_eq.
    + exists t. split; [|done]. apply task_dense in Ht as [Ht <-]; [|done].
      apply (task_dense {| tasks := _; next_id := _ |}); [done|]. split; [|done].
      apply list_elem_of_lookup in Ht as [k Hk]. apply list_elem_of_lookup. exists k. cbn.
      rewrite list_lookup_insert_ne; [done|]. intros ->. by rewrite Hpos in Hk; injection Hk as ->.
Qed.

(** Replacing one task by a version with sound edges keeps the structure. *)
Lemma replace_structure s pos u current :
  todo_structure s → tasks s !! pos = Some current → id u = id current →
  trim (subject u) ≠ [] → StronglySorted N.lt (blocked_by u) →
  (∀ b, b ∈ blocked_by u → (1 <= b < next_id s)%N) →
  (∀ j, j ∈ blocked_by u → ¬ rtc (waits_on s) j (id current)) →
  todo_structure {| tasks := <[pos := u]> (tasks s); next_id := next_id s |}.
Proof.
  intros [Hd Hn Hsub Hso Hk Ha] Hpos Hid Hsu Hsou Hku Hau.
  destruct (insert_rewired s pos u current Hd Hpos Hid) as [Hd' Hr].
  assert (Hin : ∀ t, t ∈ <[pos := u]> (tasks s) → t = u ∨ t ∈ tasks s).
  { intros t [k Hkt]%list_elem_of_lookup.
    apply list_lookup_insert_Some in Hkt as [(_ & -> & _)|[_ Hkt]]; [by left|right].
    apply list_elem_of_lookup. by exists k. }
  split; cbn; try done.
  - by rewrite length_insert.
  - intros t [->|?]%Hin; auto.
  - intros t [->|?]%Hin; auto.
  - intros t b [->|?]%Hin ?; eauto.
  - by eapply rewired_acyclic.
Qed.

(** Appending a task that waits only on existing ones keeps the structure. *)
Lemma append_structure s t :
  todo_structure s → id t = next_id s → trim (subject t) ≠ [] →
  StronglySorted N.lt (blocked_by t) →
  (∀ b, b ∈ blocked_by t → (1 <= b < next_id s)%N) →
  todo_structure {| tasks := tasks s ++ [t]; next_id := next_id s + 1 |}.
Proof.
  intros [Hd Hn Hsub Hso Hk Ha] Hid Hst Hsot Hkt. set (s' := {| tasks := _; next_id := _ |}).
  assert (Hd' : dense (tasks s')).
  { intros k x Hx. cbn in Hx. apply lookup_app_Some in Hx as [Hx|[Hle Hx]]; [by apply Hd|].
    apply list_lookup_singleton_Some in Hx as [Hx ->]. lia. }
  assert (Hr : rewired s s' (id t) (blocked_by t)).
  { intros a b. unfold waits_on. setoid_rewrite task_dense; [|done..]. cbn. split.
    - intros (x & [Hx <-] & Hb). apply elem_of_app in Hx as [Hx| ->%list_elem_of_singleton];
        [right|by left].
      split; [|by exists x]. apply list_elem_of_lookup in Hx as [k Hx].
      pose proof (Hd k x Hx). apply lookup_lt_Some in Hx. lia.
    - intros [[-> Hb]|[_ (x & [Hx <-] & Hb)]].
      + exists t. split; [|done]. split; [|done]. set_solver.
      + exists x. split; [|done]. split; [|done]. set_solver. }
  split; cbn; try done.
  - rewrite length_app. cbn. lia.
  - intros x [?| ->%list_elem_of_singleton]%elem_of_app; auto.
  - intros x [?| ->%list_elem_of_singleton]%elem_of_app; auto.
  - intros x b [Hx| ->%list_elem_of_singleton]%elem_of_app Hb; [|specialize (Hkt b Hb); lia].
    specialize (Hk x b Hx Hb). lia.
  - eapply rewired_acyclic; [done|done|]. intros j Hj Hjt.
    apply rtc_inv_r in Hjt as [->|(k & _ & (x & Hx & Hb))].
    + specialize (Hkt _ Hj). lia.
    + apply task_Some in Hx as [Hx _]. specialize (Hk x _ Hx Hb). lia.
Qed.

Lemma stage_err st b next e :
  stage st b next = Err e → ∃ e', validate next = Err e' ∧ e = Unpublishable e'.
Proof. unfold stage. destruct (validate next); cbn; naive_solver. Qed.

Lemma stage_ok st b next s st' :
  stage st b next = Ok (s, st') →
  s = next ∧ validate next = Ok () ∧ committed st' = committed st ∧
  open st' = open st ∧ next_batch st' = next_batch st ∧ working_for st' b = next.
Proof.
  unfold stage. destruct (validate next) as [[]|]; cbn; [|done]. intros [= <- <-].
  unfold working_for. cbn. by rewrite N.eqb_refl.
Qed.

(** ** Rejections *)

Definition create_rejection (e : TodoMutationError) : Prop :=
  match e with
  | BlankSubject | UnknownDependency _ _ | DeletedDependency _ _ | AllocatorExhausted
  | BatchClosed => True
  | Unpublishable e => text_error e
  | _ => False
  end.

Definition update_rejection (e : TodoMutationError) : Prop :=
  match e with
  | EmptyUpdate | BatchClosed | UnknownTask _ | IllegalTransition _ _ | BlankSubject
  | SelfBlock _ | UnknownDependency _ _ | DeletedDependency _ _ | DependencyCycle => True
  | Unpublishable e => text_error e
  | _ => False
  end.

Lemma check_dependency_err s f i e :
  check_dependency s f i = Err e → e = UnknownDependency f i ∨ e = DeletedDependency f i.
Proof. unfold check_dependency. destruct (task s i); [case_bool_decide|]; naive_solver. Qed.

Lemma ok_or_err {E A} (e e' : E) (o : option A) : ok_or e o = Err e' → o = None ∧ e' = e.
Proof. destruct o; cbn; naive_solver. Qed.

Lemma create_rejections b spec st e :
  todo_wf (working_for st b) → create b spec st = Err e → create_rejection e.
Proof.
  intros Hw%todo_wf_structure. unfold create.
  intros [[_ ->]%guard_err_err|([] & Hsub & H)]%bind_err; [done|]. apply guard_err_ok in Hsub.
  apply bool_decide_eq_false in Hsub. revert H.
  intros [[_ ->]%guard_err_err|(_ & _ & H)]%bind_err; [done|]. revert H.
  intros [(x & _ & [-> | ->]%check_dependency_err)%try_for_each_err|(? & Hd & H)]%bind_err; [done..|].
  rewrite try_for_each_ok, Forall_forall in Hd. revert H.
  intros [[_ ->]%ok_or_err|(n & Hn & H)]%bind_err; [done|]. revert H.
  apply ok_or_ok, u64_checked_add_Some in Hn as [-> _].
  intros [(e' & Hv & ->)%stage_err|([s st'] & _ & ?)]%bind_err; [|done]. cbn.
  eapply validate_structure, Hv. apply append_structure; cbn; try done.
  - by rewrite trim_idemp.
  - apply normalize_ids_sorted.
  - intros y Hy. apply task_in_range; [done|]. specialize (Hd y Hy). cbn in Hd.
    apply check_dependency_ok in Hd as (t & -> & _). by eexists.
Qed.

(** The task a patch produces. *)
Lemma patch_task_ok next i cur c u :
  patch_task next i cur c = Ok u →
  id u = id cur ∧
  can_transition_to (status cur) (status u) = true ∧
  (trim (subject cur) ≠ [] → trim (subject u) ≠ []) ∧
  StronglySorted N.lt (blocked_by u) ∧
  (∀ b, b ∈ blocked_by u → b ∈ blocked_by cur ∨
     (b ∈ add_blocked_by c ∧ b ≠ i ∧ ∃ t, task next b = Some t ∧ status t ≠ Deleted)).
Proof.
  unfold patch_task. intros (st' & Hst & (sub & Hsub & (? & Hadd & [= <-])%bind_ok)%bind_ok)%bind_ok.
  cbn. rewrite try_for_each_ok, Forall_forall in Hadd. split_and!.
  - done.
  - destruct (ch_status c); [destruct (can_transition_to _ _) eqn:E; naive_solver|].
    injection Hst as <-. destruct (status cur); cbn; done.
  - intros Hc. destruct (ch_subject c) as [s|]; [|by injection Hsub as <-].
    case_bool_decide as E; [done|]. injection Hsub as <-. by rewrite trim_idemp.
  - apply normalize_ids_sorted.
  - intros b. rewrite elem_of_normalize_ids, elem_of_app, list_elem_of_In, filter_In,
      <-list_elem_of_In. intros [[? _]|Hb]; [by left|right]. split; [done|].
    specialize (Hadd b Hb). cbn in Hadd.
    apply bind_ok in Hadd as (? & Hne%guard_err_ok%N.eqb_neq & Hk%check_dependency_ok). done.
Qed.

Lemma patch_task_err next i cur c e :
  patch_task next i cur c = Err e → update_rejection e.
Proof.
  unfold patch_task. intros [H|(st' & _ & [H|(sub & _ & [H|(? & _ & ?)]%bind_err)]%bind_err)]%bind_err;
    [..|done].
  - destruct (ch_status c); [|done]. destruct (can_transition_to _ _); by simplify_eq.
  - destruct (ch_subject c); [|done]. case_bool_decide; by simplify_eq.
  - apply try_for_each_err in H as (x & _ & H). revert H.
    intros [[_ ->]%guard_err_err|(? & _ & [-> | ->]%check_dependency_err)]%bind_err; done.
Qed.

(** The edges a patch adds never close a cycle once [closes_cycle] has refused them. *)
Lemma patch_task_acyclic next i cur c u pos :
  todo_structure next → tasks next !! pos = Some cur → id cur = i →
  patch_task next i cur c = Ok u →
  (add_blocked_by c ≠ [] → closes_cycle next u = false) →
  ∀ j, j ∈ blocked_by u → ¬ rtc (waits_on next) j (id cur).
Proof.
  intros [Hd _ _ _ _ Ha] Hpos Hi Hp Hc j Hj Hr.
  apply patch_task_ok in Hp as (Hid & _ & _ & _ & Hb).
  assert (Hcur : task next (id cur) = Some cur).
  { apply task_dense; [done|]. split; [|done]. apply list_elem_of_lookup. by exists pos. }
  destruct (decide (add_blocked_by c = [])) as [Hn|Hn].
  - destruct (Hb j Hj) as [Hjc|[Hja _]]; [|rewrite Hn in Hja; by apply not_elem_of_nil in Hja].
    apply (Ha (id cur)). eapply tc_rtc_r; [|done]. apply tc_once. by exists cur.
  - specialize (Hc Hn). apply not_true_iff_false in Hc. apply Hc, closes_cycle_correct.
    exists j. by rewrite Hid.
Qed.

Lemma update_rejections b i c st e :
  todo_wf (working_for st b) → update b i c st = Err e → update_rejection e.
Proof.
  intros Hw%todo_wf_structure. unfold update.
  intros [[_ ->]%guard_err_err|(_ & _ & H)]%bind_err; [done|]. revert H.
  intros [[_ ->]%guard_err_err|(_ & _ & H)]%bind_err; [done|]. revert H.
  intros [[_ ->]%ok_or_err|(pos & Hpos & H)]%bind_err; [done|]. revert H.
  intros [[_ ->]%ok_or_err|(cur & Hcur & H)]%bind_err; [done|]. revert H.
  intros [H|(u & Hu & H)]%bind_err; [by eapply patch_task_err|]. revert H.
  intros [[_ ->]%guard_err_err|([] & Hcy & H)]%bind_err; [done|]. revert H.
  intros [(e' & Hv & ->)%stage_err|([s st'] & _ & ?)]%bind_err; [|done]. cbn.
  apply ok_or_ok in Hcur, Hpos. apply guard_err_ok in Hcy.
  assert (Hi : id cur = i).
  { apply position_Some in Hpos as (x & Hx & ?%N.eqb_eq). congruence. }
  pose proof (patch_task_ok _ _ _ _ _ Hu) as (Hid & _ & Hs & Hso & Hb).
  assert (Hin : cur ∈ tasks (working_for st b)) by (apply list_elem_of_lookup; by exists pos).
  eapply validate_structure, Hv. apply (replace_structure _ _ _ cur); try done.
  - apply Hs. by apply (str_subject _ Hw).
  - intros x Hx. destruct (Hb x Hx) as [?|(_ & _ & t & Ht & _)];
      [by eapply (str_known _ Hw)|apply task_in_range; [done|by eexists]].
  - eapply patch_task_acyclic; try done. intros Hn. apply andb_false_iff in Hcy as [Hcy|]; [|done].
    apply negb_false_iff, bool_decide_eq_true in Hcy. done.
Qed.

Lemma tombstone_structure s pos current :
  todo_structure s → tasks s !! pos = Some current →
  todo_structure {| tasks := <[pos := tombstone current]> (tasks s); next_id := next_id s |}.
Proof.
  intros Hs Hpos. assert (Hin : current ∈ tasks s) by (apply list_elem_of_lookup; by exists pos).
  apply (replace_structure _ _ _ current); try done.
  - exact (str_subject _ Hs current Hin).
  - exact (str_sorted _ Hs current Hin).
  - intros x Hx. by apply (str_known _ Hs current).
  - intros j Hj Hr. apply (str_acyclic _ Hs (id current)). eapply tc_rtc_r; [|done].
    apply tc_once. exists current. split; [|done]. by apply task_dense; [apply Hs|].
Qed.

Definition delete_rejection (e : TodoMutationError) : Prop :=
  match e with
  | BatchClosed | UnknownTask _ | AlreadyDeleted _ => True
  | Unpublishable e => text_error e
  | _ => False
  end.

Lemma delete_rejections b i st e :
  todo_wf (working_for st b) → delete b i st = Err e → delete_rejection e.
Proof.
  intros Hw%todo_wf_structure. unfold delete.
  intros [[_ ->]%guard_err_err|(_ & _ & H)]%bind_err; [done|]. revert H.
  intros [[_ ->]%ok_or_err|(pos & Hpos & H)]%bind_err; [done|]. revert H.
  intros [[_ ->]%ok_or_err|(cur & Hcur & H)]%bind_err; [done|]. revert H.
  intros [[_ ->]%guard_err_err|(_ & _ & H)]%bind_err; [done|]. revert H.
  intros [(e' & Hv & ->)%stage_err|([s st'] & _ & ?)]%bind_err; [|done]. cbn.
  apply ok_or_ok in Hcur. eapply validate_structure, Hv. by apply tombstone_structure.
Qed.

Lemma clear_rejections b st e : clear b st = Err e → e = BatchClosed.
Proof.
  unfold clear, guard. case_bool_decide as Ho; cbn; intros [= <-]; done.
Qed.

(** Every rejection of a mutation names a rule the caller broke: over a well-formed
    working list the final validation of [stage] can only refuse a control character in a
    text the call itself supplied, because the guards of [create], [update] and [delete]
    already keep ids dense, subjects present, dependencies known, normalized and acyclic;
    [clear] is only ever refused by a closed batch. *)
Theorem guards_imply_structure st b :
  todo_wf (working_for st b) →
  (∀ spec e, create b spec st = Err e → create_rejection e) ∧
  (∀ i c e, update b i c st = Err e → update_rejection e) ∧
  (∀ i e, delete b i st = Err e → delete_rejection e) ∧
  (∀ e, clear b st = Err e → e = BatchClosed).
Proof.
  intros Hw. split_and!; intros.
  - by eapply create_rejections.
  - by eapply update_rejections.
  - by eapply delete_rejections.
  - by eapply clear_rejections.
Qed.

(** ** Lifecycle *)

(** Every task of [s] is still in [s'], at a status its own may move to. *)
Definition evolves (s s' : TodoSnapshot) : Prop :=
  ∀ i t, task s i = Some t →
    ∃ t', task s' i = Some t' ∧ can_transition_to (status t) (status t') = true.

Lemma can_transition_refl s : can_transition_to s s = true.
Proof. by destruct s. Qed.

Lemma task_insert s pos u current j :
  dense (tasks s) → tasks s !! pos = Some current → id u = id current →
  task {| tasks := <[pos := u]> (tasks s); next_id := next_id s |} j =
    if decide (j = id current) then Some u else task s j.
Proof.
  intros Hd Hpos Hid. destruct (insert_rewired s pos u current Hd Hpos Hid) as [Hd' _].
  pose proof (lookup_lt_Some _ _ _ Hpos) as Hlt. case_decide as Hj.
  - subst j. apply (task_dense {| tasks := _; next_id := _ |}); [done|]. split; [|done].
    apply list_elem_of_lookup. exists pos. by apply list_lookup_insert_eq.
  - apply option_eq. intros t. rewrite !task_dense by done. cbn.
    rewrite !list_elem_of_lookup. split; intros [[k Hk] <-]; (split; [exists k|done]).
    + apply list_lookup_insert_Some in Hk as [(_ & -> & _)|[_ Hk]]; [congruence|done].
    + rewrite list_lookup_insert_ne; [done|]. intros ->. congruence.
Qed.

Lemma task_append s t j :
  todo_structure s → id t = next_id s →
  task {| tasks := tasks s ++ [t]; next_id := next_id s + 1 |} j =
    if decide (j = next_id s) then Some t else task s j.
Proof.
  intros [Hd Hn _ _ _ _] Hid.
  assert (Hd' : dense (tasks s ++ [t])).
  { intros k x Hx. apply lookup_app_Some in Hx as [Hx|[Hle Hx]]; [by apply Hd|].
    apply list_lookup_singleton_Some in Hx as [Hx ->]. lia. }
  assert (Hfree : ∀ x, x ∈ tasks s → id x ≠ next_id s).
  { intros x [k Hx]%list_elem_of_lookup. pose proof (Hd k x Hx).
    apply lookup_lt_Some in Hx. lia. }
  case_decide as Hj.
  - apply (task_dense {| tasks := _; next_id := _ |}); [done|]. cbn. set_solver.
  - apply option_eq. intros x. rewrite !task_dense by done. cbn.
    rewrite elem_of_app, list_elem_of_singleton. naive_solver congruence.
Qed.

(** What an accepted mutation staged. *)
Lemma create_ok b spec st t s st' :
  create b spec st = Ok (t, s, st') →
  open st = Some b ∧ id t = next_id (working_for st b) ∧ status t = Pending ∧
  s = {| tasks := tasks (working_for st b) ++ [t]; next_id := next_id (working_for st b) + 1 |} ∧
  stage st b s = Ok (s, st').
Proof.
  unfold create. intros (_ & _ & H)%bind_ok. revert H.
  intros ([] & Hg%guard_err_ok%negb_false_iff%bool_decide_eq_true & H)%bind_ok. revert H.
  intros (_ & _ & H)%bind_ok. revert H. intros (n & Hn & H)%bind_ok. revert H.
  apply ok_or_ok, u64_checked_add_Some in Hn as [-> _].
  intros ([s1 st1] & Hs & [= <- <- <-])%bind_ok. cbn.
  pose proof (stage_ok _ _ _ _ _ Hs) as (-> & _). done.
Qed.

Lemma update_ok b i c st u s st' :
  update b i c st = Ok (u, s, st') →
  ∃ pos cur, open st = Some b ∧ tasks (working_for st b) !! pos = Some cur ∧ id cur = i ∧
  patch_task (working_for st b) i cur c = Ok (u_task u) ∧
  s = {| tasks := <[pos := u_task u]> (tasks (working_for st b)); next_id := next_id (working_for st b) |} ∧
  stage st b s = Ok (s, st').
Proof.
  unfold update. intros (_ & _ & H)%bind_ok. revert H.
  intros ([] & Hg%guard_err_ok%negb_false_iff%bool_decide_eq_true & H)%bind_ok. revert H.
  intros (pos & Hpos%ok_or_ok & H)%bind_ok. revert H.
  intros (cur & Hcur%ok_or_ok & H)%bind_ok. revert H.
  intros (v & Hv & H)%bind_ok. revert H. intros (_ & _ & H)%bind_ok. revert H.
  intros ([s1 st1] & Hs & [= <- <- <-])%bind_ok. cbn.
  pose proof (stage_ok _ _ _ _ _ Hs) as (-> & _).
  apply position_Some in Hpos as (x & Hx & Hi%N.eqb_eq).
  exists pos, cur. split_and!; try done. congruence.
Qed.

Lemma delete_ok b i st t s st' :
  delete b i st = Ok (t, s, st') →
  ∃ pos cur, open st = Some b ∧ tasks (working_for st b) !! pos = Some cur ∧ id cur = i ∧
  status cur ≠ Deleted ∧ t = tombstone cur ∧
  s = {| tasks := <[pos := t]> (tasks (working_for st b)); next_id := next_id (working_for st b) |} ∧
  stage st b s = Ok (s, st').
Proof.
  unfold delete. intros ([] & Hg%guard_err_ok%negb_false_iff%bool_decide_eq_true & H)%bind_ok.
  revert H. intros (pos & Hpos%ok_or_ok & H)%bind_ok. revert H.
  intros (cur & Hcur%ok_or_ok & H)%bind_ok. revert H.
  intros ([] & Hd%guard_err_ok%bool_decide_eq_false & H)%bind_ok. revert H.
  intros ([s1 st1] & Hs & [= <- <- <-])%bind_ok. cbn.
  pose proof (stage_ok _ _ _ _ _ Hs) as (-> & _).
  apply position_Some in Hpos as (x & Hx & Hi%N.eqb_eq).
  exists pos, cur. split_and!; try done. congruence.
Qed.

Lemma clear_ok b st n s st' :
  clear b st = Ok (n, s, st') →
  open st = Some b ∧ s = empty_snapshot ∧ n = length (tasks (working_for st b)) ∧
  stage st b s = Ok (s, st').
Proof.
  unfold clear. intros ([] & Hg%guard_err_ok%negb_false_iff%bool_decide_eq_true & H)%bind_ok.
  revert H. intros ([s1 st1] & Hs & [= <- <- <-])%bind_ok.
  pose proof (stage_ok _ _ _ _ _ Hs) as (-> & _). done.
Qed.

Lemma insert_evolves s pos u cur :
  dense (tasks s) → tasks s !! pos = Some cur → id u = id cur →
  can_transition_to (status cur) (status u) = true →
  evolves s {| tasks := <[pos := u]> (tasks s); next_id := next_id s |}.
Proof.
  intros Hd Hpos Hid Hc j t Ht. rewrite (task_insert s pos u cur) by done. case_decide as Hj.
  - exists u. split; [done|]. subst j.
    assert (task s (id cur) = Some cur) by
      (apply task_dense; [done|]; split; [apply list_elem_of_lookup; by exists pos|done]).
    by simplify_eq.
  - exists t. split; [done|apply can_transition_refl].
Qed.

(** The life of a task inside one generation: an accepted [create] adds one pending task
    under a fresh id and leaves every other task as it was; an accepted [update] or [delete]
    replaces exactly the addressed task, keeping its id; no accepted mutation removes a task,
    brings a tombstone back or reopens a completed task, and [delete] only ever tombstones
    in place. *)
Theorem task_lifecycle st b :
  todo_wf (working_for st b) →
  let w := working_for st b in
  (∀ spec t s st', create b spec st = Ok (t, s, st') →
     evolves w s ∧ status t = Pending ∧ task w (id t) = None ∧
     ∀ j, task s j = if decide (j = id t) then Some t else task w j) ∧
  (∀ i c u s st', update b i c st = Ok (u, s, st') →
     evolves w s ∧ is_Some (task w i) ∧
     ∀ j, task s j = if decide (j = i) then Some (u_task u) else task w j) ∧
  (∀ i t s st', delete b i st = Ok (t, s, st') →
     evolves w s ∧ status t = Deleted ∧
     (∃ t0, task w i = Some t0 ∧ status t0 ≠ Deleted ∧ t = tombstone t0) ∧
     ∀ j, task s j = if decide (j = i) then Some t else task w j).
Proof.
  intros Hw%todo_wf_structure w. pose proof (str_dense _ Hw) as Hd.
  assert (Hat : ∀ pos cur, tasks w !! pos = Some cur → task w (id cur) = Some cur).
  { intros pos cur Hpos. apply task_dense; [done|]. split; [|done].
    apply list_elem_of_lookup. by exists pos. }
  split_and!.
  - intros spec t s st' (_ & Hid & Hp & -> & _)%create_ok.
    assert (Hn : task w (id t) = None).
    { destruct (task w (id t)) eqn:E; [|done]. exfalso.
      pose proof (task_in_range w (id t) Hw ltac:(by eexists)) as Hr. rewrite Hid in Hr.
      fold w in Hr. lia. }
    split_and!; [|done|done|intros j; rewrite task_append by done; by rewrite Hid].
    intros j x Hx. rewrite task_append by done. exists x. split; [|apply can_transition_refl].
    case_decide; [|done]. congruence.
  - intros i c u s st' (pos & cur & _ & Hpos & <- & Hp%patch_task_ok & -> & _)%update_ok.
    destruct Hp as (Hid & Hc & _).
    split_and!; [by eapply insert_evolves|rewrite (Hat pos cur) by done; by eexists|].
    intros j. by apply task_insert.
  - intros i t s st' (pos & cur & _ & Hpos & <- & Hnd & -> & -> & _)%delete_ok.
    split_and!; [|done|exists cur; by rewrite (Hat pos cur)|intros j; by apply task_insert].
    eapply insert_evolves; try done. cbn. by destruct (status cur).
Qed.

(** ** Concrete instances *)

Definition demo_state : TodoListState :=
  {| committed := {| tasks :=
       [{| id := 1; subject := lit "Write"; description := None; active_form := None;
           status := Completed; blocked_by := []; owner := None; metadata := None |}];
       next_id := 2 |};
     staged := None; open := Some 3%N; next_batch := 4 |}.

Lemma demo_state_wf : todo_wf (working_for demo_state 3).
Proof. apply validate_sound_complete. by vm_compute. Qed.

Definition demo_deleted := delete 3 1 demo_state.

Lemma guards_imply_structure_witness :
  delete 3 7 demo_state = Err (UnknownTask 7) ∧ delete_rejection (UnknownTask 7).
Proof.
  assert (H : delete 3 7 demo_state = Err (UnknownTask 7)) by (by vm_compute).
  split; [exact H|]. by apply (proj1 (proj2 (proj2 (guards_imply_structure _ 3 demo_state_wf)))) in H.
Defined.

Lemma task_lifecycle_witness :
  ∃ t s st', demo_deleted = Ok (t, s, st') ∧ status t = Deleted ∧
    evolves (working_for demo_state 3) s.
Proof.
  destruct demo_deleted as [[[t s] st']|e] eqn:H; [|by vm_compute in H].
  destruct (proj2 (proj2 (task_lifecycle _ 3 demo_state_wf)) 1%N t s st' H) as (He & Hs & _).
  by exists t, s, st'.
Defined.
