(* ===== verification/TodoTool.v ===== *)
(** The [todo] tool and its batch protocol: the executor over the batch-scoped writer
    ([src/src/tools/native/todo/mod.rs], [input.rs]) and the commit of its results
    ([src/src/agent/execution/tools.rs], [src/src/tools/todo.rs]).

    Serde's decoding of the call arguments, its rendering of a JSON value and the codec of
    a snapshot are derived code outside the repository: [decode], [render_json] and the
    [SnapshotCodec] interface are parameters. *)

From S2P Require Import Prelude Text Json Message Todo TodoList.
From stdpp Require Import options.

Definition NAME : str := lit "todo".

(** ** Texts *)

Definition hex_digit (d : N) : char := if (d <? 10)%N then (48 + d)%N else (55 + d)%N.

Fixpoint hex_digits (fuel : nat) (n : N) : str :=
  match fuel with
  | O => []
  | S k => if (n <? 16)%N then [hex_digit n] else hex_digits k (n / 16) ++ [hex_digit (n mod 16)]
  end.

(** [format!("{:04X}", codepoint)] of a [u32] *)
Definition hex4 (n : N) : str :=
  let ds := hex_digits 8 n in replicate (4 - length ds) 48%N ++ ds.

Definition hash (i : N) : str := lit "#" ++ dec i.

(** [TodoStatus::as_str], which is also its [Display] *)
Definition status_as_str (s : TodoStatus) : str :=
  match s with
  | Pending => lit "pending"
  | InProgress => lit "in_progress"
  | Completed => lit "completed"
  | Deleted => lit "deleted"
  end.

(** [Display for TodoSnapshotError] *)
Definition snapshot_error_text (e : TodoSnapshotError) : str :=
  match e with
  | UnusableAllocator => lit "next_id 0 can never name a task"
  | DuplicateId i => hash i ++ lit " appears twice"
  | UnallocatedId i next =>
      hash i ++ lit " was never allocated (next_id is " ++ dec next ++ lit ")"
  | OutOfCreationOrder pos i expected =>
      hash i ++ lit " sits at position " ++ dec (N.of_nat pos)
      ++ lit ", where creation order requires " ++ hash expected
  | AllocatorAhead next count =>
      lit "next_id " ++ dec next ++ lit " is ahead of the " ++ dec (N.of_nat count)
      ++ lit " task(s) the list carries"
  | SBlankSubject i => hash i ++ lit " has no subject"
  | ControlCharacter i field c =>
      hash i ++ lit " " ++ field ++ lit " carries the control character U+" ++ hex4 c
  | SSelfBlock i => hash i ++ lit " waits on itself"
  | SUnknownDependency i blocker =>
      hash i ++ lit " waits on " ++ hash blocker ++ lit ", which no task carries"
  | UnnormalizedDependencies i =>
      hash i ++ lit " blocked_by is not ascending and deduplicated"
  | SDependencyCycle i => hash i ++ lit " closes a cycle in the blocked_by graph"
  end.

Definition arrow : str := [0x2192%N].

(** [Display for TodoMutationError] *)
Definition mutation_error_text (e : TodoMutationError) : str :=
  match e with
  | BlankSubject => lit "a task subject cannot be blank"
  | UnknownTask i => hash i ++ lit " not found"
  | UnknownDependency field i => field ++ lit ": " ++ hash i ++ lit " not found"
  | DeletedDependency field i => field ++ lit ": " ++ hash i ++ lit " is deleted"
  | SelfBlock i => lit "cannot block " ++ hash i ++ lit " on itself"
  | DependencyCycle =>
      lit "the requested dependency would create a cycle in the blocked_by graph"
  | EmptyUpdate =>
      lit "update requires at least one mutable field: subject, description, active_form, status, owner, metadata, add_blocked_by, or remove_blocked_by"
  | IllegalTransition from to =>
      lit "illegal transition " ++ status_as_str from ++ lit " " ++ arrow ++ lit " "
      ++ status_as_str to
  | AlreadyDeleted i => hash i ++ lit " is already deleted"
  | AllocatorExhausted => lit "the task id allocator is exhausted"
  | Unpublishable e =>
      lit "the resulting list could not be read back after a restart: " ++ snapshot_error_text e
  | BatchClosed =>
      lit "the task list is not open for this call: a task list mutation belongs to the tool-result batch that publishes it"
  end.

(** ** Input *)

Inductive TodoAction := ACreate | AUpdate | AList | AGet | ADelete | AClear.

Record TodoInput := {
  action : TodoAction; in_id : option N; in_subject : option str;
  in_description : option str; in_active_form : option str; in_owner : option str;
  in_status : option TodoStatus; in_blocked_by : option (list N);
  in_add_blocked_by : option (list N); in_remove_blocked_by : option (list N);
  in_metadata : option Metadata; include_deleted : bool }.

Definition control_rejection (field : str) (multiline : bool) (c : char) : str :=
  field ++ lit " may not contain the control character U+" ++ hex4 c
  ++ (if multiline then lit " (a line break is the only one allowed there)"
      else lit ", and it is one line").

(** [TodoInput::validate] *)
Definition input_validate (i : TodoInput) : result str () :=
  _ ← try_for_each (λ '(field, value, multiline),
        match value with
        | None => Ok ()
        | Some value =>
            match forbidden_control value multiline with
            | Some c => Err (control_rejection field multiline c)
            | None => Ok ()
            end
        end)
      [(lit "subject", in_subject i, false); (lit "active_form", in_active_form i, false);
       (lit "owner", in_owner i, false); (lit "description", in_description i, true)];
  match in_metadata i with
  | Some m =>
      match metadata_control m with
      | Some c => Err (lit "metadata may not contain the control character U+" ++ hex4 c
                       ++ lit " in a key or a value")
      | None => Ok ()
      end
  | None => Ok ()
  end.

(** [TodoInput::create] *)
Definition input_create (i : TodoInput) : TodoCreate :=
  {| c_subject := default [] (in_subject i); c_description := in_description i;
     c_active_form := in_active_form i; c_owner := in_owner i;
     c_blocked_by := default [] (in_blocked_by i); c_metadata := in_metadata i |}.

(** [TodoInput::change] *)
Definition input_change (i : TodoInput) : TodoChange :=
  {| ch_subject := in_subject i; ch_description := in_description i;
     ch_active_form := in_active_form i; ch_owner := in_owner i; ch_status := in_status i;
     add_blocked_by := default [] (in_add_blocked_by i);
     remove_blocked_by := default [] (in_remove_blocked_by i); ch_metadata := in_metadata i |}.

(** ** Replies *)

Definition render_ids (ids : list N) : str := join (lit ",") (map hash ids).

Definition chain : str := [0x26D3%N].

(** [render_row]: one task as a list row. *)
Definition render_row (t : TodoTask) : str :=
  lit "[" ++ status_as_str (status t) ++ lit "] " ++ hash (id t) ++ lit " " ++ subject t
  ++ match status t, active_form t with
     | InProgress, Some f => lit " (" ++ f ++ lit ")"
     | _, _ => []
     end
  ++ match blocked_by t with
     | [] => []
     | ids => lit " " ++ chain ++ lit " " ++ render_ids ids
     end.

(** [describe_update] *)
Definition describe_update (u : TodoUpdate) : str :=
  if unchanged u
  then lit "No change: " ++ hash (id (u_task u))
       ++ lit " already matches the requested values (status: "
       ++ status_as_str (status (u_task u)) ++ lit ")"
  else match previous_status u with
       | Some previous =>
           lit "Updated " ++ hash (id (u_task u)) ++ lit " (" ++ status_as_str previous
           ++ lit " " ++ arrow ++ lit " " ++ status_as_str (status (u_task u)) ++ lit ")"
       | None => lit "Updated " ++ hash (id (u_task u))
       end.

Section tool.
Context `{SnapshotCodec} (render_json : json → str) (decode : json → result str TodoInput).

(** [render_detail]: one task in full, with both directions of its edges. *)
Definition render_detail (t : TodoTask) (blocks : list N) : str :=
  let opt label (o : option str) := match o with Some v => [label ++ v] | None => [] end in
  join [10%N]
    ([render_row t]
     ++ opt (lit "description: ") (description t)
     ++ opt (lit "active_form: ") (active_form t)
     ++ opt (lit "owner: ") (owner t)
     ++ match blocked_by t with [] => [] | ids => [lit "blocked_by: " ++ render_ids ids] end
     ++ match blocks with [] => [] | ids => [lit "blocks: " ++ render_ids ids] end
     ++ match metadata t with
        | Some m => map (λ '(key, value), lit "metadata." ++ key ++ lit ": " ++ render_json value) m
        | None => []
        end).

(** The reply of one mutation: the state moves only when it is accepted. *)
Definition reply {A} (st : TodoListState)
    (m : result TodoMutationError (A * TodoSnapshot * TodoListState)) (describe : A → str)
    : ToolExecutionResult * TodoListState :=
  match m with
  | Ok (a, s, st') => (settled (describe a) s, st')
  | Err e => (failed_result (mutation_error_text e), st)
  end.

(** [TodoExecutor::create] *)
Definition tool_create (b : N) (i : TodoInput) (st : TodoListState) :=
  if match in_subject i with Some s => bool_decide (trim s = []) | None => true end
  then (failed_result (lit "subject required for create"), st)
  else reply st (create b (input_create i) st) (λ t,
         lit "Created " ++ hash (id t) ++ lit ": " ++ subject t ++ lit " ("
         ++ status_as_str (status t) ++ lit ")").

(** [TodoExecutor::update] *)
Definition tool_update (b : N) (i : TodoInput) (st : TodoListState) :=
  match in_id i with
  | None => (failed_result (lit "id required for update"), st)
  | Some n => reply st (update b n (input_change i) st) describe_update
  end.

(** [TodoExecutor::list] *)
Definition tool_list (b : N) (i : TodoInput) (st : TodoListState) :=
  match writer_snapshot b st with
  | Err e => (failed_result (mutation_error_text e), st)
  | Ok s =>
      let rows := map render_row (List.filter (λ t,
        match in_status i with
        | Some f => bool_decide (status t = f)
        | None => include_deleted i || negb (bool_decide (status t = Deleted))
        end) (tasks s)) in
      (settled (match rows with [] => lit "No tasks" | _ => join [10%N] rows end) s, st)
  end.

(** [TodoExecutor::get] *)
Definition tool_get (b : N) (i : TodoInput) (st : TodoListState) :=
  match in_id i with
  | None => (failed_result (lit "id required for get"), st)
  | Some n =>
      match writer_snapshot b st with
      | Err e => (failed_result (mutation_error_text e), st)
      | Ok s =>
          match task s n with
          | None => (failed_result (mutation_error_text (UnknownTask n)), st)
          | Some t => (settled (render_detail t (blocks s n)) s, st)
          end
      end
  end.

(** [TodoExecutor::delete] *)
Definition tool_delete (b : N) (i : TodoInput) (st : TodoListState) :=
  match in_id i with
  | None => (failed_result (lit "id required for delete"), st)
  | Some n => reply st (delete b n st) (λ t,
                lit "Deleted " ++ hash (id t) ++ lit ": " ++ subject t)
  end.

(** [TodoExecutor::clear] *)
Definition tool_clear (b : N) (st : TodoListState) :=
  reply st (clear b st) (λ dropped,
    lit "Cleared " ++ dec (N.of_nat dropped) ++ lit " "
    ++ (if Nat.eqb dropped 1 then lit "task" else lit "tasks")).

(** [TodoExecutor::dispatch] *)
Definition dispatch (b : N) (i : TodoInput) (st : TodoListState)
    : ToolExecutionResult * TodoListState :=
  match action i with
  | ACreate => tool_create b i st
  | AUpdate => tool_update b i st
  | AList => tool_list b i st
  | AGet => tool_get b i st
  | ADelete => tool_delete b i st
  | AClear => tool_clear b st
  end.

(** [TodoInput::parse] *)
Definition parse (arguments : json) : result str TodoInput :=
  input ← map_err (λ e, lit "invalid " ++ NAME ++ lit " arguments: " ++ e) (decode arguments);
  _ ← input_validate input;
  Ok input.

(** [TodoExecutor::start]: [todos] is the writer the invocation's batch handed over. *)
Definition start (todos : option N) (arguments : json) (st : TodoListState)
    : ToolExecutionResult * TodoListState :=
  match todos with
  | None => (failed_result (mutation_error_text BatchClosed), st)
  | Some b =>
      match parse arguments with
      | Ok input => dispatch b input st
      | Err error => (failed_result error, st)
      end
  end.
End tool.

(** ** One call *)

Lemma reply_outcome {A} `{SnapshotCodec} st b (m : result TodoMutationError (A * _ * _)) d r st' :
  (∀ a s st', m = Ok (a, s, st') → open st = Some b ∧ stage st b s = Ok (s, st')) →
  reply st m d = (r, st') →
  (∃ text s, r = settled text s ∧ open st = Some b ∧ stage st b s = Ok (s, st')) ∨
  (∃ error, r = failed_result error ∧ st' = st).
Proof.
  intros Hm. unfold reply. destruct m as [[[a s] st1]|e]; intros [= <- <-]; [left|right]; eauto.
Qed.

Lemma writer_snapshot_ok b st s :
  writer_snapshot b st = Ok s → open st = Some b ∧ s = working_for st b.
Proof.
  unfold writer_snapshot.
  by intros ([] & Hg%guard_err_ok%negb_false_iff%bool_decide_eq_true & [= <-])%bind_ok.
Qed.

Section outcome.
Context `{SnapshotCodec} (render_json : json → str) (decode : json → result str TodoInput).
Abbreviation start := (start render_json decode).

(** A call either publishes the working list it leaves behind or changes nothing. *)
Lemma start_cases todos arguments st r st' :
  start todos arguments st = (r, st') →
  (∃ b text s, todos = Some b ∧ open st = Some b ∧ r = settled text s ∧
     (stage st b s = Ok (s, st') ∨ (s = working_for st b ∧ st' = st))) ∨
  (∃ error, r = failed_result error ∧ st' = st).
Proof.
  unfold TodoTool.start. destruct todos as [b|]; [|intros [= <- <-]; right; eauto].
  destruct (parse _ arguments) as [i|e]; [|intros [= <- <-]; right; eauto].
  assert (Hr : ∀ A (m : result TodoMutationError (A * _ * _)) d,
    (∀ a s st1, m = Ok (a, s, st1) → open st = Some b ∧ stage st b s = Ok (s, st1)) →
    reply st m d = (r, st') →
    (∃ b0 text s, Some b = Some b0 ∧ open st = Some b0 ∧ r = settled text s ∧
       (stage st b0 s = Ok (s, st') ∨ (s = working_for st b0 ∧ st' = st))) ∨
    (∃ error, r = failed_result error ∧ st' = st)).
  { intros A m d Hm [(text & s & -> & Ho & Hs)|?]%(reply_outcome _ b); [left|by right|done].
    exists b, text, s. auto. }
  unfold dispatch. destruct (action i).
  - unfold tool_create. destruct (match in_subject i with Some _ => _ | None => _ end);
      [intros [= <- <-]; right; eauto|].
    apply Hr. by intros a s st1 (? & _ & _ & _ & ?)%create_ok.
  - unfold tool_update. destruct (in_id i); [|intros [= <- <-]; right; eauto].
    apply Hr. by intros a s st1 (? & ? & ? & _ & _ & _ & _ & ?)%update_ok.
  - unfold tool_list. destruct (writer_snapshot b st) as [s|] eqn:Hw; intros [= <- <-];
      [left|right; eauto]. apply writer_snapshot_ok in Hw as [? ->]. eauto 10.
  - unfold tool_get. destruct (in_id i); [|intros [= <- <-]; right; eauto].
    destruct (writer_snapshot b st) as [s|] eqn:Hw; [|intros [= <- <-]; right; eauto].
    destruct (task s n); intros [= <- <-]; [left|right; eauto].
    apply writer_snapshot_ok in Hw as [? ->]. eauto 10.
  - unfold tool_delete. destruct (in_id i); [|intros [= <- <-]; right; eauto].
    apply Hr. by intros a s st1 (? & ? & ? & _ & _ & _ & _ & _ & ?)%delete_ok.
  - unfold tool_clear. apply Hr. by intros a s st1 (? & _ & _ & ?)%clear_ok.
Qed.

(** Every call of the [todo] tool is all or nothing: either its result succeeds and
    carries exactly the list the batch now works on — a list a restart can adopt — or the
    result is a failure with no content and the shared state is untouched; a call outside
    a batch is always refused. *)
Theorem todo_call_all_or_nothing todos arguments st r st' :
  (∀ b, todos = Some b → todo_wf (working_for st b)) →
  start todos arguments st = (r, st') →
  (∃ b text s, todos = Some b ∧ open st = Some b ∧ r = settled text s ∧
     working_for st' b = s ∧ todo_wf s ∧ committed st' = committed st) ∨
  (∃ error, r = failed_result error ∧ st' = st).
Proof.
  intros Hw Hst.
  destruct (start_cases _ _ _ _ _ Hst) as [(b & text & s & -> & Ho & -> & Hs)|?];
    [left|by right]. exists b, text, s.
  destruct Hs as [(_ & Hv%validate_sound_complete & Hc & _ & _ & Hwork)%stage_ok|[-> ->]];
    split_and!; auto.
Qed.
End outcome.

(** ** The batch protocol

    One batch executes its calls in order, collects one result block per call, and either
    commits the blocks and settles, or is dropped.  [batch_step] is one call whose result
    is recorded as the executor returned it, or a block of another tool. *)
Section protocol.
Context `{SnapshotCodec} (render_json : json → str) (decode : json → result str TodoInput).
Abbreviation start := (start render_json decode).

Inductive batch_step (b : N) :
    TodoListState * list MessageBlock → TodoListState * list MessageBlock → Prop :=
| step_call st bs m arguments st' :
    tool_id m = TODO_TOOL_ID →
    start (Some b) arguments st = (tool_result m, st') →
    batch_step b (st, bs) (st', bs ++ [Tool m])
| step_other st bs m :
    published_snapshot m = None →
    batch_step b (st, bs) (st, bs ++ [m]).

Record world := {
  todos : TodoListState;
  history : list MessageBlock;
  live : option (N * list MessageBlock);
}.

Inductive world_step : world → world → Prop :=
| open_step w b st :
    live w = None → open_batch (todos w) = Some (b, st) →
    world_step w {| todos := st; history := history w; live := Some (b, []) |}
| call_step w b bs st bs' :
    live w = Some (b, bs) → batch_step b (todos w, bs) (st, bs') →
    world_step w {| todos := st; history := history w; live := Some (b, bs') |}
| lost_step w b bs arguments m r st :
    (* the call ran but its recorded result is a cancellation or an unknown outcome *)
    live w = Some (b, bs) → start (Some b) arguments (todos w) = (r, st) →
    Message.status (tool_result m) ≠ Success →
    world_step w {| todos := st; history := history w; live := Some (b, bs ++ [Tool m]) |}
| commit_step w b bs :
    live w = Some (b, bs) →
    world_step w {| todos := (settle b bs (todos w)).2; history := history w ++ bs;
                    live := None |}
| drop_step w b bs :
    live w = Some (b, bs) →
    world_step w {| todos := drop_batch b (todos w); history := history w; live := None |}
| append_step w m :
    published_snapshot m = None →
    world_step w {| todos := todos w; history := history w ++ [m]; live := live w |}
| restart_step w st :
    rebuilt (history w) = Ok st →
    world_step w {| todos := st; history := history w; live := None |}.

Definition new_world : world :=
  {| todos := over empty_snapshot; history := []; live := None |}.

Lemma last_snapshot_app h k :
  last_snapshot (h ++ k) =
    match last_snapshot k with Some r => Some r | None => last_snapshot h end.
Proof. unfold last_snapshot. by rewrite rev_app_distr, find_map_app. Qed.

Lemma last_snapshot_singleton m : last_snapshot [m] = published_snapshot m.
Proof. unfold last_snapshot. cbn. by destruct (published_snapshot m). Qed.

Lemma published_settled m text s :
  tool_id m = TODO_TOOL_ID → tool_result m = settled text s → todo_wf s →
  published_snapshot (Tool m) = Some (Ok s).
Proof.
  intros Hid Hr Hs%validate_sound_complete. unfold published_snapshot.
  rewrite Hr. cbn. rewrite !bool_decide_eq_true_2 by done. cbn.
  unfold decode_snapshot. rewrite from_to_value. cbn. by rewrite Hs.
Qed.

Lemma published_unsuccessful m :
  Message.status (tool_result m) ≠ Success → published_snapshot (Tool m) = None.
Proof.
  intros Hs. unfold published_snapshot. rewrite (bool_decide_eq_false_2 _ Hs).
  by rewrite orb_true_r.
Qed.

(** What holds of the list while batch [b] is open over committed list [c]. *)
Record batch_ok (b : N) (c : TodoSnapshot) (st : TodoListState) (bs : list MessageBlock)
    : Prop := {
  ok_open : open st = Some b;
  ok_committed : committed st = c;
  ok_working : todo_wf (working_for st b);
  ok_published : ∀ r, last_snapshot bs = Some r → ∃ s, r = Ok s ∧ todo_wf s;
}.

Lemma start_batch_ok b c st bs arguments r st' :
  batch_ok b c st bs → start (Some b) arguments st = (r, st') →
  open st' = Some b ∧ committed st' = c ∧ todo_wf (working_for st' b) ∧
  ((∃ text, r = settled text (working_for st' b)) ∨
   (Message.status r ≠ Success ∧ st' = st)).
Proof.
  intros [Ho Hc Hw _] Hs.
  destruct (start_cases _ _ _ _ _ _ _ Hs) as [(b' & text & s & [= <-] & _ & -> & Hs')|(e & -> & ->)];
    [|split_and!; auto].
  destruct Hs' as [(_ & Hv%validate_sound_complete & Hc' & Ho' & _ & Hwork)%stage_ok|[-> ->]].
  - rewrite Hc', Ho', Hwork. split_and!; eauto.
  - split_and!; eauto.
Qed.

Lemma batch_ok_append b c st bs st' m :
  batch_ok b c st bs → open st' = Some b → committed st' = c → todo_wf (working_for st' b) →
  (∀ r, published_snapshot m = Some r → ∃ s, r = Ok s ∧ todo_wf s) →
  batch_ok b c st' (bs ++ [m]).
Proof.
  intros [_ _ _ Hp] Ho Hc Hw Hm. split; [done..|]. intros r.
  rewrite last_snapshot_app, last_snapshot_singleton.
  destruct (published_snapshot m) as [r'|] eqn:E; [|apply Hp]. intros [= <-]. by apply Hm.
Qed.

Lemma batch_step_ok b c st bs st' bs' :
  batch_step b (st, bs) (st', bs') → batch_ok b c st bs → batch_ok b c st' bs'.
Proof.
  inversion_clear 1 as [? ? m arguments ? Hid Hst|? ? m Hm]; intros Hok.
  - destruct (start_batch_ok _ _ _ _ _ _ _ Hok Hst) as (Ho & Hc & Hw & Hr).
    eapply batch_ok_append; try done. intros r. destruct Hr as [[text Hr]|[Hr _]].
    + erewrite published_settled by done. intros [= <-]. eauto.
    + rewrite published_unsuccessful; done.
  - destruct Hok as [Ho Hc Hw Hp]. eapply batch_ok_append; try done. intros r. by rewrite Hm.
Qed.

Record world_ok (w : world) : Prop := {
  w_rebuilt : rebuilt (history w) = Ok (over (committed (todos w)));
  w_committed : todo_wf (committed (todos w));
  w_idle : live w = None → open (todos w) = None ∧ staged (todos w) = None;
  w_live : ∀ b bs, live w = Some (b, bs) → batch_ok b (committed (todos w)) (todos w) bs;
}.

Lemma rebuilt_app h bs c :
  (∀ r, last_snapshot bs = Some r → ∃ s, r = Ok s ∧ todo_wf s) →
  rebuilt h = Ok (over c) →
  rebuilt (h ++ bs) =
    Ok (over (match last_snapshot bs with Some (Ok s) => s | _ => c end)).
Proof.
  intros Hp Hh. unfold rebuilt. rewrite last_snapshot_app.
  destruct (last_snapshot bs) as [r|] eqn:E; [|exact Hh].
  by destruct (Hp r eq_refl) as (s & -> & _).
Qed.

Lemma settle_committed b bs st :
  committed (settle b bs st).2 =
    match last_snapshot bs with Some (Ok s) => s | _ => committed st end ∧
  open (settle b bs st).2 = None ∧ staged (settle b bs st).2 = None.
Proof. unfold settle, drop_batch. by destruct (last_snapshot bs) as [[]|]. Qed.

Lemma over_wf h st : rebuilt h = Ok st → todo_wf (committed st) ∧ st = over (committed st).
Proof.
  unfold rebuilt. destruct (last_snapshot h) as [r|] eqn:E.
  - intros (s & -> & [= <-])%bind_ok. split; [|done]. cbn.
    unfold last_snapshot in E. apply find_map_Some in E as (m & _ & Hm).
    destruct m as [|a|m]; cbn in Hm; try done. destruct (_ || _); [done|].
    destruct (find_map _ _); [|done]. injection Hm as Hm. revert Hm. unfold decode_snapshot.
    intros (s' & _ & ([] & Hv%map_err_ok & [= <-])%bind_ok)%bind_ok.
    by apply validate_sound_complete.
  - intros [= <-]. split; [|done]. by apply validate_sound_complete.
Qed.

Lemma world_step_ok w w' : world_step w w' → world_ok w → world_ok w'.
Proof.
  intros Hs [Hr Hc Hi Hl]. destruct Hs as [w b st Hn Ho|w b bs st bs' Hb Hs|
    w b bs arguments m r st Hb Hs Hlost|w b bs Hb|w b bs Hb|w m Hm|w st Hre].
  - destruct (Hi Hn) as [Ho' Hs']. unfold open_batch in Ho. rewrite Ho' in Ho.
    destruct (u64_checked_add _ _) as [n|]; [|done]. injection Ho as <- <-.
    split; cbn [todos history live]; try done. intros b bs [= <- <-]. by split.
  - pose proof (batch_step_ok _ _ _ _ _ _ Hs (Hl _ _ Hb)) as Hok.
    split; cbn [todos history live]; rewrite ?(ok_committed _ _ _ _ Hok); try done. intros b' bs'' [= <- <-].
    done.
  - destruct (start_batch_ok _ _ _ _ _ _ _ (Hl _ _ Hb) Hs) as (Ho & Hc' & Hw & _).
    split; cbn [todos history live]; rewrite ?Hc'; try done. intros b' bs'' [= <- <-].
    eapply batch_ok_append; [by apply Hl|done..|]. intros r'.
    by rewrite published_unsuccessful.
  - destruct (settle_committed b bs (todos w)) as (He & Ho & Hst).
    pose proof (Hl _ _ Hb) as Hok. split; cbn [todos history live]; rewrite ?He; try done.
    + apply rebuilt_app; [apply Hok|done].
    + destruct (last_snapshot bs) as [r|] eqn:E; [|done].
      by destruct (ok_published _ _ _ _ Hok r E) as (s & -> & ?).
  - pose proof (ok_open _ _ _ _ (Hl _ _ Hb)) as Ho. unfold drop_batch.
    rewrite bool_decide_eq_true_2 by done. by split.
  - split; cbn [todos history live]; try done. rewrite (rebuilt_app _ _ (committed (todos w))); try done.
    + unfold last_snapshot. cbn. by rewrite Hm.
    + unfold last_snapshot. cbn. by rewrite Hm.
  - destruct (over_wf _ _ Hre) as [Hwf He]. split; cbn [todos history live]; try done.
    + by rewrite Hre, He at 1.
    + by rewrite He.
Qed.

(** C2 The process and the canonical history never disagree about the task list: however
    batches are opened, executed, cancelled, committed, dropped or interrupted by a
    restart, rebuilding from the history always succeeds and yields exactly the list the
    process has committed, and that list is well formed. *)
Theorem authority_is_history w :
  rtc world_step new_world w →
  rebuilt (history w) = Ok (over (committed (todos w))) ∧
  todo_wf (committed (todos w)).
Proof.
  intros Hr. assert (world_ok w) as [? ? _ _]; [|done].
  eapply rtc_invariant; [by apply world_step_ok|done|].
  split; cbn [todos history live]; try done. by apply validate_sound_complete.
Qed.

(** A committed batch installs exactly the list its calls worked on: when every call of
    the batch recorded its own result, settling the committed blocks installs the batch's
    working list, the edits of every accepted call included, and reports [Unchanged] only
    when that list is the one already committed. *)
Theorem commit_installs_working_list st0 b l0 st bs :
  open_batch st0 = Some (b, l0) → todo_wf (committed st0) →
  rtc (batch_step b) (l0, []) (st, bs) →
  committed (settle b bs st).2 = working_for st b ∧
  ((settle b bs st).1 = Unchanged → working_for st b = committed st0).
Proof.
  intros Ho Hc Hr. unfold open_batch in Ho. destruct (open st0); [done|].
  destruct (u64_checked_add _ _) as [n|]; [|done]. injection Ho as <- <-.
  set (b := next_batch st0) in *.
  pose (I := λ p : TodoListState * list MessageBlock,
    batch_ok b (committed st0) p.1 p.2 ∧
    (last_snapshot p.2 = Some (Ok (working_for p.1 b)) ∨
     last_snapshot p.2 = None ∧ working_for p.1 b = committed st0)).
  assert (Hinv : I (st, bs)).
  { eapply (rtc_invariant _ I); [|exact Hr|].
    - intros [x xs] [y ys] Hs [Hok Hp]. split; [by eapply batch_step_ok|].
      revert Hok Hp. inversion_clear Hs as [? ? m arguments ? Hid Hst|? ? m Hm];
        cbn [fst snd]; intros Hok Hp; rewrite last_snapshot_app, last_snapshot_singleton.
      + destruct (start_batch_ok _ _ _ _ _ _ _ Hok Hst) as (_ & _ & Hw & [[text He]|[He ->]]).
        * left. by erewrite published_settled by done.
        * by rewrite published_unsuccessful.
      + by rewrite Hm.
    - split; cbn [todos history live]; [by split|by right]. }
  destruct Hinv as [Hok Hp]. cbn [fst snd] in Hok, Hp. destruct (settle_committed b bs st) as (-> & _).
  unfold settle. destruct Hp as [-> |[-> ->]]; cbn; [done|].
  by rewrite (ok_committed _ _ _ _ Hok).
Qed.
End protocol.

(** ** A concrete run

    A codec in the shape of the derived one, and the decoded input of two calls. *)
Definition opt_value (o : option str) : json := match o with Some s => String s | None => Null end.

Definition opt_from (v : json) : option str := match v with String s => Some s | _ => None end.

Definition task_value (t : TodoTask) : json :=
  Object [(lit "id", Number (PosInt (id t))); (lit "subject", String (subject t));
          (lit "description", opt_value (description t));
          (lit "active_form", opt_value (active_form t));
          (lit "status", String (status_as_str (status t)));
          (lit "blocked_by", Array (map (λ b, Number (PosInt b)) (blocked_by t)));
          (lit "owner", opt_value (owner t));
          (lit "metadata", match metadata t with Some m => Object m | None => Null end)].

Definition id_from (v : json) : result str N :=
  match v with Number (PosInt n) => Ok n | _ => Err (lit "expected u64") end.

Fixpoint all_from {A} (f : json → result str A) (l : list json) : result str (list A) :=
  match l with
  | [] => Ok []
  | v :: l => x ← f v; xs ← all_from f l; Ok (x :: xs)
  end.

Definition status_from (v : json) : result str TodoStatus :=
  ok_or (lit "unknown variant")
    (find_first (λ s, bool_decide (v = String (status_as_str s)))
       [Pending; InProgress; Completed; Deleted]).

Definition task_from (v : json) : result str TodoTask :=
  match v with
  | Object [(_, i); (_, String sub); (_, d); (_, a); (_, st); (_, Array bs); (_, o); (_, m)] =>
      i ← id_from i; st ← status_from st; bs ← all_from id_from bs;
      Ok {| id := i; subject := sub; description := opt_from d; active_form := opt_from a;
            status := st; blocked_by := bs; owner := opt_from o;
            metadata := match m with Object m => Some m | _ => None end |}
  | _ => Err (lit "expected a task")
  end.

Definition snapshot_value (s : TodoSnapshot) : json :=
  Object [(lit "tasks", Array (map task_value (tasks s)));
          (lit "next_id", Number (PosInt (next_id s)))].

Definition snapshot_from (v : json) : result str TodoSnapshot :=
  match v with
  | Object [(_, Array ts); (_, n)] =>
      ts ← all_from task_from ts; n ← id_from n; Ok {| tasks := ts; next_id := n |}
  | _ => Err (lit "expected a snapshot")
  end.

Lemma all_from_map {A} (f : json → result str A) (g : A → json) l :
  (∀ x, f (g x) = Ok x) → all_from f (map g l) = Ok l.
Proof. intros Hf. induction l as [|x l IH]; cbn; [done|]. by rewrite Hf, IH. Qed.

Lemma status_from_value s : status_from (String (status_as_str s)) = Ok s.
Proof. destruct s; by vm_compute. Qed.

Lemma task_from_value t : task_from (task_value t) = Ok t.
Proof.
  unfold task_from, task_value. simpl. rewrite status_from_value. simpl.
  rewrite all_from_map by done. simpl.
  destruct t as [? ? [] [] ? ? [] []]; done.
Qed.

Lemma snapshot_from_value s : snapshot_from (snapshot_value s) = Ok s.
Proof.
  unfold snapshot_from, snapshot_value. rewrite all_from_map by apply task_from_value.
  by destruct s.
Qed.

Definition derived_codec : SnapshotCodec :=
  {| to_value := snapshot_value; from_value := snapshot_from;
     from_to_value := snapshot_from_value |}.

Definition demo_input (a : TodoAction) (s : option str) : TodoInput :=
  {| action := a; in_id := None; in_subject := s; in_description := None;
     in_active_form := None; in_owner := None; in_status := None; in_blocked_by := None;
     in_add_blocked_by := None; in_remove_blocked_by := None; in_metadata := None;
     include_deleted := false |}.

Definition demo_decode (v : json) : result str TodoInput :=
  match v with
  | String s => Ok (demo_input ACreate (Some s))
  | Null => Ok (demo_input AList None)
  | _ => Err (lit "expected an object")
  end.

Definition demo_start :=
  start (H := derived_codec) (λ _, []) demo_decode (Some 1%N) (String (lit "Write")).

Definition demo_opened : TodoListState :=
  {| committed := empty_snapshot; staged := None; open := Some 1%N; next_batch := 2 |}.

Definition demo_message : ToolMessageBlock :=
  {| tool_message_id := lit "m"; occurrence := {| assistant_message_id := lit "a"; block_index := 0 |};
     tool_call_id := lit "c"; tool_id := TODO_TOOL_ID; tool_result := (demo_start demo_opened).1 |}.

Definition demo_called : TodoListState := (demo_start demo_opened).2.

Definition demo_world : world :=
  {| todos := (settle (H := derived_codec) 1 [Tool demo_message] demo_called).2;
     history := [Tool demo_message]; live := None |}.

Lemma demo_started : demo_start demo_opened = (tool_result demo_message, demo_called).
Proof. apply surjective_pairing. Qed.

Lemma demo_open : open_batch (over empty_snapshot) = Some (1%N, demo_opened).
Proof. by vm_compute. Qed.

Lemma demo_batch :
  batch_step (H := derived_codec) (λ _, []) demo_decode 1
    (demo_opened, []) (demo_called, [Tool demo_message]).
Proof. by eapply (step_call _ _ 1 demo_opened [] demo_message), demo_started. Qed.

Example demo_installed : progress (committed (todos demo_world)) = (0, 1)%nat.
Proof. by vm_compute. Qed.

Lemma todo_call_all_or_nothing_witness :
  ∃ b text s, Some 1%N = Some b ∧ open demo_opened = Some b ∧
    tool_result demo_message = settled (H := derived_codec) text s ∧
    working_for demo_called b = s ∧ todo_wf s ∧ committed demo_called = committed demo_opened.
Proof.
  destruct (todo_call_all_or_nothing (H := derived_codec) (λ _, []) demo_decode
    (Some 1%N) (String (lit "Write")) demo_opened (tool_result demo_message) demo_called)
    as [H|(e & H & _)].
  - intros b [= <-]. apply validate_sound_complete. by vm_compute.
  - exact demo_started.
  - exact H.
  - exfalso. by vm_compute in H.
Defined.

Lemma authority_is_history_witness :
  rebuilt (H := derived_codec) (history demo_world)
    = Ok (over (committed (todos demo_world))) ∧ todo_wf (committed (todos demo_world)).
Proof.
  apply (authority_is_history (H := derived_codec) (λ _, []) demo_decode).
  eapply rtc_l; [by eapply (open_step _ _ new_world), demo_open|].
  eapply rtc_l; [by eapply (call_step _ _ _ 1 []), demo_batch|].
  apply rtc_once. by apply (commit_step (H := derived_codec) _ _
    {| todos := demo_called; history := []; live := Some (1%N, [Tool demo_message]) |} 1
    [Tool demo_message]).
Defined.

Lemma commit_installs_working_list_witness :
  committed (settle (H := derived_codec) 1 [Tool demo_message] demo_called).2
    = working_for demo_called 1.
Proof.
  eapply (commit_installs_working_list (H := derived_codec) (λ _, []) demo_decode
    (over empty_snapshot) 1 demo_opened).
  - exact demo_open.
  - apply validate_sound_complete. by vm_compute.
  - apply rtc_once, demo_batch.
Defined.
