(* ===== verification/Publication.v ===== *)
(** The publication plane, in-memory half: typed frames, their consolidation into an audit
    ([src/src/publication/frame.rs]) and the bounded coalescer
    ([src/src/publication/coalescer.rs]) as the attempt drives it
    ([src/src/agent/execution/publication.rs]).

    The printed form of a JSON value is [serde_json]'s and a parameter.  The monotonic
    clock is read through an explicit argument. *)

From S2P Require Import Prelude Text Json Message.
From stdpp Require Import options.

Abbreviation PublicationStreamId := (list N) (only parsing).
Abbreviation AttemptId := (list N) (only parsing).
Abbreviation TurnId := (list N) (only parsing).
Abbreviation RequestId := (list N) (only parsing).

(** ** Payloads and frames *)

Inductive PublicationPayload :=
| TextSuffix (block_index : N) (suffix : str)
| ReasoningSuffix (block_index : N) (suffix : str)
| RefusalSuffix (block_index : N) (suffix : str)
| ProposedToolCallStarted (block_index : N) (call : ToolCallStart)
| ProposedToolCallArgumentsSuffix (block_index : N) (call_id : ToolCallId) (suffix : str)
| ProposedToolCallCompleted (block_index : N) (call : ToolCall)
| TerminalOnly.

(** [PublicationPayload::byte_weight] *)
Definition byte_weight (p : PublicationPayload) : N :=
  match p with
  | TextSuffix _ s | ReasoningSuffix _ s | RefusalSuffix _ s
  | ProposedToolCallArgumentsSuffix _ _ s => len s
  | ProposedToolCallStarted _ _ | ProposedToolCallCompleted _ _ | TerminalOnly => 0
  end.

(** [PublicationPayload::is_structural_boundary] *)
Definition is_structural_boundary (p : PublicationPayload) : bool :=
  match p with
  | ProposedToolCallStarted _ _ | ProposedToolCallCompleted _ _ => true
  | _ => false
  end.

(** [PublicationPayload::merge]: the merged payload, or [None] when [other] comes back. *)
Definition merge (self other : PublicationPayload) : option PublicationPayload :=
  match self, other with
  | TextSuffix i s, TextSuffix j t => if (i =? j)%N then Some (TextSuffix i (s ++ t)) else None
  | ReasoningSuffix i s, ReasoningSuffix j t =>
      if (i =? j)%N then Some (ReasoningSuffix i (s ++ t)) else None
  | RefusalSuffix i s, RefusalSuffix j t =>
      if (i =? j)%N then Some (RefusalSuffix i (s ++ t)) else None
  | ProposedToolCallArgumentsSuffix i c s, ProposedToolCallArgumentsSuffix j d t =>
      if (i =? j)%N && bool_decide (c = d)
      then Some (ProposedToolCallArgumentsSuffix i c (s ++ t)) else None
  | _, _ => None
  end.

Record PublicationFrame := {
  f_stream_id : PublicationStreamId;
  f_message_id : MessageId;
  sequence : N;
  payload : PublicationPayload;
}.

Record PublicationStreamStart := {
  stream_id : PublicationStreamId;
  attempt_id : AttemptId;
  turn_id : TurnId;
  request_id : RequestId;
  message_id : MessageId;
}.

#[export] Instance PublicationStreamStart_eq_dec : EqDecision PublicationStreamStart.
Proof. solve_decision. Defined.

Inductive PublicationSettlement := Canonical | Unaccepted | Incomplete.

#[export] Instance PublicationSettlement_eq_dec : EqDecision PublicationSettlement.
Proof. solve_decision. Defined.

(** [PublicationSettlement::as_str] *)
Definition settlement_as_str (s : PublicationSettlement) : str :=
  match s with
  | Canonical => lit "canonical"
  | Unaccepted => lit "unaccepted"
  | Incomplete => lit "incomplete"
  end.

(** [PublicationSettlement::parse] *)
Definition settlement_parse (value : str) : option PublicationSettlement :=
  if bool_decide (value = lit "canonical") then Some Canonical
  else if bool_decide (value = lit "unaccepted") then Some Unaccepted
  else if bool_decide (value = lit "incomplete") then Some Incomplete
  else None.

Inductive PublicationAuditKind := AuditUnaccepted | AuditIncomplete.

(** [From<PublicationAuditKind> for PublicationSettlement] *)
Definition settlement_of (k : PublicationAuditKind) : PublicationSettlement :=
  match k with AuditUnaccepted => Unaccepted | AuditIncomplete => Incomplete end.

Inductive PublicationAuditBlock :=
| AText (block_index : N) (text : str)
| AReasoning (block_index : N) (text : str)
| ARefusal (block_index : N) (text : str)
| AProposedToolCall (block_index : N) (call_id : ToolCallId) (tool_id : ToolId) (name : str)
    (arguments : str) (complete : bool).

Record PublicationAudit := {
  a_stream_id : PublicationStreamId;
  a_attempt_id : AttemptId;
  a_turn_id : TurnId;
  a_request_id : RequestId;
  a_message_id : MessageId;
  a_kind : PublicationAuditKind;
  a_content : list PublicationAuditBlock;
  settled_at : DateTime;
}.

(** [PublicationAudit::proposed_call_ids] *)
Definition proposed_call_ids (a : PublicationAudit) : list ToolCallId :=
  omap (λ b, match b with AProposedToolCall _ c _ _ _ _ => Some c | _ => None end) (a_content a).

Record PublicationStreamRecord := {
  start : PublicationStreamStart;
  terminal_sequence : option N;
  settlement : option PublicationSettlement;
}.

(** [PublicationStreamRecord::audit_kind], with [reached_publication_terminal]. *)
Definition audit_kind (r : PublicationStreamRecord) : PublicationAuditKind :=
  if bool_decide (is_Some (terminal_sequence r)) then AuditUnaccepted else AuditIncomplete.

(** ** Consolidation *)

Inductive TextKind := KText | KReasoning | KRefusal.

Definition text_block (k : TextKind) (i : N) (text : str) : PublicationAuditBlock :=
  match k with
  | KText => AText i text
  | KReasoning => AReasoning i text
  | KRefusal => ARefusal i text
  end.

(** The guard of the loop in [push_text]. *)
Definition text_target (k : TextKind) (i : N) (b : PublicationAuditBlock) : bool :=
  match k, b with
  | KText, AText existing _ | KReasoning, AReasoning existing _
  | KRefusal, ARefusal existing _ => (existing =? i)%N
  | _, _ => false
  end.

Definition append_text (suffix : str) (b : PublicationAuditBlock) : PublicationAuditBlock :=
  match b with
  | AText i t => AText i (t ++ suffix)
  | AReasoning i t => AReasoning i (t ++ suffix)
  | ARefusal i t => ARefusal i (t ++ suffix)
  | AProposedToolCall i c d n a f => AProposedToolCall i c d n (a ++ suffix) f
  end.

Definition push_text (blocks : list PublicationAuditBlock) (i : N) (suffix : str)
    (k : TextKind) : list PublicationAuditBlock :=
  match update_first (text_target k i) (append_text suffix) blocks with
  | Some blocks => blocks
  | None => blocks ++ [text_block k i suffix]
  end.

(** The predicate of [proposal_mut]. *)
Definition proposes (c : ToolCallId) (b : PublicationAuditBlock) : bool :=
  match b with AProposedToolCall _ existing _ _ _ _ => bool_decide (existing = c) | _ => false end.

Section consolidate.
Context (render_json : json → str).

Definition complete_proposal (call : ToolCall) (b : PublicationAuditBlock)
    : PublicationAuditBlock :=
  match b with
  | AProposedToolCall i c d n a _ =>
      AProposedToolCall i c d n
        (if bool_decide (a = []) then render_json (call_arguments call) else a) true
  | b => b
  end.

(** One iteration of [consolidate_audit_content]. *)
Definition audit_step (blocks : list PublicationAuditBlock) (p : PublicationPayload)
    : list PublicationAuditBlock :=
  match p with
  | TextSuffix i s => push_text blocks i s KText
  | ReasoningSuffix i s => push_text blocks i s KReasoning
  | RefusalSuffix i s => push_text blocks i s KRefusal
  | ProposedToolCallStarted i call =>
      blocks ++ [AProposedToolCall i (start_id call) (start_tool_id call) (start_name call) [] false]
  | ProposedToolCallArgumentsSuffix _ c s =>
      default blocks (update_first (proposes c) (append_text s) blocks)
  | ProposedToolCallCompleted _ call =>
      default blocks (update_first (proposes (call_id call)) (complete_proposal call) blocks)
  | TerminalOnly => blocks
  end.

Definition consolidate_audit_content (frames : list PublicationFrame)
    : list PublicationAuditBlock :=
  foldl (λ blocks f, audit_step blocks (payload f)) [] frames.
End consolidate.

(** ** The coalescer *)

Record CoalescePolicy := { max_bytes : N; max_latency_millis : N }.

Record PublicationCoalescer := {
  c_stream_id : PublicationStreamId;
  c_message_id : MessageId;
  policy : CoalescePolicy;
  next_sequence : N;
  pending : list PublicationPayload;
  pending_bytes : N;
  oldest_pending_deadline_millis : option N;
}.

(** [PublicationCoalescer::new] *)
Definition coalescer_new (stream : PublicationStreamId) (message : MessageId)
    (policy : CoalescePolicy) : PublicationCoalescer :=
  {| c_stream_id := stream; c_message_id := message; policy := policy; next_sequence := 0;
     pending := []; pending_bytes := 0; oldest_pending_deadline_millis := None |}.

(** [self.pending.last_mut()] with the merge, then the push of what did not merge. *)
Fixpoint buffer (pending : list PublicationPayload) (p : PublicationPayload)
    : list PublicationPayload :=
  match pending with
  | [] => [p]
  | [l] =>
      if is_structural_boundary l || is_structural_boundary p then [l; p]
      else match merge l p with Some m => [m] | None => [l; p] end
  | q :: pending => q :: buffer pending p
  end.

(** [PublicationCoalescer::push] *)
Definition push (now : N) (p : PublicationPayload) (c : PublicationCoalescer)
    : bool * PublicationCoalescer :=
  let bytes := u64_saturating_add (pending_bytes c) (byte_weight p) in
  (is_structural_boundary p || (max_bytes (policy c) <=? bytes)%N,
   {| c_stream_id := c_stream_id c; c_message_id := c_message_id c; policy := policy c;
      next_sequence := next_sequence c;
      pending := buffer (pending c) p; pending_bytes := bytes;
      oldest_pending_deadline_millis :=
        match oldest_pending_deadline_millis c with
        | Some d => Some d
        | None => Some (u64_saturating_add now (max_latency_millis (policy c)))
        end |}).

(** [PublicationCoalescer::latency_elapsed] *)
Definition latency_elapsed (now : N) (c : PublicationCoalescer) : bool :=
  match oldest_pending_deadline_millis c with
  | None => false
  | Some deadline => (deadline <=? now)%N
  end.

(** [PublicationCoalescer::latency_remaining_millis] *)
Definition latency_remaining_millis (now : N) (c : PublicationCoalescer) : option N :=
  (λ deadline, deadline - now)%N <$> oldest_pending_deadline_millis c.

(** [PublicationCoalescer::seal]: the frames, and [next_sequence] advanced past them. *)
Fixpoint seal_from (stream : PublicationStreamId) (message : MessageId) (next : N)
    (payloads : list PublicationPayload) : list PublicationFrame :=
  match payloads with
  | [] => []
  | p :: payloads =>
      {| f_stream_id := stream; f_message_id := message; sequence := next; payload := p |}
      :: seal_from stream message (next + 1) payloads
  end.

Definition seal (payloads : list PublicationPayload) (c : PublicationCoalescer)
    : list PublicationFrame * PublicationCoalescer :=
  (seal_from (c_stream_id c) (c_message_id c) (next_sequence c) payloads,
   {| c_stream_id := c_stream_id c; c_message_id := c_message_id c; policy := policy c;
      next_sequence := next_sequence c + N.of_nat (length payloads);
      pending := pending c; pending_bytes := pending_bytes c;
      oldest_pending_deadline_millis := oldest_pending_deadline_millis c |}).

(** [PublicationCoalescer::take_frames] *)
Definition take_frames (c : PublicationCoalescer)
    : list PublicationFrame * PublicationCoalescer :=
  seal (pending c)
    {| c_stream_id := c_stream_id c; c_message_id := c_message_id c; policy := policy c;
       next_sequence := next_sequence c; pending := []; pending_bytes := 0;
       oldest_pending_deadline_millis := None |}.

(** [PublicationCoalescer::take_terminal_frames] *)
Definition take_terminal_frames (c : PublicationCoalescer)
    : list PublicationFrame * PublicationCoalescer :=
  let '(frames, c) := take_frames c in
  match frames with
  | [] => seal [TerminalOnly] c
  | _ => (frames, c)
  end.

(** ** The attempt's driver *)

(** [publish_model_event] past the payload: push, then the flush the policy requires.  The
    clock is read once by [push] and once by [latency_elapsed]. *)
Definition publish (now now' : N) (p : PublicationPayload) (c : PublicationCoalescer)
    : list PublicationFrame * PublicationCoalescer :=
  let '(must_flush, c) := push now p c in
  if must_flush || latency_elapsed now' c then take_frames c else ([], c).

(** What the attempt does between opening a stream and its terminal: a model payload, or the
    flush of the latency wake-up. *)
Inductive publish_op :=
| Publish (now now' : N) (p : PublicationPayload)
| Flush.

Definition publish_step (o : publish_op) (c : PublicationCoalescer)
    : list PublicationFrame * PublicationCoalescer :=
  match o with
  | Publish now now' p => publish now now' p c
  | Flush => take_frames c
  end.

Fixpoint publish_run (os : list publish_op) (c : PublicationCoalescer)
    : list PublicationFrame * PublicationCoalescer :=
  match os with
  | [] => ([], c)
  | o :: os =>
      let '(fs, c) := publish_step o c in
      let '(gs, c) := publish_run os c in
      (fs ++ gs, c)
  end.

(** A whole stream: the frames of the run and those of the terminal transaction. *)
Definition publish_stream (os : list publish_op) (c : PublicationCoalescer)
    : list PublicationFrame * PublicationCoalescer :=
  let '(fs, c) := publish_run os c in
  let '(gs, c) := take_terminal_frames c in
  (fs ++ gs, c).

Definition published (os : list publish_op) : list PublicationPayload :=
  omap (λ o, match o with Publish _ _ p => Some p | Flush => None end) os.

(** ** Settlement texts *)

(** The durable text of a settlement reads back as that settlement, and every other text
    is refused. *)
Theorem settlement_roundtrip value s :
  settlement_parse value = Some s ↔ value = settlement_as_str s.
Proof.
  unfold settlement_parse. split.
  - repeat case_bool_decide; intros H'; inversion H'; subst s; assumption.
  - intros ->. destruct s; by vm_compute.
Qed.

(** ** Coalescing is invisible to the audit *)

Lemma push_text_twice k i s t bl : push_text (push_text bl i s k) i t k = push_text bl i (s ++ t) k.
Proof.
  assert (Hk : ∀ u b, text_target k i b = true → text_target k i (append_text u b) = true)
    by (intros u []; by destruct k).
  assert (Happ : ∀ b, append_text t (append_text s b) = append_text (s ++ t) b)
    by (intros []; cbn; by rewrite (assoc_L (++))).
  unfold push_text at 2. destruct (update_first _ (append_text s) bl) as [bl'|] eqn:E.
  - unfold push_text. rewrite (update_first_twice _ (append_text s) _ bl) by auto.
    rewrite (update_first_ext _ _ (append_text (s ++ t))) by auto.
    destruct (update_first _ (append_text (s ++ t)) bl) eqn:E'; [done|].
    apply update_first_None in E'. by rewrite (proj2 (update_first_None _ _ _) E') in E.
  - unfold push_text.
    assert (Hn : ∀ f, update_first (text_target k i) f bl = None)
      by (intros f; apply update_first_None; by apply update_first_None in E).
    rewrite update_first_last; [|done|by destruct k; cbn; rewrite N.eqb_refl].
    rewrite Hn. by destruct k.
Qed.

Lemma arguments_twice c s t bl :
  let add s bl := default bl (update_first (proposes c) (append_text s) bl) in
  add t (add s bl) = add (s ++ t) bl.
Proof.
  cbn. destruct (update_first _ (append_text s) bl) as [bl'|] eqn:E; cbn.
  - rewrite (update_first_twice _ (append_text s) _ bl bl') by (auto; by intros []).
    rewrite (update_first_ext _ _ (append_text (s ++ t)));
      [|intros [] _ _; cbn; by rewrite (assoc_L (++))].
    destruct (update_first _ (append_text (s ++ t)) bl) eqn:E'; [done|].
    apply update_first_None in E'. by rewrite (proj2 (update_first_None _ _ _) E') in E.
  - assert (E' := proj1 (update_first_None _ _ _) E).
    by rewrite !(proj2 (update_first_None _ _ _) E').
Qed.

(** Whatever reads a stream payload by payload and does not tell a merged payload from its
    two halves, nor a terminal-only one from nothing, reads the frames a stream released as
    the payloads the provider sent. *)
Section invisible.
Set Default Proof Using "Type*".
Context {A : Type} (step : A → PublicationPayload → A).
Hypothesis step_merge : ∀ p q m x, merge p q = Some m → step (step x p) q = step x m.
Hypothesis step_terminal : ∀ x, step x TerminalOnly = x.

Lemma foldl_buffer ps p x : foldl step x (buffer ps p) = step (foldl step x ps) p.
Proof.
  revert x. induction ps as [|q [|r ps] IH]; intros x; [done| |].
  - cbn [buffer]. destruct (_ || _); [done|]. destruct (merge q p) eqn:E; [|done].
    cbn. symmetry. by apply step_merge.
  - change (buffer (q :: r :: ps) p) with (q :: buffer (r :: ps) p). cbn [foldl]. apply IH.
Qed.

Lemma foldl_seal stream message n ps x :
  foldl (λ x f, step x (payload f)) x (seal_from stream message n ps) = foldl step x ps.
Proof. revert n x. induction ps as [|p ps IH]; intros n x; cbn; [done|apply IH]. Qed.

(** The frames released so far, then the buffer, read as one stream. *)
Lemma publish_run_fold os c fs c' x :
  publish_run os c = (fs, c') →
  foldl step (foldl (λ x f, step x (payload f)) x fs) (pending c') =
  foldl step (foldl step x (pending c)) (published os).
Proof.
  revert c fs x. induction os as [|o os IH]; intros c fs x; cbn [publish_run].
  { by intros [= <- <-]. }
  destruct (publish_step o c) as [gs c1] eqn:E1, (publish_run os c1) as [hs c2] eqn:E2.
  intros [= <- <-]. rewrite foldl_app, (IH c1 hs _ E2).
  assert (Hflush : ∀ c0, foldl step (foldl (λ x f, step x (payload f)) x
      (take_frames c0).1) (pending (take_frames c0).2) = foldl step x (pending c0)).
  { intros c0. cbn. apply foldl_seal. }
  destruct o as [now now' p|]; cbn [publish_step] in E1.
  - unfold publish in E1. revert E1.
    destruct (push now p c) as [b c0] eqn:Ep.
    assert (Hp : pending c0 = buffer (pending c) p) by (by injection Ep as _ <-).
    destruct (_ || _).
    + intros E1. specialize (Hflush c0). rewrite E1 in Hflush. cbn [fst snd] in Hflush.
      rewrite Hflush, Hp, foldl_buffer. done.
    + intros [= <- <-]. cbn [foldl]. by rewrite Hp, foldl_buffer.
  - specialize (Hflush c). rewrite E1 in Hflush. cbn [fst snd] in Hflush.
    by rewrite Hflush.
Qed.

Lemma take_terminal_frames_run c :
  take_terminal_frames c =
    if bool_decide (pending c = [])
    then ([{| f_stream_id := c_stream_id c; f_message_id := c_message_id c;
              sequence := next_sequence c; payload := TerminalOnly |}],
          (seal [TerminalOnly] (take_frames c).2).2)
    else take_frames c.
Proof.
  unfold take_terminal_frames, take_frames. destruct c as [? ? ? n ps ? ?]; cbn.
  destruct ps as [|p ps]; cbn; [|done]. by rewrite N.add_0_r.
Qed.

Lemma publish_stream_fold stream message policy os x :
  foldl (λ x f, step x (payload f)) x
    (publish_stream os (coalescer_new stream message policy)).1 =
  foldl step x (published os).
Proof.
  unfold publish_stream. destruct (publish_run os _) as [fs c] eqn:E.
  apply (publish_run_fold _ _ _ _ x) in E. cbn [foldl pending coalescer_new] in E.
  rewrite <-E, take_terminal_frames_run. case_bool_decide as Hp.
  - cbn. rewrite foldl_app. cbn. by rewrite Hp, step_terminal.
  - cbn. rewrite foldl_app. apply foldl_seal.
Qed.
End invisible.

Lemma publish_run_app os1 os2 c :
  publish_run (os1 ++ os2) c =
    let '(fs, c1) := publish_run os1 c in
    let '(gs, c2) := publish_run os2 c1 in (fs ++ gs, c2).
Proof.
  revert c. induction os1 as [|o os1 IH]; intros c; cbn.
  { by destruct (publish_run os2 c). }
  destruct (publish_step o c) as [fs c1]. rewrite IH.
  destruct (publish_run os1 c1) as [gs c2], (publish_run os2 c2) as [hs c3].
  by rewrite (assoc_L (++)).
Qed.

Lemma merge_audit_step render_json p q m bl :
  merge p q = Some m →
  audit_step render_json (audit_step render_json bl p) q = audit_step render_json bl m.
Proof.
  destruct p, q; cbn [merge]; try done; intros H.
  1-3: destruct (N.eqb_spec block_index block_index0) as [<-|]; [|done];
    injection H as <-; apply push_text_twice.
  destruct (_ && _) eqn:E; [|done]. apply andb_true_iff in E as [_ ->%bool_decide_eq_true].
  injection H as <-. apply arguments_twice.
Qed.

(** C10 Coalescing is invisible: whatever the byte and latency policy and however the clock
    runs, the audit consolidated from the frames a stream released is the audit of the
    provider's payloads taken one by one. *)
Theorem coalescing_invisible render_json stream message policy os :
  consolidate_audit_content render_json
    (publish_stream os (coalescer_new stream message policy)).1 =
  foldl (audit_step render_json) [] (published os).
Proof.
  apply publish_stream_fold; [|done]. intros p q m bl. apply merge_audit_step.
Qed.

(** ** Sequence numbers *)

Definition sequenced (stream : PublicationStreamId) (message : MessageId) (n : N)
    (fs : list PublicationFrame) : Prop :=
  ∀ k f, fs !! k = Some f →
    sequence f = (n + N.of_nat k)%N ∧ f_stream_id f = stream ∧ f_message_id f = message.

Lemma seal_sequenced stream message n ps : sequenced stream message n (seal_from stream message n ps).
Proof.
  revert n. induction ps as [|p ps IH]; intros n k f; [done|].
  destruct k as [|k]; cbn; [intros [= <-]; cbn; split_and!; [lia|done..]|].
  intros (-> & -> & ->)%IH. split_and!; [lia|done..].
Qed.

Lemma seal_length stream message n ps : length (seal_from stream message n ps) = length ps.
Proof. revert n. induction ps as [|p ps IH]; intros n; cbn; auto. Qed.

Lemma sequenced_app stream message n fs gs :
  sequenced stream message n fs → sequenced stream message (n + N.of_nat (length fs)) gs →
  sequenced stream message n (fs ++ gs).
Proof.
  intros Hf Hg k f Hk. apply lookup_app_Some in Hk as [Hk|[Hle Hk]]; [by apply Hf|].
  destruct (Hg _ _ Hk) as (-> & -> & ->). split_and!; [lia|done..].
Qed.

(** [c'] continues the stream of [c] after [fs]. *)
Definition continues (c c' : PublicationCoalescer) (fs : list PublicationFrame) : Prop :=
  c_stream_id c' = c_stream_id c ∧ c_message_id c' = c_message_id c ∧ policy c' = policy c ∧
  next_sequence c' = (next_sequence c + N.of_nat (length fs))%N ∧
  sequenced (c_stream_id c) (c_message_id c) (next_sequence c) fs.

Lemma continues_trans c1 c2 c3 fs gs :
  continues c1 c2 fs → continues c2 c3 gs → continues c1 c3 (fs ++ gs).
Proof.
  intros (H1 & H2 & H3 & H4 & H5) (K1 & K2 & K3 & K4 & K5). rewrite H1, H2, H4 in K5.
  split_and!; [congruence..|rewrite length_app; lia|by apply sequenced_app].
Qed.

Lemma take_frames_continues c : continues c (take_frames c).2 (take_frames c).1.
Proof. unfold continues. cbn. rewrite seal_length. split_and!; try done. apply seal_sequenced. Qed.

Lemma publish_step_continues o c fs c' : publish_step o c = (fs, c') → continues c c' fs.
Proof.
  destruct o as [now now' p|]; cbn [publish_step].
  - unfold publish. destruct (push now p c) as [b c0] eqn:E.
    assert (H0 : continues c c0 []).
    { injection E as _ <-. unfold continues. cbn. by rewrite N.add_0_r. }
    destruct (_ || _); intros E'.
    + pose proof (take_frames_continues c0) as H. rewrite E' in H.
      by apply (continues_trans _ _ _ [] fs H0).
    + by injection E' as <- <-.
  - intros E. pose proof (take_frames_continues c) as H. by rewrite E in H.
Qed.

Lemma publish_run_continues os c fs c' : publish_run os c = (fs, c') → continues c c' fs.
Proof.
  revert c fs. induction os as [|o os IH]; intros c fs; cbn.
  { intros [= <- <-]. unfold continues. cbn. by rewrite N.add_0_r. }
  destruct (publish_step o c) as [gs c1] eqn:E1, (publish_run os c1) as [hs c2] eqn:E2.
  intros [= <- <-]. eapply continues_trans; [by eapply publish_step_continues|by apply IH].
Qed.

(** The frames of one stream are numbered contiguously from zero, all under the stream's
    own identity, and the terminal transaction always has a final frame to carry its
    marker. *)
Theorem frames_contiguous stream message policy os fs gs c c' :
  publish_run os (coalescer_new stream message policy) = (fs, c) →
  take_terminal_frames c = (gs, c') →
  gs ≠ [] ∧ sequenced stream message 0 (fs ++ gs) ∧
  next_sequence c' = N.of_nat (length (fs ++ gs)).
Proof.
  intros E1%publish_run_continues E2.
  assert (Hg : gs ≠ [] ∧ continues c c' gs).
  { rewrite take_terminal_frames_run in E2. case_bool_decide as Hp.
    - injection E2 as <- <-. split; [done|]. unfold continues, sequenced. cbn. rewrite Hp. cbn.
      split_and!; try done; [lia|]. intros [|k] f; [intros [= <-]; cbn; split_and!; [lia|done..]|done].
    - pose proof (take_frames_continues c) as H. rewrite E2 in H. split; [|done].
      intros ->. injection E2 as E2 _. apply (f_equal length) in E2.
      rewrite seal_length in E2. by destruct (pending c). }
  destruct Hg as [Hg E3]. split; [done|].
  destruct (continues_trans _ _ _ _ _ E1 E3) as (_ & _ & _ & Hn & Hs). split; [done|].
  by rewrite Hn.
Qed.

(** ** Bounds of the buffer *)

Fixpoint weight (ps : list PublicationPayload) : N :=
  match ps with [] => 0 | p :: ps => byte_weight p + weight ps end.

(** The operations since the last flush: [ops] is a run of publishes that did not flush. *)
Record held (ops : list publish_op) (c : PublicationCoalescer) : Prop := {
  held_pending : pending c = foldl buffer [] (published ops);
  held_bytes : pending_bytes c = weight (published ops);
  held_small : ops = [] ∨ (weight (published ops) < max_bytes (policy c))%N;
  held_deadline :
    match ops with
    | [] => oldest_pending_deadline_millis c = None
    | Publish now _ _ :: _ =>
        oldest_pending_deadline_millis c
          = Some (u64_saturating_add now (max_latency_millis (policy c)))
    | Flush :: _ => False
    end;
  held_ops : ∀ o, o ∈ ops → ∃ now now' p d,
    o = Publish now now' p ∧ is_structural_boundary p = false ∧
    oldest_pending_deadline_millis c = Some d ∧ (now' < d)%N;
}.

Lemma weight_app ps qs : weight (ps ++ qs) = (weight ps + weight qs)%N.
Proof. induction ps as [|p ps IH]; cbn; [done|]. rewrite IH. lia. Qed.

Lemma held_flush c : held [] (take_frames c).2.
Proof.
  split; try done; [by left|]. intros o Ho. by apply not_elem_of_nil in Ho.
Qed.

Lemma held_publish ops c now now' p b c1 :
  (max_bytes (policy c) <= u64_max)%N → held ops c → push now p c = (b, c1) →
  b || latency_elapsed now' c1 = false → held (ops ++ [Publish now now' p]) c1.
Proof.
  intros Hmax [Hp Hb Hs Hd Ho] E Hf. injection E as <- <-.
  apply orb_false_iff in Hf as [[Hst Hlt%N.leb_gt]%orb_false_iff Hl].
  unfold latency_elapsed in Hl. cbn in Hl.
  assert (Hpub : published (ops ++ [Publish now now' p]) = published ops ++ [p])
    by (unfold published; by rewrite omap_app).
  unfold u64_saturating_add in Hlt. rewrite Hb in Hlt.
  split; cbn.
  - by rewrite Hpub, foldl_app, Hp.
  - rewrite Hpub, weight_app, Hb. unfold u64_saturating_add. cbn. lia.
  - right. rewrite Hpub, weight_app. cbn. lia.
  - destruct ops as [|[now0 ? ?|] ops]; cbn; [by rewrite Hd|by rewrite Hd|done].
  - intros o [Hin| ->%list_elem_of_singleton]%elem_of_app.
    + destruct (Ho o Hin) as (n1 & n2 & q & d & -> & Hq & Hd' & Hn).
      exists n1, n2, q, d. by rewrite Hd'.
    + exists now, now', p. destruct (oldest_pending_deadline_millis c) as [d|]; eexists;
        (split_and!; [done..|]; by apply N.leb_gt in Hl).
Qed.

(** The buffer is bounded in bytes and in time: what a stream still holds back after any
    run is exactly the coalesced form of the payloads published since the last flush; those
    weigh less than the policy's byte limit, none is a proposal boundary, the deadline is
    the one the first of them opened, and no clock reading since has reached it. *)
Theorem buffer_bounded stream message policy os fs c :
  (max_bytes policy <= u64_max)%N →
  publish_run os (coalescer_new stream message policy) = (fs, c) →
  ∃ flushed ops, os = flushed ++ ops ∧ held ops c.
Proof.
  intros Hmax. revert fs c. induction os as [|o os IH] using rev_ind; intros fs c E.
  { injection E as <- <-. exists [], []. split; [done|]. split; try done; [by left|].
    intros o Ho. by apply not_elem_of_nil in Ho. }
  rewrite publish_run_app in E. destruct (publish_run os _) as [gs c1] eqn:E1.
  pose proof (publish_run_continues _ _ _ _ E1) as (_ & _ & Hpol & _).
  destruct (IH _ _ eq_refl) as (flushed & ops & -> & Hh). cbn [publish_run] in E.
  destruct (publish_step o c1) as [hs c2] eqn:E2. injection E as <- <-.
  assert (Hfl : ∀ c0, held [] (take_frames c0).2 → ∃ fl op, (flushed ++ ops) ++ [o] = fl ++ op ∧
    held op (take_frames c0).2) by (intros c0 H; exists ((flushed ++ ops) ++ [o]), [];
    by rewrite app_nil_r).
  destruct o as [now now' p|]; cbn [publish_step] in E2.
  - unfold publish in E2. destruct (push now p c1) as [b c3] eqn:E3.
    destruct (b || latency_elapsed now' c3) eqn:Ef.
    + pose proof (Hfl c3 (held_flush c3)) as H. by rewrite E2 in H.
    + injection E2 as <- <-. exists flushed, (ops ++ [Publish now now' p]).
      rewrite (assoc_L (++)). split; [done|].
      eapply held_publish; [by rewrite Hpol|done..].
  - pose proof (Hfl c1 (held_flush c1)) as H. by rewrite E2 in H.
Qed.

(** ** Concrete instances *)

Definition demo_policy : CoalescePolicy := {| max_bytes := 4; max_latency_millis := 50 |}.

Definition demo_ops : list publish_op :=
  [Publish 0 0 (TextSuffix 0 (lit "He")); Publish 1 1 (TextSuffix 0 (lit "llo"));
   Publish 2 2 (TextSuffix 0 (lit "!"))].

Definition demo_run := publish_run demo_ops (coalescer_new (lit "s") (lit "m") demo_policy).
Definition demo_end := take_terminal_frames demo_run.2.

Example demo_payloads :
  payload <$> (demo_run.1 ++ demo_end.1) = [TextSuffix 0 (lit "Hello"); TextSuffix 0 (lit "!")].
Proof. by vm_compute. Qed.

Lemma frames_contiguous_witness :
  sequenced (lit "s") (lit "m") 0 (demo_run.1 ++ demo_end.1) ∧ next_sequence demo_end.2 = 2%N.
Proof.
  destruct (frames_contiguous (lit "s") (lit "m") demo_policy demo_ops demo_run.1 demo_end.1
    demo_run.2 demo_end.2) as (_ & Hs & Hn); [apply surjective_pairing..|].
  split; [exact Hs|]. rewrite Hn. by vm_compute.
Defined.

Lemma buffer_bounded_witness :
  pending demo_run.2 ≠ [] ∧ ∃ flushed ops, demo_ops = flushed ++ ops ∧ held ops demo_run.2.
Proof.
  split; [by vm_compute|].
  apply (buffer_bounded (lit "s") (lit "m") demo_policy demo_ops demo_run.1);
    [by vm_compute|apply surjective_pairing].
Defined.
