(* ===== verification/PublicationStore.v ===== *)
(** The publication plane, durable half: the stream, frame, proposal and audit tables
    ([src/src/durable/sqlite/publication.rs]) and proposal ownership
    ([src/src/durable/sqlite/publication/proposal.rs]).

    One operation is one immediate transaction over the database value: an error leaves the
    database as it was.  Every statement on frames and proposals is keyed by their stream,
    so those rows are kept with their stream; a stream's proposals are in insertion order
    (the store reads them by call id, which only decides which of several violations is
    reported).  Row encodings, observation layouts and receipts are not modelled.  Of the
    Request Snapshot store and the Event Journal the plane reads one row per started
    request: its frozen identity and whether its successful outcome is durable. *)

From S2P Require Import Prelude Text Json Message Publication.
From stdpp Require Import options.

(** ** Tables *)

(** What [require_started_request_tx] and [request_outcome_is_durable] establish of one
    request. *)
Record StartedRequest := {
  rq_id : RequestId;
  rq_attempt : AttemptId;
  rq_turn : TurnId;
  rq_message : MessageId;
  rq_outcome : bool;
}.

Inductive PublicationProposalState := Started | Completed.

#[export] Instance PublicationProposalState_eq_dec : EqDecision PublicationProposalState.
Proof. solve_decision. Defined.

(** [PublicationProposalState::as_str] and [parse] *)
Definition state_as_str (s : PublicationProposalState) : str :=
  match s with Started => lit "started" | Completed => lit "completed" end.

Definition state_parse (value : str) : option PublicationProposalState :=
  if bool_decide (value = lit "started") then Some Started
  else if bool_decide (value = lit "completed") then Some Completed
  else None.

(** A row of [publication_proposals]. *)
Record Proposal := {
  p_call : ToolCallId;
  p_block : N;
  p_tool : ToolId;
  p_name : str;
  p_state : PublicationProposalState;
  p_executed : bool;
  p_settlement : option PublicationSettlement;
}.

(** A row of [publication_streams] with its frames and proposals. *)
Record StreamRow := {
  r_start : PublicationStreamStart;
  r_next : N;
  r_terminal : option N;
  r_settlement : option PublicationSettlement;
  r_frames : list PublicationFrame;
  r_proposals : list Proposal;
}.

Record PubDb := {
  conversation : str;
  requests : list StartedRequest;
  streams : list StreamRow;
  audits : list PublicationAudit;
  ledger : list MessageBlock;
  pending_ids : list MessageId;
  active_message_ids : list MessageId;
}.

(** [publication_record] *)
Definition publication_record (r : StreamRow) : PublicationStreamRecord :=
  {| start := r_start r; terminal_sequence := r_terminal r; settlement := r_settlement r |}.

(** ** Errors *)

Inductive ProposalViolation :=
| NoStartedFrame
| AlreadyCompleted
| AlreadyStarted
| WrongBlock
| ChangedToolId
| ChangedName
| NoDurableOwner
| DisagreesWithOwner
| WrongState
| DuplicateToolCall
| NoCompletedFrame
| StartedOnly
| OmitsCompleted.

Inductive DependencyViolation :=
| UsesOtherTool
| NoOwner
| NoGeneration
| AmbiguousCanonical
| AmbiguousUnsettled
| AuditedProposal (s : PublicationSettlement)
| NotCompleted.

Inductive StoreError :=
| MissingRequest
| ForeignGeneration
| OpenElsewhere
| AlreadySettled (s : PublicationSettlement)
| NoFrames
| MixedStreams
| NeverOpened
| ForeignMessage
| WrongSequence (expected : N)
| SequenceOverflow
| BadProposal (v : ProposalViolation)
| AlreadyTerminal
| NoOutcome
| NoTerminal
| ForeignAcceptance
| DuplicateMessageId (m : MessageId)
| ExecutedProposal (c : ToolCallId)
| MissingMessage
| Dependency (v : DependencyViolation).

Abbreviation R := (result StoreError).

(** ** Row access *)

Definition is_stream (s : PublicationStreamId) (r : StreamRow) : bool :=
  bool_decide (stream_id (r_start r) = s).

(** [read_publication_stream] *)
Definition read_publication_stream (s : PublicationStreamId) (db : PubDb) : option StreamRow :=
  find_first (is_stream s) (streams db).

(** [require_publication_stream] *)
Definition require_publication_stream (s : PublicationStreamId) (db : PubDb) : R StreamRow :=
  ok_or NeverOpened (read_publication_stream s db).

Definition set_streams (f : list StreamRow → list StreamRow) (db : PubDb) : PubDb :=
  {| conversation := conversation db; requests := requests db; streams := f (streams db);
     audits := audits db; ledger := ledger db; pending_ids := pending_ids db;
     active_message_ids := active_message_ids db |}.

(** [UPDATE ... WHERE stream_id = s] *)
Definition update_stream (s : PublicationStreamId) (f : StreamRow → StreamRow) : PubDb → PubDb :=
  set_streams (map (λ r, if is_stream s r then f r else r)).

(** [require_started_request_tx] *)
Definition require_started_request (rq : RequestId) (db : PubDb) : R StartedRequest :=
  ok_or MissingRequest (find_first (λ q, bool_decide (rq_id q = rq)) (requests db)).

(** [PublicationStreamId::for_request] *)
Definition for_request (attempt : AttemptId) (message : MessageId) : PublicationStreamId :=
  attempt ++ lit "-publication-" ++ message.

(** [validate_publication_generation] *)
Definition validate_publication_generation (q : StartedRequest) (s : PublicationStreamStart)
    : R () :=
  guard_err (negb (bool_decide (request_id s = rq_id q)
                   && bool_decide (attempt_id s = rq_attempt q)
                   && bool_decide (turn_id s = rq_turn q)
                   && bool_decide (message_id s = rq_message q)
                   && bool_decide (stream_id s = for_request (rq_attempt q) (rq_message q))))
    ForeignGeneration.

(** The request of an open stream, checked against the stream's frozen identity. *)
Definition stream_request (r : StreamRow) (db : PubDb) : R StartedRequest :=
  q ← require_started_request (request_id (r_start r)) db;
  _ ← validate_publication_generation q (r_start r);
  Ok q.

(** ** Opening *)

(** [open_publication_stream] *)
Definition open_publication_stream (s : PublicationStreamStart) (db : PubDb) : R PubDb :=
  q ← require_started_request (request_id s) db;
  _ ← validate_publication_generation q s;
  match read_publication_stream (stream_id s) db with
  | Some existing =>
      _ ← guard_err (negb (bool_decide (r_start existing = s))) OpenElsewhere;
      match r_settlement existing with
      | Some x => Err (AlreadySettled x)
      | None => Ok db
      end
  | None =>
      Ok (set_streams (λ rows, rows ++
            [{| r_start := s; r_next := 0; r_terminal := None; r_settlement := None;
                r_frames := []; r_proposals := [] |}]) db)
  end.

(** ** Proposal ownership *)

(** The working copy of a proposal during one staging transaction. *)
Record PublicationProposalOwner := {
  o_call : ToolCallId;
  o_block : N;
  o_tool : ToolId;
  o_name : str;
  o_state : PublicationProposalState;
  o_persisted : option PublicationProposalState;
}.

(** [load_publication_proposal_owners] *)
Definition owner_of (p : Proposal) : PublicationProposalOwner :=
  {| o_call := p_call p; o_block := p_block p; o_tool := p_tool p; o_name := p_name p;
     o_state := p_state p; o_persisted := Some (p_state p) |}.

Definition owned_by (c : ToolCallId) (o : PublicationProposalOwner) : bool :=
  bool_decide (o_call o = c).

(** [proposal_owner] *)
Definition proposal_owner (owners : list PublicationProposalOwner) (c : ToolCallId)
    : option PublicationProposalOwner :=
  find_first (owned_by c) owners.

(** [require_started_proposal] *)
Definition require_started_proposal (owners : list PublicationProposalOwner) (c : ToolCallId)
    : R PublicationProposalOwner :=
  o ← ok_or (BadProposal NoStartedFrame) (proposal_owner owners c);
  _ ← guard_err (bool_decide (o_state o = Completed)) (BadProposal AlreadyCompleted);
  Ok o.

Definition complete_owner (o : PublicationProposalOwner) : PublicationProposalOwner :=
  {| o_call := o_call o; o_block := o_block o; o_tool := o_tool o; o_name := o_name o;
     o_state := Completed; o_persisted := o_persisted o |}.

(** One iteration of [validate_proposal_frames]. *)
Definition validate_proposal_frame (p : PublicationPayload)
    (owners : list PublicationProposalOwner) : R (list PublicationProposalOwner) :=
  match p with
  | ProposedToolCallStarted i call =>
      _ ← guard_err (bool_decide (is_Some (proposal_owner owners (start_id call))))
            (BadProposal AlreadyStarted);
      Ok (owners ++ [{| o_call := start_id call; o_block := i; o_tool := start_tool_id call;
                        o_name := start_name call; o_state := Started; o_persisted := None |}])
  | ProposedToolCallArgumentsSuffix i c _ =>
      o ← require_started_proposal owners c;
      _ ← guard_err (negb (o_block o =? i)%N) (BadProposal WrongBlock);
      Ok owners
  | ProposedToolCallCompleted i call =>
      o ← require_started_proposal owners (call_id call);
      _ ← guard_err (negb (o_block o =? i)%N) (BadProposal WrongBlock);
      _ ← guard_err (negb (bool_decide (o_tool o = call_tool_id call))) (BadProposal ChangedToolId);
      _ ← guard_err (negb (bool_decide (o_name o = call_name call))) (BadProposal ChangedName);
      Ok (default owners (update_first (owned_by (call_id call)) complete_owner owners))
  | TextSuffix _ _ | ReasoningSuffix _ _ | RefusalSuffix _ _ | TerminalOnly => Ok owners
  end.

(** [validate_proposal_frames] *)
Fixpoint validate_proposal_frames (ps : list PublicationPayload)
    (owners : list PublicationProposalOwner) : R (list PublicationProposalOwner) :=
  match ps with
  | [] => Ok owners
  | p :: ps => owners ← validate_proposal_frame p owners; validate_proposal_frames ps owners
  end.

(** The write-back of one owner: [INSERT], [UPDATE ... SET state] or nothing. *)
Definition write_owner (rows : list Proposal) (o : PublicationProposalOwner) : list Proposal :=
  match o_persisted o with
  | None =>
      rows ++ [{| p_call := o_call o; p_block := o_block o; p_tool := o_tool o;
                  p_name := o_name o; p_state := o_state o; p_executed := false;
                  p_settlement := None |}]
  | Some previous =>
      if bool_decide (previous = o_state o) then rows
      else map (λ p, if bool_decide (p_call p = o_call o)
                     then {| p_call := p_call p; p_block := p_block p; p_tool := p_tool p;
                             p_name := p_name p; p_state := o_state o;
                             p_executed := p_executed p; p_settlement := p_settlement p |}
                     else p) rows
  end.

(** ** Staging *)

Definition i64_max : N := 2 ^ 63 - 1.

(** The preflight loop of [stage_frames_tx]: the next sequence number after the frames. *)
Fixpoint preflight (message : MessageId) (next : N) (frames : list PublicationFrame) : R N :=
  match frames with
  | [] => Ok next
  | f :: frames =>
      _ ← guard_err (negb (bool_decide (f_message_id f = message))) ForeignMessage;
      _ ← guard_err (negb (sequence f =? next)%N) (WrongSequence next);
      _ ← guard_err (i64_max <? next + 1)%N SequenceOverflow;
      preflight message (next + 1) frames
  end.

Definition staged_row (r : StreamRow) (next : N) (frames : list PublicationFrame)
    (owners : list PublicationProposalOwner) : StreamRow :=
  {| r_start := r_start r; r_next := next; r_terminal := r_terminal r;
     r_settlement := r_settlement r; r_frames := r_frames r ++ frames;
     r_proposals := foldl write_owner (r_proposals r) owners |}.

(** [stage_frames_tx]: the prior stream and the database with the frames staged. *)
Definition stage_frames_tx (frames : list PublicationFrame) (db : PubDb) : R (StreamRow * PubDb) :=
  match frames with
  | [] => Err NoFrames
  | f :: _ =>
      let s := f_stream_id f in
      _ ← guard_err (existsb (λ g, negb (bool_decide (f_stream_id g = s))) frames) MixedStreams;
      r ← require_publication_stream s db;
      match r_settlement r with
      | Some x => Err (AlreadySettled x)
      | None =>
          next ← preflight (message_id (r_start r)) (r_next r) frames;
          owners ← validate_proposal_frames (map payload frames) (map owner_of (r_proposals r));
          Ok (r, update_stream s (λ r, staged_row r next frames owners) db)
      end
  end.

(** [stage_publication_frames] *)
Definition stage_publication_frames (frames : list PublicationFrame) (db : PubDb) : R PubDb :=
  _ ← guard_err (bool_decide (frames = [])) NoFrames;
  '(r, db) ← stage_frames_tx frames db;
  _ ← guard_err (bool_decide (is_Some (r_terminal r))) AlreadyTerminal;
  Ok db.

Definition set_terminal (n : N) (r : StreamRow) : StreamRow :=
  {| r_start := r_start r; r_next := r_next r; r_terminal := Some n;
     r_settlement := r_settlement r; r_frames := r_frames r; r_proposals := r_proposals r |}.

(** [commit_publication_terminal]: the U transaction. *)
Definition commit_publication_terminal (s : PublicationStreamId) (frames : list PublicationFrame)
    (db : PubDb) : R PubDb :=
  _ ← guard_err (bool_decide (frames = [])) NoFrames;
  r ← require_publication_stream s db;
  q ← stream_request r db;
  _ ← guard_err (negb (rq_outcome q)) NoOutcome;
  '(r, db) ← stage_frames_tx frames db;
  _ ← guard_err (negb (bool_decide (stream_id (r_start r) = s))) MixedStreams;
  _ ← guard_err (bool_decide (is_Some (r_terminal r))) AlreadyTerminal;
  last ← ok_or NoFrames (last frames);
  Ok (update_stream s (set_terminal (sequence last)) db).

(** ** Settlement *)

Definition settle_proposal (x : PublicationSettlement) (p : Proposal) : Proposal :=
  {| p_call := p_call p; p_block := p_block p; p_tool := p_tool p; p_name := p_name p;
     p_state := p_state p; p_executed := p_executed p; p_settlement := Some x |}.

(** [clear_publication_staging] and the two settlement updates of one stream. *)
Definition settle_row (x : PublicationSettlement) (r : StreamRow) : StreamRow :=
  {| r_start := r_start r; r_next := r_next r; r_terminal := r_terminal r;
     r_settlement := Some x; r_frames := [];
     r_proposals := map (settle_proposal x) (r_proposals r) |}.

(** The parts of a [RuntimeEventEnvelope] the acceptance reads; [e_committed] is the message
    of an [AssistantMessageCommitted] fact. *)
Record CommitEvent := {
  e_conversation : str;
  e_attempt : option AttemptId;
  e_turn : option TurnId;
  e_committed : option MessageId;
}.

(** [validate_canonical_publication_event] *)
Definition validate_canonical_publication_event (conv : str) (s : PublicationStreamStart)
    (m : MessageBlock) (e : CommitEvent) : R () :=
  guard_err (negb (match m with Assistant _ => true | _ => false end
                   && bool_decide (e_committed e = Some (message_id s))
                   && bool_decide (message_id_of m = message_id s)
                   && bool_decide (e_conversation e = conv)
                   && bool_decide (e_attempt e = Some (attempt_id s))
                   && bool_decide (e_turn e = Some (turn_id s))))
    ForeignAcceptance.

(** The loop over the message in [validate_canonical_tool_proposals], from block [i]. *)
Fixpoint validate_tool_calls (rows : list Proposal) (i : N) (accepted : gset ToolCallId)
    (content : list AssistantContentBlock) : R (gset ToolCallId) :=
  match content with
  | [] => Ok accepted
  | AToolCall call :: content =>
      _ ← guard_err (bool_decide (call_id call ∈ accepted)) (BadProposal DuplicateToolCall);
      p ← ok_or (BadProposal NoStartedFrame)
            (find_first (λ p, bool_decide (p_call p = call_id call)) rows);
      _ ← guard_err (negb ((p_block p =? i)%N && bool_decide (p_tool p = call_tool_id call)
                           && bool_decide (p_name p = call_name call)))
            (BadProposal DisagreesWithOwner);
      _ ← guard_err (negb (bool_decide (p_state p = Completed))) (BadProposal NoCompletedFrame);
      validate_tool_calls rows (i + 1) ({[call_id call]} ∪ accepted) content
  | _ :: content => validate_tool_calls rows (i + 1) accepted content
  end.

(** [validate_canonical_tool_proposals] *)
Definition validate_canonical_tool_proposals (rows : list Proposal) (m : MessageBlock) : R () :=
  match m with
  | Assistant a =>
      accepted ← validate_tool_calls rows 0 ∅ (assistant_content a);
      try_for_each (λ p,
        match p_state p with
        | Started => Err (BadProposal StartedOnly)
        | Completed =>
            guard_err (negb (bool_decide (p_call p ∈ accepted))) (BadProposal OmitsCompleted)
        end) rows
  | _ => Ok ()
  end.

(** [append_message_with_head]: the Ledger and the Surface head. *)
Definition append_message (m : MessageBlock) (db : PubDb) : R PubDb :=
  let i := message_id_of m in
  _ ← guard_err (bool_decide (i ∈ pending_ids db)) (DuplicateMessageId i);
  _ ← guard_err (existsb (λ n, bool_decide (message_id_of n = i)) (ledger db))
        (DuplicateMessageId i);
  Ok {| conversation := conversation db; requests := requests db; streams := streams db;
        audits := audits db; ledger := ledger db ++ [m]; pending_ids := pending_ids db;
        active_message_ids := active_message_ids db ++ [i] |}.

(** [commit_canonical_publication]: the C transaction. *)
Definition commit_canonical_publication (s : PublicationStreamId) (m : MessageBlock)
    (e : CommitEvent) (db : PubDb) : R PubDb :=
  r ← require_publication_stream s db;
  q ← stream_request r db;
  _ ← validate_canonical_publication_event (conversation db) (r_start r) m e;
  _ ← validate_canonical_tool_proposals (r_proposals r) m;
  match r_settlement r with
  | Some x => Err (AlreadySettled x)
  | None =>
      _ ← guard_err (negb (bool_decide (is_Some (r_terminal r)))) NoTerminal;
      _ ← guard_err (negb (rq_outcome q)) NoOutcome;
      db ← append_message m db;
      Ok (update_stream s (settle_row Canonical) db)
  end.

(** [validate_audit_proposal_ownership] *)
Definition validate_audit_proposal_ownership (rows : list Proposal)
    (content : list PublicationAuditBlock) : R () :=
  try_for_each (λ b,
    match b with
    | AProposedToolCall i c d n _ complete =>
        p ← ok_or (BadProposal NoDurableOwner)
              (find_first (λ p, bool_decide (p_call p = c)) rows);
        _ ← guard_err (negb ((p_block p =? i)%N && bool_decide (p_tool p = d)
                             && bool_decide (p_name p = n)))
              (BadProposal DisagreesWithOwner);
        guard_err (negb (bool_decide (p_state p = if complete : bool then Completed else Started)))
          (BadProposal WrongState)
    | _ => Ok ()
    end) content.

Section audit.
Context (render_json : json → str).

(** [terminalize_publication_audit] *)
Definition terminalize_publication_audit (s : PublicationStreamId) (timestamp : DateTime)
    (db : PubDb) : R (PublicationAudit * PubDb) :=
  r ← require_publication_stream s db;
  q ← stream_request r db;
  match r_settlement r with
  | Some x => Err (AlreadySettled x)
  | None =>
      _ ← guard_err (bool_decide (is_Some (r_terminal r)) && negb (rq_outcome q)) NoOutcome;
      let kind := audit_kind (publication_record r) in
      match find_first p_executed (r_proposals r) with
      | Some p => Err (ExecutedProposal (p_call p))
      | None =>
          let content := consolidate_audit_content render_json (r_frames r) in
          _ ← validate_audit_proposal_ownership (r_proposals r) content;
          let st := r_start r in
          let audit :=
            {| a_stream_id := s; a_attempt_id := attempt_id st; a_turn_id := turn_id st;
               a_request_id := request_id st; a_message_id := message_id st; a_kind := kind;
               a_content := content; settled_at := timestamp |} in
          let db := update_stream s (settle_row (settlement_of kind)) db in
          Ok (audit,
              {| conversation := conversation db; requests := requests db;
                 streams := streams db; audits := audits db ++ [audit]; ledger := ledger db;
                 pending_ids := pending_ids db;
                 active_message_ids := active_message_ids db |})
      end
  end.
End audit.

(** [load_unsettled_publication_streams], unordered *)
Definition load_unsettled_publication_streams (db : PubDb) : list PublicationStreamRecord :=
  map publication_record
    (List.filter (λ r, negb (bool_decide (is_Some (r_settlement r)))) (streams db)).

(** [load_publication_audit] *)
Definition load_publication_audit (s : PublicationStreamId) (db : PubDb) : option PublicationAudit :=
  find_first (λ a, bool_decide (a_stream_id a = s)) (audits db).

(** ** Tool Plane dependencies *)

Definition tool_call_in (c : ToolCallId) (m : MessageBlock) : option ToolId :=
  match m with
  | Assistant a =>
      find_map (λ b, match b with
                     | AToolCall call => if bool_decide (call_id call = c)
                                         then Some (call_tool_id call) else None
                     | _ => None
                     end) (assistant_content a)
  | _ => None
  end.

(** [load_message_tx] *)
Definition load_message (i : MessageId) (db : PubDb) : R MessageBlock :=
  ok_or MissingMessage (find_first (λ m, bool_decide (message_id_of m = i)) (ledger db)).

(** [canonical_surface_tool_id] over the remaining active ids *)
Fixpoint canonical_surface_tool_id (c : ToolCallId) (active : list MessageId) (db : PubDb)
    : R (option ToolId) :=
  match active with
  | [] => Ok None
  | i :: active =>
      m ← load_message i db;
      match tool_call_in c m with
      | Some d => Ok (Some d)
      | None => canonical_surface_tool_id c active db
      end
  end.

(** The proposal rows of [c], each with its stream. *)
Definition proposal_candidates (c : ToolCallId) (db : PubDb) : list (StreamRow * Proposal) :=
  flat_map (λ r, map (λ p, (r, p))
                   (List.filter (λ p, bool_decide (p_call p = c)) (r_proposals r)))
    (streams db).

Definition is_none_or {A} (o : option A) (p : A → bool) : bool :=
  match o with Some x => p x | None => true end.

Definition mark_proposal (c : ToolCallId) (p : Proposal) : Proposal :=
  if bool_decide (p_call p = c)
  then {| p_call := p_call p; p_block := p_block p; p_tool := p_tool p; p_name := p_name p;
          p_state := p_state p; p_executed := true; p_settlement := p_settlement p |}
  else p.

Definition mark_executed (c : ToolCallId) (r : StreamRow) : StreamRow :=
  {| r_start := r_start r; r_next := r_next r; r_terminal := r_terminal r;
     r_settlement := r_settlement r; r_frames := r_frames r;
     r_proposals := map (mark_proposal c) (r_proposals r) |}.

(** The owner selection of [record_tool_proposal_dependency]. *)
Definition select_owner (matching : list (StreamRow * Proposal)) : R (StreamRow * Proposal) :=
  match List.filter (λ x, bool_decide (p_settlement x.2 = Some Canonical)) matching with
  | [x] => Ok x
  | _ :: _ :: _ => Err (Dependency AmbiguousCanonical)
  | [] =>
      match find_map (λ x, match p_settlement x.2 with
                           | Some Incomplete => Some Incomplete
                           | Some Unaccepted => Some Unaccepted
                           | _ => None
                           end) matching with
      | Some s => Err (Dependency (AuditedProposal s))
      | None => match matching with [x] => Ok x | _ => Err (Dependency AmbiguousUnsettled) end
      end
  end.

(** The path of a call id with no proposal row: the canonical Assistant owner. *)
Definition unpublished_dependency (c : ToolCallId) (expected_tool : option ToolId)
    (allow_unowned_canonical : bool) (canonical_owner : option MessageId) (db : PubDb) : R () :=
  owner ← match canonical_owner with
          | Some i => m ← load_message i db; Ok (tool_call_in c m)
          | None => canonical_surface_tool_id c (active_message_ids db) db
          end;
  match owner with
  | Some d => guard_err (negb (is_none_or expected_tool (λ x, bool_decide (x = d))))
                (Dependency UsesOtherTool)
  | None => if allow_unowned_canonical then Ok () else Err (Dependency NoOwner)
  end.

(** [record_tool_proposal_dependency] *)
Definition record_tool_proposal_dependency (c : ToolCallId) (attempt : option AttemptId)
    (turn : option TurnId) (expected_tool : option ToolId) (allow_unowned_canonical : bool)
    (canonical_owner : option MessageId) (db : PubDb) : R PubDb :=
  let detached :=
    match canonical_owner, attempt, turn with
    | None, None, None => Some (active_message_ids db)
    | _, _, _ => None
    end in
  match proposal_candidates c db with
  | [] =>
      _ ← unpublished_dependency c expected_tool allow_unowned_canonical canonical_owner db;
      Ok db
  | candidates =>
      let matching := List.filter (λ x,
        is_none_or canonical_owner (λ o, bool_decide (message_id (r_start x.1) = o))
        && is_none_or attempt (λ a, bool_decide (attempt_id (r_start x.1) = a))
        && is_none_or turn (λ t, bool_decide (turn_id (r_start x.1) = t))
        && is_none_or detached (λ active, bool_decide (message_id (r_start x.1) ∈ active)))
        candidates in
      _ ← guard_err (bool_decide (matching = [])) (Dependency NoGeneration);
      x ← select_owner matching;
      _ ← guard_err (negb (is_none_or expected_tool (λ d, bool_decide (p_tool x.2 = d))))
            (Dependency UsesOtherTool);
      _ ← guard_err (negb (bool_decide (p_state x.2 = Completed))) (Dependency NotCompleted);
      Ok (update_stream (stream_id (r_start x.1)) (mark_executed c) db)
  end.

(** [canonical_generation_owner] *)
Definition canonical_generation_owner (c : ToolCallId) (attempt : AttemptId) (turn : TurnId)
    (db : PubDb) : R (option MessageId) :=
  match List.filter (λ x, bool_decide (p_settlement x.2 = Some Canonical)
                          && bool_decide (attempt_id (r_start x.1) = attempt)
                          && bool_decide (turn_id (r_start x.1) = turn))
          (proposal_candidates c db) with
  | [] => Ok None
  | [x] => Ok (Some (message_id (r_start x.1)))
  | _ => Err (Dependency AmbiguousCanonical)
  end.

(** [append_canonical_messages] of one message *)
Definition append_canonical (m : MessageBlock) (db : PubDb) : R PubDb :=
  db ← match m with
       | Tool tool =>
           record_tool_proposal_dependency (Message.tool_call_id tool) None None
             (Some (Message.tool_id tool)) true
             (Some (assistant_message_id (occurrence tool))) db
       | _ => Ok db
       end;
  append_message m db.

(** ** What staging keeps of the proposals *)

(** Identity and assembly state of a proposal, as owners, rows and audit blocks hold it. *)
Record proposal_key := {
  k_call : ToolCallId; k_block : N; k_tool : ToolId; k_name : str; k_complete : bool }.

Definition is_completed (s : PublicationProposalState) : bool := bool_decide (s = Completed).

Definition owner_key (o : PublicationProposalOwner) : proposal_key :=
  {| k_call := o_call o; k_block := o_block o; k_tool := o_tool o; k_name := o_name o;
     k_complete := is_completed (o_state o) |}.

Definition row_key (p : Proposal) : proposal_key :=
  {| k_call := p_call p; k_block := p_block p; k_tool := p_tool p; k_name := p_name p;
     k_complete := is_completed (p_state p) |}.

Definition block_key (b : PublicationAuditBlock) : option proposal_key :=
  match b with
  | AProposedToolCall i c d n _ f =>
      Some {| k_call := c; k_block := i; k_tool := d; k_name := n; k_complete := f |}
  | _ => None
  end.

Definition key_of_call (c : ToolCallId) (k : proposal_key) : bool := bool_decide (k_call k = c).

Definition complete_key (k : proposal_key) : proposal_key :=
  {| k_call := k_call k; k_block := k_block k; k_tool := k_tool k; k_name := k_name k;
     k_complete := true |}.

(** The owner [o] is the working copy of the row [p]. *)
Definition tracks (p : Proposal) (o : PublicationProposalOwner) : Prop :=
  o_call o = p_call p ∧ o_block o = p_block p ∧ o_tool o = p_tool p ∧ o_name o = p_name p ∧
  o_persisted o = Some (p_state p) ∧ (p_state p = Completed → o_state o = Completed).

(** The owners of a transaction over [rows]: working copies, then new proposals. *)
Definition working (rows : list Proposal) (owners : list PublicationProposalOwner) : Prop :=
  NoDup (map o_call owners) ∧
  ∃ os1 os2, owners = os1 ++ os2 ∧ Forall2 tracks rows os1 ∧
    Forall (λ o, o_persisted o = None) os2.

Lemma working_start rows : NoDup (map p_call rows) → working rows (map owner_of rows).
Proof.
  intros Hnd. split; [by rewrite map_map|]. exists (map owner_of rows), [].
  split_and!; [by rewrite app_nil_r| |done].
  induction rows as [|p rows IH]; cbn; [done|]. constructor; [|apply IH].
  - done.
  - by apply NoDup_cons in Hnd as [_ ?].
Qed.

Lemma proposal_owner_None owners c :
  proposal_owner owners c = None ↔ c ∉ map o_call owners.
Proof.
  unfold proposal_owner. rewrite find_first_None. split.
  - intros H Hin. apply list_elem_of_In, in_map_iff in Hin as (o & <- & Ho%list_elem_of_In).
    specialize (H o Ho). by apply bool_decide_eq_false in H.
  - intros H o Ho. apply bool_decide_eq_false. intros <-. apply H.
    apply list_elem_of_In, in_map, list_elem_of_In, Ho.
Qed.

Lemma map_o_call_complete c owners :
  map o_call (map (λ o, if owned_by c o then complete_owner o else o) owners) = map o_call owners.
Proof. rewrite map_map. apply map_ext. intros o. by destruct (owned_by c o). Qed.

Lemma working_complete rows owners owners' c :
  working rows owners → update_first (owned_by c) complete_owner owners = Some owners' →
  working rows owners'.
Proof.
  intros [Hnd (os1 & os2 & -> & Ht & Hn)] Hu.
  assert (Hc : ∀ x, owned_by c x = true ↔ o_call x = c)
    by (intros x; unfold owned_by; by rewrite bool_decide_eq_true).
  rewrite (update_first_map _ o_call c complete_owner _ owners' Hc Hnd Hu). clear Hu.
  split; [by rewrite map_o_call_complete|]. rewrite map_app. eexists _, _. split; [done|].
  split.
  - clear Hnd. induction Ht as [|p o rows os1 Hpo _ IH]; cbn; constructor; [|done].
    unfold tracks in *. destruct (owned_by c o); cbn; naive_solver.
  - apply Forall_forall. intros o Ho. apply list_elem_of_In, in_map_iff in Ho as (x & <- & Hx).
    rewrite Forall_forall in Hn. apply list_elem_of_In, Hn in Hx.
    by destruct (owned_by c x).
Qed.

Lemma validate_proposal_frame_working rows p owners owners' :
  validate_proposal_frame p owners = Ok owners' → working rows owners → working rows owners'.
Proof.
  destruct p as [| | |i call|i c s|i call|]; cbn [validate_proposal_frame];
    try (by intros [= <-]).
  - intros ([] & Hn%guard_err_ok%bool_decide_eq_false & [= <-])%bind_ok
      [Hnd (os1 & os2 & -> & Ht & Hf)]. apply eq_None_not_Some, proposal_owner_None in Hn. split.
    + rewrite map_app. apply NoDup_app. split_and!; [done| |apply NoDup_singleton].
      intros x Hx ->%list_elem_of_singleton. done.
    + exists os1, (os2 ++ [{| o_call := start_id call; o_block := i;
        o_tool := start_tool_id call; o_name := start_name call; o_state := Started;
        o_persisted := None |}]). rewrite (assoc_L (++)). split_and!; [done..|].
      apply Forall_app. split; [done|]. by repeat constructor.
  - by intros (o & _ & (? & _ & [= <-])%bind_ok)%bind_ok.
  - intros (o & _ & (? & _ & (? & _ & (? & _ & [= <-])%bind_ok)%bind_ok)%bind_ok)%bind_ok.
    destruct (update_first _ _ owners) eqn:E; cbn; [|done]. intros Hw. by eapply working_complete.
Qed.

Lemma validate_proposal_frames_working rows ps owners owners' :
  validate_proposal_frames ps owners = Ok owners' → working rows owners → working rows owners'.
Proof.
  revert owners. induction ps as [|p ps IH]; intros owners; cbn; [by intros [= <-]|].
  intros (o & Ho & H)%bind_ok Hw. eapply IH; [done|].
  by eapply validate_proposal_frame_working.
Qed.

Lemma validate_proposal_frames_app ps qs owners :
  validate_proposal_frames (ps ++ qs) owners =
    (o ← validate_proposal_frames ps owners; validate_proposal_frames qs o).
Proof.
  revert owners. induction ps as [|p ps IH]; intros owners; cbn; [done|].
  destruct (validate_proposal_frame p owners); cbn; [apply IH|done].
Qed.

(** The effect of one frame on the keys of a stream. *)
Definition key_step (ks : list proposal_key) (p : PublicationPayload) : list proposal_key :=
  match p with
  | ProposedToolCallStarted i call =>
      ks ++ [{| k_call := start_id call; k_block := i; k_tool := start_tool_id call;
                k_name := start_name call; k_complete := false |}]
  | ProposedToolCallCompleted _ call =>
      default ks (update_first (key_of_call (call_id call)) complete_key ks)
  | _ => ks
  end.

Lemma omap_map {A B} (f : A → B) (l : list A) : omap (λ x, Some (f x)) l = map f l.
Proof. induction l as [|x l IH]; cbn; [done|]. by rewrite IH. Qed.

(** Owners and audit blocks follow the same steps on keys. *)
Lemma validate_frame_keys p owners owners' :
  validate_proposal_frame p owners = Ok owners' →
  map owner_key owners' = key_step (map owner_key owners) p.
Proof.
  destruct p as [| | |i call|i c s|i call|]; cbn [validate_proposal_frame key_step];
    try (by intros [= <-]).
  - intros (? & _ & [= <-])%bind_ok. by rewrite map_app.
  - by intros (o & _ & (? & _ & [= <-])%bind_ok)%bind_ok.
  - intros (o & _ & (? & _ & (? & _ & (? & _ & [= <-])%bind_ok)%bind_ok)%bind_ok)%bind_ok.
    rewrite <-!omap_map.
    rewrite (update_first_omap (λ o, Some (owner_key o)) (owned_by (call_id call)) _
      complete_owner complete_key) by (done || by intros ?? [= <-]).
    destruct (update_first _ _ owners); cbn; by rewrite ?omap_map.
Qed.

Lemma validate_frames_keys ps owners owners' :
  validate_proposal_frames ps owners = Ok owners' →
  map owner_key owners' = foldl key_step (map owner_key owners) ps.
Proof.
  revert owners. induction ps as [|p ps IH]; intros owners; cbn; [by intros [= <-]|].
  intros (o & Ho & H)%bind_ok. rewrite (IH _ H). by rewrite (validate_frame_keys _ _ _ Ho).
Qed.

Lemma push_text_keys bl i s k :
  omap block_key (push_text bl i s k) = (omap block_key bl : list proposal_key).
Proof.
  unfold push_text. destruct (update_first _ _ bl) as [bl'|] eqn:E.
  - apply update_first_Some in E as (l1 & x & l2 & -> & -> & Hx & _).
    rewrite !omap_app. cbn. by destruct k, x.
  - rewrite omap_app. cbn. destruct k; cbn; by rewrite app_nil_r.
Qed.

Lemma audit_step_keys render_json bl p :
  omap block_key (audit_step render_json bl p) = key_step (omap block_key bl) p.
Proof.
  destruct p as [i s|i s|i s|i call|i c s|i call|]; cbn [audit_step key_step];
    rewrite ?push_text_keys; try done.
  - by rewrite omap_app.
  - destruct (update_first _ _ bl) as [bl'|] eqn:E; cbn; [|done].
    apply update_first_Some in E as (l1 & x & l2 & -> & -> & Hx & _).
    rewrite !omap_app. cbn. by destruct x.
  - rewrite (update_first_omap block_key (proposes (call_id call)) _
      (complete_proposal render_json call) complete_key).
    + by destruct (update_first _ _ bl).
    + by intros [].
    + intros [] k; [done..|]. by intros [= <-].
Qed.

Lemma audit_keys render_json fs :
  omap block_key (consolidate_audit_content render_json fs) =
  foldl key_step [] (map payload fs).
Proof.
  unfold consolidate_audit_content.
  enough (∀ bl, omap block_key (foldl (λ bl f, audit_step render_json bl (payload f)) bl fs) =
    foldl key_step (omap block_key bl) (map payload fs)) by auto.
  induction fs as [|f fs IH]; intros bl; cbn; [done|]. by rewrite IH, audit_step_keys.
Qed.

(** ** The write-back *)

(** The row a tracked owner leaves. *)
Definition written (p : Proposal) (o : PublicationProposalOwner) : Proposal :=
  {| p_call := p_call p; p_block := p_block p; p_tool := p_tool p; p_name := p_name p;
     p_state := o_state o; p_executed := p_executed p; p_settlement := p_settlement p |}.

Lemma written_same p o : p_state p = o_state o → written p o = p.
Proof. intros H. unfold written. rewrite <-H. by destruct p. Qed.

Lemma write_tracked left right p o :
  tracks p o → p_call p ∉ map p_call (left ++ right) →
  write_owner (left ++ p :: right) o = left ++ written p o :: right.
Proof.
  intros (Hc & _ & _ & _ & Hp & _) Hn. unfold write_owner. rewrite Hp.
  assert (Hid : ∀ rows, p_call p ∉ map p_call rows →
    map (λ q, if bool_decide (p_call q = o_call o) then written q o else q) rows = rows).
  { intros rows Hr. rewrite <-(map_id rows) at 2. apply map_ext_in. intros q Hq.
    rewrite Hc. case_bool_decide as E; [|done]. exfalso. apply Hr. rewrite <-E.
    apply list_elem_of_In, in_map, Hq. }
  rewrite map_app, not_elem_of_app in Hn. destruct Hn as [Hl Hr].
  case_bool_decide as E; [by rewrite written_same|].
  change (map (λ q, if bool_decide (p_call q = o_call o) then written q o else q)
    (left ++ p :: right) = left ++ written p o :: right).
  rewrite map_app. cbn. rewrite !Hid by done. by rewrite Hc, bool_decide_eq_true_2.
Qed.

Lemma write_back_tracked left rows os :
  Forall2 tracks rows os → NoDup (map p_call (left ++ rows)) →
  foldl write_owner (left ++ rows) os = left ++ zip_with written rows os.
Proof.
  intros Ht. revert left. induction Ht as [|p o rows os Hpo Ht IH]; intros left Hnd; cbn; [done|].
  rewrite map_app in Hnd. cbn in Hnd. apply NoDup_app in Hnd as (Hl & Hlr & Hr).
  apply NoDup_cons in Hr as [Hpr Hr].
  rewrite write_tracked; [|done|].
  - rewrite (cons_middle (written p o) left rows), (cons_middle (written p o) left (zip_with _ _ _)),
      !(assoc_L (++)). apply IH.
    rewrite !map_app. cbn. apply NoDup_app. split_and!; [|set_solver|done].
    apply NoDup_app. split_and!; [done| |apply NoDup_singleton]. set_solver.
  - rewrite map_app, not_elem_of_app. split; [|done]. intros H. apply (Hlr _ H). set_solver.
Qed.

Definition new_row (o : PublicationProposalOwner) : Proposal :=
  {| p_call := o_call o; p_block := o_block o; p_tool := o_tool o; p_name := o_name o;
     p_state := o_state o; p_executed := false; p_settlement := None |}.

Lemma write_back_new rows os :
  Forall (λ o, o_persisted o = None) os → foldl write_owner rows os = rows ++ map new_row os.
Proof.
  intros Ho. revert rows. induction Ho as [|o os Hp _ IH]; intros rows; cbn.
  { by rewrite app_nil_r. }
  rewrite IH. unfold write_owner. rewrite Hp. by rewrite <-(assoc_L (++)).
Qed.

(** What staging does to the rows: their keys follow the frames, an existing row keeps its
    execution mark and settlement and never loses completion, a new one is unmarked. *)
Lemma write_back rows owners :
  working rows owners → NoDup (map p_call rows) →
  let rows' := foldl write_owner rows owners in
  map row_key rows' = map owner_key owners ∧ NoDup (map p_call rows') ∧
  ∀ p', p' ∈ rows' →
    (p_executed p' = false ∧ p_settlement p' = None) ∨
    ∃ p, p ∈ rows ∧ p_executed p' = p_executed p ∧ p_settlement p' = p_settlement p ∧
      (p_state p = Completed → p_state p' = Completed).
Proof.
  intros [Hno (os1 & os2 & -> & Ht & Hn)] Hnd rows'. subst rows'.
  pose proof (write_back_tracked [] rows os1 Ht Hnd) as Hw. cbn [app] in Hw.
  rewrite foldl_app, Hw.
  rewrite write_back_new by done.
  assert (Hk : map row_key (zip_with written rows os1 ++ map new_row os2)
             = map owner_key (os1 ++ os2)).
  { rewrite !map_app, map_map. f_equal. clear -Ht.
    induction Ht as [|p o rows os (H1 & H2 & H3 & H4 & _) _ IH]; cbn; [done|]. rewrite IH.
    f_equal. unfold row_key, owner_key. cbn. congruence. }
  split_and!; [done| |].
  - apply (f_equal (map k_call)) in Hk. rewrite !map_map in Hk.
    change (NoDup (map (λ x, k_call (row_key x)) (zip_with written rows os1 ++ map new_row os2))).
    by rewrite Hk.
  - intros p' [Hp|Hp]%elem_of_app.
    + right. apply elem_of_lookup_zip_with in Hp as (i & p & o & -> & Hp & Ho).
      exists p. cbn. split_and!; [by eapply list_elem_of_lookup_2|done..|].
      intros Hc. by destruct (Forall2_lookup_lr _ _ _ _ _ _ Ht Hp Ho) as (_ & _ & _ & _ & _ & H);
        apply H.
    + left. apply list_elem_of_In, in_map_iff in Hp as (o & <- & _). done.
Qed.

(** ** The invariant of the tables *)

(** A canonical Assistant carries exactly the completed proposals of its stream. *)
Definition accepts (rows : list Proposal) (content : list AssistantContentBlock) : Prop :=
  (∀ i call, content !! i = Some (AToolCall call) → ∃ p, p ∈ rows ∧
     p_call p = call_id call ∧ p_block p = N.of_nat i ∧ p_tool p = call_tool_id call ∧
     p_name p = call_name call ∧ p_state p = Completed) ∧
  (∀ p, p ∈ rows → p_state p = Completed ∧
     ∃ i call, content !! i = Some (AToolCall call) ∧ call_id call = p_call p).

Definition find_request (rq : RequestId) (db : PubDb) : option StartedRequest :=
  find_first (λ q, bool_decide (rq_id q = rq)) (requests db).

Record row_ok (db : PubDb) (r : StreamRow) : Prop := {
  row_request : ∃ q, find_request (request_id (r_start r)) db = Some q ∧
    validate_publication_generation q (r_start r) = Ok () ∧
    (is_Some (r_terminal r) → rq_outcome q = true);
  row_nodup : NoDup (map p_call (r_proposals r));
  row_open : r_settlement r = None →
    r_next r = N.of_nat (length (r_frames r)) ∧
    sequenced (stream_id (r_start r)) (message_id (r_start r)) 0 (r_frames r) ∧
    map row_key (r_proposals r) = foldl key_step [] (map payload (r_frames r));
  row_closed : is_Some (r_settlement r) → r_frames r = [];
  row_canonical : r_settlement r = Some Canonical →
    is_Some (r_terminal r) ∧ ∃ a, Assistant a ∈ ledger db ∧
      assistant_id a = message_id (r_start r) ∧ accepts (r_proposals r) (assistant_content a);
  row_audited : ∀ k, r_settlement r = Some (settlement_of k) →
    k = audit_kind (publication_record r) ∧
    ∃ a, a ∈ audits db ∧ a_stream_id a = stream_id (r_start r);
  row_audit : ∀ a, a ∈ audits db → a_stream_id a = stream_id (r_start r) →
    r_settlement r = Some (settlement_of (a_kind a)) ∧
    omap block_key (a_content a) = map row_key (r_proposals r);
  row_proposal : ∀ p, p ∈ r_proposals r → p_settlement p = r_settlement r ∧
    (p_executed p = true → p_state p = Completed ∧
       (r_settlement r = None ∨ r_settlement r = Some Canonical));
}.

Record db_ok (db : PubDb) : Prop := {
  db_streams : NoDup (map (λ r, stream_id (r_start r)) (streams db));
  db_rows : ∀ r, r ∈ streams db → row_ok db r;
  db_audits : ∀ a, a ∈ audits db → is_Some (read_publication_stream (a_stream_id a) db);
}.

Lemma read_publication_stream_Some s db r :
  db_ok db →
  read_publication_stream s db = Some r ↔ r ∈ streams db ∧ stream_id (r_start r) = s.
Proof.
  intros [Hnd _ _]. unfold read_publication_stream. split.
  - intros [Hr Hs]%find_first_Some. by apply bool_decide_eq_true in Hs.
  - intros [Hr <-]. induction (streams db) as [|x rows IH]; [by apply not_elem_of_nil in Hr|].
    cbn in Hnd. apply NoDup_cons in Hnd as [Hx Hnd]. cbn. unfold is_stream at 1.
    apply elem_of_cons in Hr as [->|Hr].
    + by rewrite bool_decide_eq_true_2.
    + rewrite bool_decide_eq_false_2; [by apply IH|]. intros E. apply Hx. rewrite E.
      apply list_elem_of_In, in_map_iff. exists r. split; [done|by apply list_elem_of_In].
Qed.

(** What a row needs of the rest of the database survives. *)
Definition context_le (db db' : PubDb) (s : PublicationStreamId) : Prop :=
  (∀ rq q, find_request rq db = Some q → ∃ q', find_request rq db' = Some q' ∧
     (∀ st, validate_publication_generation q st = Ok () →
            validate_publication_generation q' st = Ok ()) ∧
     (rq_outcome q = true → rq_outcome q' = true)) ∧
  (∀ m, m ∈ ledger db → m ∈ ledger db') ∧
  (∀ a, a_stream_id a = s → a ∈ audits db ↔ a ∈ audits db').

Lemma row_ok_context db db' r :
  context_le db db' (stream_id (r_start r)) → row_ok db r → row_ok db' r.
Proof.
  intros (Hq & Hm & Ha) [(q & Hf & Hv & Ho) ?? ? Hc Hau Hcontent ?]. split; try done.
  - destruct (Hq _ _ Hf) as (q' & Hf' & Hv' & Ho'). exists q'. split_and!; auto.
  - intros E. destruct (Hc E) as (Ht & a & Hin & ?). split; [done|]. exists a. auto.
  - intros k E. destruct (Hau k E) as (-> & a & Hin & Hs). split; [done|]. exists a.
    split; [by apply (Ha a Hs)|done].
  - intros a Hin Hs. by apply Hcontent; [apply (Ha a Hs)|].
Qed.

Lemma context_le_refl db s : context_le db db s.
Proof. split_and!; try done. intros rq q Hq. by exists q. Qed.

Lemma context_le_streams db db' f s : context_le db db' s → context_le db (set_streams f db') s.
Proof. done. Qed.

Lemma elem_of_update s f db r r' :
  db_ok db → read_publication_stream s db = Some r →
  r' ∈ streams (update_stream s f db) →
  r' = f r ∨ (r' ∈ streams db ∧ stream_id (r_start r') ≠ s).
Proof.
  intros Hok Hr Hin. cbn in Hin. apply list_elem_of_In, in_map_iff in Hin as (x & <- & Hx).
  apply list_elem_of_In in Hx. unfold is_stream. case_bool_decide as E; [left|by right].
  f_equal. assert (read_publication_stream s db = Some x) by (by apply read_publication_stream_Some).
  congruence.
Qed.

Lemma read_update s f db s' r :
  db_ok db → (∀ x, r_start (f x) = r_start x) →
  read_publication_stream s' db = Some r →
  read_publication_stream s' (update_stream s f db) =
    Some (if bool_decide (s' = s) then f r else r).
Proof.
  intros _ Hf. unfold read_publication_stream, update_stream, set_streams. cbn.
  unfold find_first. induction (streams db) as [|x rows IH]; cbn; [done|].
  assert (E : is_stream s' (if is_stream s x then f x else x) = is_stream s' x)
    by (destruct (is_stream s x); unfold is_stream; by rewrite ?Hf).
  rewrite E. destruct (is_stream s' x) eqn:E'; [|exact IH]. intros [= <-]. f_equal.
  apply bool_decide_eq_true in E'. unfold is_stream. by rewrite E'.
Qed.

(** The one step every transaction takes: a row is replaced in an extended context. *)
Lemma update_stream_ok db db' s f r :
  db_ok db → streams db' = streams db → read_publication_stream s db = Some r →
  (∀ x, r_start (f x) = r_start x) →
  (∀ s', s' ≠ s → context_le db db' s') →
  (∀ a, a ∈ audits db' → a ∈ audits db ∨ a_stream_id a = s) →
  row_ok db' (f r) →
  db_ok (update_stream s f db').
Proof.
  intros Hok Hst Hr Hf Hctx Hau Hrow.
  assert (Hstreams : streams (update_stream s f db') = streams (update_stream s f db))
    by (cbn; by rewrite Hst).
  assert (Hread : ∀ s', read_publication_stream s' (update_stream s f db') =
                        read_publication_stream s' (update_stream s f db))
    by (intros s'; unfold read_publication_stream; by rewrite Hstreams).
  split.
  - rewrite Hstreams. cbn. rewrite map_map. erewrite map_ext; [apply Hok|].
    intros x. cbn. by destruct (is_stream s x); rewrite ?Hf.
  - intros r'. rewrite Hstreams. intros [->|[Hin Hne]]%(elem_of_update _ _ _ r _ Hok Hr).
    + apply (row_ok_context db'); [|done]. apply context_le_streams, context_le_refl.
    + apply (row_ok_context db); [|by apply Hok]. by apply context_le_streams, Hctx.
  - intros a Ha. rewrite Hread. assert (is_Some (read_publication_stream (a_stream_id a) db)) as [x Hx].
    { destruct (Hau a Ha) as [Ha'| ->]; [by apply (db_audits _ Hok)|by eexists]. }
    rewrite (read_update s f db _ x Hok Hf Hx). by eexists.
Qed.

(** ** Each transaction preserves the invariant *)

Lemma preflight_ok message next frames n :
  preflight message next frames = Ok n →
  n = (next + N.of_nat (length frames))%N ∧
  ∀ k f, frames !! k = Some f → sequence f = (next + N.of_nat k)%N ∧ f_message_id f = message.
Proof.
  revert next. induction frames as [|f frames IH]; intros next; cbn [preflight].
  { intros [= <-]. split; [cbn; lia|done]. }
  intros ([] & Hm%guard_err_ok%negb_false_iff%bool_decide_eq_true & H)%bind_ok. revert H.
  intros ([] & Hs%guard_err_ok%negb_false_iff%N.eqb_eq & H)%bind_ok. revert H.
  intros ([] & _ & [-> Hrest]%IH)%bind_ok. split; [cbn [length]; lia|].
  intros [|k] g; cbn; [by intros [= <-]; split; [lia|]|]. intros [-> ->]%Hrest. split; [lia|done].
Qed.

Lemma require_stream_ok s db r :
  require_publication_stream s db = Ok r ↔ read_publication_stream s db = Some r.
Proof. unfold require_publication_stream. apply ok_or_ok. Qed.

Lemma read_stream_id s db r : read_publication_stream s db = Some r → stream_id (r_start r) = s.
Proof. intros [_ H]%find_first_Some. by apply bool_decide_eq_true in H. Qed.

Lemma read_stream_row s db r : db_ok db → read_publication_stream s db = Some r → row_ok db r.
Proof. intros Hok [Hr _]%find_first_Some. by apply Hok. Qed.

Lemma stage_frames_shape frames db r db' :
  stage_frames_tx frames db = Ok (r, db') →
  ∃ next owners s, read_publication_stream s db = Some r ∧ r_settlement r = None ∧
    (∀ f, f ∈ frames → f_stream_id f = s) ∧
    preflight (message_id (r_start r)) (r_next r) frames = Ok next ∧
    validate_proposal_frames (map payload frames) (map owner_of (r_proposals r)) = Ok owners ∧
    db' = update_stream s (λ r, staged_row r next frames owners) db.
Proof.
  unfold stage_frames_tx. destruct frames as [|f0 frames]; [done|].
  set (fs := f0 :: frames).
  intros ([] & Hm%guard_err_ok & (r0 & Hr%require_stream_ok & H)%bind_ok)%bind_ok. revert H.
  destruct (r_settlement r0) eqn:Hs; [done|].
  intros (next & Hp & (owners & Hv & [= <- <-])%bind_ok)%bind_ok.
  exists next, owners, (f_stream_id f0). split_and!; try done.
  intros f Hf. destruct (decide (f_stream_id f = f_stream_id f0)) as [|Hne]; [done|].
  exfalso. revert Hm. apply not_false_iff_true, existsb_exists. exists f.
  split; [by apply list_elem_of_In|]. by rewrite bool_decide_eq_false_2.
Qed.

Lemma staged_row_ok db r next frames owners s :
  row_ok db r → stream_id (r_start r) = s → r_settlement r = None →
  (∀ f, f ∈ frames → f_stream_id f = s) →
  preflight (message_id (r_start r)) (r_next r) frames = Ok next →
  validate_proposal_frames (map payload frames) (map owner_of (r_proposals r)) = Ok owners →
  row_ok db (staged_row r next frames owners).
Proof.
  intros [Hq Hnd Hop Hcl Hc Ha Hcon Hpr] Hid Hs Hstream [-> Hpre]%preflight_ok Hv.
  assert (Hw : working (r_proposals r) owners)
    by (eapply validate_proposal_frames_working; [done|by apply working_start]).
  destruct (write_back _ _ Hw Hnd) as (Hk & Hnd' & Hrows). cbn zeta in *.
  destruct (Hop Hs) as (Hn & Hsq & Hkeys).
  assert (Hcontra : ∀ a, a ∈ audits db → a_stream_id a ≠ stream_id (r_start r))
    by (intros a Hin He; destruct (Hcon a Hin He); congruence).
  split; cbn; try done.
  - intros _. split_and!.
    + rewrite length_app. lia.
    + apply sequenced_app; [done|]. intros k f Hf. destruct (Hpre k f Hf) as [-> ->].
      split_and!; [lia| |done]. rewrite Hid. apply Hstream. by eapply list_elem_of_lookup_2.
    + rewrite Hk, (validate_frames_keys _ _ _ Hv), map_map, map_app, foldl_app, <-Hkeys. done.
  - rewrite Hs. by intros [? ?].
  - intros E. congruence.
  - intros a Hin He. by destruct (Hcontra a Hin).
  - intros p' Hp'. destruct (Hrows p' Hp') as [[-> ->]|(p & Hp & -> & -> & Hst)]; [by rewrite Hs|].
    destruct (Hpr p Hp) as [-> Hx]. split; [done|]. intros He. destruct (Hx He). auto.
Qed.

Lemma update_same_ok db s f r :
  db_ok db → read_publication_stream s db = Some r → (∀ x, r_start (f x) = r_start x) →
  row_ok db (f r) → db_ok (update_stream s f db).
Proof.
  intros Hok Hr Hf Hrow. eapply (update_stream_ok db db); try done.
  - intros s' _. apply context_le_refl.
  - intros a Ha. by left.
Qed.

Lemma stage_frames_ok frames db r db' :
  db_ok db → stage_frames_tx frames db = Ok (r, db') →
  db_ok db' ∧ r_settlement r = None ∧ read_publication_stream (stream_id (r_start r)) db = Some r ∧
  ∃ next owners, frames ≠ [] ∧
    db' = update_stream (stream_id (r_start r)) (λ r, staged_row r next frames owners) db.
Proof.
  intros Hok H. assert (frames ≠ []) by (intros ->; done).
  apply stage_frames_shape in H as (next & owners & s & Hr & Hs & Hf & Hp & Hv & ->).
  pose proof (read_stream_id _ _ _ Hr) as <-. split_and!; try done; [|by exists next, owners].
  apply (update_same_ok _ _ _ r); try done.
  eapply staged_row_ok; try done. by eapply read_stream_row.
Qed.

Lemma stage_publication_ok frames db db' :
  db_ok db → stage_publication_frames frames db = Ok db' → db_ok db'.
Proof.
  intros Hok (? & _ & ([r db1] & H & (? & _ & [= <-])%bind_ok)%bind_ok)%bind_ok.
  by destruct (stage_frames_ok _ _ _ _ Hok H).
Qed.

Lemma set_terminal_ok db r n q :
  row_ok db r → r_settlement r = None → find_request (request_id (r_start r)) db = Some q →
  rq_outcome q = true → row_ok db (set_terminal n r).
Proof.
  intros [(q' & Hf & Hv & _) Hnd Hop Hcl Hc Ha Hcon Hpr] Hs Hq Ho.
  split; cbn; try done; [|intros E; congruence|intros k E; congruence].
  exists q'. split_and!; try done. intros _. congruence.
Qed.

Lemma stream_request_ok r db q :
  stream_request r db = Ok q →
  find_request (request_id (r_start r)) db = Some q ∧
  validate_publication_generation q (r_start r) = Ok ().
Proof. by intros (q' & Hq%ok_or_ok & ([] & Hv & [= <-])%bind_ok)%bind_ok. Qed.

Lemma commit_terminal_ok s frames db db' :
  db_ok db → commit_publication_terminal s frames db = Ok db' → db_ok db'.
Proof.
  intros Hok. unfold commit_publication_terminal.
  intros (? & _ & (r0 & Hr0%require_stream_ok & (q & [Hq _]%stream_request_ok & H)%bind_ok)%bind_ok)%bind_ok.
  revert H. intros ([] & Ho%guard_err_ok%negb_false_iff & ([r db1] & Hst & H)%bind_ok)%bind_ok.
  revert H. intros ([] & Hid%guard_err_ok%negb_false_iff%bool_decide_eq_true & H)%bind_ok. revert H.
  intros (? & _ & (last & _ & [= <-])%bind_ok)%bind_ok.
  destruct (stage_frames_ok _ _ _ _ Hok Hst) as (Hok1 & Hs & Hr & next & owners & _ & ->).
  rewrite Hid in *. assert (r0 = r) as -> by congruence.
  pose proof (read_update s (λ r, staged_row r next frames owners) db s r Hok (λ _, eq_refl) Hr) as Hr1.
  rewrite bool_decide_eq_true_2 in Hr1 by done.
  eapply update_same_ok; [done|exact Hr1|done|].
  eapply set_terminal_ok; try done. by eapply read_stream_row.
Qed.

(** What the loop over the accepted message establishes. *)
Lemma validate_tool_calls_ok rows i acc content acc' :
  validate_tool_calls rows i acc content = Ok acc' →
  (∀ k call, content !! k = Some (AToolCall call) →
     (∃ p, p ∈ rows ∧ p_call p = call_id call ∧ p_block p = (i + N.of_nat k)%N ∧
        p_tool p = call_tool_id call ∧ p_name p = call_name call ∧ p_state p = Completed)) ∧
  (∀ c, c ∈ acc' → c ∈ acc ∨ ∃ k call, content !! k = Some (AToolCall call) ∧ call_id call = c).
Proof.
  revert i acc. induction content as [|b content IH]; intros i acc; cbn.
  { intros [= <-]. split; [done|]. intros c Hc. by left. }
  assert (Hskip : ∀ acc0, validate_tool_calls rows (i + 1) acc0 content = Ok acc' →
    (∀ k call, content !! k = Some (AToolCall call) →
       ∃ p, p ∈ rows ∧ p_call p = call_id call ∧ p_block p = (i + N.of_nat (S k))%N ∧
         p_tool p = call_tool_id call ∧ p_name p = call_name call ∧ p_state p = Completed) ∧
    (∀ c, c ∈ acc' → c ∈ acc0 ∨
       ∃ k call, content !! k = Some (AToolCall call) ∧ call_id call = c)).
  { intros acc0 [H1 H2]%IH. split; [|done]. intros k call Hk.
    destruct (H1 k call Hk) as (p & ? & ? & Hb & ?). exists p. rewrite Hb.
    split_and!; [done|done|lia|naive_solver..]. }
  assert (Hother : (∀ call, b ≠ AToolCall call) →
    validate_tool_calls rows (i + 1) acc content = Ok acc' →
    (∀ k call, (b :: content) !! k = Some (AToolCall call) →
       ∃ p, p ∈ rows ∧ p_call p = call_id call ∧ p_block p = (i + N.of_nat k)%N ∧
         p_tool p = call_tool_id call ∧ p_name p = call_name call ∧ p_state p = Completed) ∧
    (∀ c, c ∈ acc' → c ∈ acc ∨
       ∃ k call, (b :: content) !! k = Some (AToolCall call) ∧ call_id call = c)).
  { intros Hb [H1 H2]%Hskip. split.
    - intros [|k] call; [intros [= ->]; by destruct (Hb call)|apply H1].
    - intros c [?|(k & call & ? & ?)]%H2; [by left|right]. by exists (S k), call. }
  destruct b as [| |call| |]; try (by apply Hother).
  intros ([] & _ & (p & [Hp Hc]%ok_or_ok%find_first_Some & H)%bind_ok)%bind_ok. revert H.
  apply bool_decide_eq_true in Hc.
  intros ([] & Hm%guard_err_ok%negb_false_iff & ([] & Hst%guard_err_ok%negb_false_iff%bool_decide_eq_true & [H1 H2]%Hskip)%bind_ok)%bind_ok.
  apply andb_true_iff in Hm as [[Hb%N.eqb_eq Ht%bool_decide_eq_true]%andb_true_iff
    Hn%bool_decide_eq_true].
  split.
  - intros [|k] call0; [|apply H1]. intros [= <-]. exists p. split_and!; try done. lia.
  - intros c [Hin|(k & call0 & ? & ?)]%H2; [|right; by exists (S k), call0].
    apply elem_of_union in Hin as [->%elem_of_singleton|?]; [right|by left]. by exists 0, call.
Qed.

Lemma validate_canonical_accepts rows a :
  validate_canonical_tool_proposals rows (Assistant a) = Ok () → accepts rows (assistant_content a).
Proof.
  cbn. intros (acc & [H1 H2]%validate_tool_calls_ok & Hall)%bind_ok.
  rewrite try_for_each_ok, Forall_forall in Hall. split.
  - intros i call Hi. destruct (H1 i call Hi) as (p & ? & ? & Hb & ?). exists p.
    split_and!; [done|done|lia|naive_solver..].
  - intros p Hp. specialize (Hall p Hp). cbn in Hall. destruct (p_state p); [done|]. split; [done|].
    apply guard_err_ok, negb_false_iff, bool_decide_eq_true in Hall.
    by destruct (H2 _ Hall) as [?%elem_of_empty|?].
Qed.

Lemma settle_proposal_keys x rows : map row_key (map (settle_proposal x) rows) = map row_key rows.
Proof. rewrite map_map. by apply map_ext. Qed.

Lemma settle_proposal_calls x rows : map p_call (map (settle_proposal x) rows) = map p_call rows.
Proof. rewrite map_map. by apply map_ext. Qed.

Lemma accepts_settled x rows content :
  accepts rows content → accepts (map (settle_proposal x) rows) content.
Proof.
  intros [H1 H2]. split.
  - intros i call Hi. destruct (H1 i call Hi) as (p & Hp & ?). exists (settle_proposal x p).
    split; [|done]. apply list_elem_of_In, in_map, list_elem_of_In, Hp.
  - intros p Hp. apply list_elem_of_In, in_map_iff in Hp as (p0 & <- & Hp0%list_elem_of_In).
    by apply H2 in Hp0.
Qed.

Lemma append_message_ok m db db' :
  append_message m db = Ok db' →
  db' = {| conversation := conversation db; requests := requests db; streams := streams db;
           audits := audits db; ledger := ledger db ++ [m]; pending_ids := pending_ids db;
           active_message_ids := active_message_ids db ++ [message_id_of m] |}.
Proof. unfold append_message. by intros (? & _ & (? & _ & [= <-])%bind_ok)%bind_ok. Qed.

(** A change outside the streams that only extends what rows depend on. *)
Lemma extend_ok db db' :
  db_ok db → streams db' = streams db → (∀ s, context_le db db' s) →
  (∀ a, a ∈ audits db' → a ∈ audits db) → db_ok db'.
Proof.
  intros [Hnd Hrows Hau] Hs Hc Ha. split.
  - by rewrite Hs.
  - rewrite Hs. intros r Hr. apply (row_ok_context db); auto.
  - intros a Hin. unfold read_publication_stream. rewrite Hs. by apply Hau, Ha.
Qed.

Lemma commit_canonical_ok s m e db db' :
  db_ok db → commit_canonical_publication s m e db = Ok db' → db_ok db'.
Proof.
  intros Hok. unfold commit_canonical_publication.
  intros (r & Hr%require_stream_ok & (q & [Hq Hv]%stream_request_ok & H)%bind_ok)%bind_ok. revert H.
  intros ([] & He%guard_err_ok%negb_false_iff & ([] & Hprop & H)%bind_ok)%bind_ok. revert H.
  destruct (r_settlement r) eqn:Hs; [done|].
  intros ([] & Ht%guard_err_ok%negb_false_iff%bool_decide_eq_true & H)%bind_ok. revert H.
  intros ([] & _ & (db1 & Happ & [= <-])%bind_ok)%bind_ok.
  rewrite !andb_true_iff in He. destruct He as [[[[[Hm _] Hid%bool_decide_eq_true] _] _] _].
  destruct m as [|a|]; try done. apply validate_canonical_accepts in Hprop.
  pose proof (append_message_ok _ _ _ Happ) as Hdb1.
  assert (Hctx : ∀ s', context_le db db1 s').
  { intros s'. rewrite Hdb1. split_and!; [|set_solver|done]. intros rq q' Hq'. by exists q'. }
  apply (update_stream_ok db db1 _ _ r); try done; [by rewrite Hdb1|rewrite Hdb1; by left|].
  pose proof (read_stream_row _ _ _ Hok Hr) as Hrow.
  pose proof (row_ok_context _ _ _ (Hctx _) Hrow) as [Hq1 Hnd Hop Hcl Hc Ha Hcon Hpr].
  assert (Hcontra : ∀ a, a ∈ audits db1 → a_stream_id a ≠ stream_id (r_start r))
    by (intros a' Hin He; destruct (Hcon a' Hin He); congruence).
  split; cbn; try done.
  - by rewrite settle_proposal_calls.
  - intros _. split; [done|]. exists a. rewrite Hdb1. cbn. split_and!; [set_solver|exact Hid|].
    by apply accepts_settled.
  - intros [] ?; done.
  - intros a' Hin He. by destruct (Hcontra a' Hin).
  - intros p Hp. apply list_elem_of_In, in_map_iff in Hp as (p0 & <- & Hp0%list_elem_of_In).
    cbn. split; [done|]. intros He. destruct (Hpr p0 Hp0) as [_ Hx]. destruct (Hx He). auto.
Qed.

Lemma find_executed rows : find_first p_executed rows = None → ∀ p, p ∈ rows → p_executed p = false.
Proof. by rewrite find_first_None. Qed.

Lemma settlement_of_inj a b : settlement_of a = settlement_of b → b = a.
Proof. by destruct a, b. Qed.

Lemma terminalize_ok render_json s t db a db' :
  db_ok db → terminalize_publication_audit render_json s t db = Ok (a, db') →
  db_ok db' ∧ ∃ r, read_publication_stream s db = Some r ∧ r_settlement r = None ∧
    a_content a = consolidate_audit_content render_json (r_frames r) ∧
    a_kind a = audit_kind (publication_record r) ∧ a_stream_id a = s ∧
    streams db' = streams (update_stream s (settle_row (settlement_of (a_kind a))) db) ∧
    audits db' = audits db ++ [a].
Proof.
  intros Hok. unfold terminalize_publication_audit.
  intros (r & Hr%require_stream_ok & (q & [Hq Hv]%stream_request_ok & H)%bind_ok)%bind_ok. revert H.
  destruct (r_settlement r) eqn:Hs; [done|].
  intros ([] & _ & H)%bind_ok. revert H.
  destruct (find_first p_executed _) eqn:Hex; [done|].
  intros ([] & _ & [= <- <-])%bind_ok. cbn.
  split; [|exists r; by split_and!].
  set (audit := {| a_stream_id := _ |}). set (db1 := {| streams := _; audits := _ |}).
  pose proof (read_stream_id _ _ _ Hr) as Hid.
  set (db2 := {| conversation := conversation db; requests := requests db; streams := streams db;
                 audits := audits db ++ [audit]; ledger := ledger db;
                 pending_ids := pending_ids db; active_message_ids := active_message_ids db |}).
  set (k := audit_kind (publication_record r)).
  change (db_ok (update_stream s (settle_row (settlement_of k)) db2)).
  assert (Haud : ∀ a, a ∈ audits db2 ↔ a ∈ audits db ∨ a = audit).
  { intros a. cbn. by rewrite elem_of_app, list_elem_of_singleton. }
  apply (update_stream_ok db db2 _ _ r); try done.
  - intros s' Hne. split_and!; [intros rq q' Hq'; by exists q'|done|].
    intros a Ha. rewrite Haud. split; [by left|]. intros [?| ->]; [done|]. cbn in Ha. congruence.
  - intros a Ha%Haud. destruct Ha as [?| ->]; [by left|by right].
  - pose proof (read_stream_row _ _ _ Hok Hr) as [Hq1 Hnd Hop Hcl Hc Ha Hcon Hpr].
    split; cbn; try done.
    + by rewrite settle_proposal_calls.
    + intros E. by destruct k.
    + intros k' [= E]. split; [by apply settlement_of_inj|]. exists audit. rewrite Hid.
      split; [by apply Haud; right|done].
    + intros a Ha' He. change (a ∈ audits db2) in Ha'. apply Haud in Ha' as [Ha'| ->].
      * destruct (Hcon a Ha' He). congruence.
      * split; [done|]. rewrite settle_proposal_keys. cbn.
        destruct (Hop Hs) as (_ & _ & ->). by rewrite audit_keys.
    + intros p Hp. apply list_elem_of_In, in_map_iff in Hp as (p0 & <- & Hp0%list_elem_of_In).
      cbn. split; [done|]. by rewrite (find_executed _ Hex p0 Hp0).
Qed.

Lemma unique_call rows p q :
  NoDup (map p_call rows) → p ∈ rows → q ∈ rows → p_call p = p_call q → p = q.
Proof.
  intros Hnd [i Hi]%list_elem_of_lookup [j Hj]%list_elem_of_lookup E.
  assert (i = j) as <-; [|congruence]. apply (NoDup_lookup _ i j (p_call p) Hnd).
  - by rewrite list_lookup_fmap, Hi.
  - by rewrite list_lookup_fmap, Hj, E.
Qed.

Lemma select_owner_ok matching x :
  select_owner matching = Ok x →
  x ∈ matching ∧ (p_settlement x.2 = None ∨ p_settlement x.2 = Some Canonical).
Proof.
  unfold select_owner. destruct (List.filter _ matching) as [|y [|z zs]] eqn:E; [| |done].
  - destruct (find_map _ matching) eqn:Ef; [done|]. rewrite find_map_None in Ef.
    destruct matching as [|y [|z zs]]; try done. intros [= <-].
    split; [constructor|]. specialize (Ef y ltac:(constructor)). cbn in E.
    case_bool_decide as Ec; [done|]. destruct (p_settlement y.2) as [[]|]; auto; done.
  - intros [= <-].
    assert (In y (List.filter (λ x, bool_decide (p_settlement x.2 = Some Canonical)) matching))
      as [Hy Hc]%filter_In by (rewrite E; by left).
    apply bool_decide_eq_true in Hc. split; [by apply list_elem_of_In|by right].
Qed.

Lemma candidates_ok c db r p :
  (r, p) ∈ proposal_candidates c db → r ∈ streams db ∧ p ∈ r_proposals r ∧ p_call p = c.
Proof.
  intros Hin. apply list_elem_of_In, in_flat_map in Hin as (r' & Hr & Hp).
  apply in_map_iff in Hp as (p' & [= -> ->] & [Hp Hc]%filter_In).
  rewrite !list_elem_of_In. apply bool_decide_eq_true in Hc. done.
Qed.

(** An accepted dependency either touches no proposal or marks one completed proposal whose
    publication is not settled as an audit. *)
Lemma dependency_shape c att tn tool allow owner db db' :
  record_tool_proposal_dependency c att tn tool allow owner db = Ok db' →
  (proposal_candidates c db = [] ∧ db' = db) ∨
  ∃ r p, r ∈ streams db ∧ p ∈ r_proposals r ∧ p_call p = c ∧ p_state p = Completed ∧
    (p_settlement p = None ∨ p_settlement p = Some Canonical) ∧
    db' = update_stream (stream_id (r_start r)) (mark_executed c) db.
Proof.
  unfold record_tool_proposal_dependency.
  destruct (proposal_candidates c db) as [|x0 xs] eqn:Ec.
  - intros (? & _ & [= <-])%bind_ok. by left.
  - rewrite <-Ec. clear Ec x0 xs. intros (? & _ & ([r p] & [Hx Hs]%select_owner_ok & H)%bind_ok)%bind_ok.
    revert H. intros (? & _ & ([] & Hc%guard_err_ok%negb_false_iff%bool_decide_eq_true & [= <-])%bind_ok)%bind_ok.
    right. apply list_elem_of_In, filter_In in Hx as [Hx%list_elem_of_In _].
    apply candidates_ok in Hx as (? & ? & ?). by exists r, p.
Qed.

Lemma mark_executed_ok db c r p :
  row_ok db r → p ∈ r_proposals r → p_call p = c → p_state p = Completed →
  (p_settlement p = None ∨ p_settlement p = Some Canonical) →
  row_ok db (mark_executed c r).
Proof.
  intros [Hq Hnd Hop Hcl Hc Ha Hcon Hpr] Hp Hpc Hst Hset.
  assert (Hk : map row_key (r_proposals (mark_executed c r)) = map row_key (r_proposals r)).
  { cbn. rewrite map_map. apply map_ext. intros x. unfold mark_proposal. by case_bool_decide. }
  assert (Hcalls : map p_call (r_proposals (mark_executed c r)) = map p_call (r_proposals r)).
  { cbn. rewrite map_map. apply map_ext. intros x. unfold mark_proposal. by case_bool_decide. }
  assert (Hrow : ∀ x, x ∈ r_proposals (mark_executed c r) → ∃ y, y ∈ r_proposals r ∧
    p_call x = p_call y ∧ p_block x = p_block y ∧ p_tool x = p_tool y ∧ p_name x = p_name y ∧
    p_state x = p_state y ∧ p_settlement x = p_settlement y ∧
    (p_executed x = p_executed y ∨ p_call y = c)).
  { intros x Hx. apply list_elem_of_In, in_map_iff in Hx as (y & <- & Hy%list_elem_of_In).
    exists y. unfold mark_proposal. case_bool_decide; cbn; auto 10. }
  destruct (Hpr p Hp) as [Hps _]. rewrite Hps in Hset.
  split; try done.
  - by rewrite Hcalls.
  - cbn [r_settlement r_next r_frames r_start mark_executed]. by rewrite Hk.
  - intros E. destruct (Hc E) as (Ht & a & Hin & Hid & Hacc1 & Hacc2). split; [done|].
    exists a. split_and!; [done..|]. split.
    + intros i call Hi. destruct (Hacc1 i call Hi) as (y & Hy & Hrest).
      exists (mark_proposal c y). split; [by apply list_elem_of_In, in_map, list_elem_of_In|].
      unfold mark_proposal. by case_bool_decide.
    + intros x (y & Hy & -> & _ & _ & _ & -> & _)%Hrow. by apply Hacc2.
  - intros a Hin He. rewrite Hk. by apply Hcon.
  - intros x (y & Hy & _ & _ & _ & _ & -> & -> & Hx)%Hrow. destruct (Hpr y Hy) as [-> He].
    split; [done|]. destruct Hx as [->|Hx]; [done|]. intros _. cbn [r_settlement mark_executed].
    assert (y = p) as -> by (eapply unique_call; [done..|congruence]). auto.
Qed.

Lemma dependency_ok c att tn tool allow owner db db' :
  db_ok db → record_tool_proposal_dependency c att tn tool allow owner db = Ok db' → db_ok db'.
Proof.
  intros Hok [[_ ->]|(r & p & Hr & Hp & Hc & Hst & Hset & ->)]%dependency_shape; [done|].
  apply (update_same_ok _ _ _ r); [done| |done|].
  - by apply read_publication_stream_Some.
  - eapply mark_executed_ok; try done. by apply Hok.
Qed.

Lemma open_ok s db db' : db_ok db → open_publication_stream s db = Ok db' → db_ok db'.
Proof.
  intros Hok. unfold open_publication_stream.
  intros (q & Hq%ok_or_ok & ([] & Hv & H)%bind_ok)%bind_ok. revert H.
  destruct (read_publication_stream _ db) as [r|] eqn:Hr.
  { intros (? & _ & H)%bind_ok. destruct (r_settlement r); [done|by injection H as <-]. }
  intros [= <-]. pose proof Hok as [Hnd Hrows Hau].
  assert (Hfresh : ∀ x, x ∈ streams db → stream_id (r_start x) ≠ stream_id s).
  { unfold read_publication_stream in Hr. rewrite find_first_None in Hr.
    intros x Hx. specialize (Hr x Hx). by apply bool_decide_eq_false in Hr. }
  set (db' := set_streams _ db).
  assert (Hctx : ∀ s', context_le db db' s') by (intros s'; apply (context_le_refl db)).
  split.
  - cbn. rewrite map_app. apply NoDup_app. split_and!; [done| |apply NoDup_singleton].
    intros x Hx ->%list_elem_of_singleton. apply list_elem_of_In, in_map_iff in Hx as (y & E & Hy).
    by apply (Hfresh y); [apply list_elem_of_In|].
  - intros r [Hin| ->%list_elem_of_singleton]%elem_of_app; [by apply (row_ok_context db); auto|].
    split; cbn; try done.
    + exists q. split_and!; done.
    + by apply NoDup_nil.
    + intros a Ha E. destruct (Hau a Ha) as [x Hx]. exfalso.
      apply (Hfresh x); [by apply find_first_Some in Hx as [? _]|].
      rewrite <-E. by eapply read_stream_id.
    + intros p Hp. by apply not_elem_of_nil in Hp.
  - intros a Ha. destruct (Hau a Ha) as [x Hx]. exists x. unfold read_publication_stream in *.
    cbn. unfold find_first in *. rewrite find_map_app. by rewrite Hx.
Qed.

Lemma append_canonical_ok m db db' : db_ok db → append_canonical m db = Ok db' → db_ok db'.
Proof.
  intros Hok. unfold append_canonical. intros (db1 & H1 & ->%append_message_ok)%bind_ok.
  assert (Hok1 : db_ok db1).
  { destruct m; [by injection H1 as <-|by injection H1 as <-|by eapply dependency_ok]. }
  apply (extend_ok db1); try done. intros s. split_and!; [|set_solver|done].
  intros rq q Hq. by exists q.
Qed.

(** ** Reachable databases *)

Definition complete_request (rq : RequestId) (q : StartedRequest) : StartedRequest :=
  if bool_decide (rq_id q = rq)
  then {| rq_id := rq_id q; rq_attempt := rq_attempt q; rq_turn := rq_turn q;
          rq_message := rq_message q; rq_outcome := true |}
  else q.

Lemma complete_request_id rq q : rq_id (complete_request rq q) = rq_id q.
Proof. unfold complete_request. by destruct (bool_decide _). Qed.

Definition set_requests (f : list StartedRequest → list StartedRequest) (db : PubDb) : PubDb :=
  {| conversation := conversation db; requests := f (requests db); streams := streams db;
     audits := audits db; ledger := ledger db; pending_ids := pending_ids db;
     active_message_ids := active_message_ids db |}.

Definition new_db (conv : str) : PubDb :=
  {| conversation := conv; requests := []; streams := []; audits := []; ledger := [];
     pending_ids := []; active_message_ids := [] |}.

Section reachable.
Context (render_json : json → str).

(** Every transaction of the plane, with what its neighbours may do in between: a request
    starts, its outcome (P) becomes durable, inbound messages come and go, and a
    compaction replaces the active surface. *)
Inductive pub_step : PubDb → PubDb → Prop :=
| step_request q db :
    find_request (rq_id q) db = None → rq_outcome q = false →
    pub_step db (set_requests (λ qs, qs ++ [q]) db)
| step_outcome rq db : pub_step db (set_requests (map (complete_request rq)) db)
| step_inbound ids active db :
    pub_step db {| conversation := conversation db; requests := requests db;
                   streams := streams db; audits := audits db; ledger := ledger db;
                   pending_ids := ids; active_message_ids := active |}
| step_open s db db' : open_publication_stream s db = Ok db' → pub_step db db'
| step_stage fs db db' : stage_publication_frames fs db = Ok db' → pub_step db db'
| step_terminal s fs db db' : commit_publication_terminal s fs db = Ok db' → pub_step db db'
| step_accept s m e db db' : commit_canonical_publication s m e db = Ok db' → pub_step db db'
| step_audit s t a db db' :
    terminalize_publication_audit render_json s t db = Ok (a, db') → pub_step db db'
| step_depend c att tn tool allow owner db db' :
    record_tool_proposal_dependency c att tn tool allow owner db = Ok db' → pub_step db db'
| step_append m db db' : append_canonical m db = Ok db' → pub_step db db'.

Lemma pub_step_ok db db' : pub_step db db' → db_ok db → db_ok db'.
Proof.
  destruct 1 as [q db Hn Ho|rq db|ids active db|s db db' H|fs db db' H|s fs db db' H|
    s m e db db' H|s t a db db' H|c att tn tool allow owner db db' H|m db db' H]; intros Hok.
  - apply (extend_ok db); try done. intros s. split_and!; try done. intros rq q' Hq. exists q'.
    split; [|done]. unfold find_request, find_first in *. cbn. rewrite find_map_app. by rewrite Hq.
  - apply (extend_ok db); try done. intros s. split_and!; try done. intros rq' q Hq.
    exists (complete_request rq q). split_and!.
    + unfold find_request, find_first in *. cbn. induction (requests db) as [|x qs IH]; [done|].
      cbn in *. rewrite complete_request_id.
      case_bool_decide; [by injection Hq as ->|by apply IH].
    + intros st. unfold complete_request. by destruct (bool_decide _).
    + unfold complete_request. by destruct (bool_decide _).
  - apply (extend_ok db); try done. intros s. apply (context_le_refl db).
  - by eapply open_ok.
  - by eapply stage_publication_ok.
  - by eapply commit_terminal_ok.
  - by eapply commit_canonical_ok.
  - by eapply terminalize_ok.
  - by eapply dependency_ok.
  - by eapply append_canonical_ok.
Qed.

Lemma reachable_ok conv db : rtc pub_step (new_db conv) db → db_ok db.
Proof.
  intros H. eapply rtc_invariant; [by apply pub_step_ok|exact H|].
  split; cbn; [apply NoDup_nil_2|..]; intros x Hx; by apply not_elem_of_nil in Hx.
Qed.

(** C1 The publication order and the proposal ban hold in every reachable database: a
    stream reaches its terminal U only after the provider outcome P, and is canonically
    accepted C only after U, by an Assistant message in the ledger that carries exactly
    the stream's completed proposals; and no tool proposal of a publication settled as an
    audit ever acquired an execution fact. *)
Theorem publication_safety conv db r :
  rtc pub_step (new_db conv) db → r ∈ streams db →
  (r_settlement r = Some Canonical → is_Some (r_terminal r) ∧
     ∃ a, Assistant a ∈ ledger db ∧ assistant_id a = message_id (r_start r) ∧
       accepts (r_proposals r) (assistant_content a)) ∧
  (is_Some (r_terminal r) →
     ∃ q, find_request (request_id (r_start r)) db = Some q ∧ rq_outcome q = true) ∧
  (∀ p, p ∈ r_proposals r → p_executed p = true →
     p_state p = Completed ∧ r_settlement r ≠ Some Unaccepted ∧
     r_settlement r ≠ Some Incomplete).
Proof.
  intros Hr%reachable_ok Hin. destruct (db_rows _ Hr _ Hin) as [(q & Hq & _ & Ho) ? ? ? Hc ? ? Hp].
  split_and!; [done|intros Ht; exists q; auto|].
  intros p Hpin He. destruct (Hp p Hpin) as [_ Hx]. destruct (Hx He) as [? [-> | ->]]; done.
Qed.


(** ** Frozen facts *)

Record row_le (r r' : StreamRow) : Prop := {
  le_start : r_start r' = r_start r;
  le_terminal : ∀ n, r_terminal r = Some n → r_terminal r' = Some n;
  le_settlement : ∀ x, r_settlement r = Some x → r_settlement r' = Some x;
}.

Definition db_le (db db' : PubDb) : Prop :=
  ∀ s r, read_publication_stream s db = Some r →
    ∃ r', read_publication_stream s db' = Some r' ∧ row_le r r'.

Lemma db_le_same db db' : streams db' = streams db → db_le db db'.
Proof.
  intros E s r Hr. exists r. split; [|done]. unfold read_publication_stream. by rewrite E.
Qed.

Lemma db_le_update db db' s f :
  db_ok db → streams db' = streams (update_stream s f db) → (∀ x, r_start (f x) = r_start x) →
  (∀ r, read_publication_stream s db = Some r → row_le r (f r)) → db_le db db'.
Proof.
  intros Hok E Hf Hle s' r Hr. exists (if bool_decide (s' = s) then f r else r). split.
  - rewrite <-(read_update s f db s' r Hok Hf Hr). unfold read_publication_stream. by rewrite E.
  - case_bool_decide as Es; [|done]. subst s'. by apply Hle.
Qed.

Lemma db_le_trans db1 db2 db3 : db_le db1 db2 → db_le db2 db3 → db_le db1 db3.
Proof.
  intros H1 H2 s r (r2 & Hr2 & [])%H1. destruct (H2 _ _ Hr2) as (r3 & Hr3 & []).
  exists r3. split; [done|]. split; [congruence|auto..].
Qed.

Lemma stage_le frames db r db' :
  db_ok db → stage_frames_tx frames db = Ok (r, db') → db_le db db'.
Proof.
  intros Hok H. destruct (stage_frames_ok _ _ _ _ Hok H) as (_ & _ & _ & n & os & _ & ->).
  by apply (db_le_update _ _ (stream_id (r_start r)) (λ r, staged_row r n frames os)).
Qed.

Lemma terminal_le s frames db db' :
  db_ok db → commit_publication_terminal s frames db = Ok db' → db_le db db'.
Proof.
  intros Hok. unfold commit_publication_terminal.
  intros (? & _ & (r0 & _ & (q & _ & (? & _ & ([r db1] & Hst & H)%bind_ok)%bind_ok)%bind_ok)%bind_ok)%bind_ok.
  revert H. intros ([] & Hid%guard_err_ok%negb_false_iff%bool_decide_eq_true & H)%bind_ok. revert H.
  intros ([] & Ht%guard_err_ok%bool_decide_eq_false & (last & _ & [= <-])%bind_ok)%bind_ok.
  eapply db_le_trans; [by eapply stage_le|].
  destruct (stage_frames_ok _ _ _ _ Hok Hst) as (Hok1 & _ & Hr & n & os & _ & E).
  apply (db_le_update _ _ s (set_terminal (sequence last))); try done.
  intros r1 Hr1. rewrite E, <-Hid in Hr1.
  rewrite (read_update _ (λ r, staged_row r n frames os) _ _ _ Hok (λ _, eq_refl) Hr) in Hr1.
  rewrite bool_decide_eq_true_2 in Hr1 by done. injection Hr1 as <-.
  split; try done. intros k Hk. cbn in Hk. by destruct Ht; rewrite Hk.
Qed.

Lemma accept_le s m e db db' :
  db_ok db → commit_canonical_publication s m e db = Ok db' → db_le db db'.
Proof.
  intros Hok. unfold commit_canonical_publication.
  intros (r & Hr%require_stream_ok & (q & _ & (? & _ & (? & _ & H)%bind_ok)%bind_ok)%bind_ok)%bind_ok.
  revert H. destruct (r_settlement r) eqn:Hs; [done|].
  intros (? & _ & (? & _ & (db1 & ->%append_message_ok & [= <-])%bind_ok)%bind_ok)%bind_ok.
  eapply (db_le_update _ _ s (settle_row Canonical)); try done.
  intros r' Hr'. assert (r' = r) as -> by congruence. split; try done. intros y Hy. congruence.
Qed.

Lemma audit_le s t a db db' :
  db_ok db → terminalize_publication_audit render_json s t db = Ok (a, db') → db_le db db'.
Proof.
  intros Hok H. destruct (terminalize_ok _ _ _ _ _ _ Hok H)
    as (_ & r & Hr & Hs & _ & _ & _ & Est & _).
  eapply (db_le_update _ _ s); [done|exact Est|done|].
  intros r' Hr'. assert (r' = r) as -> by congruence. split; try done. intros y Hy. congruence.
Qed.

Lemma depend_le c att tn tool allow owner db db' :
  db_ok db → record_tool_proposal_dependency c att tn tool allow owner db = Ok db' →
  db_le db db'.
Proof.
  intros Hok [[_ ->]|(r & p & _ & _ & _ & _ & _ & ->)]%dependency_shape; [by apply db_le_same|].
  by apply (db_le_update _ _ (stream_id (r_start r)) (mark_executed c)).
Qed.

Lemma open_le s db db' : open_publication_stream s db = Ok db' → db_le db db'.
Proof.
  unfold open_publication_stream. intros (q & _ & (? & _ & H)%bind_ok)%bind_ok. revert H.
  destruct (read_publication_stream _ db) as [r|].
  { intros (? & _ & H)%bind_ok. destruct (r_settlement r); [done|]. injection H as <-.
    by apply db_le_same. }
  intros [= <-] s' r Hr. exists r. split; [|done].
  unfold read_publication_stream, find_first in *. cbn. rewrite find_map_app. by rewrite Hr.
Qed.

Lemma pub_step_le db db' : pub_step db db' → db_ok db → db_le db db'.
Proof.
  destruct 1 as [| | |s db db' H|fs db db' H|s fs db db' H|s m e db db' H|s t a db db' H
    |c att tn tool allow owner db db' H|m db db' H]; intros Hok; try (by apply db_le_same).
  - by eapply open_le.
  - revert H. intros (? & _ & ([r db1] & H & (? & _ & [= <-])%bind_ok)%bind_ok)%bind_ok.
    by eapply stage_le.
  - by eapply terminal_le.
  - by eapply accept_le.
  - by eapply audit_le.
  - by eapply depend_le.
  - unfold append_canonical in H. apply bind_ok in H as (db1 & H1 & ->%append_message_ok).
    eapply db_le_trans; [|by apply db_le_same].
    destruct m; [injection H1 as <-; by apply db_le_same..|exact (depend_le _ _ _ _ _ _ _ _ Hok H1)].
Qed.

(** Publication facts are frozen: from any reachable database on, a stream keeps the
    request generation it was opened under, its terminal marker once U committed, and its
    settlement once settled; exactly one of acceptance and audit can ever happen. *)
Theorem publication_frozen conv db db' s r :
  rtc pub_step (new_db conv) db → rtc pub_step db db' →
  read_publication_stream s db = Some r →
  ∃ r', read_publication_stream s db' = Some r' ∧ row_le r r'.
Proof.
  intros Hok%reachable_ok Hsteps. revert s r.
  enough (db_ok db' ∧ db_le db db') as [_ H] by exact H. revert Hok.
  induction Hsteps as [db|db1 db2 db3 Hs _ IH]; intros Hok.
  - split; [done|by apply db_le_same].
  - pose proof (pub_step_ok _ _ Hs Hok) as Hok2. destruct (IH Hok2) as [? ?]. split; [done|].
    eapply db_le_trans; [by eapply pub_step_le|done].
Qed.
End reachable.

(** C9 Recovery never gets stuck on a publication: an open stream none of whose proposals
    was executed can always be terminalized; the audit holds exactly the consolidated
    frames, its kind is the one the durable terminal marker implies, and it is what a later
    read returns. *)
Theorem audit_always_possible render_json conv db s r t :
  rtc (pub_step render_json) (new_db conv) db →
  read_publication_stream s db = Some r → r_settlement r = None →
  (∀ p, p ∈ r_proposals r → p_executed p = false) →
  ∃ a db', terminalize_publication_audit render_json s t db = Ok (a, db') ∧
    a_content a = consolidate_audit_content render_json (r_frames r) ∧
    a_kind a = audit_kind (publication_record r) ∧ load_publication_audit s db' = Some a.
Proof.
  intros Hok%reachable_ok Hr Hs Hex. pose proof (read_stream_row _ _ _ Hok Hr) as Hrow.
  destruct (row_request _ _ Hrow) as (q & Hq & Hv & Ho).
  assert (Hown : validate_audit_proposal_ownership (r_proposals r)
                   (consolidate_audit_content render_json (r_frames r)) = Ok ()).
  { destruct (row_open _ _ Hrow Hs) as (_ & _ & Hk). rewrite <-(audit_keys render_json) in Hk.
    apply try_for_each_ok, Forall_forall. intros b Hb.
    destruct b as [| | |i c d n ar f]; try done.
    assert (Hkey : {| k_call := c; k_block := i; k_tool := d; k_name := n; k_complete := f |}
                     ∈ map row_key (r_proposals r)).
    { rewrite Hk. apply list_elem_of_omap. by eexists. }
    apply list_elem_of_In, in_map_iff in Hkey as (p & Ep & Hp%list_elem_of_In).
    destruct (find_first (λ p, bool_decide (p_call p = c)) (r_proposals r)) as [p'|] eqn:Ef.
    - apply find_first_Some in Ef as [Hp' Hc%bool_decide_eq_true].
      assert (p' = p) as ->
        by (eapply unique_call; [apply Hrow|done..|]; injection Ep; congruence).
      injection Ep as E1 E2 E3 E4 E5. unfold is_completed in E5. cbn.
      rewrite E2, N.eqb_refl, (bool_decide_eq_true_2 _ E3), (bool_decide_eq_true_2 _ E4). cbn.
      destruct f; [apply bool_decide_eq_true in E5 as ->|apply bool_decide_eq_false in E5];
        by destruct (p_state p).
    - rewrite find_first_None in Ef. specialize (Ef p Hp). apply bool_decide_eq_false in Ef.
      injection Ep; congruence. }
  unfold terminalize_publication_audit, stream_request, require_started_request.
  rewrite (proj2 (require_stream_ok s db r) Hr). simpl.
  unfold find_request in Hq. rewrite Hq. cbn. rewrite Hv. cbn. rewrite Hs.
  assert (Hout : bool_decide (is_Some (r_terminal r)) && negb (rq_outcome q) = false).
  { case_bool_decide as Ht; cbn; [by rewrite Ho|done]. }
  rewrite Hout. cbn.
  assert (Hf : find_first p_executed (r_proposals r) = None) by (by apply find_first_None).
  rewrite Hf, Hown. cbn. eexists _, _. split; [done|]. cbn. split_and!; [done..|].
  unfold load_publication_audit, find_first in *. cbn. rewrite find_map_app.
  assert (Hnone : find_map (λ x, if bool_decide (a_stream_id x = s) then Some x else None)
                    (audits db) = None).
  { apply find_map_None. intros a Ha. cbn. destruct (decide (a_stream_id a = s)) as [Ea|Ea]; [|by rewrite bool_decide_eq_false_2].
    destruct (row_audit _ _ Hrow a Ha) as [E _]; [|congruence].
    by rewrite (read_stream_id _ _ _ Hr). }
  rewrite Hnone. cbn. by rewrite bool_decide_eq_true_2.
Qed.

(** ** A concrete stream

    A request starts, its stream opens, one proposal is staged, the request completes, the
    terminal commits, and the publication is either accepted or audited. *)

Definition demo_request : StartedRequest :=
  {| rq_id := lit "r"; rq_attempt := lit "a"; rq_turn := lit "1"; rq_message := lit "m";
     rq_outcome := false |}.

Definition demo_start : PublicationStreamStart :=
  {| stream_id := for_request (lit "a") (lit "m"); attempt_id := lit "a"; turn_id := lit "1";
     request_id := lit "r"; message_id := lit "m" |}.

Definition demo_call : ToolCall :=
  {| call_id := lit "c"; call_tool_id := lit "t"; call_name := lit "bash"; call_arguments := Null |}.

Definition demo_frame (n : N) (p : PublicationPayload) : PublicationFrame :=
  {| f_stream_id := stream_id demo_start; f_message_id := lit "m"; sequence := n; payload := p |}.

Definition or_db (conv : str) (r : R PubDb) : PubDb :=
  match r with Ok db => db | Err _ => new_db conv end.

Definition demo_db0 := set_requests (λ qs, qs ++ [demo_request]) (new_db (lit "k")).
Definition demo_db1 := or_db (lit "k") (open_publication_stream demo_start demo_db0).
Definition demo_frames : list PublicationFrame :=
  [demo_frame 0 (ProposedToolCallStarted 0
     {| start_id := lit "c"; start_tool_id := lit "t"; start_name := lit "bash" |});
   demo_frame 1 (ProposedToolCallCompleted 0 demo_call)].
Definition demo_db2 := or_db (lit "k") (stage_publication_frames demo_frames demo_db1).
Definition demo_db3 := set_requests (map (complete_request (lit "r"))) demo_db2.
Definition demo_db4 := or_db (lit "k")
  (commit_publication_terminal (stream_id demo_start) [demo_frame 2 TerminalOnly] demo_db3).

Definition demo_message : MessageBlock :=
  Assistant {| assistant_id := lit "m"; assistant_content := [AToolCall demo_call] |}.

Definition demo_event : CommitEvent :=
  {| e_conversation := lit "k"; e_attempt := Some (lit "a"); e_turn := Some (lit "1");
     e_committed := Some (lit "m") |}.

Definition demo_accepted := or_db (lit "k")
  (commit_canonical_publication (stream_id demo_start) demo_message demo_event demo_db4).
Definition demo_executed := or_db (lit "k")
  (record_tool_proposal_dependency (lit "c") (Some (lit "a")) (Some (lit "1")) (Some (lit "t"))
     false None demo_accepted).

Definition demo_audited : option (PublicationAudit * PubDb) :=
  match terminalize_publication_audit (λ _, []) (stream_id demo_start) 0 demo_db4 with
  | Ok x => Some x
  | Err _ => None
  end.

Definition demo_row (db : PubDb) : StreamRow :=
  default {| r_start := demo_start; r_next := 0; r_terminal := None; r_settlement := None;
             r_frames := []; r_proposals := [] |}
    (read_publication_stream (stream_id demo_start) db).

Lemma demo_reach4 : rtc (pub_step (λ _, [])) (new_db (lit "k")) demo_db4.
Proof.
  eapply rtc_l; [apply (step_request _ demo_request); by vm_compute|].
  eapply rtc_l; [apply (step_open _ demo_start demo_db0 demo_db1); by vm_compute|].
  eapply rtc_l; [apply (step_stage _ demo_frames demo_db1 demo_db2); by vm_compute|].
  eapply rtc_l; [apply (step_outcome _ (lit "r"))|].
  apply rtc_once, (step_terminal _ (stream_id demo_start) [demo_frame 2 TerminalOnly] demo_db3 demo_db4).
  by vm_compute.
Qed.

Lemma demo_reach : rtc (pub_step (λ _, [])) (new_db (lit "k")) demo_executed.
Proof.
  transitivity demo_db4; [exact demo_reach4|].
  eapply rtc_l; [apply (step_accept _ (stream_id demo_start) demo_message demo_event demo_db4
    demo_accepted); by vm_compute|].
  apply rtc_once, (step_depend _ (lit "c") (Some (lit "a")) (Some (lit "1")) (Some (lit "t")) false
    None demo_accepted demo_executed). by vm_compute.
Qed.

Example demo_marked : p_executed <$> r_proposals (demo_row demo_executed) = [true].
Proof. by vm_compute. Qed.

Lemma publication_safety_witness :
  is_Some (r_terminal (demo_row demo_executed)) ∧
  ∀ p, p ∈ r_proposals (demo_row demo_executed) → p_executed p = true → p_state p = Completed.
Proof.
  destruct (publication_safety (λ _, []) (lit "k") demo_executed (demo_row demo_executed))
    as (H1 & _ & H3).
  - exact demo_reach.
  - apply list_elem_of_lookup. exists 0. by vm_compute.
  - split; [by apply H1; vm_compute|]. intros p Hp He. by destruct (H3 p Hp He).
Defined.

Definition demo_audit : PublicationAudit :=
  match demo_audited with
  | Some (a, _) => a
  | None => {| a_stream_id := []; a_attempt_id := []; a_turn_id := []; a_request_id := [];
               a_message_id := []; a_kind := AuditIncomplete; a_content := []; settled_at := 0 |}
  end.

Definition demo_audit_db : PubDb :=
  match demo_audited with Some (_, db) => db | None => new_db (lit "k") end.

Lemma demo_audit_step :
  terminalize_publication_audit (λ _, []) (stream_id demo_start) 0 demo_db4
    = Ok (demo_audit, demo_audit_db).
Proof. by vm_compute. Qed.

Lemma demo_reach_audit : rtc (pub_step (λ _, [])) (new_db (lit "k")) demo_audit_db.
Proof.
  transitivity demo_db4; [exact demo_reach4|].
  eapply rtc_once, step_audit, demo_audit_step.
Qed.


Lemma publication_frozen_witness :
  ∃ r', read_publication_stream (stream_id demo_start) demo_executed = Some r' ∧
    row_le (demo_row demo_db4) r'.
Proof.
  apply (publication_frozen (λ _, []) (lit "k") demo_db4 demo_executed).
  - exact demo_reach4.
  - eapply rtc_l; [apply (step_accept _ (stream_id demo_start) demo_message demo_event demo_db4
      demo_accepted); by vm_compute|].
    apply rtc_once, (step_depend _ (lit "c") (Some (lit "a")) (Some (lit "1")) (Some (lit "t")) false
      None demo_accepted demo_executed). by vm_compute.
  - by vm_compute.
Defined.

Lemma audit_always_possible_witness :
  ∃ a db', terminalize_publication_audit (λ _, []) (stream_id demo_start) 7 demo_db4 = Ok (a, db') ∧
    a_kind a = AuditUnaccepted ∧ load_publication_audit (stream_id demo_start) db' = Some a.
Proof.
  destruct (audit_always_possible (λ _, []) (lit "k") demo_db4 (stream_id demo_start)
    (demo_row demo_db4) 7) as (a & db' & H & _ & Hk & Hl).
  - exact demo_reach4.
  - by vm_compute.
  - by vm_compute.
  - intros p Hp. assert (Hrow : r_proposals (demo_row demo_db4) =
      [{| p_call := lit "c"; p_block := 0; p_tool := lit "t"; p_name := lit "bash";
          p_state := Completed; p_executed := false; p_settlement := None |}]) by (by vm_compute).
    rewrite Hrow in Hp. by apply list_elem_of_singleton in Hp as ->.
  - exists a, db'. split_and!; [exact H|exact Hk|exact Hl].
Defined.
