(* ===== verification/Assembly.v ===== *)
(** Canonical model stream assembly ([src/src/model/assembly.rs]): one provider stream of
    [ModelEvent]s ([src/src/model/event.rs]) becomes one ordered Assistant content, or an
    explicit contract violation.  The publication payload of an event
    ([src/src/agent/execution/publication.rs]) is here too, so that what the stream
    publishes can be compared with what it assembles.

    A [RuntimeError::ContractViolation] is represented by its reason. *)

From S2P Require Import Prelude Text Json Message Publication PublicationStore.
From stdpp Require Import options.

(** ** Events *)

Inductive ModelFinishReason :=
| Stop | ToolCalls | Length | ContentFilter | FRefusal | Other (reason : str).

#[export] Instance ModelFinishReason_eq_dec : EqDecision ModelFinishReason.
Proof. solve_decision. Defined.

Record UsageDetails := { reasoning_tokens : option N; cached_input_tokens : option N }.

Record ModelUsage := {
  input_tokens : option N; output_tokens : option N; total_tokens : option N;
  details : option UsageDetails }.

Inductive ModelErrorKind :=
| InvalidRequest | Authentication | RateLimit | Timeout | Transport | ProviderError
| ContextWindowExceeded | ECancelled | Unsupported | MalformedToolProposal
| GenerationDegenerated | GenerationBudgetExceeded.

(** The class and message of a [ModelError]; its retry and diagnostic fields are not read
    here. *)
Record ModelError := { error_kind : ModelErrorKind; error_message : str }.

Inductive ModelEvent :=
| EStarted
| TextDelta (block_index : N) (text : str)
| ReasoningDelta (block_index : N) (text : str)
| RefusalDelta (block_index : N) (text : str)
| ToolCallStarted (block_index : N) (call : ToolCallStart)
| ToolCallArgumentsDelta (block_index : N) (call_id : ToolCallId) (arguments_delta : str)
| ToolCallCompleted (block_index : N) (call : ToolCall)
| UsageUpdate (usage : ModelUsage)
| ContinuationState (block_index : N) (state : ProviderContinuationState)
| ECompleted (finish_reason : ModelFinishReason) (usage : option ModelUsage)
| EFailed (error : ModelError).

(** [publication_payload] *)
Definition publication_payload (e : ModelEvent) : option PublicationPayload :=
  match e with
  | TextDelta i t => Some (TextSuffix i t)
  | ReasoningDelta i t => Some (ReasoningSuffix i t)
  | RefusalDelta i t => Some (RefusalSuffix i t)
  | ToolCallStarted i call => Some (ProposedToolCallStarted i call)
  | ToolCallArgumentsDelta i c d => Some (ProposedToolCallArgumentsSuffix i c d)
  | ToolCallCompleted i call => Some (ProposedToolCallCompleted i call)
  | EStarted | UsageUpdate _ | ContinuationState _ _ | ECompleted _ _ | EFailed _ => None
  end.

(** ** The assembler *)

Inductive Violation :=
| AfterTerminal | DuplicateStarted | CompletedBeforeStarted | ContentBeforeStarted
| SkippedBlock (i : N) | ForeignBlock (i : N)
| DuplicateStart (c : ToolCallId) | StartForeignBlock (i : N)
| ArgumentsUnknown (c : ToolCallId) | ArgumentsAfterCompletion (c : ToolCallId)
| ArgumentsMismatch (c : ToolCallId)
| CompletionUnknown (c : ToolCallId) | DuplicateCompletion (c : ToolCallId)
| CompletionMismatch (c : ToolCallId)
| ContinuationSkipped (i : N) | ContinuationForeign (i : N)
| TextOnlyTools
| FailedStream | NoTerminalEvent | NeverCompleted (c : ToolCallId) | MissingBlock
| NoToolCall | UnexpectedToolCalls (r : ModelFinishReason).

Abbreviation V := (result Violation).

Record PendingCall := { pc_block : N; pc_completed : bool }.

Inductive AssemblyTerminal :=
| TCompleted (finish_reason : ModelFinishReason) (usage : option ModelUsage)
| TFailed.

Record ModelEventAssembler := {
  blocks : list (option AssistantContentBlock);
  tool_calls : list (ToolCallId * PendingCall);
  completed_calls : list (N * ToolCall);
  continuation : option (N * ProviderContinuationState);
  latest_usage : option ModelUsage;
  started : bool;
  terminal : option AssemblyTerminal;
}.

(** [ModelEventAssembler::new] *)
Definition assembler_new : ModelEventAssembler :=
  {| blocks := []; tool_calls := []; completed_calls := []; continuation := None;
     latest_usage := None; started := false; terminal := None |}.

Inductive BlockKind := BText | BReasoning | BRefusal.

(** [BlockKind::placeholder] *)
Definition placeholder (k : BlockKind) : AssistantContentBlock :=
  match k with
  | BText => Message.AText []
  | BReasoning => Message.AReasoning {| reasoning_text := None; provider_state := None |}
  | BRefusal => Message.ARefusal []
  end.

(** [BlockKind::matches] *)
Definition kind_matches (k : BlockKind) (b : AssistantContentBlock) : bool :=
  match k, b with
  | BText, Message.AText _ | BReasoning, Message.AReasoning _ | BRefusal, Message.ARefusal _ => true
  | _, _ => false
  end.

Definition set_blocks (bs : list (option AssistantContentBlock)) (a : ModelEventAssembler)
    : ModelEventAssembler :=
  {| blocks := bs; tool_calls := tool_calls a; completed_calls := completed_calls a;
     continuation := continuation a; latest_usage := latest_usage a; started := started a;
     terminal := terminal a |}.

(** [block_at], then the change [f] of the block it returns. *)
Definition with_block (i : N) (k : BlockKind) (f : AssistantContentBlock → AssistantContentBlock)
    (a : ModelEventAssembler) : V ModelEventAssembler :=
  let index := N.to_nat i in
  _ ← guard_err (length (blocks a) <? index)%nat (SkippedBlock i);
  let bs := if (index =? length (blocks a))%nat then blocks a ++ [Some (placeholder k)]
            else blocks a in
  match bs !! index with
  | Some (Some existing) =>
      _ ← guard_err (negb (kind_matches k existing)) (ForeignBlock i);
      Ok (set_blocks (<[index := Some (f existing)]> bs) a)
  | _ => Err (ForeignBlock i)
  end.

(** The text a delta appends to: [push_text], [push_reasoning] and [push_refusal]. *)
Definition push_str (text : str) (b : AssistantContentBlock) : AssistantContentBlock :=
  match b with
  | Message.AText t => Message.AText (t ++ text)
  | Message.AReasoning r =>
      Message.AReasoning {| reasoning_text := Some (default [] (reasoning_text r) ++ text);
                            provider_state := provider_state r |}
  | Message.ARefusal t => Message.ARefusal (t ++ text)
  | b => b
  end.

(** [register_tool_call] *)
Definition register_tool_call (i : N) (call : ToolCallStart) (a : ModelEventAssembler)
    : V ModelEventAssembler :=
  _ ← guard_err (bool_decide (is_Some (map_get (start_id call) (tool_calls a))))
        (DuplicateStart (start_id call));
  _ ← guard_err (negb (N.to_nat i =? length (blocks a))%nat) (StartForeignBlock i);
  Ok {| blocks := blocks a ++ [Some (AToolCall
          {| call_id := start_id call; call_tool_id := start_tool_id call;
             call_name := start_name call; call_arguments := Object [] |})];
        tool_calls := map_insert (start_id call) {| pc_block := i; pc_completed := false |}
                        (tool_calls a);
        completed_calls := completed_calls a; continuation := continuation a;
        latest_usage := latest_usage a; started := started a; terminal := terminal a |}.

(** [validate_arguments_delta] *)
Definition validate_arguments_delta (i : N) (c : ToolCallId) (a : ModelEventAssembler)
    : V ModelEventAssembler :=
  p ← ok_or (ArgumentsUnknown c) (map_get c (tool_calls a));
  _ ← guard_err (pc_completed p) (ArgumentsAfterCompletion c);
  _ ← guard_err (negb (pc_block p =? i)%N) (ArgumentsMismatch c);
  Ok a.

(** [complete_tool_call] *)
Definition complete_tool_call (i : N) (call : ToolCall) (a : ModelEventAssembler)
    : V ModelEventAssembler :=
  p ← ok_or (CompletionUnknown (call_id call)) (map_get (call_id call) (tool_calls a));
  _ ← guard_err (pc_completed p) (DuplicateCompletion (call_id call));
  _ ← guard_err (negb (pc_block p =? i)%N) (CompletionMismatch (call_id call));
  Ok {| blocks := <[N.to_nat i := Some (AToolCall call)]> (blocks a);
        tool_calls := map_insert (call_id call) {| pc_block := i; pc_completed := true |}
                        (tool_calls a);
        completed_calls := completed_calls a ++ [(i, call)]; continuation := continuation a;
        latest_usage := latest_usage a; started := started a; terminal := terminal a |}.

Definition set_provider_state (s : ProviderContinuationState) (b : AssistantContentBlock)
    : AssistantContentBlock :=
  match b with
  | Message.AReasoning r =>
      Message.AReasoning {| reasoning_text := reasoning_text r; provider_state := Some s |}
  | b => b
  end.

(** [attach_continuation] *)
Definition attach_continuation (i : N) (s : ProviderContinuationState) (a : ModelEventAssembler)
    : V ModelEventAssembler :=
  let index := N.to_nat i in
  _ ← guard_err (length (blocks a) <? index)%nat (ContinuationSkipped i);
  let bs := if (index =? length (blocks a))%nat then blocks a ++ [Some (placeholder BReasoning)]
            else blocks a in
  match bs !! index with
  | Some (Some (Message.AReasoning r)) =>
      Ok {| blocks := <[index := Some (set_provider_state s (Message.AReasoning r))]> bs;
            tool_calls := tool_calls a; completed_calls := completed_calls a;
            continuation :=
              match continuation a with
              | Some (current, old) => if (current <=? i)%N then Some (i, s) else Some (current, old)
              | None => Some (i, s)
              end;
            latest_usage := latest_usage a; started := started a; terminal := terminal a |}
  | _ => Err (ContinuationForeign i)
  end.

Definition set_terminal (t : AssemblyTerminal) (a : ModelEventAssembler) : ModelEventAssembler :=
  {| blocks := blocks a; tool_calls := tool_calls a; completed_calls := completed_calls a;
     continuation := continuation a; latest_usage := latest_usage a; started := started a;
     terminal := Some t |}.

Definition set_started (a : ModelEventAssembler) : ModelEventAssembler :=
  {| blocks := blocks a; tool_calls := tool_calls a; completed_calls := completed_calls a;
     continuation := continuation a; latest_usage := latest_usage a; started := true;
     terminal := terminal a |}.

Definition set_usage (u : ModelUsage) (a : ModelEventAssembler) : ModelEventAssembler :=
  {| blocks := blocks a; tool_calls := tool_calls a; completed_calls := completed_calls a;
     continuation := continuation a; latest_usage := Some u; started := started a;
     terminal := terminal a |}.

(** The inner match of [push_inner]. *)
Definition push_content (retain_reasoning : bool) (e : ModelEvent) (a : ModelEventAssembler)
    : V ModelEventAssembler :=
  match e with
  | TextDelta i t => with_block i BText (push_str t) a
  | ReasoningDelta i t =>
      if retain_reasoning then with_block i BReasoning (push_str t) a
      else with_block i BReasoning (λ b, b) a
  | RefusalDelta i t => with_block i BRefusal (push_str t) a
  | ToolCallStarted i call => register_tool_call i call a
  | ToolCallArgumentsDelta i c _ => validate_arguments_delta i c a
  | ToolCallCompleted i call => complete_tool_call i call a
  | UsageUpdate u => Ok (set_usage u a)
  | ContinuationState i s =>
      if retain_reasoning then attach_continuation i s a
      else with_block i BReasoning (λ b, b) a
  | EStarted | EFailed _ | ECompleted _ _ => Ok a
  end.

(** [push_inner] *)
Definition push_inner (e : ModelEvent) (retain_reasoning : bool) (a : ModelEventAssembler)
    : V ModelEventAssembler :=
  _ ← guard_err (bool_decide (is_Some (terminal a))) AfterTerminal;
  match e with
  | EStarted => _ ← guard_err (started a) DuplicateStarted; Ok (set_started a)
  | EFailed _ => Ok (set_terminal TFailed a)
  | ECompleted r u =>
      _ ← guard_err (negb (started a)) CompletedBeforeStarted;
      Ok (set_terminal (TCompleted r u) a)
  | e =>
      _ ← guard_err (negb (started a)) ContentBeforeStarted;
      push_content retain_reasoning e a
  end.

(** [ModelEventAssembler::push] *)
Definition assembler_push (e : ModelEvent) : ModelEventAssembler → V ModelEventAssembler :=
  push_inner e true.

(** [ModelEventAssembler::push_text_only] *)
Definition push_text_only (e : ModelEvent) (a : ModelEventAssembler) : V ModelEventAssembler :=
  match e with
  | ToolCallStarted _ _ | ToolCallArgumentsDelta _ _ _ | ToolCallCompleted _ _ => Err TextOnlyTools
  | e => push_inner e false a
  end.

(** A whole stream, stopped by the first violation. *)
Fixpoint push_all (es : list ModelEvent) (a : ModelEventAssembler) : V ModelEventAssembler :=
  match es with
  | [] => Ok a
  | e :: es => a ← assembler_push e a; push_all es a
  end.

Record AssembledTurn := {
  t_finish_reason : ModelFinishReason;
  t_content : list AssistantContentBlock;
  t_tool_calls : list ToolCall;
  t_continuation : option ProviderContinuationState;
  t_usage : option ModelUsage;
}.

(** [completed_calls.sort_by_key(|(block_index, _)| *block_index)], a stable sort *)
Fixpoint insert_by_key (x : N * ToolCall) (l : list (N * ToolCall)) : list (N * ToolCall) :=
  match l with
  | [] => [x]
  | y :: l => if (x.1 <? y.1)%N then x :: y :: l else y :: insert_by_key x l
  end.

Definition sort_by_key (l : list (N * ToolCall)) : list (N * ToolCall) :=
  foldl (λ sorted x, insert_by_key x sorted) [] l.

Definition is_refusal (b : AssistantContentBlock) : bool :=
  match b with Message.ARefusal _ => true | _ => false end.

(** The loop over the blocks in [finish]. *)
Fixpoint finish_content (refusal : bool) (bs : list (option AssistantContentBlock))
    : V (list AssistantContentBlock) :=
  match bs with
  | [] => Ok []
  | None :: _ => Err MissingBlock
  | Some b :: bs =>
      rest ← finish_content refusal bs;
      Ok (if negb refusal || is_refusal b then b :: rest else rest)
  end.

(** [ModelEventAssembler::finish] *)
Definition finish (a : ModelEventAssembler) : V AssembledTurn :=
  match terminal a with
  | None => Err NoTerminalEvent
  | Some TFailed => Err FailedStream
  | Some (TCompleted reason terminal_usage) =>
      _ ← try_for_each (λ '(c, p), guard_err (negb (pc_completed p)) (NeverCompleted c))
            (tool_calls a);
      content ← finish_content (bool_decide (reason = FRefusal)) (blocks a);
      let calls := (sort_by_key (completed_calls a)).*2 in
      let has_tool_calls := negb (bool_decide (calls = [])) in
      _ ← guard_err (bool_decide (reason = ToolCalls) && negb has_tool_calls) NoToolCall;
      _ ← guard_err (negb (bool_decide (reason = ToolCalls)) && has_tool_calls)
            (UnexpectedToolCalls reason);
      Ok {| t_finish_reason := reason; t_content := content; t_tool_calls := calls;
            t_continuation := (continuation a) ≫= λ x, Some x.2;
            t_usage := match terminal_usage with Some u => Some u | None => latest_usage a end |}
  end.

(** ** The invariant of the assembler *)

Definition tool_at (bs : list (option AssistantContentBlock)) (i : nat) (call : ToolCall) : Prop :=
  bs !! i = Some (Some (AToolCall call)).

Record asm_ok (a : ModelEventAssembler) : Prop := {
  asm_some : ∀ i, blocks a !! i ≠ Some None;
  asm_pending : ∀ c p, map_get c (tool_calls a) = Some p →
    ∃ call, tool_at (blocks a) (N.to_nat (pc_block p)) call ∧ call_id call = c ∧
      (pc_completed p = true → (pc_block p, call) ∈ completed_calls a);
  asm_block : ∀ i call, tool_at (blocks a) i call →
    ∃ p, map_get (call_id call) (tool_calls a) = Some p ∧ pc_block p = N.of_nat i;
  asm_completed : ∀ i call, (i, call) ∈ completed_calls a →
    tool_at (blocks a) (N.to_nat i) call ∧
    ∃ p, map_get (call_id call) (tool_calls a) = Some p ∧ pc_completed p = true;
  asm_nodup : NoDup (completed_calls a).*1;
}.

Lemma asm_new_ok : asm_ok assembler_new.
Proof.
  split; cbn; try done.
  - intros i call H. by apply not_elem_of_nil in H.
  - apply NoDup_nil_2.
Qed.

(** A change that touches no tool call. *)
Lemma asm_same_tools a a' :
  asm_ok a → (∀ i call, tool_at (blocks a') i call ↔ tool_at (blocks a) i call) →
  (∀ i, blocks a' !! i ≠ Some None) → tool_calls a' = tool_calls a →
  completed_calls a' = completed_calls a → asm_ok a'.
Proof.
  intros [_ Hp Hb Hc Hn] Ht Hs Htc Hcc. split; rewrite ?Htc, ?Hcc; try done.
  - intros c p Hg. destruct (Hp c p Hg) as (call & Hat & ?). exists call. by rewrite Ht.
  - intros i call Hat. apply Hb. by apply Ht.
  - intros i call Hin. rewrite Ht. by apply Hc.
Qed.

Definition non_tool (b : AssistantContentBlock) : Prop := ∀ call, b ≠ AToolCall call.

(** The blocks [with_block] and [attach_continuation] work on: a placeholder is appended at
    the next index, or nothing. *)
Definition extended (bs : list (option AssistantContentBlock)) (index : nat)
    (b : AssistantContentBlock) : list (option AssistantContentBlock) :=
  if (index =? length bs)%nat then bs ++ [Some b] else bs.

Lemma extended_tools bs index b i call :
  non_tool b → tool_at (extended bs index b) i call ↔ tool_at bs i call.
Proof.
  intros Hb. unfold extended, tool_at. destruct (_ =? _)%nat; [|done]. split.
  - intros [?|[_ H]]%lookup_app_Some; [done|]. apply list_lookup_singleton_Some in H as [_ [= H]].
    by destruct (Hb call).
  - intros H. by apply lookup_app_l_Some.
Qed.

Lemma extended_some bs index b :
  (∀ i : nat, bs !! i ≠ Some None) → ∀ i, extended bs index b !! i ≠ Some None.
Proof.
  intros Hs i. unfold extended. destruct (_ =? _)%nat; [|done].
  intros [?|[_ H]]%lookup_app_Some; [by eapply Hs|]. by apply list_lookup_singleton_Some in H as [_ ?].
Qed.

Lemma insert_tools bs index b b' i call :
  bs !! index = Some (Some b) → non_tool b → non_tool b' →
  tool_at (<[index := Some b']> bs) i call ↔ tool_at bs i call.
Proof.
  intros Hb Hn Hn'. unfold tool_at. destruct (decide (i = index)) as [->|Hne].
  - rewrite list_lookup_insert_eq by (by eapply lookup_lt_Some). rewrite Hb.
    split; intros [= H]; [by destruct (Hn' call)|by destruct (Hn call)].
  - by rewrite list_lookup_insert_ne.
Qed.

Lemma insert_some (bs : list (option AssistantContentBlock)) (index : nat) b :
  (∀ i : nat, bs !! i ≠ Some None) → ∀ i : nat, <[index := Some b]> bs !! i ≠ Some None.
Proof. intros Hs i [(_ & ? & _)|[_ ?]]%list_lookup_insert_Some; [done|by eapply Hs]. Qed.

Lemma kind_non_tool k b : kind_matches k b = true → non_tool b.
Proof. by destruct k, b. Qed.

Lemma placeholder_non_tool k : non_tool (placeholder k).
Proof. by destruct k. Qed.

Lemma with_block_shape i k f a a' :
  with_block i k f a = Ok a' →
  ∃ b, extended (blocks a) (N.to_nat i) (placeholder k) !! N.to_nat i = Some (Some b) ∧
    kind_matches k b = true ∧
    a' = set_blocks (<[N.to_nat i := Some (f b)]> (extended (blocks a) (N.to_nat i) (placeholder k))) a.
Proof.
  unfold with_block. fold (extended (blocks a) (N.to_nat i) (placeholder k)).
  intros (? & _ & H)%bind_ok. destruct (extended _ _ _ !! _) as [[b|]|]; try done.
  apply bind_ok in H as ([] & Hk%guard_err_ok%negb_false_iff & [= <-]). by exists b.
Qed.

Lemma with_block_ok i k f a a' :
  (∀ b, non_tool b → non_tool (f b)) → with_block i k f a = Ok a' → asm_ok a → asm_ok a'.
Proof.
  intros Hf (b & Hb & Hk & ->)%with_block_shape Hok. apply kind_non_tool in Hk.
  apply (asm_same_tools a); try done; cbn.
  - intros j call. rewrite (insert_tools _ _ b) by auto.
    apply extended_tools, placeholder_non_tool.
  - apply insert_some, extended_some, Hok.
Qed.

Lemma push_str_non_tool t b : non_tool b → non_tool (push_str t b).
Proof. intros Hb call. destruct b; cbn; done. Qed.

Lemma attach_ok i s a a' : attach_continuation i s a = Ok a' → asm_ok a → asm_ok a'.
Proof.
  unfold attach_continuation. fold (extended (blocks a) (N.to_nat i) (placeholder BReasoning)).
  intros (? & _ & H)%bind_ok Hok. revert H.
  destruct (extended _ _ _ !! _) as [[[]|]|] eqn:E; try done. intros [= <-].
  apply (asm_same_tools a); try done; cbn.
  - intros j call. erewrite insert_tools by done.
    apply extended_tools, (placeholder_non_tool BReasoning).
  - apply insert_some, extended_some, Hok.
Qed.

Lemma register_ok i call a a' : register_tool_call i call a = Ok a' → asm_ok a → asm_ok a'.
Proof.
  intros ([] & Hn%guard_err_ok%bool_decide_eq_false%eq_None_not_Some &
    ([] & Hi%guard_err_ok%negb_false_iff%Nat.eqb_eq & [= <-])%bind_ok)%bind_ok [Hs Hp Hb Hc Hnd].
  assert (Hold : ∀ j x, tool_at (blocks a) j x → ∀ k, tool_at (blocks a ++ k) j x)
    by (intros j x Hx k; by apply lookup_app_l_Some).
  split; cbn; try done.
  - intros j [?|[_ H]]%lookup_app_Some; [by eapply Hs|].
    by apply list_lookup_singleton_Some in H as [_ ?].
  - intros c p. rewrite map_get_insert. case_decide as Hc'.
    + intros [= <-]. cbn. eexists. split.
      * unfold tool_at. rewrite Hi, lookup_app_r by lia. by rewrite Nat.sub_diag.
      * by subst.
    + intros (x & Hx & <- & Hd)%Hp. exists x. auto.
  - intros j x [Hx|[Hle Hx]]%lookup_app_Some; rewrite map_get_insert.
    + destruct (Hb j x Hx) as (p & Hg & ?). exists p.
      rewrite decide_False; [done|]. congruence.
    + apply list_lookup_singleton_Some in Hx as [Hx [= <-]]. cbn.
      rewrite decide_True by done. eexists. split; [done|]. cbn. lia.
  - intros j x Hin. destruct (Hc j x Hin) as (Hx & p & Hg & ?). split; [by apply Hold|].
    exists p. rewrite map_get_insert, decide_False; [done|]. congruence.
Qed.

Lemma complete_ok i call a a' : complete_tool_call i call a = Ok a' → asm_ok a → asm_ok a'.
Proof.
  intros (p & Hg%ok_or_ok & ([] & Hpc%guard_err_ok & ([] &
    Hi%guard_err_ok%negb_false_iff%N.eqb_eq & [= <-])%bind_ok)%bind_ok)%bind_ok [Hs Hp Hb Hc Hnd].
  subst i. destruct (Hp _ _ Hg) as (call0 & Hat & Hid & _).
  pose proof (lookup_lt_Some _ _ _ Hat) as Hlt.
  assert (Hother : ∀ j x, j ≠ N.to_nat (pc_block p) →
    tool_at (<[N.to_nat (pc_block p) := Some (AToolCall call)]> (blocks a)) j x ↔ tool_at (blocks a) j x).
  { intros j x Hne. unfold tool_at. by rewrite list_lookup_insert_ne. }
  assert (Hfresh : ∀ j x, (j, x) ∈ completed_calls a → j ≠ pc_block p).
  { intros j x Hin ->. destruct (Hc _ _ Hin) as (Hx & q & Hq & Hd).
    unfold tool_at in *. rewrite Hx in Hat. injection Hat as ->. congruence. }
  split; cbn.
  - by apply insert_some.
  - intros c q. rewrite map_get_insert. case_decide as Hc'.
    + intros [= <-]. cbn. exists call. split; [|split; [done|set_solver]].
      unfold tool_at. by rewrite list_lookup_insert_eq.
    + intros Hq. destruct (Hp _ _ Hq) as (x & Hx & <- & Hd). exists x.
      split; [|split; [done|intros H; apply elem_of_app; auto]].
      apply Hother; [|done]. intros E. unfold tool_at in *. rewrite E, Hat in Hx. congruence.
  - intros j x Hx. rewrite map_get_insert. destruct (decide (j = N.to_nat (pc_block p))) as [->|Hne].
    + unfold tool_at in Hx. rewrite list_lookup_insert_eq in Hx by done. injection Hx as <-.
      rewrite decide_True by done. eexists. split; [done|]. cbn. lia.
    + apply Hother in Hx; [|done]. destruct (Hb j x Hx) as (q & Hq & Hj).
      case_decide as E; [|by exists q]. rewrite E, Hg in Hq. injection Hq as <-. lia.
  - intros j x [Hin|[= -> ->]%list_elem_of_singleton]%elem_of_app.
    + pose proof (Hfresh j x Hin). destruct (Hc _ _ Hin) as (Hx & q & Hq & Hd).
      split; [apply Hother; [lia|done]|]. rewrite map_get_insert. case_decide; eexists; done.
    + split; [unfold tool_at; by rewrite list_lookup_insert_eq|].
      rewrite map_get_insert, decide_True by done. by eexists.
  - rewrite fmap_app. apply NoDup_app. split_and!; [done| |apply NoDup_singleton].
    intros j Hj Hj'%list_elem_of_singleton. apply list_elem_of_fmap in Hj as ([k x] & -> & Hin).
    by apply (Hfresh _ _ Hin).
Qed.

Lemma push_ok e a a' : assembler_push e a = Ok a' → asm_ok a → asm_ok a'.
Proof.
  unfold assembler_push, push_inner. intros (? & _ & H)%bind_ok Hok. revert H.
  assert (Hsame : ∀ a1, blocks a1 = blocks a → tool_calls a1 = tool_calls a →
    completed_calls a1 = completed_calls a → asm_ok a1).
  { intros a1 Hb Ht Hc. apply (asm_same_tools a); rewrite ?Hb; try done. apply Hok. }
  destruct e; intros H; try (apply bind_ok in H as (? & _ & H)); cbn [push_content] in H;
    try (injection H as <-; by apply Hsame).
  - by eapply with_block_ok, Hok; [apply push_str_non_tool|].
  - by eapply with_block_ok, Hok; [apply push_str_non_tool|].
  - by eapply with_block_ok, Hok; [apply push_str_non_tool|].
  - by eapply register_ok.
  - revert H. by intros (? & _ & (? & _ & (? & _ & [= <-])%bind_ok)%bind_ok)%bind_ok.
  - by eapply complete_ok.
  - by eapply attach_ok.
Qed.

Lemma push_all_ok es a a' : push_all es a = Ok a' → asm_ok a → asm_ok a'.
Proof.
  revert a. induction es as [|e es IH]; intros a; cbn; [by intros [= <-]|].
  intros (a1 & H1 & H2)%bind_ok Hok. eapply IH; [done|]. by eapply push_ok.
Qed.

(** ** What [finish] returns *)

Fixpoint calls_from (i : N) (content : list AssistantContentBlock) : list (N * ToolCall) :=
  match content with
  | [] => []
  | AToolCall call :: content => (i, call) :: calls_from (i + 1) content
  | _ :: content => calls_from (i + 1) content
  end.

(** The tool calls of a content, in block order. *)
Definition tool_calls_of (content : list AssistantContentBlock) : list ToolCall :=
  (calls_from 0 content).*2.

Definition key_lt (x y : N * ToolCall) : Prop := (x.1 < y.1)%N.

#[export] Instance key_lt_trans : Transitive key_lt.
Proof. intros x y z. unfold key_lt. lia. Qed.

#[export] Instance key_lt_antisymm : AntiSymm (=) key_lt.
Proof. intros x y. unfold key_lt. lia. Qed.

Lemma elem_of_calls_from i content j call :
  (j, call) ∈ calls_from i content ↔
  ∃ k, j = (i + N.of_nat k)%N ∧ content !! k = Some (AToolCall call).
Proof.
  assert (Hshift : ∀ b content, (∃ k, j = (i + N.of_nat (S k))%N ∧
      (b :: content) !! S k = Some (AToolCall call)) ↔
      ∃ k, j = (i + 1 + N.of_nat k)%N ∧ content !! k = Some (AToolCall call)).
  { intros b c. split; intros (k & -> & Hk); exists k; (split; [lia|done]). }
  revert i Hshift. induction content as [|b content IH]; intros i Hshift; cbn [calls_from].
  { split; [intros H; by apply not_elem_of_nil in H|by intros (k & _ & Hk)]. }
  assert (Hrest : (j, call) ∈ calls_from (i + 1) content ↔
    ∃ k, j = (i + N.of_nat (S k))%N ∧ (b :: content) !! S k = Some (AToolCall call)).
  { rewrite IH, Hshift; [done|]. intros b' c. split; intros (k & -> & Hk); exists k; (split; [lia|done]). }
  assert (Hother : (∀ c, b ≠ AToolCall c) → (j, call) ∈ calls_from (i + 1) content ↔
    ∃ k, j = (i + N.of_nat k)%N ∧ (b :: content) !! k = Some (AToolCall call)).
  { intros Hb. rewrite Hrest. split; [intros (k & ?); by exists (S k)|].
    intros ([|k] & -> & Hk); [injection Hk as ->; by destruct (Hb call)|by exists k]. }
  destruct b as [| |c| |]; try (by apply Hother).
  rewrite elem_of_cons, Hrest. split.
  - intros [[= -> ->]|(k & ?)]; [exists 0; split; [lia|done]|by exists (S k)].
  - intros ([|k] & -> & Hk); [left; injection Hk as ->; f_equal; lia|right; by exists k].
Qed.

Lemma calls_from_sorted i content :
  StronglySorted key_lt (calls_from i content) ∧ Forall (λ x, (i <= x.1)%N) (calls_from i content).
Proof.
  revert i. induction content as [|b content IH]; intros i; cbn; [by repeat constructor|].
  destruct (IH (i + 1)%N) as [Hs Hf].
  assert (Hw : Forall (λ x, (i <= x.1)%N) (calls_from (i + 1) content))
    by (eapply Forall_impl; [exact Hf|]; cbn; lia).
  destruct b as [| |c| |]; try done. split; constructor; cbn; try done.
  eapply Forall_impl; [exact Hf|]. intros x. unfold key_lt. cbn. lia.
Qed.

Lemma insert_by_key_perm x l : insert_by_key x l ≡ₚ x :: l.
Proof.
  induction l as [|y l IH]; cbn; [done|]. destruct (_ <? _)%N; [done|]. rewrite IH. constructor.
Qed.

Lemma insert_by_key_sorted x l :
  x.1 ∉ l.*1 → StronglySorted key_lt l → StronglySorted key_lt (insert_by_key x l).
Proof.
  induction l as [|y l IH]; cbn; intros Hx Hs; [by repeat constructor|].
  apply StronglySorted_inv in Hs as [Hs Hy]. apply not_elem_of_cons in Hx as [Hne Hx].
  destruct (N.ltb_spec x.1 y.1) as [Hlt|Hle].
  - constructor; [by constructor|]. constructor; [done|]. eapply Forall_impl; [exact Hy|].
    intros z. unfold key_lt. lia.
  - constructor; [by apply IH|]. rewrite insert_by_key_perm. constructor; [|done].
    unfold key_lt. lia.
Qed.

Lemma sort_by_key_ok l :
  NoDup l.*1 → sort_by_key l ≡ₚ l ∧ StronglySorted key_lt (sort_by_key l).
Proof.
  unfold sort_by_key. intros Hnd.
  enough (∀ acc, NoDup (acc ++ l).*1 → StronglySorted key_lt acc →
    foldl (λ sorted x, insert_by_key x sorted) acc l ≡ₚ acc ++ l ∧
    StronglySorted key_lt (foldl (λ sorted x, insert_by_key x sorted) acc l)) as H
    by (apply (H []); [done|constructor]).
  clear Hnd. induction l as [|x l IH]; intros acc Hnd Hs; cbn; [by rewrite app_nil_r|].
  assert (Hp : insert_by_key x acc ++ l ≡ₚ acc ++ x :: l)
    by (rewrite insert_by_key_perm; apply Permutation_middle).
  destruct (IH (insert_by_key x acc)) as [H1 H2]; [by rewrite Hp| |split; [by rewrite H1, Hp|done]].
  apply insert_by_key_sorted; [|done]. intros Hin.
  rewrite fmap_app in Hnd. apply NoDup_app in Hnd as (_ & Hd & _). apply (Hd _ Hin). set_solver.
Qed.

Lemma finish_content_plain bs content :
  finish_content false bs = Ok content ↔ bs = Some <$> content.
Proof.
  revert content. induction bs as [|[b|] bs IH]; intros content; cbn.
  - split; [by intros [= <-]|]. by destruct content.
  - split.
    + intros (rest & ->%IH & [= <-])%bind_ok. done.
    + destruct content as [|b' content]; [done|]. intros [= -> ->].
      by rewrite (proj2 (IH content) eq_refl).
  - split; [done|]. by destruct content.
Qed.

Lemma finish_content_refusal bs content :
  finish_content true bs = Ok content → Forall (λ b, is_refusal b = true) content.
Proof.
  revert content. induction bs as [|[b|] bs IH]; intros content; cbn; [by intros [= <-]| |done].
  intros (rest & Hr%IH & [= <-])%bind_ok. destruct (is_refusal b) eqn:E; [by constructor|done].
Qed.

Lemma finish_ok a t :
  finish a = Ok t →
  ∃ u, terminal a = Some (TCompleted (t_finish_reason t) u) ∧
    (∀ c p, (c, p) ∈ tool_calls a → pc_completed p = true) ∧
    finish_content (bool_decide (t_finish_reason t = FRefusal)) (blocks a) = Ok (t_content t) ∧
    t_tool_calls t = (sort_by_key (completed_calls a)).*2 ∧
    (t_tool_calls t ≠ [] ↔ t_finish_reason t = ToolCalls) ∧
    t_usage t = match u with Some u => Some u | None => latest_usage a end.
Proof.
  unfold finish. destruct (terminal a) as [[r u|]|]; try done.
  intros ([] & Hp & (content & Hc & H)%bind_ok)%bind_ok. revert H.
  intros ([] & H1%guard_err_ok & ([] & H2%guard_err_ok & [= <-])%bind_ok)%bind_ok.
  exists u. cbn. rewrite try_for_each_ok, Forall_forall in Hp. split_and!; try done.
  - intros c p Hin. specialize (Hp _ Hin). cbn in Hp.
    by apply guard_err_ok, negb_false_iff in Hp.
  - revert H1 H2. repeat case_bool_decide; naive_solver.
Qed.

(** The map of tool calls, entry by entry. *)
Lemma map_get_elem {V} (m : list (str * V)) k v : map_get k m = Some v → (k, v) ∈ m.
Proof.
  induction m as [|[k' v'] m IH]; cbn; [done|]. case_decide as E.
  - intros [= ->]. subst k'. constructor.
  - intros ?%IH. by constructor.
Qed.

Lemma assembled_calls a t :
  asm_ok a → finish a = Ok t → t_finish_reason t ≠ FRefusal →
  blocks a = Some <$> t_content t ∧ t_tool_calls t = tool_calls_of (t_content t).
Proof.
  intros [_ Hp Hb Hc Hnd] (u & _ & Hdone & Hcontent & -> & _)%finish_ok Hr.
  rewrite bool_decide_eq_false_2 in Hcontent by done. apply finish_content_plain in Hcontent.
  split; [done|]. unfold tool_calls_of. f_equal.
  destruct (sort_by_key_ok _ Hnd) as [Hperm Hsorted].
  apply (StronglySorted_unique key_lt); [done|apply calls_from_sorted|].
  rewrite Hperm. apply NoDup_Permutation.
  - by eapply NoDup_fmap_1.
  - apply (NoDup_fmap_1 fst). destruct (calls_from_sorted 0 (t_content t)) as [Hs _].
    clear -Hs. induction Hs as [|x l _ IH Hx]; cbn; constructor; [|done].
    intros (y & E & Hy)%list_elem_of_fmap. rewrite Forall_forall in Hx. specialize (Hx y Hy).
    unfold key_lt in Hx. lia.
  - intros [i call]. rewrite elem_of_calls_from.
    assert (Hat : ∀ k, tool_at (blocks a) k call ↔ t_content t !! k = Some (AToolCall call)).
    { intros k. unfold tool_at. rewrite Hcontent, list_lookup_fmap.
      destruct (t_content t !! k); cbn; naive_solver. }
    split.
    + intros [Hi _]%Hc. exists (N.to_nat i). split; [lia|by apply Hat].
    + intros (k & -> & Hk%Hat). destruct (Hb _ _ Hk) as (p & Hg & Hpb).
      destruct (Hp _ _ Hg) as (call' & Hat' & _ & Hin).
      rewrite Hpb in Hat', Hin. rewrite Nat2N.id in Hat'.
      assert (call' = call) as -> by (unfold tool_at in *; congruence).
      apply Hin. eapply Hdone. by apply map_get_elem.
Qed.

(** ** Terminal events *)

Definition terminal_of (e : ModelEvent) : option AssemblyTerminal :=
  match e with
  | ECompleted r u => Some (TCompleted r u)
  | EFailed _ => Some TFailed
  | _ => None
  end.

Lemma push_content_terminal e a a' : push_content true e a = Ok a' → terminal a' = terminal a.
Proof.
  destruct e; cbn; try (by intros [= <-]).
  1-3: by intros (b & _ & _ & ->)%with_block_shape.
  - by intros (? & _ & (? & _ & [= <-])%bind_ok)%bind_ok.
  - by intros (? & _ & (? & _ & (? & _ & [= <-])%bind_ok)%bind_ok)%bind_ok.
  - by intros (? & _ & (? & _ & (? & _ & [= <-])%bind_ok)%bind_ok)%bind_ok.
  - unfold attach_continuation. intros (? & _ & H)%bind_ok. revert H.
    destruct (_ !! _) as [[[]|]|]; try done. by intros [= <-].
Qed.

Lemma push_terminal e a a' :
  assembler_push e a = Ok a' → terminal a = None ∧ terminal a' = terminal_of e.
Proof.
  unfold assembler_push, push_inner.
  intros ([] & Hn%guard_err_ok%bool_decide_eq_false%eq_None_not_Some & H)%bind_ok. split; [done|].
  destruct e; cbn [terminal_of]; try (apply bind_ok in H as (? & _ & H));
    try (by injection H as <-);
    apply push_content_terminal in H; by rewrite H.
Qed.

Lemma push_all_app es fs a : push_all (es ++ fs) a = (a ← push_all es a; push_all fs a).
Proof.
  revert a. induction es as [|e es IH]; intros a; cbn; [done|].
  destruct (assembler_push e a); cbn; [apply IH|done].
Qed.

Lemma push_all_snoc es e a a' :
  push_all (es ++ [e]) a = Ok a' → ∃ a1, push_all es a = Ok a1 ∧ assembler_push e a1 = Ok a'.
Proof.
  rewrite push_all_app. intros (a1 & H1 & (a2 & H2 & [= <-])%bind_ok)%bind_ok. by exists a1.
Qed.

Lemma push_all_terminal es a a' t :
  push_all es a = Ok a' → terminal a = None → terminal a' = Some t →
  ∃ body e, es = body ++ [e] ∧ terminal_of e = Some t ∧ Forall (λ e, terminal_of e = None) body.
Proof.
  destruct es as [|e es _] using rev_ind; cbn; [intros [= <-] -> ; done|].
  intros (a1 & H1 & [Hn He]%push_terminal)%push_all_snoc Ha Ht.
  exists es, e. split_and!; [done|congruence|]. clear He Ht. revert a1 Hn H1.
  induction es as [|e' es IH] using rev_ind; intros a1 Hn H1; [constructor|].
  apply push_all_snoc in H1 as (a2 & H2 & [Hn2 He2]%push_terminal).
  apply Forall_app. split; [by eapply IH|]. repeat constructor. congruence.
Qed.

Lemma assembled_ids a t :
  asm_ok a → finish a = Ok t → t_finish_reason t ≠ FRefusal → NoDup (map call_id (t_tool_calls t)).
Proof.
  intros Hok Hf Hr. destruct (assembled_calls _ _ Hok Hf Hr) as [Hblocks ->].
  unfold tool_calls_of. destruct (calls_from_sorted 0 (t_content t)) as [Hs _].
  assert (Hfun : ∀ i j x y, (i, x) ∈ calls_from 0 (t_content t) →
    (j, y) ∈ calls_from 0 (t_content t) → call_id x = call_id y → i = j).
  { assert (Hone : ∀ i x, (i, x) ∈ calls_from 0 (t_content t) →
      ∃ p, map_get (call_id x) (tool_calls a) = Some p ∧ pc_block p = i).
    { intros i x (k & -> & Hk)%elem_of_calls_from. apply (asm_block _ Hok). unfold tool_at.
      by rewrite Hblocks, list_lookup_fmap, Hk. }
    intros i j x y (p & Hp & <-)%Hone (q & Hq & <-)%Hone E. congruence. }
  revert Hs Hfun. generalize (calls_from 0 (t_content t)). intros l Hs Hfun.
  induction Hs as [|[i x] l _ IH Hx]; cbn; constructor.
  - intros (y & E & Hin)%list_elem_of_In%in_map_iff.
    apply list_elem_of_In, list_elem_of_fmap in Hin as ([j z] & -> & Hz).
    assert (i = j) as -> by (eapply Hfun; [constructor|by apply elem_of_cons; right|done]).
    rewrite Forall_forall in Hx. specialize (Hx _ Hz). unfold key_lt in Hx. cbn in Hx. lia.
  - apply IH. intros i' j' x' y' Hi Hj. apply Hfun; by apply list_elem_of_further.
Qed.

(** An assembled turn is internally consistent: it comes from a stream whose single
    terminal event is its last and carries the turn's finish reason; tool calls are present
    exactly when that reason is [ToolCalls], are exactly the tool-call blocks of the
    content in block order, under distinct call ids; and a refusal leaves refusal blocks
    only. *)
Theorem assembled_turn_consistent es a t :
  push_all es assembler_new = Ok a → finish a = Ok t →
  (∃ body u, es = body ++ [ECompleted (t_finish_reason t) u] ∧
     Forall (λ e, terminal_of e = None) body ∧
     t_usage t = match u with Some u => Some u | None => latest_usage a end) ∧
  (t_tool_calls t ≠ [] ↔ t_finish_reason t = ToolCalls) ∧
  (t_finish_reason t ≠ FRefusal → t_tool_calls t = tool_calls_of (t_content t)) ∧
  (t_finish_reason t = FRefusal → Forall (λ b, is_refusal b = true) (t_content t)) ∧
  NoDup (map call_id (t_tool_calls t)).
Proof.
  intros Hp Hf. pose proof (push_all_ok _ _ _ Hp asm_new_ok) as Hok.
  destruct (finish_ok _ _ Hf) as (u & Ht & _ & Hc & _ & Hcalls & Hu).
  split_and!.
  - destruct (push_all_terminal _ _ _ _ Hp eq_refl Ht) as (body & e & -> & He & Hb).
    exists body, u. destruct e; try done. by injection He as -> ->.
  - exact Hcalls.
  - intros Hr. by destruct (assembled_calls _ _ Hok Hf Hr).
  - intros Hr. rewrite bool_decide_eq_true_2 in Hc by done. by eapply finish_content_refusal.
  - destruct (decide (t_finish_reason t = FRefusal)) as [Hr|Hr]; [|by eapply assembled_ids].
    destruct (t_tool_calls t); [apply NoDup_nil_2|]. destruct Hcalls as [Hcalls _].
    rewrite Hr in Hcalls. by discriminate Hcalls.
Qed.

(** ** Nothing a delta carried is lost *)

#[export] Instance BlockKind_eq_dec : EqDecision BlockKind.
Proof. solve_decision. Defined.

(** The block kind, index and text of a content delta. *)
Definition delta_of (e : ModelEvent) : option (BlockKind * N * str) :=
  match e with
  | TextDelta i t => Some (BText, i, t)
  | ReasoningDelta i t => Some (BReasoning, i, t)
  | RefusalDelta i t => Some (BRefusal, i, t)
  | _ => None
  end.

Definition delta_for (k : BlockKind) (i : N) (e : ModelEvent) : str :=
  match delta_of e with
  | Some (k', i', t) => if decide (k' = k ∧ i' = i) then t else []
  | None => []
  end.

(** The deltas of one block, concatenated in stream order. *)
Definition text_for (k : BlockKind) (i : N) (es : list ModelEvent) : str :=
  concat (map (delta_for k i) es).

Definition block_text (b : AssistantContentBlock) : option (BlockKind * str) :=
  match b with
  | Message.AText t => Some (BText, t)
  | Message.AReasoning r => Some (BReasoning, default [] (reasoning_text r))
  | Message.ARefusal t => Some (BRefusal, t)
  | _ => None
  end.

Definition texts (bs : list (option AssistantContentBlock)) (i : nat) : option (BlockKind * str) :=
  bs !! i ≫= λ o, o ≫= block_text.

Definition has_delta (k : BlockKind) (i : N) (es : list ModelEvent) : Prop :=
  ∃ e s, e ∈ es ∧ delta_of e = Some (k, i, s).

Record text_ok (es : list ModelEvent) (bs : list (option AssistantContentBlock)) : Prop := {
  text_exact : ∀ i k s, texts bs i = Some (k, s) → s = text_for k (N.of_nat i) es;
  text_block : ∀ i k, has_delta k i es → ∃ s, texts bs (N.to_nat i) = Some (k, s);
}.

Lemma text_for_none k i es : ¬ has_delta k i es → text_for k i es = [].
Proof.
  intros Hn. unfold text_for. induction es as [|e es IH]; cbn; [done|].
  rewrite IH by (intros (e' & s & ? & ?); apply Hn; exists e', s; split; [by constructor|done]).
  rewrite app_nil_r. unfold delta_for. destruct (delta_of e) as [[[k' i'] t]|] eqn:E; [|done].
  case_decide as Hd; [|done]. destruct Hd as [-> ->]. exfalso. apply Hn. exists e, t.
  split; [constructor|done].
Qed.

Lemma text_for_snoc k i es e : text_for k i (es ++ [e]) = text_for k i es ++ delta_for k i e.
Proof. unfold text_for. rewrite map_app, concat_app. cbn. by rewrite app_nil_r. Qed.

Lemma has_delta_snoc k i es e :
  has_delta k i (es ++ [e]) ↔ has_delta k i es ∨ ∃ s, delta_of e = Some (k, i, s).
Proof.
  unfold has_delta. setoid_rewrite elem_of_app. setoid_rewrite list_elem_of_singleton. naive_solver.
Qed.

(** An event without a delta keeps every text, or opens empty blocks. *)
Lemma text_ok_quiet es e bs bs' :
  text_ok es bs → delta_of e = None →
  (∀ i, texts bs' i = texts bs i ∨ (texts bs i = None ∧ ∃ k, texts bs' i = Some (k, []))) →
  text_ok (es ++ [e]) bs'.
Proof.
  intros [Hx Hb] He Ht.
  assert (Hf : ∀ k i, text_for k i (es ++ [e]) = text_for k i es).
  { intros k i. rewrite text_for_snoc. unfold delta_for. by rewrite He, app_nil_r. }
  split.
  - intros i k s Hs. rewrite Hf. destruct (Ht i) as [E|[E (k' & E')]]; [rewrite E in Hs; by apply Hx|].
    rewrite E' in Hs. injection Hs as <- <-. symmetry. apply text_for_none.
    intros (s & Hs)%Hb. rewrite Nat2N.id in Hs. congruence.
  - intros i k [(s & Hs)%Hb|[s ?]]%has_delta_snoc; [|congruence].
    destruct (Ht (N.to_nat i)) as [->|[E _]]; [by exists s|congruence].
Qed.

(** A delta extends the text of its block. *)
Lemma text_ok_delta es e bs bs' k i t s :
  text_ok es bs → delta_of e = Some (k, i, t) →
  texts bs' (N.to_nat i) = Some (k, s ++ t) →
  (texts bs (N.to_nat i) = Some (k, s) ∨ texts bs (N.to_nat i) = None ∧ s = []) →
  (∀ j, j ≠ N.to_nat i → texts bs' j = texts bs j) →
  text_ok (es ++ [e]) bs'.
Proof.
  intros [Hx Hb] He Hi Hs Hj.
  assert (Hsi : s = text_for k i es).
  { destruct Hs as [Hs|[Hn ->]]; [apply Hx in Hs; by rewrite N2Nat.id in Hs|].
    symmetry. apply text_for_none. intros (s & Hs)%Hb. congruence. }
  assert (Hf : ∀ k' j, text_for k' j (es ++ [e]) =
    text_for k' j es ++ if decide (k = k' ∧ i = j) then t else []).
  { intros k' j. rewrite text_for_snoc. unfold delta_for. by rewrite He. }
  split.
  - intros j k' s' Hs'. rewrite Hf. destruct (decide (j = N.to_nat i)) as [->|Hne].
    + rewrite Hi in Hs'. injection Hs' as <- <-. rewrite N2Nat.id, decide_True by done.
      by rewrite Hsi.
    + rewrite Hj in Hs' by done. rewrite decide_False by (intros [_ ->]; lia).
      rewrite app_nil_r. by apply Hx.
  - intros j k' [(s' & Hs')%Hb|[s' E]]%has_delta_snoc.
    + destruct (decide (j = i)) as [->|Hne]; [|exists s'; rewrite Hj by lia; done].
      exists (s ++ t). rewrite Hi. destruct Hs as [Hs|[Hs _]]; congruence.
    + rewrite He in E. injection E as <- <- <-. by exists (s ++ t).
Qed.

Lemma texts_insert bs i b j :
  i < length bs →
  texts (<[i := Some b]> bs) j = if decide (j = i) then block_text b else texts bs j.
Proof.
  intros Hi. unfold texts. case_decide as E; [subst j; by rewrite list_lookup_insert_eq|].
  by rewrite list_lookup_insert_ne.
Qed.

Lemma texts_extended bs i b j :
  texts (extended bs i b) j =
    if decide (i = length bs ∧ j = i) then block_text b else texts bs j.
Proof.
  unfold extended, texts. destruct (Nat.eqb_spec i (length bs)) as [->|Hne].
  - destruct (decide (j = length bs)) as [->|Hj].
    + rewrite decide_True by done. rewrite lookup_app_r, Nat.sub_diag by lia. done.
    + rewrite decide_False by naive_solver. destruct (decide (j < length bs)) as [Hlt|Hge].
      * by rewrite lookup_app_l.
      * rewrite !lookup_ge_None_2; [done|lia|rewrite length_app; cbn; lia].
  - by rewrite decide_False by naive_solver.
Qed.

Lemma texts_ge bs i : length bs <= i → texts bs i = None.
Proof. intros H. unfold texts. by rewrite lookup_ge_None_2. Qed.

Lemma text_ok_push e es a a' :
  assembler_push e a = Ok a' → asm_ok a → text_ok es (blocks a) →
  text_ok (es ++ [e]) (blocks a').
Proof.
  unfold assembler_push, push_inner. intros (? & _ & H)%bind_ok Hasm Hok. revert H.
  assert (Hsame : delta_of e = None → blocks a' = blocks a → text_ok (es ++ [e]) (blocks a')).
  { intros He ->. apply (text_ok_quiet _ _ (blocks a)); auto. }
  assert (Hdelta : ∀ k i t, delta_of e = Some (k, i, t) → with_block i k (push_str t) a = Ok a' →
    text_ok (es ++ [e]) (blocks a')).
  { intros k i t He (b & Hb & Hk & ->)%with_block_shape. cbn.
    pose proof (lookup_lt_Some _ _ _ Hb) as Hlt.
    assert (Htext : ∃ s, block_text b = Some (k, s) ∧ block_text (push_str t b) = Some (k, s ++ t))
      by (destruct k, b; try done; eexists; split; done).
    destruct Htext as (s & Hs & Hs').
    assert (Hat : texts (extended (blocks a) (N.to_nat i) (placeholder k)) (N.to_nat i) = Some (k, s))
      by (unfold texts; by rewrite Hb).
    eapply (text_ok_delta es e (blocks a) _ k i t s); [done|done| | |].
    - rewrite texts_insert by done. by rewrite decide_True.
    - rewrite texts_extended in Hat. case_decide as Hd; [|by left].
      right. split; [apply texts_ge; lia|]. destruct k; by injection Hat.
    - intros j Hj. rewrite texts_insert, decide_False by done.
      rewrite texts_extended, decide_False; [done|naive_solver]. }
  destruct e as [|i t|i t|i t|i call|i c d|i call|u|i s|r u|err]; intros H;
    try (apply bind_ok in H as (? & _ & H)); cbn [push_content] in H;
    try (injection H as <-; by apply Hsame); try (by eapply Hdelta).
  - revert H. intros (? & _ & ([] & Hi%guard_err_ok%negb_false_iff%Nat.eqb_eq & [= <-])%bind_ok)%bind_ok.
    apply (text_ok_quiet _ _ (blocks a)); [done|done|]. intros j. left. cbn.
    pose proof (texts_extended (blocks a) (N.to_nat i) (AToolCall
      {| call_id := start_id call; call_tool_id := start_tool_id call;
         call_name := start_name call; call_arguments := Object [] |}) j) as Ht.
    unfold extended in Ht. rewrite (proj2 (Nat.eqb_eq _ _) Hi) in Ht. rewrite Ht.
    case_decide as Hd; [|done]. destruct Hd as [_ ->]. symmetry. apply texts_ge. lia.
  - revert H. intros (? & _ & (? & _ & (? & _ & [= <-])%bind_ok)%bind_ok)%bind_ok. by apply Hsame.
  - revert H. intros (p & Hg%ok_or_ok & (? & _ & ([] & Hi%guard_err_ok%negb_false_iff%N.eqb_eq &
      [= <-])%bind_ok)%bind_ok)%bind_ok. cbn. subst i.
    destruct (asm_pending _ Hasm _ _ Hg) as (call0 & Hat & _). unfold tool_at in Hat.
    pose proof (lookup_lt_Some _ _ _ Hat) as Hlt.
    apply (text_ok_quiet _ _ (blocks a)); [done|done|]. intros j. left.
    rewrite texts_insert by done. case_decide as Hj; [|done].
    unfold texts. by rewrite Hj, Hat.
  - revert H. unfold attach_continuation.
    fold (extended (blocks a) (N.to_nat i) (placeholder BReasoning)).
    intros (? & _ & H)%bind_ok. revert H.
    destruct (extended _ _ _ !! _) as [[[]|]|] eqn:E; try done. intros [= <-]. cbn.
    pose proof (lookup_lt_Some _ _ _ E) as Hlt.
    apply (text_ok_quiet _ _ (blocks a)); [done|done|]. intros j.
    rewrite texts_insert by done. destruct (decide (j = N.to_nat i)) as [->|Hj];
      pose proof (texts_extended (blocks a) (N.to_nat i) (placeholder BReasoning)) as Ht.
    + specialize (Ht (N.to_nat i)). unfold texts in Ht at 1. rewrite E in Ht. cbn in Ht. case_decide as Hd; [right|by left].
      split; [apply texts_ge; lia|]. exists BReasoning. cbn. by injection Ht as ->.
    + rewrite Ht, decide_False by naive_solver. by left.
Qed.

Lemma text_ok_push_all es a : push_all es assembler_new = Ok a → text_ok es (blocks a).
Proof.
  revert a. induction es as [|e es IH] using rev_ind; intros a.
  - intros [= <-]. split; [done|]. intros i k (e & s & H & _). by apply not_elem_of_nil in H.
  - intros (a1 & H1 & H2)%push_all_snoc. eapply text_ok_push; [done| |by apply IH].
    by eapply push_all_ok, asm_new_ok.
Qed.


(** ** What the stream published is what it assembles *)

(** Coalescing does not change what the proposal guards say. *)
Definition validate_step (m : R (list PublicationProposalOwner)) (p : PublicationPayload)
    : R (list PublicationProposalOwner) :=
  owners ← m; validate_proposal_frame p owners.

Lemma validate_frames_foldl ps owners :
  validate_proposal_frames ps owners = foldl validate_step (Ok owners) ps.
Proof.
  assert (Herr : ∀ e, foldl validate_step (Err e) ps = Err e) by (induction ps; done).
  revert owners Herr. induction ps as [|p ps IH]; intros owners Herr; cbn; [done|].
  change (validate_step (Ok owners) p) with (validate_proposal_frame p owners).
  destruct (validate_proposal_frame p owners); cbn.
  - apply IH. intros e. by specialize (Herr e).
  - symmetry. by specialize (Herr e).
Qed.

Lemma merge_validate_step p q m owners :
  merge p q = Some m → validate_step (validate_step owners p) q = validate_step owners m.
Proof.
  destruct p, q; cbn [merge]; try done; intros H; destruct owners as [owners|]; try done.
  1-3: by destruct (_ =? _)%N; [injection H as <-|].
  destruct (_ && _) eqn:E; [|done].
  apply andb_true_iff in E as [->%N.eqb_eq ->%bool_decide_eq_true]. injection H as <-.
  unfold validate_step. cbn. destruct (require_started_proposal owners _) as [o|] eqn:Eo; [|done].
  cbn. destruct (negb _) eqn:Eb; cbn; [done|]. by rewrite Eo; cbn; rewrite Eb.
Qed.

Lemma foldl_payload {A} (f : A → PublicationPayload → A) x fs :
  foldl f x (map payload fs) = foldl (λ x g, f x (payload g)) x fs.
Proof. revert x. induction fs as [|g fs IH]; intros x; cbn; [done|apply IH]. Qed.

Lemma validate_published stream message policy os owners :
  validate_proposal_frames
    (map payload (publish_stream os (coalescer_new stream message policy)).1) owners =
  validate_proposal_frames (published os) owners.
Proof.
  rewrite !validate_frames_foldl, foldl_payload.
  apply (publish_stream_fold validate_step); [intros ???; apply merge_validate_step|].
  by intros [|].
Qed.

(** The owner [o] describes the pending call of its id and the block it opened. *)
Definition owner_at (a : ModelEventAssembler) (o : PublicationProposalOwner) : Prop :=
  ∃ p call, map_get (o_call o) (tool_calls a) = Some p ∧ pc_block p = o_block o ∧
    pc_completed p = is_completed (o_state o) ∧ tool_at (blocks a) (N.to_nat (o_block o)) call ∧
    call_tool_id call = o_tool o ∧ call_name call = o_name o.

Record owners_ok (a : ModelEventAssembler) (owners : list PublicationProposalOwner) : Prop := {
  owners_at : ∀ o, o ∈ owners → owner_at a o;
  owners_all : ∀ c p, map_get c (tool_calls a) = Some p → c ∈ map o_call owners;
  owners_nodup : NoDup (map o_call owners);
}.

(** An event that publishes no tool frame touches no tool call. *)
Lemma push_content_quiet e a a' :
  push_content true e a = Ok a' →
  (∀ i call, e ≠ ToolCallStarted i call) → (∀ i call, e ≠ ToolCallCompleted i call) →
  tool_calls a' = tool_calls a ∧ ∀ i call, tool_at (blocks a') i call ↔ tool_at (blocks a) i call.
Proof.
  destruct e; cbn; intros H Hs Hc; try (by injection H as <-);
    try (by destruct (Hs block_index call)); try (by destruct (Hc block_index call)).
  1-3: apply with_block_shape in H as (b & Hb & Hk%kind_non_tool & ->); split; [done|];
    intros j call; unfold set_blocks; cbn [blocks];
    rewrite (insert_tools _ _ b) by auto using push_str_non_tool;
    by apply extended_tools, placeholder_non_tool.
  - revert H. by intros (? & _ & (? & _ & (? & _ & [= <-])%bind_ok)%bind_ok)%bind_ok.
  - revert H. unfold attach_continuation.
    fold (extended (blocks a) (N.to_nat block_index) (placeholder BReasoning)).
    intros (? & _ & H)%bind_ok. revert H.
    destruct (extended _ _ _ !! _) as [[[]|]|] eqn:E; try done. intros [= <-]. cbn. split; [done|].
    intros j call. erewrite insert_tools by done.
    apply extended_tools, (placeholder_non_tool BReasoning).
Qed.

Lemma push_inner_content e a a' :
  assembler_push e a = Ok a' → terminal_of e = None → e ≠ EStarted → push_content true e a = Ok a'.
Proof.
  unfold assembler_push, push_inner. intros (? & _ & H)%bind_ok Ht He.
  by destruct e; try (apply bind_ok in H as (? & _ & H)).
Qed.

Lemma owners_ok_quiet a a' owners :
  owners_ok a owners → tool_calls a' = tool_calls a →
  (∀ i call, tool_at (blocks a') i call ↔ tool_at (blocks a) i call) → owners_ok a' owners.
Proof.
  intros [Ha Hall Hnd] Htc Ht. split; rewrite ?Htc; try done.
  intros o Ho. destruct (Ha o Ho) as (p & call & ?). exists p, call. by rewrite Htc, Ht.
Qed.

Lemma owners_ok_start a a' owners i call :
  register_tool_call i call a = Ok a' → owners_ok a owners →
  owners_ok a' (owners ++ [{| o_call := start_id call; o_block := i;
    o_tool := start_tool_id call; o_name := start_name call; o_state := Started;
    o_persisted := None |}]).
Proof.
  intros ([] & Hn%guard_err_ok%bool_decide_eq_false%eq_None_not_Some &
    ([] & Hi%guard_err_ok%negb_false_iff%Nat.eqb_eq & [= <-])%bind_ok)%bind_ok [Ha Hall Hnd].
  assert (Hnew : start_id call ∉ map o_call owners).
  { intros Hin. apply list_elem_of_In, in_map_iff in Hin as (o & E & Ho%list_elem_of_In).
    destruct (Ha o Ho) as (p & ? & Hp & _). congruence. }
  split; cbn.
  - intros o [Ho|Ho%list_elem_of_singleton]%elem_of_app; unfold owner_at; [|subst o]; cbn.
    + destruct (Ha o Ho) as (p & x & Hp & ? & ? & Hx & ?). exists p, x.
      rewrite map_get_insert, decide_False by congruence. unfold tool_at in *.
      split_and!; try done; try naive_solver. by apply lookup_app_l_Some.
    + rewrite map_get_insert, decide_True by done. exists {| pc_block := i; pc_completed := false |},
        {| call_id := start_id call; call_tool_id := start_tool_id call;
           call_name := start_name call; call_arguments := Object [] |}.
      split_and!; try done. unfold tool_at. rewrite Hi, lookup_app_r, Nat.sub_diag by lia. done.
  - intros c p. rewrite map_get_insert, map_app, elem_of_app. case_decide as E; [|eauto].
    intros _. right. rewrite E. constructor.
  - rewrite map_app. apply NoDup_app. split_and!; [done| |apply NoDup_singleton].
    by intros x Hx ->%list_elem_of_singleton.
Qed.

Lemma owners_ok_complete a a' owners owners' i call :
  complete_tool_call i call a = Ok a' → asm_ok a → owners_ok a owners →
  validate_proposal_frame (ProposedToolCallCompleted i call) owners = Ok owners' →
  owners_ok a' owners'.
Proof.
  intros (p & Hg%ok_or_ok & ([] & Hpc%guard_err_ok & ([] &
    Hi%guard_err_ok%negb_false_iff%N.eqb_eq & [= <-])%bind_ok)%bind_ok)%bind_ok Hok [Ha Hall Hnd].
  intros (o & Ho & ([] & Hb%guard_err_ok%negb_false_iff%N.eqb_eq & ([] &
    Ht%guard_err_ok%negb_false_iff%bool_decide_eq_true & ([] &
    Hn%guard_err_ok%negb_false_iff%bool_decide_eq_true & H)%bind_ok)%bind_ok)%bind_ok)%bind_ok.
  apply bind_ok in Ho as (o' & Ho%ok_or_ok & ([] & _ & [= ->])%bind_ok).
  assert (Hc : ∀ x, owned_by (call_id call) x = true ↔ o_call x = call_id call)
    by (intros x; unfold owned_by; by rewrite bool_decide_eq_true).
  apply find_first_Some in Ho as [Ho Hid%Hc]. subst i.
  destruct (update_first _ complete_owner owners) as [owners1|] eqn:E; cbn in H; injection H as <-.
  2: { apply update_first_None, find_first_None with (x := o) in E; [|done].
       apply Hc in Hid. congruence. }
  rewrite (update_first_map _ o_call _ _ _ _ Hc Hnd E). clear E.
  pose proof (asm_pending _ Hok _ _ Hg) as (call0 & Hat & _).
  pose proof (lookup_lt_Some _ _ _ Hat) as Hlt.
  split; cbn.
  - intros x Hx. apply list_elem_of_In, in_map_iff in Hx as (y & <- & Hy%list_elem_of_In).
    destruct (Ha y Hy) as (q & z & Hq & Hqb & Hqc & Hz & Hzt & Hzn).
    destruct (owned_by (call_id call) y) eqn:Ey; unfold owner_at; cbn.
    + apply Hc in Ey. rewrite Ey in Hq |- *. rewrite Hg in Hq. injection Hq as <-.
      rewrite map_get_insert, decide_True by done.
      assert (y = o) as -> by (eapply (NoDup_map_inj o_call); [exact Hnd|done|done|congruence]).
      eexists _, call. split_and!; try done. unfold tool_at. rewrite <-Hqb.
      by rewrite list_lookup_insert_eq.
    + assert (Hne : o_call y ≠ call_id call) by (intros E; apply Hc in E; congruence).
      exists q, z. rewrite map_get_insert, decide_False by done. split_and!; try done.
      unfold tool_at in *. rewrite list_lookup_insert_ne; [done|]. intros E.
      rewrite <-E, Hat in Hz. injection Hz as <-.
      destruct (asm_block _ Hok _ _ Hat) as (q1 & Hq1 & _).
      destruct (asm_pending _ Hok _ _ Hq) as (z1 & Hz1 & Hid1 & _).
      unfold tool_at in Hz1. rewrite Hqb, <-E, Hat in Hz1. injection Hz1 as <-.
      destruct (asm_pending _ Hok _ _ Hg) as (z2 & Hz2 & Hid2 & _).
      unfold tool_at in Hz2. rewrite Hat in Hz2. injection Hz2 as <-. congruence.
  - intros c q. rewrite map_o_call_complete, map_get_insert. case_decide as E; [|apply Hall].
    intros _. subst c. by eapply Hall.
  - by rewrite map_o_call_complete.
Qed.

Lemma owners_ok_all es a owners :
  push_all es assembler_new = Ok a →
  validate_proposal_frames (omap publication_payload es) [] = Ok owners → owners_ok a owners.
Proof.
  revert a owners. induction es as [|e es IH] using rev_ind; intros a owners.
  { intros [= <-] [= <-]. split; [|done|constructor]. intros o Ho. by apply not_elem_of_nil in Ho. }
  intros (a1 & H1 & H2)%push_all_snoc. rewrite omap_app, validate_proposal_frames_app.
  intros (owners1 & Hv1 & Hv2)%bind_ok. specialize (IH _ _ H1 Hv1).
  pose proof (push_all_ok _ _ _ H1 asm_new_ok) as Hok.
  assert (Hsame : tool_calls a = tool_calls a1 → blocks a = blocks a1 → owners1 = owners →
    owners_ok a owners) by (intros Ht Hb <-; eapply owners_ok_quiet; [done|done|by rewrite Hb]).
  assert (Hquiet : terminal_of e = None → e ≠ EStarted → owners1 = owners →
    (∀ i call, e ≠ ToolCallStarted i call) → (∀ i call, e ≠ ToolCallCompleted i call) →
    owners_ok a owners).
  { intros Ht Hs <- Hn1 Hn2. apply push_inner_content in H2; [|done..].
    apply push_content_quiet in H2 as [? ?]; [|done..]. by eapply owners_ok_quiet. }
  destruct e; cbn in Hv2; try (apply Hquiet; try done; congruence).
  - revert H2. cbn. intros ([] & _ & ([] & _ & [= <-])%bind_ok)%bind_ok. apply Hsame; cbn; congruence.
  - apply push_inner_content in H2; [|done..]. cbn in H2.
    revert Hv2. intros (o & (? & _ & [= <-])%bind_ok & [= <-])%bind_ok. by eapply owners_ok_start.
  - apply Hquiet; try done. revert Hv2.
    intros (o & (? & _ & (? & _ & [= <-])%bind_ok)%bind_ok & [= <-])%bind_ok. done.
  - apply push_inner_content in H2; [|done..]. cbn in H2.
    apply bind_ok in Hv2 as (o & Hv2 & [= <-]). by eapply owners_ok_complete.
  - revert H2. cbn. intros ([] & _ & ([] & _ & [= <-])%bind_ok)%bind_ok. apply Hsame; cbn; congruence.
  - revert H2. cbn. intros ([] & _ & [= <-])%bind_ok. apply Hsame; cbn; congruence.
Qed.

(** When the acceptance loop of the store succeeds. *)
Lemma validate_tool_calls_complete rows i acc content :
  (∀ k call, content !! k = Some (AToolCall call) → call_id call ∉ acc ∧ ∃ p,
     find_first (λ p, bool_decide (p_call p = call_id call)) rows = Some p ∧
     p_block p = (i + N.of_nat k)%N ∧ p_tool p = call_tool_id call ∧
     p_name p = call_name call ∧ p_state p = Completed) →
  (∀ k l x y, content !! k = Some (AToolCall x) → content !! l = Some (AToolCall y) →
     call_id x = call_id y → k = l) →
  ∃ acc', validate_tool_calls rows i acc content = Ok acc' ∧
    ∀ k call, content !! k = Some (AToolCall call) → call_id call ∈ acc'.
Proof.
  enough (∀ acc : gset ToolCallId, (∀ k call, content !! k = Some (AToolCall call) → call_id call ∉ acc ∧ ∃ p,
     find_first (λ p, bool_decide (p_call p = call_id call)) rows = Some p ∧
     p_block p = (i + N.of_nat k)%N ∧ p_tool p = call_tool_id call ∧
     p_name p = call_name call ∧ p_state p = Completed) →
    (∀ k l x y, content !! k = Some (AToolCall x) → content !! l = Some (AToolCall y) →
     call_id x = call_id y → k = l) →
    ∃ acc', validate_tool_calls rows i acc content = Ok acc' ∧ acc ⊆ acc' ∧
      ∀ k call, content !! k = Some (AToolCall call) → call_id call ∈ acc') as H.
  { intros H1 H2. destruct (H _ H1 H2) as (acc' & ? & _ & ?). by exists acc'. }
  clear acc. revert i. induction content as [|b content IH]; intros i acc Hrow Hinj.
  { exists acc. by split_and!. }
  assert (Hshift : ∀ acc0, (∀ k call, content !! k = Some (AToolCall call) → call_id call ∉ acc0) →
    ∃ acc', validate_tool_calls rows (i + 1) acc0 content = Ok acc' ∧ acc0 ⊆ acc' ∧
      ∀ k call, content !! k = Some (AToolCall call) → call_id call ∈ acc').
  { intros acc0 Hacc. apply IH.
    - intros k call Hk. split; [by eapply Hacc|]. destruct (Hrow (S k) call Hk) as (_ & p & ? & Hb & ? & ? & ?).
      exists p. split_and!; try done. lia.
    - intros k l x y Hx Hy E. specialize (Hinj (S k) (S l) x y Hx Hy E). lia. }
  assert (Hother : (∀ call, b ≠ AToolCall call) →
    ∃ acc', validate_tool_calls rows (i + 1) acc content = Ok acc' ∧ acc ⊆ acc' ∧
      ∀ k call, (b :: content) !! k = Some (AToolCall call) → call_id call ∈ acc').
  { intros Hb. destruct (Hshift acc) as (acc' & ? & ? & Hin);
      [intros k call Hk; by apply (Hrow (S k))|].
    exists acc'. split_and!; [done|done|]. intros [|k] call Hk; [|by eapply Hin].
    injection Hk as ->. by destruct (Hb call). }
  destruct b as [| |call| |]; try (by apply Hother).
  destruct (Hrow 0 call eq_refl) as (Hn & p & Hp & Hb & Ht & Hname & Hs).
  destruct (Hshift ({[call_id call]} ∪ acc)) as (acc' & Hv & Hsub & Hin).
  { intros k x Hk [E%elem_of_singleton|Hacc]%elem_of_union;
      [by specialize (Hinj (S k) 0 x call Hk eq_refl E)|by apply (Hrow (S k) x Hk)]. }
  exists acc'. split_and!; [|set_solver|intros [|k] x Hk; [|by eapply Hin]].
  - cbn [validate_tool_calls]. rewrite bool_decide_eq_false_2 by done. simpl. rewrite Hp. simpl.
    rewrite Hb, N.add_0_r, N.eqb_refl, !bool_decide_eq_true_2 by done. done.
  - injection Hk as <-. set_solver.
Qed.

Lemma row_key_eq p o :
  row_key p = owner_key o →
  p_call p = o_call o ∧ p_block p = o_block o ∧ p_tool p = o_tool o ∧ p_name p = o_name o ∧
  is_completed (p_state p) = is_completed (o_state o).
Proof. by intros [= ? ? ? ? ?]. Qed.

(** The content whose tool calls are the proposals of the rows, all completed, is accepted. *)
Lemma accept_rows rows owners m content :
  map row_key rows = map owner_key owners → NoDup (map o_call owners) →
  (∀ o, o ∈ owners → o_state o = Completed ∧ ∃ k call,
     content !! k = Some (AToolCall call) ∧ call_id call = o_call o) →
  (∀ k call, content !! k = Some (AToolCall call) → ∃ o, o ∈ owners ∧ o_call o = call_id call ∧
     o_block o = N.of_nat k ∧ o_tool o = call_tool_id call ∧ o_name o = call_name call) →
  validate_canonical_tool_proposals rows
    (Assistant {| assistant_id := m; assistant_content := content |}) = Ok ().
Proof.
  intros Hrows Hnd Hown Hcont.
  assert (Hrow : ∀ p, p ∈ rows → ∃ o, o ∈ owners ∧ row_key p = owner_key o).
  { intros p Hin. assert (H : row_key p ∈ map owner_key owners)
      by (rewrite <-Hrows; by apply list_elem_of_In, in_map, list_elem_of_In).
    apply list_elem_of_In, in_map_iff in H as (o & ? & ?%list_elem_of_In). by exists o. }
  assert (Hcalls : map p_call rows = map o_call owners).
  { transitivity (map k_call (map row_key rows)); [by rewrite map_map|].
    by rewrite Hrows, map_map. }
  assert (Hfind : ∀ o, o ∈ owners → ∃ p,
    find_first (λ p, bool_decide (p_call p = o_call o)) rows = Some p ∧ row_key p = owner_key o).
  { intros o Ho. destruct (find_first _ rows) as [p|] eqn:E.
    - apply find_first_Some in E as [Hp E%bool_decide_eq_true]. exists p. split; [done|].
      destruct (Hrow p Hp) as (o' & Ho' & Hk). apply row_key_eq in Hk as Hk'.
      by rewrite (NoDup_map_inj o_call owners o o') by (done || destruct Hk'; congruence).
    - assert (H : o_call o ∈ map p_call rows)
        by (rewrite Hcalls; by apply list_elem_of_In, in_map, list_elem_of_In).
      apply list_elem_of_In, in_map_iff in H as (p & Hc & Hp%list_elem_of_In).
      rewrite find_first_None in E. specialize (E p Hp). by apply bool_decide_eq_false in E. }
  destruct (validate_tool_calls_complete rows 0 ∅ content) as (acc & Hacc & Hin).
  - intros k call Hk. split; [apply not_elem_of_empty|].
    destruct (Hcont k call Hk) as (o & Ho & Hid & Hb & Ht & Hn).
    destruct (Hfind o Ho) as (p & Hp & (Hc & Hpb & Hpt & Hpn & Hs)%row_key_eq). exists p.
    rewrite <-Hid, N.add_0_l. destruct (Hown o Ho) as [Hd _].
    rewrite Hd in Hs. apply bool_decide_eq_true in Hs. split_and!; congruence.
  - intros k l x y Hk Hl E. destruct (Hcont _ _ Hk) as (o & Ho & Ho1 & Ho2 & _),
      (Hcont _ _ Hl) as (o' & Ho' & Ho1' & Ho2' & _).
    rewrite (NoDup_map_inj o_call owners o o') in Ho2 by (done || congruence). lia.
  - unfold validate_canonical_tool_proposals. simpl assistant_content. rewrite Hacc. simpl.
    apply try_for_each_ok, Forall_forall. intros p Hp.
    destruct (Hrow p Hp) as (o & Ho & (Hc & _ & _ & _ & Hs)%row_key_eq).
    destruct (Hown o Ho) as (Hd & k & call & Hk & Hid). rewrite Hd in Hs.
    apply bool_decide_eq_true in Hs. rewrite Hs. apply guard_err_ok, negb_false_iff, bool_decide_eq_true.
    rewrite Hc, <-Hid. by eapply Hin.
Qed.

(** The owners of a finished stream are its tool-call blocks. *)
Lemma owners_content a t owners :
  asm_ok a → owners_ok a owners → finish a = Ok t →
  (∀ o, o ∈ owners → o_state o = Completed ∧ ∃ k call,
     t_content t !! k = Some (AToolCall call) ∧ call_id call = o_call o) ∧
  (∀ k call, t_content t !! k = Some (AToolCall call) → ∃ o, o ∈ owners ∧
     o_call o = call_id call ∧ o_block o = N.of_nat k ∧ o_tool o = call_tool_id call ∧
     o_name o = call_name call).
Proof.
  intros Hok [Hat Hall _] Hf.
  destruct (finish_ok _ _ Hf) as (u & _ & Hdone & Hcontent & Hcalls & Hreason & _).
  destruct (decide (t_finish_reason t = FRefusal)) as [Hr|Hr].
  - rewrite bool_decide_eq_true_2 in Hcontent by done. apply finish_content_refusal in Hcontent.
    split; [|intros k call Hk; rewrite Forall_lookup in Hcontent; by specialize (Hcontent _ _ Hk)].
    intros o Ho. destruct (Hat o Ho) as (q & call & Hg & _).
    destruct (asm_pending _ Hok _ _ Hg) as (call' & _ & _ & Hin).
    specialize (Hin (Hdone _ _ (map_get_elem _ _ _ Hg))).
    destruct (sort_by_key_ok _ (asm_nodup _ Hok)) as [Hperm _]. rewrite <-Hperm in Hin.
    exfalso. assert (H : t_tool_calls t ≠ []); [|apply Hreason in H; congruence].
    rewrite Hcalls. intros H%fmap_nil_inv. rewrite H in Hin. by apply not_elem_of_nil in Hin.
  - destruct (assembled_calls _ _ Hok Hf Hr) as [Hblocks _].
    assert (Htool : ∀ k call, t_content t !! k = Some (AToolCall call) ↔ tool_at (blocks a) k call).
    { intros k call. unfold tool_at. rewrite Hblocks, list_lookup_fmap.
      destruct (t_content t !! k); cbn; naive_solver. }
    setoid_rewrite Htool. split.
    + intros o Ho. destruct (Hat o Ho) as (p & call & Hg & Hb & Hc & _).
      destruct (asm_pending _ Hok _ _ Hg) as (call' & Hx' & Hid & _).
      rewrite (Hdone _ _ (map_get_elem _ _ _ Hg)) in Hc. symmetry in Hc.
      apply bool_decide_eq_true in Hc. split; [done|]. by exists (N.to_nat (pc_block p)), call'.
    + intros k call Hk. destruct (asm_block _ Hok _ _ Hk) as (p & Hg & Hb).
      pose proof (Hall _ _ Hg) as H. apply list_elem_of_In, in_map_iff in H as (o & Hid & Ho).
      apply list_elem_of_In in Ho. destruct (Hat o Ho) as (q & x & Hq & Hqb & _ & Hx & Ht & Hn).
      exists o. rewrite Hid, Hg in Hq. injection Hq as <-. rewrite <-Hqb, Hb, Nat2N.id in Hx.
      unfold tool_at in *. split_and!; try done; congruence.
Qed.

(** C11 What the stream published supports what it assembled: when the proposals a stream
    staged through the coalescer passed the store's proposal guards, the store accepts the
    assembled turn as the canonical Assistant of that stream, its every proposal included. *)
Theorem assembled_turn_acceptable es a t os stream message policy fs owners rows :
  push_all es assembler_new = Ok a → finish a = Ok t →
  published os = omap publication_payload es →
  fs = (publish_stream os (coalescer_new stream message policy)).1 →
  validate_proposal_frames (map payload fs) [] = Ok owners →
  map row_key rows = foldl key_step [] (map payload fs) →
  validate_canonical_tool_proposals rows
    (Assistant {| assistant_id := message; assistant_content := t_content t |}) = Ok ().
Proof.
  intros Hp Hf Hpub -> Hv Hrows. apply validate_frames_keys in Hv as Hkeys. cbn in Hkeys.
  rewrite <-Hkeys in Hrows. rewrite validate_published, Hpub in Hv.
  pose proof (push_all_ok _ _ _ Hp asm_new_ok) as Hok.
  pose proof (owners_ok_all _ _ _ Hp Hv) as Howners.
  destruct (owners_content _ _ _ Hok Howners Hf) as [H1 H2].
  eapply accept_rows; [done|by apply owners_nodup in Howners|done|done].
Qed.

(** ** Witnesses *)

(** A stream that reasons, says "hello", and calls one tool. *)
Definition demo_stream : list ModelEvent :=
  [EStarted; ReasoningDelta 0 (lit "why"); TextDelta 1 (lit "hel"); TextDelta 1 (lit "lo");
   ToolCallStarted 2 {| start_id := lit "c"; start_tool_id := lit "t"; start_name := lit "n" |};
   ToolCallArgumentsDelta 2 (lit "c") (lit "{"); ToolCallArgumentsDelta 2 (lit "c") (lit "}");
   ToolCallCompleted 2 {| call_id := lit "c"; call_tool_id := lit "t"; call_name := lit "n";
                          call_arguments := Object [] |};
   ECompleted ToolCalls None].

Definition demo_assembler : ModelEventAssembler :=
  match push_all demo_stream assembler_new with Ok a => a | Err _ => assembler_new end.

Definition empty_turn : AssembledTurn :=
  {| t_finish_reason := Stop; t_content := []; t_tool_calls := []; t_continuation := None;
     t_usage := None |}.

Definition demo_turn : AssembledTurn :=
  match finish demo_assembler with Ok t => t | Err _ => empty_turn end.

(** The same stream through the coalescer, at a one-hundred byte policy. *)
Definition demo_published : list publish_op :=
  map (λ p, Publish 0 0 p) (omap publication_payload demo_stream).

Definition demo_published_frames : list PublicationFrame :=
  (publish_stream demo_published
     (coalescer_new (lit "s") (lit "m") {| max_bytes := 100; max_latency_millis := 50 |})).1.

Definition demo_owners : list PublicationProposalOwner :=
  match validate_proposal_frames (map payload demo_published_frames) [] with
  | Ok o => o | Err _ => [] end.

Definition demo_rows : list Proposal :=
  map (λ o, {| p_call := o_call o; p_block := o_block o; p_tool := o_tool o; p_name := o_name o;
               p_state := o_state o; p_executed := false; p_settlement := None |}) demo_owners.

Lemma assembled_turn_consistent_witness :
  t_finish_reason demo_turn = ToolCalls ∧ t_tool_calls demo_turn = tool_calls_of (t_content demo_turn).
Proof.
  destruct (assembled_turn_consistent demo_stream demo_assembler demo_turn) as (_ & _ & H & _);
    [by vm_compute|by vm_compute|]. split; [by vm_compute|]. apply H. by vm_compute.
Defined.


Lemma assembled_turn_acceptable_witness :
  length demo_rows = 1 ∧
  validate_canonical_tool_proposals demo_rows
    (Assistant {| assistant_id := lit "m"; assistant_content := t_content demo_turn |}) = Ok ().
Proof.
  split; [by vm_compute|].
  apply (assembled_turn_acceptable demo_stream demo_assembler demo_turn demo_published (lit "s")
    (lit "m") {| max_bytes := 100; max_latency_millis := 50 |} demo_published_frames demo_owners);
    by vm_compute.
Defined.
