(* ===== verification/Conversation.v ===== *)
(** The canonical conversation ([src/src/conversation/]): the append-only Message Ledger
    ([ledger.rs]), the Surface that records its appends ([surface.rs]), the selection of
    canonical bodies they share ([selection.rs]), and the one commit path over both
    ([mod.rs]).

    [Arc] sharing of immutable bodies is sharing of values.  The read counters
    ([LedgerAccess], [SurfaceAccess]) are diagnostics and are left out, so a read leaves the
    state as it is. *)

From S2P Require Import Prelude Text Message.
From stdpp Require Import options.

(** ** The Message Ledger *)

Inductive LedgerError :=
| DuplicateMessageId (i : MessageId)
| UnknownMessage (i : MessageId).

Record MessageLedger := { records : list MessageBlock; index : gmap MessageId nat }.

(** [MessageLedger::new] *)
Definition ledger_new : MessageLedger := {| records := []; index := ∅ |}.

(** [MessageLedger::append_after_validation] *)
Definition ledger_append_after_validation (m : MessageBlock) (l : MessageLedger)
    : MessageId * MessageLedger :=
  let id := message_id_of m in
  (id, {| records := records l ++ [m]; index := <[id := length (records l)]> (index l) |}).

(** [MessageLedger::append] *)
Definition ledger_append (m : MessageBlock) (l : MessageLedger)
    : result LedgerError (MessageId * MessageLedger) :=
  let id := message_id_of m in
  if decide (is_Some (index l !! id)) then Err (DuplicateMessageId id)
  else Ok (ledger_append_after_validation m l).

(** [MessageLedger::get] and [shared]; an index past the records would panic, which
    [ledger_ok] excludes. *)
Definition ledger_get (i : MessageId) (l : MessageLedger) : option MessageBlock :=
  index l !! i ≫= λ position, records l !! position.

(** [MessageLedger::contains] *)
Definition ledger_contains (i : MessageId) (l : MessageLedger) : bool :=
  bool_decide (is_Some (index l !! i)).

(** [MessageLedger::audit_records] *)
Definition audit_records (l : MessageLedger) : list MessageBlock := records l.

(** ** The canonical selection *)

(** [module_index] *)
Definition module_index (m : AgentStatusModuleId) : nat :=
  match m with Time => 0 | Background => 1 | Todo => 2 end.

Record CanonicalSelection := {
  s_records : list MessageBlock;
  positions : gmap MessageId (nat * nat);
  non_status : nat;
  latest_status_of : list (option (MessageId * DateTime));
}.

(** [CanonicalSelection::default] *)
Definition selection_new : CanonicalSelection :=
  {| s_records := []; positions := ∅; non_status := 0; latest_status_of := [None; None; None] |}.

Definition ids (s : CanonicalSelection) : list MessageId := map message_id_of (s_records s).

(** [CanonicalSelection::position] *)
Definition sel_position (i : MessageId) (s : CanonicalSelection) : option nat :=
  fst <$> positions s !! i.

(** [CanonicalSelection::get] *)
Definition sel_get (i : MessageId) (s : CanonicalSelection) : option MessageBlock :=
  sel_position i s ≫= λ p, s_records s !! p.

(** [CanonicalSelection::latest_status] *)
Definition latest_status (m : AgentStatusModuleId) (s : CanonicalSelection)
    : option (MessageId * DateTime) :=
  mjoin (latest_status_of s !! module_index m).

(** [CanonicalSelection::non_status_since] *)
Definition non_status_since (i : MessageId) (s : CanonicalSelection) : option nat :=
  (λ p, non_status s - p.2) <$> positions s !! i.

(** [CanonicalSelection::append]; [None] is its assertion failing. *)
Definition sel_append (m : MessageBlock) (s : CanonicalSelection) : option CanonicalSelection :=
  let id := message_id_of m in
  if decide (is_Some (positions s !! id)) then None
  else
    let latest :=
      match agent_status_metadata m with
      | Some metadata =>
          foldl (λ latest module, <[module_index module := Some (id, generated_at metadata)]> latest)
            (latest_status_of s) (modules metadata)
      | None => latest_status_of s
      end in
    let count :=
      match agent_status_metadata m with
      | Some _ => non_status s
      | None => S (non_status s)
      end in
    Some {| s_records := s_records s ++ [m];
            positions := <[id := (length (s_records s), count)]> (positions s);
            non_status := count; latest_status_of := latest |}.

(** [Deserialize for CanonicalSelection], past the sequence of messages: [None] is the
    custom error "duplicate canonical selection identity". *)
Fixpoint deserialize_from (ms : list MessageBlock) (s : CanonicalSelection)
    : result () CanonicalSelection :=
  match ms with
  | [] => Ok s
  | m :: ms =>
      if decide (is_Some (sel_position (message_id_of m) s)) then Err ()
      else s ← ok_or () (sel_append m s); deserialize_from ms s
  end.

Definition deserialize (ms : list MessageBlock) : result () CanonicalSelection :=
  deserialize_from ms selection_new.

(** [Serialize for CanonicalSelection]: the sequence of its messages. *)
Definition serialize (s : CanonicalSelection) : list MessageBlock := s_records s.

(** ** The Conversation Surface *)

Abbreviation SurfaceRevision := N.

(** [SurfaceRevision::next]; [None] is its panic. *)
Definition next (r : SurfaceRevision) : option SurfaceRevision := u64_checked_add r 1.

Inductive SurfaceOp := Append (message_id : MessageId).

(** [SurfaceOp::introduces] *)
Definition introduces (o : SurfaceOp) : MessageId := match o with Append i => i end.

(** [apply_surface_op]: the reason of an error is its text. *)
Definition apply_surface_op (active : list MessageId) (o : SurfaceOp)
    : result str (list MessageId) :=
  match o with
  | Append i =>
      if decide (i ∈ active) then Err (lit "Surface Append repeats active message " ++ i)
      else Ok (active ++ [i])
  end.

Inductive SurfaceError :=
| AlreadyActive (i : MessageId)
| UnknownRevision (r : SurfaceRevision).

Record ConversationSurface := {
  active : CanonicalSelection;
  revision : SurfaceRevision;
  history_base_revision : SurfaceRevision;
  history_base_active : list MessageId;
  compaction_generation : N;
  ops : list SurfaceOp;
}.

(** [ConversationSurface::new] *)
Definition surface_new : ConversationSurface :=
  {| active := selection_new; revision := 0; history_base_revision := 0;
     history_base_active := []; compaction_generation := 0; ops := [] |}.

(** [ConversationSurface::from_current_head] *)
Definition from_current_head (sel : CanonicalSelection) (r : SurfaceRevision) (generation : N)
    : ConversationSurface :=
  {| active := sel; revision := r; history_base_revision := r; history_base_active := ids sel;
     compaction_generation := generation; ops := [] |}.

Record ConversationSurfaceHead := {
  h_revision : SurfaceRevision; h_generation : N; active_message_ids : list MessageId }.

(** [ConversationSurface::head] *)
Definition head (s : ConversationSurface) : ConversationSurfaceHead :=
  {| h_revision := revision s; h_generation := compaction_generation s;
     active_message_ids := ids (active s) |}.

(** [ConversationSurface::is_active] *)
Definition is_active (i : MessageId) (s : ConversationSurface) : bool :=
  bool_decide (is_Some (sel_position i (active s))).

(** [ConversationSurface::append_after_validation] *)
Definition surface_append_after_validation {E} (m : MessageBlock) (s : ConversationSurface)
    : result (fault E) (SurfaceRevision * ConversationSurface) :=
  sel ← expect (sel_append m (active s));
  r ← expect (next (revision s));
  Ok (r, {| active := sel; revision := r; history_base_revision := history_base_revision s;
            history_base_active := history_base_active s;
            compaction_generation := compaction_generation s;
            ops := ops s ++ [Append (message_id_of m)] |}).

(** [ConversationSurface::append] *)
Definition surface_append (m : MessageBlock) (s : ConversationSurface)
    : result (fault SurfaceError) (SurfaceRevision * ConversationSurface) :=
  if is_active (message_id_of m) s then Err (Fail (AlreadyActive (message_id_of m)))
  else surface_append_after_validation m s.

(** [ConversationSurface::reconstruct]; [usize] is 64 bits wide. *)
Definition reconstruct (r : SurfaceRevision) (s : ConversationSurface)
    : result SurfaceError (list MessageId) :=
  _ ← guard_err ((r <? history_base_revision s)%N || (revision s <? r)%N) (UnknownRevision r);
  let upto := N.to_nat (r - history_base_revision s) in
  _ ← guard_err (length (ops s) <? upto)%nat (UnknownRevision r);
  Ok (foldl (λ active op, active ++ [introduces op]) (history_base_active s) (take upto (ops s))).

(** ** The conversation state *)

Inductive ConversationError :=
| ELedger (e : LedgerError)
| ESurface (e : SurfaceError)
| DanglingSurfaceIdentity (i : MessageId).

Abbreviation C := (result (fault ConversationError)).

Record PreparedCanonicalCommit := { prepared_id : MessageId; prepared_message : MessageBlock }.

Record ConversationState := { ledger : MessageLedger; surface : ConversationSurface }.

(** [ConversationState::new] *)
Definition state_new : ConversationState := {| ledger := ledger_new; surface := surface_new |}.

(** [ConversationState::validate_commit] *)
Definition validate_commit (m : MessageBlock) (s : ConversationState) : C MessageId :=
  let id := message_id_of m in
  _ ← guard_err (is_active id (surface s)) (Fail (ESurface (AlreadyActive id)));
  _ ← guard_err (ledger_contains id (ledger s)) (Fail (ELedger (DuplicateMessageId id)));
  Ok id.

(** [ConversationState::prepare_commit] *)
Definition prepare_commit (m : MessageBlock) (s : ConversationState) : C PreparedCanonicalCommit :=
  id ← validate_commit m s;
  Ok {| prepared_id := id; prepared_message := m |}.

(** [ConversationState::install_prepared] *)
Definition install_prepared (p : PreparedCanonicalCommit) (s : ConversationState)
    : C (MessageId * ConversationState) :=
  let l := (ledger_append_after_validation (prepared_message p) (ledger s)).2 in
  body ← expect (ledger_get (prepared_id p) l);
  '(_, sf) ← surface_append_after_validation body (surface s);
  Ok (prepared_id p, {| ledger := l; surface := sf |}).

(** [ConversationState::commit] *)
Definition commit (m : MessageBlock) (s : ConversationState) : C (MessageId * ConversationState) :=
  id ← validate_commit m s;
  install_prepared {| prepared_id := id; prepared_message := m |} s.

(** The loop of [ConversationState::from_messages]. *)
Fixpoint commit_all (ms : list MessageBlock) (s : ConversationState) : C ConversationState :=
  match ms with
  | [] => Ok s
  | m :: ms => '(_, s) ← commit m s; commit_all ms s
  end.

(** [ConversationState::from_messages] *)
Definition from_messages (ms : list MessageBlock) : C ConversationState := commit_all ms state_new.

(** The first loop of [from_durable_head]. *)
Fixpoint load_ledger (ms : list MessageBlock) (l : MessageLedger) : C MessageLedger :=
  match ms with
  | [] => Ok l
  | m :: ms =>
      if bool_decide (ledger_get (message_id_of m) l = Some m) then load_ledger ms l
      else '(_, l) ← lift ELedger (ledger_append m l); load_ledger ms l
  end.

(** [active_ids.retain(|id| seen.insert(id.clone()))] *)
Fixpoint retain_first (seen : gset MessageId) (is_ : list MessageId) : list MessageId :=
  match is_ with
  | [] => []
  | i :: is_ =>
      if decide (i ∈ seen) then retain_first seen is_
      else i :: retain_first ({[i]} ∪ seen) is_
  end.

(** The selection loop of [from_durable_head]. *)
Fixpoint select_active (is_ : list MessageId) (l : MessageLedger) (sel : CanonicalSelection)
    : C CanonicalSelection :=
  match is_ with
  | [] => Ok sel
  | i :: is_ =>
      body ← ok_or (Fail (DanglingSurfaceIdentity i)) (ledger_get i l);
      sel ← expect (sel_append body sel);
      select_active is_ l sel
  end.

(** [ConversationState::from_durable_head] *)
Definition from_durable_head (ms : list MessageBlock) (active_ids : list MessageId)
    (r : SurfaceRevision) (generation : N) : C ConversationState :=
  l ← load_ledger ms ledger_new;
  sel ← select_active (retain_first ∅ active_ids) l selection_new;
  Ok {| ledger := l; surface := from_current_head sel r generation |}.

(** [ConversationState::hydrate] *)
Definition hydrate (is_ : list MessageId) (s : ConversationState)
    : result ConversationError (list MessageBlock) :=
  mapM (λ i, ok_or (DanglingSurfaceIdentity i) (ledger_get i (ledger s))) is_.

(** [ConversationState::active_messages] *)
Definition active_messages (s : ConversationState) : result ConversationError (list MessageBlock) :=
  hydrate (ids (active (surface s))) s.

(** [ConversationState::reconstruct_messages] *)
Definition reconstruct_messages (r : SurfaceRevision) (s : ConversationState)
    : result ConversationError (list MessageBlock) :=
  is_ ← map_err ESurface (reconstruct r (surface s));
  hydrate is_ s.

Record ConversationSurfaceSnapshot := {
  snap_revision : SurfaceRevision; snap_generation : N; snap_messages : CanonicalSelection }.

(** [ConversationState::freeze_active_surface] *)
Definition freeze_active_surface (s : ConversationState) : ConversationSurfaceSnapshot :=
  {| snap_revision := revision (surface s);
     snap_generation := compaction_generation (surface s);
     snap_messages := active (surface s) |}.

(** The candidate of one round of [allocate_context_message_id]. *)
Definition context_id (namespace : str) (serial : N) : MessageId :=
  lit "rustx-context-" ++ namespace ++ lit "-" ++ dec serial.

Fixpoint allocate_from (fuel : nat) (namespace : str) (serial : N) (l : MessageLedger)
    : option MessageId :=
  match fuel with
  | O => None
  | S fuel =>
      if negb (ledger_contains (context_id namespace serial) l)
      then Some (context_id namespace serial)
      else allocate_from fuel namespace (u64_saturating_add serial 1) l
  end.

(** [ConversationState::allocate_context_message_id]; the fuel is one round more than the
    ledger has records. *)
Definition allocate_context_message_id (namespace : str) (s : ConversationState)
    : option MessageId :=
  allocate_from (S (length (records (ledger s)))) namespace
    (N.max (revision (surface s)) (N.of_nat (length (records (ledger s))))) (ledger s).

(** ** Recovery safety *)

Definition tool_occurrences (ms : list MessageBlock) : gset ToolCallOccurrenceRef :=
  list_to_set (omap (λ m, match m with Tool t => Some (occurrence t) | _ => None end) ms).

(** The blocks of one Assistant from index [i] on: the first call without a result. *)
Fixpoint pending_in (results : gset ToolCallOccurrenceRef) (a : MessageId) (i : N)
    (content : list AssistantContentBlock) : option ToolCallId :=
  match content with
  | [] => None
  | AToolCall call :: content =>
      if decide ({| assistant_message_id := a; block_index := i |} ∈ results)
      then pending_in results a (i + 1) content
      else Some (call_id call)
  | _ :: content => pending_in results a (i + 1) content
  end.

(** [pending_tool_call]; an Assistant has fewer than [2 ^ 32] blocks (it panics past them). *)
Definition pending_tool_call (ms : list MessageBlock) : option ToolCallId :=
  let results := tool_occurrences ms in
  find_map (λ m, match m with
                 | Assistant a => pending_in results (assistant_id a) 0 (assistant_content a)
                 | _ => None
                 end) ms.

Inductive RecoverySafetyError := IncompleteToolTurn (c : ToolCallId).

(** [recovery_safety] *)
Definition recovery_safety (ms : list MessageBlock) : result RecoverySafetyError () :=
  match pending_tool_call ms with
  | Some c => Err (IncompleteToolTurn c)
  | None => Ok ()
  end.

(** ** What a ledger and a selection index *)

Record ledger_ok (l : MessageLedger) : Prop := {
  ledger_index : ∀ i p, index l !! i = Some p ↔
    ∃ m, records l !! p = Some m ∧ message_id_of m = i }.

Lemma ledger_new_ok : ledger_ok ledger_new.
Proof. split. intros i p. cbn. rewrite lookup_empty, lookup_nil. naive_solver. Qed.

Lemma ledger_get_Some l i m :
  ledger_ok l → ledger_get i l = Some m ↔ m ∈ records l ∧ message_id_of m = i.
Proof.
  intros [Hi]. unfold ledger_get. rewrite bind_Some, list_elem_of_lookup. split.
  - intros (p & (m' & Hm' & Hid)%Hi & Hm). rewrite Hm in Hm'. injection Hm' as <-.
    split; [by exists p|done].
  - intros [[p Hp] Hid]. exists p. split; [apply Hi; by exists m|done].
Qed.

Lemma ledger_contains_false l i :
  ledger_ok l → ledger_contains i l = false ↔ i ∉ map message_id_of (records l).
Proof.
  intros [Hi]. unfold ledger_contains. rewrite bool_decide_eq_false, <-eq_None_not_Some. split.
  - intros Hn Hin. apply list_elem_of_In, in_map_iff in Hin as (m & Hm & [p Hp]%list_elem_of_In%list_elem_of_lookup).
    assert (index l !! i = Some p) by (apply Hi; by exists m). congruence.
  - intros Hn. destruct (index l !! i) as [p|] eqn:E; [|done].
    apply Hi in E as (m & Hp & <-). destruct Hn. apply list_elem_of_In, in_map, list_elem_of_In.
    by eapply list_elem_of_lookup_2.
Qed.

Lemma ledger_append_ok m l :
  ledger_ok l → message_id_of m ∉ map message_id_of (records l) →
  ledger_ok (ledger_append_after_validation m l).2.
Proof.
  intros [Hi] Hn. split. intros i p. cbn.
  assert (Hlast : (records l ++ [m]) !! length (records l) = Some m)
    by (by rewrite lookup_app_r, Nat.sub_diag by lia).
  destruct (decide (i = message_id_of m)) as [->|Hne].
  - rewrite lookup_insert_eq. split; [intros [= <-]; by exists m|].
    intros (m' & [Hp|[Hle Hp]]%lookup_app_Some & Hid).
    + destruct Hn. rewrite <-Hid. apply list_elem_of_In, in_map, list_elem_of_In.
      by eapply list_elem_of_lookup_2.
    + apply list_lookup_singleton_Some in Hp as [? _]. f_equal. lia.
  - rewrite lookup_insert_ne by done. rewrite Hi. split; intros (m' & Hp & Hid).
    + exists m'. split; [by apply lookup_app_l_Some|done].
    + exists m'. split; [|done]. apply lookup_app_Some in Hp as [?|[_ Hp]]; [done|].
      apply list_lookup_singleton_Some in Hp as [_ ->]. congruence.
Qed.

(** *** The selection *)

Definition all_modules : list AgentStatusModuleId := [Time; Background; Todo].

Definition non_status_count (ms : list MessageBlock) : nat :=
  length (filter (λ m, agent_status_metadata m = None) ms).
Arguments non_status_count : simpl never.

(** The status generation of a module that [m] carries. *)
Definition status_in (module : AgentStatusModuleId) (m : MessageBlock)
    : option (MessageId * DateTime) :=
  metadata ← agent_status_metadata m;
  if decide (module ∈ modules metadata) then Some (message_id_of m, generated_at metadata) else None.

Definition latest_in (module : AgentStatusModuleId) (ms : list MessageBlock)
    : option (MessageId * DateTime) := last (omap (status_in module) ms).

Record sel_ok (s : CanonicalSelection) : Prop := {
  sel_positions : ∀ i p n, positions s !! i = Some (p, n) ↔ ∃ m, s_records s !! p = Some m ∧
    message_id_of m = i ∧ n = non_status_count (take (S p) (s_records s));
  sel_non_status : non_status s = non_status_count (s_records s);
  sel_latest : latest_status_of s = map (λ module, latest_in module (s_records s)) all_modules;
}.

Lemma selection_new_ok : sel_ok selection_new.
Proof. split; [|done|done]. intros i p n. cbn. rewrite lookup_empty, lookup_nil. naive_solver. Qed.

Lemma latest_update (g : AgentStatusModuleId → option (MessageId * DateTime)) v ms :
  foldl (λ latest module, <[module_index module := Some v]> latest) (map g all_modules) ms =
  map (λ k, if decide (k ∈ ms) then Some v else g k) all_modules.
Proof.
  revert g. induction ms as [|x ms IH]; intros g; cbn [foldl].
  - apply map_ext. intros k. rewrite decide_False; [done|apply not_elem_of_nil].
  - assert (Hx : <[module_index x := Some v]> (map g all_modules) =
      map (λ k, if decide (k = x) then Some v else g k) all_modules) by (by destruct x).
    rewrite Hx, IH. apply map_ext. intros k. repeat case_decide; set_solver.
Qed.

Lemma non_status_count_snoc ms m :
  non_status_count (ms ++ [m]) =
    match agent_status_metadata m with Some _ => non_status_count ms | None => S (non_status_count ms) end.
Proof.
  unfold non_status_count. rewrite filter_app, length_app, filter_cons, filter_nil.
  destruct (agent_status_metadata m); case_decide; simpl; (done || lia).
Qed.

Lemma latest_in_snoc module ms m :
  latest_in module (ms ++ [m]) =
    match status_in module m with Some x => Some x | None => latest_in module ms end.
Proof.
  unfold latest_in. rewrite omap_app. cbn. destruct (status_in module m) as [x|]; cbn.
  - apply last_snoc.
  - by rewrite app_nil_r.
Qed.

Lemma sel_position_Some s i p :
  sel_ok s → sel_position i s = Some p ↔ ids s !! p = Some i.
Proof.
  intros [Hp _ _]. unfold sel_position, ids. rewrite fmap_Some, list_lookup_fmap, fmap_Some. split.
  - intros ([q n] & (m & Hm & <- & _)%Hp & ->). by exists m.
  - intros (m & Hm & ->). eexists (p, _). split; [apply Hp; by exists m|done].
Qed.

Lemma sel_position_None s i : sel_ok s → sel_position i s = None ↔ i ∉ ids s.
Proof.
  intros Hs. rewrite list_elem_of_lookup, eq_None_not_Some. unfold is_Some.
  by setoid_rewrite (sel_position_Some s i _ Hs).
Qed.

Lemma ids_nodup s : sel_ok s → NoDup (ids s).
Proof.
  intros Hs. apply NoDup_alt. intros p q i Hp Hq.
  apply sel_position_Some in Hp, Hq; [|done..]. congruence.
Qed.

Lemma sel_append_Some m s s' :
  sel_ok s → sel_append m s = Some s' →
  sel_ok s' ∧ s_records s' = s_records s ++ [m] ∧ message_id_of m ∉ ids s.
Proof.
  intros Hs. pose proof (sel_position_None s (message_id_of m) Hs) as Hn. revert Hs.
  intros [Hp Hc Hl]. unfold sel_append.
  case_decide as Hnew; [done|]. apply eq_None_not_Some in Hnew. intros [= <-].
  assert (Hfresh : message_id_of m ∉ ids s) by (apply Hn; unfold sel_position; by rewrite Hnew).
  split; [|done]. split; cbn [s_records positions non_status latest_status_of].
  - intros i p n. destruct (decide (i = message_id_of m)) as [->|Hne].
    + rewrite lookup_insert_eq. split.
      * intros [= <- <-]. exists m. split_and!; [by rewrite lookup_app_r, Nat.sub_diag by lia|done|].
        rewrite take_ge by (rewrite length_app; cbn; lia). rewrite non_status_count_snoc, <-Hc.
        by destruct (agent_status_metadata m).
      * intros (m' & [Hm|[Hle Hm]]%lookup_app_Some & Hid & ->).
        -- destruct Hfresh. rewrite <-Hid. unfold ids. apply list_elem_of_In, in_map, list_elem_of_In.
           by eapply list_elem_of_lookup_2.
        -- apply list_lookup_singleton_Some in Hm as [Hz _].
           assert (p = length (s_records s)) as -> by lia.
           rewrite take_ge by (rewrite length_app; cbn; lia). rewrite non_status_count_snoc, <-Hc.
           by destruct (agent_status_metadata m).
    + rewrite lookup_insert_ne, Hp by done. split; intros (m' & Hm & Hid & ->); exists m'.
      * split_and!; [by apply lookup_app_l_Some|done|].
        rewrite take_app_le; [done|]. by apply lookup_lt_Some in Hm.
      * apply lookup_app_Some in Hm as [Hm|[_ Hm]].
        -- split_and!; [done|done|]. rewrite take_app_le; [done|]. by apply lookup_lt_Some in Hm.
        -- apply list_lookup_singleton_Some in Hm as [_ ->]. congruence.
  - rewrite non_status_count_snoc, Hc. by destruct (agent_status_metadata m).
  - rewrite Hl. destruct (agent_status_metadata m) as [metadata|] eqn:Em.
    + rewrite latest_update. apply map_ext. intros k. rewrite latest_in_snoc.
      unfold status_in. rewrite Em. cbn. by case_decide.
    + apply map_ext. intros k. rewrite latest_in_snoc. unfold status_in. by rewrite Em.
Qed.

Lemma sel_append_total m s : sel_ok s → message_id_of m ∉ ids s → is_Some (sel_append m s).
Proof.
  intros Hs Hn. apply sel_position_None in Hn; [|done]. unfold sel_position in Hn.
  apply fmap_None in Hn. unfold sel_append. rewrite decide_False; [done|].
  rewrite Hn. apply is_Some_None.
Qed.

(** *** The Surface and the state *)

Record surface_ok (s : ConversationSurface) : Prop := {
  surface_sel : sel_ok (active s);
  surface_history : ids (active s) = history_base_active s ++ map introduces (ops s);
  surface_revision : revision s = (history_base_revision s + N.of_nat (length (ops s)))%N;
}.

(** Every active body is the committed one. *)
Record conv_ok (s : ConversationState) : Prop := {
  conv_ledger : ledger_ok (ledger s);
  conv_surface : surface_ok (surface s);
  conv_bodies : ∀ m, m ∈ s_records (active (surface s)) → m ∈ records (ledger s);
}.

Lemma state_new_ok : conv_ok state_new.
Proof.
  split; [apply ledger_new_ok| |by intros m H; apply not_elem_of_nil in H].
  split; [apply selection_new_ok|done|done].
Qed.

Lemma is_active_false s i : sel_ok (active s) → is_active i s = false ↔ i ∉ ids (active s).
Proof.
  intros Hs. unfold is_active.
  rewrite bool_decide_eq_false, <-eq_None_not_Some. by apply sel_position_None.
Qed.

Lemma surface_append_ok {E} m s r s' :
  surface_ok s → surface_append_after_validation (E := E) m s = Ok (r, s') →
  surface_ok s' ∧ r = revision s' ∧ s_records (active s') = s_records (active s) ++ [m] ∧
  revision s' = (revision s + 1)%N ∧ compaction_generation s' = compaction_generation s ∧
  history_base_revision s' = history_base_revision s ∧
  history_base_active s' = history_base_active s ∧ ops s' = ops s ++ [Append (message_id_of m)].
Proof.
  intros [Hs Hh Hr]. unfold surface_append_after_validation, expect.
  intros (sel & Hsel%ok_or_ok & (n & Hn%ok_or_ok & [= <- <-])%bind_ok)%bind_ok.
  apply u64_checked_add_Some in Hn as [-> _].
  apply sel_append_Some in Hsel as (Hok & Hrec & _); [|done].
  split; [|by split_and!]. split; cbn; [done| |].
  - unfold ids in *. rewrite Hrec, !map_app, Hh. cbn. by rewrite (assoc_L (++)).
  - rewrite length_app. cbn. lia.
Qed.

(** The state after a commit. *)
Lemma commit_ok m s i s' :
  conv_ok s → commit m s = Ok (i, s') →
  conv_ok s' ∧ i = message_id_of m ∧ records (ledger s') = records (ledger s) ++ [m] ∧
  message_id_of m ∉ map message_id_of (records (ledger s)) ∧
  ∃ r, surface_append_after_validation (E := ConversationError) m (surface s) = Ok (r, surface s').
Proof.
  intros [Hl Hs Hb]. unfold commit, validate_commit.
  intros (j & Hv & Hinst)%bind_ok.
  apply bind_ok in Hv as ([] & Ha%guard_err_ok & ([] & Hc%guard_err_ok & [= <-])%bind_ok).
  apply ledger_contains_false in Hc; [|done].
  unfold install_prepared, expect in Hinst.
  apply bind_ok in Hinst as (body & Hbody%ok_or_ok & ([r sf] & Hsf & [= <- <-])%bind_ok).
  cbn [prepared_message prepared_id] in *.
  pose proof (ledger_append_ok m _ Hl Hc) as Hl'.
  apply ledger_get_Some in Hbody as [Hin Hid]; [|done].
  assert (body = m) as ->.
  { cbn in Hin. apply elem_of_app in Hin as [Hin|Hin%list_elem_of_singleton]; [|done].
    destruct Hc. rewrite <-Hid. by apply list_elem_of_In, in_map, list_elem_of_In. }
  destruct (surface_append_ok _ _ _ _ Hs Hsf) as (Hs' & _ & Hrec & _).
  split_and!; [|done|done|done|by exists r]. split; [done|done|]. cbn. rewrite Hrec.
  intros x. rewrite !elem_of_app. naive_solver.
Qed.

Lemma commit_all_ok ms s s' :
  conv_ok s → commit_all ms s = Ok s' →
  conv_ok s' ∧ records (ledger s') = records (ledger s) ++ ms ∧
  s_records (active (surface s')) = s_records (active (surface s)) ++ ms ∧
  revision (surface s') = (revision (surface s) + N.of_nat (length ms))%N ∧
  compaction_generation (surface s') = compaction_generation (surface s) ∧
  history_base_revision (surface s') = history_base_revision (surface s) ∧
  history_base_active (surface s') = history_base_active (surface s) ∧
  ops (surface s') = ops (surface s) ++ map (λ m, Append (message_id_of m)) ms.
Proof.
  revert s. induction ms as [|m ms IH]; intros s Hs; cbn.
  { intros [= <-]. rewrite !app_nil_r. split_and!; (done || lia). }
  intros ([i s1] & H1 & H2)%bind_ok.
  destruct (commit_ok _ _ _ _ Hs H1) as (Hs1 & _ & Hr1 & _ & r & Hsf).
  destruct (surface_append_ok _ _ _ _ (conv_surface _ Hs) Hsf) as (_ & _ & Ha1 & Hn1 & Hg1 & Hb1 & Hba1 & Ho1).
  destruct (IH _ Hs1 H2) as (Hs' & Hr & Ha & Hn & Hg & Hb & Hba & Ho).
  split_and!; [done|by rewrite Hr, Hr1, <-(assoc_L (++))|by rewrite Ha, Ha1, <-(assoc_L (++))|lia
    |congruence|congruence|congruence|by rewrite Ho, Ho1, <-(assoc_L (++))].
Qed.

(** What a commit does: a fresh identity is appended to the Ledger and to the Surface, one
    revision later, with the invariants kept; an identity that is already active, or only
    committed, is refused with its own error; and nothing else can go wrong short of the
    last revision. *)
Theorem commit_effect m s :
  conv_ok s → (revision (surface s) < u64_max)%N →
  match commit m s with
  | Ok (i, s') =>
      i = message_id_of m ∧ i ∉ map message_id_of (records (ledger s)) ∧
      records (ledger s') = records (ledger s) ++ [m] ∧
      s_records (active (surface s')) = s_records (active (surface s)) ++ [m] ∧
      revision (surface s') = (revision (surface s) + 1)%N ∧ conv_ok s'
  | Err (Fail (ESurface (AlreadyActive i))) =>
      i = message_id_of m ∧ i ∈ ids (active (surface s))
  | Err (Fail (ELedger (DuplicateMessageId i))) =>
      i = message_id_of m ∧ i ∉ ids (active (surface s)) ∧
      i ∈ map message_id_of (records (ledger s))
  | Err _ => False
  end.
Proof.
  intros Hs Hlt. destruct (commit m s) as [[i s']|e] eqn:E.
  { destruct (commit_ok _ _ _ _ Hs E) as (Hok & -> & Hr & Hn & r & Hsf).
    destruct (surface_append_ok _ _ _ _ (conv_surface _ Hs) Hsf) as (_ & _ & Ha & Hrev & _).
    by split_and!. }
  destruct Hs as [Hl [Hsel Hh Hr] Hb]. revert E. unfold commit, validate_commit.
  destruct (is_active _ _) eqn:Ea; cbn.
  { intros [= <-]. split; [done|]. apply dec_stable. intros Hn.
    apply is_active_false in Hn; [congruence|done]. }
  apply is_active_false in Ea; [|done].
  destruct (ledger_contains _ _) eqn:Ec; cbn.
  { intros [= <-]. split_and!; [done|done|]. apply dec_stable. intros Hn.
    apply ledger_contains_false in Hn; [congruence|done]. }
  apply ledger_contains_false in Ec; [|done]. unfold install_prepared. cbn [prepared_id prepared_message].
  rewrite (proj2 (ledger_get_Some _ (message_id_of m) m (ledger_append_ok m _ Hl Ec)))
    by (cbn; set_solver). simpl.
  destruct (sel_append_total m _ Hsel Ea) as [sel Hap]. unfold surface_append_after_validation.
  rewrite Hap. unfold next. simpl.
  assert (Hnext : u64_checked_add (revision (surface s)) 1 = Some (revision (surface s) + 1)%N)
    by (apply u64_checked_add_Some; split; [done|lia]).
  by rewrite Hnext.
Qed.

Lemma hydrate_ok s ms :
  conv_ok s → (∀ m, m ∈ ms → m ∈ records (ledger s)) →
  hydrate (map message_id_of ms) s = Ok ms.
Proof.
  intros Hs. unfold hydrate. induction ms as [|m ms IH]; intros Hin; cbn; [done|].
  rewrite (proj2 (ledger_get_Some _ _ m (conv_ledger _ Hs))) by (split; [apply Hin; constructor|done]).
  cbn in IH |- *. rewrite IH; [done|]. intros x Hx. apply Hin. by constructor.
Qed.

Lemma reconstruct_ok s r :
  surface_ok s → (history_base_revision s <= r <= revision s)%N →
  reconstruct r s = Ok (take (length (history_base_active s) + N.to_nat (r - history_base_revision s))
    (ids (active s))).
Proof.
  intros [_ Hh Hr] Hle. unfold reconstruct.
  destruct (N.ltb_spec r (history_base_revision s)), (N.ltb_spec (revision s) r); try lia. simpl.
  destruct (Nat.ltb_spec (length (ops s)) (N.to_nat (r - history_base_revision s))); [lia|]. simpl.
  rewrite Hh, take_app_add', <-fmap_take by done. f_equal.
  generalize (history_base_active s) (take (N.to_nat (r - history_base_revision s)) (ops s)).
  intros l os. revert l. induction os as [|o os IH]; intros l; cbn; [by rewrite app_nil_r|].
  by rewrite IH, <-(assoc_L (++)).
Qed.

Lemma reconstruct_unknown s r :
  surface_ok s → reconstruct r s = Err (UnknownRevision r) ↔
  (r < history_base_revision s ∨ revision s < r)%N.
Proof.
  intros Hs. split.
  - intros E. destruct (decide (history_base_revision s <= r <= revision s)%N) as [Hle|Hn]; [|lia].
    by rewrite reconstruct_ok in E.
  - unfold reconstruct. intros [Hlt|Hlt]; apply N.ltb_lt in Hlt; rewrite Hlt; [done|].
    by rewrite orb_true_r.
Qed.

(** The replay of an operation log. *)
Fixpoint replay (os : list SurfaceOp) (active : list MessageId) : result str (list MessageId) :=
  match os with
  | [] => Ok active
  | o :: os => active ← apply_surface_op active o; replay os active
  end.

Lemma replay_ok os l :
  NoDup (l ++ map introduces os) → replay os l = Ok (l ++ map introduces os).
Proof.
  revert l. induction os as [|[i] os IH]; intros l Hnd; cbn; [by rewrite app_nil_r|].
  cbn in Hnd. rewrite decide_False.
  - simpl. rewrite IH by (by rewrite <-(assoc_L (++))). by rewrite <-(assoc_L (++)).
  - apply NoDup_app in Hnd as (_ & Hd & _). intros Hi. apply (Hd i Hi). constructor.
Qed.

(** History is stable: after any number of further commits, the revision a state had
    still reconstructs to exactly the messages that were active then, older retained
    revisions reconstruct as before, revisions outside the retained range are refused, and
    the retained operation log replays to the active order. *)
Theorem surface_history_stable ms s s' :
  conv_ok s → commit_all ms s = Ok s' →
  reconstruct_messages (revision (surface s)) s' = Ok (s_records (active (surface s))) ∧
  active_messages s' = Ok (s_records (active (surface s)) ++ ms) ∧
  (∀ r, (r <= revision (surface s))%N → reconstruct r (surface s') = reconstruct r (surface s)) ∧
  (∀ r, reconstruct r (surface s') = Err (UnknownRevision r) ↔
     (r < history_base_revision (surface s) ∨ revision (surface s') < r)%N) ∧
  replay (ops (surface s')) (history_base_active (surface s')) = Ok (ids (active (surface s'))).
Proof.
  intros Hs Hc. destruct (commit_all_ok _ _ _ Hs Hc) as (Hs' & Hl & Ha & Hr & _ & Hb & Hba & Ho).
  pose proof (conv_surface _ Hs) as Hf. pose proof (conv_surface _ Hs') as Hf'.
  assert (Hids : ids (active (surface s')) = ids (active (surface s)) ++ map message_id_of ms)
    by (unfold ids; by rewrite Ha, map_app).
  assert (Hlen : length (ids (active (surface s))) =
    length (history_base_active (surface s)) + length (ops (surface s)))
    by (by rewrite (surface_history _ Hf), length_app, length_map).
  assert (Hback : ∀ r, (history_base_revision (surface s) <= r <= revision (surface s))%N →
    reconstruct r (surface s') = reconstruct r (surface s)).
  { intros r Hle. rewrite !reconstruct_ok by (done || (rewrite Hb; lia)). f_equal.
    rewrite Hids, Hb, Hba, take_app_le; [done|]. rewrite (surface_revision _ Hf) in Hle. lia. }
  split_and!.
  - unfold reconstruct_messages. rewrite Hback, reconstruct_ok
      by (done || rewrite (surface_revision _ Hf); lia). simpl.
    rewrite take_ge by (rewrite (surface_revision _ Hf); lia).
    apply hydrate_ok; [done|]. intros m Hm. rewrite Hl, elem_of_app. left. by apply conv_bodies in Hm.
  - unfold active_messages, ids. rewrite Ha. apply hydrate_ok; [done|].
    intros m Hm. rewrite Hl. apply elem_of_app. apply elem_of_app in Hm as [Hm|Hm]; [left|by right].
    by apply conv_bodies in Hm.
  - intros r Hle. destruct (decide (history_base_revision (surface s) <= r)%N) as [Hge|Hlt];
      [by apply Hback|].
    transitivity (Err (E := SurfaceError) (A := list MessageId) (UnknownRevision r));
      [|symmetry]; apply reconstruct_unknown; (done || lia).
  - intros r. rewrite reconstruct_unknown by done. by rewrite Hb.
  - rewrite replay_ok; rewrite <-(surface_history _ Hf'); [done|]. apply ids_nodup, Hf'.
Qed.

(** The selection's index says what its messages say: it is built from any messages of
    distinct identities and no others, serializes to them and reads back as itself, and
    positions, bodies, the ordinary messages since an identity and the latest status of a
    module are those of the sequence. *)
Theorem selection_reference ms :
  match deserialize ms with
  | Err _ => ¬ NoDup (map message_id_of ms)
  | Ok s =>
      NoDup (map message_id_of ms) ∧ serialize s = ms ∧ deserialize (serialize s) = Ok s ∧
      (∀ i p, sel_position i s = Some p ↔ map message_id_of ms !! p = Some i) ∧
      (∀ i m, sel_get i s = Some m ↔ m ∈ ms ∧ message_id_of m = i) ∧
      (∀ p m, ms !! p = Some m →
         non_status_since (message_id_of m) s = Some (non_status_count (drop (S p) ms))) ∧
      (∀ module, latest_status module s = latest_in module ms)
  end.
Proof.
  enough (∀ s0, sel_ok s0 →
    match deserialize_from ms s0 with
    | Err _ => ¬ NoDup (ids s0 ++ map message_id_of ms)
    | Ok s => sel_ok s ∧ s_records s = s_records s0 ++ ms
    end) as H.
  { specialize (H selection_new selection_new_ok). unfold deserialize, serialize.
    destruct (deserialize_from ms selection_new) as [s|] eqn:E; [|done].
    destruct H as [Hs Hr]. cbn in Hr. pose proof (ids_nodup _ Hs) as Hnd.
    unfold ids in Hnd. rewrite Hr in Hnd. split_and!; rewrite ?Hr; try done.
    - intros i p. rewrite sel_position_Some by done. unfold ids. by rewrite Hr.
    - intros i m. unfold sel_get. rewrite bind_Some, list_elem_of_lookup. split.
      + intros (p & Hp & Hm). rewrite Hr in Hm. split; [by exists p|].
        apply sel_position_Some in Hp; [|done]. unfold ids in Hp.
        rewrite Hr, list_lookup_fmap, Hm in Hp. by injection Hp.
      + intros ([p Hp] & <-). exists p. rewrite Hr. split; [|done].
        apply sel_position_Some; [done|]. unfold ids. by rewrite Hr, list_lookup_fmap, Hp.
    - intros p m Hp. unfold non_status_since.
      rewrite (proj2 (sel_positions _ Hs _ p (non_status_count (take (S p) ms)))).
      + cbn. f_equal. rewrite (sel_non_status _ Hs), Hr. rewrite <-(take_drop (S p) ms) at 1.
        unfold non_status_count. rewrite filter_app, length_app. lia.
      + exists m. by rewrite Hr.
    - intros module. unfold latest_status. rewrite (sel_latest _ Hs), Hr. by destruct module. }
  induction ms as [|m ms IH]; intros s0 Hs; cbn.
  { split; [done|by rewrite app_nil_r]. }
  case_decide as Ha.
  - destruct Ha as [p Hp%sel_position_Some%list_elem_of_lookup_2]; [|done].
    intros (_ & Hd & _)%NoDup_app. apply (Hd _ Hp). constructor.
  - apply eq_None_not_Some, sel_position_None in Ha; [|done].
    destruct (sel_append_total m _ Hs Ha) as [s1 E]. rewrite E. simpl.
    destruct (sel_append_Some _ _ _ Hs E) as (Hs1 & Hr1 & _).
    specialize (IH s1 Hs1). destruct (deserialize_from ms s1) as [s|].
    + destruct IH as [? ->]. split; [done|]. by rewrite Hr1, <-(assoc_L (++)).
    + revert IH. unfold ids. by rewrite Hr1, map_app, <-(assoc_L (++)).
Qed.

(** ** The durable head *)

Lemma load_ledger_spec ms l :
  ledger_ok l →
  match load_ledger ms l with
  | Ok l' => ledger_ok l' ∧ (∀ m, m ∈ records l' ↔ m ∈ records l ∨ m ∈ ms)
  | Err (Fail (ELedger (DuplicateMessageId i))) =>
      ∃ m m', m ∈ ms ∧ (m' ∈ records l ∨ m' ∈ ms) ∧ m ≠ m' ∧ message_id_of m = i ∧
        message_id_of m' = i
  | Err _ => False
  end.
Proof.
  revert l. induction ms as [|m ms IH]; intros l Hl; cbn [load_ledger].
  { split; [done|]. intros m. split; [by left|intros [?|H]; [done|by apply not_elem_of_nil in H]]. }
  case_bool_decide as Hg.
  - apply ledger_get_Some in Hg as [Hin _]; [|done]. specialize (IH l Hl).
    destruct (load_ledger ms l) as [l'|[|[[i|i]| |]]]; try done.
    + destruct IH as [Hl' IH]. split; [done|]. intros x. rewrite IH, elem_of_cons. naive_solver.
    + destruct IH as (x & y & ? & ? & ?). exists x, y. rewrite !elem_of_cons. naive_solver.
  - unfold ledger_append. case_decide as Hi.
    + cbn. destruct Hi as [p Hp]. apply (ledger_index _ Hl) in Hp as (m' & Hp & Hid).
      apply list_elem_of_lookup_2 in Hp. exists m, m'. split_and!; try done; [constructor|by left|].
      intros ->. apply Hg. by apply ledger_get_Some.
    + cbn. assert (Hc : ledger_contains (message_id_of m) l = false)
        by (unfold ledger_contains; by apply bool_decide_eq_false).
      apply ledger_contains_false in Hc; [|done].
      specialize (IH _ (ledger_append_ok m l Hl Hc)). cbn in IH.
      destruct (load_ledger ms _) as [l'|[|[[i|i]| |]]]; try done.
      * destruct IH as [Hl' IH]. split; [done|]. intros x.
        rewrite IH, elem_of_app, list_elem_of_singleton, elem_of_cons. naive_solver.
      * destruct IH as (x & y & Hx & Hy & ?). exists x, y.
        rewrite elem_of_app, list_elem_of_singleton in Hy. rewrite !elem_of_cons. naive_solver.
Qed.

Lemma retain_first_spec seen is_ :
  NoDup (retain_first seen is_) ∧ (∀ i, i ∈ retain_first seen is_ ↔ i ∈ is_ ∧ i ∉ seen).
Proof.
  revert seen. induction is_ as [|i is_ IH]; intros seen; cbn.
  { split; [constructor|]. intros i. split; [intros H; by apply not_elem_of_nil in H|].
    by intros [H%not_elem_of_nil _]. }
  case_decide as Hi.
  - destruct (IH seen) as [? IH']. split; [done|]. intros j. rewrite IH', elem_of_cons. naive_solver.
  - destruct (IH ({[i]} ∪ seen)) as [? IH']. split.
    + constructor; [rewrite IH'; set_solver|done].
    + intros j. rewrite !elem_of_cons, IH'. destruct (decide (j = i)) as [->|]; set_solver.
Qed.

Lemma select_active_spec is_ l sel :
  ledger_ok l → sel_ok sel → NoDup (ids sel ++ is_) →
  match select_active is_ l sel with
  | Ok sel' => sel_ok sel' ∧ ∃ ms, s_records sel' = s_records sel ++ ms ∧
      map message_id_of ms = is_ ∧ ∀ m, m ∈ ms → m ∈ records l
  | Err (Fail (DanglingSurfaceIdentity i)) => i ∈ is_ ∧ i ∉ map message_id_of (records l)
  | Err _ => False
  end.
Proof.
  intros Hl. revert sel. induction is_ as [|i is_ IH]; intros sel Hs Hnd; cbn [select_active].
  { split; [done|]. exists []. split_and!; [by rewrite app_nil_r|done|].
    intros m H. by apply not_elem_of_nil in H. }
  destruct (ledger_get i l) as [m|] eqn:E; simpl.
  - apply ledger_get_Some in E as [Hin <-]; [|done].
    assert (Hn : message_id_of m ∉ ids sel).
    { apply NoDup_app in Hnd as (_ & Hd & _). intros H. apply (Hd _ H). constructor. }
    destruct (sel_append_total m _ Hs Hn) as [sel1 E1]. rewrite E1. simpl.
    destruct (sel_append_Some _ _ _ Hs E1) as (Hs1 & Hr1 & _).
    assert (Hnd1 : NoDup (ids sel1 ++ is_)).
    { unfold ids. rewrite Hr1, map_app, <-(assoc_L (++)). exact Hnd. }
    specialize (IH sel1 Hs1 Hnd1). destruct (select_active is_ l sel1) as [sel'|[|[|?|j]]]; try done.
    + destruct IH as (Hs' & ms & Hr & <- & Hms). split; [done|]. exists (m :: ms).
      split_and!; [by rewrite Hr, Hr1, <-(assoc_L (++))|done|].
      intros x [->|Hx]%elem_of_cons; [done|by apply Hms].
    + destruct IH. split; [by constructor|done].
  - split; [constructor|]. intros H. apply list_elem_of_In, in_map_iff in H as (m & Hid & Hm%list_elem_of_In).
    assert (ledger_get i l = Some m) by (by apply ledger_get_Some). congruence.
Qed.

(** The durable head: hydration yields a well-formed state whose Surface is the recorded
    active order without repetitions, each identity resolved in the supplied messages, at
    the recorded revision and generation; it is refused exactly for an identity with two
    different bodies or an active identity without one. *)
Theorem from_durable_head_spec ms active_ids r generation :
  match from_durable_head ms active_ids r generation with
  | Ok s => conv_ok s ∧ ids (active (surface s)) = retain_first ∅ active_ids ∧
      NoDup (ids (active (surface s))) ∧
      (∀ i, i ∈ ids (active (surface s)) ↔ i ∈ active_ids) ∧
      (∀ m, m ∈ records (ledger s) ↔ m ∈ ms) ∧
      revision (surface s) = r ∧ compaction_generation (surface s) = generation ∧
      active_messages s = Ok (s_records (active (surface s)))
  | Err (Fail (ELedger (DuplicateMessageId i))) =>
      ∃ m m', m ∈ ms ∧ m' ∈ ms ∧ m ≠ m' ∧ message_id_of m = i ∧ message_id_of m' = i
  | Err (Fail (DanglingSurfaceIdentity i)) => i ∈ active_ids ∧ i ∉ map message_id_of ms
  | Err _ => False
  end.
Proof.
  unfold from_durable_head. pose proof (load_ledger_spec ms _ ledger_new_ok) as H.
  destruct (load_ledger ms ledger_new) as [l|[|[[i|i]| |]]]; try done; simpl.
  2: { destruct H as (m & m' & ? & [H%not_elem_of_nil|?] & ?); [done|]. by exists m, m'. }
  destruct H as [Hl Hrec].
  assert (Hin : ∀ m, m ∈ records l ↔ m ∈ ms)
    by (intros m; rewrite Hrec; split; [intros [H%not_elem_of_nil|?]; done|by right]).
  destruct (retain_first_spec ∅ active_ids) as [Hnd Hret].
  pose proof (select_active_spec _ l _ Hl selection_new_ok Hnd) as H.
  destruct (select_active _ l selection_new) as [sel|[|[|?|i]]]; try done; simpl.
  - destruct H as (Hs & bodies & Hr & Hids & Hb). cbn in Hr.
    assert (Hids' : ids sel = retain_first ∅ active_ids) by (unfold ids; by rewrite Hr).
    assert (Hok : conv_ok {| ledger := l; surface := from_current_head sel r generation |}).
    { split; [done| |cbn; rewrite Hr; apply Hb]. split; cbn; [done|by rewrite app_nil_r|lia]. }
    split_and!; try done; [by rewrite Hids'|..].
    + intros i. cbn. rewrite Hids', Hret. set_solver.
    + unfold active_messages. apply hydrate_ok; [done|]. cbn. by rewrite Hr.
  - destruct H as [Hi Hn]. split; [by apply Hret in Hi as [? _]|].
    intros H. apply Hn. apply list_elem_of_In, in_map_iff in H as (m & <- & Hm%list_elem_of_In%Hin).
    by apply list_elem_of_In, in_map, list_elem_of_In.
Qed.

(** ** Fresh context identities *)

Lemma context_id_inj namespace a b : context_id namespace a = context_id namespace b → a = b.
Proof. unfold context_id. intros H. do 3 apply app_inv_head in H. by apply dec_inj. Qed.

Lemma allocate_from_spec fuel namespace serial l :
  ledger_ok l → (serial + N.of_nat fuel <= u64_max + 1)%N →
  match allocate_from fuel namespace serial l with
  | Some i => ∃ k, (serial <= k < serial + N.of_nat fuel)%N ∧ i = context_id namespace k ∧
      i ∉ map message_id_of (records l) ∧
      ∀ j, (serial <= j < k)%N → context_id namespace j ∈ map message_id_of (records l)
  | None => ∀ j, (serial <= j < serial + N.of_nat fuel)%N →
      context_id namespace j ∈ map message_id_of (records l)
  end.
Proof.
  intros Hl. revert serial. induction fuel as [|fuel IH]; intros serial Hle; cbn; [lia|].
  destruct (ledger_contains _ l) eqn:E; cbn.
  - assert (Hin : context_id namespace serial ∈ map message_id_of (records l))
      by (apply dec_stable; intros Hn; apply ledger_contains_false in Hn; congruence).
    destruct fuel as [|fuel]; [intros j Hj; by replace j with serial by lia|].
    rewrite u64_saturating_add_small by lia. specialize (IH (serial + 1)%N ltac:(lia)).
    destruct (allocate_from (S fuel) namespace (serial + 1) l) as [i|].
    + destruct IH as (k & Hk & -> & Hn & Hj). exists k. split_and!; [lia|lia|done|done|].
      intros j Hlt. destruct (decide (j = serial)) as [->|]; [done|apply Hj; lia].
    + intros j Hlt. destruct (decide (j = serial)) as [->|]; [done|apply IH; lia].
  - apply ledger_contains_false in E; [|done]. exists serial. split_and!; [lia|lia|done|done|lia].
Qed.

(** A context identity can always be allocated, and it is fresh: the search meets a free
    serial within one round more than the Ledger has records, at the first serial at or
    above the revision and the Ledger length that is not taken. *)
Theorem context_id_fresh namespace s :
  conv_ok s →
  (N.max (revision (surface s)) (N.of_nat (length (records (ledger s)))) +
   N.of_nat (length (records (ledger s))) <= u64_max)%N →
  ∃ k, allocate_context_message_id namespace s = Some (context_id namespace k) ∧
    (revision (surface s) <= k)%N ∧ (N.of_nat (length (records (ledger s))) <= k)%N ∧
    context_id namespace k ∉ map message_id_of (records (ledger s)) ∧
    context_id namespace k ∉ ids (active (surface s)).
Proof.
  intros Hs Hle. unfold allocate_context_message_id.
  set (n := length (records (ledger s))) in *. set (serial := N.max _ _) in *.
  pose proof (allocate_from_spec (S n) namespace serial _ (conv_ledger _ Hs) ltac:(lia)) as H.
  destruct (allocate_from _ _ _ _) as [i|].
  - destruct H as (k & Hk & -> & Hn & _). exists k. split_and!; [done|lia|lia|done|].
    intros Hin. apply Hn. unfold ids in Hin.
    apply list_elem_of_In, in_map_iff in Hin as (m & <- & Hm%list_elem_of_In%(conv_bodies _ Hs)).
    by apply list_elem_of_In, in_map, list_elem_of_In.
  - exfalso.
    assert (Hincl : incl (map (λ k, context_id namespace (serial + N.of_nat k)) (seq 0 (S n)))
      (map message_id_of (records (ledger s)))).
    { intros i (k & <- & Hk%in_seq)%in_map_iff. apply list_elem_of_In, H. lia. }
    apply NoDup_incl_length in Hincl.
    + rewrite !length_map, length_seq in Hincl. fold n in Hincl. lia.
    + apply NoDup_ListNoDup, NoDup_fmap_2; [|apply NoDup_seq].
      intros x y E%context_id_inj. lia.
Qed.

(** ** Recovery safety *)

Definition call_at (ms : list MessageBlock) (a : MessageId) (i : N) (call : ToolCall) : Prop :=
  ∃ m, Assistant m ∈ ms ∧ assistant_id m = a ∧
    assistant_content m !! N.to_nat i = Some (AToolCall call).

Definition answered (ms : list MessageBlock) (a : MessageId) (i : N) : Prop :=
  ∃ t, Tool t ∈ ms ∧ occurrence t = {| assistant_message_id := a; block_index := i |}.

Lemma elem_of_tool_occurrences ms a i :
  {| assistant_message_id := a; block_index := i |} ∈ tool_occurrences ms ↔ answered ms a i.
Proof.
  unfold tool_occurrences, answered. rewrite elem_of_list_to_set, list_elem_of_omap. split.
  - intros ([| |t] & Hin & [= E]). by exists t.
  - intros (t & Hin & E). exists (Tool t). by rewrite E.
Qed.

Lemma pending_in_spec results a i content :
  match pending_in results a i content with
  | Some c => ∃ k call, content !! k = Some (AToolCall call) ∧ call_id call = c ∧
      {| assistant_message_id := a; block_index := i + N.of_nat k |} ∉ results ∧
      ∀ k' call', k' < k → content !! k' = Some (AToolCall call') →
        {| assistant_message_id := a; block_index := i + N.of_nat k' |} ∈ results
  | None => ∀ k call, content !! k = Some (AToolCall call) →
      {| assistant_message_id := a; block_index := i + N.of_nat k |} ∈ results
  end.
Proof.
  revert i. induction content as [|b content IH]; intros i; cbn; [done|].
  assert (Hshift : ∀ k, (i + 1 + N.of_nat k = i + N.of_nat (S k))%N) by lia.
  assert (Hnext : (∀ call, b = AToolCall call →
      {| assistant_message_id := a; block_index := i |} ∈ results) →
    match pending_in results a (i + 1) content with
    | Some c => ∃ k call, (b :: content) !! k = Some (AToolCall call) ∧ call_id call = c ∧
      {| assistant_message_id := a; block_index := i + N.of_nat k |} ∉ results ∧
      ∀ k' call', k' < k → (b :: content) !! k' = Some (AToolCall call') →
        {| assistant_message_id := a; block_index := i + N.of_nat k' |} ∈ results
    | None => ∀ k call, (b :: content) !! k = Some (AToolCall call) →
      {| assistant_message_id := a; block_index := i + N.of_nat k |} ∈ results
    end).
  { intros Hb. specialize (IH (i + 1)%N). destruct (pending_in results a (i + 1) content).
    - destruct IH as (k & call & Hk & Hid & Hn & Hlt). exists (S k), call. rewrite <-Hshift.
      split_and!; try done. intros [|k'] call' Hk' Hat.
      + injection Hat as ->. rewrite N.add_0_r. by eapply Hb.
      + rewrite <-Hshift. apply (Hlt k' call'); [lia|done].
    - intros [|k] call Hat; [injection Hat as ->; rewrite N.add_0_r; by eapply Hb|].
      rewrite <-Hshift. by eapply IH. }
  destruct b as [| |call| |]; try (by apply Hnext).
  case_decide as Hd; [by apply Hnext|]. exists 0, call. rewrite N.add_0_r.
  split_and!; [done|done|done|lia].
Qed.

(** Recovery is safe exactly when every committed tool call has a committed result for
    its exact occurrence; otherwise the refusal names a call that has none, and every call
    of an earlier message is answered. *)
Theorem recovery_safety_exact ms :
  match recovery_safety ms with
  | Ok _ => ∀ a i call, call_at ms a i call → answered ms a i
  | Err (IncompleteToolTurn c) =>
      ∃ before m after i call, ms = before ++ Assistant m :: after ∧
        assistant_content m !! N.to_nat i = Some (AToolCall call) ∧ call_id call = c ∧
        ¬ answered ms (assistant_id m) i ∧
        (∀ a j x, call_at before a j x → answered ms a j) ∧
        (∀ j x, (j < i)%N → assistant_content m !! N.to_nat j = Some (AToolCall x) →
           answered ms (assistant_id m) j)
  end.
Proof.
  assert (Hnone : ∀ xs, (∀ m, Assistant m ∈ xs →
      pending_in (tool_occurrences ms) (assistant_id m) 0 (assistant_content m) = None) →
    ∀ a i call, call_at xs a i call → answered ms a i).
  { intros xs Hn a i call (m & Hin & <- & Hat). apply elem_of_tool_occurrences.
    pose proof (pending_in_spec (tool_occurrences ms) (assistant_id m) 0 (assistant_content m)) as H.
    rewrite (Hn m Hin) in H. specialize (H _ _ Hat). by rewrite N2Nat.id, N.add_0_l in H. }
  unfold recovery_safety, pending_tool_call.
  set (f := λ m, match m with Assistant a => _ | _ => _ end).
  destruct (find_map f ms) as [c|] eqn:E.
  - apply find_map_split in E as (before & m & after & Hms & Hm & Hb).
    destruct m as [|m|]; [done| |done]. cbn in Hm.
    pose proof (pending_in_spec (tool_occurrences ms) (assistant_id m) 0 (assistant_content m)) as H.
    rewrite Hm in H. destruct H as (k & call & Hk & Hid & Hn & Hlt).
    exists before, m, after, (N.of_nat k), call.
    split_and!; [done|by rewrite Nat2N.id|done|by rewrite <-elem_of_tool_occurrences| |].
    + apply Hnone. intros m' Hin. apply (Hb _ Hin).
    + intros j x Hj Hat. apply elem_of_tool_occurrences.
      specialize (Hlt (N.to_nat j) x ltac:(lia) Hat). by rewrite N2Nat.id, N.add_0_l in Hlt.
  - apply Hnone. intros m Hin. exact (proj1 (find_map_None f ms) E (Assistant m) Hin).
Qed.

(** ** Witnesses *)

Definition demo_user (i : string) : MessageBlock :=
  User {| user_id := lit i; user_content := [UText (lit "hi")]; user_source := Human;
          user_kind := KMessage; user_timestamp := None |}.

Definition demo_state : ConversationState :=
  match from_messages [demo_user "a"; demo_user "b"] with Ok s => s | Err _ => state_new end.

Lemma demo_state_ok : conv_ok demo_state.
Proof.
  assert (H : from_messages [demo_user "a"; demo_user "b"] = Ok demo_state) by (by vm_compute).
  by apply (commit_all_ok _ _ _ state_new_ok) in H as [? _].
Qed.

Lemma commit_effect_witness :
  match commit (demo_user "c") demo_state with
  | Ok (_, s') => revision (surface s') = 3%N
  | Err _ => False
  end.
Proof.
  pose proof (commit_effect (demo_user "c") demo_state demo_state_ok ltac:(by vm_compute)) as H.
  destruct (commit (demo_user "c") demo_state) as [[i s']|e] eqn:E.
  - destruct H as (_ & _ & _ & _ & -> & _). by vm_compute.
  - by vm_compute in E.
Defined.

Lemma surface_history_stable_witness :
  ∃ s', commit_all [demo_user "c"; demo_user "d"] demo_state = Ok s' ∧
    reconstruct_messages 2 s' = Ok [demo_user "a"; demo_user "b"].
Proof.
  destruct (commit_all [demo_user "c"; demo_user "d"] demo_state) as [s'|e] eqn:E;
    [|by vm_compute in E].
  exists s'. split; [done|].
  destruct (surface_history_stable _ _ _ demo_state_ok E) as [H _]. exact H.
Defined.

Lemma context_id_fresh_witness :
  ∃ k, allocate_context_message_id (lit "goal") demo_state = Some (context_id (lit "goal") k) ∧
    context_id (lit "goal") k ∉ ids (active (surface demo_state)).
Proof.
  destruct (context_id_fresh (lit "goal") demo_state demo_state_ok ltac:(by vm_compute))
    as (k & ? & _ & _ & _ & ?). by exists k.
Defined.
