(* ===== verification/Attempt.v ===== *)
(** One agent attempt: the execution state machine ([src/src/agent/state.rs]) and the
    cancellation of the attempt ([src/src/agent/cancellation.rs],
    [src/src/runtime/cancellation.rs]) with its two gates.

    The gates are standard mutexes held across several statements, so the calls that take
    them are modelled as threads whose statements interleave: [advance] is one statement of
    one thread, [gate_step] any thread's next one.  [tokio_util]'s [CancellationToken] is
    the class [CancellationTokens]. *)

From S2P Require Import Prelude Text Message.
From stdpp Require Import options.

(** ** The execution state machine *)

Inductive ExecutionState := Idle | RunningModel | WaitingForTool | XCompleted | XFailed.

#[export] Instance ExecutionState_eq_dec : EqDecision ExecutionState.
Proof. solve_decision. Defined.

(** [ExecutionState::is_terminal] and [is_active] *)
Definition is_terminal (s : ExecutionState) : bool :=
  match s with XCompleted | XFailed => true | _ => false end.
Definition is_active (s : ExecutionState) : bool := negb (is_terminal s).

(** [describe] *)
Definition describe (s : ExecutionState) : str :=
  match s with
  | Idle => lit "idle"
  | RunningModel => lit "running_model"
  | WaitingForTool => lit "waiting_for_tool"
  | XCompleted => lit "completed"
  | XFailed => lit "failed"
  end.

(** [RuntimeError::InvalidState] *)
Inductive RuntimeError := InvalidState (message : str).

(** [ExecutionStateMachine::invalid_transition] *)
Definition invalid_transition (s to : ExecutionState) : RuntimeError :=
  InvalidState (lit "invalid agent execution transition from " ++ describe s ++ lit " to "
    ++ describe to).

(** [ExecutionStateMachine::transition] *)
Definition transition (from to s : ExecutionState) : result RuntimeError ExecutionState :=
  if decide (s = from) then Ok to else Err (invalid_transition s to).

(** [start], [model_finished], [tools_finished], [complete] and [fail] *)
Definition start : ExecutionState → result RuntimeError ExecutionState :=
  transition Idle RunningModel.
Definition model_finished (pending_tools : bool) (s : ExecutionState)
    : result RuntimeError ExecutionState :=
  if decide (s ≠ RunningModel)
  then Err (invalid_transition s (if pending_tools then WaitingForTool else RunningModel))
  else Ok (if pending_tools then WaitingForTool else s).
Definition tools_finished : ExecutionState → result RuntimeError ExecutionState :=
  transition WaitingForTool RunningModel.
Definition complete : ExecutionState → result RuntimeError ExecutionState :=
  transition RunningModel XCompleted.
Definition fail (s : ExecutionState) : result RuntimeError ExecutionState :=
  if is_active s then Ok XFailed else Err (invalid_transition s XFailed).

(** The calls on a machine, and what a run of them that ignores refusals leaves: the state
    and the calls that were accepted. *)
Inductive machine_call := Start | ModelFinished (pending_tools : bool) | ToolsFinished | Complete | Fail.

#[export] Instance machine_call_eq_dec : EqDecision machine_call.
Proof. solve_decision. Defined.

Definition call (c : machine_call) : ExecutionState → result RuntimeError ExecutionState :=
  match c with
  | Start => start
  | ModelFinished b => model_finished b
  | ToolsFinished => tools_finished
  | Complete => complete
  | Fail => fail
  end.

Fixpoint run_machine (cs : list machine_call) (s : ExecutionState) : list machine_call * ExecutionState :=
  match cs with
  | [] => ([], s)
  | c :: cs =>
      match call c s with
      | Ok s => let '(accepted, s) := run_machine cs s in (c :: accepted, s)
      | Err _ => run_machine cs s
      end
  end.

Definition settles (c : machine_call) : bool :=
  match c with Complete | Fail => true | _ => false end.

Definition is_complete (c : machine_call) : bool :=
  match c with Complete => true | _ => false end.

(** The model turns of a run that asked for tools, and the turns the tools gave back. *)
Definition count (c : machine_call) (cs : list machine_call) : nat :=
  length (filter (λ d, d = c) cs).

Lemma run_terminal cs s : is_terminal s = true → run_machine cs s = ([], s).
Proof.
  intros Hs. induction cs as [|c cs IH]; cbn; [done|].
  by destruct s; try done; destruct c as [|[]| | |].
Qed.

Lemma run_from_spec cs s accepted s' :
  run_machine cs s = (accepted, s') → is_terminal s = false →
  (is_terminal s' = false → Forall (λ c, settles c = false) accepted) ∧
  (is_terminal s' = true → ∃ body c, accepted = body ++ [c] ∧
     Forall (λ c, settles c = false) body ∧ c = (if decide (s' = XCompleted) then Complete else Fail) ∧
     (c = Complete → count (ModelFinished true) body + (if decide (s = WaitingForTool) then 1 else 0) =
        count ToolsFinished body)) ∧
  (is_terminal s' = false →
     count (ModelFinished true) accepted + (if decide (s = WaitingForTool) then 1 else 0) =
     count ToolsFinished accepted + (if decide (s' = WaitingForTool) then 1 else 0)).
Proof.
  revert s accepted. induction cs as [|c cs IH]; intros s accepted.
  { intros [= <- <-] Hs. cbn. split_and!; [done|congruence|done]. }
  cbn [run_machine]. destruct (call c s) as [s1|e] eqn:Ec; [|by apply IH].
  destruct (run_machine cs s1) as [acc s2] eqn:Er. intros [= <- <-] Hs.
  destruct (is_terminal s1) eqn:Ht1.
  - rewrite run_terminal in Er by done. injection Er as <- <-.
    split_and!; [congruence| |congruence]. intros _. exists [], c. split_and!; [done|constructor| |].
    + by destruct s, c as [|[]| | |]; try done; injection Ec as <-.
    + intros ->. by destruct s; try done; injection Ec as <-.
  - destruct (IH _ _ Er Ht1) as (H1 & H2 & H3).
    assert (Hns : settles c = false)
      by (destruct c as [|[]| | |]; try done; destruct s; try done; by injection Ec as <-).
    assert (Hcount : ∀ l, count (ModelFinished true) (c :: l) + (if decide (s = WaitingForTool) then 1 else 0)
      + count ToolsFinished l =
      count (ModelFinished true) l + (if decide (s1 = WaitingForTool) then 1 else 0)
      + count ToolsFinished (c :: l)).
    { intros l. destruct s, c as [|[]| | |]; try done; injection Ec as <-;
        try done; unfold count; rewrite !filter_cons; repeat case_decide; simpl; (done || lia). }
    split_and!.
    + intros Ht2. constructor; auto.
    + intros Ht2. destruct (H2 Ht2) as (body & d & -> & Hb & Hd & Hc).
      exists (c :: body), d. split_and!; [done|by constructor|done|].
      intros Hd'. specialize (Hc Hd'). specialize (Hcount body). lia.
    + intros Ht2. specialize (H3 Ht2). specialize (Hcount acc). lia.
Qed.

(** An attempt settles at most once and last: in any run of calls, refused ones included,
    a settlement ([complete] or [fail]) is the last accepted call and there is one exactly
    when the final state is terminal; success is only reached by [complete] with every
    requested tool batch given back, and while the attempt is unsettled it waits for tools
    exactly when one batch is outstanding. *)
Theorem attempt_settles_once cs accepted s :
  run_machine cs Idle = (accepted, s) →
  (is_terminal s = false → Forall (λ c, settles c = false) accepted ∧
     count (ModelFinished true) accepted =
       count ToolsFinished accepted + (if decide (s = WaitingForTool) then 1 else 0)) ∧
  (is_terminal s = true → ∃ body c, accepted = body ++ [c] ∧
     Forall (λ c, settles c = false) body ∧ c = (if decide (s = XCompleted) then Complete else Fail) ∧
     (s = XCompleted → count (ModelFinished true) body = count ToolsFinished body)) ∧
  (∀ more, is_terminal s = true → run_machine (cs ++ more) Idle = (accepted, s)).
Proof.
  intros Hrun. destruct (run_from_spec _ _ _ _ Hrun eq_refl) as (H1 & H2 & H3).
  change (if decide (Idle = WaitingForTool) then 1 else 0) with 0 in *.
  split_and!.
  - intros Ht. split; [by apply H1|]. specialize (H3 Ht). lia.
  - intros Ht. destruct (H2 Ht) as (body & c & -> & Hb & Hc & Hcount). exists body, c.
    split_and!; [done..|]. intros ->. specialize (Hcount Hc). lia.
  - intros more Ht. revert Hrun. clear H1 H2 H3. generalize Idle accepted.
    induction cs as [|c cs IH]; intros s0 acc; cbn [run_machine app].
    + intros [= <- <-]. by apply run_terminal.
    + destruct (call c s0) as [s1|]; [|apply IH].
      destruct (run_machine cs s1) as [acc1 s2] eqn:E. intros [= <- <-].
      by rewrite (IH _ _ E).
Qed.

(** ** Cancellation tokens *)

(** The documented behaviour of [tokio_util::sync::CancellationToken] that the sources rely
    on: [known s t] says that [t] exists, [under s u t] that [u] is [t] or was made from it
    by [child_token]s; cancelling a token cancels what is under it and nothing else. *)
Class CancellationTokens (S Tok : Type) := {
  child_token : Tok → S → Tok * S;
  token_cancel : Tok → S → S;
  token_is_cancelled : Tok → S → bool;
  known : S → Tok → Prop;
  under : S → Tok → Tok → Prop;
  under_refl s t : under s t t;
  cancel_spec s t u : token_is_cancelled u (token_cancel t s) = true ↔
    token_is_cancelled u s = true ∨ under s u t;
  cancel_under s t u v : under (token_cancel t s) u v ↔ under s u v;
  cancel_known s t u : known (token_cancel t s) u ↔ known s u;
  child_known s t u : known s t →
    known (child_token t s).2 u ↔ u = (child_token t s).1 ∨ known s u;
  child_fresh s t : known s t → ¬ known s (child_token t s).1;
  child_under s t u v : known s t → u ≠ (child_token t s).1 → v ≠ (child_token t s).1 →
    under (child_token t s).2 u v ↔ under s u v;
  child_under_new s t v : known s t → v ≠ (child_token t s).1 →
    under (child_token t s).2 (child_token t s).1 v ↔ under s t v;
  child_leaf s t u : known s t →
    under (child_token t s).2 u (child_token t s).1 → u = (child_token t s).1;
  child_cancelled s t : known s t →
    token_is_cancelled (child_token t s).1 (child_token t s).2 = token_is_cancelled t s;
  child_cancelled_old s t u : known s t → u ≠ (child_token t s).1 →
    token_is_cancelled u (child_token t s).2 = token_is_cancelled u s;
}.

(** ** The gates of one attempt *)

Section gates.
Context {S Tok : Type} `{CancellationTokens S Tok}.
(** The token of the attempt's [CancellationSignal]. *)
Context (token : Tok).

Inductive gate_event := EvCancelled | EvStart (i : nat) | EvGrant (i : nat).

(** The shared cells of [AgentCancellation] and its [CancellationSignal]: the holder of a
    mutex, and a log of the three facts the gates order. *)
Record Shared := {
  tokens : S;
  reason_cell : option CancellationReason;
  start_gate : option nat;
  commit_gate : option nat;
  log : list gate_event;
}.

(** The calls: [request_cancel(reason)]; [arbitrate_model_turn_start(commit)], where [commit]
    succeeds or not; [authorize_compaction_commit_with(.., eligible)]. *)
Inductive program :=
| RequestCancel (reason : CancellationReason)
| ArbitrateStart (commits : bool)
| AuthorizeCompaction (eligible : bool).

Inductive outcome :=
| Requested (first : bool)
| CancelledBeforeStart | StartedModel | CommitError
| Granted (grant : bool).

#[export] Instance outcome_eq_dec : EqDecision outcome.
Proof. solve_decision. Defined.

(** Where a call is: before its first lock, holding the first gate, holding both, past a
    statement of the critical section, or returned. *)
Inductive pc :=
| Ready | Gate | BothGates | Published (first : bool) | Signalled (first : bool)
| Unwinding (o : outcome) | Checked (cancelled : bool) | Leaving (o : outcome) | Returned (o : outcome).

#[export] Instance pc_eq_dec : EqDecision pc.
Proof. solve_decision. Defined.

Definition set_start_gate (g : option nat) (sh : Shared) : Shared :=
  {| tokens := tokens sh; reason_cell := reason_cell sh; start_gate := g;
     commit_gate := commit_gate sh; log := log sh |}.
Definition set_commit_gate (g : option nat) (sh : Shared) : Shared :=
  {| tokens := tokens sh; reason_cell := reason_cell sh; start_gate := start_gate sh;
     commit_gate := g; log := log sh |}.
Definition set_reason (r : option CancellationReason) (sh : Shared) : Shared :=
  {| tokens := tokens sh; reason_cell := r; start_gate := start_gate sh;
     commit_gate := commit_gate sh; log := log sh |}.
Definition add_event (e : gate_event) (sh : Shared) : Shared :=
  {| tokens := tokens sh; reason_cell := reason_cell sh; start_gate := start_gate sh;
     commit_gate := commit_gate sh; log := log sh ++ [e] |}.
Definition cancel_token (sh : Shared) : Shared :=
  {| tokens := token_cancel token (tokens sh); reason_cell := reason_cell sh;
     start_gate := start_gate sh; commit_gate := commit_gate sh; log := log sh ++ [EvCancelled] |}.
Definition is_cancelled (sh : Shared) : bool := token_is_cancelled token (tokens sh).

(** [lock()]: blocked while another thread holds the mutex. *)
Definition lock_start (i : nat) (c : pc) (sh : Shared) : option (Shared * pc) :=
  match start_gate sh with None => Some (set_start_gate (Some i) sh, c) | Some _ => None end.
Definition lock_commit (i : nat) (c : pc) (sh : Shared) : option (Shared * pc) :=
  match commit_gate sh with None => Some (set_commit_gate (Some i) sh, c) | Some _ => None end.

(** The next statement of thread [i]; [None] when it is blocked or has returned. *)
Definition advance (i : nat) (p : program) (c : pc) (sh : Shared) : option (Shared * pc) :=
  match p, c with
  (* [request_cancel], through [cancel_with] *)
  | RequestCancel _, Ready => lock_start i Gate sh
  | RequestCancel _, Gate => lock_commit i BothGates sh
  | RequestCancel reason, BothGates =>
      match reason_cell sh with
      | None => Some (set_reason (Some reason) sh, Published true)
      | Some _ => Some (sh, Published false)
      end
  | RequestCancel _, Published first => Some (cancel_token sh, Signalled first)
  | RequestCancel _, Signalled first =>
      Some (set_commit_gate None sh, Unwinding (Requested first))
  | RequestCancel _, Unwinding o => Some (set_start_gate None sh, Returned o)
  (* [arbitrate_model_turn_start] *)
  | ArbitrateStart _, Ready => lock_start i Gate sh
  | ArbitrateStart _, Gate => Some (sh, Checked (is_cancelled sh))
  | ArbitrateStart _, Checked true => Some (sh, Unwinding CancelledBeforeStart)
  | ArbitrateStart true, Checked false => Some (add_event (EvStart i) sh, Unwinding StartedModel)
  | ArbitrateStart false, Checked false => Some (sh, Unwinding CommitError)
  | ArbitrateStart _, Unwinding o => Some (set_start_gate None sh, Returned o)
  (* [with_active], with [authorize_compaction_commit_with]'s closure *)
  | AuthorizeCompaction _, Ready => lock_commit i Gate sh
  | AuthorizeCompaction _, Gate => Some (sh, Checked (is_cancelled sh))
  | AuthorizeCompaction _, Checked true => Some (sh, Leaving (Granted false))
  | AuthorizeCompaction true, Checked false => Some (add_event (EvGrant i) sh, Leaving (Granted true))
  | AuthorizeCompaction false, Checked false => Some (sh, Leaving (Granted false))
  | AuthorizeCompaction _, Leaving o => Some (set_commit_gate None sh, Returned o)
  | _, _ => None
  end.

Abbreviation threads := (list (program * pc)).

Inductive gate_step : Shared * threads → Shared * threads → Prop :=
| step_thread sh ths i p c sh' c' :
    ths !! i = Some (p, c) → advance i p c sh = Some (sh', c') →
    gate_step (sh, ths) (sh', <[i := (p, c')]> ths).

(** The calls of [ps], none of them begun, on a fresh attempt. *)
Definition gate_init (s : S) (ps : list program) : Shared * threads :=
  ({| tokens := s; reason_cell := None; start_gate := None; commit_gate := None; log := [] |},
   map (λ p, (p, Ready)) ps).

(** A schedule, thread by thread; a blocked thread's turn is lost. *)
Fixpoint run_schedule (is_ : list nat) (st : Shared * threads) : Shared * threads :=
  match is_ with
  | [] => st
  | i :: is_ =>
      run_schedule is_
        match st.2 !! i with
        | Some (p, c) => match advance i p c st.1 with
                         | Some (sh, c) => (sh, <[i := (p, c)]> st.2)
                         | None => st
                         end
        | None => st
        end
  end.

Lemma run_schedule_steps is_ st : rtc gate_step st (run_schedule is_ st).
Proof.
  revert st. induction is_ as [|i is_ IH]; intros [sh ths]; cbn; [done|].
  destruct (ths !! i) as [[p c]|] eqn:E; [|done].
  destruct (advance i p c sh) as [[sh' c']|] eqn:Ea; [|done].
  eapply rtc_l; [by econstructor|apply IH].
Qed.

(** *** What holds at every statement *)

Definition holds_start (p : program) (c : pc) : bool :=
  match p, c with
  | RequestCancel _, (Gate | BothGates | Published _ | Signalled _ | Unwinding _)
  | ArbitrateStart _, (Gate | Checked _ | Unwinding _) => true
  | _, _ => false
  end.

Definition holds_commit (p : program) (c : pc) : bool :=
  match p, c with
  | RequestCancel _, (BothGates | Published _ | Signalled _)
  | AuthorizeCompaction _, (Gate | Checked _ | Leaving _) => true
  | _, _ => false
  end.

(** What the thread returns, once that is decided. *)
Definition result_of (c : pc) : option outcome :=
  match c with
  | Unwinding o | Leaving o | Returned o => Some o
  | _ => None
  end.

(** The thread has published its cause: whether it was the first. *)
Definition published (c : pc) : option bool :=
  match c with
  | Published first | Signalled first | Unwinding (Requested first) | Leaving (Requested first)
  | Returned (Requested first) =>
      Some first
  | _ => None
  end.

Definition thread_ok (i : nat) (p : program) (c : pc) (sh : Shared) : Prop :=
  (c ≠ Ready → (∀ o, c ≠ Returned o) → holds_start p c || holds_commit p c = true) ∧
  (∀ b, c = Checked b → is_cancelled sh = b) ∧
  (∀ first, published c = Some first → is_Some (reason_cell sh) ∧
     ∃ r, p = RequestCancel r ∧ (first = true → reason_cell sh = Some r)) ∧
  (∀ first, published c = Some first → c ≠ Published first → is_cancelled sh = true) ∧
  (result_of c = Some StartedModel → EvStart i ∈ log sh) ∧
  (result_of c = Some (Granted true) → EvGrant i ∈ log sh) ∧
  (result_of c = Some CancelledBeforeStart → is_cancelled sh = true).

(** No start and no grant follows a cancellation in the log. *)
Definition ordered (l : list gate_event) : Prop :=
  ∃ l1 l2, l = l1 ++ l2 ∧ Forall (λ e, e ≠ EvCancelled) l1 ∧ Forall (λ e, e = EvCancelled) l2.

Record gate_ok (st : Shared * threads) : Prop := {
  gate_start : ∀ i, start_gate st.1 = Some i ↔
    ∃ p c, st.2 !! i = Some (p, c) ∧ holds_start p c = true;
  gate_commit : ∀ i, commit_gate st.1 = Some i ↔
    ∃ p c, st.2 !! i = Some (p, c) ∧ holds_commit p c = true;
  gate_threads : ∀ i p c, st.2 !! i = Some (p, c) → thread_ok i p c st.1;
  gate_first : ∀ i j p q c d, st.2 !! i = Some (p, c) → st.2 !! j = Some (q, d) →
    published c = Some true → published d = Some true → i = j;
  gate_cause : is_cancelled st.1 = true → is_Some (reason_cell st.1);
  gate_log : ordered (log st.1) ∧ (EvCancelled ∈ log st.1 ↔ is_cancelled st.1 = true);
}.

Lemma is_cancelled_cancel sh : is_cancelled (cancel_token sh) = true.
Proof. unfold is_cancelled, cancel_token. cbn. apply cancel_spec. right. apply under_refl. Qed.

(** What one statement does to a mutex. *)
Definition gate_change (h : program → pc → bool) (i : nat) (p : program) (c c' : pc)
    (g g' : option nat) : Prop :=
  (g' = g ∧ h p c' = h p c) ∨
  (g = None ∧ g' = Some i ∧ h p c = false ∧ h p c' = true) ∨
  (h p c = true ∧ g' = None ∧ h p c' = false).

Lemma advance_start i p c sh sh' c' :
  advance i p c sh = Some (sh', c') → gate_change holds_start i p c c' (start_gate sh) (start_gate sh').
Proof.
  unfold advance, lock_start, lock_commit, gate_change.
  destruct p as [r|[]|[]], c as [| | | | | |[]| |]; try done;
    repeat case_match; intros [= <- <-]; cbn; naive_solver.
Qed.

Lemma advance_commit i p c sh sh' c' :
  advance i p c sh = Some (sh', c') →
  gate_change holds_commit i p c c' (commit_gate sh) (commit_gate sh').
Proof.
  unfold advance, lock_start, lock_commit, gate_change.
  destruct p as [r|[]|[]], c as [| | | | | |[]| |]; try done;
    repeat case_match; intros [= <- <-]; cbn; naive_solver.
Qed.

Lemma gate_update h i p c c' (g g' : option nat) (ths : threads) :
  ths !! i = Some (p, c) → gate_change h i p c c' g g' →
  (∀ j, g = Some j ↔ ∃ q d, ths !! j = Some (q, d) ∧ h q d = true) →
  ∀ j, g' = Some j ↔ ∃ q d, <[i := (p, c')]> ths !! j = Some (q, d) ∧ h q d = true.
Proof.
  intros Hi Hch Hg j. pose proof (lookup_lt_Some _ _ _ Hi) as Hlt.
  assert (Hown : h p c = true → g = Some i) by (intros Hh; apply Hg; by exists p, c).
  assert (Hown' : g = Some i → h p c = true).
  { intros (q & d & Hq & Hd)%Hg. rewrite Hi in Hq. by injection Hq as <- <-. }
  destruct (decide (j = i)) as [->|Hne].
  - rewrite list_lookup_insert_eq by done.
    destruct Hch as [[-> Hh]|[(-> & -> & Hh & Hh')|(Hh & -> & Hh')]].
    + split; [intros ?; exists p, c'; split; [done|]; rewrite Hh; auto|].
      intros (q & d & [= <- <-] & Hd). apply Hown. congruence.
    + split; [intros _; by exists p, c'|done].
    + split; [done|]. intros (q & d & [= <- <-] & Hd). congruence.
  - rewrite list_lookup_insert_ne by done. rewrite <-Hg.
    destruct Hch as [[-> _]|[(-> & -> & _)|(Hh & -> & _)]]; [done| |].
    + split; [intros [= ->]; done|done].
    + split; [done|]. rewrite (Hown Hh). intros [= ->]. done.
Qed.

(** What one statement does to the token, the cause and the log. *)
Inductive effect (i : nat) (p : program) (c c' : pc) (sh sh' : Shared) : Prop :=
| effect_none : tokens sh' = tokens sh → reason_cell sh' = reason_cell sh → log sh' = log sh →
    published c' = published c → effect i p c c' sh sh'
| effect_cause r first : p = RequestCancel r → c = BothGates → c' = Published first →
    reason_cell sh' = Some (default r (reason_cell sh)) →
    first = bool_decide (reason_cell sh = None) →
    tokens sh' = tokens sh → log sh' = log sh → effect i p c c' sh sh'
| effect_cancel r first : p = RequestCancel r → c = Published first → c' = Signalled first →
    sh' = cancel_token sh → effect i p c c' sh sh'
| effect_start : p = ArbitrateStart true → c = Checked false → c' = Unwinding StartedModel →
    sh' = add_event (EvStart i) sh → effect i p c c' sh sh'
| effect_grant : p = AuthorizeCompaction true → c = Checked false → c' = Leaving (Granted true) →
    sh' = add_event (EvGrant i) sh → effect i p c c' sh sh'.

Lemma advance_effect i p c sh sh' c' :
  advance i p c sh = Some (sh', c') → effect i p c c' sh sh'.
Proof.
  unfold advance, lock_start, lock_commit. intros Ha.
  destruct p as [r|[]|[]], c as [| | | | |o|[]|o|]; try discriminate Ha;
    try (by injection Ha as <- <-; apply effect_none; try destruct o);
    try (by destruct (start_gate sh); try discriminate Ha; injection Ha as <- <-; apply effect_none);
    try (by destruct (commit_gate sh); try discriminate Ha; injection Ha as <- <-; apply effect_none).
  - destruct (reason_cell sh) as [r0|] eqn:Er; injection Ha as <- <-.
    + by eapply effect_cause; rewrite ?Er.
    + by eapply effect_cause; rewrite ?Er.
  - injection Ha as <- <-. by eapply effect_cancel.
  - injection Ha as <- <-. by eapply effect_start.
  - injection Ha as <- <-. by eapply effect_grant.
Qed.

Lemma ordered_snoc (l : list gate_event) e :
  ordered l → (e ≠ EvCancelled → EvCancelled ∉ l) → ordered (l ++ [e]).
Proof.
  intros (l1 & l2 & -> & H1 & H2) He. destruct e; [|rewrite elem_of_app in He..].
  - exists l1, (l2 ++ [EvCancelled]). rewrite (assoc_L (++)). split_and!; [done|done|].
    apply Forall_app. by repeat constructor.
  - assert (l2 = []) as ->.
    { destruct l2; [done|]. inversion_clear H2. subst. exfalso. apply He; [done|]. right. constructor. }
    exists (l1 ++ [EvStart i]), []. rewrite !app_nil_r. split_and!; [done| |done].
    apply Forall_app. by repeat constructor.
  - assert (l2 = []) as ->.
    { destruct l2; [done|]. inversion_clear H2. subst. exfalso. apply He; [done|]. right. constructor. }
    exists (l1 ++ [EvGrant i]), []. rewrite !app_nil_r. split_and!; [done| |done].
    apply Forall_app. by repeat constructor.
Qed.

(** A statement keeps what the other threads rely on. *)
Lemma thread_stable i p c c' sh sh' j q d :
  effect i p c c' sh sh' → thread_ok j q d sh →
  (∀ r first, p = RequestCancel r → c = Published first →
     holds_start q d = false ∧ holds_commit q d = false) →
  thread_ok j q d sh'.
Proof.
  intros He (H0 & H1 & H2 & H3 & H4 & H5 & H6) Hgates.
  destruct He as [Ht Hr Hl _| r first -> -> -> Hr _ Ht Hl | r first -> -> -> -> | -> -> -> -> | -> -> -> ->];
    unfold thread_ok, is_cancelled in *; cbn [tokens reason_cell log add_event] in *.
  - rewrite Ht, Hr, Hl. by split_and!.
  - rewrite Ht, Hr, Hl. split_and!; try done. intros f Hf. destruct (H2 f Hf) as [[r0 Hr0] (r1 & -> & Heq)].
    rewrite Hr0. cbn. split; [done|]. exists r1. split; [done|]. intros Hf'. rewrite <-Heq, Hr0 by done. done.
  - destruct (Hgates r first eq_refl eq_refl) as [Hs Hc].
    pose proof (is_cancelled_cancel sh) as Hcan. unfold is_cancelled in Hcan. cbn in Hcan |- *.
    split_and!; try done.
    + intros b ->. exfalso. by rewrite Hs, Hc in H0; discriminate H0.
    + intros Hx. apply elem_of_app. left. auto.
    + intros Hx. apply elem_of_app. left. auto.
  - split_and!; try done; intros Hx; apply elem_of_app; left; auto.
  - split_and!; try done; intros Hx; apply elem_of_app; left; auto.
Qed.

(** A statement establishes what its own thread relies on next. *)
Lemma thread_next i p c c' sh sh' :
  advance i p c sh = Some (sh', c') → thread_ok i p c sh → thread_ok i p c' sh'.
Proof.
  intros Ha (_ & H1 & H2 & H3 & H4 & H5 & H6). unfold advance, lock_start, lock_commit in Ha.
  pose proof (is_cancelled_cancel sh) as Hcan.
  assert (Hlast : ∀ e, e ∈ log sh ++ [e]) by (intros e; apply elem_of_app; right; constructor).
  destruct p as [r|[]|[]], c as [| | |f|f|o|[]|o|o]; try discriminate Ha;
    repeat (let E := fresh "E" in match type of Ha with
            | match ?x with _ => _ end = _ => destruct x eqn:E; try discriminate Ha end);
    injection Ha as <- <-; cbn [published result_of] in *;
    (split_and!; [intros _ Hr|intros b Hb|intros f' Hf|intros f' Hf Hne|intros Hx|intros Hx|intros Hx]);
    simplify_eq/=; try done;
    first [exact (H4 eq_refl)|exact (H5 eq_refl)|exact (H6 eq_refl)
          |exact (H2 _ eq_refl)|exact (H3 _ eq_refl ltac:(discriminate))
          |exact (H2 _ Hf)|exact (H3 _ Hf ltac:(discriminate))
          |exact (H1 _ eq_refl)|by destruct (Hr _ eq_refl)
          |rewrite ?E; split; [done|]; eexists; (split; [done|congruence])].
Qed.

Lemma gate_step_ok st st' : gate_step st st' → gate_ok st → gate_ok st'.
Proof.
  intros Hst [Hs Hc Ht Hf Hca [Hlo Hlc]]. inversion Hst as [sh ths i p c sh' c' Hi Ha]; subst.
  cbn [fst snd] in *. pose proof (lookup_lt_Some _ _ _ Hi) as Hlt.
  pose proof (advance_effect _ _ _ _ _ _ Ha) as He. pose proof (Ht _ _ _ Hi) as Hti.
  pose proof (thread_next _ _ _ _ _ _ Ha Hti) as Hti'.
  assert (Hother : ∀ j q d, j ≠ i → <[i:=(p, c')]> ths !! j = Some (q, d) → ths !! j = Some (q, d))
    by (intros j q d Hne; by rewrite list_lookup_insert_ne).
  assert (Hself : ∀ q d, <[i:=(p, c')]> ths !! i = Some (q, d) → q = p ∧ d = c')
    by (intros q d; rewrite list_lookup_insert_eq by done; by intros [= <- <-]).
  split; cbn [fst snd].
  - apply (gate_update holds_start i p c c' (start_gate sh)); [done| |done]. by apply advance_start in Ha.
  - apply (gate_update holds_commit i p c c' (commit_gate sh)); [done| |done]. by apply advance_commit in Ha.
  - intros j q d Hj. destruct (decide (j = i)) as [->|Hne].
    { by apply Hself in Hj as [-> ->]. }
    apply Hother in Hj; [|done]. eapply thread_stable; [done|by apply Ht|].
    intros r first -> ->.
    assert (start_gate sh = Some i) by (apply Hs; by eexists _, _).
    assert (commit_gate sh = Some i) by (apply Hc; by eexists _, _).
    split; apply not_true_is_false; intros Hh.
    + assert (start_gate sh = Some j) by (apply Hs; by exists q, d). congruence.
    + assert (commit_gate sh = Some j) by (apply Hc; by exists q, d). congruence.
  - (* at most one first cause *)
    assert (Hnew : published c' = Some true → published c = Some true ∨ reason_cell sh = None).
    { destruct He as [_ _ _ E|r f _ _ -> _ -> _ _|r f _ -> -> _|_ _ -> _|_ _ -> _]; cbn; try done;
        [rewrite E; by left|intros [= Hb]; right; exact (bool_decide_eq_true_1 _ Hb)|by left]. }
    assert (Hone : ∀ j q d, j ≠ i → ths !! j = Some (q, d) → published d = Some true →
      published c' = Some true → j = i).
    { intros j q d Hne Hj Hd [Hpub|Hnone]%Hnew; [by eapply Hf|].
      destruct (Ht _ _ _ Hj) as (_ & _ & H2 & _). destruct (H2 _ Hd) as [[? ?] _]. congruence. }
    intros j k q q' d d' Hj Hk Hd Hd'.
    destruct (decide (j = i)) as [->|Hj'], (decide (k = i)) as [->|Hk']; [done| | |].
    + apply Hself in Hj as [-> ->]. symmetry. eapply Hone; eauto.
    + apply Hself in Hk as [-> ->]. eapply Hone; eauto.
    + by eapply Hf; eauto.
  - destruct He as [Et Er _ _|r f _ _ _ Er _ Et _|r f -> -> _ ->|_ _ _ ->|_ _ _ ->];
      unfold is_cancelled in *; cbn [tokens reason_cell add_event cancel_token]; rewrite ?Er, ?Et; try done.
    intros _. destruct Hti as (_ & _ & H2 & _). by destruct (H2 f eq_refl).
  - destruct Hti as (_ & H1 & _).
    destruct He as [Et _ El _|r f _ _ _ _ _ Et El|r f -> -> _ ->| -> -> _ ->| -> -> _ ->].
    + unfold is_cancelled in *. by rewrite Et, El.
    + unfold is_cancelled in *. by rewrite Et, El.
    + split; [by apply ordered_snoc|]. rewrite is_cancelled_cancel. split; [done|].
      intros _. cbn. apply elem_of_app. right. constructor.
    + pose proof (H1 false eq_refl) as Hcan. split.
      * apply ordered_snoc; [done|]. intros _ Hin%Hlc. congruence.
      * unfold is_cancelled in *. cbn. rewrite elem_of_app, list_elem_of_singleton, Hlc. naive_solver.
    + pose proof (H1 false eq_refl) as Hcan. split.
      * apply ordered_snoc; [done|]. intros _ Hin%Hlc. congruence.
      * unfold is_cancelled in *. cbn. rewrite elem_of_app, list_elem_of_singleton, Hlc. naive_solver.
Qed.

Lemma gate_init_ok s ps : token_is_cancelled token s = false → gate_ok (gate_init s ps).
Proof.
  intros Hs. assert (Hready : ∀ i p c, (map (λ p, (p, Ready)) ps) !! i = Some (p, c) → c = Ready).
  { intros i p c. rewrite list_lookup_fmap. destruct (ps !! i); cbn; congruence. }
  split; cbn [gate_init fst snd start_gate commit_gate reason_cell log].
  - intros i. split; [done|]. intros (p & c & ->%Hready & Hh). by destruct p.
  - intros i. split; [done|]. intros (p & c & ->%Hready & Hh). by destruct p.
  - intros i p c ->%Hready. by split_and!.
  - intros i j p q c d ->%Hready. done.
  - unfold is_cancelled. cbn. congruence.
  - split; [by exists [], []|]. unfold is_cancelled. cbn. rewrite Hs.
    split; [intros H'; by apply not_elem_of_nil in H'|done].
Qed.

Lemma gate_reachable_ok s ps st :
  token_is_cancelled token s = false → rtc gate_step (gate_init s ps) st → gate_ok st.
Proof.
  intros Hs Hrtc. pose proof (gate_init_ok s ps Hs) as H0. revert H0.
  induction Hrtc as [|x y z Hxy _ IH]; [done|]. intros H0. by apply IH, (gate_step_ok x).
Qed.


(** The gates never deadlock: in every reachable state in which some call has not
    returned, some call can take its next statement. *)
Theorem gates_deadlock_free s ps sh ths i p c :
  token_is_cancelled token s = false → rtc gate_step (gate_init s ps) (sh, ths) →
  ths !! i = Some (p, c) → (∀ o, c ≠ Returned o) → ∃ st', gate_step (sh, ths) st'.
Proof.
  intros Hs Hrtc Hi Hret.
  destruct (gate_reachable_ok _ _ _ Hs Hrtc) as [Hgs Hgc Ht _ _ _]. cbn [fst snd] in *.
  enough (∃ j q d sh' d', ths !! j = Some (q, d) ∧ advance j q d sh = Some (sh', d'))
    as (j & q & d & sh' & d' & Hj & Ha) by (eexists; by econstructor).
  destruct (commit_gate sh) as [j|] eqn:Ec.
  { destruct (proj1 (Hgc j) eq_refl) as (q & d & Hj & Hh). exists j, q, d.
    destruct q as [r|[]|[]], d as [| | |f|f|o|[]|o|o]; try discriminate Hh; cbn;
      repeat case_match; do 2 eexists; split; done. }
  destruct (start_gate sh) as [j|] eqn:Es.
  { destruct (proj1 (Hgs j) eq_refl) as (q & d & Hj & Hh). exists j, q, d.
    destruct q as [r|[]|[]], d as [| | |f|f|o|[]|o|o]; try discriminate Hh; cbn;
      unfold lock_commit; rewrite ?Ec; repeat case_match; do 2 eexists; split; done. }
  exists i, p, c. destruct (decide (c = Ready)) as [->|Hne].
  - destruct p as [r|[]|[]]; cbn; unfold lock_start, lock_commit; rewrite ?Es, ?Ec; do 2 eexists; split; done.
  - exfalso. destruct (Ht _ _ _ Hi) as (H0 & _). specialize (H0 Hne Hret).
    apply orb_true_iff in H0 as [Hh|Hh].
    + assert (None = Some i) by (apply Hgs; by exists p, c). done.
    + assert (None = Some i) by (apply Hgc; by exists p, c). done.
Qed.
End gates.

(** ** Execution views *)

Inductive ToolDeadlineKind := DeadlineHard | DeadlineIdle.

Inductive ToolCancellationCause :=
| CauseAttempt (reason : CancellationReason)
| CauseDeadline (kind : ToolDeadlineKind).

Section views.
Context {S Tok : Type} `{CancellationTokens S Tok}.
(** The attempt: its token and its default reason. *)
Context (token : Tok) (default_reason : CancellationReason).

(** An [ExecutionCancellation] of the attempt: the attempt's own view, or one made by
    [child_execution], with the [OnceLock] cell of its [NativeCancellationAuthority]. *)
Inductive ExecutionCancellation :=
| AttemptView
| ChildView (signal : Tok) (winner : nat) (parent : ExecutionCancellation).

Definition view_signal (v : ExecutionCancellation) : Tok :=
  match v with AttemptView => token | ChildView t _ _ => t end.

(** [ExecutionCancellationTrigger] *)
Record Trigger := { trigger_signal : Tok; trigger_cell : nat }.

(** The shared state: the tokens, the attempt's reason, the [OnceLock] cells. *)
Record World := {
  w_tokens : S;
  w_reason : option CancellationReason;
  w_cells : gmap nat ToolCancellationCause;
  w_next : nat;
}.

(** [AgentCancellation::reason], which [ExecutionCancellation::reason] reads *)
Definition reason (w : World) : CancellationReason := default default_reason (w_reason w).

(** [ExecutionCancellation::is_cancelled] *)
Definition view_is_cancelled (v : ExecutionCancellation) (w : World) : bool :=
  token_is_cancelled (view_signal v) (w_tokens w).

(** [ExecutionCancellation::native_cause] *)
Fixpoint native_cause (v : ExecutionCancellation) (w : World) : ToolCancellationCause :=
  match v with
  | AttemptView => CauseAttempt (reason w)
  | ChildView _ cell parent => default (native_cause parent w) (w_cells w !! cell)
  end.

(** [ExecutionCancellation::native_status] *)
Definition native_status (phase : ToolCancellationPhase) (v : ExecutionCancellation) (w : World)
    : ToolExecutionStatus :=
  match native_cause v w with
  | CauseAttempt reason => Cancelled reason phase
  | CauseDeadline _ => TimedOut
  end.

(** [ExecutionCancellation::child_signal] *)
Definition child_signal (v : ExecutionCancellation) (w : World) : Tok * World :=
  let '(t, s) := child_token (view_signal v) (w_tokens w) in
  (t, {| w_tokens := s; w_reason := w_reason w; w_cells := w_cells w; w_next := w_next w |}).

(** [ExecutionCancellation::child_execution] *)
Definition child_execution (v : ExecutionCancellation) (w : World)
    : Trigger * ExecutionCancellation * World :=
  let '(t, s) := child_token (view_signal v) (w_tokens w) in
  ({| trigger_signal := t; trigger_cell := w_next w |}, ChildView t (w_next w) v,
   {| w_tokens := s; w_reason := w_reason w; w_cells := w_cells w; w_next := 1 + w_next w |}).

(** [ExecutionCancellationTrigger::cancel]: [OnceLock::set], then the signal. *)
Definition trigger_cancel (tr : Trigger) (cause : ToolCancellationCause) (w : World) : World :=
  {| w_tokens := token_cancel (trigger_signal tr) (w_tokens w); w_reason := w_reason w;
     w_cells := match w_cells w !! trigger_cell tr with
                | Some _ => w_cells w
                | None => <[trigger_cell tr := cause]> (w_cells w)
                end;
     w_next := w_next w |}.

(** [CancellationSignal::cancel] on a child signal *)
Definition signal_cancel (t : Tok) (w : World) : World :=
  {| w_tokens := token_cancel t (w_tokens w); w_reason := w_reason w; w_cells := w_cells w;
     w_next := w_next w |}.

(** [AgentCancellation::request_cancel], its critical section as one step *)
Definition request_cancel (r : CancellationReason) (w : World) : bool * World :=
  (bool_decide (w_reason w = None),
   {| w_tokens := token_cancel token (w_tokens w);
      w_reason := Some (default r (w_reason w)); w_cells := w_cells w; w_next := w_next w |}).

(** What an executor of the attempt holds. *)
Record Caps := {
  views : list ExecutionCancellation;
  triggers : list Trigger;
  child_signals : list Tok;
}.

(** What executors, and the native lifecycles around them, do with it. *)
Inductive exec_step : World * Caps → World * Caps → Prop :=
| exec_child_signal w cs v t w' :
    v ∈ views cs → child_signal v w = (t, w') →
    exec_step (w, cs) (w', {| views := views cs; triggers := triggers cs;
                              child_signals := t :: child_signals cs |})
| exec_child_execution w cs v tr v' w' :
    v ∈ views cs → child_execution v w = (tr, v', w') →
    exec_step (w, cs) (w', {| views := v' :: views cs; triggers := tr :: triggers cs;
                              child_signals := child_signals cs |})
| exec_trigger w cs tr cause :
    tr ∈ triggers cs → exec_step (w, cs) (trigger_cancel tr cause w, cs)
| exec_signal w cs t :
    t ∈ child_signals cs → exec_step (w, cs) (signal_cancel t w, cs).

(** The cells a view reads, its own first. *)
Fixpoint cells (v : ExecutionCancellation) : list nat :=
  match v with AttemptView => [] | ChildView _ cell parent => cell :: cells parent end.

(** Some lifecycle between the view and the attempt has won. *)
Definition natively_won (v : ExecutionCancellation) (w : World) : Prop :=
  Exists (λ cell, is_Some (w_cells w !! cell)) (cells v).

Record caps_ok (st : World * Caps) : Prop := {
  caps_root : AttemptView ∈ views st.2 ∧ known (w_tokens st.1) token;
  caps_known : (∀ v, v ∈ views st.2 → known (w_tokens st.1) (view_signal v)) ∧
    (∀ tr, tr ∈ triggers st.2 → known (w_tokens st.1) (trigger_signal tr)) ∧
    (∀ t, t ∈ child_signals st.2 → known (w_tokens st.1) t);
  caps_below : (∀ v, v ∈ views st.2 → under (w_tokens st.1) (view_signal v) token) ∧
    (∀ t, t ∈ child_signals st.2 → under (w_tokens st.1) t token);
  caps_trigger : ∀ tr, tr ∈ triggers st.2 → ¬ under (w_tokens st.1) token (trigger_signal tr);
  caps_signal : ∀ t v, t ∈ child_signals st.2 → v ∈ views st.2 →
    ¬ under (w_tokens st.1) (view_signal v) t;
  caps_cells : ∀ v tr, v ∈ views st.2 → tr ∈ triggers st.2 →
    under (w_tokens st.1) (view_signal v) (trigger_signal tr) → trigger_cell tr ∈ cells v;
  caps_won : ∀ v, v ∈ views st.2 → view_is_cancelled v st.1 = true →
    token_is_cancelled token (w_tokens st.1) = true ∨ natively_won v st.1;
}.

Lemma child_token_spec s t c s' :
  known s t → child_token t s = (c, s') →
  (∀ u, known s' u ↔ u = c ∨ known s u) ∧ (∀ u, known s u → u ≠ c) ∧
  (∀ u x, u ≠ c → x ≠ c → under s' u x ↔ under s u x) ∧
  (∀ x, x ≠ c → under s' c x ↔ under s t x) ∧ (∀ u, under s' u c → u = c) ∧
  token_is_cancelled c s' = token_is_cancelled t s ∧
  (∀ u, u ≠ c → token_is_cancelled u s' = token_is_cancelled u s).
Proof.
  intros Hk E. assert (c = (child_token t s).1 ∧ s' = (child_token t s).2) as [-> ->] by (by rewrite E).
  split_and!.
  - intros u. by apply child_known.
  - intros u Hu ->. by apply (child_fresh s t).
  - intros u x Hu Hx. by apply child_under.
  - intros x Hx. by apply child_under_new.
  - intros u. by apply child_leaf.
  - by apply child_cancelled.
  - intros u Hu. by apply child_cancelled_old.
Qed.

Lemma natively_won_mono v w w' :
  (∀ c x, w_cells w !! c = Some x → is_Some (w_cells w' !! c)) → natively_won v w → natively_won v w'.
Proof. intros Hc Hw. eapply Exists_impl; [exact Hw|]. intros c [x Hx]. by eapply Hc. Qed.

Lemma trigger_cells tr cause w c x :
  w_cells w !! c = Some x → w_cells (trigger_cancel tr cause w) !! c = Some x.
Proof.
  intros Hx. cbn. destruct (w_cells w !! trigger_cell tr) eqn:E; [done|].
  rewrite lookup_insert_ne; [done|congruence].
Qed.

Lemma caps_child_signal w cs v t w' :
  v ∈ views cs → child_signal v w = (t, w') → caps_ok (w, cs) →
  caps_ok (w', {| views := views cs; triggers := triggers cs; child_signals := t :: child_signals cs |}).
Proof.
  intros Hv Hc [[Hr Hrk] (Kv & Kt & Ks) [Bv Bs] Ht Hs Hcells Hwon]. cbn [fst snd] in *.
  unfold child_signal in Hc. destruct (child_token _ _) as [t0 s0] eqn:E. injection Hc as <- <-.
  destruct (child_token_spec _ _ _ _ (Kv v Hv) E) as (Hkn & Hne & Hold & Hnew & Hleaf & _ & Hcan).
  split; unfold view_is_cancelled, natively_won in *; cbn [fst snd w_tokens w_cells views triggers child_signals].
  - split; [done|]. rewrite Hkn; auto.
  - split_and!; intros x Hx; rewrite Hkn by done; auto.
    apply elem_of_cons in Hx as [->|Hx]; auto.
  - split; intros x Hx; [rewrite Hold; auto|].
    apply elem_of_cons in Hx as [->|Hx]; [rewrite Hnew; auto|rewrite Hold; auto].
  - intros tr Htr. rewrite Hold; auto.
  - intros x u Hx Hu. apply elem_of_cons in Hx as [->|Hx]; [|rewrite Hold; auto].
    intros Eu%Hleaf. by apply (Hne (view_signal u)); [apply Kv|].
  - intros u tr Hu Htr. rewrite Hold; auto.
  - intros u Hu. rewrite !Hcan; auto.
Qed.

Lemma caps_child_execution w cs v tr v' w' :
  v ∈ views cs → child_execution v w = (tr, v', w') → caps_ok (w, cs) →
  caps_ok (w', {| views := v' :: views cs; triggers := tr :: triggers cs;
                  child_signals := child_signals cs |}).
Proof.
  intros Hv Hc [[Hr Hrk] (Kv & Kt & Ks) [Bv Bs] Ht Hs Hcells Hwon]. cbn [fst snd] in *.
  unfold child_execution in Hc. destruct (child_token _ _) as [t0 s0] eqn:E. injection Hc as <- <- <-.
  destruct (child_token_spec _ _ _ _ (Kv v Hv) E) as (Hkn & Hne & Hold & Hnew & Hleaf & Hcan' & Hcan).
  split; unfold view_is_cancelled, natively_won in *;
    cbn [fst snd w_tokens w_cells views triggers child_signals].
  - split; [by right|]. rewrite Hkn; auto.
  - split_and!; intros x Hx; rewrite Hkn by done; auto;
      apply elem_of_cons in Hx as [->|Hx]; cbn; auto.
  - split; intros x Hx; [|rewrite Hold; auto].
    apply elem_of_cons in Hx as [->|Hx]; [cbn; rewrite Hnew; auto|rewrite Hold; auto].
  - intros x Hx. apply elem_of_cons in Hx as [->|Hx]; [|rewrite Hold; auto].
    intros Eu%Hleaf. by apply (Hne token).
  - intros x u Hx Hu. apply elem_of_cons in Hu as [->|Hu]; cbn; [rewrite Hnew|rewrite Hold]; auto.
  - intros u x Hu Hx. apply elem_of_cons in Hu as [->|Hu], Hx as [->|Hx]; cbn.
    + intros _. constructor.
    + rewrite Hnew by auto. intros Eu. constructor. by apply Hcells.
    + intros Eu%Hleaf. by destruct (Hne _ (Kv u Hu)).
    + rewrite Hold; auto.
  - intros u Hu. apply elem_of_cons in Hu as [->|Hu]; cbn; [|rewrite !Hcan; auto].
    rewrite Hcan', (Hcan token) by auto. intros [?|Hw]%Hwon; [by left| |done]. right. by constructor.
Qed.

Lemma caps_trigger_cancel w cs tr cause :
  tr ∈ triggers cs → caps_ok (w, cs) → caps_ok (trigger_cancel tr cause w, cs).
Proof.
  intros Htr [[Hr Hrk] (Kv & Kt & Ks) [Bv Bs] Ht Hs Hcells Hwon]. cbn [fst snd] in *.
  split; unfold view_is_cancelled in *; cbn [fst snd trigger_cancel w_tokens];
    try setoid_rewrite cancel_known; try setoid_rewrite cancel_under; auto.
  intros v Hv [Hcan|Hu]%cancel_spec.
  - destruct (Hwon v Hv Hcan) as [?|Hw]; [left; apply cancel_spec; by left|right].
    eapply natively_won_mono; [|exact Hw]. intros c x Hx%(trigger_cells tr cause). by eexists.
  - right. apply Exists_exists. exists (trigger_cell tr). split; [by apply Hcells|].
    cbn. destruct (w_cells w !! trigger_cell tr) eqn:E; [by eexists|].
    rewrite lookup_insert_eq. by eexists.
Qed.

Lemma caps_signal_cancel w cs t :
  t ∈ child_signals cs → caps_ok (w, cs) → caps_ok (signal_cancel t w, cs).
Proof.
  intros Hin [[Hr Hrk] (Kv & Kt & Ks) [Bv Bs] Ht Hs Hcells Hwon]. cbn [fst snd] in *.
  split; unfold view_is_cancelled in *; cbn [fst snd signal_cancel w_tokens];
    try setoid_rewrite cancel_known; try setoid_rewrite cancel_under; auto.
  intros v Hv [Hcan|Hu]%cancel_spec; [|by destruct (Hs _ _ Hin Hv)].
  destruct (Hwon v Hv Hcan) as [?|Hw]; [left; apply cancel_spec; by left|by right].
Qed.

Lemma exec_step_ok st st' :
  exec_step st st' → caps_ok st →
  caps_ok st' ∧ w_reason st'.1 = w_reason st.1 ∧
  token_is_cancelled token (w_tokens st'.1) = token_is_cancelled token (w_tokens st.1) ∧
  ∀ c x, w_cells st.1 !! c = Some x → w_cells st'.1 !! c = Some x.
Proof.
  intros Hst Hok. destruct Hst as [w cs v t w' Hv Hc|w cs v tr v' w' Hv Hc|w cs tr cause Htr|w cs t Ht];
    cbn [fst snd].
  - split; [by eapply caps_child_signal|]. pose proof (proj1 (caps_known _ Hok) v Hv) as Hk.
    unfold child_signal in Hc. destruct (child_token _ _) as [t0 s0] eqn:E. injection Hc as <- <-.
    destruct (child_token_spec _ _ _ _ Hk E) as (_ & Hne & _ & _ & _ & _ & Hcan).
    split_and!; [done|apply Hcan, Hne, (caps_root _ Hok)|done].
  - split; [by eapply caps_child_execution|]. pose proof (proj1 (caps_known _ Hok) v Hv) as Hk.
    unfold child_execution in Hc. destruct (child_token _ _) as [t0 s0] eqn:E. injection Hc as <- <- <-.
    destruct (child_token_spec _ _ _ _ Hk E) as (_ & Hne & _ & _ & _ & _ & Hcan).
    split_and!; [done|apply Hcan, Hne, (caps_root _ Hok)|done].
  - split; [by apply caps_trigger_cancel|]. split_and!; [done| |intros c x; apply trigger_cells].
    apply eq_true_iff_eq. cbn. rewrite cancel_spec. pose proof (caps_trigger _ Hok tr Htr). cbn in *. naive_solver.
  - split; [by apply caps_signal_cancel|]. split_and!; [done| |done].
    apply eq_true_iff_eq. cbn. rewrite cancel_spec.
    pose proof (caps_signal _ Hok t _ Ht (proj1 (caps_root _ Hok))). cbn in *. naive_solver.
Qed.

Lemma exec_steps_ok st st' :
  rtc exec_step st st' → caps_ok st →
  caps_ok st' ∧ w_reason st'.1 = w_reason st.1 ∧
  token_is_cancelled token (w_tokens st'.1) = token_is_cancelled token (w_tokens st.1) ∧
  ∀ c x, w_cells st.1 !! c = Some x → w_cells st'.1 !! c = Some x.
Proof.
  induction 1 as [|x y z Hxy _ IH]; intros Hok; [done|].
  destruct (exec_step_ok _ _ Hxy Hok) as (Hy & Hr & Hc & Hcells).
  destruct (IH Hy) as (Hz & Hr' & Hc' & Hcells'). split_and!; [done|congruence|congruence|auto].
Qed.

(** Executors observe the attempt's cancellation and cannot cause or relabel it: whatever
    they derive and cancel from the attempt's view, the attempt's signal and reason stay as
    they were; a view is only cancelled when the attempt is or some native lifecycle around
    it has won, and a lifecycle's first cause is its native cause for ever; and the
    attempt's own request reaches every view and child signal, with its first reason. *)
Theorem execution_views_isolated w0 w cs r :
  known (w_tokens w0) token →
  rtc exec_step (w0, {| views := [AttemptView]; triggers := []; child_signals := [] |}) (w, cs) →
  token_is_cancelled token (w_tokens w) = token_is_cancelled token (w_tokens w0) ∧
  w_reason w = w_reason w0 ∧
  (∀ v, v ∈ views cs → view_is_cancelled v w = true →
     token_is_cancelled token (w_tokens w) = true ∨ natively_won v w) ∧
  (∀ t cell parent x w2 cs2, w_cells w !! cell = Some x → rtc exec_step (w, cs) (w2, cs2) →
     native_cause (ChildView t cell parent) w2 = x) ∧
  (let w' := (request_cancel r w).2 in
   reason w' = default r (w_reason w0) ∧ (∀ v, v ∈ views cs → view_is_cancelled v w' = true) ∧
   (∀ t, t ∈ child_signals cs → token_is_cancelled t (w_tokens w') = true)).
Proof.
  intros Hk Hrtc.
  assert (H0 : caps_ok (w0, {| views := [AttemptView]; triggers := []; child_signals := [] |})).
  { split; cbn; try (intros ? Ht; by apply not_elem_of_nil in Ht).
    - split; [constructor|done].
    - split_and!; [by intros v ->%list_elem_of_singleton|..]; intros ? Ht; by apply not_elem_of_nil in Ht.
    - split; [|intros ? Ht; by apply not_elem_of_nil in Ht].
      intros v ->%list_elem_of_singleton. apply under_refl.
    - intros t v Ht. by apply not_elem_of_nil in Ht.
    - intros v tr _ Ht. by apply not_elem_of_nil in Ht.
    - intros v ->%list_elem_of_singleton. by left. }
  destruct (exec_steps_ok _ _ Hrtc H0) as (Hok & Hr & Hc & _). cbn [fst] in Hr, Hc.
  split_and!; [done|done|apply (caps_won _ Hok)| |].
  - intros t cell parent x w2 cs2 Hx Hrtc2.
    destruct (exec_steps_ok _ _ Hrtc2 Hok) as (_ & _ & _ & Hcells). cbn.
    cbn in Hcells. by rewrite (Hcells _ _ Hx).
  - destruct (caps_below _ Hok) as [Bv Bs]. cbn in *. split_and!.
    + unfold reason. cbn. by rewrite Hr.
    + intros v Hv. unfold view_is_cancelled. cbn. apply cancel_spec. right. auto.
    + intros t Ht. apply cancel_spec. right. auto.
Qed.
End views.

(** ** A concrete token store *)

(** The tokens by number, each with the tokens it was made under, and the cancelled ones. *)
Record TokenStore := { lineage : list (list nat); cancelled_tokens : list nat }.

(** A token and what it was made under; a token is made after those. *)
Definition ancestors (s : TokenStore) (u : nat) : list nat :=
  u :: filter (λ t, t < u) (default [] (lineage s !! u)).

Definition store_child (t : nat) (s : TokenStore) : nat * TokenStore :=
  (length (lineage s), {| lineage := lineage s ++ [ancestors s t];
                          cancelled_tokens := filter (λ c, c ≠ length (lineage s)) (cancelled_tokens s) |}).

Definition store_cancel (t : nat) (s : TokenStore) : TokenStore :=
  {| lineage := lineage s; cancelled_tokens := t :: cancelled_tokens s |}.

Definition store_is_cancelled (u : nat) (s : TokenStore) : bool :=
  existsb (λ t, bool_decide (t ∈ cancelled_tokens s)) (ancestors s u).

Definition store_under (s : TokenStore) (u t : nat) : Prop := t ∈ ancestors s u.

Lemma store_is_cancelled_true u s :
  store_is_cancelled u s = true ↔ ∃ t, t ∈ ancestors s u ∧ t ∈ cancelled_tokens s.
Proof.
  unfold store_is_cancelled. rewrite existsb_exists.
  by setoid_rewrite bool_decide_eq_true; setoid_rewrite list_elem_of_In.
Qed.

Lemma ancestors_child_old s t u :
  u ≠ length (lineage s) → ancestors (store_child t s).2 u = ancestors s u.
Proof.
  intros Hu. unfold ancestors, store_child. cbn [snd lineage]. do 2 f_equal.
  destruct (decide (u < length (lineage s))) as [Hlt|Hge]; [by rewrite lookup_app_l|].
  rewrite !lookup_ge_None_2; [done|lia|rewrite length_app; cbn; lia].
Qed.

Lemma ancestors_child_new s t :
  t < length (lineage s) →
  ancestors (store_child t s).2 (length (lineage s)) = length (lineage s) :: ancestors s t.
Proof.
  intros Ht. unfold ancestors at 1. unfold store_child. cbn [snd lineage]. f_equal.
  rewrite lookup_app_r, Nat.sub_diag by lia.
  change (default [] ([ancestors s t] !! 0)) with (ancestors s t).
  unfold ancestors. generalize (default [] (lineage s !! t)). intros l.
  rewrite filter_cons_True by done. f_equal. rewrite list_filter_filter.
  apply list_filter_iff. lia.
Qed.

Lemma ancestors_le s u t : t ∈ ancestors s u → t <= u.
Proof.
  unfold ancestors. intros [->|[H _]%list_elem_of_filter]%elem_of_cons; lia.
Qed.

Lemma ancestors_new_only s t u :
  length (lineage s) ∈ ancestors (store_child t s).2 u → u = length (lineage s).
Proof.
  intros Hin. destruct (decide (u = length (lineage s))) as [|Hne]; [done|].
  rewrite ancestors_child_old in Hin by done. pose proof (ancestors_le _ _ _ Hin) as Hle.
  unfold ancestors in Hin. rewrite lookup_ge_None_2 in Hin by lia.
  by apply list_elem_of_singleton in Hin.
Qed.

#[export] Instance token_store : CancellationTokens TokenStore nat.
Proof.
  refine {| child_token := store_child; token_cancel := store_cancel;
            token_is_cancelled := store_is_cancelled;
            known := λ s t, t < length (lineage s); under := store_under |}.
  - intros s t. constructor.
  - intros s t u. rewrite !store_is_cancelled_true. cbn.
    setoid_rewrite elem_of_cons. unfold store_under, ancestors. naive_solver.
  - done.
  - done.
  - intros s t u _. cbn. rewrite length_app. cbn. lia.
  - intros s t _. cbn. lia.
  - intros s t u v _ Hu _. unfold store_under. by rewrite ancestors_child_old.
  - intros s t v Ht Hv. unfold store_under. cbn [fst store_child].
    rewrite ancestors_child_new by done. rewrite elem_of_cons. naive_solver.
  - intros s t u _ Hu. by apply ancestors_new_only in Hu.
  - intros s t Ht. apply eq_true_iff_eq. rewrite !store_is_cancelled_true.
    cbn [fst store_child]. rewrite ancestors_child_new by done. cbn [snd store_child cancelled_tokens].
    split; intros (c & Hc & Hin); exists c.
    + apply list_elem_of_filter in Hin as [Hne Hin].
      apply elem_of_cons in Hc as [->|Hc]; [by destruct Hne|done].
    + pose proof (ancestors_le _ _ _ Hc). split; [by apply elem_of_cons; right|].
      apply list_elem_of_filter. split; [lia|done].
  - intros s t u _ Hu. apply eq_true_iff_eq. rewrite !store_is_cancelled_true.
    cbn [fst store_child] in Hu. rewrite ancestors_child_old by done. cbn [snd store_child cancelled_tokens].
    setoid_rewrite list_elem_of_filter. split; intros (c & Hc & Hin); exists c; [naive_solver|].
    split_and!; [done| |done]. intros ->. unfold ancestors in Hc.
    apply elem_of_cons in Hc as [E|[Hlt Hc]%list_elem_of_filter]; [by subst u|].
    rewrite lookup_ge_None_2 in Hc by lia. by apply not_elem_of_nil in Hc.
Defined.

(** ** Witnesses *)

Definition demo_store : TokenStore := {| lineage := [[]]; cancelled_tokens := [] |}.

Definition demo_calls : list machine_call :=
  [Start; ModelFinished true; Complete; ToolsFinished; ModelFinished false; Complete; Fail].

Lemma attempt_settles_once_witness :
  ∃ accepted, run_machine demo_calls Idle = (accepted, XCompleted) ∧
    run_machine (demo_calls ++ [Start; Fail]) Idle = (accepted, XCompleted).
Proof.
  destruct (run_machine demo_calls Idle) as [accepted s] eqn:E.
  assert (s = XCompleted) as -> by (by vm_compute in E; injection E).
  exists accepted. split; [done|].
  destruct (attempt_settles_once _ _ _ E) as (_ & _ & H). by apply H.
Defined.

(** One start that wins, a cancellation that waits for its gate, and a start that loses. *)
Definition demo_programs : list program :=
  [ArbitrateStart true; RequestCancel UserRequested; ArbitrateStart true; AuthorizeCompaction true].

Definition demo_run : Shared * list (program * pc) :=
  run_schedule 0 [0; 1; 0; 1; 0; 3; 0; 1; 1; 3; 3; 3; 1; 1; 1; 1; 1; 2; 2; 2; 2]
    (gate_init demo_store demo_programs).


(** The canceller is blocked on the start gate, which thread 0 will release. *)
Definition demo_blocked : Shared * list (program * pc) :=
  run_schedule 0 [0; 1; 0; 1] (gate_init demo_store demo_programs).

Lemma gates_deadlock_free_witness :
  advance 0 1 (RequestCancel UserRequested) Ready demo_blocked.1 = None ∧
  ∃ st', gate_step 0 (demo_blocked.1, demo_blocked.2) st'.
Proof.
  split; [by vm_compute|].
  apply (gates_deadlock_free 0 demo_store demo_programs demo_blocked.1 demo_blocked.2 1
    (RequestCancel UserRequested) Ready); [by vm_compute|rewrite <-surjective_pairing; apply run_schedule_steps|by vm_compute|done].
Defined.

Definition demo_world : World :=
  {| w_tokens := demo_store; w_reason := None; w_cells := ∅; w_next := 0 |}.

Definition demo_derived := child_execution 0 AttemptView demo_world.

Lemma execution_views_isolated_witness :
  let '(tr, v, w) := demo_derived in
  let w1 := trigger_cancel tr (CauseDeadline DeadlineHard) w in
  view_is_cancelled 0 v w1 = true ∧ token_is_cancelled 0 (w_tokens w1) = false ∧
  view_is_cancelled 0 AttemptView (request_cancel 0 RuntimeShutdown w1).2 = true.
Proof.
  destruct demo_derived as [[tr v] w] eqn:E.
  set (cs := {| views := [v; AttemptView]; triggers := [tr]; child_signals := [] |} : Caps).
  assert (Hrtc : rtc (exec_step 0)
    (demo_world, {| views := [AttemptView]; triggers := []; child_signals := [] |})
    (trigger_cancel tr (CauseDeadline DeadlineHard) w, cs)).
  { eapply rtc_l; [eapply (exec_child_execution 0 demo_world _ AttemptView tr v w);
      [constructor|exact E]|].
    eapply rtc_l; [|apply rtc_refl]. apply exec_trigger. constructor. }
  assert (Hk : known (w_tokens demo_world) 0) by (apply Nat.ltb_lt; by vm_compute).
  destruct (execution_views_isolated 0 UserRequested demo_world _ cs RuntimeShutdown
    Hk Hrtc) as (Hc & _ & _ & _ & _ & Hv & _).
  split; [by vm_compute in E; injection E as <- <- <-; vm_compute|].
  split; [by rewrite Hc; vm_compute|]. apply Hv. cbn. right. constructor.
Defined.
