(* ===== verification/Planning.v ===== *)
(** Planning a compaction ([src/src/context/planning.rs]): which prefix of the historical
    projection one summary may retire.  [assemble_context_input], [soft_input_limit],
    [EstimateCorrection] and the constraints are in [src/src/context/engine.rs], the summary
    request in [src/src/context/summarizer.rs], the input items in [src/src/model/input.rs].

    The token estimator is a trait with pluggable implementations: it is the class
    [ContextEngine], and the promise an implementation makes when it answers
    [supports_monotone_compaction] with true is the class [MonotoneEngine].  The rendering
    of one message for a summary is the engine's [summary_parts]; the summary instruction is
    the constant [summary_instruction].  A cancellation point reads an arbitrary oracle. *)

From S2P Require Import Prelude Text Json Message.
From stdpp Require Import options.

(** ** Model input *)

Inductive ProjectedMessage :=
| PUser (content : list UserContentBlock) (source : UserSource)
| PAssistant (content : list AssistantContentBlock)
| PTool (tool_call_id : ToolCallId) (result : ToolExecutionResult).

(** [ModelInputMessage]; of a Derived message only its typed content is kept, of a
    request-only item its rendering. *)
Inductive ModelInputMessage :=
| Canonical (m : MessageBlock)
| RequestOnly (text : str)
| Derived (m : ProjectedMessage).

Inductive ModelMessageView :=
| VUser (content : list UserContentBlock)
| VAssistant (content : list AssistantContentBlock)
| VTool (id : ToolCallId) (result : ToolExecutionResult)
| VRequestOnly (text : str).

(** [ModelInputMessage::view] *)
Definition view (m : ModelInputMessage) : ModelMessageView :=
  match m with
  | Canonical (User m) => VUser (user_content m)
  | Canonical (Assistant m) => VAssistant (assistant_content m)
  | Canonical (Tool m) => VTool (tool_call_id m) (tool_result m)
  | Derived (PUser content _) => VUser content
  | Derived (PAssistant content) => VAssistant content
  | Derived (PTool id result) => VTool id result
  | RequestOnly text => VRequestOnly text
  end.

(** [ModelInputMessage::canonical_id] *)
Definition canonical_id (m : ModelInputMessage) : option MessageId :=
  match m with Canonical m => Some (message_id_of m) | RequestOnly _ | Derived _ => None end.

Inductive RequestOnlyInsertionAnchor :=
| BeforeMessage (id : MessageId)
| AfterCanonical.

Inductive ContextErrorKind :=
| InvalidConfiguration | CannotFit | SearchIncomplete | MalformedHistory | NoProgress
| SummaryFailed | SummaryInputTooLarge
| AuxiliaryBusy | AuxiliaryLifecycleBusy | AuxiliaryNotStarted | AuxiliaryConflict
| AuxiliaryScopeClosed | AuxiliaryDeadlineExceeded | AuxiliarySupervisionFailed
| AuxiliaryDurabilityFailed | CompactionBudgetExceeded | Cancelled | Internal.

(** ** Budgets *)

Record ContextConfig := {
  context_window_tokens : N; reserve_tokens : N; keep_recent_tokens : N }.

Record CompactionBudgets := {
  primary_output_budget : N; summary_output_budget : N; summary_input_limit : N }.

(** [ContextConfig::soft_input_limit] *)
Definition soft_input_limit (max_output_tokens : N) (c : ContextConfig)
    : result ContextErrorKind N :=
  _ ← guard_err (context_window_tokens c <=? reserve_tokens c)%N InvalidConfiguration;
  let remaining := (context_window_tokens c - reserve_tokens c)%N in
  _ ← guard_err (remaining <=? max_output_tokens)%N InvalidConfiguration;
  Ok (remaining - max_output_tokens)%N.

Record EstimateCorrection := { estimated_tokens : N; observed_tokens : N }.

(** [EstimateCorrection::new] *)
Definition correction_new (estimated observed : N) : option EstimateCorrection :=
  if (estimated =? 0)%N || (observed <=? estimated)%N then None
  else Some {| estimated_tokens := estimated; observed_tokens := observed |}.

(** [EstimateCorrection::apply]; the product is taken in [u128]. *)
Definition correction_apply (budget : N) (c : EstimateCorrection) : N :=
  let scaled := (budget * estimated_tokens c / observed_tokens c)%N in
  if (scaled =? 0)%N then 1%N else scaled.

Record CompactionConstraints := {
  must_cover_through : option MessageId;
  fresh_inbound : option (list MessageId);
  protected_context_ids : list MessageId;
  staged_request_context : list MessageBlock;
  carryover : option str;
  carryover_anchor : option RequestOnlyInsertionAnchor;
  estimate_correction : option EstimateCorrection;
}.

(** [assemble_context_input] *)
Definition assemble_context_input (historical : list ModelInputMessage)
    (staged : list MessageBlock) (carry : option str) (anchor : option RequestOnlyInsertionAnchor)
    : result str (list ModelInputMessage) :=
  let messages := historical ++ map Canonical staged in
  match carry with
  | None => Ok messages
  | Some text =>
      a ← ok_or (lit "request-only carryover has no frozen insertion anchor") anchor;
      p ← match a with
          | AfterCanonical => Ok (length historical)
          | BeforeMessage id =>
              ok_or (lit "request-only carryover anchor message " ++ id
                     ++ lit " is absent from the request")
                (position (λ m, bool_decide (canonical_id m = Some id)) messages)
          end;
      Ok (take p messages ++ RequestOnly text :: drop p messages)
  end.

Definition newline : str := [10%N].

(** ** The engine *)

(** What planning asks of the context engine and of the summarizer. *)
Class ContextEngine := {
  Tool : Type;
  config : ContextConfig;
  estimate_model_input : list ModelInputMessage → str → list Tool → N;
  supports_monotone_compaction : list ModelInputMessage → bool;
  summary_parts : ModelInputMessage → list str;
  summary_instruction : str;
}.

Section planning.
Context `{ContextEngine}.

(** [append_summary_message]: the parts, each separated from what precedes it. *)
Definition append_summary_message (m : ModelInputMessage) (transcript : str) : str :=
  foldl (λ t part, (if bool_decide (t = []) then t else t ++ newline ++ newline) ++ part) transcript (summary_parts m).

(** [summary_model_input] *)
Definition summary_model_input (transcript : str) : list ModelInputMessage :=
  [Derived (PUser [UText (summary_instruction ++ newline ++ newline ++
     lit "<retired-conversation>" ++ newline ++ transcript ++ newline ++
     lit "</retired-conversation>")] Runtime)].

Record Cost := { summary : N; primary : N; recent : N }.

(** The state of a plan: the cancellation points passed and the priced candidates. *)
Record PlanState := { points : nat; cache : gmap nat Cost }.

Definition M (A : Type) : Type := PlanState → result ContextErrorKind (A * PlanState).

#[export] Instance M_ret : MRet M := λ A a st, Ok (a, st).
#[export] Instance M_bind : MBind M := λ A B f m st, '(a, st) ← m st; f a st.

Definition lift_plan {A} (r : result ContextErrorKind A) : M A := λ st, a ← r; Ok (a, st).

(** [signal.is_cancelled()] at the k-th point. *)
Context (cancelled : nat → bool).

(** [cancellation_point] *)
Definition cancellation_point : M () := λ st,
  if cancelled (points st) then Err Cancelled
  else Ok (tt, {| points := S (points st); cache := cache st |}).

Definition every_64 (i : nat) : M () :=
  if (i mod 64 =? 0)%nat then cancellation_point else mret tt.

(** The first loop: the first index of each canonical identity. *)
Fixpoint index_positions (i : nat) (input : list ModelInputMessage) (pos : gmap MessageId nat)
    : M (gmap MessageId nat) :=
  match input with
  | [] => mret pos
  | m :: input =>
      _ ← every_64 i;
      index_positions (S i) input
        match canonical_id m with
        | Some id => match pos !! id with Some _ => pos | None => <[id := i]> pos end
        | None => pos
        end
  end.

(** What the second loop carries. *)
Record Scan := {
  pending : gmap ToolCallId nat;
  pending_count : nat;
  boundaries : list (nat * N);
  transcript : str;
}.

Definition open_call (c : ToolCallId) (s : Scan) : Scan :=
  {| pending := <[c := S (default 0 (pending s !! c))]> (pending s);
     pending_count := S (pending_count s); boundaries := boundaries s; transcript := transcript s |}.

Definition calls_in (content : list AssistantContentBlock) : list ToolCallId :=
  omap (λ b, match b with AToolCall call => Some (call_id call) | _ => None end) content.

(** The match on [message.view()]. *)
Definition track_calls (m : ModelInputMessage) (s : Scan) : result ContextErrorKind Scan :=
  match view m with
  | VAssistant content => Ok (foldl (λ s c, open_call c s) s (calls_in content))
  | VTool id _ =>
      count ← ok_or MalformedHistory (pending s !! id);
      Ok {| pending := if (count - 1 =? 0)%nat then delete id (pending s)
                       else <[id := count - 1]> (pending s);
            pending_count := pending_count s - 1; boundaries := boundaries s;
            transcript := transcript s |}
  | VUser _ | VRequestOnly _ => Ok s
  end.

Definition close_boundary (min n : nat) (m : ModelInputMessage) (s : Scan) : Scan :=
  let t := append_summary_message m (transcript s) in
  {| pending := pending s; pending_count := pending_count s;
     boundaries := if (min <=? n)%nat && (pending_count s =? 0)%nat
                   then boundaries s ++ [(n, len t)] else boundaries s;
     transcript := t |}.

Fixpoint scan_boundaries (min i : nat) (input : list ModelInputMessage) (s : Scan) : M Scan :=
  match input with
  | [] => mret s
  | m :: input =>
      _ ← every_64 i;
      s ← lift_plan (track_calls m s);
      scan_boundaries min (S i) input (close_boundary min (S i) m s)
  end.

(** [Search::cost]; an index past the boundaries would panic. *)
Section search.
Context (input : list ModelInputMessage) (prompt : str) (tools : list Tool)
  (constraints : CompactionConstraints) (found : Scan).

Definition assemble_suffix (n : nat) : result ContextErrorKind (list ModelInputMessage) :=
  map_err (λ _, MalformedHistory)
    (assemble_context_input (drop n input) (staged_request_context constraints)
       (carryover constraints) (carryover_anchor constraints)).

Definition cost (i : nat) : M Cost := λ st,
  ('(_, st) ← cancellation_point st;
   match cache st !! i with
   | Some c => Ok (c, st)
   | None =>
       '(n, last) ← ok_or Internal (boundaries found !! i);
       let s := estimate_model_input (summary_model_input (take_bytes (transcript found) last)) [] [] in
       '(_, st) ← cancellation_point st;
       planned ← assemble_suffix n;
       let p := estimate_model_input planned prompt tools in
       '(_, st) ← cancellation_point st;
       let r := estimate_model_input (drop n input) [] [] in
       '(_, st) ← cancellation_point st;
       let c := {| summary := s; primary := p; recent := r |} in
       Ok (c, {| points := points st; cache := <[i := c]> (cache st) |})
   end).

(** [Search::partition]; the interval halves, so its length is fuel enough. *)
Fixpoint partition_from (fuel low high : nat) (predicate : Cost → bool) : M nat :=
  match fuel with
  | O => mret low
  | S fuel =>
      if (low <? high)%nat then
        let mid := (low + (high - low) / 2)%nat in
        c ← cost mid;
        if predicate c then partition_from fuel (S mid) high predicate
        else partition_from fuel low mid predicate
      else mret low
  end.

Definition search_partition (predicate : Cost → bool) : M nat :=
  partition_from (length (boundaries found)) 0 (length (boundaries found)) predicate.

Context (limit : N) (budgets : CompactionBudgets).

Definition within (c : Cost) : bool :=
  (summary c <=? summary_input_limit budgets)%N &&
  (u64_saturating_add (primary c) (summary_output_budget budgets) <=? limit)%N.

Definition keeps_recent (c : Cost) : bool := (keep_recent_tokens config <=? recent c)%N.

(** The monotone branch. *)
Definition select_monotone : M (option nat) :=
  upper ← search_partition (λ c, (summary c <=? summary_input_limit budgets)%N);
  lower ← search_partition (λ c,
    (limit <? u64_saturating_add (primary c) (summary_output_budget budgets))%N);
  if (upper <=? lower)%nat then mret None
  else
    recent ← search_partition keeps_recent;
    mret (Some (if (lower <? recent)%nat then Nat.min upper recent - 1 else lower)).

(** The loop of the other branch: (preferred, fallback). *)
Fixpoint select_generic (is_ : list nat) (fallback : option nat) : M (option nat * option nat) :=
  match is_ with
  | [] => mret (None, fallback)
  | i :: is_ =>
      c ← cost i;
      if within c then
        if keeps_recent c then mret (Some i, Some i) else select_generic is_ (Some i)
      else select_generic is_ fallback
  end.
End search.

(** [MAX_GENERIC_CANDIDATES] *)
Definition MAX_GENERIC_CANDIDATES : nat := 64.

(** The required first boundary. *)
Definition min_boundary (constraints : CompactionConstraints) (pos : gmap MessageId nat)
    : result ContextErrorKind nat :=
  match must_cover_through constraints with
  | Some id => ok_or NoProgress (S <$> pos !! id)
  | None => Ok 1
  end.

Definition protected_ids (constraints : CompactionConstraints) : list MessageId :=
  protected_context_ids constraints ++ default [] (fresh_inbound constraints) ++
  match carryover_anchor constraints with Some (BeforeMessage id) => [id] | _ => [] end.

(** The last boundary that retires nothing protected. *)
Definition max_boundary (constraints : CompactionConstraints) (pos : gmap MessageId nat)
    (input : list ModelInputMessage) : nat :=
  match omap (λ id, pos !! id) (protected_ids constraints) with
  | [] => length input
  | p :: ps => foldl Nat.min p ps
  end.

(** [summary_prefix] *)
Definition summary_prefix (input : list ModelInputMessage) (prompt : str) (tools : list Tool)
    (budgets : CompactionBudgets) (constraints : CompactionConstraints) : M nat :=
  _ ← cancellation_point;
  limit ← lift_plan (soft_input_limit (primary_output_budget budgets) config);
  let limit := match estimate_correction constraints with
               | Some correction => correction_apply limit correction
               | None => limit
               end in
  pos ← index_positions 0 input ∅;
  min ← lift_plan (min_boundary constraints pos);
  _ ← lift_plan (try_for_each (λ id, guard_err (bool_decide (pos !! id = None)) MalformedHistory)
        (default [] (fresh_inbound constraints)));
  let max := max_boundary constraints pos input in
  found ← scan_boundaries min 0 (take max input)
    {| pending := ∅; pending_count := 0; boundaries := []; transcript := [] |};
  complete ← lift_plan (assemble_suffix input constraints 0);
  let eligible := length (boundaries found) in
  selected ←
    (if supports_monotone_compaction complete && (0 <? eligible)%nat
     then select_monotone input prompt tools constraints found limit budgets
     else
       let examined := Nat.min eligible MAX_GENERIC_CANDIDATES in
       '(preferred, fallback) ← select_generic input prompt tools constraints found limit budgets
         (take examined (rev (seq 0 eligible))) None;
       match preferred with
       | Some i => mret (Some i)
       | None =>
           if (examined <? eligible)%nat then
             _ ← cancellation_point; lift_plan (Err SearchIncomplete)
           else mret fallback
       end);
  _ ← cancellation_point;
  index ← lift_plan (ok_or (if (max =? 0)%nat then NoProgress else CannotFit) selected);
  c ← cost input prompt tools constraints found index;
  _ ← lift_plan (guard_err (negb (within limit budgets c)) Internal);
  _ ← cancellation_point;
  lift_plan (ok_or Internal (fst <$> boundaries found !! index)).

(** ** The plan without its cancellation points and its cache *)

(** [m] computes [r], keeping [P] of the cache, unless a point is cancelled. *)
Definition runs {A} (P : gmap nat Cost → Prop) (m : M A) (r : result ContextErrorKind A) : Prop :=
  ∀ st, P (cache st) →
    match m st with
    | Ok (a, st') => r = Ok a ∧ P (cache st')
    | Err e => r = Err e ∨ e = Cancelled ∧ ∃ k, cancelled k = true
    end.

Lemma runs_ret {A} P (a : A) : runs P (mret a) (Ok a).
Proof. by intros st Hst. Qed.

Lemma runs_lift {A} P (r : result ContextErrorKind A) : runs P (lift_plan r) r.
Proof. intros st Hst. unfold lift_plan. destruct r; cbn; [done|by left]. Qed.

Lemma runs_bind {A B} P (m : M A) r (f : A → M B) g :
  runs P m r → (∀ a, r = Ok a → runs P (f a) (g a)) → runs P (m ≫= f) (r ≫= g).
Proof.
  intros Hm Hf st Hst. specialize (Hm st Hst). unfold mbind, M_bind.
  destruct (m st) as [[a st']|e]; cbn.
  - destruct Hm as [-> Hst']. by apply (Hf a eq_refl).
  - destruct Hm as [->|?]; [by left|by right].
Qed.

Lemma runs_seq {A B} P (m : M A) (a : A) (f : A → M B) r :
  runs P m (Ok a) → runs P (f a) r → runs P (m ≫= f) r.
Proof.
  intros Hm Hf. apply (runs_bind P m (Ok a) f (λ _, r)); [done|]. by intros _ [= <-].
Qed.

Lemma runs_point P : runs P cancellation_point (Ok tt).
Proof.
  intros st Hst. unfold cancellation_point. destruct (cancelled (points st)) eqn:E; [|done].
  right. split; [done|by exists (points st)].
Qed.

Lemma runs_every P i : runs P (every_64 i) (Ok tt).
Proof. unfold every_64. destruct (_ =? _)%nat; [apply runs_point|apply runs_ret]. Qed.

Fixpoint positions_of (i : nat) (input : list ModelInputMessage) (pos : gmap MessageId nat)
    : gmap MessageId nat :=
  match input with
  | [] => pos
  | m :: input =>
      positions_of (S i) input
        match canonical_id m with
        | Some id => match pos !! id with Some _ => pos | None => <[id := i]> pos end
        | None => pos
        end
  end.

Lemma runs_positions P i input pos :
  runs P (index_positions i input pos) (Ok (positions_of i input pos)).
Proof.
  revert i pos. induction input as [|m input IH]; intros i pos; cbn; [apply runs_ret|].
  eapply runs_seq; [apply runs_every|apply IH].
Qed.

Fixpoint scan_pure (min i : nat) (input : list ModelInputMessage) (s : Scan)
    : result ContextErrorKind Scan :=
  match input with
  | [] => Ok s
  | m :: input =>
      s ← track_calls m s;
      scan_pure min (S i) input (close_boundary min (S i) m s)
  end.

Lemma runs_scan P min i input s :
  runs P (scan_boundaries min i input s) (scan_pure min i input s).
Proof.
  revert i s. induction input as [|m input IH]; intros i s; cbn; [apply runs_ret|].
  eapply runs_seq; [apply runs_every|]. apply runs_bind; [apply runs_lift|]. intros s' _. apply IH.
Qed.

Section pure.
Context (input : list ModelInputMessage) (prompt : str) (tools : list Tool)
  (constraints : CompactionConstraints) (found : Scan).

Definition cost_pure (i : nat) : result ContextErrorKind Cost :=
  '(n, last) ← ok_or Internal (boundaries found !! i);
  planned ← assemble_suffix input constraints n;
  Ok {| summary := estimate_model_input
          (summary_model_input (take_bytes (transcript found) last)) [] [];
        primary := estimate_model_input planned prompt tools;
        recent := estimate_model_input (drop n input) [] [] |}.

Definition coherent (c : gmap nat Cost) : Prop := ∀ i x, c !! i = Some x → cost_pure i = Ok x.

Lemma runs_cost i : runs coherent (cost input prompt tools constraints found i) (cost_pure i).
Proof.
  assert (Hpt : ∀ st, match cancellation_point st with
    | Ok (_, st') => cache st' = cache st
    | Err e => e = Cancelled ∧ ∃ k, cancelled k = true end).
  { intros st. unfold cancellation_point. destruct (cancelled (points st)) eqn:E; [|done].
    split; [done|by exists (points st)]. }
  intros st Hst. unfold cost.
  pose proof (Hpt st) as H1. destruct (cancellation_point st) as [[[] st1]|e]; [simpl|by right].
  rewrite H1. destruct (cache st !! i) as [c|] eqn:Ec.
  { split; [by apply Hst|by rewrite H1]. }
  unfold cost_pure. destruct (boundaries found !! i) as [[n last]|] eqn:Eb; [simpl|by left].
  pose proof (Hpt st1) as H2. destruct (cancellation_point st1) as [[[] st2]|e]; [simpl|by right].
  destruct (assemble_suffix input constraints n) as [planned|e] eqn:Ea; [simpl|by left].
  pose proof (Hpt st2) as H3. destruct (cancellation_point st2) as [[[] st3]|e]; [simpl|by right].
  pose proof (Hpt st3) as H4. destruct (cancellation_point st3) as [[[] st4]|e]; [simpl|by right].
  split; [done|]. rewrite H4, H3, H2, H1. intros j x. destruct (decide (j = i)) as [->|Hne].
  - rewrite lookup_insert_eq. intros [= <-]. unfold cost_pure. rewrite Eb. simpl. by rewrite Ea.
  - rewrite lookup_insert_ne by done. apply Hst.
Qed.

Fixpoint partition_pure (fuel low high : nat) (predicate : Cost → bool)
    : result ContextErrorKind nat :=
  match fuel with
  | O => Ok low
  | S fuel =>
      if (low <? high)%nat then
        let mid := (low + (high - low) / 2)%nat in
        c ← cost_pure mid;
        if predicate c then partition_pure fuel (S mid) high predicate
        else partition_pure fuel low mid predicate
      else Ok low
  end.

Lemma runs_partition fuel low high predicate :
  runs coherent (partition_from input prompt tools constraints found fuel low high predicate)
    (partition_pure fuel low high predicate).
Proof.
  revert low high. induction fuel as [|fuel IH]; intros low high; cbn [partition_from partition_pure];
    [apply runs_ret|].
  destruct (_ <? _)%nat; [|apply runs_ret]. apply runs_bind; [apply runs_cost|].
  intros c _. destruct (predicate c); apply IH.
Qed.

Context (limit : N) (budgets : CompactionBudgets).

Definition eligible_count : nat := length (boundaries found).

Definition select_monotone_pure : result ContextErrorKind (option nat) :=
  upper ← partition_pure eligible_count 0 eligible_count (λ c, (summary c <=? summary_input_limit budgets)%N);
  lower ← partition_pure eligible_count 0 eligible_count (λ c,
    (limit <? u64_saturating_add (primary c) (summary_output_budget budgets))%N);
  if (upper <=? lower)%nat then Ok None
  else
    recent ← partition_pure eligible_count 0 eligible_count keeps_recent;
    Ok (Some (if (lower <? recent)%nat then Nat.min upper recent - 1 else lower)).

Lemma runs_select_monotone :
  runs coherent (select_monotone input prompt tools constraints found limit budgets)
    select_monotone_pure.
Proof.
  apply runs_bind; [apply runs_partition|]. intros upper _.
  apply runs_bind; [apply runs_partition|]. intros lower _.
  destruct (_ <=? _)%nat; [apply runs_ret|].
  apply runs_bind; [apply runs_partition|]. intros recent _. apply runs_ret.
Qed.

Fixpoint select_generic_pure (is_ : list nat) (fallback : option nat)
    : result ContextErrorKind (option nat * option nat) :=
  match is_ with
  | [] => Ok (None, fallback)
  | i :: is_ =>
      c ← cost_pure i;
      if within limit budgets c then
        if keeps_recent c then Ok (Some i, Some i) else select_generic_pure is_ (Some i)
      else select_generic_pure is_ fallback
  end.

Lemma runs_select_generic is_ fallback :
  runs coherent (select_generic input prompt tools constraints found limit budgets is_ fallback)
    (select_generic_pure is_ fallback).
Proof.
  revert fallback. induction is_ as [|i is_ IH]; intros fallback; cbn; [apply runs_ret|].
  apply runs_bind; [apply runs_cost|]. intros c _.
  destruct (within limit budgets c); [|apply IH]. destruct (keeps_recent c); [apply runs_ret|apply IH].
Qed.

Definition select_pure (monotone : bool) : result ContextErrorKind (option nat) :=
  if monotone && (0 <? eligible_count)%nat then select_monotone_pure
  else
    let examined := Nat.min eligible_count MAX_GENERIC_CANDIDATES in
    '(preferred, fallback) ← select_generic_pure (take examined (rev (seq 0 eligible_count))) None;
    match preferred with
    | Some i => Ok (Some i)
    | None => if (examined <? eligible_count)%nat then Err SearchIncomplete else Ok fallback
    end.

Definition choose_pure (monotone : bool) (max : nat) : result ContextErrorKind nat :=
  selected ← select_pure monotone;
  index ← ok_or (if (max =? 0)%nat then NoProgress else CannotFit) selected;
  c ← cost_pure index;
  _ ← guard_err (negb (within limit budgets c)) Internal;
  ok_or Internal (fst <$> boundaries found !! index).
End pure.

(** The result of [m] from [st] is [r]. *)
Definition yields {A} (m : M A) (st : PlanState) (r : result ContextErrorKind A) : Prop :=
  match m st with
  | Ok (a, _) => r = Ok a
  | Err e => r = Err e ∨ e = Cancelled ∧ ∃ k, cancelled k = true
  end.

Lemma runs_yields {A} P (m : M A) st r : runs P m r → P (cache st) → yields m st r.
Proof.
  intros Hm Hst. specialize (Hm st Hst). unfold yields. destruct (m st) as [[a st']|]; [|done].
  by destruct Hm.
Qed.

Lemma yields_bind {A B} P (m : M A) st r (f : A → M B) g :
  runs P m r → P (cache st) →
  (∀ a st', r = Ok a → P (cache st') → yields (f a) st' (g a)) → yields (m ≫= f) st (r ≫= g).
Proof.
  intros Hm Hst Hf. specialize (Hm st Hst). unfold yields, mbind, M_bind.
  destruct (m st) as [[a st']|e]; cbn.
  - destruct Hm as [-> Hst']. by apply Hf.
  - destruct Hm as [->|?]; [by left|by right].
Qed.

Lemma yields_seq {A B} P (m : M A) st (a : A) (f : A → M B) r :
  runs P m (Ok a) → P (cache st) → (∀ st', P (cache st') → yields (f a) st' r) →
  yields (m ≫= f) st r.
Proof.
  intros Hm Hst Hf. apply (yields_bind P m st (Ok a) f (λ _, r)); [done|done|].
  intros _ st' [= <-]. apply Hf.
Qed.

Definition corrected (constraints : CompactionConstraints) (limit : N) : N :=
  match estimate_correction constraints with
  | Some correction => correction_apply limit correction
  | None => limit
  end.

Definition scan_start : Scan :=
  {| pending := ∅; pending_count := 0; boundaries := []; transcript := [] |}.

Definition plan_pure (input : list ModelInputMessage) (prompt : str) (tools : list Tool)
    (budgets : CompactionBudgets) (constraints : CompactionConstraints)
    : result ContextErrorKind nat :=
  limit ← soft_input_limit (primary_output_budget budgets) config;
  let pos := positions_of 0 input ∅ in
  min ← min_boundary constraints pos;
  _ ← try_for_each (λ id, guard_err (bool_decide (pos !! id = None)) MalformedHistory)
        (default [] (fresh_inbound constraints));
  let max := max_boundary constraints pos input in
  found ← scan_pure min 0 (take max input) scan_start;
  complete ← assemble_suffix input constraints 0;
  choose_pure input prompt tools constraints found (corrected constraints limit) budgets
    (supports_monotone_compaction complete) max.

Lemma summary_prefix_yields input prompt tools budgets constraints k :
  yields (summary_prefix input prompt tools budgets constraints) {| points := k; cache := ∅ |}
    (plan_pure input prompt tools budgets constraints).
Proof.
  unfold summary_prefix, plan_pure. set (P := λ c : gmap nat Cost, c = ∅).
  eapply (yields_seq P); [apply runs_point|done|]. intros st0 Hst0.
  eapply (yields_bind P); [apply runs_lift|done|]. intros limit st1 _ Hst1.
  eapply (yields_seq P); [apply runs_positions|done|]. intros st2 Hst2.
  eapply (yields_bind P); [apply runs_lift|done|]. intros min st3 _ Hst3.
  eapply (yields_bind P); [apply runs_lift|done|]. intros _ st4 _ Hst4.
  eapply (yields_bind P); [apply runs_scan|done|]. intros found st5 _ Hst5.
  eapply (yields_bind P); [apply runs_lift|done|]. intros complete st6 _ Hst6.
  apply (runs_yields (coherent input prompt tools constraints found));
    [|rewrite Hst6; intros i x; by rewrite lookup_empty].
  unfold choose_pure. apply runs_bind.
  - unfold select_pure, eligible_count. destruct (_ && _); [apply runs_select_monotone|].
    apply runs_bind; [apply runs_select_generic|]. intros [[i|] fallback] _; [apply runs_ret|].
    destruct (_ <? _)%nat; [|apply runs_ret]. eapply runs_seq; [apply runs_point|apply runs_lift].
  - intros selected _. eapply runs_seq; [apply runs_point|].
    apply runs_bind; [apply runs_lift|]. intros index _.
    apply runs_bind; [apply runs_cost|]. intros c _.
    apply runs_bind; [apply runs_lift|]. intros _ _.
    eapply runs_seq; [apply runs_point|apply runs_lift].
Qed.

End planning.

(** ** Which boundaries the scan finds *)

Section spec.
Context `{ContextEngine}.

(** The tool calls a projection opens, and those it answers. *)
Definition opened (l : list ModelInputMessage) : list ToolCallId :=
  concat (map (λ m, match view m with VAssistant content => calls_in content | _ => [] end) l).

Definition answered (l : list ModelInputMessage) : list ToolCallId :=
  omap (λ m, match view m with VTool id _ => Some id | _ => None end) l.

(** No tool turn is open. *)
Definition balanced (l : list ModelInputMessage) : Prop := opened l ≡ₚ answered l.

Definition render (l : list ModelInputMessage) : str :=
  foldl (λ t m, append_summary_message m t) [] l.

Lemma foldl_extends {A} (f : str → A → str) t ps :
  (∀ t p, ∃ u, f t p = t ++ u) → ∃ u, foldl f t ps = t ++ u.
Proof.
  intros Hf. revert t. induction ps as [|p ps IH]; intros t; cbn.
  - exists []. by rewrite app_nil_r.
  - destruct (Hf t p) as [u Hu]. destruct (IH (f t p)) as [w Hw]. exists (u ++ w).
    by rewrite Hw, Hu, (assoc_L (++)).
Qed.

Lemma append_extends m t : ∃ u, append_summary_message m t = t ++ u.
Proof.
  apply foldl_extends. intros t' p. case_bool_decide; [by eexists|].
  eexists. by rewrite <-!(assoc_L (++)).
Qed.

Lemma render_snoc l m : render (l ++ [m]) = append_summary_message m (render l).
Proof. unfold render. by rewrite foldl_app. Qed.

Lemma render_extends l k : ∃ u, render (l ++ k) = render l ++ u.
Proof.
  induction k as [|m k IH] using rev_ind; [exists []; by rewrite !app_nil_r|].
  destruct IH as [u Hu]. rewrite (assoc_L (++)), render_snoc, Hu.
  destruct (append_extends m (render l ++ u)) as [w ->]. exists (u ++ w). by rewrite (assoc_L (++)).
Qed.

Lemma opened_snoc l m :
  opened (l ++ [m]) = opened l ++ match view m with VAssistant content => calls_in content | _ => [] end.
Proof. unfold opened. rewrite map_app, concat_app. cbn. by rewrite app_nil_r. Qed.

Lemma answered_snoc l m :
  answered (l ++ [m]) = answered l ++ match view m with VTool id _ => [id] | _ => [] end.
Proof. unfold answered. rewrite omap_app. cbn. by destruct (view m). Qed.

(** The calls [rest] are open. *)
Definition pending_ok (s : Scan) (rest : list ToolCallId) : Prop :=
  (∀ id, default 0 (pending s !! id) = count_occ (decide_rel (=)) rest id) ∧
  (∀ id, pending s !! id ≠ Some 0) ∧ pending_count s = length rest.

Lemma pending_open c s rest : pending_ok s rest → pending_ok (open_call c s) (rest ++ [c]).
Proof.
  intros (Hc & Hz & Hn). split_and!; cbn.
  - intros id. rewrite count_occ_app. cbn. destruct (decide (id = c)) as [->|Hne].
    + rewrite lookup_insert_eq. cbn. rewrite Hc. destruct (decide_rel (=) c c); [lia|done].
    + rewrite lookup_insert_ne by done. rewrite Hc. destruct (decide_rel (=) c id); [congruence|lia].
  - intros id. destruct (decide (id = c)) as [->|Hne];
      [by rewrite lookup_insert_eq|by rewrite lookup_insert_ne].
  - rewrite length_app, Hn. cbn. lia.
Qed.

Lemma pending_open_all cs s rest :
  pending_ok s rest → pending_ok (foldl (λ s c, open_call c s) s cs) (rest ++ cs).
Proof.
  revert s rest. induction cs as [|c cs IH]; intros s rest H0; cbn; [by rewrite app_nil_r|].
  apply (pending_open c), IH in H0. by rewrite <-(assoc_L (++)) in H0.
Qed.

Lemma open_all_same cs s :
  boundaries (foldl (λ s c, open_call c s) s cs) = boundaries s ∧
  transcript (foldl (λ s c, open_call c s) s cs) = transcript s.
Proof. revert s. induction cs as [|c cs IH]; intros s; cbn; [done|]. apply (IH (open_call c s)). Qed.

(** One message: the open calls after it, or an orphan result. *)
Lemma track_calls_spec l m s rest :
  pending_ok s rest → opened l ≡ₚ answered l ++ rest →
  match track_calls m s with
  | Ok s' => boundaries s' = boundaries s ∧ transcript s' = transcript s ∧
      ∃ rest', pending_ok s' rest' ∧ opened (l ++ [m]) ≡ₚ answered (l ++ [m]) ++ rest'
  | Err e => e = MalformedHistory ∧ ∃ id r, view m = VTool id r ∧ ¬ answered l ++ [id] ⊆+ opened l
  end.
Proof.
  intros Hp Hl. unfold track_calls. pose proof (opened_snoc l m) as Ho. pose proof (answered_snoc l m) as Ha.
  destruct (view m) as [content|content|id r|text]; rewrite ?app_nil_r in Ho; rewrite ?app_nil_r in Ha.
  - split_and!; [done|done|]. exists rest. by rewrite Ho, Ha.
  - destruct (open_all_same (calls_in content) s) as [? ?]. split_and!; [done|done|].
    exists (rest ++ calls_in content). split; [by apply pending_open_all|].
    rewrite Ho, Ha, Hl. by rewrite <-(assoc_L (++)).
  - destruct Hp as (Hc & Hz & Hn). destruct (pending s !! id) as [count|] eqn:E; simpl.
    + assert (Hin : id ∈ rest).
      { apply list_elem_of_In, (count_occ_In (decide_rel (=))). rewrite <-Hc, E. cbn.
        specialize (Hz id). destruct count; [congruence|lia]. }
      apply elem_of_Permutation in Hin as [rest' Hrest]. split_and!; [done|done|].
      assert (Hocc : ∀ j, count_occ (decide_rel (=)) rest j = count_occ (decide_rel (=)) (id :: rest') j)
        by (intros j; by apply Permutation_count_occ).
      exists rest'. split; [|rewrite Ho, Ha, Hl, Hrest, <-(assoc_L (++)); done].
      split_and!; cbn [pending pending_count].
      * intros j. specialize (Hc j). rewrite Hocc in Hc. cbn [count_occ] in Hc.
        destruct (decide (j = id)) as [->|Hne].
        -- rewrite E in Hc. simpl in Hc. destruct (decide_rel (=) id id) as [_|]; [|done].
           destruct (Nat.eqb_spec (count - 1) 0); [rewrite lookup_delete_eq|rewrite lookup_insert_eq];
             simpl; lia.
        -- destruct (decide_rel (=) id j); [congruence|].
           destruct (Nat.eqb_spec (count - 1) 0); [rewrite lookup_delete_ne|rewrite lookup_insert_ne];
             done.
      * intros j. destruct (Nat.eqb_spec (count - 1) 0).
        -- destruct (decide (j = id)) as [->|]; [by rewrite lookup_delete_eq|by rewrite lookup_delete_ne].
        -- destruct (decide (j = id)) as [->|]; [rewrite lookup_insert_eq; congruence|by rewrite lookup_insert_ne].
      * rewrite Hn, Hrest. cbn. lia.
    + split; [done|]. exists id, r. split; [done|]. rewrite Hl.
      intros Hsub%submseteq_app_inv_l. apply (elem_of_submseteq _ _ id) in Hsub; [|left].
      apply list_elem_of_In, (count_occ_In (decide_rel (=))) in Hsub. rewrite <-Hc, E in Hsub. cbn in Hsub. lia.
  - split_and!; [done|done|]. exists rest. by rewrite Ho, Ha.
Qed.

#[export] Instance balanced_dec l : Decision (balanced l).
Proof. unfold balanced. apply _. Defined.

(** The boundaries up to [n]: the complete prefixes from [min] on, with their transcripts. *)
Fixpoint boundaries_upto (min : nat) (l : list ModelInputMessage) (n : nat) : list (nat * N) :=
  match n with
  | O => []
  | S k => boundaries_upto min l k ++
      (if decide (min <= S k ∧ balanced (take (S k) l)) then [(S k, len (render (take (S k) l)))] else [])
  end.

Lemma boundaries_upto_app min l k n :
  n <= length l → boundaries_upto min (l ++ k) n = boundaries_upto min l n.
Proof.
  induction n as [|n IH]; intros Hn; cbn [boundaries_upto]; [done|].
  rewrite IH, take_app_le by lia. done.
Qed.

Lemma elem_of_boundaries min l n m x :
  (m, x) ∈ boundaries_upto min l n ↔
  1 <= m <= n ∧ min <= m ∧ balanced (take m l) ∧ x = len (render (take m l)).
Proof.
  induction n as [|n IH]; cbn [boundaries_upto].
  - split; [intros E; by apply not_elem_of_nil in E|lia].
  - rewrite elem_of_app, IH. destruct (decide (m = S n)) as [->|Hne].
    + case_decide as Hd; [rewrite list_elem_of_singleton|]; split.
      * intros [?|[= ->]]; [lia|]. split_and!; [lia..| |done]; apply Hd.
      * intros (_ & _ & _ & ->). by right.
      * intros [?|E]; [lia|by apply not_elem_of_nil in E].
      * intros (_ & ? & ? & _). naive_solver.
    + case_decide; [rewrite list_elem_of_singleton|]; split.
      * intros [?|[= ->]]; [|done]. split_and!; [lia..| |]; naive_solver.
      * intros (? & ? & ? & ->). left. split_and!; [lia..| |]; done.
      * intros [?|E]; [|by apply not_elem_of_nil in E]. split_and!; [lia..| |]; naive_solver.
      * intros (? & ? & ? & ->). left. split_and!; [lia..| |]; done.
Qed.

Lemma boundaries_increasing min l n i j a b :
  boundaries_upto min l n !! i = Some a → boundaries_upto min l n !! j = Some b → i < j → a.1 < b.1.
Proof.
  revert i j. induction n as [|n IH]; intros i j; cbn [boundaries_upto]; [by rewrite lookup_nil|].
  intros [Ha|[Hai Ha]]%lookup_app_Some [Hb|[Hbi Hb]]%lookup_app_Some Hij; [by eapply IH| | |].
  - apply list_elem_of_lookup_2 in Ha. destruct a as [m x]. apply elem_of_boundaries in Ha.
    case_decide; [|by rewrite lookup_nil in Hb]. apply list_lookup_singleton_Some in Hb as [_ <-].
    cbn. lia.
  - apply lookup_lt_Some in Hb. lia.
  - case_decide; [|by rewrite lookup_nil in Ha].
    apply list_lookup_singleton_Some in Ha as [? _], Hb as [? _]. lia.
Qed.

(** A tool result with no open call before it. *)
Definition orphan_result (l : list ModelInputMessage) : Prop :=
  ∃ k m id r, l !! k = Some m ∧ view m = VTool id r ∧
    ¬ answered (take k l) ++ [id] ⊆+ opened (take k l).

Lemma scan_pure_from min before todo s rest :
  pending_ok s rest → opened before ≡ₚ answered before ++ rest → transcript s = render before →
  boundaries s = boundaries_upto min before (length before) →
  match scan_pure min (length before) todo s with
  | Ok s' => transcript s' = render (before ++ todo) ∧
      boundaries s' = boundaries_upto min (before ++ todo) (length (before ++ todo))
  | Err e => e = MalformedHistory ∧ orphan_result (before ++ todo)
  end.
Proof.
  revert before s rest. induction todo as [|m todo IH]; intros before s rest Hp Ho Ht Hb.
  { cbn. by rewrite app_nil_r. }
  cbn [scan_pure]. pose proof (track_calls_spec before m s rest Hp Ho) as Hm.
  destruct (track_calls m s) as [s1|e]; simpl.
  - destruct Hm as (Hb1 & Ht1 & rest1 & Hp1 & Ho1).
    assert (Hlen : S (length before) = length (before ++ [m])) by (rewrite length_app; cbn; lia).
    rewrite Hlen, (cons_middle m before todo), (assoc_L (++) before [m] todo).
    apply (IH (before ++ [m]) _ rest1); [done|done| |].
    + unfold close_boundary. cbn [transcript]. by rewrite render_snoc, Ht1, Ht.
    + unfold close_boundary. cbn [boundaries]. rewrite <-Hlen. cbn [boundaries_upto].
      rewrite boundaries_upto_app, Hlen, take_ge by lia. rewrite render_snoc, <-Ht, <-Ht1, <-Hlen.
      assert (Hbal : pending_count s1 = 0 ↔ balanced (before ++ [m])).
      { destruct Hp1 as (_ & _ & ->). unfold balanced. rewrite Ho1. split.
        - intros ->%nil_length_inv. by rewrite app_nil_r.
        - intros Hperm%Permutation_length. rewrite length_app in Hperm. lia. }
      rewrite Hb1, Hb. destruct (Nat.leb_spec min (S (length before))), (Nat.eqb_spec (pending_count s1) 0);
        cbn [andb]; [rewrite decide_True by (split; [lia|by apply Hbal])|..];
        try (rewrite decide_False by (intros [? ?%Hbal]; lia)); by rewrite ?app_nil_r.
  - destruct Hm as (-> & id & r & Hv & Hsub). split; [done|].
    exists (length before), m, id, r. split_and!; [|done|by rewrite take_app_length].
    by rewrite lookup_app_r, Nat.sub_diag by lia.
Qed.

Lemma scan_pure_spec min l :
  match scan_pure min 0 l scan_start with
  | Ok s => transcript s = render l ∧ boundaries s = boundaries_upto min l (length l)
  | Err e => e = MalformedHistory ∧ orphan_result l
  end.
Proof.
  apply (scan_pure_from min [] l scan_start []); [|done|done|done].
  split_and!; intros; cbn; rewrite ?lookup_empty; done.
Qed.

(** ** What the searches select *)

Section select.
Set Default Proof Using "All".
Context (input : list ModelInputMessage) (prompt : str) (tools : list Tool)
  (constraints : CompactionConstraints) (found : Scan) (limit : N) (budgets : CompactionBudgets).
(** Every boundary has a price. *)
Context (price : nat → Cost).
Abbreviation count := (length (boundaries found)).
Abbreviation cost_pure := (cost_pure input prompt tools constraints found).
Hypothesis priced : ∀ i, i < count → cost_pure i = Ok (price i).

Abbreviation fit := (λ i, within limit budgets (price i) = true).
Abbreviation keeps := (λ i, keeps_recent (price i) = true).

(** The preferred boundary: the last that fits and keeps the recent target, or else the first
    that fits. *)
Definition best (i : nat) : Prop :=
  i < count ∧ fit i ∧
  ((keeps i ∧ ∀ j, j < count → fit j → keeps j → j <= i) ∨
   ((∀ j, j < count → fit j → ¬ keeps j) ∧ ∀ j, j < count → fit j → i <= j)).

Lemma partition_pure_spec predicate fuel low high :
  (∀ i j, i < j → j < count → predicate (price j) = true → predicate (price i) = true) →
  low <= high → high <= count → high - low <= fuel →
  (∀ i, i < low → predicate (price i) = true) →
  (∀ i, high <= i → i < count → predicate (price i) = false) →
  ∃ k, partition_pure input prompt tools constraints found fuel low high predicate = Ok k ∧
    k <= count ∧ ∀ i, i < count → predicate (price i) = true ↔ i < k.
Proof.
  intros Hm. revert low high. induction fuel as [|fuel IH]; intros low high Hlh Hhs Hf Hlow Hhigh;
    cbn [partition_pure].
  { exists low. split_and!; [done|lia|]. intros i Hi. split; [|apply Hlow].
    intros Hp. destruct (decide (i < low)) as [|Hge]; [done|]. rewrite Hhigh in Hp by lia. done. }
  destruct (Nat.ltb_spec low high) as [Hlt|Hge].
  - assert (Hhalf : (high - low) / 2 < high - low) by (apply Nat.div_lt; lia).
    set (mid := low + (high - low) / 2) in *. rewrite priced by lia. simpl.
    destruct (predicate (price mid)) eqn:Ep; apply IH; try lia; try done.
    + intros i Hi. destruct (decide (i = mid)) as [->|]; [done|]. apply (Hm i mid); (done || lia).
    + intros i Hi Hic. apply not_true_is_false. intros Hp. destruct (decide (i = mid)) as [->|];
        [congruence|]. rewrite (Hm mid i) in Ep; (done || lia).
  - exists low. split_and!; [done|lia|]. intros i Hi. split; [|apply Hlow].
    intros Hp. destruct (decide (i < low)) as [|Hge']; [done|]. rewrite Hhigh in Hp by lia. done.
Qed.

Lemma select_monotone_spec :
  (∀ i j, i < j → j < count → (summary (price i) <= summary (price j))%N) →
  (∀ i j, i < j → j < count → (primary (price j) <= primary (price i))%N) →
  (∀ i j, i < j → j < count → (recent (price j) <= recent (price i))%N) →
  match select_monotone_pure input prompt tools constraints found limit budgets with
  | Ok (Some i) => best i
  | Ok None => ∀ i, i < count → ¬ fit i
  | Err _ => False
  end.
Proof.
  intros Hs Hp Hr. unfold select_monotone_pure, eligible_count.
  destruct (partition_pure_spec (λ c, (summary c <=? summary_input_limit budgets)%N) count 0 count)
    as (u & -> & Hu & Hupper); [|lia|lia|lia|lia|lia|].
  { intros i j Hij Hj Hfit%N.leb_le. apply N.leb_le. specialize (Hs i j Hij Hj). lia. }
  destruct (partition_pure_spec (λ c,
    (limit <? u64_saturating_add (primary c) (summary_output_budget budgets))%N) count 0 count)
    as (w & Hw & Hwc & Hlower); [|lia|lia|lia|lia|lia|].
  { intros i j Hij Hj Hfit%N.ltb_lt. apply N.ltb_lt. specialize (Hp i j Hij Hj).
    unfold u64_saturating_add in *. lia. }
  simpl. rewrite Hw. simpl.
  assert (Hfit : ∀ i, i < count → fit i ↔ w <= i < u).
  { intros i Hi. unfold within. rewrite andb_true_iff, Hupper by done. specialize (Hlower i Hi). cbn in Hlower.
    rewrite N.ltb_lt in Hlower. rewrite N.leb_le. lia. }
  destruct (Nat.leb_spec u w) as [Hle|Hgt]; [intros i Hi H0%Hfit; lia|].
  destruct (partition_pure_spec keeps_recent count 0 count) as (r & -> & Hrc & Hkeep);
    [|lia|lia|lia|lia|lia|].
  { unfold keeps_recent. intros i j Hij Hj Hk%N.leb_le. apply N.leb_le. specialize (Hr i j Hij Hj). lia. }
  simpl. destruct (Nat.ltb_spec w r) as [Hwr|Hwr].
  - split; [lia|]. split; [apply Hfit; lia|]. left. split; [apply Hkeep; lia|].
    intros j Hj Hf%Hfit Hkj%Hkeep; [lia|done..].
  - split; [lia|]. split; [apply Hfit; lia|]. right. split.
    + intros j Hj Hf%Hfit Hkj%Hkeep; [lia|done..].
    + intros j Hj Hf%Hfit; [lia|done].
Qed.

(** What the descending loop has learned of the boundaries from [n] on. *)
Definition learned (n : nat) (fallback : option nat) : Prop :=
  (∀ j, n <= j → j < count → fit j → ¬ keeps j) ∧
  match fallback with
  | Some i => n <= i ∧ i < count ∧ fit i ∧ ∀ j, n <= j → j < count → fit j → i <= j
  | None => ∀ j, n <= j → j < count → ¬ fit j
  end.

Lemma select_generic_spec e n fallback :
  e <= n → n <= count → learned n fallback →
  match select_generic_pure input prompt tools constraints found limit budgets
    (take e (rev (seq 0 n))) fallback with
  | Ok (Some i, _) => best i
  | Ok (None, fallback') => learned (n - e) fallback'
  | Err _ => False
  end.
Proof.
  revert n fallback. induction e as [|e IH]; intros n fallback He Hn Hl.
  { by rewrite take_0, Nat.sub_0_r. }
  destruct n as [|n]; [lia|]. rewrite seq_S, rev_app_distr. cbn [rev app take].
  cbn [select_generic_pure]. rewrite Nat.add_0_l, priced by lia. simpl.
  assert (Hsplit : ∀ j, n <= j → j = n ∨ S n <= j) by lia.
  destruct Hl as [Hk Hf]. destruct (within limit budgets (price n)) eqn:Ew.
  - destruct (keeps_recent (price n)) eqn:Ek.
    + split; [lia|]. split; [done|]. left. split; [done|]. intros j Hj Hfj Hkj.
      destruct (decide (j <= n)) as [|Hgt]; [done|]. by destruct (Hk j ltac:(lia) Hj Hfj).
    + apply IH; [lia|lia|]. split.
      * intros j [->|Hge]%Hsplit Hj Hfj; [congruence|by apply Hk].
      * split_and!; [lia|lia|done|]. intros j Hge _ _. lia.
  - apply IH; [lia|lia|]. split.
    + intros j [->|Hge]%Hsplit Hj Hfj; [congruence|by apply Hk].
    + destruct fallback as [i|].
      * destruct Hf as (Hi & Hic & Hfi & Hmin). split_and!; [lia|done|done|].
        intros j [->|Hge]%Hsplit Hj Hfj; [congruence|by apply Hmin].
      * intros j [->|Hge]%Hsplit Hj Hfj; [congruence|by apply (Hf j)].
Qed.

Lemma select_spec monotone :
  (monotone = true → ∀ i j, i < j → j < count →
     (summary (price i) <= summary (price j) ∧ primary (price j) <= primary (price i) ∧
      recent (price j) <= recent (price i))%N) →
  match select_pure input prompt tools constraints found limit budgets monotone with
  | Ok (Some i) => best i
  | Ok None => ∀ i, i < count → ¬ fit i
  | Err e => e = SearchIncomplete ∧ monotone = false ∧ MAX_GENERIC_CANDIDATES < count
  end.
Proof.
  intros Hm. unfold select_pure, eligible_count. destruct (monotone && (0 <? count)%nat) eqn:E.
  - apply andb_true_iff in E as [Em _].
    pose proof (select_monotone_spec (λ i j Hi Hj, proj1 (Hm Em i j Hi Hj))
      (λ i j Hi Hj, proj1 (proj2 (Hm Em i j Hi Hj))) (λ i j Hi Hj, proj2 (proj2 (Hm Em i j Hi Hj)))) as Hs.
    by destruct (select_monotone_pure _ _ _ _ _ _ _).
  - set (e := Nat.min count MAX_GENERIC_CANDIDATES).
    assert (Hstart : learned count None) by (split; intros; lia).
    pose proof (select_generic_spec e count None ltac:(lia) ltac:(lia) Hstart) as Hs.
    destruct (select_generic_pure _ _ _ _ _ _ _ _ _) as [[[i|] fallback]|e']; simpl; [done| |done].
    destruct (Nat.ltb_spec e count) as [Hlt|Hge].
    + split_and!; [done| |lia]. apply andb_false_iff in E as [E|E%Nat.ltb_ge]; [done|lia].
    + destruct Hs as [Hk Hf]. replace (count - e) with 0 in * by lia. destruct fallback as [i|].
      * destruct Hf as (_ & Hi & Hfi & Hmin). split; [done|]. split; [done|]. right.
        split; intros j Hj Hfj; [apply Hk; (done || lia)|apply Hmin; (done || lia)].
      * intros i Hi. apply Hf; (done || lia).
Qed.
End select.

(** ** Which prefixes may be retired *)

Definition is_id (id : MessageId) (m : ModelInputMessage) : bool :=
  bool_decide (canonical_id m = Some id).

Lemma positions_of_spec i input pos id :
  positions_of i input pos !! id =
    match pos !! id with
    | Some p => Some p
    | None => (λ k, i + k) <$> position (is_id id) input
    end.
Proof.
  revert i pos. induction input as [|m input IH]; intros i pos; cbn [positions_of position].
  { by destruct (pos !! id). }
  rewrite IH. unfold is_id at 2. destruct (canonical_id m) as [id'|] eqn:Em.
  - destruct (decide (id' = id)) as [->|Hne].
    + rewrite bool_decide_eq_true_2 by done. destruct (pos !! id) eqn:Ep; [by rewrite Ep|].
      rewrite lookup_insert_eq. cbn. f_equal. lia.
    + rewrite bool_decide_eq_false_2 by congruence.
      assert (Hsame : match pos !! id' with Some _ => pos | None => <[id' := i]> pos end !! id = pos !! id)
        by (destruct (pos !! id'); [done|by rewrite lookup_insert_ne]).
      rewrite Hsame. destruct (pos !! id); [done|]. destruct (position _ input); cbn; [|done].
      f_equal. lia.
  - rewrite bool_decide_eq_false_2 by done. destruct (pos !! id); [done|].
    destruct (position _ input); cbn; [|done]. f_equal. lia.
Qed.

(** Whether the first [n] messages contain the identity. *)
Definition mentions (n : nat) (input : list ModelInputMessage) (id : MessageId) : Prop :=
  ∃ m, m ∈ take n input ∧ canonical_id m = Some id.

Lemma positions_mentions input id n :
  mentions n input id ↔ ∃ p, positions_of 0 input ∅ !! id = Some p ∧ p < n.
Proof.
  rewrite positions_of_spec, lookup_empty. unfold mentions. split.
  - intros (m & [k Hk]%list_elem_of_lookup & Hm).
    apply lookup_take_Some in Hk as [Hk Hlt].
    destruct (position (is_id id) input) as [p|] eqn:E.
    + exists p. split; [done|]. destruct (decide (p < n)) as [|Hge]; [done|]. exfalso.
      pose proof (position_first _ _ _ k m E ltac:(lia) Hk) as Hf.
      unfold is_id in Hf. by apply bool_decide_eq_false in Hf.
    + rewrite position_None in E. specialize (E m (list_elem_of_lookup_2 _ _ _ Hk)).
      unfold is_id in E. by apply bool_decide_eq_false in E.
  - intros (p & Hp & Hlt). destruct (position (is_id id) input) as [q|] eqn:E; [|done].
    injection Hp as <-. apply position_Some in E as (m & Hm & Hid). exists m. split.
    + apply list_elem_of_lookup. exists q. by apply lookup_take_Some.
    + unfold is_id in Hid. by apply bool_decide_eq_true in Hid.
Qed.

(** A prefix that compaction may retire: whole tool turns, the required continuation
    included, nothing protected. *)
Definition retirable (input : list ModelInputMessage) (cs : CompactionConstraints) (n : nat) : Prop :=
  1 <= n <= length input ∧ balanced (take n input) ∧
  (∀ id, must_cover_through cs = Some id → mentions n input id) ∧
  (∀ id, id ∈ protected_ids cs → ¬ mentions n input id).

Lemma foldl_min_le p ps n : n <= foldl Nat.min p ps ↔ n <= p ∧ ∀ q, q ∈ ps → n <= q.
Proof.
  revert p. induction ps as [|q ps IH]; intros p; cbn.
  - split; [|naive_solver]. intros ?. split; [done|]. intros q Hq. by apply not_elem_of_nil in Hq.
  - rewrite IH. setoid_rewrite elem_of_cons. split.
    + intros [? ?]. split; [lia|]. intros x [->|?]; [lia|auto].
    + intros [? Hq]. pose proof (Hq q ltac:(by left)). split; [lia|auto].
Qed.

Lemma max_boundary_spec cs input n :
  n <= max_boundary cs (positions_of 0 input ∅) input ∧ n <= length input ↔
  n <= length input ∧ ∀ id, id ∈ protected_ids cs → ¬ mentions n input id.
Proof.
  unfold max_boundary. set (pos := positions_of 0 input ∅).
  assert (Hiff : (∀ p, p ∈ omap (λ id, pos !! id) (protected_ids cs) → n <= p) ↔
    ∀ id, id ∈ protected_ids cs → ¬ mentions n input id).
  { split.
    - intros Hp id Hid (p & Hpos & Hlt)%positions_mentions.
      specialize (Hp p). rewrite list_elem_of_omap in Hp. specialize (Hp (ex_intro _ id (conj Hid Hpos))). lia.
    - intros Hm p (id & Hid & Hpos)%list_elem_of_omap. destruct (decide (n <= p)) as [|Hgt]; [done|].
      destruct (Hm id Hid). apply positions_mentions. exists p. split; [done|lia]. }
  destruct (omap _ _) as [|p ps].
  - split; [intros [? _]; split; [done|]; apply Hiff; intros p Hp; by apply not_elem_of_nil in Hp|].
    intros [? _]. done.
  - rewrite foldl_min_le, <-Hiff. setoid_rewrite elem_of_cons. naive_solver.
Qed.

Lemma boundaries_retirable input cs min n x :
  let pos := positions_of 0 input ∅ in
  let l := take (max_boundary cs pos input) input in
  min_boundary cs pos = Ok min →
  (n, x) ∈ boundaries_upto min l (length l) ↔ retirable input cs n ∧ x = len (render (take n input)).
Proof.
  intros pos l Hmin. rewrite elem_of_boundaries. unfold l at 1. rewrite length_take.
  assert (Hcover : 1 <= n → min <= n ↔ ∀ id, must_cover_through cs = Some id → mentions n input id).
  { intros Hn. unfold min_boundary in Hmin. destruct (must_cover_through cs) as [id|].
    - apply ok_or_ok, fmap_Some in Hmin as (p & Hp & ->). split.
      + intros Hlt id' [= <-]. apply positions_mentions. exists p. split; [done|lia].
      + intros Hm. destruct (proj1 (positions_mentions input id n) (Hm id eq_refl)) as (q & Hq & Hlt).
        unfold pos in Hp. rewrite Hp in Hq. injection Hq as <-. lia.
    - injection Hmin as <-. split; [done|lia]. }
  assert (Htake : n <= max_boundary cs pos input → take n l = take n input)
    by (intros Hle; unfold l; rewrite take_take; f_equal; lia).
  pose proof (max_boundary_spec cs input n) as Hmax. fold pos in Hmax. unfold retirable. split.
  - intros (Hn & Hm & Hbal & ->). rewrite Htake in * by lia. split; [|done].
    destruct (proj1 Hmax) as [? Hprot]; [split; lia|]. split_and!; [lia|lia|done| |done].
    apply Hcover; [lia|done].
  - intros [(Hn & Hbal & Hm & Hprot) ->]. destruct (proj2 Hmax (conj (proj2 Hn) Hprot)) as [Hle _].
    rewrite Htake by done. split_and!; [lia|lia|apply Hcover; [lia|done]|done|done].
Qed.

(** The carryover's anchor survives in every candidate. *)
Lemma assemble_suffix_total input cs complete n :
  assemble_suffix input cs 0 = Ok complete → n <= length input →
  (∀ id, id ∈ protected_ids cs → ¬ mentions n input id) →
  ∃ planned, assemble_suffix input cs n = Ok planned.
Proof.
  unfold assemble_suffix, assemble_context_input. rewrite map_err_ok. intros Hc Hn Hprot.
  destruct (carryover cs) as [text|]; [|by eexists].
  destruct (carryover_anchor cs) as [[id|]|] eqn:Ea; [|by eexists|done].
  revert Hc. simpl. intros (p & Hp%ok_or_ok & _)%bind_ok.
  destruct (position _ (drop n input ++ _)) as [q|] eqn:E; [by eexists|].
  exfalso. apply position_Some in Hp as (m & Hm & Hid). rewrite position_None in E.
  destruct (Hprot id).
  { unfold protected_ids. rewrite Ea, !elem_of_app. right. right. constructor. }
  exists m. split; [|by apply bool_decide_eq_true in Hid].
  apply list_elem_of_lookup_2 in Hm. rewrite drop_0 in Hm. apply elem_of_app in Hm as [Hm|Hm].
  - rewrite <-(take_drop n input) in Hm. apply elem_of_app in Hm as [Hm|Hm]; [done|].
    rewrite E in Hid; [done|]. apply elem_of_app. by left.
  - rewrite E in Hid; [done|]. apply elem_of_app. by right.
Qed.

(** ** The plan *)

(** The three prices of retiring the first [n] messages. *)
Definition request_cost (input : list ModelInputMessage) (prompt : str) (tools : list Tool)
    (cs : CompactionConstraints) (n : nat) : result ContextErrorKind Cost :=
  planned ← assemble_suffix input cs n;
  Ok {| summary := estimate_model_input (summary_model_input (render (take n input))) [] [];
        primary := estimate_model_input planned prompt tools;
        recent := estimate_model_input (drop n input) [] [] |}.

Lemma cost_pure_boundary input prompt tools cs found max i n x :
  transcript found = render (take max input) → n <= max →
  boundaries found !! i = Some (n, x) → x = len (render (take n input)) →
  cost_pure input prompt tools cs found i = request_cost input prompt tools cs n.
Proof.
  intros Ht Hn Hi ->. unfold cost_pure, request_cost. rewrite Hi, Ht. simpl.
  rewrite <-(take_drop n (take max input)), take_take, Nat.min_l by done.
  destruct (render_extends (take n input) (drop n (take max input))) as [u ->].
  by rewrite take_bytes_app.
Qed.

(** The promise of [supports_monotone_compaction]: growing the rendered summary prefix does
    not lower its estimate, and deleting a prefix of the history does not raise the price of
    the rest, in the request and alone. *)
Class MonotoneEngine : Prop := {
  monotone_summary complete t u :
    supports_monotone_compaction complete = true →
    (estimate_model_input (summary_model_input t) [] [] <=
     estimate_model_input (summary_model_input (t ++ u)) [] [])%N;
  monotone_primary input cs complete x y n m prompt tools :
    assemble_suffix input cs 0 = Ok complete → supports_monotone_compaction complete = true →
    n <= m → assemble_suffix input cs n = Ok x → assemble_suffix input cs m = Ok y →
    (estimate_model_input y prompt tools <= estimate_model_input x prompt tools)%N;
  monotone_recent input cs complete n m :
    assemble_suffix input cs 0 = Ok complete → supports_monotone_compaction complete = true →
    n <= m →
    (estimate_model_input (drop m input) [] [] <= estimate_model_input (drop n input) [] [])%N;
}.

Section plan.
Context `{!MonotoneEngine}.
Context (input : list ModelInputMessage) (prompt : str) (tools : list Tool)
  (budgets : CompactionBudgets) (cs : CompactionConstraints).

Definition feasible (limit : N) (n : nat) : Prop :=
  ∃ c, request_cost input prompt tools cs n = Ok c ∧ within limit budgets c = true.

Definition retains_recent (n : nat) : Prop :=
  ∃ c, request_cost input prompt tools cs n = Ok c ∧ keeps_recent c = true.

(** The largest feasible prefix that leaves the recent target, or else the smallest feasible
    one. *)
Definition preferred_prefix (limit : N) (n : nat) : Prop :=
  retirable input cs n ∧ feasible limit n ∧
  ((retains_recent n ∧ ∀ m, retirable input cs m → feasible limit m → retains_recent m → m <= n) ∨
   ((∀ m, retirable input cs m → feasible limit m → ¬ retains_recent m) ∧
    ∀ m, retirable input cs m → feasible limit m → n <= m)).

Section found.
Set Default Proof Using "All".
(** A scan that succeeded, on a request that can be assembled. *)
Context (min : nat) (found : Scan) (complete : list ModelInputMessage) (limit : N).
Abbreviation max := (max_boundary cs (positions_of 0 input ∅) input).
Hypothesis min_ok : min_boundary cs (positions_of 0 input ∅) = Ok min.
Hypothesis complete_ok : assemble_suffix input cs 0 = Ok complete.
Hypothesis found_transcript : transcript found = render (take max input).
Hypothesis found_boundaries :
  boundaries found = boundaries_upto min (take max input) (length (take max input)).

Lemma boundary_retirable i n x :
  boundaries found !! i = Some (n, x) →
  retirable input cs n ∧ x = len (render (take n input)) ∧ n <= max.
Proof.
  intros Hi%list_elem_of_lookup_2. rewrite found_boundaries in Hi. pose proof Hi as Hi'.
  apply (boundaries_retirable input cs min n x min_ok) in Hi as [Hr ->]. split_and!; [done|done|].
  apply elem_of_boundaries in Hi' as [Hle _]. rewrite length_take in Hle. lia.
Qed.

Lemma retirable_boundary n : retirable input cs n → ∃ i x, boundaries found !! i = Some (n, x).
Proof.
  intros Hr. destruct (list_elem_of_lookup_1 (boundaries found) (n, len (render (take n input))))
    as [i Hi]; [|by exists i, (len (render (take n input)))].
  rewrite found_boundaries. by apply (boundaries_retirable input cs min n _ min_ok).
Qed.

Definition price (i : nat) : Cost :=
  match cost_pure input prompt tools cs found i with
  | Ok c => c
  | Err _ => {| summary := 0; primary := 0; recent := 0 |}
  end.

Lemma boundary_cost i n x :
  boundaries found !! i = Some (n, x) →
  cost_pure input prompt tools cs found i = Ok (price i) ∧
  request_cost input prompt tools cs n = Ok (price i) ∧
  ∃ planned, assemble_suffix input cs n = Ok planned.
Proof.
  intros Hi. destruct (boundary_retirable i n x Hi) as ((Hn & _ & _ & Hprot) & Hx & Hle).
  destruct (assemble_suffix_total input cs complete n complete_ok ltac:(lia) Hprot) as [p Hp].
  unfold price. rewrite (cost_pure_boundary _ _ _ _ _ max i n x found_transcript Hle Hi Hx).
  split_and!; [| |by exists p]; unfold request_cost; rewrite Hp; done.
Qed.

Lemma boundary_priced i :
  i < length (boundaries found) → cost_pure input prompt tools cs found i = Ok (price i).
Proof.
  intros [[n x] Hi]%lookup_lt_is_Some. by destruct (boundary_cost i n x Hi).
Qed.

Lemma price_monotone :
  supports_monotone_compaction complete = true → ∀ i j, i < j → j < length (boundaries found) →
  (summary (price i) <= summary (price j) ∧ primary (price j) <= primary (price i) ∧
   recent (price j) <= recent (price i))%N.
Proof.
  intros Hs i j Hij Hj. destruct (lookup_lt_is_Some_2 (boundaries found) i ltac:(lia)) as [[n x] Hn].
  destruct (lookup_lt_is_Some_2 (boundaries found) j Hj) as [[m y] Hm].
  assert (Hnm : n < m).
  { rewrite found_boundaries in Hn, Hm. apply (boundaries_increasing _ _ _ _ _ _ _ Hn Hm Hij). }
  destruct (boundary_cost i n x Hn) as (_ & Hci & p & Hp), (boundary_cost j m y Hm) as (_ & Hcj & q & Hq).
  unfold request_cost in Hci, Hcj. rewrite Hp in Hci. rewrite Hq in Hcj.
  injection Hci as <-. injection Hcj as <-. cbn. split_and!.
  - rewrite <-(take_drop n (take m input)), take_take, Nat.min_l by lia.
    destruct (render_extends (take n input) (drop n (take m input))) as [u ->].
    by apply (monotone_summary complete).
  - apply (monotone_primary input cs complete p q n m); (done || lia).
  - apply (monotone_recent input cs complete); (done || lia).
Qed.

Lemma boundary_feasible i n x :
  boundaries found !! i = Some (n, x) →
  (feasible limit n ↔ within limit budgets (price i) = true) ∧
  (retains_recent n ↔ keeps_recent (price i) = true).
Proof.
  intros Hi. destruct (boundary_cost i n x Hi) as (_ & Hc & _). unfold feasible, retains_recent.
  rewrite Hc. split; (split; [by intros (c & [= <-] & ?)|by exists (price i)]).
Qed.

Lemma boundary_order i j n m x y :
  boundaries found !! i = Some (n, x) → boundaries found !! j = Some (m, y) → j <= i → m <= n.
Proof.
  intros Hn Hm Hji. destruct (decide (j = i)) as [->|Hne]; [rewrite Hn in Hm; injection Hm; lia|].
  rewrite found_boundaries in Hn, Hm.
  pose proof (boundaries_increasing _ _ _ _ _ _ _ Hm Hn ltac:(lia)) as Hinc. cbn in Hinc. lia.
Qed.

Lemma best_preferred i n x :
  boundaries found !! i = Some (n, x) → best found limit budgets price i → preferred_prefix limit n.
Proof.
  intros Hi (_ & Hfit & Hbest). destruct (boundary_feasible i n x Hi) as [Hf Hk].
  split; [by apply (boundary_retirable i n x)|]. split; [by apply Hf|].
  assert (Hother : ∀ m, retirable input cs m → ∃ j y, boundaries found !! j = Some (m, y) ∧
    j < length (boundaries found) ∧ (feasible limit m ↔ within limit budgets (price j) = true) ∧
    (retains_recent m ↔ keeps_recent (price j) = true)).
  { intros m (j & y & Hj)%retirable_boundary. exists j, y. split_and!; [done|by eapply lookup_lt_Some|..];
      by destruct (boundary_feasible j m y Hj). }
  destruct Hbest as [[Hki Hmax]|[Hno Hmin]]; [left|right].
  - split; [by apply Hk|]. intros m Hr Hfm Hkm. destruct (Hother m Hr) as (j & y & Hj & Hlt & Hjf & Hjk).
    apply (boundary_order i j n m x y Hi Hj), Hmax; [done|by apply Hjf|by apply Hjk].
  - split; intros m Hr Hfm; destruct (Hother m Hr) as (j & y & Hj & Hlt & Hjf & Hjk).
    + intros Hkm. apply (Hno j Hlt); [by apply Hjf|by apply Hjk].
    + apply (boundary_order j i m n y x Hj Hi), Hmin; [done|by apply Hjf].
Qed.

Lemma choose_spec :
  match choose_pure input prompt tools cs found limit budgets
    (supports_monotone_compaction complete) max with
  | Ok n => preferred_prefix limit n
  | Err (CannotFit | NoProgress) => ∀ n, retirable input cs n → ¬ feasible limit n
  | Err SearchIncomplete =>
      supports_monotone_compaction complete = false ∧
      MAX_GENERIC_CANDIDATES < length (boundaries found)
  | Err _ => False
  end.
Proof.
  unfold choose_pure.
  pose proof (select_spec input prompt tools cs found limit budgets price boundary_priced
    (supports_monotone_compaction complete) price_monotone) as Hsel.
  destruct (select_pure _ _ _ _ _ _ _ _) as [[i|]|e]; simpl.
  - pose proof Hsel as (Hlt & Hfit & _). rewrite (boundary_priced i Hlt). simpl. rewrite Hfit. simpl.
    destruct (lookup_lt_is_Some_2 _ _ Hlt) as [[n x] Hi]. rewrite Hi. simpl.
    by apply (best_preferred i n x).
  - assert (Hnone : ∀ n, retirable input cs n → ¬ feasible limit n).
    { intros n (i & x & Hi)%retirable_boundary Hf. apply (Hsel i); [by eapply lookup_lt_Some|].
      by apply (boundary_feasible i n x Hi). }
    by destruct (_ =? _)%nat.
  - by destruct Hsel as (-> & ? & ?).
Qed.
End found.

(** What a plan promises of its result, cancellation aside. *)
Definition plan_promise (r : result ContextErrorKind nat) : Prop :=
  let limit := corrected cs <$> soft_input_limit (primary_output_budget budgets) config in
  match r with
  | Ok n => ∃ l, limit = Ok l ∧ preferred_prefix l n
  | Err (CannotFit | NoProgress) => ∃ l, limit = Ok l ∧ ∀ n, retirable input cs n → ¬ feasible l n
  | Err SearchIncomplete => ∃ complete, assemble_suffix input cs 0 = Ok complete ∧
      supports_monotone_compaction complete = false ∧ MAX_GENERIC_CANDIDATES < length input
  | Err MalformedHistory =>
      (∃ id, id ∈ default [] (fresh_inbound cs) ∧ ¬ mentions (length input) input id) ∨
      (∃ n, orphan_result (take n input)) ∨ assemble_suffix input cs 0 = Err MalformedHistory
  | Err InvalidConfiguration => limit = Err InvalidConfiguration
  | Err _ => False
  end.

Lemma boundaries_few min l n : length (boundaries_upto min l n) <= n.
Proof.
  induction n as [|n IH]; cbn [boundaries_upto]; [done|]. rewrite length_app. case_decide; cbn; lia.
Qed.

Lemma soft_input_limit_err out c e : soft_input_limit out c = Err e → e = InvalidConfiguration.
Proof.
  unfold soft_input_limit. intros [[_ ?]%guard_err_err|(u & _ & He)]%bind_err; [done|].
  by apply bind_err in He as [[_ ?]%guard_err_err|(? & _ & ?)].
Qed.

Lemma suffix_err n e : assemble_suffix input cs n = Err e → e = MalformedHistory.
Proof. unfold assemble_suffix. destruct (assemble_context_input _ _ _ _); cbn; [done|by intros [= <-]]. Qed.

Lemma fresh_err ids e :
  try_for_each (λ id, guard_err (bool_decide (positions_of 0 input ∅ !! id = None)) MalformedHistory)
    ids = Err e →
  e = MalformedHistory ∧ ∃ id, id ∈ ids ∧ ¬ mentions (length input) input id.
Proof.
  induction ids as [|id ids IH]; simpl; [done|]. case_bool_decide as Hn; simpl.
  - intros [= <-]. split; [done|]. exists id. split; [left|].
    intros (p & Hp & _)%positions_mentions. congruence.
  - intros (-> & id' & ? & ?)%IH. split; [done|]. exists id'. split; [by right|done].
Qed.

Lemma min_boundary_err e :
  min_boundary cs (positions_of 0 input ∅) = Err e → e = NoProgress ∧ ∀ n, ¬ retirable input cs n.
Proof.
  unfold min_boundary. destruct (must_cover_through cs) as [id|] eqn:Ec; [|done].
  destruct (positions_of 0 input ∅ !! id) eqn:Ep; [done|]. intros [= <-]. split; [done|].
  intros n (_ & _ & Hm & _). destruct (proj1 (positions_mentions input id n) (Hm id Ec)) as (p & Hp & _).
  congruence.
Qed.

Lemma plan_pure_promise : plan_promise (plan_pure input prompt tools budgets cs).
Proof.
  unfold plan_pure, plan_promise.
  destruct (soft_input_limit _ _) as [l|e] eqn:El; simpl;
    [|by rewrite (soft_input_limit_err _ _ _ El)].
  destruct (min_boundary _ _) as [min|e] eqn:Em; simpl;
    [|destruct (min_boundary_err e Em) as [-> Hno]; exists (corrected cs l); split; [done|];
      intros n Hr; by destruct (Hno n)].
  destruct (try_for_each _ _) as [[]|e] eqn:Ef; simpl;
    [|destruct (fresh_err _ _ Ef) as [-> ?]; by left].
  set (max := max_boundary cs (positions_of 0 input ∅) input).
  pose proof (scan_pure_spec min (take max input)) as Hscan.
  destruct (scan_pure _ _ _ _) as [found|e]; simpl;
    [|destruct Hscan as [-> ?]; right; left; by exists max].
  destruct Hscan as [Ht Hb]. destruct (assemble_suffix input cs 0) as [complete|e] eqn:Ea; simpl;
    [|rewrite (suffix_err _ _ Ea); by right; right].
  pose proof (choose_spec min found complete (corrected cs l) Em Ea Ht Hb) as Hc. fold max in Hc.
  destruct (choose_pure _ _ _ _ _ _ _ _ _) as [n|[]]; try done; try (by exists (corrected cs l)).
  destruct Hc as [Hs Hlen]. exists complete. split_and!; [done|done|].
  rewrite Hb in Hlen. pose proof (boundaries_few min (take max input) (length (take max input))).
  rewrite length_take in *. lia.
Qed.

(** C13 Planning is exact: when the estimator keeps its monotonicity promise, the plan is the
    preferred prefix among all that whole tool turns, the required continuation, the
    protected messages and the budgets allow, found by binary search or by the bounded scan
    alike; "cannot fit" and "no progress" mean that no such prefix exists, the search is only
    given up without the promise and past its query budget, and every other refusal has its
    stated cause. *)
Theorem planning_exact cancelled k :
  match summary_prefix cancelled input prompt tools budgets cs {| points := k; cache := ∅ |} with
  | Ok (n, _) => plan_promise (Ok n)
  | Err Cancelled => ∃ j, cancelled j = true
  | Err e => plan_promise (Err e)
  end.
Proof.
  pose proof (summary_prefix_yields cancelled input prompt tools budgets cs k) as Hy.
  pose proof plan_pure_promise as Hp. unfold yields in Hy.
  destruct (summary_prefix _ _ _ _ _ _ _) as [[n st]|e].
  - by rewrite Hy in Hp.
  - destruct Hy as [Hr|[-> Hc]]; [|done]. rewrite Hr in Hp. by destruct e.
Qed.
End plan.
End spec.

(** ** Witness: one token a message and a byte of its text *)

Definition user_text (content : list UserContentBlock) : str :=
  concat (omap (λ b, match b with UText t => Some t | _ => None end) content).

Definition tokens (m : ModelInputMessage) : N :=
  match view m with
  | VUser content => 1 + len (user_text content)
  | VAssistant _ | VTool _ _ => 1
  | VRequestOnly text => 1 + len text
  end%N.

Fixpoint sum_tokens (l : list ModelInputMessage) : N :=
  match l with [] => 0 | m :: l => tokens m + sum_tokens l end%N.

Definition byte_engine : ContextEngine := {|
  Tool := ();
  config := {| context_window_tokens := 400; reserve_tokens := 10; keep_recent_tokens := 2 |};
  estimate_model_input l prompt tools := (sum_tokens l + len prompt + N.of_nat (length tools))%N;
  supports_monotone_compaction := λ _, true;
  summary_parts m := match view m with VUser content => [user_text content] | _ => [[46%N]] end;
  summary_instruction := [] |}.

Lemma sum_tokens_app l k : sum_tokens (l ++ k) = (sum_tokens l + sum_tokens k)%N.
Proof. induction l as [|m l IH]; cbn [sum_tokens app]; [done|]. rewrite IH. lia. Qed.

Lemma sum_tokens_drop l n m : n <= m → (sum_tokens (drop m l) <= sum_tokens (drop n l))%N.
Proof.
  intros Hnm. rewrite <-(take_drop (m - n) (drop n l)), sum_tokens_app, drop_drop.
  replace (n + (m - n)) with m by lia. lia.
Qed.

Lemma assemble_tokens historical staged carry anchor messages :
  assemble_context_input historical staged carry anchor = Ok messages →
  sum_tokens messages = (sum_tokens historical + sum_tokens (map Canonical staged) +
    match carry with Some text => 1 + len text | None => 0 end)%N.
Proof.
  unfold assemble_context_input. destruct carry as [text|].
  - intros (a & _ & (p & _ & [= <-])%bind_ok)%bind_ok.
    rewrite sum_tokens_app. cbn [sum_tokens]. unfold tokens at 1. cbn [view].
    pose proof (sum_tokens_app (take p (historical ++ map Canonical staged)) (drop p (historical ++ map Canonical staged))) as E.
    rewrite take_drop, sum_tokens_app in E. lia.
  - intros [= <-]. rewrite sum_tokens_app. lia.
Qed.

#[local] Existing Instance byte_engine.
#[local] Instance byte_engine_monotone : MonotoneEngine.
Proof.
  split; cbn -[summary_model_input].
  - intros _ t u _. unfold summary_model_input. cbn [sum_tokens]. unfold tokens, user_text. cbn.
    rewrite !len_app. cbn [len]. rewrite ?len_app. lia.
  - intros input cs _ x y n m prompt tools _ _ Hnm Hx%map_err_ok%assemble_tokens Hy%map_err_ok%assemble_tokens.
    pose proof (sum_tokens_drop input n m Hnm). lia.
  - intros input _ _ n m _ _ Hnm. pose proof (sum_tokens_drop input n m Hnm). lia.
Qed.

Definition sample_user (id text : str) : ModelInputMessage :=
  Canonical (User {| user_id := id; user_content := [UText text]; user_source := Human;
    user_kind := KMessage; user_timestamp := None |}).

Definition sample_call : ModelInputMessage :=
  Derived (PAssistant [AToolCall {| call_id := lit "c"; call_tool_id := lit "t"; call_name := lit "t";
    call_arguments := Null |}]).

Definition sample_result : ModelInputMessage :=
  Derived (PTool (lit "c") {| status := Success; result_content := []; duration_ms := 0; exit_code := None |}).

Definition sample_input : list ModelInputMessage :=
  [sample_user (lit "a") (lit "hello"); sample_call; sample_result; sample_user (lit "b") (lit "next");
   sample_user (lit "f") (lit "fresh")].

Definition sample_budgets : CompactionBudgets :=
  {| primary_output_budget := 100; summary_output_budget := 50; summary_input_limit := 200 |}.

Definition sample_constraints : CompactionConstraints :=
  {| must_cover_through := None; fresh_inbound := Some [lit "f"]; protected_context_ids := [];
     staged_request_context := []; carryover := Some (lit "partial");
     carryover_anchor := Some (BeforeMessage (lit "f")); estimate_correction := correction_new 3 4 |}.

Lemma planning_exact_witness :
  summary_prefix (λ _, false) sample_input [] [] sample_budgets sample_constraints
    {| points := 0; cache := ∅ |} ≫= (λ '(n, _), Ok n) = Ok 4 ∧
  plan_promise sample_input [] [] sample_budgets sample_constraints (Ok 4).
Proof.
  pose proof (planning_exact (H := byte_engine) sample_input [] [] sample_budgets sample_constraints
    (λ _, false) 0) as Hp.
  assert (Hr : summary_prefix (H := byte_engine) (λ _, false) sample_input [] [] sample_budgets
    sample_constraints {| points := 0; cache := ∅ |} ≫= (λ '(n, _), Ok n) = Ok 4) by (vm_compute; reflexivity).
  split; [exact Hr|]. destruct (summary_prefix _ _ _ _ _ _ _) as [[n st]|e]; [|done].
  injection Hr as ->. exact Hp.
Defined.
