(* ===== verification/Authority.v ===== *)
(** The allowance of physical model requests one business owner shares among its auxiliary
    calls ([src/src/runtime/auxiliary/authority.rs]), and the cumulative budget of one
    compaction built on it ([src/src/context/compaction_budget.rs]).

    An [Arc] is shared by cloning, so the authority is one value of the state and every
    clone's calls act on it; [next_operation] only changes the identity of the receipt.
    The clock and the cancellation signal are read by each call as arguments.  What the
    durable store did with a start is the [World]: a write may commit although its reply is
    lost. *)

From S2P Require Import Prelude Text Assembly Planning.
From stdpp Require Import options.

Abbreviation RequestId := (list N) (only parsing).

(** ** Evidence of one physical request *)

Inductive AuxiliaryUsageCompleteness := UComplete | UPartial | UUnreported.

#[export] Instance AuxiliaryUsageCompleteness_eq_dec : EqDecision AuxiliaryUsageCompleteness.
Proof. solve_decision. Defined.

(** The observed provider terminal is not read here. *)
Record AuxiliaryRequestEvidence := {
  ev_request_id : RequestId;
  usage : option ModelUsage;
  usage_completeness : AuxiliaryUsageCompleteness;
  remote_execution_uncertainty : bool;
}.

(** [ModelUsage::is_complete] *)
Definition is_complete (u : ModelUsage) : bool :=
  bool_decide (is_Some (input_tokens u)) && bool_decide (is_Some (output_tokens u))
  && bool_decide (is_Some (total_tokens u)).

(** ** The authority *)

Definition CALL_DEADLINE_MILLIS : N := 300000.
Definition CALL_START_LIMIT : N := 3.

(** [starts] maps a reserved request to whether its start is confirmed. *)
Record Authority := {
  deadline_millis : N;
  limit : N;
  starts : gmap RequestId bool;
  evidence : gmap RequestId AuxiliaryRequestEvidence;
}.

Definition set_starts (s : gmap RequestId bool) (a : Authority) : Authority :=
  {| deadline_millis := deadline_millis a; limit := limit a; starts := s; evidence := evidence a |}.

(** [AuxiliaryAuthority::new] *)
Definition authority_new (now limit : N) : Authority :=
  {| deadline_millis := u64_saturating_add now CALL_DEADLINE_MILLIS; limit := limit;
     starts := ∅; evidence := ∅ |}.

(** [AuxiliaryAuthority::check] *)
Definition check (cancelled : bool) (now : N) (a : Authority) : result ContextErrorKind () :=
  _ ← guard_err cancelled Cancelled;
  guard_err (deadline_millis a <=? now)%N AuxiliaryDeadlineExceeded.

(** [AuxiliaryAuthority::has_remaining_start] *)
Definition has_remaining_start (a : Authority) : bool := (N.of_nat (size (starts a)) <? limit a)%N.

(** [AuxiliaryAuthority::reserve_start]; the reservation returned is the request's id. *)
Definition reserve_start (id : RequestId) (cancelled : bool) (now : N) (a : Authority)
    : result ContextErrorKind Authority :=
  _ ← check cancelled now a;
  match starts a !! id with
  | Some _ => Ok a
  | None =>
      _ ← guard_err (limit a <=? N.of_nat (size (starts a)))%N CompactionBudgetExceeded;
      Ok (set_starts (<[id := false]> (starts a)) a)
  end.

(** [RequestStartReservation::confirm]; a missing reservation panics. *)
Definition confirm (id receipt : RequestId) (a : Authority)
    : result (fault ContextErrorKind) Authority :=
  _ ← guard_err (negb (bool_decide (receipt = id))) (Fail Internal);
  _ ← expect (starts a !! id);
  Ok (set_starts (<[id := true]> (starts a)) a).

(** [AuxiliaryWriteFailure], without the store's error *)
Inductive AuxiliaryWriteFailure := KnownNotCommitted | Unknown.

(** [RequestStartReservation::reject] *)
Definition reject (id : RequestId) (f : AuxiliaryWriteFailure) (a : Authority)
    : result ContextErrorKind Authority :=
  match f with
  | Unknown => Err AuxiliaryDurabilityFailed
  | KnownNotCommitted =>
      Ok (if bool_decide (starts a !! id = Some false) then set_starts (delete id (starts a)) a else a)
  end.

(** [AuxiliaryAuthority::observe] *)
Definition observe (e : AuxiliaryRequestEvidence) (a : Authority) : Authority :=
  if bool_decide (starts a !! ev_request_id e = Some true) then
    match evidence a !! ev_request_id e with
    | Some _ => a
    | None =>
        {| deadline_millis := deadline_millis a; limit := limit a; starts := starts a;
           evidence := <[ev_request_id e := e]> (evidence a) |}
    end
  else a.

(** ** The usage report *)

(** [try_fold(None, ..)]: the checked total of the values present, [None] on overflow. *)
Fixpoint checked_total (acc : option N) (values : list (option N)) : option (option N) :=
  match values with
  | [] => Some acc
  | None :: values => checked_total acc values
  | Some v :: values =>
      t ← u64_checked_add (default 0%N acc) v;
      checked_total (Some t) values
  end.

(** The closure [sum]: the subtotal of one field, and whether it is incomplete. *)
Definition sum_field (reports : list AuxiliaryRequestEvidence) (select : ModelUsage → option N)
    : option N * bool :=
  let values := map (λ r, usage r ≫= select) reports in
  let present := length (omap (λ v, v) values) in
  let total := checked_total None values in
  (mjoin total,
   bool_decide (total = None) || ((0 <? present)%nat && negb (present =? length reports)%nat)).

Record ObservedAuxiliaryUsage := {
  o_input_tokens : option N; o_output_tokens : option N; o_total_tokens : option N;
  o_reasoning_tokens : option N; o_cached_input_tokens : option N;
  o_incomplete : bool; o_remote_execution_uncertainty : bool }.

(** [AuxiliaryAuthority::usage_report]; neither a sum nor a disjunction depends on the order
    of the map. *)
Definition usage_report (a : Authority) : ObservedAuxiliaryUsage :=
  let reports := (map_to_list (evidence a)).*2 in
  let '(input, input_incomplete) := sum_field reports input_tokens in
  let '(output, output_incomplete) := sum_field reports output_tokens in
  let '(total, total_incomplete) := sum_field reports total_tokens in
  let '(reasoning, reasoning_incomplete) :=
    sum_field reports (λ u, details u ≫= reasoning_tokens) in
  let '(cached, cached_incomplete) := sum_field reports (λ u, details u ≫= cached_input_tokens) in
  let unreported := negb (size (evidence a) =? size (starts a))%nat in
  {| o_input_tokens := input; o_output_tokens := output; o_total_tokens := total;
     o_reasoning_tokens := reasoning; o_cached_input_tokens := cached;
     o_incomplete :=
       input_incomplete || output_incomplete || total_incomplete || reasoning_incomplete
       || cached_incomplete || unreported
       || existsb (λ r, negb (bool_decide (usage_completeness r = UComplete))
            || match usage r with None => true | Some u => negb (is_complete u) end) reports;
     o_remote_execution_uncertainty :=
       unreported || existsb remote_execution_uncertainty reports |}.

(** ** The budget of one compaction *)

Definition COMPACTION_DEADLINE_MILLIS : N := 300000.
Definition COMPACTION_START_LIMIT : N := 12.
Definition COMPACTION_SHRINK_LIMIT : N := 3.

(** What every clone and every later operation of one owner shares. *)
Record Operation := {
  authority : Authority;
  shrinks : N;
  summary_limit : option N;
}.

Definition set_authority (a : Authority) (o : Operation) : Operation :=
  {| authority := a; shrinks := shrinks o; summary_limit := summary_limit o |}.

(** [CompactionBudget::new] *)
Definition budget_new (now : N) : Operation :=
  {| authority := authority_new now COMPACTION_START_LIMIT; shrinks := 0; summary_limit := None |}.

(** [CompactionBudget::check_start] *)
Definition check_start (cancelled : bool) (now : N) (o : Operation) : result ContextErrorKind () :=
  _ ← check cancelled now (authority o);
  guard_err (negb (has_remaining_start (authority o))) CompactionBudgetExceeded.

(** [CompactionBudget::summary_input_limit] *)
Definition summary_input_limit (configured : N) (o : Operation) : N * Operation :=
  let l := default configured (summary_limit o) in
  (l, {| authority := authority o; shrinks := shrinks o; summary_limit := Some l |}).

(** [CompactionBudget::shrink_summary_input_limit] *)
Definition shrink_summary_input_limit (configured minimum : N) (cancelled : bool) (now : N)
    (o : Operation) : result ContextErrorKind (N * Operation) :=
  _ ← check cancelled now (authority o);
  _ ← guard_err (COMPACTION_SHRINK_LIMIT <=? shrinks o)%N CompactionBudgetExceeded;
  let l := default configured (summary_limit o) in
  _ ← guard_err (l <=? minimum)%N CompactionBudgetExceeded;
  let reduced := N.max (l / 2) minimum in
  Ok (reduced, {| authority := authority o; shrinks := shrinks o + 1; summary_limit := Some reduced |}).

(** ** Runs of one owner and its children *)

(** [held]: the reservations in flight; [physical]: the requests whose start the store has
    committed, whether or not the receipt arrived. *)
Record World := {
  op : Operation;
  held : list RequestId;
  physical : gset RequestId;
  now : N;
  cancelled : bool;
}.

Definition set_op (o : Operation) (w : World) : World :=
  {| op := o; held := held w; physical := physical w; now := now w; cancelled := cancelled w |}.

Definition release (id : RequestId) (o : Operation) (w : World) : World :=
  {| op := o; held := filter (λ i, i ≠ id) (held w); physical := physical w; now := now w;
     cancelled := cancelled w |}.

(** A request has one reservation in flight; a failed write that is known not to have
    committed has not; a receipt is of a committed start. *)
Inductive budget_step : World → World → Prop :=
| step_tick w t c :
    (now w <= t)%N → (cancelled w = true → c = true) →
    budget_step w {| op := op w; held := held w; physical := physical w; now := t; cancelled := c |}
| step_reserve w id a :
    id ∉ held w →
    reserve_start id (cancelled w) (now w) (authority (op w)) = Ok a →
    budget_step w {| op := set_authority a (op w); held := id :: held w; physical := physical w;
                     now := now w; cancelled := cancelled w |}
| step_commit w id :
    id ∈ held w →
    budget_step w {| op := op w; held := held w; physical := {[id]} ∪ physical w; now := now w;
                     cancelled := cancelled w |}
| step_confirm w id a :
    id ∈ held w → id ∈ physical w →
    confirm id id (authority (op w)) = Ok a →
    budget_step w (release id (set_authority a (op w)) w)
| step_reject w id a :
    id ∈ held w → id ∉ physical w →
    reject id KnownNotCommitted (authority (op w)) = Ok a →
    budget_step w (release id (set_authority a (op w)) w)
| step_lost w id :
    id ∈ held w → budget_step w (release id (op w) w)
| step_observe w e :
    budget_step w (set_op (set_authority (observe e (authority (op w))) (op w)) w)
| step_limit w configured :
    budget_step w (set_op (summary_input_limit configured (op w)).2 w)
| step_shrink w configured minimum l o :
    shrink_summary_input_limit configured minimum (cancelled w) (now w) (op w) = Ok (l, o) →
    budget_step w (set_op o w).

Definition budget_start (t : N) : World :=
  {| op := budget_new t; held := []; physical := ∅; now := t; cancelled := false |}.

(** The accounting invariant. *)
Record accounted (w : World) : Prop := {
  acc_size : (N.of_nat (size (starts (authority (op w)))) <= limit (authority (op w)))%N;
  acc_held : ∀ id, id ∈ held w → is_Some (starts (authority (op w)) !! id);
  acc_physical : ∀ id, id ∈ physical w → is_Some (starts (authority (op w)) !! id);
  acc_confirmed : ∀ id, starts (authority (op w)) !! id = Some true → id ∈ physical w;
  acc_evidence : ∀ id e, evidence (authority (op w)) !! id = Some e →
    starts (authority (op w)) !! id = Some true ∧ ev_request_id e = id;
  acc_shrinks : (shrinks (op w) <= COMPACTION_SHRINK_LIMIT)%N;
}.

Lemma reserve_start_ok id c t a a' :
  reserve_start id c t a = Ok a' →
  c = false ∧ (t < deadline_millis a)%N ∧
  (a' = a ∧ is_Some (starts a !! id) ∨
   a' = set_starts (<[id := false]> (starts a)) a ∧ starts a !! id = None ∧
   (N.of_nat (size (starts a)) < limit a)%N).
Proof.
  unfold reserve_start, check. intros (u & (u' & Hc%guard_err_ok & Ht%guard_err_ok)%bind_ok & Hr)%bind_ok.
  apply N.leb_gt in Ht. split_and!; [done|done|]. destruct (starts a !! id) as [b|] eqn:E.
  - injection Hr as <-. left. eauto.
  - apply bind_ok in Hr as (u'' & Hg%guard_err_ok & [= <-]). apply N.leb_gt in Hg. by right.
Qed.

Lemma confirm_ok id r a a' :
  confirm id r a = Ok a' →
  r = id ∧ is_Some (starts a !! id) ∧ a' = set_starts (<[id := true]> (starts a)) a.
Proof.
  unfold confirm. intros (u & Hr%guard_err_ok & (b & Hb%ok_or_ok & [= <-])%bind_ok)%bind_ok.
  apply negb_false_iff, bool_decide_eq_true in Hr. eauto.
Qed.

Lemma reject_ok id f a a' :
  reject id f a = Ok a' →
  a' = a ∧ starts a !! id ≠ Some false ∨
  a' = set_starts (delete id (starts a)) a ∧ starts a !! id = Some false.
Proof. unfold reject. destruct f; [|done]. intros [= <-]. case_bool_decide; [by right|by left]. Qed.

Lemma observe_cases e a :
  observe e a = a ∨
  starts a !! ev_request_id e = Some true ∧ evidence a !! ev_request_id e = None ∧
  observe e a = {| deadline_millis := deadline_millis a; limit := limit a; starts := starts a;
                   evidence := <[ev_request_id e := e]> (evidence a) |}.
Proof.
  unfold observe. case_bool_decide; [|by left]. destruct (evidence a !! ev_request_id e) eqn:E; [by left|].
  by right.
Qed.

Lemma shrink_ok configured minimum c t o l o' :
  shrink_summary_input_limit configured minimum c t o = Ok (l, o') →
  let before := default configured (summary_limit o) in
  (shrinks o < COMPACTION_SHRINK_LIMIT)%N ∧ (minimum < before)%N ∧
  (l < before)%N ∧ (minimum <= l)%N ∧
  o' = {| authority := authority o; shrinks := shrinks o + 1; summary_limit := Some l |}.
Proof.
  unfold shrink_summary_input_limit.
  intros (u & _ & (u' & Hs%guard_err_ok & (u'' & Hl%guard_err_ok & [= <- <-])%bind_ok)%bind_ok)%bind_ok.
  apply N.leb_gt in Hs, Hl. cbn.
  assert (default configured (summary_limit o) / 2 < default configured (summary_limit o))%N
    by (apply N.div_lt; lia).
  split_and!; try lia. done.
Qed.

Lemma accounted_start t : accounted (budget_start t).
Proof.
  split; cbn; intros; rewrite ?lookup_empty in *; first [done | set_solver].
Qed.

Lemma accounted_step w w' : budget_step w w' → accounted w → accounted w'.
Proof.
  intros Hstep [Hsz Hh Hp Hc He Hs].
  destruct Hstep as [w t c _ _|w id a Hn Ha|w id Hi|w id a Hi Hph Ha|w id a Hi Hph Ha|w id Hi|w e
    |w conf|w conf m l o Ho]; try (split; cbn; (assumption || done)).
  - apply reserve_start_ok in Ha as (_ & _ & [[-> Hsome]|(-> & Hnone & Hlt)]); split; cbn; try done.
    + intros j [->|?]%elem_of_cons; auto.
    + rewrite map_size_insert_None by done. lia.
    + intros j [->|Hj]%elem_of_cons; [by rewrite lookup_insert_eq|].
      destruct (decide (j = id)) as [->|]; [by rewrite lookup_insert_eq|].
      rewrite lookup_insert_ne by done. auto.
    + intros j Hj. destruct (decide (j = id)) as [->|]; [by rewrite lookup_insert_eq|].
      rewrite lookup_insert_ne by done. auto.
    + intros j. destruct (decide (j = id)) as [->|]; [by rewrite lookup_insert_eq|].
      rewrite lookup_insert_ne by done. auto.
    + intros j e Hj. destruct (He j e Hj) as [Hj' ->]. split; [|done].
      rewrite lookup_insert_ne; [done|]. intros ->. congruence.
  - split; cbn; try done; intros j.
    + intros [->%elem_of_singleton|?]%elem_of_union; auto.
    + intros Hj. apply elem_of_union. auto.
  - apply confirm_ok in Ha as (_ & Hsome & ->). split; cbn; try done.
    + rewrite map_size_insert_Some by done. done.
    + intros j [_ Hj]%list_elem_of_filter. destruct (decide (j = id)) as [->|];
        [by rewrite lookup_insert_eq|rewrite lookup_insert_ne by done; auto].
    + intros j Hj. destruct (decide (j = id)) as [->|];
        [by rewrite lookup_insert_eq|rewrite lookup_insert_ne by done; auto].
    + intros j. destruct (decide (j = id)) as [->|]; [done|rewrite lookup_insert_ne by done; auto].
    + intros j e Hj. destruct (He j e Hj) as [Hj' ->]. split; [|done].
      destruct (decide (j = id)) as [->|]; [by rewrite lookup_insert_eq|by rewrite lookup_insert_ne].
  - assert (Hin : ∀ j, j ∈ filter (λ i, i ≠ id) (held w) → j ≠ id ∧ is_Some (starts (authority (op w)) !! j)).
    { intros j [Hne Hj]%list_elem_of_filter. auto. }
    apply reject_ok in Ha as [[-> _]|[-> Hf]]; split; cbn; try done; try (intros j Hj; by apply Hin).
    + pose proof (map_size_delete_Some id (starts (authority (op w))) ltac:(by eexists)). lia.
    + intros j Hj. destruct (Hin j Hj). by rewrite lookup_delete_ne.
    + intros j Hj. rewrite lookup_delete_ne by congruence. auto.
    + intros j. destruct (decide (j = id)) as [->|]; [by rewrite lookup_delete_eq|].
      rewrite lookup_delete_ne by done. auto.
    + intros j e Hj. destruct (He j e Hj) as [Hj' ->]. split; [|done].
      rewrite lookup_delete_ne; [done|]. intros ->. congruence.
  - split; cbn; try done. intros j [_ Hj]%list_elem_of_filter. auto.
  - destruct (observe_cases e (authority (op w))) as [->|(Ht & Hnone & ->)]; split; cbn; try done.
    intros j e'. destruct (decide (j = ev_request_id e)) as [->|].
    + rewrite lookup_insert_eq. by intros [= <-].
    + rewrite lookup_insert_ne by done. auto.
  - apply shrink_ok in Ho as (Hlt & _ & _ & _ & ->). split; cbn; try done. lia.
Qed.

Lemma accounted_reachable t w : rtc budget_step (budget_start t) w → accounted w.
Proof.
  intros Hr. refine (rtc_invariant _ accounted _ _ accounted_step Hr _). apply accounted_start.
Qed.

(** What no step of an owner, its children or a later operation gives back. *)
Record not_renewed (w w' : World) : Prop := {
  same_deadline : deadline_millis (authority (op w')) = deadline_millis (authority (op w));
  same_limit : limit (authority (op w')) = limit (authority (op w));
  kept_physical : physical w ⊆ physical w';
  kept_confirmed id : starts (authority (op w)) !! id = Some true →
    starts (authority (op w')) !! id = Some true;
  kept_evidence : evidence (authority (op w)) ⊆ evidence (authority (op w'));
  kept_shrinks : (shrinks (op w) <= shrinks (op w'))%N;
  kept_limit l : summary_limit (op w) = Some l → ∃ l', summary_limit (op w') = Some l' ∧ (l' <= l)%N;
}.

#[export] Instance not_renewed_preorder : PreOrder not_renewed.
Proof.
  split.
  - intros w. split; try done. intros l Hl. exists l. split; [done|lia].
  - intros a b c [] []. split; try congruence; try (by etrans); try lia; try (by auto).
    intros l (l1 & (l2 & ? & ?)%kept_limit1 & ?)%kept_limit0. exists l2. split; [done|lia].
Qed.

Lemma step_not_renewed w w' : budget_step w w' → not_renewed w w'.
Proof.
  assert (Hl : ∀ o l, summary_limit o = Some l → ∃ l', summary_limit o = Some l' ∧ (l' <= l)%N).
  { intros o l ->. exists l. split; [done|lia]. }
  destruct 1 as [w t c _ _|w id a Hn Ha|w id Hi|w id a Hi Hph Ha|w id a Hi Hph Ha|w id Hi|w e
    |w conf|w conf m l o Ho]; try (split; cbn; (done || lia || apply Hl)).
  - apply reserve_start_ok in Ha as (_ & _ & [[-> _]|(-> & Hnone & _)]); split; cbn; try done; try apply Hl.
    intros j Hj. rewrite lookup_insert_ne; [done|]. intros ->. congruence.
  - split; cbn; try done; try apply Hl. set_solver.
  - apply confirm_ok in Ha as (_ & _ & ->). split; cbn; try done; try apply Hl.
    intros j Hj. destruct (decide (j = id)) as [->|]; [by rewrite lookup_insert_eq|by rewrite lookup_insert_ne].
  - apply reject_ok in Ha as [[-> _]|[-> Hf]]; split; cbn; try done; try apply Hl.
    intros j Hj. rewrite lookup_delete_ne; [done|]. intros ->. congruence.
  - destruct (observe_cases e (authority (op w))) as [->|(_ & Hnone & ->)]; split; cbn; try done; try apply Hl.
    by apply insert_subseteq.
  - split; cbn; try done. intros l ->. exists l. split; [done|]. cbn. lia.
  - apply shrink_ok in Ho as (_ & _ & Hlt & _ & ->). split; cbn; try done; try lia.
    intros l0 Hl0. exists l. rewrite Hl0 in Hlt. cbn in Hlt. split; [done|lia].
Qed.

(** C39 The allowance of one compaction is never renewed: whatever is re-planned, re-reserved,
    lost, rejected or retried, at most twelve physical requests are ever started, at most
    three reductions of the summary input are granted and the limit in effect never grows;
    the deadline stays the first one, and once it passed or the owner was cancelled nothing
    new can be reserved. *)
Theorem allowance_never_renewed t w w' :
  rtc budget_step (budget_start t) w → rtc budget_step w w' →
  (N.of_nat (size (physical w')) <= COMPACTION_START_LIMIT)%N ∧
  (shrinks (op w') <= COMPACTION_SHRINK_LIMIT)%N ∧
  deadline_millis (authority (op w')) = u64_saturating_add t COMPACTION_DEADLINE_MILLIS ∧
  not_renewed w w' ∧
  ∀ id, cancelled w' = true ∨
        (u64_saturating_add t COMPACTION_DEADLINE_MILLIS <= now w')%N →
    ∃ e, reserve_start id (cancelled w') (now w') (authority (op w')) = Err e.
Proof.
  intros Hw Hw'. assert (Hrun : ∀ x y, rtc budget_step x y → not_renewed x y).
  { induction 1 as [|x y z Hxy _ IH]; [done|]. etrans; [by apply step_not_renewed|done]. }
  assert (Hall : rtc budget_step (budget_start t) w') by (by etrans).
  destruct (accounted_reachable t w' Hall) as [Hsz _ Hp _ _ Hs].
  destruct (Hrun _ _ Hall) as [Hd Hlim _ _ _ _ _].
  split_and!; [|done|by rewrite Hd|by apply Hrun|].
  - rewrite Hlim in Hsz. cbn in Hsz.
    assert (physical w' ⊆ dom (starts (authority (op w')))) as Hsub%subseteq_size
      by (intros id Hid; by apply elem_of_dom, Hp).
    rewrite size_dom in Hsub. lia.
  - intros id Hor. unfold reserve_start, check. rewrite Hd. cbn. destruct (cancelled w'); [by eexists|].
    destruct Hor as [?|Hle%N.leb_le]; [done|]. simpl. unfold CALL_DEADLINE_MILLIS, COMPACTION_DEADLINE_MILLIS in *.
    rewrite Hle. simpl. by eexists.
Qed.

(** ** A report that is not incomplete *)

Definition field_sum (select : ModelUsage → option N) (reports : list AuxiliaryRequestEvidence) : N :=
  foldr (λ r n, (default 0 (usage r ≫= select) + n)%N) 0%N reports.

Lemma checked_total_spec acc values :
  match checked_total acc values with
  | Some t => default 0%N t = (default 0 acc + foldr (λ v n, default 0 v + n) 0 values)%N ∧
      (t = None ↔ acc = None ∧ Forall (λ v, v = None) values)
  | None => (u64_max < default 0 acc + foldr (λ v n, default 0 v + n) 0 values)%N
  end.
Proof.
  revert acc. induction values as [|[v|] values IH]; intros acc; cbn [checked_total foldr].
  - split; [lia|]. naive_solver.
  - destruct (u64_checked_add (default 0%N acc) v) as [t|] eqn:E; simpl.
    + apply u64_checked_add_Some in E as [-> _]. specialize (IH (Some (default 0 acc + v)%N)).
      destruct (checked_total _ values) as [t|]; cbn in IH |- *; [|lia].
      destruct IH as [-> Hn]. split; [lia|]. rewrite Hn, Forall_cons. naive_solver.
    + apply u64_checked_add_None in E. lia.
  - specialize (IH acc). destruct (checked_total acc values) as [t|]; cbn; [|lia].
    destruct IH as [-> Hn]. split; [lia|]. rewrite Hn, Forall_cons. naive_solver.
Qed.

(** The subtotal of one field: absent when no report has it or the sum leaves [u64]. *)
Definition subtotal (select : ModelUsage → option N) (reports : list AuxiliaryRequestEvidence)
    : option N :=
  if decide (Forall (λ r, usage r ≫= select = None) reports) then None
  else if (u64_max <? field_sum select reports)%N then None
  else Some (field_sum select reports).

Lemma field_sum_map select reports :
  field_sum select reports = foldr (λ v n, default 0 v + n)%N 0%N (map (λ r, usage r ≫= select) reports).
Proof. induction reports as [|r reports IH]; cbn; [done|]. by rewrite <-IH. Qed.

Lemma checked_total_small acc values t :
  checked_total acc values = Some t → (∀ a, acc = Some a → (a <= u64_max)%N) →
  ∀ a, t = Some a → (a <= u64_max)%N.
Proof.
  revert acc. induction values as [|[v|] values IH]; intros acc; cbn [checked_total].
  - intros [= <-]. auto.
  - destruct (u64_checked_add _ v) as [s|] eqn:E; simpl; [|done]. apply u64_checked_add_Some in E as [-> ?].
    intros Ht _. apply (IH _ Ht). by intros a [= <-].
  - apply IH.
Qed.

Lemma sum_field_spec reports select :
  (sum_field reports select).1 = subtotal select reports ∧
  ((sum_field reports select).2 = false → (field_sum select reports <= u64_max)%N).
Proof.
  unfold sum_field, subtotal. cbn. pose proof (checked_total_spec None (map (λ r, usage r ≫= select) reports)) as Ht.
  rewrite <-field_sum_map in Ht. change (default 0%N None) with 0%N in Ht. rewrite N.add_0_l in Ht.
  destruct (checked_total _ _) as [t|] eqn:Et.
  - destruct Ht as [Hsum Hnone]. rewrite Forall_map in Hnone. cbn.
    assert (Hle : (field_sum select reports <= u64_max)%N).
    { rewrite <-Hsum. destruct t as [a|]; cbn; [|done]. by eapply (checked_total_small _ _ _ Et). }
    split; [|done]. case_decide as Hd; [by apply Hnone|].
    destruct (N.ltb_spec u64_max (field_sum select reports)); [lia|].
    destruct t as [a|]; [by cbn in Hsum; subst a|]. by destruct Hd, (proj1 Hnone eq_refl).
  - split; [|done]. cbn. case_decide; [done|]. destruct (N.ltb_spec u64_max (field_sum select reports)); [done|lia].
Qed.

Lemma reported id e a : evidence a !! id = Some e → e ∈ (map_to_list (evidence a)).*2.
Proof. intros He. apply list_elem_of_fmap. exists (id, e). split; [done|]. by apply elem_of_map_to_list. Qed.

Lemma all_reported a :
  (∀ id e, evidence a !! id = Some e → is_Some (starts a !! id)) →
  size (evidence a) = size (starts a) → ∀ id b, starts a !! id = Some b → ∃ e, evidence a !! id = Some e.
Proof.
  intros Hsub Hsize id b Hb.
  assert (Hdom : dom (evidence a) = dom (starts a)).
  { apply leibniz_equiv, set_subseteq_size_equiv.
    - intros i [e He]%elem_of_dom. apply elem_of_dom. by eapply Hsub.
    - rewrite !size_dom. lia. }
  assert (Hid : id ∈ dom (evidence a)) by (rewrite Hdom; apply elem_of_dom; eauto).
  by apply elem_of_dom in Hid.
Qed.

Lemma existsb_false {A} (f : A → bool) l x : existsb f l = false → x ∈ l → f x = false.
Proof.
  intros He Hx. apply not_true_is_false. intros Hf. apply not_true_iff_false in He. apply He, existsb_exists.
  exists x. split; [by apply list_elem_of_In|done].
Qed.

(** What a usage report claims holds of the requests that were started: every subtotal is
    the exact sum of the reported values, absent when no request reported the field or the
    sum leaves its width; a report that is not marked incomplete covers every start with
    complete usage and no sum overflowed; without remote uncertainty every start reported
    that it had none. *)
Theorem usage_report_exact t w :
  rtc budget_step (budget_start t) w →
  let a := authority (op w) in
  let reports := (map_to_list (evidence a)).*2 in
  let report := usage_report a in
  (o_input_tokens report = subtotal input_tokens reports ∧
   o_output_tokens report = subtotal output_tokens reports ∧
   o_total_tokens report = subtotal total_tokens reports ∧
   o_reasoning_tokens report = subtotal (λ u, details u ≫= reasoning_tokens) reports ∧
   o_cached_input_tokens report = subtotal (λ u, details u ≫= cached_input_tokens) reports) ∧
  (o_incomplete report = false →
   (∀ id b, starts a !! id = Some b → id ∈ physical w ∧ ∃ e u, evidence a !! id = Some e ∧
      usage e = Some u ∧ usage_completeness e = UComplete ∧ is_complete u = true) ∧
   (field_sum input_tokens reports <= u64_max ∧ field_sum output_tokens reports <= u64_max ∧
    field_sum total_tokens reports <= u64_max)%N) ∧
  (o_remote_execution_uncertainty report = false →
   ∀ id b, starts a !! id = Some b → ∃ e, evidence a !! id = Some e ∧
     remote_execution_uncertainty e = false).
Proof.
  intros Hr. destruct (accounted_reachable t w Hr) as [_ _ _ Hc He _]. cbn zeta.
  set (a := authority (op w)) in *. set (reports := (map_to_list (evidence a)).*2).
  assert (Hcov : (size (evidence a) =? size (starts a))%nat = true →
    ∀ id b, starts a !! id = Some b → ∃ e, evidence a !! id = Some e).
  { intros Hs%Nat.eqb_eq. apply all_reported; [|done]. intros id e [Hid _]%He. by eexists. }
  destruct (sum_field_spec reports input_tokens) as [Ei Fi], (sum_field_spec reports output_tokens) as [Eo Fo],
    (sum_field_spec reports total_tokens) as [Et Ft],
    (sum_field_spec reports (λ u, details u ≫= reasoning_tokens)) as [Er _],
    (sum_field_spec reports (λ u, details u ≫= cached_input_tokens)) as [Ec _].
  unfold usage_report. fold reports.
  destruct (sum_field reports input_tokens) as [i i'], (sum_field reports output_tokens) as [o o'],
    (sum_field reports total_tokens) as [tt' t'], (sum_field reports (λ u, details u ≫= reasoning_tokens)) as [r r'],
    (sum_field reports (λ u, details u ≫= cached_input_tokens)) as [c c']. cbn in *.
  split; [done|]. split.
  - rewrite !orb_false_iff. intros ((((((Hi & Ho) & Ht) & _) & _) & Hn%negb_false_iff) & Hex).
    split; [|auto]. intros id b Hb. destruct (Hcov Hn id b Hb) as [e Hid].
    split; [apply Hc; by destruct (He id e Hid)|].
    pose proof (existsb_false _ _ e Hex (reported id e a Hid)) as Hf.
    apply orb_false_iff in Hf as [Hcomp%negb_false_iff%bool_decide_eq_true Hu].
    destruct (usage e) as [u|] eqn:Eu; [|done]. apply negb_false_iff in Hu. by exists e, u.
  - rewrite orb_false_iff. intros (Hn%negb_false_iff & Hex) id b Hb.
    destruct (Hcov Hn id b Hb) as [e Hid]. exists e. split; [done|].
    apply (existsb_false _ _ e Hex (reported id e a Hid)).
Qed.

(** ** Witnesses *)

Definition sample_usage : ModelUsage :=
  {| input_tokens := Some 7%N; output_tokens := Some 2%N; total_tokens := Some 9%N; details := None |}.

Definition sample_evidence : AuxiliaryRequestEvidence :=
  {| ev_request_id := lit "r"; usage := Some sample_usage; usage_completeness := UComplete;
     remote_execution_uncertainty := false |}.

(** A start is reserved, committed and confirmed, its evidence observed, the input limit
    halved; then the deadline passes. *)
Definition sample_world : World :=
  {| op := {| authority := {| deadline_millis := 300000; limit := 12; starts := {[lit "r" := true]};
                evidence := {[lit "r" := sample_evidence]} |};
              shrinks := 1; summary_limit := Some 32000%N |};
     held := []; physical := {[lit "r"]}; now := 300000; cancelled := false |}.

Lemma sample_run : rtc budget_step (budget_start 0) sample_world.
Proof.
  eapply rtc_l; [apply (step_reserve _ (lit "r")); [apply not_elem_of_nil|reflexivity]|].
  eapply rtc_l; [apply (step_commit _ (lit "r")); left|].
  eapply rtc_l; [apply (step_confirm _ (lit "r")); [left|set_solver|reflexivity]|].
  eapply rtc_l; [apply (step_observe _ sample_evidence)|].
  eapply rtc_l; [eapply (step_shrink _ 64000 4096); reflexivity|].
  eapply rtc_l; [apply (step_tick _ 300000 false); [done|done]|].
  match goal with |- rtc _ ?x ?y => replace y with x; [apply rtc_refl|] end. vm_compute. reflexivity.
Qed.

Lemma allowance_never_renewed_witness :
  rtc budget_step (budget_start 0) sample_world ∧
  (N.of_nat (size (physical sample_world)) <= COMPACTION_START_LIMIT)%N ∧
  (300000 <= now sample_world)%N ∧
  ∃ e, reserve_start (lit "s") false 300000 (authority (op sample_world)) = Err e.
Proof.
  pose proof (allowance_never_renewed 0 _ _ sample_run (rtc_refl _ _)) as (Hp & _ & _ & _ & Hr).
  split; [exact sample_run|]. split; [exact Hp|]. split; [done|]. apply (Hr (lit "s")). right. done.
Defined.

Lemma usage_report_exact_witness :
  o_incomplete (usage_report (authority (op sample_world))) = false ∧
  o_input_tokens (usage_report (authority (op sample_world))) = Some 7%N ∧
  ∃ e u, evidence (authority (op sample_world)) !! lit "r" = Some e ∧ usage e = Some u ∧
    usage_completeness e = UComplete ∧ is_complete u = true.
Proof.
  assert (Hi : o_incomplete (usage_report (authority (op sample_world))) = false) by (vm_compute; reflexivity).
  destruct (usage_report_exact 0 sample_world sample_run) as ((Hsum & _) & Hc & _).
  split; [exact Hi|]. split; [rewrite Hsum; vm_compute; reflexivity|].
  destruct (proj1 (Hc Hi) (lit "r") true) as [_ He]; [vm_compute; reflexivity|exact He].
Defined.
