(* ===== verification/Capacity.v ===== *)
(** Capacity of auxiliary calls ([src/src/runtime/auxiliary/capacity.rs]): process and
    conversation semaphores reserved together, without waiting and without partial leaks.

    A reservation holds the process lock, but permits are dropped without it and one
    semaphore at a time, so releases interleave with the takes of a reservation:
    [cap_step] has one step per semaphore operation.  [reserve] is the uninterrupted call.
    A tokio semaphore is its number of available permits: [try_acquire_owned] takes one or
    fails at once, dropping a permit gives it back. *)

From S2P Require Import Prelude.
From stdpp Require Import options.

Inductive CapacityDomain :=
| ProcessTotal | ProcessGeneral | ConversationTotal | ConversationGeneral | RequiredWriter.

#[export] Instance CapacityDomain_eq_dec : EqDecision CapacityDomain.
Proof. solve_decision. Defined.

(** [PROCESS_CALL_LIMIT] *)
Definition PROCESS_CALL_LIMIT : nat := 32.

Abbreviation ConversationId := nat.

(** The available permits: three semaphores of the process, two of each conversation. *)
Record Semaphores := {
  process_total : nat;
  process_general : nat;
  writers : nat;
  conversations : gmap ConversationId (nat * nat);
}.

(** [ProcessCapacity::new] and [ProcessCapacity::conversation] *)
Definition process_new : Semaphores :=
  {| process_total := PROCESS_CALL_LIMIT; process_general := 24; writers := PROCESS_CALL_LIMIT;
     conversations := ∅ |}.

Definition conversation (c : ConversationId) (s : Semaphores) : Semaphores :=
  {| process_total := process_total s; process_general := process_general s; writers := writers s;
     conversations := <[c := (4, 3)]> (conversations s) |}.

(** The permits a semaphore has available; a conversation's exists while it is referenced. *)
Definition available (c : ConversationId) (d : CapacityDomain) (s : Semaphores) : nat :=
  match d with
  | ProcessTotal => process_total s
  | ProcessGeneral => process_general s
  | RequiredWriter => writers s
  | ConversationTotal => (default (0, 0) (conversations s !! c)).1
  | ConversationGeneral => (default (0, 0) (conversations s !! c)).2
  end.

Definition set_available (c : ConversationId) (d : CapacityDomain) (n : nat) (s : Semaphores)
    : Semaphores :=
  let '(total, general) := default (0, 0) (conversations s !! c) in
  {| process_total := if decide (d = ProcessTotal) then n else process_total s;
     process_general := if decide (d = ProcessGeneral) then n else process_general s;
     writers := if decide (d = RequiredWriter) then n else writers s;
     conversations :=
       match d with
       | ConversationTotal => <[c := (n, general)]> (conversations s)
       | ConversationGeneral => <[c := (total, n)]> (conversations s)
       | _ => conversations s
       end |}.

(** [take] *)
Definition take (c : ConversationId) (d : CapacityDomain) (s : Semaphores)
    : result CapacityDomain Semaphores :=
  match available c d s with
  | 0 => Err d
  | S n => Ok (set_available c d n s)
  end.

(** The drop of one [OwnedSemaphorePermit] *)
Definition give (c : ConversationId) (d : CapacityDomain) (s : Semaphores) : Semaphores :=
  set_available c d (S (available c d s)) s.

(** The semaphores of [ConversationCapacity::reserve], in the order it takes them. *)
Definition plan (compaction : bool) : list CapacityDomain :=
  if compaction then [ProcessTotal; ConversationTotal; RequiredWriter]
  else [ProcessTotal; ProcessGeneral; ConversationTotal; ConversationGeneral; RequiredWriter].

(** The takes of [reserve]; on a refusal the permits taken drop in reverse order. *)
Fixpoint reserve_from (c : ConversationId) (todo got : list CapacityDomain) (s : Semaphores)
    : result CapacityDomain (list CapacityDomain) * Semaphores :=
  match todo with
  | [] => (Ok got, s)
  | d :: todo =>
      match take c d s with
      | Ok s => reserve_from c todo (d :: got) s
      | Err d => (Err d, foldl (λ s d, give c d s) s got)
      end
  end.

(** [ConversationCapacity::reserve]; a [CallPermit] is what it holds in its drop order. *)
Definition reserve (c : ConversationId) (compaction : bool) (s : Semaphores)
    : result CapacityDomain (list CapacityDomain) * Semaphores :=
  reserve_from c (plan compaction) [] s.

(** [reserve_general] and [reserve_compaction] *)
Definition reserve_general (c : ConversationId) := reserve c false.
Definition reserve_compaction (c : ConversationId) := reserve c true.

(** The drop of a [CallPermit] *)
Definition release (c : ConversationId) (permit : list CapacityDomain) (s : Semaphores) : Semaphores :=
  foldl (λ s d, give c d s) s permit.

(** ** Interleaved calls *)

(** The holder of the reservation lock: still taking, or dropping what it took after a
    refusal. *)
Inductive Holder :=
| Taking (c : ConversationId) (compaction : bool) (todo got : list CapacityDomain)
| Dropping (c : ConversationId) (compaction : bool) (refusal : CapacityDomain) (got : list CapacityDomain).

(** A call permit: its class and what it has not yet released. *)
Record Permit := { p_conversation : ConversationId; p_compaction : bool; p_held : list CapacityDomain }.

Record World := {
  semaphores : Semaphores;
  holder : option Holder;
  permits : list Permit;
  refused : list (ConversationId * bool * CapacityDomain);
}.

Inductive cap_step : World → World → Prop :=
| step_conversation w c :
    conversations (semaphores w) !! c = None →
    cap_step w {| semaphores := conversation c (semaphores w); holder := holder w;
                  permits := permits w; refused := refused w |}
| step_begin w c k :
    holder w = None → is_Some (conversations (semaphores w) !! c) →
    cap_step w {| semaphores := semaphores w; holder := Some (Taking c k (plan k) []);
                  permits := permits w; refused := refused w |}
| step_take w c k d todo got s :
    holder w = Some (Taking c k (d :: todo) got) → take c d (semaphores w) = Ok s →
    cap_step w {| semaphores := s; holder := Some (Taking c k todo (d :: got));
                  permits := permits w; refused := refused w |}
| step_refuse w c k d todo got e :
    holder w = Some (Taking c k (d :: todo) got) → take c d (semaphores w) = Err e →
    cap_step w {| semaphores := semaphores w; holder := Some (Dropping c k e got);
                  permits := permits w; refused := refused w |}
| step_undo w c k e d got :
    holder w = Some (Dropping c k e (d :: got)) →
    cap_step w {| semaphores := give c d (semaphores w); holder := Some (Dropping c k e got);
                  permits := permits w; refused := refused w |}
| step_busy w c k e :
    holder w = Some (Dropping c k e []) →
    cap_step w {| semaphores := semaphores w; holder := None; permits := permits w;
                  refused := (c, k, e) :: refused w |}
| step_admit w c k got :
    holder w = Some (Taking c k [] got) →
    cap_step w {| semaphores := semaphores w; holder := None;
                  permits := {| p_conversation := c; p_compaction := k; p_held := got |} :: permits w;
                  refused := refused w |}
| step_give w before after p d rest :
    permits w = before ++ p :: after → p_held p = d :: rest →
    cap_step w {| semaphores := give (p_conversation p) d (semaphores w); holder := holder w;
                  permits := before ++ {| p_conversation := p_conversation p;
                                          p_compaction := p_compaction p; p_held := rest |} :: after;
                  refused := refused w |}
| step_gone w before after p :
    permits w = before ++ p :: after → p_held p = [] →
    cap_step w {| semaphores := semaphores w; holder := holder w; permits := before ++ after;
                  refused := refused w |}.

Definition cap_start : World :=
  {| semaphores := process_new; holder := None; permits := []; refused := [] |}.

(** ** Conservation *)

(** What a call holds: its conversation, its class and its permits in drop order. *)
Record Holding := { h_conversation : ConversationId; h_compaction : bool; h_units : list CapacityDomain }.

Definition of_permit (p : Permit) : Holding :=
  {| h_conversation := p_conversation p; h_compaction := p_compaction p; h_units := p_held p |}.

Definition of_holder (h : option Holder) : list Holding :=
  match h with
  | None => []
  | Some (Taking c k _ got | Dropping c k _ got) =>
      [{| h_conversation := c; h_compaction := k; h_units := got |}]
  end.

Definition holdings (w : World) : list Holding := of_holder (holder w) ++ map of_permit (permits w).

(** Whether a call of conversation [c'] uses the semaphore [d] of [c]. *)
Definition applies (c : ConversationId) (d : CapacityDomain) (c' : ConversationId) : bool :=
  match d with
  | ConversationTotal | ConversationGeneral => bool_decide (c' = c)
  | _ => true
  end.

Definition count (d : CapacityDomain) (l : list CapacityDomain) : nat :=
  sum_list_with (λ x, if decide (x = d) then 1 else 0) l.

Definition uses (c : ConversationId) (d : CapacityDomain) (h : Holding) : nat :=
  if applies c d (h_conversation h) then count d (h_units h) else 0.

Definition outstanding (c : ConversationId) (d : CapacityDomain) (w : World) : nat :=
  sum_list_with (uses c d) (holdings w).

Definition capacity (d : CapacityDomain) : nat :=
  match d with
  | ProcessTotal | RequiredWriter => 32
  | ProcessGeneral => 24
  | ConversationTotal => 4
  | ConversationGeneral => 3
  end.

(** A semaphore of one conversation. *)
Definition is_local (d : CapacityDomain) : bool :=
  match d with ConversationTotal | ConversationGeneral => true | _ => false end.

Definition exists_in (c : ConversationId) (s : Semaphores) : Prop := is_Some (conversations s !! c).

(** Semaphores are conserved, and a call holds the first takes of its plan. *)
Record conserved (w : World) : Prop := {
  con_available c d : (is_local d = true → exists_in c (semaphores w)) →
    available c d (semaphores w) + outstanding c d w = capacity d;
  con_known h : h ∈ holdings w → exists_in (h_conversation h) (semaphores w);
  con_shape h : h ∈ holdings w → ∃ rest, rev (h_units h) ++ rest = plan (h_compaction h);
  con_taking c k todo got : holder w = Some (Taking c k todo got) → rev got ++ todo = plan k;
}.

Lemma available_set c d n s c' d' :
  available c' d' (set_available c d n s) =
    if bool_decide (d' = d) && applies c' d c then n else available c' d' s.
Proof.
  unfold set_available. destruct (default (0, 0) (conversations s !! c)) as [total general] eqn:E.
  assert (Hc : ∀ x, (default (0, 0) (<[c := x]> (conversations s) !! c')) =
    if bool_decide (c = c') then x else default (0, 0) (conversations s !! c')).
  { intros x. case_bool_decide as Hx; [subst; by rewrite lookup_insert_eq|by rewrite lookup_insert_ne]. }
  destruct d, d'; cbn [available process_total process_general writers conversations applies];
    rewrite ?Hc; repeat (case_bool_decide || case_decide); try done; subst; by rewrite E.
Qed.

Lemma exists_set c d n s c' : exists_in c s → exists_in c' (set_available c d n s) ↔ exists_in c' s.
Proof.
  unfold exists_in, set_available. intros Hc. destruct (default _ _) as [total general].
  assert (Hi : ∀ x, is_Some (<[c := x]> (conversations s) !! c') ↔ is_Some (conversations s !! c')).
  { intros x. destruct (decide (c' = c)) as [->|]; [by rewrite lookup_insert_eq|by rewrite lookup_insert_ne]. }
  destruct d; cbn; by rewrite ?Hi.
Qed.

(** One unit of the semaphore [d] of [c], counted for the semaphore [d'] of [c']. *)
Definition unit_at (c : ConversationId) (d : CapacityDomain) (c' : ConversationId) (d' : CapacityDomain)
    : nat :=
  if bool_decide (d' = d) && applies c' d c then 1 else 0.

Lemma available_same c d c' s : applies c' d c = true → available c' d s = available c d s.
Proof. destruct d; cbn; try done; by intros ->%bool_decide_eq_true. Qed.

Lemma available_take c d s s' c' d' :
  take c d s = Ok s' → available c' d' s = unit_at c d c' d' + available c' d' s'.
Proof.
  unfold take, unit_at. destruct (available c d s) as [|n] eqn:E; [done|]. intros [= <-].
  rewrite available_set. destruct (bool_decide (d' = d) && applies c' d c) eqn:Ea; [|done].
  apply andb_true_iff in Ea as [->%bool_decide_eq_true Ha]. by rewrite (available_same _ _ _ _ Ha), E.
Qed.

Lemma available_give c d s c' d' :
  available c' d' (give c d s) = unit_at c d c' d' + available c' d' s.
Proof.
  unfold give, unit_at. rewrite available_set.
  destruct (bool_decide (d' = d) && applies c' d c) eqn:Ea; [|done].
  apply andb_true_iff in Ea as [->%bool_decide_eq_true Ha]. by rewrite (available_same _ _ _ _ Ha).
Qed.

Lemma exists_take c d s s' c' : exists_in c s → take c d s = Ok s' → exists_in c' s' ↔ exists_in c' s.
Proof.
  intros Hc. unfold take. destruct (available c d s); [done|]. intros [= <-]. by apply exists_set.
Qed.

Lemma exists_give c d s c' : exists_in c s → exists_in c' (give c d s) ↔ exists_in c' s.
Proof. apply exists_set. Qed.

Lemma uses_cons c' d' c k d units :
  uses c' d' {| h_conversation := c; h_compaction := k; h_units := d :: units |} =
  unit_at c d c' d' + uses c' d' {| h_conversation := c; h_compaction := k; h_units := units |}.
Proof.
  unfold uses, unit_at. cbn [h_conversation h_units]. unfold count. cbn [sum_list_with].
  destruct (decide (d = d')) as [->|Hne].
  - rewrite bool_decide_eq_true_2 by done. cbn. by destruct (applies c' d' c).
  - rewrite bool_decide_eq_false_2 by congruence. done.
Qed.

Lemma uses_nil c' d' c k : uses c' d' {| h_conversation := c; h_compaction := k; h_units := [] |} = 0.
Proof. unfold uses. cbn. by destruct (applies _ _ _). Qed.

Lemma uses_none c d l :
  is_local d = true → (∀ h, h ∈ l → h_conversation h ≠ c) → sum_list_with (uses c d) l = 0.
Proof.
  intros Hd Hl. induction l as [|h l IH]; cbn; [done|]. rewrite IH by (intros h' Hh'; apply Hl; by right).
  unfold uses. destruct d; try done; cbn; rewrite bool_decide_eq_false_2 by (apply Hl; left); done.
Qed.

Lemma outstanding_split c d w :
  outstanding c d w =
    sum_list_with (uses c d) (of_holder (holder w)) + sum_list_with (uses c d) (map of_permit (permits w)).
Proof. apply sum_list_with_app. Qed.

(** A call that goes on holding part of what it held. *)
Lemma shape_tail d units k :
  (∃ rest, rev (d :: units) ++ rest = plan k) → ∃ rest, rev units ++ rest = plan k.
Proof. intros [rest Hr]. exists (d :: rest). rewrite <-Hr. cbn [rev]. by rewrite <-(assoc_L (++)). Qed.

Lemma plan_available c c' d s :
  conversations s !! c = None → exists_in c' (conversation c s) →
  c' ≠ c → available c' d (conversation c s) = available c' d s ∧ exists_in c' s.
Proof.
  unfold exists_in, conversation. cbn. intros Hn He Hne. rewrite lookup_insert_ne in He by done.
  split; [|done]. destruct d; cbn; rewrite ?lookup_insert_ne; done.
Qed.

Lemma conserved_start : conserved cap_start.
Proof.
  split; cbn; try done; try (by intros h Hh%not_elem_of_nil).
  intros c d Hd. unfold exists_in in Hd. cbn in Hd. rewrite lookup_empty in Hd.
  destruct d; try done; by destruct (Hd eq_refl).
Qed.

(** A step that moves units between the semaphores and the calls. *)
Lemma conserved_move w w' :
  conserved w →
  (∀ c, exists_in c (semaphores w') ↔ exists_in c (semaphores w)) →
  (∀ c d, available c d (semaphores w') + outstanding c d w' =
          available c d (semaphores w) + outstanding c d w) →
  (∀ h, h ∈ holdings w' → h ∈ holdings w ∨
     exists_in (h_conversation h) (semaphores w) ∧ ∃ rest, rev (h_units h) ++ rest = plan (h_compaction h)) →
  (∀ c k todo got, holder w' = Some (Taking c k todo got) → rev got ++ todo = plan k) →
  conserved w'.
Proof.
  intros [Ha Hk Hs _] He Hsum Hnew Ht. split; [| | |done].
  - intros c d Hc. rewrite Hsum. apply Ha. intros Hd. by apply He, Hc.
  - intros h [Hh|[Hh _]]%Hnew; apply He; [by apply Hk|done].
  - intros h [Hh|[_ Hh]]%Hnew; [by apply Hs|done].
Qed.

Lemma holding_of_holder w c k units :
  conserved w → of_holder (holder w) = [{| h_conversation := c; h_compaction := k; h_units := units |}] →
  exists_in c (semaphores w) ∧ ∃ rest, rev units ++ rest = plan k.
Proof.
  intros [_ Hk Hs _] Hw. unfold holdings in Hk, Hs. rewrite Hw in Hk, Hs.
  set (h := {| h_conversation := c; h_compaction := k; h_units := units |}) in *.
  split; [apply (Hk h); left|apply (Hs h); left].
Qed.

Lemma holding_of_permit w before p after :
  conserved w → permits w = before ++ p :: after →
  exists_in (p_conversation p) (semaphores w) ∧ ∃ rest, rev (p_held p) ++ rest = plan (p_compaction p).
Proof.
  intros [_ Hk Hs _] Hw. unfold holdings in Hk, Hs. rewrite Hw in Hk, Hs.
  assert (Hin : of_permit p ∈ of_holder (holder w) ++ map of_permit (before ++ p :: after)).
  { apply elem_of_app. right. apply list_elem_of_fmap. exists p. split; [done|]. apply elem_of_app. right. left. }
  split; [by apply (Hk (of_permit p))|by apply (Hs (of_permit p))].
Qed.

Lemma conserved_take w c k d todo got s :
  conserved w → holder w = Some (Taking c k (d :: todo) got) → take c d (semaphores w) = Ok s →
  conserved {| semaphores := s; holder := Some (Taking c k todo (d :: got)); permits := permits w;
               refused := refused w |}.
Proof.
  intros Hw Hh Hr. pose proof (con_taking w Hw _ _ _ _ Hh) as Hplan.
  destruct (holding_of_holder w c k got Hw) as [Hc _]; [by rewrite Hh|].
  assert (Hshape : rev (d :: got) ++ todo = plan k) by (cbn [rev]; by rewrite <-(assoc_L (++))).
  apply (conserved_move w); [done|..]; cbn [semaphores holder permits].
  - intros c'. by apply (exists_take c d).
  - intros c' d'. rewrite !outstanding_split, Hh. cbn [holder permits of_holder sum_list_with].
    rewrite uses_cons, (available_take _ _ _ _ c' d' Hr). lia.
  - unfold holdings. rewrite Hh. cbn [holder permits of_holder]. intros h [->|Hin]%elem_of_cons.
    + right. cbn. eauto.
    + left. by right.
  - by intros ? ? ? ? [= <- <- <- <-].
Qed.

Lemma conserved_undo w c k e d got :
  conserved w → holder w = Some (Dropping c k e (d :: got)) →
  conserved {| semaphores := give c d (semaphores w); holder := Some (Dropping c k e got);
               permits := permits w; refused := refused w |}.
Proof.
  intros Hw Hh. destruct (holding_of_holder w c k (d :: got) Hw) as [Hc Hshape]; [by rewrite Hh|].
  apply (conserved_move w); [done|..]; cbn [semaphores holder permits].
  - intros c'. by apply exists_give.
  - intros c' d'. rewrite !outstanding_split, Hh. cbn [holder permits of_holder sum_list_with].
    rewrite uses_cons, available_give. lia.
  - unfold holdings. rewrite Hh. cbn [holder permits of_holder]. intros h [->|Hin]%elem_of_cons.
    + right. split; [done|]. by apply shape_tail in Hshape.
    + left. by right.
  - done.
Qed.

Lemma conserved_give w before after p d rest :
  conserved w → permits w = before ++ p :: after → p_held p = d :: rest →
  conserved {| semaphores := give (p_conversation p) d (semaphores w); holder := holder w;
               permits := before ++ {| p_conversation := p_conversation p;
                                       p_compaction := p_compaction p; p_held := rest |} :: after;
               refused := refused w |}.
Proof.
  intros Hw Hp Hu. destruct (holding_of_permit w before p after Hw Hp) as [Hc Hshape]. rewrite Hu in Hshape.
  apply (conserved_move w); [done|..]; cbn [semaphores holder permits].
  - intros c'. by apply exists_give.
  - intros c' d'. rewrite !outstanding_split, Hp. cbn [holder permits].
    rewrite !map_app, !sum_list_with_app. cbn [map sum_list_with].
    unfold of_permit at 2 5. rewrite Hu. cbn [p_conversation p_compaction p_held].
    rewrite uses_cons, available_give. lia.
  - unfold holdings. cbn [holder permits]. rewrite Hp, !map_app. cbn [map].
    intros h. rewrite !elem_of_app, !elem_of_cons. intros [?|[?|[->|?]]]; [tauto|tauto| |tauto].
    right. split; [done|]. by apply shape_tail in Hshape.
  - apply (con_taking w Hw).
Qed.

Lemma conserved_conversation w c :
  conserved w → conversations (semaphores w) !! c = None →
  conserved {| semaphores := conversation c (semaphores w); holder := holder w; permits := permits w;
               refused := refused w |}.
Proof.
  intros [Ha Hk Hs Ht] Hn. assert (Hnew : ∀ h, h ∈ holdings w → h_conversation h ≠ c).
  { intros h [x Hx]%Hk Heq. subst. congruence. }
  split; [| |done|done]; cbn [semaphores].
  - intros c' d He. change (outstanding c' d _) with (outstanding c' d w). destruct (is_local d) eqn:Hd.
    + destruct (decide (c' = c)) as [->|Hne].
      * assert (Hz : outstanding c d w = 0).
        { by apply uses_none. }
        rewrite Hz. destruct d; try done; cbn; by rewrite lookup_insert_eq.
      * destruct (plan_available c c' d (semaphores w) Hn (He eq_refl) Hne) as [-> He']. by apply Ha.
    + rewrite <-(Ha c' d) by congruence. f_equal. by destruct d.
  - intros h Hh. unfold exists_in. cbn. rewrite lookup_insert_ne by (by apply not_eq_sym, Hnew). by apply Hk.
Qed.

Lemma conserved_step w w' : cap_step w w' → conserved w → conserved w'.
Proof.
  intros Hstep Hw.
  destruct Hstep as [w c Hn|w c k Hh Hc|w c k d todo got s Hh Hr|w c k d todo got e Hh Hr|w c k e d got Hh
    |w c k e Hh|w c k got Hh|w before after p d rest Hp Hu|w before after p Hp Hu].
  - by apply conserved_conversation.
  - apply (conserved_move w); [done|done|..].
    + intros c' d'. rewrite !outstanding_split, Hh. cbn [holder permits of_holder sum_list_with]. by rewrite uses_nil.
    + unfold holdings. rewrite Hh. cbn. intros h [->|Hin]%elem_of_cons; [right; cbn; eauto|by left].
    + by intros ? ? ? ? [= <- <- <- <-].
  - by eapply conserved_take.
  - apply (conserved_move w); [done|done|..].
    + intros c' d'. by rewrite !outstanding_split, Hh.
    + unfold holdings. rewrite Hh. by left.
    + done.
  - by apply conserved_undo.
  - apply (conserved_move w); [done|done|..].
    + intros c' d'. rewrite !outstanding_split, Hh. cbn [holder permits of_holder sum_list_with]. by rewrite uses_nil.
    + unfold holdings. rewrite Hh. left. by right.
    + done.
  - apply (conserved_move w); [done|done|..].
    + intros c' d'. rewrite !outstanding_split, Hh.
      cbn [semaphores holder permits of_holder map sum_list_with]. unfold of_permit at 1.
      cbn [p_conversation p_compaction p_held]. lia.
    + unfold holdings. rewrite Hh. cbn. by left.
    + done.
  - by apply conserved_give.
  - apply (conserved_move w); [done|done|..].
    + intros c' d'. rewrite !outstanding_split, Hp. cbn [holder permits].
      rewrite !map_app, !sum_list_with_app. cbn [map sum_list_with].
      unfold of_permit at 4. by rewrite Hu, uses_nil.
    + unfold holdings. rewrite Hp. cbn [holder permits]. rewrite !map_app. cbn [map].
      intros h. rewrite !elem_of_app, elem_of_cons. tauto.
    + apply (con_taking w Hw).
Qed.

Lemma conserved_reachable w : rtc cap_step cap_start w → conserved w.
Proof. intros Hr. exact (rtc_invariant _ conserved _ _ conserved_step Hr conserved_start). Qed.

(** ** What a refusal means *)

(** A permit none of whose semaphores has been released. *)
Definition whole (p : Permit) : Prop := p_held p = rev (plan (p_compaction p)).

#[export] Instance whole_dec p : Decision (whole p).
Proof. unfold whole. apply _. Defined.

(** What a call holds is one of the six initial runs of its plan, last taken first. *)
Lemma shape_cases units k :
  (∃ rest, rev units ++ rest = plan k) → ∃ n, n <= 5 ∧ units = rev (firstn n (plan k)).
Proof.
  intros [rest Hr]. exists (length units). split.
  - apply (f_equal length) in Hr. rewrite length_app, length_rev in Hr. destruct k; cbn in Hr; lia.
  - rewrite <-Hr, <-(length_rev units), firstn_app, firstn_all, Nat.sub_diag. cbn.
    by rewrite app_nil_r, rev_involutive.
Qed.

Lemma shape_writer units k :
  (∃ rest, rev units ++ rest = plan k) → count RequiredWriter units <= count ProcessTotal units.
Proof. intros (n & Hn & ->)%shape_cases. destruct k; do 6 (destruct n as [|n]; [vm_compute; lia|]); lia. Qed.

(** What the taker already holds when it reaches [d]. *)
Lemma taking_counts got d todo k :
  rev got ++ d :: todo = plan k →
  count d got = 0 ∧ count ProcessTotal got = (if decide (d = ProcessTotal) then 0 else 1).
Proof.
  intros Hr. destruct (shape_cases got k) as (n & Hn & Hgot); [by eexists|]. subst got.
  rewrite rev_involutive in Hr.
  destruct k; do 6 (destruct n as [|n]; [cbn in Hr; simplify_eq; by vm_compute|]); lia.
Qed.

Lemma uses_le c d e h :
  (applies c d (h_conversation h) = true → applies c e (h_conversation h) = true) →
  count d (h_units h) <= count e (h_units h) → uses c d h <= uses c e h.
Proof.
  intros Ha Hc. unfold uses. destruct (applies c d _) eqn:E; [|lia]. by rewrite Ha.
Qed.

Lemma sum_le {A} (f g : A → nat) l : (∀ x, x ∈ l → f x <= g x) → sum_list_with f l <= sum_list_with g l.
Proof.
  induction l as [|x l IH]; intros Hl; cbn; [done|].
  pose proof (Hl x ltac:(by left)). pose proof (IH ltac:(intros y Hy; apply Hl; by right)). lia.
Qed.

Lemma sum_filter {A} (P : A → Prop) `{!∀ x, Decision (P x)} (f g : A → nat) l :
  (∀ x, x ∈ l → f x <= g x + (if decide (P x) then 1 else 0)) →
  sum_list_with f l <= sum_list_with g l + length (filter P l).
Proof.
  induction l as [|x l IH]; intros Hl; [done|]. rewrite filter_cons. cbn [sum_list_with].
  pose proof (Hl x ltac:(by left)). pose proof (IH ltac:(intros y Hy; apply Hl; by right)).
  destruct (decide (P x)); cbn; lia.
Qed.

Lemma outstanding_le c d w :
  conserved w → (is_local d = true → exists_in c (semaphores w)) → outstanding c d w <= capacity d.
Proof. intros Hw Hd. rewrite <-(con_available w Hw c d Hd). lia. Qed.

Lemma whole_count (P : Permit → Prop) `{!∀ p, Decision (P p)} c d w :
  conserved w → (∀ p, P p → uses c d (of_permit p) = 1) → length (filter P (permits w)) <= capacity d.
Proof.
  intros Hw HP. destruct (decide (filter P (permits w) = [])) as [->|Hne]; [cbn; lia|].
  assert (He : is_local d = true → exists_in c (semaphores w)).
  { intros Hd. destruct (filter P (permits w)) as [|p ps] eqn:Ef; [done|].
    assert (Hp : p ∈ filter P (permits w)) by (rewrite Ef; left).
    apply list_elem_of_filter in Hp as [Hp Hin]. specialize (HP p Hp).
    assert (Hc : p_conversation p = c).
    { unfold uses in HP. destruct d; try done; cbn in HP; case_bool_decide; done. }
    rewrite <-Hc. apply (con_known w Hw (of_permit p)). unfold holdings. apply elem_of_app. right.
    apply list_elem_of_fmap. by exists p. }
  pose proof (outstanding_le c d w Hw He) as Hle. rewrite outstanding_split in Hle.
  assert (Hsum : length (filter P (permits w)) <= sum_list_with (uses c d) (map of_permit (permits w))).
  { clear Hle Hne He. induction (permits w) as [|p ps IH]; [done|]. rewrite filter_cons. cbn [map sum_list_with]. case_decide as Hp; cbn [length].
    - rewrite (HP p Hp). lia.
    - lia. }
  lia.
Qed.

Lemma whole_uses p c d :
  whole p → applies c d (p_conversation p) = true → uses c d (of_permit p) = count d (plan (p_compaction p)).
Proof.
  intros Hp Ha. unfold uses. cbn [of_permit h_conversation h_units]. rewrite Ha, Hp.
  destruct (p_compaction p), d; reflexivity.
Qed.

Lemma take_err c d s e : take c d s = Err e → e = d ∧ available c d s = 0.
Proof. unfold take. destruct (available c d s); [|done]. by intros [= <-]. Qed.

Lemma permit_holding p w : p ∈ permits w → of_permit p ∈ holdings w.
Proof. intros Hp. apply elem_of_app. right. apply list_elem_of_fmap. by exists p. Qed.

Lemma writer_never_refused w c k d todo got e :
  conserved w → holder w = Some (Taking c k (d :: todo) got) →
  take c d (semaphores w) = Err e → e ≠ RequiredWriter.
Proof.
  intros Hw Hh He ->. apply take_err in He as [<- Hav].
  destruct (taking_counts got RequiredWriter todo k (con_taking w Hw _ _ _ _ Hh)) as [Hz Hone].
  rewrite decide_False in Hone by done.
  pose proof (con_available w Hw c RequiredWriter ltac:(done)) as Hsum. rewrite Hav in Hsum.
  pose proof (outstanding_le c ProcessTotal w Hw ltac:(done)) as Hle.
  rewrite outstanding_split, Hh in *. cbn [of_holder sum_list_with] in *.
  unfold uses at 1 in Hsum. unfold uses at 1 in Hle. cbn [applies h_units] in *. rewrite Hz in Hsum. rewrite Hone in Hle.
  assert (Hp : sum_list_with (uses c RequiredWriter) (map of_permit (permits w)) <=
    sum_list_with (uses c ProcessTotal) (map of_permit (permits w))).
  { apply sum_le. intros h (p & -> & Hp)%list_elem_of_fmap. apply uses_le; [done|].
    apply (shape_writer _ (p_compaction p)). apply (con_shape w Hw (of_permit p)). by apply permit_holding. }
  cbn in *. lia.
Qed.

(** A permit of a compaction, or one in the middle of being dropped, whose drop is followed
    by a wake-up. *)
Definition transient (p : Permit) : Prop := p_compaction p = true ∨ ¬ whole p.

#[export] Instance transient_dec p : Decision (transient p).
Proof. unfold transient. apply _. Defined.

Lemma whole_general p : ¬ transient p → whole p ∧ p_compaction p = false.
Proof.
  unfold transient. intros Hp. split.
  - destruct (decide (whole p)); [done|]. destruct Hp. by right.
  - apply not_true_is_false. intros Hc. apply Hp. by left.
Qed.

Lemma count_one units k d : (∃ rest, rev units ++ rest = plan k) → count d units <= 1.
Proof. intros (n & Hn & ->)%shape_cases. destruct k, d; do 6 (destruct n as [|n]; [vm_compute; lia|]); lia. Qed.

(** The taker that is refused [d] holds none of it: the others hold all there is. *)
Lemma refused_outstanding w c k d todo got :
  conserved w → holder w = Some (Taking c k (d :: todo) got) → available c d (semaphores w) = 0 →
  sum_list_with (uses c d) (map of_permit (permits w)) = capacity d.
Proof.
  intros Hw Hh Hav.
  destruct (taking_counts got d todo k (con_taking w Hw _ _ _ _ Hh)) as [Hz _].
  assert (He : exists_in c (semaphores w)).
  { destruct (holding_of_holder w c k got Hw) as [He _]; [by rewrite Hh|done]. }
  rewrite <-(con_available w Hw c d (λ _, He)), Hav, outstanding_split, Hh. cbn [of_holder sum_list_with].
  unfold uses at 2. cbn [h_conversation h_units]. rewrite Hz. by destruct (applies _ _ _).
Qed.

(** Each permit that is not transient holds a unit of the general semaphore with its unit of
    the total one. *)
Lemma total_le_general w c d g p :
  conserved w → p ∈ permits w → (d = ProcessTotal ∧ g = ProcessGeneral ∨
    d = ConversationTotal ∧ g = ConversationGeneral) →
  uses c d (of_permit p) <= uses c g (of_permit p) + (if decide (transient p) then 1 else 0).
Proof.
  intros Hw Hp Hdg. pose proof (con_shape w Hw _ (permit_holding p w Hp)) as Hshape.
  assert (Happ : applies c d (p_conversation p) = applies c g (p_conversation p)) by naive_solver.
  case_decide as Ht.
  - unfold uses. cbn [of_permit h_conversation h_units]. pose proof (count_one _ _ d Hshape) as Hone.
    cbn [of_permit h_units] in Hone. destruct (applies c d _); lia.
  - apply whole_general in Ht as [Hwh Hg]. destruct (applies c d (p_conversation p)) eqn:Ha.
    + rewrite (whole_uses p c d Hwh Ha), (whole_uses p c g Hwh) by congruence. rewrite Hg.
      destruct Hdg as [[-> ->]|[-> ->]]; vm_compute; lia.
    + unfold uses. cbn [of_permit h_conversation]. rewrite Ha. lia.
Qed.

Lemma general_sum_le w c g :
  conserved w → (is_local g = true → exists_in c (semaphores w)) →
  sum_list_with (uses c g) (map of_permit (permits w)) <= capacity g.
Proof.
  intros Hw Hg. pose proof (outstanding_le c g w Hw Hg) as Hle. rewrite outstanding_split in Hle. lia.
Qed.

Lemma sum_map {A B} (f : B → nat) (g : A → B) l : sum_list_with f (map g l) = sum_list_with (λ x, f (g x)) l.
Proof. induction l as [|x l IH]; cbn; [done|]. by rewrite IH. Qed.

(** Capacity is shared safely however reservations and releases interleave: at most 32
    calls (24 of them general) run in the process and 4 (3 general) in a conversation; at
    rest every permit is back; the writer slot of an admitted call is never what refuses it;
    and general work alone never refuses a compaction - the refusal of one is explained by
    other compactions or by permits whose release is still in progress. *)
Theorem capacity_reservations w :
  rtc cap_step cap_start w →
  (length (filter whole (permits w)) <= 32 ∧
   length (filter (λ p, whole p ∧ p_compaction p = false) (permits w)) <= 24 ∧
   ∀ c, length (filter (λ p, whole p ∧ p_conversation p = c) (permits w)) <= 4 ∧
        length (filter (λ p, whole p ∧ p_conversation p = c ∧ p_compaction p = false) (permits w)) <= 3) ∧
  (holder w = None → permits w = [] →
     process_total (semaphores w) = 32 ∧ process_general (semaphores w) = 24 ∧
     writers (semaphores w) = 32 ∧
     ∀ c x, conversations (semaphores w) !! c = Some x → x = (4, 3)) ∧
  (∀ c k d todo got e,
     holder w = Some (Taking c k (d :: todo) got) → take c d (semaphores w) = Err e →
     e ≠ RequiredWriter ∧
     (k = true →
        (e = ConversationTotal → ∃ p, p ∈ permits w ∧ p_conversation p = c ∧ transient p) ∧
        (e = ProcessTotal → 8 <= length (filter transient (permits w))))).
Proof.
  intros Hr. pose proof (conserved_reachable w Hr) as Hw. split_and!.
  - apply (whole_count _ 0 ProcessTotal); [done|]. intros p Hp. rewrite whole_uses by done.
    by destruct (p_compaction p).
  - apply (whole_count _ 0 ProcessGeneral); [done|]. intros p [Hp Hk]. rewrite whole_uses by done. by rewrite Hk.
  - intros c. split.
    + apply (whole_count _ c ConversationTotal); [done|]. intros p [Hp Hc].
      rewrite whole_uses by (cbn; by rewrite ?bool_decide_eq_true_2). by destruct (p_compaction p).
    + apply (whole_count _ c ConversationGeneral); [done|]. intros p (Hp & Hc & Hk).
      rewrite whole_uses by (cbn; by rewrite ?bool_decide_eq_true_2). by rewrite Hk.
  - intros Hh Hp.
    assert (Hav : ∀ c d, (is_local d = true → exists_in c (semaphores w)) → available c d (semaphores w) = capacity d).
    { intros c d Hd. rewrite <-(con_available w Hw c d Hd), outstanding_split, Hh, Hp. cbn. lia. }
    split_and!; [apply (Hav 0 ProcessTotal)|apply (Hav 0 ProcessGeneral)|apply (Hav 0 RequiredWriter)|]; try done.
    intros c [total general] Hc. assert (He : exists_in c (semaphores w)) by by eexists.
    pose proof (Hav c ConversationTotal (λ _, He)) as H1. pose proof (Hav c ConversationGeneral (λ _, He)) as H2.
    cbn in H1, H2. rewrite Hc in H1, H2. cbn in H1, H2. by subst.
  - intros c k d todo got e Hh He. split; [by eapply writer_never_refused|]. intros ->.
    apply take_err in He as [-> Hav]. pose proof (refused_outstanding w c true d todo got Hw Hh Hav) as Hall.
    assert (Hec : exists_in c (semaphores w)).
    { destruct (holding_of_holder w c true got Hw) as [He _]; [by rewrite Hh|done]. }
    split; intros ->; rewrite sum_map in Hall.
    + destruct (decide (Exists (λ p, p_conversation p = c ∧ transient p) (permits w))) as [Hex|Hno];
        [by apply Exists_exists in Hex as (p & ? & ? & ?); exists p|]. exfalso.
      pose proof (general_sum_le w c ConversationGeneral Hw (λ _, Hec)) as Hg. rewrite sum_map in Hg.
      assert (sum_list_with (λ p, uses c ConversationTotal (of_permit p)) (permits w) <=
        sum_list_with (λ p, uses c ConversationGeneral (of_permit p)) (permits w)); [|cbn in *; lia].
      apply sum_le. intros p Hp. destruct (decide (p_conversation p = c)) as [Hc|Hc].
      * pose proof (total_le_general w c ConversationTotal ConversationGeneral p Hw Hp ltac:(by right)) as Ht.
        rewrite decide_False in Ht; [lia|]. intros Htr. apply Hno, Exists_exists. by exists p.
      * unfold uses at 1. cbn. rewrite bool_decide_eq_false_2 by done. lia.
    + pose proof (general_sum_le w c ProcessGeneral Hw ltac:(done)) as Hg. rewrite sum_map in Hg.
      pose proof (sum_filter transient (λ p, uses c ProcessTotal (of_permit p))
        (λ p, uses c ProcessGeneral (of_permit p)) (permits w)
        (λ p Hp, total_le_general w c ProcessTotal ProcessGeneral p Hw Hp ltac:(by left))). cbn in *. lia.
Qed.

(** ** The uninterrupted call *)

Lemma give_take c d s s' : take c d s = Ok s' → give c d s' = s.
Proof.
  intros Ht. pose proof (available_take c d s s' c d Ht) as Hav.
  assert (Hu : unit_at c d c d = 1).
  { unfold unit_at. rewrite bool_decide_eq_true_2 by done. destruct d; cbn; by rewrite ?bool_decide_eq_true_2. }
  revert Ht. unfold take, give. destruct (available c d s) as [|n] eqn:E; [done|]. intros [= <-].
  rewrite Hu in Hav. injection Hav as <-.
  destruct s as [pt pg wr m]. unfold set_available, available in *. cbn in *.
  destruct (m !! c) as [[total general]|] eqn:Em; cbn in *; destruct d; cbn in *; simplify_eq;
    rewrite ?lookup_insert_eq; cbn; rewrite ?Em; cbn; f_equal;
    rewrite ?insert_insert_eq; by rewrite insert_id.
Qed.

Lemma reserve_from_spec c todo got s :
  NoDup todo →
  match reserve_from c todo got s with
  | (Ok u, s') => u = rev todo ++ got ∧ (∀ d, d ∈ todo → available c d s ≠ 0) ∧
      release c u s' = release c got s
  | (Err e, s') => s' = release c got s ∧ ∃ before after, todo = before ++ e :: after ∧
      available c e s = 0 ∧ ∀ d, d ∈ before → available c d s ≠ 0
  end.
Proof.
  revert got s. induction todo as [|d todo IH]; intros got s Hnd; cbn [reserve_from].
  { split_and!; [done|intros d Hd; by apply not_elem_of_nil in Hd|done]. }
  apply NoDup_cons in Hnd as [Hd Hnd]. destruct (take c d s) as [s1|e] eqn:Et.
  - assert (Hpos : available c d s ≠ 0) by (unfold take in Et; by destruct (available c d s)).
    assert (Hsame : ∀ e, e ≠ d → available c e s1 = available c e s).
    { intros e He. rewrite (available_take c d s s1 c e Et). unfold unit_at.
      by rewrite bool_decide_eq_false_2. }
    assert (Hrel : release c (d :: got) s1 = release c got s).
    { unfold release. cbn. by rewrite (give_take c d s s1 Et). }
    specialize (IH (d :: got) s1 Hnd). destruct (reserve_from c todo (d :: got) s1) as [[u|e] s'].
    + destruct IH as (-> & Hall & ->). split_and!; [|..|done].
      * cbn [rev]. by rewrite <-(assoc_L (++)).
      * intros x [->|Hx]%elem_of_cons; [done|]. rewrite <-Hsame by (intros ->; done). auto.
    + destruct IH as (-> & before & after & -> & Hz & Hb). split; [done|].
      assert (He : e ≠ d) by (intros ->; apply Hd, elem_of_app; right; left).
      exists (d :: before), after. split_and!; [done|by rewrite <-Hsame|].
      intros x [->|Hx]%elem_of_cons; [done|]. rewrite <-Hsame; [auto|].
      intros ->. apply Hd, elem_of_app. by left.
  - apply take_err in Et as [-> Hz]. split; [done|]. exists [], todo. split_and!; [done|done|].
    intros x Hx. by apply not_elem_of_nil in Hx.
Qed.

Lemma undo_steps c k e got w :
  holder w = Some (Dropping c k e got) →
  rtc cap_step w {| semaphores := release c got (semaphores w); holder := None; permits := permits w;
                    refused := (c, k, e) :: refused w |}.
Proof.
  revert w. induction got as [|d got IH]; intros w Hh; cbn.
  - by apply rtc_once, step_busy.
  - eapply rtc_l; [by apply (step_undo w c k e d got)|]. apply (IH {| holder := Some (Dropping c k e got) |}). done.
Qed.

Lemma reserve_steps c k todo got w :
  holder w = Some (Taking c k todo got) →
  match reserve_from c todo got (semaphores w) with
  | (Ok u, s) => rtc cap_step w {| semaphores := s; holder := None;
      permits := {| p_conversation := c; p_compaction := k; p_held := u |} :: permits w;
      refused := refused w |}
  | (Err e, s) => rtc cap_step w {| semaphores := s; holder := None; permits := permits w;
      refused := (c, k, e) :: refused w |}
  end.
Proof.
  revert got w. induction todo as [|d todo IH]; intros got w Hh; cbn [reserve_from].
  { by apply rtc_once, step_admit. }
  destruct (take c d (semaphores w)) as [s|e] eqn:Et.
  - pose proof (step_take w c k d todo got s Hh Et) as Hstep.
    specialize (IH (d :: got) {| semaphores := s; holder := Some (Taking c k todo (d :: got));
                  permits := permits w; refused := refused w |} eq_refl). cbn in IH.
    destruct (reserve_from c todo (d :: got) s) as [[u|e] s']; by eapply rtc_l.
  - eapply rtc_l; [by apply (step_refuse w c k d todo got e)|].
    by apply (undo_steps c k e got {| holder := Some (Dropping c k e got) |}).
Qed.

(** A reservation is all or nothing: it is admitted exactly when every semaphore of its
    plan has a permit, otherwise the first exhausted one refuses it and every semaphore is
    as it was; dropping an admitted permit restores what it took, and the call is a run of
    the interleaved steps. *)
Theorem reserve_all_or_nothing w c k :
  holder w = None → exists_in c (semaphores w) →
  match reserve c k (semaphores w) with
  | (Ok permit, s) =>
      (∀ d, d ∈ plan k → available c d (semaphores w) ≠ 0) ∧
      release c permit s = semaphores w ∧
      rtc cap_step w {| semaphores := s; holder := None;
        permits := {| p_conversation := c; p_compaction := k; p_held := rev (plan k) |} :: permits w;
        refused := refused w |}
  | (Err e, s) =>
      (∃ before after, plan k = before ++ e :: after ∧ available c e (semaphores w) = 0 ∧
         ∀ d, d ∈ before → available c d (semaphores w) ≠ 0) ∧
      s = semaphores w ∧
      rtc cap_step w {| semaphores := s; holder := None; permits := permits w;
        refused := (c, k, e) :: refused w |}
  end.
Proof.
  intros Hh Hc. pose proof (step_begin w c k Hh Hc) as Hb.
  assert (Hnd : NoDup (plan k)) by (apply (bool_decide_unpack _); by destruct k).
  pose proof (reserve_from_spec c (plan k) [] (semaphores w) Hnd) as Hspec.
  pose proof (reserve_steps c k (plan k) [] {| semaphores := semaphores w; holder := Some (Taking c k (plan k) []);
    permits := permits w; refused := refused w |} eq_refl) as Hsteps.
  unfold reserve. cbn [semaphores] in Hsteps. destruct (reserve_from c (plan k) [] (semaphores w)) as [[u|e] s].
  - destruct Hspec as (-> & Hall & Hrel). rewrite app_nil_r in *. split_and!; [done|done|by eapply rtc_l].
  - destruct Hspec as (-> & Hex). split_and!; [done|done|by eapply rtc_l].
Qed.

(** ** Witnesses *)

(** The world after an uninterrupted reservation. *)
Definition after_reserve (c : ConversationId) (k : bool) (w : World) : World :=
  match reserve c k (semaphores w) with
  | (Ok u, s) => {| semaphores := s; holder := None;
      permits := {| p_conversation := c; p_compaction := k; p_held := u |} :: permits w;
      refused := refused w |}
  | (Err e, s) => {| semaphores := s; holder := None; permits := permits w;
      refused := (c, k, e) :: refused w |}
  end.

Lemma after_reserve_steps c k w :
  holder w = None → exists_in c (semaphores w) → rtc cap_step w (after_reserve c k w).
Proof.
  intros Hh Hc. eapply rtc_l; [by apply (step_begin w c k)|]. unfold after_reserve, reserve.
  pose proof (reserve_steps c k (plan k) [] {| semaphores := semaphores w;
    holder := Some (Taking c k (plan k) []); permits := permits w; refused := refused w |} eq_refl) as Hs.
  cbn [semaphores] in Hs. by destruct (reserve_from c (plan k) [] (semaphores w)) as [[u|e] s].
Qed.

Definition open_world : World :=
  {| semaphores := conversation 0 process_new; holder := None; permits := []; refused := [] |}.

(** Three general calls, a refused fourth one, and a compaction. *)
Definition busy_world : World :=
  after_reserve 0 true (after_reserve 0 false (after_reserve 0 false (after_reserve 0 false
    (after_reserve 0 false open_world)))).

Definition taking_world : World :=
  {| semaphores := set_available 0 ProcessTotal 27 (semaphores busy_world);
     holder := Some (Taking 0 true [ConversationTotal; RequiredWriter] [ProcessTotal]);
     permits := permits busy_world; refused := refused busy_world |}.

Lemma taking_world_reachable : rtc cap_step cap_start taking_world.
Proof.
  assert (Hb : rtc cap_step cap_start busy_world).
  { eapply rtc_l; [by apply (step_conversation _ 0)|]. fold open_world. unfold busy_world.
    do 5 (etrans; [|apply after_reserve_steps; vm_compute; [reflexivity|by eexists]]).
    apply rtc_refl. }
  etrans; [exact Hb|].
  eapply rtc_l; [apply (step_begin _ 0 true); vm_compute; [reflexivity|by eexists]|].
  eapply rtc_l; [by eapply (step_take _ 0 true ProcessTotal); vm_compute|]. vm_compute. apply rtc_refl.
Qed.

Lemma capacity_reservations_witness :
  rtc cap_step cap_start taking_world ∧
  refused taking_world = [(0, false, ConversationGeneral)] ∧
  take 0 ConversationTotal (semaphores taking_world) = Err ConversationTotal ∧
  ∃ p, p ∈ permits taking_world ∧ p_conversation p = 0 ∧ transient p.
Proof.
  destruct (capacity_reservations taking_world taking_world_reachable) as (_ & _ & Hr).
  assert (He : take 0 ConversationTotal (semaphores taking_world) = Err ConversationTotal)
    by (vm_compute; reflexivity).
  split; [exact taking_world_reachable|]. split; [vm_compute; reflexivity|]. split; [exact He|].
  destruct (Hr 0 true ConversationTotal [RequiredWriter] [ProcessTotal] ConversationTotal eq_refl He) as [_ Hk].
  exact (proj1 (Hk eq_refl) eq_refl).
Defined.

Lemma reserve_all_or_nothing_witness :
  (reserve 0 false (semaphores busy_world)).1 = Err ConversationTotal ∧
  (reserve 0 false (semaphores busy_world)).2 = semaphores busy_world.
Proof.
  assert (Hr : (reserve 0 false (semaphores busy_world)).1 = Err ConversationTotal) by (vm_compute; reflexivity).
  split; [exact Hr|].
  assert (Hc : exists_in 0 (semaphores busy_world)) by (vm_compute; by eexists).
  pose proof (reserve_all_or_nothing busy_world 0 false eq_refl Hc) as Hs.
  destruct (reserve 0 false (semaphores busy_world)) as [[u|e] s]; [discriminate Hr|].
  exact (proj1 (proj2 Hs)).
Defined.
