(* ===== verification/Inbox.v ===== *)
(** The durable inbox ([src/src/durable/sqlite/inbox.rs], vocabulary of
    [src/src/durable/inbox.rs]): acceptance of inbound work, its adoption into the canonical
    Ledger, edits of pending items, and the Goal row, each one transaction; with the Ledger
    append and the transcript order they use ([canonical/ledger.rs]).

    A table is a list of its rows in key order; a transaction that returns an error is rolled
    back, so an operation returns the new database or an error.  Display indexes, observation
    receipts and the byte encoding of rows are left out, as is the fault of the disk itself.
    Of the Journal only the facts this plane writes are kept. *)

From S2P Require Import Prelude Text Goal Message.
From stdpp Require Import options.

Abbreviation AttemptId := (list N) (only parsing).
Abbreviation Correlation := (list N) (only parsing).

Inductive StoreError :=
| EmptyContent
| CorrelationConflict (correlation : Correlation)
| SequenceExhausted
| DuplicateMessageId (id : MessageId)
| InvalidReference (reason : str)
| ResourceBoundExceeded
| OperationCancelled
| TerminalViolation (reason : str)
| Storage (reason : str).

Abbreviation R := (result StoreError).

(** ** Tables *)

(** [pending_inbound] *)
Record PendingRow := {
  sequence : N;
  row_id : MessageId;
  message : UserMessageBlock;
  correlation : option Correlation;
  row_revision : N;
}.

(** [inbound_correlation] *)
Record CorrelationRow := { c_correlation : Correlation; c_sequence : N; c_id : MessageId }.

Inductive JournalFact :=
| JGoal (fact : GoalFact)
| InboundTurnAdopted (attempt : option AttemptId) (message_ids : list MessageId).

Record InboxDb := {
  conversation_id : str;
  next_inbound_sequence : N;
  next_transcript_position : N;
  next_event_sequence : N;
  pending : list PendingRow;
  correlations : list CorrelationRow;
  message_ledger : list MessageBlock;
  active_ids : list MessageId;
  transcript_order : gmap (str * str) N;
  goal_state : option GoalSnapshot;
  journal : list JournalFact;
}.

Definition i64_max : N := 2 ^ 63 - 1.

(** [value.checked_add(1)] on an SQLite integer *)
Definition i64_next (n : N) : option N := if (n <? i64_max)%N then Some (n + 1)%N else None.

(** Row updates *)
Definition set_pending (f : list PendingRow → list PendingRow) (db : InboxDb) : InboxDb :=
  {| conversation_id := conversation_id db; next_inbound_sequence := next_inbound_sequence db;
     next_transcript_position := next_transcript_position db;
     next_event_sequence := next_event_sequence db; pending := f (pending db);
     correlations := correlations db; message_ledger := message_ledger db;
     active_ids := active_ids db; transcript_order := transcript_order db;
     goal_state := goal_state db; journal := journal db |}.

Definition set_transcript (n : N) (f : gmap (str * str) N → gmap (str * str) N) (db : InboxDb) : InboxDb :=
  {| conversation_id := conversation_id db; next_inbound_sequence := next_inbound_sequence db;
     next_transcript_position := n;
     next_event_sequence := next_event_sequence db; pending := pending db;
     correlations := correlations db; message_ledger := message_ledger db;
     active_ids := active_ids db; transcript_order := f (transcript_order db);
     goal_state := goal_state db; journal := journal db |}.

Definition add_ledger (m : MessageBlock) (db : InboxDb) : InboxDb :=
  {| conversation_id := conversation_id db; next_inbound_sequence := next_inbound_sequence db;
     next_transcript_position := next_transcript_position db;
     next_event_sequence := next_event_sequence db; pending := pending db;
     correlations := correlations db; message_ledger := message_ledger db ++ [m];
     active_ids := active_ids db ++ [message_id_of m]; transcript_order := transcript_order db;
     goal_state := goal_state db; journal := journal db |}.

Definition set_goal (g : GoalSnapshot) (db : InboxDb) : InboxDb :=
  {| conversation_id := conversation_id db; next_inbound_sequence := next_inbound_sequence db;
     next_transcript_position := next_transcript_position db;
     next_event_sequence := next_event_sequence db; pending := pending db;
     correlations := correlations db; message_ledger := message_ledger db;
     active_ids := active_ids db; transcript_order := transcript_order db;
     goal_state := Some g; journal := journal db |}.

(** [persist_event_tx] on a Goal or adoption fact, which none of its reference and lifecycle
    rules concerns. *)
Definition persist_event (f : JournalFact) (db : InboxDb) : R InboxDb :=
  n ← ok_or (Storage (lit "event sequence exhausted")) (i64_next (next_event_sequence db));
  Ok {| conversation_id := conversation_id db; next_inbound_sequence := next_inbound_sequence db;
        next_transcript_position := next_transcript_position db; next_event_sequence := n;
        pending := pending db; correlations := correlations db;
        message_ledger := message_ledger db; active_ids := active_ids db;
        transcript_order := transcript_order db; goal_state := goal_state db;
        journal := journal db ++ [f] |}.

(** ** Ledger and transcript ([canonical/ledger.rs]) *)

Definition pending_with (id : MessageId) (db : InboxDb) : option PendingRow :=
  find_first (λ r, bool_decide (row_id r = id)) (pending db).

Definition ledger_with (id : MessageId) (db : InboxDb) : option MessageBlock :=
  find_first (λ m, bool_decide (message_id_of m = id)) (message_ledger db).

(** [pending_message_exists], [ledger_message_exists] and [message_exists] *)
Definition pending_message_exists (id : MessageId) (db : InboxDb) : bool :=
  bool_decide (is_Some (pending_with id db)).
Definition ledger_message_exists (id : MessageId) (db : InboxDb) : bool :=
  bool_decide (is_Some (ledger_with id db)).
Definition message_exists (id : MessageId) (db : InboxDb) : bool :=
  pending_message_exists id db || ledger_message_exists id db.

(** [transcript_visible_message] *)
Definition transcript_visible_message (m : MessageBlock) : bool :=
  match m with
  | User u => match user_kind u with Context _ => false | _ => true end
  | _ => true
  end.

Definition MESSAGE : str := lit "message".

(** [append_transcript_reference]: the existing position, or the next one. *)
Definition append_transcript_reference (kind id : str) (db : InboxDb) : R (N * InboxDb) :=
  match transcript_order db !! (kind, id) with
  | Some position => Ok (position, db)
  | None =>
      position ← ok_or (Storage (lit "transcript position exhausted"))
                   (i64_next (next_transcript_position db));
      Ok (position, set_transcript position <[(kind, id) := position]> db)
  end.

(** [load_transcript_reference] *)
Definition load_transcript_reference (kind id : str) (db : InboxDb) : option N :=
  transcript_order db !! (kind, id).

(** [append_message_ledger] *)
Definition append_message_ledger (m : MessageBlock) (allowed : option MessageId) (db : InboxDb)
    : R (option N * InboxDb) :=
  let id := message_id_of m in
  _ ← guard_err (pending_message_exists id db && negb (bool_decide (allowed = Some id)))
        (DuplicateMessageId id);
  _ ← guard_err (ledger_message_exists id db) (DuplicateMessageId id);
  let db := add_ledger m db in
  if transcript_visible_message m then
    '(position, db) ← append_transcript_reference MESSAGE id db;
    Ok (Some position, db)
  else Ok (None, db).

(** The bounds [append_validation::Batch::head] keeps on the working set: 8192 messages,
    identities of 4096 bytes. *)
Definition room (db : InboxDb) : bool :=
  (N.of_nat (length (active_ids db)) <=? 8192)%N &&
  forallb (λ id, len id <=? 4096)%N (active_ids db).

(** [append_validation::Batch::append]: the working set is checked, then the message
    appended and the Surface head advanced. *)
Definition append (m : MessageBlock) (allowed : option MessageId) (db : InboxDb)
    : R (option N * InboxDb) :=
  _ ← guard_err (negb (room db)) ResourceBoundExceeded;
  append_message_ledger m allowed db.

(** ** Acceptance *)

Record InboundDraft := {
  d_message_id : option MessageId;
  d_source : UserSource;
  d_kind : InboundKind;
  d_content : list UserContentBlock;
  d_timestamp : DateTime;
  d_correlation : option Correlation;
}.

Record AcceptedInbound := {
  a_sequence : N;
  a_message_id : MessageId;
  a_message : UserMessageBlock;
  a_cursor : option N;
  retried : bool;
}.

Definition is_context (k : InboundKind) : bool := match k with Context _ => true | _ => false end.

(** [load_correlated_user_message] *)
Definition load_correlated_user_message (id : MessageId) (db : InboxDb) : R UserMessageBlock :=
  match pending_with id db with
  | Some r =>
      _ ← guard_err (negb (bool_decide (user_id (message r) = id)))
            (InvalidReference (lit "correlated pending body has a different identity"));
      Ok (message r)
  | None =>
      m ← ok_or (InvalidReference (lit "message " ++ id ++ lit " is unavailable")) (ledger_with id db);
      match m with
      | User u =>
          _ ← guard_err (negb (bool_decide (user_id u = id)))
                (InvalidReference (lit "correlated Ledger body has a different identity"));
          Ok u
      | _ => Err (InvalidReference (lit "correlation points to a non-User Ledger fact"))
      end
  end.

Definition correlated (c : Correlation) (db : InboxDb) : option CorrelationRow :=
  find_first (λ r, bool_decide (c_correlation r = c)) (correlations db).

Definition same_draft (d : InboundDraft) (id : MessageId) (m : UserMessageBlock) : bool :=
  match d_message_id d with Some i => bool_decide (i = id) | None => true end
  && bool_decide (d_source d = user_source m) && bool_decide (d_kind d = user_kind m)
  && bool_decide (d_content d = user_content m)
  && bool_decide (user_timestamp m = Some (d_timestamp d)).

(** The correlated retry: the original acceptance, or a conflict. *)
Definition accept_retry (d : InboundDraft) (r : CorrelationRow) (db : InboxDb) : R AcceptedInbound :=
  m ← load_correlated_user_message (c_id r) db;
  _ ← guard_err (negb (same_draft d (c_id r) m)) (CorrelationConflict (c_correlation r));
  cursor ← (if is_context (user_kind m) then Ok None
            else position ← ok_or (InvalidReference (lit "accepted inbound " ++ c_id r
                     ++ lit " is missing its transcript reference"))
                   (load_transcript_reference MESSAGE (c_id r) db);
                 Ok (Some position));
  Ok {| a_sequence := c_sequence r; a_message_id := c_id r; a_message := m; a_cursor := cursor;
        retried := true |}.

Definition insert_pending (r : PendingRow) (db : InboxDb) : InboxDb :=
  {| conversation_id := conversation_id db; next_inbound_sequence := sequence r;
     next_transcript_position := next_transcript_position db;
     next_event_sequence := next_event_sequence db; pending := pending db ++ [r];
     correlations := correlations db ++
       match correlation r with
       | Some c => [{| c_correlation := c; c_sequence := sequence r; c_id := row_id r |}]
       | None => []
       end;
     message_ledger := message_ledger db; active_ids := active_ids db;
     transcript_order := transcript_order db; goal_state := goal_state db; journal := journal db |}.

(** [accept_scheduled_inbound_tx] *)
Definition accept_scheduled_inbound_tx (d : InboundDraft) (db : InboxDb)
    : R (AcceptedInbound * InboxDb) :=
  _ ← guard_err (bool_decide (d_content d = [])) EmptyContent;
  match d_correlation d ≫= λ c, correlated c db with
  | Some r => a ← accept_retry d r db; Ok (a, db)
  | None =>
      n ← ok_or SequenceExhausted (i64_next (next_inbound_sequence db));
      let id := default (conversation_id db ++ lit "-inbound-" ++ dec n) (d_message_id d) in
      _ ← guard_err (message_exists id db) (DuplicateMessageId id);
      let m := {| user_id := id; user_content := d_content d; user_source := d_source d;
                  user_kind := d_kind d; user_timestamp := Some (d_timestamp d) |} in
      (* the message identity is UNIQUE in [inbound_correlation] too *)
      _ ← guard_err (bool_decide (is_Some (d_correlation d)) &&
                     existsb (λ r, bool_decide (c_id r = id)) (correlations db))
            (Storage (lit "insert correlation"));
      let db := insert_pending {| sequence := n; row_id := id; message := m;
                                  correlation := d_correlation d; row_revision := 0 |} db in
      '(cursor, db) ←
        (if is_context (d_kind d) then Ok (None, db)
         else '(position, db) ← append_transcript_reference MESSAGE id db; Ok (Some position, db));
      Ok ({| a_sequence := n; a_message_id := id; a_message := m; a_cursor := cursor;
             retried := false |}, db)
  end.

Definition SCHEDULER : str := lit "scheduler:".

(** [value.starts_with("scheduler:")] *)
Definition is_scheduler (s : str) : bool := bool_decide (SCHEDULER `prefix_of` s).

Definition claims_scheduler (o : option str) : bool :=
  match o with Some s => is_scheduler s | None => false end.

(** [accept_inbound_tx] *)
Definition accept_inbound_tx (d : InboundDraft) (db : InboxDb) : R (AcceptedInbound * InboxDb) :=
  _ ← guard_err (claims_scheduler (d_correlation d) || claims_scheduler (d_message_id d))
        (InvalidReference (lit "Scheduler identities require atomic scheduled admission"));
  accept_scheduled_inbound_tx d db.

Definition is_continuation (k : InboundKind) : bool :=
  match k with GoalContinuation _ => true | _ => false end.

(** [reject_unaccounted_goal] *)
Definition reject_unaccounted_goal (d : InboundDraft) : R () :=
  guard_err (is_continuation (d_kind d)) (InvalidReference
    (lit "Goal continuation must cross accept_goal_round with atomic accounting")).

(** [accept_inbound] *)
Definition accept_inbound (d : InboundDraft) (db : InboxDb) : R (AcceptedInbound * InboxDb) :=
  _ ← reject_unaccounted_goal d;
  accept_inbound_tx d db.

(** ** The Goal row *)

(** [write_goal] *)
Definition write_goal (w : GoalWrite) (db : InboxDb) : R (GoalResult * InboxDb) :=
  let previous := goal_state db in
  let result := transition previous w in
  match result with
  | Ok g =>
      db ← persist_event (JGoal (Written (reference <$> previous) (reference g) (phase g) (change w)))
             (set_goal g db);
      Ok (result, db)
  | Err _ => Ok (result, db)
  end.

(** The Goal after one more autonomous round. *)
Definition consume_round (id : MessageId) (revision : N) (g : GoalSnapshot) : GoalSnapshot :=
  {| reference := {| goal_id := goal_id (reference g); revision := revision |};
     objective := objective g; phase := phase g; blocked_reason := blocked_reason g;
     autonomous_round_budget := autonomous_round_budget g;
     autonomous_rounds_consumed := autonomous_rounds_consumed g + 1; origin := origin g;
     last_round_message_id := Some id |}.

(** [accept_goal_round] *)
Definition accept_goal_round (expected : GoalRef) (d : InboundDraft) (db : InboxDb)
    : R (option AcceptedInbound * InboxDb) :=
  match goal_state db with
  | None => Ok (None, db)
  | Some goal =>
      if negb (bool_decide (reference goal = expected)) || negb (bool_decide (phase goal = Active))
         || (autonomous_round_budget goal <=? autonomous_rounds_consumed goal)%N
      then Ok (None, db)
      else if negb (bool_decide (pending db = [])) then Ok (None, db)
      else
        _ ← guard_err (negb (bool_decide (d_source d = Runtime)) ||
                       negb (bool_decide (d_kind d = GoalContinuation expected)))
              (InvalidReference (lit "Goal admission requires its exact typed runtime trigger"));
        '(accepted, db) ← accept_inbound_tx d db;
        _ ← guard_err (retried accepted) (InvalidReference (lit "Goal round identity already accepted"));
        n ← ok_or SequenceExhausted (u64_checked_add (Goal.revision (reference goal)) 1);
        let goal' := consume_round (a_message_id accepted) n goal in
        db ← persist_event (JGoal (RoundAdmitted expected (reference goal')
                                     (autonomous_rounds_consumed goal') (a_message_id accepted)))
               (set_goal goal' db);
        Ok (Some accepted, db)
  end.

(** ** Adoption *)

(** A pending item: its row and its transcript position. *)
Definition cursor_of (r : PendingRow) (db : InboxDb) : option N :=
  load_transcript_reference MESSAGE (row_id r) db.

(** [load_pending_rows] *)
Definition load_pending_rows (db : InboxDb) : R (list PendingRow) :=
  _ ← try_for_each (λ r,
        _ ← guard_err (negb (bool_decide (user_id (message r) = row_id r)))
              (InvalidReference (lit "pending row contains a different message identity"));
        guard_err (negb (bool_decide (negb (is_context (user_kind (message r)))
                                      = bool_decide (is_Some (cursor_of r db)))))
          (InvalidReference (lit "pending inbound has an invalid transcript reference")))
      (pending db);
  Ok (pending db).

(** [select_pending_batch]: the watermark and the items. *)
Definition select_pending_batch (db : InboxDb) : R (option (N * list PendingRow)) :=
  items ← load_pending_rows db;
  Ok (match last items with Some r => Some (sequence r, items) | None => None end).

(** The loop of [adopt_pending_batch] *)
Fixpoint adopt_items (items : list (PendingRow * option N)) (db : InboxDb) : R InboxDb :=
  match items with
  | [] => Ok db
  | (r, cursor) :: items =>
      '(cursor', db) ← append (User (message r)) (Some (row_id r)) db;
      _ ← guard_err (negb (bool_decide (cursor' = cursor)))
            (InvalidReference (lit "adopted inbound changed its transcript cursor"));
      adopt_items items db
  end.

(** [adopt_pending_batch] *)
Definition adopt_pending_batch (watermark : N) (attempt : option AttemptId) (db : InboxDb)
    : R (list PendingRow * InboxDb) :=
  rows ← load_pending_rows db;
  let items := List.filter (λ r, sequence r <=? watermark)%N rows in
  let db0 := db in
  db ← adopt_items (map (λ r, (r, cursor_of r db0)) items) db;
  _ ← guard_err (i64_max <? watermark)%N (Storage (lit "sequence out of range"));
  let db := set_pending (List.filter (λ r, negb (sequence r <=? watermark)%N)) db in
  db ← (if bool_decide (items = []) then Ok db
        else persist_event (InboundTurnAdopted attempt (map row_id items)) db);
  Ok (items, db).

(** ** Edits of a pending item *)

Inductive PendingMutationOutcome := Applied | NotPending | Conflict | InvalidItem.

Record PendingInboundRef := { ref_sequence : N; ref_revision : N }.

(** [rewrite_pending_body] *)
Definition rewrite_pending_body (r : PendingRow) (text : str) (db : InboxDb) : R InboxDb :=
  n ← ok_or SequenceExhausted (i64_next (row_revision r));
  let m := {| user_id := user_id (message r); user_content := [UText text];
              user_source := user_source (message r); user_kind := user_kind (message r);
              user_timestamp := user_timestamp (message r) |} in
  Ok (set_pending (map (λ x, if (sequence x =? sequence r)%N
        then {| sequence := sequence x; row_id := row_id x; message := m;
                correlation := correlation x; row_revision := n |} else x)) db).

(** [mutate_pending]: an edit, or a removal when [text] is absent. *)
Definition mutate_pending (expected : PendingInboundRef) (text : option str) (db : InboxDb)
    : R (PendingMutationOutcome * InboxDb) :=
  match find_first (λ r, (sequence r =? ref_sequence expected)%N) (pending db) with
  | None => Ok (NotPending, db)
  | Some r =>
      if negb (row_revision r =? ref_revision expected)%N then Ok (Conflict, db)
      else
        _ ← guard_err (negb (bool_decide (user_id (message r) = row_id r)) ||
                       bool_decide (is_context (user_kind (message r))
                                    = bool_decide (is_Some (cursor_of r db))))
              (InvalidReference (lit "pending source identity or transcript mismatch"));
        if negb (bool_decide (user_source (message r) = Human))
           || negb (bool_decide (user_kind (message r) = KMessage))
           || bool_decide (is_Some (correlation r))
        then Ok (InvalidItem, db)
        else
          match text with
          | Some text =>
              if bool_decide (trim text = []) ||
                 negb (match user_content (message r) with [UText _] => true | _ => false end)
              then Ok (InvalidItem, db)
              else db ← rewrite_pending_body r text db; Ok (Applied, db)
          | None =>
              Ok (Applied,
                  set_transcript (next_transcript_position db) (delete (MESSAGE, row_id r))
                    (set_pending (List.filter (λ x, negb (sequence x =? sequence r)%N)) db))
          end
  end.

(** [edit_pending] and [remove_pending] *)
Definition edit_pending (expected : PendingInboundRef) (text : str) := mutate_pending expected (Some text).
Definition remove_pending (expected : PendingInboundRef) := mutate_pending expected None.

(** [has_accepted_inbound] *)
Definition has_accepted_inbound (db : InboxDb) : bool := (0 <? next_inbound_sequence db)%N.

(** ** Runs of the plane *)

(** The transactions on one conversation's store, the scheduler's aside, in any order.  [run_append] is a commit of
    the attempt (its Assistant, Tool and Context messages), [run_surface] a compaction,
    [run_transcript] a reference of another kind. *)
Inductive native_step : InboxDb → InboxDb → Prop :=
| run_accept d a db db' : accept_inbound d db = Ok (a, db') → native_step db db'
| run_goal w r db db' : write_goal w db = Ok (r, db') → native_step db db'
| run_round e d a db db' : accept_goal_round e d db = Ok (a, db') → native_step db db'
| run_adopt n attempt items db db' :
    adopt_pending_batch n attempt db = Ok (items, db') → native_step db db'
| run_mutate e text o db db' : mutate_pending e text db = Ok (o, db') → native_step db db'
| run_append m c db db' :
    (∀ u, m = User u → is_continuation (user_kind u) = false) →
    append m None db = Ok (c, db') → native_step db db'
| run_surface ids db :
    native_step db
      {| conversation_id := conversation_id db; next_inbound_sequence := next_inbound_sequence db;
         next_transcript_position := next_transcript_position db;
         next_event_sequence := next_event_sequence db; pending := pending db;
         correlations := correlations db; message_ledger := message_ledger db;
         active_ids := ids; transcript_order := transcript_order db;
         goal_state := goal_state db; journal := journal db |}
| run_transcript kind id p db db' :
    kind ≠ MESSAGE → append_transcript_reference kind id db = Ok (p, db') → native_step db db'.

(** With those of the scheduler, whose drafts are messages. *)
Inductive inbox_step : InboxDb → InboxDb → Prop :=
| run_native db db' : native_step db db' → inbox_step db db'
| run_scheduled d a db db' :
    is_continuation (d_kind d) = false →
    accept_scheduled_inbound_tx d db = Ok (a, db') → inbox_step db db'.

Definition inbox_start (conversation : str) : InboxDb :=
  {| conversation_id := conversation; next_inbound_sequence := 0; next_transcript_position := 0;
     next_event_sequence := 0; pending := []; correlations := []; message_ledger := [];
     active_ids := []; transcript_order := ∅; goal_state := None; journal := [] |}.

Definition all_ids (db : InboxDb) : list MessageId :=
  map row_id (pending db) ++ map message_id_of (message_ledger db).

(** A message with a place in the transcript. *)
Definition in_transcript (id : MessageId) (db : InboxDb) : Prop :=
  (∃ r, r ∈ pending db ∧ row_id r = id ∧ is_context (user_kind (message r)) = false) ∨
  (∃ m, m ∈ message_ledger db ∧ message_id_of m = id ∧ transcript_visible_message m = true).

(** The consistency of the tables. *)
Record inbox_ok (db : InboxDb) : Prop := {
  ok_sorted : StronglySorted N.lt (map sequence (pending db));
  ok_bound r : r ∈ pending db → (sequence r <= next_inbound_sequence db)%N;
  ok_ids : NoDup (all_ids db);
  ok_identity r : r ∈ pending db → user_id (message r) = row_id r;
  ok_transcript id : is_Some (transcript_order db !! (MESSAGE, id)) ↔ in_transcript id db;
  ok_correlation x : x ∈ correlations db →
    (∃ r, r ∈ pending db ∧ row_id r = c_id x ∧ sequence r = c_sequence x ∧
          correlation r = Some (c_correlation x)) ∨
    (∃ u, User u ∈ message_ledger db ∧ user_id u = c_id x);
  ok_correlated r c : r ∈ pending db → correlation r = Some c →
    {| c_correlation := c; c_sequence := sequence r; c_id := row_id r |} ∈ correlations db;
  ok_keys : NoDup (map c_correlation (correlations db));
}.

(** *** Lookups in a consistent database *)

Lemma pending_with_Some id db r :
  NoDup (all_ids db) → pending_with id db = Some r ↔ r ∈ pending db ∧ row_id r = id.
Proof.
  intros [Hnd _]%NoDup_app. unfold pending_with. split.
  - intros [Hin Hid]%find_first_Some. by apply bool_decide_eq_true in Hid.
  - intros [Hin Hid]. destruct (find_first _ (pending db)) as [r'|] eqn:E.
    + apply find_first_Some in E as [Hin' Hid']. apply bool_decide_eq_true in Hid'.
      f_equal. apply (NoDup_map_inj row_id (pending db)); [done..|congruence].
    + rewrite find_first_None in E. specialize (E r Hin). by apply bool_decide_eq_false in E.
Qed.

Lemma pending_with_None id db : pending_with id db = None ↔ id ∉ map row_id (pending db).
Proof.
  unfold pending_with. rewrite find_first_None. split.
  - intros Hn (r & -> & Hr)%list_elem_of_fmap. specialize (Hn r Hr). by apply bool_decide_eq_false in Hn.
  - intros Hn r Hr. apply bool_decide_eq_false. intros <-. apply Hn, list_elem_of_fmap. eauto.
Qed.

Lemma ledger_with_Some id db m :
  NoDup (all_ids db) → ledger_with id db = Some m ↔ m ∈ message_ledger db ∧ message_id_of m = id.
Proof.
  intros (_ & _ & Hnd)%NoDup_app. unfold ledger_with. split.
  - intros [Hin Hid]%find_first_Some. by apply bool_decide_eq_true in Hid.
  - intros [Hin Hid]. destruct (find_first _ (message_ledger db)) as [m'|] eqn:E.
    + apply find_first_Some in E as [Hin' Hid']. apply bool_decide_eq_true in Hid'.
      f_equal. apply (NoDup_map_inj message_id_of (message_ledger db)); [done..|congruence].
    + rewrite find_first_None in E. specialize (E m Hin). by apply bool_decide_eq_false in E.
Qed.

Lemma ledger_with_None id db : ledger_with id db = None ↔ id ∉ map message_id_of (message_ledger db).
Proof.
  unfold ledger_with. rewrite find_first_None. split.
  - intros Hn (r & -> & Hr)%list_elem_of_fmap. specialize (Hn r Hr). by apply bool_decide_eq_false in Hn.
  - intros Hn r Hr. apply bool_decide_eq_false. intros <-. apply Hn, list_elem_of_fmap. eauto.
Qed.

Lemma message_exists_false id db : message_exists id db = false ↔ id ∉ all_ids db.
Proof.
  unfold message_exists, pending_message_exists, ledger_message_exists, all_ids.
  rewrite orb_false_iff, !bool_decide_eq_false, not_elem_of_app, <-pending_with_None, <-ledger_with_None.
  destruct (pending_with id db), (ledger_with id db); naive_solver.
Qed.

Lemma in_transcript_all id db : in_transcript id db → id ∈ all_ids db.
Proof.
  unfold all_ids. rewrite elem_of_app. intros [(r & Hr & <- & _)|(m & Hm & <- & _)]; [left|right];
    apply list_elem_of_fmap; eauto.
Qed.

(** *** What an accepted item adds *)

(** A fresh acceptance: its row, in a database that knew neither the identity nor the
    correlation. *)
Record fresh (d : InboundDraft) (a : AcceptedInbound) (db db' : InboxDb) : Prop := {
  fresh_sequence : a_sequence a = (next_inbound_sequence db + 1)%N;
  fresh_id : a_message_id a =
    default (conversation_id db ++ lit "-inbound-" ++ dec (a_sequence a)) (d_message_id d);
  fresh_message : a_message a = {| user_id := a_message_id a; user_content := d_content d;
    user_source := d_source d; user_kind := d_kind d; user_timestamp := Some (d_timestamp d) |};
  fresh_new : a_message_id a ∉ all_ids db;
  fresh_uncorrelated c : d_correlation d = Some c → ∀ x, x ∈ correlations db → c_correlation x ≠ c;
  fresh_cursor : a_cursor a = load_transcript_reference MESSAGE (a_message_id a) db';
  fresh_visible : is_Some (a_cursor a) ↔ is_context (d_kind d) = false;
  fresh_pending : pending db' = pending db ++ [{| sequence := a_sequence a; row_id := a_message_id a;
    message := a_message a; correlation := d_correlation d; row_revision := 0 |}];
  fresh_correlations : correlations db' = correlations db ++
    match d_correlation d with
    | Some c => [{| c_correlation := c; c_sequence := a_sequence a; c_id := a_message_id a |}]
    | None => []
    end;
  fresh_ledger : message_ledger db' = message_ledger db;
  fresh_next : next_inbound_sequence db' = a_sequence a;
  fresh_goal : goal_state db' = goal_state db ∧ journal db' = journal db ∧ active_ids db' = active_ids db;
  fresh_transcript k : k ≠ (MESSAGE, a_message_id a) → transcript_order db' !! k = transcript_order db !! k;
  fresh_retried : retried a = false;
}.

Lemma append_transcript_cases kind id db p db' :
  append_transcript_reference kind id db = Ok (p, db') →
  (transcript_order db !! (kind, id) = Some p ∧ db' = db) ∨
  (transcript_order db !! (kind, id) = None ∧ db' = set_transcript p <[(kind, id) := p]> db).
Proof.
  unfold append_transcript_reference. destruct (transcript_order db !! (kind, id)) as [q|] eqn:E.
  - intros [= <- <-]. by left.
  - intros (q & _ & [= <- <-])%bind_ok. by right.
Qed.

Lemma correlated_Some c db x : correlated c db = Some x → x ∈ correlations db ∧ c_correlation x = c.
Proof. intros [Hin Hc]%find_first_Some. by apply bool_decide_eq_true in Hc. Qed.

Lemma correlated_None c db x : correlated c db = None → x ∈ correlations db → c_correlation x ≠ c.
Proof.
  unfold correlated. rewrite find_first_None. intros Hn Hx. specialize (Hn x Hx).
  by apply bool_decide_eq_false in Hn.
Qed.

Lemma accept_cases d db a db' :
  inbox_ok db → accept_scheduled_inbound_tx d db = Ok (a, db') →
  (∃ c x, d_correlation d = Some c ∧ correlated c db = Some x ∧ accept_retry d x db = Ok a ∧ db' = db) ∨
  fresh d a db db'.
Proof.
  intros Hok. unfold accept_scheduled_inbound_tx. intros (u & _ & H)%bind_ok.
  destruct (d_correlation d ≫= λ c, correlated c db) as [x|] eqn:Ex.
  { left. apply bind_Some in Ex as (c & Hc & Hx). apply bind_ok in H as (a' & Ha & [= <- <-]). eauto 10. }
  right. apply bind_ok in H as (n & Hn%ok_or_ok & H).
  set (id := default _ (d_message_id d)) in H.
  apply bind_ok in H as (u' & Hnew%guard_err_ok & (u'' & _ & H)%bind_ok).
  apply message_exists_false in Hnew.
  set (m := {| user_id := id |}) in H. set (row := {| sequence := n |}) in H.
  assert (Hn' : n = (next_inbound_sequence db + 1)%N) by (unfold i64_next in Hn; destruct (_ <? _)%N; [by injection Hn|done]).
  assert (Hunc : ∀ c, d_correlation d = Some c → ∀ x, x ∈ correlations db → c_correlation x ≠ c).
  { intros c Hc x Hx. rewrite Hc in Ex. simpl in Ex. by eapply correlated_None. }
  assert (Hnot : transcript_order db !! (MESSAGE, id) = None).
  { destruct (transcript_order db !! (MESSAGE, id)) eqn:E; [|done].
    assert (Hin : in_transcript id db) by (apply (ok_transcript db Hok); by eexists).
    by apply in_transcript_all in Hin. }
  destruct (is_context (d_kind d)) eqn:Ectx; simpl in H.
  - injection H as <- <-. split; cbn; try done; try (by destruct (d_correlation d)).
    rewrite Ectx. by split; [intros []|].
  - apply bind_ok in H as ([cursor db1] & H1 & H2). apply bind_ok in H1 as ([p db2] & Hp & H1).
    injection H1 as <- <-. injection H2 as <- <-.
    apply append_transcript_cases in Hp as [[Hp _]|[_ ->]].
    { unfold insert_pending in Hp. cbn in Hp. congruence. }
    split; cbn; try done; try (by destruct (d_correlation d)).
    + unfold load_transcript_reference. cbn. by rewrite lookup_insert_eq.
    + intros k Hk. by rewrite lookup_insert_ne.
Qed.

(** *** Each transaction keeps the tables consistent *)

Definition same_tables (db db' : InboxDb) : Prop :=
  pending db' = pending db ∧ message_ledger db' = message_ledger db ∧
  correlations db' = correlations db ∧ next_inbound_sequence db' = next_inbound_sequence db ∧
  ∀ id, transcript_order db' !! (MESSAGE, id) = transcript_order db !! (MESSAGE, id).

Lemma ok_same db db' : same_tables db db' → inbox_ok db → inbox_ok db'.
Proof.
  intros (Hp & Hl & Hc & Hn & Ht) [H1 H2 H3 H4 H5 H6 H7 H8].
  split; unfold all_ids, in_transcript in *; rewrite ?Hp, ?Hl, ?Hc, ?Hn; try done.
  intros id. rewrite Ht. apply H5.
Qed.

Lemma ok_fresh d a db db' : inbox_ok db → fresh d a db db' → inbox_ok db'.
Proof.
  intros [H1 H2 H3 H4 H5 H6 H7 H8] Hf. pose proof Hf as [Fs Fi Fm Fn Fu Fc Fv Fp Fr Fl Fx Fg Ft _].
  set (row := {| sequence := a_sequence a; row_id := a_message_id a |}) in *.
  assert (Hin : ∀ r, r ∈ pending db' ↔ r ∈ pending db ∨ r = row).
  { intros r. by rewrite Fp, elem_of_app, list_elem_of_singleton. }
  assert (Hcor : ∀ x, x ∈ correlations db' ↔ x ∈ correlations db ∨ ∃ c, d_correlation d = Some c ∧
    x = {| c_correlation := c; c_sequence := a_sequence a; c_id := a_message_id a |}).
  { intros x. rewrite Fr, elem_of_app. destruct (d_correlation d) as [c|].
    - rewrite list_elem_of_singleton. naive_solver.
    - rewrite elem_of_nil. naive_solver. }
  split.
  - rewrite Fp, map_app. apply StronglySorted_app_2; [|done|repeat constructor].
    intros x y (r & -> & Hr)%list_elem_of_fmap ->%list_elem_of_singleton. cbn. specialize (H2 r Hr). lia.
  - intros r. rewrite Hin, Fx. intros [Hr| ->]; cbn; [|lia]. specialize (H2 r Hr). lia.
  - unfold all_ids in *. rewrite Fp, Fl, map_app, <-(assoc_L (++)). cbn [map app].
    rewrite <-Permutation_middle. by constructor.
  - intros r [Hr| ->]%Hin; [auto|]. cbn. by rewrite Fm.
  - intros id. assert (Hv : in_transcript id db' ↔ in_transcript id db ∨
      id = a_message_id a ∧ is_context (d_kind d) = false).
    { unfold in_transcript. rewrite Fl. setoid_rewrite Hin. split.
      - intros [(r & [Hr| ->] & Hid & Hk)|?]; [left; left; eauto| |by left; right].
        right. cbn in Hid, Hk. rewrite Fm in Hk. by subst.
      - intros [[(r & Hr & ?)|?]|[-> Hk]]; [left; exists r; eauto|by right|].
        left. exists row. split_and!; [by right|done|]. cbn. by rewrite Fm. }
    rewrite Hv. destruct (decide (id = a_message_id a)) as [->|Hne].
    + unfold load_transcript_reference in Fc. rewrite <-Fc, Fv. split; [by right|].
      intros [Hi%in_transcript_all|[_ ?]]; done.
    + rewrite Ft by congruence. rewrite H5. naive_solver.
  - intros x [Hx|(c & Hc & ->)]%Hcor.
    + rewrite Fl. destruct (H6 x Hx) as [(r & Hr & ?)|?]; [left|by right]. exists r. rewrite Hin. eauto.
    + left. exists row. rewrite Hin. cbn. auto.
  - intros r c [Hr| ->]%Hin Hc; apply Hcor; [left; auto|right]. cbn in Hc. eauto.
  - rewrite Fr, map_app. destruct (d_correlation d) as [c|]; cbn; [|by rewrite app_nil_r].
    apply NoDup_app. split_and!; [done| |apply NoDup_singleton].
    intros k (x & -> & Hx)%list_elem_of_fmap Hk%list_elem_of_singleton. by destruct (Fu c eq_refl x Hx).
Qed.

(** Appending to the Ledger, of a message the Inbox does not hold. *)
Definition appended (m : MessageBlock) (db db' : InboxDb) : Prop :=
  message_id_of m ∉ all_ids db ∧
  pending db' = pending db ∧ message_ledger db' = message_ledger db ++ [m] ∧
  correlations db' = correlations db ∧ next_inbound_sequence db' = next_inbound_sequence db ∧
  goal_state db' = goal_state db ∧ journal db' = journal db ∧
  (is_Some (transcript_order db' !! (MESSAGE, message_id_of m)) ↔ transcript_visible_message m = true) ∧
  (∀ k, k ≠ (MESSAGE, message_id_of m) → transcript_order db' !! k = transcript_order db !! k).

Lemma append_cases m db c db' : inbox_ok db → append m None db = Ok (c, db') → appended m db db'.
Proof.
  intros Hok. unfold append, append_message_ledger. intros (u & _ & H)%bind_ok.
  apply bind_ok in H as (u1 & Hp%guard_err_ok & (u2 & Hl%guard_err_ok & H)%bind_ok).
  assert (Hnew : message_id_of m ∉ all_ids db).
  { apply message_exists_false. unfold message_exists. rewrite Hl.
    destruct (pending_message_exists _ db); [|done]. by rewrite bool_decide_eq_false_2 in Hp. }
  assert (Hnot : transcript_order db !! (MESSAGE, message_id_of m) = None).
  { apply eq_None_not_Some. intros Hin%(ok_transcript db Hok)%in_transcript_all. done. }
  destruct (transcript_visible_message m) eqn:Ev.
  - apply bind_ok in H as ([p db1] & Hp1 & H). injection H as <- <-.
    apply append_transcript_cases in Hp1 as [[Hp1 _]|[_ ->]]; [cbn in Hp1; congruence|].
    split_and!; try done; cbn; [by rewrite lookup_insert_eq|]. intros k Hk. by rewrite lookup_insert_ne.
  - injection H as <- <-. split_and!; try done. cbn. rewrite Hnot, Ev. by split; [intros []|].
Qed.

Lemma ok_appended m db db' : inbox_ok db → appended m db db' → inbox_ok db'.
Proof.
  intros [H1 H2 H3 H4 H5 H6 H7 H8] (Hnew & Hp & Hl & Hc & Hn & _ & _ & Hv & Ht).
  split; unfold all_ids in *; rewrite ?Hp, ?Hl, ?Hc, ?Hn; try done.
  - rewrite map_app, (assoc_L (++)). apply NoDup_app. split_and!; [done| |apply NoDup_singleton].
    by intros x Hx ->%list_elem_of_singleton.
  - intros id. assert (Hi : in_transcript id db' ↔ in_transcript id db ∨
      id = message_id_of m ∧ transcript_visible_message m = true).
    { unfold in_transcript. rewrite Hp, Hl. setoid_rewrite elem_of_app.
      setoid_rewrite list_elem_of_singleton. naive_solver. }
    rewrite Hi. destruct (decide (id = message_id_of m)) as [->|Hne].
    + rewrite Hv. split; [by right|]. intros [Hin%in_transcript_all|[_ ?]]; done.
    + rewrite Ht by congruence. rewrite H5. naive_solver.
  - intros x Hx. destruct (H6 x Hx) as [?|(u & Hu & ?)]; [by left|right].
    exists u. rewrite elem_of_app. eauto.
Qed.

Lemma sequence_inj db r r' :
  inbox_ok db → r ∈ pending db → r' ∈ pending db → sequence r = sequence r' → r = r'.
Proof.
  intros Hok Hr Hr' E. apply (NoDup_map_inj sequence (pending db)); try done.
  apply StronglySorted_lt_NoDup, Hok.
Qed.

(** A change of pending bodies that keeps everything else. *)
Lemma ok_pending_map f db :
  (∀ x, x ∈ pending db → sequence (f x) = sequence x ∧ row_id (f x) = row_id x ∧
     correlation (f x) = correlation x ∧ user_id (message (f x)) = user_id (message x) ∧
     user_kind (message (f x)) = user_kind (message x)) →
  inbox_ok db → inbox_ok (set_pending (map f) db).
Proof.
  intros Hf [H1 H2 H3 H4 H5 H6 H7 H8].
  assert (Hseq : map sequence (map f (pending db)) = map sequence (pending db)).
  { rewrite map_map. apply map_ext_in. intros x Hx%list_elem_of_In. apply (Hf x Hx). }
  assert (Hid : map row_id (map f (pending db)) = map row_id (pending db)).
  { rewrite map_map. apply map_ext_in. intros x Hx%list_elem_of_In. apply (Hf x Hx). }
  split; unfold all_ids in *; cbn; rewrite ?Hseq, ?Hid; try done.
  - intros x (y & -> & Hy)%list_elem_of_fmap. destruct (Hf y Hy) as (-> & _). auto.
  - intros x (y & -> & Hy)%list_elem_of_fmap. destruct (Hf y Hy) as (_ & -> & _ & -> & _). auto.
  - intros id. rewrite H5. unfold in_transcript. cbn. f_equiv. split.
    + intros (r & Hr & Hi & Hk). destruct (Hf r Hr) as (_ & Ei & _ & _ & Ek). exists (f r).
      rewrite Ei, Ek. split_and!; try done. apply list_elem_of_fmap. eauto.
    + intros (x & (r & -> & Hr)%list_elem_of_fmap & Hi & Hk).
      destruct (Hf r Hr) as (_ & Ei & _ & _ & Ek). exists r. by rewrite <-Ei, <-Ek.
  - intros x Hx. destruct (H6 x Hx) as [(r & Hr & Hi & Hs & Hc)|?]; [left|by right].
    destruct (Hf r Hr) as (Es & Ei & Ec & _). exists (f r). rewrite Es, Ei, Ec.
    split_and!; try done. apply list_elem_of_fmap. eauto.
  - intros x c (y & -> & Hy)%list_elem_of_fmap. destruct (Hf y Hy) as (-> & -> & -> & _). auto.
Qed.

(** Removing an uncorrelated pending item, with its transcript reference. *)
Lemma ok_removed r db :
  r ∈ pending db → correlation r = None → inbox_ok db →
  inbox_ok (set_transcript (next_transcript_position db) (delete (MESSAGE, row_id r))
              (set_pending (List.filter (λ x, negb (sequence x =? sequence r)%N)) db)).
Proof.
  intros Hr Hc Hok. pose proof Hok as [H1 H2 H3 H4 H5 H6 H7 H8].
  set (p := λ x, negb (sequence x =? sequence r)%N).
  assert (Hin : ∀ x, x ∈ List.filter p (pending db) ↔ x ∈ pending db ∧ x ≠ r).
  { intros x. rewrite list_elem_of_In, filter_In, <-list_elem_of_In. subst p. cbn.
    rewrite negb_true_iff, N.eqb_neq. split; intros [Hx Hne]; split; try done; [congruence|].
    intros E. by apply Hne, (sequence_inj db). }
  assert (Hids : ∀ x, x ∈ pending db → row_id x = row_id r → x = r).
  { intros x Hx. apply (NoDup_map_inj row_id (pending db)); try done. by apply NoDup_app in H3 as [? _]. }
  split; unfold all_ids; cbn; fold p.
  - by apply StronglySorted_map_filter.
  - intros x [Hx _]%Hin. auto.
  - apply NoDup_app in H3 as (Ha & Hb & Hd). apply NoDup_app. split_and!; try done.
    + by apply NoDup_map_filter.
    + intros i (x & -> & [Hx _]%Hin)%list_elem_of_fmap. apply Hb, list_elem_of_fmap. eauto.
  - intros x [Hx _]%Hin. auto.
  - intros id. unfold in_transcript. cbn. fold p. setoid_rewrite Hin.
    destruct (decide (id = row_id r)) as [->|Hne].
    + rewrite lookup_delete_eq. split; [by intros []|].
      apply NoDup_app in H3 as (_ & Hb & _).
      intros [(x & [Hx Hxr] & Hi & _)|(m & Hm & Hi & _)]; [by destruct Hxr; apply Hids|].
      destruct (Hb (row_id r)); apply list_elem_of_fmap; eauto.
    + rewrite lookup_delete_ne by congruence. rewrite H5. unfold in_transcript. f_equiv.
      split; intros (x & Hx & Hi & Hk); exists x; [split_and!; try done|naive_solver].
      intros ->. done.
  - intros x Hx. destruct (H6 x Hx) as [(y & Hy & Hi & Hs & Hyc)|?]; [left|by right].
    exists y. rewrite Hin. split_and!; try done. congruence.
  - intros x c [Hx _]%Hin. auto.
  - done.
Qed.

(** *** Adoption *)

Definition user_block (r : PendingRow) : MessageBlock := User (message r).

(** The Ledger after the items of a batch. *)
Definition adopted (items : list PendingRow) (db : InboxDb) : InboxDb :=
  foldl (λ db r, add_ledger (user_block r) db) db items.

Lemma adopted_fields items db :
  pending (adopted items db) = pending db ∧
  message_ledger (adopted items db) = message_ledger db ++ map user_block items ∧
  active_ids (adopted items db) = active_ids db ++ map (message_id_of ∘ user_block) items ∧
  correlations (adopted items db) = correlations db ∧
  next_inbound_sequence (adopted items db) = next_inbound_sequence db ∧
  next_event_sequence (adopted items db) = next_event_sequence db ∧
  transcript_order (adopted items db) = transcript_order db ∧
  goal_state (adopted items db) = goal_state db ∧ journal (adopted items db) = journal db.
Proof.
  unfold adopted. revert db. induction items as [|r items IH]; intros db; cbn.
  { by rewrite !app_nil_r. }
  destruct (IH (add_ledger (user_block r) db)) as (H1 & H2 & H3 & H4 & H5 & H6 & H7 & H8 & H9).
  cbn in *. by rewrite H1, H2, H3, H4, H5, H6, H7, H8, H9, <-!(assoc_L (++)).
Qed.

(** One item: the position it was accepted at is the one it is adopted at. *)
Lemma append_accepted r db :
  user_id (message r) = row_id r → row_id r ∉ map message_id_of (message_ledger db) →
  (is_Some (cursor_of r db) ↔ is_context (user_kind (message r)) = false) →
  append (User (message r)) (Some (row_id r)) db =
    if room db then Ok (cursor_of r db, add_ledger (user_block r) db) else Err ResourceBoundExceeded.
Proof.
  intros Hid Hnew Hcur. unfold append, append_message_ledger. destruct (room db); [|done].
  cbn [negb message_id_of guard_err]. rewrite Hid. simpl. rewrite bool_decide_eq_true_2, andb_false_r by done.
  simpl. unfold ledger_message_exists. apply ledger_with_None in Hnew. rewrite Hnew. simpl.
  unfold user_block, cursor_of, load_transcript_reference in *.
  replace (match user_kind (message r) with Context _ => false | _ => true end)
    with (negb (is_context (user_kind (message r)))) by by destruct (user_kind _).
  destruct (is_context (user_kind (message r))); simpl.
  - destruct (transcript_order db !! _); [|done]. assert (true = false) by (apply Hcur; eauto). done.
  - unfold append_transcript_reference. cbn [transcript_order add_ledger].
    destruct (transcript_order db !! _); [done|]. assert (@is_Some N None) as [] by by apply Hcur. done.
Qed.

(** Room for a batch: the working set is checked before each of its items. *)
Fixpoint fits (items : list PendingRow) (db : InboxDb) : bool :=
  match items with
  | [] => true
  | r :: items => room db && fits items (add_ledger (user_block r) db)
  end.

Lemma adopt_items_exact (db0 : InboxDb) items db :
  transcript_order db = transcript_order db0 →
  NoDup (map row_id items) →
  Forall (λ r, user_id (message r) = row_id r ∧ row_id r ∉ map message_id_of (message_ledger db) ∧
    (is_Some (cursor_of r db0) ↔ is_context (user_kind (message r)) = false)) items →
  adopt_items (map (λ r, (r, cursor_of r db0)) items) db =
    if fits items db then Ok (adopted items db) else Err ResourceBoundExceeded.
Proof.
  revert db. induction items as [|r items IH]; intros db Ht Hnd Hall; [done|].
  apply Forall_cons in Hall as [(Hid & Hnew & Hcur) Hall]. apply NoDup_cons in Hnd as [Hr Hnd].
  assert (Hc : cursor_of r db = cursor_of r db0)
    by (unfold cursor_of, load_transcript_reference; by rewrite Ht).
  cbn [map adopt_items]. rewrite append_accepted by (rewrite ?Hc; done).
  cbn [fits]. destruct (room db); [|done]. simpl. rewrite Hc, bool_decide_eq_true_2 by done. simpl.
  rewrite IH; [done..|].
  rewrite Forall_forall in *. intros x Hx. destruct (Hall x Hx) as (Hxi & Hxn & Hxc).
  split_and!; [done| |done]. cbn. rewrite map_app, not_elem_of_app. split; [done|]. cbn.
  rewrite list_elem_of_singleton, Hid. intros E. apply Hr. rewrite <-E. apply list_elem_of_fmap. eauto.
Qed.

Lemma fits_enough items db :
  (N.of_nat (length (active_ids db) + length items) <= 8193)%N →
  Forall (λ id, (len id <= 4096)%N) (active_ids db ++ map row_id items) →
  Forall (λ r, user_id (message r) = row_id r) items → fits items db = true.
Proof.
  revert db. induction items as [|r items IH]; intros db Hn Hl Hi; cbn [fits]; [done|].
  apply Forall_cons in Hi as [Hr Hi]. cbn in Hn, Hl. apply andb_true_iff. split.
  - unfold room. apply andb_true_iff. split; [apply N.leb_le; lia|].
    apply forallb_forall. intros i Hin%list_elem_of_In. apply N.leb_le.
    rewrite Forall_forall in Hl. apply Hl, elem_of_app. by left.
  - apply IH; [|cbn|done].
    + cbn. rewrite length_app. cbn. lia.
    + rewrite <-(assoc_L (++)). cbn. by rewrite Hr.
Qed.

Definition below (w : N) (r : PendingRow) : bool := (sequence r <=? w)%N.

Lemma pending_visible r db :
  inbox_ok db → r ∈ pending db →
  (is_Some (cursor_of r db) ↔ is_context (user_kind (message r)) = false).
Proof.
  intros Hok Hr. unfold cursor_of, load_transcript_reference. rewrite (ok_transcript db Hok).
  pose proof (ok_ids db Hok) as (Hnd & Hdis & _)%NoDup_app. split; [|by left; eauto].
  intros [(r' & Hr' & Hi & Hk)|(m & Hm & Hi & _)].
  - by rewrite (NoDup_map_inj row_id (pending db) r r').
  - destruct (Hdis (row_id r)); apply list_elem_of_fmap; eauto.
Qed.

Lemma load_pending_rows_ok db : inbox_ok db → load_pending_rows db = Ok (pending db).
Proof.
  intros Hok. unfold load_pending_rows.
  match goal with |- context [try_for_each ?f _] => assert (Hall : try_for_each f (pending db) = Ok ()) end;
    [|by rewrite Hall].
  apply try_for_each_ok, Forall_forall. intros r Hr. rewrite (ok_identity db Hok r Hr).
  rewrite (bool_decide_eq_true_2 (row_id r = row_id r)) by done. simpl. pose proof (pending_visible r db Hok Hr) as Hv.
  destruct (is_context (user_kind (message r))); simpl.
  - rewrite (bool_decide_eq_false_2 (is_Some (cursor_of r db))) by (intros ?%Hv; done). done.
  - rewrite (bool_decide_eq_true_2 (is_Some (cursor_of r db))) by by apply Hv. done.
Qed.

Lemma elem_of_below w r db : r ∈ List.filter (below w) (pending db) ↔ r ∈ pending db ∧ (sequence r <= w)%N.
Proof. rewrite list_elem_of_In, filter_In, <-list_elem_of_In. unfold below. by rewrite N.leb_le. Qed.

(** The database an adoption leaves, but for its Journal fact. *)
Definition after_adoption (w : N) (db : InboxDb) : InboxDb :=
  set_pending (List.filter (λ r, negb (below w r))) (adopted (List.filter (below w) (pending db)) db).

Lemma adopt_pending_batch_ok w attempt db :
  inbox_ok db →
  let items := List.filter (below w) (pending db) in
  adopt_pending_batch w attempt db =
    if fits items db then
      (_ ← guard_err (i64_max <? w)%N (Storage (lit "sequence out of range"));
       db' ← (if bool_decide (items = []) then Ok (after_adoption w db)
              else persist_event (InboundTurnAdopted attempt (map row_id items)) (after_adoption w db));
       Ok (items, db'))
    else Err ResourceBoundExceeded.
Proof.
  intros Hok items. unfold adopt_pending_batch. rewrite load_pending_rows_ok by done. simpl.
  change (List.filter (λ r, sequence r <=? w)%N (pending db)) with items.
  pose proof (ok_ids db Hok) as (Hnd & Hdis & _)%NoDup_app.
  rewrite (adopt_items_exact db items db); [by destruct (fits items db)|done|by apply NoDup_map_filter|].
  apply Forall_forall. intros r [Hr _]%elem_of_below. split_and!; [by apply (ok_identity db)| |by apply pending_visible].
  intros Hl. apply (Hdis (row_id r)); [|done]. apply list_elem_of_fmap. eauto.
Qed.

Lemma all_ids_adoption w db : inbox_ok db → all_ids (after_adoption w db) ≡ₚ all_ids db.
Proof.
  intros Hok. unfold all_ids, after_adoption. cbn.
  destruct (adopted_fields (List.filter (below w) (pending db)) db) as (-> & -> & _).
  rewrite map_app, map_map.
  rewrite (map_ext_in (λ x, message_id_of (user_block x)) row_id).
  2:{ intros r [Hr _]%list_elem_of_In%elem_of_below. by apply (ok_identity db Hok). }
  rewrite (Permutation_app_comm (map message_id_of (message_ledger db))), (assoc_L (++)).
  f_equiv. rewrite <-map_app. apply Permutation_map, Permutation_filter_split.
Qed.

Lemma elem_of_above w r db :
  r ∈ pending (after_adoption w db) ↔ r ∈ pending db ∧ (w < sequence r)%N.
Proof.
  unfold after_adoption. cbn. destruct (adopted_fields (List.filter (below w) (pending db)) db) as (-> & _).
  rewrite list_elem_of_In, filter_In, <-list_elem_of_In. unfold below. by rewrite negb_true_iff, N.leb_gt.
Qed.

Lemma ledger_adoption w db :
  message_ledger (after_adoption w db) =
    message_ledger db ++ map user_block (List.filter (below w) (pending db)).
Proof. unfold after_adoption. cbn. by destruct (adopted_fields (List.filter (below w) (pending db)) db) as (_ & -> & _). Qed.

Lemma tables_adoption w db :
  correlations (after_adoption w db) = correlations db ∧
  next_inbound_sequence (after_adoption w db) = next_inbound_sequence db ∧
  transcript_order (after_adoption w db) = transcript_order db ∧
  goal_state (after_adoption w db) = goal_state db ∧ journal (after_adoption w db) = journal db ∧
  next_event_sequence (after_adoption w db) = next_event_sequence db.
Proof.
  unfold after_adoption. cbn.
  by destruct (adopted_fields (List.filter (below w) (pending db)) db) as (_ & _ & _ & -> & -> & -> & -> & -> & ->).
Qed.

(** An adopted item is in the Ledger, a kept one still pending. *)
Lemma adoption_moves w r db :
  r ∈ pending db → r ∈ pending (after_adoption w db) ∨ user_block r ∈ message_ledger (after_adoption w db).
Proof.
  intros Hr. rewrite elem_of_above, ledger_adoption, elem_of_app.
  destruct (N.le_gt_cases (sequence r) w); [right; right|by left].
  apply list_elem_of_fmap. exists r. by rewrite elem_of_below.
Qed.

Lemma adopted_from w db m :
  m ∈ message_ledger (after_adoption w db) → m ∈ message_ledger db ∨ ∃ r, r ∈ pending db ∧ m = user_block r.
Proof.
  rewrite ledger_adoption, elem_of_app. intros [?|(r & -> & [Hr _]%elem_of_below)%list_elem_of_fmap]; eauto.
Qed.

Lemma visible_user_block r : transcript_visible_message (user_block r) = negb (is_context (user_kind (message r))).
Proof. cbn. by destruct (user_kind _). Qed.

Lemma ok_adoption w db : inbox_ok db → inbox_ok (after_adoption w db).
Proof.
  intros Hok. pose proof Hok as [H1 H2 H3 H4 H5 H6 H7 H8].
  destruct (tables_adoption w db) as (Hc & Hn & Ht & _).
  split; rewrite ?Hc, ?Hn, ?Ht; try done.
  - unfold after_adoption. cbn. destruct (adopted_fields (List.filter (below w) (pending db)) db) as (-> & _).
    by apply StronglySorted_map_filter.
  - intros r [Hr _]%elem_of_above. auto.
  - by rewrite all_ids_adoption.
  - intros r [Hr _]%elem_of_above. auto.
  - intros id. rewrite H5. split.
    + intros [(r & Hr & Hi & Hk)|(m & Hm & Hmi)].
      * destruct (adoption_moves w r db Hr) as [?|Hl]; [left; eauto|right].
        exists (user_block r). rewrite visible_user_block, Hk. cbn. by rewrite H4.
      * right. exists m. by rewrite ledger_adoption, elem_of_app; eauto.
    + intros [(r & [Hr _]%elem_of_above & ?)|(m & [Hm|(r & Hr & ->)]%adopted_from & Hi & Hv)];
        [left; eauto|right; eauto|left].
      exists r. rewrite visible_user_block, negb_true_iff in Hv. split_and!; [done| |done].
      by rewrite <-Hi, <-H4.
  - intros x Hx. destruct (H6 x Hx) as [(r & Hr & Hi & Hs & Hrc)|(u & Hu & ?)].
    + destruct (adoption_moves w r db Hr) as [?|Hl]; [left; eauto|right].
      exists (message r). split; [done|]. by rewrite H4.
    + right. exists u. by rewrite ledger_adoption, elem_of_app; eauto.
  - intros r c [Hr _]%elem_of_above. auto.
Qed.

(** *** The effect of a transaction *)

(** The rounds the Journal admits: Goal, number and trigger. *)
Definition journal_rounds (db : InboxDb) : list (str * N * MessageId) :=
  omap (λ f, match f with
    | JGoal (RoundAdmitted _ current n id) => Some (goal_id current, n, id)
    | _ => None
    end) (journal db).

(** The continuation triggers, pending or in the Ledger. *)
Definition trigger_of (m : MessageBlock) : option MessageId :=
  match m with User u => if is_continuation (user_kind u) then Some (user_id u) else None | _ => None end.

Definition continuation_ids (db : InboxDb) : list MessageId :=
  omap (trigger_of ∘ user_block) (pending db) ++ omap trigger_of (message_ledger db).

(** The items a human may still edit or remove. *)
Definition editable (r : PendingRow) : Prop :=
  user_source (message r) = Human ∧ user_kind (message r) = KMessage ∧ correlation r = None.

Inductive effect (accepts : InboundDraft → Prop) (db db' : InboxDb) : Prop :=
| effect_same : same_tables db db' → journal_rounds db' = journal_rounds db → effect accepts db db'
| effect_accept d a db1 :
    accepts d →
    fresh d a db db1 → same_tables db1 db' →
    map snd (journal_rounds db') = map snd (journal_rounds db) ++
      (if is_continuation (d_kind d) then [a_message_id a] else []) → effect accepts db db'
| effect_append m :
    appended m db db' → trigger_of m = None → effect accepts db db'
| effect_adopt w :
    same_tables (after_adoption w db) db' → journal_rounds db' = journal_rounds db → effect accepts db db'
| effect_edit r n m :
    r ∈ pending db → editable r → user_id m = user_id (message r) → user_kind m = KMessage →
    db' = set_pending (map (λ x, if (sequence x =? sequence r)%N
      then {| sequence := sequence x; row_id := row_id x; message := m;
              correlation := correlation x; row_revision := n |} else x)) db → effect accepts db db'
| effect_remove r :
    r ∈ pending db → editable r →
    db' = set_transcript (next_transcript_position db) (delete (MESSAGE, row_id r))
      (set_pending (List.filter (λ x, negb (sequence x =? sequence r)%N)) db) → effect accepts db db'.

Lemma same_refl db : same_tables db db.
Proof. done. Qed.

Lemma same_trans db1 db2 db3 : same_tables db1 db2 → same_tables db2 db3 → same_tables db1 db3.
Proof.
  intros (H1 & H2 & H3 & H4 & H5) (K1 & K2 & K3 & K4 & K5).
  split_and!; [congruence..|]. intros id. by rewrite K5, H5.
Qed.

Lemma persist_event_ok f db db' :
  persist_event f db = Ok db' →
  same_tables db db' ∧ goal_state db' = goal_state db ∧ journal db' = journal db ++ [f].
Proof. unfold persist_event. by intros (n & _ & [= <-])%bind_ok. Qed.

Lemma rounds_app db db' fs :
  journal db' = journal db ++ fs →
  journal_rounds db' = journal_rounds db ++ omap (λ f, match f with
    | JGoal (RoundAdmitted _ current n id) => Some (goal_id current, n, id)
    | _ => None
    end) fs.
Proof. unfold journal_rounds. intros ->. apply omap_app. Qed.

Lemma accept_effect (P : InboundDraft → Prop) d db a db' :
  inbox_ok db → P d → is_continuation (d_kind d) = false →
  accept_scheduled_inbound_tx d db = Ok (a, db') →
  effect P db db' ∧ goal_state db' = goal_state db ∧ journal db' = journal db.
Proof.
  intros Hok HP Hk H. apply accept_cases in H as [(c & x & _ & _ & _ & ->)|Hf]; [| |done].
  { split_and!; try done. by apply effect_same. }
  destruct (fresh_goal _ _ _ _ Hf) as (Hg & Hj & _). split_and!; [|done..].
  apply (effect_accept _ db db' d a db'); [done..|]. unfold journal_rounds. by rewrite Hk, Hj, app_nil_r.
Qed.

Lemma accept_retry_retried d x db a : accept_retry d x db = Ok a → retried a = true.
Proof.
  unfold accept_retry. intros (m & _ & (u & _ & (p & _ & [= <-])%bind_ok)%bind_ok)%bind_ok. done.
Qed.

Lemma round_cases e d db a db' :
  inbox_ok db → accept_goal_round e d db = Ok (a, db') →
  db' = db ∨ ∃ g acc n db1,
    a = Some acc ∧ goal_state db = Some g ∧ reference g = e ∧ phase g = Active ∧
    (autonomous_rounds_consumed g < autonomous_round_budget g)%N ∧ pending db = [] ∧
    d_kind d = GoalContinuation e ∧ claims_scheduler (d_correlation d) = false ∧ fresh d acc db db1 ∧ same_tables db1 db' ∧
    n = (Goal.revision e + 1)%N ∧ (n <= u64_max)%N ∧
    goal_state db' = Some (consume_round (a_message_id acc) n g) ∧
    journal db' = journal db ++ [JGoal (RoundAdmitted e
      {| goal_id := goal_id e; revision := n |} (autonomous_rounds_consumed g + 1) (a_message_id acc))].
Proof.
  intros Hok. unfold accept_goal_round. destruct (goal_state db) as [g|] eqn:Eg; [|by intros [= <- <-]; left].
  destruct (_ || _) eqn:E1; [by intros [= <- <-]; left|].
  destruct (negb (bool_decide (pending db = []))) eqn:E2; [by intros [= <- <-]; left|].
  apply orb_false_iff in E1 as [[E1 E3]%orb_false_iff E4%N.leb_gt].
  rewrite negb_false_iff, bool_decide_eq_true in E1, E2, E3.
  intros (u & Hd%guard_err_ok & H)%bind_ok. apply bind_ok in H as ([acc db1] & Ha & H).
  apply bind_ok in H as (u' & Hret%guard_err_ok & H).
  apply bind_ok in H as (n & [-> Hn]%ok_or_ok%u64_checked_add_Some & H).
  apply bind_ok in H as (db2 & (Hs & Hg & Hj)%persist_event_ok & H). injection H as <- <-.
  apply orb_false_iff in Hd as [_ Hd]. rewrite negb_false_iff, bool_decide_eq_true in Hd.
  unfold accept_inbound_tx in Ha. apply bind_ok in Ha as (u2 & [Hc _]%guard_err_ok%orb_false_iff & Ha).
  apply accept_cases in Ha as [(c & x & _ & _ & Hr & _)|Hf]; [| |done].
  { by rewrite (accept_retry_retried _ _ _ _ Hr) in Hret. }
  right. destruct (fresh_goal _ _ _ _ Hf) as (_ & Hj1 & _). subst e.
  exists g, acc, (Goal.revision (reference g) + 1)%N, db1. split_and!; try done.
  by rewrite Hj; cbn; rewrite Hj1.
Qed.

Lemma find_sequence s db r :
  find_first (λ r, (sequence r =? s)%N) (pending db) = Some r → r ∈ pending db ∧ sequence r = s.
Proof. intros [Hin Hs%N.eqb_eq]%find_first_Some. done. Qed.

Lemma mutate_cases P e text db o db' : mutate_pending e text db = Ok (o, db') → effect P db db'.
Proof.
  unfold mutate_pending. destruct (find_first _ (pending db)) as [r|] eqn:Ef;
    [|intros [= <- <-]; by apply effect_same].
  apply find_sequence in Ef as [Hr _].
  destruct (negb (row_revision r =? _)%N); [intros [= <- <-]; by apply effect_same|].
  intros (u & _ & H)%bind_ok. destruct (_ || _) eqn:Ee in H; [injection H as <- <-; by apply effect_same|].
  apply orb_false_iff in Ee as [[E1 E2]%orb_false_iff E3].
  rewrite negb_false_iff, bool_decide_eq_true in E1, E2. apply bool_decide_eq_false in E3.
  assert (He : editable r) by (split_and!; [done..|]; destruct (correlation r); [by destruct E3; eexists|done]).
  destruct text as [text|].
  - destruct (_ || _); [injection H as <- <-; by apply effect_same|].
    apply bind_ok in H as (db1 & (n & _ & [= <-])%bind_ok & H). injection H as <- <-.
    eapply (effect_edit _ _ _ r n); [done|done| | |reflexivity]; [done|apply E2].
  - injection H as <- <-. by apply (effect_remove _ _ _ r).
Qed.

(** Every transaction is one of the effects; only the scheduler's accept its correlations. *)
Definition not_scheduler (d : InboundDraft) : Prop := claims_scheduler (d_correlation d) = false.

Lemma native_effect db db' : inbox_ok db → native_step db db' → effect not_scheduler db db'.
Proof.
  intros Hok. destruct 1 as [d a db db' H|w r db db' H|e d a db db' H|n attempt items db db' H
    |e text o db db' H|m c db db' Hm H|ids db|kind id p db db' Hne H].
  - unfold accept_inbound in H. apply bind_ok in H as (u & Hk%guard_err_ok & H).
    apply bind_ok in H as (u' & [Hn _]%guard_err_ok%orb_false_iff & H). by apply (accept_effect _ d db a).
  - unfold write_goal in H. destruct (transition _ w) as [g|rej]; [|by injection H as <- <-; apply effect_same].
    apply bind_ok in H as (db1 & (Hs & _ & Hj)%persist_event_ok & H). injection H as <- <-.
    apply effect_same; [done|]. rewrite (rounds_app (set_goal g db) _ _ Hj). by rewrite app_nil_r.
  - apply round_cases in H as [->|(g & acc & n & db1 & _ & _ & _ & _ & _ & _ & Hd & Hn & Hf & Hs & _ & _ & _ & Hj)];
      [by apply effect_same| |done].
    apply (effect_accept _ db db' d acc db1); [done..|]. rewrite (rounds_app _ _ _ Hj), Hd, map_app. done.
  - rewrite adopt_pending_batch_ok in H by done. cbn zeta in H.
    destruct (fits _ db); [|done]. apply bind_ok in H as (u & _ & (db1 & H1 & H)%bind_ok). injection H as <- <-.
    destruct (tables_adoption n db) as (_ & _ & _ & _ & Hj & _).
    destruct (bool_decide _) in H1.
    + injection H1 as <-. apply (effect_adopt _ _ _ n); [done|]. unfold journal_rounds. by rewrite Hj.
    + apply persist_event_ok in H1 as (Hs & _ & Hj1). apply (effect_adopt _ _ _ n); [done|].
      rewrite (rounds_app _ _ _ Hj1), app_nil_r. unfold journal_rounds. by rewrite Hj.
  - by eapply mutate_cases.
  - apply append_cases in H; [|done]. apply (effect_append _ _ _ m); [done|].
    destruct m as [u| |]; cbn; [|done..]. by rewrite (Hm u).
  - by apply effect_same.
  - apply append_transcript_cases in H as [[_ ->]|[_ ->]]; apply effect_same; try done.
    split_and!; try done. intros i. cbn. by rewrite lookup_insert_ne by congruence.
Qed.

Lemma effect_mono (P Q : InboundDraft → Prop) db db' : (∀ d, P d → Q d) → effect P db db' → effect Q db db'.
Proof. intros HPQ. destruct 1; [econstructor 1|econstructor 2|econstructor 3|econstructor 4|econstructor 5|econstructor 6]; eauto. Qed.

Lemma step_effect db db' : inbox_ok db → inbox_step db db' → effect (λ _, True) db db'.
Proof.
  intros Hok. destruct 1 as [db0 db0' H|d a db0 db0' Hk H].
  - apply (effect_mono not_scheduler); [done|]. by apply native_effect.
  - by apply (accept_effect (λ _, True) d db0 a).
Qed.

Lemma effect_ok P db db' : inbox_ok db → effect P db db' → inbox_ok db'.
Proof.
  intros Hok [Hs _|d a db1 _ Hf Hs _|m Ha _|w Hs _|r n m Hr He Hi Hk ->|r Hr He ->].
  - by apply (ok_same db).
  - apply (ok_same db1); [done|]. by apply (ok_fresh d a db).
  - by apply (ok_appended m db).
  - apply (ok_same (after_adoption w db)); [done|]. by apply ok_adoption.
  - apply ok_pending_map; [|done]. intros x Hx. destruct (N.eqb_spec (sequence x) (sequence r)) as [E|]; [|done].
    apply (sequence_inj db) in E; [|done..]. subst x. cbn. rewrite Hk. by destruct He as (_ & -> & _).
  - apply ok_removed; [done| |done]. apply He.
Qed.

Lemma ok_start c : inbox_ok (inbox_start c).
Proof.
  assert (Hno : ∀ A (x : A), x ∉ []) by (intros; apply not_elem_of_nil).
  split; cbn.
  - constructor.
  - by intros r ?%Hno.
  - constructor.
  - by intros r ?%Hno.
  - intros id. split; [by intros []|]. by intros [(r & ?%Hno & _)|(m & ?%Hno & _)].
  - by intros x ?%Hno.
  - by intros r c0 ?%Hno.
  - constructor.
Qed.

(** The scheduler's correlations, accepted and pending. *)
Definition scheduled_correlations (db : InboxDb) : list Correlation :=
  List.filter is_scheduler (map c_correlation (correlations db)).

Definition scheduled_pending (db : InboxDb) : list Correlation :=
  List.filter is_scheduler (omap correlation (pending db)).

Lemma scheduled_pending_accepted db :
  inbox_ok db → scheduled_pending db ⊆ scheduled_correlations db.
Proof.
  intros Hok c. unfold scheduled_pending, scheduled_correlations.
  rewrite !list_elem_of_In, !filter_In, <-!list_elem_of_In, list_elem_of_omap. intros [(r & Hr & Hc) Hs].
  split; [|done]. apply (ok_correlated db Hok r c Hr) in Hc. apply list_elem_of_fmap. eexists. split; [|exact Hc]. done.
Qed.

Lemma fresh_scheduled d a db db' : fresh d a db db' →
  let cs := match d_correlation d with Some c => if is_scheduler c then [c] else [] | None => [] end in
  scheduled_correlations db' = scheduled_correlations db ++ cs ∧
  scheduled_pending db' = scheduled_pending db ++ cs.
Proof.
  intros []. unfold scheduled_correlations, scheduled_pending.
  rewrite fresh_correlations0, fresh_pending0, map_app, omap_app, !List.filter_app.
  destruct (d_correlation d) as [c|]; cbn; [|done]. by destruct (is_scheduler c).
Qed.

(** Other transactions leave them, but for delivery. *)
Lemma effect_scheduled db db' :
  inbox_ok db → effect not_scheduler db db' →
  scheduled_correlations db' = scheduled_correlations db ∧
  scheduled_pending db' `sublist_of` scheduled_pending db.
Proof.
  intros Hok. unfold scheduled_correlations, scheduled_pending.
  assert (Hsub : ∀ p, List.filter is_scheduler (omap correlation (List.filter p (pending db))) `sublist_of`
    List.filter is_scheduler (omap correlation (pending db))).
  { intros p. apply sublist_List_filter_mono, sublist_omap, sublist_List_filter. }
  intros [Hs _|d a db1 Hd Hf Hs _|m Ha _|w Hs _|r n m _ _ _ _ ->|r _ _ ->].
  - by destruct Hs as (-> & _ & -> & _).
  - destruct Hs as (Hp & _ & Hc & _). rewrite Hp, Hc. destruct (fresh_scheduled _ _ _ _ Hf) as [H1 H2].
    unfold not_scheduler, claims_scheduler in Hd. unfold scheduled_correlations, scheduled_pending in *.
    rewrite H1, H2. destruct (d_correlation d) as [c|]; [rewrite Hd|]; by rewrite !app_nil_r.
  - by destruct Ha as (_ & -> & _ & -> & _).
  - destruct Hs as (-> & _ & -> & _). destruct (tables_adoption w db) as (-> & _). split; [done|].
    unfold after_adoption. cbn. destruct (adopted_fields (List.filter (below w) (pending db)) db) as (-> & _). apply Hsub.
  - split; [done|]. cbn. rewrite omap_map_compose. erewrite omap_ext_in; [done|].
    intros x _. cbn. by destruct (_ =? _)%N.
  - split; [done|]. apply Hsub.
Qed.

(** The conversation of a store is fixed. *)
Lemma accept_conversation d db a db' :
  accept_scheduled_inbound_tx d db = Ok (a, db') → conversation_id db' = conversation_id db.
Proof.
  unfold accept_scheduled_inbound_tx. intros (u & _ & H)%bind_ok.
  destruct (_ ≫= _ : option _) as [x|] in H; [by apply bind_ok in H as (a' & _ & [= _ <-])|].
  apply bind_ok in H as (n & _ & H). apply bind_ok in H as (u1 & _ & (u2 & _ & H)%bind_ok).
  apply bind_ok in H as ([cur db1] & H1 & H). injection H as _ <-.
  destruct (is_context _) in H1; [by injection H1 as _ <-|].
  apply bind_ok in H1 as ([p db2] & Hp & H1). injection H1 as _ <-.
  by apply append_transcript_cases in Hp as [[_ ->]|[_ ->]].
Qed.

Lemma persist_conversation f db db' : persist_event f db = Ok db' → conversation_id db' = conversation_id db.
Proof. unfold persist_event. by intros (n & _ & [= <-])%bind_ok. Qed.

Lemma append_conversation m allowed db c db' :
  append m allowed db = Ok (c, db') → conversation_id db' = conversation_id db.
Proof.
  unfold append, append_message_ledger. intros (u & _ & H)%bind_ok.
  apply bind_ok in H as (u1 & _ & (u2 & _ & H)%bind_ok).
  destruct (transcript_visible_message m); [|by injection H as _ <-].
  apply bind_ok in H as ([p db1] & Hp & H). injection H as _ <-.
  by apply append_transcript_cases in Hp as [[_ ->]|[_ ->]].
Qed.

Lemma adopt_items_conversation items db db' :
  adopt_items items db = Ok db' → conversation_id db' = conversation_id db.
Proof.
  revert db. induction items as [|[r cur] items IH]; intros db; cbn; [by intros [= <-]|].
  intros ([c db1] & Ha & (u & _ & H)%bind_ok)%bind_ok. apply IH in H as ->. by eapply append_conversation.
Qed.

Lemma round_conversation e d db a db' :
  accept_goal_round e d db = Ok (a, db') → conversation_id db' = conversation_id db.
Proof.
  unfold accept_goal_round. destruct (goal_state db) as [g|]; [|by intros [= _ <-]].
  destruct (_ || _); [by intros [= _ <-]|]. destruct (negb _); [by intros [= _ <-]|].
  intros (u & _ & H)%bind_ok. apply bind_ok in H as ([acc db1] & Ha & H).
  apply bind_ok in H as (u' & _ & (n & _ & (db2 & Hp & H)%bind_ok)%bind_ok). injection H as _ <-.
  apply persist_conversation in Hp as ->. unfold accept_inbound_tx in Ha.
  apply bind_ok in Ha as (u2 & _ & Ha). by apply accept_conversation in Ha.
Qed.

Lemma native_conversation db db' : native_step db db' → conversation_id db' = conversation_id db.
Proof.
  destruct 1 as [d a db db' H|w r db db' H|e d a db db' H|n attempt items db db' H
    |e text o db db' H|m c db db' Hm H|ids db|kind id p db db' Hne H].
  - unfold accept_inbound, accept_inbound_tx in H. apply bind_ok in H as (u & _ & (u1 & _ & H)%bind_ok).
    by apply accept_conversation in H.
  - unfold write_goal in H. destruct (transition _ w); [|by injection H as _ <-].
    apply bind_ok in H as (db1 & Hp & H). injection H as _ <-. by apply persist_conversation in Hp.
  - by apply round_conversation in H.
  - unfold adopt_pending_batch in H. apply bind_ok in H as (rows & _ & H).
    apply bind_ok in H as (db1 & Ha%adopt_items_conversation & (u & _ & H)%bind_ok).
    apply bind_ok in H as (db2 & H2 & H). injection H as _ <-.
    destruct (bool_decide _) in H2; [injection H2 as <-|apply persist_conversation in H2]; by rewrite <-Ha.
  - unfold mutate_pending in H. destruct (find_first _ _) as [r|]; [|by injection H as _ <-].
    destruct (negb (row_revision r =? _)%N); [by injection H as _ <-|].
    apply bind_ok in H as (u & _ & H). destruct (_ || _) in H; [by injection H as _ <-|].
    destruct text; [destruct (_ || _)|]; try by injection H as _ <-.
    apply bind_ok in H as (db1 & (n & _ & [= <-])%bind_ok & H). by injection H as _ <-.
  - by apply append_conversation in H.
  - done.
  - by apply append_transcript_cases in H as [[_ ->]|[_ ->]].
Qed.

Definition reachable (c : str) (db : InboxDb) : Prop := rtc inbox_step (inbox_start c) db.

Lemma steps_ok db db' : inbox_ok db → rtc inbox_step db db' → inbox_ok db'.
Proof. intros Hok H. apply (rtc_invariant inbox_step inbox_ok db db'); eauto using effect_ok, step_effect. Qed.

Lemma inbox_reachable_ok c db : reachable c db → inbox_ok db.
Proof. apply steps_ok, ok_start. Qed.

(** *** An accepted item *)

Lemma elem_of_all_ids db i :
  i ∈ all_ids db ↔ (∃ r, r ∈ pending db ∧ row_id r = i) ∨ (∃ m, m ∈ message_ledger db ∧ message_id_of m = i).
Proof.
  unfold all_ids. rewrite elem_of_app, !list_elem_of_fmap. naive_solver.
Qed.

(** The item [r] is pending, or its message is in the Ledger; its transcript position is [p]. *)
Record held (r : PendingRow) (p : option N) (db : InboxDb) : Prop := {
  held_body : r ∈ pending db ∨ user_block r ∈ message_ledger db;
  held_id : user_id (message r) = row_id r;
  held_position : transcript_order db !! (MESSAGE, row_id r) = p;
}.

Lemma held_all_ids r p db : held r p db → row_id r ∈ all_ids db.
Proof. intros [[Hr|Hm] Hi _]; rewrite elem_of_all_ids; [left|right]; eauto. Qed.

(** Nothing but an edit or a removal by its author loses it. *)
Lemma effect_held P r p db db' :
  inbox_ok db → effect P db db' → ¬ editable r → held r p db → held r p db'.
Proof.
  intros Hok He Hne Hh. pose proof (held_all_ids _ _ _ Hh) as Hid. destruct Hh as [Hb Hi Hp].
  destruct He as [Hs _|d a db1 _ Hf Hs _|m Ha _|w Hs _|r' n m Hr He Hm Hk ->|r' Hr He ->].
  - destruct Hs as (Hpn & Hl & _ & _ & Ht). by split; rewrite ?Hpn, ?Hl, ?Ht.
  - destruct Hs as (Hpn & Hl & _ & _ & Ht). destruct Hf.
    split; rewrite ?Hpn, ?Hl, ?Ht; [|done|].
    + rewrite fresh_pending0, fresh_ledger0, elem_of_app. naive_solver.
    + rewrite fresh_transcript0; [done|]. intros [= E]. by rewrite E in Hid.
  - destruct Ha as (Hnew & Hpn & Hl & _ & _ & _ & _ & _ & Ht).
    split; rewrite ?Hpn, ?Hl; [rewrite elem_of_app; naive_solver|done|].
    rewrite Ht; [done|]. intros [= E]. by rewrite E in Hid.
  - destruct Hs as (Hpn & Hl & _ & _ & Ht). destruct (tables_adoption w db) as (_ & _ & Ht' & _).
    split; rewrite ?Hpn, ?Hl, ?Ht, ?Ht'; [|done..].
    destruct Hb as [Hr|Hm]; [by apply adoption_moves|right]. rewrite ledger_adoption, elem_of_app. by left.
  - split; [|done..]. cbn. destruct Hb as [Hb|Hb]; [left|by right].
    apply list_elem_of_fmap. exists r. split; [|done].
    destruct (N.eqb_spec (sequence r) (sequence r')) as [E|]; [|done].
    apply (sequence_inj db) in E; [|done..]. by subst.
  - assert (Hrr : row_id r ≠ row_id r').
    { intros E. pose proof (ok_ids db Hok) as (Hnd & Hdis & _)%NoDup_app. destruct Hb as [Hb|Hb].
      - apply (NoDup_map_inj row_id (pending db)) in E; [|done..]. by subst.
      - destruct (Hdis (row_id r)); [rewrite E; apply list_elem_of_fmap; eauto|].
        apply list_elem_of_fmap. exists (user_block r). split; [by rewrite <-Hi|done]. }
    split; [|done|by cbn; rewrite lookup_delete_ne by congruence].
    destruct Hb as [Hb|Hb]; [left|by right]. cbn.
    apply list_elem_of_In, filter_In. split; [by apply list_elem_of_In|].
    apply negb_true_iff, N.eqb_neq. intros E. apply (sequence_inj db) in E; [|done..]. by subst.
Qed.

Lemma effect_correlations P db db' : effect P db db' → correlations db ⊆ correlations db'.
Proof.
  intros [Hs _|d a db1 _ Hf Hs _|m Ha _|w Hs _|r' n m _ _ _ _ ->|r' _ _ ->]; try done.
  - by destruct Hs as (_ & _ & -> & _).
  - destruct Hs as (_ & _ & -> & _). rewrite (fresh_correlations _ _ _ _ Hf). set_solver.
  - by destruct Ha as (_ & _ & _ & -> & _).
  - destruct Hs as (_ & _ & -> & _). by destruct (tables_adoption w db) as (-> & _).
Qed.

Lemma steps_held r p db db' :
  inbox_ok db → rtc inbox_step db db' → ¬ editable r → held r p db →
  held r p db' ∧ correlations db ⊆ correlations db'.
Proof.
  intros Hok H Hne. revert Hok. induction H as [|db db1 db2 Hs H IH]; intros Hok Hh; [done|].
  pose proof (step_effect _ _ Hok Hs) as He.
  destruct IH as [IH1 IH2]; [by eapply effect_ok|by eapply effect_held|].
  split; [done|]. etrans; [by eapply effect_correlations|done].
Qed.

(** The row an acceptance stands for. *)
Definition accepted_row (d : InboundDraft) (a : AcceptedInbound) : PendingRow :=
  {| sequence := a_sequence a; row_id := a_message_id a; message := a_message a;
     correlation := d_correlation d; row_revision := 0 |}.

Lemma correlated_of x db :
  inbox_ok db → x ∈ correlations db → correlated (c_correlation x) db = Some x.
Proof.
  intros Hok Hx. unfold correlated. destruct (find_first _ (correlations db)) as [y|] eqn:E.
  - apply find_first_Some in E as [Hy Hk%bool_decide_eq_true]. f_equal.
    apply (NoDup_map_inj c_correlation (correlations db)); [apply Hok|done..].
  - rewrite find_first_None in E. specialize (E x Hx). by apply bool_decide_eq_false in E.
Qed.

Lemma held_load r p db : inbox_ok db → held r p db →
  load_correlated_user_message (row_id r) db = Ok (message r).
Proof.
  intros Hok [Hb Hi _]. unfold load_correlated_user_message. pose proof (ok_ids db Hok) as Hnd.
  destruct Hb as [Hb|Hb].
  - rewrite (proj2 (pending_with_Some (row_id r) db r Hnd)) by done.
    rewrite Hi, bool_decide_eq_true_2 by done. done.
  - assert (Hl : ledger_with (row_id r) db = Some (user_block r)) by by apply ledger_with_Some.
    assert (Hp : pending_with (row_id r) db = None).
    { apply pending_with_None. intros Hin. apply NoDup_app in Hnd as (_ & Hdis & _).
      apply (Hdis _ Hin), list_elem_of_fmap. by exists (user_block r). }
    rewrite Hp, Hl. unfold user_block. simpl. rewrite Hi, bool_decide_eq_true_2 by done. done.
Qed.

(** The acceptance a retry reports. *)
Definition again (a : AcceptedInbound) : AcceptedInbound :=
  {| a_sequence := a_sequence a; a_message_id := a_message_id a; a_message := a_message a;
     a_cursor := a_cursor a; retried := true |}.

Lemma retry_of x m p db a d :
  inbox_ok db → a_message_id a = c_id x → a_sequence a = c_sequence x → a_message a = m → a_cursor a = p →
  held {| sequence := c_sequence x; row_id := c_id x; message := m;
          correlation := Some (c_correlation x); row_revision := 0 |} p db →
  (is_Some p ↔ is_context (user_kind m) = false) →
  accept_retry d x db =
    if same_draft d (c_id x) m then Ok (again a) else Err (CorrelationConflict (c_correlation x)).
Proof.
  intros Hok Hai Has Ham Hac Hh Hp. unfold accept_retry.
  pose proof (held_load _ _ _ Hok Hh) as Hl. cbn [row_id message] in Hl. rewrite Hl. simpl.
  destruct (same_draft d (c_id x) m); [|done]. simpl.
  pose proof (held_position _ _ _ Hh) as Ht. cbn [row_id] in Ht. unfold load_transcript_reference.
  rewrite Ht. unfold again. rewrite Hai, Has, Ham, Hac.
  destruct (is_context (user_kind m)), p; simpl; try done.
  - assert (true = false) by (apply Hp; eauto). done.
  - assert (@is_Some N None) as [] by by apply Hp. done.
Qed.

Lemma fresh_held d a db db1 :
  inbox_ok db → fresh d a db db1 → held (accepted_row d a) (a_cursor a) db1.
Proof.
  intros Hok []. split; cbn; [|by rewrite fresh_message0|by rewrite fresh_cursor0].
  left. rewrite fresh_pending0, elem_of_app, list_elem_of_singleton. by right.
Qed.

Lemma accept_content d db a db1 :
  accept_scheduled_inbound_tx d db = Ok (a, db1) → d_content d ≠ [].
Proof. intros (u & Hn%guard_err_ok & _)%bind_ok. by apply bool_decide_eq_false in Hn. Qed.

Lemma accept_fresh d db a db1 :
  inbox_ok db → accept_scheduled_inbound_tx d db = Ok (a, db1) → retried a = false → fresh d a db db1.
Proof.
  intros Hok H Hr. apply accept_cases in H as [(c & x & _ & _ & Ha & _)|?]; [|done..].
  by rewrite (accept_retry_retried _ _ _ _ Ha) in Hr.
Qed.

(** C14 Acceptance is exactly once per correlation: once a draft was accepted under a
    correlation, in every state the store reaches afterwards — adopted or not, whatever was
    accepted, edited, removed or appended in between — the same draft gets the same sequence,
    message and transcript position back without a write, and a different draft under that
    correlation is refused as a conflict. *)
Theorem correlated_exactly_once c db d a db1 db2 k d' :
  reachable c db → accept_scheduled_inbound_tx d db = Ok (a, db1) → retried a = false →
  d_correlation d = Some k → rtc inbox_step db1 db2 →
  d_correlation d' = Some k → d_content d' ≠ [] →
  same_draft d (a_message_id a) (a_message a) = true ∧
  accept_scheduled_inbound_tx d' db2 =
    if same_draft d' (a_message_id a) (a_message a) then Ok (again a, db2)
    else Err (CorrelationConflict k).
Proof.
  intros Hok%inbox_reachable_ok Ha Hr Hk Hs Hk' Hc'. pose proof (accept_fresh _ _ _ _ Hok Ha Hr) as Hf.
  pose proof (ok_fresh _ _ _ _ Hok Hf) as Hok1. pose proof (steps_ok _ _ Hok1 Hs) as Hok2.
  destruct (steps_held (accepted_row d a) (a_cursor a) db1 db2 Hok1 Hs) as [Hh Hcor];
    [by intros (_ & _ & ?); cbn in *; congruence|by apply (fresh_held d a db)|].
  set (x := {| c_correlation := k; c_sequence := a_sequence a; c_id := a_message_id a |}).
  assert (Hx : x ∈ correlations db2).
  { apply Hcor. rewrite (fresh_correlations _ _ _ _ Hf), Hk. set_solver. }
  apply (correlated_of x db2 Hok2) in Hx. cbn in Hx. split.
  - rewrite (fresh_message _ _ _ _ Hf). unfold same_draft. cbn. rewrite !andb_true_iff, !bool_decide_eq_true.
    split_and!; [|done..]. destruct (d_message_id d) eqn:Ed; [|done]. apply bool_decide_eq_true.
    by rewrite (fresh_id _ _ _ _ Hf), Ed.
  - unfold accept_scheduled_inbound_tx. rewrite (bool_decide_eq_false_2 (d_content d' = [])) by done. simpl.
    rewrite Hk'. simpl. rewrite Hx. rewrite (retry_of x (a_message a) (a_cursor a) db2 a); try done.
    + cbn. by destruct (same_draft d' _ _).
    + unfold accepted_row in Hh. by rewrite Hk in Hh.
    + rewrite (fresh_visible _ _ _ _ Hf), (fresh_message _ _ _ _ Hf). done.
Qed.


(** C16 No accepted work is lost or doubled: an accepted item other than an editable human
    message stays, in every later state, either pending or in the Ledger and never both, with
    the message, identity and transcript position of its acceptance. *)
Theorem accepted_item_kept c db d a db1 db2 :
  reachable c db → accept_scheduled_inbound_tx d db = Ok (a, db1) → retried a = false →
  ¬ editable (accepted_row d a) → rtc inbox_step db1 db2 →
  (accepted_row d a ∈ pending db2 ∧ ¬ (∃ m, m ∈ message_ledger db2 ∧ message_id_of m = a_message_id a) ∨
   User (a_message a) ∈ message_ledger db2 ∧ ¬ (∃ r, r ∈ pending db2 ∧ row_id r = a_message_id a)) ∧
  NoDup (map row_id (pending db2)) ∧ NoDup (map message_id_of (message_ledger db2)) ∧
  load_transcript_reference MESSAGE (a_message_id a) db2 = a_cursor a.
Proof.
  intros Hok%inbox_reachable_ok Ha Hr Hne Hs. pose proof (accept_fresh _ _ _ _ Hok Ha Hr) as Hf.
  pose proof (ok_fresh _ _ _ _ Hok Hf) as Hok1. pose proof (steps_ok _ _ Hok1 Hs) as Hok2.
  destruct (steps_held (accepted_row d a) (a_cursor a) db1 db2 Hok1 Hs Hne) as [[Hb Hi Hp] _];
    [by apply (fresh_held d a db)|].
  pose proof (ok_ids _ Hok2) as (Hn1 & Hdis & Hn2)%NoDup_app. split_and!; try done.
  assert (Hboth : ∀ r m, r ∈ pending db2 → row_id r = a_message_id a → m ∈ message_ledger db2 →
    message_id_of m = a_message_id a → False).
  { intros r m Hr' Hri Hm Hmi. apply (Hdis (a_message_id a)); apply list_elem_of_fmap; eauto. }
  destruct Hb as [Hb|Hb]; [left|right]; (split; [done|]).
  - intros (m & Hm & Hmi). by apply (Hboth (accepted_row d a) m).
  - intros (r & Hr' & Hri). by apply (Hboth r (user_block (accepted_row d a))).
Qed.

(** *** Goal accounting *)

Lemma step_goal db db' :
  inbox_ok db → inbox_step db db' →
  goal_state db' = goal_state db ∧ journal_rounds db' = journal_rounds db ∨
  (∃ w g, transition (goal_state db) w = Ok g ∧ goal_state db' = Some g ∧
     journal_rounds db' = journal_rounds db) ∨
  (∃ g id, goal_state db = Some g ∧ (autonomous_rounds_consumed g < autonomous_round_budget g)%N ∧
     (Goal.revision (reference g) + 1 <= u64_max)%N ∧
     goal_state db' = Some (consume_round id (Goal.revision (reference g) + 1) g) ∧
     journal_rounds db' = journal_rounds db ++
       [(goal_id (reference g), (autonomous_rounds_consumed g + 1)%N, id)]).
Proof.
  intros Hok. assert (Hsame : ∀ db1, goal_state db1 = goal_state db ∧ journal db1 = journal db →
    goal_state db1 = goal_state db ∧ journal_rounds db1 = journal_rounds db)
    by (intros db1 [? Hj]; split; [done|]; unfold journal_rounds; by rewrite Hj).
  destruct 1 as [db db' Hn|d a db db' Hk H];
    [|by left; apply Hsame; apply (accept_effect (λ _, True)) in H as [_ ?]].
  destruct Hn as [d a db db' H|w r db db' H|e d a db db' H|n attempt items db db' H
    |e text o db db' H|m c db db' Hm H|ids db|kind id p db db' Hne H].
  - left. unfold accept_inbound in H. apply bind_ok in H as (u & Hk%guard_err_ok & H).
    apply bind_ok in H as (u' & _ & H). by apply Hsame; apply (accept_effect (λ _, True)) in H as [_ ?].
  - unfold write_goal in H. destruct (transition _ w) as [g|rej] eqn:Ew; [|by injection H as <- <-; left].
    apply bind_ok in H as (db1 & (_ & Hg & Hj)%persist_event_ok & H). injection H as <- <-.
    right; left. exists w, g. split_and!; [done..|]. rewrite (rounds_app (set_goal g db) _ _ Hj). apply app_nil_r.
  - apply round_cases in H as [->|(g & acc & n & db1 & _ & Hg & <- & _ & Hb & _ & _ & _ & _ & _ & -> & Hn & Hg' & Hj)];
      [by left| |done].
    right; right. exists g, (a_message_id acc). split_and!; [done..|]. by rewrite (rounds_app _ _ _ Hj).
  - left. rewrite adopt_pending_batch_ok in H by done. cbn zeta in H.
    destruct (fits _ db); [|done]. apply bind_ok in H as (u & _ & (db1 & H1 & H)%bind_ok). injection H as <- <-.
    destruct (tables_adoption n db) as (_ & _ & _ & Hg & Hj & _). destruct (bool_decide _) in H1.
    + injection H1 as <-. by apply Hsame.
    + apply persist_event_ok in H1 as (_ & Hg1 & Hj1). split; [congruence|].
      rewrite (rounds_app _ _ _ Hj1), app_nil_r. unfold journal_rounds. by rewrite Hj.
  - left. apply Hsame. unfold mutate_pending in H.
    destruct (find_first _ _) as [r|]; [|by injection H as <- <-].
    destruct (negb (row_revision r =? _)%N); [by injection H as <- <-|].
    apply bind_ok in H as (u & _ & H). destruct (_ || _) in H; [by injection H as <- <-|].
    destruct text; [destruct (_ || _)|]; try by injection H as <- <-.
    apply bind_ok in H as (db1 & (n & _ & [= <-])%bind_ok & H). by injection H as <- <-.
  - left. apply append_cases in H as (_ & _ & _ & _ & _ & ? & ? & _); [|done]. by apply Hsame.
  - by left.
  - left. by apply append_transcript_cases in H as [[_ ->]|[_ ->]].
Qed.

Lemma effect_triggers P db db' :
  inbox_ok db → effect P db db' →
  ∃ ids, map snd (journal_rounds db') = map snd (journal_rounds db) ++ ids ∧
         continuation_ids db' ≡ₚ continuation_ids db ++ ids.
Proof.
  intros Hok [Hs Hj|d a db1 _ Hf Hs Hj|m Ha Hm|w Hs Hj|r n m Hr He Hm Hk ->|r Hr He ->].
  - exists []. rewrite Hj, !app_nil_r. unfold continuation_ids. by destruct Hs as (-> & -> & _).
  - eexists. split; [done|]. unfold continuation_ids. destruct Hs as (-> & -> & _).
    rewrite (fresh_pending _ _ _ _ Hf), (fresh_ledger _ _ _ _ Hf), omap_app. cbn.
    rewrite (fresh_message _ _ _ _ Hf). cbn. rewrite <-!(assoc_L (++)). f_equiv.
    destruct (is_continuation (d_kind d)); [|by rewrite app_nil_r]. apply Permutation_app_comm.
  - exists []. destruct Ha as (_ & Hp & Hl & _ & _ & _ & Hj & _).
    unfold continuation_ids, journal_rounds. by rewrite Hp, Hl, Hj, omap_app; cbn; rewrite Hm, !app_nil_r.
  - exists []. rewrite Hj, !app_nil_r. unfold continuation_ids. destruct Hs as (-> & -> & _).
    rewrite ledger_adoption, omap_app. unfold after_adoption. cbn.
    destruct (adopted_fields (List.filter (below w) (pending db)) db) as (-> & _).
    rewrite (Permutation_app_comm (omap trigger_of (message_ledger db))), (assoc_L (++)). split; [done|]. f_equiv.
    rewrite <-(Permutation_filter_split (below w) (pending db)) at 3.
    by rewrite omap_app, omap_map_compose.
  - exists []. rewrite !app_nil_r. split; [done|]. unfold continuation_ids. cbn. f_equiv.
    destruct He as (_ & Hrk & _). rewrite omap_map_compose. apply reflexive_eq, omap_ext_in. intros x Hx. cbn.
    destruct (N.eqb_spec (sequence x) (sequence r)) as [E|]; [|done].
    apply (sequence_inj db) in E; [|done..]. subst x. cbn. by rewrite Hk, Hrk.
  - exists []. rewrite !app_nil_r. split; [done|]. unfold continuation_ids. cbn. f_equiv.
    apply reflexive_eq, omap_filter_None. intros x Hx E%negb_false_iff%N.eqb_eq.
    apply (sequence_inj db) in E; [|done..]. subst x. cbn. by destruct He as (_ & -> & _).
Qed.

Lemma trigger_id m i : trigger_of m = Some i → message_id_of m = i.
Proof. destruct m as [u| |]; cbn; [|done..]. destruct (is_continuation _); [|done]. by intros [= ->]. Qed.

Lemma continuation_NoDup db : inbox_ok db → NoDup (continuation_ids db).
Proof.
  intros Hok. assert (Hsub : continuation_ids db `sublist_of`
    map (message_id_of ∘ user_block) (pending db) ++ map message_id_of (message_ledger db)).
  { unfold continuation_ids. apply sublist_app; [|by apply sublist_omap_map, trigger_id].
    apply sublist_omap_map. intros r i. cbn -[trigger_of]. apply trigger_id. }
  refine (sublist_NoDup _ _ _ Hsub). rewrite (map_ext_in _ row_id); [apply Hok|].
  intros r Hr%list_elem_of_In. by apply (ok_identity db Hok).
Qed.

(** The identity of the Goal created at revision [k]. *)
Definition goal_name (k : N) : str := lit "goal-" ++ dec k.

(** The rounds admitted for one Goal. *)
Definition rounds_of (i : str) (db : InboxDb) : list N :=
  omap (λ x, if bool_decide (x.1.1 = i) then Some x.1.2 else None) (journal_rounds db).

Record goal_accounts (db : InboxDb) : Prop := {
  accounts_known x : x ∈ journal_rounds db →
    ∃ k, x.1.1 = goal_name k ∧ (k <= current_revision (goal_state db))%N;
  accounts_current g : goal_state db = Some g → goal_ok g ∧
    (∃ k, goal_id (reference g) = goal_name k ∧ (k <= Goal.revision (reference g))%N) ∧
    rounds_of (goal_id (reference g)) db = count_to (autonomous_rounds_consumed g);
  accounts_triggers : continuation_ids db ≡ₚ map snd (journal_rounds db);
}.

Lemma rounds_of_none i db : (∀ x, x ∈ journal_rounds db → x.1.1 ≠ i) → rounds_of i db = [].
Proof.
  unfold rounds_of. induction (journal_rounds db) as [|x l IH]; intros H; cbn; [done|].
  rewrite bool_decide_eq_false_2 by (apply H; set_solver). apply IH. set_solver.
Qed.

Lemma step_accounts db db' : inbox_ok db → inbox_step db db' → goal_accounts db → goal_accounts db'.
Proof.
  intros Hok Hs [H1 H2 H3]. destruct (effect_triggers _ db db' Hok (step_effect _ _ Hok Hs)) as (ids & Hj & Hc).
  assert (Ht : continuation_ids db' ≡ₚ map snd (journal_rounds db')) by by rewrite Hj, Hc, H3.
  destruct (step_goal db db' Hok Hs) as [[Hg Hr]|[(w & g & Hw & Hg & Hr)|(g & id & Hg0 & Hb & Hn & Hg & Hr)]].
  - split; [| |done]; unfold rounds_of; rewrite Hg, Hr; [apply H1|apply H2].
  - assert (Hrev : current_revision (Some g) = (current_revision (goal_state db) + 1)%N)
      by (eapply goal_step_revision; econstructor; eauto).
    split; [| |done]; unfold rounds_of; rewrite Hg, Hr.
    + intros x Hx. destruct (H1 x Hx) as (k & ? & ?). exists k. split; [done|]. lia.
    + intros g' [= <-]. split; [eapply transition_preserves_ok; [|done]; intros g0 Hg0; by apply H2|].
      destruct w as [o b og|e m].
      * apply create_goal_Ok in Hw as (_ & _ & _ & ->). cbn. split; [eexists; done|].
        apply rounds_of_none. intros x Hx. destruct (H1 x Hx) as (k & -> & Hk).
        intros E%(inj (app _))%(inj dec). lia.
      * apply mutate_effect in Hw as (g0 & Hg0 & <- & _ & Hi & Hrv & Hcs & _). rewrite Hi, Hcs, Hrv.
        destruct (H2 g0 Hg0) as (_ & (k & Hk & Hle) & Hro). split; [|done]. exists k. split; [done|lia].
  - destruct (H2 g Hg0) as (Hgok & (k & Hk & Hle) & Hro). rewrite Hg0 in H1. cbn in H1.
    split; [| |done]; unfold rounds_of; rewrite Hg, Hr.
    + intros x [Hx| ->%list_elem_of_singleton]%elem_of_app; cbn.
      * destruct (H1 x Hx) as (k' & ? & ?). exists k'. split; [done|]. lia.
      * exists k. split; [done|]. lia.
    + intros g' [= <-]. split; [|split].
      * destruct Hgok. split; cbn; try done; lia.
      * exists k. cbn. split; [done|lia].
      * cbn. rewrite omap_app. cbn. rewrite bool_decide_eq_true_2 by done. unfold rounds_of in Hro.
        by rewrite Hro, count_to_snoc.
Qed.

(** C17 The Goal budget accounts for every autonomous round: in every reachable state the
    rounds the Journal admits for the current Goal are numbered 1, 2, .., n with n its
    consumption, within its budget of at most 100; and the continuation triggers the store
    holds, pending or delivered, are exactly the triggers of the admitted rounds, each once.
    No continuation enters by another path, and a Goal recreated after completion starts its
    count afresh. *)
Theorem goal_rounds_accounted c db :
  reachable c db →
  (∀ g, goal_state db = Some g →
     goal_ok g ∧ rounds_of (goal_id (reference g)) db = count_to (autonomous_rounds_consumed g) ∧
     (autonomous_rounds_consumed g <= autonomous_round_budget g <= MAX_ROUND_BUDGET)%N) ∧
  continuation_ids db ≡ₚ map snd (journal_rounds db) ∧ NoDup (map snd (journal_rounds db)).
Proof.
  intros Hr. assert (inbox_ok db ∧ goal_accounts db) as [Hok [H1 H2 H3]].
  { apply (rtc_invariant inbox_step (λ db, inbox_ok db ∧ goal_accounts db) (inbox_start c)); [|done|].
    - intros a b Hs [Hok ?]. split; [by eapply effect_ok, step_effect|by eapply step_accounts].
    - split; [apply ok_start|]. split; [|done|done]. by intros x ?%not_elem_of_nil. }
  split_and!; [|done|].
  - intros g Hg. destruct (H2 g Hg) as (Hgok & _ & ?). split_and!; [done..|apply Hgok|].
    pose proof (ok_budget g Hgok) as [_ ?%N.leb_le]%andb_true_iff. done.
  - rewrite <-H3. apply continuation_NoDup, Hok.
Qed.

(** ** Concrete instances *)

Definition demo_conversation : str := lit "c".

Definition demo_draft (text : str) : InboundDraft :=
  {| d_message_id := None; d_source := Human; d_kind := KMessage; d_content := [UText text];
     d_timestamp := 0%Z; d_correlation := Some (lit "request-1") |}.

Definition result_or {E A} (a : A) (r : result E A) : A := match r with Ok a => a | Err _ => a end.

Definition demo_acceptance : AcceptedInbound * InboxDb :=
  Eval vm_compute in
  result_or ({| a_sequence := 0; a_message_id := []; a_cursor := None; retried := true;
                a_message := {| user_id := []; user_content := []; user_source := Human;
                                user_kind := KMessage; user_timestamp := None |} |},
             inbox_start demo_conversation)
    (accept_inbound (demo_draft (lit "hi")) (inbox_start demo_conversation)).

Definition demo_adoption : list PendingRow * InboxDb :=
  Eval vm_compute in result_or ([], inbox_start demo_conversation)
    (adopt_pending_batch 5 None (snd demo_acceptance)).

Lemma demo_accepted : accept_scheduled_inbound_tx (demo_draft (lit "hi")) (inbox_start demo_conversation)
  = Ok demo_acceptance.
Proof. vm_compute. reflexivity. Qed.

Lemma demo_adopted : adopt_pending_batch 5 None (snd demo_acceptance) = Ok demo_adoption.
Proof. vm_compute. reflexivity. Qed.

Lemma demo_adopt_steps : rtc inbox_step (snd demo_acceptance) (snd demo_adoption).
Proof. apply rtc_once, run_native, (run_adopt 5 None (fst demo_adoption)), demo_adopted. Qed.

Lemma demo_reachable : reachable demo_conversation (snd demo_acceptance).
Proof.
  apply rtc_once, (run_scheduled (demo_draft (lit "hi")) (fst demo_acceptance)); [done|].
  apply demo_accepted.
Qed.

(** The retry of an adopted message, and a conflicting draft. *)
Lemma correlated_exactly_once_witness :
  let accept text := accept_scheduled_inbound_tx (demo_draft (lit text)) (snd demo_adoption) in
  accept "hi"%string = Ok (again (fst demo_acceptance), snd demo_adoption) ∧
  accept "ho"%string = Err (CorrelationConflict (lit "request-1")).
Proof.
  split.
  - by apply (correlated_exactly_once demo_conversation (inbox_start demo_conversation)
      (demo_draft (lit "hi")) (fst demo_acceptance) (snd demo_acceptance) (snd demo_adoption)
      (lit "request-1") (demo_draft (lit "hi")) (rtc_refl _ _) demo_accepted eq_refl eq_refl
      demo_adopt_steps eq_refl).
  - by apply (correlated_exactly_once demo_conversation (inbox_start demo_conversation)
      (demo_draft (lit "hi")) (fst demo_acceptance) (snd demo_acceptance) (snd demo_adoption)
      (lit "request-1") (demo_draft (lit "ho")) (rtc_refl _ _) demo_accepted eq_refl eq_refl
      demo_adopt_steps eq_refl).
Defined.


Lemma accepted_item_kept_witness :
  load_transcript_reference MESSAGE (a_message_id (fst demo_acceptance)) (snd demo_adoption) = Some 1%N.
Proof.
  by destruct (accepted_item_kept demo_conversation (inbox_start demo_conversation)
    (demo_draft (lit "hi")) (fst demo_acceptance) (snd demo_acceptance) (snd demo_adoption)
    (rtc_refl _ _) demo_accepted eq_refl ltac:(by intros (_ & _ & ?)) demo_adopt_steps)
    as (_ & _ & _ & Hp).
Defined.

(** One Goal, one admitted round. *)
Definition demo_goal_written : GoalResult * InboxDb :=
  Eval vm_compute in result_or (Err (reject [] None), inbox_start demo_conversation)
    (write_goal (Create (lit "ship") 3 RuntimeControl) (inbox_start demo_conversation)).

Definition demo_round_draft : InboundDraft :=
  {| d_message_id := None; d_source := Runtime;
     d_kind := GoalContinuation {| goal_id := goal_name 1; revision := 1 |};
     d_content := [UText (lit "go")]; d_timestamp := 0%Z; d_correlation := None |}.

Definition demo_round : option AcceptedInbound * InboxDb :=
  Eval vm_compute in result_or (None, inbox_start demo_conversation)
    (accept_goal_round {| goal_id := goal_name 1; revision := 1 |} demo_round_draft (snd demo_goal_written)).

Lemma demo_round_reachable : reachable demo_conversation (snd demo_round).
Proof.
  eapply rtc_l; [apply run_native, (run_goal (Create (lit "ship") 3 RuntimeControl) (fst demo_goal_written))|].
  { instantiate (1 := snd demo_goal_written). vm_compute. reflexivity. }
  eapply rtc_once, run_native, (run_round {| goal_id := goal_name 1; revision := 1 |} demo_round_draft (fst demo_round)).
  vm_compute. reflexivity.
Qed.

Lemma goal_rounds_accounted_witness :
  NoDup (map snd (journal_rounds (snd demo_round))) ∧ continuation_ids (snd demo_round) = [lit "c-inbound-1"].
Proof.
  split; [apply (goal_rounds_accounted demo_conversation (snd demo_round) demo_round_reachable)|].
  vm_compute. reflexivity.
Defined.
