(* ===== verification/Schedule.v ===== *)
(** Temporal eligibility ([src/src/scheduler.rs] and [src/src/scheduler/calendar.rs]): the
    vocabulary of schedules, the resolution of authored timings and the selection of the
    occurrence to admit.

    An instant is its count of nanoseconds from 1970-01-01T00:00:00Z, leap seconds aside; a
    time with an offset is its instant.  The calendar matching of Cron expressions is the
    croner library's: a class, with what the code relies on as its laws. *)

From S2P Require Import Prelude Text Json Message.
From stdpp Require Import options.

Abbreviation ConversationId := str (only parsing).

Definition NANOS : Z := 10 ^ 9.
Definition seconds (s : Z) : Z := s * NANOS.

(** 10000-01-01 and 4999-01-01, in nanoseconds *)
Definition YEAR_10000 : Z := seconds 253402300800.
Definition YEAR_4999 : Z := seconds 95586048000.

(** [at.year() <= 9999] and [at.year() <= LAST_CRON_UTC_YEAR] *)
Definition within_9999 (t : DateTime) : bool := (t <? YEAR_10000)%Z.
Definition within_cron (t : DateTime) : bool := (t <? YEAR_4999)%Z.

(** [at.with_nanosecond(0)] *)
Definition with_nanosecond_0 (t : DateTime) : DateTime := (t / NANOS * NANOS)%Z.

(** ** The calendar *)

Inductive CronError := TimeSearchLimitExceeded | CronFailure (message : str).

Class Croner := {
  Cron : Type;
  Tz : Type;
  tz_parse : str → option Tz;
  tz_name : Tz → str;
  cron_parse : str → result str Cron;
  find_next_occurrence : Cron → Tz → DateTime → result CronError DateTime;
  find_previous_occurrence : Cron → Tz → DateTime → result CronError DateTime;
}.

(** The next occurrence is strictly later, the previous (inclusive) one is not later, and
    both are whole seconds. *)
Class CronerLaws `{Croner} := {
  next_later cron zone t u :
    find_next_occurrence cron zone t = Ok u → (t < u)%Z ∧ (NANOS | u)%Z;
  previous_not_later cron zone t u :
    find_previous_occurrence cron zone t = Ok u → (u <= t)%Z ∧ (NANOS | u)%Z;
}.

Definition is_ascii_whitespace (c : char) : bool :=
  ((c =? 0x20) || (c =? 0x9) || (c =? 0xa) || (c =? 0xc) || (c =? 0xd))%N.

(** [s.split_ascii_whitespace()]: the non-empty parts *)
Fixpoint split_ascii_whitespace_aux (part : str) (s : str) : list str :=
  match s with
  | [] => if bool_decide (part = []) then [] else [rev part]
  | c :: s =>
      if is_ascii_whitespace c
      then (if bool_decide (part = []) then [] else [rev part]) ++ split_ascii_whitespace_aux [] s
      else split_ascii_whitespace_aux (c :: part) s
  end.

Definition split_ascii_whitespace (s : str) : list str := split_ascii_whitespace_aux [] s.

(** The characters a numeric field uses. *)
Definition cron_byte (c : char) : bool :=
  ((0x30 <=? c) && (c <=? 0x39) || is_ascii_whitespace c
   || (c =? 0x2a) || (c =? 0x2c) || (c =? 0x2f) || (c =? 0x2d))%N.

(** ** Schedules *)

(** [SessionId] and [SessionNodeId] are strings. *)
Record ScheduleBinding := {
  session_id : str;
  node_id : str;
  b_conversation : ConversationId;
}.

Record ScheduleId := { id_conversation : ConversationId; ordinal : N }.

Inductive ScheduleSpec :=
| At (at_utc : DateTime)
| Interval (anchor_utc : DateTime) (every_seconds : N)
| SCron (expression time_zone : str).

Inductive ScheduleTiming :=
| TAt (at_time : DateTime)
| TAfter (after_seconds : N)
| TInterval (interval_seconds : N)
| TCron (cron_expression cron_zone : str).

Inductive ScheduleState := Enabled | Disabled | Completed.

Inductive ScheduleCompletionReason := OneShotAdmitted | CalendarExhausted | TimeRangeExhausted.

Record ScheduleTriggerId := {
  schedule_id : ScheduleId;
  admission_revision : N;
  occurrence_utc : DateTime;
}.

#[export] Instance ScheduleBinding_eq_dec : EqDecision ScheduleBinding.
Proof. solve_decision. Defined.
#[export] Instance ScheduleId_eq_dec : EqDecision ScheduleId.
Proof. solve_decision. Defined.
#[export] Instance ScheduleSpec_eq_dec : EqDecision ScheduleSpec.
Proof. solve_decision. Defined.
#[export] Instance ScheduleState_eq_dec : EqDecision ScheduleState.
Proof. solve_decision. Defined.
#[export] Instance ScheduleCompletionReason_eq_dec : EqDecision ScheduleCompletionReason.
Proof. solve_decision. Defined.
#[export] Instance ScheduleTriggerId_eq_dec : EqDecision ScheduleTriggerId.
Proof. solve_decision. Defined.
#[export] Instance ScheduleTiming_eq_dec : EqDecision ScheduleTiming.
Proof. solve_decision. Defined.

(** [ScheduleTiming::input_bounded] *)
Definition input_bounded (t : ScheduleTiming) : bool :=
  match t with
  | TCron expression zone => (len expression <=? 256)%N && (len zone <=? 128)%N
  | _ => true
  end.

Definition EXHAUSTED : str := lit "schedule time exhausted".

(** [add_seconds], of a non-negative count *)
Definition add_seconds (t : DateTime) (s : Z) : result str DateTime :=
  if within_9999 (t + seconds s) then Ok (t + seconds s)%Z else Err EXHAUSTED.

(** [ScheduleSpec::completion_reason] *)
Definition completion_reason (s : ScheduleSpec) : ScheduleCompletionReason :=
  match s with
  | At _ => OneShotAdmitted
  | SCron _ _ => CalendarExhausted
  | Interval _ _ => TimeRangeExhausted
  end.

Section calendar.
Context `{Croner}.

(** [calendar::parse] *)
Definition calendar_parse (expression zone : str) : result str (Cron * Tz * str) :=
  let fields := split_ascii_whitespace expression in
  _ ← guard_err ((256 <? len expression)%N || (128 <? len zone)%N
                 || negb (length fields =? 5)%nat || negb (forallb cron_byte expression))
        (lit "Cron requires five numeric fields using spaces and * , - / (at most 256 bytes)");
  let normalized := join [0x20%N] fields in
  zone ← ok_or (lit "Cron requires an explicit IANA time zone") (tz_parse zone);
  cron ← map_err (λ e, lit "invalid Cron: " ++ e) (cron_parse normalized);
  Ok (cron, zone, normalized).

(** [calendar::search] *)
Definition search (found : result CronError DateTime) : result str (option DateTime) :=
  match found with
  | Ok t => Ok (if within_cron t then Some t else None)
  | Err TimeSearchLimitExceeded => Ok None
  | Err (CronFailure e) => Err (lit "Cron calendar search failed: " ++ e)
  end.

(** [calendar::cutoff]: 4998-12-31T23:59:59Z *)
Definition cutoff : DateTime := (YEAR_4999 - NANOS)%Z.

(** [calendar::next] *)
Definition calendar_next (cron : Cron) (zone : Tz) (now : DateTime) : result str (option DateTime) :=
  if (cutoff <=? now)%Z then Ok None
  else search (find_next_occurrence cron zone (with_nanosecond_0 now)).

(** [calendar::prepare] *)
Definition prepare (expression zone : str) (now : DateTime) : result str (str * str * DateTime) :=
  '(cron, zone, normalized) ← calendar_parse expression zone;
  next ← calendar_next cron zone now;
  first ← ok_or (lit "Cron has no future occurrence through UTC year 4998") next;
  Ok (normalized, tz_name zone, first).

(** [calendar::occurrence] *)
Definition calendar_occurrence (expression zone : str) (saved_due now : DateTime)
    : result str (DateTime * option DateTime) :=
  '(cron, zone, _) ← calendar_parse expression zone;
  let decision := with_nanosecond_0 (Z.min now cutoff) in
  latest ← search (find_previous_occurrence cron zone decision);
  let latest := match latest with
                | Some t => if (t <=? now)%Z then t else saved_due
                | None => saved_due
                end in
  next ← calendar_next cron zone now;
  Ok (Z.max latest saved_due, next).

(** [ScheduleTiming::resolve]: the durable spec and its first instant. *)
Definition resolve (t : ScheduleTiming) (now : DateTime) : result str (ScheduleSpec * DateTime) :=
  let refused := Err (lit "At must be future; after must be positive; interval must be at least 60 seconds") in
  match t with
  | TAt t => if (now <? t)%Z && within_9999 t then Ok (At t, t) else refused
  | TAfter s =>
      if (0 <? s)%N then t ← add_seconds now (Z.of_N s); Ok (At t, t) else refused
  | TInterval s =>
      if (60 <=? s)%N then anchor ← add_seconds now (Z.of_N s); Ok (Interval anchor s, anchor)
      else refused
  | TCron expression zone =>
      '(expression, zone, first) ← prepare expression zone now;
      Ok (SCron expression zone, first)
  end.

(** [ScheduleSpec::occurrence]: the latest eligible instant not after [now], and the next
    one. *)
Definition occurrence (s : ScheduleSpec) (due now : DateTime) : result str (DateTime * option DateTime) :=
  if (now <? due)%Z then Err (lit "occurrence is not due")
  else
    match s with
    | At _ => Ok (due, None)
    | SCron expression zone => calendar_occurrence expression zone due now
    | Interval _ every =>
        let period := Z.of_N every in
        if (period <? 60)%Z then Err (lit "invalid stored interval")
        else
          let elapsed := ((now - due) / NANOS)%Z in
          selected ← add_seconds due (elapsed / period * period);
          let next := (selected + seconds period)%Z in
          Ok (selected, if within_9999 next then Some next else None)
    end.
End calendar.

(** ** What the clock arithmetic gives *)

Lemma with_nanosecond_0_le t : (with_nanosecond_0 t <= t < with_nanosecond_0 t + NANOS)%Z.
Proof.
  unfold with_nanosecond_0. pose proof (Z_div_mod_eq_full t NANOS). pose proof (Z.mod_pos_bound t NANOS).
  assert (0 < NANOS)%Z by done. lia.
Qed.

(** A whole second later than the current second is later than now. *)
Lemma whole_second_later t u : (with_nanosecond_0 t < u)%Z → (NANOS | u)%Z → (t < u)%Z.
Proof.
  intros Hlt [k ->]. pose proof (with_nanosecond_0_le t) as [_ Ht]. unfold with_nanosecond_0 in *.
  assert (0 < NANOS)%Z by done. assert (t / NANOS < k)%Z by nia. nia.
Qed.

Section laws.
Context `{CronerLaws}.

Lemma search_ok found t : search found = Ok (Some t) → found = Ok t ∧ within_cron t = true.
Proof. destruct found as [u|[|e]]; cbn; [|done..]. destruct (within_cron u) eqn:E; [|done]. by intros [= <-]. Qed.

Lemma calendar_next_later cron zone now t : calendar_next cron zone now = Ok (Some t) →
  (now < t)%Z ∧ within_9999 t = true.
Proof using All.
  unfold calendar_next. destruct (_ <=? _)%Z; [done|]. intros [Hf Hc]%search_ok.
  apply next_later in Hf as [Hl Hd]. split; [by apply whole_second_later|].
  unfold within_cron, within_9999 in *. apply Z.ltb_lt in Hc. apply Z.ltb_lt.
  etrans; [done|]. unfold YEAR_4999, YEAR_10000, seconds, NANOS. lia.
Qed.

(** A spec as [resolve] makes them. *)
Definition spec_ok (s : ScheduleSpec) : Prop :=
  match s with Interval _ every => (60 <= every)%N | _ => True end.

(** The instants a spec may come due at. *)
Definition due_ok (s : ScheduleSpec) (due : DateTime) : Prop :=
  within_9999 due = true ∧
  match s with
  | At t => due = t
  | Interval anchor every => ∃ k, (0 <= k)%Z ∧ due = (anchor + k * seconds (Z.of_N every))%Z
  | SCron _ _ => True
  end.

(** An authored timing resolves to a future instant of its spec. *)
Lemma resolve_future t now s first :
  resolve t now = Ok (s, first) → spec_ok s ∧ due_ok s first ∧ (now < first)%Z.
Proof using All.
  destruct t as [t|n|n|e z]; cbn -[prepare].
  - destruct (now <? t)%Z eqn:E1, (within_9999 t) eqn:E2; cbn; try done.
    intros [= <- <-]. apply Z.ltb_lt in E1. done.
  - destruct (0 <? n)%N eqn:E; [|done]. apply N.ltb_lt in E.
    intros (u & Hu & [= <- <-])%bind_ok. unfold add_seconds in Hu. destruct (within_9999 _) eqn:E2; [|done].
    injection Hu as <-. split_and!; [done..|]. unfold seconds, NANOS. lia.
  - destruct (60 <=? n)%N eqn:E; [|done]. apply N.leb_le in E.
    intros (u & Hu & [= <- <-])%bind_ok. unfold add_seconds in Hu. destruct (within_9999 _) eqn:E2; [|done].
    injection Hu as <-. split_and!; [done|split; [done|]|].
    + exists 0%Z. lia.
    + unfold seconds, NANOS. lia.
  - intros ([[e' z'] u] & Hp & [= <- <-])%bind_ok. unfold prepare in Hp.
    apply bind_ok in Hp as ([[cron tz] norm] & _ & Hp). apply bind_ok in Hp as (o & Hn & Hp).
    apply bind_ok in Hp as (v & Hv%ok_or_ok & [= <- <- <-]). subst o.
    apply calendar_next_later in Hn as [? ?]. done.
Qed.

(** The next instant of an occurrence is again one the spec may come due at. *)
Lemma occurrence_next_due s due now selected t :
  spec_ok s → due_ok s due → occurrence s due now = Ok (selected, Some t) → due_ok s t.
Proof using All.
  intros Hs [Hw Hd]. unfold occurrence. destruct (Z.ltb_spec now due) as [|Hle]; [done|].
  destruct s as [u|anchor every|e z]; [done| |]; cbn in Hs, Hd.
  - destruct (Z.ltb_spec (Z.of_N every) 60) as [|_]; [lia|]. intros (sel & Hsel & E)%bind_ok.
    injection E as -> E. unfold add_seconds in Hsel. destruct (within_9999 (due + _)); [|done].
    injection Hsel as <-. destruct (within_9999 _) eqn:Ew in E; [|done]. injection E as <-.
    split; [done|]. destruct Hd as (k & Hk & ->). cbn.
    set (q := ((now - (anchor + k * seconds (Z.of_N every))) / NANOS / Z.of_N every)%Z).
    assert (0 <= q)%Z by (subst q; repeat apply Z.div_pos; lia || done).
    exists (k + q + 1)%Z. split; [lia|]. unfold seconds. lia.
  - unfold calendar_occurrence. intros E. apply bind_ok in E as ([[cron tz] norm] & _ & E).
    apply bind_ok in E as (found & _ & E). apply bind_ok in E as (n & Hn & E). injection E as _ ->.
    apply calendar_next_later in Hn as [_ ?]. done.
Qed.

(** The occurrence of an interval: the last aligned instant not after now. *)
Lemma interval_occurrence anchor every due now :
  (60 <= every)%N → (due <= now)%Z → within_9999 now = true →
  ∃ k, (0 <= k)%Z ∧
    let selected := (due + k * seconds (Z.of_N every))%Z in
    let next := (selected + seconds (Z.of_N every))%Z in
    (selected <= now < next)%Z ∧
    occurrence (Interval anchor every) due now = Ok (selected, if within_9999 next then Some next else None).
Proof using Type.
  intros Hs Hdue Hnow. unfold occurrence. rewrite (proj2 (Z.ltb_ge now due)) by done.
  destruct (Z.ltb_spec (Z.of_N every) 60) as [|_]; [lia|].
  set (period := Z.of_N every). set (elapsed := ((now - due) / NANOS)%Z).
  assert (HN : (0 < NANOS)%Z) by done. assert (Hp : (60 <= period)%Z) by (subst period; lia).
  pose proof (Z_div_mod_eq_full (now - due) NANOS) as Hd1. pose proof (Z.mod_pos_bound (now - due) NANOS HN) as Hd2.
  pose proof (Z_div_mod_eq_full elapsed period) as He1. pose proof (Z.mod_pos_bound elapsed period ltac:(lia)) as He2.
  assert (0 <= elapsed)%Z by (apply Z.div_pos; lia). fold elapsed in Hd1.
  exists (elapsed / period)%Z. split; [apply Z.div_pos; lia|].
  replace (elapsed / period * seconds period)%Z with (seconds (elapsed / period * period)) by (unfold seconds; lia).
  split; [unfold seconds; nia|]. unfold add_seconds.
  assert (Hw : within_9999 (due + seconds (elapsed / period * period)) = true); [|by rewrite Hw].
  unfold within_9999 in *. apply Z.ltb_lt in Hnow. apply Z.ltb_lt. unfold seconds in *. nia.
Qed.

(** One-shots and intervals always have an occurrence. *)
Lemma occurrence_scheduled s due now :
  spec_ok s → (due <= now)%Z → within_9999 now = true →
  (match s with SCron _ _ => False | _ => True end) →
  ∃ selected next, occurrence s due now = Ok (selected, next) ∧
    match s with
    | At _ => next = None
    | Interval _ every => ∀ t, next = Some t → (now < t)%Z ∧ ∃ k, (0 < k)%Z ∧ t = (due + k * seconds (Z.of_N every))%Z
    | SCron _ _ => True
    end.
Proof using Type.
  intros Hs Hdue Hnow. destruct s as [u|anchor every|]; [intros _|intros _|done].
  - exists due, None. unfold occurrence. by rewrite (proj2 (Z.ltb_ge now due)).
  - destruct (interval_occurrence anchor every due now Hs Hdue Hnow) as (k & Hk & [_ Hl] & Ho).
    do 2 eexists. split; [exact Ho|]. intros t Ht. destruct (within_9999 (_ + _ + _)); [|done]. simplify_eq.
    split; [done|]. exists (k + 1)%Z. split; [lia|]. lia.
Qed.

(** Latest-only catch-up: an occurrence that is due is selected without visiting the
    missed ones, and never fails for a one-shot or an interval.  It is not before the due
    instant nor after now; of an interval it is the last instant aligned with the due one,
    and its successor is one period later, strictly in the future, or absent exactly past
    year 9999; a one-shot has no successor; of a calendar it is the due instant or the
    calendar's own previous match, and its successor is in the future. *)
Theorem occurrence_latest s due now :
  spec_ok s → (due <= now)%Z → within_9999 now = true →
  match occurrence s due now with
  | Ok (selected, next) =>
      (due <= selected <= now)%Z ∧ (∀ t, next = Some t → (now < t)%Z ∧ within_9999 t = true) ∧
      match s with
      | At _ => selected = due ∧ next = None
      | Interval _ every =>
          let period := seconds (Z.of_N every) in
          (∃ k, (0 <= k)%Z ∧ selected = (due + k * period)%Z) ∧ (now < selected + period)%Z ∧
          next = (if within_9999 (selected + period) then Some (selected + period)%Z else None)
      | SCron expression zone =>
          selected = due ∨ ∃ cron tz normalized, calendar_parse expression zone = Ok (cron, tz, normalized) ∧
            find_previous_occurrence cron tz (with_nanosecond_0 (Z.min now cutoff)) = Ok selected
      end
  | Err _ => ∃ expression zone, s = SCron expression zone
  end.
Proof using All.
  intros Hs Hdue Hnow. unfold occurrence. rewrite (proj2 (Z.ltb_ge now due)) by done.
  destruct s as [t|anchor every|e z]; cbn in Hs.
  - split_and!; done.
  - destruct (interval_occurrence anchor every due now Hs Hdue Hnow) as (k & Hk & [Hle Hl] & Ho).
    unfold occurrence in Ho. rewrite (proj2 (Z.ltb_ge now due)) in Ho by done. rewrite Ho. split_and!; try done.
    + unfold seconds, NANOS. nia.
    + intros t Ht. destruct (within_9999 (_ + _ + _)) eqn:E; [|done]. by simplify_eq.
    + by exists k.
  - destruct (calendar_occurrence e z due now) as [[selected next]|err] eqn:E; [|eauto].
    unfold calendar_occurrence in E.
    apply bind_ok in E as ([[cron tz] norm] & Hp & E). apply bind_ok in E as (found & Hf & E).
    apply bind_ok in E as (n & Hn & [= <- <-]).
    assert (Hl : ∀ t, found = Some t → find_previous_occurrence cron tz (with_nanosecond_0 (Z.min now cutoff)) = Ok t).
    { intros t ->. by apply search_ok in Hf as [? _]. }
    split_and!.
    + lia.
    + destruct found as [t|]; [destruct (Z.leb_spec t now)|]; lia.
    + intros t ->. by apply calendar_next_later in Hn.
    + destruct found as [t|]; [|left; lia]. destruct (Z.leb_spec t now); [|left; lia].
      destruct (Z.le_gt_cases t due); [left; lia|right]. exists cron, tz, norm.
      split; [done|]. rewrite Z.max_l by lia. by apply Hl.
Qed.
End laws.

(** ** A concrete calendar: every expression is the start of each minute, in UTC *)

Definition minutes : Croner := {|
  Cron := (); Tz := ();
  tz_parse := λ zone, if bool_decide (zone = lit "UTC") then Some () else None;
  tz_name := λ _, lit "UTC";
  cron_parse := λ _, Ok ();
  find_next_occurrence := λ _ _ t, Ok ((t / seconds 60 + 1) * seconds 60)%Z;
  find_previous_occurrence := λ _ _ t, Ok (t / seconds 60 * seconds 60)%Z;
|}.

#[export] Instance minutes_laws : @CronerLaws minutes.
Proof.
  assert (Hp : (0 < seconds 60)%Z) by done.
  split; cbn; intros _ _ t u [= <-]; pose proof (Z_div_mod_eq_full t (seconds 60));
    pose proof (Z.mod_pos_bound t (seconds 60) Hp); (split; [lia|]).
  - exists ((t / seconds 60 + 1) * 60)%Z. unfold seconds. lia.
  - exists (t / seconds 60 * 60)%Z. unfold seconds. lia.
Qed.

(** An interval of 90 s due at 100 s, at 500.5 s; a calendar due at 60 s, at 200 s. *)
Lemma occurrence_latest_witness :
  @occurrence minutes (Interval (seconds 100) 90) (seconds 100) (seconds 500 + 500000000) =
    Ok (seconds 460, Some (seconds 550)) ∧
  (∃ next, @occurrence minutes (SCron (lit "* * * * *") (lit "UTC")) (seconds 60) (seconds 200) =
    Ok (seconds 180, next) ∧ ∀ t, next = Some t → (seconds 200 < t)%Z).
Proof.
  split; [vm_compute; reflexivity|].
  pose proof (@occurrence_latest minutes minutes_laws (SCron (lit "* * * * *") (lit "UTC"))
    (seconds 60) (seconds 200) I ltac:(by vm_compute) eq_refl) as Ho.
  assert (∃ next, @occurrence minutes (SCron (lit "* * * * *") (lit "UTC")) (seconds 60) (seconds 200)
    = Ok (seconds 180, next)) as (next & Hn) by (eexists; vm_compute; reflexivity).
  rewrite Hn in Ho. destruct Ho as (_ & Ho & _). exists next. split; [done|]. intros t Ht. by apply Ho.
Defined.
