(* ===== verification/ScheduleStore.v ===== *)
(** The durable scheduler ([src/src/durable/sqlite/schedule.rs]): schedule commands with
    their receipts, and the admission of due occurrences into the Inbox or as scheduled
    Workflow starts ([durable/sqlite/scheduled_workflow.rs]).

    A transaction returns the new database or an error, on which nothing is kept; a clock is
    the instant it shows.  Timestamps are compared as instants, as their stored text does
    for the years 0 to 9999.  Of a scheduled start the row and its state are kept;
    ScheduledStart refines them. *)

From S2P Require Import Prelude Text Json Goal Message Inbox Schedule.
From stdpp Require Import options.

Abbreviation WorkflowId := str (only parsing).

(** ** Vocabulary *)

Inductive ExactToolSelector :=
| Builtin (name : str)
| Source (source_id name : str).

Record ScheduledProviderIdentity := { provider : str; endpoint_digest : str }.
Record ScheduledSourceIdentity := { source : str; materialization_digest : str }.

Inductive ScheduledWorkflowDependency :=
| DTool (path : list str) (selector : ExactToolSelector) (definition_digest : str)
    (tool_source : option ScheduledSourceIdentity)
| DModel (path : list str) (invocation_digest : str) (model_provider : ScheduledProviderIdentity)
| DAgent (path : list str) (definition_digest profile_digest : str)
    (primary_provider : ScheduledProviderIdentity)
    (summary_provider : option ScheduledProviderIdentity) (sources : list ScheduledSourceIdentity).

(** What the scheduler and the life of a start read of [PinnedScheduledWorkflow], and the
    encoding of the rest. *)
Record PinnedScheduledWorkflow := {
  p_binding : ScheduleBinding;
  p_workflow : WorkflowId;
  p_dependencies : list ScheduledWorkflowDependency;
  p_contract : str;
  observed_resource_revision : N;
}.

Inductive ScheduleTarget :=
| ConversationInbound (text : str)
| TWorkflow (pinned : PinnedScheduledWorkflow) (arguments : json).

Inductive WorkflowRunOrigin :=
| OTool (attempt_id : AttemptId)
| OScheduled (start_id : str).

Record WorkflowRunId := { run_conversation : ConversationId; run_origin : WorkflowRunOrigin; invocation : N }.

Inductive ScheduledTargetReceipt :=
| RInbound (message_id : MessageId) (inbound_sequence : N)
| RWorkflow (receipt_start : str) (run : WorkflowRunId).

Record ScheduleTriggerReceipt := {
  trigger_id : ScheduleTriggerId;
  accepted_at : DateTime;
  target_receipt : ScheduledTargetReceipt;
}.

Record ScheduleSnapshot := {
  id : ScheduleId;
  binding : ScheduleBinding;
  revision : N;
  title : str;
  target : ScheduleTarget;
  spec : ScheduleSpec;
  state : ScheduleState;
  next_due : option DateTime;
  last_trigger : option ScheduleTriggerReceipt;
  completed_at : option DateTime;
  completed_reason : option ScheduleCompletionReason;
  last_failure : option str;
}.

Inductive ScheduleCommandAuthority :=
| ARuntimeControl
| AHumanRequest (message_id : MessageId) (original_attempt : AttemptId).

Definition SCHEDULE_REQUEST_MUTATION_LIMIT : nat := 8.

Record ScheduleRequestBudget := {
  human_message_id : MessageId;
  original_attempt_id : AttemptId;
  mutations_used : nat;
  mutation_limit : nat;
}.

Record ScheduleCommandReceipt := {
  request_budget : option ScheduleRequestBudget;
  rc_id : ScheduleId;
  rc_revision : N;
  rc_spec : ScheduleSpec;
  rc_state : ScheduleState;
  rc_next_due : option DateTime;
}.

Inductive ScheduleMutation :=
| SUpdateMetadata (i : ScheduleId) (expected : N) (new_title : str) (timing : option ScheduleTiming)
| SCreateWorkflow (new_title : str) (workflow : WorkflowId) (arguments : json) (timing : ScheduleTiming)
| SUpdateWorkflow (i : ScheduleId) (expected : N) (new_title : str) (workflow : WorkflowId)
    (arguments : json) (timing : option ScheduleTiming)
| SCreate (new_title text : str) (timing : ScheduleTiming)
| SUpdate (i : ScheduleId) (expected : N) (new_title text : str) (timing : option ScheduleTiming)
| SSetEnabled (i : ScheduleId) (expected : N) (enabled : bool)
| SDelete (i : ScheduleId) (expected : N).

Record ScheduleCommand := { command_id : str; mutation : ScheduleMutation }.

Inductive ScheduleCommandResult :=
| Applied (receipt : ScheduleCommandReceipt)
| Deleted (i : ScheduleId) (deleted_revision : N) (budget : option ScheduleRequestBudget)
| CConflict (current : ScheduleSnapshot)
| NotFound
| Invalid (reason : str)
| Capacity
| MutationBudgetExhausted.

#[export] Instance ExactToolSelector_eq_dec : EqDecision ExactToolSelector.
Proof. solve_decision. Defined.
#[export] Instance ScheduledProviderIdentity_eq_dec : EqDecision ScheduledProviderIdentity.
Proof. solve_decision. Defined.
#[export] Instance ScheduledSourceIdentity_eq_dec : EqDecision ScheduledSourceIdentity.
Proof. solve_decision. Defined.
#[export] Instance ScheduledWorkflowDependency_eq_dec : EqDecision ScheduledWorkflowDependency.
Proof. solve_decision. Defined.
#[export] Instance PinnedScheduledWorkflow_eq_dec : EqDecision PinnedScheduledWorkflow.
Proof. solve_decision. Defined.
#[export] Instance ScheduleTarget_eq_dec : EqDecision ScheduleTarget.
Proof. solve_decision. Defined.
#[export] Instance WorkflowRunOrigin_eq_dec : EqDecision WorkflowRunOrigin.
Proof. solve_decision. Defined.
#[export] Instance WorkflowRunId_eq_dec : EqDecision WorkflowRunId.
Proof. solve_decision. Defined.
#[export] Instance ScheduledTargetReceipt_eq_dec : EqDecision ScheduledTargetReceipt.
Proof. solve_decision. Defined.
#[export] Instance ScheduleTriggerReceipt_eq_dec : EqDecision ScheduleTriggerReceipt.
Proof. solve_decision. Defined.
#[export] Instance ScheduleSnapshot_eq_dec : EqDecision ScheduleSnapshot.
Proof. solve_decision. Defined.

(** ** Tables *)

(** [schedule_commands], by scope and command identity *)
Record CommandRow := { request_attempt_id : option AttemptId; digest : str;
                       committed : ScheduleCommandResult }.

Inductive StartState := StartAccepted | StartClaimed | StartSettled.

#[export] Instance StartState_eq_dec : EqDecision StartState.
Proof. solve_decision. Defined.

(** [scheduled_workflow_starts], by start identity *)
Record StartRow := { schedule_ordinal : N; start_trigger : ScheduleTriggerId; start_state : StartState }.

Record ScheduleDb := {
  inbox : InboxDb;
  next_ordinal : N;
  generation : N;
  schedules : gmap N ScheduleSnapshot;
  commands : gmap (str * str) CommandRow;
  starts : gmap str StartRow;
}.

Definition set_inbox (i : InboxDb) (db : ScheduleDb) : ScheduleDb :=
  {| inbox := i; next_ordinal := next_ordinal db; generation := generation db;
     schedules := schedules db; commands := commands db; starts := starts db |}.
Definition set_schedules (m : gmap N ScheduleSnapshot) (db : ScheduleDb) : ScheduleDb :=
  {| inbox := inbox db; next_ordinal := next_ordinal db; generation := generation db;
     schedules := m; commands := commands db; starts := starts db |}.
Definition set_control (ordinal generation : N) (db : ScheduleDb) : ScheduleDb :=
  {| inbox := inbox db; next_ordinal := ordinal; generation := generation;
     schedules := schedules db; commands := commands db; starts := starts db |}.
Definition set_commands (m : gmap (str * str) CommandRow) (db : ScheduleDb) : ScheduleDb :=
  {| inbox := inbox db; next_ordinal := next_ordinal db; generation := generation db;
     schedules := schedules db; commands := m; starts := starts db |}.
Definition set_starts (m : gmap str StartRow) (db : ScheduleDb) : ScheduleDb :=
  {| inbox := inbox db; next_ordinal := next_ordinal db; generation := generation db;
     schedules := schedules db; commands := commands db; starts := m |}.

Definition conversation (db : ScheduleDb) : ConversationId := conversation_id (inbox db).

(** [increment]: within an SQLite integer *)
Definition increment (n : N) : R N := ok_or SequenceExhausted (i64_next n).

(** [advance_generation] *)
Definition advance_generation (db : ScheduleDb) : R ScheduleDb :=
  g ← increment (generation db); Ok (set_control (next_ordinal db) g db).

(** [read] and [save] *)
Definition read (o : N) (db : ScheduleDb) : option ScheduleSnapshot :=
  if (i64_max <? o)%N then None else schedules db !! o.
Definition save (s : ScheduleSnapshot) (db : ScheduleDb) : ScheduleDb :=
  set_schedules (<[ordinal (id s) := s]> (schedules db)) db.

(** The order [completed_at, ordinal], an absent time first. *)
Definition newer (a b : ScheduleSnapshot) : bool :=
  match completed_at a, completed_at b with
  | Some x, Some y => (y <? x)%Z || ((x =? y)%Z && (ordinal (id b) <? ordinal (id a))%N)
  | Some _, None => true
  | None, Some _ => false
  | None, None => (ordinal (id b) <? ordinal (id a))%N
  end.

Definition is_completed (s : ScheduleSnapshot) : bool := bool_decide (state s = Completed).

(** The number of completed schedules after [s] in that order. *)
Definition rank (s : ScheduleSnapshot) (m : gmap N ScheduleSnapshot) : nat :=
  size (filter (λ x, is_completed x.2 && newer x.2 s) m).

(** [DateTime::<Utc>::MIN_UTC] *)
Definition MIN_UTC : DateTime := (- seconds 8334601228800)%Z.

(** [prune], of the schedules: completed ones older than 30 days or beyond the 200 newest *)
Definition expired (cutoff : DateTime) (m : gmap N ScheduleSnapshot) (s : ScheduleSnapshot) : bool :=
  is_completed s &&
  (match completed_at s with Some t => (t <? cutoff)%Z | None => false end || (200 <=? rank s m)%nat).

Definition prune (now : DateTime) (db : ScheduleDb) : ScheduleDb :=
  let cutoff := Z.max (now - seconds (30 * 86400)) MIN_UTC in
  set_schedules (filter (λ x, negb (expired cutoff (schedules db) x.2)) (schedules db)) db.

(** ** Commands *)

Definition invalid (reason : string) : ScheduleCommandResult := Invalid (lit reason).

(** [bounded] *)
Definition bounded (title text : str) : bool :=
  (len title <=? 480)%N && negb (bool_decide (trim title = [])) && (length title <=? 120)%nat &&
  (len text <=? 16384)%N && negb (bool_decide (trim text = [])).

(** [command_scope]: the receipt scope and the bound attempt *)
Definition command_scope (a : ScheduleCommandAuthority) : option (str * option AttemptId) :=
  match a with
  | ARuntimeControl => Some (lit "runtime", None)
  | AHumanRequest m attempt =>
      if negb (bool_decide (m = [])) && negb (bool_decide (attempt = [])) &&
         (len m <=? 512)%N && (len attempt <=? 512)%N
      then Some (lit "human:" ++ m, Some attempt) else None
  end.

(** Code outside the scheduler: chrono's two formats, SHA-256 over an encoding, and the
    length of an encoding. *)
Class SchedulerEnv := {
  show_instant : DateTime → str;
  to_rfc3339 : DateTime → str;
  command_digest : ScheduleBinding → ScheduleMutation → str;
  trigger_digest : ScheduleTriggerId → str;
  contract_bytes : PinnedScheduledWorkflow → N;
  json_bytes : json → N;
}.

Definition timing_of (m : ScheduleMutation) : option ScheduleTiming :=
  match m with
  | SCreate _ _ t | SCreateWorkflow _ _ _ t => Some t
  | SUpdateMetadata _ _ _ t | SUpdate _ _ _ _ t | SUpdateWorkflow _ _ _ _ _ t => t
  | _ => None
  end.

Section commands.
Context `{Croner, SchedulerEnv}.

(** [command_input_error] *)
Definition command_input_error (conversation : ConversationId) (b : ScheduleBinding)
    (c : ScheduleCommand) : option str :=
  if negb (bool_decide (b_conversation b = conversation)) || bool_decide (command_id c = [])
     || (128 <? len (command_id c))%N
  then Some (lit "invalid command identity or destination")
  else if match mutation c with
          | SUpdateMetadata _ _ title _ => negb (bounded title (lit "metadata"))
          | _ => false
          end
  then Some (lit "invalid schedule title bounds")
  else if match mutation c with
          | SCreate title text _ | SUpdate _ _ title text _ => negb (bounded title text)
          | _ => false
          end
  then Some (lit "invalid title or reminder bounds")
  else if match mutation c with
          | SCreateWorkflow title _ arguments _ | SUpdateWorkflow _ _ title _ arguments _ =>
              negb (bounded title (lit "workflow")) || (16384 <? json_bytes arguments)%N
          | _ => false
          end
  then Some (lit "invalid Workflow title or argument bounds")
  else if match timing_of (mutation c) with Some t => negb (input_bounded t) | None => false end
  then Some (lit "Cron input exceeds native bounds")
  else None.

(** [ScheduleCommandReceipt::from] *)
Definition receipt_of (s : ScheduleSnapshot) : ScheduleCommandReceipt :=
  {| request_budget := None; rc_id := id s; rc_revision := revision s; rc_spec := spec s;
     rc_state := state s; rc_next_due := next_due s |}.

(** A command's outcome: its result, the database, and whether a row changed. *)
Abbreviation Outcome := (ScheduleCommandResult * ScheduleDb * bool)%type.

(** [create_schedule] *)
Definition create_schedule (b : ScheduleBinding) (title : str) (target : ScheduleTarget)
    (timing : ScheduleTiming) (now : DateTime) (db : ScheduleDb) : R Outcome :=
  if negb (bounded title (lit "target"))
  then Ok (Invalid (lit "title must contain 1" ++ [0x2013%N] ++ lit "120 characters; text must contain 1"
                    ++ [0x2013%N] ++ lit "16384 bytes"), db, false)
  else
    match resolve timing now with
    | Err reason => Ok (Invalid reason, db, false)
    | Ok (spec, due) =>
        if (256 <=? size (filter (λ x, negb (is_completed x.2)) (schedules db)))%nat
        then Ok (Capacity, db, false)
        else
          o ← increment (next_ordinal db);
          let snapshot :=
            {| id := {| id_conversation := b_conversation b; ordinal := o |}; binding := b;
               revision := 1; title := title; target := target; spec := spec; state := Enabled;
               next_due := Some due; last_trigger := None; completed_at := None;
               completed_reason := None; last_failure := None |} in
          Ok (Applied (receipt_of snapshot), save snapshot (set_control o (generation db) db), true)
    end.

(** The schedule and revision a mutation of an existing schedule names. *)
Definition addressed (m : ScheduleMutation) : option (ScheduleId * N) :=
  match m with
  | SUpdateMetadata i r _ _ | SUpdate i r _ _ _ | SUpdateWorkflow i r _ _ _ _ | SSetEnabled i r _
  | SDelete i r => Some (i, r)
  | SCreate _ _ _ | SCreateWorkflow _ _ _ _ => None
  end.

(** [prepared.filter(..)] *)
Definition prepared_for (b : ScheduleBinding) (workflow : WorkflowId)
    (prepared : option PinnedScheduledWorkflow) : option PinnedScheduledWorkflow :=
  match prepared with
  | Some p => if bool_decide (p_binding p = b) && bool_decide (p_workflow p = workflow) then Some p else None
  | None => None
  end.

Definition with_content (t : str) (x : ScheduleTarget) (s : ScheduleSnapshot) : ScheduleSnapshot :=
  {| id := id s; binding := binding s; revision := revision s; title := t; target := x; spec := spec s;
     state := state s; next_due := next_due s; last_trigger := last_trigger s;
     completed_at := completed_at s; completed_reason := completed_reason s; last_failure := last_failure s |}.
Definition with_state (x : ScheduleState) (s : ScheduleSnapshot) : ScheduleSnapshot :=
  {| id := id s; binding := binding s; revision := revision s; title := title s; target := target s;
     spec := spec s; state := x; next_due := next_due s; last_trigger := last_trigger s;
     completed_at := completed_at s; completed_reason := completed_reason s; last_failure := last_failure s |}.
Definition with_timing (x : ScheduleSpec) (due : DateTime) (s : ScheduleSnapshot) : ScheduleSnapshot :=
  {| id := id s; binding := binding s; revision := revision s; title := title s; target := target s;
     spec := x; state := state s; next_due := Some due; last_trigger := last_trigger s;
     completed_at := completed_at s; completed_reason := completed_reason s; last_failure := None |}.
Definition with_schedule_revision (n : N) (s : ScheduleSnapshot) : ScheduleSnapshot :=
  {| id := id s; binding := binding s; revision := n; title := title s; target := target s;
     spec := spec s; state := state s; next_due := next_due s; last_trigger := last_trigger s;
     completed_at := completed_at s; completed_reason := completed_reason s; last_failure := last_failure s |}.

(** The match of [apply_command] on an update: the edited snapshot or the refusal. *)
Definition edit_snapshot (b : ScheduleBinding) (m : ScheduleMutation)
    (prepared : option PinnedScheduledWorkflow) (s : ScheduleSnapshot)
    : result ScheduleCommandResult ScheduleSnapshot :=
  match m with
  | SUpdateMetadata _ _ title _ => Ok (with_content title (target s) s)
  | SUpdate _ _ title text _ =>
      if negb (bounded title text) then Err (invalid "invalid title or reminder bounds")
      else match target s with
           | ConversationInbound _ => Ok (with_content title (ConversationInbound text) s)
           | TWorkflow _ _ => Err (invalid "Workflow target needs an explicit Workflow update")
           end
  | SUpdateWorkflow _ _ title workflow arguments _ =>
      match prepared_for b workflow prepared with
      | None => Err (invalid "Workflow update requires native preparation")
      | Some p => Ok (with_content title (TWorkflow p arguments) s)
      end
  | SSetEnabled _ _ enabled => Ok (with_state (if enabled then Enabled else Disabled) s)
  | _ => Ok s
  end.

(** [apply_command] on an existing schedule *)
Definition apply_existing (b : ScheduleBinding) (m : ScheduleMutation) (i : ScheduleId) (expected : N)
    (now : DateTime) (prepared : option PinnedScheduledWorkflow) (db : ScheduleDb) : R Outcome :=
  if negb (bool_decide (id_conversation i = b_conversation b))
  then Ok (invalid "schedule belongs to another conversation", db, false)
  else
    match read (ordinal i) db with
    | None => Ok (NotFound, db, false)
    | Some old =>
        if negb (bool_decide (binding old = b))
        then Ok (invalid "schedule belongs to another Session/node", db, false)
        else if negb (revision old =? expected)%N then Ok (CConflict old, db, false)
        else
          match m with
          | SDelete _ _ =>
              n ← increment (revision old);
              Ok (Deleted i n None, set_schedules (delete (ordinal i) (schedules db)) db, true)
          | _ =>
              if is_completed old
              then Ok (invalid "completed schedules are terminal; create a new schedule", db, false)
              else
                match edit_snapshot b m prepared old with
                | Err refusal => Ok (refusal, db, false)
                | Ok s =>
                    match (match timing_of m with
                           | None => Ok s
                           | Some t => '(spec, due) ← resolve t now; Ok (with_timing spec due s)
                           end) with
                    | Err reason => Ok (Invalid reason, db, false)
                    | Ok s =>
                        if bool_decide (s = old) then Ok (Applied (receipt_of s), db, false)
                        else
                          n ← increment (revision s);
                          let s := with_schedule_revision n s in
                          Ok (Applied (receipt_of s), save s db, true)
                    end
                end
          end
    end.

(** [apply_command] *)
Definition apply_command (b : ScheduleBinding) (m : ScheduleMutation) (now : DateTime)
    (prepared : option PinnedScheduledWorkflow) (db : ScheduleDb) : R Outcome :=
  match m with
  | SCreate title text timing => create_schedule b title (ConversationInbound text) timing now db
  | SCreateWorkflow title workflow arguments timing =>
      match prepared_for b workflow prepared with
      | None => Ok (invalid "Workflow target requires native preparation", db, false)
      | Some p => create_schedule b title (TWorkflow p arguments) timing now db
      end
  | SUpdateMetadata i r _ _ | SUpdate i r _ _ _ | SUpdateWorkflow i r _ _ _ _ | SSetEnabled i r _
  | SDelete i r => apply_existing b m i r now prepared db
  end.

(** The receipts of one scope. *)
Definition scope_rows (scope : str) (db : ScheduleDb) : gmap (str * str) CommandRow :=
  filter (λ x, bool_decide (x.1.1 = scope)) (commands db).

(** [SELECT request_attempt_id .. WHERE scope_id = ? LIMIT 1] *)
Definition original_attempt_of (scope : str) (db : ScheduleDb) : option AttemptId :=
  match map_to_list (scope_rows scope db) with
  | (_, row) :: _ => request_attempt_id row
  | [] => None
  end.

Definition with_budget (budget : ScheduleRequestBudget) (r : ScheduleCommandResult) : ScheduleCommandResult :=
  match r with
  | Applied c => Applied {| request_budget := Some budget; rc_id := rc_id c; rc_revision := rc_revision c;
                            rc_spec := rc_spec c; rc_state := rc_state c; rc_next_due := rc_next_due c |}
  | Deleted i n _ => Deleted i n (Some budget)
  | r => r
  end.

Definition CONFLICTING : ScheduleCommandResult :=
  invalid "command identity conflicts with its committed input or request binding".

(** The receipt of a command that was committed. *)
Definition replay (row : CommandRow) (d : str) (attempt : option AttemptId) : ScheduleCommandResult :=
  if bool_decide (digest row = d) && bool_decide (request_attempt_id row = attempt)
  then committed row else CONFLICTING.

(** The mutations a Human request has used: the receipts of its scope, of one attempt. *)
Definition count_used (scope : str) (attempt : option AttemptId) (db : ScheduleDb)
    : R (option nat) :=
  match attempt with
  | None => Ok (Some 0)
  | Some a =>
      if match original_attempt_of scope db with Some o => negb (bool_decide (o = a)) | None => false end
      then Ok None
      else
        let count := size (scope_rows scope db) in
        _ ← guard_err (SCHEDULE_REQUEST_MUTATION_LIMIT <? count)%nat
              (Storage (lit "invalid native request receipt count"));
        Ok (Some count)
  end.

(** [schedule_command_impl]; [cancelled] is what the cancellation shows before and after the
    command is applied. *)
Definition schedule_command_impl (b : ScheduleBinding) (c : ScheduleCommand) (now : DateTime)
    (authority : ScheduleCommandAuthority) (prepared : option PinnedScheduledWorkflow)
    (cancelled : option (bool * bool)) (db : ScheduleDb) : R (ScheduleCommandResult * ScheduleDb) :=
  match command_input_error (conversation db) b c with
  | Some reason => Ok (Invalid reason, db)
  | None =>
      let d := command_digest b (mutation c) in
      match command_scope authority with
      | None => Ok (invalid "request identity exceeds native bounds", db)
      | Some (scope, attempt) =>
          match commands db !! (scope, command_id c) with
          | Some row => Ok (replay row d attempt, db)
          | None =>
              used ← count_used scope attempt db;
              match used with
              | None => Ok (invalid "Human request original Attempt binding conflicts", db)
              | Some used =>
                  _ ← guard_err (match cancelled with Some (before, _) => before | None => false end)
                        OperationCancelled;
                  '(result, db', changed) ← apply_command b (mutation c) now prepared db;
                  if changed && bool_decide (is_Some attempt) && (SCHEDULE_REQUEST_MUTATION_LIMIT <=? used)%nat
                  then Ok (MutationBudgetExhausted, db)
                  else
                    let result :=
                      match authority with
                      | ARuntimeControl => result
                      | AHumanRequest m a =>
                          with_budget {| human_message_id := m; original_attempt_id := a;
                                         mutations_used := used + (if changed : bool then 1 else 0);
                                         mutation_limit := SCHEDULE_REQUEST_MUTATION_LIMIT |} result
                      end in
                    _ ← guard_err (match cancelled with Some (_, after) => after | None => false end)
                          OperationCancelled;
                    if changed : bool then
                      db' ← advance_generation db';
                      let db' := prune now db' in
                      Ok (result, set_commands
                        (<[(scope, command_id c) := {| request_attempt_id := attempt; digest := d;
                                                       committed := result |}]> (commands db')) db')
                    else Ok (result, db)
              end
          end
      end
  end.

(** [schedule_model_command] *)
Definition schedule_model_command (b : ScheduleBinding) (c : ScheduleCommand) (now : DateTime)
    (authority : ScheduleCommandAuthority) (prepared : option PinnedScheduledWorkflow)
    (cancelled : bool * bool) (db : ScheduleDb) : R (ScheduleCommandResult * ScheduleDb) :=
  match authority with
  | ARuntimeControl => Ok (invalid "model Schedule control has no Human request", db)
  | AHumanRequest _ _ => schedule_command_impl b c now authority prepared (Some cancelled) db
  end.

(** [schedule_command_receipt] *)
Definition schedule_command_receipt (b : ScheduleBinding) (c : ScheduleCommand)
    (authority : ScheduleCommandAuthority) (db : ScheduleDb) : option ScheduleCommandResult :=
  match command_input_error (conversation db) b c with
  | Some reason => Some (Invalid reason)
  | None =>
      match command_scope authority with
      | None => Some (invalid "invalid native request identity")
      | Some (scope, attempt) =>
          match commands db !! (scope, command_id c) with
          | None => None
          | Some row => Some (replay row (command_digest b (mutation c)) attempt)
          end
      end
  end.

(** [schedule_get] *)
Definition schedule_get (i : ScheduleId) (db : ScheduleDb) : option ScheduleSnapshot :=
  if negb (bool_decide (id_conversation i = conversation db)) then None else read (ordinal i) db.
End commands.

(** ** Admission *)

Definition on_correlation (p : str → bool) (r : PendingRow) : bool :=
  match correlation r with Some c => p c | None => false end.

(** [scheduler:ordinal:] *)
Definition schedule_prefix (o : N) : str := SCHEDULER ++ dec o ++ lit ":".
Definition of_schedule (o : N) (c : str) : bool := is_scheduler c && bool_decide (schedule_prefix o `prefix_of` c).

Definition active (r : StartRow) : bool := negb (bool_decide (start_state r = StartSettled)).

(** The unfinished targets: pending scheduled messages and unsettled starts. *)
Definition pending_targets (db : ScheduleDb) : list PendingRow :=
  List.filter (on_correlation is_scheduler) (pending (inbox db)).
Definition active_starts (db : ScheduleDb) : gmap str StartRow := filter (λ x, active x.2) (starts db).

Definition outstanding (o : N) (db : ScheduleDb) : bool :=
  existsb (on_correlation (of_schedule o)) (pending (inbox db))
  || existsb (λ x, (schedule_ordinal x.2 =? o)%N) (map_to_list (active_starts db)).

(** The header of an accepted start. *)
Record StartHead := { h_id : str; h_run : WorkflowRunId; h_trigger : ScheduleTriggerId;
                      h_binding : ScheduleBinding; h_accepted_at : DateTime }.

Inductive ScheduleAdmission :=
| AdmittedInbound (s : ScheduleSnapshot) (accepted : AcceptedInbound)
| WorkflowAdmitted (s : ScheduleSnapshot) (start : StartHead)
| AlreadyAdvanced (current : ScheduleSnapshot)
| ADisabled (current : ScheduleSnapshot)
| NotDue
| WaitingForTarget
| SchedulerCapacity
| ANotFound.

Definition disable (reason : str) (s : ScheduleSnapshot) : ScheduleSnapshot :=
  {| id := id s; binding := binding s; revision := revision s; title := title s; target := target s;
     spec := spec s; state := Disabled; next_due := next_due s; last_trigger := last_trigger s;
     completed_at := completed_at s; completed_reason := completed_reason s;
     last_failure := Some (take 256 reason) |}.

(** The snapshot after an admission. *)
Definition advance (n : N) (next : option DateTime) (receipt : ScheduleTriggerReceipt) (now : DateTime)
    (s : ScheduleSnapshot) : ScheduleSnapshot :=
  let done := bool_decide (next = None) in
  {| id := id s; binding := binding s; revision := n; title := title s; target := target s;
     spec := spec s; state := if done then Completed else state s; next_due := next;
     last_trigger := Some receipt;
     completed_at := if done then Some now else completed_at s;
     completed_reason := if done then Some (completion_reason (spec s)) else completed_reason s;
     last_failure := None |}.

Section admission.
Context `{Croner, SchedulerEnv}.

(** [ScheduleTriggerId::correlation] and [message_id] *)
Definition trigger_correlation (t : ScheduleTriggerId) : str :=
  SCHEDULER ++ dec (ordinal (schedule_id t)) ++ lit ":" ++ dec (admission_revision t) ++ lit ":"
  ++ to_rfc3339 (occurrence_utc t).
Definition trigger_message_id (t : ScheduleTriggerId) : MessageId :=
  SCHEDULER ++ id_conversation (schedule_id t) ++ lit ":" ++ trigger_correlation t.

(** [ScheduledWorkflowStartId::for_trigger] *)
Definition for_trigger (t : ScheduleTriggerId) : str := lit "swf_" ++ trigger_digest t.

Definition MAX_SCHEDULED_WORKFLOW_CONTRACT_BYTES : N := 64 * 1024.

(** [scheduled_workflow::accept_tx] *)
Definition accept_tx (b : ScheduleBinding) (t : ScheduleTriggerId) (p : PinnedScheduledWorkflow)
    (arguments : json) (now : DateTime) (db : ScheduleDb) : R (StartHead * ScheduleDb) :=
  _ ← guard_err (negb (bool_decide (p_binding p = b)))
        (InvalidReference (lit "scheduled start binding mismatch"));
  _ ← guard_err ((MAX_SCHEDULED_WORKFLOW_CONTRACT_BYTES <? contract_bytes p)%N
                 || (16384 <? json_bytes arguments)%N) ResourceBoundExceeded;
  let i := for_trigger t in
  (* the start identity is the primary key *)
  _ ← guard_err (bool_decide (is_Some (starts db !! i))) (Storage (lit "scheduled Workflow"));
  Ok ({| h_id := i; h_run := {| run_conversation := b_conversation b; run_origin := OScheduled i; invocation := 1 |};
         h_trigger := t; h_binding := b; h_accepted_at := now |},
      set_starts (<[i := {| schedule_ordinal := ordinal (schedule_id t); start_trigger := t;
                            start_state := StartAccepted |}]> (starts db)) db).

(** The draft of a scheduled message. *)
Definition scheduled_draft (t : ScheduleTriggerId) (text : str) : InboundDraft :=
  {| d_message_id := Some (trigger_message_id t); d_source := Runtime; d_kind := KMessage;
     d_content := [UText (lit "Scheduled reminder (" ++ show_instant (occurrence_utc t) ++ lit "):"
                          ++ [10%N] ++ text)];
     d_timestamp := occurrence_utc t; d_correlation := Some (trigger_correlation t) |}.

(** The native target of [admit_scheduled_target]. *)
Definition admit_target (s : ScheduleSnapshot) (t : ScheduleTriggerId) (now : DateTime) (db : ScheduleDb)
    : R ((AcceptedInbound + StartHead) * ScheduleDb) :=
  match target s with
  | ConversationInbound text =>
      '(accepted, i) ← accept_scheduled_inbound_tx (scheduled_draft t text) (inbox db);
      _ ← guard_err (retried accepted)
            (Storage (lit "schedule revision points at an already admitted occurrence"));
      Ok (inl accepted, set_inbox i db)
  | TWorkflow p arguments =>
      '(start, db) ← accept_tx (binding s) t p arguments now db;
      Ok (inr start, db)
  end.

Definition target_receipt_of (x : AcceptedInbound + StartHead) : ScheduledTargetReceipt :=
  match x with
  | inl a => RInbound (a_message_id a) (a_sequence a)
  | inr h => RWorkflow (h_id h) (h_run h)
  end.

(** [admit_scheduled_target] *)
Definition admit_scheduled_target (i : ScheduleId) (expected : N) (now : DateTime) (db : ScheduleDb)
    : R (ScheduleAdmission * ScheduleDb) :=
  if negb (bool_decide (id_conversation i = conversation db)) then Ok (ANotFound, db)
  else
    match read (ordinal i) db with
    | None => Ok (ANotFound, db)
    | Some s =>
        if negb (revision s =? expected)%N then Ok (AlreadyAdvanced s, db)
        else
          match (match next_due s with
                 | Some due => if (due <=? now)%Z && bool_decide (state s = Enabled) then Some due else None
                 | None => None
                 end) with
          | None => Ok (NotDue, db)
          | Some due =>
              if outstanding (ordinal i) db then Ok (WaitingForTarget, db)
              else if (256 <=? Nat.min 256 (length (pending_targets db))
                               + Nat.min 256 (size (active_starts db)))%nat
              then Ok (SchedulerCapacity, db)
              else
                match occurrence (spec s) due now with
                | Err reason =>
                    n ← increment (revision s);
                    let s := with_schedule_revision n (disable reason s) in
                    db ← advance_generation (save s db);
                    Ok (ADisabled s, db)
                | Ok (selected, next) =>
                    let t := {| schedule_id := i; admission_revision := expected; occurrence_utc := selected |} in
                    '(admitted, db) ← admit_target s t now db;
                    n ← increment (revision s);
                    let s := advance n next {| trigger_id := t; accepted_at := now;
                                               target_receipt := target_receipt_of admitted |} now s in
                    db ← advance_generation (save s db);
                    Ok (match admitted with inl a => AdmittedInbound s a | inr h => WorkflowAdmitted s h end,
                        prune now db)
                end
          end
    end.
End admission.

(** ** Reading *)

(** The rows in key order. *)
Definition by_ordinal (x y : N * ScheduleSnapshot) : Prop := (x.1 <= y.1)%N.
#[export] Instance by_ordinal_dec : RelDecision by_ordinal := λ x y, N.le_dec x.1 y.1.

(** [schedule_list] *)
Definition schedule_list (after limit : N) (db : ScheduleDb) : R (list ScheduleSnapshot) :=
  _ ← guard_err (negb ((1 <=? limit)%N && (limit <=? 100)%N) || (i64_max <? after)%N) ResourceBoundExceeded;
  Ok (take (N.to_nat limit)
        (map snd (List.filter (λ x, (after <? x.1)%N) (merge_sort by_ordinal (map_to_list (schedules db)))))).

Record ScheduleDueCursor := { cursor_due : DateTime; cursor_ordinal : N }.
Record ScheduleCandidate := { cand_id : ScheduleId; cand_revision : N; cand_due : DateTime }.
Record ScheduleDuePage := { page_generation : N; candidates : list ScheduleCandidate;
                            next_cursor : option ScheduleDueCursor }.

(** The order [next_due, ordinal]. *)
Definition due_before (c d : ScheduleCandidate) : Prop :=
  (cand_due c < cand_due d)%Z ∨
  (cand_due c = cand_due d ∧ (ordinal (cand_id c) <= ordinal (cand_id d))%N).
#[export] Instance due_before_dec : RelDecision due_before.
Proof. intros c d. unfold due_before. apply _. Defined.

Definition after_cursor (after : option ScheduleDueCursor) (c : ScheduleCandidate) : bool :=
  match after with
  | None => true
  | Some k => (cursor_due k <? cand_due c)%Z
              || ((cursor_due k =? cand_due c)%Z && (cursor_ordinal k <? ordinal (cand_id c))%N)
  end.

(** The enabled schedules due at [now]. *)
Definition due_candidates (now : DateTime) (db : ScheduleDb) : list ScheduleCandidate :=
  omap (λ x, match state x.2, next_due x.2 with
             | Enabled, Some due =>
                 if (due <=? now)%Z
                 then Some {| cand_id := {| id_conversation := conversation db; ordinal := x.1 |};
                              cand_revision := revision x.2; cand_due := due |}
                 else None
             | _, _ => None
             end) (map_to_list (schedules db)).

(** [schedule_due_page] *)
Definition schedule_due_page (now : DateTime) (after : option ScheduleDueCursor) (db : ScheduleDb)
    : ScheduleDuePage :=
  let page := take 64 (List.filter (after_cursor after) (merge_sort due_before (due_candidates now db))) in
  {| page_generation := generation db; candidates := page;
     next_cursor := if (length page =? 64)%nat
                    then (λ c, {| cursor_due := cand_due c; cursor_ordinal := ordinal (cand_id c) |}) <$> last page
                    else None |}.

(** ** Runs *)

(** The states a start moves through: waiting, claimed, settled. *)
Inductive start_edge : StartState → StartState → Prop :=
| edge_wait : start_edge StartAccepted StartAccepted
| edge_claim : start_edge StartAccepted StartClaimed
| edge_work : start_edge StartClaimed StartClaimed
| edge_settle s : s ≠ StartSettled → start_edge s StartSettled.

Section runs.
Context `{Croner, SchedulerEnv}.

(** The transactions of the scheduler and of the rest of the store.  [run_start] is
    [scheduled_workflow::save]; a pruning that removed something advances the generation. *)
Inductive schedule_step : ScheduleDb → ScheduleDb → Prop :=
| run_command b c now a p cancelled r db db' :
    schedule_command_impl b c now a p cancelled db = Ok (r, db') → schedule_step db db'
| run_admit i expected now r db db' :
    admit_scheduled_target i expected now db = Ok (r, db') → schedule_step db db'
| run_inbox i db : native_step (inbox db) i → schedule_step db (set_inbox i db)
| run_start i row x now db db' :
    starts db !! i = Some row → start_edge (start_state row) x →
    advance_generation (set_starts (<[i := {| schedule_ordinal := schedule_ordinal row;
      start_trigger := start_trigger row; start_state := x |}]> (starts db)) db) = Ok db' →
    schedule_step db (if bool_decide (x = StartSettled) then prune now db' else db')
| run_prune now (removed : bool) db db' :
    (if removed then advance_generation (prune now db) else Ok (prune now db)) = Ok db' → schedule_step db db'.

Definition schedule_start (c : str) : ScheduleDb :=
  {| inbox := inbox_start c; next_ordinal := 0; generation := 0; schedules := ∅; commands := ∅; starts := ∅ |}.

(** ** The invariant *)

(** No later admission can use a revision: it was used, and the ordinal is never reused. *)
Definition retired (o rev : N) (db : ScheduleDb) : Prop :=
  (o <= next_ordinal db)%N ∧ ∀ s, schedules db !! o = Some s → (rev < revision s)%N.

(** A stored schedule. *)
Record row_ok (c : str) (o : N) (s : ScheduleSnapshot) : Prop := {
  row_ordinal : id s = {| id_conversation := c; ordinal := o |};
  row_binding : b_conversation (binding s) = c;
  row_revision_bound : (1 <= revision s <= i64_max)%N;
  row_spec : spec_ok (spec s);
  row_state : match state s with
    | Completed => next_due s = None ∧ is_Some (completed_at s) ∧
                   completed_reason s = Some (completion_reason (spec s))
    | _ => (∃ due, next_due s = Some due ∧ due_ok (spec s) due) ∧
           completed_at s = None ∧ completed_reason s = None
    end;
}.

Definition live (x : N * ScheduleSnapshot) : Prop := negb (is_completed x.2).
Definition completed_row (x : N * ScheduleSnapshot) : Prop := is_completed x.2.

(** The unfinished targets of one schedule. *)
Definition targets_of (o : N) (db : ScheduleDb) : nat :=
  length (List.filter (of_schedule o) (scheduled_pending (inbox db))) +
  size (filter (λ x, active x.2 && bool_decide (schedule_ordinal x.2 = o)) (starts db)).

Record table_ok (db : ScheduleDb) : Prop := {
  table_rows o s : schedules db !! o = Some s → row_ok (conversation db) o s ∧ (o <= next_ordinal db)%N;
  table_ordinal : (next_ordinal db <= i64_max)%N;
  table_live : size (filter live (schedules db)) ≤ 256;
}.

Record schedule_ok (db : ScheduleDb) : Prop := {
  so_inbox : inbox_ok (inbox db);
  so_table : table_ok db;
  so_completed : size (filter completed_row (schedules db)) ≤ 200;
  so_messages c : c ∈ scheduled_correlations (inbox db) →
    ∃ t, c = trigger_correlation t ∧ retired (ordinal (schedule_id t)) (admission_revision t) db;
  so_starts i r : starts db !! i = Some r →
    i = for_trigger (start_trigger r) ∧ schedule_ordinal r = ordinal (schedule_id (start_trigger r)) ∧
    retired (schedule_ordinal r) (admission_revision (start_trigger r)) db;
  so_targets o : targets_of o db ≤ 1;
  so_capacity : length (scheduled_pending (inbox db)) + size (active_starts db) ≤ 256;
}.
End runs.

(** ** Counting rows *)

Section counting.
Context {K V : Type} `{Countable K} (P : K * V → Prop) `{∀ x, Decision (P x)}.
Implicit Types m : gmap K V.

Lemma size_filter_insert m k v : size (filter P (<[k:=v]> m)) ≤ S (size (filter P m)).
Proof.
  destruct (decide (P (k, v))) as [Hp|Hp].
  - rewrite map_filter_insert_True by done. rewrite map_size_insert. destruct (filter P m !! k); cbn; lia.
  - rewrite map_filter_insert_False by done. etrans; [|apply Nat.le_succ_diag_r].
    apply map_subseteq_size, map_filter_subseteq_mono, delete_subseteq.
Qed.

(** Overwriting a row does not raise the count, unless the new row counts and the old did not. *)
Lemma size_filter_overwrite m k v :
  (P (k, v) → ∃ v0, m !! k = Some v0 ∧ P (k, v0)) → size (filter P (<[k:=v]> m)) ≤ size (filter P m).
Proof.
  intros Hv. destruct (decide (P (k, v))) as [Hp|Hp].
  - destruct (Hv Hp) as (v0 & Hk & Hp0). rewrite map_filter_insert_True by done.
    rewrite map_size_insert_Some by (eexists; by apply map_lookup_filter_Some). done.
  - rewrite map_filter_insert_False by done. apply map_subseteq_size, map_filter_subseteq_mono, delete_subseteq.
Qed.

Lemma size_filter_mono m m' : m ⊆ m' → size (filter P m) ≤ size (filter P m').
Proof. intros Hm. by apply map_subseteq_size, map_filter_subseteq_mono. Qed.
End counting.

(** ** The growth of the table *)

(** Ordinals and revisions only grow, and a revision has one content. *)
Record grows (db db' : ScheduleDb) : Prop := {
  grows_conversation : conversation db' = conversation db;
  grows_ordinal : (next_ordinal db <= next_ordinal db')%N;
  grows_row o s' : schedules db' !! o = Some s' →
    (∃ s, schedules db !! o = Some s ∧ (s' = s ∨ (revision s < revision s')%N)) ∨ (next_ordinal db < o)%N;
}.

#[export] Instance grows_preorder : PreOrder grows.
Proof.
  split.
  - intros db. split; [done..|]. eauto.
  - intros db1 db2 db3 [C1 O1 R1] [C2 O2 R2]. split; [congruence|lia|]. intros o s3 H3.
    destruct (R2 o s3 H3) as [(s2 & H2 & Hs2)|]; [|right; lia].
    destruct (R1 o s2 H2) as [(s1 & H1 & Hs1)|]; [left|by right].
    exists s1. split; [done|]. destruct Hs2 as [->|]; [done|]. right. destruct Hs1 as [->|]; lia.
Qed.

Lemma retired_grows o rev db db' : grows db db' → retired o rev db → retired o rev db'.
Proof.
  intros [_ Ho Hr] [Hle Hs]. split; [lia|]. intros s' Hs'.
  destruct (Hr o s' Hs') as [(s & Hs0 & E)|]; [|lia]. specialize (Hs s Hs0). destruct E as [->|]; lia.
Qed.

Lemma advance_generation_ok db db' :
  advance_generation db = Ok db' →
  inbox db' = inbox db ∧ next_ordinal db' = next_ordinal db ∧ schedules db' = schedules db ∧
  commands db' = commands db ∧ starts db' = starts db.
Proof. unfold advance_generation. by intros (g & _ & [= <-])%bind_ok. Qed.

Lemma grows_advance db db' : advance_generation db = Ok db' → grows db db'.
Proof.
  intros (Hi & Ho & Hs & _)%advance_generation_ok. split; rewrite ?Ho; [|done|rewrite Hs; eauto].
  unfold conversation. by rewrite Hi.
Qed.

Lemma prune_subseteq now db : schedules (prune now db) ⊆ schedules db.
Proof. apply map_filter_subseteq. Qed.

Lemma grows_prune now db : grows db (prune now db).
Proof.
  split; [done..|]. intros o s Hs. left. exists s. split; [|by left].
  by apply (lookup_weaken _ _ _ _ Hs), prune_subseteq.
Qed.

(** Of finitely many rows compared by a strict total order one comes first. *)
Lemma exists_first {A} (before : A → A → bool) (l : list A) x0 :
  (∀ x y z, before x y = true → before y z = true → before x z = true) →
  (∀ x y, x ∈ x0 :: l → y ∈ x0 :: l → x = y ∨ before x y = true ∨ before y x = true) →
  ∃ x, x ∈ x0 :: l ∧ ∀ y, y ∈ x0 :: l → y = x ∨ before x y = true.
Proof.
  intros Ht. revert x0. induction l as [|x1 l IH]; intros x0 Htot.
  { exists x0. split; [set_solver|]. intros y. rewrite list_elem_of_singleton. by left. }
  destruct (IH x1) as (x & Hx & Hmin); [intros y z Hy Hz; apply Htot; set_solver|].
  destruct (Htot x0 x) as [->|[Hb|Hb]]; [set_solver..| | |].
  - exists x. split; [set_solver|]. intros y [->|Hy]%elem_of_cons; auto.
  - exists x0. split; [set_solver|]. intros y [->|Hy]%elem_of_cons; [by left|].
    destruct (Hmin y Hy) as [->|?]; [by right|right; eauto].
  - exists x. split; [set_solver|]. intros y [->|Hy]%elem_of_cons; auto.
Qed.

Definition older (a b : N * ScheduleSnapshot) : bool := newer b.2 a.2.

Lemma older_trans x y z : older x y = true → older y z = true → older x z = true.
Proof.
  unfold older, newer. destruct (completed_at x.2), (completed_at y.2), (completed_at z.2); try done;
    rewrite ?orb_true_iff, ?andb_true_iff, ?Z.ltb_lt, ?Z.eqb_eq, ?N.ltb_lt; lia.
Qed.

Lemma older_total (x y : N * ScheduleSnapshot) :
  ordinal (id x.2) ≠ ordinal (id y.2) → older x y = true ∨ older y x = true.
Proof.
  intros Hne. unfold older, newer. destruct (completed_at x.2), (completed_at y.2); auto;
    rewrite ?orb_true_iff, ?andb_true_iff, ?Z.ltb_lt, ?Z.eqb_eq, ?N.ltb_lt; lia.
Qed.

(** Pruning keeps at most 200 completed schedules. *)
Lemma prune_bound now db :
  (∀ o s, schedules db !! o = Some s → ordinal (id s) = o) →
  size (filter completed_row (schedules (prune now db))) ≤ 200.
Proof.
  intros Hid. set (kept := filter completed_row (schedules (prune now db))).
  destruct (map_to_list kept) as [|x0 l] eqn:El.
  { apply map_to_list_empty_iff in El. rewrite El, map_size_empty. lia. }
  assert (Hin : ∀ x, x ∈ x0 :: l ↔ kept !! x.1 = Some x.2).
  { intros [k v]. rewrite <-El. apply elem_of_map_to_list. }
  assert (Hold : ∀ x, kept !! x.1 = Some x.2 → schedules db !! x.1 = Some x.2 ∧ is_completed x.2 = true ∧ rank x.2 (schedules db) < 200).
  { intros [k v] Hk. cbn in *. apply map_lookup_filter_Some in Hk as [Hk Hc].
    apply map_lookup_filter_Some in Hk as [Hk Hexp]. cbn in *. unfold completed_row in Hc. cbn in Hc.
    apply Is_true_eq_true in Hc. split_and!; [done..|].
    apply Is_true_eq_true, negb_true_iff in Hexp. unfold expired in Hexp. rewrite Hc, andb_true_l in Hexp.
    apply orb_false_iff in Hexp as [_ Hr]. by apply Nat.leb_gt in Hr. }
  destruct (exists_first older l x0 older_trans) as (x & Hx & Hmin).
  { intros x y [Hx _]%Hin%Hold [Hy _]%Hin%Hold.
    destruct (decide (x.1 = y.1)) as [E|Hne]; [left|right; apply older_total; by rewrite (Hid _ _ Hx), (Hid _ _ Hy)].
    destruct x, y; cbn in *. congruence. }
  apply Hin in Hx as Hkx. apply Hold in Hkx as (Hsx & _ & Hr).
  assert (Hle : size (delete x.1 kept) ≤ rank x.2 (schedules db)).
  { unfold rank. apply map_subseteq_size, map_subseteq_spec. intros k v [Hne Hk]%lookup_delete_Some.
    destruct (Hold (k, v) Hk) as (Hs & Hc & _). cbn in *. apply map_lookup_filter_Some. split; [done|]. cbn.
    rewrite Hc. destruct (Hmin (k, v)) as [<-|Ho]; [by apply Hin|done|]. unfold older in Ho. cbn in Ho. by rewrite Ho. }
  rewrite map_size_delete_Some in Hle by (apply Hin in Hx; eauto). lia.
Qed.

(** ** The identities of triggers *)

Section triggers.
Context `{SchedulerEnv}.

Lemma colon : lit ":" = [58%N].
Proof. done. Qed.

Lemma dec_no_colon n : 58%N ∉ dec n.
Proof. intros Hd%dec_digits. lia. Qed.

Lemma is_scheduler_trigger t : is_scheduler (trigger_correlation t) = true.
Proof. apply bool_decide_eq_true. by eexists. Qed.

(** A correlation tells its schedule and revision. *)
Lemma trigger_correlation_inj t u :
  trigger_correlation t = trigger_correlation u →
  ordinal (schedule_id t) = ordinal (schedule_id u) ∧ admission_revision t = admission_revision u.
Proof.
  unfold trigger_correlation. rewrite !colon. intros E%(inj (app _)).
  apply app_sep_inj in E as [E1%(inj dec) E]; [|apply dec_no_colon..].
  by apply app_sep_inj in E as [E2%(inj dec) _]; [|apply dec_no_colon..].
Qed.

Lemma of_schedule_trigger o t :
  of_schedule o (trigger_correlation t) = bool_decide (o = ordinal (schedule_id t)).
Proof.
  unfold of_schedule. rewrite is_scheduler_trigger. cbn. apply bool_decide_ext.
  unfold schedule_prefix, trigger_correlation. rewrite !colon. split.
  - intros [k E]. rewrite <-!(assoc_L (++)) in E. apply (inj (app _)) in E.
    by apply app_sep_inj in E as [E%(inj dec) _]; [|apply dec_no_colon..].
  - intros ->. do 2 apply prefix_app. by eexists.
Qed.
End triggers.

(** ** The effect of a command on the schedules *)

Section effects.
Context `{CronerLaws, SchedulerEnv}.

Inductive row_change (db db' : ScheduleDb) : Prop :=
| change_none : db' = db → row_change db db'
| change_create s :
    (next_ordinal db < i64_max)%N → size (filter live (schedules db)) < 256 →
    row_ok (conversation db) (next_ordinal db + 1) s → state s = Enabled →
    db' = save s (set_control (next_ordinal db + 1) (generation db) db) → row_change db db'
| change_edit o old s :
    schedules db !! o = Some old → is_completed old = false → is_completed s = false →
    revision s = (revision old + 1)%N → row_ok (conversation db) o s →
    db' = save s db → row_change db db'
| change_delete o :
    db' = set_schedules (delete o (schedules db)) db → row_change db db'.

Lemma increment_ok n m : increment n = Ok m → m = (n + 1)%N ∧ (m <= i64_max)%N.
Proof.
  unfold increment, i64_next. destruct (N.ltb_spec n i64_max); cbn; [|done]. intros [= <-]. lia.
Qed.

Lemma live_negb s : is_completed s = false → state s = Enabled ∨ state s = Disabled.
Proof. unfold is_completed. intros ?%bool_decide_eq_false. destruct (state s); naive_solver. Qed.

Lemma create_change b title target timing now db r db' changed :
  b_conversation b = conversation db →
  create_schedule b title target timing now db = Ok (r, db', changed) →
  row_change db db' ∧ (changed = false → db' = db).
Proof using All.
  intros Hb. unfold create_schedule. destruct (negb (bounded _ _)); [by intros [= _ <- <-]; split; [apply change_none|]|].
  destruct (resolve timing now) as [[sp due]|] eqn:Er; [|by intros [= _ <- <-]; split; [apply change_none|]].
  destruct (256 <=? _)%nat eqn:El; [by intros [= _ <- <-]; split; [apply change_none|]|]. apply Nat.leb_gt in El.
  intros (o & [-> Ho]%increment_ok & [= _ <- <-])%bind_ok. split; [|done].
  apply resolve_future in Er as (Hsp & Hdue & _).
  eapply change_create; [lia|exact El| | |reflexivity]; [|done].
  split; cbn; try done; [by rewrite Hb|]. split; [eauto|done].
Qed.

Lemma edit_ok c o b m prepared old s :
  row_ok c o old → is_completed old = false → edit_snapshot b m prepared old = Ok s →
  row_ok c o s ∧ is_completed s = false ∧ revision s = revision old.
Proof.
  intros Hok Hc He. pose proof Hok as [R1 R2 R3 R4 R5].
  assert (Hst : (∃ due, next_due old = Some due ∧ due_ok (spec old) due) ∧
    completed_at old = None ∧ completed_reason old = None)
    by (apply live_negb in Hc as [E|E]; by rewrite E in R5).
  assert (Hw : ∀ t x, row_ok c o (with_content t x old) ∧ is_completed (with_content t x old) = false ∧
    revision (with_content t x old) = revision old) by (intros t x; split_and!; [by split|done..]).
  destruct m as [i e t tm|t w a tm|i e t w a tm|t x tm|i e t x tm|i e en|i e]; cbn in He.
  - injection He as <-. apply Hw.
  - by injection He as <-.
  - destruct (prepared_for b w prepared); [|done]. injection He as <-. apply Hw.
  - by injection He as <-.
  - destruct (negb (bounded t x)); [done|]. destruct (target old); [|done]. injection He as <-. apply Hw.
  - injection He as <-. split_and!; [|by destruct en|done]. split; cbn; try done. by destruct en.
  - by injection He as <-.
Qed.

Lemma timing_ok c o (t : option ScheduleTiming) now s s' :
  row_ok c o s → is_completed s = false →
  (match t with
   | None => Ok s
   | Some t => '(spec, due) ← resolve t now; Ok (with_timing spec due s)
   end) = (Ok s' : result str _) →
  row_ok c o s' ∧ is_completed s' = false ∧ revision s' = revision s.
Proof using All.
  intros Hok Hc. destruct t as [t|]; [|by intros [= <-]].
  intros ([sp due] & (Hsp & Hdue & _)%resolve_future & [= <-])%bind_ok.
  destruct Hok as [R1 R2 R3 R4 R5]. split_and!; [|done..]. split; try done. cbn in *.
  apply live_negb in Hc as [E|E]; rewrite E in *; (split; [eauto|apply R5]).
Qed.
(** Every command changes at most one row. *)
Lemma apply_change b m now prepared db r db' changed :
  table_ok db → b_conversation b = conversation db →
  apply_command b m now prepared db = Ok (r, db', changed) →
  row_change db db' ∧ (changed = false → db' = db).
Proof using All.
  intros Hok Hb.
  assert (Hnone : ∀ (r0 r1 : ScheduleCommandResult) db1 c, Ok (r0, db, false) = (Ok (r1, db1, c) : R _) → row_change db db1 ∧ (c = false → db1 = db))
    by (intros ???? [= _ <- <-]; split; [apply change_none|]; done).
  assert (He : ∀ i expected, apply_existing b m i expected now prepared db = Ok (r, db', changed) →
    row_change db db' ∧ (changed = false → db' = db)).
  { intros i expected. unfold apply_existing. destruct (negb _); [apply Hnone|].
    unfold read. destruct (i64_max <? ordinal i)%N; [apply Hnone|].
    destruct (schedules db !! ordinal i) as [old|] eqn:Eo; [|apply Hnone].
    destruct (negb _); [apply Hnone|]. destruct (negb _); [apply Hnone|].
    assert (Hedit : (if is_completed old
      then Ok (invalid "completed schedules are terminal; create a new schedule", db, false)
      else match edit_snapshot b m prepared old with
           | Err refusal => Ok (refusal, db, false)
           | Ok s => match (match timing_of m with
                            | None => Ok s
                            | Some t => '(spec, due) ← resolve t now; Ok (with_timing spec due s)
                            end) with
                     | Err reason => Ok (Invalid reason, db, false)
                     | Ok s => if bool_decide (s = old) then Ok (Applied (receipt_of s), db, false)
                               else n ← increment (revision s);
                                    let s := with_schedule_revision n s in
                                    Ok (Applied (receipt_of s), save s db, true)
                     end
           end) = Ok (r, db', changed) → row_change db db' ∧ (changed = false → db' = db)).
    { destruct (is_completed old) eqn:Ec; [apply Hnone|].
      destruct (edit_snapshot b m prepared old) as [s|] eqn:Es; [|apply Hnone].
      destruct (match timing_of m with None => _ | Some _ => _ end) as [s'|] eqn:Et; [|apply Hnone].
      destruct (bool_decide (s' = old)); [apply Hnone|]. cbn zeta.
      intros (n & [-> Hn]%increment_ok & [= _ <- <-])%bind_ok. split; [|done].
      destruct (table_rows db Hok _ _ Eo) as [Hrow _].
      destruct (edit_ok _ _ _ _ _ _ _ Hrow Ec Es) as (Hrow1 & Hc1 & Hr1).
      destruct (timing_ok _ _ _ _ _ _ Hrow1 Hc1 Et) as ([K1 K2 K3 K4 K5] & Hc2 & Hr2).
      apply (change_edit _ _ (ordinal i) old (with_schedule_revision (revision s' + 1) s')); try done.
      - cbn. by rewrite Hr2, Hr1.
      - split; cbn; try done. lia. }
    destruct m; try exact Hedit.
    intros (n & _ & [= _ <- <-])%bind_ok. split; [|done]. by apply (change_delete _ _ (ordinal i)). }
  destruct m; cbn [apply_command]; eauto.
  - destruct (prepared_for _ _ _); [|apply Hnone]. by apply create_change.
  - by apply create_change.
Qed.

Lemma save_lookup s db o s' :
  schedules (save s db) !! o = Some s' → (o = ordinal (id s) ∧ s' = s) ∨ (o ≠ ordinal (id s) ∧ schedules db !! o = Some s').
Proof. cbn. rewrite lookup_insert_Some. naive_solver. Qed.

Lemma live_lookup db o s : schedules db !! o = Some s → is_completed s = false → live (o, s).
Proof. unfold live. cbn. by intros _ ->. Qed.

(** What a changed row leaves of the table. *)
Lemma row_change_table db db' :
  table_ok db → row_change db db' →
  table_ok db' ∧ grows db db' ∧ inbox db' = inbox db ∧ starts db' = starts db ∧ commands db' = commands db.
Proof.
  intros [Hrows Hord Hlive] [->|s Hn Hl Hrow He ->|o old s Ho Hc Hc' Hr Hrow ->|o ->].
  - split_and!; done.
  - pose proof (row_ordinal _ _ _ Hrow) as Hid. split_and!; [|split|done..]; cbn; rewrite ?Hid; cbn.
    + split; cbn; rewrite ?Hid; cbn; [|lia|].
      * intros o' s'. rewrite lookup_insert_Some. intros [[<- <-]|[_ Hs]]; [split; [done|lia]|].
        destruct (Hrows _ _ Hs). split; [done|lia].
      * etrans; [apply size_filter_insert|lia].
    + done.
    + lia.
    + intros o' s'. rewrite lookup_insert_Some. intros [[<- <-]|[_ Hs]]; [right; lia|left; eauto].
  - pose proof (row_ordinal _ _ _ Hrow) as Hid. destruct (Hrows _ _ Ho) as [_ Hle].
    split_and!; [|split|done..]; cbn; rewrite ?Hid; cbn.
    + split; cbn; rewrite ?Hid; cbn; [|done|].
      * intros o' s'. rewrite lookup_insert_Some. intros [[<- <-]|[_ Hs]]; [done|auto].
      * etrans; [apply size_filter_overwrite|done]. intros _. exists old. split; [done|by eapply live_lookup].
    + done.
    + lia.
    + intros o' s'. rewrite lookup_insert_Some. intros [[<- <-]|[_ Hs]]; left; [exists old; split; [done|right; lia]|eauto].
  - split_and!; [|split|done..]; cbn.
    + split; cbn; [|done|].
      * intros o' s' [_ Hs]%lookup_delete_Some. auto.
      * etrans; [apply size_filter_mono, delete_subseteq|done].
    + done.
    + lia.
    + intros o' s' [_ Hs]%lookup_delete_Some. left; eauto.
Qed.

Lemma prune_table now db : table_ok db →
  table_ok (prune now db) ∧ size (filter completed_row (schedules (prune now db))) ≤ 200.
Proof.
  intros [Hrows Hord Hlive]. split.
  - split; [|done|].
    + intros o s Hs. apply (Hrows o s), (lookup_weaken _ _ _ _ Hs), prune_subseteq.
    + etrans; [apply size_filter_mono, prune_subseteq|done].
  - apply prune_bound. intros o s Hs. destruct (Hrows o s Hs) as [[Hid _ _ _ _] _]. by rewrite Hid.
Qed.

Lemma advance_table db db' : advance_generation db = Ok db' → table_ok db → table_ok db'.
Proof.
  intros (Hi & Ho & Hs & _)%advance_generation_ok [R1 R2 R3].
  split; rewrite ?Hs, ?Ho; try done. unfold conversation. by rewrite Hi.
Qed.
(** A command either leaves the database or commits one change with its receipt. *)
Lemma command_cases b c now a prepared cancelled db r db' :
  schedule_command_impl b c now a prepared cancelled db = Ok (r, db') →
  db' = db ∨ ∃ scope attempt used r0 db1 db2,
    command_input_error (conversation db) b c = None ∧ command_scope a = Some (scope, attempt) ∧
    commands db !! (scope, command_id c) = None ∧ count_used scope attempt db = Ok (Some used) ∧
    apply_command b (mutation c) now prepared db = Ok (r0, db1, true) ∧
    (is_Some attempt → used < SCHEDULE_REQUEST_MUTATION_LIMIT) ∧
    advance_generation db1 = Ok db2 ∧
    db' = set_commands (<[(scope, command_id c) := {| request_attempt_id := attempt;
      digest := command_digest b (mutation c); committed := r |}]> (commands db2)) (prune now db2).
Proof.
  unfold schedule_command_impl. destruct (command_input_error _ b c) eqn:Ei; [by intros [= _ <-]; left|].
  destruct (command_scope a) as [[scope attempt]|] eqn:Es; [|by intros [= _ <-]; left].
  destruct (commands db !! _) as [row|] eqn:El; [by intros [= _ <-]; left|].
  intros (used & Hu & H')%bind_ok. destruct used as [used|]; [|by injection H' as _ <-; left].
  apply bind_ok in H' as (u & _ & ([[r0 db1] changed] & Ha & H')%bind_ok).
  destruct (changed && _ && _) eqn:Eb; [by injection H' as _ <-; left|].
  apply bind_ok in H' as (u' & _ & H'). destruct changed; [|by injection H' as _ <-; left].
  apply bind_ok in H' as (db2 & Hg & H'). injection H' as <- <-. right.
  exists scope, attempt, used, r0, db1, db2. split_and!; try done.
  intros Hs. rewrite bool_decide_eq_true_2 in Eb by done. cbn [andb] in Eb. by apply Nat.leb_gt in Eb.
Qed.

Lemma schedule_ok_frame db db' :
  schedule_ok db → inbox db' = inbox db → starts db' = starts db → grows db db' → table_ok db' →
  size (filter completed_row (schedules db')) ≤ 200 → schedule_ok db'.
Proof.
  intros [Hi Ht Hc Hm Hs Htg Hcap] Ei Es Hg Ht' Hc'. split; try done; unfold targets_of, active_starts; rewrite ?Ei, ?Es; try done.
  - intros c Hin. destruct (Hm c Hin) as (t & -> & Hr). exists t. split; [done|]. by eapply retired_grows.
  - intros i r Hr. destruct (Hs i r Hr) as (? & ? & ?). split_and!; [done..|]. by eapply retired_grows.
Qed.

Lemma schedule_ok_commands m db : schedule_ok db → schedule_ok (set_commands m db).
Proof. intros [? [] ? ? ? ? ?]. by split. Qed.

Lemma input_conversation cv b c : command_input_error cv b c = None → b_conversation b = cv.
Proof.
  unfold command_input_error. destruct (negb (bool_decide (b_conversation b = cv))) eqn:E; [done|].
  intros _. by apply negb_false_iff, bool_decide_eq_true in E.
Qed.

Lemma command_ok b c now a prepared cancelled db r db' :
  schedule_ok db → schedule_command_impl b c now a prepared cancelled db = Ok (r, db') →
  schedule_ok db' ∧ grows db db'.
Proof using All.
  intros Hok Hr. apply command_cases in Hr as
    [->|(scope & attempt & used & r0 & db1 & db2 & Hi & _ & _ & _ & Ha & _ & Hg & ->)]; [done|].
  pose proof (so_table db Hok) as Ht. apply apply_change in Ha as [Hch _]; [|done|by eapply input_conversation].
  apply row_change_table in Hch as (Ht1 & Hg1 & Hi1 & Hs1 & _); [|done].
  pose proof (advance_table _ _ Hg Ht1) as Ht2. destruct (prune_table now db2 Ht2) as [Ht3 Hc3].
  pose proof (grows_advance _ _ Hg) as Hg2. apply advance_generation_ok in Hg as (Hi2 & _ & _ & _ & Hs2).
  assert (Hg' : grows db (prune now db2)) by (etrans; [done|]; etrans; [done|]; apply grows_prune).
  assert (Hok3 : schedule_ok (prune now db2)).
  { apply (schedule_ok_frame db); try done; cbn; congruence. }
  split; [by apply schedule_ok_commands|]. by destruct Hg'; split.
Qed.
(** ** The effect of an admission *)

Lemma pending_count db : length (pending_targets db) = length (scheduled_pending (inbox db)).
Proof.
  unfold pending_targets, scheduled_pending. induction (pending (inbox db)) as [|r l IH]; cbn; [done|].
  unfold on_correlation at 1. destruct (correlation r) as [c|]; cbn; [|done]. destruct (is_scheduler c); cbn; by rewrite ?IH.
Qed.

Lemma outstanding_false o db : outstanding o db = false → targets_of o db = 0.
Proof.
  unfold outstanding, targets_of. intros [Hp Hs]%orb_false_iff.
  assert (List.filter (of_schedule o) (scheduled_pending (inbox db)) = []) as ->.
  { unfold scheduled_pending. revert Hp. induction (pending (inbox db)) as [|r l IH]; cbn; [done|].
    intros [Hr Hl]%orb_false_iff. unfold on_correlation in Hr. destruct (correlation r) as [c|]; cbn; [|auto].
    destruct (is_scheduler c); cbn; [rewrite Hr|]; auto. }
  cbn. apply map_size_empty_iff, map_eq. intros i. rewrite lookup_empty. apply map_lookup_filter_None.
  right. intros r Hr [Ha Ho%bool_decide_eq_true]%Is_true_eq_true%andb_true_iff. cbn in *.
  assert (existsb (λ x, (schedule_ordinal x.2 =? o)%N) (map_to_list (active_starts db)) = true); [|congruence].
  apply existsb_exists. exists (i, r). cbn. split; [|by apply N.eqb_eq].
  apply list_elem_of_In, elem_of_map_to_list, map_lookup_filter_Some. split; [done|]. cbn. by rewrite Ha.
Qed.

(** The trigger of an admission. *)
Definition trigger_of_admission (i : ScheduleId) (expected : N) (selected : DateTime) : ScheduleTriggerId :=
  {| schedule_id := i; admission_revision := expected; occurrence_utc := selected |}.

Lemma admission_cases i expected now db r db' :
  admit_scheduled_target i expected now db = Ok (r, db') →
  (db' = db ∧ match r with AdmittedInbound _ _ | WorkflowAdmitted _ _ | ADisabled _ => False | _ => True end) ∨
  ∃ s due, id_conversation i = conversation db ∧ schedules db !! ordinal i = Some s ∧ revision s = expected ∧
    state s = Enabled ∧ next_due s = Some due ∧ (due <= now)%Z ∧ (expected + 1 <= i64_max)%N ∧
    targets_of (ordinal i) db = 0 ∧ length (scheduled_pending (inbox db)) + size (active_starts db) < 256 ∧
    ((∃ reason, occurrence (spec s) due now = Err reason ∧
        let s' := with_schedule_revision (expected + 1) (disable reason s) in
        r = ADisabled s' ∧ advance_generation (save s' db) = Ok db') ∨
     (∃ selected next x db1 db2, occurrence (spec s) due now = Ok (selected, next) ∧
        let t := trigger_of_admission i expected selected in
        let s' := advance (expected + 1) next {| trigger_id := t; accepted_at := now;
                    target_receipt := target_receipt_of x |} now s in
        admit_target s t now db = Ok (x, db1) ∧ advance_generation (save s' db1) = Ok db2 ∧
        db' = prune now db2 ∧
        r = match x with inl a => AdmittedInbound s' a | inr h => WorkflowAdmitted s' h end)).
Proof.
  unfold admit_scheduled_target. destruct (negb (bool_decide (_ = _))) eqn:Ei; [by intros [= <- <-]; left|].
  apply negb_false_iff, bool_decide_eq_true in Ei. unfold read.
  destruct (i64_max <? ordinal i)%N; [by intros [= <- <-]; left|].
  destruct (schedules db !! ordinal i) as [s|] eqn:Es; [|by intros [= <- <-]; left].
  destruct (negb _) eqn:Er; [by intros [= <- <-]; left|]. apply negb_false_iff, N.eqb_eq in Er.
  destruct (match next_due s with Some _ => _ | None => _ end) as [due|] eqn:Ed; [|by intros [= <- <-]; left].
  destruct (next_due s) as [due'|] eqn:En; [|done]. destruct (_ && _) eqn:Eb in Ed; [|done]. injection Ed as ->.
  apply andb_true_iff in Eb as [Hdue%Z.leb_le Hst%bool_decide_eq_true].
  destruct (outstanding _ _) eqn:Eo; [by intros [= <- <-]; left|]. apply outstanding_false in Eo.
  destruct (256 <=? _)%nat eqn:Ec; [by intros [= <- <-]; left|]. apply Nat.leb_gt in Ec.
  rewrite pending_count in Ec. intros Hr. right. exists s, due.
  assert (Hcap : length (scheduled_pending (inbox db)) + size (active_starts db) < 256) by lia. clear Ec.
  destruct (occurrence (spec s) due now) as [[selected next]|reason] eqn:Eocc.
  - apply bind_ok in Hr as ([x db1] & Hx & Hr). apply bind_ok in Hr as (n & [-> Hn]%increment_ok & Hr).
    apply bind_ok in Hr as (db2 & Hg & Hr). injection Hr as <- <-. rewrite Er in *.
    split_and!; try done. right. exists selected, next, x, db1, db2. done.
  - apply bind_ok in Hr as (n & [-> Hn]%increment_ok & Hr).
    apply bind_ok in Hr as (db2 & Hg & Hr). injection Hr as <- <-. rewrite Er in *.
    split_and!; try done. left. exists reason. done.
Qed.

(** What the native target adds. *)
Lemma target_cases s t now db x db1 :
  inbox_ok (inbox db) → admit_target s t now db = Ok (x, db1) →
  (∃ a i text, x = inl a ∧ db1 = set_inbox i db ∧ target s = ConversationInbound text ∧
     conversation_id i = conversation_id (inbox db) ∧
     fresh (scheduled_draft t text) a (inbox db) i) ∨
  (∃ h, x = inr h ∧ h_trigger h = t ∧ starts db !! for_trigger t = None ∧
     db1 = set_starts (<[for_trigger t := {| schedule_ordinal := ordinal (schedule_id t);
             start_trigger := t; start_state := StartAccepted |}]> (starts db)) db).
Proof.
  intros Hok. unfold admit_target. destruct (target s) as [text|p arguments].
  - intros ([a i] & Ha & (u & Hret%guard_err_ok & [= <- <-])%bind_ok)%bind_ok. left. exists a, i, text.
    split_and!; try done; [by eapply accept_conversation|]. by apply accept_fresh.
  - intros ([h db2] & Ha & [= <- <-])%bind_ok. right. exists h. unfold accept_tx in Ha.
    apply bind_ok in Ha as (u & _ & (u1 & _ & (u2 & Hn%guard_err_ok & [= <- <-])%bind_ok)%bind_ok).
    split_and!; try done. apply bool_decide_eq_false in Hn. by apply eq_None_not_Some.
Qed.
(** The unfinished targets with the new one. *)
Lemma target_ok s t now db x db1 :
  schedule_ok db → targets_of (ordinal (schedule_id t)) db = 0 →
  length (scheduled_pending (inbox db)) + size (active_starts db) < 256 →
  admit_target s t now db = Ok (x, db1) →
  (inbox_ok (inbox db1) ∧ conversation db1 = conversation db) ∧
  (schedules db1 = schedules db ∧ next_ordinal db1 = next_ordinal db ∧ commands db1 = commands db) ∧
  (∀ c, c ∈ scheduled_correlations (inbox db1) → c ∈ scheduled_correlations (inbox db) ∨ c = trigger_correlation t) ∧
  (∀ i r, starts db1 !! i = Some r → starts db !! i = Some r ∨
     i = for_trigger t ∧ start_trigger r = t ∧ schedule_ordinal r = ordinal (schedule_id t)) ∧
  (∀ o, targets_of o db1 ≤ 1) ∧
  length (scheduled_pending (inbox db1)) + size (active_starts db1) ≤ 256.
Proof.
  intros Hok H0t Hcap Hx. apply target_cases in Hx as
    [(a & i & text & _ & -> & _ & Hcv & Hf)|(h & _ & _ & Hn & ->)]; [| |apply Hok].
  - pose proof (ok_fresh _ _ _ _ (so_inbox db Hok) Hf) as Hi.
    destruct (fresh_scheduled _ _ _ _ Hf) as [Hc Hp]. cbn [d_correlation scheduled_draft] in Hc, Hp.
    rewrite is_scheduler_trigger in Hc, Hp. split_and!; try done.
    + cbn. rewrite Hc. intros c. rewrite elem_of_app, list_elem_of_singleton. done.
    + auto.
    + intros o. unfold targets_of. cbn. rewrite Hp, List.filter_app, length_app. cbn. rewrite of_schedule_trigger.
      pose proof (so_targets db Hok o) as Ho. unfold targets_of in Ho, H0t.
      case_bool_decide as E; cbn; [subst o; lia|lia].
    + cbn. unfold active_starts. cbn. rewrite Hp, length_app. cbn. unfold active_starts in Hcap. lia.
  - split_and!; try done; [by apply Hok|by left| | |].
    + intros i r. cbn. rewrite lookup_insert_Some. intros [[<- <-]|[_ Hr]]; [right|left]; done.
    + intros o. pose proof (so_targets db Hok o) as Ho. unfold targets_of in *. cbn.
      destruct (decide (o = ordinal (schedule_id t))) as [->|Hne].
      * etrans; [apply Nat.add_le_mono_l, size_filter_insert|lia].
      * etrans; [apply Nat.add_le_mono_l, size_filter_overwrite|done].
        cbn. rewrite (bool_decide_eq_false_2 (ordinal (schedule_id t) = o)) by congruence. by rewrite andb_false_r.
    + unfold active_starts in *. cbn. etrans; [apply Nat.add_le_mono_l, size_filter_insert|lia].
Qed.

Lemma grows_save old s db :
  schedules db !! ordinal (id s) = Some old → (revision old < revision s)%N → grows db (save s db).
Proof.
  intros Ho Hr. split; [done..|]. intros o s' [[-> ->]|[_ Hs]]%save_lookup; left; eauto.
Qed.

Lemma table_save c o old s db :
  table_ok db → schedules db !! o = Some old → is_completed old = false → row_ok c o s →
  c = conversation db → table_ok (save s db).
Proof.
  intros [R1 R2 R3] Ho Hc Hrow ->. pose proof (row_ordinal _ _ _ Hrow) as Hid. split; [|done|].
  - intros o' s' [[-> ->]|[_ Hs]]%save_lookup; [|by apply R1]. rewrite Hid. split; [done|apply (R1 _ _ Ho)].
  - cbn. rewrite Hid. cbn. etrans; [apply size_filter_overwrite|done]. intros _. exists old.
    split; [done|by eapply live_lookup].
Qed.

Lemma advance_row c o s n due next receipt now selected :
  row_ok c o s → state s = Enabled → next_due s = Some due → (n <= i64_max)%N → n = (revision s + 1)%N →
  occurrence (spec s) due now = Ok (selected, next) → row_ok c o (advance n next receipt now s).
Proof using All.
  intros [R1 R2 R3 R4 R5] Hst Hd Hn -> Hocc. rewrite Hst in R5. destruct R5 as ((due' & Hd' & Hdue) & R6 & R7).
  assert (due' = due) as -> by congruence. split; cbn; try done; [lia|].
  destruct next as [t|]; cbn.
  - rewrite Hst. split; [|done]. exists t. split; [done|]. by eapply occurrence_next_due.
  - split_and!; [done|by eexists|done].
Qed.

Lemma disable_row c o s n reason :
  row_ok c o s → state s = Enabled → (n <= i64_max)%N → n = (revision s + 1)%N →
  row_ok c o (with_schedule_revision n (disable reason s)).
Proof.
  intros [R1 R2 R3 R4 R5] Hst Hn ->. rewrite Hst in R5. split; cbn; try done. lia.
Qed.

Lemma admit_ok i expected now db r db' :
  schedule_ok db → admit_scheduled_target i expected now db = Ok (r, db') →
  schedule_ok db' ∧ grows db db' ∧ commands db' = commands db ∧
  match r with
  | AdmittedInbound _ _ | WorkflowAdmitted _ _ | ADisabled _ => retired (ordinal i) expected db'
  | _ => db' = db
  end.
Proof using All.
  intros Hok Hr. apply admission_cases in Hr as [[-> Hr]|(s & due & Hcv & Hs & Hrev & Hst & Hd & _ & Hn & H0t & Hcap &
    [(reason & _ & -> & Hg)|(selected & next & x & db1 & db2 & Hocc & Hx & Hg & -> & Hr)])].
  { destruct r; done. }
  all: destruct (table_rows db (so_table db Hok) _ _ Hs) as [Hrow Hle];
    pose proof (row_ordinal _ _ _ Hrow) as Hid;
    assert (Hlv : is_completed s = false) by (unfold is_completed; by rewrite Hst).
  - set (s' := with_schedule_revision (expected + 1) (disable reason s)) in *.
    assert (Hrow' : row_ok (conversation db) (ordinal i) s') by (apply disable_row; congruence).
    assert (Hgr : grows db (save s' db)) by (apply (grows_save s); [by cbn; rewrite Hid|cbn; lia]).
    pose proof (table_save _ _ _ _ _ (so_table db Hok) Hs Hlv Hrow' eq_refl) as Ht.
    pose proof (advance_table _ _ Hg Ht) as Ht'. pose proof (grows_advance _ _ Hg) as Hgr'.
    apply advance_generation_ok in Hg as (Hi & _ & Hsch & Hcm & Hsta).
    assert (Hgrow : grows db db') by (by etrans). split_and!; [|done|done|].
    + apply (schedule_ok_frame db); try done. rewrite Hsch. cbn. etrans; [apply size_filter_overwrite|apply Hok]. done.
    + split; [apply grows_ordinal in Hgrow; lia|]. rewrite Hsch.
      intros s0 [[_ ->]|[Hne _]]%save_lookup; [cbn; lia|]. cbn in Hne. by rewrite Hid in Hne.
  - set (t := trigger_of_admission i expected selected) in *.
    set (s' := advance (expected + 1) next _ now s) in *.
    destruct (target_ok s t now db x db1 Hok H0t Hcap Hx) as
      ([Hi1 Hcv1] & (Hsch1 & Ho1 & Hcm1) & Hcor & Hsta & Htg & Hcp).
    assert (Hrow' : row_ok (conversation db) (ordinal i) s') by (eapply advance_row; try done; congruence).
    assert (Ht1 : table_ok db1) by (destruct (so_table db Hok); split; rewrite ?Hsch1, ?Ho1, ?Hcv1; done).
    assert (Hg01 : grows db db1) by (split; [done|by rewrite Ho1|rewrite Hsch1; eauto]).
    assert (Hg12 : grows db1 (save s' db1)) by (apply (grows_save s); [cbn; by rewrite Hsch1, Hid|cbn; lia]).
    assert (Ht2 : table_ok (save s' db1)).
    { apply (table_save (conversation db) (ordinal i) s); try done; congruence. }
    pose proof (advance_table _ _ Hg Ht2) as Ht3. pose proof (grows_advance _ _ Hg) as Hg23.
    destruct (prune_table now db2 Ht3) as [Ht4 Hc4].
    apply advance_generation_ok in Hg as (Hi2 & _ & Hsch2 & Hcm2 & Hsta2).
    assert (Hgrow : grows db (prune now db2)) by (do 3 (etrans; [done|]); apply grows_prune).
    assert (Hret : retired (ordinal i) expected (prune now db2)).
    { split; [apply grows_ordinal in Hgrow; lia|]. intros s0 Hs0.
      apply (lookup_weaken _ (schedules db2)) in Hs0; [|apply prune_subseteq]. rewrite Hsch2 in Hs0.
      apply save_lookup in Hs0 as [[_ ->]|[Hne _]]; [cbn; lia|]. cbn in Hne. by rewrite Hid in Hne. }
    split_and!; [|done|cbn in *; congruence|by subst r; destruct x].
    split; cbn; unfold targets_of, active_starts; cbn; rewrite ?Hi2, ?Hsta2; cbn; try done.
    + intros c [Hc| ->]%Hcor; [|by exists t].
      destruct (so_messages db Hok c Hc) as (u & -> & Hu). exists u. split; [done|]. by eapply retired_grows.
    + intros k row [Hk|(-> & Ht0 & Hord)]%Hsta; [|by rewrite Hord, Ht0].
      destruct (so_starts db Hok k row Hk) as (? & ? & ?). split_and!; [done..|]. by eapply retired_grows.
Qed.
(** ** The other transactions *)

Lemma inbox_run_ok i db :
  schedule_ok db → native_step (inbox db) i → schedule_ok (set_inbox i db) ∧ grows db (set_inbox i db).
Proof.
  intros [Hi Ht Hc Hm Hs Htg Hcap] Hstep. pose proof (native_effect _ _ Hi Hstep) as He.
  pose proof (native_conversation _ _ Hstep) as Hcv. destruct (effect_scheduled _ _ Hi He) as [Hcor Hpend].
  assert (Hg : grows db (set_inbox i db)) by (split; [done..|]; eauto).
  split; [|done]. split; try done; cbn.
  - by eapply effect_ok.
  - destruct Ht as [R1 R2 R3]. split; try done. unfold conversation. cbn. rewrite Hcv. exact R1.
  - rewrite Hcor. intros c Hin. destruct (Hm c Hin) as (t & ? & ?). exists t. split; [done|]. by eapply retired_grows.
  - intros o. etrans; [|apply (Htg o)]. unfold targets_of. cbn. apply Nat.add_le_mono_r, sublist_length.
    by apply sublist_List_filter_mono.
  - etrans; [|exact Hcap]. unfold active_starts. cbn. by apply Nat.add_le_mono_r, sublist_length.
Qed.

Lemma prune_ok now db : schedule_ok db → schedule_ok (prune now db).
Proof.
  intros Hok. destruct (prune_table now db (so_table db Hok)) as [Ht Hc].
  apply (schedule_ok_frame db); try done. apply grows_prune.
Qed.

Lemma advance_ok db db' : advance_generation db = Ok db' → schedule_ok db → schedule_ok db'.
Proof.
  intros Hg Hok. pose proof (advance_table _ _ Hg (so_table db Hok)) as Ht. pose proof (grows_advance _ _ Hg) as Hgr.
  apply advance_generation_ok in Hg as (Hi & _ & Hs & _ & Hst).
  apply (schedule_ok_frame db); try done. rewrite Hs. apply Hok.
Qed.

Lemma start_run_ok i row x db :
  schedule_ok db → starts db !! i = Some row → start_edge (start_state row) x →
  let db' := set_starts (<[i := {| schedule_ordinal := schedule_ordinal row;
      start_trigger := start_trigger row; start_state := x |}]> (starts db)) db in
  schedule_ok db' ∧ grows db db'.
Proof.
  intros [Hi Ht Hc Hm Hs Htg Hcap] Hrow Hedge db'.
  assert (Hg : grows db db') by (split; [done..|]; eauto).
  assert (Hact : start_state row = StartSettled → False) by (intros E; rewrite E in Hedge; inversion Hedge; congruence).
  assert (Hlive : active row = true) by (unfold active; destruct (start_state row); [done|done|by destruct Hact]).
  split; [|done]. split; try done.
  - by destruct Ht; split.
  - intros k r. cbn. rewrite lookup_insert_Some. intros [[<- <-]|[_ Hr]]; cbn.
    + destruct (Hs i row Hrow) as (? & ? & ?). split_and!; [done..|]. by eapply retired_grows.
    + destruct (Hs k r Hr) as (? & ? & ?). split_and!; [done..|]. by eapply retired_grows.
  - intros o. etrans; [|apply (Htg o)]. unfold targets_of. cbn. apply Nat.add_le_mono_l, size_filter_overwrite.
    intros [_ Ho]%Is_true_eq_true%andb_true_iff. cbn in Ho. exists row. split; [done|]. cbn. by rewrite Hlive, Ho.
  - etrans; [|exact Hcap]. unfold active_starts. cbn. apply Nat.add_le_mono_l, size_filter_overwrite.
    intros _. exists row. split; [done|]. cbn. by rewrite Hlive.
Qed.

Lemma step_ok db db' : schedule_ok db → schedule_step db db' → schedule_ok db' ∧ grows db db'.
Proof using All.
  intros Hok. destruct 1 as [b c now a p cancelled r db db' Hr|i expected now r db db' Hr|i db Hr
    |i row x now db db' Hrow Hedge Hg|now removed db db' Hr].
  - by eapply command_ok.
  - apply admit_ok in Hr as (? & ? & _); done.
  - by apply inbox_run_ok.
  - destruct (start_run_ok i row x db Hok Hrow Hedge) as [Hok1 Hg1].
    pose proof (advance_ok _ _ Hg Hok1) as Hok2. pose proof (grows_advance _ _ Hg) as Hg2.
    destruct (bool_decide _); split; try by apply prune_ok.
    + etrans; [done|]. etrans; [done|]. apply grows_prune.
    + done.
    + by etrans.
  - destruct removed.
    + split; [by eapply advance_ok, prune_ok|]. etrans; [apply grows_prune|by apply grows_advance].
    + injection Hr as <-. split; [by apply prune_ok|apply grows_prune].
Qed.

Lemma schedule_start_ok c : schedule_ok (schedule_start c).
Proof.
  split; cbn; try done.
  - apply ok_start.
  - by split; [|done|cbn; unfold live; rewrite map_filter_empty, map_size_empty; lia].
  - unfold completed_row. rewrite map_filter_empty, map_size_empty. lia.
  - by intros c0 ?%not_elem_of_nil.
  - intros o. unfold targets_of. cbn. rewrite map_filter_empty, map_size_empty. lia.
  - unfold active_starts. cbn. rewrite map_filter_empty, map_size_empty. lia.
Qed.

Definition schedule_reachable (c : str) (db : ScheduleDb) : Prop := rtc schedule_step (schedule_start c) db.

Lemma schedule_steps_ok db db' :
  schedule_ok db → rtc schedule_step db db' → schedule_ok db' ∧ grows db db'.
Proof using All.
  intros Hok Hs. induction Hs as [db|db1 db2 db3 Hstep Hs IH]; [done|].
  destruct (step_ok _ _ Hok Hstep) as [Hok2 Hg]. destruct (IH Hok2) as [? ?]. split; [done|by etrans].
Qed.

Lemma schedule_reachable_ok c db : schedule_reachable c db → schedule_ok db.
Proof using All. intros Hs. by apply (schedule_steps_ok (schedule_start c)); [apply schedule_start_ok|]. Qed.
(** ** Receipts *)

Definition HUMAN : str := lit "human:".

(** The receipts of a Human request: at most 8, of one attempt. *)
Definition request_ok (db : ScheduleDb) : Prop :=
  ∀ m, size (scope_rows (HUMAN ++ m) db) ≤ 8 ∧
       ∃ a, ∀ k row, scope_rows (HUMAN ++ m) db !! k = Some row → request_attempt_id row = Some a.

Lemma scope_cases a scope attempt :
  command_scope a = Some (scope, attempt) →
  (attempt = None ∧ ∀ m, scope ≠ HUMAN ++ m) ∨ (∃ m x, scope = HUMAN ++ m ∧ attempt = Some x).
Proof.
  destruct a as [|m x]; cbn; [intros [= <- <-]; left; split; [done|by intros m]|].
  destruct (_ && _ && _ && _); [|done]. intros [= <- <-]. right. eauto.
Qed.

Lemma scope_rows_insert scope sc k row db m :
  commands db !! (sc, k) = None →
  m = scope_rows scope (set_commands (<[(sc, k) := row]> (commands db)) db) →
  (sc = scope ∧ m = <[(sc, k) := row]> (scope_rows scope db)) ∨ (sc ≠ scope ∧ m = scope_rows scope db).
Proof.
  intros Hn ->. unfold scope_rows. cbn. destruct (decide (sc = scope)) as [<-|Hne]; [left|right]; (split; [done|]).
  - by rewrite map_filter_insert_True by (cbn; by rewrite bool_decide_eq_true_2).
  - rewrite map_filter_insert_not; [done|]. cbn. intros y. rewrite bool_decide_eq_false_2 by done. by intros [].
Qed.

Lemma commands_frame db db' : commands db' = commands db → request_ok db → request_ok db'.
Proof. unfold request_ok, scope_rows. by intros ->. Qed.

Lemma command_row b c now a prepared cancelled db r db' :
  schedule_ok db → schedule_command_impl b c now a prepared cancelled db = Ok (r, db') →
  db' = db ∨ ∃ scope attempt used,
    command_input_error (conversation db) b c = None ∧
    command_scope a = Some (scope, attempt) ∧ commands db !! (scope, command_id c) = None ∧
    count_used scope attempt db = Ok (Some used) ∧ (is_Some attempt → used < SCHEDULE_REQUEST_MUTATION_LIMIT) ∧
    commands db' = <[(scope, command_id c) := {| request_attempt_id := attempt;
      digest := command_digest b (mutation c); committed := r |}]> (commands db).
Proof using All.
  intros Hok Hr. apply command_cases in Hr as
    [->|(scope & attempt & used & r0 & db1 & db2 & Hi & Hsc & Hn & Hu & Ha & Hlim & Hg & ->)]; [by left|right].
  apply apply_change in Ha as [Hch _]; [|apply Hok|by eapply input_conversation].
  apply row_change_table in Hch as (_ & _ & _ & _ & Hcm); [|apply Hok].
  apply advance_generation_ok in Hg as (_ & _ & _ & Hcm2 & _).
  exists scope, attempt, used. split_and!; try done. cbn. congruence.
Qed.

(** Receipts are only added. *)
Lemma step_commands db db' k row :
  schedule_ok db → schedule_step db db' → commands db !! k = Some row → commands db' !! k = Some row.
Proof using All.
  intros Hok Hstep. destruct Hstep as [b c now a p cancelled r db db' Hr|i expected now r db db' Hr|i db Hr
    |i row' x now db db' Hrow Hedge Hg|now removed db db' Hr]; intros Hk.
  - apply command_row in Hr as [->|(sc & at' & used & _ & _ & Hn & _ & _ & ->)]; [done| |done].
    rewrite lookup_insert_ne; [done|]. intros <-. congruence.
  - apply admit_ok in Hr as (_ & _ & -> & _); done.
  - done.
  - apply advance_generation_ok in Hg as (_ & _ & _ & Hc & _). by destruct (bool_decide _); cbn; rewrite Hc.
  - destruct removed; [apply advance_generation_ok in Hr as (_ & _ & _ & -> & _)|injection Hr as <-]; done.
Qed.

Lemma steps_commands db db' k row :
  schedule_ok db → rtc schedule_step db db' → commands db !! k = Some row → commands db' !! k = Some row.
Proof using All.
  intros Hok Hs. revert Hok. induction Hs as [db|db1 db2 db3 Hstep Hs IH]; intros Hok Hk; [done|].
  destruct (step_ok _ _ Hok Hstep) as [Hok2 _]. apply IH; [done|]. by apply (step_commands db1).
Qed.

Lemma step_request db db' : schedule_ok db → schedule_step db db' → request_ok db → request_ok db'.
Proof using All.
  intros Hok Hstep Hreq. destruct Hstep as [b c now a p cancelled r db db' Hr|i expected now r db db' Hr|i db Hr
    |i row' x now db db' Hrow Hedge Hg|now removed db db' Hr].
  - apply command_row in Hr as [->|(sc & at' & used & _ & Hsc & Hn & Hu & Hlim & Hc)]; [done| |done].
    intros m. destruct (Hreq m) as (Hsize & x & Hx).
    set (row := {| request_attempt_id := at' |}) in Hc.
    assert (Hrows : scope_rows (HUMAN ++ m) db' = scope_rows (HUMAN ++ m) (set_commands (commands db') db)) by done.
    rewrite Hrows, Hc. clear Hrows.
    destruct (scope_rows_insert (HUMAN ++ m) sc (command_id c) row db _ Hn eq_refl) as [[Es ->]|[_ ->]]; [|eauto].
    apply scope_cases in Hsc as [[_ Hne]|(m' & y & _ & ->)]; [by destruct (Hne m)|]. specialize (Hlim ltac:(eauto)).
    unfold count_used in Hu. rewrite Es in Hu.
    destruct (match original_attempt_of (HUMAN ++ m) db with Some _ => _ | None => _ end) eqn:Eo; [done|].
    apply bind_ok in Hu as (u & _ & Hu).
    assert (used = size (scope_rows (HUMAN ++ m) db)) as -> by congruence. clear Hu. split.
    + rewrite map_size_insert. destruct (scope_rows _ _ !! _); cbn; unfold SCHEDULE_REQUEST_MUTATION_LIMIT in Hlim; lia.
    + exists y. intros k rw. rewrite lookup_insert_Some. intros [[_ <-]|[_ Hk]]; [done|].
      rewrite (Hx k rw Hk). unfold original_attempt_of in Eo.
      destruct (map_to_list (scope_rows (HUMAN ++ m) db)) as [|[k0 row0] l] eqn:El.
      { apply map_to_list_empty_iff in El. by rewrite El, lookup_empty in Hk. }
      assert (Hk0 : scope_rows (HUMAN ++ m) db !! k0 = Some row0) by (apply elem_of_map_to_list; rewrite El; set_solver).
      rewrite (Hx k0 row0 Hk0) in Eo. apply negb_false_iff, bool_decide_eq_true in Eo. congruence.
  - eapply commands_frame; [|done]. apply admit_ok in Hr as (_ & _ & -> & _); done.
  - done.
  - apply advance_generation_ok in Hg as (_ & _ & _ & Hc & _).
    eapply commands_frame; [|done]. by destruct (bool_decide _); cbn; rewrite Hc.
  - eapply commands_frame; [|done].
    destruct removed; [apply advance_generation_ok in Hr as (_ & _ & _ & -> & _)|injection Hr as <-]; done.
Qed.
Lemma schedule_steps_request db db' :
  schedule_ok db → request_ok db → rtc schedule_step db db' → request_ok db'.
Proof using All.
  intros Hok Hr Hs. revert Hok Hr. induction Hs as [db|db1 db2 db3 Hstep Hs IH]; intros Hok Hr; [done|].
  destruct (step_ok _ _ Hok Hstep) as [Hok2 _]. apply IH; [done|]. by apply (step_request db1).
Qed.

Lemma start_request_ok c : request_ok (schedule_start c).
Proof. intros m. unfold scope_rows. cbn. rewrite map_filter_empty. split; [rewrite map_size_empty; lia|]. by exists []. Qed.

(** ** The properties *)

(** C20 The bounds of the scheduler hold in every reachable state: at most 256 schedules that
    can still run and 200 completed ones; at most 256 unfinished targets, one per schedule;
    a Human request holds at most 8 mutation receipts, all of its original attempt; and every
    stored schedule is well formed: it belongs to the conversation under its own ordinal, a
    live one has an instant to come due at that its timing allows, a completed one has none,
    with the reason of its timing. *)
Theorem scheduler_bounds c db :
  schedule_reachable c db →
  size (filter live (schedules db)) ≤ 256 ∧ size (filter completed_row (schedules db)) ≤ 200 ∧
  length (scheduled_pending (inbox db)) + size (active_starts db) ≤ 256 ∧
  (∀ o, targets_of o db ≤ 1) ∧ request_ok db ∧
  ∀ o s, schedules db !! o = Some s → row_ok (conversation db) o s.
Proof using All.
  intros Hr. pose proof (schedule_reachable_ok c db Hr) as [_ [R1 _ R3] ? _ _ ? ?]. split_and!; try done.
  - eapply schedule_steps_request; [apply schedule_start_ok|apply start_request_ok|exact Hr].
  - intros o s Hs. by apply R1.
Qed.

(** A retired revision is never admitted again. *)
Lemma retired_refused i rev now db :
  id_conversation i = conversation db → retired (ordinal i) rev db →
  ∃ r, admit_scheduled_target i rev now db = Ok (r, db) ∧
       (r = ANotFound ∨ ∃ s, schedules db !! ordinal i = Some s ∧ r = AlreadyAdvanced s).
Proof.
  intros Hc [_ Hret]. unfold admit_scheduled_target. rewrite bool_decide_eq_true_2 by done. cbn [negb].
  unfold read. destruct (i64_max <? ordinal i)%N; [eauto|].
  destruct (schedules db !! ordinal i) as [s|] eqn:Es; [|eauto]. specialize (Hret s eq_refl).
  destruct (N.eqb_spec (revision s) rev); [lia|]. cbn. eauto 10.
Qed.

(** C18 An occurrence is admitted at most once: an admission of a schedule at a revision
    selects its occurrence and, in one transaction, advances the revision and adds exactly
    one target - a fresh pending message that carries the trigger's identities, or a new
    accepted start; and in every later state, whatever commands, deliveries, settlements and
    prunings come between, asking again for that revision changes nothing and reports that
    the schedule advanced or is gone. *)
Theorem admitted_at_most_once c db i expected now r db1 :
  schedule_reachable c db → admit_scheduled_target i expected now db = Ok (r, db1) →
  match r with
  | AdmittedInbound s a => ∃ selected, let t := trigger_of_admission i expected selected in
      revision s = (expected + 1)%N ∧ a_message_id a = trigger_message_id t ∧
      scheduled_correlations (inbox db1) = scheduled_correlations (inbox db) ++ [trigger_correlation t] ∧
      pending (inbox db1) = pending (inbox db) ++ [accepted_row (scheduled_draft t
        (match target s with ConversationInbound text => text | _ => [] end)) a]
  | WorkflowAdmitted s h => ∃ selected, let t := trigger_of_admission i expected selected in
      revision s = (expected + 1)%N ∧ starts db !! for_trigger t = None ∧
      starts db1 = <[for_trigger t := {| schedule_ordinal := ordinal i; start_trigger := t;
                                         start_state := StartAccepted |}]> (starts db)
  | ADisabled s => revision s = (expected + 1)%N ∧ state s = Disabled
  | _ => db1 = db
  end ∧
  match r with
  | AdmittedInbound _ _ | WorkflowAdmitted _ _ | ADisabled _ =>
      ∀ db2 now', rtc schedule_step db1 db2 →
        ∃ r', admit_scheduled_target i expected now' db2 = Ok (r', db2) ∧
          (r' = ANotFound ∨ ∃ s, r' = AlreadyAdvanced s)
  | _ => True
  end.
Proof using All.
  intros Hr Ha. pose proof (schedule_reachable_ok c db Hr) as Hok.
  destruct (admit_ok _ _ _ _ _ _ Hok Ha) as (Hok1 & Hg1 & _ & Hret). split.
  - clear Hret Hg1 Hok1. apply admission_cases in Ha as [[-> Hn]|(s & due & _ & _ & Hrev & _ & _ & _ & _ & _ & _ &
      [(reason & _ & -> & _)|(selected & next & x & db0 & db2 & _ & Hx & Hg & -> & ->)])]; [by destruct r|done|].
    apply advance_generation_ok in Hg as (Hi & _ & _ & _ & Hst).
    apply target_cases in Hx as [(a & ib & text & -> & -> & Htg & _ & Hf)|(h & -> & _ & Hn & ->)]; [| |apply Hok].
    + exists selected. cbn. rewrite Hi. cbn. destruct (fresh_scheduled _ _ _ _ Hf) as [Hc _].
      cbn [d_correlation scheduled_draft] in Hc. rewrite is_scheduler_trigger in Hc.
      split_and!; [done|by rewrite (fresh_id _ _ _ _ Hf)|done|].
      by rewrite Htg, (fresh_pending _ _ _ _ Hf).
    + exists selected. cbn. rewrite Hst. done.
  - assert (Hlater : retired (ordinal i) expected db1 → id_conversation i = conversation db →
      ∀ db2 now', rtc schedule_step db1 db2 →
        ∃ r', admit_scheduled_target i expected now' db2 = Ok (r', db2) ∧ (r' = ANotFound ∨ ∃ s, r' = AlreadyAdvanced s)).
    { intros Hret1 Hcv db2 now' Hs. destruct (schedule_steps_ok _ _ Hok1 Hs) as [_ Hg2].
      destruct (retired_refused i expected now' db2) as (r' & Hr' & Hcase).
      - rewrite (grows_conversation _ _ Hg2), (grows_conversation _ _ Hg1). done.
      - by eapply retired_grows.
      - exists r'. split; [done|]. destruct Hcase as [?|(s & _ & ?)]; eauto. }
    apply admission_cases in Ha as [[_ Hn]|(s & due & Hcv & _)]; [by destruct r|]. destruct r; eauto.
Qed.

(** C19 A committed command is exactly once: after it changed something, in every later state
    the same command under the same authority returns the committed result and changes
    nothing, whenever it is retried, as does the receipt query; and another command under its
    identity is refused. *)
Theorem command_replayed c db b cmd now a p cancelled r db1 db2 :
  schedule_reachable c db → schedule_command_impl b cmd now a p cancelled db = Ok (r, db1) → db1 ≠ db →
  rtc schedule_step db1 db2 →
  (∀ now' p' cancelled', schedule_command_impl b cmd now' a p' cancelled' db2 = Ok (r, db2)) ∧
  schedule_command_receipt b cmd a db2 = Some r ∧
  (∀ b' cmd' now' p' cancelled', command_id cmd' = command_id cmd →
     command_input_error (conversation db2) b' cmd' = None →
     command_digest b' (mutation cmd') ≠ command_digest b (mutation cmd) →
     schedule_command_impl b' cmd' now' a p' cancelled' db2 = Ok (CONFLICTING, db2)).
Proof using All.
  intros Hr Hc Hne Hs. pose proof (schedule_reachable_ok c db Hr) as Hok.
  destruct (command_ok _ _ _ _ _ _ _ _ _ Hok Hc) as [Hok1 Hg1]. destruct (schedule_steps_ok _ _ Hok1 Hs) as [_ Hg2].
  apply command_row in Hc as [?|(scope & attempt & used & Hi & Hsc & _ & _ & _ & Hcm)]; [done| |done].
  assert (Hcv : conversation db2 = conversation db)
    by (by rewrite (grows_conversation _ _ Hg2), (grows_conversation _ _ Hg1)).
  apply (steps_commands _ _ (scope, command_id cmd) {| request_attempt_id := attempt;
    digest := command_digest b (mutation cmd); committed := r |}) in Hs;
    [|done|by rewrite Hcm, lookup_insert_eq].
  unfold schedule_command_impl, schedule_command_receipt. rewrite Hcv, Hi, Hsc, Hs.
  unfold replay. cbn [digest request_attempt_id committed]. split_and!.
  - intros now' p' cancelled'. by rewrite !bool_decide_eq_true_2 by done.
  - by rewrite !bool_decide_eq_true_2 by done.
  - intros b' cmd' now' p' cancelled' -> Hi' Hd. rewrite Hi', Hs. cbn.
    by rewrite (bool_decide_eq_false_2 (_ = command_digest b' _)) by congruence.
Qed.
(** A trigger whose revision is still the schedule's has not been accepted. *)
Lemma trigger_unaccepted t s db :
  schedule_ok db → schedules db !! ordinal (schedule_id t) = Some s → revision s = admission_revision t →
  correlated (trigger_correlation t) (inbox db) = None.
Proof.
  intros Hok Hs Hrev. destruct (correlated _ _) as [x|] eqn:E; [|done]. exfalso.
  apply correlated_Some in E as [Hx Hc].
  destruct (so_messages db Hok (trigger_correlation t)) as (u & Hu & [_ Hret]).
  { unfold scheduled_correlations. apply list_elem_of_In, filter_In. rewrite is_scheduler_trigger. split; [|done].
    apply in_map_iff. exists x. split; [done|]. by apply list_elem_of_In. }
  apply trigger_correlation_inj in Hu as [Ho Hr]. rewrite <-Ho in Hret. specialize (Hret s Hs). lia.
Qed.

Lemma accept_succeeds d text db :
  inbox_ok db → d_content d = [UText text] → d_kind d = KMessage →
  (∀ c, d_correlation d = Some c → correlated c db = None) →
  (next_inbound_sequence db < i64_max)%N → (next_transcript_position db < i64_max)%N →
  (∀ n, default (conversation_id db ++ lit "-inbound-" ++ dec n) (d_message_id d) ∉ all_ids db) →
  ∃ a db', accept_scheduled_inbound_tx d db = Ok (a, db') ∧ retried a = false.
Proof.
  intros Hok Hct Hk Hcor Hseq Hpos Hid. unfold accept_scheduled_inbound_tx. rewrite Hct, Hk.
  rewrite (bool_decide_eq_false_2 ([UText text] = [])) by done. cbn [guard_err is_context]. simpl.
  assert (d_correlation d ≫= (λ c, correlated c db) = None) as ->.
  { destruct (d_correlation d) as [c|]; [by apply Hcor|done]. }
  unfold i64_next at 1. rewrite (proj2 (N.ltb_lt _ _) Hseq). simpl.
  match goal with |- context [message_exists ?i db] =>
    assert (message_exists i db = false) as -> by apply message_exists_false, (Hid (next_inbound_sequence db + 1)%N) end.
  simpl.
  match goal with |- context [existsb ?p (correlations db)] =>
    assert (existsb p (correlations db) = false) as -> end; [apply not_true_iff_false|rewrite andb_false_r; simpl].
  - intros (x & Hx & Hxi%bool_decide_eq_true)%existsb_exists. apply list_elem_of_In in Hx.
    assert (Hin : c_id x ∈ all_ids db).
    { apply elem_of_all_ids. destruct (ok_correlation db Hok x Hx) as [(row & Hr & Hi & _)|(u & Hu & Hi)];
        [left; exists row|right; exists (User u)]; done. }
    exact (Hid (next_inbound_sequence db + 1)%N (eq_ind _ (λ i, i ∈ all_ids db) Hin _ Hxi)).
  - unfold append_transcript_reference. cbn [transcript_order insert_pending].
    destruct (transcript_order db !! _); simpl; [by eauto|].
    unfold i64_next. cbn [next_transcript_position insert_pending]. rewrite (proj2 (N.ltb_lt _ _) Hpos). simpl. eauto.
Qed.

(** A due schedule is admitted: in every reachable state an enabled reminder whose instant
    has come, with no unfinished target of its own and room for one more, is admitted at its
    current revision - in particular the store never mistakes the occurrence for one admitted
    before - as long as the 63-bit counters are not exhausted and no foreign message has
    taken its identity; a one-shot is then completed, an interval scheduled for its next
    aligned instant. *)
Theorem due_schedule_admitted c db i s due now text :
  schedule_reachable c db → id_conversation i = conversation db →
  schedules db !! ordinal i = Some s → state s = Enabled → target s = ConversationInbound text →
  next_due s = Some due → (due <= now)%Z → within_9999 now = true →
  (match spec s with SCron _ _ => False | _ => True end) →
  outstanding (ordinal i) db = false →
  length (scheduled_pending (inbox db)) + size (active_starts db) < 256 →
  (revision s < i64_max)%N → (generation db < i64_max)%N →
  (next_inbound_sequence (inbox db) < i64_max)%N → (next_transcript_position (inbox db) < i64_max)%N →
  (∀ selected, trigger_message_id (trigger_of_admission i (revision s) selected) ∉ all_ids (inbox db)) →
  ∃ s' a db', admit_scheduled_target i (revision s) now db = Ok (AdmittedInbound s' a, db') ∧
    match spec s with
    | At _ => state s' = Completed ∧ next_due s' = None
    | Interval _ every => ∀ t, next_due s' = Some t →
        (now < t)%Z ∧ ∃ k, (0 < k)%Z ∧ t = (due + k * seconds (Z.of_N every))%Z
    | SCron _ _ => True
    end.
Proof using All.
  intros Hr Hcv Hs Hst Htg Hd Hdue Hnow Hspec Hout Hcap Hrev Hgen Hseq Hpos Hids.
  pose proof (schedule_reachable_ok c db Hr) as Hok.
  destruct (table_rows db (so_table db Hok) _ _ Hs) as [[_ _ _ Hsp _] Hle].
  assert (Hocc : ∃ selected next, occurrence (spec s) due now = Ok (selected, next) ∧
    match spec s with
    | At _ => next = None
    | Interval _ every => ∀ t, next = Some t → (now < t)%Z ∧ ∃ k, (0 < k)%Z ∧ t = (due + k * seconds (Z.of_N every))%Z
    | SCron _ _ => True
    end).
  { by apply occurrence_scheduled. }
  destruct Hocc as (selected & next & Hocc & Hnext).
  set (t := trigger_of_admission i (revision s) selected).
  destruct (accept_succeeds (scheduled_draft t text) (lit "Scheduled reminder (" ++ show_instant selected ++ lit "):"
    ++ [10%N] ++ text) (inbox db)) as (a & ib & Ha & Hret); try done; [apply Hok| |by intros n; apply Hids|].
  { cbn. intros k [= <-]. by apply (trigger_unaccepted t s). }
  unfold admit_scheduled_target. rewrite bool_decide_eq_true_2 by done. cbn [negb]. unfold read.
  pose proof (table_ordinal db (so_table db Hok)). rewrite (proj2 (N.ltb_ge i64_max (ordinal i))) by lia.
  rewrite Hs, N.eqb_refl. cbn [negb]. rewrite Hd, Hst. rewrite (proj2 (Z.leb_le due now)) by done. cbn [andb].
  rewrite (bool_decide_eq_true_2 (Enabled = Enabled)) by done. rewrite Hout, pending_count.
  rewrite (proj2 (Nat.leb_gt 256 _)) by lia. rewrite Hocc. unfold admit_target. rewrite Htg.
  change ({| schedule_id := i; admission_revision := revision s; occurrence_utc := selected |}) with t.
  rewrite Ha. simpl. rewrite Hret. simpl. unfold increment, i64_next.
  rewrite (proj2 (N.ltb_lt _ _) Hrev). simpl. unfold advance_generation, increment, i64_next. cbn [generation save set_schedules set_inbox].
  rewrite (proj2 (N.ltb_lt _ _) Hgen). simpl. do 3 eexists. split; [done|].
  destruct (spec s); [subst next; done|done|done].
Qed.
End effects.

(** ** Concrete instances *)

#[local] Instance demo_env : SchedulerEnv := {|
  show_instant t := dec (Z.to_N t);
  to_rfc3339 t := dec (Z.to_N t);
  command_digest b m :=
    match m with SCreate title text _ => title ++ [10%N] ++ text | _ => lit "other" end;
  trigger_digest t := dec (ordinal (schedule_id t)) ++ lit "-" ++ dec (admission_revision t);
  contract_bytes p := len (p_contract p);
  json_bytes _ := 2%N;
|}.
#[local] Existing Instance minutes.

Definition demo_owner : ScheduleBinding := {| session_id := lit "s"; node_id := lit "n"; b_conversation := lit "c" |}.

Definition demo_command (text : string) : ScheduleCommand :=
  {| command_id := lit "k1"; mutation := SCreate (lit "tea") (lit text) (TInterval 90) |}.

Definition demo_human : ScheduleCommandAuthority := AHumanRequest (lit "m1") (lit "a1").

Definition demo_created : ScheduleCommandResult * ScheduleDb :=
  Eval vm_compute in result_or (NotFound, schedule_start (lit "c"))
    (schedule_command_impl demo_owner (demo_command "kettle") 0%Z demo_human None None (schedule_start (lit "c"))).

Lemma demo_created_ok :
  schedule_command_impl demo_owner (demo_command "kettle") 0%Z demo_human None None (schedule_start (lit "c"))
  = Ok demo_created.
Proof. vm_compute. reflexivity. Qed.

Lemma demo_created_reachable : schedule_reachable (lit "c") (snd demo_created).
Proof. eapply rtc_once, run_command, demo_created_ok. Qed.

Definition demo_schedule : ScheduleId := {| id_conversation := lit "c"; ordinal := 1 |}.

(** Three missed intervals later, at 400 s. *)
Definition demo_admitted : ScheduleAdmission * ScheduleDb :=
  Eval vm_compute in result_or (NotDue, snd demo_created)
    (admit_scheduled_target demo_schedule 1 (seconds 400) (snd demo_created)).

Lemma demo_admitted_ok :
  admit_scheduled_target demo_schedule 1 (seconds 400) (snd demo_created) = Ok demo_admitted.
Proof. vm_compute. reflexivity. Qed.

Lemma scheduler_bounds_witness :
  size (filter live (schedules (snd demo_created))) = 1 ∧ request_ok (snd demo_created).
Proof.
  split; [vm_compute; reflexivity|].
  apply (@scheduler_bounds minutes minutes_laws demo_env (lit "c") (snd demo_created) demo_created_reachable).
Defined.

Lemma admitted_at_most_once_witness :
  pending (inbox (snd demo_admitted)) ≠ [] ∧
  ∃ r, admit_scheduled_target demo_schedule 1 (seconds 900) (snd demo_admitted) = Ok (r, snd demo_admitted) ∧
       (r = ANotFound ∨ ∃ s, r = AlreadyAdvanced s).
Proof.
  split; [by vm_compute|].
  assert (Hr : ∃ s a, fst demo_admitted = AdmittedInbound s a) by (vm_compute; eauto).
  destruct Hr as (s & a & Hr).
  pose proof (@admitted_at_most_once minutes minutes_laws demo_env (lit "c") (snd demo_created) demo_schedule 1
    (seconds 400) (fst demo_admitted) (snd demo_admitted) demo_created_reachable demo_admitted_ok) as [_ Hlater].
  rewrite Hr in Hlater. apply Hlater, rtc_refl.
Defined.

Lemma command_replayed_witness :
  schedule_command_impl demo_owner (demo_command "kettle") (seconds 50) demo_human None None (snd demo_created)
    = Ok demo_created ∧
  schedule_command_impl demo_owner (demo_command "pot") (seconds 50) demo_human None None (snd demo_created)
    = Ok (CONFLICTING, snd demo_created).
Proof.
  destruct (@command_replayed minutes minutes_laws demo_env (lit "c") (schedule_start (lit "c")) demo_owner
    (demo_command "kettle") 0%Z demo_human None None (fst demo_created) (snd demo_created) (snd demo_created)
    (rtc_refl _ _) demo_created_ok ltac:(by vm_compute) (rtc_refl _ _)) as (H1 & _ & H3).
  split; [apply H1|].
  apply H3; [reflexivity|vm_compute; reflexivity|by vm_compute].
Defined.

Lemma due_schedule_admitted_witness :
  ∃ s' a db', admit_scheduled_target demo_schedule 1 (seconds 400) (snd demo_created) = Ok (AdmittedInbound s' a, db') ∧
    next_due s' = Some (seconds 450).
Proof.
  assert (Hs : ∃ s, schedules (snd demo_created) !! 1%N = Some s ∧ state s = Enabled ∧ revision s = 1%N ∧
    target s = ConversationInbound (lit "kettle") ∧ next_due s = Some (seconds 90) ∧
    spec s = Interval (seconds 90) 90) by (eexists; split; [vm_compute; reflexivity|by vm_compute]).
  destruct Hs as (s & Hs & Hst & Hrev & Htg & Hd & Hsp).
  destruct (@due_schedule_admitted minutes minutes_laws demo_env (lit "c") (snd demo_created) demo_schedule s
    (seconds 90) (seconds 400) (lit "kettle") demo_created_reachable eq_refl Hs Hst Htg Hd) as (s' & a & db' & Ha & _).
  - by vm_compute.
  - vm_compute; reflexivity.
  - by rewrite Hsp.
  - vm_compute; reflexivity.
  - vm_compute. lia.
  - rewrite Hrev. vm_compute; reflexivity.
  - vm_compute; reflexivity.
  - vm_compute; reflexivity.
  - vm_compute; reflexivity.
  - intros selected. change (all_ids (inbox (snd demo_created))) with (@nil MessageId). apply not_elem_of_nil.
  - rewrite Hrev in Ha. exists s', a, db'. split; [exact Ha|].
    assert (Hn : match admit_scheduled_target demo_schedule 1 (seconds 400) (snd demo_created) with
    | Ok (AdmittedInbound s' _, _) => next_due s' = Some (seconds 450) | _ => False end) by (vm_compute; reflexivity).
    by rewrite Ha in Hn.
Defined.
