(* ===== verification/ScheduledStart.v ===== *)
(** The life of a scheduled Workflow start ([src/src/durable/sqlite/scheduled_workflow.rs],
    [runtime/workflow/scheduled/lifecycle.rs] and [effects.rs]): accepted, claimed by one
    owner, its effects and interactions recorded under that claim, settled with proof.

    The tables refine those of ScheduleStore: [starts] there holds the state column of a row,
    [records] here its header, contract, arguments and result.  A transaction returns the new
    tables or an error, on which nothing is kept. *)

From S2P Require Import Prelude Text Json Goal Message Inbox Schedule ScheduleStore.
From stdpp Require Import options.

(** ** Vocabulary *)

Record WorkflowDefinitionPath := { workflow_id : WorkflowId; blocks : list str }.
Record WorkflowBlockInstance := { run : WorkflowRunId; definition : WorkflowDefinitionPath;
                                  invocations : list N }.
Record WorkflowNodeInstance := { block : WorkflowBlockInstance; node : str; visit : N }.

Inductive ToolInvocationId :=
| IAgent (call_id : ToolCallId)
| IWorkflow (n : WorkflowNodeInstance) (retry : N).

Inductive ScheduledWorkflowOutcome :=
| OCompleted
| OFailed (reason : str)
| OCancelled
| OTimedOut
| ORejectedBeforeStart (reason : str)
| OInterrupted (reason : str)
| OOutcomeUnknown (reason : str).

Inductive ScheduledWorkflowState :=
| SAccepted (waiting : option str) (retry_after : option DateTime)
| SClaimed (owner : str) (claimed_at : DateTime) (effects_started : bool)
| SSettled (outcome : ScheduledWorkflowOutcome) (settled_at : DateTime).

Record ScheduledWorkflowHead := {
  hd_id : str;
  hd_run : WorkflowRunId;
  hd_trigger : ScheduleTriggerId;
  hd_binding : ScheduleBinding;
  hd_accepted_at : DateTime;
  hd_state : ScheduledWorkflowState;
  cancellation_requested_at : option DateTime;
  recovery_blocked : option str;
  native_quiescence_proven : bool;
  result_digest : option str;
}.

(** A handle on a start, issued by the claim. *)
Record ClaimedScheduledWorkflow := {
  claim_head : ScheduledWorkflowHead;
  claim_contract : PinnedScheduledWorkflow;
  claim_arguments : json;
}.

Inductive ScheduledEffectKind := ETool | EAgent | EModel | EReview.

Inductive ScheduledEffectOwner :=
| Preparing
| OwnerTool (tool_invocation : ToolInvocationId)
| OwnerAgent (activation : str)
| OwnerModel (call_id : str)
| OwnerReview.

Record ScheduledWorkflowEffect := {
  eff_ordinal : N;
  eff_node : WorkflowNodeInstance;
  eff_kind : ScheduledEffectKind;
  eff_owner : ScheduledEffectOwner;
  physical_settlement_proven : bool;
  diagnostic : option str;
}.

(** Who vouches that nothing of the start runs any more. *)
Inductive QuiescenceSource := NativeExecutor | RecoveredOwners | RecoveredNoEffects.

Inductive ScheduledWorkflowSettlement := Settled | AlreadySettled | AwaitingNativeProof.

Record ScheduledWorkflowOwnerRetirement := {
  ret_start : str;
  recovered_writer : bool;
  agent_domain_quiescent : bool;
  interactions_closed : bool;
}.

(** Interactions: of subject and settlement, what decides; [facts] is the encoding of the rest. *)
Inductive InteractionSubject :=
| SubReview (review_instance : WorkflowNodeInstance) (facts : str)
| SubApproval (invocation_id : ToolInvocationId) (facts : str)
| SubQuestionnaire (invocation_id : ToolInvocationId) (facts : str).

Inductive InteractionSettlement :=
| CancelledByShutdown
| SettledBy (facts : str).

Inductive AgentActivationOrigin :=
| CreationTool (tool_call_id : ToolCallId)
| MessageTool (tool_call_id : ToolCallId)
| ClientControl
| ByWorkflow (node_id : WorkflowNodeInstance).

(** The Journal events that bear on a start. *)
Inductive RuntimeEvent :=
| InteractionRequested (interaction_id : str) (subject : InteractionSubject)
| InteractionSettled (interaction_id : str) (settlement : InteractionSettlement)
| SubagentOwnershipCommitted (origin : AgentActivationOrigin)
| SubagentTerminalSettled (proven : bool)
| SubagentPhysicalSettlementProven
| OtherEvent (facts : str).

(** What is read of [AuxiliaryCallAudit]: the namespace and reference of a business source. *)
Record AuxiliaryCallAudit := { business : option (str * str); settled_sequence : option N;
                               has_outcome : bool }.

#[export] Instance WorkflowDefinitionPath_eq_dec : EqDecision WorkflowDefinitionPath.
Proof. solve_decision. Defined.
#[export] Instance WorkflowBlockInstance_eq_dec : EqDecision WorkflowBlockInstance.
Proof. solve_decision. Defined.
#[export] Instance WorkflowNodeInstance_eq_dec : EqDecision WorkflowNodeInstance.
Proof. solve_decision. Defined.
#[export] Instance ScheduledWorkflowOutcome_eq_dec : EqDecision ScheduledWorkflowOutcome.
Proof. solve_decision. Defined.

(** ** Tables *)

(** A row of [scheduled_workflow_starts]; [state] and [settled_at] are read off the header. *)
Record StartRecord := {
  s_head : ScheduledWorkflowHead;
  contract : option PinnedScheduledWorkflow;
  arguments : option json;
  result_value : option json;
}.

(** [effects] holds the rows of a start in the order of their ordinals, the Journal its events
    in the order of their sequences, [lifecycle] whether a lifecycle is terminal. *)
Record StartsDb := {
  sched : ScheduleDb;
  records : gmap str StartRecord;
  effects : gmap str (list ScheduledWorkflowEffect);
  journal : list (str * RuntimeEvent);
  next_event_sequence : N;
  lifecycle : gmap str bool;
  auxiliary : gmap str AuxiliaryCallAudit;
}.

Definition set_sched (s : ScheduleDb) (db : StartsDb) : StartsDb :=
  {| sched := s; records := records db; effects := effects db; journal := journal db;
     next_event_sequence := next_event_sequence db; lifecycle := lifecycle db; auxiliary := auxiliary db |}.
Definition set_records (m : gmap str StartRecord) (db : StartsDb) : StartsDb :=
  {| sched := sched db; records := m; effects := effects db; journal := journal db;
     next_event_sequence := next_event_sequence db; lifecycle := lifecycle db; auxiliary := auxiliary db |}.
Definition set_effects (m : gmap str (list ScheduledWorkflowEffect)) (db : StartsDb) : StartsDb :=
  {| sched := sched db; records := records db; effects := m; journal := journal db;
     next_event_sequence := next_event_sequence db; lifecycle := lifecycle db; auxiliary := auxiliary db |}.
Definition set_journal (j : list (str * RuntimeEvent)) (n : N) (l : gmap str bool) (db : StartsDb) : StartsDb :=
  {| sched := sched db; records := records db; effects := effects db; journal := j;
     next_event_sequence := n; lifecycle := l; auxiliary := auxiliary db |}.
Definition set_auxiliary (m : gmap str AuxiliaryCallAudit) (db : StartsDb) : StartsDb :=
  {| sched := sched db; records := records db; effects := effects db; journal := journal db;
     next_event_sequence := next_event_sequence db; lifecycle := lifecycle db; auxiliary := m |}.

Definition effects_of (i : str) (db : StartsDb) : list ScheduledWorkflowEffect :=
  default [] (effects db !! i).

(** Code outside the store: SHA-256 of an encoding, and the length of an encoding. *)
Class StartEnv := {
  node_key : WorkflowNodeInstance → str;
  approval_digest : ToolInvocationId → str;
  value_digest : json → str;
  head_bytes : ScheduledWorkflowHead → N;
  effect_bytes : ScheduledWorkflowEffect → N;
}.

(** [bounded_reason] *)
Definition bounded_reason (reason : str) : str := take 256 reason.

(** [state] *)
Definition state_of (s : ScheduledWorkflowState) : StartState :=
  match s with
  | SAccepted _ _ => StartAccepted
  | SClaimed _ _ _ => StartClaimed
  | SSettled _ _ => StartSettled
  end.

Definition is_accepted (h : ScheduledWorkflowHead) : bool := bool_decide (state_of (hd_state h) = StartAccepted).
Definition is_claimed (h : ScheduledWorkflowHead) : bool := bool_decide (state_of (hd_state h) = StartClaimed).
Definition is_settled (h : ScheduledWorkflowHead) : bool := bool_decide (state_of (hd_state h) = StartSettled).

(** The owner of a claimed start. *)
Definition owner_of (h : ScheduledWorkflowHead) : option str :=
  match hd_state h with SClaimed o _ _ => Some o | _ => None end.
(** [ClaimedScheduledWorkflow::owner], on whose handles the state is a claim *)
Definition claim_owner (c : ClaimedScheduledWorkflow) : str := default [] (owner_of (claim_head c)).

Definition with_state (s : ScheduledWorkflowState) (h : ScheduledWorkflowHead) : ScheduledWorkflowHead :=
  {| hd_id := hd_id h; hd_run := hd_run h; hd_trigger := hd_trigger h; hd_binding := hd_binding h;
     hd_accepted_at := hd_accepted_at h; hd_state := s;
     cancellation_requested_at := cancellation_requested_at h; recovery_blocked := recovery_blocked h;
     native_quiescence_proven := native_quiescence_proven h; result_digest := result_digest h |}.
Definition with_cancellation (c : option DateTime) (h : ScheduledWorkflowHead) : ScheduledWorkflowHead :=
  {| hd_id := hd_id h; hd_run := hd_run h; hd_trigger := hd_trigger h; hd_binding := hd_binding h;
     hd_accepted_at := hd_accepted_at h; hd_state := hd_state h;
     cancellation_requested_at := c; recovery_blocked := recovery_blocked h;
     native_quiescence_proven := native_quiescence_proven h; result_digest := result_digest h |}.
Definition with_blocked (b : option str) (h : ScheduledWorkflowHead) : ScheduledWorkflowHead :=
  {| hd_id := hd_id h; hd_run := hd_run h; hd_trigger := hd_trigger h; hd_binding := hd_binding h;
     hd_accepted_at := hd_accepted_at h; hd_state := hd_state h;
     cancellation_requested_at := cancellation_requested_at h; recovery_blocked := b;
     native_quiescence_proven := native_quiescence_proven h; result_digest := result_digest h |}.
Definition with_proof (h : ScheduledWorkflowHead) : ScheduledWorkflowHead :=
  {| hd_id := hd_id h; hd_run := hd_run h; hd_trigger := hd_trigger h; hd_binding := hd_binding h;
     hd_accepted_at := hd_accepted_at h; hd_state := hd_state h;
     cancellation_requested_at := cancellation_requested_at h; recovery_blocked := recovery_blocked h;
     native_quiescence_proven := true; result_digest := result_digest h |}.
Definition with_digest (d : option str) (h : ScheduledWorkflowHead) : ScheduledWorkflowHead :=
  {| hd_id := hd_id h; hd_run := hd_run h; hd_trigger := hd_trigger h; hd_binding := hd_binding h;
     hd_accepted_at := hd_accepted_at h; hd_state := hd_state h;
     cancellation_requested_at := cancellation_requested_at h; recovery_blocked := recovery_blocked h;
     native_quiescence_proven := native_quiescence_proven h; result_digest := d |}.

(** Settled, with the proof of quiescence. *)
Definition settle_head (outcome : ScheduledWorkflowOutcome) (now : DateTime) (h : ScheduledWorkflowHead)
    : ScheduledWorkflowHead := with_proof (with_state (SSettled outcome now) h).

(** ** Retention *)

(** A settled start that still holds its contract, and when it settled. *)
Definition kept_since (r : StartRecord) : option DateTime :=
  match hd_state (s_head r), contract r with
  | SSettled _ t, Some _ => Some t
  | _, _ => None
  end.

(** The order [settled_at, start_id]. *)
Definition later_start (x y : str * DateTime) : bool :=
  (y.2 <? x.2)%Z || ((x.2 =? y.2)%Z && bool_decide (str_lt y.1 x.1)).

Definition ranks_before (x : str * DateTime) (y : str * StartRecord) : bool :=
  match kept_since y.2 with Some t => later_start (y.1, t) x | None => false end.
Definition start_rank (x : str * DateTime) (m : gmap str StartRecord) : nat :=
  size (filter (λ y, ranks_before x y) m).

(** [prune], of the starts: settled ones older than 30 days or beyond the 200 newest *)
Definition start_expired (cutoff : DateTime) (m : gmap str StartRecord) (i : str) (r : StartRecord) : bool :=
  match kept_since r with
  | Some t => (t <? cutoff)%Z || (200 <=? start_rank (i, t) m)%nat
  | None => false
  end.

Definition strip (r : StartRecord) : StartRecord :=
  {| s_head := s_head r; contract := None; arguments := None; result_value := None |}.

(** The starts a pruning strips. *)
Definition gone (now : DateTime) (db : StartsDb) (i : str) : bool :=
  match records db !! i with
  | Some r => start_expired (Z.max (now - seconds (30 * 86400)) MIN_UTC) (records db) i r
  | None => false
  end.

Definition prune_starts (now : DateTime) (db : StartsDb) : StartsDb :=
  set_records (map_imap (λ i r, Some (if gone now db i then strip r else r)) (records db))
    (set_effects (filter (λ x, negb (gone now db x.1)) (effects db)) db).

(** ** Transactions *)

Definition MAX_HEADER_BYTES : N := 16384.
Definition MAX_EFFECTS : N := 4096.
Definition MAX_EFFECT_BYTES : N := 4096.
Definition MAX_RESULT_BYTES : N := 65536.

Section transactions.
Context `{Croner, SchedulerEnv, StartEnv}.

(** The header names its own row, trigger and run. *)
Definition head_consistent (i : str) (s : StartState) (h : ScheduledWorkflowHead) : bool :=
  bool_decide (hd_id h = i) && bool_decide (for_trigger (hd_trigger h) = hd_id h) &&
  (invocation (hd_run h) =? 1)%N && bool_decide (state_of (hd_state h) = s) &&
  bool_decide (run_conversation (hd_run h) = b_conversation (hd_binding h)) &&
  bool_decide (run_origin (hd_run h) = OScheduled i) &&
  bool_decide (id_conversation (schedule_id (hd_trigger h)) = b_conversation (hd_binding h)).

(** [head] *)
Definition start_head (i : str) (db : StartsDb) : R (option ScheduledWorkflowHead) :=
  match starts (sched db) !! i, records db !! i with
  | Some row, Some r =>
      let h := s_head r in
      _ ← guard_err (MAX_HEADER_BYTES <? head_bytes h)%N (Storage (lit "scheduled header exceeds native bound"));
      _ ← guard_err (negb (head_consistent i (start_state row) h))
            (Storage (lit "scheduled header identity or state index differs"));
      Ok (Some h)
  | _, _ => Ok None
  end.

Definition set_state (s : StartState) (r : StartRow) : StartRow :=
  {| schedule_ordinal := schedule_ordinal r; start_trigger := start_trigger r; start_state := s |}.
Definition set_head (h : ScheduledWorkflowHead) (r : StartRecord) : StartRecord :=
  {| s_head := h; contract := contract r; arguments := arguments r; result_value := result_value r |}.

(** The row with a new header. *)
Definition write_head (h : ScheduledWorkflowHead) (db : StartsDb) : StartsDb :=
  set_records (alter (set_head h) (hd_id h) (records db))
    (set_sched (set_starts (alter (set_state (state_of (hd_state h))) (hd_id h) (starts (sched db))) (sched db)) db).

(** [save] *)
Definition save_start (h : ScheduledWorkflowHead) (db : StartsDb) : R StartsDb :=
  _ ← guard_err (MAX_HEADER_BYTES <? head_bytes h)%N ResourceBoundExceeded;
  let db := write_head h db in
  s ← advance_generation (sched db);
  Ok (match hd_state h with
      | SSettled _ t => prune_starts t (set_sched (prune t s) db)
      | _ => set_sched s db
      end).

(** The record [accept_tx] inserts with the row. *)
Definition new_record (h : StartHead) (p : PinnedScheduledWorkflow) (args : json) : StartRecord :=
  {| s_head := {| hd_id := h_id h; hd_run := h_run h; hd_trigger := h_trigger h; hd_binding := h_binding h;
                  hd_accepted_at := h_accepted_at h; hd_state := SAccepted None None;
                  cancellation_requested_at := None; recovery_blocked := None;
                  native_quiescence_proven := false; result_digest := None |};
     contract := Some p; arguments := Some args; result_value := None |}.

(** [admit_scheduled_target], on all the tables *)
Definition admit_start (i : ScheduleId) (expected : N) (now : DateTime) (db : StartsDb)
    : R (ScheduleAdmission * StartsDb) :=
  '(r, s) ← admit_scheduled_target i expected now (sched db);
  let db := set_sched s db in
  Ok (r, match r with
         | WorkflowAdmitted snapshot h =>
             match target snapshot with
             | TWorkflow p args => prune_starts now (set_records (<[h_id h := new_record h p args]> (records db)) db)
             | ConversationInbound _ => prune_starts now db
             end
         | AdmittedInbound _ _ => prune_starts now db
         | _ => db
         end).

(** What [contract_json] and [args_json] yield within their bounds. *)
Definition bounded_contract (r : StartRecord) : option PinnedScheduledWorkflow :=
  p ← contract r; if (contract_bytes p <=? 65536)%N then Some p else None.
Definition bounded_arguments (r : StartRecord) : option json :=
  a ← arguments r; if (json_bytes a <=? 16384)%N then Some a else None.
Definition bounded_result (r : StartRecord) : option json :=
  v ← result_value r; if (json_bytes v <=? MAX_RESULT_BYTES)%N then Some v else None.

(** [ScheduledWorkflowStart] *)
Record ScheduledWorkflowStart := {
  start : ScheduledWorkflowHead;
  start_contract : option PinnedScheduledWorkflow;
  start_arguments : option json;
  start_result : option json;
}.

(** [scheduled_workflow_get] *)
Definition scheduled_workflow_get (i : str) (db : StartsDb) : R (option ScheduledWorkflowStart) :=
  h ← start_head i db;
  match h, records db !! i with
  | Some h, Some r =>
      _ ← guard_err (negb (bool_decide (b_conversation (hd_binding h) = conversation (sched db))))
            (Storage (lit "foreign scheduled start"));
      _ ← guard_err (negb (is_settled h) && (bool_decide (bounded_contract r = None)
                                             || bool_decide (bounded_arguments r = None)))
            (Storage (lit "nonterminal scheduled start lost its bounded contract"));
      Ok (Some {| start := h; start_contract := bounded_contract r; start_arguments := bounded_arguments r;
                  start_result := bounded_result r |})
  | _, _ => Ok None
  end.

(** The order [accepted_at, start_id]. *)
Definition accepted_before (x y : DateTime * str) : Prop :=
  (x.1 < y.1)%Z ∨ (x.1 = y.1 ∧ str_le x.2 y.2).
#[export] Instance accepted_before_dec : RelDecision accepted_before.
Proof. intros x y. unfold accepted_before. apply _. Defined.

Fixpoint load_heads (ids : list str) (db : StartsDb) : R (list ScheduledWorkflowHead) :=
  match ids with
  | [] => Ok []
  | i :: ids =>
      h ← start_head i db;
      h ← ok_or (Storage (lit "pending scheduled identity disappeared")) h;
      hs ← load_heads ids db;
      Ok (h :: hs)
  end.

(** [scheduled_workflow_pending] *)
Definition scheduled_workflow_pending (limit : N) (db : StartsDb) : R (list ScheduledWorkflowHead) :=
  _ ← guard_err (negb ((1 <=? limit)%N && (limit <=? 256)%N)) ResourceBoundExceeded;
  let rows := omap (λ x, if is_settled (s_head x.2) then None else Some (hd_accepted_at (s_head x.2), x.1))
                (map_to_list (records db)) in
  load_heads (map snd (take (N.to_nat limit) (merge_sort accepted_before rows))) db.

Definition with_observed (n : N) (p : PinnedScheduledWorkflow) : PinnedScheduledWorkflow :=
  {| p_binding := p_binding p; p_workflow := p_workflow p; p_dependencies := p_dependencies p;
     p_contract := p_contract p; observed_resource_revision := n |}.

(** [scheduled_workflow_claim] *)
Definition scheduled_workflow_claim (i : str) (expected : PinnedScheduledWorkflow) (owner : str) (now : DateTime)
    (db : StartsDb) : R (option ClaimedScheduledWorkflow * StartsDb) :=
  _ ← guard_err (bool_decide (owner = []) || (128 <? len owner)%N)
        (InvalidReference (lit "invalid scheduled execution owner"));
  h ← start_head i db;
  match h with
  | None => Ok (None, db)
  | Some h =>
      if negb (is_accepted h) || bool_decide (is_Some (cancellation_requested_at h)) then Ok (None, db)
      else
        '(persisted, args) ← ok_or (Storage (lit "scheduled Workflow: no row"))
          (r ← records db !! i; p ← bounded_contract r; a ← bounded_arguments r; Some (p, a));
        _ ← guard_err (negb (bool_decide (with_observed (observed_resource_revision expected) persisted = expected))
                       || negb (bool_decide (b_conversation (p_binding persisted) = conversation (sched db))))
              (InvalidReference (lit "scheduled contract changed before claim"));
        let h := with_state (SClaimed owner now false) h in
        db ← save_start h db;
        Ok (Some {| claim_head := h; claim_contract := persisted; claim_arguments := args |}, db)
  end.

(** [scheduled_workflow_wait] *)
Definition scheduled_workflow_wait (i reason : str) (retry_after : DateTime) (db : StartsDb) : R (() * StartsDb) :=
  h ← start_head i db;
  match h with
  | Some h =>
      if is_accepted h
      then db ← save_start (with_state (SAccepted (Some (bounded_reason reason)) (Some retry_after)) h) db; Ok ((), db)
      else Ok ((), db)
  | None => Ok ((), db)
  end.

(** [scheduled_workflow_reject] *)
Definition scheduled_workflow_reject (i reason : str) (now : DateTime) (db : StartsDb) : R (bool * StartsDb) :=
  h ← start_head i db;
  match h with
  | Some h =>
      if is_accepted h
      then db ← save_start (settle_head (ORejectedBeforeStart (bounded_reason reason)) now h) db; Ok (true, db)
      else Ok (false, db)
  | None => Ok (false, db)
  end.

(** [scheduled_workflow_cancel] *)
Definition scheduled_workflow_cancel (i : str) (now : DateTime) (db : StartsDb)
    : R (option ScheduledWorkflowHead * StartsDb) :=
  h ← start_head i db;
  match h with
  | None => Ok (None, db)
  | Some h =>
      if is_settled h then Ok (Some h, db)
      else
        let cancelled := with_cancellation (Some (default now (cancellation_requested_at h))) h in
        let h := if is_accepted h then settle_head OCancelled now cancelled else cancelled in
        db ← save_start h db;
        Ok (Some h, db)
  end.

(** [require_claim] *)
Definition require_claim (c : ClaimedScheduledWorkflow) (db : StartsDb) : R ScheduledWorkflowHead :=
  h ← start_head (hd_id (claim_head c)) db;
  h ← ok_or (Storage (lit "scheduled claim disappeared")) h;
  _ ← guard_err (negb (bool_decide (owner_of h = Some (claim_owner c))))
        (InvalidReference (lit "scheduled execution no longer owns its claim"));
  Ok h.

Definition on_node (n : WorkflowNodeInstance) (e : ScheduledWorkflowEffect) : bool :=
  bool_decide (node_key (eff_node e) = node_key n).

(** [COALESCE(MAX(ordinal),0)] *)
Definition last_ordinal (l : list ScheduledWorkflowEffect) : N := foldr (λ e m, N.max (eff_ordinal e) m) 0%N l.

Definition start_effects (h : ScheduledWorkflowHead) : ScheduledWorkflowHead :=
  match hd_state h with
  | SClaimed o t _ => with_state (SClaimed o t true) h
  | _ => h
  end.

(** [scheduled_workflow_begin_effect] *)
Definition scheduled_workflow_begin_effect (c : ClaimedScheduledWorkflow) (n : WorkflowNodeInstance)
    (kind : ScheduledEffectKind) (db : StartsDb) : R (() * StartsDb) :=
  h ← require_claim c db;
  _ ← guard_err (bool_decide (is_Some (cancellation_requested_at h))) OperationCancelled;
  _ ← guard_err (negb (bool_decide (run (block n) = hd_run h))) (InvalidReference (lit "foreign scheduled node"));
  let rows := effects_of (hd_id h) db in
  let ordinal := (last_ordinal rows + 1)%N in
  _ ← guard_err (MAX_EFFECTS <? ordinal)%N ResourceBoundExceeded;
  let e := {| eff_ordinal := ordinal; eff_node := n; eff_kind := kind; eff_owner := Preparing;
              physical_settlement_proven := false; diagnostic := None |} in
  _ ← guard_err (MAX_EFFECT_BYTES <? effect_bytes e)%N ResourceBoundExceeded;
  (* the start and node key are the primary key *)
  _ ← guard_err (existsb (on_node n) rows) (Storage (lit "scheduled Workflow"));
  db ← save_start (start_effects h) (set_effects (<[hd_id h := rows ++ [e]]> (effects db)) db);
  Ok ((), db).

(** [update_effect] *)
Definition update_effect (i owner : str) (n : WorkflowNodeInstance)
    (change : ScheduledWorkflowEffect → ScheduledWorkflowEffect) (db : StartsDb) : R (() * StartsDb) :=
  h ← start_head i db;
  h ← ok_or (Storage (lit "scheduled owner disappeared")) h;
  _ ← guard_err (negb (bool_decide (owner_of h = Some owner))) (Storage (lit "scheduled effect owner changed"));
  let selected e := on_node n e && (effect_bytes e <=? MAX_EFFECT_BYTES)%N in
  e ← ok_or (Storage (lit "scheduled Workflow: no row")) (find_first selected (effects_of i db));
  _ ← guard_err (MAX_EFFECT_BYTES <? effect_bytes (change e))%N ResourceBoundExceeded;
  rows ← ok_or (Storage (lit "scheduled Workflow: no row")) (update_first selected change (effects_of i db));
  Ok ((), set_effects (<[i := rows]> (effects db)) db).

Definition set_owner (o : ScheduledEffectOwner) (e : ScheduledWorkflowEffect) : ScheduledWorkflowEffect :=
  {| eff_ordinal := eff_ordinal e; eff_node := eff_node e; eff_kind := eff_kind e; eff_owner := o;
     physical_settlement_proven := physical_settlement_proven e; diagnostic := diagnostic e |}.
Definition set_proof (proven : bool) (d : option str) (e : ScheduledWorkflowEffect) : ScheduledWorkflowEffect :=
  {| eff_ordinal := eff_ordinal e; eff_node := eff_node e; eff_kind := eff_kind e; eff_owner := eff_owner e;
     physical_settlement_proven := proven; diagnostic := d |}.
Definition set_diagnostic (d : str) (e : ScheduledWorkflowEffect) : ScheduledWorkflowEffect :=
  set_proof (physical_settlement_proven e) (Some d) e.

(** [scheduled_workflow_effect_owner] *)
Definition scheduled_workflow_effect_owner (c : ClaimedScheduledWorkflow) (n : WorkflowNodeInstance)
    (o : ScheduledEffectOwner) (db : StartsDb) : R (() * StartsDb) :=
  update_effect (hd_id (claim_head c)) (claim_owner c) n (set_owner o) db.

(** [scheduled_workflow_effect_settled] *)
Definition scheduled_workflow_effect_settled (c : ClaimedScheduledWorkflow) (n : WorkflowNodeInstance)
    (proven : bool) (d : option str) (db : StartsDb) : R (() * StartsDb) :=
  update_effect (hd_id (claim_head c)) (claim_owner c) n (set_proof proven (bounded_reason <$> d)) db.

(** [scheduled_workflow_blocked] *)
Definition scheduled_workflow_blocked (i reason : str) (db : StartsDb) : R (() * StartsDb) :=
  h ← start_head i db;
  match h with
  | Some h =>
      if is_claimed h && negb (bool_decide (recovery_blocked h = Some (bounded_reason reason)))
      then db ← save_start (with_blocked (Some (bounded_reason reason)) h) db; Ok ((), db)
      else Ok ((), db)
  | None => Ok ((), db)
  end.

(** ** Interactions of a start *)

Definition REQUESTED : str := lit "interaction-requested-event:".
Definition SETTLED : str := lit "interaction-settled-event:".
(** [interaction_requested_event_id] and [interaction_settled_event_id] *)
Definition interaction_requested_event_id (interaction : str) : str := REQUESTED ++ interaction.
Definition interaction_settled_event_id (interaction : str) : str := SETTLED ++ interaction.

(** [scheduled:start:] *)
Definition scope_of (i : str) : str := lit "scheduled:" ++ i ++ lit ":".

Definition has_event (e : str) (db : StartsDb) : bool := existsb (λ x, bool_decide (x.1 = e)) (journal db).

(** [find_event_by_id] *)
Definition find_event_by_id (e : str) (db : StartsDb) : option RuntimeEvent :=
  snd <$> find_first (λ x, bool_decide (x.1 = e)) (journal db).

(** The requests of a start that no settled fact answers; an interaction identity does not
    contain the prefix of the requested fact again. *)
Definition unanswered (i : str) (db : StartsDb) (x : str * RuntimeEvent) : bool :=
  bool_decide (REQUESTED ++ scope_of i `prefix_of` x.1) &&
  negb (has_event (SETTLED ++ drop (length REQUESTED) x.1) db).
Definition pending_interactions (i : str) (db : StartsDb) : list (str * RuntimeEvent) :=
  List.filter (unanswered i db) (journal db).

(** The lifecycles of [lifecycle_keys] *)
Definition interaction_key (interaction : str) : str := lit "interaction:" ++ interaction.
Definition native_approval_key (inv : ToolInvocationId) : str := lit "native-approval:" ++ approval_digest inv.

Definition approval_keys (s : InteractionSubject) : list str :=
  match s with SubApproval (IWorkflow n r) _ => [native_approval_key (IWorkflow n r)] | _ => [] end.

Definition subject_node (s : InteractionSubject) : option WorkflowNodeInstance :=
  match s with
  | SubReview n _ | SubApproval (IWorkflow n _) _ | SubQuestionnaire (IWorkflow n _) _ => Some n
  | _ => None
  end.

(** [validate_interaction_owner] *)
Definition validate_interaction_owner (interaction : str) (subject : InteractionSubject) (settlement : bool)
    (db : StartsDb) : R () :=
  n ← ok_or (InvalidReference (lit "scheduled interaction lacks a native Workflow node")) (subject_node subject);
  i ← ok_or (InvalidReference (lit "interaction lacks a real Scheduled origin"))
        (match run_origin (run (block n)) with OScheduled i => Some i | OTool _ => None end);
  h ← start_head i db;
  h ← ok_or (Storage (lit "scheduled interaction has no admitted start")) h;
  _ ← guard_err (negb (bool_decide (run_conversation (run (block n)) = conversation (sched db)))
                 || negb (bool_decide (hd_run h = run (block n))) || negb (is_claimed h)
                 || negb (bool_decide (scope_of i `prefix_of` interaction)))
        (InvalidReference (lit "scheduled interaction differs from its durable Claim"));
  _ ← guard_err (negb settlement && bool_decide (is_Some (cancellation_requested_at h))) OperationCancelled;
  _ ← guard_err (negb settlement && match subject with
                                    | SubApproval inv _ => bool_decide (is_Some (lifecycle db !! native_approval_key inv))
                                    | _ => false
                                    end)
        (Storage (lit "scheduled native invocation already requested approval"));
  guard_err (negb (existsb (on_node n) (effects_of i db)))
    (InvalidReference (lit "scheduled interaction has no required native effect receipt")).

Definition touch (l : gmap str bool) (k : str * bool) : gmap str bool :=
  if k.2 then <[k.1 := true]> l
  else match l !! k.1 with Some _ => l | None => <[k.1 := false]> l end.

(** The end of [persist_event_tx_internal]: open lifecycles, a fresh sequence and a fresh
    event identity.  [keys] are the lifecycles and whether the event ends them. *)
Definition persist_event (e : str) (event : RuntimeEvent) (keys : list (str * bool)) (db : StartsDb) : R StartsDb :=
  sequence ← ok_or (Storage (lit "event sequence exhausted")) (i64_next (next_event_sequence db));
  _ ← guard_err (existsb (λ k, bool_decide (lifecycle db !! k.1 = Some true)) keys)
        (TerminalViolation (lit "lifecycle is already terminal"));
  _ ← guard_err (has_event e db) (Storage (lit "insert runtime event"));
  Ok (set_journal (journal db ++ [(e, event)]) sequence
        (foldl touch (lifecycle db) keys) db).

(** [commit_interaction_requested] of a start, for a subject within its bounds *)
Definition commit_interaction_requested (interaction : str) (subject : InteractionSubject) (db : StartsDb)
    : R (() * StartsDb) :=
  _ ← validate_interaction_owner interaction subject false db;
  _ ← guard_err (bool_decide (is_Some (lifecycle db !! interaction_key interaction)))
        (TerminalViolation (lit "interaction already has a durable requested fact"));
  db ← persist_event (interaction_requested_event_id interaction) (InteractionRequested interaction subject)
         ((interaction_key interaction, false) :: map (λ k, (k, true)) (approval_keys subject)) db;
  Ok ((), db).

(** [commit_interaction_settled] of a start, for a settlement its subject can produce *)
Definition commit_interaction_settled (interaction : str) (settlement : InteractionSettlement) (db : StartsDb)
    : R (() * StartsDb) :=
  match find_event_by_id (interaction_requested_event_id interaction) db with
  | Some (InteractionRequested embedded subject) =>
      _ ← guard_err (negb (bool_decide (embedded = interaction)))
            (InvalidReference (lit "interaction requested event belongs to another interaction"));
      _ ← validate_interaction_owner interaction subject true db;
      db ← persist_event (interaction_settled_event_id interaction) (InteractionSettled interaction settlement)
             [(interaction_key interaction, true)] db;
      Ok ((), db)
  | Some _ => Err (InvalidReference (lit "the interaction requested event is not the typed requested fact"))
  | None => Err (InvalidReference (lit "interaction settlement has no durable requested fact"))
  end.

(** ** Settlement *)

Definition unproven (i : str) (db : StartsDb) : bool :=
  existsb (λ e, negb (physical_settlement_proven e)) (effects_of i db).

Definition awaits_proof (source : QuiescenceSource) (effects_started unproven : bool) : bool :=
  match source with
  | RecoveredNoEffects => effects_started
  | RecoveredOwners | NativeExecutor => unproven
  end.

Definition set_result (v : option json) (r : StartRecord) : StartRecord :=
  {| s_head := s_head r; contract := contract r; arguments := arguments r; result_value := v |}.

(** [scheduled_workflow_settle] *)
Definition scheduled_workflow_settle (i : str) (outcome : ScheduledWorkflowOutcome) (source : QuiescenceSource)
    (result : option json) (now : DateTime) (db : StartsDb) : R (ScheduledWorkflowSettlement * StartsDb) :=
  h ← start_head i db;
  match h with
  | None => Ok (AlreadySettled, db)
  | Some h =>
      match hd_state h with
      | SClaimed _ _ effects_started =>
          if awaits_proof source effects_started (unproven i db) then Ok (AwaitingNativeProof, db)
          else if negb (bool_decide (pending_interactions i db = [])) then Ok (AwaitingNativeProof, db)
          else
            match outcome with
            | OCompleted =>
                _ ← guard_err (match source with NativeExecutor => false | _ => true end)
                      (Storage (lit "recovery cannot manufacture successful Workflow output"));
                v ← ok_or (Storage (lit "completed Workflow lost its Return value")) result;
                _ ← guard_err (MAX_RESULT_BYTES <? json_bytes v)%N ResourceBoundExceeded;
                let h := with_blocked None (settle_head outcome now (with_digest (Some (value_digest v)) h)) in
                db ← save_start h (set_records (alter (set_result (Some v)) i (records db)) db);
                Ok (Settled, db)
            | _ =>
                _ ← guard_err (bool_decide (is_Some result))
                      (Storage (lit "failed Workflow cannot publish a Return value"));
                db ← save_start (with_blocked None (settle_head outcome now h)) db;
                Ok (Settled, db)
            end
      | _ => Ok (AlreadySettled, db)
      end
  end.

(** ** Reading for recovery *)

Record ScheduledWorkflowRecovery := {
  rec_start : ScheduledWorkflowHead;
  rec_effects : list ScheduledWorkflowEffect;
  rec_result : option json;
  next_effect_ordinal : option N;
  capacity_blocked : bool;
  deletion_blocked : bool;
}.

(** The row reads back within its bound, under the run of the start. *)
Definition check_effect (h : ScheduledWorkflowHead) (e : ScheduledWorkflowEffect) : R () :=
  _ ← guard_err (MAX_EFFECT_BYTES <? effect_bytes e)%N (Storage (lit "scheduled effect exceeds native bound"));
  guard_err (negb (bool_decide (run (block (eff_node e)) = hd_run h))) (Storage (lit "scheduled effect identity differs")).

(** [scheduled_workflow_recovery] *)
Definition scheduled_workflow_recovery (i : str) (after limit : N) (db : StartsDb)
    : R (option ScheduledWorkflowRecovery) :=
  _ ← guard_err (negb ((1 <=? limit)%N && (limit <=? 100)%N) || (i64_max <? after)%N) ResourceBoundExceeded;
  h ← start_head i db;
  match h, records db !! i with
  | Some h, Some r =>
      let page := take (N.to_nat limit) (List.filter (λ e, (after <? eff_ordinal e)%N) (effects_of i db)) in
      _ ← try_for_each (check_effect h) page;
      _ ← guard_err (bool_decide (is_Some (result_value r)) && bool_decide (bounded_result r = None))
            (Storage (lit "scheduled Return exceeds native bound"));
      _ ← guard_err (match bounded_result r with
                     | Some v => negb (bool_decide (result_digest h = Some (value_digest v)))
                     | None => false
                     end) (Storage (lit "scheduled Return digest differs"));
      Ok (Some {| rec_start := h; rec_effects := page; rec_result := bounded_result r;
                  next_effect_ordinal := if (length page =? N.to_nat limit)%nat then eff_ordinal <$> last page else None;
                  capacity_blocked := negb (is_settled h); deletion_blocked := negb (is_settled h) |})
  | _, _ => Ok None
  end.
End transactions.

(** ** Runs *)

Section runs.
Context `{Croner, SchedulerEnv, StartEnv}.

(** The identities of interactions that belong to starts. *)
Definition of_starts : str := lit "scheduled:".

(** The transactions on a start, and those of the rest of the store: a command or an
    admission may end with a pruning, and the Journal takes other events under other
    identities and lifecycles. *)
Inductive starts_step : StartsDb → StartsDb → Prop :=
| st_command b c now a p cancelled r s (pruned : bool) db :
    schedule_command_impl b c now a p cancelled (sched db) = Ok (r, s) →
    starts_step db (if pruned then prune_starts now (set_sched s db) else set_sched s db)
| st_admit i expected now r db db' : admit_start i expected now db = Ok (r, db') → starts_step db db'
| st_inbox x db : native_step (inbox (sched db)) x → starts_step db (set_sched (set_inbox x (sched db)) db)
| st_prune now (removed : bool) s db :
    (if removed then advance_generation (prune now (sched db)) else Ok (prune now (sched db))) = Ok s →
    starts_step db (prune_starts now (set_sched s db))
| st_claim i expected owner now r db db' :
    scheduled_workflow_claim i expected owner now db = Ok (r, db') → starts_step db db'
| st_wait i reason at_ r db db' : scheduled_workflow_wait i reason at_ db = Ok (r, db') → starts_step db db'
| st_reject i reason now r db db' : scheduled_workflow_reject i reason now db = Ok (r, db') → starts_step db db'
| st_cancel i now r db db' : scheduled_workflow_cancel i now db = Ok (r, db') → starts_step db db'
| st_begin c n kind r db db' :
    scheduled_workflow_begin_effect c n kind db = Ok (r, db') → starts_step db db'
| st_owner i owner n o r db db' : update_effect i owner n (set_owner o) db = Ok (r, db') → starts_step db db'
| st_proof i owner n proven d r db db' :
    update_effect i owner n (set_proof proven d) db = Ok (r, db') → starts_step db db'
| st_diagnostic i owner n d r db db' :
    update_effect i owner n (set_diagnostic d) db = Ok (r, db') → starts_step db db'
| st_blocked i reason r db db' : scheduled_workflow_blocked i reason db = Ok (r, db') → starts_step db db'
| st_settle i outcome source result now r db db' :
    scheduled_workflow_settle i outcome source result now db = Ok (r, db') → starts_step db db'
| st_request interaction subject r db db' :
    commit_interaction_requested interaction subject db = Ok (r, db') → starts_step db db'
| st_answer interaction settlement r db db' :
    commit_interaction_settled interaction settlement db = Ok (r, db') → starts_step db db'
| st_event e event keys db db' :
    ¬ (REQUESTED ++ of_starts) `prefix_of` e →
    (∀ k, k ∈ keys → ¬ (interaction_key of_starts) `prefix_of` k.1) →
    persist_event e event keys db = Ok db' → starts_step db db'
| st_auxiliary m db : starts_step db (set_auxiliary m db).

Definition starts_start (c : str) : StartsDb :=
  {| sched := schedule_start c; records := ∅; effects := ∅; journal := []; next_event_sequence := 0;
     lifecycle := ∅; auxiliary := ∅ |}.

Definition starts_reachable (c : str) (db : StartsDb) : Prop := rtc starts_step (starts_start c) db.

(** ** The invariant *)

(** The header is of this row and conversation. *)
Record header_ok (c i : str) (h : ScheduledWorkflowHead) : Prop := {
  header_id : hd_id h = i;
  header_trigger : for_trigger (hd_trigger h) = i;
  header_run : hd_run h = {| run_conversation := c; run_origin := OScheduled i; invocation := 1 |};
  header_binding : b_conversation (hd_binding h) = c;
  header_schedule : id_conversation (schedule_id (hd_trigger h)) = c;
}.

Definition proven (e : ScheduledWorkflowEffect) : Prop := physical_settlement_proven e = true.

(** What each state of a start implies for its row and effects. *)
Definition life_ok (r : StartRecord) (rows : list ScheduledWorkflowEffect) : Prop :=
  let h := s_head r in
  match hd_state h with
  | SAccepted _ _ =>
      rows = [] ∧ is_Some (bounded_contract r) ∧ is_Some (bounded_arguments r) ∧ result_value r = None ∧
      result_digest h = None ∧ native_quiescence_proven h = false ∧ cancellation_requested_at h = None ∧
      recovery_blocked h = None
  | SClaimed _ _ started =>
      (started = false ↔ rows = []) ∧ is_Some (bounded_contract r) ∧ is_Some (bounded_arguments r) ∧
      result_value r = None ∧ result_digest h = None ∧ native_quiescence_proven h = false
  | SSettled outcome _ =>
      Forall proven rows ∧ native_quiescence_proven h = true ∧ recovery_blocked h = None ∧
      (is_Some (result_digest h) ↔ outcome = OCompleted) ∧
      (∀ v, result_value r = Some v → result_digest h = Some (value_digest v) ∧ (json_bytes v <= MAX_RESULT_BYTES)%N) ∧
      (is_Some (contract r) → outcome = OCompleted → is_Some (result_value r))
  end.

Definition row_key (e : ScheduledWorkflowEffect) : str := node_key (eff_node e).

(** The receipts of a start: numbered from 1, at most 4096, one per node, all of its run. *)
Record rows_ok (h : ScheduledWorkflowHead) (rows : list ScheduledWorkflowEffect) : Prop := {
  rows_numbered : map eff_ordinal rows = count_to (N.of_nat (length rows));
  rows_bound : (N.of_nat (length rows) <= MAX_EFFECTS)%N;
  rows_once : NoDup (map row_key rows);
  rows_run e : e ∈ rows → run (block (eff_node e)) = hd_run h;
}.

(** A requested fact of a start: it was made under the claim for an effect of the start, and
    until it is answered the claim stands and its lifecycle is open. *)
Definition request_fact (db : StartsDb) (e : str) (event : RuntimeEvent) : Prop :=
  ∃ interaction subject n i r,
    event = InteractionRequested interaction subject ∧ e = REQUESTED ++ interaction ∧
    subject_node subject = Some n ∧ records db !! i = Some r ∧ run (block n) = hd_run (s_head r) ∧
    scope_of i `prefix_of` interaction ∧ is_accepted (s_head r) = false ∧
    (has_event (SETTLED ++ interaction) db = false →
     is_claimed (s_head r) = true ∧ existsb (on_node n) (effects_of i db) = true ∧
     lifecycle db !! interaction_key interaction = Some false).

Record starts_ok (db : StartsDb) : Prop := {
  ok_sched : schedule_ok (sched db);
  ok_rows i row : starts (sched db) !! i = Some row → is_Some (records db !! i);
  ok_header i r : records db !! i = Some r → header_ok (conversation (sched db)) i (s_head r);
  ok_state i r : records db !! i = Some r → ∃ row, starts (sched db) !! i = Some row ∧
    start_state row = state_of (hd_state (s_head r)) ∧ start_trigger row = hd_trigger (s_head r);
  ok_life i r : records db !! i = Some r → life_ok r (effects_of i db) ∧ rows_ok (s_head r) (effects_of i db);
  ok_effects i : is_Some (effects db !! i) → is_Some (records db !! i);
  ok_requests e event : (e, event) ∈ journal db → (REQUESTED ++ of_starts) `prefix_of` e → request_fact db e event;
  ok_journal : NoDup (map fst (journal db));
}.

(** ** The progress of a start *)

Record head_evolves (h h' : ScheduledWorkflowHead) : Prop := {
  ev_id : hd_id h' = hd_id h;
  ev_run : hd_run h' = hd_run h;
  ev_trigger : hd_trigger h' = hd_trigger h;
  ev_cancelled : is_Some (cancellation_requested_at h) → cancellation_requested_at h' = cancellation_requested_at h;
  ev_state : match hd_state h with
    | SAccepted _ _ => True
    | SClaimed o t _ => (∃ started, hd_state h' = SClaimed o t started) ∨ is_settled h' = true
    | SSettled _ _ => h' = h
    end;
}.

(** No effect and no interaction may begin. *)
Definition closed (h : ScheduledWorkflowHead) : Prop :=
  is_Some (cancellation_requested_at h) ∨ is_settled h = true.

Definition requests_of (i : str) (db : StartsDb) : list (str * RuntimeEvent) :=
  List.filter (λ x, bool_decide (REQUESTED ++ scope_of i `prefix_of` x.1)) (journal db).

Definition rows_evolve (h h' : ScheduledWorkflowHead) (rows rows' : list ScheduledWorkflowEffect) : Prop :=
  (rows' = [] ∧ is_settled h' = true) ∨
  ∃ l, map row_key rows' = map row_key rows ++ l ∧ (closed h → l = []).

(** A later state: every start kept its place and moved forward. *)
Definition evolves (db db' : StartsDb) : Prop :=
  conversation (sched db') = conversation (sched db) ∧
  ∀ i r, records db !! i = Some r → ∃ r', records db' !! i = Some r' ∧
    head_evolves (s_head r) (s_head r') ∧
    rows_evolve (s_head r) (s_head r') (effects_of i db) (effects_of i db') ∧
    (closed (s_head r) → requests_of i db' = requests_of i db) ∧
    (is_settled (s_head r) = true → r' = r ∨ r' = strip r).
End runs.

(** ** Progress composes *)

Section progress.
Context `{StartEnv}.

Lemma head_evolves_refl h : head_evolves h h.
Proof. split; try done. destruct (hd_state h); eauto. Qed.

Lemma settled_iff h : is_settled h = true ↔ ∃ outcome t, hd_state h = SSettled outcome t.
Proof. unfold is_settled. rewrite bool_decide_eq_true. destruct (hd_state h); cbn; naive_solver. Qed.
Lemma claimed_iff h : is_claimed h = true ↔ ∃ owner t started, hd_state h = SClaimed owner t started.
Proof. unfold is_claimed. rewrite bool_decide_eq_true. destruct (hd_state h); cbn; naive_solver. Qed.
Lemma accepted_iff h : is_accepted h = true ↔ ∃ waiting retry, hd_state h = SAccepted waiting retry.
Proof. unfold is_accepted. rewrite bool_decide_eq_true. destruct (hd_state h); cbn; naive_solver. Qed.

(** A settled header never changes. *)
Lemma settled_same h h' : head_evolves h h' → is_settled h = true → h' = h.
Proof. intros [_ _ _ _ Hs] (o & t & E)%settled_iff. by rewrite E in Hs. Qed.

Lemma head_evolves_trans h1 h2 h3 : head_evolves h1 h2 → head_evolves h2 h3 → head_evolves h1 h3.
Proof.
  intros H12 H23. destruct (is_settled h2) eqn:E2; [by rewrite (settled_same _ _ H23 E2)|].
  destruct H12 as [I1 R1 T1 C1 S1], H23 as [I2 R2 T2 C2 S2]. split; [congruence..| |].
  - intros Hc. rewrite C2; [by apply C1|by rewrite C1].
  - destruct (hd_state h1) as [| |o t] eqn:E1; [done| |].
    2:{ subst h2. assert (is_settled h1 = true) by (apply settled_iff; eauto). congruence. }
    destruct S1 as [[started E]|?]; [|congruence]. by rewrite E in S2.
Qed.

Lemma closed_evolves h h' : head_evolves h h' → closed h → closed h'.
Proof.
  intros He [Hc|Hs]; [left; by rewrite (ev_cancelled _ _ He Hc)|right]. by rewrite (settled_same _ _ He Hs).
Qed.

Lemma rows_evolve_refl h h' rows : rows_evolve h h' rows rows.
Proof. right. exists []. by rewrite app_nil_r. Qed.

Lemma rows_evolve_trans h1 h2 h3 rows1 rows2 rows3 :
  head_evolves h1 h2 → head_evolves h2 h3 →
  rows_evolve h1 h2 rows1 rows2 → rows_evolve h2 h3 rows2 rows3 → rows_evolve h1 h3 rows1 rows3.
Proof.
  intros H12 H23 [[-> Hs]|(l1 & E1 & C1)] [?|(l2 & E2 & C2)]; try by left.
  - left. rewrite (settled_same _ _ H23 Hs). split; [|done].
    rewrite C2 in E2 by (by right). by apply map_eq_nil in E2.
  - right. exists (l1 ++ l2). split; [by rewrite E2, E1, app_assoc|].
    intros Hc. rewrite C1, C2; [done|by eapply closed_evolves|done].
Qed.

#[export] Instance evolves_preorder : PreOrder evolves.
Proof.
  split.
  - intros db. split; [done|]. intros i r Hr. exists r. split_and!; [done|apply head_evolves_refl|apply rows_evolve_refl|done|by left].
  - intros db1 db2 db3 [C12 E12] [C23 E23]. split; [congruence|]. intros i r1 H1.
    destruct (E12 i r1 H1) as (r2 & H2 & Hh12 & Hr12 & Hq12 & Hk12). destruct (E23 i r2 H2) as (r3 & H3 & Hh23 & Hr23 & Hq23 & Hk23).
    exists r3. split_and!; [done|by eapply head_evolves_trans|by eapply rows_evolve_trans| |].
    + intros Hc. rewrite Hq23, Hq12; [done..|by eapply closed_evolves].
    + intros Hs. destruct (Hk23 ltac:(by rewrite (settled_same _ _ Hh12 Hs))) as [->| ->]; [auto|].
      right. by destruct (Hk12 Hs) as [->| ->].
Qed.

Lemma rows_evolve_on_node h h' rows rows' n :
  rows_evolve h h' rows rows' → is_settled h' = false →
  existsb (on_node n) rows = true → existsb (on_node n) rows' = true.
Proof.
  intros [[_ ?]|(l & E & _)]; [congruence|]. intros _. rewrite !existsb_exists.
  intros (e & He%list_elem_of_In & Hn%bool_decide_eq_true).
  assert (Hk : node_key n ∈ map row_key rows').
  { rewrite E. apply elem_of_app. left. rewrite <- Hn. by apply (list_elem_of_fmap_2 row_key). }
  apply list_elem_of_fmap in Hk as (e' & Hk & He'). exists e'. split; [by apply list_elem_of_In|].
  by apply bool_decide_eq_true.
Qed.
End progress.

(** ** Pruning *)

Section pruning.
Context `{Croner, SchedulerEnv, StartEnv}.

Lemma gone_settled now db i : gone now db i = true → ∃ r, records db !! i = Some r ∧ is_settled (s_head r) = true.
Proof.
  unfold gone, start_expired, kept_since. destruct (records db !! i) as [r|]; [|done].
  destruct (hd_state (s_head r)) eqn:E; try done. intros _. exists r. split; [done|]. apply settled_iff. eauto.
Qed.

Lemma prune_record now db i :
  records (prune_starts now db) !! i = (λ r, if gone now db i then strip r else r) <$> records db !! i.
Proof. unfold prune_starts. cbn. rewrite map_lookup_imap. by destruct (records db !! i). Qed.

Lemma prune_effects now db i : effects_of i (prune_starts now db) = if gone now db i then [] else effects_of i db.
Proof.
  unfold effects_of, prune_starts. cbn. rewrite map_lookup_filter.
  destruct (effects db !! i) as [rows|]; cbn; [|by destruct (gone now db i)].
  case_guard as Hg; cbn in *; destruct (gone now db i); try done; by destruct Hg.
Qed.

Lemma strip_head (b : bool) r : s_head (if b then strip r else r) = s_head r.
Proof. by destruct b. Qed.

Lemma prune_life now db i r :
  records db !! i = Some r → life_ok r (effects_of i db) ∧ rows_ok (s_head r) (effects_of i db) →
  life_ok (if gone now db i then strip r else r) (effects_of i (prune_starts now db)) ∧
  rows_ok (s_head r) (effects_of i (prune_starts now db)).
Proof.
  intros Hr [Hl Hrows]. rewrite prune_effects. destruct (gone now db i) eqn:Eg; [|done]. split.
  - apply gone_settled in Eg as (r0 & Hr0 & (o & t & E)%settled_iff). assert (r0 = r) as -> by congruence.
    unfold life_ok in *. cbn. rewrite E in *. destruct Hl as (_ & Hq & Hb & Hd & _ & _).
    split_and!; [done..|intros ? [=]|by intros [? [=]]].
  - split; cbn; [done|lia|constructor|by intros e ?%not_elem_of_nil].
Qed.

Lemma prune_starts_ok now db : starts_ok db → starts_ok (prune_starts now db) ∧ evolves db (prune_starts now db).
Proof.
  intros [Hs Hrows Hhd Hst Hl He Hq Hj].
  assert (Hrec : ∀ i r', records (prune_starts now db) !! i = Some r' →
    ∃ r, records db !! i = Some r ∧ r' = if gone now db i then strip r else r).
  { intros i r'. rewrite prune_record. intros (r & ? & ?)%fmap_Some. eauto. }
  split.
  - split; try done.
    + intros i row Hi. rewrite prune_record. destruct (Hrows i row Hi) as [r ->]. by eexists.
    + intros i r' (r & Hr & ->)%Hrec. rewrite strip_head. by apply Hhd.
    + intros i r' (r & Hr & ->)%Hrec. rewrite strip_head. by apply Hst.
    + intros i r' (r & Hr & ->)%Hrec. rewrite strip_head. apply prune_life; auto.
    + intros i Hi. rewrite prune_record, fmap_is_Some. apply He.
      revert Hi. cbn. rewrite map_lookup_filter. by intros [rows (? & ? & _)%bind_Some].
    + intros e event Hin Hp. destruct (Hq e event Hin Hp) as (k & subject & n & i & r & Eev & Ee & Hn & Hr & Hrun & Hsc & Ha & Hopen).
      exists k, subject, n, i, (if gone now db i then strip r else r). rewrite strip_head. split_and!; try done.
      * by rewrite prune_record, Hr.
      * intros Hno. destruct (Hopen Hno) as (Hc & Hex & Hlc). split_and!; [done| |done]. rewrite prune_effects.
        destruct (gone now db i) eqn:Eg; [|done]. apply gone_settled in Eg as (r0 & Hr0 & (o & t & Es)%settled_iff).
        apply claimed_iff in Hc as (? & ? & ? & ?). congruence.
  - split; [done|]. intros i r Hr. exists (if gone now db i then strip r else r). rewrite strip_head.
    split_and!; [by rewrite prune_record, Hr|apply head_evolves_refl| |done|destruct (gone now db i); auto].
    rewrite prune_effects. destruct (gone now db i) eqn:Eg; [|apply rows_evolve_refl]. left. split; [done|].
    apply gone_settled in Eg as (r0 & Hr0 & ?). congruence.
Qed.
End pruning.

(** ** Writing a header *)

Lemma insert_as_alter {A} (f : A → A) (m : gmap str A) i x : m !! i = Some x → <[i := f x]> m = alter f i m.
Proof.
  intros Hx. apply map_eq. intros j. destruct (decide (i = j)) as [<-|Hne].
  - by rewrite lookup_alter_eq, lookup_insert_eq, Hx.
  - by rewrite lookup_alter_ne, lookup_insert_ne.
Qed.

(** SHA-256 in hexadecimal: no colon. *)
Class StartLaws `{SchedulerEnv} := digest_no_colon t : 58%N ∉ trigger_digest t.

Section writing.
Context `{CronerLaws, !SchedulerEnv, !StartEnv, !StartLaws}.

Lemma start_id_no_colon t : 58%N ∉ for_trigger t.
Proof using All.
  unfold for_trigger. rewrite elem_of_app. intros [Hin|Hin]; [|by apply digest_no_colon in Hin].
  apply (bool_decide_eq_true_2 _) in Hin. by vm_compute in Hin.
Qed.

(** The scopes of two starts are disjoint. *)
Lemma scope_inj i j x y : 58%N ∉ i → 58%N ∉ j → scope_of i ++ x = scope_of j ++ y → i = j.
Proof.
  intros Hi Hj. unfold scope_of. rewrite <- !app_assoc. intros E%app_inv_head.
  change (lit ":") with [58%N] in E. by apply app_sep_inj in E as [-> _].
Qed.

Lemma scope_prefix i j interaction :
  58%N ∉ i → 58%N ∉ j → (REQUESTED ++ scope_of i) `prefix_of` (REQUESTED ++ interaction) →
  scope_of j `prefix_of` interaction → i = j.
Proof.
  intros Hi Hj [x Ex] [y ->]. rewrite <- app_assoc in Ex. apply app_inv_head in Ex.
  by apply (scope_inj i j x y).
Qed.

Lemma scope_of_starts i : (REQUESTED ++ of_starts) `prefix_of` (REQUESTED ++ scope_of i).
Proof. exists (i ++ lit ":"). unfold scope_of, of_starts. by rewrite <- app_assoc. Qed.

Lemma ok_no_colon db i r : starts_ok db → records db !! i = Some r → 58%N ∉ i.
Proof using All. intros Hok Hr. rewrite <- (header_trigger _ _ _ (ok_header db Hok i r Hr)). apply start_id_no_colon. Qed.

(** A start that is not claimed has no unanswered interaction. *)
Lemma unclaimed_quiet db i r :
  starts_ok db → records db !! i = Some r → is_claimed (s_head r) = false → pending_interactions i db = [].
Proof using All.
  intros Hok Hr Hc. unfold pending_interactions. destruct (List.filter _ _) as [|[e event] l] eqn:E; [done|exfalso].
  assert (Hin : (e, event) ∈ List.filter (unanswered i db) (journal db)) by (rewrite E; constructor).
  apply list_elem_of_In, filter_In in Hin as [Hin%list_elem_of_In [Hp%bool_decide_eq_true Hno%negb_true_iff]%andb_true_iff].
  cbn in Hp, Hno. destruct (ok_requests db Hok e event Hin) as (k & subject & n & j & r' & _ & -> & _ & Hr' & _ & Hsc & _ & Hopen).
  { etrans; [|exact Hp]. apply scope_of_starts. }
  assert (i = j) as <- by (eapply scope_prefix; try done; by eapply ok_no_colon).
  rewrite drop_app_length in Hno. destruct (Hopen Hno) as (? & _). congruence.
Qed.

Lemma start_head_record i h db : start_head i db = Ok (Some h) → ∃ r, records db !! i = Some r ∧ s_head r = h.
Proof.
  unfold start_head. destruct (starts (sched db) !! i) as [row|], (records db !! i) as [r|]; try done.
  intros ?. inv_result. eauto.
Qed.

(** The tables with one start rewritten. *)
Record rewritten (i : str) (r' : StartRecord) (rows' : list ScheduledWorkflowEffect) (s : ScheduleDb)
    (db db' : StartsDb) : Prop := {
  rw_sched : sched db' = s;
  rw_record : records db' = <[i := r']> (records db);
  rw_effects j : effects_of j db' = if decide (j = i) then rows' else effects_of j db;
  rw_effects_dom j : is_Some (effects db' !! j) → is_Some (effects db !! j) ∨ j = i;
  rw_journal : journal db' = journal db;
  rw_lifecycle : lifecycle db' = lifecycle db;
}.

(** What a rewriting has to show. *)
Record advances (i : str) (r r' : StartRecord) (rows' : list ScheduledWorkflowEffect) (db : StartsDb) : Prop := {
  adv_head : head_evolves (s_head r) (s_head r');
  adv_binding : hd_binding (s_head r') = hd_binding (s_head r);
  adv_edge : start_edge (state_of (hd_state (s_head r))) (state_of (hd_state (s_head r')));
  adv_rows : rows_evolve (s_head r) (s_head r') (effects_of i db) rows';
  adv_life : life_ok r' rows';
  adv_rows_ok : rows_ok (s_head r') rows';
  adv_quiet : is_settled (s_head r') = true → pending_interactions i db = [];
}.

(** A fact about the other tables survives the rewriting. *)
Lemma rewritten_request i r r' rows' s db db' e event :
  starts_ok db → records db !! i = Some r → rewritten i r' rows' s db db' → advances i r r' rows' db →
  (e, event) ∈ journal db → request_fact db e event → request_fact db' e event.
Proof using All.
  intros Hok Hr [_ Wr We _ Wj Wl] [Ahd _ Aed Arw _ _ Aq] Hin (k & subject & n & j & rj & -> & -> & Hn & Hrj & Hrun & Hsc & Ha & Hopen).
  destruct (decide (j = i)) as [->|Hne].
  - assert (rj = r) as -> by congruence. exists k, subject, n, i, r'.
    rewrite Wr, lookup_insert_eq. unfold has_event in *. rewrite We, Wj, Wl, (decide_True (P := i = i)) by done.
    split_and!; try done.
    + by rewrite (ev_run _ _ Ahd).
    + apply not_true_iff_false. intros (w & t & E)%accepted_iff. rewrite E in Aed. unfold is_accepted in Ha.
      apply bool_decide_eq_false in Ha. inversion Aed; congruence.
    + intros Hno. destruct (Hopen Hno) as (Hc & Hex & Hlc).
      assert (Hns : is_settled (s_head r') = false).
      { apply not_true_iff_false. intros Hse. specialize (Aq Hse).
        assert (Hp : (REQUESTED ++ k, InteractionRequested k subject) ∈ pending_interactions i db).
        { apply list_elem_of_In, filter_In. split; [by apply list_elem_of_In|]. apply andb_true_iff. split.
          - apply bool_decide_eq_true. cbn. by apply prefix_app.
          - apply negb_true_iff. unfold has_event. cbn. by rewrite drop_app_length. }
        rewrite Aq in Hp. by apply not_elem_of_nil in Hp. }
      split_and!; [|by eapply rows_evolve_on_node|done].
      apply claimed_iff in Hc as (o & t & x & E). pose proof (ev_state _ _ Ahd) as Hs. rewrite E in Hs.
      destruct Hs as [[y E']|?]; [apply claimed_iff; eauto|congruence].
  - exists k, subject, n, j, rj. rewrite Wr, lookup_insert_ne by done. unfold has_event in *.
    rewrite We, Wj, Wl, (decide_False (P := j = i)) by done. done.
Qed.

Lemma rewritten_ok i r r' rows' row s db db' :
  starts_ok db → records db !! i = Some r → starts (sched db) !! i = Some row →
  rewritten i r' rows' s db db' → advances i r r' rows' db →
  schedule_ok s → conversation s = conversation (sched db) →
  starts s = <[i := set_state (state_of (hd_state (s_head r'))) row]> (starts (sched db)) →
  starts_ok db' ∧ evolves db db'.
Proof using All.
  intros Hok Hr Hrow Hw Ha Hs Hc Hst. pose proof (ok_header db Hok i r Hr) as [I1 I2 I3 I4 I5].
  destruct (ok_state db Hok i r Hr) as (row0 & Hrow0 & Hrs & Htr). assert (row0 = row) as -> by congruence.
  pose proof Hw as [Ws Wr We Wd Wj Wl]. pose proof Ha as [Ahd Ab Aed Arw Al Aro Aq].
  split.
  - split.
    + by rewrite Ws.
    + intros j row'. rewrite Ws, Hst, Wr. intros [[<- _]|[Hne Hj]]%lookup_insert_Some.
      * rewrite lookup_insert_eq. by eexists.
      * rewrite lookup_insert_ne by done. by eapply ok_rows.
    + intros j rj. rewrite Ws, Hc, Wr. intros [[<- <-]|[Hne Hj]]%lookup_insert_Some; [|by apply (ok_header db Hok)].
      destruct Ahd as [E1 E2 E3 _ _]. split; congruence.
    + intros j rj. rewrite Ws, Hst, Wr. intros [[<- <-]|[Hne Hj]]%lookup_insert_Some.
      * eexists. rewrite lookup_insert_eq. split_and!; [done..|]. cbn. by rewrite Htr, (ev_trigger _ _ Ahd).
      * rewrite lookup_insert_ne by done. by apply (ok_state db Hok).
    + intros j rj. rewrite Wr, We. intros [[<- <-]|[Hne Hj]]%lookup_insert_Some; [by rewrite decide_True|].
      rewrite decide_False by done. by apply (ok_life db Hok).
    + intros j Hj. rewrite Wr. destruct (decide (i = j)) as [<-|Hne]; [rewrite lookup_insert_eq; by eexists|].
      rewrite lookup_insert_ne by done. apply (ok_effects db Hok). by destruct (Wd j Hj).
    + intros e event. rewrite Wj. intros Hin Hp. eapply rewritten_request; try done. by apply (ok_requests db Hok).
    + rewrite Wj. apply Hok.
  - split; [by rewrite Ws|]. intros j rj Hj. rewrite Wr, We. unfold requests_of. rewrite Wj.
    destruct (decide (j = i)) as [->|Hne].
    + assert (rj = r) as -> by congruence. exists r'. rewrite lookup_insert_eq. split_and!; try done.
      intros (o & t & E)%settled_iff. rewrite E in Aed. cbn in Aed. inversion Aed; congruence.
    + exists rj. rewrite lookup_insert_ne by done.
      split_and!; [done|apply head_evolves_refl|apply rows_evolve_refl|done|by left].
Qed.

(** [save] moves a start forward, as a step of the scheduler. *)
Lemma save_ok i r r1 h rows' db0 db db' :
  starts_ok db0 → records db0 !! i = Some r → rewritten i r1 rows' (sched db0) db0 db → hd_id h = i →
  advances i r (set_head h r1) rows' db0 → save_start h db = Ok db' →
  starts_ok db' ∧ evolves db0 db' ∧ schedule_step (sched db0) (sched db').
Proof using All.
  intros Hok Hr [Ws Wr We Wd Wj Wl] Hid Ha Hsave. unfold save_start in Hsave.
  apply bind_ok in Hsave as (u & _ & Hsave). apply bind_ok in Hsave as (s & Hg & [= <-]).
  destruct (ok_state db0 Hok i r Hr) as (row & Hrow & Hrs & _). cbn in Hg.
  assert (Hm : alter (set_state (state_of (hd_state h))) (hd_id h) (starts (sched db)) =
    <[i := set_state (state_of (hd_state h)) row]> (starts (sched db0))).
  { rewrite Hid, Ws. symmetry. by apply insert_as_alter. }
  rewrite Hm, Ws in Hg.
  assert (Hedge : start_edge (start_state row) (state_of (hd_state h))) by (rewrite Hrs; apply Ha).
  destruct (start_run_ok i row (state_of (hd_state h)) (sched db0) (ok_sched db0 Hok) Hrow Hedge) as [Hok1 Hg1].
  pose proof (advance_ok _ _ Hg Hok1) as Hok2. pose proof (grows_advance _ _ Hg) as Hg2.
  apply advance_generation_ok in Hg as Hg3. destruct Hg3 as (_ & _ & _ & _ & Hst).
  assert (Hcv : conversation s = conversation (sched db0))
    by (etrans; [apply (grows_conversation _ _ Hg2)|apply (grows_conversation _ _ Hg1)]).
  assert (Hw : ∀ s', rewritten i (set_head h r1) rows' s' db0 (set_sched s' (write_head h db))).
  { intros s'. split; cbn; try done. rewrite Hid, Wr. apply map_eq. intros j. destruct (decide (i = j)) as [<-|Hne].
    - by rewrite lookup_alter_eq, !lookup_insert_eq.
    - by rewrite lookup_alter_ne, !lookup_insert_ne. }
  pose proof (run_start i row (state_of (hd_state h)) (match hd_state h with SSettled _ t => t | _ => 0%Z end)
    _ _ Hrow Hedge Hg) as Hstep.
  destruct (hd_state h) as [| |outcome t] eqn:Eh; cbn [state_of] in *.
  1,2: case_bool_decide; [done|]; rewrite (assoc and); split; [|done];
    eapply rewritten_ok; try done; cbn; by rewrite Eh.
  case_bool_decide; [|done].
  destruct (rewritten_ok i r _ rows' row (prune t s) db0 _ Hok Hr Hrow (Hw _) Ha) as [Hok3 Hev3];
    [by apply prune_ok|done|cbn; by rewrite Eh|].
  destruct (prune_starts_ok t _ Hok3) as [Hok4 Hev4]. split_and!; [done|by etrans|done].
Qed.
End writing.

(** ** Every transaction moves forward *)

Section moving.
Context `{CronerLaws, !SchedulerEnv, !StartEnv, !StartLaws}.

(** The invariant is kept, every start moves forward, and the scheduler sees a run of its own. *)
Definition moves (db db' : StartsDb) : Prop :=
  starts_ok db' ∧ evolves db db' ∧ rtc schedule_step (sched db) (sched db').

Lemma moves_refl db : starts_ok db → moves db db.
Proof. done. Qed.

Lemma rewritten_id i r db : records db !! i = Some r → rewritten i r (effects_of i db) (sched db) db db.
Proof. intros Hr. split; try done; [by rewrite insert_id|intros j; by destruct (decide (j = i)) as [->|]|auto]. Qed.

(** A new header over an unchanged row. *)
Lemma save_moves i r h db db' :
  starts_ok db → records db !! i = Some r → save_start h db = Ok db' → hd_id h = i →
  advances i r (set_head h r) (effects_of i db) db → moves db db'.
Proof using All.
  intros Hok Hr Hs Hid Ha. destruct (save_ok i r r h (effects_of i db) db db db') as (? & ? & ?); try done.
  - by apply rewritten_id.
  - split_and!; [done..|by apply rtc_once].
Qed.

Lemma read_head i h db :
  starts_ok db → start_head i db = Ok (Some h) →
  ∃ r, records db !! i = Some r ∧ s_head r = h ∧ hd_id h = i ∧
       life_ok r (effects_of i db) ∧ rows_ok h (effects_of i db).
Proof.
  intros Hok (r & Hr & <-)%start_head_record. exists r. destruct (ok_life db Hok i r Hr).
  by destruct (ok_header db Hok i r Hr).
Qed.

(** The parts of [advances] that the transactions share. *)
Lemma advance_to i r h db :
  hd_id h = hd_id (s_head r) → hd_run h = hd_run (s_head r) → hd_trigger h = hd_trigger (s_head r) →
  hd_binding h = hd_binding (s_head r) →
  (is_Some (cancellation_requested_at (s_head r)) → cancellation_requested_at h = cancellation_requested_at (s_head r)) →
  match hd_state (s_head r) with
  | SAccepted _ _ => True
  | SClaimed o t _ => (∃ started, hd_state h = SClaimed o t started) ∨ is_settled h = true
  | SSettled _ _ => False
  end →
  life_ok (set_head h r) (effects_of i db) → rows_ok (s_head r) (effects_of i db) →
  (is_settled h = true → pending_interactions i db = []) → advances i r (set_head h r) (effects_of i db) db.
Proof.
  intros Hid Hrun Htr Hb Hc Hs Hl [R1 R2 R3 R4] Hq. split; cbn; try done.
  - split; try done. by destruct (hd_state (s_head r)).
  - destruct (hd_state (s_head r)) as [|o t st|]; [|destruct Hs as [[st' ->]|Hs]|done].
    + destruct (hd_state h); constructor; done.
    + constructor.
    + apply settled_iff in Hs as (? & ? & ->). by constructor.
  - apply rows_evolve_refl.
  - split; try done. by rewrite Hrun.
Qed.

Lemma claim_moves i expected owner now r db db' :
  starts_ok db → scheduled_workflow_claim i expected owner now db = Ok (r, db') → moves db db'.
Proof using All.
  intros Hok Hc. unfold scheduled_workflow_claim in Hc. apply bind_ok in Hc as (u & _ & Hc).
  apply bind_ok in Hc as (h & Hh & Hc). destruct h as [h|]; [|by inv_result].
  destruct (negb (is_accepted h) || _) eqn:Ea; [by inv_result|].
  apply orb_false_iff in Ea as [(w & t & Es)%negb_false_iff%accepted_iff _].
  apply bind_ok in Hc as ([persisted args] & _ & Hc). apply bind_ok in Hc as (u' & _ & Hc).
  apply bind_ok in Hc as (db1 & Hsave & [= _ <-]).
  destruct (read_head i h db Hok Hh) as (rr & Hr & <- & Hid & Hl & Hrows).
  apply (save_moves i rr _ db db1 Hok Hr Hsave Hid). unfold life_ok in Hl. rewrite Es in Hl.
  apply advance_to; try done; cbn; [by rewrite Es|]. naive_solver.
Qed.

Lemma wait_moves i reason retry_at r db db' :
  starts_ok db → scheduled_workflow_wait i reason retry_at db = Ok (r, db') → moves db db'.
Proof using All.
  intros Hok Hc. unfold scheduled_workflow_wait in Hc. apply bind_ok in Hc as (h & Hh & Hc).
  destruct h as [h|]; [|by inv_result]. destruct (is_accepted h) eqn:Ea; [|by inv_result].
  apply bind_ok in Hc as (db1 & Hsave & [= _ <-]). apply accepted_iff in Ea as (w & t & Es).
  destruct (read_head i h db Hok Hh) as (rr & Hr & <- & Hid & Hl & Hrows).
  apply (save_moves i rr _ db db1 Hok Hr Hsave Hid). unfold life_ok in Hl. rewrite Es in Hl.
  apply advance_to; try done; cbn; by rewrite Es.
Qed.

(** An accepted start settles with nothing to prove. *)
Lemma settle_accepted i r outcome now h db :
  starts_ok db → records db !! i = Some r → is_accepted (s_head r) = true → outcome ≠ OCompleted →
  (h = s_head r ∨ ∃ c, h = with_cancellation (Some c) (s_head r)) →
  advances i r (set_head (settle_head outcome now h) r) (effects_of i db) db.
Proof using All.
  intros Hok Hr Ha Ho Hh. destruct (ok_life db Hok i r Hr) as [Hl Hrows].
  assert (Hq : pending_interactions i db = []).
  { eapply unclaimed_quiet; [done..|]. unfold is_claimed, is_accepted in *. apply bool_decide_eq_true in Ha. by rewrite Ha. }
  apply accepted_iff in Ha as (w & t & Es). unfold life_ok in Hl. rewrite Es in Hl.
  destruct Hl as (Hn & Hct & Har & Hre & Hd & Hqu & Hca & Hb).
  apply advance_to; try done; [by destruct Hh as [->|[c ->]]..| | |].
  - rewrite Hca. by intros [? [=]].
  - by rewrite Es.
  - unfold life_ok. cbn. rewrite Hn, Hre. split_and!; [constructor|done| | |done|done].
    + by destruct Hh as [->|[c ->]].
    + assert (result_digest h = None) as -> by (by destruct Hh as [->|[c ->]]). split; [by intros [? [=]]|done].
Qed.

Lemma reject_moves i reason now r db db' :
  starts_ok db → scheduled_workflow_reject i reason now db = Ok (r, db') → moves db db'.
Proof using All.
  intros Hok Hc. unfold scheduled_workflow_reject in Hc. apply bind_ok in Hc as (h & Hh & Hc).
  destruct h as [h|]; [|by inv_result]. destruct (is_accepted h) eqn:Ea; [|by inv_result].
  apply bind_ok in Hc as (db1 & Hsave & [= _ <-]).
  destruct (read_head i h db Hok Hh) as (rr & Hr & <- & Hid & _).
  apply (save_moves i rr _ db db1 Hok Hr Hsave Hid). apply settle_accepted; auto.
Qed.

Lemma cancel_moves i now r db db' :
  starts_ok db → scheduled_workflow_cancel i now db = Ok (r, db') → moves db db'.
Proof using All.
  intros Hok Hc. unfold scheduled_workflow_cancel in Hc. apply bind_ok in Hc as (h & Hh & Hc).
  destruct h as [h|]; [|by inv_result]. destruct (is_settled h) eqn:Es; [by inv_result|].
  apply bind_ok in Hc as (db1 & Hsave & [= _ <-]).
  destruct (read_head i h db Hok Hh) as (rr & Hr & <- & Hid & Hl & Hrows). revert Hsave.
  destruct (is_accepted (s_head rr)) eqn:Ea; intros Hsave.
  - apply (save_moves i rr _ db db1 Hok Hr Hsave Hid). apply settle_accepted; eauto.
  - apply (save_moves i rr _ db db1 Hok Hr Hsave Hid). unfold life_ok in Hl.
    destruct (hd_state (s_head rr)) as [| |] eqn:E; unfold is_accepted, is_settled in *; rewrite E in *; try done.
    apply advance_to; try done; cbn.
    + by intros [c ->].
    + rewrite E. eauto.
    + unfold life_ok. cbn. by rewrite E.
    + unfold is_settled. cbn. by rewrite E.
Qed.
Lemma blocked_moves i reason r db db' :
  starts_ok db → scheduled_workflow_blocked i reason db = Ok (r, db') → moves db db'.
Proof using All.
  intros Hok Hc. unfold scheduled_workflow_blocked in Hc. apply bind_ok in Hc as (h & Hh & Hc).
  destruct h as [h|]; [|by inv_result]. destruct (is_claimed h && _) eqn:Ec; [|by inv_result].
  apply andb_true_iff in Ec as [(o & t & st & Es)%claimed_iff _]. apply bind_ok in Hc as (db1 & Hsave & [= _ <-]).
  destruct (read_head i h db Hok Hh) as (rr & Hr & <- & Hid & Hl & Hrows).
  apply (save_moves i rr _ db db1 Hok Hr Hsave Hid). unfold life_ok in Hl. rewrite Es in Hl.
  apply advance_to; try done; cbn.
  - rewrite Es. eauto.
  - unfold life_ok. cbn. by rewrite Es.
  - unfold is_settled. cbn. by rewrite Es.
Qed.

Lemma last_ordinal_count rows n : map eff_ordinal rows = count_to n → last_ordinal rows = n.
Proof.
  intros Hr. assert (E : last_ordinal rows = foldr N.max 0%N (map eff_ordinal rows)).
  { unfold last_ordinal. clear Hr. induction rows as [|e rows IH]; cbn; congruence. }
  rewrite E, Hr. clear. assert (Hm : ∀ l a, foldr N.max a l = N.max (foldr N.max 0%N l) a).
  { induction l as [|x l IH]; intros a; cbn; [lia|]. rewrite (IH a). lia. }
  induction n as [|n IH] using N.peano_ind; [done|].
  rewrite <- N.add_1_r, count_to_snoc, foldr_app, Hm, IH. cbn. lia.
Qed.

Lemma begin_moves c n kind r db db' :
  starts_ok db → scheduled_workflow_begin_effect c n kind db = Ok (r, db') → moves db db'.
Proof using All.
  intros Hok Hc. unfold scheduled_workflow_begin_effect, require_claim in Hc.
  apply bind_ok in Hc as (h & Hh & Hc). apply bind_ok in Hh as (h0 & Hh & Hh').
  apply bind_ok in Hh' as (h1 & ->%ok_or_ok & Hh'). apply bind_ok in Hh' as (u0 & Ho%guard_err_ok & [= ->]).
  apply bind_ok in Hc as (u1 & Hca%guard_err_ok & Hc). apply bind_ok in Hc as (u2 & Hrun%guard_err_ok & Hc).
  apply bind_ok in Hc as (u3 & Hmax%guard_err_ok & Hc). apply bind_ok in Hc as (u4 & _ & Hc).
  apply bind_ok in Hc as (u5 & Hnew%guard_err_ok & Hc). apply bind_ok in Hc as (db1 & Hsave & [= _ <-]).
  destruct (read_head _ h db Hok Hh) as (rr & Hr & <- & Hid & Hl & [R1 R2 R3 R4]). rewrite <- Hid in *. clear Hid Hh.
  apply negb_false_iff, bool_decide_eq_true in Hrun, Ho. apply bool_decide_eq_false in Hca.
  unfold owner_of in Ho. destruct (hd_state (s_head rr)) as [|o t st|] eqn:Es; try done. clear Ho.
  set (i := hd_id (s_head rr)) in *. set (rows := effects_of i db) in *.
  rewrite (last_ordinal_count rows _ R1) in *.
  set (e := {| eff_ordinal := (N.of_nat (length rows) + 1)%N |}) in *.
  assert (Hst : start_effects (s_head rr) = with_state (SClaimed o t true) (s_head rr)) by (unfold start_effects; by rewrite Es).
  assert (Hlen : N.of_nat (length (rows ++ [e])) = (N.of_nat (length rows) + 1)%N) by (rewrite length_app; cbn; lia).
  destruct (save_ok i rr rr (start_effects (s_head rr)) (rows ++ [e]) db
    (set_effects (<[i := rows ++ [e]]> (effects db)) db) db1 Hok Hr) as (? & ? & ?); [| | |exact Hsave|].
  - split; try done; cbn; [by rewrite insert_id|intros j; unfold effects_of; cbn|intros j].
    + case_decide as Hj; [by rewrite Hj, lookup_insert_eq|by rewrite lookup_insert_ne].
    + destruct (decide (i = j)) as [->|]; [auto|rewrite lookup_insert_ne by done; auto].
  - by rewrite Hst.
  - rewrite Hst. split; cbn; try done.
    + split; try done. rewrite Es. left. eauto.
    + rewrite Es. constructor.
    + right. exists [row_key e]. rewrite map_app. split; [done|].
      intros [?|Hse%settled_iff]; [done|]. rewrite Es in Hse. naive_solver.
    + unfold life_ok in *. cbn. rewrite Es in Hl. split; [|naive_solver]. split; [done|]. by intros [_ ?]%app_nil.
    + split; cbn.
      * by rewrite map_app, R1, Hlen, count_to_snoc.
      * rewrite Hlen. by apply N.ltb_ge.
      * rewrite map_app. apply NoDup_app. split_and!; [done| |apply NoDup_singleton].
        intros k Hk ->%list_elem_of_singleton. apply list_elem_of_fmap in Hk as (e' & Hk & He').
        rewrite <- not_true_iff_false in Hnew. apply Hnew, existsb_exists. exists e'. split; [by apply list_elem_of_In|].
        unfold on_node. apply bool_decide_eq_true. by symmetry.
      * intros e' [?| ->%list_elem_of_singleton]%elem_of_app; [by apply R4|done].
  - split_and!; [done..|by apply rtc_once].
Qed.

(** A change of an effect that keeps its ordinal and node. *)
Definition keeps (change : ScheduledWorkflowEffect → ScheduledWorkflowEffect) : Prop :=
  ∀ e, eff_ordinal (change e) = eff_ordinal e ∧ eff_node (change e) = eff_node e.

Lemma update_first_keeps p change rows rows' {A} (f : ScheduledWorkflowEffect → A) :
  (∀ e, f (change e) = f e) → update_first p change rows = Some rows' → map f rows' = map f rows.
Proof.
  intros Hf (l1 & x & l2 & -> & -> & _ & _)%update_first_Some. by rewrite !map_app, !map_cons, Hf.
Qed.

(** What a change of an effect does. *)
Lemma update_effect_cases i owner n change db r db' :
  starts_ok db → keeps change → update_effect i owner n change db = Ok (r, db') →
  ∃ rr t st rows', records db !! i = Some rr ∧ hd_state (s_head rr) = SClaimed owner t st ∧
    (∃ p, update_first p change (effects_of i db) = Some rows') ∧ db' = set_effects (<[i := rows']> (effects db)) db ∧
    map row_key rows' = map row_key (effects_of i db) ∧ rows_ok (s_head rr) rows' ∧
    (rows' = [] ↔ effects_of i db = []).
Proof.
  intros Hok Hk Hc. unfold update_effect in Hc. apply bind_ok in Hc as (h0 & Hh & Hc).
  apply bind_ok in Hc as (h & ->%ok_or_ok & Hc). apply bind_ok in Hc as (u & Ho%guard_err_ok & Hc).
  apply bind_ok in Hc as (e & _ & Hc). apply bind_ok in Hc as (u' & _ & Hc).
  apply bind_ok in Hc as (rows' & Hu%ok_or_ok & [= _ <-]).
  destruct (read_head _ h db Hok Hh) as (rr & Hr & <- & Hid & Hl & [R1 R2 R3 R4]).
  apply negb_false_iff, bool_decide_eq_true in Ho. unfold owner_of in Ho.
  destruct (hd_state (s_head rr)) as [|o t st|] eqn:Es; try done. injection Ho as ->.
  pose proof (update_first_keeps _ _ _ _ eff_ordinal (λ e, proj1 (Hk e)) Hu) as E1.
  assert (E2 : map row_key rows' = map row_key (effects_of i db))
    by (eapply update_first_keeps; [|done]; intros e'; unfold row_key; by destruct (Hk e') as [_ ->]).
  assert (E3 : map (λ e, run (block (eff_node e))) rows' = map (λ e, run (block (eff_node e))) (effects_of i db))
    by (eapply update_first_keeps; [|done]; intros e'; by destruct (Hk e') as [_ ->]).
  assert (Hlen : length rows' = length (effects_of i db)) by (by rewrite <- (length_map eff_ordinal), E1, length_map).
  exists rr, t, st, rows'. split_and!; [done|done|eauto|done|done| |].
  - split; [by rewrite E1, Hlen|by rewrite Hlen|by rewrite E2|]. intros e' He'.
    assert (Hin : run (block (eff_node e')) ∈ map (λ e, run (block (eff_node e))) rows') by (by apply (list_elem_of_fmap_2 (λ e, run (block (eff_node e))))).
    rewrite E3 in Hin. apply list_elem_of_fmap in Hin as (e0 & -> & He0). by apply R4.
  - by rewrite <- !length_zero_iff_nil, Hlen.
Qed.

Lemma update_moves i owner n change r db db' :
  starts_ok db → keeps change → update_effect i owner n change db = Ok (r, db') → moves db db'.
Proof using All.
  intros Hok Hk Hc. destruct (update_effect_cases _ _ _ _ _ _ _ Hok Hk Hc)
    as (rr & t & st & rows' & Hr & Es & _ & -> & Hkeys & Hrows & Hnil).
  destruct (ok_state db Hok i rr Hr) as (row & Hrow & Hrs & _). destruct (ok_life db Hok i rr Hr) as [Hl _].
  destruct (rewritten_ok i rr rr rows' row (sched db) db (set_effects (<[i := rows']> (effects db)) db)) as [? ?]; try done.
  - split; try done; cbn; [by rewrite insert_id|intros j; unfold effects_of; cbn|intros j].
    + case_decide as Hj; [by rewrite Hj, lookup_insert_eq|by rewrite lookup_insert_ne].
    + destruct (decide (i = j)) as [->|]; [auto|rewrite lookup_insert_ne by done; auto].
  - split; try done.
    + apply head_evolves_refl.
    + rewrite Es. constructor.
    + right. exists []. by rewrite app_nil_r.
    + unfold life_ok in *. rewrite Es in *. by rewrite Hnil.
    + unfold is_settled. by rewrite Es.
  - apply Hok.
  - rewrite <- Hrs. rewrite insert_id; [done|]. rewrite Hrow. by destruct row.
Qed.
Lemma settle_moves i outcome source result now r db db' :
  starts_ok db → scheduled_workflow_settle i outcome source result now db = Ok (r, db') → moves db db'.
Proof using All.
  intros Hok Hc. unfold scheduled_workflow_settle in Hc. apply bind_ok in Hc as (h & Hh & Hc).
  destruct h as [h|]; [|by inv_result]. destruct (read_head i h db Hok Hh) as (rr & Hr & <- & Hid & Hl & Hrows).
  destruct (hd_state (s_head rr)) as [|o t st|] eqn:Es; [by inv_result| |by inv_result].
  destruct (awaits_proof _ _ _) eqn:Ep; [by inv_result|].
  case_bool_decide as Hq; cbn [negb] in Hc; [|by inv_result].
  unfold life_ok in Hl. rewrite Es in Hl. destruct Hl as (Hst & Hct & Har & Hre & Hd & Hqu).
  assert (Hproven : Forall proven (effects_of i db)).
  { apply Forall_forall. intros e He. unfold proven. destruct source; cbn in Ep; try (
      apply not_false_iff_true; intros Hf; rewrite <- not_true_iff_false in Ep; apply Ep, existsb_exists; exists e;
      split; [by apply list_elem_of_In|by rewrite Hf]).
    rewrite (proj1 Hst Ep) in He. by apply not_elem_of_nil in He. }
  assert (Hsave : ∀ v d, (∀ x, v = Some x → d = Some (value_digest x) ∧ (json_bytes x <= MAX_RESULT_BYTES)%N) →
    (is_Some d ↔ outcome = OCompleted) → (outcome = OCompleted → is_Some v) → ∀ db1,
    save_start (with_blocked None (settle_head outcome now (with_digest d (s_head rr))))
      (set_records (<[i := set_result v rr]> (records db)) db) = Ok db1 → moves db db1).
  { intros v d Hv Hdig Hcv db1 Hsave.
    eapply (save_ok i rr (set_result v rr) _ (effects_of i db) db) in Hsave as (? & ? & ?); try done.
    - split_and!; [done..|by apply rtc_once].
    - split; cbn; try done; [|auto]. intros j. unfold effects_of. cbn. by case_decide as Hj; rewrite ?Hj.
    - split; cbn; try done.
      + split; try done. rewrite Es. by right.
      + rewrite Es. by constructor.
      + apply rows_evolve_refl.
      + by destruct Hrows. }
  assert (Hplain : outcome ≠ OCompleted → ∀ db1,
    save_start (with_blocked None (settle_head outcome now (s_head rr))) db = Ok db1 → moves db db1).
  { intros Hne db1 Hs. apply (Hsave None None); [done|split; [by intros [? [=]]|done]|done|].
    rewrite <- Hs. f_equal; [unfold with_digest, settle_head; by rewrite <- Hd|].
    assert (set_result None rr = rr) as -> by (unfold set_result; rewrite <- Hre; by destruct rr).
    rewrite insert_id by done. by destruct db. }
  destruct outcome.
  1: { apply bind_ok in Hc as (u & _ & Hc). apply bind_ok in Hc as (v & ->%ok_or_ok & Hc).
    apply bind_ok in Hc as (u' & Hb%guard_err_ok & Hc). apply bind_ok in Hc as (db1 & Hs & [= _ <-]).
    apply (Hsave (Some v) (Some (value_digest v))); [| |by eexists|].
    - intros x [= <-]. apply N.ltb_ge in Hb. by split.
    - split; [done|]. intros _. by eexists.
    - by rewrite (insert_as_alter (set_result (Some v)) _ _ _ Hr). }
  all: apply bind_ok in Hc as (u & _ & Hc); apply bind_ok in Hc as (db1 & Hs & [= _ <-]); by apply Hplain.
Qed.

(** ** The Journal *)

Lemma touch_other l keys k : (∀ x, x ∈ keys → x.1 ≠ k) → foldl touch l keys !! k = l !! k.
Proof.
  revert l. induction keys as [|[k0 terminal] keys IH]; intros l Hk; cbn; [done|].
  assert (k0 ≠ k) by (apply (Hk (k0, terminal)); constructor).
  rewrite IH by (intros x Hx; apply Hk; by constructor). unfold touch. cbn.
  destruct terminal; [by rewrite lookup_insert_ne|]. destruct (l !! k0); [done|by rewrite lookup_insert_ne].
Qed.

Lemma has_event_app e e0 event db j n l :
  has_event e (set_journal (journal db ++ [(e0, event)]) n l j) = has_event e db || bool_decide (e0 = e).
Proof. unfold has_event. cbn. rewrite existsb_app. cbn. by rewrite orb_false_r. Qed.

Lemma persist_ok e event keys db db' :
  persist_event e event keys db = Ok db' →
  ∃ n, has_event e db = false ∧
    db' = set_journal (journal db ++ [(e, event)]) n (foldl touch (lifecycle db) keys) db.
Proof.
  intros Hp. unfold persist_event in Hp. apply bind_ok in Hp as (n & _ & Hp). apply bind_ok in Hp as (u & _ & Hp).
  apply bind_ok in Hp as (u' & Hf%guard_err_ok & [= <-]). eauto.
Qed.

Lemma persist_moves e event keys db db' :
  starts_ok db → persist_event e event keys db = Ok db' →
  ((REQUESTED ++ of_starts) `prefix_of` e → request_fact db' e event) →
  (∀ k, has_event (SETTLED ++ k) db' = false → of_starts `prefix_of` k →
     lifecycle db !! interaction_key k = Some false → lifecycle db' !! interaction_key k = Some false) →
  (∀ i r, records db !! i = Some r → closed (s_head r) → ¬ (REQUESTED ++ scope_of i) `prefix_of` e) →
  moves db db'.
Proof using All.
  intros Hok (n & Hfresh & ->)%persist_ok Hnew Hlife Hclosed.
  split_and!; [|split; [done|]|done].
  - split; try apply Hok.
    + intros e1 event1. cbn [journal set_journal]. intros [Hin|[= -> ->]%list_elem_of_singleton]%elem_of_app Hpre; [|by apply Hnew].
      destruct (ok_requests db Hok e1 event1 Hin Hpre) as (k & subject & x & i & r & -> & -> & Hn & Hr & Hrun & Hsc & Ha & Hopen).
      exists k, subject, x, i, r. split_and!; try done. intros Hno.
      destruct Hopen as (? & ? & ?); [by rewrite has_event_app in Hno; apply orb_false_iff in Hno as [? _]|].
      split_and!; [done..|]. apply Hlife; [done| |done]. etrans; [|exact Hsc].
      by exists (i ++ lit ":").
    + cbn [journal set_journal]. rewrite map_app. apply NoDup_app. split_and!; [apply Hok| |apply NoDup_singleton].
      intros e1 Hin ->%list_elem_of_singleton. apply list_elem_of_fmap in Hin as ([e1 event1] & E & Hin). cbn in E. subst e1.
      rewrite <- not_true_iff_false in Hfresh. apply Hfresh, existsb_exists. exists (e, event1).
      split; [by apply list_elem_of_In|]. by apply bool_decide_eq_true.
  - intros i r Hr. exists r. split_and!; [done|apply head_evolves_refl|apply rows_evolve_refl| |by left].
    intros Hc. unfold requests_of. cbn [journal set_journal]. rewrite List.filter_app. cbn.
    rewrite bool_decide_eq_false_2 by (by eapply Hclosed). by rewrite app_nil_r.
Qed.

Lemma keys_apart k inv : interaction_key k ≠ native_approval_key inv.
Proof. unfold interaction_key, native_approval_key. intros E. by vm_compute in E. Qed.

(** What [validate_interaction_owner] establishes. *)
Lemma owner_valid k subject settlement u db :
  starts_ok db → validate_interaction_owner k subject settlement db = Ok u →
  ∃ n i r, subject_node subject = Some n ∧ records db !! i = Some r ∧ run (block n) = hd_run (s_head r) ∧
    scope_of i `prefix_of` k ∧ is_claimed (s_head r) = true ∧ existsb (on_node n) (effects_of i db) = true ∧
    (settlement = false → cancellation_requested_at (s_head r) = None).
Proof.
  intros Hok Hv. unfold validate_interaction_owner in Hv. apply bind_ok in Hv as (n & Hn%ok_or_ok & Hv).
  apply bind_ok in Hv as (i & Hi%ok_or_ok & Hv). apply bind_ok in Hv as (h0 & Hh & Hv).
  apply bind_ok in Hv as (h & ->%ok_or_ok & Hv). apply bind_ok in Hv as (u1 & Hg%guard_err_ok & Hv).
  apply bind_ok in Hv as (u2 & Hc%guard_err_ok & Hv). apply bind_ok in Hv as (u3 & _ & Hex%guard_err_ok).
  destruct (read_head i h db Hok Hh) as (r & Hr & <- & _).
  apply orb_false_iff in Hg as [[[_ Hrun]%orb_false_iff Hcl]%orb_false_iff Hsc].
  apply negb_false_iff in Hrun, Hcl, Hsc, Hex. apply bool_decide_eq_true in Hrun, Hsc.
  exists n, i, r. split_and!; try done. intros ->. cbn in Hc. apply bool_decide_eq_false in Hc.
  destruct (cancellation_requested_at _); [by destruct Hc; eexists|done].
Qed.

Lemma request_moves k subject r db db' :
  starts_ok db → commit_interaction_requested k subject db = Ok (r, db') → moves db db'.
Proof using All.
  intros Hok Hc. unfold commit_interaction_requested in Hc. apply bind_ok in Hc as (u & Hv & Hc).
  apply bind_ok in Hc as (u' & Hk%guard_err_ok & Hc). apply bind_ok in Hc as (db1 & Hp & [= _ <-]).
  destruct (owner_valid _ _ _ _ _ Hok Hv) as (n & i & rr & Hn & Hr & Hrun & Hsc & Hcl & Hex & Hca). specialize (Hca eq_refl).
  apply bool_decide_eq_false, eq_None_not_Some in Hk.
  assert (Hlc : ∀ k', lifecycle db1 !! interaction_key k' =
    if decide (k' = k) then Some false else lifecycle db !! interaction_key k').
  { intros k'. apply persist_ok in Hp as (m & _ & ->). cbn [lifecycle set_journal foldl]. rewrite touch_other.
    - unfold touch. cbn [fst snd]. rewrite Hk. case_decide as E; [by rewrite E, lookup_insert_eq|].
      rewrite lookup_insert_ne; [done|]. unfold interaction_key. by intros ->%app_inv_head.
    - intros key (y & -> & Hy)%list_elem_of_fmap. cbn. unfold approval_keys in Hy.
      destruct subject as [| [|] |]; try by apply not_elem_of_nil in Hy.
      apply list_elem_of_singleton in Hy as ->. intros E. symmetry in E. by apply keys_apart in E. }
  apply (persist_moves _ _ _ _ _ Hok Hp).
  - intros _. pose proof Hp as (m & _ & Edb)%persist_ok.
    exists k, subject, n, i, rr. split_and!; try done.
    + by rewrite Edb.
    + unfold is_accepted. apply claimed_iff in Hcl as (? & ? & ? & ->). done.
    + intros _. rewrite Hlc, decide_True by done. split_and!; [done| |done]. by rewrite Edb.
  - intros k' _ _ Hf. rewrite Hlc. by case_decide.
  - intros j rj Hj Hcj Hpre. assert (j = i) as ->.
    { eapply scope_prefix; [..|exact Hpre|exact Hsc]; by eapply ok_no_colon. }
    assert (rj = rr) as -> by congruence. apply claimed_iff in Hcl as (? & ? & ? & Es).
    destruct Hcj as [[t Ht]|(? & ? & ?)%settled_iff]; congruence.
Qed.

Lemma not_requested k : ¬ (REQUESTED ++ of_starts) `prefix_of` (SETTLED ++ k).
Proof. intros [x E]. by vm_compute in E. Qed.

Lemma answer_moves k settlement r db db' :
  starts_ok db → commit_interaction_settled k settlement db = Ok (r, db') → moves db db'.
Proof using All.
  intros Hok Hc. unfold commit_interaction_settled in Hc.
  destruct (find_event_by_id _ db) as [[embedded subject| | | | | ]|]; try done.
  apply bind_ok in Hc as (u & _ & Hc). apply bind_ok in Hc as (u' & _ & Hc). apply bind_ok in Hc as (db1 & Hp & [= _ <-]).
  apply (persist_moves _ _ _ _ _ Hok Hp).
  - by intros ?%not_requested.
  - intros k' Hno _ Hf. apply persist_ok in Hp as (m & _ & ->). rewrite has_event_app in Hno. apply orb_false_iff in Hno as [_ Hne%bool_decide_eq_false].
    cbn [lifecycle set_journal]. rewrite touch_other; [done|]. intros x ->%list_elem_of_singleton. cbn.
    intros E%app_inv_head. apply Hne. by rewrite E.
  - intros i rr _ _ [x E]. by vm_compute in E.
Qed.

Lemma event_moves e event keys db db' :
  starts_ok db → ¬ (REQUESTED ++ of_starts) `prefix_of` e →
  (∀ k, k ∈ keys → ¬ (interaction_key of_starts) `prefix_of` k.1) →
  persist_event e event keys db = Ok db' → moves db db'.
Proof using All.
  intros Hok Hne Hkeys Hp. apply (persist_moves _ _ _ _ _ Hok Hp).
  - done.
  - intros k _ [y ->] Hf. apply persist_ok in Hp as (m & _ & ->). cbn [lifecycle set_journal]. rewrite touch_other; [done|].
    intros x Hx E. apply (Hkeys x Hx). rewrite E. exists y. unfold interaction_key. by rewrite app_assoc.
  - intros i r _ _ Hpre. apply Hne. etrans; [|exact Hpre]. apply scope_of_starts.
Qed.
(** ** The scheduler's own transactions *)

Lemma sched_frame s db :
  starts_ok db → schedule_ok s → conversation s = conversation (sched db) → starts s = starts (sched db) →
  starts_ok (set_sched s db) ∧ evolves db (set_sched s db).
Proof.
  intros Hok Hs Hc Hst. split.
  - destruct Hok as [_ ?? ? ? ? ? ?]. split; try done; cbn; rewrite ?Hc, ?Hst; done.
  - split; [done|]. intros i r Hr. exists r. split_and!; [done|apply head_evolves_refl|apply rows_evolve_refl|done|by left].
Qed.

Lemma sched_moves s now (pruned : bool) db :
  starts_ok db → schedule_ok s → conversation s = conversation (sched db) → starts s = starts (sched db) →
  rtc schedule_step (sched db) s → moves db (if pruned then prune_starts now (set_sched s db) else set_sched s db).
Proof.
  intros Hok Hs Hc Hst Hrun. destruct (sched_frame s db Hok Hs Hc Hst) as [Hok1 Hev1]. destruct pruned; [|done].
  destruct (prune_starts_ok now _ Hok1) as [Hok2 Hev2]. split_and!; [done|by etrans|done].
Qed.

Lemma command_starts b c now a p cancelled db r s :
  schedule_ok db → schedule_command_impl b c now a p cancelled db = Ok (r, s) →
  conversation s = conversation db ∧ starts s = starts db.
Proof using All.
  intros Hok Hr. split; [by apply command_ok in Hr as [_ [? _ _]]|].
  apply command_cases in Hr as [->|(scope & attempt & used & r0 & db1 & db2 & Hi & _ & _ & _ & Ha & _ & Hg & ->)]; [done|].
  apply apply_change in Ha as [Hch _]; [|apply Hok|by eapply input_conversation].
  apply row_change_table in Hch as (_ & _ & _ & Hs & _); [|apply Hok].
  apply advance_generation_ok in Hg as (_ & _ & _ & _ & Hs2). cbn. congruence.
Qed.

(** What is accepted for a Workflow target. *)
Lemma admit_target_workflow s t now db h db1 :
  admit_target s t now db = Ok (inr h, db1) →
  ∃ p args, target s = TWorkflow p args ∧ (contract_bytes p <= 65536)%N ∧ (json_bytes args <= 16384)%N ∧
    starts db !! for_trigger t = None ∧
    starts db1 = <[for_trigger t := {| schedule_ordinal := ordinal (schedule_id t); start_trigger := t;
                                      start_state := StartAccepted |}]> (starts db) ∧
    h = {| h_id := for_trigger t;
           h_run := {| run_conversation := b_conversation (binding s); run_origin := OScheduled (for_trigger t);
                       invocation := 1 |};
           h_trigger := t; h_binding := binding s; h_accepted_at := now |}.
Proof.
  unfold admit_target. destruct (target s) as [text|p args] eqn:Et; intros Ha.
  - apply bind_ok in Ha as ([acc i] & _ & Ha). by apply bind_ok in Ha as (u & _ & [=]).
  - apply bind_ok in Ha as ([h' db'] & Ha & [= <- <-]). unfold accept_tx in Ha.
    apply bind_ok in Ha as (u & _ & Ha). apply bind_ok in Ha as (u' & Hb%guard_err_ok & Ha).
    apply bind_ok in Ha as (u2 & Hn%guard_err_ok & [= <- <-]). apply orb_false_iff in Hb as [Hb1 Hb2].
    exists p, args. split_and!; [done|by apply N.ltb_ge in Hb1|by apply N.ltb_ge in Hb2| |done|done].
    by apply bool_decide_eq_false, eq_None_not_Some in Hn.
Qed.

(** A new start enters the tables. *)
Lemma accept_ok s h p args t db :
  starts_ok db → schedule_ok s → conversation s = conversation (sched db) →
  starts s = <[for_trigger t := {| schedule_ordinal := ordinal (schedule_id t); start_trigger := t;
                                   start_state := StartAccepted |}]> (starts (sched db)) →
  starts (sched db) !! for_trigger t = None →
  h_id h = for_trigger t → h_trigger h = t → b_conversation (h_binding h) = conversation s →
  h_run h = {| run_conversation := conversation s; run_origin := OScheduled (for_trigger t); invocation := 1 |} →
  id_conversation (schedule_id t) = conversation s → (contract_bytes p <= 65536)%N → (json_bytes args <= 16384)%N →
  starts_ok (set_records (<[h_id h := new_record h p args]> (records db)) (set_sched s db)) ∧
  evolves db (set_records (<[h_id h := new_record h p args]> (records db)) (set_sched s db)).
Proof.
  intros Hok Hs Hc Hst Hnew Hid Htr Hb Hrun Hcv Hp Ha.
  assert (Hnone : records db !! for_trigger t = None).
  { destruct (records db !! for_trigger t) as [r|] eqn:E; [|done]. destruct (ok_state db Hok _ r E) as (row & ? & _). congruence. }
  assert (Heff : effects db !! for_trigger t = None).
  { destruct (effects db !! for_trigger t) as [rows|] eqn:E; [|done]. destruct (ok_effects db Hok (for_trigger t)); [by rewrite E|congruence]. }
  rewrite Hid. split.
  - split; cbn; [done| | | | | | |apply Hok].
    + intros i row. rewrite Hst. intros [[<- _]|[Hne Hi]]%lookup_insert_Some; [rewrite lookup_insert_eq; by eexists|].
      rewrite lookup_insert_ne by done. by eapply ok_rows.
    + intros i r. intros [[<- <-]|[Hne Hi]]%lookup_insert_Some; [|rewrite Hc; by apply (ok_header db Hok)].
      split; cbn; congruence.
    + intros i r. rewrite Hst. intros [[<- <-]|[Hne Hi]]%lookup_insert_Some.
      * rewrite lookup_insert_eq. eexists. by split_and!.
      * rewrite lookup_insert_ne by done. by apply (ok_state db Hok).
    + intros i r [[<- <-]|[Hne Hi]]%lookup_insert_Some; [|by apply (ok_life db Hok)].
      unfold effects_of. cbn. rewrite Heff. split.
      * unfold life_ok, bounded_contract, bounded_arguments. cbn. rewrite !(proj2 (N.leb_le _ _)) by done.
        split_and!; try done; by eexists.
      * split; cbn; [done|lia|constructor|by intros e ?%not_elem_of_nil].
    + intros i Hi. destruct (decide (for_trigger t = i)) as [<-|Hne]; [rewrite lookup_insert_eq; by eexists|].
      rewrite lookup_insert_ne by done. by apply (ok_effects db Hok).
    + intros e event Hin Hpre.
      destruct (ok_requests db Hok e event Hin Hpre) as (k & subject & n & i & r & -> & -> & Hn & Hr & Hrun' & Hsc & Ha' & Hopen).
      exists k, subject, n, i, r. split_and!; try done. cbn. rewrite lookup_insert_ne; [done|]. intros <-. congruence.
  - split; [done|]. intros i r Hr. exists r. cbn. rewrite lookup_insert_ne by (intros <-; congruence).
    split_and!; [done|apply head_evolves_refl|apply rows_evolve_refl|done|by left].
Qed.

Lemma admit_moves i expected now r db db' :
  starts_ok db → admit_start i expected now db = Ok (r, db') → moves db db'.
Proof using All.
  intros Hok Ha. unfold admit_start in Ha. apply bind_ok in Ha as ([r0 s] & Ha & [= -> <-]).
  pose proof (admit_ok _ _ _ _ _ _ (ok_sched db Hok) Ha) as (Hs & Hg & _ & _).
  pose proof (grows_conversation _ _ Hg) as Hcv.
  assert (Hrun : rtc schedule_step (sched db) s) by (by eapply rtc_once, run_admit).
  assert (Hsame : starts s = starts (sched db) → ∀ pruned : bool,
    moves db (if pruned then prune_starts now (set_sched s db) else set_sched s db)) by (intros; by apply sched_moves).
  apply admission_cases in Ha as [[-> Hn]|(sn & due & Hi & Hsn & Hrev & _ & _ & _ & _ & _ & _ &
    [(reason & _ & -> & Hadv)|(selected & next & x & db1 & db2 & _ & Hx & Hadv & -> & ->)])].
  - destruct r; try done; by apply (Hsame eq_refl false).
  - apply advance_generation_ok in Hadv as (_ & _ & _ & _ & Hst). by apply (Hsame Hst false).
  - apply advance_generation_ok in Hadv as (_ & _ & _ & _ & Hst). destruct x as [acc|h].
    + apply (Hsame) with (pruned := true). cbn. rewrite Hst. cbn.
      apply target_cases in Hx as [(a & ib & text & _ & -> & _)|(? & [=] & _)]; [done|apply Hok].
    + destruct (table_rows _ (so_table _ (ok_sched db Hok)) _ _ Hsn) as [[_ Hb _ _ _] _].
      apply admit_target_workflow in Hx as (p & args & Htg & Hp & Hargs & Hnew & Hst1 & ->).
      change (target (advance _ _ _ _ sn)) with (target sn). rewrite Htg.
      set (t := trigger_of_admission i expected selected) in *. set (h := {| h_id := for_trigger t |}).
      destruct (accept_ok (prune now db2) h p args t db) as [Hok1 Hev1]; try done.
      * etrans; [exact Hst|exact Hst1].
      * cbn. congruence.
      * cbn. congruence.
      * cbn in *. congruence.
      * destruct (prune_starts_ok now _ Hok1) as [Hok2 Hev2]. split_and!; [done|by etrans|done].
Qed.

(** ** Runs *)

Lemma step_moves db db' : starts_ok db → starts_step db db' → moves db db'.
Proof using All.
  intros Hok Hstep. destruct Hstep as [b c now a p cancelled r s pruned db Hc|?????? Hc|x db Hc|now removed s db Hc
    |?????? ? Hc|?????? Hc|????? ? Hc|???? ? Hc|?????? Hc|?????? ? Hc|??????? ? Hc|?????? ? Hc|????? Hc|???????? Hc
    |????? Hc|????? Hc|e event keys db db' Hne Hk Hc|m db].
  - destruct (command_starts _ _ _ _ _ _ _ _ _ (ok_sched _ Hok) Hc).
    apply sched_moves; try done; [by apply (command_ok _ _ _ _ _ _ _ _ _ (ok_sched _ Hok) Hc)|].
    by eapply rtc_once, run_command.
  - by eapply admit_moves.
  - destruct (inbox_run_ok x (sched db) (ok_sched _ Hok) Hc) as [? Hg]. apply (sched_moves _ 0%Z false); try done.
    + apply (grows_conversation _ _ Hg).
    + by apply rtc_once, run_inbox.
  - assert (Hs : starts s = starts (sched db) ∧ conversation s = conversation (sched db)).
    { destruct removed; [|by injection Hc as <-]. pose proof (grows_advance _ _ Hc) as Hg.
      apply advance_generation_ok in Hc as (_ & _ & _ & _ & ->). split; [done|apply (grows_conversation _ _ Hg)]. }
    apply (sched_moves _ now true); try apply Hs; try done.
    + destruct removed; [by eapply advance_ok, prune_ok, Hok|injection Hc as <-; by apply prune_ok, Hok].
    + by eapply rtc_once, run_prune.
  - by eapply claim_moves.
  - by eapply wait_moves.
  - by eapply reject_moves.
  - by eapply cancel_moves.
  - by eapply begin_moves.
  - by eapply update_moves; [..|done]; [done|intros ?].
  - by eapply update_moves; [..|done]; [done|intros ?].
  - by eapply update_moves; [..|done]; [done|intros ?].
  - by eapply blocked_moves.
  - by eapply settle_moves.
  - by eapply request_moves.
  - by eapply answer_moves.
  - by eapply event_moves.
  - split_and!; [by destruct Hok| |done]. split; [done|]. intros i r Hr. exists r.
    split_and!; [done|apply head_evolves_refl|apply rows_evolve_refl|done|by left].
Qed.

Lemma steps_moves db db' : starts_ok db → rtc starts_step db db' → moves db db'.
Proof using All.
  intros Hok Hs. induction Hs as [db|db1 db2 db3 Hstep Hs IH]; [by apply moves_refl|].
  destruct (step_moves _ _ Hok Hstep) as (Hok2 & Hev & Hrun). destruct (IH Hok2) as (? & ? & ?).
  split_and!; [done|by etrans|by etrans].
Qed.

Lemma starts_start_ok c : starts_ok (starts_start c).
Proof.
  split; cbn; try done.
  - apply schedule_start_ok.
  - by intros i [? ?].
  - by intros e event ?%not_elem_of_nil.
  - constructor.
Qed.

Lemma starts_reachable_ok c db : starts_reachable c db → starts_ok db.
Proof using All. intros Hs. by apply (steps_moves (starts_start c)); [apply starts_start_ok|]. Qed.
(** Where a start is in a later state. *)
Lemma later_record db db' i r :
  starts_ok db → rtc starts_step db db' → records db !! i = Some r →
  starts_ok db' ∧ ∃ r', records db' !! i = Some r' ∧ head_evolves (s_head r) (s_head r') ∧
    rows_evolve (s_head r) (s_head r') (effects_of i db) (effects_of i db') ∧
    (closed (s_head r) → requests_of i db' = requests_of i db) ∧
    (is_settled (s_head r) = true → r' = r ∨ r' = strip r).
Proof using All.
  intros Hok Hs Hr. destruct (steps_moves _ _ Hok Hs) as (Hok' & [_ Hev] & _). split; [done|]. by apply Hev.
Qed.

(** Every claim comes from an accepted start that nobody cancelled. *)
Lemma claim_some i expected owner now db c db' :
  starts_ok db → scheduled_workflow_claim i expected owner now db = Ok (Some c, db') →
  ∃ r w t, records db !! i = Some r ∧ hd_state (s_head r) = SAccepted w t ∧ cancellation_requested_at (s_head r) = None ∧
    contract r = Some (claim_contract c) ∧ arguments r = Some (claim_arguments c) ∧
    with_observed (observed_resource_revision expected) (claim_contract c) = expected ∧
    claim_head c = with_state (SClaimed owner now false) (s_head r) ∧
    records db' !! i = Some (set_head (claim_head c) r).
Proof.
  intros Hok Hc. unfold scheduled_workflow_claim in Hc. apply bind_ok in Hc as (u & _ & Hc).
  apply bind_ok in Hc as (h & Hh & Hc). destruct h as [h|]; [|done].
  destruct (negb (is_accepted h) || _) eqn:Ea; [done|].
  apply orb_false_iff in Ea as [(w & t & Es)%negb_false_iff%accepted_iff Hca%bool_decide_eq_false].
  apply bind_ok in Hc as ([persisted args] & Hcols%ok_or_ok & Hc). apply bind_ok in Hc as (u' & Hg%guard_err_ok & Hc).
  apply bind_ok in Hc as (db1 & Hsave & [= <- <-]). destruct (read_head i h db Hok Hh) as (r & Hr & <- & Hid & _).
  rewrite Hr in Hcols. cbn in Hcols. apply bind_Some in Hcols as (p & Hp & Hcols). apply bind_Some in Hcols as (a & Ha & [= <- <-]).
  apply orb_false_iff in Hg as [Hexp%negb_false_iff%bool_decide_eq_true _]. exists r, w, t. cbn. split_and!; try done.
  - by apply eq_None_not_Some.
  - unfold bounded_contract in Hp. destruct (contract r) as [p0|]; [|done]. cbn in Hp. by destruct (contract_bytes p0 <=? 65536)%N.
  - unfold bounded_arguments in Ha. destruct (arguments r) as [a0|]; [|done]. cbn in Ha. by destruct (json_bytes a0 <=? 16384)%N.
  - unfold save_start in Hsave. apply bind_ok in Hsave as (? & _ & Hsave). apply bind_ok in Hsave as (s & _ & [= <-]).
    cbn. rewrite Hid, lookup_alter_eq, Hr. done.
Qed.

(** What reads and transactions do on a start that has left the accepted state. *)
Lemma unclaimable i expected owner now db c db' r :
  starts_ok db → records db !! i = Some r → is_accepted (s_head r) = false →
  scheduled_workflow_claim i expected owner now db ≠ Ok (Some c, db').
Proof.
  intros Hok Hr Ha Hc. destruct (claim_some _ _ _ _ _ _ _ Hok Hc) as (r' & w & t & Hr' & Es & _).
  assert (r' = r) as -> by congruence. unfold is_accepted in Ha. by rewrite Es in Ha.
Qed.

Lemma begin_claimed c n kind u db db' :
  starts_ok db → scheduled_workflow_begin_effect c n kind db = Ok (u, db') →
  ∃ r, records db !! hd_id (claim_head c) = Some r ∧ owner_of (s_head r) = Some (claim_owner c) ∧
    cancellation_requested_at (s_head r) = None ∧ run (block n) = hd_run (s_head r).
Proof.
  intros Hok Hc. unfold scheduled_workflow_begin_effect, require_claim in Hc. apply bind_ok in Hc as (h & Hh & Hc).
  apply bind_ok in Hh as (h0 & Hh & Hh'). apply bind_ok in Hh' as (h1 & ->%ok_or_ok & Hh').
  apply bind_ok in Hh' as (u0 & Ho%guard_err_ok & [= ->]). apply bind_ok in Hc as (u1 & Hca%guard_err_ok & Hc).
  apply bind_ok in Hc as (u2 & Hrun%guard_err_ok & Hc). apply negb_false_iff, bool_decide_eq_true in Ho, Hrun.
  destruct (read_head _ h db Hok Hh) as (r & Hr & <- & _). exists r. split_and!; try done.
  apply bool_decide_eq_false in Hca. by apply eq_None_not_Some.
Qed.

(** ** The properties *)

(** C21 The life of starts implements the scheduler's view of them: every run of the detailed
    tables - admissions with their records, claims, effects, interactions, settlements and
    prunings of contracts - is, seen through the scheduler's tables, a run of the scheduler;
    so all that is proved of the scheduler holds here; and the state column of every start is
    the state in its header. *)
Theorem start_life_refines c db :
  starts_reachable c db →
  schedule_reachable c (sched db) ∧
  (∀ i, start_state <$> starts (sched db) !! i = (λ r, state_of (hd_state (s_head r))) <$> records db !! i) ∧
  (∀ i, start_trigger <$> starts (sched db) !! i = (λ r, hd_trigger (s_head r)) <$> records db !! i).
Proof using All.
  intros Hr. destruct (steps_moves _ _ (starts_start_ok c) Hr) as (Hok & _ & Hrun).
  assert (Hi : ∀ i, (∃ row r, starts (sched db) !! i = Some row ∧ records db !! i = Some r ∧
      start_state row = state_of (hd_state (s_head r)) ∧ start_trigger row = hd_trigger (s_head r)) ∨
    (starts (sched db) !! i = None ∧ records db !! i = None)).
  { intros i. destruct (records db !! i) as [r|] eqn:Er.
    - left. destruct (ok_state db Hok i r Er) as (row & ? & ? & ?). eauto 10.
    - right. split; [|done]. destruct (starts (sched db) !! i) as [row|] eqn:Es; [|done].
      destruct (ok_rows db Hok i row Es). congruence. }
  split_and!; [done|intros i..]; destruct (Hi i) as [(row & r & -> & -> & E1 & E2)|[-> ->]]; cbn; congruence.
Qed.

(** C22 A start is claimed at most once: a claim hands out the accepted contract and
    arguments, of a start that was accepted and not cancelled; and in every later state the
    start is still held by that owner since that instant or settled, no claim by anyone
    succeeds, and effects begin only through a handle of that owner. *)
Theorem claimed_once c db i expected owner now h db1 :
  starts_reachable c db → scheduled_workflow_claim i expected owner now db = Ok (Some h, db1) →
  (∃ r, records db !! i = Some r ∧ is_accepted (s_head r) = true ∧ cancellation_requested_at (s_head r) = None ∧
     contract r = Some (claim_contract h) ∧ arguments r = Some (claim_arguments h) ∧
     with_observed (observed_resource_revision expected) (claim_contract h) = expected) ∧
  ∀ db2, rtc starts_step db1 db2 → ∃ r, records db2 !! i = Some r ∧
    ((∃ started, hd_state (s_head r) = SClaimed owner now started) ∨ is_settled (s_head r) = true) ∧
    (∀ expected' owner' now' h' db3, scheduled_workflow_claim i expected' owner' now' db2 ≠ Ok (Some h', db3)) ∧
    (∀ h' n kind u db3, hd_id (claim_head h') = i → scheduled_workflow_begin_effect h' n kind db2 = Ok (u, db3) →
       claim_owner h' = owner).
Proof using All.
  intros Hr Hc. pose proof (starts_reachable_ok c db Hr) as Hok.
  destruct (claim_some _ _ _ _ _ _ _ Hok Hc) as (r & w & t & Hrec & Es & Hca & Hct & Har & Hexp & Eh & Hrec1).
  split; [exists r; split_and!; try done; unfold is_accepted; by rewrite Es|].
  intros db2 Hs. destruct (claim_moves _ _ _ _ _ _ _ Hok Hc) as (Hok1 & _).
  destruct (later_record _ _ i _ Hok1 Hs Hrec1) as (Hok2 & r2 & Hr2 & Hev & _). exists r2.
  pose proof (ev_state _ _ Hev) as Hst. cbn in Hst. rewrite Eh in Hst. cbn in Hst. split_and!; [done|done| |].
  - intros expected' owner' now' h' db3. eapply unclaimable; [done..|]. unfold is_accepted, is_settled in *.
    destruct Hst as [[started ->]|Hst]; [done|]. apply bool_decide_eq_true in Hst. by rewrite Hst.
  - intros h' n kind u db3 Hid Hb. destruct (begin_claimed _ _ _ _ _ _ Hok2 Hb) as (r3 & Hr3 & Ho & _).
    rewrite Hid in Hr3. assert (r3 = r2) as -> by congruence. unfold owner_of in Ho.
    destruct Hst as [[started E]|(? & ? & E)%settled_iff]; rewrite E in Ho; [congruence|done].
Qed.

(** C23 A start settles only with proof, and settlement is final: all its effect receipts are
    proven physically settled and all its interactions answered; a result is published
    exactly when it completed, under its digest; and in every later state the header is the
    same, the record at most stripped of its contents by retention, and another settlement
    changes nothing. *)
Theorem settlement_proven c db i r outcome t :
  starts_reachable c db → records db !! i = Some r → hd_state (s_head r) = SSettled outcome t →
  Forall proven (effects_of i db) ∧ pending_interactions i db = [] ∧ native_quiescence_proven (s_head r) = true ∧
  (is_Some (result_digest (s_head r)) ↔ outcome = OCompleted) ∧
  (∀ v, result_value r = Some v → result_digest (s_head r) = Some (value_digest v)) ∧
  (is_Some (contract r) → outcome = OCompleted → is_Some (result_value r)) ∧
  ∀ db2, rtc starts_step db db2 → (records db2 !! i = Some r ∨ records db2 !! i = Some (strip r)) ∧
    pending_interactions i db2 = [] ∧
    ∀ outcome' source v now s db3, scheduled_workflow_settle i outcome' source v now db2 = Ok (s, db3) →
      s = AlreadySettled ∧ db3 = db2.
Proof using All.
  intros Hr Hrec Es. pose proof (starts_reachable_ok c db Hr) as Hok. destruct (ok_life db Hok i r Hrec) as [Hl _].
  unfold life_ok in Hl. rewrite Es in Hl. destruct Hl as (Hp & Hq & _ & Hd & Hv & Hct).
  assert (Hset : is_settled (s_head r) = true) by (apply settled_iff; eauto).
  assert (Hncl : is_claimed (s_head r) = false) by (unfold is_claimed; by rewrite Es).
  split_and!; [done|by eapply unclaimed_quiet|done|done|by intros v [? _]%Hv|done|].
  intros db2 Hs. destruct (later_record _ _ i r Hok Hs Hrec) as (Hok2 & r2 & Hr2 & Hev & _ & _ & Hkeep).
  split; [by destruct (Hkeep Hset) as [<-|<-]; auto|].
  assert (Eh : s_head r2 = s_head r) by (by apply settled_same). split.
  - eapply unclaimed_quiet; [done..|]. by rewrite Eh.
  - intros outcome' source v now s db3 Hse. unfold scheduled_workflow_settle in Hse. apply bind_ok in Hse as (h & Hh & Hse).
    destruct h as [h|]; [|by inv_result]. destruct (read_head i h db2 Hok2 Hh) as (r3 & Hr3 & <- & _).
    assert (r3 = r2) as -> by congruence. rewrite Eh, Es in Hse. by inv_result.
Qed.

(** Cancellation starts nothing: once it is requested, in every later state the start has
    exactly the effects and the interaction requests it had - or has settled and was
    stripped of its receipts - the request stands, and no effect can begin on it. *)
Theorem cancelled_starts_nothing c db i r t :
  starts_reachable c db → records db !! i = Some r → cancellation_requested_at (s_head r) = Some t →
  ∀ db2, rtc starts_step db db2 → ∃ r2, records db2 !! i = Some r2 ∧
    cancellation_requested_at (s_head r2) = Some t ∧
    (map row_key (effects_of i db2) = map row_key (effects_of i db) ∨
     (effects_of i db2 = [] ∧ is_settled (s_head r2) = true)) ∧
    requests_of i db2 = requests_of i db ∧
    ∀ h n kind u db3, hd_id (claim_head h) = i → scheduled_workflow_begin_effect h n kind db2 ≠ Ok (u, db3).
Proof using All.
  intros Hr Hrec Hca db2 Hs. pose proof (starts_reachable_ok c db Hr) as Hok.
  destruct (later_record _ _ i r Hok Hs Hrec) as (Hok2 & r2 & Hr2 & Hev & Hrows & Hreq & _).
  assert (Hcl : closed (s_head r)) by (left; by eexists).
  assert (Hca2 : cancellation_requested_at (s_head r2) = Some t) by (rewrite (ev_cancelled _ _ Hev); [done|by eexists]).
  exists r2. split_and!; [done|done| |by apply Hreq|].
  - destruct Hrows as [?|(l & -> & Hl)]; [by right|left]. by rewrite (Hl Hcl), app_nil_r.
  - intros h n kind u db3 Hid Hb. destruct (begin_claimed _ _ _ _ _ _ Hok2 Hb) as (r3 & Hr3 & _ & Hno & _).
    rewrite Hid in Hr3. assert (r3 = r2) as -> by congruence. congruence.
Qed.

(** Receipts account for the effects: the receipts of a start are numbered from 1 without
    a gap, at most 4096, one per node of its own run, and a start that was never claimed has
    none; beginning an effect adds the next receipt, unproven, and marks the claim, and is
    refused for a node that has one. *)
Theorem receipts_accounted c db i r :
  starts_reachable c db → records db !! i = Some r →
  rows_ok (s_head r) (effects_of i db) ∧ (is_accepted (s_head r) = true → effects_of i db = []) ∧
  (∀ owner t started, hd_state (s_head r) = SClaimed owner t started → started = false ↔ effects_of i db = []) ∧
  ∀ h n kind u db', hd_id (claim_head h) = i → scheduled_workflow_begin_effect h n kind db = Ok (u, db') →
    node_key n ∉ map row_key (effects_of i db) ∧
    effects_of i db' = effects_of i db ++ [{| eff_ordinal := N.of_nat (length (effects_of i db)) + 1; eff_node := n;
      eff_kind := kind; eff_owner := Preparing; physical_settlement_proven := false; diagnostic := None |}] ∧
    ∃ t, hd_state <$> (s_head <$> records db' !! i) = Some (SClaimed (claim_owner h) t true).
Proof using All.
  intros Hr Hrec. pose proof (starts_reachable_ok c db Hr) as Hok. destruct (ok_life db Hok i r Hrec) as [Hl Hrows].
  split_and!; [done| | |].
  - intros (w & t & Es)%accepted_iff. unfold life_ok in Hl. rewrite Es in Hl. apply Hl.
  - intros owner t started Es. unfold life_ok in Hl. rewrite Es in Hl. apply Hl.
  - intros h n kind u db' <- Hb. destruct (begin_claimed _ _ _ _ _ _ Hok Hb) as (r' & Hr' & Ho & _).
    assert (r' = r) as -> by congruence. unfold owner_of in Ho.
    destruct (hd_state (s_head r)) as [|o t st|] eqn:Es; try done. injection Ho as Ho.
    unfold scheduled_workflow_begin_effect, require_claim in Hb. apply bind_ok in Hb as (h' & Hh & Hb).
    apply bind_ok in Hh as (h0 & Hh & Hh'). apply bind_ok in Hh' as (h1 & ->%ok_or_ok & Hh').
    apply bind_ok in Hh' as (u0 & _ & [= ->]). destruct (read_head _ h' db Hok Hh) as (r' & Hr'' & <- & Hid & _).
    assert (r' = r) as -> by congruence. rewrite Hid in Hb.
    do 4 apply bind_ok in Hb as (? & _ & Hb). apply bind_ok in Hb as (u5 & Hnew%guard_err_ok & Hb).
    apply bind_ok in Hb as (db1 & Hs & [= _ <-]). rewrite (last_ordinal_count _ _ (rows_numbered _ _ Hrows)) in Hs.
    unfold start_effects, save_start in Hs. rewrite Es in Hs. apply bind_ok in Hs as (? & _ & Hs).
    apply bind_ok in Hs as (s & _ & [= <-]). split_and!.
    + intros (e & He & Hin)%list_elem_of_fmap. rewrite <- not_true_iff_false in Hnew. apply Hnew, existsb_exists.
      exists e. split; [by apply list_elem_of_In|]. by apply bool_decide_eq_true.
    + unfold effects_of. cbn. by rewrite lookup_insert_eq.
    + exists t. cbn. rewrite Hid, lookup_alter_eq, Hrec. cbn. by rewrite <- Ho.
Qed.
End moving.

(** ** Concrete instances *)

#[local] Existing Instance minutes.
#[local] Existing Instance demo_env.

#[local] Instance demo_starts : StartEnv := {|
  node_key n := node n ++ lit "/" ++ dec (visit n);
  approval_digest inv := match inv with IAgent c => c | IWorkflow n r => node n ++ dec r end;
  value_digest _ := lit "d";
  head_bytes _ := 100%N;
  effect_bytes _ := 100%N;
|}.

Lemma demo_starts_laws : StartLaws.
Proof.
  intros t. cbn. rewrite !elem_of_app. intros [Hd|[Hd|Hd]]; [by apply dec_digits in Hd; lia| |by apply dec_digits in Hd; lia].
  change (lit "-") with [45%N] in Hd. by apply list_elem_of_singleton in Hd.
Qed.

Definition demo_pinned : PinnedScheduledWorkflow :=
  {| p_binding := demo_owner; p_workflow := lit "w"; p_dependencies := []; p_contract := lit "contract";
     observed_resource_revision := 1 |}.

Definition demo_workflow : ScheduleCommand :=
  {| command_id := lit "k1"; mutation := SCreateWorkflow (lit "report") (lit "w") Null (TInterval 90) |}.

Definition demo_scheduled : ScheduleCommandResult * ScheduleDb :=
  Eval vm_compute in result_or (NotFound, schedule_start (lit "c"))
    (schedule_command_impl demo_owner demo_workflow 0%Z demo_human (Some demo_pinned) None (schedule_start (lit "c"))).

Definition demo_db0 : StartsDb := Eval vm_compute in set_sched (snd demo_scheduled) (starts_start (lit "c")).

Definition demo_accepted : ScheduleAdmission * StartsDb :=
  Eval vm_compute in result_or (NotDue, demo_db0) (admit_start demo_schedule 1 (seconds 100) demo_db0).

Definition demo_id : str := lit "swf_1-1".

Definition demo_claim : option ClaimedScheduledWorkflow * StartsDb :=
  Eval vm_compute in result_or (None, demo_db0)
    (scheduled_workflow_claim demo_id demo_pinned (lit "o") (seconds 101) (snd demo_accepted)).

Definition demo_run : WorkflowRunId :=
  {| run_conversation := lit "c"; run_origin := OScheduled demo_id; invocation := 1 |}.
Definition demo_node : WorkflowNodeInstance :=
  {| block := {| run := demo_run; definition := {| workflow_id := lit "w"; blocks := [] |}; invocations := [0%N] |};
     node := lit "ask"; visit := 1 |}.

Definition demo_handle : ClaimedScheduledWorkflow :=
  Eval vm_compute in default {| claim_head := {| hd_id := []; hd_run := demo_run;
    hd_trigger := {| schedule_id := demo_schedule; admission_revision := 1; occurrence_utc := 0%Z |};
    hd_binding := demo_owner; hd_accepted_at := 0%Z; hd_state := SAccepted None None;
    cancellation_requested_at := None; recovery_blocked := None; native_quiescence_proven := false;
    result_digest := None |}; claim_contract := demo_pinned; claim_arguments := Null |} (fst demo_claim).

Definition demo_begun : () * StartsDb :=
  Eval vm_compute in result_or ((), demo_db0)
    (scheduled_workflow_begin_effect demo_handle demo_node EReview (snd demo_claim)).

Definition demo_asked : () * StartsDb :=
  Eval vm_compute in result_or ((), demo_db0)
    (commit_interaction_requested (scope_of demo_id ++ lit "1") (SubReview demo_node []) (snd demo_begun)).

Definition demo_answered : () * StartsDb :=
  Eval vm_compute in result_or ((), demo_db0)
    (commit_interaction_settled (scope_of demo_id ++ lit "1") (SettledBy []) (snd demo_asked)).

Definition demo_proven : () * StartsDb :=
  Eval vm_compute in result_or ((), demo_db0)
    (scheduled_workflow_effect_settled demo_handle demo_node true None (snd demo_answered)).

Definition demo_settled : ScheduledWorkflowSettlement * StartsDb :=
  Eval vm_compute in result_or (AlreadySettled, demo_db0)
    (scheduled_workflow_settle demo_id OCompleted NativeExecutor (Some Null) (seconds 110) (snd demo_proven)).

Definition demo_cancelled : option ScheduledWorkflowHead * StartsDb :=
  Eval vm_compute in result_or (None, demo_db0) (scheduled_workflow_cancel demo_id (seconds 105) (snd demo_asked)).

Lemma demo_db0_reachable : starts_reachable (lit "c") demo_db0.
Proof.
  eapply rtc_once, (st_command demo_owner demo_workflow 0%Z demo_human (Some demo_pinned) None _ _ false
    (starts_start (lit "c"))). vm_compute. reflexivity.
Qed.

Lemma demo_accepted_reachable : starts_reachable (lit "c") (snd demo_accepted).
Proof.
  eapply rtc_r; [apply demo_db0_reachable|].
  apply (st_admit demo_schedule 1 (seconds 100) (fst demo_accepted)). vm_compute. reflexivity.
Qed.

Lemma demo_claim_ok :
  scheduled_workflow_claim demo_id demo_pinned (lit "o") (seconds 101) (snd demo_accepted)
  = Ok (Some demo_handle, snd demo_claim).
Proof. vm_compute. reflexivity. Qed.

Lemma demo_claim_reachable : starts_reachable (lit "c") (snd demo_claim).
Proof. eapply rtc_r; [apply demo_accepted_reachable|]. eapply st_claim, demo_claim_ok. Qed.

Lemma demo_begun_ok :
  scheduled_workflow_begin_effect demo_handle demo_node EReview (snd demo_claim) = Ok ((), snd demo_begun).
Proof. vm_compute. reflexivity. Qed.

Lemma demo_asked_reachable : starts_reachable (lit "c") (snd demo_asked).
Proof.
  eapply rtc_r; [eapply rtc_r; [apply demo_claim_reachable|eapply st_begin, demo_begun_ok]|].
  eapply (st_request (scope_of demo_id ++ lit "1") (SubReview demo_node [])). vm_compute. reflexivity.
Qed.

Lemma demo_settled_reachable : starts_reachable (lit "c") (snd demo_settled).
Proof.
  eapply rtc_r; [eapply rtc_r; [eapply rtc_r; [apply demo_asked_reachable|]|]|].
  - eapply (st_answer (scope_of demo_id ++ lit "1") (SettledBy []) _ _ (snd demo_answered)). vm_compute. reflexivity.
  - eapply (st_proof demo_id (lit "o") demo_node true None _ _ (snd demo_proven)). vm_compute. reflexivity.
  - eapply (st_settle demo_id OCompleted NativeExecutor (Some Null) (seconds 110) (fst demo_settled)).
    vm_compute. reflexivity.
Qed.

Lemma demo_cancelled_reachable : starts_reachable (lit "c") (snd demo_cancelled).
Proof.
  eapply rtc_r; [apply demo_asked_reachable|].
  eapply (st_cancel demo_id (seconds 105) (fst demo_cancelled)). vm_compute. reflexivity.
Qed.

Lemma start_life_refines_witness :
  is_Some (records (snd demo_settled) !! demo_id) ∧ schedule_reachable (lit "c") (sched (snd demo_settled)).
Proof.
  split; [eexists; vm_compute; reflexivity|].
  apply (@start_life_refines minutes minutes_laws demo_env demo_starts demo_starts_laws (lit "c") (snd demo_settled)
    demo_settled_reachable).
Defined.

Lemma claimed_once_witness :
  claim_owner demo_handle = lit "o" ∧
  ∀ expected owner now h db, scheduled_workflow_claim demo_id expected owner now (snd demo_settled) ≠ Ok (Some h, db).
Proof.
  split; [reflexivity|].
  destruct (@claimed_once minutes minutes_laws demo_env demo_starts demo_starts_laws (lit "c") (snd demo_accepted)
    demo_id demo_pinned (lit "o") (seconds 101) demo_handle (snd demo_claim) demo_accepted_reachable demo_claim_ok)
    as [_ Hlater].
  destruct (Hlater (snd demo_settled)) as (r & _ & _ & Hno & _); [|exact Hno].
  eapply rtc_l; [eapply st_begin, demo_begun_ok|].
  eapply rtc_l; [eapply (st_request (scope_of demo_id ++ lit "1") (SubReview demo_node []) _ _ (snd demo_asked));
    vm_compute; reflexivity|].
  eapply rtc_l; [eapply (st_answer (scope_of demo_id ++ lit "1") (SettledBy []) _ _ (snd demo_answered));
    vm_compute; reflexivity|].
  eapply rtc_l; [eapply (st_proof demo_id (lit "o") demo_node true None _ _ (snd demo_proven)); vm_compute; reflexivity|].
  eapply rtc_once, (st_settle demo_id OCompleted NativeExecutor (Some Null) (seconds 110) (fst demo_settled)).
  vm_compute. reflexivity.
Defined.

Lemma settlement_proven_witness :
  pending_interactions demo_id (snd demo_asked) ≠ [] ∧ pending_interactions demo_id (snd demo_settled) = [] ∧
  effects_of demo_id (snd demo_settled) ≠ [] ∧ Forall proven (effects_of demo_id (snd demo_settled)).
Proof.
  split; [by vm_compute|].
  assert (Hr : ∃ r, records (snd demo_settled) !! demo_id = Some r ∧
    hd_state (s_head r) = SSettled OCompleted (seconds 110)) by (eexists; split; vm_compute; reflexivity).
  destruct Hr as (r & Hr & Es).
  destruct (@settlement_proven minutes minutes_laws demo_env demo_starts demo_starts_laws (lit "c") (snd demo_settled)
    demo_id r OCompleted (seconds 110) demo_settled_reachable Hr Es) as (Hp & Hq & _).
  split; [exact Hq|]. split; [by vm_compute|exact Hp].
Defined.

Lemma cancelled_starts_nothing_witness :
  effects_of demo_id (snd demo_cancelled) ≠ [] ∧
  ∀ h n kind u db, hd_id (claim_head h) = demo_id →
    scheduled_workflow_begin_effect h n kind (snd demo_cancelled) ≠ Ok (u, db).
Proof.
  split; [by vm_compute|].
  assert (Hr : ∃ r, records (snd demo_cancelled) !! demo_id = Some r ∧
    cancellation_requested_at (s_head r) = Some (seconds 105)) by (eexists; split; vm_compute; reflexivity).
  destruct Hr as (r & Hr & Hca).
  destruct (@cancelled_starts_nothing minutes minutes_laws demo_env demo_starts demo_starts_laws (lit "c")
    (snd demo_cancelled) demo_id r (seconds 105) demo_cancelled_reachable Hr Hca (snd demo_cancelled) (rtc_refl _ _))
    as (r2 & _ & _ & _ & _ & Hno).
  exact Hno.
Defined.

Lemma receipts_accounted_witness :
  ∃ r, records (snd demo_claim) !! demo_id = Some r ∧ rows_ok (s_head r) (effects_of demo_id (snd demo_claim)) ∧
  length (effects_of demo_id (snd demo_begun)) = 1 ∧
  effects_of demo_id (snd demo_begun) = effects_of demo_id (snd demo_claim) ++
    [{| eff_ordinal := N.of_nat (length (effects_of demo_id (snd demo_claim))) + 1; eff_node := demo_node;
        eff_kind := EReview; eff_owner := Preparing; physical_settlement_proven := false; diagnostic := None |}].
Proof.
  assert (Hr : ∃ r, records (snd demo_claim) !! demo_id = Some r) by (eexists; vm_compute; reflexivity).
  destruct Hr as (r & Hr). exists r. split; [exact Hr|].
  destruct (@receipts_accounted minutes minutes_laws demo_env demo_starts demo_starts_laws (lit "c") (snd demo_claim)
    demo_id r demo_claim_reachable Hr) as (Hrows & _ & _ & Hb).
  split; [exact Hrows|]. split; [vm_compute; reflexivity|].
  apply (Hb demo_handle demo_node EReview () (snd demo_begun) eq_refl demo_begun_ok).
Defined.
