(* ===== verification/StartRecovery.v ===== *)
(** The recovery of scheduled Workflow starts: the proof of effects from retained native
    evidence and the closing of interactions
    ([src/src/durable/sqlite/scheduled_workflow.rs]), the settlement loop of a finished or
    recovered start ([runtime/conversation_runtime/scheduled.rs]), its reconciliation by an
    operator ([scheduler.rs]), and the executor's receipts
    ([runtime/workflow/scheduled/effects.rs]).

    These run several transactions; what committed stays when a later one fails. *)

From S2P Require Import Prelude Text Json Goal Message Inbox Schedule ScheduleStore ScheduledStart.
From stdpp Require Import options.

(** ** Sessions *)

(** A computation of several transactions. *)
Definition session (A : Type) : Type := StartsDb → R A * StartsDb.

#[export] Instance session_ret : MRet session := λ A a db, (Ok a, db).
#[export] Instance session_bind : MBind session := λ A B f m db,
  match m db with
  | (Ok a, db) => f a db
  | (Err e, db) => (Err e, db)
  end.

(** One transaction; nothing of it is kept on an error. *)
Definition transact {A} (f : StartsDb → R (A * StartsDb)) : session A := λ db,
  match f db with
  | Ok (a, db) => (Ok a, db)
  | Err e => (Err e, db)
  end.
Definition query {A} (f : StartsDb → R A) : session A := λ db, (f db, db).

(** ** Native evidence *)

Section recovery.
Context `{Croner, SchedulerEnv, StartEnv}.

(** [subagent_ownership_event_id], [terminal_settlement_event_id] and
    [physical_settlement_event_id] *)
Definition subagent_ownership_event_id (a : str) : str := lit "subagent-committed-event:" ++ a.
Definition terminal_settlement_event_id (a : str) : str := lit "subagent-terminal-settled-event:" ++ a.
Definition physical_settlement_event_id (a : str) : str := lit "subagent-physical-settlement:" ++ a.

(** The builtin tools that return only after their work is done. *)
Definition settled_tools : list str :=
  map lit ["read"; "read_image"; "present"; "write"; "edit"; "glob"; "grep"; "ask_user"]%string.

(** The Journal proves an activation settled. *)
Definition agent_proven (n : WorkflowNodeInstance) (a : str) (db : StartsDb) : bool :=
  let owns := match find_event_by_id (subagent_ownership_event_id a) db with
              | Some (SubagentOwnershipCommitted (ByWorkflow m)) => bool_decide (m = n)
              | _ => false
              end in
  let physical := match find_event_by_id (physical_settlement_event_id a) db with
                  | Some SubagentPhysicalSettlementProven => true
                  | _ => false
                  end in
  owns && match find_event_by_id (terminal_settlement_event_id a) db with
          | Some (SubagentTerminalSettled proven) => proven || physical
          | _ => false
          end.

Definition model_proven (n : WorkflowNodeInstance) (call : str) (db : StartsDb) : bool :=
  match auxiliary db !! call with
  | Some audit =>
      bool_decide (business audit = Some (lit "workflow_node_instance", node_key n)) &&
      bool_decide (is_Some (settled_sequence audit)) && has_outcome audit
  | None => false
  end.

(** The contract names one of [settled_tools] at the node. *)
Definition tool_proven (p : option PinnedScheduledWorkflow) (n : WorkflowNodeInstance) : bool :=
  let path := blocks (definition (block n)) ++ [node n] in
  match p with
  | Some p => existsb (λ d, match d with
                            | DTool at_ (Builtin name) _ _ => bool_decide (at_ = path) && bool_decide (name ∈ settled_tools)
                            | _ => false
                            end) (p_dependencies p)
  | None => false
  end.

(** The proof of one effect in [scheduled_workflow_recover_effects]. *)
Definition effect_proven (p : option PinnedScheduledWorkflow) (ret : ScheduledWorkflowOwnerRetirement)
    (e : ScheduledWorkflowEffect) (db : StartsDb) : bool :=
  match eff_owner e with
  | OwnerAgent a => agent_proven (eff_node e) a db
  | OwnerModel call => model_proven (eff_node e) call db
  | Preparing =>
      match eff_kind e with
      | EAgent => agent_domain_quiescent ret
      | ETool | EModel => recovered_writer ret
      | EReview => interactions_closed ret || recovered_writer ret
      end
  | OwnerReview => interactions_closed ret || recovered_writer ret
  | OwnerTool _ => recovered_writer ret && tool_proven p (eff_node e)
  end.

Definition QUIESCENT : str := lit "exact native owner quiescence proven".
Definition missing_proof (o : ScheduledEffectOwner) : str :=
  lit match o with
      | Preparing => "recovery_blocked: native preparation lacks a positive retirement proof; inspect the original native owner"
      | OwnerAgent _ => "recovery_blocked: exact Agent terminal publication or native physical settlement proof is missing"
      | OwnerModel _ => "recovery_blocked: exact Auxiliary Call has no confirmed native terminal audit"
      | OwnerTool _ => "recovery_blocked: this Tool has no retained positive native physical proof; use its supported owner controls, never infer retirement from process absence"
      | OwnerReview => "recovery_blocked: the native interaction scope has not retired"
      end.

Fixpoint close_requests (l : list (str * RuntimeEvent)) : session () :=
  match l with
  | [] => mret ()
  | (_, InteractionRequested interaction _) :: l =>
      _ ← transact (commit_interaction_settled interaction CancelledByShutdown);
      close_requests l
  | _ :: _ => λ db, (Err (Storage (lit "invalid native interaction index")), db)
  end.

(** [close_scheduled_interactions] *)
Definition close_scheduled_interactions (i : str) : session () :=
  requests ← query (λ db, Ok (take 100 (pending_interactions i db)));
  close_requests requests.

Definition quiesce : ScheduledWorkflowEffect → ScheduledWorkflowEffect := set_proof true (Some QUIESCENT).

Fixpoint recover_each (i owner : str) (p : option PinnedScheduledWorkflow) (ret : ScheduledWorkflowOwnerRetirement)
    (l : list ScheduledWorkflowEffect) : session () :=
  match l with
  | [] => mret ()
  | e :: l =>
      _ ← (if physical_settlement_proven e then mret ()
           else
             proven ← query (λ db, Ok (effect_proven p ret e db));
             if proven : bool then transact (update_effect i owner (eff_node e) quiesce)
             else if bool_decide (diagnostic e = None)
             then transact (update_effect i owner (eff_node e) (set_diagnostic (missing_proof (eff_owner e))))
             else mret ());
      recover_each i owner p ret l
  end.

(** [scheduled_workflow_recover_effects] *)
Definition scheduled_workflow_recover_effects (i : str) (after limit : N) (ret : ScheduledWorkflowOwnerRetirement)
    : session () :=
  _ ← query (λ _, guard_err (negb (bool_decide (ret_start ret = i))) (Storage (lit "foreign scheduled retirement proof")));
  record ← query (scheduled_workflow_get i);
  match record with
  | None => mret ()
  | Some record =>
      match owner_of (start record) with
      | None => mret ()
      | Some owner =>
          _ ← (if interactions_closed ret || recovered_writer ret then close_scheduled_interactions i else mret ());
          page ← query (scheduled_workflow_recovery i after limit);
          match page with
          | None => mret ()
          | Some page => recover_each i owner (start_contract record) ret (rec_effects page)
          end
      end
  end.

(** ** The settlement loop *)

(** What one turn of the loop observes of the process and the clock. *)
Record RoundInput := { agents_quiescent : bool; scope_closed : bool; round_now : DateTime }.

Definition UNCERTAIN : str := lit "native physical ownership was uncertain; retired without replaying the graph".
Definition BLOCKED : str :=
  lit "recovery_blocked: native physical proof is missing; inspect exact effect owners and reconcile, never replay this run".

(** The page the next turn recovers. *)
Definition next_page (i : str) (after : N) (db : StartsDb) : N :=
  match scheduled_workflow_recovery i after 100 db with
  | Ok (Some page) => default 0%N (next_effect_ordinal page)
  | _ => 0%N
  end.

Definition committed {A} (r : R (A * StartsDb)) (db : StartsDb) : StartsDb :=
  match r with Ok (_, db) => db | Err _ => db end.

(** The retirement this process can prove. *)
Definition retirement (i : str) (recovered : bool) (x : RoundInput) : ScheduledWorkflowOwnerRetirement :=
  {| ret_start := i; recovered_writer := recovered; agent_domain_quiescent := agents_quiescent x;
     interactions_closed := scope_closed x |}.

(** One turn of [finish_scheduled_start]: [None] when it returns, else whether proof was
    missing and where the next page starts.  Its errors are logged or dropped. *)
Definition finish_round (i : str) (outcome : ScheduledWorkflowOutcome) (output : option json) (recovered : bool)
    (x : RoundInput) (uncertain : bool) (after : N) (db : StartsDb) : option (bool * N) * StartsDb :=
  if match scheduled_workflow_get i db with Ok (Some s) => is_settled (start s) | _ => false end then (None, db)
  else
    let db := snd (scheduled_workflow_recover_effects i after 100 (retirement i recovered x) db) in
    let final := if uncertain then OOutcomeUnknown UNCERTAIN else outcome in
    match scheduled_workflow_settle i final (if recovered then RecoveredOwners else NativeExecutor)
            (match final with OCompleted => output | _ => None end) (round_now x) db with
    | Ok (AwaitingNativeProof, db) =>
        let db := committed (scheduled_workflow_blocked i BLOCKED db) db in
        (Some (true, next_page i after db), db)
    | Ok (_, db) => (None, db)
    | Err _ => (Some (uncertain, next_page i after db), db)
    end.

(** [finish_scheduled_start], over the observations of its turns: whether it returned. *)
Fixpoint finish_rounds (i : str) (outcome : ScheduledWorkflowOutcome) (output : option json) (recovered : bool)
    (inputs : list RoundInput) (uncertain : bool) (after : N) (db : StartsDb) : bool * StartsDb :=
  match inputs with
  | [] => (false, db)
  | x :: inputs =>
      match finish_round i outcome output recovered x uncertain after db with
      | (None, db) => (true, db)
      | (Some (uncertain, after), db) => finish_rounds i outcome output recovered inputs uncertain after db
      end
  end.
Definition finish_scheduled_start (i : str) (outcome : ScheduledWorkflowOutcome) (output : option json)
    (recovered : bool) (inputs : list RoundInput) (db : StartsDb) : bool * StartsDb :=
  finish_rounds i outcome output recovered inputs false 0 db.

(** ** Operator controls *)

Definition of_binding (b : ScheduleBinding) (v : option ScheduledWorkflowRecovery) : option ScheduledWorkflowRecovery :=
  v ← v; if bool_decide (hd_binding (rec_start v) = b) then Some v else None.

Definition RETIRED : str := lit "native ownership retired after interruption; graph was not replayed".
Definition OPERATOR_BLOCKED : str :=
  lit "recovery_blocked: exact native owner proof is missing; inspect effect owners and use only their supported cancellation/recovery controls".

(** [WorkflowReconcileOwned] of [ScheduleOperation::execute] *)
Definition workflow_reconcile_owned (b : ScheduleBinding) (i : str) (after limit : N)
    (ret : ScheduledWorkflowOwnerRetirement) (now : DateTime) : session (option ScheduledWorkflowRecovery) :=
  record ← query (scheduled_workflow_get i);
  _ ← match record with
      | Some s =>
          match hd_state (start s) with
          | SClaimed _ _ effects_started =>
              if bool_decide (hd_binding (start s) = b) then
                _ ← scheduled_workflow_recover_effects i after limit ret;
                let source := if effects_started then RecoveredOwners else RecoveredNoEffects in
                settled ← transact (scheduled_workflow_settle i (OOutcomeUnknown RETIRED) source None now);
                match settled with
                | AwaitingNativeProof => transact (scheduled_workflow_blocked i OPERATOR_BLOCKED)
                | _ => mret ()
                end
              else mret ()
          | _ => mret ()
          end
      | None => mret ()
      end;
  view ← query (scheduled_workflow_recovery i after limit);
  mret (of_binding b view).

(** [WorkflowReconcile], of a store no runtime owns *)
Definition workflow_reconcile (b : ScheduleBinding) (i : str) (after limit : N) (now : DateTime)
    : session (option ScheduledWorkflowRecovery) :=
  workflow_reconcile_owned b i after limit
    {| ret_start := i; recovered_writer := true; agent_domain_quiescent := false; interactions_closed := true |} now.

(** [WorkflowCancel] *)
Definition workflow_cancel (b : ScheduleBinding) (i : str) (now : DateTime)
    : session (option ScheduledWorkflowRecovery) :=
  record ← query (scheduled_workflow_get i);
  _ ← match record with
      | Some s => if bool_decide (hd_binding (start s) = b)
                  then _ ← transact (scheduled_workflow_cancel i now); mret () else mret ()
      | None => mret ()
      end;
  view ← query (scheduled_workflow_recovery i 0 100);
  mret (of_binding b view).

(** ** The executor's receipts *)

(** [ScheduledEffects]: the claim and the nodes whose settlement is unproven, the latest
    reason first. *)
Record ScheduledEffects := { effects_claim : ClaimedScheduledWorkflow; unproven_nodes : list (WorkflowNodeInstance * str) }.

Definition effects_unproven (n : WorkflowNodeInstance) (reason : str) (s : ScheduledEffects) : ScheduledEffects :=
  {| effects_claim := effects_claim s; unproven_nodes := (n, bounded_reason reason) :: unproven_nodes s |}.
Definition effects_begin (s : ScheduledEffects) (n : WorkflowNodeInstance) (kind : ScheduledEffectKind) : session () :=
  transact (scheduled_workflow_begin_effect (effects_claim s) n kind).
Definition effects_owner (s : ScheduledEffects) (n : WorkflowNodeInstance) (o : ScheduledEffectOwner) : session () :=
  transact (scheduled_workflow_effect_owner (effects_claim s) n o).
Definition effects_finish (s : ScheduledEffects) (n : WorkflowNodeInstance) : session () :=
  let reason := snd <$> find_first (λ x, bool_decide (x.1 = n)) (unproven_nodes s) in
  transact (scheduled_workflow_effect_settled (effects_claim s) n (bool_decide (reason = None)) reason).
End recovery.

(** ** Sessions are runs *)

Section runs.
Context `{Croner, SchedulerEnv, StartEnv}.

Definition runs {A} (m : session A) : Prop := ∀ db r db', m db = (r, db') → rtc starts_step db db'.

Lemma session_runs_ret {A} (a : A) : runs (mret a).
Proof. by intros db r db' [= _ <-]. Qed.
Lemma runs_query {A} (f : StartsDb → R A) : runs (query f).
Proof. by intros db r db' [= _ <-]. Qed.
Lemma runs_fail {A} e : runs (λ db, (Err e, db) : R A * StartsDb).
Proof. by intros db r db' [= _ <-]. Qed.
Lemma runs_transact {A} (f : StartsDb → R (A * StartsDb)) :
  (∀ db a db', f db = Ok (a, db') → starts_step db db') → runs (transact f).
Proof.
  intros Hf db r db'. unfold transact. destruct (f db) as [[a db1]|e] eqn:E; intros [= _ <-]; [|done].
  apply rtc_once. by eapply Hf.
Qed.
Lemma session_runs_bind {A B} (m : session A) (f : A → session B) : runs m → (∀ a, runs (f a)) → runs (m ≫= f).
Proof.
  intros Hm Hf db r db'. unfold mbind, session_bind. destruct (m db) as [[a|e] db1] eqn:E; intros Hr.
  - etrans; [by eapply Hm|by eapply Hf].
  - injection Hr as _ <-. by eapply Hm.
Qed.

(** Split a session into its transactions. *)
Ltac run_session :=
  repeat lazymatch goal with
  | |- runs (mret _) => apply session_runs_ret
  | |- runs (query _) => apply runs_query
  | |- runs (λ _, (Err _, _)) => apply runs_fail
  | |- runs (mbind _ _) => apply session_runs_bind; [|intros ?]
  | |- runs (match ?x with _ => _ end) => destruct x
  end.

Lemma close_runs l : runs (close_requests l).
Proof.
  induction l as [|[e []] l IH]; cbn [close_requests]; run_session; [|done].
  apply runs_transact. intros. by eapply st_answer.
Qed.

Lemma recover_each_runs i owner p ret l : runs (recover_each i owner p ret l).
Proof.
  induction l as [|e l IH]; cbn [recover_each]; run_session; try done; apply runs_transact; intros.
  - by eapply st_proof.
  - by eapply st_diagnostic.
Qed.

Lemma recover_runs i after limit ret : runs (scheduled_workflow_recover_effects i after limit ret).
Proof. unfold scheduled_workflow_recover_effects, close_scheduled_interactions. run_session; auto using close_runs, recover_each_runs. Qed.

Lemma reconcile_runs b i after limit ret now : runs (workflow_reconcile_owned b i after limit ret now).
Proof.
  unfold workflow_reconcile_owned. run_session; [apply recover_runs|apply runs_transact; intros..].
  - by eapply st_settle.
  - by eapply st_blocked.
Qed.

Lemma cancel_runs b i now : runs (workflow_cancel b i now).
Proof. unfold workflow_cancel. run_session. apply runs_transact. intros. by eapply st_cancel. Qed.

Lemma committed_run {A} (f : R (A * StartsDb)) db :
  (∀ a db', f = Ok (a, db') → starts_step db db') → rtc starts_step db (committed f db).
Proof. intros Hf. destruct f as [[a db']|]; cbn; [by eapply rtc_once, Hf|done]. Qed.

Lemma finish_round_runs i outcome output recovered x uncertain after db r db' :
  finish_round i outcome output recovered x uncertain after db = (r, db') → rtc starts_step db db'.
Proof.
  unfold finish_round. destruct (match scheduled_workflow_get i db with Ok _ => _ | Err _ => _ end); [by intros [= _ <-]|].
  destruct (scheduled_workflow_recover_effects i after 100 _ db) as [r1 db1] eqn:E1. cbn [snd]. apply recover_runs in E1.
  destruct (scheduled_workflow_settle _ _ _ _ _ db1) as [[s db2]|e] eqn:E2; [|by intros [= _ <-]].
  assert (H12 : rtc starts_step db db2) by (etrans; [done|]; by eapply rtc_once, st_settle).
  destruct s; intros [= _ <-]; [done..|]. etrans; [done|]. apply committed_run. intros. by eapply st_blocked.
Qed.

Lemma finish_rounds_runs i outcome output recovered inputs uncertain after db b db' :
  finish_rounds i outcome output recovered inputs uncertain after db = (b, db') → rtc starts_step db db'.
Proof.
  revert uncertain after db. induction inputs as [|x inputs IH]; intros uncertain after db; cbn; [by intros [= _ <-]|].
  destruct (finish_round _ _ _ _ x _ _ db) as [[[u a]|] db1] eqn:E; apply finish_round_runs in E; [|by intros [= _ <-]].
  intros Hr. etrans; [done|by eapply IH].
Qed.
End runs.

(** ** Effects with evidence are proven *)

Section evidence.
Context `{CronerLaws, !SchedulerEnv, !StartEnv, !StartLaws}.

Lemma read_succeeds db i r :
  starts_ok db → records db !! i = Some r → (head_bytes (s_head r) <= MAX_HEADER_BYTES)%N →
  start_head i db = Ok (Some (s_head r)).
Proof.
  intros Hok Hr Hb. destruct (ok_state db Hok i r Hr) as (row & Hrow & Hs & _).
  destruct (ok_header db Hok i r Hr) as [I1 I2 I3 I4 I5]. unfold start_head. rewrite Hrow, Hr.
  rewrite (proj2 (N.ltb_ge _ _) Hb). cbn.
  assert (head_consistent i (start_state row) (s_head r) = true) as ->; [|done].
  unfold head_consistent. rewrite I3. cbn. rewrite !bool_decide_eq_true_2; try done; congruence.
Qed.

Lemma save_succeeds h db :
  (head_bytes h <= MAX_HEADER_BYTES)%N → (generation (sched db) < i64_max)%N → ∃ db', save_start h db = Ok db'.
Proof.
  intros Hb Hg. unfold save_start. rewrite (proj2 (N.ltb_ge _ _) Hb). simpl.
  unfold advance_generation, increment, i64_next. simpl. rewrite (proj2 (N.ltb_lt _ _) Hg). simpl. by eexists.
Qed.

Lemma update_first_ext_pred {A} (p q : A → bool) (f : A → A) l :
  (∀ x, x ∈ l → p x = q x) → update_first p f l = update_first q f l.
Proof.
  induction l as [|x l IH]; cbn; [done|]. intros Hpq. rewrite (Hpq x) by constructor.
  destruct (q x); [done|]. rewrite IH; [done|]. intros y Hy. apply Hpq. by constructor.
Qed.

(** Settle the rows of one node. *)
Definition change_at (n : WorkflowNodeInstance) (f : ScheduledWorkflowEffect → ScheduledWorkflowEffect)
    (rows : list ScheduledWorkflowEffect) : list ScheduledWorkflowEffect :=
  map (λ x, if on_node n x then f x else x) rows.

Lemma update_succeeds db i r o t st e f :
  starts_ok db → records db !! i = Some r → hd_state (s_head r) = SClaimed o t st →
  (head_bytes (s_head r) <= MAX_HEADER_BYTES)%N → e ∈ effects_of i db →
  Forall (λ x, effect_bytes x <= MAX_EFFECT_BYTES)%N (effects_of i db) →
  (∀ x, x ∈ effects_of i db → (effect_bytes (f x) <= MAX_EFFECT_BYTES)%N) →
  update_effect i o (eff_node e) f db =
    Ok ((), set_effects (<[i := change_at (eff_node e) f (effects_of i db)]> (effects db)) db).
Proof.
  intros Hok Hr Hst Hb He Hfit Hfit'. destruct (ok_life db Hok i r Hr) as [_ [_ _ Hnd _]].
  unfold update_effect. rewrite (read_succeeds _ _ _ Hok Hr Hb). simpl.
  rewrite bool_decide_eq_true_2 by (unfold owner_of; by rewrite Hst). cbn [negb guard_err].
  set (sel := λ x, on_node (eff_node e) x && (effect_bytes x <=? MAX_EFFECT_BYTES)%N).
  assert (Hsel : ∀ x, x ∈ effects_of i db → sel x = on_node (eff_node e) x).
  { intros x Hx. unfold sel. rewrite Forall_forall in Hfit. rewrite (proj2 (N.leb_le _ _) (Hfit x Hx)). apply andb_true_r. }
  assert (Hon : on_node (eff_node e) e = true) by (unfold on_node; by apply bool_decide_eq_true).
  destruct (find_first sel (effects_of i db)) as [y|] eqn:Ef.
  - simpl. apply find_first_Some in Ef as [Hy _]. rewrite (proj2 (N.ltb_ge _ _) (Hfit' y Hy)).
    simpl. rewrite (update_first_ext_pred sel (on_node (eff_node e))) by done.
    destruct (update_first (on_node (eff_node e)) f (effects_of i db)) as [rows'|] eqn:Eu.
    + simpl. rewrite (update_first_map (on_node (eff_node e)) row_key (row_key e) f (effects_of i db) rows'); try done.
      intros x. unfold on_node. by rewrite bool_decide_eq_true.
    + exfalso. apply update_first_None in Eu. rewrite (proj1 (find_first_None _ _) Eu e He) in Hon. done.
  - exfalso. pose proof (proj1 (find_first_None _ _) Ef e He) as Hn. rewrite Hsel in Hn; [congruence|done].
Qed.
Definition settle_row (x : ScheduledWorkflowEffect) : ScheduledWorkflowEffect :=
  if physical_settlement_proven x then x else quiesce x.

(** The rows after the recovery of the nodes [keys]. *)
Definition settle_rows (keys : list str) (rows : list ScheduledWorkflowEffect) : list ScheduledWorkflowEffect :=
  map (λ x, if decide (row_key x ∈ keys) then settle_row x else x) rows.

(** The row fits its bound, also with the proof. *)
Definition fits (x : ScheduledWorkflowEffect) : Prop :=
  (effect_bytes x <= MAX_EFFECT_BYTES)%N ∧ (effect_bytes (quiesce x) <= MAX_EFFECT_BYTES)%N.

Lemma settle_row_proven x : proven (settle_row x).
Proof. unfold settle_row, proven. by destruct (physical_settlement_proven x) eqn:E. Qed.
Lemma settle_row_key x : row_key (settle_row x) = row_key x.
Proof. unfold settle_row. by destruct (physical_settlement_proven x). Qed.
Lemma settle_row_fits x : fits x → fits (settle_row x).
Proof. unfold settle_row. destruct (physical_settlement_proven x); [done|]. by intros [_ ?]. Qed.
Lemma settle_row_twice x : settle_row (settle_row x) = settle_row x.
Proof. unfold settle_row at 1. by rewrite settle_row_proven. Qed.

Lemma settle_rows_nil rows : settle_rows [] rows = rows.
Proof. unfold settle_rows. rewrite <- (map_id rows) at 2. apply map_ext. intros x. by destruct (decide _) as [?%not_elem_of_nil|]. Qed.

Lemma settle_rows_cons k keys rows :
  k ∉ keys → settle_rows keys (settle_rows [k] rows) = settle_rows (k :: keys) rows.
Proof.
  intros Hk. unfold settle_rows. rewrite map_map. apply map_ext. intros x.
  destruct (decide (row_key x ∈ [k])) as [Hx%list_elem_of_singleton|Hx].
  - rewrite settle_row_key, Hx, (decide_False (P := k ∈ keys)) by done. rewrite decide_True; [done|constructor].
  - apply not_elem_of_cons in Hx as [Hx _]. destruct (decide (row_key x ∈ keys)) as [Hin|Hin].
    + by rewrite decide_True by (by constructor).
    + rewrite decide_False; [done|]. by intros [?|?]%elem_of_cons.
Qed.

(** Evidence is read off the Journal and the audits alone. *)
Lemma effect_proven_ext p ret e db db' :
  journal db' = journal db → auxiliary db' = auxiliary db → effect_proven p ret e db' = effect_proven p ret e db.
Proof.
  intros Hj Ha. unfold effect_proven, agent_proven, model_proven, find_event_by_id. by rewrite Hj, Ha.
Qed.

Lemma same_key_row rows x e : NoDup (map row_key rows) → x ∈ rows → e ∈ rows → row_key x = row_key e → x = e.
Proof. intros Hnd Hx He Hk. by eapply NoDup_map_inj. Qed.

(** The recovery of one row. *)
Lemma recover_row db i r o t st p ret e :
  starts_ok db → records db !! i = Some r → hd_state (s_head r) = SClaimed o t st →
  (head_bytes (s_head r) <= MAX_HEADER_BYTES)%N → e ∈ effects_of i db → Forall fits (effects_of i db) →
  proven e ∨ effect_proven p ret e db = true →
  ∃ m, (if physical_settlement_proven e then mret ()
        else
          proven ← query (λ db, Ok (effect_proven p ret e db));
          if proven : bool then transact (update_effect i o (eff_node e) quiesce)
          else if bool_decide (diagnostic e = None)
          then transact (update_effect i o (eff_node e) (set_diagnostic (missing_proof (eff_owner e))))
          else mret ()) db = (Ok (), set_effects m db) ∧
    starts_ok (set_effects m db) ∧ effects_of i (set_effects m db) = settle_rows [row_key e] (effects_of i db).
Proof using All.
  intros Hok Hr Hst Hb He Hfit Hev. destruct (ok_life db Hok i r Hr) as [_ [_ _ Hnd _]].
  destruct (physical_settlement_proven e) eqn:Ep.
  - exists (effects db). assert (set_effects (effects db) db = db) as -> by (by destruct db). split_and!; [done..|].
    unfold settle_rows. rewrite <- (map_id (effects_of i db)) at 1. apply map_ext_in. intros x Hx%list_elem_of_In.
    case_decide as Hk; [|done]. apply list_elem_of_singleton in Hk. rewrite (same_key_row _ _ _ Hnd Hx He Hk).
    unfold settle_row. by rewrite Ep.
  - destruct Hev as [?|Hev]; [unfold proven in *; congruence|].
    rewrite Forall_forall in Hfit.
    pose proof (update_succeeds db i r o t st e quiesce Hok Hr Hst Hb He) as Hu.
    specialize (Hu ltac:(apply Forall_forall; intros x Hx; apply (Hfit x Hx)) (λ x Hx, proj2 (Hfit x Hx))).
    eexists. unfold mbind, session_bind, query. rewrite Hev. unfold transact. rewrite Hu. split; [done|].
    split; [by eapply update_moves; [..|exact Hu]; [done|intros ?]|].
    unfold effects_of at 1. cbn. rewrite lookup_insert_eq. cbn. unfold change_at, settle_rows.
    apply map_ext_in. intros x Hx%list_elem_of_In. unfold on_node.
    case_decide as Hk; case_bool_decide as Hk'; try done.
    + apply list_elem_of_singleton in Hk. rewrite (same_key_row _ _ _ Hnd Hx He Hk). unfold settle_row. by rewrite Ep.
    + by apply list_elem_of_singleton in Hk.
    + destruct Hk. by apply list_elem_of_singleton.
Qed.

Lemma recover_each_ok i o t st p ret es db r :
  starts_ok db → records db !! i = Some r → hd_state (s_head r) = SClaimed o t st →
  (head_bytes (s_head r) <= MAX_HEADER_BYTES)%N → Forall fits (effects_of i db) → NoDup (map row_key es) →
  (∀ e, e ∈ es → e ∈ effects_of i db ∧ (proven e ∨ effect_proven p ret e db = true)) →
  ∃ m, recover_each i o p ret es db = (Ok (), set_effects m db) ∧ starts_ok (set_effects m db) ∧
    effects_of i (set_effects m db) = settle_rows (map row_key es) (effects_of i db).
Proof using All.
  intros Hok Hr Hst Hb. revert db Hok Hr. induction es as [|e es IH]; intros db Hok Hr Hfit Hnd Hes.
  - exists (effects db). assert (set_effects (effects db) db = db) as -> by (by destruct db).
    split_and!; [done..|]. cbn. by rewrite settle_rows_nil.
  - cbn in Hnd. apply NoDup_cons in Hnd as [Hnin Hnd]. destruct (Hes e) as [He Hev]; [constructor|].
    destruct (recover_row db i r o t st p ret e Hok Hr Hst Hb He Hfit Hev) as (m & Hm & Hok1 & Heff).
    destruct (IH (set_effects m db) Hok1 Hr) as (m' & Hm' & Hok2 & Heff2).
    + rewrite Heff. apply Forall_forall. intros x (y & -> & Hy)%list_elem_of_fmap.
      rewrite Forall_forall in Hfit. case_decide; [apply settle_row_fits|]; by apply Hfit.
    + done.
    + intros e' He'. destruct (Hes e') as [Hin Hev']; [by constructor|]. split.
      * rewrite Heff. apply list_elem_of_fmap. exists e'. split; [|done]. rewrite decide_False; [done|].
        rewrite list_elem_of_singleton. intros E. apply Hnin. rewrite <- E. by apply (list_elem_of_fmap_2 row_key).
      * destruct Hev' as [?|Hev']; [by left|right]. by rewrite <- Hev'.
    + exists m'. cbn [recover_each]. unfold mbind at 1, session_bind at 1. rewrite Hm, Hm'. split_and!; [done..|].
      etrans; [exact Heff2|]. rewrite Heff. by apply settle_rows_cons.
Qed.
End evidence.

(** ** Interactions are closed *)

Section closing.
Context `{CronerLaws, !SchedulerEnv, !StartEnv, !StartLaws}.

(** Only the Journal grew. *)
Definition journal_grew (db db' : StartsDb) : Prop := ∃ j n lc, db' = set_journal (journal db ++ j) n lc db.

#[export] Instance journal_grew_preorder : PreOrder journal_grew.
Proof.
  split.
  - intros db. exists [], (next_event_sequence db), (lifecycle db). rewrite app_nil_r. by destruct db.
  - intros db1 db2 db3 (j & n & lc & ->) (j' & n' & lc' & ->). exists (j ++ j'), n', lc'. cbn. by rewrite app_assoc.
Qed.

Lemma find_event_grew e db db' ev : journal_grew db db' → find_event_by_id e db = Some ev → find_event_by_id e db' = Some ev.
Proof.
  intros (j & n & lc & ->). unfold find_event_by_id. cbn. unfold find_first. rewrite find_map_app.
  by destruct (find_map _ (journal db)).
Qed.

Lemma effect_proven_grew p ret e db db' :
  journal_grew db db' → effect_proven p ret e db = true → effect_proven p ret e db' = true.
Proof.
  intros Hg. assert (Ha : auxiliary db' = auxiliary db) by (by destruct Hg as (j & n & lc & ->)).
  unfold effect_proven. destruct (eff_owner e) as [| |a| |]; try done; [|unfold model_proven; by rewrite Ha].
  unfold agent_proven. intros [Ho Ht]%andb_true_iff. apply andb_true_iff. split.
  - destruct (find_event_by_id (subagent_ownership_event_id a) db) as [ev|] eqn:E; [|done].
    by rewrite (find_event_grew _ _ _ _ Hg E).
  - destruct (find_event_by_id (terminal_settlement_event_id a) db) as [ev|] eqn:E; [|done].
    rewrite (find_event_grew _ _ _ _ Hg E). destruct ev; try done.
    apply orb_true_iff in Ht as [->|Hp]; [done|]. apply orb_true_iff. right.
    destruct (find_event_by_id (physical_settlement_event_id a) db) as [ev|] eqn:E2; [|done].
    by rewrite (find_event_grew _ _ _ _ Hg E2).
Qed.

Lemma find_event_in e ev db : starts_ok db → (e, ev) ∈ journal db → find_event_by_id e db = Some ev.
Proof.
  intros Hok Hin. unfold find_event_by_id. destruct (find_first _ (journal db)) as [[e' ev']|] eqn:E.
  - apply find_first_Some in E as [Hin' Hp%bool_decide_eq_true]. cbn in Hp. subst e'.
    by injection (NoDup_map_inj fst (journal db) (e, ev') (e, ev) (ok_journal db Hok) Hin' Hin eq_refl) as ->.
  - pose proof (proj1 (find_first_None _ _) E (e, ev) Hin) as Hn. by apply bool_decide_eq_false in Hn.
Qed.

Lemma elem_of_pending x i db :
  x ∈ pending_interactions i db ↔
  x ∈ journal db ∧ (REQUESTED ++ scope_of i) `prefix_of` x.1 ∧ has_event (SETTLED ++ drop (length REQUESTED) x.1) db = false.
Proof.
  unfold pending_interactions. rewrite list_elem_of_In, filter_In, <- list_elem_of_In. unfold unanswered.
  by rewrite andb_true_iff, bool_decide_eq_true, negb_true_iff.
Qed.

(** An unanswered request of a claimed start: its fact. *)
Lemma pending_fact db i r e event :
  starts_ok db → records db !! i = Some r → (e, event) ∈ pending_interactions i db →
  ∃ k subject n, event = InteractionRequested k subject ∧ e = REQUESTED ++ k ∧ subject_node subject = Some n ∧
    run (block n) = hd_run (s_head r) ∧ scope_of i `prefix_of` k ∧ is_claimed (s_head r) = true ∧
    existsb (on_node n) (effects_of i db) = true ∧ lifecycle db !! interaction_key k = Some false ∧
    has_event (SETTLED ++ k) db = false.
Proof using All.
  intros Hok Hr (Hin & Hp & Hno)%elem_of_pending. cbn in Hp, Hno.
  destruct (ok_requests db Hok e event Hin) as (k & subject & n & j & r' & -> & -> & Hn & Hr' & Hrun & Hsc & _ & Hopen).
  { etrans; [|exact Hp]. apply scope_of_starts. }
  assert (i = j) as <- by (eapply scope_prefix; try done; by eapply ok_no_colon).
  assert (r' = r) as -> by congruence. rewrite drop_app_length in Hno. destruct (Hopen Hno) as (? & ? & ?).
  by exists k, subject, n.
Qed.

(** What remains after an answer. *)
Lemma pending_after i db k settlement n lc rest event :
  NoDup (map fst (journal db)) → pending_interactions i db = (REQUESTED ++ k, event) :: rest →
  pending_interactions i (set_journal (journal db ++ [(SETTLED ++ k, settlement)]) n lc db) = rest.
Proof.
  intros Hnd Hp. unfold pending_interactions. cbn [journal set_journal]. rewrite List.filter_app.
  assert (Hnew : List.filter (unanswered i (set_journal (journal db ++ [(SETTLED ++ k, settlement)]) n lc db))
      [(SETTLED ++ k, settlement)] = []).
  { cbn. unfold unanswered. rewrite bool_decide_eq_false_2; [done|]. cbn. intros [x E]. by vm_compute in E. }
  rewrite Hnew, app_nil_r.
  transitivity (List.filter (λ x, negb (bool_decide (x.1 = REQUESTED ++ k))) (pending_interactions i db)).
  - unfold pending_interactions. rewrite filter_filter. apply filter_ext_in. intros x Hx. unfold unanswered.
    rewrite has_event_app. destruct (bool_decide_reflect ((REQUESTED ++ scope_of i) `prefix_of` x.1)) as [[y Hy]|]; [|done].
    cbn. rewrite Hy, <- !app_assoc, drop_app_length. rewrite negb_orb. f_equal. f_equal. apply bool_decide_ext. split.
    + by intros <-%app_inv_head.
    + by intros <-%app_inv_head.
  - rewrite Hp. cbn. rewrite bool_decide_eq_true_2 by done. cbn.
    assert (Hnd' : NoDup (map fst (pending_interactions i db))).
    { by apply NoDup_map_filter. }
    rewrite Hp in Hnd'. apply NoDup_cons in Hnd' as [Hnin _]. cbn in Hnin. clear Hp Hnew.
    induction rest as [|x rest IH]; cbn; [done|]. cbn in Hnin. apply not_elem_of_cons in Hnin as [Hne Hnin].
    rewrite bool_decide_eq_false_2 by done. cbn. by rewrite IH.
Qed.

Lemma answer_succeeds db i r e event rest :
  starts_ok db → records db !! i = Some r → (head_bytes (s_head r) <= MAX_HEADER_BYTES)%N →
  pending_interactions i db = (e, event) :: rest → (next_event_sequence db < i64_max)%N →
  ∃ k subject db', event = InteractionRequested k subject ∧
    commit_interaction_settled k CancelledByShutdown db = Ok ((), db') ∧
    journal_grew db db' ∧ next_event_sequence db' = (next_event_sequence db + 1)%N ∧ starts_ok db' ∧
    pending_interactions i db' = rest.
Proof using All.
  intros Hok Hr Hb Hp Hseq. assert (Hin : (e, event) ∈ pending_interactions i db) by (rewrite Hp; constructor).
  destruct (pending_fact _ _ _ _ _ Hok Hr Hin) as (k & subject & n & -> & -> & Hn & Hrun & Hsc & Hcl & Hex & Hlc & Hno).
  apply elem_of_pending in Hin as (Hin & _).
  set (lc := <[interaction_key k := true]> (lifecycle db)).
  set (db' := set_journal (journal db ++ [(SETTLED ++ k, InteractionSettled k CancelledByShutdown)])
    (next_event_sequence db + 1) lc db).
  assert (Hc : commit_interaction_settled k CancelledByShutdown db = Ok ((), db')).
  { unfold commit_interaction_settled. unfold interaction_requested_event_id. rewrite (find_event_in _ _ _ Hok Hin).
    rewrite bool_decide_eq_true_2 by done. simpl. unfold validate_interaction_owner. rewrite Hn. simpl.
    destruct (ok_header db Hok i r Hr) as [_ _ Hrn _ _]. rewrite Hrun, Hrn. simpl.
    rewrite (read_succeeds _ _ _ Hok Hr Hb). simpl. rewrite Hrn, Hcl, !bool_decide_eq_true_2 by done. simpl. rewrite Hex. simpl.
    unfold persist_event, i64_next. rewrite (proj2 (N.ltb_lt _ _) Hseq). simpl. rewrite Hlc.
    rewrite bool_decide_eq_false_2 by done. simpl. unfold interaction_settled_event_id. by rewrite Hno. }
  exists k, subject, db'. split_and!; [done|done|by eexists _, _, _|done|by eapply answer_moves|].
  apply (pending_after i db k _ _ _ rest _ (ok_journal db Hok) Hp).
Qed.

Lemma close_ok i r l db rest :
  starts_ok db → records db !! i = Some r → (head_bytes (s_head r) <= MAX_HEADER_BYTES)%N →
  pending_interactions i db = l ++ rest → (next_event_sequence db + N.of_nat (length l) <= i64_max)%N →
  ∃ db', close_requests l db = (Ok (), db') ∧ journal_grew db db' ∧ starts_ok db' ∧
    (next_event_sequence db' = next_event_sequence db + N.of_nat (length l))%N ∧ pending_interactions i db' = rest.
Proof using All.
  revert db. induction l as [|[e event] l IH]; intros db Hok Hr Hb Hp Hseq.
  - exists db. cbn in *. split_and!; [done|done|done|lia|done].
  - cbn in Hp, Hseq. destruct (answer_succeeds _ _ _ _ _ _ Hok Hr Hb Hp) as (k & subject & db1 & -> & Hc & Hg & Hs1 & Hok1 & Hp1); [lia|].
    assert (Hr1 : records db1 !! i = Some r) by (by destruct Hg as (? & ? & ? & ->)).
    destruct (IH db1 Hok1 Hr1 Hb Hp1) as (db2 & Hc2 & Hg2 & Hok2 & Hs2 & Hp2); [lia|].
    exists db2. split_and!; [|by etrans|done|cbn; lia|done].
    cbn [close_requests]. unfold mbind, session_bind, transact. by rewrite Hc.
Qed.

(** A pass closes up to a hundred of them. *)
Lemma close_pass i r db :
  starts_ok db → records db !! i = Some r → (head_bytes (s_head r) <= MAX_HEADER_BYTES)%N →
  (next_event_sequence db + N.of_nat (length (pending_interactions i db)) <= i64_max)%N →
  ∃ db', close_scheduled_interactions i db = (Ok (), db') ∧ journal_grew db db' ∧ starts_ok db' ∧
    pending_interactions i db' = drop 100 (pending_interactions i db) ∧
    (next_event_sequence db' + N.of_nat (length (pending_interactions i db')) =
     next_event_sequence db + N.of_nat (length (pending_interactions i db)))%N.
Proof using All.
  intros Hok Hr Hb Hseq. set (l := take 100 (pending_interactions i db)). set (rest := drop 100 (pending_interactions i db)).
  assert (Hp : pending_interactions i db = l ++ rest) by (symmetry; apply take_drop).
  assert (Hlen : length (pending_interactions i db) = length l + length rest) by (by rewrite Hp, length_app).
  destruct (close_ok i r l db rest Hok Hr Hb Hp) as (db' & Hc & Hg & Hok' & Hs & Hp'); [lia|].
  exists db'. split_and!; [|done|done|done|rewrite Hp'; lia].
  exact Hc.
Qed.
End closing.

(** ** A finished start is settled *)

Section settling.
Context `{CronerLaws, !SchedulerEnv, !StartEnv, !StartLaws}.

(** The header a turn settles, and the one that tells the operator it is blocked. *)
Definition settled_head (outcome : ScheduledWorkflowOutcome) (output : option json) (now : DateTime)
    (h : ScheduledWorkflowHead) : ScheduledWorkflowHead :=
  let h := match outcome with OCompleted => with_digest (value_digest <$> output) h | _ => h end in
  with_blocked None (settle_head outcome now h).
Definition blocked_head (h : ScheduledWorkflowHead) : ScheduledWorkflowHead :=
  with_blocked (Some (bounded_reason BLOCKED)) h.

(** The outcome can be written: only a completed execution has a value, within its bound. *)
Definition publishes (outcome : ScheduledWorkflowOutcome) (output : option json) (recovered : bool) : Prop :=
  outcome = OCompleted → recovered = false ∧ ∃ v, output = Some v ∧ (json_bytes v <= MAX_RESULT_BYTES)%N.

Lemma numbered_lookup rows n k e :
  map eff_ordinal rows = count_to n → rows !! k = Some e → eff_ordinal e = (N.of_nat k + 1)%N.
Proof.
  intros Hn Hk. assert (Ho : map eff_ordinal rows !! k = Some (eff_ordinal e)) by (by rewrite list_lookup_fmap, Hk).
  rewrite Hn in Ho. unfold count_to in Ho. apply list_lookup_fmap_Some in Ho as (x & -> & [-> _]%lookup_seq). lia.
Qed.

(** The rows after an ordinal. *)
Lemma numbered_after rows a :
  map eff_ordinal rows = count_to (N.of_nat (length rows)) →
  List.filter (λ e, (a <? eff_ordinal e)%N) rows = drop (N.to_nat a) rows.
Proof.
  intros Hn. rewrite <- (take_drop (N.to_nat a) rows) at 1. rewrite List.filter_app.
  rewrite (filter_all_false _ (take _ _)), (filter_all_true _ (drop _ _)); [done|..].
  - intros e (k & Hk)%list_elem_of_lookup. rewrite lookup_drop in Hk. apply N.ltb_lt.
    rewrite (numbered_lookup _ _ _ _ Hn Hk). lia.
  - intros e (k & Hk)%list_elem_of_lookup. apply lookup_take_Some in Hk as [Hk Hlt]. apply N.ltb_ge.
    rewrite (numbered_lookup _ _ _ _ Hn Hk). lia.
Qed.

(** What stays of the start while the loop runs: [o] holds it, its rows fit, the page starts
    within the rows and the Journal has room. *)
Record held (i o : str) (t : DateTime) (st : bool) (r : StartRecord) (db : StartsDb) : Prop := {
  held_ok : starts_ok db;
  held_row : records db !! i = Some r;
  held_claim : hd_state (s_head r) = SClaimed o t st;
  held_bytes : (head_bytes (s_head r) <= MAX_HEADER_BYTES)%N;
  held_fits : Forall fits (effects_of i db);
}.

Lemma held_rows i o t st r db : held i o t st r db → life_ok r (effects_of i db) ∧ rows_ok (s_head r) (effects_of i db).
Proof. intros [Hok Hr _ _ _]. by apply (ok_life db Hok). Qed.

(** The page read of a held start. *)
Lemma held_page i o t st r db a :
  held i o t st r db → (a <= N.of_nat (length (effects_of i db)))%N →
  let page := take 100 (drop (N.to_nat a) (effects_of i db)) in
  ∃ v, scheduled_workflow_recovery i a 100 db = Ok (Some v) ∧ rec_effects v = page ∧
    next_effect_ordinal v = if (length page =? 100)%nat then eff_ordinal <$> last page else None.
Proof using All.
  intros Hh Ha page. destruct (held_rows _ _ _ _ _ _ Hh) as [Hl [Hnum Hmax _ Hrun]].
  destruct Hh as [Hok Hr Hst Hb Hfit]. unfold life_ok in Hl. rewrite Hst in Hl. destruct Hl as (_ & _ & _ & Hres & _).
  assert (Hai : (a <= i64_max)%N) by (unfold MAX_EFFECTS in Hmax; unfold i64_max; lia).
  unfold scheduled_workflow_recovery. rewrite (proj2 (N.ltb_ge _ _) Hai). simpl.
  rewrite (read_succeeds _ _ _ Hok Hr Hb). simpl. rewrite Hr, numbered_after by done.
  change (N.to_nat 100) with 100%nat. fold page.
  assert (Hc : try_for_each (check_effect (s_head r)) page = Ok ()).
  { apply try_for_each_ok. apply Forall_forall. intros e He. unfold page in He.
    assert (Hin : e ∈ effects_of i db) by (by apply elem_of_take in He as (k & Hk & _); rewrite lookup_drop in Hk;
      eapply list_elem_of_lookup_2).
    unfold check_effect. rewrite Forall_forall in Hfit. destruct (Hfit e Hin) as [Hf _].
    rewrite (proj2 (N.ltb_ge _ _) Hf). simpl. by rewrite bool_decide_eq_true_2 by auto. }
  rewrite Hc. simpl. unfold bounded_result. rewrite Hres. simpl. eexists. split_and!; [done..|]. done.
Qed.

Lemma held_get i o t st r db :
  held i o t st r db →
  scheduled_workflow_get i db = Ok (Some {| start := s_head r; start_contract := bounded_contract r;
    start_arguments := bounded_arguments r; start_result := bounded_result r |}).
Proof using All.
  intros Hh. destruct (held_rows _ _ _ _ _ _ Hh) as [Hl _]. destruct Hh as [Hok Hr Hst Hb _].
  unfold life_ok in Hl. rewrite Hst in Hl. destruct Hl as (_ & [c Hc] & [a Ha] & _).
  destruct (ok_header db Hok i r Hr) as [_ _ _ Hbd _].
  unfold scheduled_workflow_get. rewrite (read_succeeds _ _ _ Hok Hr Hb). simpl. rewrite Hr, Hbd.
  rewrite (bool_decide_eq_true_2 (conversation (sched db) = conversation (sched db))) by done.
  rewrite Hc, Ha. simpl. by rewrite andb_false_r.
Qed.

(** Evidence persists while the Journal grows. *)
Definition evident (p : option PinnedScheduledWorkflow) (ret : ScheduledWorkflowOwnerRetirement)
    (i : str) (db : StartsDb) : Prop :=
  ∀ e, e ∈ effects_of i db → proven e ∨ effect_proven p ret e db = true.

Lemma elem_of_settle_rows keys rows x :
  x ∈ settle_rows keys rows → ∃ y, y ∈ rows ∧ row_key x = row_key y ∧ eff_ordinal x = eff_ordinal y ∧
    (row_key y ∈ keys → proven x) ∧ (proven y → proven x) ∧ (x = y ∨ proven x).
Proof.
  intros (y & -> & Hy)%list_elem_of_fmap. exists y. case_decide as Hk.
  - rewrite settle_row_key. split_and!; try done; [|by intros; apply settle_row_proven..|right; apply settle_row_proven].
    unfold settle_row. by destruct (physical_settlement_proven y).
  - split_and!; try done. by left.
Qed.

(** One recovery: a page of rows proven, up to a hundred interactions closed. *)
Lemma recover_pass i o t st r db a ret :
  held i o t st r db → (a <= N.of_nat (length (effects_of i db)))%N → ret_start ret = i →
  interactions_closed ret || recovered_writer ret = true → evident (bounded_contract r) ret i db →
  (next_event_sequence db + N.of_nat (length (pending_interactions i db)) <= i64_max)%N →
  ∃ db', scheduled_workflow_recover_effects i a 100 ret db = (Ok (), db') ∧ held i o t st r db' ∧
    sched db' = sched db ∧
    effects_of i db' = settle_rows (map row_key (take 100 (drop (N.to_nat a) (effects_of i db)))) (effects_of i db) ∧
    pending_interactions i db' = drop 100 (pending_interactions i db) ∧
    (next_event_sequence db' + N.of_nat (length (pending_interactions i db')) <= i64_max)%N ∧
    ∀ ret', evident (bounded_contract r) ret' i db → evident (bounded_contract r) ret' i db'.
Proof using All.
  intros Hh Ha Hret Hcl Hev Hseq. pose proof Hh as [Hok Hr Hst Hb Hfit].
  destruct (close_pass i r db Hok Hr Hb Hseq) as (db1 & Hclose & Hg & Hok1 & Hp1 & Hs1).
  assert (Hsame : records db1 = records db ∧ effects_of i db1 = effects_of i db ∧ sched db1 = sched db).
  { by destruct Hg as (? & ? & ? & ->). }
  destruct Hsame as (Hrec & Heff & Hsched). rewrite <- Hrec in Hr.
  assert (Hh1 : held i o t st r db1) by (split; try done; by rewrite Heff).
  destruct (held_page i o t st r db1 a Hh1) as (v & Hv & Hpage & _); [by rewrite Heff|]. rewrite Heff in Hpage.
  destruct (recover_each_ok i o t st (bounded_contract r) ret (rec_effects v) db1 r Hok1 Hr Hst Hb) as (m & Hm & Hok2 & Heff2).
  { by rewrite Heff. }
  { rewrite Hpage. destruct (held_rows _ _ _ _ _ _ Hh) as [_ [_ _ Hnd _]].
    rewrite <- (take_drop (N.to_nat a) (effects_of i db)), map_app in Hnd. apply NoDup_app in Hnd as (_ & _ & Hnd).
    rewrite <- (take_drop 100 (drop _ _)), map_app in Hnd. by apply NoDup_app in Hnd as (Hnd & _). }
  { intros e He. rewrite Hpage in He. apply elem_of_take in He as (k & Hk & _). rewrite lookup_drop in Hk.
    apply list_elem_of_lookup_2 in Hk. rewrite Heff. split; [done|].
    destruct (Hev e Hk) as [|Hev']; [by left|right]. by eapply effect_proven_grew. }
  exists (set_effects m db1). rewrite Heff, Hpage in Heff2. split_and!; [| |done|done|exact Hp1| |].
  - unfold scheduled_workflow_recover_effects, mbind, session_bind, query.
    rewrite bool_decide_eq_true_2 by done. cbn [negb guard_err]. rewrite (held_get _ _ _ _ _ _ Hh). cbn [start].
    unfold owner_of. rewrite Hst. rewrite Hcl, Hclose, Hv. exact Hm.
  - split; try done. rewrite Heff2. apply Forall_forall. intros x (y & -> & Hy)%list_elem_of_fmap.
    rewrite Forall_forall in Hfit. case_decide; [apply settle_row_fits|]; by apply Hfit.
  - change (next_event_sequence db1 + N.of_nat (length (pending_interactions i db1)) <= i64_max)%N. lia.
  - intros ret' Hev' e He. rewrite Heff2 in He.
    apply elem_of_settle_rows in He as (y & Hy & _ & _ & _ & Hpy & [->|]); [|by left].
    destruct (Hev' y Hy) as [|He']; [by left|right]. rewrite <- (effect_proven_grew _ _ _ _ _ Hg He').
    by apply effect_proven_ext.
Qed.

Lemma settle_awaits i o t st r db outcome source result now :
  held i o t st r db → source ≠ RecoveredNoEffects →
  (unproven i db = true ∨ pending_interactions i db ≠ []) →
  scheduled_workflow_settle i outcome source result now db = Ok (AwaitingNativeProof, db).
Proof using All.
  intros [Hok Hr Hst Hb _] Hsrc Hwait. unfold scheduled_workflow_settle.
  rewrite (read_succeeds _ _ _ Hok Hr Hb). simpl. rewrite Hst.
  assert (awaits_proof source st (unproven i db) = unproven i db) as -> by (by destruct source).
  destruct (unproven i db); [done|]. destruct Hwait as [|Hp]; [done|].
  by rewrite (bool_decide_eq_false_2 _ Hp).
Qed.

(** Everything but the row and the generation. *)
Definition same_facts (db db' : StartsDb) : Prop :=
  effects db' = effects db ∧ journal db' = journal db ∧ auxiliary db' = auxiliary db ∧
  next_event_sequence db' = next_event_sequence db.

(** The header a save leaves in the row. *)
Lemma saved_head i r h db db' :
  records db !! i = Some r → hd_id h = i → save_start h db = Ok db' →
  ∃ r', records db' !! i = Some r' ∧ s_head r' = h ∧
    (is_settled h = false → r' = set_head h r ∧ same_facts db db' ∧
       generation (sched db') = (generation (sched db) + 1)%N).
Proof.
  intros Hr Hid Hs. unfold save_start in Hs. apply bind_ok in Hs as (_ & _ & Hs).
  apply bind_ok in Hs as (s & Hg & [= <-]).
  assert (Hw : records (write_head h db) !! i = Some (set_head h r)) by (cbn; by rewrite Hid, lookup_alter_eq, Hr).
  assert (Hgen : generation s = (generation (sched db) + 1)%N).
  { unfold advance_generation in Hg. apply bind_ok in Hg as (g & Hinc & [= <-]). cbn in *.
    unfold increment, i64_next in Hinc. case_match; [|done]. by injection Hinc as <-. }
  destruct (hd_state h) eqn:E; try (by exists (set_head h r)).
  rewrite prune_record. change (records (set_sched _ (write_head h db))) with (records (write_head h db)). rewrite Hw.
  eexists. split; [done|]. rewrite strip_head. split; [done|]. unfold is_settled. by rewrite E.
Qed.

Lemma settle_succeeds i o t st r db outcome output (recovered : bool) now :
  held i o t st r db → unproven i db = false → pending_interactions i db = [] →
  publishes outcome output recovered → (generation (sched db) < i64_max)%N →
  (head_bytes (settled_head outcome output now (s_head r)) <= MAX_HEADER_BYTES)%N →
  ∃ db' r', scheduled_workflow_settle i outcome (if recovered then RecoveredOwners else NativeExecutor)
      (match outcome with OCompleted => output | _ => None end) now db = Ok (Settled, db') ∧
    records db' !! i = Some r' ∧ s_head r' = settled_head outcome output now (s_head r).
Proof using All.
  intros [Hok Hr Hst Hb _] Hpr Hpend Hpub Hg Hbytes. unfold scheduled_workflow_settle.
  destruct (ok_header db Hok i r Hr) as [Hid _ _ _ _].
  rewrite (read_succeeds _ _ _ Hok Hr Hb). simpl. rewrite Hst, Hpr, Hpend.
  assert (awaits_proof (if recovered then RecoveredOwners else NativeExecutor) st false = false) as -> by (by destruct recovered).
  rewrite (bool_decide_eq_true_2 ([] = [])) by done. cbn [negb].
  assert (Hsave : ∀ d rd, records d !! i = Some rd → generation (sched d) = generation (sched db) →
    ∃ db' r', save_start (settled_head outcome output now (s_head r)) d = Ok db' ∧ records db' !! i = Some r' ∧
      s_head r' = settled_head outcome output now (s_head r)).
  { intros d rd Hd Hgd. destruct (save_succeeds (settled_head outcome output now (s_head r)) d Hbytes) as [db' Hs]; [by rewrite Hgd|].
    assert (Hidh : hd_id (settled_head outcome output now (s_head r)) = i) by (by destruct outcome).
    destruct (saved_head i rd _ d db' Hd Hidh Hs) as (r' & Hr' & Hh & _). by exists db', r'. }
  destruct outcome; try (destruct (Hsave db r Hr eq_refl) as (db' & r' & Hs & Hr' & Hh); exists db', r';
    split_and!; [|done|done]; unfold settled_head in Hs; cbn; by rewrite Hs).
  destruct (Hpub eq_refl) as (-> & v & -> & Hv).
  destruct (Hsave (set_records (alter (set_result (Some v)) i (records db)) db) (set_result (Some v) r)) as (db' & r' & Hs & Hr' & Hh).
  { cbn. by rewrite lookup_alter_eq, Hr. }
  { done. }
  exists db', r'. split_and!; [|done|done]. simpl. rewrite (proj2 (N.ltb_ge _ _) Hv). simpl.
  unfold settled_head in Hs. change (value_digest <$> Some v) with (Some (value_digest v)) in Hs. by rewrite Hs.
Qed.

(** The mark for the operator, written once. *)
Lemma block_succeeds i o t st r db :
  held i o t st r db → (head_bytes (blocked_head (s_head r)) <= MAX_HEADER_BYTES)%N → (generation (sched db) < i64_max)%N →
  ∃ db' r', scheduled_workflow_blocked i BLOCKED db = Ok ((), db') ∧ held i o t st r' db' ∧
    s_head r' = blocked_head (s_head r) ∧ bounded_contract r' = bounded_contract r ∧ same_facts db db' ∧
    generation (sched db') = (generation (sched db) +
      if bool_decide (recovery_blocked (s_head r) = Some (bounded_reason BLOCKED)) then 0 else 1)%N.
Proof using All.
  intros Hh Hbytes Hg. pose proof Hh as [Hok Hr Hst Hb Hfit].
  destruct (ok_header db Hok i r Hr) as [Hid _ _ _ _].
  assert (Heq : scheduled_workflow_blocked i BLOCKED db =
    if bool_decide (recovery_blocked (s_head r) = Some (bounded_reason BLOCKED)) then Ok ((), db)
    else db ← save_start (blocked_head (s_head r)) db; Ok ((), db)).
  { unfold scheduled_workflow_blocked. rewrite (read_succeeds _ _ _ Hok Hr Hb). simpl.
    assert (is_claimed (s_head r) = true) as -> by (apply claimed_iff; eauto). by case_bool_decide. }
  rewrite Heq. case_bool_decide as Eb.
  - exists db, r. split_and!; try done; [|lia]. unfold blocked_head, with_blocked. rewrite <- Eb. by destruct (s_head r).
  - destruct (save_succeeds (blocked_head (s_head r)) db Hbytes Hg) as [db' Hs]. rewrite Hs in *. cbn in Heq.
    destruct (saved_head i r (blocked_head (s_head r)) db db' Hr Hid Hs) as (r' & Hr' & Hhd & Hset).
    destruct Hset as (-> & Hsame & Hgen); [unfold is_settled; cbn; by rewrite Hst|].
    exists db', (set_head (blocked_head (s_head r)) r). split_and!; try done.
    split; try done; [by apply (blocked_moves _ _ _ _ _ Hok Heq)|].
    destruct Hsame as (He & _). unfold effects_of. by rewrite He.
Qed.

Lemma unproven_false i db : unproven i db = false ↔ ∀ e, e ∈ effects_of i db → proven e.
Proof.
  unfold unproven, proven. induction (effects_of i db) as [|x l IH]; cbn; [by split; [intros _ e ?%not_elem_of_nil|]|].
  rewrite orb_false_iff, negb_false_iff, IH. split.
  - intros [Hx Hl] e [->|He]%elem_of_cons; [done|by apply Hl].
  - intros Hl. split; [apply Hl; constructor|]. intros e He. apply Hl. by constructor.
Qed.

(** What a page leaves unproven lies after it. *)
Lemma page_proves i db db' a :
  map eff_ordinal (effects_of i db) = count_to (N.of_nat (length (effects_of i db))) →
  effects_of i db' = settle_rows (map row_key (take 100 (drop (N.to_nat a) (effects_of i db)))) (effects_of i db) →
  (unproven i db = false ∨ ∀ e, e ∈ effects_of i db → (eff_ordinal e <= a)%N → proven e) →
  unproven i db' = false ∨
  (a + 100 < N.of_nat (length (effects_of i db)))%N ∧
  ∀ e, e ∈ effects_of i db' → (eff_ordinal e <= a + 100)%N → proven e.
Proof.
  intros Hnum Heff Hbefore.
  assert (Hin : ∀ e, e ∈ effects_of i db' → (eff_ordinal e <= a + 100)%N → proven e).
  { intros e He Ho. rewrite Heff in He. apply elem_of_settle_rows in He as (y & Hy & _ & Eo & Hpage & Hpy & _).
    destruct Hbefore as [Hall|Hb]; [by apply Hpy; eapply unproven_false|].
    destruct (decide (eff_ordinal y <= a)%N) as [|Hgt]; [by apply Hpy, Hb|].
    apply Hpage, (list_elem_of_fmap_2 row_key). apply list_elem_of_lookup in Hy as [k Hk].
    pose proof (numbered_lookup _ _ _ _ Hnum Hk). apply elem_of_take. exists (k - N.to_nat a). rewrite lookup_drop. split; [|lia].
    by replace (N.to_nat a + (k - N.to_nat a)) with k by lia. }
  destruct (unproven i db') eqn:Eu; [right|by left]. split; [|done].
  apply existsb_exists in Eu as (e & He%list_elem_of_In & Hn%negb_true_iff).
  apply N.nle_gt. intros Hle. assert (Hp : proven e); [|unfold proven in Hp; congruence].
  apply Hin; [done|]. rewrite Heff in He. apply elem_of_settle_rows in He as (y & Hy & _ & -> & _).
  apply list_elem_of_lookup in Hy as [k Hk]. pose proof (numbered_lookup _ _ _ _ Hnum Hk).
  apply lookup_lt_Some in Hk. lia.
Qed.

(** The next turn starts after the page, while rows are left. *)
Lemma next_page_ok i o t st r db a :
  held i o t st r db → (a <= N.of_nat (length (effects_of i db)))%N →
  (next_page i a db <= N.of_nat (length (effects_of i db)))%N ∧
  ((a + 100 <= N.of_nat (length (effects_of i db)))%N → next_page i a db = (a + 100)%N).
Proof using All.
  intros Hh Ha. destruct (held_page _ _ _ _ _ _ a Hh Ha) as (v & Hv & _ & Hn).
  destruct (held_rows _ _ _ _ _ _ Hh) as [_ [Hnum _ _ _]]. unfold next_page. rewrite Hv, Hn.
  rewrite length_take, length_drop. destruct (Nat.eqb_spec (100 `min` (length (effects_of i db) - N.to_nat a)) 100) as [E|E];
    [|split; [cbn; lia|intros; lia]].
  assert (Hl : (N.to_nat a + 99 < length (effects_of i db))%nat) by lia.
  apply lookup_lt_is_Some in Hl as [e He].
  assert (last (take 100 (drop (N.to_nat a) (effects_of i db))) = Some e) as ->.
  { rewrite last_lookup, length_take, length_drop, E. cbn [Nat.pred]. rewrite lookup_take_lt by lia. by rewrite lookup_drop. }
  cbn. rewrite (numbered_lookup _ _ _ _ Hnum He). apply lookup_lt_Some in He. split; intros; lia.
Qed.

(** Whether the mark of [BLOCKED] is still to be written. *)
Definition unmarked (h : ScheduledWorkflowHead) : N :=
  if bool_decide (recovery_blocked h = Some (bounded_reason BLOCKED)) then 0 else 1.

(** What holds of a claimed start with header [h0] before each turn of the loop: [n] turns
    reach every row after [a] and close every interaction, each observation proves the rows
    that are not, and the counters have room. *)
Record awaiting (i o : str) (t : DateTime) (st : bool) (h0 : ScheduledWorkflowHead) (p : option PinnedScheduledWorkflow)
    (recovered : bool) (inputs : list RoundInput) (n : nat) (a : N) (r : StartRecord) (db : StartsDb) : Prop := {
  aw_held : held i o t st r db;
  aw_contract : bounded_contract r = p;
  aw_head : s_head r = h0 ∨ s_head r = blocked_head h0;
  aw_generation : (generation (sched db) + unmarked (s_head r) < i64_max)%N;
  aw_page : (a <= N.of_nat (length (effects_of i db)))%N;
  aw_rows : unproven i db = false ∨
    (∀ e, e ∈ effects_of i db → (eff_ordinal e <= a)%N → proven e) ∧
    (N.of_nat (length (effects_of i db)) <= a + 100 * N.of_nat n)%N;
  aw_pending : (length (pending_interactions i db) <= 100 * n)%nat;
  aw_sequence : (next_event_sequence db + N.of_nat (length (pending_interactions i db)) <= i64_max)%N;
  aw_evident x : x ∈ inputs → evident p (retirement i recovered x) i db;
}.

(** The headers the loop may write. *)
Definition loop_heads (outcome : ScheduledWorkflowOutcome) (output : option json) (inputs : list RoundInput)
    (h : ScheduledWorkflowHead) : list ScheduledWorkflowHead :=
  h :: blocked_head h ::
  map (λ x, settled_head outcome output (round_now x) h) inputs ++
  map (λ x, settled_head (OOutcomeUnknown UNCERTAIN) None (round_now x) h) inputs.

Lemma settled_head_blocked outcome output now h :
  settled_head outcome output now (blocked_head h) = settled_head outcome output now h.
Proof. by destruct outcome. Qed.

(** Proven rows and no interaction: the turn settles the start. *)
Lemma turn_settles i o t st r db outcome output recovered h0 now :
  held i o t st r db → (s_head r = h0 ∨ s_head r = blocked_head h0) →
  unproven i db = false → pending_interactions i db = [] → publishes outcome output recovered →
  (generation (sched db) < i64_max)%N → (head_bytes (settled_head outcome output now h0) <= MAX_HEADER_BYTES)%N →
  ∃ db' r', scheduled_workflow_settle i outcome (if recovered then RecoveredOwners else NativeExecutor)
      (match outcome with OCompleted => output | _ => None end) now db = Ok (Settled, db') ∧
    records db' !! i = Some r' ∧ s_head r' = settled_head outcome output now h0.
Proof using All.
  intros Hh Hhead Hu Hp Hpub Hg Hb.
  assert (E : settled_head outcome output now (s_head r) = settled_head outcome output now h0)
    by (destruct Hhead as [->| ->]; [done|apply settled_head_blocked]).
  rewrite <- E in *. by eapply settle_succeeds.
Qed.

(** The mark keeps what the next turn needs. *)
Lemma turn_marks i o t st h0 p recovered inputs n a r db :
  held i o t st r db → bounded_contract r = p → (s_head r = h0 ∨ s_head r = blocked_head h0) →
  (head_bytes (blocked_head h0) <= MAX_HEADER_BYTES)%N → (generation (sched db) + unmarked (s_head r) < i64_max)%N →
  (a <= N.of_nat (length (effects_of i db)))%N →
  unproven i db = false ∨ (a + 100 < N.of_nat (length (effects_of i db)))%N ∧
    (∀ e, e ∈ effects_of i db → (eff_ordinal e <= a + 100)%N → proven e) ∧
    (N.of_nat (length (effects_of i db)) <= a + 100 + 100 * N.of_nat n)%N →
  (length (pending_interactions i db) <= 100 * n)%nat →
  (next_event_sequence db + N.of_nat (length (pending_interactions i db)) <= i64_max)%N →
  (∀ x, x ∈ inputs → evident p (retirement i recovered x) i db) →
  ∃ r', awaiting i o t st h0 p recovered inputs n (next_page i a (committed (scheduled_workflow_blocked i BLOCKED db) db)) r'
    (committed (scheduled_workflow_blocked i BLOCKED db) db).
Proof using All.
  intros Hh Hp Hhead Hb Hg Ha Hrows Hpend Hseq Hev.
  destruct (block_succeeds i o t st r db Hh) as (db' & r' & -> & Hh' & Hhd & Hct & (He & Hj & Hau & Hs) & Hgen).
  { by destruct Hhead as [->| ->]. }
  { lia. }
  assert (Heff : effects_of i db' = effects_of i db) by (unfold effects_of; by rewrite He).
  assert (Hun : unproven i db' = unproven i db) by (unfold unproven; by rewrite Heff).
  assert (Hpe : pending_interactions i db' = pending_interactions i db).
  { unfold pending_interactions, unanswered, has_event. by rewrite Hj. }
  cbn [committed]. exists r'. destruct (next_page_ok i o t st r' db' a Hh') as [Hpage Hnext]; [by rewrite Heff|].
  split; rewrite ?Heff, ?Hun, ?Hpe, ?Hs in *; try done.
  - by rewrite Hct.
  - right. rewrite Hhd. by destruct Hhead as [->| ->].
  - rewrite Hhd, Hgen. unfold unmarked in *. rewrite (bool_decide_eq_true_2 (recovery_blocked (blocked_head _) = _)) by done. lia.
  - destruct Hrows as [|(Hlt & Hpr & Hlen)]; [by left|right]. rewrite Hnext by lia. done.
  - intros x Hx e. rewrite Heff. intros Hin. destruct (Hev x Hx e Hin) as [|Hpr]; [by left|right].
    rewrite <- Hpr. by apply effect_proven_ext.
Qed.

(** More than one page of receipts or of interactions. *)
Definition beyond_page (i : str) (db : StartsDb) : Prop :=
  (100 < length (effects_of i db))%nat ∨ (100 < length (pending_interactions i db))%nat.

(** One turn: it settles the start, or [n] turns still suffice. *)
Lemma turn i o t st h0 p outcome output recovered inputs n a r db x (uncertain : bool) :
  awaiting i o t st h0 p recovered inputs (S n) a r db → x ∈ inputs → scope_closed x || recovered = true →
  publishes outcome output recovered →
  (∀ h, h ∈ loop_heads outcome output inputs h0 → (head_bytes h <= MAX_HEADER_BYTES)%N) →
  (∃ db' r', finish_round i outcome output recovered x uncertain a db = (None, db') ∧ records db' !! i = Some r' ∧
     s_head r' = if uncertain then settled_head (OOutcomeUnknown UNCERTAIN) None (round_now x) h0
                 else settled_head outcome output (round_now x) h0) ∨
  (∃ a' db' r', finish_round i outcome output recovered x uncertain a db = (Some (true, a'), db') ∧
     awaiting i o t st h0 p recovered inputs n a' r' db' ∧ n ≠ 0 ∧ beyond_page i db).
Proof using All.
  intros [Hh Hp Hhead Hg Ha Hrows Hpend Hseq Hev] Hx Hcl Hpub Hbytes.
  assert (Hb1 : (head_bytes (blocked_head h0) <= MAX_HEADER_BYTES)%N) by (apply Hbytes; unfold loop_heads; constructor; constructor).
  assert (Hb2 : (head_bytes (settled_head outcome output (round_now x) h0) <= MAX_HEADER_BYTES)%N).
  { apply Hbytes. unfold loop_heads. do 2 constructor 2. apply elem_of_app. left. apply list_elem_of_fmap. by exists x. }
  assert (Hb3 : (head_bytes (settled_head (OOutcomeUnknown UNCERTAIN) None (round_now x) h0) <= MAX_HEADER_BYTES)%N).
  { apply Hbytes. unfold loop_heads. do 2 constructor 2. apply elem_of_app. right. apply list_elem_of_fmap. by exists x. }
  destruct (recover_pass i o t st r db a (retirement i recovered x) Hh Ha eq_refl Hcl) as
    (db1 & Hrec & Hh1 & Hsched & Heff & Hpe & Hseq1 & Hev1); [rewrite Hp; by apply Hev|done|].
  unfold finish_round. rewrite (held_get _ _ _ _ _ _ Hh). cbn [start].
  assert (is_settled (s_head r) = false) as -> by (unfold is_settled; by rewrite (held_claim _ _ _ _ _ _ Hh)).
  rewrite Hrec. cbn [snd].
  assert (Hlen : length (effects_of i db1) = length (effects_of i db)) by (rewrite Heff; apply length_map).
  destruct (held_rows _ _ _ _ _ _ Hh) as [_ [Hnum _ _ _]].
  assert (Hproves := page_proves i db db1 a Hnum Heff ltac:(destruct Hrows as [?|[? _]]; auto)).
  assert (Hgs : (generation (sched db1) < i64_max)%N) by (rewrite Hsched; lia).
  destruct (decide (unproven i db1 = false ∧ pending_interactions i db1 = [])) as [[Hu Hpn]|Hwait].
  - left. destruct uncertain.
    + destruct (turn_settles i o t st r db1 (OOutcomeUnknown UNCERTAIN) None recovered h0 (round_now x) Hh1 Hhead Hu Hpn)
        as (db2 & r2 & Hs & Hr2 & Hhd); [done..|]. exists db2, r2. by rewrite Hs.
    + destruct (turn_settles i o t st r db1 outcome output recovered h0 (round_now x) Hh1 Hhead Hu Hpn)
        as (db2 & r2 & Hs & Hr2 & Hhd); [done..|]. exists db2, r2. by rewrite Hs.
  - right. assert (Hw : unproven i db1 = true ∨ pending_interactions i db1 ≠ []).
    { destruct (unproven i db1); [by left|right]. intros E. by destruct Hwait. }
    rewrite (settle_awaits i o t st r db1 _ _ _ _ Hh1); [|by destruct recovered|done].
    assert (Hp1 : length (pending_interactions i db1) = length (pending_interactions i db) - 100) by (by rewrite Hpe, length_drop).
    destruct (turn_marks i o t st h0 p recovered inputs n a r db1 Hh1 Hp Hhead Hb1) as [r2 Haw].
    + by rewrite Hsched.
    + by rewrite Hlen.
    + destruct Hproves as [|[Hlt Hpr]]; [by left|]. destruct Hrows as [Hall|[_ Hle]].
      * left. apply unproven_false. intros e He. rewrite Heff in He. apply elem_of_settle_rows in He as (y & Hy & _ & _ & _ & Hpy & _).
        apply Hpy. by eapply unproven_false.
      * right. rewrite Hlen. split_and!; [done|done|lia].
    + lia.
    + done.
    + intros y Hy. rewrite <- Hp. apply Hev1. rewrite Hp. by apply Hev.
    + eexists _, _, r2. split; [done|]. split; [done|].
      destruct Hw as [Hu|Hn].
      * destruct Hproves as [?|[Hlt _]]; [congruence|]. split; [|left; lia].
        destruct Hrows as [Hall|[_ Hle]]; [|lia]. exfalso.
        assert (Hf : unproven i db1 = false); [|congruence].
        apply unproven_false. intros e He. rewrite Heff in He. apply elem_of_settle_rows in He as (y & Hy & _ & _ & _ & Hpy & _).
        apply Hpy. by eapply unproven_false.
      * assert (length (pending_interactions i db1) ≠ 0) by (by destruct (pending_interactions i db1)).
        split; [lia|right; lia].
Qed.

Lemma turns i o t st h0 p outcome output recovered all inputs a r db uncertain :
  awaiting i o t st h0 p recovered all (length inputs) a r db → inputs ≠ [] → (∀ x, x ∈ inputs → x ∈ all) →
  (∀ x, x ∈ all → scope_closed x || recovered = true) → publishes outcome output recovered →
  (∀ h, h ∈ loop_heads outcome output all h0 → (head_bytes h <= MAX_HEADER_BYTES)%N) →
  ∃ db' r' x, finish_rounds i outcome output recovered inputs uncertain a db = (true, db') ∧
    records db' !! i = Some r' ∧ x ∈ all ∧
    (uncertain = false ∧ s_head r' = settled_head outcome output (round_now x) h0 ∨
     (uncertain = true ∨ beyond_page i db) ∧ s_head r' = settled_head (OOutcomeUnknown UNCERTAIN) None (round_now x) h0).
Proof using All.
  revert a r db uncertain. induction inputs as [|x inputs IH]; intros a r db uncertain Haw Hne Hall Hcl Hpub Hbytes; [done|].
  assert (Hx : x ∈ all) by (apply Hall; constructor).
  destruct (turn i o t st h0 p outcome output recovered all (length inputs) a r db x uncertain Haw Hx (Hcl x Hx) Hpub Hbytes)
    as [(db' & r' & Hr & Hr' & Hhd)|(a' & db' & r' & Hr & Haw' & Hn & Hbe)]; cbn [finish_rounds]; rewrite Hr.
  - exists db', r', x. split_and!; [done..|]. destruct uncertain; [right|left]; split; auto.
  - destruct (IH a' r' db' true Haw') as (db2 & r2 & y & Hf & Hr2 & Hy & Hhd); [by destruct inputs|..|done|done|done|].
    { intros y Hy. apply Hall. by constructor. }
    exists db2, r2, y. split_and!; [done..|]. right. split; [by right|]. by destruct Hhd as [[? _]|[_ ?]].
Qed.

(** C24 The loop of a finished or recovered start settles it.  When evidence of the native
    owners proves every receipt of a claimed start, its interaction scope has retired, and
    rows, headers and counters are within their bounds, [finish_scheduled_start] returns
    after at most one turn for every hundred receipts and every hundred unanswered
    interactions: the start is settled, with the outcome of the execution, or, when one page
    was not enough, with the unknown outcome of uncertain ownership. *)
Theorem finish_settles c db i r o t st outcome output recovered inputs :
  starts_reachable c db → records db !! i = Some r → hd_state (s_head r) = SClaimed o t st →
  Forall fits (effects_of i db) →
  (∀ h, h ∈ loop_heads outcome output inputs (s_head r) → (head_bytes h <= MAX_HEADER_BYTES)%N) →
  publishes outcome output recovered →
  (∀ x, x ∈ inputs → scope_closed x || recovered = true ∧ evident (bounded_contract r) (retirement i recovered x) i db) →
  inputs ≠ [] → (length (effects_of i db) <= 100 * length inputs)%nat →
  (length (pending_interactions i db) <= 100 * length inputs)%nat →
  (generation (sched db) + 1 < i64_max)%N →
  (next_event_sequence db + N.of_nat (length (pending_interactions i db)) <= i64_max)%N →
  ∃ db' r' x, finish_scheduled_start i outcome output recovered inputs db = (true, db') ∧ starts_reachable c db' ∧
    records db' !! i = Some r' ∧ x ∈ inputs ∧
    (s_head r' = settled_head outcome output (round_now x) (s_head r) ∨
     beyond_page i db ∧ s_head r' = settled_head (OOutcomeUnknown UNCERTAIN) None (round_now x) (s_head r)).
Proof using All.
  intros Hreach Hr Hst Hfit Hbytes Hpub Hin Hne Hrows Hpend Hg Hseq.
  assert (Haw : awaiting i o t st (s_head r) (bounded_contract r) recovered inputs (length inputs) 0 r db).
  { split; try done; [|by left|..].
    - split; try done; [by eapply starts_reachable_ok|]. apply Hbytes. unfold loop_heads. constructor.
    - unfold unmarked. case_bool_decide; lia.
    - lia.
    - right. destruct (ok_life db (starts_reachable_ok _ _ Hreach) i r Hr) as [_ [Hnum _ _ _]]. split; [|lia].
      intros e He Ho. apply list_elem_of_lookup in He as [k Hk]. pose proof (numbered_lookup _ _ _ _ Hnum Hk). lia.
    - intros x Hx. by apply Hin. }
  destruct (turns i o t st (s_head r) _ outcome output recovered inputs inputs 0 r db false Haw Hne) as (db' & r' & x & Hf & Hr' & Hx & Hhd);
    [done|intros; by apply Hin|done|done|].
  exists db', r', x. split_and!; [done| |done|done|].
  - unfold starts_reachable in *. etrans; [done|]. by eapply finish_rounds_runs.
  - destruct Hhd as [[_ ?]|[[?|?] ?]]; [by left|done|by right].
Qed.
End settling.

(** ** Examples *)

Section examples.
#[local] Existing Instance minutes.
#[local] Existing Instance demo_env.
#[local] Existing Instance demo_starts.

(** The executor closed the scope of its only interaction. *)
Definition demo_round : RoundInput :=
  {| agents_quiescent := false; scope_closed := true; round_now := seconds 110 |}.

Lemma finish_settles_witness :
  effects_of demo_id (snd demo_asked) ≠ [] ∧ pending_interactions demo_id (snd demo_asked) ≠ [] ∧
  ∃ db', finish_scheduled_start demo_id OCompleted (Some Null) false [demo_round] (snd demo_asked) = (true, db').
Proof.
  split; [done|]. split; [by vm_compute|].
  assert (Hr : ∃ r, records (snd demo_asked) !! demo_id = Some r ∧ hd_state (s_head r) = SClaimed (lit "o") (seconds 101) true).
  { eexists. split; vm_compute; reflexivity. }
  destruct Hr as (r & Hr & Hst).
  destruct (@finish_settles minutes minutes_laws demo_env demo_starts demo_starts_laws (lit "c") (snd demo_asked) demo_id r
    (lit "o") (seconds 101) true OCompleted (Some Null) false [demo_round]) as (db' & r' & x & Hf & _); try done.
  - apply demo_asked_reachable.
  - repeat constructor; by vm_compute.
  - intros _. split; [done|]. exists Null. split; [done|]. by vm_compute.
  - intros x ->%list_elem_of_singleton. split; [done|]. intros e [->|[]%not_elem_of_nil]%elem_of_cons. right. by vm_compute.
  - apply Nat.leb_le. by vm_compute.
  - apply Nat.leb_le. by vm_compute.
  - by exists db'.
Defined.
End examples.
