(* ===== verification/Questionnaire.v ===== *)
(** The questionnaire vocabulary and its validation ([src/src/events/interaction.rs],
    [events/review.rs]): what may be asked, what may be answered, the canonical form of a
    submission, and the rules for the durable request and settlement of an interaction.

    The digests, serde's encodings and the date and URI parsers are the classes [Digests] and
    [Formats].  A message is the text the source builds. *)

From S2P Require Import Prelude Text Json Goal Message Scalars Inbox Schedule ScheduleStore ScheduledStart Attempt.
From stdpp Require Import options.

(** ** Bounds *)

Definition MAX_QUESTIONNAIRE_QUESTIONS : N := 4.
Definition MIN_CHOICE_OPTIONS : N := 1.
Definition MAX_CHOICE_OPTIONS : N := 12.
Definition MAX_QUESTION_TEXT_CHARS : N := 4096.
Definition MAX_QUESTION_HEADER_CHARS : N := 16.
Definition MAX_OPTION_LABEL_CHARS : N := 60.
Definition MAX_OPTION_DESCRIPTION_CHARS : N := 1024.
Definition MAX_OPTION_PREVIEW_CHARS : N := 8192.
Definition MAX_CUSTOM_ANSWER_CHARS : N := 4096.
Definition MAX_TEXT_ANSWER_CHARS : N := 4096.
Definition MAX_REQUESTER_TOOL_NAME_CHARS : N := 256.
Definition MAX_APPROVAL_REQUEST_REASON_CHARS : N := 1024.
Definition MAX_APPROVAL_DENIAL_REASON_CHARS : N := 1024.
Definition MAX_APPROVAL_TOOL_NAME_CHARS : N := 256.
Definition RESERVED_OPTION_LABELS : list str := map lit ["Other"; "Type something."; "Next"]%string.
Definition ARGUMENTS_DIGEST_DOMAIN : str := lit "rustx-interaction-arguments-v1" ++ [10%N].
Definition DIGEST_HEX_CHARS : N := 64.

(** ** Questions *)

Inductive ToolOrigin :=
| OriginBuiltin
| OriginMcp (server_id : str)
| OriginManagedPython (package : str).

Record InteractionRequester := { tool_id : ToolId; tool_name : str; origin : ToolOrigin }.

Record OptionSpecification := { label : str; description : str; preview : option str }.

Inductive TextFormat := FDate | FDateTime | FUri.

Record TextAnswerSpecification := {
  min_length : option N; max_length : option N; format : option TextFormat }.
Record NumberAnswerSpecification := {
  number_minimum : option FiniteNumber; number_maximum : option FiniteNumber }.
Record IntegerAnswerSpecification := {
  integer_minimum : option ExactInteger; integer_maximum : option ExactInteger }.
Record SingleChoiceSpecification := {
  single_options : list OptionSpecification; single_allow_custom : bool }.
Record MultiChoiceSpecification := {
  multi_options : list OptionSpecification; min_selected : N; max_selected : N;
  multi_allow_custom : bool }.

Inductive AnswerSpecification :=
| SText (text : TextAnswerSpecification)
| SNumber (number : NumberAnswerSpecification)
| SInteger (integer : IntegerAnswerSpecification)
| SBoolean
| SSingle (single : SingleChoiceSpecification)
| SMulti (multi : MultiChoiceSpecification).

Record QuestionSpecification := { question : str; header : str; answer : AnswerSpecification }.
Record QuestionnaireSpecification := { questions : list QuestionSpecification }.

(** ** Answers *)

Inductive QuestionnaireAnswer :=
| AText (value : str)
| ANumber (value : FiniteNumber)
| AInteger (value : ExactInteger)
| ABoolean (value : bool)
| AOption (option_index : N)
| AOptions (option_indices : list N)
| ACustom (custom : str).

Record QuestionnaireAnswerEntry := { question_index : N; entry_answer : QuestionnaireAnswer }.
Record QuestionnaireSubmission := { answers : list QuestionnaireAnswerEntry }.

Inductive QuestionnaireResponse :=
| Submitted (submission : QuestionnaireSubmission)
| Declined.

Record ReviewSpecification := {
  review_instance : WorkflowNodeInstance; review_questionnaire : QuestionnaireSpecification }.
Record ReviewResponse := {
  response_instance : WorkflowNodeInstance; response_digest : str;
  response_submission : QuestionnaireSubmission }.

(** ** The durable facts of an interaction *)

Inductive InteractionSubject :=
| SubjectReview (review : ReviewSpecification)
| SubjectApproval (invocation_id : ToolInvocationId) (approved_tool : ToolId) (approved_name : str)
    (arguments_digest reason : str)
| SubjectQuestionnaire (invocation_id : ToolInvocationId) (requester : InteractionRequester)
    (questionnaire : QuestionnaireSpecification).

Inductive InteractionSettlement :=
| Reviewed (response : ReviewResponse)
| SettledDeadline (kind : ToolDeadlineKind)
| Approved
| SettledDenied (denial : str)
| QuestionnaireSubmitted (submission : QuestionnaireSubmission)
| QuestionnaireDeclined
| SettledCancelled (reason : CancellationReason).

#[export] Instance OptionSpecification_eq_dec : EqDecision OptionSpecification.
Proof. solve_decision. Defined.
#[export] Instance TextFormat_eq_dec : EqDecision TextFormat.
Proof. solve_decision. Defined.
#[export] Instance QuestionnaireAnswer_eq_dec : EqDecision QuestionnaireAnswer.
Proof. solve_decision. Defined.
#[export] Instance QuestionnaireAnswerEntry_eq_dec : EqDecision QuestionnaireAnswerEntry.
Proof. solve_decision. Defined.
#[export] Instance QuestionnaireSubmission_eq_dec : EqDecision QuestionnaireSubmission.
Proof. solve_decision. Defined.

(** [AnswerSpecification::options] *)
Definition spec_options (s : AnswerSpecification) : list OptionSpecification :=
  match s with
  | SSingle single => single_options single
  | SMulti multi => multi_options multi
  | SText _ | SNumber _ | SInteger _ | SBoolean => []
  end.

(** [AnswerSpecification::allows_custom] *)
Definition allows_custom (s : AnswerSpecification) : bool :=
  match s with
  | SSingle single => single_allow_custom single
  | SMulti multi => multi_allow_custom multi
  | SText _ | SNumber _ | SInteger _ | SBoolean => false
  end.

(** chrono's [NaiveDate::parse_from_str(_, "%Y-%m-%d")] and [parse_from_rfc3339], and
    [url::Url::parse]: whether they accept a text. *)
Class Formats := {
  date_accepted : str → bool;
  date_time_accepted : str → bool;
  uri_accepted : str → bool;
}.

(** SHA-256 of the UTF-8 bytes of a text, the text of a JSON value, serde's value of a review
    and the length of its encoding of a node instance. *)
Class Digests := {
  sha256 : str → list N;
  json_text : json → str;
  review_value : ReviewSpecification → json;
  instance_bytes : WorkflowNodeInstance → result str N;
}.

(** ** Validating a questionnaire *)

Definition chars_count (s : str) : N := N.of_nat (length s).
Definition en_dash : str := [8211%N].

Definition validate_text (value name : str) (max : N) : result str () :=
  guard_err (bool_decide (trim value = []))
    (name ++ lit " must contain non-whitespace text. Supply meaningful text.");;
  guard_err (max <? chars_count value)%N
    (name ++ lit " exceeds " ++ dec max ++ lit " characters. Shorten this field.").

Definition is_reserved_option_label (l : str) : bool := bool_decide (l ∈ RESERVED_OPTION_LABELS).

(** The body of the loop of [validate_choice_options], [labels] the labels so far. *)
Fixpoint validate_options (allow_custom multi_select : bool) (context : str) (option_index : N)
    (labels : gmap str N) (options : list OptionSpecification) : result str () :=
  match options with
  | [] => Ok ()
  | option :: rest =>
      let here := context ++ lit ".options[" ++ dec option_index ++ lit "]" in
      validate_text (label option) (here ++ lit ".label") MAX_OPTION_LABEL_CHARS;;
      guard_err (allow_custom && is_reserved_option_label (label option))
        (here ++ lit ".label is reserved for the runtime's custom-answer controls. Replace it with a distinct authored choice; the runtime supplies the custom-answer choice.");;
      match labels !! label option with
      | Some previous_index =>
          Err (here ++ lit ".label duplicates " ++ context ++ lit ".options[" ++ dec previous_index ++
               lit "].label. Option labels must be unique within each question. Change one of the conflicting labels.")
      | None =>
          (if bool_decide (description option = []) then Ok ()
           else validate_text (description option) (here ++ lit ".description") MAX_OPTION_DESCRIPTION_CHARS);;
          match preview option with
          | Some preview =>
              validate_text preview (here ++ lit ".preview") MAX_OPTION_PREVIEW_CHARS;;
              guard_err multi_select
                (here ++ lit ".preview is not allowed for multi-select questions. Remove the preview or use a single-select question.")
          | None => Ok ()
          end;;
          validate_options allow_custom multi_select context (option_index + 1)
            (<[label option := option_index]> labels) rest
      end
  end.

Definition validate_choice_options (options : list OptionSpecification) (allow_custom multi_select : bool)
    (context : str) : result str () :=
  let count := N.of_nat (length options) in
  guard_err (negb ((MIN_CHOICE_OPTIONS <=? count) && (count <=? MAX_CHOICE_OPTIONS))%N)
    (context ++ lit ".options must contain " ++ dec MIN_CHOICE_OPTIONS ++ en_dash ++
     dec MAX_CHOICE_OPTIONS ++ lit " options. Adjust the option count.");;
  validate_options allow_custom multi_select context 0 ∅ options.

(** [if let (Some(a), Some(b)) = ... && p(a, b)] *)
Definition both {A} (p : A → A → bool) (a b : option A) : bool :=
  match a, b with Some a, Some b => p a b | _, _ => false end.
Definition holds {A} (p : A → bool) (a : option A) : bool :=
  match a with Some a => p a | None => false end.

Definition validate_answer_specification (s : AnswerSpecification) (context : str) : result str () :=
  match s with
  | SText text =>
      guard_err (holds (λ max, MAX_TEXT_ANSWER_CHARS <? max)%N (max_length text))
        (context ++ lit " max_length exceeds the " ++ dec MAX_TEXT_ANSWER_CHARS ++ lit "-character bound");;
      guard_err (both (λ min max, max <? min)%N (min_length text) (max_length text))
        (context ++ lit " min_length exceeds its max_length");;
      guard_err (holds (λ min, MAX_TEXT_ANSWER_CHARS <? min)%N (min_length text))
        (context ++ lit " min_length exceeds the " ++ dec MAX_TEXT_ANSWER_CHARS ++ lit "-character bound")
  | SNumber number =>
      guard_err (both (λ min max, f64_gt (to_bits min) (to_bits max)) (number_minimum number) (number_maximum number))
        (context ++ lit " minimum exceeds its maximum")
  | SInteger integer =>
      guard_err (both (λ min max, get max <? get min)%Z (integer_minimum integer) (integer_maximum integer))
        (context ++ lit " minimum exceeds its maximum")
  | SBoolean => Ok ()
  | SSingle single => validate_choice_options (single_options single) (single_allow_custom single) false context
  | SMulti multi =>
      validate_choice_options (multi_options multi) (multi_allow_custom multi) true context;;
      guard_err (max_selected multi <? min_selected multi)%N (context ++ lit " min_selected exceeds its max_selected");;
      guard_err (N.min (N.of_nat (length (multi_options multi))) u32_max <? max_selected multi)%N
        (context ++ lit " max_selected exceeds its declared option count")
  end.

(** The body of the loop of [validate_questionnaire], [texts] the questions so far. *)
Fixpoint validate_questions (question_index : N) (texts : gmap str N) (qs : list QuestionSpecification)
    : result str () :=
  match qs with
  | [] => Ok ()
  | q :: rest =>
      let here := lit "questions[" ++ dec question_index ++ lit "]" in
      validate_text (question q) (here ++ lit ".question") MAX_QUESTION_TEXT_CHARS;;
      match texts !! question q with
      | Some previous_index =>
          Err (here ++ lit ".question duplicates questions[" ++ dec previous_index ++
               lit "].question. Question text must be unique within one questionnaire. Rewrite one of the conflicting questions.")
      | None =>
          validate_text (header q) (here ++ lit ".header") MAX_QUESTION_HEADER_CHARS;;
          validate_answer_specification (answer q) here;;
          validate_questions (question_index + 1) (<[question q := question_index]> texts) rest
      end
  end.

Definition validate_questionnaire (q : QuestionnaireSpecification) : result str () :=
  let count := N.of_nat (length (questions q)) in
  guard_err ((count =? 0) || (MAX_QUESTIONNAIRE_QUESTIONS <? count))%N
    (lit "questions must contain 1" ++ en_dash ++ dec MAX_QUESTIONNAIRE_QUESTIONS ++
     lit " questions. Adjust the question count.");;
  validate_questions 0 ∅ (questions q).

(** ** Validating answers *)

(** [BTreeSet<usize>], read in ascending order *)
Definition ascending_indices (X : gset N) : list N := merge_sort N.le (elements X).

(** The order of [sort_by_key(|entry| entry.question_index)] *)
Definition entry_le (a b : QuestionnaireAnswerEntry) : Prop := (question_index a <= question_index b)%N.
#[export] Instance entry_le_dec : RelDecision entry_le.
Proof. intros a b. unfold entry_le. apply _. Defined.

Section answers.
Context `{Formats}.

Definition format_accepts (f : TextFormat) (value : str) : bool :=
  match f with
  | FDate => date_accepted value
  | FDateTime => date_time_accepted value
  | FUri => uri_accepted value
  end.

(** [TextFormat::validate] *)
Definition text_format_validate (f : TextFormat) (value : str) : result str () :=
  guard_err (negb (format_accepts f value))
    (lit "the answer is not a valid " ++
     match f with
     | FDate => lit "date (YYYY-MM-DD)"
     | FDateTime => lit "RFC 3339 date-time"
     | FUri => lit "absolute URI"
     end ++ lit " value").

(** The loop of [validate_answer] over the selected options, [selected] those so far. *)
Fixpoint select_options (count : N) (selected : gset N) (indices : list N) : result str (gset N) :=
  match indices with
  | [] => Ok selected
  | index :: rest =>
      guard_err (count <=? index)%N (lit "a selected option index is out of range");;
      guard_err (bool_decide (index ∈ selected)) (lit "a selected option index is duplicated");;
      select_options count ({[index]} ∪ selected) rest
  end.

Definition validate_custom (custom : str) : result str () :=
  validate_text custom (lit "custom answer") MAX_CUSTOM_ANSWER_CHARS.

Definition validate_answer (q : QuestionSpecification) (question_index : N) (a : QuestionnaireAnswer)
    : result str QuestionnaireAnswer :=
  let out_of_range detail := lit "question index " ++ dec question_index ++ lit ": " ++ detail in
  match answer q, a with
  | SText spec, AText text =>
      let length := chars_count text in
      guard_err (MAX_TEXT_ANSWER_CHARS <? length)%N
        (out_of_range (lit "the text answer exceeds " ++ dec MAX_TEXT_ANSWER_CHARS ++ lit " characters"));;
      match min_length spec with
      | Some min => guard_err (length <? min)%N
          (out_of_range (lit "the text answer is shorter than its " ++ dec min ++ lit "-character minimum"))
      | None => Ok ()
      end;;
      match max_length spec with
      | Some max => guard_err (max <? length)%N
          (out_of_range (lit "the text answer is longer than its " ++ dec max ++ lit "-character maximum"))
      | None => Ok ()
      end;;
      match format spec with
      | Some f => map_err out_of_range (text_format_validate f text)
      | None => Ok ()
      end;;
      Ok (AText text)
  | SNumber spec, ANumber number =>
      guard_err (holds (λ min, f64_lt (to_bits number) (to_bits min)) (number_minimum spec))
        (out_of_range (lit "the number is below its declared minimum"));;
      guard_err (holds (λ max, f64_gt (to_bits number) (to_bits max)) (number_maximum spec))
        (out_of_range (lit "the number is above its declared maximum"));;
      Ok (ANumber number)
  | SInteger spec, AInteger integer =>
      guard_err (holds (λ min, get integer <? get min)%Z (integer_minimum spec))
        (out_of_range (lit "the integer is below its declared minimum"));;
      guard_err (holds (λ max, get max <? get integer)%Z (integer_maximum spec))
        (out_of_range (lit "the integer is above its declared maximum"));;
      Ok (AInteger integer)
  | SBoolean, ABoolean boolean => Ok (ABoolean boolean)
  | SSingle single, AOption option_index =>
      guard_err (N.of_nat (length (single_options single)) <=? option_index)%N
        (out_of_range (lit "the selected option index is out of range"));;
      Ok (AOption option_index)
  | SMulti multi, AOptions option_indices =>
      selected ← map_err out_of_range
        (select_options (N.of_nat (length (multi_options multi))) ∅ option_indices);
      let count := N.min (N.of_nat (size selected)) u32_max in
      guard_err (count <? min_selected multi)%N
        (out_of_range (lit "the answer selects " ++ dec count ++ lit " options, below its " ++
                       dec (min_selected multi) ++ lit " minimum"));;
      guard_err (max_selected multi <? count)%N
        (out_of_range (lit "the answer selects " ++ dec count ++ lit " options, above its " ++
                       dec (max_selected multi) ++ lit " maximum"));;
      Ok (AOptions (ascending_indices selected))
  | spec, ACustom custom =>
      guard_err (negb (allows_custom spec)) (out_of_range (lit "the question does not allow a free-text answer"));;
      validate_custom custom;;
      Ok (ACustom custom)
  | _, _ => Err (lit "question index " ++ dec question_index ++ lit " does not accept an answer of that kind")
  end.

(** The loop of [normalize_questionnaire_submission]: [seen] the indices so far. *)
Fixpoint normalize_entries (qs : list QuestionSpecification) (seen : gset N)
    (entries : list QuestionnaireAnswerEntry) : result str (list QuestionnaireAnswerEntry) :=
  match entries with
  | [] => Ok []
  | entry :: rest =>
      let i := question_index entry in
      q ← ok_or (lit "question index " ++ dec i ++ lit " is out of range") (qs !! N.to_nat i);
      guard_err (bool_decide (i ∈ seen)) (lit "question index " ++ dec i ++ lit " appears more than once");;
      a ← validate_answer q i (entry_answer entry);
      rest ← normalize_entries qs ({[i]} ∪ seen) rest;
      Ok ({| question_index := i; entry_answer := a |} :: rest)
  end.

Definition normalize_questionnaire_submission (q : QuestionnaireSpecification) (s : QuestionnaireSubmission)
    : result str QuestionnaireSubmission :=
  validate_questionnaire q;;
  entries ← normalize_entries (questions q) ∅ (answers s);
  Ok {| answers := merge_sort entry_le entries |}.

Definition normalize_questionnaire_response (q : QuestionnaireSpecification) (r : QuestionnaireResponse)
    : result str QuestionnaireResponse :=
  match r with
  | Declined => validate_questionnaire q;; Ok Declined
  | Submitted s =>
      s ← normalize_questionnaire_submission q s;
      Ok (if bool_decide (answers s = []) then Declined else Submitted s)
  end.

(** ** Subjects and settlements *)

Context `{Digests}.

(** [interaction_arguments_digest]: the lowercase hexadecimal digest *)
Definition interaction_arguments_digest (arguments : json) : str :=
  concat (map (hex_fixed 2) (sha256 (ARGUMENTS_DIGEST_DOMAIN ++ json_text arguments))).

Definition is_canonical_digest (value : str) : bool :=
  (len value =? DIGEST_HEX_CHARS)%N && bytes_all is_lower_hex value.

(** [ReviewSpecification::digest] *)
Definition review_digest (r : ReviewSpecification) : str := interaction_arguments_digest (review_value r).

(** [ReviewSpecification::validate] *)
Definition review_validate (r : ReviewSpecification) : result str () :=
  bytes ← instance_bytes (review_instance r);
  guard_err (8192 <? bytes)%N (lit "Review instance exceeds 8192 bytes");;
  validate_questionnaire (review_questionnaire r).

(** [ReviewSpecification::new] *)
Definition review_new (instance : WorkflowNodeInstance) (content : str) (actions : list str)
    : ReviewSpecification :=
  {| review_instance := instance;
     review_questionnaire := {| questions := [{|
       question := content; header := take 16 (node instance);
       answer := SSingle {|
         single_options := map (λ title, {| label := title; description := []; preview := None |}) actions;
         single_allow_custom := false |} |}] |} |}.

(** [ReviewSpecification::choose] *)
Definition choose (r : ReviewSpecification) (index : N) : ReviewResponse :=
  {| response_instance := review_instance r; response_digest := review_digest r;
     response_submission := {| answers :=
       [{| question_index := saturating_sub (N.of_nat (length (questions (review_questionnaire r)))) 1;
           entry_answer := AOption index |}] |} |}.

(** [ReviewSpecification::validate_response] *)
Definition review_validate_response (r : ReviewSpecification) (response : ReviewResponse) : result str N :=
  guard_err (bool_decide (response_instance response ≠ review_instance r) ||
             bool_decide (response_digest response ≠ review_digest r))
    (lit "Review response names a different instance or subject");;
  submission ← normalize_questionnaire_submission (review_questionnaire r) (response_submission response);
  guard_err (negb (length (answers submission) =? length (questions (review_questionnaire r)))%nat)
    (lit "Review response must answer every question");;
  match entry_answer <$> last (answers submission) with
  | Some (AOption option_index) => Ok option_index
  | _ => Err (lit "Review response must choose one action")
  end.

(** [InteractionRequester::validate] *)
Definition requester_validate (r : InteractionRequester) : result str () :=
  guard_err (bool_decide (tool_id r = [])) (lit "interaction requester must name a non-empty tool id");;
  validate_text (tool_name r) (lit "interaction requester tool name") MAX_REQUESTER_TOOL_NAME_CHARS.

(** [ToolInvocationId::canonical_call_id] *)
Definition canonical_call_id (i : ToolInvocationId) : option ToolCallId :=
  match i with IAgent call_id => Some call_id | IWorkflow _ _ => None end.

Definition validate_interaction_subject (s : InteractionSubject) : result str () :=
  match s with
  | SubjectReview review => review_validate review
  | SubjectApproval invocation_id tool_id tool_name arguments_digest reason =>
      guard_err (holds (λ id, bool_decide (id = [])) (canonical_call_id invocation_id))
        (lit "approval subject must name a non-empty tool call");;
      guard_err (bool_decide (tool_id = [])) (lit "approval subject must name a non-empty tool id");;
      validate_text tool_name (lit "approval tool name") MAX_APPROVAL_TOOL_NAME_CHARS;;
      guard_err (negb (is_canonical_digest arguments_digest))
        (lit "approval arguments digest must be a lowercase hex SHA-256 digest");;
      guard_err (MAX_APPROVAL_REQUEST_REASON_CHARS <? chars_count reason)%N
        (lit "approval request reason exceeds " ++ dec MAX_APPROVAL_REQUEST_REASON_CHARS ++ lit " characters")
  | SubjectQuestionnaire _ requester questionnaire =>
      requester_validate requester;; validate_questionnaire questionnaire
  end.

Definition validate_interaction_settlement (s : InteractionSubject) (t : InteractionSettlement)
    : result str () :=
  match s, t with
  | SubjectReview review, Reviewed response => review_validate_response review response;; Ok ()
  | _, (SettledCancelled _ | SettledDeadline _) => Ok ()
  | SubjectApproval _ _ _ _ _, Approved => Ok ()
  | SubjectApproval _ _ _ _ _, SettledDenied reason =>
      guard_err (MAX_APPROVAL_DENIAL_REASON_CHARS <? chars_count reason)%N
        (lit "approval denial reason exceeds " ++ dec MAX_APPROVAL_DENIAL_REASON_CHARS ++ lit " characters")
  | SubjectQuestionnaire _ _ questionnaire, QuestionnaireSubmitted submission =>
      normalized ← normalize_questionnaire_submission questionnaire submission;
      guard_err (bool_decide (answers normalized = []))
        (lit "an empty questionnaire submission must be settled as questionnaire_declined");;
      guard_err (bool_decide (normalized ≠ submission))
        (lit "questionnaire submission is not canonically ordered")
  | SubjectQuestionnaire _ _ questionnaire, QuestionnaireDeclined => validate_questionnaire questionnaire
  | _, _ => Err (lit "the interaction settlement is a terminal its requested subject cannot produce")
  end.
End answers.

(** ** What is accepted *)

Definition text_legal (value : str) (max : N) : Prop := trim value ≠ [] ∧ (chars_count value <= max)%N.

Definition option_legal (custom multi : bool) (o : OptionSpecification) : Prop :=
  text_legal (label o) MAX_OPTION_LABEL_CHARS ∧
  (custom = true → label o ∉ RESERVED_OPTION_LABELS) ∧
  (description o = [] ∨ text_legal (description o) MAX_OPTION_DESCRIPTION_CHARS) ∧
  (∀ p, preview o = Some p → text_legal p MAX_OPTION_PREVIEW_CHARS ∧ multi = false).

Definition choice_legal (custom multi : bool) (options : list OptionSpecification) : Prop :=
  (1 <= length options <= 12)%nat ∧ Forall (option_legal custom multi) options ∧ NoDup (map label options).

(** A declared bound is a fact about the value it bounds. *)
Definition bound {A} (P : A → Prop) (m : option A) : Prop := ∀ a, m = Some a → P a.

Definition spec_legal (s : AnswerSpecification) : Prop :=
  match s with
  | SText t =>
      bound (λ a, a <= MAX_TEXT_ANSWER_CHARS)%N (max_length t) ∧
      bound (λ a, a <= MAX_TEXT_ANSWER_CHARS)%N (min_length t) ∧
      bound (λ a, bound (λ b, a <= b)%N (max_length t)) (min_length t)
  | SNumber n =>
      bound (λ a, bound (λ b, f64_lt (to_bits b) (to_bits a) = false) (number_maximum n)) (number_minimum n)
  | SInteger n => bound (λ a, bound (λ b, get a <= get b)%Z (integer_maximum n)) (integer_minimum n)
  | SBoolean => True
  | SSingle c => choice_legal (single_allow_custom c) false (single_options c)
  | SMulti c => choice_legal (multi_allow_custom c) true (multi_options c) ∧
      (min_selected c <= max_selected c <= N.of_nat (length (multi_options c)))%N
  end.

Definition question_legal (q : QuestionSpecification) : Prop :=
  text_legal (question q) MAX_QUESTION_TEXT_CHARS ∧ text_legal (header q) MAX_QUESTION_HEADER_CHARS ∧
  spec_legal (answer q).

Definition questionnaire_legal (q : QuestionnaireSpecification) : Prop :=
  (1 <= length (questions q) <= 4)%nat ∧ Forall question_legal (questions q) ∧
  NoDup (map question (questions q)).

Lemma validate_text_exact v n m : validate_text v n m = Ok () ↔ text_legal v m.
Proof.
  unfold validate_text, text_legal. rewrite bind_ok. split.
  - intros (? & Ha & Hb). inv_result. apply bool_decide_eq_false in Ha. by apply N.ltb_ge in Hb.
  - intros [Ha Hb]. exists (). by rewrite !guard_err_ok, bool_decide_eq_false, N.ltb_ge.
Qed.

Lemma bind_unit {E A} (m : result E ()) (k : () → result E A) a :
  (m ≫= k) = Ok a ↔ m = Ok () ∧ k () = Ok a.
Proof. rewrite bind_ok. split; [by intros ([] & ? & ?)|]. intros [? ?]. by exists (). Qed.

Lemma holds_bound {A} (p : A → bool) m : holds p m = false ↔ bound (λ a, p a = false) m.
Proof. unfold holds, bound. destruct m; naive_solver. Qed.

Lemma both_bound {A} (p : A → A → bool) a b :
  both p a b = false ↔ bound (λ x, bound (λ y, p x y = false) b) a.
Proof. unfold both, bound. destruct a, b; naive_solver. Qed.

#[local] Instance bound_proper {A} : Proper (pointwise_relation A iff ==> eq ==> iff) (@bound A).
Proof. intros P Q HPQ m ? <-. unfold bound, pointwise_relation in *. naive_solver. Qed.

(** A list whose keys are checked one by one against those seen. *)
Lemma NoDup_seen (k : str) (n : N) (l : list str) (seen : gmap str N) :
  seen !! k = None →
  (NoDup l ∧ ∀ x, x ∈ l → <[k := n]> seen !! x = None) ↔
  (NoDup (k :: l) ∧ ∀ x, x ∈ k :: l → seen !! x = None).
Proof.
  intros Hk. rewrite NoDup_cons. split.
  - intros [Hn Hl]. split_and!; [|done|].
    + intros Hx%Hl. by rewrite lookup_insert in Hx; case_decide.
    + intros x [->|Hx]%elem_of_cons; [done|]. apply Hl in Hx. by apply lookup_insert_None in Hx as [].
  - intros [[Hk' Hn] Hl]. split; [done|]. intros x Hx. apply lookup_insert_None. split.
    + apply Hl. by right.
    + by intros ->.
Qed.

Lemma validate_options_exact custom multi context i seen l :
  validate_options custom multi context i seen l = Ok () ↔
  Forall (option_legal custom multi) l ∧ (NoDup (map label l) ∧ ∀ x, x ∈ map label l → seen !! x = None).
Proof.
  revert i seen. induction l as [|o l IH]; intros i seen.
  { cbn. split; [|done]. intros _. repeat split; [constructor..|]. intros x Hx. by apply elem_of_nil in Hx. }
  cbn [validate_options map]. cbv zeta. rewrite !bind_unit, validate_text_exact, guard_err_ok, Forall_cons.
  destruct (seen !! label o) as [p|] eqn:Hs.
  { split; [by intros (_ & _ & ?)|]. intros (_ & _ & Hx). rewrite Hx in Hs; [done|left]. }
  rewrite !bind_unit, IH, NoDup_seen by done. unfold option_legal.
  assert (Hr : custom && is_reserved_option_label (label o) = false ↔
               (custom = true → label o ∉ RESERVED_OPTION_LABELS)).
  { unfold is_reserved_option_label. destruct custom; cbn; [rewrite bool_decide_eq_false|]; naive_solver. }
  assert (Hd : (if bool_decide (description o = []) then Ok ()
      else validate_text (description o) ((context ++ lit ".options[" ++ dec i ++ lit "]") ++ lit ".description")
             MAX_OPTION_DESCRIPTION_CHARS) = Ok () ↔
      (description o = [] ∨ text_legal (description o) MAX_OPTION_DESCRIPTION_CHARS)).
  { case_bool_decide; [naive_solver|]. rewrite validate_text_exact. naive_solver. }
  assert (Hp : ∀ m m', match preview o with
      | Some preview => validate_text preview m MAX_OPTION_PREVIEW_CHARS;; guard_err multi m'
      | None => Ok () end = Ok () ↔
      (∀ p, preview o = Some p → text_legal p MAX_OPTION_PREVIEW_CHARS ∧ multi = false)).
  { intros m m'. destruct (preview o); [|naive_solver].
    rewrite bind_unit, validate_text_exact, guard_err_ok. naive_solver. }
  rewrite Hr, Hd, Hp. tauto.
Qed.

Lemma validate_choice_options_exact l custom multi context :
  validate_choice_options l custom multi context = Ok () ↔ choice_legal custom multi l.
Proof.
  unfold validate_choice_options, choice_legal. cbv zeta.
  rewrite bind_unit, guard_err_ok, negb_false_iff, andb_true_iff, !N.leb_le, validate_options_exact.
  unfold MIN_CHOICE_OPTIONS, MAX_CHOICE_OPTIONS.
  split; [intros ([? ?] & ? & ? & _)|intros (? & ? & ?)]; repeat split; try done; try lia.
Qed.

Lemma validate_answer_specification_exact s context :
  validate_answer_specification s context = Ok () ↔ spec_legal s.
Proof.
  destruct s; cbn [validate_answer_specification spec_legal];
    rewrite ?bind_unit, ?guard_err_ok, ?holds_bound, ?both_bound, ?validate_choice_options_exact; try done.
  - setoid_rewrite N.ltb_ge. tauto.
  - setoid_rewrite Z.ltb_ge. done.
  - rewrite !N.ltb_ge. split; [intros (Hc & ? & Hm)|intros (Hc & ? & Hm)]; (split; [done|split; [lia|]]); [lia|].
    apply N.min_glb; [done|]. destruct Hc as [[_ ?] _]. unfold u32_max. lia.
Qed.

Lemma validate_questions_exact i seen l :
  validate_questions i seen l = Ok () ↔
  Forall question_legal l ∧ (NoDup (map question l) ∧ ∀ x, x ∈ map question l → seen !! x = None).
Proof.
  revert i seen. induction l as [|q l IH]; intros i seen.
  { cbn. split; [|done]. intros _. repeat split; [constructor..|]. intros x Hx. by apply elem_of_nil in Hx. }
  cbn [validate_questions map]. cbv zeta. rewrite !bind_unit, validate_text_exact, Forall_cons.
  destruct (seen !! question q) as [p|] eqn:Hs.
  { split; [by intros (_ & ?)|]. intros (_ & _ & Hx). rewrite Hx in Hs; [done|left]. }
  rewrite !bind_unit, validate_text_exact, validate_answer_specification_exact, IH, NoDup_seen by done.
  unfold question_legal. tauto.
Qed.

(** [validate_questionnaire] accepts exactly the legal questionnaires. *)
Lemma validate_questionnaire_exact q : validate_questionnaire q = Ok () ↔ questionnaire_legal q.
Proof.
  unfold validate_questionnaire, questionnaire_legal. cbv zeta.
  rewrite bind_unit, guard_err_ok, orb_false_iff, N.eqb_neq, N.ltb_ge, validate_questions_exact.
  unfold MAX_QUESTIONNAIRE_QUESTIONS.
  split; [intros ([? ?] & ? & ? & _)|intros (? & ? & ?)]; repeat split; try done; try lia.
Qed.

Lemma spec_options_few s : spec_legal s → (length (spec_options s) <= 12)%nat.
Proof. destruct s; cbn; try lia; [intros [? _]|intros [[? _] _]]; lia. Qed.

(** ** Legal answers *)

(** The one spelling of an answer: selected options in ascending order. *)
Definition canonical (a : QuestionnaireAnswer) : QuestionnaireAnswer :=
  match a with AOptions l => AOptions (merge_sort N.le l) | a => a end.

Section legal.
Context `{Formats}.

Definition answer_legal (s : AnswerSpecification) (a : QuestionnaireAnswer) : Prop :=
  match s, a with
  | SText t, AText v =>
      (chars_count v <= MAX_TEXT_ANSWER_CHARS)%N ∧ bound (λ m, m <= chars_count v)%N (min_length t) ∧
      bound (λ m, chars_count v <= m)%N (max_length t) ∧ bound (λ f, format_accepts f v = true) (format t)
  | SNumber n, ANumber v =>
      bound (λ m, f64_lt (to_bits v) (to_bits m) = false) (number_minimum n) ∧
      bound (λ m, f64_lt (to_bits m) (to_bits v) = false) (number_maximum n)
  | SInteger n, AInteger v =>
      bound (λ m, get m <= get v)%Z (integer_minimum n) ∧ bound (λ m, get v <= get m)%Z (integer_maximum n)
  | SBoolean, ABoolean _ => True
  | SSingle c, AOption i => (i < N.of_nat (length (single_options c)))%N
  | SMulti c, AOptions l =>
      StronglySorted N.lt l ∧ Forall (λ i, i < N.of_nat (length (multi_options c)))%N l ∧
      (min_selected c <= N.of_nat (length l) <= max_selected c)%N
  | s, ACustom c => allows_custom s = true ∧ text_legal c MAX_CUSTOM_ANSWER_CHARS
  | _, _ => False
  end.

Lemma select_options_exact count X l Y :
  select_options count X l = Ok Y ↔
  NoDup l ∧ Forall (λ i, i < count)%N l ∧ (∀ i, i ∈ l → i ∉ X) ∧ Y = list_to_set l ∪ X.
Proof.
  revert X. induction l as [|i l IH]; intros X.
  - cbn. split.
    + intros [= <-]. repeat split; [constructor..| |set_solver]. intros i Hi. by apply elem_of_nil in Hi.
    + intros (_ & _ & _ & ->). f_equal. set_solver.
  - cbn [select_options]. rewrite !bind_ok. setoid_rewrite guard_err_ok. rewrite NoDup_cons, Forall_cons.
    setoid_rewrite bind_ok. setoid_rewrite guard_err_ok. setoid_rewrite IH. setoid_rewrite N.leb_gt.
    setoid_rewrite bool_decide_eq_false. split.
    + intros ([] & Hi & [] & HX & Hn & Hl & Hd & ->). split_and!; [|done..| |set_solver].
      * intros Hil. apply (Hd i Hil). set_solver.
      * intros j [->|Hj]%elem_of_cons; [done|]. specialize (Hd j Hj). set_solver.
    + intros ((Hil & Hn) & (Hi & Hl) & Hd & ->). exists (). split; [done|]. exists (). split_and!; try done.
      * apply Hd. left.
      * intros j Hj. assert (j ≠ i) by (by intros ->). specialize (Hd j). set_solver.
      * set_solver.
Qed.

(** An ascending reading of a list without duplicates. *)
Lemma ascending_of_list l : NoDup l → ascending_indices (list_to_set l) = merge_sort N.le l.
Proof.
  intros Hn. unfold ascending_indices. apply (StronglySorted_unique N.le).
  - apply Sorted_StronglySorted, Sorted_merge_sort; [|apply _]; intros ???; lia.
  - apply Sorted_StronglySorted, Sorted_merge_sort; [|apply _]; intros ???; lia.
  - rewrite !merge_sort_Permutation. by apply elements_list_to_set.
Qed.

Lemma merge_sort_lt l : StronglySorted N.lt (merge_sort N.le l) ↔ NoDup l.
Proof.
  rewrite <-(merge_sort_Permutation N.le l) at 2. split; [apply StronglySorted_lt_NoDup|].
  assert (Hs : StronglySorted N.le (merge_sort N.le l)).
  { apply Sorted_StronglySorted, Sorted_merge_sort; [|apply _]; intros ???; lia. }
  revert Hs. induction (merge_sort N.le l) as [|i k IH]; intros Hs Hn; [constructor|].
  apply NoDup_cons in Hn as [Hi Hn]. apply StronglySorted_inv in Hs as [Hs Hall]. constructor; [auto|].
  apply Forall_forall. intros j Hj. pose proof (proj1 (Forall_forall _ _) Hall j Hj).
  assert (i ≠ j) by (by intros ->). lia.
Qed.

Lemma bound_guard {A} (p : A → bool) (e : A → str) m :
  match m with Some a => guard_err (p a) (e a) | None => Ok () end = Ok () ↔ bound (λ a, p a = false) m.
Proof. unfold bound. destruct m; [|naive_solver]. rewrite guard_err_ok. naive_solver. Qed.

Lemma format_bound (e : str → str) t (m : option TextFormat) :
  match m with Some f => map_err e (text_format_validate f t) | None => Ok () end = Ok () ↔
  bound (λ f, format_accepts f t = true) m.
Proof.
  unfold bound. destruct m; [|naive_solver]. unfold text_format_validate.
  rewrite map_err_ok, guard_err_ok, negb_false_iff. naive_solver.
Qed.

Lemma few_indices l (n : nat) : NoDup l → Forall (λ i, i < N.of_nat n)%N l → (length l <= n)%nat.
Proof.
  intros Hn Hl. rewrite <-(length_map N.to_nat l), <-(length_seq n 0) at 1.
  apply NoDup_incl_length; [apply NoDup_ListNoDup, NoDup_fmap_2; [apply _|done]|].
  intros j (i & <- & Hi)%in_map_iff. apply list_elem_of_In in Hi.
  apply (proj1 (Forall_forall _ _) Hl) in Hi. apply in_seq. lia.
Qed.

Lemma options_canonical c l :
  (length (multi_options c) <= 12)%nat →
  (NoDup l ∧ Forall (λ i, i < N.of_nat (length (multi_options c)))%N l ∧
   (min_selected c <= N.min (N.of_nat (size (list_to_set (C:=gset N) l))) u32_max <= max_selected c)%N) ↔
  answer_legal (SMulti c) (AOptions (merge_sort N.le l)).
Proof.
  intros Hlen. cbn [answer_legal]. pose proof (merge_sort_Permutation N.le l) as Hp.
  rewrite merge_sort_lt, (Permutation_length Hp).
  assert (HF : ∀ P : N → Prop, Forall P (merge_sort N.le l) ↔ Forall P l).
  { intros P. split; apply Forall_Permutation; done. }
  rewrite HF. clear HF Hp.
  assert (Hs : NoDup l → Forall (λ i, i < N.of_nat (length (multi_options c)))%N l →
    N.min (N.of_nat (size (list_to_set (C:=gset N) l))) u32_max = N.of_nat (length l)).
  { intros Hn Hl. rewrite size_list_to_set by done. pose proof (few_indices _ _ Hn Hl).
    unfold u32_max. lia. }
  split; intros (Hn & Hl & Hb); pose proof (Hs Hn Hl) as E; clear Hs; (split; [done|split; [done|]]); [by rewrite <-E|by rewrite E].
Qed.

Lemma validate_custom_exact v : validate_custom v = Ok () ↔ text_legal v MAX_CUSTOM_ANSWER_CHARS.
Proof. apply validate_text_exact. Qed.

(** [validate_answer] accepts exactly the legal answers and gives their one spelling. *)
Lemma validate_answer_exact q i a a' :
  (length (spec_options (answer q)) <= 12)%nat →
  validate_answer q i a = Ok a' ↔ a' = canonical a ∧ answer_legal (answer q) a'.
Proof.
  intros Hlen. unfold validate_answer.
  assert (HA : ∀ A B C : Prop, A ∧ B ∧ C ↔ (A ∧ B) ∧ C) by tauto.
  assert (Hret : ∀ x (P : Prop), (P ↔ answer_legal (answer q) x) →
    P ∧ (Ok x : result str _) = Ok a' ↔ a' = x ∧ answer_legal (answer q) a').
  { intros x P HP. rewrite HP. naive_solver. }
  destruct (answer q) as [t|n|n| |c|c] eqn:Hq, a as [v|v|v|v|j|l|v]; cbv zeta;
    try (split; [done|by intros [-> ?]]).
  all: rewrite ?bind_unit, ?guard_err_ok, ?holds_bound, ?bound_guard, ?format_bound, ?negb_false_iff,
    ?validate_custom_exact, ?HA; cbn [canonical].
  all: try (apply Hret; cbn [answer_legal]; rewrite ?HA, ?N.ltb_ge, ?N.leb_gt; try done;
            rewrite <-?HA; repeat first [setoid_rewrite N.ltb_ge | setoid_rewrite Z.ltb_ge]; done).
  - cbn. naive_solver.
  - rewrite bind_ok. setoid_rewrite map_err_ok. setoid_rewrite select_options_exact.
    setoid_rewrite bind_unit. setoid_rewrite bind_unit. setoid_rewrite guard_err_ok.
    setoid_rewrite N.ltb_ge. cbn in Hlen. split.
    + intros (Y & (Hn & Hl & _ & ->) & Hmin & Hmax & [= <-]).
      rewrite (right_id_L ∅ (∪)) in *. rewrite ascending_of_list by done. split; [done|].
      by apply options_canonical.
    + intros [-> (Hn & Hl & Hmin & Hmax)%options_canonical]; [|done].
      exists (list_to_set l). rewrite (right_id_L ∅ (∪)), ascending_of_list by done.
      split_and!; done.
Qed.

(** ** The canonical submission *)

Definition canonical_entry (e : QuestionnaireAnswerEntry) : QuestionnaireAnswerEntry :=
  {| question_index := question_index e; entry_answer := canonical (entry_answer e) |}.

(** An entry answers a question of the questionnaire, and legally. *)
Definition entry_legal (qs : list QuestionSpecification) (e : QuestionnaireAnswerEntry) : Prop :=
  ∃ q, qs !! N.to_nat (question_index e) = Some q ∧ answer_legal (answer q) (entry_answer e).

Lemma normalize_entries_exact qs X l l' :
  Forall question_legal qs →
  normalize_entries qs X l = Ok l' ↔
  NoDup (map question_index l) ∧ (∀ i, i ∈ map question_index l → i ∉ X) ∧
  l' = map canonical_entry l ∧ Forall (entry_legal qs) l'.
Proof.
  intros Hqs. revert X l'. induction l as [|e l IH]; intros X l'.
  - cbn. split; [|by intros (_ & _ & -> & _)]. intros [= <-]. repeat split; [constructor| |constructor].
    intros i Hi. by apply elem_of_nil in Hi.
  - cbn [normalize_entries map]. cbv zeta. rewrite bind_ok. setoid_rewrite ok_or_ok.
    setoid_rewrite bind_unit. setoid_rewrite guard_err_ok. setoid_rewrite bind_ok. setoid_rewrite bind_ok.
    setoid_rewrite IH. setoid_rewrite bool_decide_eq_false. rewrite NoDup_cons. split.
    + intros (q & Hq & HX & a & Ha & k & (Hn & Hd & -> & Hk) & [= <-]).
      assert (Hlen : (length (spec_options (answer q)) <= 12)%nat).
      { apply spec_options_few. apply (Forall_lookup_1 _ _ _ _ Hqs Hq). }
      apply validate_answer_exact in Ha as [-> Ha]; [|done].
      split_and!; [|done| |done|].
      * intros Hi%Hd. set_solver.
      * intros i [->|Hi]%elem_of_cons; [done|]. apply Hd in Hi. set_solver.
      * constructor; [by exists q|done].
    + intros ((Hi & Hn) & Hd & -> & [(q & Hq & Ha) Hk]%Forall_cons). cbn in Hq, Ha.
      assert (Hlen : (length (spec_options (answer q)) <= 12)%nat).
      { apply spec_options_few. apply (Forall_lookup_1 _ _ _ _ Hqs Hq). }
      exists q. split; [done|]. split; [by apply Hd; left|]. exists (canonical (entry_answer e)).
      split; [by apply validate_answer_exact|]. exists (map canonical_entry l).
      split_and!; [done| |done|done|done].
      intros i Hil. assert (i ≠ question_index e) by (by intros ->).
      pose proof (Hd i ltac:(by right)). set_solver.
Qed.

Lemma normalize_submission_exact q s s' :
  normalize_questionnaire_submission q s = Ok s' ↔
  questionnaire_legal q ∧ NoDup (map question_index (answers s)) ∧
  answers s' = merge_sort entry_le (map canonical_entry (answers s)) ∧
  Forall (entry_legal (questions q)) (answers s').
Proof.
  unfold normalize_questionnaire_submission. rewrite bind_unit, bind_ok, validate_questionnaire_exact.
  split.
  - intros (Hq & l & Hl & [= <-]). cbn [answers].
    apply normalize_entries_exact in Hl as (Hn & _ & -> & Hl); [|apply Hq].
    split_and!; try done. by rewrite (merge_sort_Permutation entry_le).
  - intros (Hq & Hn & Hs & Hl). split; [done|]. exists (map canonical_entry (answers s)). split.
    + apply normalize_entries_exact; [apply Hq|]. split_and!; [done|set_solver|done|].
      by rewrite Hs, (merge_sort_Permutation entry_le) in Hl.
    + destruct s' as [l]. cbn in *. by rewrite Hs.
Qed.

Lemma merge_sort_idemp l : merge_sort N.le (merge_sort N.le l) = merge_sort N.le l.
Proof.
  apply (StronglySorted_unique N.le); [..|by rewrite !merge_sort_Permutation];
    apply Sorted_StronglySorted, Sorted_merge_sort; try apply _; intros ???; lia.
Qed.

Lemma canonical_entry_idemp e : canonical_entry (canonical_entry e) = canonical_entry e.
Proof. unfold canonical_entry, canonical. cbn. destruct (entry_answer e); cbn; by rewrite ?merge_sort_idemp. Qed.

Lemma canonical_indices l : map question_index (map canonical_entry l) = map question_index l.
Proof. rewrite map_map. by apply map_ext. Qed.

#[local] Instance entry_le_total : Total entry_le.
Proof. intros a b. unfold entry_le. lia. Qed.

Lemma entries_sorted l : StronglySorted entry_le (merge_sort entry_le l).
Proof. apply Sorted_StronglySorted, Sorted_merge_sort; [|apply _]; unfold entry_le; intros ???; lia. Qed.

Lemma indices_le l : StronglySorted N.le (map question_index (merge_sort entry_le l)).
Proof.
  induction (entries_sorted l) as [|e k Hk IH Hall]; cbn; [constructor|].
  constructor; [done|]. apply Forall_map. exact Hall.
Qed.

(** Sorting entries of distinct indices: strictly ascending, and the one such order. *)
Lemma entries_lt l : NoDup (map question_index l) →
  StronglySorted N.lt (map question_index (merge_sort entry_le l)).
Proof.
  intros Hn. assert (Hp : map question_index (merge_sort entry_le l) ≡ₚ map question_index l).
  { apply Permutation_map, merge_sort_Permutation. }
  rewrite <-Hp in Hn. rewrite <-(merge_sort_lt _) in Hn. revert Hn.
  rewrite (StronglySorted_unique N.le (merge_sort N.le _) (map question_index (merge_sort entry_le l)));
    [done| |apply indices_le|apply merge_sort_Permutation].
  apply Sorted_StronglySorted, Sorted_merge_sort; [|apply _]; intros ???; lia.
Qed.

Lemma sorted_unique l k : NoDup (map question_index l) → l ≡ₚ k → merge_sort entry_le l = merge_sort entry_le k.
Proof.
  intros Hn Hp. apply (StronglySorted_unique_strong entry_le); [|apply entries_sorted..|by rewrite !merge_sort_Permutation].
  intros x y Hx Hy ??. rewrite merge_sort_Permutation in Hx, Hy. rewrite <-Hp in Hy.
  apply (NoDup_map_inj question_index l); try done. unfold entry_le in *. lia.
Qed.

Lemma normalize_permuted q s s' t :
  answers t ≡ₚ answers s → normalize_questionnaire_submission q s = Ok s' →
  normalize_questionnaire_submission q t = Ok s'.
Proof.
  intros Hp. rewrite !normalize_submission_exact. intros (Hq & Hn & Hs & Hl). split_and!; [done| | |done].
  - by rewrite Hp.
  - rewrite Hs. apply sorted_unique; [by rewrite canonical_indices|]. by rewrite Hp.
Qed.

Lemma normalize_idemp q s s' :
  normalize_questionnaire_submission q s = Ok s' → normalize_questionnaire_submission q s' = Ok s'.
Proof.
  rewrite !normalize_submission_exact. intros (Hq & Hn & Hs & Hl).
  assert (Hn' : NoDup (map question_index (map canonical_entry (answers s)))) by (by rewrite canonical_indices).
  split_and!; [done| | |done].
  - by rewrite Hs, merge_sort_Permutation.
  - rewrite Hs at 1. apply sorted_unique; [done|].
    rewrite Hs, merge_sort_Permutation, map_map.
    by rewrite (map_ext _ _ canonical_entry_idemp).
Qed.

(** C34 A submission is accepted exactly when the questionnaire is within its bounds and each
    question is answered at most once, by an answer its declared shape allows.  What settles
    is then the same answers in question order, each in its one spelling and within its
    declared range, length, options and counts, at most one for each of at most four
    questions; it settles to itself, and so does any order the answers were sent in. *)
Theorem submission_canonical q s :
  (is_ok (normalize_questionnaire_submission q s) ↔
    questionnaire_legal q ∧ NoDup (map question_index (answers s)) ∧
    Forall (entry_legal (questions q)) (map canonical_entry (answers s))) ∧
  ∀ s', normalize_questionnaire_submission q s = Ok s' →
    StronglySorted N.lt (map question_index (answers s')) ∧
    (length (answers s') <= length (questions q) <= 4)%nat ∧
    Forall (entry_legal (questions q)) (answers s') ∧
    answers s' ≡ₚ map canonical_entry (answers s) ∧
    normalize_questionnaire_submission q s' = Ok s' ∧
    ∀ t, answers t ≡ₚ answers s → normalize_questionnaire_submission q t = Ok s'.
Proof.
  split; [split|].
  - intros [s' (Hq & Hn & Hs & Hl)%normalize_submission_exact]. rewrite Hs in Hl.
    by rewrite (merge_sort_Permutation entry_le) in Hl.
  - intros (Hq & Hn & Hl). eexists {| answers := _ |}. apply normalize_submission_exact. cbn.
    split_and!; try done. by rewrite (merge_sort_Permutation entry_le).
  - intros s' Hs'. pose proof Hs' as (Hq & Hn & Hs & Hl)%normalize_submission_exact.
    assert (Hlt : StronglySorted N.lt (map question_index (answers s'))).
    { rewrite Hs. apply entries_lt. by rewrite canonical_indices. }
    split_and!; [done| |apply Hq|done| |by apply (normalize_idemp q s)|].
    + rewrite <-(length_map question_index). apply few_indices; [by apply StronglySorted_lt_NoDup|].
      apply Forall_map. eapply Forall_impl; [done|]. intros e (p & Hp & _). cbn.
      apply lookup_lt_Some in Hp. lia.
    + by rewrite Hs, merge_sort_Permutation.
    + intros t Ht. by apply (normalize_permuted q s).
Qed.
End legal.

(** ** A questionnaire *)

Module Sample.
#[export] Instance formats : Formats := {
  date_accepted s := bool_decide (length s = 10); date_time_accepted s := bool_decide (20 <= length s);
  uri_accepted s := bool_decide (58%N ∈ s) }.

Definition option_named (l : str) : OptionSpecification :=
  {| label := l; description := []; preview := None |}.

Definition questionnaire : QuestionnaireSpecification := {| questions := [
  {| question := lit "Which targets?"; header := lit "Targets";
     answer := SMulti {| multi_options := map option_named [lit "linux"; lit "macos"; lit "windows"];
                         min_selected := 1; max_selected := 2; multi_allow_custom := true |} |};
  {| question := lit "How many workers?"; header := lit "Workers";
     answer := SInteger {| integer_minimum := Some {| get := 1 |}; integer_maximum := Some {| get := 8 |} |} |}] |}.

Definition sent : QuestionnaireSubmission := {| answers := [
  {| question_index := 1; entry_answer := AInteger {| get := 4 |} |};
  {| question_index := 0; entry_answer := AOptions [2; 0]%N |}] |}.
Definition settled : QuestionnaireSubmission := {| answers := [
  {| question_index := 0; entry_answer := AOptions [0; 2]%N |};
  {| question_index := 1; entry_answer := AInteger {| get := 4 |} |}] |}.

Lemma sent_settles : normalize_questionnaire_submission questionnaire sent = Ok settled.
Proof. vm_compute. reflexivity. Qed.

Lemma submission_canonical_witness :
  normalize_questionnaire_submission questionnaire sent = Ok settled ∧
  normalize_questionnaire_submission questionnaire settled = Ok settled.
Proof.
  split; [apply sent_settles|].
  by destruct (proj2 (submission_canonical questionnaire sent) settled sent_settles) as (_ & _ & _ & _ & H & _).
Defined.
End Sample.
