(* ===== verification/Interaction.v ===== *)
(** Interactions with a human ([src/src/runtime/interaction.rs]): requests and their facts,
    responses and outcomes, the acceptance of a response, identities, and the coordinator's
    state with its observation pages.  Rendezvous has the operations on that state.

    [InteractionExecution] names who asks; a [PendingInteraction] is read through its request
    alone, its observation layout is left out. *)

From S2P Require Import Prelude Text Json Goal Message Scalars Inbox Schedule ScheduleStore ScheduledStart Attempt Questionnaire.
From stdpp Require Import options.

(** ** Requests *)

Inductive InteractionExecution :=
| ByAttempt (attempt_id : AttemptId) (turn : N)
| ByScheduled (run : WorkflowRunId).

Inductive ToolInvocationMode := Foreground | Background.

Inductive InteractionKind :=
| KindReview (review : ReviewSpecification) (subject_digest : str)
| KindApproval (invocation_id : ToolInvocationId) (kind_tool : ToolId) (kind_name : str)
    (kind_origin : ToolOrigin) (mode : ToolInvocationMode) (arguments : json) (reason : str)
| KindQuestionnaire (invocation_id : ToolInvocationId) (requester : InteractionRequester)
    (questionnaire : QuestionnaireSpecification).

Record InteractionRequest := {
  id : str; conversation_id : ConversationId; execution : InteractionExecution; kind : InteractionKind }.

Record InteractionRef := { ref_conversation : ConversationId; ref_interaction : str }.
#[export] Instance InteractionRef_eq_dec : EqDecision InteractionRef.
Proof. solve_decision. Defined.

(** [InteractionRequest::interaction_ref] *)
Definition interaction_ref (r : InteractionRequest) : InteractionRef :=
  {| ref_conversation := conversation_id r; ref_interaction := id r |}.

(** [InteractionExecution::attempt_id] and [turn] *)
Definition execution_attempt (e : InteractionExecution) : option AttemptId :=
  match e with ByAttempt a _ => Some a | ByScheduled _ => None end.
Definition execution_turn (e : InteractionExecution) : option N :=
  match e with ByAttempt _ t => Some t | ByScheduled _ => None end.

(** [InteractionExecution::namespace] *)
Definition namespace (e : InteractionExecution) : str :=
  match e with
  | ByAttempt attempt_id _ => lit "attempt:" ++ attempt_id
  | ByScheduled run =>
      match run_origin run with
      | OScheduled start_id => lit "scheduled:" ++ start_id
      | OTool _ => lit "invalid-scheduled-origin"
      end
  end.

(** [InteractionId::for_attempt] *)
Definition for_attempt (attempt : AttemptId) (ordinal : N) : str :=
  attempt ++ lit "-interaction-" ++ dec ordinal.

(** [InteractionExecution::interaction_id] *)
Definition interaction_id (e : InteractionExecution) (ordinal : N) : str :=
  match e with
  | ByAttempt attempt_id _ => for_attempt attempt_id ordinal
  | ByScheduled _ => namespace e ++ lit ":" ++ dec ordinal
  end.

(** ** Responses and outcomes *)

Inductive ApprovalDecision := Allow | Deny (denial : str).

Inductive InteractionResponse :=
| RespondReview (response : ReviewResponse)
| RespondApproval (decision : ApprovalDecision)
| RespondQuestionnaire (response : QuestionnaireResponse).

Inductive InteractionOutcome :=
| DeadlineExpired (kind : ToolDeadlineKind)
| Responded (response : InteractionResponse)
| OutcomeCancelled (reason : CancellationReason).

(** [InteractionOutcome::interrupted], of the native cause *)
Definition interrupted (cause : ToolCancellationCause) : InteractionOutcome :=
  match cause with
  | CauseAttempt reason => OutcomeCancelled reason
  | CauseDeadline kind => DeadlineExpired kind
  end.

Inductive InteractionFailure := Unavailable | Invalid | PublicationFailed | ControlLost | AuditFailed.
#[export] Instance InteractionFailure_eq_dec : EqDecision InteractionFailure.
Proof. solve_decision. Defined.

Inductive InteractionAdmissionError := AdmissionUnavailable | AdmissionControlLost.

(** [From<InteractionAdmissionError> for InteractionFailure] *)
Definition admission_failure (e : InteractionAdmissionError) : InteractionFailure :=
  match e with AdmissionUnavailable => Unavailable | AdmissionControlLost => ControlLost end.

Inductive InteractionError :=
| NotPending (interaction : str)
| InvalidResponse (message : str)
| AuditNotCommitted (interaction : str)
| RouteLost (interaction : str).

(** How [respond_async] and [cancel_async] report the failure of a delivery *)
Definition delivery_error (interaction : str) (f : InteractionFailure) : InteractionError :=
  match f with
  | AuditFailed => AuditNotCommitted interaction
  | ControlLost | Unavailable | Invalid | PublicationFailed => RouteLost interaction
  end.

Inductive RoutedInteractionError :=
| RoutedNotPending (interaction : InteractionRef)
| RoutedInvalidResponse (message : str)
| RoutedAuditFailed (interaction : InteractionRef).

(** [route_error] *)
Definition route_error (interaction : InteractionRef) (e : InteractionError) : RoutedInteractionError :=
  match e with
  | NotPending _ | RouteLost _ => RoutedNotPending interaction
  | InvalidResponse message => RoutedInvalidResponse message
  | AuditNotCommitted _ => RoutedAuditFailed interaction
  end.

(** ** Facts *)

Record ApprovalFacts := {
  approval_invocation : ToolInvocationId; approval_tool : ToolId; approval_name : str;
  approval_origin : ToolOrigin; approval_mode : ToolInvocationMode; approval_arguments : json;
  audit_arguments : json; approval_reason : str }.

Record QuestionnaireFacts := {
  facts_invocation : ToolInvocationId; facts_requester : InteractionRequester;
  facts_questionnaire : QuestionnaireSpecification }.

Section facts.
Context `{Formats, Digests}.

(** [ApprovalFacts::into_published] *)
Definition approval_into_published (f : ApprovalFacts) (conversation : ConversationId)
    (e : InteractionExecution) (i : str) : InteractionRequest * InteractionSubject :=
  ({| id := i; conversation_id := conversation; execution := e;
      kind := KindApproval (approval_invocation f) (approval_tool f) (approval_name f)
                (approval_origin f) (approval_mode f) (approval_arguments f) (approval_reason f) |},
   SubjectApproval (approval_invocation f) (approval_tool f) (approval_name f)
     (interaction_arguments_digest (audit_arguments f)) (approval_reason f)).

(** [QuestionnaireFacts::into_published] *)
Definition questionnaire_into_published (f : QuestionnaireFacts) (conversation : ConversationId)
    (e : InteractionExecution) (i : str) : InteractionRequest * InteractionSubject :=
  ({| id := i; conversation_id := conversation; execution := e;
      kind := KindQuestionnaire (facts_invocation f) (facts_requester f) (facts_questionnaire f) |},
   SubjectQuestionnaire (facts_invocation f) (facts_requester f) (facts_questionnaire f)).

(** The request of [request_review] *)
Definition review_into_published (review : ReviewSpecification) (conversation : ConversationId)
    (e : InteractionExecution) (i : str) : InteractionRequest * InteractionSubject :=
  ({| id := i; conversation_id := conversation; execution := e;
      kind := KindReview review (review_digest review) |},
   SubjectReview review).

(** The guard of [request_review] *)
Definition review_owned (conversation : ConversationId) (e : InteractionExecution) (review : ReviewSpecification) : bool :=
  let run := run (block (review_instance review)) in
  match e with
  | ByAttempt attempt_id _ =>
      bool_decide (match run_origin run with OTool a => Some a | OScheduled _ => None end = Some attempt_id)
  | ByScheduled r => bool_decide (r = run)
  end && bool_decide (run_conversation run = conversation).

(** ** The acceptance of a response *)

(** [audit_settlement] *)
Definition audit_settlement (o : InteractionOutcome) : InteractionSettlement :=
  match o with
  | Responded (RespondReview response) => Reviewed response
  | Responded (RespondApproval Allow) => Approved
  | Responded (RespondApproval (Deny reason)) => SettledDenied reason
  | Responded (RespondQuestionnaire (Submitted submission)) => QuestionnaireSubmitted submission
  | Responded (RespondQuestionnaire Declined) => QuestionnaireDeclined
  | OutcomeCancelled reason => SettledCancelled reason
  | DeadlineExpired kind => SettledDeadline kind
  end.

(** [validate_response_for] *)
Definition validate_response_for (s : InteractionSubject) (r : InteractionResponse)
    : result InteractionError InteractionResponse :=
  match s, r with
  | SubjectReview review, RespondReview decision =>
      map_err InvalidResponse (review_validate_response review decision);; Ok r
  | SubjectQuestionnaire _ _ questionnaire, RespondQuestionnaire response =>
      map_err InvalidResponse (
        response ← normalize_questionnaire_response questionnaire response;
        let settlement := match response with
          | Submitted submission => QuestionnaireSubmitted submission
          | Declined => QuestionnaireDeclined
          end in
        validate_interaction_settlement s settlement;; Ok (RespondQuestionnaire response))
  | SubjectApproval _ _ _ _ _, RespondApproval decision =>
      let settlement := match decision with Allow => Approved | Deny reason => SettledDenied reason end in
      map_err InvalidResponse (validate_interaction_settlement s settlement);; Ok r
  | _, _ => Err (InvalidResponse (lit "interaction response kind does not match its request"))
  end.

(** ** The durable envelopes *)

Inductive InteractionFact :=
| Requested (interaction : str) (subject : InteractionSubject)
| Settled (interaction : str) (settlement : InteractionSettlement).

Record InteractionEnvelope := {
  envelope_event : str; envelope_conversation : ConversationId; envelope_attempt : option AttemptId;
  envelope_turn : option str; envelope_fact : InteractionFact }.

Definition envelope (r : InteractionRequest) (event_id : str) (fact : InteractionFact) : InteractionEnvelope :=
  {| envelope_event := event_id; envelope_conversation := conversation_id r;
     envelope_attempt := execution_attempt (execution r); envelope_turn := dec <$> execution_turn (execution r);
     envelope_fact := fact |}.

(** [requested_envelope] *)
Definition requested_envelope (r : InteractionRequest) (s : InteractionSubject) : InteractionEnvelope :=
  envelope r (lit "interaction-requested-event:" ++ id r) (Requested (id r) s).
(** [settled_envelope] *)
Definition settled_envelope (r : InteractionRequest) (t : InteractionSettlement) : InteractionEnvelope :=
  envelope r (lit "interaction-settled-event:" ++ id r) (Settled (id r) t).
End facts.

(** ** The coordinator's state

    [V] are the views of cancellation ([ExecutionCancellation]); a waiter's sender is the
    index of its channel. *)

Section state.
Context {V : Type}.

Record PendingInteraction := {
  sequence : option N;
  request : InteractionRequest;
  subject : InteractionSubject;
  cancellation : V;
  sender : nat;
}.

Record CoordinatorState := {
  next_ordinal_by_execution : gmap str N;
  pending : gmap str PendingInteraction;
  pending_order : gmap N str;
  next_pending_sequence : N;
  observation_generation : N;
  provider_available : bool;
}.

(** [CoordinatorState::default] *)
Definition coordinator_new : CoordinatorState :=
  {| next_ordinal_by_execution := ∅; pending := ∅; pending_order := ∅; next_pending_sequence := 0;
     observation_generation := 0; provider_available := false |}.

(** [set_provider_available] *)
Definition set_provider_available (available : bool) (s : CoordinatorState) : CoordinatorState :=
  {| next_ordinal_by_execution := next_ordinal_by_execution s; pending := pending s;
     pending_order := pending_order s; next_pending_sequence := next_pending_sequence s;
     observation_generation := observation_generation s; provider_available := available |}.

Definition set_ordinals (m : gmap str N) (s : CoordinatorState) : CoordinatorState :=
  {| next_ordinal_by_execution := m; pending := pending s;
     pending_order := pending_order s; next_pending_sequence := next_pending_sequence s;
     observation_generation := observation_generation s; provider_available := provider_available s |}.

(** [allocate_id] *)
Definition allocate_id (e : InteractionExecution) (s : CoordinatorState)
    : result InteractionFailure str * CoordinatorState :=
  let next := default 1%N (next_ordinal_by_execution s !! namespace e) in
  if (next =? 0)%N then (Err Invalid, set_ordinals (<[namespace e := next]> (next_ordinal_by_execution s)) s)
  else
    (Ok (interaction_id e next),
     set_ordinals (<[namespace e := default 0%N (u64_checked_add next 1)]> (next_ordinal_by_execution s)) s).

(** The sequence numbers end at 2^52 - 1. *)
Definition SEQUENCE_LIMIT : N := 4503599627370495.

(** The admission of a pending entry by [publish_inner] *)
Definition admit_pending (r : InteractionRequest) (sub : InteractionSubject) (c : V) (tx : nat)
    (s : CoordinatorState) : CoordinatorState :=
  let seq := if (next_pending_sequence s <? SEQUENCE_LIMIT)%N then Some (next_pending_sequence s) else None in
  {| next_ordinal_by_execution := next_ordinal_by_execution s;
     pending := <[id r := {| sequence := seq; request := r; subject := sub; cancellation := c; sender := tx |}]>
                  (pending s);
     pending_order := match seq with Some n => <[n := id r]> (pending_order s) | None => pending_order s end;
     next_pending_sequence := match seq with Some n => n + 1 | None => next_pending_sequence s end;
     observation_generation :=
       u64_saturating_add (match seq with Some _ => observation_generation s | None => u64_max end) 1;
     provider_available := provider_available s |}.

(** [CoordinatorState::remove_pending] *)
Definition remove_pending (i : str) (s : CoordinatorState) : option (PendingInteraction * CoordinatorState) :=
  p ← pending s !! i;
  Some (p,
    {| next_ordinal_by_execution := next_ordinal_by_execution s; pending := delete i (pending s);
       pending_order := match sequence p with Some n => delete n (pending_order s) | None => pending_order s end;
       next_pending_sequence := next_pending_sequence s;
       observation_generation := u64_saturating_add (observation_generation s) 1;
       provider_available := provider_available s |}).

(** The state [abandon_after_parent_loss] leaves *)
Definition take_pending (s : CoordinatorState) : CoordinatorState :=
  {| next_ordinal_by_execution := next_ordinal_by_execution s; pending := ∅; pending_order := ∅;
     next_pending_sequence := next_pending_sequence s;
     observation_generation := u64_saturating_add (observation_generation s) 1;
     provider_available := provider_available s |}.

(** [scheduled_scope_is_pending] *)
Definition scheduled_scope_is_pending (start : str) (s : CoordinatorState) : bool :=
  existsb (λ p, match execution (request p) with
    | ByScheduled r => match run_origin r with OScheduled i => bool_decide (i = start) | OTool _ => false end
    | ByAttempt _ _ => false
    end) (map snd (map_to_list (pending s))).

(** [pending.keys()], in order *)
Definition pending_ids (s : CoordinatorState) : list str := ascending (dom (pending s)).

(** ** Observation *)

Record ObservationCollectionCut := { generation : N; total : N }.
#[export] Instance ObservationCollectionCut_eq_dec : EqDecision ObservationCollectionCut.
Proof. solve_decision. Defined.

Inductive ObservationCollectionReadError :=
| CutExpired
| InvalidRequest (why : str)
| SourceUnavailable (why : str).

(** [ObservationCollectionCut::validate_current] *)
Definition validate_current (cut current : ObservationCollectionCut)
    : result ObservationCollectionReadError () :=
  guard_err (generation current =? u64_max)%N
    (SourceUnavailable (lit "native collection observation generation exhausted"));;
  guard_err (bool_decide (cut ≠ current)) CutExpired.

Record PendingHeadProof := {
  proof_cut : ObservationCollectionCut;
  proof_head : list (N * option InteractionRequest);
  proof_next : option N;
}.

(** [CoordinatorState::observation_cut] *)
Definition observation_cut (s : CoordinatorState) : ObservationCollectionCut :=
  {| generation := observation_generation s; total := N.of_nat (size (pending s)) |}.

(** [pending_order.range((after, ..))]: a [BTreeMap] by ascending key *)
Definition key_le (a b : N * str) : Prop := (fst a <= fst b)%N.
#[export] Instance key_le_dec : RelDecision key_le.
Proof. intros a b. unfold key_le. apply _. Defined.
Definition range_after (after : option N) (m : gmap N str) : list (N * str) :=
  List.filter (λ e, match after with Some a => (a <? fst e)%N | None => true end)
    (merge_sort key_le (map_to_list m)).

(** [state.pending[id].source], a panic as [None] *)
Definition source_of (s : CoordinatorState) (e : N * str) : N * option InteractionRequest :=
  (fst e, request <$> pending s !! snd e).

(** [CoordinatorState::head_proof] *)
Definition head_proof (s : CoordinatorState) : PendingHeadProof :=
  {| proof_cut := observation_cut s;
     proof_head := map (source_of s)
       (take (if (observation_generation s =? u64_max)%N then 0 else 32) (range_after None (pending_order s)));
     proof_next := fst <$> (range_after None (pending_order s) !! 32) |}.

(** [observation_page] *)
Definition observation_page (cut : ObservationCollectionCut) (after : option N) (limit : nat)
    (s : CoordinatorState) : result ObservationCollectionReadError PendingHeadProof :=
  guard_err ((limit =? 0) || (32 <? limit))%nat (InvalidRequest (lit "invalid pending head bound"));;
  validate_current cut (observation_cut s);;
  Ok {| proof_cut := cut;
        proof_head := map (source_of s) (take limit (range_after after (pending_order s)));
        proof_next := fst <$> (range_after after (pending_order s) !! limit) |}.

(** [observation_source_at] *)
Definition observation_source_at (cut : ObservationCollectionCut) (n : N) (s : CoordinatorState)
    : result ObservationCollectionReadError (option InteractionRequest) :=
  validate_current cut (observation_cut s);;
  i ← ok_or (SourceUnavailable (lit "pending native source unavailable")) (pending_order s !! n);
  Ok (request <$> pending s !! i).

(** [observation_source] *)
Definition observation_source (conversation : ConversationId) (i : InteractionRef) (s : CoordinatorState)
    : option InteractionRequest :=
  if decide (ref_conversation i = conversation) then request <$> pending s !! ref_interaction i else None.
End state.

#[global] Arguments PendingInteraction : clear implicits.
#[global] Arguments CoordinatorState : clear implicits.

(** ** Identities do not collide *)

Lemma digits_prefix (u v x y : str) c d :
  Forall (λ k, 48 <= k <= 57)%N u → Forall (λ k, 48 <= k <= 57)%N v →
  ¬ (48 <= c <= 57)%N → ¬ (48 <= d <= 57)%N →
  u ++ c :: x = v ++ d :: y → u = v ∧ c = d ∧ x = y.
Proof.
  intros Hu. revert v. induction Hu as [|k u Hk Hu IH]; intros v Hv Hc Hd; destruct Hv as [|j v Hj Hv]; cbn.
  - by intros [= -> ->].
  - by intros [= -> _].
  - by intros [= -> _].
  - intros [= -> H]. by destruct (IH v Hv Hc Hd H) as (-> & -> & ->).
Qed.

Lemma ordinal_suffix (x y : str) c d n m :
  ¬ (48 <= c <= 57)%N → ¬ (48 <= d <= 57)%N → x ++ c :: dec n = y ++ d :: dec m →
  x = y ∧ c = d ∧ n = m.
Proof.
  intros Hc Hd H%(f_equal (@rev N)). rewrite !rev_app_distr in H. cbn in H. rewrite <-!app_assoc in H. cbn in H.
  assert (Hdig : ∀ k, Forall (λ k, 48 <= k <= 57)%N (rev (dec k))).
  { intros k. apply Forall_rev, Forall_forall. apply dec_digits. }
  apply digits_prefix in H as (Hn & -> & Hx); try done.
  apply (f_equal (@rev _)) in Hn, Hx. rewrite !rev_involutive in Hn, Hx. by apply (inj dec) in Hn.
Qed.

(** An interaction identity determines the numbering it comes from and its number. *)
Lemma interaction_id_inj e n e' n' :
  interaction_id e n = interaction_id e' n' → namespace e = namespace e' ∧ n = n'.
Proof.
  assert (Ha : ∀ a k, for_attempt a k = (a ++ lit "-interaction") ++ 45%N :: dec k).
  { intros a k. unfold for_attempt. by rewrite <-app_assoc. }
  assert (Hs : ∀ r k, interaction_id (ByScheduled r) k = namespace (ByScheduled r) ++ 58%N :: dec k) by done.
  destruct e as [a t|r], e' as [a' t'|r']; rewrite ?Hs; unfold interaction_id; rewrite ?Ha; intros H;
    apply ordinal_suffix in H as (H & Hc & ->); try lia; split; try done.
  cbn. f_equal. by apply app_inj_2 in H as [-> _].
Qed.

(** ** A response is accepted exactly when its settlement may be stored *)

Section acceptance.
Context `{Formats, Digests}.

Lemma settlement_of_accepted s r r' : validate_response_for s r = Ok r' →
  validate_interaction_settlement s (audit_settlement (Responded r')) = Ok ().
Proof.
  destruct s, r as [|[]|]; cbn; try done.
  - intros (? & Hr & [= <-])%bind_ok. apply map_err_ok in Hr. cbn. by rewrite Hr.
  - by intros [= <-].
  - intros [Hr [= <-]]%bind_unit. by apply map_err_ok in Hr.
  - rewrite map_err_ok, bind_ok. intros (r'' & Hr & [Hs [= <-]]%bind_unit). by destruct r''.
Qed.

Lemma accepted_of_settlement s r :
  validate_interaction_settlement s (audit_settlement (Responded r)) = Ok () →
  validate_response_for s r = Ok r.
Proof.
  destruct s, r as [|[]|[]]; cbn; try done.
  - intros (? & Hr & _)%bind_ok. by rewrite Hr.
  - unfold guard_err. by destruct (_ <? _)%N.
  - rewrite bind_ok. intros (n & Hn & [Hne Heq]%bind_unit).
    apply guard_err_ok in Hne, Heq. apply bool_decide_eq_false in Hne. apply bool_decide_eq_false, dec_stable in Heq as ->.
    rewrite Hn. cbn. rewrite bool_decide_false by done. cbn. rewrite Hn. cbn.
    by rewrite bool_decide_false, bool_decide_false by naive_solver.
  - intros Hv. by rewrite Hv.
Qed.

(** C35 The live rule for a response and the durable rule for a settlement are one rule: what a
    pending interaction accepts is a settlement its stored request admits, in a form that is
    accepted again unchanged, and every settlement by a human that the store admits is an
    accepted response; a response of the wrong kind is neither. *)
Theorem acceptance_is_settlement s r :
  (∀ r', validate_response_for s r = Ok r' →
    validate_interaction_settlement s (audit_settlement (Responded r')) = Ok () ∧
    validate_response_for s r' = Ok r') ∧
  (validate_interaction_settlement s (audit_settlement (Responded r)) = Ok () ↔
    validate_response_for s r = Ok r) ∧
  (∀ cause, validate_interaction_settlement s (audit_settlement (interrupted cause)) = Ok ()).
Proof.
  split; [|split; [split|]].
  - intros r' Hr. split; [by apply (settlement_of_accepted s r)|].
    by apply accepted_of_settlement, (settlement_of_accepted s r).
  - apply accepted_of_settlement.
  - apply settlement_of_accepted.
  - intros []; by destruct s.
Qed.
End acceptance.

(** ** The coordinator's state and its observation *)

Section coordinator.
Context {V : Type}.
Implicit Types s : CoordinatorState V.

Record coordinator_ok s : Prop := {
  co_ids : ∀ i p, pending s !! i = Some p → id (request p) = i;
  co_order : ∀ n i, pending_order s !! n = Some i ↔ ∃ p, pending s !! i = Some p ∧ sequence p = Some n;
  co_next : ∀ n i, pending_order s !! n = Some i → (n < next_pending_sequence s)%N;
  co_unnumbered : ∀ i p, pending s !! i = Some p → sequence p = None → observation_generation s = u64_max;
  co_generation : (observation_generation s <= u64_max)%N;
}.

(** What happens to the state: one constructor per critical section that changes it. *)
Inductive coordinator_step : CoordinatorState V → CoordinatorState V → Prop :=
| step_provider b s : coordinator_step s (set_provider_available b s)
| step_allocate e r s s' : allocate_id e s = (r, s') → coordinator_step s s'
| step_admit r sub c tx s : pending s !! id r = None → coordinator_step s (admit_pending r sub c tx s)
| step_remove i p s s' : remove_pending i s = Some (p, s') → coordinator_step s s'
| step_take s : coordinator_step s (take_pending s).

Lemma coordinator_new_ok : coordinator_ok (coordinator_new (V:=V)).
Proof.
  split; cbn; try done.
  intros n i. rewrite lookup_empty. split; [done|]. intros (p & Hp & _). by rewrite lookup_empty in Hp.
Qed.

Lemma u64_saturating_bounds a : (a <= u64_max)%N →
  (a <= u64_saturating_add a 1 <= u64_max)%N ∧ (a < u64_max → u64_saturating_add a 1 = a + 1)%N.
Proof. unfold u64_saturating_add. lia. Qed.

Lemma remove_pending_ok i p s s' : remove_pending i s = Some (p, s') →
  coordinator_ok s → coordinator_ok s' ∧ pending s !! i = Some p ∧ pending s' = delete i (pending s).
Proof.
  unfold remove_pending. intros (q & Hp & [= -> <-])%bind_Some [Hi Ho Hn Hu Hg]. cbn.
  split; [|done]. split; cbn.
  - intros j q [_ Hq]%lookup_delete_Some. by apply Hi.
  - intros n j. assert (Hd : (match sequence p with Some m => delete m (pending_order s) | None => pending_order s end) !! n = Some j
      ↔ sequence p ≠ Some n ∧ pending_order s !! n = Some j).
    { destruct (sequence p) as [m|]; [rewrite lookup_delete_Some|]; naive_solver. }
    rewrite Hd, Ho. setoid_rewrite lookup_delete_Some. split.
    + intros (Hs & q & Hq & Hqn). exists q. split; [split; [|done]|done]. intros ->. congruence.
    + intros (q & [Hij Hq] & Hqn). split; [|by exists q]. intros Hs.
      assert (Hx : pending_order s !! n = Some i) by (apply Ho; by exists p).
      assert (Hy : pending_order s !! n = Some j) by (apply Ho; by exists q). congruence.
  - intros n j Hj. apply (Hn n j). destruct (sequence p); [by apply lookup_delete_Some in Hj as [_ ?]|done].
  - intros j q [_ Hq]%lookup_delete_Some Hs. rewrite (Hu j q Hq Hs). done.
  - by apply u64_saturating_bounds.
Qed.

Lemma admit_pending_ok r sub c tx s : pending s !! id r = None →
  coordinator_ok s → coordinator_ok (admit_pending r sub c tx s).
Proof.
  intros Hr [Hi Ho Hn Hu Hg]. unfold admit_pending.
  assert (Hfresh : ∀ n, pending_order s !! n ≠ Some (id r)).
  { intros n Hx. apply Ho in Hx as (p & Hp & _). congruence. }
  destruct (next_pending_sequence s <? SEQUENCE_LIMIT)%N eqn:Hlim; split; cbn.
  - intros i p. rewrite lookup_insert_Some. intros [[<- <-]|[_ Hp]]; [done|by apply Hi].
  - intros n i. rewrite lookup_insert_Some, Ho. setoid_rewrite lookup_insert_Some. split.
    + intros [[<- <-]|[Hne (p & Hp & Hs)]].
      * eexists. split; [left|]; done.
      * exists p. split; [right; split; [congruence|done]|done].
    + intros (p & [[<- <-]|[Hne Hp]] & Hs); cbn in Hs; [left; by simplify_eq|]. right.
      split; [|by exists p]. assert (Hx : pending_order s !! n = Some i) by (apply Ho; by exists p).
      apply Hn in Hx. lia.
  - intros n i. rewrite lookup_insert_Some. intros [[<- _]|[_ Hx%Hn]]; lia.
  - intros i p. rewrite lookup_insert_Some. intros [[<- <-]|[_ Hp]] Hs; [done|].
    rewrite (Hu i p Hp Hs). done.
  - apply u64_saturating_bounds, Hg.
  - intros i p. rewrite lookup_insert_Some. intros [[<- <-]|[_ Hp]]; [done|by apply Hi].
  - intros n i. rewrite Ho. setoid_rewrite lookup_insert_Some. split.
    + intros (p & Hp & Hs). exists p. split; [right; split; [congruence|done]|done].
    + intros (p & [[<- <-]|[Hne Hp]] & Hs); cbn in Hs; [done|by exists p].
  - intros n i Hx. by apply (Hn n i).
  - done.
  - done.
Qed.

Lemma allocate_id_same e s r s' : allocate_id e s = (r, s') →
  pending s' = pending s ∧ pending_order s' = pending_order s ∧
  next_pending_sequence s' = next_pending_sequence s ∧ observation_generation s' = observation_generation s.
Proof. unfold allocate_id. case_match; intros [= _ <-]; done. Qed.

Lemma coordinator_step_ok s s' : coordinator_step s s' → coordinator_ok s → coordinator_ok s'.
Proof.
  destruct 1 as [b s|e r s s' Ha|r sub c tx s Hr|i p s s' Hr|s]; intros Hok.
  - by destruct Hok; split.
  - destruct (allocate_id_same _ _ _ _ Ha) as (Hp & Ho & Hs & Hg). destruct Hok; split; rewrite ?Hp, ?Ho, ?Hs, ?Hg; done.
  - by apply admit_pending_ok.
  - by apply (remove_pending_ok i p s).
  - destruct Hok as [Hi Ho Hn Hu Hg]. split; cbn; try done.
    + intros n i. rewrite lookup_empty. split; [done|]. intros (p & Hp & _). by rewrite lookup_empty in Hp.
    + by apply u64_saturating_bounds.
Qed.

(** The generation counts the changes of the collection: until it is exhausted, an unchanged
    generation is an unchanged collection. *)
Lemma coordinator_step_generation s s' : coordinator_ok s → coordinator_step s s' →
  (observation_generation s <= observation_generation s')%N ∧
  (pending s' = pending s ∧ pending_order s' = pending_order s ∨
   observation_generation s < observation_generation s' ∨ observation_generation s = u64_max)%N.
Proof.
  intros [_ _ _ _ Hg] Hstep. destruct Hstep as [b s|e r s s' Ha|r sub c tx s Hr|i p s s' Hr|s].
  - split; [done|by left].
  - destruct (allocate_id_same _ _ _ _ Ha) as (-> & -> & _ & ->). split; [done|by left].
  - cbn. unfold u64_saturating_add. case_match; lia.
  - unfold remove_pending in Hr. apply bind_Some in Hr as (q & _ & [= _ <-]). cbn. unfold u64_saturating_add. lia.
  - cbn. unfold u64_saturating_add. lia.
Qed.

Lemma cut_fence s s' : coordinator_ok s → rtc coordinator_step s s' →
  observation_generation s' = observation_generation s → observation_generation s' ≠ u64_max →
  pending s' = pending s ∧ pending_order s' = pending_order s.
Proof.
  intros Hok Hs. assert (Hle : (observation_generation s <= observation_generation s')%N).
  { clear - Hok Hs. induction Hs as [|a b c Hab Hbc IH]; [done|].
    destruct (coordinator_step_generation a b Hok Hab) as [Hle _].
    specialize (IH (coordinator_step_ok _ _ Hab Hok)). lia. }
  induction Hs as [|a b c Hab Hbc IH]; [done|]. intros Hg Hm.
  destruct (coordinator_step_generation a b Hok Hab) as [Hle' Hd].
  pose proof (coordinator_step_ok _ _ Hab Hok) as Hok'.
  assert (Hle'' : (observation_generation b <= observation_generation c)%N).
  { clear - Hok' Hbc. induction Hbc as [|a b c Hab Hbc IH]; [done|].
    destruct (coordinator_step_generation a b Hok' Hab) as [Hle _].
    specialize (IH (coordinator_step_ok _ _ Hab Hok')). lia. }
  destruct (IH Hok' Hle'') as [-> ->]; [lia|done|]. by destruct Hd as [?|[?|?]]; [done|lia|lia].
Qed.

(** ** Reading the collection page by page *)

(** A reader: each page under the same cut, from the key after the last one read; the
    coordinator may be in another state each time. *)
Fixpoint read_pages (limit : nat) (cut : ObservationCollectionCut) (after : option N)
    (ss : list (CoordinatorState V)) : result ObservationCollectionReadError (list (N * option InteractionRequest) * bool) :=
  match ss with
  | [] => Ok ([], false)
  | s :: ss =>
      page ← observation_page cut after limit s;
      match proof_next page with
      | None => Ok (proof_head page, true)
      | Some _ =>
          rest ← read_pages limit cut (fst <$> last (proof_head page)) ss;
          Ok (proof_head page ++ fst rest, snd rest)
      end
  end.

#[local] Instance key_le_total : Total key_le.
Proof. intros a b. unfold key_le. lia. Qed.

Definition ordered_entries (m : gmap N str) : list (N * str) := merge_sort key_le (map_to_list m).

Lemma ordered_entries_lt m : StronglySorted N.lt (map fst (ordered_entries m)).
Proof.
  assert (Hs : StronglySorted key_le (ordered_entries m)).
  { apply Sorted_StronglySorted, Sorted_merge_sort; [|apply _]. unfold key_le. intros ???; lia. }
  assert (Hn : NoDup (map fst (ordered_entries m))).
  { unfold ordered_entries. rewrite (merge_sort_Permutation key_le). apply NoDup_fst_map_to_list. }
  revert Hs Hn. induction (ordered_entries m) as [|e l IH]; intros Hs Hn; cbn; [constructor|].
  apply NoDup_cons in Hn as [Hx Hn]. apply StronglySorted_inv in Hs as [Hs Hall]. constructor; [auto|].
  apply Forall_map, Forall_forall. intros f Hf. pose proof (proj1 (Forall_forall _ _) Hall f Hf) as Hle.
  unfold key_le in Hle. cbn. assert (fst e ≠ fst f) by (intros E; apply Hx; rewrite E; by apply list_elem_of_fmap_2). lia.
Qed.

Lemma elem_of_ordered_entries m n i : (n, i) ∈ ordered_entries m ↔ m !! n = Some i.
Proof. unfold ordered_entries. by rewrite (merge_sort_Permutation key_le), elem_of_map_to_list. Qed.

Lemma range_after_suffix m pre suf : ordered_entries m = pre ++ suf →
  range_after (fst <$> last pre) m = suf.
Proof.
  intros He. unfold range_after. fold (ordered_entries m). pose proof (ordered_entries_lt m) as Hs.
  destruct pre as [|e pre _] using rev_ind; [cbn in *; rewrite He; by apply filter_all_true|].
  rewrite last_snoc. cbn. rewrite He in *. rewrite !map_app in Hs. cbn in Hs.
  rewrite List.filter_app, filter_all_false, filter_all_true; [done| |].
  - intros f Hf. apply N.ltb_lt. rewrite <-app_assoc in Hs. apply StronglySorted_app_1_r in Hs as Hs'.
    cbn in Hs'. apply StronglySorted_inv in Hs' as [_ Hall].
    apply (proj1 (Forall_forall _ _) Hall). by apply list_elem_of_fmap_2.
  - intros f Hf. apply N.ltb_ge. apply elem_of_app in Hf as [Hf|Hf].
    + rewrite <-app_assoc in Hs. cbn in Hs.
      pose proof (StronglySorted_app_1_elem_of N.lt (map fst pre) (fst e :: map fst suf) (fst f) (fst e) Hs) as Hlt.
      apply N.lt_le_incl, Hlt; [by apply list_elem_of_fmap_2|left].
    + apply list_elem_of_singleton in Hf as ->. done.
Qed.

Lemma source_of_same s s' e : pending s' = pending s → source_of s' e = source_of s e.
Proof. unfold source_of. by intros ->. Qed.

Lemma page_keys s l : map fst (map (source_of s) l) = map fst l.
Proof. rewrite map_map. by apply map_ext. Qed.

Lemma last_key s l : fst <$> last (map (source_of s) l) = fst <$> last l.
Proof. induction l as [|e l IH] using rev_ind; [done|]. rewrite map_app. cbn [map]. by rewrite !last_snoc. Qed.

(** One page is the next part of the collection. *)
Lemma page_exact s0 s cut limit pre suf :
  (1 <= limit <= 32)%nat → (validate_current cut (observation_cut s) = Ok () →
    pending s = pending s0 ∧ pending_order s = pending_order s0) →
  ordered_entries (pending_order s0) = pre ++ suf →
  ∀ page, observation_page cut (fst <$> last pre) limit s = Ok page →
    proof_head page = map (source_of s0) (take limit suf) ∧ proof_next page = fst <$> (suf !! limit).
Proof.
  intros Hlim Hsame He page Hpage. unfold observation_page in Hpage.
  apply bind_unit in Hpage as [_ [Hv Hpage]%bind_unit]. injection Hpage as <-. cbn.
  destruct (Hsame Hv) as [Hp Ho]. rewrite Ho, (range_after_suffix _ _ _ He). split; [|done].
  apply map_ext. intros e. by apply source_of_same.
Qed.

Lemma read_pages_exact s0 cut limit ss : (1 <= limit <= 32)%nat →
  (∀ s, s ∈ ss → validate_current cut (observation_cut s) = Ok () →
    pending s = pending s0 ∧ pending_order s = pending_order s0) →
  ∀ pre suf l b, ordered_entries (pending_order s0) = pre ++ suf →
  read_pages limit cut (fst <$> last pre) ss = Ok (l, b) → b = true → l = map (source_of s0) suf.
Proof.
  intros Hlim. induction ss as [|s ss IH]; intros Hss pre suf l b He; cbn; [by intros [= <- <-]|].
  intros (page & Hpage & Hread)%bind_ok.
  destruct (page_exact s0 s cut limit pre suf Hlim (Hss s ltac:(left)) He page Hpage) as [Hh Hn].
  rewrite Hh, Hn in Hread. destruct (suf !! limit) as [e|] eqn:Hl; cbn in Hread.
  - apply bind_ok in Hread as ([l' b'] & Hrest & [= <- <-]). intros ->. cbn.
    rewrite last_key in Hrest.
    assert (Hlast : fst <$> last (take limit suf) = fst <$> last (pre ++ take limit suf)).
    { rewrite last_app. destruct (last (take limit suf)) eqn:E; [done|]. apply last_None in E.
      apply lookup_lt_Some in Hl. apply (f_equal length) in E. rewrite length_take in E. cbn in E. lia. }
    rewrite Hlast in Hrest.
    rewrite (IH (λ s' Hs', Hss s' ltac:(by right)) (pre ++ take limit suf) (drop limit suf) l' true) ; try done.
    + by rewrite <-map_app, take_drop.
    + by rewrite <-app_assoc, take_drop.
  - injection Hread as <- _. intros _. rewrite take_ge; [done|]. by apply lookup_ge_None.
Qed.

(** In a collection that does not change, enough pages reach the end. *)
Lemma read_pages_complete s0 cut limit ss : (1 <= limit <= 32)%nat →
  (∀ s, s ∈ ss → validate_current cut (observation_cut s) = Ok () ∧
    pending s = pending s0 ∧ pending_order s = pending_order s0) →
  ∀ pre suf, ordered_entries (pending_order s0) = pre ++ suf → (length suf <= limit * length ss)%nat → ss ≠ [] →
  ∃ l, read_pages limit cut (fst <$> last pre) ss = Ok (l, true).
Proof.
  intros Hlim. induction ss as [|s ss IH]; intros Hss pre suf He Hlen Hne; [done|].
  destruct (Hss s ltac:(left)) as (Hv & Hp & Ho).
  assert (Hpage : ∃ page, observation_page cut (fst <$> last pre) limit s = Ok page).
  { unfold observation_page. rewrite Hv. eexists. apply bind_unit. split; [|done].
    apply guard_err_ok, orb_false_iff. rewrite Nat.eqb_neq, Nat.ltb_ge. lia. }
  destruct Hpage as [page Hpage]. cbn [read_pages]. rewrite Hpage. cbn.
  destruct (page_exact s0 s cut limit pre suf Hlim ltac:(done) He page Hpage) as [Hh Hn]. rewrite Hh, Hn.
  destruct (suf !! limit) as [e|] eqn:Hl; cbn; [|by eexists].
  apply lookup_lt_Some in Hl. cbn in Hlen.
  destruct (IH (λ s' Hs', Hss s' ltac:(by right)) (pre ++ take limit suf) (drop limit suf)) as [l Hread].
  - by rewrite <-app_assoc, take_drop.
  - rewrite length_drop. lia.
  - intros ->. cbn in Hlen. lia.
  - rewrite last_key. exists (map (source_of s0) (take limit suf) ++ l).
    assert (Hlast : fst <$> last (take limit suf) = fst <$> last (pre ++ take limit suf)).
    { rewrite last_app. destruct (last (take limit suf)) eqn:E; [done|]. apply last_None in E.
      apply (f_equal length) in E. rewrite length_take in E. cbn in E. lia. }
    by rewrite Hlast, Hread.
Qed.

Lemma validate_current_ok cut current : validate_current cut current = Ok () ↔
  generation current ≠ u64_max ∧ cut = current.
Proof.
  unfold validate_current. rewrite bind_unit, !guard_err_ok, N.eqb_neq, bool_decide_eq_false.
  split; intros [? H]; (split; [done|]); [by apply dec_stable|by intros []].
Qed.

End coordinator.

(** Two requests pending, read one at a time. *)
Module Pages.
Definition asked (i : N) : InteractionRequest :=
  {| id := [i]; conversation_id := lit "c"; execution := ByAttempt (lit "a") 1;
     kind := KindApproval (IAgent (lit "call")) (lit "shell") (lit "Shell") OriginBuiltin Foreground Null [] |}.
Definition answerable : InteractionSubject := SubjectApproval (IAgent (lit "call")) (lit "shell") (lit "Shell") [] [].

Definition one : CoordinatorState () := admit_pending (asked 97) answerable () 0 coordinator_new.
Definition two : CoordinatorState () := admit_pending (asked 98) answerable () 1 one.
Definition entries : list (N * option InteractionRequest) := [(0%N, Some (asked 97)); (1%N, Some (asked 98))].

Lemma two_reached : rtc coordinator_step coordinator_new two.
Proof.
  eapply rtc_l; [apply (step_admit (asked 97) answerable () 0); vm_compute; reflexivity|].
  apply rtc_once, (step_admit (asked 98) answerable () 1). vm_compute. reflexivity.
Qed.

Lemma entries_read : read_pages 1 (observation_cut two) None [two; two] = Ok (entries, true).
Proof. vm_compute. reflexivity. Qed.

End Pages.
