(* ===== verification/Rendezvous.v ===== *)
(** The interaction coordinator at work ([src/src/runtime/interaction.rs]): requests, waiters,
    responses, cancellations, the drain and the loss of the parent, as tasks that interleave.

    A task runs from one critical section or await to the next in one step; what it cannot
    decide itself (the durable commit, the reliable route, the admission by the root) is the
    step's choice.  A waiter's channel is a tokio oneshot: sending and dropping either end are
    its documented operations.  The [trace] lists what became durable or visible, most recent
    first. *)

From S2P Require Import Prelude Text Json Goal Message Scalars Inbox Schedule ScheduleStore ScheduledStart Attempt Lifecycle Questionnaire Interaction.
From stdpp Require Import options.

Section rendezvous.
Context `{Formats, Digests}.

(** The cancellation of executions: [ExecutionCancellation::is_cancelled] and [native_cause]. *)
Context {W V : Type} (is_cancelled : V → W → bool) (native_cause : V → W → ToolCancellationCause).

(** The coordinator's conversation, and whether a route to the root is installed. *)
Context (conversation : ConversationId) (routed : bool).

(** ** State *)

(** [WaiterPayload] with its [SettlementNotification]: [audited] is whether the settlement
    committed.  It holds two guards. *)
Record WaiterPayload := {
  payload_id : str; outcome : InteractionOutcome; audited : bool; proof : PendingHeadProof }.

Record Channel := {
  channel_id : str;
  slot : option (result InteractionFailure WaiterPayload);
  tx : bool;
  rx : bool;
}.

(** [SettlementDelivery] with its [SettleTransition] *)
Record SettlementDelivery := {
  cancellation_won : bool;
  audit_committed : bool;
  delivery_sender : nat;
  payload : WaiterPayload;
}.

(** A payload being dropped: its waiter admission, its callback, its settlement admission. *)
Inductive Drop :=
| DropWaiter (p : WaiterPayload)
| DropCallback (p : WaiterPayload)
| DropSettlement.

Inductive Facts :=
| FromApproval (f : ApprovalFacts)
| FromQuestionnaire (f : QuestionnaireFacts)
| FromReview (r : ReviewSpecification).

(** Who called [begin_settle]: [wait_result], [respond_async], [cancel_async], and
    [cancel_pending_async] with the identities it has left. *)
Inductive Caller :=
| CallWait (rx : nat)
| CallRespond (response : InteractionResponse)
| CallCancel
| CallDrain (reason : CancellationReason) (ids : list str).

Inductive TaskResult :=
| WaitDone (interaction : option str) (r : result InteractionFailure InteractionOutcome)
| RespondDone (interaction : str) (response : InteractionResponse) (r : result InteractionError ())
| CancelDone (interaction : str) (r : result InteractionError ())
| DrainDone
| LossDone
| Aborted.

Inductive Task :=
| TRequest (e : InteractionExecution) (f : Facts) (c : V)
| TAdmission (r : InteractionRequest) (s : InteractionSubject) (c : V)
| TPublish (r : InteractionRequest) (s : InteractionSubject) (c : V) (admitted : bool)
| TAnnounce (i : str) (rx : nat) (c : V)
| TWait (i : str) (rx : nat) (c : V)
| TRespond (i : str) (response : InteractionResponse)
| TEnter (k : Caller) (i : str) (o : InteractionOutcome) (validate : bool)
| TSettle (k : Caller) (i : str) (o : InteractionOutcome) (validate : bool)
| TDeliver (k : Caller) (i : str) (d : SettlementDelivery)
| TReceive (i : str) (rx : nat)
| TDrain (reason : CancellationReason) (ids : list str)
| TLoss (waiters : list (PendingInteraction V))
| TDone (r : TaskResult).

Inductive Event :=
| EAdmitted
| ELeft
| EIssued (i : str)
| ECommitted (e : InteractionEnvelope)
| EPrompt (i : str)
| EAnnounced (i : str)
| EDecided (i : str) (o : InteractionOutcome) (cancelled : bool)
| ERouted (i : str) (o : InteractionOutcome)
| EReleased (i : str) (r : result InteractionFailure InteractionOutcome)
| EObserved (i : str) (o : InteractionOutcome) (audited : bool)
| EFailureMarked (i : str).

Record Runtime := {
  native : Native;
  coordinator : CoordinatorState V;
  executions : W;
  channels : list Channel;
  tasks : list Task;
  drops : list Drop;
  trace : list Event;
}.

Definition set_native (n : Native) (r : Runtime) : Runtime :=
  {| native := n; coordinator := coordinator r; executions := executions r; channels := channels r;
     tasks := tasks r; drops := drops r; trace := trace r |}.
Definition set_coordinator (c : CoordinatorState V) (r : Runtime) : Runtime :=
  {| native := native r; coordinator := c; executions := executions r; channels := channels r;
     tasks := tasks r; drops := drops r; trace := trace r |}.
Definition set_executions (w : W) (r : Runtime) : Runtime :=
  {| native := native r; coordinator := coordinator r; executions := w; channels := channels r;
     tasks := tasks r; drops := drops r; trace := trace r |}.
Definition set_channels (c : list Channel) (r : Runtime) : Runtime :=
  {| native := native r; coordinator := coordinator r; executions := executions r; channels := c;
     tasks := tasks r; drops := drops r; trace := trace r |}.
Definition set_tasks (t : list Task) (r : Runtime) : Runtime :=
  {| native := native r; coordinator := coordinator r; executions := executions r; channels := channels r;
     tasks := t; drops := drops r; trace := trace r |}.
Definition set_drops (d : list Drop) (r : Runtime) : Runtime :=
  {| native := native r; coordinator := coordinator r; executions := executions r; channels := channels r;
     tasks := tasks r; drops := d; trace := trace r |}.
Definition emit (e : Event) (r : Runtime) : Runtime :=
  {| native := native r; coordinator := coordinator r; executions := executions r; channels := channels r;
     tasks := tasks r; drops := drops r; trace := e :: trace r |}.

(** ** Guards and channels *)

Definition with_lifecycle (l : Lifecycle) (r : Runtime) : Runtime := set_native (set_lifecycle l (native r)) r.

(** A guard taken by an admission, and the drop of a guard held here *)
Definition acquire (l : Lifecycle) (r : Runtime) : Runtime := emit EAdmitted (with_lifecycle l r).
Definition release (r : Runtime) : Runtime := emit ELeft (with_lifecycle (leave (lifecycle (native r))) r).

(** The drop of a message *)
Definition drop_message (m : result InteractionFailure WaiterPayload) (r : Runtime) : Runtime :=
  match m with Ok p => set_drops (DropWaiter p :: drops r) r | Err _ => r end.

Definition message_result (m : result InteractionFailure WaiterPayload) : result InteractionFailure InteractionOutcome :=
  match m with Ok p => Ok (outcome p) | Err f => Err f end.

(** [oneshot::Sender::send], its failure ignored as the source does *)
Definition send (c : nat) (m : result InteractionFailure WaiterPayload) (r : Runtime) : Runtime :=
  match channels r !! c with
  | Some ch =>
      let r := emit (EReleased (channel_id ch) (message_result m)) r in
      if rx ch then set_channels (<[c := {| channel_id := channel_id ch; slot := Some m; tx := false; rx := true |}]> (channels r)) r
      else drop_message m (set_channels (<[c := {| channel_id := channel_id ch; slot := None; tx := false; rx := false |}]> (channels r)) r)
  | None => r
  end.

(** The drop of a sender that was not used *)
Definition drop_sender (c : nat) (r : Runtime) : Runtime :=
  match channels r !! c with
  | Some ch => set_channels (<[c := {| channel_id := channel_id ch; slot := slot ch; tx := false; rx := rx ch |}]> (channels r)) r
  | None => r
  end.

(** The drop of a receiver, with the message in the channel if there is one *)
Definition drop_receiver (c : nat) (r : Runtime) : Runtime :=
  match channels r !! c with
  | Some ch =>
      let r := set_channels (<[c := {| channel_id := channel_id ch; slot := None; tx := tx ch; rx := false |}]> (channels r)) r in
      match slot ch with Some m => drop_message m r | None => r end
  | None => r
  end.

(** ** Publication *)

Definition into_published (f : Facts) (e : InteractionExecution) (i : str) : InteractionRequest * InteractionSubject :=
  match f with
  | FromApproval f => approval_into_published f conversation e i
  | FromQuestionnaire f => questionnaire_into_published f conversation e i
  | FromReview review => review_into_published review conversation e i
  end.

(** The guard of [request_review] *)
Definition may_request (f : Facts) (e : InteractionExecution) : bool :=
  match f with FromReview review => review_owned conversation e review | _ => true end.

(** From a request to its publication: [allocate_id], [into_published], and the first checks
    of [publish_async] *)
Definition request_step (e : InteractionExecution) (f : Facts) (c : V) (r : Runtime) : Task * Runtime :=
  if may_request f e then
    match allocate_id e (coordinator r) with
    | (Err failure, s) => (TDone (WaitDone None (Err failure)), set_coordinator s r)
    | (Ok i, s) =>
        let '(req, sub) := into_published f e i in
        let r := emit (EIssued i) (set_coordinator s r) in
        match validate_interaction_subject sub with
        | Err _ => (TDone (WaitDone (Some i) (Err Invalid)), r)
        | Ok _ => (if routed then TAdmission req sub c else TPublish req sub c false, r)
        end
    end
  else (TDone (WaitDone None (Err Invalid)), r).

(** The answer of [admit_publication] *)
Definition admission_step (a : result InteractionAdmissionError InteractionRef) (req : InteractionRequest)
    (sub : InteractionSubject) (c : V) : Task :=
  match a with
  | Err e => TDone (WaitDone (Some (id req)) (Err (admission_failure e)))
  | Ok permit =>
      if bool_decide (permit = interaction_ref req) then TPublish req sub c true
      else TDone (WaitDone (Some (id req)) (Err ControlLost))
  end.

(** [publish_inner]; [committed] is the outcome of the durable commit. *)
Definition publish_inner (req : InteractionRequest) (sub : InteractionSubject) (c : V) (admitted committed : bool)
    (r : Runtime) : result InteractionFailure nat * Runtime :=
  let available := admitted || provider_available (coordinator r) in
  match admit_running (lifecycle (native r)) with
  | Err _ => (Err (if available then PublicationFailed else Unavailable), r)
  | Ok l =>
      let r := acquire l r in
      if negb available then (Err Unavailable, release r)
      else if negb committed then (Err PublicationFailed, release r)
      else
        let tx := length (channels r) in
        let r := emit (ECommitted (requested_envelope req sub)) r in
        let r := set_coordinator (admit_pending req sub c tx (coordinator r)) r in
        let r := set_channels (channels r ++ [{| channel_id := id req; slot := None; tx := true; rx := true |}]) r in
        (Ok tx, emit (EPrompt (id req)) r)
  end.

Definition publish_step (req : InteractionRequest) (sub : InteractionSubject) (c : V) (admitted committed : bool)
    (r : Runtime) : Task * Runtime :=
  match publish_inner req sub c admitted committed r with
  | (Err failure, r) => (TDone (WaitDone (Some (id req)) (Err failure)), r)
  | (Ok rx, r) => (if routed then TAnnounce (id req) rx c else TWait (id req) rx c, r)
  end.

(** [abandon_after_control_failure], and the ticket dropped with the error *)
Definition abandon_after_control_failure (i : str) (rx : nat) (r : Runtime) : Task * Runtime :=
  let r := emit (EFailureMarked i) r in
  let r := match remove_pending i (coordinator r) with
    | Some (p, s) => release (send (sender p) (Err ControlLost) (set_coordinator s r))
    | None => r
    end in
  (TDone (WaitDone (Some i) (Err ControlLost)), drop_receiver rx r).

(** The answer of the route to [Requested] *)
Definition announce_step (i : str) (rx : nat) (c : V) (accepted : bool) (r : Runtime) : Task * Runtime :=
  if accepted then (TWait i rx c, emit (EAnnounced i) r) else abandon_after_control_failure i rx r.

(** ** Settlement *)

(** [begin_settle] returning an error *)
Definition settle_failed (k : Caller) (i : str) (e : InteractionError) : Task :=
  match k with
  | CallWait rx => TReceive i rx
  | CallRespond response => TDone (RespondDone i response (Err e))
  | CallCancel => TDone (CancelDone i (Err e))
  | CallDrain reason ids => TDrain reason ids
  end.

(** The settlement admission of [begin_settle] *)
Definition enter_step (k : Caller) (i : str) (o : InteractionOutcome) (validate : bool) (r : Runtime) : Task * Runtime :=
  match try_enter_settlement (lifecycle (native r)) with
  | Err _ => (settle_failed k i (NotPending i), r)
  | Ok l => (TSettle k i o validate, acquire l r)
  end.

(** The outcome [begin_settle] selects *)
Definition select_outcome (p : PendingInteraction V) (o : InteractionOutcome) (validate : bool) (w : W)
    : result InteractionError InteractionOutcome :=
  let o := if validate && is_cancelled (cancellation p) w
           then interrupted (native_cause (cancellation p) w) else o in
  match validate, o with
  | true, Responded response => response ← validate_response_for (subject p) response; Ok (Responded response)
  | _, o => Ok o
  end.

(** The locked part of [begin_settle] *)
Definition settle_step (k : Caller) (i : str) (o : InteractionOutcome) (validate committed : bool)
    (r : Runtime) : Task * Runtime :=
  match remove_pending i (coordinator r) with
  | None => (settle_failed k i (NotPending i), release r)
  | Some (p, s) =>
      let won := validate && is_cancelled (cancellation p) (executions r) in
      match select_outcome p o validate (executions r) with
      | Err e => (settle_failed k i e, release r)
      | Ok o =>
          let r := emit (EDecided i o (is_cancelled (cancellation p) (executions r))) (set_coordinator s r) in
          let r := if committed then emit (ECommitted (settled_envelope (request p) (audit_settlement o))) r else r in
          (TDeliver k i
             {| cancellation_won := won; audit_committed := committed; delivery_sender := sender p;
                payload := {| payload_id := i; outcome := o; audited := committed; proof := head_proof s |} |}, r)
      end
  end.

(** What the caller of [begin_settle] does with the result of the delivery *)
Definition delivered (k : Caller) (i : str) (d : SettlementDelivery) (res : result InteractionFailure ()) : Task :=
  match k with
  | CallWait rx => TReceive i rx
  | CallRespond response => TDone (RespondDone i response
      (if cancellation_won d then Err (NotPending i)
       else match res with
            | Err f => Err (delivery_error i f)
            | Ok _ => if negb (audit_committed d) then Err (AuditNotCommitted i) else Ok ()
            end))
  | CallCancel => TDone (CancelDone i (map_err (delivery_error i) res))
  | CallDrain reason ids => TDrain reason ids
  end.

(** [deliver_async]; [accepted] is the route's answer. *)
Definition deliver (i : str) (d : SettlementDelivery) (accepted : bool) (r : Runtime)
    : result InteractionFailure () * Runtime :=
  if negb (audit_committed d) then
    let r := send (delivery_sender d) (Err AuditFailed) (emit (EFailureMarked i) r) in
    (Err AuditFailed, drop_message (Ok (payload d)) r)
  else if routed && negb accepted then
    let r := send (delivery_sender d) (Err ControlLost) (emit (EFailureMarked i) r) in
    (Err ControlLost, drop_message (Ok (payload d)) r)
  else
    let r := if routed then emit (ERouted i (outcome (payload d))) r else r in
    (Ok (), send (delivery_sender d) (Ok (payload d)) r).

Definition deliver_step (k : Caller) (i : str) (d : SettlementDelivery) (accepted : bool) (r : Runtime) : Task * Runtime :=
  let '(res, r) := deliver i d accepted r in (delivered k i d res, r).

(** ** Waiters and responders *)

(** The receiver of [wait_result] yields: a message, or the sender is gone. *)
Definition receive (i : str) (c : nat) (r : Runtime) : option (Task * Runtime) :=
  match channels r !! c with
  | Some ch =>
      match slot ch with
      | Some m => Some (TDone (WaitDone (Some i) (message_result m)), drop_receiver c r)
      | None => if tx ch then None else Some (TDone (WaitDone (Some i) (Err ControlLost)), drop_receiver c r)
      end
  | None => None
  end.

(** [wait_result]'s branch on cancellation *)
Definition interrupt (i : str) (rx : nat) (c : V) (r : Runtime) : option Task :=
  if is_cancelled c (executions r)
  then Some (TEnter (CallWait rx) i (interrupted (native_cause c (executions r))) false) else None.

(** The first lock of [respond_async] *)
Definition respond_step (i : str) (response : InteractionResponse) (r : Runtime) : Task :=
  match pending (coordinator r) !! i with
  | None => TDone (RespondDone i response (Err (NotPending i)))
  | Some p =>
      match (if is_cancelled (cancellation p) (executions r) then Ok response
             else validate_response_for (subject p) response) with
      | Err e => TDone (RespondDone i response (Err e))
      | Ok _ => TEnter (CallRespond response) i (Responded response) true
      end
  end.

(** [cancel_pending_async], one turn *)
Definition drain_step (reason : CancellationReason) (ids : list str) : Task :=
  match ids with
  | [] => TDone DrainDone
  | i :: ids => TEnter (CallDrain reason ids) i (OutcomeCancelled reason) false
  end.

(** [abandon_after_parent_loss]: the lock, then one waiter at a time *)
Definition loss_take (r : Runtime) : Task * Runtime :=
  (TLoss (map snd (map_to_list (pending (coordinator r)))), set_coordinator (take_pending (coordinator r)) r).
Definition loss_step (waiters : list (PendingInteraction V)) (r : Runtime) : Task * Runtime :=
  match waiters with
  | [] => (TDone LossDone, r)
  | p :: waiters => (TLoss waiters, release (send (sender p) (Err ControlLost) r))
  end.

(** A future dropped at an await releases what it owns. *)
Definition abort (t : Task) (r : Runtime) : option Runtime :=
  match t with
  | TAdmission _ _ _ => Some r
  | TAnnounce _ rx _ | TWait _ rx _ | TReceive _ rx => Some (drop_receiver rx r)
  | TDeliver k _ d =>
      if audit_committed d && routed then
        let r := drop_message (Ok (payload d)) (drop_sender (delivery_sender d) r) in
        Some (match k with CallWait rx => drop_receiver rx r | _ => r end)
      else None
  | _ => None
  end.

(** The drop of a payload, in its three parts *)
Definition drop_step (d : Drop) (r : Runtime) : option Drop * Runtime :=
  match d with
  | DropWaiter p => (Some (DropCallback p), release r)
  | DropCallback p => (Some DropSettlement, emit (EObserved (payload_id p) (outcome p) (audited p)) r)
  | DropSettlement => (None, release r)
  end.

(** ** Steps *)

(** One step of a task, with what it leaves behind. *)
Inductive task_step : Runtime → Task → Task → Runtime → Prop :=
| do_request e f c r t r' : request_step e f c r = (t, r') → task_step r (TRequest e f c) t r'
| do_admission a req sub c r : task_step r (TAdmission req sub c) (admission_step a req sub c) r
| do_publish req sub c admitted committed r t r' : probe (native r) = None →
    publish_step req sub c admitted committed r = (t, r') → task_step r (TPublish req sub c admitted) t r'
| do_announce i rx c accepted r t r' : announce_step i rx c accepted r = (t, r') →
    task_step r (TAnnounce i rx c) t r'
| do_wait i rx c r t r' : receive i rx r = Some (t, r') → task_step r (TWait i rx c) t r'
| do_interrupt i rx c r t : interrupt i rx c r = Some t → task_step r (TWait i rx c) t r
| do_respond i response r : task_step r (TRespond i response) (respond_step i response r) r
| do_enter k i o validate r t r' : probe (native r) = None →
    enter_step k i o validate r = (t, r') → task_step r (TEnter k i o validate) t r'
| do_settle k i o validate committed r t r' : settle_step k i o validate committed r = (t, r') →
    task_step r (TSettle k i o validate) t r'
| do_deliver k i d accepted r t r' : deliver_step k i d accepted r = (t, r') → task_step r (TDeliver k i d) t r'
| do_receive i rx r t r' : receive i rx r = Some (t, r') → task_step r (TReceive i rx) t r'
| do_drain reason ids r : task_step r (TDrain reason ids) (drain_step reason ids) r
| do_loss waiters r t r' : loss_step waiters r = (t, r') → task_step r (TLoss waiters) t r'
| do_abort t r r' : abort t r = Some r' → task_step r t (TDone Aborted) r'.

(** How a task begins. *)
Inductive spawned (r : Runtime) : Task → Runtime → Prop :=
| spawn_request e f c : spawned r (TRequest e f c) r
| spawn_respond i response : spawned r (TRespond i response) r
| spawn_cancel i reason : spawned r (TEnter CallCancel i (OutcomeCancelled reason) false) r
| spawn_drain reason : spawned r (TDrain reason (pending_ids (coordinator r))) r
| spawn_loss t r' : loss_take r = (t, r') → spawned r t r'.

Inductive step : Runtime → Runtime → Prop :=
| step_task r j t t' r' : tasks r !! j = Some t → task_step r t t' r' →
    step r (set_tasks (<[j := t']> (tasks r)) r')
| step_spawn r t r' : spawned r t r' → step r (set_tasks (tasks r ++ [t]) r')
| step_drop r d1 d d2 : drops r = d1 ++ d :: d2 →
    step r (let '(d', r') := drop_step d r in set_drops (d1 ++ option_list d' ++ d2) r')
| step_native r n : native_step (native r) n → step r (set_native n r)
| step_executions r w : step r (set_executions w r)
| step_provider r b : step r (set_coordinator (set_provider_available b (coordinator r)) r).

(** A conversation's runtime as it is made *)
Definition runtime_new (w : W) : Runtime :=
  {| native := native_new; coordinator := coordinator_new; executions := w; channels := []; tasks := [];
     drops := []; trace := [] |}.

Definition reachable (r : Runtime) : Prop := ∃ w, rtc step (runtime_new w) r.
End rendezvous.
