(* ===== verification/RendezvousSafety.v ===== *)
(** What the interaction coordinator promises, on every run of Rendezvous: the durable record
    comes before what it makes visible, every interaction ends once, and a waiter is told
    exactly what was recorded.

    Guards, channel ends, identities and payloads are owned linearly.  A [Weights] gives each
    a value; weights that no critical section increases ([Conserved]) bound the whole runtime,
    and each ownership invariant is one choice of weights. *)

From S2P Require Import Prelude Text Json Goal Message Scalars Inbox Schedule ScheduleStore ScheduledStart Attempt Lifecycle Questionnaire Interaction Rendezvous.
From stdpp Require Import options.

(** ** Sums of integers *)

Fixpoint zsum {A} (f : A → Z) (l : list A) : Z :=
  match l with [] => 0 | x :: l => f x + zsum f l end.

Fixpoint zsumi {A} (f : nat → A → Z) (k : nat) (l : list A) : Z :=
  match l with [] => 0 | x :: l => f k x + zsumi f (S k) l end.

Lemma zsum_app {A} (f : A → Z) l k : zsum f (l ++ k) = (zsum f l + zsum f k)%Z.
Proof. induction l; cbn; lia. Qed.

Lemma zsum_insert {A} (f : A → Z) l j x y : l !! j = Some x →
  zsum f (<[j := y]> l) = (zsum f l - f x + f y)%Z.
Proof.
  revert j. induction l as [|z l IH]; intros [|j] Hj; simpl in *; simplify_eq; [lia|].
  rewrite (IH j Hj). lia.
Qed.

#[export] Instance zsum_perm {A} (f : A → Z) : Proper ((≡ₚ) ==> eq) (zsum f).
Proof. induction 1; cbn; lia. Qed.

Lemma zsum_nonneg {A} (f : A → Z) l : (∀ x, 0 <= f x)%Z → (0 <= zsum f l)%Z.
Proof. intros H. induction l as [|x l IH]; cbn; [lia|]. specialize (H x). lia. Qed.

Lemma zsum_elem {A} (f : A → Z) l x : (∀ x, 0 <= f x)%Z → x ∈ l → (f x <= zsum f l)%Z.
Proof.
  intros Hf Hx. apply list_elem_of_split in Hx as (l1 & l2 & ->). rewrite zsum_app. cbn.
  pose proof (zsum_nonneg f l1 Hf). pose proof (zsum_nonneg f l2 Hf). lia.
Qed.

Lemma zsum_opp {A} (f : A → Z) l : zsum (λ x, - f x)%Z l = (- zsum f l)%Z.
Proof. induction l; cbn; lia. Qed.

Lemma zsumi_app {A} (f : nat → A → Z) k l l' : zsumi f k (l ++ l') = (zsumi f k l + zsumi f (k + length l)%nat l')%Z.
Proof.
  revert k. induction l as [|x l IH]; intros k; cbn; [by rewrite Nat.add_0_r|]. rewrite IH.
  replace (S k + length l) with (k + S (length l)) by lia. lia.
Qed.

Lemma zsumi_insert {A} (f : nat → A → Z) k l j x y : l !! j = Some x →
  zsumi f k (<[j := y]> l) = (zsumi f k l - f (k + j)%nat x + f (k + j)%nat y)%Z.
Proof.
  revert k j. induction l as [|z l IH]; intros k [|j] Hj; simpl in *; simplify_eq.
  - rewrite Nat.add_0_r. lia.
  - rewrite (IH (S k) j Hj). replace (S k + j) with (k + S j) by lia. lia.
Qed.

(** A sum whose terms vanish but at one index. *)
Lemma zsumi_one {A} (f : nat → A → Z) (c k : nat) l : (∀ j x, j ≠ c → f j x = 0%Z) →
  zsumi f k l = (if decide (k <= c)%nat then match l !! (c - k)%nat with Some x => f c x | None => 0 end else 0)%Z.
Proof.
  intros H. revert k. induction l as [|x l IH]; intros k; cbn.
  - by case_decide.
  - rewrite IH. destruct (decide (k = c)) as [->|Hne].
    + rewrite Nat.sub_diag, decide_False, decide_True by lia. cbn. lia.
    + rewrite H by done. destruct (decide (S k <= c)) as [Hk|Hk].
      * assert (E : c - k = S (c - S k)) by lia. rewrite decide_True by lia. by rewrite E, Z.add_0_l.
      * rewrite decide_False by lia. lia.
Qed.

#[local] Open Scope Z_scope.

Section safety.
Context `{Formats, Digests}.
Context {W V : Type} (is_cancelled : V → W → bool) (native_cause : V → W → ToolCancellationCause).
Context (conversation : ConversationId) (routed : bool).

Notation Runtime := (@Runtime W V).
Notation Task := (@Task V).
Notation step := (@step _ _ W V is_cancelled native_cause conversation routed).
Notation task_step := (@task_step _ _ W V is_cancelled native_cause conversation routed).
Implicit Types r : Runtime.

(** ** Weights *)

Record Weights := {
  w_request : str → Z;          (** an identity issued and not yet published or given up *)
  w_guard : Z;                  (** a lifecycle guard *)
  w_pending : str → Z;          (** a pending entry *)
  w_tx : nat → Z;               (** a sender *)
  w_rx : nat → Z;               (** a receiver *)
  w_payload : str → Z;          (** a payload whose callback has not run *)
  w_open : nat → str → Z;       (** a channel with its sender *)
  w_listening : nat → Z;        (** a channel with its receiver *)
  w_event : Event → Z;
}.

Definition caller_weight w (k : Caller) : Z := match k with CallWait rx => w_rx w rx | _ => 0 end.
Definition waiter_weight w (p : PendingInteraction V) : Z := w_guard w + w_tx w (sender p).
Definition task_weight w (t : Task) : Z :=
  match t with
  | TRequest _ _ _ | TRespond _ _ | TDrain _ _ | TDone _ => 0
  | TAdmission req _ _ | TPublish req _ _ _ => w_request w (id req)
  | TAnnounce _ rx _ | TWait _ rx _ | TReceive _ rx => w_rx w rx
  | TEnter k _ _ _ => caller_weight w k
  | TSettle k _ _ _ => caller_weight w k + w_guard w
  | TDeliver k _ d => caller_weight w k + 2 * w_guard w + w_tx w (delivery_sender d) + w_payload w (payload_id (payload d))
  | TLoss l => zsum (waiter_weight w) l
  end.
Definition pending_weight w (e : str * PendingInteraction V) : Z := w_pending w (fst e) + waiter_weight w (snd e).
Definition message_weight w (m : result InteractionFailure WaiterPayload) : Z :=
  match m with Ok p => 2 * w_guard w + w_payload w (payload_id p) | Err _ => 0 end.
Definition channel_weight w (c : nat) (ch : Channel) : Z :=
  (if tx ch then w_open w c (channel_id ch) else 0) + (if rx ch then w_listening w c else 0) +
  match slot ch with Some m => message_weight w m | None => 0 end.
Definition drop_weight w (d : Drop) : Z :=
  match d with
  | DropWaiter p => 2 * w_guard w + w_payload w (payload_id p)
  | DropCallback p => w_guard w + w_payload w (payload_id p)
  | DropSettlement => w_guard w
  end.

(** What the shared state weighs, and what the runtime does. *)
Definition shared w r : Z :=
  zsum (pending_weight w) (map_to_list (pending (coordinator r))) + zsumi (channel_weight w) 0 (channels r) +
  zsum (drop_weight w) (drops r) + zsum (w_event w) (trace r).
Definition measure w r : Z := shared w r + zsum (task_weight w) (tasks r).

(** No critical section increases the weight. *)
Record Conserved w : Prop := {
  cw_issue i : w_request w i + w_event w (EIssued i) <= 0;
  cw_forget i : 0 <= w_request w i;
  cw_acquire : w_guard w + w_event w EAdmitted <= 0;
  cw_release : - w_guard w + w_event w ELeft <= 0;
  cw_publish req sub c : - w_request w (id req) + w_event w (ECommitted (requested_envelope req sub)) + w_pending w (id req) +
    w_tx w c + w_open w c (id req) + w_listening w c + w_rx w c + w_event w (EPrompt (id req)) <= 0;
  cw_announced i : w_event w (EAnnounced i) <= 0;
  cw_marked i : w_event w (EFailureMarked i) <= 0;
  cw_routed i o : w_event w (ERouted i o) <= 0;
  cw_remove i : 0 <= w_pending w i;
  cw_send c i m : - w_tx w c - w_open w c i + w_event w (EReleased i m) <= 0;
  cw_drop_sender c i : 0 <= w_tx w c + w_open w c i;
  cw_drop_receiver c : 0 <= w_rx w c + w_listening w c;
  cw_decide i o b : - w_pending w i + w_payload w i + w_event w (EDecided i o b) <= 0;
  cw_settled req t : w_event w (ECommitted (settled_envelope req t)) <= 0;
  cw_observed i o b : - w_payload w i + w_event w (EObserved i o b) <= 0;
}.

(** ** The ends of the channels *)

(** A channel with a message has no sender and keeps its receiver. *)
Definition slot_ok (ch : Channel) : Prop := slot ch = None ∨ tx ch = false ∧ rx ch = true.

Definition tx_weights (c0 : nat) : Weights := {|
  w_request _ := 0; w_guard := 0; w_pending _ := 0; w_tx c := if decide (c = c0) then 1 else 0; w_rx _ := 0;
  w_payload _ := 0; w_open c _ := if decide (c = c0) then -1 else 0; w_listening _ := 0; w_event _ := 0 |}.
Definition rx_weights (c0 : nat) : Weights := {|
  w_request _ := 0; w_guard := 0; w_pending _ := 0; w_tx _ := 0; w_rx c := if decide (c = c0) then 1 else 0;
  w_payload _ := 0; w_open _ _ := 0; w_listening c := if decide (c = c0) then -1 else 0; w_event _ := 0 |}.
Definition opposite w : Weights := {|
  w_request i := - w_request w i; w_guard := - w_guard w; w_pending i := - w_pending w i; w_tx c := - w_tx w c;
  w_rx c := - w_rx w c; w_payload i := - w_payload w i; w_open c i := - w_open w c i;
  w_listening c := - w_listening w c; w_event e := - w_event w e |}.

(** An identity is issued once, published once, and then pending or decided. *)
Definition count_event (p : Event → bool) (e : Event) : Z := if p e then 1 else 0.
Definition issued (i : str) (e : Event) : bool := match e with EIssued j => bool_decide (j = i) | _ => false end.
Definition requested (i : str) (e : Event) : bool :=
  match e with
  | ECommitted env => match envelope_fact env with Requested j _ => bool_decide (j = i) | Settled _ _ => false end
  | _ => false
  end.
Definition decided (i : str) (e : Event) : bool := match e with EDecided j _ _ => bool_decide (j = i) | _ => false end.
Definition settled (i : str) (e : Event) : bool :=
  match e with
  | ECommitted env => match envelope_fact env with Settled j _ => bool_decide (j = i) | Requested _ _ => false end
  | _ => false
  end.
Definition released (i : str) (e : Event) : bool := match e with EReleased j _ => bool_decide (j = i) | _ => false end.
Definition observed (i : str) (e : Event) : bool := match e with EObserved j _ _ => bool_decide (j = i) | _ => false end.
Definition occurrences (p : Event → bool) (t : list Event) : Z := zsum (count_event p) t.

Definition at_id (i j : str) : Z := if decide (j = i) then 1 else 0.
Definition zero_weights (ev : Event → Z) : Weights := {|
  w_request _ := 0; w_guard := 0; w_pending _ := 0; w_tx _ := 0; w_rx _ := 0; w_payload _ := 0;
  w_open _ _ := 0; w_listening _ := 0; w_event := ev |}.

Definition issue_weights (i : str) : Weights :=
  {| w_request := at_id i; w_guard := 0; w_pending _ := 0; w_tx _ := 0; w_rx _ := 0; w_payload _ := 0;
     w_open _ _ := 0; w_listening _ := 0;
     w_event e := count_event (requested i) e - count_event (issued i) e |}.
Definition decide_weights (i : str) : Weights :=
  {| w_request _ := 0; w_guard := 0; w_pending := at_id i; w_tx _ := 0; w_rx _ := 0; w_payload _ := 0;
     w_open _ _ := 0; w_listening _ := 0;
     w_event e := count_event (decided i) e - count_event (requested i) e |}.
Definition release_weights (i : str) : Weights :=
  {| w_request _ := 0; w_guard := 0; w_pending _ := 0; w_tx _ := 0; w_rx _ := 0; w_payload _ := 0;
     w_open _ := at_id i; w_listening _ := 0;
     w_event e := count_event (released i) e - count_event (requested i) e |}.
Definition observe_weights (i : str) : Weights :=
  {| w_request _ := 0; w_guard := 0; w_pending _ := 0; w_tx _ := 0; w_rx _ := 0; w_payload := at_id i;
     w_open _ _ := 0; w_listening _ := 0;
     w_event e := count_event (observed i) e - count_event (decided i) e |}.
Definition guard_weights : Weights :=
  {| w_request _ := 0; w_guard := 1; w_pending _ := 0; w_tx _ := 0; w_rx _ := 0; w_payload _ := 0;
     w_open _ _ := 0; w_listening _ := 0;
     w_event e := match e with EAdmitted => -1 | ELeft => 1 | _ => 0 end |}.

Ltac weights := split; cbn; unfold count_event, at_id, issued, requested, decided, released, observed; cbn;
  intros; repeat case_decide; repeat case_bool_decide; simplify_eq; lia.

Lemma tx_conserved c : Conserved (tx_weights c).
Proof. weights. Qed.
Lemma tx_conserved' c : Conserved (opposite (tx_weights c)).
Proof. weights. Qed.
Lemma rx_conserved c : Conserved (rx_weights c).
Proof. weights. Qed.
Lemma rx_conserved' c : Conserved (opposite (rx_weights c)).
Proof. weights. Qed.
Lemma issue_conserved i : Conserved (issue_weights i).
Proof. weights. Qed.
Lemma decide_conserved i : Conserved (decide_weights i).
Proof. weights. Qed.
Lemma release_conserved i : Conserved (release_weights i).
Proof. weights. Qed.
Lemma observe_conserved i : Conserved (observe_weights i).
Proof. weights. Qed.
Lemma guard_conserved : Conserved guard_weights.
Proof. weights. Qed.
Lemma guard_conserved' : Conserved (opposite guard_weights).
Proof. weights. Qed.

(** ** The state in order *)

Definition next_ordinal (s : CoordinatorState V) (e : InteractionExecution) : N :=
  default 1%N (next_ordinal_by_execution s !! namespace e).

(** The identities issued so far are below the next ordinal, each once. *)
Record issued_ok r : Prop := {
  io_once i : occurrences (issued i) (trace r) <= 1;
  io_below i : 0 < occurrences (issued i) (trace r) →
    ∃ e k, i = interaction_id e k ∧ (next_ordinal (coordinator r) e = 0 ∨ k < next_ordinal (coordinator r) e)%N;
  io_bound e : (next_ordinal (coordinator r) e <= u64_max)%N;
}.

(** Every sender held is the open end of its channel, and every receiver likewise. *)
Record ends_ok r : Prop := {
  eo_tx c : measure (tx_weights c) r = 0;
  eo_rx c : measure (rx_weights c) r = 0;
  eo_slots : Forall slot_ok (channels r);
  eo_issue i : measure (issue_weights i) r <= 0;
  eo_decide i : measure (decide_weights i) r <= 0;
  eo_ids : issued_ok r;
}.

(** ** What the critical sections weigh *)

Lemma shared_emit w e r : shared w (emit e r) = shared w r + w_event w e.
Proof. unfold shared. cbn. lia. Qed.

Lemma shared_acquire w l r : shared w (acquire l r) = shared w r + w_event w EAdmitted.
Proof. unfold acquire. by rewrite shared_emit. Qed.

Lemma shared_release w r : shared w (release r) = shared w r + w_event w ELeft.
Proof. unfold release. by rewrite shared_emit. Qed.

Lemma shared_drop_message w m r : shared w (drop_message m r) = shared w r + message_weight w m.
Proof. destruct m as [p|f]; unfold shared; cbn; lia. Qed.

Lemma shared_dropped w p r : shared w (set_drops (DropWaiter p :: drops r) r) =
  shared w r + (2 * w_guard w + w_payload w (payload_id p)).
Proof. apply (shared_drop_message w (Ok p)). Qed.

Lemma shared_channel w c ch ch' r : channels r !! c = Some ch →
  shared w (set_channels (<[c := ch']> (channels r)) r) = shared w r - channel_weight w c ch + channel_weight w c ch'.
Proof. intros Hc. unfold shared. cbn. rewrite (zsumi_insert _ _ _ _ _ _ Hc). cbn. lia. Qed.

Lemma shared_send w c m ch r : Conserved w → channels r !! c = Some ch → tx ch = true → slot ch = None →
  shared w (send c m r) <= shared w r + w_tx w c + message_weight w m.
Proof.
  intros Hw Hc Htx Hs. unfold send. rewrite Hc. pose proof (cw_send w Hw c (channel_id ch) (message_result m)).
  destruct (rx ch) eqn:Hrx.
  - rewrite (shared_channel _ _ ch) by done. rewrite shared_emit. unfold channel_weight. rewrite Htx, Hs, Hrx. cbn. lia.
  - rewrite shared_drop_message, (shared_channel _ _ ch) by done. rewrite shared_emit.
    unfold channel_weight. rewrite Htx, Hs, Hrx. cbn. lia.
Qed.

Lemma shared_drop_sender w c ch r : Conserved w → channels r !! c = Some ch → tx ch = true →
  shared w (drop_sender c r) <= shared w r + w_tx w c.
Proof.
  intros Hw Hc Htx. unfold drop_sender. rewrite Hc, (shared_channel _ _ ch) by done.
  pose proof (cw_drop_sender w Hw c (channel_id ch)). unfold channel_weight. rewrite Htx. cbn. lia.
Qed.

Lemma shared_drop_receiver w c ch r : Conserved w → channels r !! c = Some ch → rx ch = true →
  shared w (drop_receiver c r) <= shared w r + w_rx w c.
Proof.
  intros Hw Hc Hrx. unfold drop_receiver. rewrite Hc. pose proof (cw_drop_receiver w Hw c).
  destruct (slot ch) as [m|] eqn:Hs; rewrite ?shared_drop_message, (shared_channel _ _ ch) by done;
    unfold channel_weight; rewrite Hrx, Hs; cbn; lia.
Qed.

Lemma shared_remove w i p s r : remove_pending i (coordinator r) = Some (p, s) →
  shared w (set_coordinator s r) = shared w r - w_pending w i - waiter_weight w p.
Proof.
  unfold remove_pending. intros (q & Hq & [= -> <-])%bind_Some. unfold shared. cbn.
  rewrite <-(map_to_list_delete (pending (coordinator r)) i p Hq). cbn. unfold pending_weight at 2. cbn. lia.
Qed.

Lemma shared_admit w req sub c n r : pending (coordinator r) !! id req = None →
  shared w (set_coordinator (admit_pending req sub c n (coordinator r)) r) =
    shared w r + w_pending w (id req) + w_guard w + w_tx w n.
Proof.
  intros Hr. unfold shared. cbn. rewrite map_to_list_insert by done. cbn.
  unfold pending_weight at 1, waiter_weight at 1. cbn. lia.
Qed.

Lemma zsum_loss w s : zsum (task_weight w) [TLoss (map snd (map_to_list (pending s)))] + zsum (λ e, w_pending w (fst e)) (map_to_list (pending s))
  = zsum (pending_weight w) (map_to_list (pending s)).
Proof. cbn. induction (map_to_list (pending s)) as [|[i p] l IH]; cbn; [done|]. unfold pending_weight at 1. cbn. lia. Qed.

Lemma shared_take w r : shared w (set_coordinator (take_pending (coordinator r)) r) =
  shared w r - zsum (pending_weight w) (map_to_list (pending (coordinator r))).
Proof. unfold shared. cbn. rewrite map_to_list_empty. cbn. lia. Qed.

Lemma shared_same w r s : pending s = pending (coordinator r) → shared w (set_coordinator s r) = shared w r.
Proof. unfold shared. cbn. by intros ->. Qed.

(** ** Ends that are held exist *)

Lemma nonneg_tasks w l : (∀ i, 0 <= w_request w i) → 0 <= w_guard w → (∀ c, 0 <= w_tx w c) → (∀ c, 0 <= w_rx w c) →
  (∀ i, 0 <= w_payload w i) → ∀ t, 0 <= task_weight w t ∧ (t ∈ l → task_weight w t <= zsum (task_weight w) l).
Proof.
  intros Hq Hg Ht Hr Hp.
  assert (Hn : ∀ t, 0 <= task_weight w t).
  { assert (Hk : ∀ k, 0 <= caller_weight w k) by (intros []; cbn; auto; lia).
    intros []; cbn; auto; try lia.
    - specialize (Hk k). lia.
    - specialize (Hk k). specialize (Ht (delivery_sender d)). specialize (Hp (payload_id (payload d))). lia.
    - apply zsum_nonneg. intros p. unfold waiter_weight. specialize (Ht (sender p)). lia. }
  intros t. split; [done|]. by apply zsum_elem.
Qed.

Lemma tx_channels c l : zsumi (channel_weight (tx_weights c)) 0 l =
  match l !! c with Some ch => if tx ch then -1 else 0 | None => 0 end.
Proof.
  rewrite (zsumi_one _ c).
  - rewrite decide_True, Nat.sub_0_r by lia. destruct (l !! c) as [ch|]; [|done].
    unfold channel_weight. cbn. rewrite decide_True by done. destruct (tx ch), (rx ch), (slot ch) as [[]|]; done.
  - intros j ch Hj. unfold channel_weight. cbn. rewrite decide_False by done. destruct (tx ch), (rx ch), (slot ch) as [[]|]; done.
Qed.

Lemma rx_channels c l : zsumi (channel_weight (rx_weights c)) 0 l =
  match l !! c with Some ch => if rx ch then -1 else 0 | None => 0 end.
Proof.
  rewrite (zsumi_one _ c).
  - rewrite decide_True, Nat.sub_0_r by lia. destruct (l !! c) as [ch|]; [|done].
    unfold channel_weight. cbn. rewrite decide_True by done. destruct (tx ch), (rx ch), (slot ch) as [[]|]; done.
  - intros j ch Hj. unfold channel_weight. cbn. rewrite decide_False by done. destruct (tx ch), (rx ch), (slot ch) as [[]|]; done.
Qed.

Lemma zsum_zero {A} (f : A → Z) l : (∀ x, f x = 0) → zsum f l = 0.
Proof. intros Hf. induction l as [|x l IH]; cbn; [done|]. rewrite Hf. lia. Qed.

Lemma drops_zero w l : w_guard w = 0 → (∀ i, w_payload w i = 0) → zsum (drop_weight w) l = 0.
Proof. intros Hg Hp. apply zsum_zero. intros []; cbn; rewrite ?Hp, Hg; lia. Qed.

(** The sender of a pending entry, or of a task, is the open end of its channel. *)
Lemma tx_held c r : ends_ok r →
  zsum (pending_weight (tx_weights c)) (map_to_list (pending (coordinator r))) + zsum (task_weight (tx_weights c)) (tasks r)
  = match channels r !! c with Some ch => if tx ch then 1 else 0 | None => 0 end.
Proof.
  intros Hok. pose proof (eo_tx r Hok c) as Hm. unfold measure, shared in Hm.
  rewrite tx_channels, drops_zero, (zsum_zero (w_event (tx_weights c))) in Hm by done.
  destruct (channels r !! c) as [ch|]; [destruct (tx ch)|]; lia.
Qed.

Lemma rx_held c r : ends_ok r →
  zsum (task_weight (rx_weights c)) (tasks r) = match channels r !! c with Some ch => if rx ch then 1 else 0 | None => 0 end.
Proof.
  intros Hok. pose proof (eo_rx r Hok c) as Hm. unfold measure, shared in Hm.
  rewrite rx_channels, drops_zero, (zsum_zero (w_event (rx_weights c))), (zsum_zero (pending_weight _)) in Hm by done.
  destruct (channels r !! c) as [ch|]; [destruct (rx ch)|]; lia.
Qed.

Lemma sender_open c r : ends_ok r →
  (∃ t, t ∈ tasks r ∧ 1 <= task_weight (tx_weights c) t) ∨ (∃ i p, pending (coordinator r) !! i = Some p ∧ sender p = c) →
  ∃ ch, channels r !! c = Some ch ∧ tx ch = true ∧ slot ch = None.
Proof.
  intros Hok Hheld. pose proof (tx_held c r Hok) as Hsum.
  assert (Hn : ∀ e, 0 <= pending_weight (tx_weights c) e).
  { intros e. unfold pending_weight, waiter_weight. cbn. case_decide; lia. }
  assert (Ht : ∀ t, 0 <= task_weight (tx_weights c) t ∧
    (t ∈ tasks r → task_weight (tx_weights c) t <= zsum (task_weight (tx_weights c)) (tasks r))).
  { apply nonneg_tasks; cbn; intros; try case_decide; lia. }
  assert (Hpos : 1 <= zsum (pending_weight (tx_weights c)) (map_to_list (pending (coordinator r))) + zsum (task_weight (tx_weights c)) (tasks r)).
  { pose proof (zsum_nonneg _ (map_to_list (pending (coordinator r))) Hn).
    pose proof (zsum_nonneg (task_weight (tx_weights c)) (tasks r) (λ t, proj1 (Ht t))).
    destruct Hheld as [(t & Hin & Hge)|(i & p & Hp & Hs)].
    - pose proof (proj2 (Ht t) Hin). lia.
    - pose proof (zsum_elem _ _ (i, p) Hn (proj2 (elem_of_map_to_list _ _ _) Hp)) as Hle.
      unfold pending_weight at 1, waiter_weight in Hle. cbn in Hle. rewrite decide_True in Hle by done. lia. }
  destruct (channels r !! c) as [ch|] eqn:Hc; [|lia]. destruct (tx ch) eqn:Htx; [|lia].
  exists ch. split; [done|]. split; [done|].
  destruct (proj1 (Forall_lookup _ _) (eo_slots r Hok) c ch Hc) as [?|[? _]]; congruence.
Qed.

Lemma receiver_listening c r t : ends_ok r → t ∈ tasks r → 1 <= task_weight (rx_weights c) t →
  ∃ ch, channels r !! c = Some ch ∧ rx ch = true.
Proof.
  intros Hok Hin Hge. pose proof (rx_held c r Hok) as Hsum.
  assert (Ht : ∀ t, 0 <= task_weight (rx_weights c) t ∧
    (t ∈ tasks r → task_weight (rx_weights c) t <= zsum (task_weight (rx_weights c)) (tasks r))).
  { apply nonneg_tasks; cbn; intros; try case_decide; lia. }
  pose proof (proj2 (Ht t) Hin).
  destruct (channels r !! c) as [ch|] eqn:Hc; [|lia]. destruct (rx ch) eqn:Hrx; [|lia]. by exists ch.
Qed.

(** Sending, and dropping a sender, leave the receiver. *)
Lemma drop_message_channels m r : channels (drop_message m r) = channels r.
Proof. by destruct m. Qed.

Lemma send_rx c m r c' : rx <$> channels (send c m r) !! c' = rx <$> channels r !! c'.
Proof.
  unfold send. destruct (channels r !! c) as [ch|] eqn:Hc; [|done].
  destruct (rx ch) eqn:Hrx; rewrite ?drop_message_channels; cbn;
    (destruct (decide (c = c')) as [<-|Hne];
     [rewrite list_lookup_insert_eq by (by eapply lookup_lt_Some); rewrite Hc; cbn; by rewrite Hrx
     |by rewrite list_lookup_insert_ne]).
Qed.

Lemma drop_sender_rx c r c' : rx <$> channels (drop_sender c r) !! c' = rx <$> channels r !! c'.
Proof.
  unfold drop_sender. destruct (channels r !! c) as [ch|] eqn:Hc; [|done]. cbn.
  destruct (decide (c = c')) as [<-|Hne];
    [rewrite list_lookup_insert_eq by (by eapply lookup_lt_Some); by rewrite Hc|by rewrite list_lookup_insert_ne].
Qed.

Lemma listening_eq r r' c : rx <$> channels r' !! c = rx <$> channels r !! c →
  (∃ ch, channels r !! c = Some ch ∧ rx ch = true) → ∃ ch, channels r' !! c = Some ch ∧ rx ch = true.
Proof. intros E (ch & Hc & Hrx). rewrite Hc in E. cbn in E. rewrite Hrx in E. apply fmap_Some in E as (ch' & ? & ?). by exists ch'. Qed.

Lemma zsum_waiters w l : zsum (waiter_weight w) l = zsum (λ p, w_guard w + w_tx w (sender p)) l.
Proof. done. Qed.

(** Whoever holds a receiver in a task listens. *)
Lemma drop_held w c t r r' : Conserved w → ends_ok r → t ∈ tasks r → 1 <= task_weight (rx_weights c) t →
  rx <$> channels r' !! c = rx <$> channels r !! c →
  shared w (drop_receiver c r') <= shared w r' + w_rx w c.
Proof.
  intros Hw Hok Hin Hge E. destruct (listening_eq r r' c E (receiver_listening c r t Hok Hin Hge)) as (ch & Hc & Hrx).
  by apply (shared_drop_receiver w c ch).
Qed.

(** ** One step of a task *)

Lemma into_published_id f e i : id (fst (into_published conversation f e i)) = i.
Proof. by destruct f. Qed.

Lemma request_weight w e f c r t' r' : Conserved w → request_step conversation routed e f c r = (t', r') →
  shared w r' + task_weight w t' <= shared w r.
Proof.
  intros Hw. unfold request_step. case_match; [|intros [= <- <-]; cbn; lia].
  destruct (allocate_id e (coordinator r)) as [[i|failure] s] eqn:Ha.
  all: pose proof (allocate_id_same _ _ _ _ Ha) as (Hp & _).
  2: { intros [= <- <-]. rewrite shared_same by done. cbn. lia. }
  - destruct (into_published conversation f e i) as [req sub] eqn:Hi.
    pose proof (into_published_id f e i) as Hid. rewrite Hi in Hid. cbn in Hid.
    pose proof (cw_issue w Hw i). pose proof (cw_forget w Hw i).
    destruct (validate_interaction_subject sub); intros [= <- <-]; rewrite shared_emit, shared_same by done; [|cbn; lia].
    destruct routed; cbn; rewrite Hid; lia.
Qed.

Lemma admission_weight w a req sub c : Conserved w →
  task_weight w (admission_step a req sub c) <= w_request w (id req).
Proof.
  intros Hw. pose proof (cw_forget w Hw (id req)). unfold admission_step.
  destruct a as [permit|e]; [case_bool_decide|]; cbn; lia.
Qed.

Lemma publish_weight w req sub c admitted committed r t' r' : Conserved w →
  pending (coordinator r) !! id req = None →
  publish_step routed req sub c admitted committed r = (t', r') →
  shared w r' + task_weight w t' <= shared w r + w_request w (id req).
Proof.
  intros Hw Hfresh. pose proof (cw_forget w Hw (id req)). pose proof (cw_acquire w Hw). pose proof (cw_release w Hw).
  unfold publish_step, publish_inner. cbv zeta.
  destruct (admit_running (lifecycle (native r))) as [l|].
  2: { intros [= <- <-]. cbn. lia. }
  destruct (negb (admitted || _)); [intros [= <- <-]; rewrite shared_release, shared_acquire; cbn; lia|].
  destruct (negb committed); [intros [= <- <-]; rewrite shared_release, shared_acquire; cbn; lia|].
  intros [= <- <-]. pose proof (cw_publish w Hw req sub (length (channels r))) as Hpub.
  assert (Ht : task_weight w (if routed then TAnnounce (id req) (length (channels r)) c else TWait (id req) (length (channels r)) c)
    = w_rx w (length (channels r))) by (by destruct routed). rewrite Ht.
  unfold shared. cbn. rewrite map_to_list_insert, zsumi_app by done. cbn.
  unfold pending_weight at 1, waiter_weight at 1, channel_weight at 2. cbn. lia.
Qed.

Lemma abandon_weight w i c r t t' r' : Conserved w → ends_ok r → t ∈ tasks r → 1 <= task_weight (rx_weights c) t →
  abandon_after_control_failure i c r = (t', r') → shared w r' + task_weight w t' <= shared w r + w_rx w c.
Proof.
  intros Hw Hok Hin Hge. unfold abandon_after_control_failure. cbv zeta. intros [= <- <-]. cbn [task_weight].
  pose proof (cw_marked w Hw i). pose proof (cw_release w Hw). pose proof (cw_remove w Hw i).
  cbn [coordinator emit].
  destruct (remove_pending i (coordinator r)) as [[p s]|] eqn:Hrem.
  - set (r1 := release (send (sender p) (Err ControlLost) (set_coordinator s (emit (EFailureMarked i) r)))).
    assert (Hd : shared w (drop_receiver c r1) <= shared w r1 + w_rx w c).
    { apply (drop_held w c t r); try done. unfold r1. cbn [channels release emit with_lifecycle set_native]. by rewrite send_rx. }
    assert (Hp : pending (coordinator r) !! i = Some p).
    { unfold remove_pending in Hrem. by apply bind_Some in Hrem as (q & Hq & [= -> _]). }
    destruct (sender_open (sender p) r Hok) as (ch & Hc & Htx & Hs); [right; by exists i, p|].
    assert (Hsend : shared w r1 <= shared w r).
    { unfold r1. rewrite shared_release.
      pose proof (shared_send w (sender p) (Err ControlLost) ch (set_coordinator s (emit (EFailureMarked i) r)) Hw Hc Htx Hs) as Hsend.
      rewrite (shared_remove w i p s (emit (EFailureMarked i) r)) in Hsend by done.
      rewrite shared_emit in Hsend. unfold waiter_weight in Hsend. cbn [message_weight] in Hsend. lia. }
    lia.
  - pose proof (drop_held w c t r (emit (EFailureMarked i) r) Hw Hok Hin Hge eq_refl) as Hd.
    rewrite shared_emit in Hd. lia.
Qed.

Lemma failed_weight w k i e : task_weight w (settle_failed k i e : Task) = caller_weight w k.
Proof. by destruct k. Qed.

Lemma delivered_weight w k i d res : task_weight w (delivered k i d res : Task) = caller_weight w k.
Proof. by destruct k. Qed.

Lemma enter_weight w k i o v r t' r' : Conserved w → enter_step k i o v r = (t', r') →
  shared w r' + task_weight w t' <= shared w r + caller_weight w k.
Proof.
  intros Hw. pose proof (cw_acquire w Hw). unfold enter_step.
  destruct (try_enter_settlement _) as [l|]; intros [= <- <-].
  - rewrite shared_acquire. cbn. lia.
  - rewrite failed_weight. lia.
Qed.

Lemma settle_weight w k i o v committed r t' r' : Conserved w →
  settle_step is_cancelled native_cause k i o v committed r = (t', r') →
  shared w r' + task_weight w t' <= shared w r + caller_weight w k + w_guard w.
Proof.
  intros Hw. pose proof (cw_release w Hw). unfold settle_step.
  destruct (remove_pending i (coordinator r)) as [[p s]|] eqn:Hrem.
  2: { intros [= <- <-]. rewrite failed_weight, shared_release. lia. }
  destruct (select_outcome _ _ p o v (executions r)) as [o'|e].
  2: { intros [= <- <-]. rewrite failed_weight, shared_release. lia. }
  intros [= <- <-]. cbn [task_weight delivery_sender payload payload_id].
  pose proof (cw_decide w Hw i o' (is_cancelled (cancellation p) (executions r))).
  pose proof (cw_settled w Hw (request p) (audit_settlement o')).
  pose proof (shared_remove w i p s r Hrem). unfold waiter_weight in *.
  destruct committed; rewrite ?shared_emit; lia.
Qed.

Lemma deliver_weight w k i d accepted r t' r' : Conserved w → ends_ok r → TDeliver k i d ∈ tasks r →
  deliver_step routed k i d accepted r = (t', r') →
  shared w r' + task_weight w t' <= shared w r + task_weight w (TDeliver k i d).
Proof.
  intros Hw Hok Hin. unfold deliver_step, deliver.
  pose proof (cw_marked w Hw i). pose proof (cw_routed w Hw i (outcome (payload d))).
  destruct (sender_open (delivery_sender d) r Hok) as (ch & Hc & Htx & Hs).
  { left. eexists. split; [done|]. cbn. rewrite decide_True by done.
    assert (caller_weight (tx_weights (delivery_sender d)) k = 0) by (by destruct k). lia. }
  destruct (negb (audit_committed d)); [|destruct (routed && negb accepted)]; intros [= <- <-];
    rewrite delivered_weight; cbn [task_weight].
  - rewrite shared_dropped.
    pose proof (shared_send w _ (Err AuditFailed) ch (emit (EFailureMarked i) r) Hw Hc Htx Hs) as Hsend.
    rewrite shared_emit in Hsend. cbn [message_weight] in *. lia.
  - rewrite shared_dropped.
    pose proof (shared_send w _ (Err ControlLost) ch (emit (EFailureMarked i) r) Hw Hc Htx Hs) as Hsend.
    rewrite shared_emit in Hsend. cbn [message_weight] in *. lia.
  - destruct routed.
    + pose proof (shared_send w _ (Ok (payload d)) ch (emit (ERouted i (outcome (payload d))) r) Hw Hc Htx Hs) as Hsend.
      rewrite shared_emit in Hsend. cbn [message_weight] in *. lia.
    + pose proof (shared_send w _ (Ok (payload d)) ch r Hw Hc Htx Hs) as Hsend. cbn [message_weight] in *. lia.
Qed.

Lemma receive_weight w i c r t t' r' : Conserved w → ends_ok r → t ∈ tasks r → 1 <= task_weight (rx_weights c) t →
  receive i c r = Some (t', r') → shared w r' + task_weight w t' <= shared w r + w_rx w c.
Proof.
  intros Hw Hok Hin Hge. unfold receive.
  pose proof (drop_held w c t r r Hw Hok Hin Hge eq_refl) as Hd.
  destruct (channels r !! c) as [ch|]; [|done]. destruct (slot ch) as [m|]; [|destruct (tx ch); [done|]];
    intros [= <- <-]; cbn; lia.
Qed.

Lemma loss_weight w l r t' r' : Conserved w → ends_ok r → TLoss l ∈ tasks r → loss_step l r = (t', r') →
  shared w r' + task_weight w t' <= shared w r + task_weight w (TLoss l).
Proof.
  intros Hw Hok Hin. pose proof (cw_release w Hw). destruct l as [|p l]; intros [= <- <-]; cbn [task_weight zsum]; [lia|].
  destruct (sender_open (sender p) r Hok) as (ch & Hc & Htx & Hs).
  { left. eexists. split; [done|]. cbn [task_weight zsum]. unfold waiter_weight at 1. cbn. rewrite decide_True by done.
    assert (0 <= zsum (waiter_weight (tx_weights (sender p))) l); [|lia].
    apply zsum_nonneg. intros q. unfold waiter_weight. cbn. case_decide; lia. }
  rewrite shared_release. pose proof (shared_send w _ (Err ControlLost) ch r Hw Hc Htx Hs) as Hsend.
  cbn [message_weight] in Hsend. unfold waiter_weight at 2. lia.
Qed.

Lemma abort_weight w t r r' : Conserved w → ends_ok r → t ∈ tasks r → abort routed t r = Some r' →
  shared w r' <= shared w r + task_weight w t.
Proof.
  intros Hw Hok Hin Ha.
  assert (Hone : ∀ c : nat, (if decide (c = c) then 1 else 0) = 1) by (intros c; by rewrite decide_True).
  destruct t as [| req | | i c | i c | | | | k i d | i c | | |]; cbn [abort] in Ha; try done.
  - simplify_eq. cbn. pose proof (cw_forget w Hw (id req)). lia.
  - simplify_eq. apply (drop_held w c _ r r Hw Hok Hin); cbn; [by rewrite Hone|done].
  - simplify_eq. apply (drop_held w c _ r r Hw Hok Hin); cbn; [by rewrite Hone|done].
  - destruct (audit_committed d && routed); [|done]. apply (inj Some) in Ha as <-.
    destruct (sender_open (delivery_sender d) r Hok) as (ch & Hc & Htx & Hs).
    { left. eexists. split; [done|]. cbn. rewrite decide_True by done.
      assert (caller_weight (tx_weights (delivery_sender d)) k = 0) by (by destruct k). lia. }
    pose proof (shared_drop_sender w _ ch r Hw Hc Htx) as Hsd.
    change (set_drops _ _) with (drop_message (Ok (payload d)) (drop_sender (delivery_sender d) r)) in *.
    pose proof (shared_drop_message w (Ok (payload d)) (drop_sender (delivery_sender d) r)) as Hm.
    set (r1 := drop_message (Ok (payload d)) (drop_sender (delivery_sender d) r)) in *. cbn [message_weight] in Hm.
    destruct k as [c| | |]; cbn [task_weight caller_weight]; try lia.
    assert (Hr : shared w (drop_receiver c r1) <= shared w r1 + w_rx w c).
    { apply (drop_held w c _ r r1 Hw Hok Hin); [cbn; rewrite Hone; repeat case_decide; lia|].
      unfold r1. rewrite drop_message_channels. apply drop_sender_rx. }
    lia.
  - simplify_eq. apply (drop_held w c _ r r Hw Hok Hin); cbn; [by rewrite Hone|done].
Qed.

(** ** No step increases a conserved weight *)

Lemma zsumi_zero {A} (f : nat → A → Z) k l : (∀ c x, f c x = 0) → zsumi f k l = 0.
Proof. intros Hf. revert k. induction l as [|x l IH]; intros k; cbn; [done|]. rewrite Hf, IH. lia. Qed.

Lemma counts_split (p q : Event → bool) t :
  zsum (λ e, count_event p e - count_event q e) t = occurrences p t - occurrences q t.
Proof. unfold occurrences. induction t as [|e t IH]; cbn; lia. Qed.

Lemma occurrences_nonneg p t : 0 <= occurrences p t.
Proof. apply zsum_nonneg. intros e. unfold count_event. destruct (p e); lia. Qed.

Lemma issue_measure i r : measure (issue_weights i) r =
  zsum (task_weight (issue_weights i)) (tasks r) + occurrences (requested i) (trace r) - occurrences (issued i) (trace r).
Proof.
  unfold measure, shared. rewrite (zsum_zero (pending_weight _)), zsumi_zero, drops_zero by
    (try done; intros; unfold channel_weight, message_weight; cbn; repeat case_match; done).
  cbn [w_event issue_weights]. rewrite counts_split. lia.
Qed.

Lemma decide_measure i r : measure (decide_weights i) r =
  zsum (pending_weight (decide_weights i)) (map_to_list (pending (coordinator r))) +
  occurrences (decided i) (trace r) - occurrences (requested i) (trace r).
Proof.
  unfold measure, shared.
  assert (Ht : ∀ t : Task, task_weight (decide_weights i) t = 0).
  { intros []; try done; try (by destruct k). apply zsum_zero. done. }
  rewrite (zsum_zero (task_weight _)), zsumi_zero, drops_zero by
    (try done; intros; unfold channel_weight, message_weight; cbn; repeat case_match; done).
  cbn [w_event decide_weights]. rewrite counts_split. lia.
Qed.

Lemma issue_nonneg i l : 0 <= zsum (task_weight (issue_weights i)) l ∧
  ∀ t, t ∈ l → task_weight (issue_weights i) t <= zsum (task_weight (issue_weights i)) l.
Proof.
  assert (Ht : ∀ t, 0 <= task_weight (issue_weights i) t ∧
    (t ∈ l → task_weight (issue_weights i) t <= zsum (task_weight (issue_weights i)) l)).
  { apply nonneg_tasks; cbn; intros; unfold at_id; try case_decide; lia. }
  split; [apply zsum_nonneg; intros t; apply Ht|]. intros t. apply Ht.
Qed.

Lemma pending_at i j p r : pending (coordinator r) !! j = Some p →
  at_id i j <= zsum (pending_weight (decide_weights i)) (map_to_list (pending (coordinator r))).
Proof.
  intros Hp. assert (Hn : ∀ e, 0 <= pending_weight (decide_weights i) e).
  { intros e. unfold pending_weight, waiter_weight, at_id. cbn. unfold at_id. case_decide; lia. }
  pose proof (zsum_elem _ _ (j, p) Hn (proj2 (elem_of_map_to_list _ _ _) Hp)) as Hle.
  unfold pending_weight at 1, waiter_weight in Hle. cbn in Hle. lia.
Qed.

(** An identity still to be published is not pending. *)
Lemma published_fresh r req sub c admitted : ends_ok r → TPublish req sub c admitted ∈ tasks r →
  pending (coordinator r) !! id req = None.
Proof.
  intros Hok Hin. destruct (pending (coordinator r) !! id req) as [p|] eqn:Hp; [|done]. exfalso.
  pose proof (eo_issue r Hok (id req)) as Hi. rewrite issue_measure in Hi.
  pose proof (eo_decide r Hok (id req)) as Hd. rewrite decide_measure in Hd.
  pose proof (io_once r (eo_ids r Hok) (id req)). pose proof (pending_at (id req) _ _ _ Hp) as Hle.
  pose proof (proj2 (issue_nonneg (id req) (tasks r)) _ Hin) as Hge. cbn in Hge.
  unfold at_id in Hge, Hle. rewrite decide_True in Hge by done. rewrite decide_True in Hle by done.
  pose proof (occurrences_nonneg (decided (id req)) (trace r)). lia.
Qed.

Lemma task_step_weight w r t t' r' : Conserved w → ends_ok r → t ∈ tasks r → task_step r t t' r' →
  shared w r' + task_weight w t' <= shared w r + task_weight w t.
Proof.
  intros Hw Hok Hin Hstep.
  assert (Hone : ∀ c : nat, (if decide (c = c) then 1 else 0) = 1) by (intros c; by rewrite decide_True).
  destruct Hstep; cbn [task_weight].
  - pose proof (request_weight w e f c r t r' Hw ltac:(done)). lia.
  - pose proof (admission_weight w a req sub c Hw). lia.
  - by apply (publish_weight w req sub c admitted committed); [|eapply published_fresh|].
  - unfold announce_step in *. destruct accepted; [|by eapply abandon_weight; [..|done|cbn; by rewrite Hone|]].
    simplify_eq. rewrite shared_emit. pose proof (cw_announced w Hw i). cbn. lia.
  - eapply receive_weight; try done. cbn. by rewrite Hone.
  - unfold interrupt in *. case_match; simplify_eq. cbn. lia.
  - unfold respond_step. case_match; [|cbn; lia]. case_match; cbn; lia.
  - by eapply enter_weight.
  - pose proof (settle_weight w k i o validate committed r t r' Hw ltac:(done)). lia.
  - by eapply deliver_weight.
  - eapply receive_weight; try done. cbn. by rewrite Hone.
  - destruct ids; cbn; lia.
  - by eapply loss_weight.
  - pose proof (abort_weight w t r r' Hw Hok Hin ltac:(done)). lia.
Qed.

Lemma step_weight w r r' : Conserved w → ends_ok r → step r r' → measure w r' <= measure w r.
Proof.
  intros Hw Hok Hstep. destruct Hstep as [r j t t' r' Hj Ht|r t r' Hs|r d1 d d2 Hd|r n Hn|r e|r b].
  - pose proof (task_step_weight w r t t' r' Hw Hok ltac:(by eapply list_elem_of_lookup_2) Ht).
    unfold measure. cbn [tasks set_tasks]. rewrite (zsum_insert _ _ _ _ _ Hj).
    change (shared w (set_tasks _ r')) with (shared w r'). lia.
  - assert (Hsh : shared w r' + task_weight w t <= shared w r).
    { destruct Hs as [| | | |t r' Hl]; cbn; try lia. injection Hl as <- <-. rewrite shared_take.
      rewrite <-zsum_loss. cbn. pose proof (zsum_nonneg (λ e, w_pending w (fst e))
        (map_to_list (pending (coordinator r))) (λ e, cw_remove w Hw (fst e))). lia. }
    unfold measure. cbn [tasks set_tasks]. rewrite zsum_app. cbn [zsum].
    change (shared w (set_tasks _ r')) with (shared w r'). lia.
  - unfold measure, shared. pose proof (cw_release w Hw).
    destruct d as [p|p|]; cbn; rewrite Hd, !zsum_app; cbn; try lia.
    pose proof (cw_observed w Hw (payload_id p) (outcome p) (audited p)). lia.
  - done.
  - done.
  - done.
Qed.

(** ** The invariant of the ends *)

Lemma zsumi_opp {A} (f : nat → A → Z) k l : zsumi (λ c x, - f c x) k l = - zsumi f k l.
Proof. revert k. induction l as [|x l IH]; intros k; cbn; [done|]. rewrite IH. lia. Qed.

Lemma zsum_ext {A} (f g : A → Z) l : (∀ x, f x = g x) → zsum f l = zsum g l.
Proof. intros Hf. induction l as [|x l IH]; cbn; [done|]. by rewrite Hf, IH. Qed.

Lemma zsumi_ext {A} (f g : nat → A → Z) k l : (∀ c x, f c x = g c x) → zsumi f k l = zsumi g k l.
Proof. intros Hf. revert k. induction l as [|x l IH]; intros k; cbn; [done|]. by rewrite Hf, IH. Qed.

Lemma measure_opposite w r : measure (opposite w) r = - measure w r.
Proof.
  assert (Hm : ∀ m, message_weight (opposite w) m = - message_weight w m) by (intros []; cbn; lia).
  assert (Hk : ∀ k, caller_weight (opposite w) k = - caller_weight w k) by (by intros []).
  unfold measure, shared.
  rewrite (zsum_ext (pending_weight (opposite w)) (λ e, - pending_weight w e)), zsum_opp
    by (intros e; unfold pending_weight, waiter_weight; cbn; lia).
  rewrite (zsumi_ext (channel_weight (opposite w)) (λ c ch, - channel_weight w c ch)), zsumi_opp.
  2: { intros c ch. unfold channel_weight. destruct (tx ch), (rx ch), (slot ch); rewrite ?Hm; cbn; lia. }
  rewrite (zsum_ext (drop_weight (opposite w)) (λ d, - drop_weight w d)), zsum_opp by (intros []; cbn; lia).
  rewrite (zsum_ext (w_event (opposite w)) (λ e, - w_event w e)), zsum_opp by done.
  rewrite (zsum_ext (task_weight (opposite w)) (λ t, - task_weight w t)), zsum_opp.
  2: { intros []; cbn; rewrite ?Hk; try lia. induction waiters as [|p l IH]; cbn; [done|].
       rewrite IH. unfold waiter_weight. cbn. lia. }
  lia.
Qed.

Lemma step_equal w r r' : Conserved w → Conserved (opposite w) → ends_ok r → step r r' → measure w r' = measure w r.
Proof.
  intros Hw Hw' Hok Hs. pose proof (step_weight w r r' Hw Hok Hs).
  pose proof (step_weight _ r r' Hw' Hok Hs) as Hle. rewrite !measure_opposite in Hle. lia.
Qed.

(** What every critical section but the allocation of an identity leaves. *)
Record extends r r' : Prop := {
  ex_trace : ∃ l, trace r' = l ++ trace r ∧ Forall (λ e, ∀ i, e ≠ EIssued i) l;
  ex_ordinals : next_ordinal_by_execution (coordinator r') = next_ordinal_by_execution (coordinator r);
  ex_slots : Forall slot_ok (channels r) → Forall slot_ok (channels r');
}.

#[local] Instance extends_trans : Transitive extends.
Proof.
  intros a b c [(l & Hl & Hf) Ho Hs] [(k & Hk & Hg) Ho' Hs']. split; [|congruence|auto].
  exists (k ++ l). rewrite Hk, Hl, app_assoc. split; [done|]. by apply Forall_app.
Qed.
#[local] Instance extends_refl : Reflexive extends.
Proof. intros r. split; [|done..]. by exists []. Qed.

Lemma extends_emit e r r' : extends r r' → (∀ i, e ≠ EIssued i) → extends r (emit e r').
Proof.
  intros Hr He. transitivity r'; [done|]. split; [|done..]. exists [e]. split; [done|]. by repeat constructor.
Qed.

Lemma extends_acquire l r r' : extends r r' → extends r (acquire l r').
Proof. intros Hr. apply extends_emit; [|done]. transitivity r'; [done|]. split; [by exists []|done..]. Qed.
Lemma extends_release r r' : extends r r' → extends r (release r').
Proof. intros Hr. apply extends_emit; [|done]. transitivity r'; [done|]. split; [by exists []|done..]. Qed.
Lemma extends_dropped m r r' : extends r r' → extends r (drop_message m r').
Proof. intros Hr. transitivity r'; [done|]. destruct m; split; try done; by exists []. Qed.
Lemma extends_coordinator s r r' : extends r r' →
  next_ordinal_by_execution s = next_ordinal_by_execution (coordinator r') → extends r (set_coordinator s r').
Proof. intros Hr Hs. transitivity r'; [done|]. split; [by exists []|done..]. Qed.

Lemma extends_channel c ch' r r' : extends r r' →
  (∀ ch, channels r' !! c = Some ch → slot_ok ch → slot_ok ch') → extends r (set_channels (<[c := ch']> (channels r')) r').
Proof.
  intros Hr Hch. transitivity r'; [done|]. split; [by exists []|done|]. cbn. intros Hs.
  apply Forall_lookup. intros j ch. destruct (decide (j = c)) as [->|Hne].
  - intros Hj. destruct (channels r' !! c) as [ch0|] eqn:Hc.
    + rewrite list_lookup_insert_eq in Hj by (by eapply lookup_lt_Some). injection Hj as <-.
      apply (Hch ch0); [done|]. by apply (proj1 (Forall_lookup _ _) Hs c).
    + rewrite list_insert_ge in Hj by (by apply lookup_ge_None). congruence.
  - rewrite list_lookup_insert_ne by done. by apply (proj1 (Forall_lookup _ _) Hs).
Qed.

Lemma extends_send c m r r' : extends r r' → extends r (send c m r').
Proof.
  intros Hr. unfold send. destruct (channels r' !! c) as [ch|]; [|done]. cbv zeta.
  destruct (rx ch).
  - apply extends_channel; [by apply extends_emit|]. intros _ _ _. by right.
  - apply extends_dropped, extends_channel; [by apply extends_emit|]. intros _ _ _. by left.
Qed.

Lemma extends_drop_sender c r r' : extends r r' → extends r (drop_sender c r').
Proof.
  intros Hr. unfold drop_sender. destruct (channels r' !! c) as [ch|] eqn:Hc; [|done].
  apply extends_channel; [done|]. rewrite Hc. intros _ [= <-] [?|[? ?]]; [by left|by right].
Qed.

Lemma extends_drop_receiver c r r' : extends r r' → extends r (drop_receiver c r').
Proof.
  intros Hr. unfold drop_receiver. destruct (channels r' !! c) as [ch|]; [|done]. cbv zeta.
  assert (Hx : extends r (set_channels (<[c := {| channel_id := channel_id ch; slot := None; tx := tx ch; rx := false |}]> (channels r')) r')).
  { apply extends_channel; [done|]. intros _ _ _. by left. }
  destruct (slot ch); [by apply extends_dropped|done].
Qed.

Lemma remove_ordinals i p s s' : remove_pending i s = Some (p, s') →
  next_ordinal_by_execution s' = next_ordinal_by_execution (s : CoordinatorState V).
Proof. unfold remove_pending. by intros (q & _ & [= _ <-])%bind_Some. Qed.

#[local] Hint Resolve extends_acquire extends_release extends_dropped extends_send extends_drop_sender
  extends_drop_receiver extends_refl : extends.
#[local] Hint Extern 1 (extends _ (emit _ _)) => apply extends_emit : extends.
#[local] Hint Extern 1 (extends _ (set_coordinator _ _)) => apply extends_coordinator : extends.

Ltac extending := eauto 12 with extends.

Lemma extends_self r : extends r r.
Proof. reflexivity. Qed.
#[local] Hint Resolve extends_self : extends.

Lemma extends_publish req sub c r r' : extends r r' → extends r
  (set_channels (channels r' ++ [{| channel_id := id req; slot := None; tx := true; rx := true |}])
     (set_coordinator (admit_pending req sub c (length (channels r')) (coordinator r')) r')).
Proof.
  intros Hr. transitivity r'; [done|]. split; [by exists []|done|]. cbn. intros Hs.
  apply Forall_app. split; [done|]. repeat constructor.
Qed.

Lemma task_extends r t t' r' : (∀ e f c, t ≠ TRequest e f c) → task_step r t t' r' → extends r r'.
Proof.
  intros Hne Hstep. destruct Hstep; try (by exfalso; eapply Hne); try done.
  - unfold publish_step, publish_inner in *. cbv zeta in *.
    destruct (admit_running _) as [l|]; [|by simplify_eq].
    destruct (negb (admitted || _)); [simplify_eq; extending|].
    destruct (negb committed); [simplify_eq; extending|]. injection H2 as _ <-.
    apply extends_emit; [|done].
    apply (extends_publish req sub c r (emit (ECommitted (requested_envelope req sub)) (acquire l r))). extending.
  - unfold announce_step, abandon_after_control_failure in *. destruct accepted; simplify_eq; [extending|].
    apply extends_drop_receiver. cbn [coordinator emit]. destruct (remove_pending i (coordinator r)) as [[p s]|] eqn:Hr; [|extending].
    apply remove_ordinals in Hr. extending.
  - unfold receive in *. repeat case_match; simplify_eq; extending.
  - unfold enter_step in *. case_match; simplify_eq; extending.
  - unfold settle_step in *. destruct (remove_pending i (coordinator r)) as [[p s]|] eqn:Hr; [|simplify_eq; extending].
    apply remove_ordinals in Hr. destruct (select_outcome _ _ p o validate (executions r)); simplify_eq; [|extending].
    destruct committed; extending.
  - unfold deliver_step, deliver in *. destruct (negb (audit_committed d)); [simplify_eq|].
    + apply (extends_dropped (Ok (payload d))). extending.
    + destruct (routed && negb accepted); simplify_eq; [apply (extends_dropped (Ok (payload d))); extending|].
      destruct routed; extending.
  - unfold receive in *. repeat case_match; simplify_eq; extending.
  - unfold loss_step in *. destruct waiters; simplify_eq; extending.
  - destruct t; cbn [abort] in *; simplify_eq; try done; try extending.
    destruct (audit_committed d && routed); [|done]. apply (inj Some) in H1 as <-.
    destruct k; extending.
Qed.

Lemma occurrences_cons p e t : occurrences p (e :: t) = count_event p e + occurrences p t.
Proof. done. Qed.

Lemma occurrences_app p t t' : occurrences p (t ++ t') = occurrences p t + occurrences p t'.
Proof. apply zsum_app. Qed.

Lemma extends_issued i r r' : extends r r' → occurrences (issued i) (trace r') = occurrences (issued i) (trace r).
Proof.
  intros [(l & -> & Hl) _ _]. rewrite occurrences_app.
  enough (occurrences (issued i) l = 0) by lia. unfold occurrences.
  induction Hl as [|e l He _ IH]; cbn; [done|]. rewrite IH.
  unfold count_event, issued. destruct e; try done. case_bool_decide as Hj; [|done]. by destruct (He i0).
Qed.

Lemma extends_next e r r' : extends r r' → next_ordinal (coordinator r') e = next_ordinal (coordinator r) e.
Proof. intros [_ Ho _]. unfold next_ordinal. by rewrite Ho. Qed.

Lemma extends_issued_ok r r' : extends r r' → issued_ok r → issued_ok r'.
Proof.
  intros Hx [Ho Hb Hm]. split.
  - intros i. by rewrite (extends_issued i r r').
  - intros i. rewrite (extends_issued i r r') by done. intros (e & k & -> & Hk)%Hb. exists e, k.
    by rewrite (extends_next e r r').
  - intros e. by rewrite (extends_next e r r').
Qed.

Lemma next_insert s e e' n :
  next_ordinal (set_ordinals (<[namespace e := n]> (next_ordinal_by_execution s)) s : CoordinatorState V) e' =
  if decide (namespace e' = namespace e) then n else next_ordinal s e'.
Proof.
  unfold next_ordinal. cbn. case_decide as Hn.
  - rewrite Hn. by rewrite lookup_insert_eq.
  - by rewrite lookup_insert_ne.
Qed.

(** [allocate_id] issues an identity never issued before. *)
Lemma allocate_issued_ok e i s r : issued_ok r → allocate_id e (coordinator r) = (Ok i, s) →
  issued_ok (emit (EIssued i) (set_coordinator s r)).
Proof.
  intros [Ho Hb Hm] Ha. unfold allocate_id in Ha. fold (next_ordinal (coordinator r) e) in Ha.
  pose proof (Hm e) as Hme. remember (next_ordinal (coordinator r) e) as n eqn:Hn.
  destruct (N.eqb_spec n 0) as [Hz|Hz]; [done|]. injection Ha as <- <-.
  assert (Hn' : (default 0 (u64_checked_add n 1) = 0 ∨ n < default 0 (u64_checked_add n 1))%N ∧
                (default 0 (u64_checked_add n 1) <= u64_max)%N).
  { destruct (u64_checked_add n 1) as [m|] eqn:Hadd; cbn; [|split; [by left|unfold u64_max; lia]].
    apply u64_checked_add_Some in Hadd. lia. }
  assert (Hother : ∀ e', namespace e' = namespace e → next_ordinal (coordinator r) e' = n).
  { intros e' He. subst n. unfold next_ordinal. by rewrite He. }
  assert (Hnew : occurrences (issued (interaction_id e n)) (trace r) = 0).
  { pose proof (occurrences_nonneg (issued (interaction_id e n)) (trace r)) as Hnn.
    destruct (decide (occurrences (issued (interaction_id e n)) (trace r) = 0)) as [|Hne]; [done|].
    destruct (Hb (interaction_id e n)) as (e' & k & He & Hk); [lia|].
    apply interaction_id_inj in He as [He ->]. rewrite (Hother e') in Hk by done. lia. }
  split.
  - intros i. cbn [trace emit set_coordinator]. rewrite occurrences_cons. unfold count_event at 1. cbn [issued].
    destruct (bool_decide_reflect (interaction_id e n = i)) as [Hi|Hi]; [rewrite <-Hi; lia|]. specialize (Ho i). lia.
  - intros i. cbn [trace emit coordinator set_coordinator]. rewrite occurrences_cons.
    unfold count_event at 1. cbn [issued].
    destruct (bool_decide_reflect (interaction_id e n = i)) as [Hi|Hi].
    + intros _. exists e, n. split; [done|]. rewrite next_insert, decide_True by done. apply Hn'.
    + intros Hpos. destruct (Hb i ltac:(cbn in Hpos; lia)) as (e' & k & -> & Hk). exists e', k. split; [done|].
      rewrite next_insert. destruct (decide (namespace e' = namespace e)) as [He|He]; [|done].
      rewrite (Hother e' He) in Hk. destruct Hn' as [[->|?] _]; [by left|]. right. lia.
  - intros e'. cbn [coordinator emit set_coordinator]. rewrite next_insert.
    destruct (decide (namespace e' = namespace e)); [apply Hn'|apply Hm].
Qed.

Lemma refuse_issued_ok e f s r : issued_ok r → allocate_id e (coordinator r) = (Err f, s) →
  issued_ok (set_coordinator s r).
Proof.
  intros [Ho Hb Hm] Ha. unfold allocate_id in Ha. fold (next_ordinal (coordinator r) e) in Ha.
  destruct (N.eqb_spec (next_ordinal (coordinator r) e) 0) as [Hz|Hz]; [|done]. injection Ha as _ <-.
  assert (Hn : ∀ e', next_ordinal (set_ordinals (<[namespace e := next_ordinal (coordinator r) e]>
    (next_ordinal_by_execution (coordinator r))) (coordinator r)) e' = next_ordinal (coordinator r) e').
  { intros e'. rewrite next_insert. case_decide as He; [|done]. unfold next_ordinal. by rewrite He. }
  split.
  - done.
  - intros i (e' & k & -> & Hk)%Hb. exists e', k. cbn [coordinator set_coordinator]. by rewrite Hn.
  - intros e'. cbn [coordinator set_coordinator]. rewrite Hn. apply Hm.
Qed.

Lemma request_issued_ok e f c r t' r' : issued_ok r → request_step conversation routed e f c r = (t', r') →
  issued_ok r' ∧ channels r' = channels r.
Proof.
  intros Hok. unfold request_step. destruct (may_request _ _ _); [|by intros [= <- <-]].
  destruct (allocate_id e (coordinator r)) as [[i|failure] s] eqn:Ha.
  - destruct (into_published conversation f e i) as [req sub].
    destruct (validate_interaction_subject sub); intros [= <- <-]; (split; [|done]); by eapply allocate_issued_ok.
  - intros [= <- <-]. split; [|done]. by eapply refuse_issued_ok.
Qed.

Lemma step_rest r r' : Forall slot_ok (channels r) → issued_ok r → step r r' →
  Forall slot_ok (channels r') ∧ issued_ok r'.
Proof.
  intros Hs Hi Hstep.
  enough (extends r r' ∨ issued_ok r' ∧ channels r' = channels r) as [Hx|[Hi' Hc]].
  { split; [by apply (ex_slots r r' Hx)|by apply (extends_issued_ok r)]. }
  { by rewrite Hc. }
  destruct Hstep as [r j t t' r' Hj Ht|r t r' Hsp|r d1 d d2 Hd|r n Hn|r e|r b].
  - assert (Hreq : (∃ e f c, t = TRequest e f c) ∨ ∀ e f c, t ≠ TRequest e f c)
      by (destruct t; [left; by eauto|right; done..]).
    destruct Hreq as [(e & f & c & ->)|Hne].
    + right. inversion Ht as [? ? ? ? ? ? Hr| | | | | | | | | | | | |]; subst; [|done].
      destruct (request_issued_ok e f c r t' r' Hi Hr) as [[] ?]. by split.
    + left. assert (Hx : extends r r').
      { by apply (task_extends r t t'). }
      destruct Hx as [Hx1 Hx2 Hx3]. by split.
  - left. destruct Hsp as [| | | |t r' Hl]; try (by split; [exists []|..]). injection Hl as <- <-.
    by split; [exists []|..].
  - left. destruct d as [p|p|]; cbn.
    + split; [by exists [ELeft]; split; [|repeat constructor]|done..].
    + split; [by exists [EObserved (payload_id p) (outcome p) (audited p)]; split; [|repeat constructor]|done..].
    + split; [by exists [ELeft]; split; [|repeat constructor]|done..].
  - left. by split; [exists []|..].
  - left. by split; [exists []|..].
  - left. by split; [exists []|..].
Qed.

Lemma new_measure w e : measure w (runtime_new e) = 0.
Proof. unfold measure, shared. cbn. by rewrite map_to_list_empty. Qed.

Lemma new_ends_ok e : ends_ok (runtime_new e).
Proof.
  by split; intros; rewrite ?new_measure.
Qed.

Lemma step_ends_ok r r' : ends_ok r → step r r' → ends_ok r'.
Proof.
  intros Hok Hs. pose proof Hok as [Htx Hrx Hsl Hi Hd Hids].
  destruct (step_rest r r' Hsl Hids Hs) as [Hsl' Hids']. split; try done.
  - intros c. rewrite (step_equal _ r r') by (done || apply tx_conserved || apply tx_conserved'). done.
  - intros c. rewrite (step_equal _ r r') by (done || apply rx_conserved || apply rx_conserved'). done.
  - intros i. pose proof (step_weight _ r r' (issue_conserved i) Hok Hs). specialize (Hi i). lia.
  - intros i. pose proof (step_weight _ r r' (decide_conserved i) Hok Hs). specialize (Hd i). lia.
Qed.

Lemma reachable_ends_ok r : reachable is_cancelled native_cause conversation routed r → ends_ok r.
Proof.
  intros (e & Hr). generalize (new_ends_ok e). revert Hr. apply rtc_invariant.
  intros a b Hab Ha. by apply (step_ends_ok a).
Qed.

Lemma reachable_measure w r : Conserved w → reachable is_cancelled native_cause conversation routed r → measure w r <= 0.
Proof.
  intros Hw (e & Hr). pose proof (new_ends_ok e) as Hn. rewrite <-(new_measure w e).
  induction Hr as [|a b c Hab Hbc IH]; [done|].
  pose proof (step_weight w a b Hw Hn Hab). specialize (IH (step_ends_ok _ _ Hn Hab)). lia.
Qed.

Lemma reachable_guards r : reachable is_cancelled native_cause conversation routed r → measure guard_weights r = 0.
Proof.
  intros Hr. pose proof (reachable_measure _ r guard_conserved Hr).
  pose proof (reachable_measure _ r guard_conserved' Hr) as Hg. rewrite measure_opposite in Hg. lia.
Qed.

(** ** The guards are accounted for *)

Definition held_guards r : Z := - zsum (w_event guard_weights) (trace r).

(** The guards the coordinator took and has not dropped are counted by the lifecycle, and
    there are [n] at least; the lifecycle is in state [s]. *)
Definition guarded (s : ConversationLifecycleState) (n : Z) r : Prop :=
  (∃ mine, native_ok mine (native r) ∧ Z.of_nat mine = held_guards r) ∧ n <= held_guards r ∧
  lc_state (lifecycle (native r)) = s.

Lemma held_emit e r : held_guards (emit e r) = held_guards r - w_event guard_weights e.
Proof. unfold held_guards. cbn [trace emit zsum]. lia. Qed.

Lemma guarded_neutral q n e r : w_event guard_weights e = 0 → guarded q n r → guarded q n (emit e r).
Proof. unfold guarded. intros E. by rewrite held_emit, E, Z.sub_0_r. Qed.
Lemma guarded_coordinator q n s r : guarded q n r → guarded q n (set_coordinator s r).
Proof. done. Qed.
Lemma guarded_channels q n s r : guarded q n r → guarded q n (set_channels s r).
Proof. done. Qed.
Lemma guarded_dropped q n m r : guarded q n r → guarded q n (drop_message m r).
Proof. by destruct m. Qed.
Lemma guarded_send q n c m r : guarded q n r → guarded q n (send c m r).
Proof.
  intros Hg. unfold send. destruct (channels r !! c) as [ch|]; [|done]. cbv zeta.
  destruct (rx ch); [|apply guarded_dropped]; by apply guarded_channels, guarded_neutral.
Qed.
Lemma guarded_drop_sender q n c r : guarded q n r → guarded q n (drop_sender c r).
Proof. intros Hg. unfold drop_sender. by destruct (channels r !! c). Qed.
Lemma guarded_drop_receiver q n c r : guarded q n r → guarded q n (drop_receiver c r).
Proof.
  intros Hg. unfold drop_receiver. destruct (channels r !! c) as [ch|]; [|done]. cbv zeta.
  by destruct (slot ch) as [[]|].
Qed.

Lemma guarded_weaken q n k r : k <= n → guarded q n r → guarded q k r.
Proof. intros ? [? [? ?]]. split; [done|]. split; [lia|done]. Qed.

Lemma guarded_acquire q f l r : admitting f → f (lifecycle (native r)) = Ok l → probe (native r) = None →
  guarded q 0 r → guarded q 1 (acquire l r).
Proof.
  intros Hf Hl Hp [(mine & Hm & Hc) [Hn Hq]]. destruct (admitting_ok _ _ _ Hf Hl) as [Hs ->].
  unfold guarded, acquire. rewrite held_emit. change (held_guards (with_lifecycle _ r)) with (held_guards r).
  cbn [w_event guard_weights]. split; [|split; [lia|done]]. exists (S mine). split; [by apply own_enter_ok|lia].
Qed.

Lemma guarded_release q r : guarded q 1 r → guarded q 0 (release r).
Proof.
  intros [(mine & Hm & Hc) [Hn Hq]]. unfold guarded, release. rewrite held_emit.
  change (held_guards (with_lifecycle _ r)) with (held_guards r). cbn [w_event guard_weights]. split; [|split; [lia|done]].
  destruct mine as [|mine]; [lia|]. exists mine. split; [by apply own_leave_ok|lia].
Qed.

#[local] Hint Resolve guarded_coordinator guarded_channels guarded_dropped guarded_send guarded_drop_sender
  guarded_drop_receiver guarded_release : guarded.
#[local] Hint Extern 1 (guarded _ _ (emit _ _)) => apply guarded_neutral; [reflexivity|] : guarded.

(** What holds the guards: pending entries, channels, payloads being dropped, tasks. *)
Lemma guards_held r : measure guard_weights r = 0 → ∃ a b c d, held_guards r = a + b + c + d ∧
  0 <= a ∧ 0 <= b ∧ 0 <= c ∧ 0 <= d ∧
  a = Z.of_nat (size (pending (coordinator r))) ∧
  (∀ ch p, ch ∈ channels r → slot ch = Some (Ok p) → 2 <= b) ∧
  (∀ x, x ∈ drops r → 1 <= c) ∧
  (∀ t, t ∈ tasks r → task_weight guard_weights t <= d).
Proof.
  intros Hm. unfold measure, shared in Hm.
  exists (zsum (pending_weight guard_weights) (map_to_list (pending (coordinator r)))),
    (zsumi (channel_weight guard_weights) 0 (channels r)), (zsum (drop_weight guard_weights) (drops r)),
    (zsum (task_weight guard_weights) (tasks r)).
  assert (Hch : ∀ c ch, channel_weight guard_weights c ch =
    match slot ch with Some (Ok _) => 2 | _ => 0 end).
  { intros c ch. unfold channel_weight, message_weight. cbn. unfold guard_weights. cbn.
    repeat case_match; cbn; lia. }
  assert (Hb : zsumi (channel_weight guard_weights) 0 (channels r) =
    zsum (λ ch, match slot ch with Some (Ok _) => 2 | _ => 0 end) (channels r)).
  { clear Hm. generalize 0%nat. induction (channels r) as [|ch l IH]; intros k; cbn [zsum zsumi]; [done|].
    by rewrite Hch, IH. }
  rewrite Hb in *.
  assert (Hd : ∀ x, 1 <= drop_weight guard_weights x) by (intros []; cbn; lia).
  assert (Ht : ∀ t, 0 <= task_weight guard_weights t ∧
    (t ∈ tasks r → task_weight guard_weights t <= zsum (task_weight guard_weights) (tasks r))).
  { apply nonneg_tasks; cbn; intros; lia. }
  split; [unfold held_guards; lia|]. split; [apply zsum_nonneg; intros []; unfold pending_weight, waiter_weight; cbn; lia|].
  split; [apply zsum_nonneg; intros ch; repeat case_match; lia|].
  split; [apply zsum_nonneg; intros x; specialize (Hd x); lia|].
  split; [apply zsum_nonneg; intros t; apply Ht|]. split; [|split; [|split; [|intros t; apply Ht]]].
  - rewrite <-length_map_to_list. clear. induction (map_to_list _) as [|x l IH]; cbn [zsum length]; [done|].
    assert (pending_weight guard_weights x = 1) by done. lia.
  - intros ch p Hin Hs.
    pose proof (zsum_elem (λ ch, match slot ch with Some (Ok _) => 2 | _ => 0 end) (channels r) ch) as Hle.
    cbn in Hle. rewrite Hs in Hle. apply Hle; [|done]. intros x. repeat case_match; lia.
  - intros x Hin. transitivity (drop_weight guard_weights x); [done|]. apply zsum_elem; [|done].
    intros y. specialize (Hd y). lia.
Qed.

Lemma guarded_task q r t : measure guard_weights r = 0 → guarded q 0 r → t ∈ tasks r → guarded q (task_weight guard_weights t) r.
Proof.
  intros Hm [Hg [_ Hq]] Hin. split; [done|]. split; [|done]. destruct (guards_held r Hm) as (a & b & c & d & -> & Ha & Hb & Hc & Hd & _ & _ & _ & Ht).
  specialize (Ht t Hin). lia.
Qed.

Lemma guarded_pending q r i p : measure guard_weights r = 0 → guarded q 0 r → pending (coordinator r) !! i = Some p → guarded q 1 r.
Proof.
  intros Hm [Hg [_ Hq]] Hp. split; [done|]. split; [|done]. destruct (guards_held r Hm) as (a & b & c & d & -> & Ha & Hb & Hc & Hd & Hs & _).
  assert (size (pending (coordinator r)) ≠ 0%nat) by (intros E%map_size_empty_inv; rewrite E, lookup_empty in Hp; done).
  lia.
Qed.

Lemma task_guarded q r t t' r' : measure guard_weights r = 0 → guarded q 0 r → t ∈ tasks r → task_step r t t' r' →
  guarded q 0 r'.
Proof.
  intros Hm Hg Hin Hstep. pose proof (guarded_task q r t Hm Hg Hin) as Ht. destruct Hstep; try done.
  - unfold request_step in *. repeat case_match; simplify_eq; eauto with guarded.
  - unfold publish_step, publish_inner in *. cbv zeta in *.
    destruct (admit_running _) as [l|] eqn:Hl; [|by simplify_eq].
    pose proof (guarded_acquire q admit_running l r ltac:(by left) Hl ltac:(done) Hg) as Ha.
    destruct (negb (admitted || _)); [simplify_eq; eauto with guarded|].
    destruct (negb committed); [simplify_eq; eauto with guarded|]. injection H2 as _ <-.
    apply (guarded_weaken q 1); [done|]. eauto 8 with guarded.
  - unfold announce_step, abandon_after_control_failure in *. destruct accepted; simplify_eq; [eauto with guarded|].
    apply guarded_drop_receiver. cbn [coordinator emit].
    destruct (remove_pending i (coordinator r)) as [[p s]|] eqn:Hr; [|eauto with guarded].
    unfold remove_pending in Hr. apply bind_Some in Hr as (p' & Hp & _).
    pose proof (guarded_pending q r i p' Hm Hg Hp). eauto 8 with guarded.
  - unfold receive in *. repeat case_match; simplify_eq; eauto with guarded.
  - unfold enter_step in *. destruct (try_enter_settlement _) as [l|] eqn:Hl; simplify_eq; [|done].
    apply (guarded_weaken q 1); [done|]. apply (guarded_acquire q try_enter_settlement); try done. by right; right.
  - assert (Hone : guarded q 1 r).
    { apply (guarded_weaken q (task_weight guard_weights (TSettle k i o validate))); [|done]. by destruct k. }
    unfold settle_step in *. destruct (remove_pending i (coordinator r)) as [[p s]|]; [|simplify_eq; eauto with guarded].
    destruct (select_outcome _ _ p o validate (executions r)); simplify_eq; [|eauto with guarded].
    apply (guarded_weaken q 1); [done|]. destruct committed; eauto with guarded.
  - unfold deliver_step, deliver in *. destruct (negb (audit_committed d)); [simplify_eq|].
    + apply (guarded_dropped q 0 (Ok (payload d))). eauto with guarded.
    + destruct (routed && negb accepted); simplify_eq; [apply (guarded_dropped q 0 (Ok (payload d))); eauto with guarded|].
      destruct routed; eauto with guarded.
  - unfold receive in *. repeat case_match; simplify_eq; eauto with guarded.
  - unfold loss_step in *. destruct waiters as [|p l]; simplify_eq; [done|].
    apply guarded_release, guarded_send. apply (guarded_weaken q (task_weight guard_weights (TLoss (p :: l)) : Z)); [|done].
    cbn. unfold waiter_weight at 1. cbn.
    pose proof (zsum_nonneg (waiter_weight guard_weights) l ltac:(done)). lia.
  - destruct t; cbn [abort] in *; simplify_eq; try done; eauto with guarded.
    destruct (audit_committed d && routed); [|done]. apply (inj Some) in H1 as <-.
    destruct k; eauto with guarded.
Qed.

Definition state_of r : ConversationLifecycleState := lc_state (lifecycle (native r)).

Lemma guarded_drops q r d : measure guard_weights r = 0 → guarded q 0 r → d ∈ drops r → guarded q 1 r.
Proof.
  intros Hm [Hg [_ Hq]] Hin. split; [done|]. split; [|done].
  destruct (guards_held r Hm) as (a & b & c & e & -> & Ha & Hb & Hc & Hd & _ & _ & Hx & _). specialize (Hx d Hin). lia.
Qed.

Lemma step_guarded r r' : measure guard_weights r = 0 → guarded (state_of r) 0 r → step r r' →
  guarded (state_of r') 0 r' ∧ (rank (state_of r) <= rank (state_of r'))%nat.
Proof.
  intros Hm Hg Hstep.
  assert (Hsame : ∀ x, guarded (state_of r) 0 x → guarded (state_of x) 0 x ∧ (rank (state_of r) <= rank (state_of x))%nat).
  { intros x Hx. pose proof Hx as (_ & _ & E). fold (state_of x) in E. rewrite E. done. }
  destruct Hstep as [r j t t' r' Hj Ht|r t r' Hs|r d1 d d2 Hd|r n Hn|r e|r b]; try (by apply Hsame).
  - apply (Hsame (set_tasks _ r')). change (guarded (state_of r) 0 r'). eapply task_guarded; try done.
    by eapply list_elem_of_lookup_2.
  - apply (Hsame (set_tasks _ r')). change (guarded (state_of r) 0 r').
    destruct Hs as [| | | |t r' Hl]; try done. by injection Hl as _ <-.
  - assert (Hone : guarded (state_of r) 1 r) by (apply (guarded_drops _ r d); [done..|]; rewrite Hd; set_solver).
    destruct d as [p|p|]; cbn [drop_step].
    + apply (Hsame (set_drops _ (release r))). change (guarded (state_of r) 0 (release r)). eauto with guarded.
    + apply (Hsame (set_drops _ (emit _ r))). by apply (guarded_neutral _ _ (EObserved (payload_id p) (outcome p) (audited p)) r).
    + apply (Hsame (set_drops _ (release r))). change (guarded (state_of r) 0 (release r)). eauto with guarded.
  - destruct Hg as [(mine & Hmine & Hh) [Hle _]].
    split; [|by apply (native_step_rank mine)]. split; [|done]. exists mine. split; [by apply (native_step_ok mine (native r))|done].
Qed.

Lemma steps_guarded r r' : ends_ok r → measure guard_weights r = 0 → guarded (state_of r) 0 r → rtc step r r' →
  measure guard_weights r' = 0 ∧ guarded (state_of r') 0 r' ∧ (rank (state_of r) <= rank (state_of r'))%nat.
Proof.
  intros Hok Hm Hg Hs. induction Hs as [r|a b c Hab Hbc IH]; [done|].
  destruct (step_guarded a b Hm Hg Hab) as [Hg' Hr].
  rewrite <-(step_equal guard_weights a b guard_conserved guard_conserved' Hok Hab) in Hm.
  destruct (IH (step_ends_ok a b Hok Hab) Hm Hg') as (? & ? & ?). split; [done|]. split; [done|lia].
Qed.

Lemma reachable_guarded r : reachable is_cancelled native_cause conversation routed r → guarded (state_of r) 0 r.
Proof.
  intros (e & Hr). eapply (steps_guarded (runtime_new e)); [apply new_ends_ok|apply new_measure| |done].
  split; [|done]. exists 0%nat. split; [apply native_new_ok|done].
Qed.

(** A task that settles, delivers, or abandons the waiters of a lost parent *)
Definition settling (t : Task) : bool :=
  match t with TSettle _ _ _ _ | TDeliver _ _ _ | TLoss (_ :: _) => true | _ => false end.

(** C7 A quiescent conversation has no interaction left: nothing is pending, no settlement is
    being decided or delivered, no payload waits in a channel or has a callback to run; it
    stays quiescent, and every later publication or settlement is refused unchanged. *)
Theorem quiescent_interactions r r' :
  reachable is_cancelled native_cause conversation routed r → state_of r = Quiescent → rtc step r r' →
  state_of r' = Quiescent ∧ pending (coordinator r') = ∅ ∧ drops r' = [] ∧
  (∀ ch p, ch ∈ channels r' → slot ch ≠ Some (Ok p)) ∧
  (∀ t, t ∈ tasks r' → settling t = false) ∧
  (∀ req sub c admitted committed, ∃ f, publish_inner req sub c admitted committed r' = (Err f, r')) ∧
  (∀ k i o validate, enter_step k i o validate r' = (settle_failed k i (NotPending i), r')).
Proof.
  intros Hr Hq Hs.
  destruct (steps_guarded r r' (reachable_ends_ok r Hr) (reachable_guards r Hr) (reachable_guarded r Hr) Hs)
    as (Hm & Hg & Hrank).
  assert (Hq' : state_of r' = Quiescent) by (rewrite Hq in Hrank; destruct (state_of r'); cbn in Hrank; [lia..|done]).
  split; [done|].
  assert (Hzero : held_guards r' = 0).
  { destruct Hg as [(mine & [Ha _ Hz _] & <-) _]. specialize (Hz Hq'). lia. }
  destruct (guards_held r' Hm) as (a & b & c & d & E & Ha & Hb & Hc & Hd & Hpend & Hslots & Hdrops & Htasks).
  split; [apply map_size_empty_inv; lia|].
  split; [destruct (drops r') as [|x l]; [done|]; specialize (Hdrops x ltac:(set_solver)); lia|].
  split; [intros ch p Hin Hsl; specialize (Hslots ch p Hin Hsl); lia|].
  split; [|split].
  - intros t Hin. specialize (Htasks t Hin).
    destruct t as [| | | | | |k| k| k| | |l|]; try done; [destruct k; cbn in Htasks; lia..|].
    destruct l as [|p l]; [done|]. cbn in Htasks. unfold waiter_weight at 1 in Htasks. cbn in Htasks.
    pose proof (zsum_nonneg (waiter_weight guard_weights) l ltac:(done)). lia.
  - intros req sub x admitted committed. unfold publish_inner, admit_running, enter_when.
    change (lc_state (lifecycle (native r'))) with (state_of r'). rewrite Hq'. cbn. by eexists.
  - intros k i o v. unfold enter_step, try_enter_settlement, enter_when.
    change (lc_state (lifecycle (native r'))) with (state_of r'). by rewrite Hq'.
Qed.
End safety.
