(* ===== verification/RendezvousFacts.v ===== *)
(** What is recorded, told and made visible by the interaction coordinator, on every run of
    Rendezvous: the trace is in a lawful order, and whoever was told an outcome can point to
    the durable fact.  [drive] runs the coordinator on a list of choices; [SampleRun] is one
    conversation from its first question to its end. *)

From S2P Require Import Prelude Text Json Goal Message Scalars Inbox Schedule ScheduleStore ScheduledStart Attempt Lifecycle Questionnaire Interaction Rendezvous RendezvousSafety.
From stdpp Require Import options.

Section facts.
Context `{Formats, Digests}.
Context {W V : Type} (is_cancelled : V → W → bool) (native_cause : V → W → ToolCancellationCause).
Context (conversation : ConversationId) (routed : bool).

Notation Runtime := (@Runtime W V).
Notation Task := (@Task V).
Notation step := (@step _ _ W V is_cancelled native_cause conversation routed).
Notation task_step := (@task_step _ _ W V is_cancelled native_cause conversation routed).
Notation reachable := (@reachable _ _ W V is_cancelled native_cause conversation routed).
Implicit Types r : Runtime.
Implicit Types t : list Event.

(** ** The lawful order *)

Definition asked t (i : str) (s : InteractionSubject) : Prop :=
  ∃ req, id req = i ∧ ECommitted (requested_envelope req s) ∈ t.
Definition recorded t (i : str) (o : InteractionOutcome) : Prop :=
  ∃ req, id req = i ∧ ECommitted (settled_envelope req (audit_settlement o)) ∈ t.

(** Everything a waiter that is told [o] relies on *)
Definition told t (i : str) (o : InteractionOutcome) : Prop :=
  recorded t i o ∧ (routed = true → ERouted i o ∈ t).

(** What must have happened, [t], for an event to happen. *)
Definition allowed (e : Event) t : Prop :=
  match e with
  | ECommitted env =>
      match envelope_fact env with
      | Requested i s => EIssued i ∈ t ∧ validate_interaction_subject s = Ok ()
      | Settled i settlement => ∃ o cancelled t' req s,
          t = EDecided i o cancelled :: t' ∧ settlement = audit_settlement o ∧ id req = i ∧
          env = settled_envelope req settlement ∧ ECommitted (requested_envelope req s) ∈ t ∧
          validate_interaction_settlement s settlement = Ok ()
      end
  | EPrompt i => ∃ s, asked t i s
  | EAnnounced i | EFailureMarked i | EReleased i (Err _) => EPrompt i ∈ t
  | EDecided i o cancelled => EPrompt i ∈ t ∧ (cancelled = true → ∃ cause, o = interrupted cause)
  | ERouted i o => recorded t i o
  | EReleased i (Ok o) => told t i o
  | EObserved i o audited => (∃ cancelled, EDecided i o cancelled ∈ t) ∧ (audited = true → recorded t i o)
  | EAdmitted | ELeft | EIssued _ => True
  end.

Fixpoint ordered t : Prop := match t with [] => True | e :: t => allowed e t ∧ ordered t end.

(** ** What the parts of the state know *)

Definition accepted t (i : str) (response : InteractionResponse) (o : InteractionOutcome) : Prop :=
  EDecided i o false ∈ t ∧
  ∃ s response', asked t i s ∧ validate_response_for s response = Ok response' ∧ o = Responded response'.

Definition payload_known t (i : str) (p : WaiterPayload) : Prop :=
  payload_id p = i ∧ (∃ cancelled, EDecided i (outcome p) cancelled ∈ t) ∧
  (audited p = true → recorded t i (outcome p)).

Definition message_known t (i : str) (m : result InteractionFailure WaiterPayload) : Prop :=
  match m with Ok p => payload_known t i p ∧ told t i (outcome p) | Err _ => EPrompt i ∈ t end.

Definition channel_known t (ch : Channel) : Prop := ∀ m, slot ch = Some m → message_known t (channel_id ch) m.

Definition drop_known t (d : Drop) : Prop :=
  match d with DropWaiter p | DropCallback p => payload_known t (payload_id p) p | DropSettlement => True end.

Definition pending_known t (ids : list str) (i : str) (p : PendingInteraction V) : Prop :=
  id (request p) = i ∧ EPrompt i ∈ t ∧ ECommitted (requested_envelope (request p) (subject p)) ∈ t ∧
  ids !! sender p = Some i.

Definition caller_known (ids : list str) (i : str) (k : Caller) : Prop :=
  match k with CallWait rx => ids !! rx = Some i | _ => True end.

(** A response is validated under the lock; every other outcome is an interruption. *)
Definition caller_outcome (k : Caller) (o : InteractionOutcome) (validate : bool) : Prop :=
  match k with
  | CallRespond response => validate = true ∧ o = Responded response
  | _ => validate = false ∧ ∃ cause, o = interrupted cause
  end.

Definition delivery_known t (ids : list str) (k : Caller) (i : str) (d : SettlementDelivery) : Prop :=
  EPrompt i ∈ t ∧ ids !! delivery_sender d = Some i ∧ payload_known t i (payload d) ∧
  audited (payload d) = audit_committed d ∧
  ∀ response, k = CallRespond response → cancellation_won d = false → accepted t i response (outcome (payload d)).

Definition result_known t (x : TaskResult) : Prop :=
  match x with
  | WaitDone (Some i) (Ok o) => told t i o
  | RespondDone i response (Ok _) => ∃ o, accepted t i response o ∧ told t i o
  | CancelDone i (Ok _) => ∃ o, told t i o
  | _ => True
  end.

Definition task_known t (ids : list str) (x : Task) : Prop :=
  match x with
  | TAdmission req s _ | TPublish req s _ _ => EIssued (id req) ∈ t ∧ validate_interaction_subject s = Ok ()
  | TAnnounce i rx _ | TWait i rx _ => EPrompt i ∈ t ∧ ids !! rx = Some i
  | TReceive i rx => ids !! rx = Some i
  | TEnter k i o validate | TSettle k i o validate => caller_known ids i k ∧ caller_outcome k o validate
  | TDeliver k i d => caller_known ids i k ∧ delivery_known t ids k i d
  | TLoss l => Forall (λ p, ∃ i, EPrompt i ∈ t ∧ ids !! sender p = Some i) l
  | TDone x => result_known t x
  | TRequest _ _ _ | TRespond _ _ | TDrain _ _ => True
  end.

(** ** Knowledge is kept *)

Record grows t (ids : list str) t' (ids' : list str) : Prop := {
  gr_trace : t ⊆ t';
  gr_ids : ∀ c i, ids !! c = Some i → ids' !! c = Some i }.

Lemma recorded_mono t t' i o : t ⊆ t' → recorded t i o → recorded t' i o.
Proof. intros Ht (req & Hi & He). exists req. auto. Qed.
Lemma asked_mono t t' i s : t ⊆ t' → asked t i s → asked t' i s.
Proof. intros Ht (req & Hi & He). exists req. auto. Qed.
Lemma told_mono t t' i o : t ⊆ t' → told t i o → told t' i o.
Proof. intros Ht [Hr Hx]. split; [by apply (recorded_mono t)|]. auto. Qed.
Lemma accepted_mono t t' i x o : t ⊆ t' → accepted t i x o → accepted t' i x o.
Proof. intros Ht (Hd & s & x' & Ha & Hx). split; [auto|]. exists s, x'. split; [by apply (asked_mono t)|done]. Qed.
Lemma payload_mono t t' i p : t ⊆ t' → payload_known t i p → payload_known t' i p.
Proof.
  intros Ht (Hi & [c Hd] & Ha). split; [done|]. split; [exists c; auto|]. intros E. by apply (recorded_mono t), Ha.
Qed.
Lemma message_mono t t' i m : t ⊆ t' → message_known t i m → message_known t' i m.
Proof. intros Ht. destruct m; cbn; [|by apply Ht]. intros [? ?]. split; [by apply (payload_mono t)|by apply (told_mono t)]. Qed.
Lemma drop_mono t t' d : t ⊆ t' → drop_known t d → drop_known t' d.
Proof. intros Ht. destruct d; cbn; try done; by apply payload_mono. Qed.
Lemma channel_mono t t' ch : t ⊆ t' → channel_known t ch → channel_known t' ch.
Proof. intros Ht Hc m Hm. by apply (message_mono t), Hc. Qed.
Lemma pending_mono t ids t' ids' i p : grows t ids t' ids' → pending_known t ids i p → pending_known t' ids' i p.
Proof. intros [Ht Hi] (? & ? & ? & ?). split; auto. Qed.
Lemma caller_mono t ids t' ids' i k : grows t ids t' ids' → caller_known ids i k → caller_known ids' i k.
Proof. intros [Ht Hi]. destruct k; cbn; auto. Qed.

Lemma task_mono t ids t' ids' x : grows t ids t' ids' → task_known t ids x → task_known t' ids' x.
Proof.
  intros Hg. pose proof Hg as [Ht Hi]. destruct x as [| | | | | |k i o v|k i o v|k i d| | |l|x]; cbn; try done.
  1, 2: intros [? ?]; auto.
  1, 2: intros [? ?]; auto.
  1, 2: intros [? ?]; split; [by eapply caller_mono|done].
  - intros [Hk (Hp & Hs & Hpay & Hau & Hr)]. split; [by eapply caller_mono|]. split; [auto|]. split; [auto|].
    split; [by apply (payload_mono t)|]. split; [done|]. intros y Hy Hw. by apply (accepted_mono t), Hr.
  - apply Hi.
  - intros Hl. eapply Forall_impl; [exact Hl|]. intros p (i & Hp & Hs). exists i. auto.
  - destruct x as [[i|] [o|]|i y [?|]|i [?|]| | |]; cbn; try done.
    + by apply told_mono.
    + intros (o & Ha & Hx). exists o. split; [by apply (accepted_mono t)|by apply (told_mono t)].
    + intros (o & Hx). exists o. by apply (told_mono t).
Qed.

(** ** What the critical sections establish *)

Definition ids_of r : list str := channel_id <$> channels r.

Record shared_known r : Prop := {
  sk_order : ordered (trace r);
  sk_pending i p : pending (coordinator r) !! i = Some p → pending_known (trace r) (ids_of r) i p;
  sk_channels : Forall (channel_known (trace r)) (channels r);
  sk_drops : Forall (drop_known (trace r)) (drops r);
}.

(** [r] comes from [r0] within a critical section. *)
Record reaches r0 r : Prop := {
  re_grows : grows (trace r0) (ids_of r0) (trace r) (ids_of r);
  re_known : shared_known r;
}.

Lemma grows_refl t ids : grows t ids t ids.
Proof. by split. Qed.
Lemma grows_cons e t0 ids0 t ids : grows t0 ids0 t ids → grows t0 ids0 (e :: t) ids.
Proof. intros [Ht Hi]. split; [set_solver|done]. Qed.

Lemma reaches_self r : shared_known r → reaches r r.
Proof. split; [apply grows_refl|done]. Qed.

Lemma reaches_emit e r0 r : allowed e (trace r) → reaches r0 r → reaches r0 (emit e r).
Proof.
  intros He [Hg [Ho Hp Hc Hd]]. assert (Hx : grows (trace r) (ids_of r) (e :: trace r) (ids_of r))
    by (apply grows_cons, grows_refl).
  split; [by apply grows_cons|]. split; [done|..].
  - intros i p Hi. eapply pending_mono; [exact Hx|]. by apply Hp.
  - eapply Forall_impl; [exact Hc|]. intros ch. apply channel_mono, Hx.
  - eapply Forall_impl; [exact Hd|]. intros d. apply drop_mono, Hx.
Qed.

Lemma reaches_coordinator s r0 r :
  (∀ i p, pending s !! i = Some p → pending_known (trace r) (ids_of r) i p) → reaches r0 r → reaches r0 (set_coordinator s r).
Proof. intros Hs [Hg [Ho Hp Hc Hd]]. by split. Qed.

Lemma reaches_acquire l r0 r : reaches r0 r → reaches r0 (acquire l r).
Proof. intros [Hg [Ho Hp Hc Hd]]. apply reaches_emit; [done|]. by split. Qed.
Lemma reaches_release r0 r : reaches r0 r → reaches r0 (release r).
Proof. intros [Hg [Ho Hp Hc Hd]]. apply reaches_emit; [done|]. by split. Qed.

Lemma reaches_dropped m r0 r : (∀ p, m = Ok p → payload_known (trace r) (payload_id p) p) → reaches r0 r →
  reaches r0 (drop_message m r).
Proof.
  intros Hm [Hg [Ho Hp Hc Hd]]. destruct m as [p|f]; [|by split]. split; [done|]. split; try done.
  constructor; [by apply Hm|done].
Qed.

Lemma ids_channel c ch' r : channel_id <$> channels r !! c = Some (channel_id ch') →
  ids_of (set_channels (<[c := ch']> (channels r)) r) = ids_of r.
Proof.
  intros Hc. unfold ids_of. cbn. rewrite list_fmap_insert. apply list_insert_id. by rewrite list_lookup_fmap.
Qed.

Lemma reaches_channel c ch' r0 r : channel_id <$> channels r !! c = Some (channel_id ch') →
  channel_known (trace r) ch' → reaches r0 r → reaches r0 (set_channels (<[c := ch']> (channels r)) r).
Proof.
  intros Hc Hch [Hg [Ho Hp Hk Hd]]. pose proof (ids_channel c ch' r Hc) as Hi.
  split; rewrite ?Hi; [done|]. split; rewrite ?Hi; try done. by apply Forall_insert.
Qed.

Lemma reaches_lookup c ch r0 r : reaches r0 r → channels r !! c = Some ch → channel_known (trace r) ch.
Proof. intros [_ [_ _ Hk _]] Hc. by apply (proj1 (Forall_lookup _ _) Hk c). Qed.

Lemma lookup_ids c i r : ids_of r !! c = Some i → ∃ ch, channels r !! c = Some ch ∧ channel_id ch = i.
Proof. unfold ids_of. rewrite list_lookup_fmap. intros (ch & Hc & Hi)%fmap_Some. by exists ch. Qed.

Lemma message_dropped t i m p : message_known t i m → m = Ok p → payload_known t (payload_id p) p.
Proof. intros Hm ->. destruct Hm as [[<- Hp] _]. by split. Qed.

Lemma message_allowed t i m : message_known t i m → allowed (EReleased i (message_result m)) t.
Proof. destruct m as [p|f]; cbn; [by intros [_ ?]|done]. Qed.

Lemma reaches_send c m i r0 r : ids_of r !! c = Some i → message_known (trace r) i m → reaches r0 r →
  reaches r0 (send c m r).
Proof.
  intros (ch & Hc & Hi)%lookup_ids Hm Hr.
  assert (Hci : channel_id <$> channels r !! c = Some i) by (by rewrite Hc, <-Hi). unfold send. rewrite Hc. cbv zeta. rewrite Hi.
  assert (He : reaches r0 (emit (EReleased i (message_result m)) r)) by (by apply reaches_emit; [apply message_allowed|]).
  assert (Hm' : message_known (trace (emit (EReleased i (message_result m)) r)) i m)
    by (eapply message_mono; [|exact Hm]; set_solver).
  destruct (rx ch).
  - apply (reaches_channel c _ r0 (emit _ r)); [exact Hci| |done]. intros m' [= <-]. done.
  - apply reaches_dropped; [intros p; by apply message_dropped with i|].
    apply (reaches_channel c _ r0 (emit _ r)); [exact Hci| |done]. by intros m'.
Qed.

Lemma reaches_drop_sender c r0 r : reaches r0 r → reaches r0 (drop_sender c r).
Proof.
  intros Hr. unfold drop_sender. destruct (channels r !! c) as [ch|] eqn:Hc; [|done].
  apply reaches_channel; [by rewrite Hc| |done]. by apply (reaches_lookup c ch r0 r).
Qed.

Lemma reaches_drop_receiver c r0 r : reaches r0 r → reaches r0 (drop_receiver c r).
Proof.
  intros Hr. unfold drop_receiver. destruct (channels r !! c) as [ch|] eqn:Hc; [|done]. cbv zeta.
  assert (Hx : reaches r0 (set_channels (<[c := {| channel_id := channel_id ch; slot := None; tx := tx ch; rx := false |}]> (channels r)) r)).
  { apply reaches_channel; [by rewrite Hc|by intros m|done]. }
  destruct (slot ch) as [m|] eqn:Hs; [|done]. apply reaches_dropped; [|done].
  intros p. apply message_dropped with (channel_id ch). by apply (reaches_lookup c ch r0 r).
Qed.

Lemma reaches_mono r0 r x : reaches r0 r → task_known (trace r0) (ids_of r0) x → task_known (trace r) (ids_of r) x.
Proof. intros [Hg _]. by apply task_mono. Qed.

(** ** The critical sections, one by one *)

Notation knows r x := (task_known (trace r) (ids_of r) x).

Lemma published_id f e i : id (fst (into_published conversation f e i)) = i.
Proof. by destruct f. Qed.

Lemma request_known e f c r x r' : shared_known r → request_step conversation routed e f c r = (x, r') →
  reaches r r' ∧ knows r' x.
Proof.
  intros Hk. unfold request_step. destruct (may_request _ _ _); [|intros [= <- <-]; split; [by apply reaches_self|done]].
  destruct (allocate_id e (coordinator r)) as [[i|failure] s] eqn:Ha;
    destruct (allocate_id_same _ _ _ _ Ha) as [Hp _];
    (assert (Hr : reaches r (set_coordinator s r))
      by (apply reaches_coordinator; [rewrite Hp; apply Hk|by apply reaches_self])).
  - destruct (into_published conversation f e i) as [req sub] eqn:Hpub.
    pose proof (published_id f e i) as Hi. rewrite Hpub in Hi. cbn in Hi.
    assert (Hr' : reaches r (emit (EIssued i) (set_coordinator s r))) by (by apply reaches_emit).
    destruct (validate_interaction_subject sub) as [[]|] eqn:Hv; intros [= <- <-]; (split; [done|]); [|done].
    destruct routed; cbn; rewrite Hi; (split; [left|done]).
  - intros [= <- <-]. by split.
Qed.

Lemma admission_known a req sub c r : knows r (TAdmission req sub c) → knows r (admission_step a req sub c).
Proof. intros Hk. unfold admission_step. destruct a; [by case_bool_decide|done]. Qed.

Lemma reaches_publish req sub c r0 r : EPrompt (id req) ∈ trace r → ECommitted (requested_envelope req sub) ∈ trace r →
  reaches r0 r → reaches r0
    (set_channels (channels r ++ [{| channel_id := id req; slot := None; tx := true; rx := true |}])
      (set_coordinator (admit_pending req sub c (length (channels r)) (coordinator r)) r)).
Proof.
  intros Hp Hc [[Ht Hi] [Ho Hpe Hch Hd]].
  assert (Hids : ∀ k i, ids_of r !! k = Some i → (channel_id <$> channels r ++ [{| channel_id := id req; slot := None; tx := true; rx := true |}]) !! k = Some i).
  { intros k i Hk. rewrite fmap_app. by apply lookup_app_l_Some. }
  split; [split; [done|]; intros k i Hk; by apply Hids, Hi|]. split; cbn; try done.
  - intros i p. rewrite lookup_insert_Some. intros [[<- <-]|[_ Hl]].
    + split; [done|]. split; [done|]. split; [done|]. unfold ids_of. cbn. rewrite fmap_app.
      rewrite lookup_app_r; rewrite length_fmap; [|done]. by rewrite Nat.sub_diag.
    + destruct (Hpe i p Hl) as (? & ? & ? & ?). split; [done|]. split; [done|]. split; [done|]. by apply Hids.
  - apply Forall_app. split; [done|]. constructor; [by intros m|constructor].
Qed.

Lemma publish_known req sub c admitted committed r x r' : shared_known r → knows r (TPublish req sub c admitted) →
  publish_step routed req sub c admitted committed r = (x, r') → reaches r r' ∧ knows r' x.
Proof.
  intros Hk [Hiss Hv]. pose proof (reaches_self r Hk) as Hr. unfold publish_step, publish_inner. cbv zeta.
  destruct (admit_running _) as [l|]; [|by intros [= <- <-]].
  destruct (negb (admitted || _)); [intros [= <- <-]; split; [by apply reaches_release, reaches_acquire|done]|].
  destruct (negb committed); [intros [= <- <-]; split; [by apply reaches_release, reaches_acquire|done]|].
  intros [= <- <-].
  set (r1 := emit (ECommitted (requested_envelope req sub)) (acquire l r)).
  assert (H1 : reaches r r1).
  { apply reaches_emit; [|by apply reaches_acquire]. split; [|done]. right. exact Hiss. }
  assert (H2 : reaches r (emit (EPrompt (id req)) r1)).
  { apply reaches_emit; [|done]. exists sub, req. split; [done|left]. }
  split.
  - apply (reaches_publish req sub c r (emit (EPrompt (id req)) r1)); [left|right; left|done].
  - assert (Hid : ids_of (emit (EPrompt (id req)) (set_channels
        (channels r ++ [{| channel_id := id req; slot := None; tx := true; rx := true |}]) r1)) !! length (channels r) = Some (id req)).
    { unfold ids_of. cbn. rewrite fmap_app, lookup_app_r; rewrite length_fmap; [|done]. by rewrite Nat.sub_diag. }
    destruct routed; (split; [left|exact Hid]).
Qed.

Lemma remove_known i p s r0 r : remove_pending i (coordinator r) = Some (p, s) → reaches r0 r →
  reaches r0 (set_coordinator s r) ∧ pending_known (trace r) (ids_of r) i p.
Proof.
  unfold remove_pending. intros (q & Hq & [= -> <-])%bind_Some Hr. pose proof (re_known _ _ Hr) as Hk.
  split; [|by apply (sk_pending r Hk)]. apply reaches_coordinator; [|done]. cbn. intros j q [_ Hj]%lookup_delete_Some.
  by apply (sk_pending r Hk).
Qed.

Lemma announce_known i rx c accepted r x r' : shared_known r → knows r (TAnnounce i rx c) →
  announce_step i rx c accepted r = (x, r') → reaches r r' ∧ knows r' x.
Proof.
  intros Hk [Hp Hi]. pose proof (reaches_self r Hk) as Hr. unfold announce_step, abandon_after_control_failure. cbv zeta.
  destruct accepted; intros [= <- <-].
  - assert (Hx : reaches r (emit (EAnnounced i) r)) by (by apply reaches_emit). split; [done|].
    split; [by right|done].
  - split; [|done]. apply reaches_drop_receiver.
    assert (Hx : reaches r (emit (EFailureMarked i) r)) by (by apply reaches_emit).
    destruct (remove_pending i (coordinator r)) as [[p s]|] eqn:Hrem; [|done].
    destruct (remove_known i p s r (emit (EFailureMarked i) r) Hrem Hx) as [Hs (_ & Hpr & _ & Hid)].
    apply reaches_release, (reaches_send _ _ i); done.
Qed.

(** What [begin_settle] selects *)
Lemma select_known k p o validate w o' : caller_outcome k o validate →
  select_outcome is_cancelled native_cause p o validate w = Ok o' →
  (∃ cause, o' = interrupted cause) ∨
  is_cancelled (cancellation p) w = false ∧ ∃ response response', k = CallRespond response ∧
    validate_response_for (subject p) response = Ok response' ∧ o' = Responded response'.
Proof.
  intros Hc. unfold select_outcome.
  assert (Hcase : (∃ response, k = CallRespond response ∧ validate = true ∧ o = Responded response) ∨
    validate = false ∧ ∃ cause, o = interrupted cause).
  { destruct k as [| response | |]; [right; exact Hc|left; exists response; by split|right; exact Hc|right; exact Hc]. }
  destruct Hcase as [(response & -> & -> & ->)|(-> & cause & ->)]; cbn.
  - destruct (is_cancelled (cancellation p) w).
    + destruct (native_cause (cancellation p) w) as [reason|deadline]; intros [= <-]; left;
        [by exists (CauseAttempt reason)|by exists (CauseDeadline deadline)].
    + intros (response' & Hv & [= <-])%bind_ok. right. split; [done|]. by exists response, response'.
  - intros [= <-]. left. by exists cause.
Qed.

Lemma interrupted_settles s cause : validate_interaction_settlement s (audit_settlement (interrupted cause)) = Ok ().
Proof. destruct cause; by destruct s. Qed.

Lemma failed_known k i e r : caller_known (ids_of r) i k → knows r (settle_failed k i e).
Proof. by destruct k. Qed.

Lemma settle_known k i o validate committed r x r' : shared_known r → knows r (TSettle k i o validate) →
  settle_step is_cancelled native_cause k i o validate committed r = (x, r') → reaches r r' ∧ knows r' x.
Proof.
  intros Hk [Hc Ho]. pose proof (reaches_self r Hk) as Hr. unfold settle_step.
  destruct (remove_pending i (coordinator r)) as [[p s]|] eqn:Hrem.
  2: { intros [= <- <-]. split; [by apply reaches_release|]. by apply failed_known. }
  destruct (remove_known i p s r r Hrem Hr) as [Hs (Hid & Hprompt & Hasked & Hch)].
  destruct (select_outcome _ _ p o validate (executions r)) as [o'|e] eqn:Hsel.
  2: { intros [= <- <-]. split; [by apply reaches_release|]. by apply failed_known. }
  cbv zeta. intros [= <- <-].
  set (b := is_cancelled (cancellation p) (executions r)).
  pose proof (select_known k p o validate (executions r) o' Ho Hsel) as Hcase.
  set (r1 := emit (EDecided i o' b) (set_coordinator s r)).
  assert (H1 : reaches r r1).
  { apply reaches_emit; [|done]. split; [done|]. fold b in Hcase. intros Hb. rewrite Hb in Hcase.
    by destruct Hcase as [?|[? _]]. }
  assert (Hvalid : validate_interaction_settlement (subject p) (audit_settlement o') = Ok ()).
  { destruct Hcase as [[cause ->]|(_ & y & y' & _ & Hv & ->)]; [apply interrupted_settles|].
    by apply (settlement_of_accepted _ y). }
  set (r2 := if committed then emit (ECommitted (settled_envelope (request p) (audit_settlement o'))) r1 else r1).
  assert (H2 : reaches r r2).
  { unfold r2. destruct committed; [|done]. apply reaches_emit; [|done].
    exists o', b, (trace r), (request p), (subject p). split_and!; try done; [by rewrite Hid|by right]. }
  assert (Hdec : EDecided i o' b ∈ trace r2) by (unfold r2; destruct committed; set_solver).
  pose proof (re_grows _ _ H2) as [Ht Hi].
  split; [done|]. split; [destruct k; try done; by apply Hi|].
  split; [by apply Ht|]. split; [by apply Hi|].
  split; [split; [done|]; split; [by exists b|]|].
  - cbn. intros ->. exists (request p). split; [done|]. cbn. left.
  - split; [done|]. cbn. intros y -> Hwon. destruct Ho as [-> ->]. cbn in Hwon. fold b in Hwon, Hcase.
    rewrite Hwon in *. split; [done|].
    destruct Hcase as [[cause ->]|(_ & y0 & y' & [= <-] & Hv & ->)].
    + exfalso. unfold select_outcome in Hsel. cbn in Hsel. fold b in Hsel. rewrite Hwon in Hsel.
      apply bind_ok in Hsel as (? & _ & Hsel). by destruct cause.
    + exists (subject p), y'. split; [|done]. exists (request p). split; [done|]. by apply Ht.
Qed.

Lemma delivered_failed k i d f r : caller_known (ids_of r) i k → knows r (delivered k i d (Err f)).
Proof. destruct k; cbn; try done. by destruct (cancellation_won d). Qed.

Lemma failed_send c i f p r0 r : ids_of r !! c = Some i → EPrompt i ∈ trace r → payload_known (trace r) i p →
  reaches r0 r → reaches r0 (drop_message (Ok p) (send c (Err f) (emit (EFailureMarked i) r))).
Proof.
  intros Hc Hp Hpay Hr. assert (Hx : reaches r (send c (Err f) (emit (EFailureMarked i) r))).
  { apply (reaches_send _ _ i); [done|by right|]. apply reaches_emit; [done|]. by apply reaches_self, (re_known r0). }
  destruct Hr as [[Ht Hi] Hk]. pose proof Hx as [[Ht' Hi'] Hk'].
  apply reaches_dropped.
  - intros q [= <-]. destruct (payload_mono _ _ _ _ Ht' Hpay) as [<- ?]. by split.
  - split; [|done]. split; [by transitivity (trace r)|]. intros c' j Hj. by apply Hi', Hi.
Qed.

Lemma told_accepted k i d r : delivery_known (trace r) (ids_of r) k i d → audit_committed d = true →
  (routed = true → ERouted i (outcome (payload d)) ∈ trace r) → caller_known (ids_of r) i k →
  knows r (delivered k i d (Ok ())).
Proof.
  intros (_ & _ & (_ & _ & Hrec) & Hau & Hacc) Hc Hrt Hk. rewrite <-Hau in Hc.
  assert (Htold : told (trace r) i (outcome (payload d))) by (split; [by apply Hrec|done]).
  destruct k as [|y| |]; cbn; try done.
  - destruct (cancellation_won d) eqn:Hw; [done|]. rewrite Hau in Hc. rewrite Hc. cbn.
    exists (outcome (payload d)). split; [by apply Hacc|done].
  - by exists (outcome (payload d)).
Qed.

Lemma delivery_mono t ids t' ids' k i d : grows t ids t' ids' → delivery_known t ids k i d → delivery_known t' ids' k i d.
Proof.
  intros [Ht Hi] (Hp & Hs & Hpay & Hau & Hr). split; [auto|]. split; [auto|]. split; [by apply (payload_mono t)|].
  split; [done|]. intros y Hy Hw. by apply (accepted_mono t), Hr.
Qed.

Lemma deliver_known k i d accepted r x r' : shared_known r → knows r (TDeliver k i d) →
  deliver_step routed k i d accepted r = (x, r') → reaches r r' ∧ knows r' x.
Proof.
  intros Hk [Hc Hd]. pose proof (reaches_self r Hk) as Hr. pose proof Hd as (Hp & Hs & Hpay & Hau & Hacc).
  assert (Hfail : ∀ f, reaches r (drop_message (Ok (payload d)) (send (delivery_sender d) (Err f) (emit (EFailureMarked i) r))) ∧
    knows (drop_message (Ok (payload d)) (send (delivery_sender d) (Err f) (emit (EFailureMarked i) r))) (delivered k i d (Err f))).
  { intros f. pose proof (failed_send (delivery_sender d) i f (payload d) r r Hs Hp Hpay Hr) as Hx. split; [done|].
    apply delivered_failed. by apply (caller_mono _ _ _ _ i k (re_grows _ _ Hx)). }
  unfold deliver_step, deliver. destruct (audit_committed d) eqn:Hcom; cbn [negb].
  2: { intros E. replace x with (delivered k i d (Err AuditFailed) : Task) by (by injection E).
       apply (f_equal snd) in E. cbn [snd] in E. rewrite <-E. apply Hfail. }
  destruct (routed && negb accepted).
  { intros E. replace x with (delivered k i d (Err ControlLost) : Task) by (by injection E).
    apply (f_equal snd) in E. cbn [snd] in E. rewrite <-E. apply Hfail. }
  cbv zeta. intros [= <- <-]. destruct Hpay as (Hid & Hdec & Hrec). rewrite Hau in Hrec. specialize (Hrec eq_refl).
  set (r1 := if routed then emit (ERouted i (outcome (payload d))) r else r).
  assert (H1 : reaches r r1) by (unfold r1; destruct routed; [by apply reaches_emit|done]).
  assert (Hrt : routed = true → ERouted i (outcome (payload d)) ∈ trace r1).
  { intros E. unfold r1. rewrite E. left. }
  pose proof (re_grows _ _ H1) as Hg1.
  assert (H2 : reaches r (send (delivery_sender d) (Ok (payload d)) r1)).
  { apply (reaches_send _ _ i); [by apply Hg1| |done]. split.
    - apply (payload_mono (trace r)); [apply Hg1|]. split; [done|]. by split.
    - split; [|done]. apply (recorded_mono (trace r)); [apply Hg1|done]. }
  split; [done|]. apply told_accepted; [|done| |].
  - by apply (delivery_mono _ _ _ _ k i d (re_grows _ _ H2)).
  - intros E. specialize (Hrt E). unfold send. destruct (channels r1 !! delivery_sender d) as [ch|]; [|done]. cbv zeta.
    destruct (rx ch); by right.
  - by apply (caller_mono _ _ _ _ i k (re_grows _ _ H2)).
Qed.

Lemma receive_known i c r x r' : shared_known r → ids_of r !! c = Some i → receive i c r = Some (x, r') →
  reaches r r' ∧ knows r' x.
Proof.
  intros Hk Hi. pose proof (reaches_drop_receiver c r r (reaches_self r Hk)) as Hr. unfold receive.
  apply lookup_ids in Hi as (ch & Hc & Hch). rewrite Hc.
  destruct (slot ch) as [m|] eqn:Hs; [|destruct (tx ch); [done|]; intros [= <- <-]; by split].
  intros [= <- <-]. split; [done|]. destruct m as [p|f]; [|done]. cbn.
  destruct (reaches_lookup c ch r r (reaches_self r Hk) Hc _ Hs) as [_ Ht]. rewrite Hch in Ht.
  apply (told_mono (trace r)); [apply Hr|done].
Qed.

Lemma loss_known l r x r' : shared_known r → knows r (TLoss l) → loss_step l r = (x, r') → reaches r r' ∧ knows r' x.
Proof.
  intros Hk Hl. pose proof (reaches_self r Hk) as Hr. destruct l as [|p l]; intros [= <- <-]; [by split|].
  apply Forall_cons in Hl as [(i & Hp & Hs) Hl].
  assert (Hx : reaches r (release (send (sender p) (Err ControlLost) r))) by (by apply reaches_release, (reaches_send _ _ i)).
  split; [done|]. apply (reaches_mono r); [done|exact Hl].
Qed.

Lemma abort_known x r r' : shared_known r → knows r x → abort routed x r = Some r' → reaches r r'.
Proof.
  intros Hk Hx. pose proof (reaches_self r Hk) as Hr.
  destruct x; cbn [abort]; intros Ha; simplify_eq; try done; try by apply reaches_drop_receiver.
  destruct (audit_committed d && routed); [|done]. apply (inj Some) in Ha as <-.
  destruct Hx as [_ (_ & _ & Hpay & _)].
  assert (Hd : reaches r (drop_message (Ok (payload d)) (drop_sender (delivery_sender d) r))).
  { pose proof (reaches_drop_sender (delivery_sender d) r r Hr) as Hs. apply reaches_dropped; [|done].
    intros q [= <-]. destruct (payload_mono _ _ _ _ (gr_trace _ _ _ _ (re_grows _ _ Hs)) Hpay) as [<- ?]. by split. }
  destruct k; try done. by apply reaches_drop_receiver.
Qed.

Lemma interrupted_known k i cause r : caller_known (ids_of r) i k → (∀ y, k ≠ CallRespond y) →
  knows r (TEnter k i (interrupted cause) false).
Proof. intros Hk Hn. split; [done|]. destruct k as [|y| |]; try (by destruct (Hn y)); (split; [done|by exists cause]). Qed.

Lemma task_step_known r x x' r' : shared_known r → knows r x → task_step r x x' r' → reaches r r' ∧ knows r' x'.
Proof.
  intros Hk Hx Hstep. pose proof (reaches_self r Hk) as Hr. destruct Hstep.
  - by eapply request_known.
  - split; [done|by apply admission_known].
  - by eapply publish_known.
  - by eapply announce_known.
  - destruct Hx as [_ Hi]. by eapply receive_known.
  - split; [done|]. unfold interrupt in *. destruct (is_cancelled c (executions r)); simplify_eq.
    apply interrupted_known; [by destruct Hx|done].
  - split; [done|]. unfold respond_step. destruct (pending _ !! i) as [p|]; [|done].
    by destruct (if is_cancelled _ _ then _ else _).
  - destruct Hx as [Hc Ho]. unfold enter_step in *. destruct (try_enter_settlement _); simplify_eq.
    + split; [by apply reaches_acquire|]. by split.
    + split; [done|]. by apply failed_known.
  - by eapply settle_known.
  - by eapply deliver_known.
  - by eapply receive_known.
  - split; [done|]. destruct ids as [|i ids]; [done|]. by apply (interrupted_known (CallDrain reason ids) i (CauseAttempt reason)).
  - by eapply loss_known.
  - split; [by eapply abort_known|done].
Qed.

(** ** Every reachable state *)

Record known r : Prop := {
  kn_shared : shared_known r;
  kn_tasks : Forall (λ x, knows r x) (tasks r);
}.

Lemma known_tasks r r' : known r → reaches r r' → tasks r' = tasks r → Forall (λ x, knows r' x) (tasks r').
Proof. intros [_ Ht] Hr ->. eapply Forall_impl; [exact Ht|]. intros x. by apply reaches_mono. Qed.

Lemma set_tasks_known l r : shared_known r → Forall (λ x, knows r x) l → known (set_tasks l r).
Proof. intros [? ? ? ?] Hl. by split. Qed.

Lemma step_known r r' : known r → step r r' → known r'.
Proof.
  intros Hok Hstep. pose proof Hok as [Hk Ht]. destruct Hstep as [r j x x' r' Hj Hx|r x r' Hs|r d1 d d2 Hd|r n Hn|r e|r b].
  - destruct (task_step_known r x x' r' Hk (proj1 (Forall_lookup _ _) Ht j x Hj) Hx) as [Hr Hx'].
    apply set_tasks_known; [apply Hr|]. apply Forall_insert; [|done].
    eapply Forall_impl; [exact Ht|]. intros y. by apply reaches_mono.
  - assert (Hr : reaches r r' ∧ knows r' x).
    { pose proof (reaches_self r Hk) as Hr. destruct Hs as [| |i reason| |x r' Hl]; try by split.
      - split; [done|]. by apply (interrupted_known CallCancel i (CauseAttempt reason)).
      - injection Hl as <- <-. split; [by apply reaches_coordinator; [intros i p; cbn; rewrite lookup_empty|]|].
        cbn. apply Forall_forall. intros p Hp. apply list_elem_of_fmap in Hp as ([i q] & -> & Hq%elem_of_map_to_list).
        destruct (sk_pending r Hk i q Hq) as (_ & Hpr & _ & Hid). exists i. by split. }
    destruct Hr as [Hr Hx]. apply set_tasks_known; [apply Hr|]. apply Forall_app. split; [|by constructor].
    eapply Forall_impl; [exact Ht|]. intros y. by apply reaches_mono.
  - pose proof (sk_drops r Hk) as Hdr. rewrite Hd in Hdr. apply Forall_app in Hdr as [Hd1 [Hd0 Hd2]%Forall_cons].
    assert (Hr : reaches r (snd (drop_step d r)) ∧ Forall (drop_known (trace (snd (drop_step d r)))) (option_list (fst (drop_step d r)))
      ∧ tasks (snd (drop_step d r)) = tasks r).
    { pose proof (reaches_self r Hk) as Hr. destruct d as [p|p|]; cbn [drop_step fst snd option_list].
      - pose proof (reaches_release r r Hr) as Hx. split; [done|]. split; [|done]. constructor; [|constructor].
        by apply (drop_mono (trace r) _ (DropCallback p)); [apply Hx|].
      - destruct Hd0 as (_ & Hdec & Ha). split; [by apply reaches_emit|]. split; [|done]. constructor; [done|constructor].
      - split; [by apply reaches_release|]. split; [constructor|done]. }
    destruct (drop_step d r) as [d' r'] eqn:E. cbn in Hr. destruct Hr as (Hr & Hd' & Htasks).
    pose proof Hr as [[Hsub Hids] [Ho Hp Hc _]].
    assert (Hmono : ∀ l, Forall (drop_known (trace r)) l → Forall (drop_known (trace r')) l).
    { intros l Hl. eapply Forall_impl; [exact Hl|]. intros y. by apply drop_mono. }
    split; [split; try done|].
    + cbn. apply Forall_app. split; [by apply Hmono|]. apply Forall_app. split; [done|by apply Hmono].
    + apply (known_tasks r); [done| |done]. split; [by split|]. split; try done.
      cbn. apply Forall_app. split; [by apply Hmono|]. apply Forall_app. split; [done|by apply Hmono].
  - destruct Hk. by split; [split|].
  - destruct Hk. by split; [split|].
  - destruct Hk. by split; [split|].
Qed.

Lemma reachable_known r : reachable r → known r.
Proof.
  intros (e & Hr). assert (Hn : known (runtime_new e : Runtime)).
  { split; [split; cbn; try done|constructor]. }
  revert Hr Hn. apply rtc_invariant. intros a b Hab Ha. by apply (step_known a).
Qed.

(** ** Counting the ends *)

Lemma events_le w r : (∀ i, 0 <= w_request w i)%Z → (0 <= w_guard w)%Z → (∀ i, 0 <= w_pending w i)%Z →
  (∀ c, 0 <= w_tx w c)%Z → (∀ c, 0 <= w_rx w c)%Z → (∀ i, 0 <= w_payload w i)%Z → (∀ c i, 0 <= w_open w c i)%Z →
  (∀ c, 0 <= w_listening w c)%Z → (zsum (w_event w) (trace r) <= measure w r)%Z.
Proof.
  intros Hq Hg Hp Ht Hr Hy Ho Hl. unfold measure, shared.
  assert (Ha : (0 <= zsum (pending_weight w) (map_to_list (pending (coordinator r))))%Z).
  { apply zsum_nonneg. intros [i p]. unfold pending_weight, waiter_weight. cbn. specialize (Hp i). specialize (Ht (sender p)). lia. }
  assert (Hb : ∀ k l, (0 <= zsumi (channel_weight w) k l)%Z).
  { intros k l. revert k. induction l as [|ch l IH]; intros k; cbn; [done|]. specialize (IH (S k)).
    specialize (Ho k (channel_id ch)). specialize (Hl k).
    enough (0 <= channel_weight w k ch)%Z by lia. unfold channel_weight.
    assert (Hm : (0 <= match slot ch with Some m => message_weight w m | None => 0 end)%Z).
    { destruct (slot ch) as [[p|]|]; cbn; [specialize (Hy (payload_id p)); lia|done|done]. }
    destruct (tx ch), (rx ch); lia. }
  assert (Hc : (0 <= zsum (drop_weight w) (drops r))%Z).
  { apply zsum_nonneg. intros [p|p|]; cbn; [specialize (Hy (payload_id p))|specialize (Hy (payload_id p))|]; lia. }
  assert (Hd : (0 <= zsum (task_weight w) (tasks r))%Z).
  { apply zsum_nonneg. intros x. apply (nonneg_tasks w [] Hq Hg Ht Hr Hy). }
  specialize (Hb 0 (channels r)). lia.
Qed.

Lemma at_id_nonneg i j : (0 <= at_id i j)%Z.
Proof. unfold at_id. case_decide; lia. Qed.

Lemma ends_counted r i : reachable r →
  (occurrences (requested i) (trace r) <= occurrences (issued i) (trace r))%Z ∧
  (occurrences (decided i) (trace r) <= occurrences (requested i) (trace r))%Z ∧
  (occurrences (released i) (trace r) <= occurrences (requested i) (trace r))%Z ∧
  (occurrences (observed i) (trace r) <= occurrences (decided i) (trace r))%Z.
Proof.
  intros Hr.
  assert (H1 : ∀ w, Conserved w → (∀ i, 0 <= w_request w i)%Z → (0 <= w_guard w)%Z → (∀ i, 0 <= w_pending w i)%Z →
    (∀ c, 0 <= w_tx w c)%Z → (∀ c, 0 <= w_rx w c)%Z → (∀ i, 0 <= w_payload w i)%Z → (∀ c i, 0 <= w_open w c i)%Z →
    (∀ c, 0 <= w_listening w c)%Z → (zsum (w_event w) (trace r) <= 0)%Z).
  { intros w Hw **. etransitivity; [by apply events_le|]. by eapply reachable_measure. }
  pose proof (H1 _ (issue_conserved i)) as Ha. pose proof (H1 _ (decide_conserved i)) as Hb.
  pose proof (H1 _ (release_conserved i)) as Hc. pose proof (H1 _ (observe_conserved i)) as Hd.
  cbn in Ha, Hb, Hc, Hd. rewrite counts_split in Ha, Hb, Hc, Hd.
  pose proof at_id_nonneg as Hn.
  assert ((occurrences (requested i) (trace r) - occurrences (issued i) (trace r) <= 0)%Z) by (apply Ha; done).
  assert ((occurrences (decided i) (trace r) - occurrences (requested i) (trace r) <= 0)%Z) by (apply Hb; done).
  assert ((occurrences (released i) (trace r) - occurrences (requested i) (trace r) <= 0)%Z) by (apply Hc; done).
  assert ((occurrences (observed i) (trace r) - occurrences (decided i) (trace r) <= 0)%Z) by (apply Hd; done).
  lia.
Qed.

(** A settlement is recorded right after its decision. *)
Lemma ordered_settled i t : ordered t →
  (occurrences (settled i) t <= occurrences (decided i) t)%Z ∧
  (∀ o b t', t = EDecided i o b :: t' → (occurrences (settled i) t < occurrences (decided i) t)%Z).
Proof.
  induction t as [|e t IH]; [by intros _; split|]. intros [He [IHle IHlt]%IH].
  rewrite !occurrences_cons. unfold count_event. split.
  - destruct (settled i e) eqn:Hs; [|destruct (decided i e); lia].
    destruct e as [| | |env| | | | | | |]; try done. cbn in *. destruct (envelope_fact env) as [|j s]; [done|].
    apply bool_decide_eq_true in Hs as ->. destruct He as (o & b & t' & req & sub & Ht & _).
    specialize (IHlt o b t' Ht). lia.
  - intros o b t' [= -> ->]. cbn. rewrite bool_decide_true by done. lia.
Qed.

Lemma occurs_twice (p : Event → bool) t e f : (occurrences p t <= 1)%Z → e ∈ t → f ∈ t → p e = true → p f = true → e = f.
Proof.
  intros Hle He Hf Hpe Hpf. induction t as [|x t IH]; [by apply not_elem_of_nil in He|].
  rewrite occurrences_cons in Hle. unfold count_event in Hle.
  pose proof (occurrences_nonneg p t) as Hn.
  assert (Hin : ∀ y, y ∈ t → p y = true → (1 <= occurrences p t)%Z).
  { intros y Hy Hp. pose proof (zsum_elem (count_event p) t y) as Hs. unfold count_event in Hs at 2. rewrite Hp in Hs.
    apply Hs; [|done]. intros z. unfold count_event. destruct (p z); lia. }
  apply elem_of_cons in He as [->|He], Hf as [->|Hf]; [done| | |].
  - rewrite Hpe in Hle. specialize (Hin f Hf Hpf). lia.
  - rewrite Hpf in Hle. specialize (Hin e He Hpe). lia.
  - apply IH; try done. destruct (p x); lia.
Qed.

#[local] Instance audit_settlement_inj : Inj eq eq audit_settlement.
Proof. by intros [|[|[]|[]]|] [|[|[]|[]]|]; cbn; intros; simplify_eq. Qed.

Lemma told_agree t i o o' : (occurrences (settled i) t <= 1)%Z → told t i o → told t i o' → o = o'.
Proof.
  intros Hle [(req & Hi & He) _] [(req' & Hi' & He') _].
  assert (Hs : ∀ q x, id q = i → settled i (ECommitted (settled_envelope q (audit_settlement x))) = true).
  { intros q x Hq. cbn. by rewrite bool_decide_true. }
  pose proof (occurs_twice (settled i) t _ _ Hle He He' (Hs _ _ Hi) (Hs _ _ Hi')) as E.
  apply (inj audit_settlement). unfold settled_envelope, envelope in E. congruence.
Qed.

(** ** Results *)

(** How often an event has happened *)
Definition count (p : Event → bool) r : Z := occurrences p (trace r).

(** C4 Every interaction has one of each end: its identity is issued once, its request is
    recorded at most once and only if it was issued, and a recorded request has at most one
    decision, one recorded settlement, one release of its waiter and one settlement callback,
    whoever responds, cancels, drains or loses the parent at the same time. *)
Theorem one_end r i : reachable r →
  (count (issued i) r <= 1)%Z ∧
  (count (requested i) r <= count (issued i) r)%Z ∧
  (count (decided i) r <= count (requested i) r)%Z ∧
  (count (settled i) r <= count (decided i) r)%Z ∧
  (count (released i) r <= count (requested i) r)%Z ∧
  (count (observed i) r <= count (decided i) r)%Z.
Proof.
  intros Hr. destruct (ends_counted r i Hr) as (? & ? & ? & ?).
  destruct (ordered_settled i (trace r) (sk_order r (kn_shared r (reachable_known r Hr)))) as [? _].
  pose proof (io_once r (eo_ids r (reachable_ends_ok _ _ _ _ r Hr)) i). done.
Qed.

Lemma settled_once r i : reachable r → (occurrences (settled i) (trace r) <= 1)%Z.
Proof.
  intros Hr. destruct (ends_counted r i Hr) as (? & ? & _).
  destruct (ordered_settled i (trace r) (sk_order r (kn_shared r (reachable_known r Hr)))) as [? _].
  pose proof (io_once r (eo_ids r (reachable_ends_ok _ _ _ _ r Hr)) i). lia.
Qed.

(** C3 Nothing becomes visible before it is durable: on every run, a prompt follows its
    recorded request, a recorded settlement follows its decision at once and is one the stored
    request admits, an outcome reaches the route or a waiter only after its settlement is
    recorded, a response decides only if the execution was not cancelled at that moment, and a
    callback that reports a committed settlement follows it. *)
Theorem durable_before_visible r later e earlier :
  reachable r → trace r = later ++ e :: earlier → allowed e earlier.
Proof.
  intros Hr Ht. pose proof (sk_order r (kn_shared r (reachable_known r Hr))) as Ho. rewrite Ht in Ho.
  clear Ht. induction later as [|x l IH]; [by destruct Ho|]. apply IH, Ho.
Qed.

(** C5 Whoever is told an outcome is told the recorded one: a waiter that gets an outcome, or a
    responder whose response was accepted, can point to the one durable settlement of the
    interaction, which is in the normal form of that response; all of them are told the same. *)
Theorem outcome_agreed r i : reachable r →
  (∀ o, TDone (WaitDone (Some i) (Ok o)) ∈ tasks r → told (trace r) i o) ∧
  (∀ response, TDone (RespondDone i response (Ok ())) ∈ tasks r →
    ∃ o, accepted (trace r) i response o ∧ told (trace r) i o) ∧
  (∀ o o', told (trace r) i o → told (trace r) i o' → o = o').
Proof.
  intros Hr. pose proof (kn_tasks r (reachable_known r Hr)) as Ht. split; [|split].
  - intros o Hin. by apply (proj1 (Forall_forall _ _) Ht) in Hin.
  - intros response Hin. by apply (proj1 (Forall_forall _ _) Ht) in Hin.
  - intros o o'. by apply told_agree, settled_once.
Qed.

Lemma sent_received i c m ch r : channels r !! c = Some ch → rx ch = true → is_Some (receive i c (send c m r : Runtime) : option (Task * Runtime)).
Proof.
  intros Hc Hrx. unfold receive, send. rewrite Hc, Hrx. cbn. rewrite list_lookup_insert_eq by (by eapply lookup_lt_Some).
  by eexists.
Qed.

Lemma receive_channels i c r r' : channels r' = channels r → is_Some (receive i c r : option (Task * Runtime)) →
  is_Some (receive i c r' : option (Task * Runtime)).
Proof.
  intros E. unfold receive. rewrite E. destruct (channels r !! c) as [ch|]; [|done].
  destruct (slot ch); [by eexists|]. destruct (tx ch); [done|by eexists].
Qed.

(** C6 No waiter is orphaned: a task that waits for an interaction either can return now, or
    the interaction is still pending with that waiter's sender, or exactly the delivery or the
    abandonment that holds the sender is under way; and a delivery answers the waiter whatever
    the route says. *)
Theorem waiter_never_orphaned r i c x : reachable r → x ∈ tasks r →
  (x = TReceive i c ∨ ∃ v, x = TWait i c v) →
  is_Some (receive i c r) ∨
  (∃ p, pending (coordinator r) !! i = Some p ∧ sender p = c) ∨
  (∃ k d, TDeliver k i d ∈ tasks r ∧ delivery_sender d = c ∧
    ∀ accepted, is_Some (receive i c (snd (deliver routed i d accepted r)))) ∨
  (∃ l p, TLoss l ∈ tasks r ∧ p ∈ l ∧ sender p = c).
Proof.
  intros Hr Hin Hx. pose proof (reachable_ends_ok _ _ _ _ r Hr) as Hends. pose proof (reachable_known r Hr) as [Hk Ht].
  assert (Hw : (1 <= task_weight (rx_weights c) x)%Z) by (destruct Hx as [->|[v ->]]; cbn; by rewrite decide_True).
  assert (Hid : ids_of r !! c = Some i).
  { pose proof (proj1 (Forall_forall _ _) Ht x Hin) as Hxk. destruct Hx as [->|[v ->]]; [done|by destruct Hxk]. }
  destruct (receiver_listening c r x Hends Hin Hw) as (ch & Hc & Hrx).
  pose proof (tx_held c r Hends) as Hsum. rewrite Hc in Hsum.
  destruct (tx ch) eqn:Htx; [|left; unfold receive; rewrite Hc, Htx; destruct (slot ch); by eexists].
  right. destruct (decide (Exists (λ e, sender (snd e) = c) (map_to_list (pending (coordinator r))))) as [He|Hne].
  { left. apply Exists_exists in He as ([j p] & Hj%elem_of_map_to_list & Hs). cbn in Hs. exists p. split; [|done].
    destruct (sk_pending r Hk j p Hj) as (_ & _ & _ & Hj'). rewrite Hs in Hj'. congruence. }
  right. assert (Hz : zsum (pending_weight (tx_weights c)) (map_to_list (pending (coordinator r))) = 0%Z).
  { clear - Hne. apply not_Exists_Forall in Hne; [|apply _].
    induction Hne as [|e l Hl _ IH]; [done|]. cbn [zsum]. rewrite IH. unfold pending_weight, waiter_weight. cbn.
    by rewrite decide_False. }
  rewrite Hz in Hsum.
  assert (Hex : ∃ y, y ∈ tasks r ∧ (0 < task_weight (tx_weights c) y)%Z).
  { clear - Hsum. induction (tasks r) as [|y l IH]; cbn in Hsum; [lia|].
    destruct (decide (0 < task_weight (tx_weights c) y)%Z) as [Hp|Hp]; [exists y; split; [left|done]|].
    assert (Hy : (0 <= task_weight (tx_weights c) y)%Z).
    { apply (nonneg_tasks (tx_weights c) []); cbn; intros; try case_decide; lia. }
    destruct IH as (z & Hz & Hzp); [lia|]. exists z. split; [by right|done]. }
  destruct Hex as (y & Hy & Hpos).
  destruct y as [| | | | | |k|k|k j d| | |l|]; cbn in Hpos; try (exfalso; lia); try (destruct k; cbn in Hpos; exfalso; lia).
  - left. assert (Hs : delivery_sender d = c) by (destruct (decide (delivery_sender d = c)); [done|destruct k; cbn in Hpos; lia]).
    destruct (proj1 (Forall_forall _ _) Ht _ Hy) as (_ & _ & Hj & _). rewrite Hs in Hj.
    assert (j = i) as -> by congruence. exists k, d. split; [done|]. split; [done|]. intros a.
    assert (Hopen : ∀ m r', channels r' = channels r → is_Some (receive i c (send c m r') : option (Task * Runtime))).
    { intros m r' E. eapply sent_received; [by rewrite E|done]. }
    unfold deliver. rewrite Hs. destruct (audit_committed d); cbn [negb].
    + destruct (routed && negb a); cbn [snd].
      * eapply receive_channels; [apply drop_message_channels|]. by apply Hopen.
      * apply Hopen. by destruct routed.
    + cbn [snd]. eapply receive_channels; [apply drop_message_channels|]. by apply Hopen.
  - right. exists l. assert (Hl : ∃ p, p ∈ l ∧ sender p = c).
    { clear - Hpos. induction l as [|p l IH]; cbn in Hpos; [lia|].
      destruct (decide (sender p = c)) as [E|E]; [exists p; split; [left|done]|].
      assert (Hz : waiter_weight (tx_weights c) p = 0%Z) by (unfold waiter_weight; cbn; by rewrite decide_False).
      rewrite Hz in Hpos. destruct (IH Hpos) as (q & Hq & Hs).
      exists q. split; [by right|done]. }
    destruct Hl as (p & Hp & Hs). by exists p.
Qed.
End facts.

(** ** Runs, driven by their choices *)

(** A task's turn, with the answer of the world it meets; a task that begins; the drop of a
    payload; the lifecycle of the conversation. *)
Inductive Action {V : Type} :=
| Turn (j : nat) (answer : bool)
| Interrupt (j : nat)
| Abort (j : nat)
| Begin (x : Task (V:=V))
| Dropping
| Activating | StartDraining | Quiescing.

Section drive.
Context `{Formats, Digests}.
Context {W V : Type} (is_cancelled : V → W → bool) (native_cause : V → W → ToolCancellationCause).
Context (conversation : ConversationId) (routed : bool).

Notation Runtime := (@Runtime W V).
Notation Task := (@Task V).
Notation task_step := (@task_step _ _ W V is_cancelled native_cause conversation routed).
Notation step := (@step _ _ W V is_cancelled native_cause conversation routed).

Definition turn (x : Task) (answer : bool) (r : Runtime) : option (Task * Runtime) :=
  match x with
  | TRequest e f c => Some (request_step conversation routed e f c r)
  | TAdmission req sub c =>
      Some (admission_step (if answer then Ok (interaction_ref req) else Err AdmissionUnavailable) req sub c, r)
  | TPublish req sub c admitted =>
      if decide (probe (native r) = None) then Some (publish_step routed req sub c admitted answer r) else None
  | TAnnounce i rx c => Some (announce_step i rx c answer r)
  | TWait i rx _ | TReceive i rx => receive i rx r
  | TRespond i response => Some (respond_step is_cancelled i response r, r)
  | TEnter k i o validate => if decide (probe (native r) = None) then Some (enter_step k i o validate r) else None
  | TSettle k i o validate => Some (settle_step is_cancelled native_cause k i o validate answer r)
  | TDeliver k i d => Some (deliver_step routed k i d answer r)
  | TDrain reason ids => Some (drain_step reason ids, r)
  | TLoss l => Some (loss_step l r)
  | TDone _ => None
  end.

Lemma turn_step x answer r x' r' : turn x answer r = Some (x', r') → task_step r x x' r'.
Proof.
  destruct x; cbn; intros E; try done; try (destruct (decide _); [|done]).
  - apply (inj Some) in E. by apply do_request.
  - injection E as <- <-. apply do_admission.
  - apply (inj Some) in E. by apply (do_publish _ _ _ _ _ _ _ _ answer).
  - apply (inj Some) in E. by apply (do_announce _ _ _ _ _ _ _ answer).
  - by apply do_wait.
  - injection E as <- <-. apply do_respond.
  - apply (inj Some) in E. by apply do_enter.
  - apply (inj Some) in E. by apply (do_settle _ _ _ _ _ _ _ _ answer).
  - apply (inj Some) in E. by apply (do_deliver _ _ _ _ _ _ _ answer).
  - by apply do_receive.
  - injection E as <- <-. apply do_drain.
  - apply (inj Some) in E. by apply do_loss.
Qed.

Definition finish (l : Task * Runtime) (j : nat) (r : Runtime) : Runtime := set_tasks (<[j := fst l]> (tasks r)) (snd l).

Definition drive (a : Action) (r : Runtime) : option Runtime :=
  match a with
  | Turn j answer => x ← tasks r !! j; l ← turn x answer r; Some (finish l j r)
  | Interrupt j =>
      x ← tasks r !! j;
      match x with
      | TWait i rx c => x' ← interrupt is_cancelled native_cause i rx c r; Some (finish (x', r) j r)
      | _ => None
      end
  | Abort j => x ← tasks r !! j; r' ← abort routed x r; Some (finish (TDone Aborted, r') j r)
  | Begin x => match x with
      | TRequest _ _ _ | TRespond _ _ => Some (set_tasks (tasks r ++ [x]) r)
      | TDrain reason _ => Some (set_tasks (tasks r ++ [TDrain reason (pending_ids (coordinator r))]) r)
      | TLoss _ => Some (set_tasks (tasks r ++ [fst (loss_take r)]) (snd (loss_take r)))
      | _ => None
      end
  | Dropping => match drops r with
      | [] => None
      | d :: l => Some (set_drops (option_list (fst (drop_step d r)) ++ l) (snd (drop_step d r)))
      end
  | Activating => if decide (probe (native r) = None)
      then Some (set_native (set_lifecycle (snd (activate (lifecycle (native r)))) (native r)) r) else None
  | StartDraining => if decide (probe (native r) = None)
      then Some (set_native (set_lifecycle (snd (begin_drain (lifecycle (native r)))) (native r)) r) else None
  | Quiescing => if decide (probe (native r) = None)
      then Some (set_native (set_lifecycle (snd (mark_quiescent (lifecycle (native r)))) (native r)) r) else None
  end.

Lemma drive_step a r r' : drive a r = Some r' → step r r'.
Proof.
  destruct a as [j answer|j|j|x| | | |]; cbn.
  - intros (x & Hx & ([x' r1] & Hl%turn_step & [= <-])%bind_Some)%bind_Some. by eapply step_task.
  - intros (x & Hx & Hd)%bind_Some. destruct x; try done. apply bind_Some in Hd as (x' & Hi & [= <-]).
    eapply step_task; [done|by apply do_interrupt].
  - intros (x & Hx & (r1 & Ha & [= <-])%bind_Some)%bind_Some. eapply step_task; [done|by apply do_abort].
  - destruct x; try done; intros [= <-].
    + by apply (step_spawn _ _ _ _ r), spawn_request.
    + by apply (step_spawn _ _ _ _ r), spawn_respond.
    + by apply (step_spawn _ _ _ _ r), spawn_drain.
    + by apply (step_spawn _ _ _ _ r), spawn_loss.
  - destruct (drops r) as [|d l] eqn:Hd; [done|]. intros [= <-].
    pose proof (step_drop is_cancelled native_cause conversation routed r [] d l Hd) as Hs.
    by destruct (drop_step d r).
  - destruct (decide _); [|done]. intros [= <-]. by apply step_native, native_activate.
  - destruct (decide _); [|done]. intros [= <-]. by apply step_native, native_begin_drain.
  - destruct (decide _); [|done]. intros [= <-]. by apply step_native, native_mark_quiescent.
Qed.

Fixpoint drive_all (l : list Action) (r : Runtime) : option Runtime :=
  match l with [] => Some r | a :: l => r ← drive a r; drive_all l r end.

Lemma drive_all_reachable w l r : drive_all l (runtime_new w) = Some r →
  reachable is_cancelled native_cause conversation routed r.
Proof.
  intros Hd. exists w. revert Hd. generalize (runtime_new w : Runtime). induction l as [|a l IH]; intros r0; cbn.
  - intros [= <-]. apply rtc_refl.
  - intros (r1 & Ha%drive_step & Hl)%bind_Some. eapply rtc_l; [done|by apply IH].
Qed.
End drive.

(** One questionnaire, answered by the human, to the end of the conversation; and before that,
    a second interaction still waiting. *)
Module SampleRun.
#[local] Existing Instance Questionnaire.Sample.formats.
#[local] Instance digests : Digests := {
  sha256 s := s; json_text _ := []; review_value _ := Null; instance_bytes _ := Ok 0%N }.

Definition by_attempt : InteractionExecution := ByAttempt (lit "attempt-7") 3.
Definition question_facts : Facts := FromQuestionnaire {|
  facts_invocation := IAgent (lit "call-1");
  facts_requester := {| tool_id := lit "ask"; tool_name := lit "Ask"; origin := OriginBuiltin |};
  facts_questionnaire := Questionnaire.Sample.questionnaire |}.
Definition response : InteractionResponse := RespondQuestionnaire (Submitted Questionnaire.Sample.sent).
Definition first_id : str := interaction_id by_attempt 1.

Notation drive_sample := (drive_all (W:=bool) (V:=()) (λ _ c, c) (λ _ _, CauseAttempt UserRequested) (lit "conversation") true).
Notation reached := (reachable (W:=bool) (V:=()) (λ _ c, c) (λ _ _, CauseAttempt UserRequested) (lit "conversation") true).

Definition asking : list (Action (V:=())) :=
  [Activating; Begin (TRequest by_attempt question_facts ()); Turn 0 true; Turn 0 true; Turn 0 true; Turn 0 true].
Definition answering : list (Action (V:=())) :=
  [Begin (TRespond first_id response); Turn 1 true; Turn 1 true; Turn 1 true; Turn 1 true].
Definition closing : list (Action (V:=())) := [Turn 0 true; Dropping; Dropping; Dropping; StartDraining; Quiescing].

Definition waiting : Runtime := default (runtime_new false) (drive_sample asking (runtime_new false)).
Definition closed : Runtime := default (runtime_new false) (drive_sample (asking ++ answering ++ closing) (runtime_new false)).

Lemma waiting_reached : reached waiting.
Proof. apply (drive_all_reachable _ _ _ _ false asking). vm_compute. reflexivity. Qed.
Lemma closed_reached : reached closed.
Proof. apply (drive_all_reachable _ _ _ _ false (asking ++ answering ++ closing)). vm_compute. reflexivity. Qed.

Definition outcome_settled : InteractionOutcome := Responded (RespondQuestionnaire (Submitted Questionnaire.Sample.settled)).

Lemma closed_tasks : tasks closed = [TDone (WaitDone (Some first_id) (Ok outcome_settled)); TDone (RespondDone first_id response (Ok ()))].
Proof. vm_compute. reflexivity. Qed.

Definition trace_at (n : nat) : list Event := drop n (trace closed).

Lemma closed_released : trace closed = take 3 (trace closed) ++ EReleased first_id (Ok outcome_settled) :: trace_at 4.
Proof. vm_compute. reflexivity. Qed.

Lemma quiescent_interactions_witness :
  state_of closed = Quiescent ∧ pending (coordinator closed) = ∅ ∧ drops closed = [].
Proof.
  assert (Hq : state_of closed = Quiescent) by (vm_compute; reflexivity).
  destruct (quiescent_interactions _ _ _ _ closed closed closed_reached Hq (rtc_refl _ _)) as (_ & Hp & Hd & _).
  exact (conj Hq (conj Hp Hd)).
Defined.

Lemma one_end_witness :
  count (settled first_id) closed = 1%Z ∧ (count (settled first_id) closed <= count (decided first_id) closed)%Z.
Proof.
  split; [vm_compute; reflexivity|].
  destruct (one_end _ _ _ _ closed first_id closed_reached) as (_ & _ & _ & H & _). exact H.
Defined.

Lemma durable_before_visible_witness : told true (trace_at 4) first_id outcome_settled.
Proof. exact (durable_before_visible _ _ _ _ closed _ _ _ closed_reached closed_released). Defined.

Lemma outcome_agreed_witness :
  told true (trace closed) first_id outcome_settled ∧
  ∃ o, accepted (trace closed) first_id response o ∧ told true (trace closed) first_id o.
Proof.
  destruct (outcome_agreed _ _ _ _ closed first_id closed_reached) as (Hw & Hr & _). split.
  - apply Hw. rewrite closed_tasks. left.
  - apply Hr. rewrite closed_tasks. right. left.
Defined.

Lemma waiting_tasks : tasks waiting = [TWait first_id 0 ()].
Proof. vm_compute. reflexivity. Qed.

Lemma waiter_never_orphaned_witness :
  receive first_id 0 waiting = None ∧
  (is_Some (receive first_id 0 waiting) ∨ (∃ p, pending (coordinator waiting) !! first_id = Some p ∧ sender p = 0) ∨
   (∃ k d, TDeliver k first_id d ∈ tasks waiting ∧ delivery_sender d = 0 ∧
     ∀ a, is_Some (receive first_id 0 (snd (deliver true first_id d a waiting)))) ∨
   (∃ l p, TLoss l ∈ tasks waiting ∧ p ∈ l ∧ sender p = 0)).
Proof.
  split; [vm_compute; reflexivity|].
  apply (waiter_never_orphaned _ _ _ _ waiting first_id 0 (TWait first_id 0 ()) waiting_reached);
    [rewrite waiting_tasks; left|right; by exists ()].
Defined.
End SampleRun.
