(* ===== verification/Workflow.v ===== *)
(** The Workflow language as an author writes it ([src/src/runtime/workflow.rs], with the
    node parts of [workflow/transform.rs], [code.rs], [review.rs], [tool.rs] and
    [authoring/selections.rs]): values and predicates, nodes, ports and edges, and the JSON
    Schemas the node kinds give their values.

    A [BTreeMap] is an association list in ascending key order. *)

From S2P Require Import Prelude Text Json.
From stdpp Require Import options.

(** [serde_json::json!] on an object. *)
Definition jobj (l : list (string * json)) : json := Object (foldr (λ kv m, map_insert (lit kv.1) kv.2 m) [] l).
Definition jstr (s : string) : json := String (lit s).

(** [Value::get] with a key *)
Definition get (k : str) (v : json) : option json :=
  match v with Object m => map_get k m | _ => None end.
Definition as_array (v : json) : option (list json) := match v with Array l => Some l | _ => None end.
Definition as_object (v : json) : option (list (str * json)) := match v with Object m => Some m | _ => None end.
Definition as_str (v : json) : option str := match v with String s => Some s | _ => None end.
Definition as_bool (v : json) : option bool := match v with Bool b => Some b | _ => None end.
Definition is_number (v : json) : bool := match v with Number _ => true | _ => false end.
Definition as_u64 (v : json) : option N := match v with Number (PosInt n) => Some n | _ => None end.

(** ** Values and predicates *)

Inductive WorkflowValue :=
| VReference (path : list str)
| VLiteral (value : json)
| VObject (fields : list (str * WorkflowValue))
| VArray (items : list WorkflowValue)
| VTemplate (parts : list WorkflowValue).

Inductive WorkflowPredicate :=
| PBoolean (value : WorkflowValue)
| PEqual (left right : WorkflowValue)
| PNotEqual (left right : WorkflowValue)
| PGreater (left right : WorkflowValue)
| PGreaterEqual (left right : WorkflowValue)
| PLess (left right : WorkflowValue)
| PLessEqual (left right : WorkflowValue)
| PContains (left right : WorkflowValue)
| PNotContains (left right : WorkflowValue)
| PStartsWith (left right : WorkflowValue)
| PEndsWith (left right : WorkflowValue)
| PEmpty (value : WorkflowValue)
| PNotEmpty (value : WorkflowValue)
| PNot (predicate : WorkflowPredicate)
| PAnd (predicates : list WorkflowPredicate)
| POr (predicates : list WorkflowPredicate).

(** ** The parts of nodes *)

Inductive WorkflowVarType :=
| TString | TNumber | TBoolean | TObject | TArrayString | TArrayNumber | TArrayBoolean | TArrayObject.
#[export] Instance WorkflowVarType_eq_dec : EqDecision WorkflowVarType.
Proof. solve_decision. Defined.

Definition kind_schema (kind : string) : json := jobj [("type", jstr kind)].
Definition array_schema (items : json) : json := jobj [("type", jstr "array"); ("items", items)].
Definition closed_object (properties : list (str * json)) (required : list str) : json :=
  jobj [("type", jstr "object"); ("properties", Object properties); ("required", Array (map String required));
        ("additionalProperties", Bool false)].

(** [WorkflowVarType::schema] *)
Definition var_schema (t : WorkflowVarType) : json :=
  match t with
  | TString => kind_schema "string"
  | TNumber => kind_schema "number"
  | TBoolean => kind_schema "boolean"
  | TObject => kind_schema "object"
  | TArrayString => array_schema (kind_schema "string")
  | TArrayNumber => array_schema (kind_schema "number")
  | TArrayBoolean => array_schema (kind_schema "boolean")
  | TArrayObject => array_schema (kind_schema "object")
  end.

(** [WorkflowVarType::empty] *)
Definition var_empty (t : WorkflowVarType) : json :=
  match t with
  | TString => String []
  | TNumber => Number (PosInt 0)
  | TBoolean => Bool false
  | TObject => Object []
  | _ => Array []
  end.

Definition is_array (t : WorkflowVarType) : bool :=
  match t with TArrayString | TArrayNumber | TArrayBoolean | TArrayObject => true | _ => false end.

Record WorkflowLoopVariable := { label : str; var_type : WorkflowVarType; var_value : WorkflowValue }.

(** [collect] of key and value pairs into a map *)
Definition collect_map {V} (l : list (str * V)) : list (str * V) := foldl (λ m kv, map_insert kv.1 kv.2 m) [] l.

Definition loop_variables_schema (variables : list WorkflowLoopVariable) : json :=
  closed_object (collect_map (map (λ v, (label v, var_schema (var_type v))) variables)) (map label variables).

Inductive WorkflowIterationErrorMode := Terminated | ContinueOnError | RemoveAbnormalOutput.
#[export] Instance WorkflowIterationErrorMode_eq_dec : EqDecision WorkflowIterationErrorMode.
Proof. solve_decision. Defined.

Inductive WorkflowWriteMode :=
| WOverwrite | WClear | WSet | WAppend | WExtend | WRemoveFirst | WRemoveLast
| WIncrement | WDecrement | WMultiply | WDivide.

Record WorkflowAssignment := { variable : list str; operation : WorkflowWriteMode; operand_value : option WorkflowValue }.

(** [WorkflowWriteMode::applies_to] *)
Definition applies_to (m : WorkflowWriteMode) (t : WorkflowVarType) : bool :=
  match m with
  | WOverwrite | WClear => true
  | WSet => negb (is_array t)
  | WAppend | WExtend | WRemoveFirst | WRemoveLast => is_array t
  | WIncrement | WDecrement | WMultiply | WDivide => bool_decide (t = TNumber)
  end.

(** [WorkflowWriteMode::operand] *)
Definition operand (m : WorkflowWriteMode) (t : WorkflowVarType) : option json :=
  match m with
  | WClear | WRemoveFirst | WRemoveLast => None
  | WAppend => get (lit "items") (var_schema t)
  | WIncrement | WDecrement | WMultiply | WDivide => Some (kind_schema "number")
  | WOverwrite | WSet | WExtend => Some (var_schema t)
  end.

Record WorkflowBranchCase := { case_id : str; condition : WorkflowPredicate }.

Inductive WorkflowModelOutput := ModelText | ModelJsonSchema (schema : json).

(** [WorkflowModelOutput::schema] *)
Definition model_output_schema (o : WorkflowModelOutput) : json :=
  let tokens := kind_schema "integer" in
  let usage := closed_object (collect_map [(lit "input_tokens", tokens); (lit "output_tokens", tokens); (lit "total_tokens", tokens)])
                 (map lit ["input_tokens"; "output_tokens"; "total_tokens"]%string) in
  let properties := collect_map [(lit "text", kind_schema "string"); (lit "reasoning_content", kind_schema "string"); (lit "usage", usage)] in
  let required := map lit ["text"; "reasoning_content"; "usage"]%string in
  match o with
  | ModelText => closed_object properties required
  | ModelJsonSchema schema =>
      closed_object (map_insert (lit "structured_output") schema properties) (required ++ [lit "structured_output"])
  end.

Inductive WorkflowAgentOutput := AgentText | AgentJsonSchema (schema : json).
Record WorkflowAgentRoute := { route_id : str; route_description : str }.
Record WorkflowClassifierClass := { class_id : str; class_label : str; class_description : list WorkflowValue }.

Inductive WorkflowValueErrorStrategy := VStop | VDefaultValue (value : json) | VFailBranch.
Record WorkflowRetry := { max_retries : N; interval_ms : N }.
Inductive WorkflowModelErrorStrategy :=
| MStop
| MDefaultValue (text : str) (structured_output : option json)
| MFailBranch.

(** [WorkflowModelErrorStrategy::error_schema] *)
Definition error_schema : json :=
  closed_object (collect_map [(lit "error_type", kind_schema "string"); (lit "error_message", kind_schema "string")])
    (map lit ["error_type"; "error_message"]%string).

Definition agent_text_schema : json := closed_object [(lit "text", kind_schema "string")] [lit "text"].

Definition AGENT_ROUTE_FIELD : str := lit "switch".

(** [WorkflowAgentOutput::structured] *)
Definition structured (o : WorkflowAgentOutput) : option json :=
  match o with AgentJsonSchema schema => Some schema | AgentText => None end.

(** An assignment through [IndexMut]: a member of an object, which [null] becomes. *)
Definition put (k : str) (v : json) (j : json) : json :=
  match j with Object m => Object (map_insert k v m) | Null => Object [(k, v)] | _ => j end.

Fixpoint join_with (sep : str) (l : list str) : str :=
  match l with [] => [] | [s] => s | s :: l => s ++ sep ++ join_with sep l end.

Definition route_choice (routes : list WorkflowAgentRoute) : json :=
  let choices := join_with [10%N] (map (λ r, lit "- " ++ route_id r ++ lit ": " ++ route_description r) routes) in
  jobj [("type", jstr "string"); ("enum", Array (map (λ r, String (route_id r)) routes));
        ("description", String (lit "Select exactly one route ID based on the task result:" ++ [10%N] ++ choices))].

(** [agent_terminal_schema] *)
Definition agent_terminal_schema (output : WorkflowAgentOutput) (routes : list WorkflowAgentRoute) : option json :=
  schema ← match structured output, routes with
           | None, [] => None
           | None, _ => Some agent_text_schema
           | Some schema, _ => Some schema
           end;
  match routes with
  | [] => Some schema
  | _ =>
      let schema := put (lit "properties")
        (put AGENT_ROUTE_FIELD (route_choice routes) (default Null (get (lit "properties") schema))) schema in
      Some (put (lit "required")
        (match get (lit "required") schema with
         | Some (Array required) => Array (required ++ [String AGENT_ROUTE_FIELD])
         | _ => Array [String AGENT_ROUTE_FIELD]
         end) schema)
  end.

(** [agent_value_schema] *)
Definition agent_value_schema (output : WorkflowAgentOutput) (routes : list WorkflowAgentRoute) : json :=
  default agent_text_schema (agent_terminal_schema output routes).

Inductive WorkflowModelRole := System | User | Assistant.
Record WorkflowModelMessage := { message_role : WorkflowModelRole; message_content : list WorkflowValue }.

(** [WorkflowModelPolicy] *)
Inductive WorkflowModelPolicy :=
| Session
| Explicit (model : str) (profile : option str) (request_params : list (str * json)) (max_output_tokens : option N).

Inductive WorkflowToolSelector := SelBuiltin (name : str) | SelSource (source_id name : str).
Inductive WorkflowToolResult := ResultJson (schema : json) | ResultText.
Inductive WorkflowCodeLanguage := Python3 | JavaScript.
Record WorkflowReviewAction := { action_id : str; action_title : str }.

Record WorkflowAggregateGroup := { group_name : str; output_type : option WorkflowVarType; variables : list (list str) }.

Inductive WorkflowListOperator :=
| LEqual | LNotEqual | LContains | LNotContains | LStartsWith | LEndsWith | LGreater | LGreaterEqual
| LLess | LLessEqual | LEmpty | LNotEmpty | LIn | LNotIn.
Record WorkflowListFilter := { filter_path : list str; operator : WorkflowListOperator; filter_value : WorkflowValue }.
Inductive WorkflowSortOrder := Asc | Desc.
Record WorkflowListSort := { sort_path : list str; order : WorkflowSortOrder }.

Record WorkflowReturnOutput := { out_variable : str; value_selector : list str }.

(** [active_groups] *)
Definition active_groups (groups : list WorkflowAggregateGroup) (grouped : bool) : list WorkflowAggregateGroup :=
  if grouped then groups else take 1 groups.

(** ** Ports, edges, nodes and blocks *)

Inductive WorkflowPort := PTrue | PFalse | PCase (id : str) | PNext | PFail.
#[export] Instance WorkflowPort_eq_dec : EqDecision WorkflowPort.
Proof. solve_decision. Defined.

(** [WorkflowPort::case] *)
Definition case (id : str) : WorkflowPort := if decide (id = lit "true") then PTrue else PCase id.

(** [is_reserved_port] *)
Definition is_reserved_port (id : str) : bool := bool_decide (id ∈ map lit ["false"; "next"; "fail"]%string).

Definition REVIEW_TIMEOUT_PORT : str := lit "timeout".

Record WorkflowEdgeDefinition := { from : str; edge_to : str; edge_port : option WorkflowPort }.

Inductive WorkflowNodeDefinition :=
| NStart
| NTemplate (variables : list (str * WorkflowValue)) (template : str)
| NList (input : WorkflowValue) (filter : option WorkflowListFilter) (sort : option WorkflowListSort)
    (limit : option N) (extract : option WorkflowValue)
| NClassifier (model : WorkflowModelPolicy) (input : WorkflowValue) (instruction : list WorkflowValue)
    (classes : list WorkflowClassifierClass)
| NCode (code_language : WorkflowCodeLanguage) (variables : list (str * WorkflowValue)) (code : str)
    (outputs : list (str * WorkflowVarType)) (retry : option WorkflowRetry) (on_error : WorkflowValueErrorStrategy)
| NAggregate (grouped : bool) (groups : list WorkflowAggregateGroup)
| NModel (model : WorkflowModelPolicy) (messages : list WorkflowModelMessage) (output : WorkflowModelOutput)
    (retry : option WorkflowRetry) (on_error : WorkflowModelErrorStrategy)
| NLoop (loop_variables : list WorkflowLoopVariable) (break_condition : option WorkflowPredicate)
    (loop_count : N) (body : WorkflowBlock)
| NIteration (iterator output : WorkflowValue) (is_parallel : bool) (parallel_nums : N)
    (error_handle_mode : WorkflowIterationErrorMode) (flatten_output : bool) (body : WorkflowBlock)
| NLoopEnd
| NAssigner (items : list WorkflowAssignment)
| NReview (content : list WorkflowValue) (actions : list WorkflowReviewAction) (timeout_ms : N)
| NTool (selector : WorkflowToolSelector) (arguments : WorkflowValue) (result : WorkflowToolResult)
    (retry : option WorkflowRetry) (on_error : WorkflowValueErrorStrategy)
| NAgent (profile : str) (task : list WorkflowValue) (output : WorkflowAgentOutput)
    (routes : list WorkflowAgentRoute) (on_error : WorkflowValueErrorStrategy)
| NBranch (cases : list WorkflowBranchCase)
| NReturn (outputs : list WorkflowReturnOutput)
with WorkflowBlock :=
| Block (input : json) (nodes : list (str * WorkflowNodeDefinition)) (edges : list WorkflowEdgeDefinition).

Definition block_input (b : WorkflowBlock) : json := match b with Block i _ _ => i end.
Definition block_nodes (b : WorkflowBlock) : list (str * WorkflowNodeDefinition) := match b with Block _ n _ => n end.
Definition block_edges (b : WorkflowBlock) : list WorkflowEdgeDefinition := match b with Block _ _ e => e end.

(** ** Errors *)

Inductive WorkflowCompileError :=
| At (path : str) (cause : WorkflowCompileError)
| InvalidField (detail : str)
| InvalidSchema (detail : str)
| DanglingReference (detail : str)
| InvalidEntry (detail : str)
| Cycle (node : str)
| Unreachable (node : str)
| Unterminated (detail : str)
| InvalidBranch (detail : str)
| InvalidReference (detail : str)
| IncompatibleReference (detail : str).

(** [WorkflowCompileError::at] *)
Definition at_path (prefix : str) (e : WorkflowCompileError) : WorkflowCompileError :=
  match e with
  | At path cause => At (prefix ++ lit "." ++ path) cause
  | _ => At prefix e
  end.

(** [WorkflowCompileError::cause] *)
Fixpoint cause_of (e : WorkflowCompileError) : WorkflowCompileError :=
  match e with At _ cause => cause_of cause | _ => e end.

Lemma cause_of_at prefix e : cause_of (at_path prefix e) = cause_of e.
Proof. by destruct e. Qed.
