(* ===== verification/WorkflowGraph.v ===== *)
(** The control flow of a Workflow block ([control_flow], [topological_order] and
    [reachable_nodes] of [src/src/runtime/workflow.rs]): the checks of its nodes, edges and
    ports, Kahn's algorithm and the reachable nodes.

    The [expect]s of the source on map entries hold because the maps have the block's nodes
    as their keys and every accepted edge ends in a node; here a missing entry reads as an
    empty list or zero.  A diagnostic is kept without the names formatted into it, an
    authored path with them. *)

From S2P Require Import Prelude Text Json Workflow.
From stdpp Require Import options.

(** ** Edges *)

Record WorkflowEdgeProgram := { to : str; port : WorkflowPort }.
#[export] Instance WorkflowEdgeProgram_eq_dec : EqDecision WorkflowEdgeProgram.
Proof. solve_decision. Defined.

Abbreviation Outgoing := (list (str * list WorkflowEdgeProgram)) (only parsing).

(** [outgoing[&node]] *)
Definition edges_of (n : str) (outgoing : Outgoing) : list WorkflowEdgeProgram := default [] (map_get n outgoing).

Definition count_of (n : str) (counts : list (str * nat)) : nat := default 0 (map_get n counts).

(** The authored exits of a node, and whether it handles failures by a branch. *)
Definition named_exits (n : WorkflowNodeDefinition) : list str :=
  match n with
  | NClassifier _ _ _ classes => map class_id classes
  | NBranch cases => map case_id cases
  | NAgent _ _ _ routes _ => map route_id routes
  | NReview _ actions _ => map action_id actions
  | _ => []
  end.

Definition has_fail_branch (n : WorkflowNodeDefinition) : bool :=
  match n with
  | NModel _ _ _ _ MFailBranch | NAgent _ _ _ _ VFailBranch | NTool _ _ _ _ VFailBranch
  | NCode _ _ _ _ _ VFailBranch => true
  | _ => false
  end.

Definition names_exit (n : WorkflowNodeDefinition) (p : WorkflowPort) : bool :=
  existsb (λ id, bool_decide (case id = p)) (named_exits n).

(** The port of an edge out of a node, or the refusal of an edge it cannot have. *)
Definition edge_port_for (n : WorkflowNodeDefinition) (p : option WorkflowPort)
    : result WorkflowCompileError WorkflowPort :=
  match n, p with
  | NClassifier _ _ _ _, Some p =>
      if names_exit n p then Ok p else Err (InvalidBranch (lit "Classifier edge must name a class ID"))
  | NClassifier _ _ _ _, None => Err (InvalidBranch (lit "Classifier edge must name a class ID"))
  | NBranch _, Some p =>
      if bool_decide (p = PFalse) || names_exit n p then Ok p
      else Err (InvalidBranch (lit "Branch node must use an authored case ID or false (ELSE)"))
  | NBranch _, None => Err (InvalidBranch (lit "Branch node must use an authored case ID or false (ELSE)"))
  | NReview _ _ _, Some p =>
      if bool_decide (p = case REVIEW_TIMEOUT_PORT) || names_exit n p then Ok p
      else Err (InvalidBranch (lit "Human Input node must use one of its action IDs or timeout"))
  | NReview _ _ _, None => Err (InvalidBranch (lit "Human Input node must use one of its action IDs or timeout"))
  | NAgent _ _ _ routes _, _ =>
      match p with
      | Some p =>
          if has_fail_branch n && bool_decide (p = PFail) then Ok PFail
          else if names_exit n p then Ok p
          else match routes with
               | [] => Err (InvalidField (lit "ordinary node cannot have a port"))
               | _ => Err (InvalidBranch (lit "routed Agent node must use one of its route IDs"))
               end
      | None =>
          match routes with
          | [] => Ok PNext
          | _ => Err (InvalidBranch (lit "routed Agent node must use one of its route IDs"))
          end
      end
  | _, None => Ok PNext
  | _, Some p =>
      if has_fail_branch n && bool_decide (p = PFail) then Ok PFail
      else Err (InvalidField (lit "ordinary node cannot have a port"))
  end.

(** The derived order of ports: by constructor, then by identity. *)
Definition port_rank (p : WorkflowPort) : nat :=
  match p with PTrue => 0 | PFalse => 1 | PCase _ => 2 | PNext => 3 | PFail => 4 end.
Definition port_cmp (p q : WorkflowPort) : comparison :=
  match p, q with
  | PCase a, PCase b => str_cmp a b
  | _, _ => Nat.compare (port_rank p) (port_rank q)
  end.
Definition edge_le (x y : WorkflowEdgeProgram) : Prop :=
  match port_cmp (port x) (port y) with Lt => True | Gt => False | Eq => str_cmp (to x) (to y) ≠ Gt end.
#[export] Instance edge_le_dec : RelDecision edge_le.
Proof. intros x y. unfold edge_le. destruct (port_cmp _ _); apply _. Defined.

(** ** Kahn's algorithm *)

(** One edge of the popped node: its end loses a predecessor and is queued after the last. *)
Definition relax (st : list (str * nat) * list str) (e : WorkflowEdgeProgram) : list (str * nat) * list str :=
  let count := count_of (to e) st.1 - 1 in
  (map_insert (to e) count st.1, if decide (count = 0) then st.2 ++ [to e] else st.2).

Fixpoint kahn (fuel : nat) (outgoing : Outgoing) (counts : list (str * nat)) (queue order : list str)
    : list (str * nat) * list str :=
  match fuel, queue with
  | S fuel, node :: queue =>
      let '(counts, queue) := foldl relax (counts, queue) (edges_of node outgoing) in
      kahn fuel outgoing counts queue (order ++ [node])
  | _, _ => (counts, order)
  end.

(** [topological_order], with one turn of the loop per node as fuel *)
Definition topological_order (outgoing : Outgoing) (incoming : list (str * nat))
    : result WorkflowCompileError (list str) :=
  let queue := omap (λ x, if decide (x.2 = 0) then Some x.1 else None) incoming in
  let '(counts, order) := kahn (length outgoing) outgoing incoming queue [] in
  if negb (length order =? length outgoing)%nat then
    let node := default [] (find_map (λ x, if decide (x.2 = 0) then None else Some x.1) counts) in
    Err (at_path (lit "nodes." ++ node) (Cycle node))
  else Ok order.

(** ** Reachability *)

Fixpoint reach (fuel : nat) (outgoing : Outgoing) (queue : list str) (seen : gset str) : gset str :=
  match fuel, queue with
  | S fuel, node :: queue =>
      if decide (node ∈ seen) then reach fuel outgoing queue seen
      else reach fuel outgoing (queue ++ map to (edges_of node outgoing)) ({[node]} ∪ seen)
  | _, _ => seen
  end.

(** [reachable_nodes], with one turn for the entry and for each edge as fuel *)
Definition reachable_nodes (entry : str) (outgoing : Outgoing) : gset str :=
  reach (1 + length (mjoin (map snd outgoing))) outgoing [entry] ∅.

(** ** The checks of a block *)

Definition MAX_WORKFLOW_NODES : nat := 256.

Definition is_ascii_alphanumeric (c : char) : bool :=
  ((48 <=? c) && (c <=? 57) || (65 <=? c) && (c <=? 90) || (97 <=? c) && (c <=? 122))%N.
(** [valid_local_key] *)
Definition valid_local_key (k : str) : bool :=
  negb (bool_decide (k = [])) && (len k <=? 64)%N &&
  forallb (λ c, is_ascii_alphanumeric c || (c =? 95)%N || (c =? 45)%N) k.

Definition dotted (l : list str) : str := foldr (λ s r, match r with [] => s | _ => s ++ lit "." ++ r end) [] l.
Definition nodes_path (id : str) : str := dotted [lit "nodes"; id].

Fixpoint check_cases (id : str) (index : N) (ids : list str) (cases : list WorkflowBranchCase)
    : result WorkflowCompileError () :=
  match cases with
  | [] => Ok ()
  | c :: cases =>
      _ ← guard_err (negb (valid_local_key (case_id c)) || is_reserved_port (case_id c)
                     || bool_decide (case_id c ∈ ids))
            (at_path (dotted [nodes_path id; lit "cases"; dec index; lit "id"])
               (InvalidBranch (lit "case IDs must be unique valid local keys and cannot name a reserved port")));
      check_cases id (index + 1) (case_id c :: ids) cases
  end.

Definition check_branch (x : str * WorkflowNodeDefinition) : result WorkflowCompileError () :=
  match x.2 with
  | NBranch cases =>
      _ ← guard_err (bool_decide (cases = []) || (32 <? length cases)%nat)
            (at_path (dotted [nodes_path x.1; lit "cases"]) (InvalidBranch (lit "Branch requires 1..=32 cases")));
      check_cases x.1 0 [] cases
  | _ => Ok ()
  end.

(** One authored edge: its ends exist, its port is an exit of its node, it is not repeated. *)
Definition add_edge (nodes : list (str * WorkflowNodeDefinition)) (index : N) (e : WorkflowEdgeDefinition)
    (st : Outgoing * list (str * nat)) : result WorkflowCompileError (Outgoing * list (str * nat)) :=
  let here field := dotted [lit "edges"; dec index; lit field] in
  n ← ok_or (at_path (here "from") (DanglingReference (lit "edge source is not a workflow node"))) (map_get (from e) nodes);
  _ ← guard_err (negb (bool_decide (is_Some (map_get (edge_to e) nodes))))
        (at_path (here "to") (DanglingReference (lit "edge destination is not a workflow node")));
  p ← map_err (at_path (here "port")) (edge_port_for n (edge_port e));
  let x := {| to := edge_to e; port := p |} in
  let successors := edges_of (from e) st.1 in
  _ ← guard_err (bool_decide (x ∈ successors))
        (at_path (here "port") (InvalidBranch (lit "node already has this connection")));
  Ok (map_insert (from e) (successors ++ [x]) st.1,
      map_insert (edge_to e) (S (count_of (edge_to e) st.2)) st.2).

Fixpoint add_edges (nodes : list (str * WorkflowNodeDefinition)) (index : N) (edges : list WorkflowEdgeDefinition)
    (st : Outgoing * list (str * nat)) : result WorkflowCompileError (Outgoing * list (str * nat)) :=
  match edges with
  | [] => Ok st
  | e :: edges => st ← add_edge nodes index e st; add_edges nodes (index + 1) edges st
  end.

Definition is_start (n : WorkflowNodeDefinition) : bool := match n with NStart => true | _ => false end.

(** [ControlFlow], without its activation scopes *)
Record ControlFlow := { entry : str; outgoing : Outgoing; topological : list str }.

(** [control_flow], up to the activation scopes *)
Definition control_flow (definition : WorkflowBlock) : result WorkflowCompileError ControlFlow :=
  let nodes := block_nodes definition in
  _ ← guard_err (bool_decide (nodes = []) || (MAX_WORKFLOW_NODES <? length nodes)%nat)
        (InvalidField (lit "block must contain between one and 256 nodes"));
  let starts := omap (λ x, if is_start x.2 then Some x.1 else None) nodes in
  entry ← match starts with
          | [entry] => Ok entry
          | _ => Err (at_path (lit "nodes") (InvalidEntry (lit "block must contain exactly one Start node")))
          end;
  _ ← try_for_each (λ x, guard_err (bool_decide (x.1 = lit "args") || negb (valid_local_key x.1))
        (at_path (nodes_path x.1) (InvalidField (lit "workflow node id must be non-empty, at most 64 bytes, and contain no dots")))) nodes;
  _ ← try_for_each check_branch nodes;
  '(outgoing, incoming) ← add_edges nodes 0 (block_edges definition)
                            (map (λ x, (x.1, [])) nodes, map (λ x, (x.1, 0)) nodes);
  let outgoing := map (λ x, (x.1, merge_sort edge_le x.2)) outgoing in
  _ ← try_for_each (λ x, guard_err (has_fail_branch x.2 &&
                                    negb (existsb (λ e, bool_decide (port e = PFail)) (edges_of x.1 outgoing)))
        (at_path (dotted [nodes_path x.1; lit "on_error"])
           (InvalidField (lit "node handles errors with a fail branch but has no fail connection")))) nodes;
  _ ← guard_err (negb (count_of entry incoming =? 0)%nat)
        (at_path (nodes_path entry) (InvalidEntry (lit "entry node must not have an incoming edge")));
  order ← topological_order outgoing incoming;
  let reachable := reachable_nodes entry outgoing in
  _ ← match find_first (λ x, negb (bool_decide (x.1 ∈ reachable))) nodes with
      | Some (id, _) => Err (at_path (nodes_path id) (Unreachable id))
      | None => Ok ()
      end;
  Ok {| entry := entry; outgoing := outgoing; topological := order |}.

(** ** Kahn's algorithm is exact *)

(** The edges of a list of nodes, and how many of some edges end in [k]. *)
Definition edges_from (ns : list str) (outgoing : Outgoing) : list WorkflowEdgeProgram :=
  mjoin (map (λ n, edges_of n outgoing) ns).
Definition hits (k : str) (es : list WorkflowEdgeProgram) : nat := length (filter (λ e, to e = k) es).

Lemma hits_app k es es' : hits k (es ++ es') = hits k es + hits k es'.
Proof. unfold hits. by rewrite filter_app, length_app. Qed.
Lemma hits_pos k es : hits k es ≠ 0 ↔ ∃ e, e ∈ es ∧ to e = k.
Proof.
  unfold hits. split.
  - intros Hn. destruct (filter _ es) as [|e l] eqn:E; [done|].
    assert (He : e ∈ filter (λ e, to e = k) es) by (rewrite E; constructor).
    apply list_elem_of_filter in He as [??]. eauto.
  - intros (e & He & Hk) Hn. apply nil_length_inv in Hn.
    assert (Hin : e ∈ filter (λ e, to e = k) es) by (by apply list_elem_of_filter). rewrite Hn in Hin. by apply not_elem_of_nil in Hin.
Qed.
Lemma hits_perm k es es' : es ≡ₚ es' → hits k es = hits k es'.
Proof. intros Hp. unfold hits. by rewrite Hp. Qed.
Lemma edges_from_perm ns ns' outgoing : ns ≡ₚ ns' → edges_from ns outgoing ≡ₚ edges_from ns' outgoing.
Proof. intros Hp. unfold edges_from. by rewrite Hp. Qed.

Lemma count_of_insert k k' n counts : count_of k (map_insert k' n counts) = if decide (k = k') then n else count_of k counts.
Proof. unfold count_of. rewrite map_get_insert. by destruct (decide (k = k')). Qed.

(** The edges of one popped node. *)
Lemma relax_all es counts queue c :
  (∀ k, count_of k counts = c k + hits k es) → (∀ k, k ∈ queue → hits k es = 0) → NoDup queue →
  (∀ k, count_of k (foldl relax (counts, queue) es).1 = c k) ∧ NoDup (foldl relax (counts, queue) es).2 ∧
  ∀ k, k ∈ (foldl relax (counts, queue) es).2 ↔ k ∈ queue ∨ c k = 0 ∧ hits k es ≠ 0.
Proof.
  revert counts queue. induction es as [|e es IH]; intros counts queue Hc Hq Hnd.
  - cbn [foldl fst snd]. split_and!; [intros k; rewrite Hc; apply Nat.add_0_r|done|]. intros k. split; [by left|]. intros [|[_ ?]]; done.
  - assert (Hh : ∀ k, hits k (e :: es) = (if decide (to e = k) then 1 else 0) + hits k es).
    { intros k. unfold hits. rewrite filter_cons. by case_decide. }
    assert (Hce : count_of (to e) counts - 1 = c (to e) + hits (to e) es).
    { rewrite Hc, Hh, decide_True by done. lia. }
    assert (He : to e ∉ queue) by (intros Hin; specialize (Hq _ Hin); rewrite Hh, decide_True in Hq by done; lia).
    assert (Hrel : relax (counts, queue) e = (map_insert (to e) (c (to e) + hits (to e) es) counts,
      if decide (c (to e) + hits (to e) es = 0) then queue ++ [to e] else queue)).
    { unfold relax. cbn [fst snd]. by rewrite Hce. }
    cbn [foldl]. rewrite Hrel. clear Hrel.
    destruct (IH (map_insert (to e) (c (to e) + hits (to e) es) counts)
      (if decide (c (to e) + hits (to e) es = 0) then queue ++ [to e] else queue)) as (IH1 & IH2 & IH3).
    + intros k. rewrite count_of_insert. destruct (decide (k = to e)) as [->|Hk]; [done|]. rewrite Hc, Hh, decide_False by done. lia.
    + intros k Hin. case_decide as Hz; [|specialize (Hq _ Hin); rewrite Hh in Hq; lia].
      apply elem_of_app in Hin as [Hin| ->%list_elem_of_singleton]; [specialize (Hq _ Hin); rewrite Hh in Hq; lia|lia].
    + case_decide; [|done]. apply NoDup_app. split_and!; [done| |apply NoDup_singleton].
      by intros x Hx ->%list_elem_of_singleton.
    + split_and!; [done|done|]. intros k. rewrite IH3, Hh. clear IH1 IH2 IH3.
      case_decide as Hz; [rewrite elem_of_app, list_elem_of_singleton|]; case_decide as Hk; subst; naive_solver lia.
Qed.

Section kahn.
Context (out : Outgoing).

(** In the order, every node comes after all sources of its edges. *)
Definition ordered (order : list str) : Prop :=
  ∀ pre m post, order = pre ++ m :: post → ∀ n, n ∈ out.*1 → m ∈ map to (edges_of n out) → n ∈ pre.

(** Between two turns, [rest] are the nodes not yet popped. *)
Record kahn_inv (counts : list (str * nat)) (queue order rest : list str) : Prop := {
  kahn_nodes : out.*1 ≡ₚ order ++ rest;
  kahn_count k : count_of k counts = hits k (edges_from rest out);
  kahn_nodup : NoDup queue;
  kahn_queue k : k ∈ queue ↔ k ∈ rest ∧ hits k (edges_from rest out) = 0;
  kahn_order : ordered order;
}.

Hypothesis closed : ∀ n e, e ∈ edges_of n out → to e ∈ out.*1.
Hypothesis nodup : NoDup out.*1.

Lemma kahn_turn counts node queue order rest :
  kahn_inv counts (node :: queue) order rest →
  ∃ rest', length rest = S (length rest') ∧
    kahn_inv (foldl relax (counts, queue) (edges_of node out)).1 (foldl relax (counts, queue) (edges_of node out)).2
      (order ++ [node]) rest'.
Proof using All.
  intros [Hn Hc Hnd Hq Ho]. apply NoDup_cons in Hnd as [Hnq Hnd].
  destruct (proj1 (Hq node) ltac:(constructor)) as [Hin Hz]. apply elem_of_Permutation in Hin as [rest' Hr].
  assert (Hcut : ∀ k, hits k (edges_from rest out) = hits k (edges_from rest' out) + hits k (edges_of node out)).
  { intros k. rewrite (hits_perm k _ _ (edges_from_perm _ _ out Hr)). change (edges_from (node :: rest') out) with (edges_of node out ++ edges_from rest' out).
    rewrite hits_app. lia. }
  assert (Hndr : NoDup (order ++ node :: rest')) by (rewrite <- Hr, <- Hn; done).
  apply NoDup_app in Hndr as (_ & Hdisj & [Hnr _]%NoDup_cons).
  exists rest'. split; [by rewrite Hr|].
  destruct (relax_all (edges_of node out) counts queue (λ k, hits k (edges_from rest' out))) as (H1 & H2 & H3).
  { intros k. rewrite Hc. apply Hcut. }
  { intros k Hk. destruct (proj1 (Hq k) ltac:(by constructor)) as [_ Hk0]. rewrite Hcut in Hk0. lia. }
  { done. }
  split; try done.
  - rewrite Hn, Hr, <- app_assoc. done.
  - intros k. rewrite H3. split.
    + intros [Hk|[Hk0 Hk]].
      * destruct (proj1 (Hq k) ltac:(by constructor)) as [Hin Hk0]. rewrite Hcut in Hk0. split; [|lia].
        rewrite Hr in Hin. apply elem_of_cons in Hin as [->|]; done.
      * split; [|done]. apply hits_pos in Hk as (e & He & <-). pose proof (closed _ _ He) as Ht. rewrite Hn, Hr in Ht.
        rewrite elem_of_app, elem_of_cons in Ht. destruct Ht as [Ht|[Ht|?]]; [exfalso| |done].
        -- apply list_elem_of_split in Ht as (pre & post & ->).
           assert (Hnode : node ∈ pre); [|apply (Hdisj node); [apply elem_of_app; by left|constructor]].
           apply (Ho pre (to e) post eq_refl); [rewrite Hn, Hr, elem_of_app, elem_of_cons; auto|]. apply list_elem_of_fmap. eauto.
        -- exfalso. rewrite <- Ht in Hz. rewrite Hcut in Hz. assert (hits (to e) (edges_of node out) ≠ 0); [|lia].
           apply hits_pos. eauto.
    + intros [Hk Hk0]. destruct (decide (hits k (edges_of node out) = 0)) as [Hh|]; [left|by right].
      assert (Hkq : k ∈ node :: queue) by (apply Hq; split; [rewrite Hr; by constructor|rewrite Hcut; lia]).
      apply elem_of_cons in Hkq as [->|]; [done|done].
  - intros pre m post E n Hnn Hm. destruct (decide (post = [])) as [->|Hp].
    + apply app_inj_tail in E as [<- <-]. assert (Hnin : n ∈ order ++ rest) by (by rewrite <- Hn).
      apply elem_of_app in Hnin as [?|Hnr']; [done|]. exfalso.
      assert (hits node (edges_from rest out) ≠ 0); [|done]. apply hits_pos.
      apply list_elem_of_fmap in Hm as (e & -> & He). exists e. split; [|done].
      apply list_elem_of_join. exists (edges_of n out). split; [done|]. apply list_elem_of_fmap. eauto.
    + destruct post as [|x post _] using rev_ind; [done|]. rewrite app_comm_cons, app_assoc in E.
      apply app_inj_tail in E as [-> ->]. by eapply (Ho pre m post).
Qed.

Lemma kahn_all fuel counts queue order rest :
  kahn_inv counts queue order rest → length rest ≤ fuel →
  ∃ counts' order' rest', kahn fuel out counts queue order = (counts', order') ∧ kahn_inv counts' [] order' rest'.
Proof using All.
  revert counts queue order rest. induction fuel as [|fuel IH]; intros counts queue order rest Hi Hf; cbn.
  - exists counts, order, rest. split; [done|]. assert (rest = []) as -> by (by apply nil_length_inv; lia).
    destruct queue as [|k queue]; [done|]. destruct (proj1 (kahn_queue _ _ _ _ Hi k) ltac:(constructor)) as [?%not_elem_of_nil _]. done.
  - destruct queue as [|node queue]; [by exists counts, order, rest|].
    destruct (kahn_turn _ _ _ _ _ Hi) as (rest' & Hl & Hi'). destruct (foldl relax _ _) as [counts' queue'].
    apply (IH _ _ _ rest'); [done|lia].
Qed.
End kahn.

(** The edge relation of a program. *)
Definition leads (out : Outgoing) (n m : str) : Prop := m ∈ map to (edges_of n out).

Lemma leads_iff out n m : leads out n m ↔ ∃ e, e ∈ edges_of n out ∧ to e = m.
Proof. unfold leads. rewrite list_elem_of_fmap. naive_solver. Qed.

Lemma map_get_pair {V} (m : list (str * V)) k v : map_get k m = Some v → (k, v) ∈ m.
Proof.
  induction m as [|[k' v'] m IH]; cbn; [done|]. case_decide as Hk; [intros [= <-]; subst; constructor|].
  intros Hm. constructor. by apply IH.
Qed.
Lemma map_get_In {V} (m : list (str * V)) k v : NoDup m.*1 → (k, v) ∈ m → map_get k m = Some v.
Proof.
  induction m as [|[k' v'] m IH]; cbn; [by intros _ ?%not_elem_of_nil|].
  intros [Hnin Hnd]%NoDup_cons [[= -> ->]|Hin]%elem_of_cons; [by rewrite decide_True|].
  rewrite decide_False; [by apply IH|]. intros ->. apply Hnin. by apply (list_elem_of_fmap_2 fst _ (k', v)).
Qed.
Lemma map_get_key {V} (m : list (str * V)) k : k ∈ m.*1 ↔ is_Some (map_get k m).
Proof.
  induction m as [|[k' v'] m IH]; cbn; [split; [by intros ?%not_elem_of_nil|by intros [??]]|].
  rewrite elem_of_cons, IH. case_decide; [split; [by eexists|auto]|]. naive_solver.
Qed.
Lemma map_get_map {V W} (f : V → W) (m : list (str * V)) k : map_get k (map (λ x, (x.1, f x.2)) m) = f <$> map_get k m.
Proof. induction m as [|[k' v'] m IH]; cbn; [done|]. by case_decide. Qed.
Lemma map_keys {V W} (f : V → W) (m : list (str * V)) : (map (λ x, (x.1, f x.2)) m).*1 = m.*1.
Proof. induction m as [|[k' v'] m IH]; cbn; [done|]. by f_equal. Qed.

(** Which edges a program has. *)
Definition degrees (out : Outgoing) (incoming : list (str * nat)) : Prop :=
  incoming.*1 = out.*1 ∧ ∀ k, count_of k incoming = hits k (edges_from out.*1 out).

Lemma topological_order_exact out incoming :
  NoDup out.*1 → (∀ n e, e ∈ edges_of n out → to e ∈ out.*1) → degrees out incoming →
  match topological_order out incoming with
  | Ok order => out.*1 ≡ₚ order ∧ ordered out order
  | Err e => (∃ n, cause_of e = Cycle n) ∧ ∀ rank : str → nat, ¬ ∀ n m, leads out n m → rank n < rank m
  end.
Proof.
  intros Hnd Hcl [Hk Hc]. unfold topological_order. set (queue := omap _ incoming).
  assert (Hq : ∀ k, k ∈ queue ↔ k ∈ out.*1 ∧ hits k (edges_from out.*1 out) = 0).
  { intros k. unfold queue. rewrite list_elem_of_omap, <- Hc, <- Hk. unfold count_of. split.
    - intros ([k' n] & Hin & Hs). cbn in Hs. case_decide; [|done]. injection Hs as ->. subst n. split.
      + by apply (list_elem_of_fmap_2 fst _ (k, 0)).
      + rewrite (map_get_In incoming k 0); [done| |done]. by rewrite Hk.
    - intros [[n Hn]%map_get_key Hz]. rewrite Hn in Hz. cbn in Hz. subst n. exists (k, 0). split; [by apply map_get_pair|done]. }
  assert (Hi : kahn_inv out incoming queue [] out.*1).
  { split; try done; [|by intros [|? pre] m post [=]]. unfold queue. assert (Hni : NoDup incoming.*1) by (by rewrite Hk). clear -Hni.
    induction incoming as [|[k n] l IH]; cbn; [constructor|]. cbn in Hni. apply NoDup_cons in Hni as [Hn Hni].
    case_decide; [|by apply IH]. constructor; [|by apply IH]. rewrite list_elem_of_omap. intros ([k' n'] & Hin & Hs).
    cbn in Hs. case_decide; [|done]. injection Hs as ->. apply Hn. by apply (list_elem_of_fmap_2 fst _ (k, n')). }
  destruct (kahn_all out Hcl Hnd (length out) incoming queue [] out.*1 Hi) as (counts & order & rest & -> & Hi').
  { by rewrite length_fmap. }
  destruct Hi' as [Hn _ _ Hq' Ho]. assert (Hlen : length out = length order + length rest).
  { rewrite <- length_app, <- Hn. by rewrite length_fmap. }
  destruct (Nat.eqb_spec (length order) (length out)) as [E|E]; cbn [negb].
  - split; [|done]. assert (rest = []) as -> by (apply nil_length_inv; lia). by rewrite app_nil_r in Hn.
  - split; [eexists; by rewrite cause_of_at|]. intros rank Hrank.
    assert (Hne : ∃ k, k ∈ rest) by (destruct rest as [|k rest]; [cbn in Hlen; lia|exists k; constructor]).
    destruct Hne as [k Hin]. remember (rank k) as r eqn:Er. revert k Er Hin. induction (lt_wf r) as [r _ IH]. intros k -> Hin.
    destruct (decide (hits k (edges_from rest out) = 0)) as [Hz|Hz].
    + assert (Hbad : k ∈ []) by (by apply Hq'). by apply not_elem_of_nil in Hbad.
    + apply hits_pos in Hz as (e & He & <-). apply list_elem_of_join in He as (es & He & Hes).
      apply list_elem_of_fmap in Hes as (n & -> & Hnr).
      eapply (IH (rank n)); [|done|done]. apply Hrank, leads_iff. eauto.
Qed.

(** ** Reachability is exact *)

Lemma reach_sound out entry fuel queue seen :
  (∀ n, n ∈ queue → rtc (leads out) entry n) → (∀ n, n ∈ seen → rtc (leads out) entry n) →
  ∀ n, n ∈ reach fuel out queue seen → rtc (leads out) entry n.
Proof.
  revert queue seen. induction fuel as [|fuel IH]; intros queue seen Hq Hs n; [by apply Hs|].
  destruct queue as [|k queue]; [by apply Hs|]. cbn [reach]. case_decide.
  - apply IH; [|done]. intros m Hm. apply Hq. by constructor.
  - apply IH.
    + intros m [Hm|Hm]%elem_of_app; [apply Hq; by constructor|]. eapply rtc_r; [apply Hq; constructor|exact Hm].
    + intros m [->%elem_of_singleton|Hm]%elem_of_union; [apply Hq; constructor|by apply Hs].
Qed.

Lemma edges_from_remove out k seen l :
  NoDup l → k ∈ l → k ∉ seen →
  length (edges_from (filter (.∉ seen) l) out) =
  length (edges_of k out) + length (edges_from (filter (.∉ ({[k]} ∪ seen : gset str)) l) out).
Proof.
  induction l as [|x l IH]; [by intros _ ?%not_elem_of_nil|]. intros [Hx Hnd]%NoDup_cons Hin Hk.
  rewrite !filter_cons. apply elem_of_cons in Hin as [->|Hin].
  - rewrite decide_True, decide_False by set_solver. change (edges_from (x :: ?l') out) with (edges_of x out ++ edges_from l' out).
    rewrite length_app. f_equal. f_equal. f_equal. clear -Hx. induction l as [|y l IH]; [done|].
    apply not_elem_of_cons in Hx as [Hxy Hx]. rewrite !filter_cons, IH by done. do 2 case_decide; set_solver.
  - assert (k ≠ x) by (intros ->; done). destruct (decide (x ∈ seen)).
    + rewrite !decide_False by set_solver. by apply IH.
    + rewrite !decide_True by set_solver. change (edges_from (x :: ?l') out) with (edges_of x out ++ edges_from l' out).
      rewrite !length_app, IH by done. lia.
Qed.

Lemma reach_closed out keys fuel queue seen :
  NoDup keys → (∀ n m, leads out n m → n ∈ keys ∧ m ∈ keys) → (∀ n, n ∈ queue → n ∈ keys) →
  (∀ n m, n ∈ seen → leads out n m → m ∈ seen ∨ m ∈ queue) →
  length queue + length (edges_from (filter (.∉ seen) keys) out) <= fuel →
  (∀ n, n ∈ seen ∨ n ∈ queue → n ∈ reach fuel out queue seen) ∧
  ∀ n m, n ∈ reach fuel out queue seen → leads out n m → m ∈ reach fuel out queue seen.
Proof.
  intros Hnd Hk. revert queue seen. induction fuel as [|fuel IH]; intros queue seen Hqk Hs Hf.
  - assert (queue = []) as -> by (apply nil_length_inv; lia). cbn. split; [by intros n [?|?%not_elem_of_nil]|].
    intros n m Hn Hl. by destruct (Hs n m Hn Hl) as [?|?%not_elem_of_nil].
  - destruct queue as [|k queue].
    + cbn. split; [by intros n [?|?%not_elem_of_nil]|]. intros n m Hn Hl. by destruct (Hs n m Hn Hl) as [?|?%not_elem_of_nil].
    + cbn [reach]. cbn in Hf. destruct (decide (k ∈ seen)) as [Hks|Hks].
      * destruct (IH queue seen) as [H1 H2].
        { intros n Hn. apply Hqk. by constructor. }
        { intros n m Hn Hl. destruct (Hs n m Hn Hl) as [?|[->|?]%elem_of_cons]; auto. }
        { lia. }
        split; [|done]. intros n [?|[->|?]%elem_of_cons]; apply H1; auto.
      * assert (Hkk : k ∈ keys) by (apply Hqk; constructor).
        rewrite (edges_from_remove out k seen keys Hnd Hkk Hks) in Hf.
        destruct (IH (queue ++ map to (edges_of k out)) ({[k]} ∪ seen)) as [H1 H2].
        { intros n [Hn|Hn]%elem_of_app; [apply Hqk; by constructor|]. by apply (Hk k n). }
        { intros n m [->%elem_of_singleton|Hn]%elem_of_union Hl; [right; apply elem_of_app; by right|].
          destruct (Hs n m Hn Hl) as [?|[->|?]%elem_of_cons]; [left|left|right]; [by apply elem_of_union_r|by apply elem_of_union_l, elem_of_singleton|apply elem_of_app; by left]. }
        { rewrite length_app, length_map. lia. }
        split; [|done]. intros n [?|[->|?]%elem_of_cons]; apply H1; [left; by apply elem_of_union_r|left; by apply elem_of_union_l, elem_of_singleton|right; apply elem_of_app; by left].
Qed.

Lemma edges_from_none (P : str → Prop) `{∀ x, Decision (P x)} out ns : (∀ n, n ∈ ns → P n) → edges_from (filter P ns) out = edges_from ns out.
Proof.
  induction ns as [|n ns IH]; [done|]. intros HP. rewrite filter_cons, decide_True by (apply HP; constructor).
  change (edges_of n out ++ edges_from (filter P ns) out = edges_of n out ++ edges_from ns out).
  f_equal. apply IH. intros m Hm. apply HP. by constructor.
Qed.

Lemma edges_of_cons n k es out : edges_of n ((k, es) :: out) = if decide (n = k) then es else edges_of n out.
Proof. unfold edges_of. cbn. by case_decide. Qed.

Lemma edges_from_keys out : NoDup out.*1 → edges_from out.*1 out = mjoin (map snd out).
Proof.
  induction out as [|[k es] out IH]; [done|]. intros [Hk Hnd]%NoDup_cons.
  change (edges_of k ((k, es) :: out) ++ edges_from out.*1 ((k, es) :: out) = es ++ mjoin (map snd out)).
  rewrite edges_of_cons, decide_True by done. f_equal. rewrite <- IH by done. unfold edges_from. f_equal.
  apply map_ext_in. intros n Hn%list_elem_of_In. rewrite edges_of_cons, decide_False; [done|]. by intros ->.
Qed.

Lemma reachable_nodes_exact out entry n :
  NoDup out.*1 → (∀ n m, leads out n m → m ∈ out.*1) → entry ∈ out.*1 →
  n ∈ reachable_nodes entry out ↔ rtc (leads out) entry n.
Proof.
  intros Hnd Hcl Hentry. split.
  - apply reach_sound; [|by intros ? ?%elem_of_empty]. by intros m ->%list_elem_of_singleton.
  - destruct (reach_closed out out.*1 (1 + length (mjoin (map snd out))) [entry] ∅) as [H1 H2]; [done|..].
    + intros a b Hl. split; [|by eapply Hcl]. apply map_get_key. unfold leads, edges_of in Hl.
      destruct (map_get a out); [by eexists|]. by apply not_elem_of_nil in Hl.
    + by intros m ->%list_elem_of_singleton.
    + by intros m k ?%elem_of_empty.
    + rewrite edges_from_none by set_solver. rewrite edges_from_keys by done. cbn. lia.
    + intros Hr. revert n Hr. apply (rtc_ind_r (λ n, n ∈ _)); [apply H1; right; constructor|]. intros a b _ Hl Ha. by eapply H2.
Qed.

(** ** The accepted blocks *)

Lemma map_insert_keys {V} k (v : V) m : map_sorted m → k ∈ m.*1 → (map_insert k v m).*1 = m.*1.
Proof.
  unfold map_sorted. induction m as [|[k' v'] m IH]; cbn; [by intros _ ?%not_elem_of_nil|].
  intros [Hs Hall]%StronglySorted_inv Hin. pose proof (str_cmp_eq k k') as Heq. pose proof (str_cmp_antisym k k') as Ha.
  destruct (str_cmp k k') eqn:E; cbn.
  - by rewrite (proj1 Heq eq_refl).
  - exfalso. apply elem_of_cons in Hin as [->|Hin]; [by pose proof (proj2 Heq eq_refl)|].
    pose proof (proj1 (Forall_forall _ _) Hall k Hin) as Hlt. unfold str_lt in Hlt. rewrite Ha in Hlt. done.
  - f_equal. apply IH; [done|]. apply elem_of_cons in Hin as [->|Hin]; [|done]. by pose proof (proj2 Heq eq_refl).
Qed.

Lemma sorted_nodup {V} (m : list (str * V)) : map_sorted m → NoDup m.*1.
Proof.
  unfold map_sorted. induction (m.*1) as [|k l IH]; [constructor|]. intros [Hs Hall]%StronglySorted_inv. constructor; [|by apply IH].
  intros Hin. pose proof (proj1 (Forall_forall _ _) Hall k Hin) as Hlt. unfold str_lt in Hlt.
  by rewrite (proj2 (str_cmp_eq k k) eq_refl) in Hlt.
Qed.

(** An edge some authored edge stands for. *)
Definition authored (nodes : list (str * WorkflowNodeDefinition)) (es : list WorkflowEdgeDefinition) (n : str)
    (e : WorkflowEdgeProgram) : Prop :=
  ∃ d nd, d ∈ es ∧ from d = n ∧ map_get n nodes = Some nd ∧ edge_to d = to e ∧
    is_Some (map_get (to e) nodes) ∧ edge_port_for nd (edge_port d) = Ok (port e).

Record edges_inv (nodes : list (str * WorkflowNodeDefinition)) (es : list WorkflowEdgeDefinition)
    (st : Outgoing * list (str * nat)) : Prop := {
  inv_out : st.1.*1 = nodes.*1;
  inv_in : st.2.*1 = nodes.*1;
  inv_edges n e : e ∈ edges_of n st.1 ↔ authored nodes es n e;
  inv_once n : NoDup (edges_of n st.1);
  inv_count k : count_of k st.2 = hits k (edges_from nodes.*1 st.1);
}.

Lemma edges_of_insert n k es out : edges_of n (map_insert k es out) = if decide (n = k) then es else edges_of n out.
Proof. unfold edges_of. rewrite map_get_insert. by case_decide. Qed.

Lemma hits_insert k f x out ns :
  NoDup ns → f ∈ ns →
  hits k (edges_from ns (map_insert f (edges_of f out ++ [x]) out)) =
  hits k (edges_from ns out) + if decide (to x = k) then 1 else 0.
Proof.
  assert (Hcons : ∀ n ns out, hits k (edges_from (n :: ns) out) = hits k (edges_of n out) + hits k (edges_from ns out)).
  { intros n ns' out'. apply hits_app. }
  assert (Hx : hits k [x] = if decide (to x = k) then 1 else 0) by (unfold hits; rewrite filter_cons; by case_decide).
  induction ns as [|n ns IH]; [by intros _ ?%not_elem_of_nil|]. intros [Hn Hnd]%NoDup_cons Hin.
  rewrite !Hcons, edges_of_insert. destruct (decide (n = f)) as [->|Hne].
  - rewrite hits_app, Hx. assert (edges_from ns (map_insert f (edges_of f out ++ [x]) out) = edges_from ns out) as ->; [|lia].
    unfold edges_from. f_equal. apply map_ext_in. intros m Hm%list_elem_of_In. rewrite edges_of_insert, decide_False; [done|by intros ->].
  - apply elem_of_cons in Hin as [->|Hin]; [done|]. rewrite IH by done. lia.
Qed.

Lemma add_edge_inv nodes index d es st st' :
  map_sorted nodes → edges_inv nodes es st → map_sorted st.1 → map_sorted st.2 → add_edge nodes index d st = Ok st' →
  edges_inv nodes (es ++ [d]) st' ∧ map_sorted st'.1 ∧ map_sorted st'.2.
Proof.
  intros Hs [Ho Hi He Hon Hc] Hs1 Hs2 Ha. unfold add_edge in Ha.
  apply bind_ok in Ha as (nd & Hnd%ok_or_ok & Ha). apply bind_ok in Ha as (u1 & Hto%guard_err_ok & Ha).
  apply negb_false_iff, bool_decide_eq_true in Hto. apply bind_ok in Ha as (p & Hp%map_err_ok & Ha).
  apply bind_ok in Ha as (u2 & Hnew%guard_err_ok%bool_decide_eq_false & [= <-]). cbn [fst snd].
  assert (Hf : from d ∈ nodes.*1) by (apply map_get_key; by eexists).
  assert (Ht : edge_to d ∈ nodes.*1) by (by apply map_get_key).
  split_and!; [|by apply map_insert_sorted..]. split; cbn [fst snd].
  - rewrite map_insert_keys; [done|done|by rewrite Ho].
  - rewrite map_insert_keys; [done|done|by rewrite Hi].
  - intros n e. rewrite edges_of_insert. split.
    + case_decide as Hn; [subst n; intros [Hin| ->%list_elem_of_singleton]%elem_of_app|intros Hin].
      * apply He in Hin as (d' & nd' & Hd & ?). exists d', nd'. split; [apply elem_of_app; by left|done].
      * exists d, nd. split_and!; try done. apply elem_of_app. right. constructor.
      * apply He in Hin as (d' & nd' & Hd & ?). exists d', nd'. split; [apply elem_of_app; by left|done].
    + intros (d' & nd' & [Hd| ->%list_elem_of_singleton]%elem_of_app & Hfr & Hnd' & Hte & Hsome & Hpe).
      * assert (Hin : e ∈ edges_of n st.1) by (apply He; by exists d', nd'). case_decide as Hn; [|done]. rewrite Hn in Hin. apply elem_of_app. by left.
      * rewrite decide_True by done. apply elem_of_app. right. apply list_elem_of_singleton. subst n.
        assert (nd' = nd) as -> by congruence. rewrite Hp in Hpe. injection Hpe as ->. by destruct e; cbn in *; subst.
  - intros n. rewrite edges_of_insert. case_decide; [|done]. apply NoDup_app. split_and!; [done| |apply NoDup_singleton].
    by intros x Hx ->%list_elem_of_singleton.
  - intros k. rewrite count_of_insert, hits_insert by (by try apply sorted_nodup). cbn [to].
    rewrite <- Hc. do 2 case_decide; subst; try done; lia.
Qed.

Lemma add_edges_inv nodes index ds es st st' :
  map_sorted nodes → edges_inv nodes es st → map_sorted st.1 → map_sorted st.2 → add_edges nodes index ds st = Ok st' →
  edges_inv nodes (es ++ ds) st'.
Proof.
  intros Hs. revert index es st. induction ds as [|d ds IH]; intros index es st Hi Hs1 Hs2 Ha; cbn in Ha.
  - injection Ha as <-. by rewrite app_nil_r.
  - apply bind_ok in Ha as (st1 & Ha & Hrest). destruct (add_edge_inv _ _ _ _ _ _ Hs Hi Hs1 Hs2 Ha) as (Hi1 & ? & ?).
    rewrite cons_middle, app_assoc. by eapply IH.
Qed.

(** What an accepted block guarantees to its execution. *)
Record flow_ok (b : WorkflowBlock) (cf : ControlFlow) : Prop := {
  flow_start n : map_get n (block_nodes b) = Some NStart ↔ n = entry cf;
  flow_keys : (outgoing cf).*1 = (block_nodes b).*1;
  flow_nodes : (block_nodes b).*1 ≡ₚ topological cf;
  flow_order : ordered (outgoing cf) (topological cf);
  flow_edges n e : e ∈ edges_of n (outgoing cf) ↔ authored (block_nodes b) (block_edges b) n e;
  flow_once n : NoDup (edges_of n (outgoing cf));
  flow_reach n : n ∈ (block_nodes b).*1 → rtc (leads (outgoing cf)) (entry cf) n;
  flow_source n : ¬ leads (outgoing cf) n (entry cf);
  flow_fail n nd : map_get n (block_nodes b) = Some nd → has_fail_branch nd = true →
    ∃ e, e ∈ edges_of n (outgoing cf) ∧ port e = PFail;
}.

Lemma edges_of_sorted n out : edges_of n (map (λ x, (x.1, merge_sort edge_le x.2)) out) = merge_sort edge_le (edges_of n out).
Proof. unfold edges_of. rewrite (map_get_map (merge_sort edge_le)). by destruct (map_get n out). Qed.

Lemma edges_from_sorted ns out : edges_from ns (map (λ x, (x.1, merge_sort edge_le x.2)) out) ≡ₚ edges_from ns out.
Proof.
  unfold edges_from. induction ns as [|n ns IH]; [done|]. cbn. rewrite IH, edges_of_sorted. by rewrite merge_sort_Permutation.
Qed.

Lemma only_start nodes s :
  NoDup nodes.*1 → omap (λ x, if is_start x.2 then Some x.1 else None) nodes = [s] →
  ∀ n, map_get n nodes = Some NStart ↔ n = s.
Proof.
  intros Hnd Hs n. assert (Hin : n ∈ omap (λ x : str * WorkflowNodeDefinition, if is_start x.2 then Some x.1 else None) nodes ↔
    map_get n nodes = Some NStart).
  { rewrite list_elem_of_omap. split.
    - intros ([k nd] & Hin & He). cbn in He. destruct nd; try done. injection He as ->. by apply map_get_In.
    - intros Hg. exists (n, NStart). split; [by apply map_get_pair|done]. }
  by rewrite <- Hin, Hs, list_elem_of_singleton.
Qed.

Lemma control_flow_ok b cf : map_sorted (block_nodes b) → control_flow b = Ok cf → flow_ok b cf.
Proof.
  intros Hs Hc. pose proof (sorted_nodup _ Hs) as Hnd. unfold control_flow in Hc.
  apply bind_ok in Hc as (u1 & _ & Hc). apply bind_ok in Hc as (s & Hstart & Hc).
  apply bind_ok in Hc as (u2 & _ & Hc). apply bind_ok in Hc as (u3 & _ & Hc).
  apply bind_ok in Hc as ([out inc] & Hadd & Hc). apply bind_ok in Hc as (u4 & Hfail%try_for_each_ok & Hc).
  apply bind_ok in Hc as (u5 & Hsrc%guard_err_ok & Hc). apply bind_ok in Hc as (order & Htop & Hc).
  apply bind_ok in Hc as (u6 & Hreach & [= <-]).
  assert (Hi : edges_inv (block_nodes b) ([] ++ block_edges b) (out, inc)).
  { eapply add_edges_inv; [done| | | |exact Hadd]; cbn [fst snd].
    - split; cbn [fst snd]; [apply (map_keys (λ _, []))|apply (map_keys (λ _, 0))|..].
      + intros n e. unfold edges_of. rewrite (map_get_map (λ _, [])). destruct (map_get n (block_nodes b)); cbn;
          (split; [by intros ?%not_elem_of_nil|by intros (? & ? & ?%not_elem_of_nil & _)]).
      + intros n. unfold edges_of. rewrite (map_get_map (λ _, [])). destruct (map_get n (block_nodes b)); constructor.
      + intros k. unfold count_of. rewrite (map_get_map (λ _, 0)). transitivity 0; [by destruct (map_get k _)|].
        symmetry. destruct (decide (hits k (edges_from (block_nodes b).*1 (map (λ x, (x.1, [])) (block_nodes b))) = 0)) as [|Hh]; [done|].
        apply hits_pos in Hh as (e & He & _). apply list_elem_of_join in He as (es & He & Hes).
        apply list_elem_of_fmap in Hes as (n & -> & _). unfold edges_of in He. rewrite (map_get_map (λ _, [])) in He.
        destruct (map_get n (block_nodes b)); by apply not_elem_of_nil in He.
    - unfold map_sorted. by rewrite (map_keys (λ _, [])).
    - unfold map_sorted. by rewrite (map_keys (λ _, 0)). }
  destruct Hi as [Ho Hin He Hon Hcnt]. cbn [fst snd app] in *. set (sorted := map (λ x, (x.1, merge_sort edge_le x.2)) out) in *.
  assert (Hk : sorted.*1 = (block_nodes b).*1) by (unfold sorted; by rewrite map_keys).
  assert (Hes : ∀ n e, e ∈ edges_of n sorted ↔ authored (block_nodes b) (block_edges b) n e).
  { intros n e. unfold sorted. rewrite edges_of_sorted, <- He. by rewrite merge_sort_Permutation. }
  assert (Hcl : ∀ n e, e ∈ edges_of n sorted → to e ∈ sorted.*1).
  { intros n e (d & nd & _ & _ & _ & _ & Hsome & _)%Hes. by rewrite Hk, map_get_key. }
  assert (Hdeg : degrees sorted inc).
  { split; [by rewrite Hk|]. intros k. rewrite Hcnt, Hk. symmetry. apply hits_perm, edges_from_sorted. }
  pose proof (topological_order_exact sorted inc ltac:(by rewrite Hk) Hcl Hdeg) as Hto. rewrite Htop in Hto.
  destruct Hto as [Hperm Hord].
  assert (Hst : ∀ n, map_get n (block_nodes b) = Some NStart ↔ n = s).
  { apply only_start; [done|]. destruct (omap _ _) as [|x [|? ?]]; try done. by injection Hstart as ->. }
  split; cbn [entry outgoing topological]; try done.
  - by rewrite <- Hk.
  - intros n. unfold sorted. rewrite edges_of_sorted. by rewrite merge_sort_Permutation.
  - intros n Hn. apply (reachable_nodes_exact sorted s n).
    + by rewrite Hk.
    + intros a m (e & Hem & <-)%leads_iff. by eapply Hcl.
    + rewrite Hk, map_get_key. exists NStart. by apply Hst.
    + destruct (find_first _ (block_nodes b)) as [[id nd]|] eqn:Ef; [done|].
      apply list_elem_of_fmap in Hn as ([n' nd] & -> & Hin'). pose proof (proj1 (find_first_None _ _) Ef _ Hin') as Hr.
      by apply negb_false_iff, bool_decide_eq_true in Hr.
  - intros n (e & Hem & Hte)%leads_iff. apply negb_false_iff, Nat.eqb_eq in Hsrc. rewrite Hcnt in Hsrc.
    assert (hits s (edges_from (block_nodes b).*1 out) ≠ 0); [|done]. apply hits_pos. exists e. split; [|done].
    apply Hes, He in Hem. apply list_elem_of_join. exists (edges_of n out). split; [done|]. apply list_elem_of_fmap. exists n. split; [done|].
    apply He in Hem as (d & nd & _ & _ & Hg & _). apply map_get_key. by eexists.
  - intros n nd Hg Hf. rewrite Forall_forall in Hfail. specialize (Hfail _ (map_get_pair _ _ _ Hg)). cbn in Hfail.
    apply guard_err_ok in Hfail. rewrite Hf in Hfail. apply negb_false_iff, existsb_exists in Hfail as (e & Hin' & Hp).
    exists e. split; [by apply list_elem_of_In|by apply bool_decide_eq_true in Hp].
Qed.

(** C38 An accepted block runs: it has one Start, which nothing leads to; its program has
    exactly the authored edges, each once and with a port its node has; the order is a
    permutation of the nodes in which every edge goes forward; every node is reachable from
    the Start; and a node that handles failures by a branch has one. *)
Theorem control_flow_sound b cf : map_sorted (block_nodes b) → control_flow b = Ok cf → flow_ok b cf.
Proof. apply control_flow_ok. Qed.

(** ** An example *)

Definition model_node (on_error : WorkflowModelErrorStrategy) : WorkflowNodeDefinition :=
  NModel Session [] ModelText None on_error.
Definition if_case : WorkflowBranchCase := {| case_id := lit "a"; condition := PBoolean (VLiteral (Bool true)) |}.
Definition edge (f t : string) (p : option WorkflowPort) : WorkflowEdgeDefinition :=
  {| from := lit f; edge_to := lit t; edge_port := p |}.

(** An input with one member, which has a default *)
Definition sample_arguments : json := closed_object [(lit "unit", jobj [("type", jstr "string"); ("default", jstr "day")])] [].

(** A branch to a model call whose failure, like the branch's ELSE, goes straight to Return. *)
Definition sample : WorkflowBlock :=
  Block sample_arguments [(lit "c", NBranch [if_case]); (lit "m", model_node MFailBranch); (lit "r", NReturn []);
                   (lit "s", NStart); (lit "x", NTemplate [] [])]
    [edge "s" "c" None; edge "c" "m" (Some (PCase (lit "a"))); edge "c" "r" (Some PFalse);
     edge "m" "x" None; edge "m" "r" (Some PFail); edge "x" "r" None].

Definition sample_flow : ControlFlow :=
  Eval vm_compute in match control_flow sample with Ok cf => cf | Err _ => {| entry := []; outgoing := []; topological := [] |} end.

Lemma sample_accepted : control_flow sample = Ok sample_flow.
Proof. vm_compute. reflexivity. Defined.
Lemma sample_sorted : map_sorted (block_nodes sample).
Proof. repeat constructor. Defined.

Lemma control_flow_sound_witness : map_sorted (block_nodes sample) ∧ flow_ok sample sample_flow.
Proof. split; [apply sample_sorted|]. apply control_flow_sound; [apply sample_sorted|apply sample_accepted]. Defined.

(** An edge back to the branch closes a cycle, which is found. *)
Example cycle_refused :
  control_flow (Block (jobj []) (block_nodes sample) (edge "x" "c" None :: block_edges sample)) =
  Err (At (lit "nodes.c") (Cycle (lit "c"))).
Proof. vm_compute. reflexivity. Qed.
