(* ===== verification/WorkflowFlow.v ===== *)
(** The activation proofs of a block ([src/src/runtime/workflow/flow.rs]): for each node the
    choices of exits under which it runs, and the producers a node may therefore read.

    Decision diagrams are the [biodivine-lib-bdd] crate's: a class with the meaning of the
    operations used.  A bounded operation may give up, and then nothing is proven. *)

From S2P Require Import Prelude Text Json Workflow WorkflowGraph.
From stdpp Require Import options.

(** ** Decision diagrams *)

Class Bdds := {
  Bdd : Type;
  mk_true : Bdd;
  mk_false : Bdd;
  mk_var : nat → Bdd;
  bdd_not : Bdd → Bdd;
  bdd_and : Bdd → Bdd → Bdd;
  (** [binary_op_with_limit]: [None] when the result has more nodes than the limit *)
  binary_op_with_limit : N → Bdd → Bdd → (bool → bool → bool) → option Bdd;
  is_true : Bdd → bool;
  is_false : Bdd → bool;
}.

(** The documented meaning of a diagram, over an assignment of its variables. *)
Class BddLaws `{Bdds} := {
  holds : Bdd → (nat → bool) → bool;
  holds_true σ : holds mk_true σ = true;
  holds_false σ : holds mk_false σ = false;
  holds_var i σ : holds (mk_var i) σ = σ i;
  holds_not b σ : holds (bdd_not b) σ = negb (holds b σ);
  holds_and b c σ : holds (bdd_and b c) σ = holds b σ && holds c σ;
  holds_op limit b c op d σ : binary_op_with_limit limit b c op = Some d → holds d σ = op (holds b σ) (holds c σ);
  is_true_holds b σ : is_true b = true → holds b σ = true;
  is_false_holds b σ : is_false b = true → holds b σ = false;
}.

Definition MAX_ACTIVATION_NODES : N := 65536.

(** ** Scopes *)

(** [SchemaMap] *)
Abbreviation SchemaMap := (list (str * json)) (only parsing).

Section flow.
Context `{Bdds}.

(** [ActivationScopes]: [ancestors] holds the ancestors of each node, [succeeded] is there
    for a node with a fail branch. *)
Record ActivationScopes := {
  active : list (str * Bdd);
  ancestors : list (str * gset str);
  succeeded : list (str * Bdd);
}.

Definition too_complex : WorkflowCompileError :=
  InvalidField (lit "workflow activation proof exceeds its bounded complexity").

Definition with_limit (limit : N) (b c : Bdd) (op : bool → bool → bool) : result WorkflowCompileError Bdd :=
  ok_or too_complex (binary_op_with_limit limit b c op).

(** The variables a node takes. *)
Definition variable_count (n : WorkflowNodeDefinition) : nat :=
  match n with
  | NBranch cases => length cases
  | NReview _ actions _ => length actions
  | NAgent _ _ _ routes on_error =>
      (length routes - 1) + match on_error with VFailBranch => 1 | _ => 0 end
  | NClassifier _ _ _ classes => length classes - 1
  | NModel _ _ _ _ MFailBranch | NTool _ _ _ _ VFailBranch | NCode _ _ _ _ _ VFailBranch => 1
  | _ => 0
  end.

(** Exits in order, each under the failure of the ones before: what they leave is returned. *)
Fixpoint chain_all (next : nat) (ids : list str) (remaining : Bdd)
    : result WorkflowCompileError (list (WorkflowPort * Bdd) * Bdd) :=
  match ids with
  | [] => Ok ([], remaining)
  | id :: ids =>
      guard ← with_limit MAX_ACTIVATION_NODES remaining (mk_var next) andb;
      remaining ← with_limit MAX_ACTIVATION_NODES remaining (bdd_not (mk_var next)) andb;
      '(ports, remaining) ← chain_all (S next) ids remaining;
      Ok ((case id, guard) :: ports, remaining)
  end.

(** The last exit takes what the others leave. *)
Fixpoint chain_last (next : nat) (ids : list str) (remaining : Bdd)
    : result WorkflowCompileError (list (WorkflowPort * Bdd)) :=
  match ids with
  | [] => Ok []
  | [id] => Ok [(case id, remaining)]
  | id :: ids =>
      guard ← with_limit MAX_ACTIVATION_NODES remaining (mk_var next) andb;
      remaining ← with_limit MAX_ACTIVATION_NODES remaining (bdd_not (mk_var next)) andb;
      ports ← chain_last (S next) ids remaining;
      Ok ((case id, guard) :: ports)
  end.

(** The gates of a node's ports over its variables from [next], and its success. *)
Definition gates (next : nat) (n : WorkflowNodeDefinition)
    : result WorkflowCompileError (list (WorkflowPort * Bdd) * option Bdd) :=
  match n with
  | NClassifier _ _ _ classes => ports ← chain_last next (map class_id classes) mk_true; Ok (ports, None)
  | NBranch cases =>
      '(ports, remaining) ← chain_all next (map case_id cases) mk_true;
      Ok (ports ++ [(PFalse, remaining)], None)
  | NReview _ actions _ =>
      '(ports, remaining) ← chain_all next (map action_id actions) mk_true;
      Ok (ports ++ [(case REVIEW_TIMEOUT_PORT, remaining)], None)
  | NModel _ _ _ _ MFailBranch | NTool _ _ _ _ VFailBranch | NCode _ _ _ _ _ VFailBranch =>
      Ok ([(PNext, mk_var next); (PFail, bdd_not (mk_var next))], Some (mk_var next))
  | NAgent _ _ _ routes VFailBranch =>
      ports ← chain_last (S next) (map route_id routes) (mk_var next);
      Ok (ports ++ [(PNext, mk_var next); (PFail, bdd_not (mk_var next))], Some (mk_var next))
  | NAgent _ _ _ routes _ => ports ← chain_last next (map route_id routes) mk_true; Ok (ports, None)
  | _ => Ok ([], None)
  end.

Record NodeGates := { node_ports : list (WorkflowPort * Bdd); node_ok : option Bdd }.

Fixpoint all_gates (next : nat) (nodes : list (str * WorkflowNodeDefinition))
    : result WorkflowCompileError (list (str * NodeGates)) :=
  match nodes with
  | [] => Ok []
  | (id, n) :: nodes =>
      '(ports, ok) ← gates next n;
      rest ← all_gates (next + variable_count n) nodes;
      Ok ((id, {| node_ports := ports; node_ok := ok |}) :: rest)
  end.

Definition lookup_port (ports : list (WorkflowPort * Bdd)) (p : WorkflowPort) : option Bdd :=
  snd <$> find_first (λ x, bool_decide (x.1 = p)) (rev ports).

(** [gates[id].get(port)]; a later insertion under a port replaces an earlier one *)
Definition gate (all : list (str * NodeGates)) (id : str) (p : WorkflowPort) : option Bdd :=
  g ← map_get id all; lookup_port (node_ports g) p.

(** One edge: its end is active on this path too, and has its ancestors. *)
Definition extend (all : list (str * NodeGates)) (id : str) (current : Bdd)
    (st : list (str * Bdd) * list (str * gset str)) (e : WorkflowEdgeProgram)
    : result WorkflowCompileError (list (str * Bdd) * list (str * gset str)) :=
  path ← match gate all id (port e) with
         | Some g => with_limit MAX_ACTIVATION_NODES current g andb
         | None => Ok current
         end;
  b ← with_limit MAX_ACTIVATION_NODES (default mk_false (map_get (to e) st.1)) path orb;
  let preceding := {[id]} ∪ default ∅ (map_get id st.2) in
  Ok (map_insert (to e) b st.1, map_insert (to e) (default ∅ (map_get (to e) st.2) ∪ preceding) st.2).

Fixpoint try_fold {E S A} (f : S → A → result E S) (l : list A) (s : S) : result E S :=
  match l with
  | [] => Ok s
  | x :: l => s ← f s x; try_fold f l s
  end.

Definition visit (all : list (str * NodeGates)) (outgoing : list (str * list WorkflowEdgeProgram))
    (st : list (str * Bdd) * list (str * gset str)) (id : str)
    : result WorkflowCompileError (list (str * Bdd) * list (str * gset str)) :=
  let st := (st.1, map_insert id (default ∅ (map_get id st.2)) st.2) in
  try_fold (extend all id (default mk_false (map_get id st.1))) (edges_of id outgoing) st.

(** [ActivationScopes::new] *)
Definition activation_scopes (block : WorkflowBlock) (cf : ControlFlow) : result WorkflowCompileError ActivationScopes :=
  let count := foldr (λ x n, variable_count x.2 + n) 0 (block_nodes block) in
  _ ← guard_err (65535 <? count)%nat too_complex;
  all ← all_gates 0 (block_nodes block);
  '(act, anc) ← try_fold (visit all (outgoing cf)) (topological cf) ([(entry cf, mk_true)], []);
  Ok {| active := act; ancestors := anc; succeeded := omap (λ x, pair x.1 <$> node_ok x.2) all |}.

Definition ancestors_of (s : ActivationScopes) (n : str) : gset str := default ∅ (map_get n (ancestors s)).
Definition active_of (s : ActivationScopes) (n : str) : Bdd := default mk_false (map_get n (active s)).

(** The implication is proven. *)
Definition implies (b c : Bdd) : bool :=
  match binary_op_with_limit 2 b c implb with Some d => is_true d | None => false end.

(** [unordered_together] *)
Definition unordered_together (s : ActivationScopes) (left right : str) : bool :=
  negb (bool_decide (right ∈ ancestors_of s left)) && negb (bool_decide (left ∈ ancestors_of s right)) &&
  match binary_op_with_limit 2 (active_of s left) (active_of s right) andb with
  | Some overlap => negb (is_false overlap)
  | None => true
  end.

(** [available_at_completion] *)
Definition available_at_completion (s : ActivationScopes) (producer : str) : bool :=
  match map_get producer (active s) with Some b => is_true b | None => false end &&
  match map_get producer (succeeded s) with Some b => is_true b | None => true end.

(** [completion_scope] *)
Definition completion_scope (s : ActivationScopes) (declarations base : SchemaMap) : SchemaMap :=
  foldl (λ scope producer,
    match map_get producer declarations with
    | Some schema => if available_at_completion s producer then map_insert producer schema scope else scope
    | None => scope
    end) base (map fst (active s)).

(** The schema of one producer in the scope of a node: after its success, or after its
    failure the error. *)
Definition produced (s : ActivationScopes) (node : str) (after : list (str * SchemaMap)) (producer : str) : option json :=
  if implies (active_of s node) (active_of s producer) then
    schema ← (after ← map_get producer after; map_get producer after);
    match map_get producer (succeeded s) with
    | None => Some schema
    | Some ok =>
        if implies (active_of s node) ok then Some schema
        else if implies (active_of s node) (bdd_not ok) then Some error_schema
        else None
    end
  else None.

(** [scope] *)
Definition scope (s : ActivationScopes) (node : str) (after : list (str * SchemaMap)) (base : SchemaMap) : SchemaMap :=
  foldl (λ scope producer,
    match produced s node after producer with Some schema => map_insert producer schema scope | None => scope end)
    base (elements (ancestors_of s node)).

(** [potential_scope] *)
Definition potential_scope (s : ActivationScopes) (node : str) (after : list (str * SchemaMap)) (base : SchemaMap)
    : SchemaMap :=
  foldl (λ scope producer,
    match after ← map_get producer after; map_get producer after with
    | Some schema => map_insert producer schema scope
    | None => scope
    end) base (elements (ancestors_of s node)).

(** The presence of one aggregate source *)
Definition present (s : ActivationScopes) (node : str) (base : SchemaMap) (path : list str)
    : result WorkflowCompileError Bdd :=
  producer ← ok_or (InvalidReference (lit "empty aggregate selector")) (head path);
  if bool_decide (is_Some (map_get producer base)) then Ok (active_of s node)
  else
    _ ← guard_err (negb (bool_decide (producer ∈ ancestors_of s node)))
          (InvalidReference (lit "aggregate source must precede the node"));
    p ← match map_get producer (succeeded s) with
        | Some ok => with_limit MAX_ACTIVATION_NODES (active_of s producer) ok andb
        | None => Ok (active_of s producer)
        end;
    with_limit MAX_ACTIVATION_NODES (active_of s node) p andb.

Fixpoint union_of (s : ActivationScopes) (node : str) (base : SchemaMap) (paths : list (list str)) (union : Bdd)
    : result WorkflowCompileError Bdd :=
  match paths with
  | [] => Ok union
  | path :: paths =>
      p ← present s node base path;
      union ← with_limit MAX_ACTIVATION_NODES union p orb;
      union_of s node base paths union
  end.

(** [validate_aggregate] *)
Definition validate_aggregate (s : ActivationScopes) (node : str) (paths : list (list str)) (base : SchemaMap)
    : result WorkflowCompileError () :=
  let b := active_of s node in
  union ← union_of s node base paths (bdd_and b (bdd_not b));
  guard_err (negb (implies b union)) (InvalidReference (lit "aggregate sources must cover every activation")).
End flow.

(** ** Exits and choices *)

(** The ports a node of the executor may leave by. *)
Definition exits (n : WorkflowNodeDefinition) : list WorkflowPort :=
  match n with
  | NBranch _ => map case (named_exits n) ++ [PFalse]
  | NReview _ _ _ => map case (named_exits n) ++ [case REVIEW_TIMEOUT_PORT]
  | NClassifier _ _ _ _ => map case (named_exits n)
  | NAgent _ _ _ routes _ =>
      match routes with [] => [PNext] | _ => map case (named_exits n) end ++ (if has_fail_branch n then [PFail] else [])
  | _ => PNext :: (if has_fail_branch n then [PFail] else [])
  end.

(** The exits of a node are distinct; the validation of its kind sees to it. *)
Definition exits_distinct (n : WorkflowNodeDefinition) : Prop := NoDup (exits n).

(** The index of an exit among the named ones. *)
Definition exit_index (ids : list str) (p : WorkflowPort) : nat :=
  default (length ids) (position (λ id, bool_decide (case id = p)) ids).

(** The variables of a node that leaves by [p]. *)
Definition node_bit (n : WorkflowNodeDefinition) (p : WorkflowPort) (j : nat) : bool :=
  match n with
  | NBranch _ | NReview _ _ _ | NClassifier _ _ _ _ => (j =? exit_index (named_exits n) p)%nat
  | NAgent _ _ _ _ VFailBranch =>
      match j with 0 => negb (bool_decide (p = PFail)) | S j => (j =? exit_index (named_exits n) p)%nat end
  | NAgent _ _ _ _ _ => (j =? exit_index (named_exits n) p)%nat
  | _ => negb (bool_decide (p = PFail))
  end.

Fixpoint valuation (next : nat) (nodes : list (str * WorkflowNodeDefinition)) (chosen : str → WorkflowPort) (i : nat) : bool :=
  match nodes with
  | [] => false
  | (id, n) :: nodes =>
      if (i <? next + variable_count n)%nat then node_bit n (chosen id) (i - next)
      else valuation (next + variable_count n) nodes chosen i
  end.

Section choices.
Context `{BddLaws}.

Lemma with_limit_holds limit b c op d σ : with_limit limit b c op = Ok d → holds d σ = op (holds b σ) (holds c σ).
Proof. intros Hd%ok_or_ok. by eapply holds_op. Qed.

(** The first [k] variables from [next] are false. *)
Fixpoint none_of (σ : nat → bool) (next k : nat) : bool :=
  match k with 0 => true | S k => negb (σ next) && none_of σ (S next) k end.

Lemma none_of_true σ next k : none_of σ next k = true ↔ ∀ j, j < k → σ (next + j) = false.
Proof.
  revert next. induction k as [|k IH]; intros next; cbn; [by split; [lia|]|].
  rewrite andb_true_iff, negb_true_iff, IH. split.
  - intros [Hz Hk] [|j] Hj; [by rewrite Nat.add_0_r|]. rewrite Nat.add_succ_r. apply (Hk j). lia.
  - intros Hk. split; [specialize (Hk 0 ltac:(lia)); by rewrite Nat.add_0_r in Hk|].
    intros j Hj. specialize (Hk (S j) ltac:(lia)). by rewrite Nat.add_succ_r in Hk.
Qed.

Lemma chain_all_holds next ids R ports rem σ :
  chain_all next ids R = Ok (ports, rem) →
  map fst ports = map case ids ∧ holds rem σ = holds R σ && none_of σ next (length ids) ∧
  ∀ k g, ports !! k = Some g → holds g.2 σ = holds R σ && none_of σ next k && σ (next + k).
Proof.
  revert next R ports rem. induction ids as [|id ids IH]; intros next R ports rem Hc; cbn in Hc.
  - injection Hc as <- <-. split_and!; [done| |done]. cbn. by rewrite andb_true_r.
  - apply bind_ok in Hc as (g0 & Hg & Hc). apply bind_ok in Hc as (r0 & Hr & Hc).
    apply bind_ok in Hc as ([ports' rem'] & Hrest & [= <- <-]). apply IH in Hrest as (Hf & Hrem & Hk).
    apply (with_limit_holds _ _ _ _ _ σ) in Hg, Hr. rewrite holds_var in Hg. rewrite holds_not, holds_var in Hr.
    split_and!; [cbn; by rewrite Hf| |].
    + cbn [length none_of]. by rewrite Hrem, Hr, andb_assoc.
    + intros [|k] g Hl; cbn in Hl; [injection Hl as <-; cbn; rewrite Nat.add_0_r, Hg; by rewrite andb_true_r|].
      cbn [none_of]. rewrite (Hk k g Hl), Hr, <- !andb_assoc. by rewrite Nat.add_succ_r.
Qed.

Lemma chain_last_holds next ids R ports σ :
  chain_last next ids R = Ok ports →
  map fst ports = map case ids ∧
  ∀ k g, ports !! k = Some g →
    holds g.2 σ = holds R σ && none_of σ next k && (if (k =? length ids - 1)%nat then true else σ (next + k)).
Proof.
  revert next R ports. induction ids as [|id [|id' ids] IH]; intros next R ports Hc.
  - injection Hc as <-. by split.
  - injection Hc as <-. split; [done|]. intros [|k] g Hl; [injection Hl as <-; cbn; by rewrite !andb_true_r|done].
  - change (chain_last next (id :: id' :: ids) R) with
      (guard ← with_limit MAX_ACTIVATION_NODES R (mk_var next) andb;
       remaining ← with_limit MAX_ACTIVATION_NODES R (bdd_not (mk_var next)) andb;
       ports ← chain_last (S next) (id' :: ids) remaining; Ok ((case id, guard) :: ports) : result WorkflowCompileError _) in Hc.
    apply bind_ok in Hc as (g0 & Hg & Hc). apply bind_ok in Hc as (r0 & Hr & Hc).
    apply bind_ok in Hc as (ports' & Hrest & [= <-]). apply IH in Hrest as (Hf & Hk).
    apply (with_limit_holds _ _ _ _ _ σ) in Hg, Hr. rewrite holds_var in Hg. rewrite holds_not, holds_var in Hr.
    split; [cbn [map fst]; by rewrite Hf|].
    intros [|k] g Hl; cbn in Hl; [injection Hl as <-; cbn; rewrite Nat.add_0_r, Hg; by rewrite andb_true_r|].
    cbn [none_of]. rewrite (Hk k g Hl), Hr, <- !andb_assoc, Nat.add_succ_r. cbn [length].
    replace (S k =? S (S (length ids)) - 1)%nat with (k =? S (length ids) - 1)%nat; [done|].
    destruct (Nat.eqb_spec k (S (length ids) - 1)), (Nat.eqb_spec (S k) (S (S (length ids)) - 1)); try done; lia.
Qed.

Lemma lookup_port_Some ports p g :
  NoDup (map fst ports) → (p, g) ∈ ports → lookup_port ports p = Some g.
Proof.
  intros Hnd Hin. unfold lookup_port. destruct (find_first _ (rev ports)) as [[p' g']|] eqn:E.
  - apply find_first_Some in E as [Hin' Hp%bool_decide_eq_true]. cbn in Hp. subst p'. apply (elem_of_rev ports) in Hin'. cbn.
    f_equal. by injection (NoDup_map_inj fst ports (p, g') (p, g) Hnd Hin' Hin eq_refl) as ->.
  - pose proof (proj1 (find_first_None _ _) E (p, g) ltac:(by apply elem_of_rev)) as Hn.
    by apply bool_decide_eq_false in Hn.
Qed.

Lemma exit_index_at ids k id p : NoDup (map case ids) → ids !! k = Some id → p = case id → exit_index ids p = k.
Proof.
  intros Hnd Hk ->. unfold exit_index. destruct (position _ ids) as [i|] eqn:E.
  - apply position_Some in E as (x & Hx & Hp%bool_decide_eq_true). cbn.
    apply (NoDup_lookup (map case ids) i k (case id)); [done|by rewrite list_lookup_fmap, Hx; cbn; rewrite Hp|by rewrite list_lookup_fmap, Hk].
  - exfalso. apply list_elem_of_lookup_2 in Hk. pose proof (proj1 (position_None _ _) E _ Hk) as Hn.
    by apply bool_decide_eq_false in Hn.
Qed.

Lemma exit_index_none ids p : p ∉ map case ids → exit_index ids p = length ids.
Proof.
  intros Hp. unfold exit_index. destruct (position _ ids) as [i|] eqn:E; [|done]. exfalso.
  apply position_Some in E as (x & Hx & Hx'%bool_decide_eq_true). apply Hp. apply list_elem_of_fmap.
  exists x. split; [done|]. by eapply list_elem_of_lookup_2.
Qed.

(** The variables chosen by the index [i]. *)
Lemma chosen_bits σ next i k :
  (∀ j, j < S k → σ (next + j) = (j =? i)%nat) → none_of σ next k && σ (next + k) = (k =? i)%nat.
Proof.
  intros Hs. rewrite (Hs k) by lia. destruct (Nat.eqb_spec k i) as [->|]; [|by rewrite andb_false_r].
  rewrite andb_true_r. apply none_of_true. intros j Hj. rewrite Hs by lia. apply Nat.eqb_neq. lia.
Qed.

Lemma rest_bits σ next i k : (∀ j, j < k → σ (next + j) = (j =? i)%nat) → none_of σ next k = (k <=? i)%nat.
Proof.
  intros Hs. destruct (Nat.leb_spec k i) as [Hle|Hlt].
  - apply none_of_true. intros j Hj. rewrite Hs by lia. apply Nat.eqb_neq. lia.
  - apply not_true_iff_false. intros Hn. pose proof (proj1 (none_of_true _ _ _) Hn i Hlt) as Hi. clear Hn; rename Hi into Hn. rewrite Hs, Nat.eqb_refl in Hn by lia. done.
Qed.

Lemma chain_all_gate next ids d ports rem σ p q :
  chain_all next ids mk_true = Ok (ports, rem) → NoDup (map case ids ++ [d]) →
  (∀ j, j < length ids → σ (next + j) = (j =? exit_index ids p)%nat) →
  p ∈ map case ids ++ [d] → q ∈ map case ids ++ [d] →
  ∃ g, lookup_port (ports ++ [(d, rem)]) q = Some g ∧ holds g σ = bool_decide (q = p).
Proof.
  intros Hc Hnd Hs Hp Hq. destruct (chain_all_holds _ _ _ _ _ σ Hc) as (Hf & Hrem & Hk).
  assert (Hndp : NoDup (map fst (ports ++ [(d, rem)]))) by (rewrite map_app, Hf; done).
  apply (proj1 (NoDup_app (map case ids) [d])) in Hnd as (Hnd & Hd & _).
  assert (Hdn : d ∉ map case ids) by (intros Hin; by apply (Hd d Hin), list_elem_of_singleton).
  rewrite holds_true in Hrem, Hk. cbn in Hrem.
  assert (Hidx : ∀ k id, ids !! k = Some id → p = case id ↔ k = exit_index ids p).
  { intros k id Hid. split; [intros Hpe; symmetry; by eapply exit_index_at|]. intros E.
    apply elem_of_app in Hp as [Hp| ->%list_elem_of_singleton].
    - apply list_elem_of_fmap in Hp as (id' & -> & Hin). apply list_elem_of_lookup in Hin as [k' Hk'].
      rewrite (exit_index_at ids k' id' _ Hnd Hk' eq_refl) in E. congruence.
    - rewrite exit_index_none in E by done. apply lookup_lt_Some in Hid. lia. }
  apply elem_of_app in Hq as [Hq| ->%list_elem_of_singleton].
  - apply list_elem_of_fmap in Hq as (id & -> & Hin). apply list_elem_of_lookup in Hin as [k Hkid].
    assert (Hl : map fst ports !! k = Some (case id)) by (rewrite Hf, list_lookup_fmap, Hkid; done).
    apply list_lookup_fmap_Some in Hl as ([q' g] & Hqe & Hl). cbn in Hqe. subst q'. exists g. split.
    + apply lookup_port_Some; [done|]. apply elem_of_app. left. by eapply list_elem_of_lookup_2.
    + pose proof (Hk k _ Hl) as Hg. cbn in Hg. rewrite Hg, (chosen_bits _ _ (exit_index ids p)).
      * apply eq_true_iff_eq. rewrite Nat.eqb_eq, bool_decide_eq_true. rewrite <- (Hidx k id Hkid). split; congruence.
      * intros j Hj. apply Hs. apply lookup_lt_Some in Hkid. lia.
  - exists rem. split; [apply lookup_port_Some; [done|]; apply elem_of_app; right; constructor|].
    rewrite Hrem, (rest_bits _ _ (exit_index ids p)) by done. apply eq_true_iff_eq. rewrite Nat.leb_le, bool_decide_eq_true.
    apply elem_of_app in Hp as [Hp| ->%list_elem_of_singleton].
    + apply list_elem_of_fmap in Hp as (id & -> & Hin). apply list_elem_of_lookup in Hin as [k Hkid].
      rewrite (exit_index_at ids k id _ Hnd Hkid eq_refl). apply lookup_lt_Some in Hkid as Hlt.
      split; [lia|]. intros ->. exfalso. apply Hdn. apply list_elem_of_fmap. exists id. split; [done|by eapply list_elem_of_lookup_2].
    + by rewrite exit_index_none.
Qed.

Lemma chain_last_gate next ids R ports σ p q :
  chain_last next ids R = Ok ports → NoDup (map case ids) →
  (∀ j, j < length ids - 1 → σ (next + j) = (j =? exit_index ids p)%nat) →
  holds R σ = bool_decide (p ∈ map case ids) → q ∈ map case ids →
  ∃ g, (q, g) ∈ ports ∧ map fst ports = map case ids ∧ holds g σ = bool_decide (q = p).
Proof.
  intros Hc Hnd Hs HR Hq. destruct (chain_last_holds _ _ _ _ σ Hc) as (Hf & Hk).
  apply list_elem_of_fmap in Hq as (id & -> & Hin). apply list_elem_of_lookup in Hin as [k Hkid].
  assert (Hl : map fst ports !! k = Some (case id)) by (rewrite Hf, list_lookup_fmap, Hkid; done).
  apply list_lookup_fmap_Some in Hl as ([q' g] & Hqe & Hl). cbn in Hqe. subst q'. exists g.
  split; [by eapply list_elem_of_lookup_2|]. split; [done|]. pose proof (Hk k _ Hl) as Hg. cbn [snd] in Hg. rewrite Hg, HR. clear Hg.
  apply lookup_lt_Some in Hkid as Hlt.
  case_bool_decide as Hp; cbn.
  - apply list_elem_of_fmap in Hp as (id' & -> & Hin). apply list_elem_of_lookup in Hin as [k' Hk'].
    rewrite (exit_index_at ids k' id' _ Hnd Hk' eq_refl) in Hs. apply lookup_lt_Some in Hk' as Hlt'.
    assert (Hkk : bool_decide (case id = case id') = (k =? k')%nat).
    { apply eq_true_iff_eq. rewrite Nat.eqb_eq, bool_decide_eq_true. split; [|intros ->; congruence]. intros E.
      apply (NoDup_lookup (map case ids) k k' (case id)); [done|by rewrite list_lookup_fmap, Hkid|by rewrite list_lookup_fmap, Hk', E]. }
    rewrite Hkk. destruct (Nat.eqb_spec k (length ids - 1)) as [E|E].
    + rewrite andb_true_r, (rest_bits _ _ k') by (intros j Hj; apply Hs; lia). apply eq_true_iff_eq. rewrite Nat.leb_le, Nat.eqb_eq. lia.
    + rewrite (chosen_bits _ _ k'); [done|]. intros j Hj. apply Hs. lia.
  - rewrite bool_decide_eq_false_2; [done|]. intros <-. apply Hp. apply list_elem_of_fmap. exists id. split; [done|]. by eapply list_elem_of_lookup_2.
Qed.

Lemma case_not_next id : case id ≠ PNext ∧ case id ≠ PFail ∧ case id ≠ PFalse.
Proof. unfold case. by case_decide. Qed.

Lemma not_case p ids : p = PNext ∨ p = PFail ∨ p = PFalse → p ∉ map case ids.
Proof. intros Hp (id & -> & _)%list_elem_of_fmap. destruct (case_not_next id). naive_solver. Qed.

(** The gates of success and failure. *)
Lemma two_gates v σ p q :
  p ∈ [PNext; PFail] → q ∈ [PNext; PFail] → holds v σ = negb (bool_decide (p = PFail)) →
  match lookup_port [(PNext, v); (PFail, bdd_not v)] q with Some g => holds g σ = bool_decide (q = p) | None => q = p end.
Proof.
  intros Hp Hq Hv. apply elem_of_cons in Hp as [->| ->%list_elem_of_singleton];
    apply elem_of_cons in Hq as [->| ->%list_elem_of_singleton];
    cbn; repeat case_bool_decide; cbn in *; try done; by rewrite ?holds_not, Hv.
Qed.

Lemma routed_gates next ids ports σ p q :
  chain_last (S next) ids (mk_var next) = Ok ports → NoDup (map case ids ++ [PFail]) →
  σ next = negb (bool_decide (p = PFail)) → (∀ j, j < length ids - 1 → σ (S next + j) = (j =? exit_index ids p)%nat) →
  p ∈ map case ids ++ [PFail] → q ∈ map case ids ++ [PFail] →
  match lookup_port (ports ++ [(PNext, mk_var next); (PFail, bdd_not (mk_var next))]) q with
  | Some g => holds g σ = bool_decide (q = p) | None => q = p end.
Proof.
  intros Hc Hnd Hn Hs Hp Hq. apply (proj1 (NoDup_app _ _)) in Hnd as (Hnd & _ & _).
  destruct (chain_last_holds _ _ _ _ σ Hc) as (Hf & _).
  assert (Hndp : NoDup (map fst (ports ++ [(PNext, mk_var next); (PFail, bdd_not (mk_var next))]))).
  { rewrite map_app, Hf. apply NoDup_app. split_and!; [done| |by repeat constructor; rewrite ?list_elem_of_singleton; try apply not_elem_of_nil].
    intros x Hx Hin. apply (not_case x ids); [|done]. cbn in Hin. set_solver. }
  apply elem_of_app in Hq as [Hq| ->%list_elem_of_singleton].
  - destruct (chain_last_gate _ _ _ _ σ p q Hc Hnd Hs) as (g & Hg & _ & Hh); [|done|].
    + rewrite holds_var, Hn. apply elem_of_app in Hp as [Hp| ->%list_elem_of_singleton].
      * rewrite bool_decide_eq_false_2, bool_decide_eq_true_2; [done|done|]. intros ->. apply (not_case PFail ids); auto.
      * rewrite bool_decide_eq_true_2 by done. rewrite bool_decide_eq_false_2; [done|]. apply not_case. auto.
    + rewrite (lookup_port_Some _ _ g); [done|done|]. apply elem_of_app. by left.
  - rewrite (lookup_port_Some _ _ (bdd_not (mk_var next))); [|done|apply elem_of_app; right; do 2 constructor].
    rewrite holds_not, holds_var, Hn, negb_involutive. apply bool_decide_ext. split; congruence.
Qed.

(** The gates of a node say which of its exits it takes. *)
Lemma gates_hold next n ports ok σ p q :
  gates next n = Ok (ports, ok) → exits_distinct n → p ∈ exits n → q ∈ exits n →
  (∀ j, j < variable_count n → σ (next + j) = node_bit n p j) →
  (match lookup_port ports q with Some g => holds g σ = bool_decide (q = p) | None => q = p end) ∧
  (∀ b, ok = Some b → holds b σ = negb (bool_decide (p = PFail))).
Proof.
  assert (Hone : ∀ p q : WorkflowPort, p ∈ [PNext] → q ∈ [PNext] → q = p) by (by intros ?? ->%list_elem_of_singleton ->%list_elem_of_singleton).
  intros Hg Hnd Hp Hq Hs. unfold exits_distinct in Hnd.
  destruct n as [| | |m i ins classes|l vs c o r e| |m ms o r e| | | | |content actions tm|se a re r e|pr ta o routes e|cases|];
    cbn [gates] in Hg; try (injection Hg as <- <-; by split; [apply Hone|]).
  - apply bind_ok in Hg as (ps & Hc & [= <- <-]). split; [|done]. cbn [exits named_exits] in *.
    destruct (chain_last_gate next (map class_id classes) mk_true ps σ p q Hc Hnd) as (g & Hgi & Hf & Hh).
    + intros j Hj. rewrite length_map in Hj. apply Hs. cbn. lia.
    + rewrite holds_true. by rewrite bool_decide_eq_true_2.
    + done.
    + rewrite (lookup_port_Some _ _ g); [done| |done]. by rewrite Hf.
  - destruct e; injection Hg as <- <-; try (by split; [apply Hone|]). specialize (Hs 0 ltac:(cbn; lia)).
    rewrite Nat.add_0_r in Hs. cbn in Hs. split; [apply two_gates; try done; by rewrite holds_var|]. intros b [= <-]. by rewrite holds_var.
  - destruct e; injection Hg as <- <-; try (by split; [apply Hone|]). specialize (Hs 0 ltac:(cbn; lia)).
    rewrite Nat.add_0_r in Hs. cbn in Hs. split; [apply two_gates; try done; by rewrite holds_var|]. intros b [= <-]. by rewrite holds_var.
  - apply bind_ok in Hg as ([ps rem] & Hc & [= <- <-]). split; [|done]. cbn [exits named_exits] in *.
    destruct (chain_all_gate next (map action_id actions) (case REVIEW_TIMEOUT_PORT) ps rem σ p q Hc Hnd) as (g & -> & Hh); [|done..].
    intros j Hj. rewrite length_map in Hj. by apply Hs.
  - destruct e; injection Hg as <- <-; try (by split; [apply Hone|]). specialize (Hs 0 ltac:(cbn; lia)).
    rewrite Nat.add_0_r in Hs. cbn in Hs. split; [apply two_gates; try done; by rewrite holds_var|]. intros b [= <-]. by rewrite holds_var.
  - destruct (decide (routes = [])) as [->|Hr].
    + destruct e; cbn in Hg; injection Hg as <- <-; try (by split; [apply Hone|]). specialize (Hs 0 ltac:(cbn; lia)).
      rewrite Nat.add_0_r in Hs. cbn in Hs. split; [apply two_gates; try done; by rewrite holds_var|]. intros b [= <-]. by rewrite holds_var.
    + assert (Hex : exits (NAgent pr ta o routes e) = map case (map route_id routes) ++ if has_fail_branch (NAgent pr ta o routes e) then [PFail] else []).
      { by destruct routes. }
      rewrite Hex in *. clear Hex. destruct e; cbn [has_fail_branch] in *.
      1,2: rewrite app_nil_r in *; apply bind_ok in Hg as (ps & Hc & [= <- <-]); split; [|done];
        destruct (chain_last_gate next (map route_id routes) mk_true ps σ p q Hc Hnd) as (g & Hgi & Hf & Hh);
        [intros j Hj; rewrite length_map in Hj; apply Hs; cbn; lia|by rewrite holds_true, bool_decide_eq_true_2|done|];
        rewrite (lookup_port_Some _ _ g); [done|by rewrite Hf|done].
      apply bind_ok in Hg as (ps & Hc & [= <- <-]). pose proof (Hs 0 ltac:(cbn; lia)) as H1. rewrite Nat.add_0_r in H1. cbn in H1.
      split; [|intros b [= <-]; by rewrite holds_var]. apply (routed_gates next (map route_id routes)); try done.
      intros j Hj. rewrite length_map in Hj. rewrite Nat.add_succ_comm. apply (Hs (S j)). cbn. lia.
  - apply bind_ok in Hg as ([ps rem] & Hc & [= <- <-]). split; [|done]. cbn [exits named_exits] in *.
    destruct (chain_all_gate next (map case_id cases) PFalse ps rem σ p q Hc Hnd) as (g & -> & Hh); [|done..].
    intros j Hj. rewrite length_map in Hj. by apply Hs.
Qed.
End choices.

(** ** Activation is reachability *)

Lemma tc_last {A} (R : A → A → Prop) x y : tc R x y → ∃ z, rtc R x z ∧ R z y.
Proof. induction 1 as [x y Hxy|x y z Hxy _ (k & ? & ?)]; [by exists x|]. exists k. split; [by eapply rtc_l|done]. Qed.

(** The nodes a choice of exits activates. *)
Inductive reached (cf : ControlFlow) (chosen : str → WorkflowPort) : str → Prop :=
| reached_entry : reached cf chosen (entry cf)
| reached_edge n e : reached cf chosen n → e ∈ edges_of n (outgoing cf) → port e = chosen n → reached cf chosen (to e).

(** The activated nodes leave by exits they have. *)
Definition legal (b : WorkflowBlock) (cf : ControlFlow) (chosen : str → WorkflowPort) : Prop :=
  ∀ n nd, reached cf chosen n → map_get n (block_nodes b) = Some nd → chosen n ∈ exits nd.

Lemma edge_port_exits nd x q : edge_port_for nd x = Ok q → q ∈ exits nd.
Proof.
  assert (Hn : ∀ p, names_exit nd p = true → p ∈ map case (named_exits nd)).
  { intros p (id & Hin & Hp%bool_decide_eq_true)%existsb_exists. apply list_elem_of_fmap. exists id.
    split; [done|by apply list_elem_of_In]. }
  assert (Hord : ∀ x, match x with Some p => if has_fail_branch nd && bool_decide (p = PFail) then Ok PFail
      else Err (InvalidField (lit "ordinary node cannot have a port")) | None => Ok PNext end = Ok q →
    q ∈ PNext :: (if has_fail_branch nd then [PFail] else [])).
  { intros [p|] Hp; [|injection Hp as <-; constructor]. destruct (has_fail_branch nd); [|done]. cbn in Hp.
    case_bool_decide; [|done]. injection Hp as <-. constructor. constructor. }
  destruct nd as [| | |m i ins classes|l vs c o r e| |m ms o r e| | | | |content actions tm|se a re r e|pr ta o routes e|cases|];
    unfold edge_port_for; try (intros Hp; by apply (Hord x)).
  - destruct x as [p|]; [|done]. destruct (names_exit _ p) eqn:E; [|done]. intros [= <-]. by apply Hn.
  - destruct x as [p|]; [|done]. destruct (bool_decide _ || _) eqn:E; [|done]. intros [= <-]. cbn [exits].
    apply elem_of_app. apply orb_true_iff in E as [->%bool_decide_eq_true|E]; [right; constructor|left; by apply Hn].
  - cbn [exits]. destruct x as [p|].
    + destruct (has_fail_branch _ && _) eqn:Ef.
      * apply andb_true_iff in Ef as [-> _]. intros [= <-]. apply elem_of_app. right. constructor.
      * destruct (names_exit _ p) eqn:E; [|by destruct routes]. intros [= <-]. apply elem_of_app. left.
        destruct routes as [|? routes]; [|by apply Hn]. apply Hn in E. by apply not_elem_of_nil in E.
    + destruct routes; [|done]. intros [= <-]. apply elem_of_app. left. constructor.
  - destruct x as [p|]; [|done]. destruct (bool_decide _ || _) eqn:E; [|done]. intros [= <-]. cbn [exits].
    apply elem_of_app. apply orb_true_iff in E as [->%bool_decide_eq_true|E]; [right; constructor|left; by apply Hn].
Qed.

Lemma valuation_cons next id n nodes chosen i :
  valuation next ((id, n) :: nodes) chosen i =
  if decide (i < next + variable_count n) then node_bit n (chosen id) (i - next)
  else valuation (next + variable_count n) nodes chosen i.
Proof.
  change (valuation next ((id, n) :: nodes) chosen i) with
    (if (i <? next + variable_count n)%nat then node_bit n (chosen id) (i - next)
     else valuation (next + variable_count n) nodes chosen i).
  destruct (Nat.ltb_spec i (next + variable_count n)); case_decide; done || lia.
Qed.

Section activation.
Context `{BddLaws}.

Lemma all_gates_at next nodes all chosen id n :
  all_gates next nodes = Ok all → NoDup nodes.*1 → (id, n) ∈ nodes →
  ∃ base ports ok, next ≤ base ∧ gates base n = Ok (ports, ok) ∧
    map_get id all = Some {| node_ports := ports; node_ok := ok |} ∧
    ∀ j, j < variable_count n → valuation next nodes chosen (base + j) = node_bit n (chosen id) j.
Proof.
  revert next all. induction nodes as [|[id' n'] nodes IH]; intros next all Ha Hnd Hin; [by apply not_elem_of_nil in Hin|].
  cbn in Ha. apply bind_ok in Ha as ([ports ok] & Hg & Ha). apply bind_ok in Ha as (rest & Hrest & [= <-]).
  cbn in Hnd. apply NoDup_cons in Hnd as [Hnin Hnd]. apply elem_of_cons in Hin as [[= <- <-]|Hin].
  - exists next, ports, ok. split; [done|]. split; [done|]. split; [cbn; by rewrite decide_True|].
    intros j Hj. rewrite valuation_cons, decide_True by lia. f_equal. lia.
  - destruct (IH _ _ Hrest Hnd Hin) as (base & ps & k & Hle & Hgb & Hm & Hv). exists base, ps, k.
    split; [lia|]. split; [done|]. assert (id ≠ id').
    + intros <-. apply Hnin. by apply (list_elem_of_fmap_2 fst _ (id, n)).
    + split; [cbn; by rewrite decide_False|]. intros j Hj. rewrite valuation_cons, decide_False by lia. by apply Hv.
Qed.

Lemma all_gates_keys next nodes all : all_gates next nodes = Ok all → all.*1 = nodes.*1.
Proof.
  revert next all. induction nodes as [|[id n] nodes IH]; intros next all Ha; cbn in Ha; [by injection Ha as <-|].
  apply bind_ok in Ha as ([ports ok] & _ & Ha). apply bind_ok in Ha as (rest & Hr & [= <-]). cbn. by rewrite (IH _ _ Hr).
Qed.

Lemma gates_succeeded next n ports ok : gates next n = Ok (ports, ok) → is_Some ok ↔ has_fail_branch n = true.
Proof.
  destruct n as [| | |m i ins classes|l vs c o r []| |m ms o r []| | | | |content actions tm|se a re r []|pr ta o routes []|cases|];
    cbn [gates]; intros Hg; repeat (first [injection Hg as <- <-|apply bind_ok in Hg as (? & ? & Hg)|case_match]);
    cbn; (split; [by intros [??]|by eauto]).
Qed.

(** The entries a filtered map keeps. *)
Lemma map_get_omap {V W} (f : V → option W) (m : list (str * V)) k :
  NoDup m.*1 → map_get k (omap (λ x, pair x.1 <$> f x.2) m) = map_get k m ≫= f.
Proof.
  induction m as [|[k' v] m IH]; [done|]. intros [Hk Hnd]%NoDup_cons. cbn. destruct (f v) as [w|] eqn:E; cbn.
  - case_decide; [by cbn; rewrite E|by apply IH].
  - case_decide as Hkk; [|by apply IH]. subst k'. rewrite IH by done. cbn. rewrite E. destruct (map_get k m) as [v'|] eqn:Em; [|done].
    exfalso. apply Hk. apply map_get_key. by eexists.
Qed.

Context (b : WorkflowBlock) (cf : ControlFlow) (chosen : str → WorkflowPort).
Hypothesis Hflow : flow_ok b cf.
Hypothesis Hkeys : NoDup (block_nodes b).*1.
Hypothesis Hexits : ∀ n nd, map_get n (block_nodes b) = Some nd → exits_distinct nd.
Hypothesis Hlegal : legal b cf chosen.

Let σ : nat → bool := valuation 0 (block_nodes b) chosen.

Lemma gate_exact all n e :
  all_gates 0 (block_nodes b) = Ok all → reached cf chosen n → e ∈ edges_of n (outgoing cf) →
  match gate all n (port e) with Some g => holds g σ | None => true end = bool_decide (port e = chosen n).
Proof using All.
  intros Ha Hr He. apply (flow_edges b cf Hflow) in He as (d & nd & _ & _ & Hg & _ & _ & Hp).
  destruct (all_gates_at 0 (block_nodes b) all chosen n nd Ha Hkeys (map_get_pair _ _ _ Hg)) as (base & ports & ok & _ & Hgates & Hm & Hv).
  destruct (gates_hold base nd ports ok σ (chosen n) (port e) Hgates (Hexits _ _ Hg) (Hlegal _ _ Hr Hg) (edge_port_exits _ _ _ Hp) Hv) as [Hq _].
  unfold gate. rewrite Hm. cbn [mbind option_bind node_ports]. destruct (lookup_port ports (port e)) as [g|]; [done|]. by rewrite bool_decide_eq_true_2.
Qed.

Definition act (st : list (str * Bdd) * list (str * gset str)) (m : str) : Bdd := default mk_false (map_get m st.1).
Definition anc (st : list (str * Bdd) * list (str * gset str)) (m : str) : gset str := default ∅ (map_get m st.2).

Lemma extend_holds all n cur st e st' :
  extend all n cur st e = Ok st' →
  (∀ m, holds (act st' m) σ = holds (act st m) σ ||
     (bool_decide (m = to e) && holds cur σ && match gate all n (port e) with Some g => holds g σ | None => true end)) ∧
  ∀ m, anc st' m = anc st m ∪ (if decide (m = to e) then {[n]} ∪ anc st n else ∅).
Proof using All.
  intros He. unfold extend in He. apply bind_ok in He as (path & Hpath & He). apply bind_ok in He as (b' & Hb & [= <-]).
  apply (with_limit_holds _ _ _ _ _ σ) in Hb. split.
  - intros m. unfold act at 1. cbn [fst]. rewrite map_get_insert. destruct (decide (m = to e)) as [->|Hne].
    + rewrite bool_decide_eq_true_2 by done. change (default mk_false (Some b')) with b'. rewrite Hb. unfold act. f_equal. cbn.
      destruct (gate all n (port e)) as [g|]; [by apply (with_limit_holds _ _ _ _ _ σ) in Hpath|].
      injection Hpath as <-. by rewrite andb_true_r.
    + rewrite bool_decide_eq_false_2 by done. by rewrite orb_false_r.
  - intros m. unfold anc. cbn [snd]. rewrite map_get_insert. destruct (decide (m = to e)) as [->|Hne]; [done|]. set_solver.
Qed.

Lemma extend_all all n cur es st st' :
  n ∉ map to es → try_fold (extend all n cur) es st = Ok st' →
  (∀ m, holds (act st' m) σ = true ↔ holds (act st m) σ = true ∨
     holds cur σ = true ∧ ∃ e, e ∈ es ∧ to e = m ∧ match gate all n (port e) with Some g => holds g σ | None => true end = true) ∧
  ∀ m a, a ∈ anc st' m ↔ a ∈ anc st m ∨ m ∈ map to es ∧ (a = n ∨ a ∈ anc st n).
Proof using All.
  revert st. induction es as [|e es IH]; intros st Hn Hf; cbn in Hf.
  - injection Hf as <-. split; [|set_solver]. intros m. split; [by left|]. intros [|(_ & e & ?%not_elem_of_nil & _)]; done.
  - apply bind_ok in Hf as (st1 & He & Hf). cbn in Hn. apply not_elem_of_cons in Hn as [Hne Hn].
    destruct (extend_holds _ _ _ _ _ _ He) as [E1 E2]. destruct (IH st1 Hn Hf) as [I1 I2]. split.
    + intros m. rewrite I1, E1, orb_true_iff, !andb_true_iff, bool_decide_eq_true. split.
      * intros [[?|[[-> ?] ?]]|(? & e' & ? & ? & ?)]; [by left|right; split; [done|exists e; split_and!; try done; constructor]|].
        right. split; [done|]. exists e'. split_and!; try done. by constructor.
      * intros [?|(? & e' & [->|?]%elem_of_cons & ? & ?)]; [auto|left; right; split_and!; auto|right; split; [done|]; by exists e'].
    + intros m a. rewrite I2. assert (Hnn : anc st1 n = anc st n) by (rewrite E2, decide_False by done; set_solver).
      rewrite Hnn, E2. cbn [map]. rewrite elem_of_cons, elem_of_union. case_decide as Hm.
      * rewrite elem_of_union, elem_of_singleton. tauto.
      * rewrite elem_of_empty. tauto.
Qed.

(** The nodes visited so far activate these nodes, and come before these. *)
Definition activated (pre : list str) (m : str) : Prop :=
  m = entry cf ∨ ∃ n, n ∈ pre ∧ reached cf chosen n ∧ ∃ e, e ∈ edges_of n (outgoing cf) ∧ to e = m ∧ port e = chosen n.
Definition preceding (pre : list str) (m a : str) : Prop :=
  ∃ n, n ∈ pre ∧ leads (outgoing cf) n m ∧ rtc (leads (outgoing cf)) a n.

Record visited (pre : list str) (st : list (str * Bdd) * list (str * gset str)) : Prop := {
  visited_act m : holds (act st m) σ = true ↔ activated pre m;
  visited_anc m a : a ∈ anc st m ↔ preceding pre m a;
}.

Lemma leads_key n m : leads (outgoing cf) n m → n ∈ (outgoing cf).*1.
Proof using All.
  intros (e & (d & nd & _ & _ & Hg & _)%(flow_edges b cf Hflow) & _)%leads_iff.
  rewrite (flow_keys b cf Hflow), map_get_key. by eexists.
Qed.

Lemma before_leads pre n post m : topological cf = pre ++ n :: post → leads (outgoing cf) m n → m ∈ pre.
Proof using All. intros Ho Hl. by eapply (flow_order b cf Hflow pre n post Ho m (leads_key _ _ Hl)). Qed.

Lemma order_nodup : NoDup (topological cf).
Proof using All. by rewrite <- (flow_nodes b cf Hflow). Qed.

Lemma no_self pre n post : topological cf = pre ++ n :: post → ¬ leads (outgoing cf) n n.
Proof using All.
  intros Ho Hl. pose proof order_nodup as Hnd. rewrite Ho in Hnd. apply NoDup_app in Hnd as (_ & Hd & _).
  apply (Hd n); [by eapply before_leads|constructor].
Qed.

Lemma activated_next pre n post : topological cf = pre ++ n :: post → activated pre n ↔ reached cf chosen n.
Proof using All.
  intros Ho. split.
  - intros [->|(k & _ & Hr & e & He & <- & Hp)]; [constructor|by eapply reached_edge].
  - intros Hr. destruct Hr as [|k e Hr He Hp]; [by left|]. right. exists k. split; [|by eauto].
    eapply before_leads; [done|]. apply leads_iff. eauto.
Qed.

Lemma preceding_next pre n post a : topological cf = pre ++ n :: post → preceding pre n a ↔ tc (leads (outgoing cf)) a n.
Proof using All.
  intros Ho. split.
  - intros (k & _ & Hl & Hr). by eapply tc_rtc_l, tc_once.
  - intros (k & Hr & Hl)%tc_last. exists k. split_and!; try done. by eapply before_leads.
Qed.

Lemma visit_ok all pre n post st st' :
  all_gates 0 (block_nodes b) = Ok all → topological cf = pre ++ n :: post → visited pre st →
  visit all (outgoing cf) st n = Ok st' → visited (pre ++ [n]) st'.
Proof using All.
  intros Ha Ho [Hact Hanc] Hv. unfold visit in Hv.
  set (st0 := (st.1, map_insert n (default ∅ (map_get n st.2)) st.2)) in Hv.
  assert (Hanc0 : ∀ m, anc st0 m = anc st m).
  { intros m. unfold anc, st0. cbn [snd]. rewrite map_get_insert. by case_decide; subst. }
  destruct (extend_all all n (act st n) (edges_of n (outgoing cf)) st0 st') as [E1 E2]; [by eapply no_self|done|].
  split.
  - intros m. rewrite E1. change (act st0 m) with (act st m). rewrite !Hact, (activated_next _ _ _ Ho). unfold activated. split.
    + intros [[->|(k & Hk & ?)]|(Hr & e & He & Hm & Hg)]; [by left|right; exists k; rewrite elem_of_app; auto|].
      right. exists n. rewrite elem_of_app, list_elem_of_singleton. split; [by right|]. split; [done|]. exists e.
      rewrite (gate_exact _ _ _ Ha Hr He), bool_decide_eq_true in Hg. done.
    + intros [->|(k & [Hk|Hk%list_elem_of_singleton]%elem_of_app & Hr & e & He & Hm & Hg)]; [auto|left; right; eauto 8|].
      subst k. right. split; [done|]. exists e. by rewrite (gate_exact _ _ _ Ha Hr He), bool_decide_eq_true.
  - intros m a. rewrite E2, !Hanc0, !Hanc. rewrite (preceding_next _ _ _ _ Ho). unfold preceding.
    assert (Hrt : a = n ∨ tc (leads (outgoing cf)) a n ↔ rtc (leads (outgoing cf)) a n).
    { rewrite rtc_tc. done. }
    rewrite Hrt. split.
    + intros [(k & Hk & ?)|[Hm Hr]]; [exists k; rewrite elem_of_app; auto|]. exists n.
      rewrite elem_of_app, list_elem_of_singleton. auto.
    + intros (k & [Hk|Hk%list_elem_of_singleton]%elem_of_app & Hl & Hr); [left; eauto|]. subst k. right. done.
Qed.

Lemma visits_ok all pre post st st' :
  all_gates 0 (block_nodes b) = Ok all → topological cf = pre ++ post → visited pre st →
  try_fold (visit all (outgoing cf)) post st = Ok st' → visited (topological cf) st'.
Proof using All.
  intros Ha. revert pre st. induction post as [|n post IH]; intros pre st Ho Hv Hf; cbn in Hf.
  - injection Hf as <-. by rewrite Ho, app_nil_r.
  - apply bind_ok in Hf as (st1 & H1 & Hf). eapply (IH (pre ++ [n])); [by rewrite <- app_assoc| |done].
    by eapply visit_ok.
Qed.

(** The computed scopes are the reachable activations and the transitive predecessors. *)
Lemma scopes_exact s :
  activation_scopes b cf = Ok s →
  (∀ n, holds (active_of s n) σ = true ↔ reached cf chosen n) ∧
  (∀ n a, a ∈ ancestors_of s n ↔ tc (leads (outgoing cf)) a n) ∧
  ∀ n nd, map_get n (block_nodes b) = Some nd →
    (is_Some (map_get n (succeeded s)) ↔ has_fail_branch nd = true) ∧
    ∀ ok, map_get n (succeeded s) = Some ok → reached cf chosen n → holds ok σ = negb (bool_decide (chosen n = PFail)).
Proof using All.
  intros Hs. unfold activation_scopes in Hs. apply bind_ok in Hs as (u & _ & Hs). apply bind_ok in Hs as (all & Ha & Hs).
  apply bind_ok in Hs as ([ac an] & Hf & [= <-]). cbn [active ancestors succeeded].
  destruct (visits_ok all [] (topological cf) ([(entry cf, mk_true)], []) (ac, an) Ha eq_refl) as [Hact Hanc]; [|done|].
  { split.
    - intros m. unfold act, activated. cbn. case_decide as Hm; cbn; [rewrite holds_true; by split; [left|]|]. rewrite holds_false.
      split; [done|]. intros [?|(k & ?%not_elem_of_nil & _)]; done.
    - intros m a. unfold anc, preceding. cbn. rewrite elem_of_empty. split; [done|]. by intros (k & ?%not_elem_of_nil & _). }
  split_and!.
  - intros n. unfold active_of. cbn [active]. change (default mk_false (map_get n ac)) with (act (ac, an) n). rewrite Hact.
    split; [intros [->|(k & _ & Hr & e & He & <- & Hp)]; [constructor|by eapply reached_edge]|].
    intros Hr. destruct Hr as [|k e Hr He Hp]; [by left|]. right. exists k. split; [|by eauto].
    rewrite <- (flow_nodes b cf Hflow), <- (flow_keys b cf Hflow). eapply leads_key, leads_iff. eauto.
  - intros n a. unfold ancestors_of. cbn [ancestors]. change (default ∅ (map_get n an)) with (anc (ac, an) n). rewrite Hanc. split.
    + intros (k & _ & Hl & Hr). by eapply tc_rtc_l, tc_once.
    + intros (k & Hr & Hl)%tc_last. exists k. split_and!; try done.
      rewrite <- (flow_nodes b cf Hflow), <- (flow_keys b cf Hflow). by eapply leads_key.
  - intros n nd Hg.
    destruct (all_gates_at 0 (block_nodes b) all chosen n nd Ha Hkeys (map_get_pair _ _ _ Hg)) as (base & ports & ok & _ & Hgates & Hm & Hv).
    assert (Hok : map_get n (omap (λ x, pair x.1 <$> node_ok x.2) all) = ok).
    { rewrite (map_get_omap node_ok) by (by rewrite (all_gates_keys _ _ _ Ha)). by rewrite Hm. }
    rewrite Hok. split; [by eapply gates_succeeded|]. intros ok' -> Hr.
    destruct (exits nd) as [|q qs] eqn:Eq; [pose proof (Hlegal _ _ Hr Hg) as Hx; rewrite Eq in Hx; by apply not_elem_of_nil in Hx|].
    destruct (gates_hold base nd ports (Some ok') σ (chosen n) q Hgates (Hexits _ _ Hg) (Hlegal _ _ Hr Hg) ltac:(rewrite Eq; constructor) Hv) as [_ H'].
    by apply H'.
Qed.
End activation.

(** ** What the scopes promise *)

(** What the node validation establishes of exits: there is one, and no two are the same. *)
Definition exits_ok (b : WorkflowBlock) : Prop :=
  ∀ n nd, map_get n (block_nodes b) = Some nd → exits nd ≠ [] ∧ exits_distinct nd.

Lemma fail_exit nd : PFail ∈ exits nd → has_fail_branch nd = true.
Proof.
  assert (Hno : ∀ ids, PFail ∉ map case ids) by (intros ids; apply not_case; auto).
  assert (Ht : ∀ id, case id ≠ PFail) by (intros id; apply (case_not_next id)).
  assert (Hone : ∀ p, PFail ∈ [p] → p = PFail) by (by intros p ->%list_elem_of_singleton).
  assert (Hord : ∀ x : bool, PFail ∈ PNext :: (if x then [PFail] else []) → x = true).
  { intros [] Hx; [done|]. apply Hone in Hx. done. }
  destruct nd as [| | |m i ins classes|l vs c o r e| |m ms o r e| | | | |content actions tm|se a re r e|pr ta o routes e|cases|];
    cbn [exits]; try apply Hord; try (intros [Hin|Hin]%elem_of_app; [by apply Hno in Hin|]; by apply Hone, Ht in Hin).
  - by intros Hin%Hno.
  - intros [Hin|Hin]%elem_of_app.
    + destruct routes; [by apply Hone in Hin|by apply Hno in Hin].
    + destruct (has_fail_branch _); [done|by apply not_elem_of_nil in Hin].
  - intros [Hin|Hin]%elem_of_app; [by apply Hno in Hin|]. by apply Hone in Hin.
Qed.

Section promises.
Context `{BddLaws}.
Context (b : WorkflowBlock) (cf : ControlFlow) (s : ActivationScopes) (chosen : str → WorkflowPort).
Hypothesis Hsorted : map_sorted (block_nodes b).
Hypothesis Hflow : flow_ok b cf.
Hypothesis Hexits : exits_ok b.
Hypothesis Hlegal : legal b cf chosen.
Hypothesis Hs : activation_scopes b cf = Ok s.

Let σ : nat → bool := valuation 0 (block_nodes b) chosen.

Lemma promises_exact :
  (∀ n, holds (active_of s n) σ = true ↔ reached cf chosen n) ∧
  (∀ n a, a ∈ ancestors_of s n ↔ tc (leads (outgoing cf)) a n) ∧
  ∀ n nd, map_get n (block_nodes b) = Some nd →
    (is_Some (map_get n (succeeded s)) ↔ has_fail_branch nd = true) ∧
    ∀ ok, map_get n (succeeded s) = Some ok → reached cf chosen n → holds ok σ = negb (bool_decide (chosen n = PFail)).
Proof using All.
  apply scopes_exact; try done; [by apply sorted_nodup|]. intros n nd Hg. by apply (Hexits n nd).
Qed.

Lemma reached_node n : reached cf chosen n → ∃ nd, map_get n (block_nodes b) = Some nd.
Proof using All.
  intros [|k e _ (d & nd & _ & _ & _ & _ & Hsome & _)%(flow_edges b cf Hflow) _].
  - exists NStart. by apply (flow_start b cf Hflow).
  - exact Hsome.
Qed.

Lemma implies_holds x y : implies x y = true → holds x σ = true → holds y σ = true.
Proof using All.
  unfold implies. destruct (binary_op_with_limit 2 x y implb) as [d|] eqn:E; [|done]. intros Ht Hx.
  apply (is_true_holds _ σ) in Ht. rewrite (holds_op _ _ _ _ _ σ E), Hx in Ht. done.
Qed.

(** Success, where a node may fail. *)
Lemma success_exact n : reached cf chosen n →
  match map_get n (succeeded s) with
  | Some ok => holds ok σ = negb (bool_decide (chosen n = PFail))
  | None => chosen n ≠ PFail
  end.
Proof using All.
  intros Hr. destruct promises_exact as (_ & _ & Hsucc). destruct (reached_node n Hr) as [nd Hg].
  destruct (Hsucc n nd Hg) as [Hf Hok]. destruct (map_get n (succeeded s)) as [ok|] eqn:E; [by apply Hok|].
  intros Hp. pose proof (Hlegal n nd Hr Hg) as Hx. rewrite Hp in Hx. apply fail_exit in Hx.
  by destruct (proj2 Hf Hx).
Qed.

Lemma foldl_insert {V} (f : str → option V) l m p v :
  map_get p (foldl (λ m k, match f k with Some v => map_insert k v m | None => m end) m l) = Some v →
  map_get p m = Some v ∨ p ∈ l ∧ f p = Some v.
Proof.
  revert m. induction l as [|k l IH]; intros m; cbn [foldl]; [by left|]. intros [Hm|[Hin Hf]]%IH; [|right; split; [by constructor|done]].
  destruct (f k) as [w|] eqn:E; [|by left]. rewrite map_get_insert in Hm. case_decide as Hk; [|by left].
  subst k. injection Hm as ->. right. split; [constructor|done].
Qed.

Lemma scope_entry n after base p schema :
  reached cf chosen n → map_get p (scope s n after base) = Some schema →
  map_get p base = Some schema ∨
  tc (leads (outgoing cf)) p n ∧ reached cf chosen p ∧
  (chosen p ≠ PFail ∧ (m ← map_get p after; map_get p m) = Some schema ∨ chosen p = PFail ∧ schema = error_schema).
Proof using All.
  intros Hr Hp. apply (foldl_insert (produced s n after)) in Hp as [Hp|[Hin Hp]]; [by left|right].
  destruct promises_exact as (Hact & Hanc & _). apply elem_of_elements, Hanc in Hin. split; [done|].
  unfold produced in Hp. destruct (implies (active_of s n) (active_of s p)) eqn:Ei; [|done].
  pose proof (proj2 (Hact n) Hr) as Hrn. pose proof (proj1 (Hact p) (implies_holds _ _ Ei Hrn)) as Hrp. split; [done|].
  destruct (m ← map_get p after; map_get p m) as [schema'|]; [|done]. cbn [mbind option_bind] in Hp.
  pose proof (success_exact p Hrp) as Hok. destruct (map_get p (succeeded s)) as [ok|]; [|injection Hp as ->; by left].
  destruct (implies (active_of s n) ok) eqn:Eo.
  - injection Hp as ->. left. split; [|done]. apply (implies_holds _ _ Eo) in Hrn. rewrite Hok in Hrn.
    by apply negb_true_iff, bool_decide_eq_false in Hrn.
  - destruct (implies (active_of s n) (bdd_not ok)) eqn:En; [|done]. injection Hp as <-. right. split; [|done].
    apply (implies_holds _ _ En) in Hrn. rewrite holds_not, Hok, negb_involutive in Hrn. by apply bool_decide_eq_true in Hrn.
Qed.

Lemma unordered_excludes l r :
  unordered_together s l r = false → reached cf chosen l → reached cf chosen r →
  tc (leads (outgoing cf)) l r ∨ tc (leads (outgoing cf)) r l.
Proof using All.
  destruct promises_exact as (Hact & Hanc & _). unfold unordered_together. rewrite !andb_false_iff, !negb_false_iff, !bool_decide_eq_true, !Hanc.
  intros [[?|?]|Ho] Hl Hr; [by right|by left|exfalso].
  destruct (binary_op_with_limit 2 (active_of s l) (active_of s r) andb) as [d|] eqn:E; [|done].
  apply negb_false_iff, (is_false_holds _ σ) in Ho. rewrite (holds_op _ _ _ _ _ σ E) in Ho.
  by rewrite (proj2 (Hact l) Hl), (proj2 (Hact r) Hr) in Ho.
Qed.

Lemma present_holds n base path d :
  present s n base path = Ok d → holds d σ = true → reached cf chosen n →
  ∃ p, head path = Some p ∧ (is_Some (map_get p base) ∨
    tc (leads (outgoing cf)) p n ∧ reached cf chosen p ∧ chosen p ≠ PFail).
Proof using All.
  destruct promises_exact as (Hact & Hanc & _). intros Hd Hh Hr. unfold present in Hd.
  apply bind_ok in Hd as (p & Hp%ok_or_ok & Hd). exists p. split; [done|]. case_bool_decide; [by left|right].
  apply bind_ok in Hd as (u & Hin%guard_err_ok & Hd). apply negb_false_iff, bool_decide_eq_true, Hanc in Hin. split; [done|].
  apply bind_ok in Hd as (q & Hq & Hd). rewrite (with_limit_holds _ _ _ _ _ σ Hd) in Hh.
  apply andb_true_iff in Hh as [_ Hh]. assert (Hrp : reached cf chosen p).
  { apply Hact. destruct (map_get p (succeeded s)); [|by injection Hq as ->].
    rewrite (with_limit_holds _ _ _ _ _ σ Hq) in Hh. by apply andb_true_iff in Hh as [? _]. }
  split; [done|]. pose proof (success_exact p Hrp) as Hok. destruct (map_get p (succeeded s)) as [ok|]; [|done].
  rewrite (with_limit_holds _ _ _ _ _ σ Hq), Hok in Hh. apply andb_true_iff in Hh as [_ Hh].
  by apply negb_true_iff, bool_decide_eq_false in Hh.
Qed.

Lemma aggregate_holds n paths base :
  validate_aggregate s n paths base = Ok () → reached cf chosen n →
  ∃ path p, path ∈ paths ∧ head path = Some p ∧ (is_Some (map_get p base) ∨
    tc (leads (outgoing cf)) p n ∧ reached cf chosen p ∧ chosen p ≠ PFail).
Proof using All.
  intros Hv Hr. unfold validate_aggregate in Hv. apply bind_ok in Hv as (u & Hu & Hv%guard_err_ok).
  apply negb_false_iff in Hv. destruct promises_exact as (Hact & _). pose proof (implies_holds _ _ Hv (proj2 (Hact n) Hr)) as Hh.
  assert (Hnone : holds (bdd_and (active_of s n) (bdd_not (active_of s n))) σ = false).
  { rewrite holds_and, holds_not. apply andb_negb_r. }
  revert Hu Hnone. generalize (bdd_and (active_of s n) (bdd_not (active_of s n))). induction paths as [|path paths IH]; intros d Hu Hd; cbn in Hu.
  - injection Hu as ->. congruence.
  - apply bind_ok in Hu as (x & Hx & Hu). apply bind_ok in Hu as (d' & Hd' & Hu).
    destruct (holds x σ) eqn:E.
    + destruct (present_holds _ _ _ _ Hx E Hr) as (p & Hp & Hpp). exists path, p. split; [constructor|done].
    + destruct (IH d' Hu) as (path' & p & Hin & Hp); [by rewrite (with_limit_holds _ _ _ _ _ σ Hd'), Hd, E|].
      exists path', p. split; [by constructor|done].
Qed.

Lemma available_holds p :
  available_at_completion s p = true → reached cf chosen p ∧ chosen p ≠ PFail.
Proof using All.
  destruct promises_exact as (Hact & _). unfold available_at_completion. intros [Ha Hok]%andb_true_iff.
  assert (Hr : reached cf chosen p).
  { apply Hact. unfold active_of. destruct (map_get p (active s)); [by apply is_true_holds|done]. }
  split; [done|]. pose proof (success_exact p Hr) as Hx. destruct (map_get p (succeeded s)) as [ok|]; [|done].
  apply (is_true_holds _ σ) in Hok. rewrite Hok in Hx. intros Hp. by rewrite bool_decide_eq_true_2 in Hx.
Qed.
End promises.

(** A node reads only what has been produced: whenever a legal choice of exits runs the
    node, a producer in its scope is one of its predecessors and has run; its schema is the
    producer's own after a success, and the error's after a failure sent down its branch. *)
Theorem scope_sound `{BddLaws} b cf s chosen n after p schema :
  map_sorted (block_nodes b) → control_flow b = Ok cf → exits_ok b → legal b cf chosen → activation_scopes b cf = Ok s →
  reached cf chosen n → map_get p (scope s n after []) = Some schema →
  tc (leads (outgoing cf)) p n ∧ reached cf chosen p ∧
  (chosen p ≠ PFail ∧ (m ← map_get p after; map_get p m) = Some schema ∨ chosen p = PFail ∧ schema = error_schema).
Proof.
  intros Hm Hc He Hl Hs Hr Hp. pose proof (control_flow_ok b cf Hm Hc) as Hf.
  by destruct (scope_entry b cf s chosen Hm Hf He Hl Hs n after [] p schema Hr Hp) as [?|?].
Qed.

(** Two nodes the checks let conflict are never both run without an order between them:
    when [unordered_together] is denied and both run, one comes after the other. *)
Theorem unordered_together_sound `{BddLaws} b cf s chosen l r :
  map_sorted (block_nodes b) → control_flow b = Ok cf → exits_ok b → legal b cf chosen → activation_scopes b cf = Ok s →
  unordered_together s l r = false → reached cf chosen l → reached cf chosen r →
  tc (leads (outgoing cf)) l r ∨ tc (leads (outgoing cf)) r l.
Proof.
  intros Hm Hc He Hl Hs. apply (unordered_excludes b cf s chosen Hm (control_flow_ok b cf Hm Hc) He Hl Hs).
Qed.

(** A checked Aggregate finds a source: whenever the node runs, one of its paths starts in
    the scope around the block or at a predecessor that ran and did not fail. *)
Theorem aggregate_covered `{BddLaws} b cf s chosen n paths base :
  map_sorted (block_nodes b) → control_flow b = Ok cf → exits_ok b → legal b cf chosen → activation_scopes b cf = Ok s →
  validate_aggregate s n paths base = Ok () → reached cf chosen n →
  ∃ path p, path ∈ paths ∧ head path = Some p ∧ (is_Some (map_get p base) ∨
    tc (leads (outgoing cf)) p n ∧ reached cf chosen p ∧ chosen p ≠ PFail).
Proof.
  intros Hm Hc He Hl Hs. apply (aggregate_holds b cf s chosen Hm (control_flow_ok b cf Hm Hc) He Hl Hs).
Qed.

(** ** Diagrams as formulas

    An instance of the class, by truth tables, for the examples. *)

Module Formulas.
Inductive formula :=
| FConst (b : bool)
| FVar (i : nat)
| FNot (f : formula)
| FOp (op : bool → bool → bool) (f g : formula).

Fixpoint eval (σ : nat → bool) (f : formula) : bool :=
  match f with
  | FConst b => b
  | FVar i => σ i
  | FNot f => negb (eval σ f)
  | FOp op f g => op (eval σ f) (eval σ g)
  end.

Fixpoint width (f : formula) : nat :=
  match f with FConst _ => 0 | FVar i => S i | FNot f => width f | FOp _ f g => width f `max` width g end.

Fixpoint tables (n : nat) : list (list bool) :=
  match n with 0 => [[]] | S n => map (cons true) (tables n) ++ map (cons false) (tables n) end.

Definition valid (f : formula) : bool := forallb (λ l, eval (λ i, nth i l false) f) (tables (width f)).

Lemma tables_all σ n k : map σ (seq k n) ∈ tables n.
Proof.
  revert k. induction n as [|n IH]; intros k; cbn; [constructor|]. apply elem_of_app.
  destruct (σ k); [left|right]; apply (list_elem_of_fmap_2 (cons _)), IH.
Qed.

Lemma eval_ext σ τ f : (∀ i, i < width f → σ i = τ i) → eval σ f = eval τ f.
Proof.
  induction f as [b|i|f IH|op f IHf g IHg]; cbn; intros Hi; [done|apply Hi; lia|by rewrite IH|].
  rewrite IHf, IHg; [done|intros; apply Hi; lia..].
Qed.

Lemma valid_eval σ f : valid f = true → eval σ f = true.
Proof.
  unfold valid. rewrite forallb_forall. intros Hv.
  specialize (Hv _ (proj1 (list_elem_of_In _ _) (tables_all σ (width f) 0))). rewrite <- Hv. apply eval_ext. intros i Hi.
  rewrite (nth_indep _ false (σ 0)) by (by rewrite length_map, length_seq). by rewrite map_nth, seq_nth.
Qed.

#[export] Instance formula_bdds : Bdds := {|
  Bdd := formula;
  mk_true := FConst true;
  mk_false := FConst false;
  mk_var := FVar;
  bdd_not := FNot;
  bdd_and := FOp andb;
  binary_op_with_limit _ b c op := Some (FOp op b c);
  is_true := valid;
  is_false b := valid (FNot b);
|}.

#[export] Instance formula_laws : BddLaws.
Proof.
  refine {| holds b σ := eval σ b |}; try done.
  - by intros limit b c op d σ [= <-].
  - intros b σ. apply valid_eval.
  - intros b σ Hf. apply negb_true_iff. by apply (valid_eval σ (FNot b)).
Defined.
End Formulas.
Import Formulas.

Definition sample_scopes : ActivationScopes :=
  match activation_scopes sample sample_flow with Ok s => s | Err _ => {| active := []; ancestors := []; succeeded := [] |} end.
Lemma sample_scopes_ok : activation_scopes sample sample_flow = Ok sample_scopes.
Proof. vm_compute. reflexivity. Defined.

(** The branch takes its case and the model succeeds. *)
Definition sample_chosen (n : str) : WorkflowPort := if decide (n = lit "c") then PCase (lit "a") else PNext.

Lemma sample_exits : exits_ok sample.
Proof.
  intros n nd Hg%map_get_pair. cbn in Hg. set_unfold in Hg.
  destruct Hg as [[= _ ->]|[[= _ ->]|[[= _ ->]|[[= _ ->]|[[= _ ->]|[]]]]]]; split; try done; by apply (bool_decide_unpack _); vm_compute.
Defined.
Lemma sample_legal : legal sample sample_flow sample_chosen.
Proof.
  intros n nd _ Hg%map_get_pair. cbn in Hg. set_unfold in Hg.
  destruct Hg as [[= -> ->]|[[= -> ->]|[[= -> ->]|[[= -> ->]|[[= -> ->]|[]]]]]]; by apply (bool_decide_unpack _); vm_compute.
Defined.
Lemma sample_reached n : n ∈ map lit ["s"; "c"; "m"; "x"; "r"]%string → reached sample_flow sample_chosen n.
Proof.
  assert (Hstep : ∀ a c p, reached sample_flow sample_chosen (lit a) →
    bool_decide ({| to := lit c; port := p |} ∈ edges_of (lit a) (outgoing sample_flow) ∧ p = sample_chosen (lit a)) = true →
    reached sample_flow sample_chosen (lit c)).
  { intros a c p Ha [Hin Hp]%bool_decide_eq_true. by apply (reached_edge _ _ _ _ Ha Hin). }
  assert (Hs : reached sample_flow sample_chosen (lit "s")) by constructor.
  assert (Hc : reached sample_flow sample_chosen (lit "c")) by (apply (Hstep "s"%string "c"%string PNext Hs); vm_compute; done).
  assert (Hm : reached sample_flow sample_chosen (lit "m")) by (apply (Hstep "c"%string "m"%string (PCase (lit "a")) Hc); vm_compute; done).
  assert (Hx : reached sample_flow sample_chosen (lit "x")) by (apply (Hstep "m"%string "x"%string PNext Hm); vm_compute; done).
  assert (Hr : reached sample_flow sample_chosen (lit "r")) by (apply (Hstep "x"%string "r"%string PNext Hx); vm_compute; done).
  intros Hn. cbn [map] in Hn. set_unfold in Hn. by destruct Hn as [->|[->|[->|[->|[->|[]]]]]].
Defined.

Definition sample_after : list (str * SchemaMap) := [(lit "m", [(lit "m", model_output_schema ModelText)])].

(** The template after the model's success reads the model's value. *)
Lemma scope_sound_witness :
  map_get (lit "m") (scope sample_scopes (lit "x") sample_after []) = Some (model_output_schema ModelText) ∧
  tc (leads (outgoing sample_flow)) (lit "m") (lit "x").
Proof.
  split; [vm_compute; reflexivity|].
  apply (scope_sound sample sample_flow sample_scopes sample_chosen (lit "x") sample_after (lit "m") (model_output_schema ModelText) sample_sorted
    sample_accepted sample_exits sample_legal sample_scopes_ok); [apply sample_reached; vm_compute; set_solver|vm_compute; reflexivity].
Defined.

Lemma unordered_together_sound_witness :
  unordered_together sample_scopes (lit "m") (lit "r") = false ∧
  (tc (leads (outgoing sample_flow)) (lit "m") (lit "r") ∨ tc (leads (outgoing sample_flow)) (lit "r") (lit "m")).
Proof.
  split; [vm_compute; reflexivity|].
  apply (unordered_together_sound sample sample_flow sample_scopes sample_chosen (lit "m") (lit "r") sample_sorted
    sample_accepted sample_exits sample_legal sample_scopes_ok); [vm_compute; reflexivity|apply sample_reached; vm_compute; set_solver..].
Defined.

Lemma aggregate_covered_witness :
  validate_aggregate sample_scopes (lit "x") [[lit "m"; lit "text"]] [] = Ok () ∧
  ∃ path p, path ∈ [[lit "m"; lit "text"]] ∧ head path = Some p ∧ (is_Some (map_get p ([] : SchemaMap)) ∨
    tc (leads (outgoing sample_flow)) p (lit "x") ∧ reached sample_flow sample_chosen p ∧ sample_chosen p ≠ PFail).
Proof.
  split; [vm_compute; reflexivity|].
  apply (aggregate_covered sample sample_flow sample_scopes sample_chosen (lit "x") [[lit "m"; lit "text"]] [] sample_sorted
    sample_accepted sample_exits sample_legal sample_scopes_ok); [vm_compute; reflexivity|apply sample_reached; vm_compute; set_solver].
Defined.
