(* ===== verification/WorkflowBudget.v ===== *)
(** The budgets and values of a Workflow run ([src/src/runtime/workflow/execution.rs], with
    [bounded_value_bytes] of [expressions.rs]): the admission of steps, agents and model
    calls, the bytes private values retain, the writes of a Variable Assigner and their
    merge, and the failures of a block.

    [serde_json]'s encoding is third party: the class [JsonText] has the length of what
    [to_vec] writes, with the lengths of its arrays and objects as laws.  [f64] is the class
    [Floats].  A subtraction of [usize] below zero is a panic, as is a failed [expect]. *)

From S2P Require Import Message Attempt Prelude Text Json Workflow WorkflowGraph.
From stdpp Require Import options.
Open Scope N_scope.

(** ** Errors *)

Inductive WorkflowLimit := Steps | Agents | ModelCalls | RetainedData.

Inductive WorkflowChildSettlementFailure :=
| LogicalTerminalMissing | PublicationPending | PublicationAbandoned | PhysicalContainmentUnproven.

(** [WorkflowRunError]; the diagnostics of a disabled workflow are left out. *)
Inductive WorkflowRunError :=
| WDisabled (workflow : str)
| LimitExceeded (limit : WorkflowLimit)
| ChildOutcome (node : str) (status : ToolExecutionStatus)
| ChildSettlement (node : str) (failure : WorkflowChildSettlementFailure)
| CapabilityNotAdmitted (detail : str)
| IneligibleCapability (detail : str)
| IdentityChanged (detail : str)
| InvocationAuthority (detail : str)
| ToolFailed (node : str) (status : ToolExecutionStatus)
| ModelFailed (node : str) (status : ToolExecutionStatus)
| InvalidInput (detail : str)
| InvalidOutput (detail : str)
| InvalidProgram (detail : str)
| UncommittedReference (path : list str)
| InvalidValue (detail : str)
| ChildStart (node detail : str)
| ChildFailed (node detail : str)
| NodesFailed (failures : list (str * WorkflowRunError))
| WCancelled (reason : CancellationReason)
| WDeadline (kind : ToolDeadlineKind)
| TerminalAlreadySettled.

(** [from_cancellation], of the native cause *)
Definition from_cancellation (cause : ToolCancellationCause) : WorkflowRunError :=
  match cause with CauseAttempt reason => WCancelled reason | CauseDeadline kind => WDeadline kind end.

(** [merged_failures] *)
Definition merged_failures (failures : list (str * WorkflowRunError)) : option WorkflowRunError :=
  match failures with
  | [] => None
  | [(_, e)] => Some e
  | _ => Some (NodesFailed failures)
  end.

(** [round_failed]: whether a round's failure is one of business, which an Iteration may
    leave out. *)
Fixpoint round_failed (e : WorkflowRunError) : bool :=
  match e with
  | NodesFailed failures =>
      negb (bool_decide (length failures = 0%nat)) && forallb (λ x, round_failed x.2) failures
  | ToolFailed _ status | ModelFailed _ status | ChildOutcome _ status =>
      match status with Failed _ | TimedOut => true | _ => false end
  | InvalidValue _ | InvalidOutput _ | ChildFailed _ _ => true
  | _ => false
  end.

Section status.
(** The [Display] text of an error. *)
Variable to_string : WorkflowRunError → str.

Definition is_unknown (s : ToolExecutionStatus) : bool := match s with OutcomeUnknown _ => true | _ => false end.

(** The [Display] text of a settlement failure *)
Variable settlement_text : WorkflowChildSettlementFailure → str.

(** [execution_status] *)
Fixpoint execution_status (e : WorkflowRunError) : ToolExecutionStatus :=
  match e with
  | ToolFailed _ status | ModelFailed _ status | ChildOutcome _ status => status
  | ChildSettlement _ failure => OutcomeUnknown (settlement_text failure)
  | WDeadline _ => TimedOut
  | WCancelled reason => Cancelled reason DuringExecution
  | NodesFailed failures =>
      let statuses := map (λ x, execution_status x.2) failures in
      match find_first is_unknown statuses with
      | Some s => s
      | None => match statuses with s :: _ => s | [] => Failed (to_string e) end
      end
  | _ => Failed (to_string e)
  end.

Definition is_cancelled (e : WorkflowRunError) : bool :=
  match execution_status e with Cancelled _ _ => true | _ => false end.
End status.

(** ** Admission *)

Definition MAX_WORKFLOW_STEPS : N := 4096.
Definition MAX_WORKFLOW_AGENTS : N := 256.
Definition MAX_WORKFLOW_MODEL_CALLS : N := 256.
Definition MAX_VALUE_BYTES : N := 65536.
Definition MAX_VALUE_DEPTH : N := 32.

Record RunBudgets := {
  steps : N; agents : N; model_calls : N; retained_bytes : N; reserved_bytes : N
}.

(** A read of the cancellation: its cause when it is requested. *)
Definition check_active (read : option ToolCancellationCause) : result WorkflowRunError () :=
  match read with Some cause => Err (from_cancellation cause) | None => Ok () end.

(** [RunBudgets::admit], with its two reads of the cancellation *)
Definition admit_work (bound : N) (agent model : bool) (first last : option ToolCancellationCause) (b : RunBudgets)
    : result WorkflowRunError RunBudgets :=
  _ ← check_active first;
  _ ← guard_err ((bound <=? steps b) || (MAX_WORKFLOW_STEPS <=? steps b)) (LimitExceeded Steps);
  let agent := N.b2n agent in
  let model := N.b2n model in
  _ ← guard_err (MAX_WORKFLOW_MODEL_CALLS <? model_calls b + model) (LimitExceeded ModelCalls);
  _ ← guard_err (MAX_WORKFLOW_AGENTS <? agents b + agent) (LimitExceeded Agents);
  _ ← check_active last;
  Ok {| steps := steps b + 1; agents := agents b + agent; model_calls := model_calls b + model;
        retained_bytes := retained_bytes b; reserved_bytes := reserved_bytes b |}.

(** [RunBudgets::admit_model_retry] *)
Definition admit_model_retry (read : option ToolCancellationCause) (b : RunBudgets) : result WorkflowRunError RunBudgets :=
  _ ← check_active read;
  _ ← guard_err (MAX_WORKFLOW_MODEL_CALLS <? model_calls b + 1) (LimitExceeded ModelCalls);
  Ok {| steps := steps b; agents := agents b; model_calls := model_calls b + 1;
        retained_bytes := retained_bytes b; reserved_bytes := reserved_bytes b |}.

(** ** Value sizes *)

Class JsonText := {
  (** the length of [serde_json::to_vec] *)
  json_len : json → N;
  (** the length of a key *)
  key_len : str → N;
}.

Definition sum (l : list N) : N := foldr N.add 0 l.
(** The commas between the members *)
Definition commas {A} (l : list A) : N := N.of_nat (length l) - 1.

Class JsonTextLaws `{JsonText} := {
  len_array l : json_len (Array l) = 2 + sum (map json_len l) + commas l;
  len_object m : json_len (Object m) = 2 + sum (map (λ x, key_len x.1 + 1 + json_len x.2) m) + commas m;
}.

(** The deepest nesting of a value: what the worklist of [bounded_value_bytes] compares
    with the bound. *)
Fixpoint value_depth (v : json) : N :=
  match v with
  | Array l => foldr (λ x d, N.max (value_depth x + 1) d) 0 l
  | Object m => foldr (λ x d, N.max (value_depth x.2 + 1) d) 0 m
  | _ => 0
  end.

Section values.
Context `{JsonText}.

(** [bounded_value_bytes] *)
Definition bounded_value_bytes (v : json) : result WorkflowRunError N :=
  _ ← guard_err (MAX_VALUE_BYTES <? json_len v) (InvalidValue (lit "constructed value byte bound exceeded"));
  _ ← guard_err (MAX_VALUE_DEPTH <? value_depth v) (InvalidValue (lit "constructed value depth exceeded"));
  Ok (json_len v).

(** ** Reservations

    A [LocalReservation] is its [bytes]; its operations change the run's budgets too. *)

Definition set_retained (n : N) (b : RunBudgets) : RunBudgets :=
  {| steps := steps b; agents := agents b; model_calls := model_calls b; retained_bytes := n; reserved_bytes := reserved_bytes b |}.

Definition checked_sub (a c : N) : result (fault WorkflowRunError) N := if c <=? a then Ok (a - c) else Err Panic.

(** [?] in a function that may panic. *)
Definition fallible {A} (m : result WorkflowRunError A) : result (fault WorkflowRunError) A := map_err Fail m.

(** [retain_bytes] *)
Definition retain_bytes (bytes : N) (st : RunBudgets * N) : result (fault WorkflowRunError) (RunBudgets * N) :=
  if (MAX_VALUE_BYTES <? bytes) || (reserved_bytes st.1 <? retained_bytes st.1 + bytes) then Err (Fail (LimitExceeded RetainedData))
  else Ok (set_retained (retained_bytes st.1 + bytes) st.1, st.2 + bytes).

(** [retain] *)
Definition retain (v : json) (st : RunBudgets * N) : result (fault WorkflowRunError) (RunBudgets * N) :=
  bytes ← fallible (bounded_value_bytes v); retain_bytes bytes st.

(** [release] *)
Definition release (bytes : N) (st : RunBudgets * N) : result (fault WorkflowRunError) (RunBudgets * N) :=
  own ← checked_sub st.2 bytes;
  retained ← checked_sub (retained_bytes st.1) bytes;
  Ok (set_retained retained st.1, own).

(** [shrink_to] *)
Definition shrink_to (bytes : N) (st : RunBudgets * N) : result (fault WorkflowRunError) (RunBudgets * N) :=
  rest ← checked_sub st.2 bytes; release rest st.

(** [drop] *)
Definition drop_reservation (own : N) (b : RunBudgets) : result (fault WorkflowRunError) RunBudgets :=
  retained ← checked_sub (retained_bytes b) own; Ok (set_retained retained b).

(** ** The Variable Assigner *)

Definition nonempty_array (v : json) : bool := match v with Array (_ :: _) => true | _ => false end.

(** [reserve_array_write] *)
Definition reserve_array_write (operation : WorkflowWriteMode) (current : json) (operand : option json) (st : RunBudgets * N)
    : result (fault WorkflowRunError) (bool * (RunBudgets * N)) :=
  let operand_bytes (absent : N) :=
    match operand with Some v => fallible (bounded_value_bytes v) | None => Ok absent end in
  array_bytes ← match operation with
                | WAppend =>
                    bytes ← fallible (bounded_value_bytes current);
                    more ← operand_bytes 0;
                    Ok (Some (bytes + more + N.b2n (nonempty_array current)))
                | WExtend =>
                    bytes ← fallible (bounded_value_bytes current);
                    more ← operand_bytes 2;
                    Ok (Some (bytes + (more - 2) +
                              N.b2n (nonempty_array current && match operand with Some v => nonempty_array v | None => false end)))
                | WRemoveFirst | WRemoveLast => bytes ← fallible (bounded_value_bytes current); Ok (Some bytes)
                | _ => Ok None
                end;
  match array_bytes with
  | Some bytes => st ← retain_bytes bytes st; Ok (true, st)
  | None => Ok (false, st)
  end.
End values.

(** [f64] and [serde_json]'s numbers *)
Class Floats := {
  float : Type;
  as_f64 : json_number → option float;
  float_add : float → float → float;
  float_sub : float → float → float;
  float_mul : float → float → float;
  float_div : float → float → float;
  float_is_zero : float → bool;
  is_finite : float → bool;
  (** the [i64] of a float without a fraction below 9.0e15 *)
  integral : float → option Z;
  float_number : float → json_number;
}.

Section assign.
Context `{JsonText} `{Floats}.

Definition number (v : json) : result WorkflowRunError float :=
  ok_or (InvalidValue (lit "arithmetic needs numbers")) (match v with Number n => as_f64 n | _ => None end).

Definition missing_operand : WorkflowRunError := InvalidProgram (lit "operand").

Definition integer_number (z : Z) : json_number := if (z <? 0)%Z then NegInt z else PosInt (Z.to_N z).

Definition arithmetic (current : json) (operand : option json) (apply : float → float → option float)
    : result WorkflowRunError json :=
  operand ← ok_or missing_operand operand;
  left ← number current;
  right ← number operand;
  result ← ok_or (InvalidValue (lit "the arithmetic has no finite result"))
             (r ← apply left right; if is_finite r then Some r else None);
  Ok (Number (match integral result with Some z => integer_number z | None => float_number result end)).

Definition items_of (current : json) : result WorkflowRunError (list json) :=
  ok_or (InvalidValue (lit "the variable is not an array")) (as_array current).

(** The value of a write *)
Definition assigned (operation : WorkflowWriteMode) (var_type : WorkflowVarType) (current : json) (operand : option json)
    : result WorkflowRunError json :=
  match operation with
  | WOverwrite | WSet => ok_or missing_operand operand
  | WClear => Ok (var_empty var_type)
  | WAppend => items ← items_of current; v ← ok_or missing_operand operand; Ok (Array (items ++ [v]))
  | WExtend =>
      items ← items_of current;
      match operand with
      | Some (Array more) => Ok (Array (items ++ more))
      | _ => Err (InvalidValue (lit "extend needs an array"))
      end
  | WRemoveFirst => items ← items_of current; Ok (Array (tail items))
  | WRemoveLast => items ← items_of current; Ok (Array (take (length items - 1) items))
  | WIncrement => arithmetic current operand (λ l r, Some (float_add l r))
  | WDecrement => arithmetic current operand (λ l r, Some (float_sub l r))
  | WMultiply => arithmetic current operand (λ l r, Some (float_mul l r))
  | WDivide => arithmetic current operand (λ l r, if float_is_zero r then None else Some (float_div l r))
  end.

(** [assign] *)
Definition assign (operation : WorkflowWriteMode) (var_type : WorkflowVarType) (current : json) (operand : option json)
    (st : RunBudgets * N) : result (fault WorkflowRunError) (json * (RunBudgets * N)) :=
  '(precharged, st) ← reserve_array_write operation current operand st;
  value ← fallible (assigned operation var_type current operand);
  bytes ← fallible (bounded_value_bytes value);
  st ← (if precharged : bool then shrink_to bytes st else retain_bytes bytes st);
  Ok (value, st).
End assign.

(** ** Merging writes *)

Section merge.
Context `{JsonText}.

(** [updates]: the last write to each variable, by owner *)
Definition collect_updates (writes : list (str * str * json)) : list (str * list (str * json)) :=
  foldl (λ m w, map_insert w.1.1 (map_insert w.1.2 w.2 (default [] (map_get w.1.1 m))) m) [] writes.

(** The size of an owner under its writes, one at a time. *)
Fixpoint rewritten_bytes (variables fields : list (str * json)) (bytes : N) : result (fault WorkflowRunError) N :=
  match fields with
  | [] => Ok bytes
  | (label, value) :: fields =>
      previous ← fallible (ok_or (InvalidProgram (lit "assigned variable is missing")) (map_get label variables));
      old ← fallible (bounded_value_bytes previous);
      rest ← checked_sub bytes old;
      new ← fallible (bounded_value_bytes value);
      rewritten_bytes variables fields (rest + new)
  end.

(** [extend] *)
Definition extend_map (fields variables : list (str * json)) : list (str * json) :=
  foldl (λ m x, map_insert x.1 x.2 m) variables fields.

(** One owner's merged variables, reserved. *)
Definition merge_owner (values : list (str * json)) (update : str * list (str * json)) (st : RunBudgets * N)
    : result (fault WorkflowRunError) (json * (RunBudgets * N)) :=
  current ← fallible (ok_or (InvalidProgram (lit "assigned owner is missing")) (map_get update.1 values));
  variables ← fallible (ok_or (InvalidProgram (lit "assigned owner is not an object")) (as_object current));
  previous_bytes ← fallible (bounded_value_bytes current);
  bytes ← rewritten_bytes variables update.2 previous_bytes;
  let peak := N.max previous_bytes bytes in
  st ← retain_bytes peak st;
  let merged := Object (extend_map update.2 variables) in
  _ ← fallible (bounded_value_bytes merged);
  st ← release (peak - bytes) st;
  Ok (merged, st).

Fixpoint prepare (values : list (str * json)) (updates : list (str * list (str * json))) (st : RunBudgets * N)
    : result (fault WorkflowRunError) (list (str * json) * (RunBudgets * N)) :=
  match updates with
  | [] => Ok ([], st)
  | update :: updates =>
      '(merged, st) ← merge_owner values update st;
      '(prepared, st) ← prepare values updates st;
      Ok ((update.1, merged) :: prepared, st)
  end.

(** [merge_writes]: the run's budgets, the new values and the reservation that owns them; an
    error drops the reservation and leaves the values. *)
Definition merge_writes (b : RunBudgets) (values : list (str * json)) (writes : list (str * str * json))
    : result (fault WorkflowRunError) (RunBudgets * list (str * json) * N) :=
  '(prepared, st) ← prepare values (collect_updates writes) (b, 0);
  Ok (st.1, extend_map prepared values, st.2).
End merge.

(** ** What admission promises *)

Definition within (bound : N) (b : RunBudgets) : Prop :=
  steps b <= N.min bound MAX_WORKFLOW_STEPS ∧ agents b <= MAX_WORKFLOW_AGENTS ∧ model_calls b <= MAX_WORKFLOW_MODEL_CALLS.

Lemma check_active_ok read u : check_active read = Ok u → read = None.
Proof. by destruct read. Qed.

Lemma admit_within bound agent model first last b b' :
  within bound b → admit_work bound agent model first last b = Ok b' →
  within bound b' ∧ first = None ∧ last = None ∧ steps b' = steps b + 1 ∧ agents b' = agents b + N.b2n agent ∧
  model_calls b' = model_calls b + N.b2n model ∧ retained_bytes b' = retained_bytes b ∧ reserved_bytes b' = reserved_bytes b.
Proof.
  intros (Hs & Ha & Hm) Had. unfold admit_work in Had. apply bind_ok in Had as (u1 & H1%check_active_ok & Had).
  apply bind_ok in Had as (u2 & H2%guard_err_ok & Had). apply bind_ok in Had as (u3 & H3%guard_err_ok & Had).
  apply bind_ok in Had as (u4 & H4%guard_err_ok & Had). apply bind_ok in Had as (u5 & H5%check_active_ok & [= <-]).
  apply orb_false_iff in H2 as [H2%N.leb_gt H2'%N.leb_gt]. apply N.ltb_ge in H3, H4.
  split; [|by split_and!]. unfold within. cbn. lia.
Qed.

(** ** Reservations are exact *)

Lemma retain_bytes_ok bytes st st' :
  retain_bytes bytes st = Ok st' →
  bytes <= MAX_VALUE_BYTES ∧ retained_bytes st.1 + bytes <= reserved_bytes st.1 ∧
  st' = (set_retained (retained_bytes st.1 + bytes) st.1, st.2 + bytes).
Proof.
  unfold retain_bytes. destruct (_ || _) eqn:E; [done|]. apply orb_false_iff in E as [H1%N.ltb_ge H2%N.ltb_ge].
  intros [= <-]. done.
Qed.
Lemma retain_bytes_panic bytes st : retain_bytes bytes st ≠ Err Prelude.Panic.
Proof. unfold retain_bytes. by case_match. Qed.

Lemma checked_sub_ok a c : c <= a → checked_sub a c = Ok (a - c).
Proof. intros Hc. unfold checked_sub. by rewrite (proj2 (N.leb_le _ _) Hc). Qed.

Lemma release_ok bytes st :
  bytes <= st.2 → st.2 <= retained_bytes st.1 → release bytes st = Ok (set_retained (retained_bytes st.1 - bytes) st.1, st.2 - bytes).
Proof. intros H1 H2. unfold release. rewrite (checked_sub_ok st.2) by done. cbn [mbind result_bind]. by rewrite checked_sub_ok by lia. Qed.

Lemma shrink_to_ok bytes st :
  bytes <= st.2 → st.2 <= retained_bytes st.1 →
  shrink_to bytes st = Ok (set_retained (retained_bytes st.1 - (st.2 - bytes)) st.1, bytes).
Proof.
  intros H1 H2. unfold shrink_to. rewrite checked_sub_ok by done. cbn [mbind result_bind].
  rewrite release_ok by lia. do 3 f_equal. lia.
Qed.

Lemma fallible_ok {A} (m : result WorkflowRunError A) a : fallible m = Ok a ↔ m = Ok a.
Proof. destruct m; cbn; naive_solver. Qed.
Lemma fallible_panic {A} (m : result WorkflowRunError A) : fallible m ≠ Err Prelude.Panic.
Proof. by destruct m. Qed.

Section sizes.
Context `{JsonTextLaws}.

Lemma bounded_ok v n : bounded_value_bytes v = Ok n → n = json_len v ∧ n <= MAX_VALUE_BYTES.
Proof.
  unfold bounded_value_bytes. intros Hb. apply bind_ok in Hb as (u1 & H1%guard_err_ok%N.ltb_ge & Hb).
  apply bind_ok in Hb as (u2 & _ & [= <-]). done.
Qed.

Lemma sum_app l l' : sum (l ++ l') = sum l + sum l'.
Proof. unfold sum. induction l as [|x l IH]; cbn; [done|]. rewrite IH. lia. Qed.
Lemma sum_take n l : sum (take n l) <= sum l.
Proof. rewrite <- (take_drop n l) at 2. rewrite sum_app. lia. Qed.

Lemma len_extend l l' :
  json_len (Array (l ++ l')) + 2 = json_len (Array l) + json_len (Array l') + N.b2n (nonempty_array (Array l) && nonempty_array (Array l')).
Proof using All.
  rewrite !len_array, map_app, sum_app. unfold commas. rewrite length_app. destruct l, l'; cbn; rewrite ?app_nil_r; lia.
Qed.

Lemma len_append l v : json_len (Array (l ++ [v])) = json_len (Array l) + json_len v + N.b2n (nonempty_array (Array l)).
Proof using All.
  pose proof (len_extend l [v]) as He. rewrite (len_array [v]), andb_true_r in He. unfold commas in He. cbn in He.
  unfold sum in He. cbn in He |- *. lia.
Qed.

Lemma len_sub l k n : json_len (Array (take n (drop k l))) <= json_len (Array l).
Proof using All.
  rewrite !len_array. unfold commas. rewrite length_take, length_drop, <- !firstn_map, <- !skipn_map.
  pose proof (sum_take n (drop k (map json_len l))) as Ht.
  rewrite <- (take_drop k (map json_len l)) at 2. rewrite sum_app. change (firstn n) with (take n (A := N)).
  change (skipn k) with (drop k (A := N)). lia.
Qed.
End sizes.

(** ** What the Assigner promises *)

(** The values of a type: what [var_schema] admits. *)
Definition scalar_typed (t : WorkflowVarType) (v : json) : Prop :=
  match t, v with
  | (TString | TArrayString), String _ | (TNumber | TArrayNumber), Number _
  | (TBoolean | TArrayBoolean), Bool _ | (TObject | TArrayObject), Object _ => True
  | _, _ => False
  end.
Definition typed (t : WorkflowVarType) (v : json) : Prop :=
  if is_array t then match v with Array l => Forall (scalar_typed t) l | _ => False end else scalar_typed t v.

(** What the checks of an assignment establish of its operand. *)
Definition operand_typed (operation : WorkflowWriteMode) (t : WorkflowVarType) (v : option json) : Prop :=
  match operation, v with
  | (WClear | WRemoveFirst | WRemoveLast), _ => True
  | WAppend, Some v => scalar_typed t v
  | (WIncrement | WDecrement | WMultiply | WDivide), Some v => typed TNumber v
  | (WOverwrite | WSet | WExtend), Some v => typed t v
  | _, None => False
  end.

Section assigner.
Context `{JsonTextLaws} `{Floats}.

Lemma arithmetic_number current operand apply v : arithmetic current operand apply = Ok v → ∃ n, v = Number n.
Proof using All.
  unfold arithmetic. intros Ha. repeat (apply bind_ok in Ha as (? & _ & Ha)). injection Ha as <-. eauto.
Qed.

Lemma assigned_typed operation t current operand v :
  applies_to operation t = true → typed t current → operand_typed operation t operand →
  assigned operation t current operand = Ok v → typed t v.
Proof using All.
  intros Happ Hcur Hop Ha. destruct operation; cbn [assigned applies_to operand_typed] in *;
    try (destruct operand as [o|]; [|done]); try (injection Ha as <-; done);
    try (apply bool_decide_eq_true in Happ as ->; apply arithmetic_number in Ha as [n ->]; done).
  - injection Ha as <-. destruct t; try done; constructor.
  - unfold typed in *. rewrite Happ in *. destruct current as [| | | |l|]; try done. injection Ha as <-.
    apply Forall_app. split; [done|by constructor].
  - unfold typed in *. rewrite Happ in *. destruct current as [| | | |l|]; try done. cbn in Ha. destruct o as [| | | |l'|]; try done.
    injection Ha as <-. by apply Forall_app.
  - unfold typed in *. rewrite Happ in *. destruct current as [| | | |l|]; try done. injection Ha as <-. by destruct Hcur.
  - unfold typed in *. rewrite Happ in *. destruct current as [| | | |l|]; try done. injection Ha as <-. by apply Forall_take.
Qed.

(** The charge made before an array is copied covers the result. *)
Lemma precharge_covers operation t current operand st charged st' v :
  reserve_array_write operation current operand st = Ok (charged, st') → assigned operation t current operand = Ok v →
  if charged then ∃ bytes, retain_bytes bytes st = Ok st' ∧ json_len v <= bytes else st' = st.
Proof using All.
  intros Hr Ha.
  assert (Hshort : ∀ k n l, as_array current = Some l →
    (array_bytes ← (bytes ← fallible (bounded_value_bytes current); Ok (Some bytes) : result (fault WorkflowRunError) (option N));
     match array_bytes with Some bytes => st ← retain_bytes bytes st; Ok (true, st) | None => Ok (false, st) end) = Ok (charged, st') →
    v = Array (take n (drop k l)) → if charged then ∃ bytes, retain_bytes bytes st = Ok st' ∧ json_len v <= bytes else st' = st).
  { intros k n l Hl Hb ->. apply bind_ok in Hb as (x & Hx & Hb). apply bind_ok in Hx as (y & Hy & [= <-]).
    apply bind_ok in Hb as (s & Hs & [= <- <-]). apply fallible_ok, bounded_ok in Hy as [-> _]. eexists. split; [done|].
    destruct current; try done. injection Hl as ->. apply len_sub. }
  destruct operation; cbn [reserve_array_write mbind result_bind] in Hr; try (by injection Hr as <- <-); cbn [assigned] in Ha.
  - apply bind_ok in Hr as (x & Hx & Hr). apply bind_ok in Hx as (y & Hy & Hx). apply bind_ok in Hx as (z & Hz & [= <-]).
    apply bind_ok in Hr as (s & Hs & [= <- <-]). eexists. split; [done|].
    apply bind_ok in Ha as (l & Hl%ok_or_ok & Ha). apply bind_ok in Ha as (o & Ho%ok_or_ok & [= <-]). subst operand.
    apply fallible_ok, bounded_ok in Hy as [-> _], Hz as [-> _]. destruct current; try done. injection Hl as ->.
    rewrite len_append. done.
  - apply bind_ok in Hr as (x & Hx & Hr). apply bind_ok in Hx as (y & Hy & Hx). apply bind_ok in Hx as (z & Hz & [= <-]).
    apply bind_ok in Hr as (s & Hs & [= <- <-]). eexists. split; [done|].
    apply bind_ok in Ha as (l & Hl%ok_or_ok & Ha). destruct operand as [[| | | |more|]|]; try done. injection Ha as <-.
    apply fallible_ok, bounded_ok in Hy as [-> _], Hz as [-> _]. destruct current; try done. injection Hl as ->.
    pose proof (len_extend l more) as He. pose proof (len_array more) as Hm. lia.
  - apply bind_ok in Ha as (l & Hl%ok_or_ok & [= <-]). apply (Hshort 1%nat (length l) l Hl Hr).
    by rewrite (firstn_all2 (n := length l)) by (rewrite length_drop; lia); destruct l.
  - apply bind_ok in Ha as (l & Hl%ok_or_ok & [= <-]). by apply (Hshort 0%nat (length l - 1)%nat l Hl Hr).
Qed.

Lemma bind_panic {A B} (m : result (fault WorkflowRunError) A) (f : A → result (fault WorkflowRunError) B) :
  m ≠ Err Prelude.Panic → (∀ a, f a ≠ Err Prelude.Panic) → m ≫= f ≠ Err Prelude.Panic.
Proof using. intros Hm Hf [E|(a & _ & E)]%bind_err; [done|by apply Hf in E]. Qed.

Lemma reserve_panic operation current operand st : reserve_array_write operation current operand st ≠ Err Prelude.Panic.
Proof using.
  unfold reserve_array_write. apply bind_panic.
  - destruct operation; try done; repeat (apply bind_panic; [|intros ?]); destruct operand; try apply fallible_panic; done.
  - intros [bytes|]; [|done]. apply bind_panic; [apply retain_bytes_panic|done].
Qed.

(** The result of a write, and its exact charge. *)
Lemma assign_exactly operation t current operand b :
  match assign operation t current operand (b, 0) with
  | Ok (v, (b', own)) =>
      assigned operation t current operand = Ok v ∧ own = json_len v ∧
      b' = set_retained (retained_bytes b + json_len v) b
  | Err e => e ≠ Prelude.Panic
  end.
Proof using All.
  destruct (assign operation t current operand (b, 0)) as [[v [b' own]]|e] eqn:E.
  - unfold assign in E. apply bind_ok in E as ([charged st] & Hr & E). apply bind_ok in E as (v' & Hv%fallible_ok & E).
    apply bind_ok in E as (n & Hn%fallible_ok & E). apply bounded_ok in Hn as [-> _].
    apply bind_ok in E as (st' & Hst & [= -> ->]). split; [done|]. pose proof (precharge_covers _ _ _ _ _ _ _ _ Hr Hv) as Hc.
    destruct charged.
    + destruct Hc as (bytes & (_ & _ & ->)%retain_bytes_ok & Hle). cbn [fst snd] in Hst.
      rewrite shrink_to_ok in Hst by (cbn; lia). injection Hst as <- <-. cbn. split; [done|]. unfold set_retained. cbn. f_equal. lia.
    + subst st. apply retain_bytes_ok in Hst as (_ & _ & [= -> ->]). done.
  - intros ->. unfold assign in E. apply bind_err in E as [E|([charged st] & Hr & E)].
    + by apply reserve_panic in E.
    + apply bind_err in E as [E|(v & Hv%fallible_ok & E)]; [by apply fallible_panic in E|].
      apply bind_err in E as [E|(n & Hn%fallible_ok & E)]; [by apply fallible_panic in E|]. apply bounded_ok in Hn as [-> _].
      apply bind_err in E as [E|(? & _ & E)]; [|done]. pose proof (precharge_covers _ _ _ _ _ _ _ _ Hr Hv) as Hc.
      destruct charged; [|subst; by apply retain_bytes_panic in E].
      destruct Hc as (bytes & (_ & _ & ->)%retain_bytes_ok & Hle). rewrite shrink_to_ok in E by (cbn; lia). done.
Qed.
End assigner.

(** ** What the merge promises *)

(** The last write to a variable *)
Definition last_write (owner label : str) (writes : list (str * str * json)) : option json :=
  snd <$> find_first (λ w, bool_decide (w.1 = (owner, label))) (rev writes).

(** A variable of an owner among the values *)
Definition variable_of (owner label : str) (values : list (str * json)) : option json :=
  v ← map_get owner values; fields ← as_object v; map_get label fields.

Lemma find_first_cons {A} (f : A → bool) x l : find_first f (x :: l) = if f x then Some x else find_first f l.
Proof. unfold find_first. cbn. by destruct (f x). Qed.

Lemma collect_updates_get writes owner :
  (∀ label, (m ← map_get owner (collect_updates writes); map_get label m) = last_write owner label writes) ∧
  (∀ m, map_get owner (collect_updates writes) = Some m → map_sorted m) ∧ map_sorted (collect_updates writes).
Proof.
  unfold collect_updates, last_write. induction writes as [|[[o l] v] writes (IH1 & IH2 & IH3)] using rev_ind.
  - split_and!; [done..|constructor].
  - rewrite foldl_app, rev_unit. cbn [foldl fst snd].
    set (m0 := foldl _ [] writes) in *. split_and!.
    + intros label. rewrite map_get_insert, find_first_cons. cbn [fst snd]. destruct (decide (owner = o)) as [->|Ho].
      * cbn [mbind option_bind]. rewrite map_get_insert. destruct (decide (label = l)) as [->|Hl].
        -- by rewrite bool_decide_eq_true_2.
        -- rewrite bool_decide_eq_false_2 by (cbn; congruence). rewrite <- IH1. by destruct (map_get o m0).
      * rewrite bool_decide_eq_false_2 by (cbn; congruence). apply IH1.
    + intros m. rewrite map_get_insert. case_decide as Ho; [|apply IH2]. intros [= <-]. apply map_insert_sorted. subst o.
      destruct (map_get owner m0) eqn:E; [by apply IH2|constructor].
    + by apply map_insert_sorted.
Qed.

Lemma extend_map_get fields vars k : NoDup fields.*1 →
  map_get k (extend_map fields vars) = match map_get k fields with Some v => Some v | None => map_get k vars end.
Proof.
  unfold extend_map. revert vars. induction fields as [|[k' v] fields IH]; intros vars; [done|]. intros [Hk Hnd]%NoDup_cons.
  cbn [foldl fst snd]. rewrite IH by done. cbn. destruct (decide (k = k')) as [->|Hne].
  - assert (map_get k' fields = None) as ->; [|by rewrite map_get_insert, decide_True].
    destruct (map_get k' fields) eqn:E; [|done]. exfalso. apply Hk. by apply map_get_key; eexists.
  - by rewrite map_get_insert, decide_False.
Qed.

Lemma extend_map_sorted fields vars : map_sorted vars → map_sorted (extend_map fields vars).
Proof. unfold extend_map. revert vars. induction fields as [|x fields IH]; intros vars Hs; [done|]. by apply IH, map_insert_sorted. Qed.

Section merging.
Context `{JsonTextLaws}.

Lemma insert_length {V} k (v : V) m : map_sorted m → is_Some (map_get k m) → length (map_insert k v m) = length m.
Proof using.
  intros Hs Hk. rewrite <- (length_fmap fst (map_insert k v m)), <- (length_fmap fst m). f_equal.
  apply map_insert_keys; [done|]. by apply map_get_key.
Qed.

Lemma insert_sum {V} (f : str * V → N) k old v m :
  map_sorted m → map_get k m = Some old → sum (map f (map_insert k v m)) + f (k, old) = sum (map f m) + f (k, v).
Proof using.
  unfold map_sorted. induction m as [|[k' v'] m IH]; cbn; [done|]. intros [Hs Hall]%StronglySorted_inv Hk.
  pose proof (str_cmp_eq k k') as Heq. destruct (decide (k = k')) as [<-|Hne].
  - injection Hk as ->. rewrite (proj2 Heq eq_refl). cbn. lia.
  - destruct (str_cmp k k') eqn:E; [by rewrite (proj1 Heq eq_refl) in Hne| |].
    + exfalso. pose proof (proj1 (Forall_forall _ _) Hall k) as Hlt. unfold str_lt in Hlt.
      rewrite (str_cmp_antisym k k'), E in Hlt. cbn in Hlt.
      assert (Hin : k ∈ m.*1) by (apply map_get_key; by eexists). by specialize (Hlt Hin).
    + cbn. specialize (IH Hs Hk). unfold sum in *. lia.
Qed.

Lemma sum_member {A} (f : A → N) x l : x ∈ l → f x <= sum (map f l).
Proof using. induction 1 as [x l|x y l _ IH]; unfold sum in *; cbn; lia. Qed.

Lemma object_insert k old v m :
  map_sorted m → map_get k m = Some old →
  json_len (Object (map_insert k v m)) + json_len old = json_len (Object m) + json_len v.
Proof using All.
  intros Hs Hk. rewrite !len_object. unfold commas. rewrite insert_length by (by try eexists).
  pose proof (insert_sum (λ x, key_len x.1 + 1 + json_len x.2) k old v m Hs Hk) as Hi. cbn [fst snd] in Hi. lia.
Qed.

(** The incremental size is the size of the merged owner, and no subtraction underflows. *)
Lemma rewritten_exact vars fields m :
  NoDup fields.*1 → map_sorted m → (∀ k, k ∈ fields.*1 → map_get k m = map_get k vars) →
  match rewritten_bytes vars fields (json_len (Object m)) with
  | Ok n => n = json_len (Object (extend_map fields m)) ∧ ∀ k, k ∈ fields.*1 → is_Some (map_get k vars)
  | Err e => e ≠ Prelude.Panic
  end.
Proof using All.
  revert m. induction fields as [|[k v] fields IH]; intros m Hnd Hs Hk; cbn [rewritten_bytes].
  - split; [done|]. by intros k ?%not_elem_of_nil.
  - cbn in Hnd. apply NoDup_cons in Hnd as [Hnin Hnd]. destruct (map_get k vars) as [old|] eqn:Eo; [|done]. cbn [ok_or fallible map_err mbind result_bind].
    assert (Hkm : map_get k m = Some old) by (rewrite Hk; [done|cbn; constructor]).
    destruct (bounded_value_bytes old) as [n|] eqn:En; [|done]. apply bounded_ok in En as [-> _]. cbn [fallible map_err mbind result_bind].
    pose proof (object_insert k old v m Hs Hkm) as Hi.
    assert (Hle : json_len old <= json_len (Object m)).
    { rewrite len_object. apply map_get_pair, (sum_member (λ x, key_len x.1 + 1 + json_len x.2)) in Hkm. cbn [fst snd] in Hkm. lia. }
    rewrite checked_sub_ok by done. cbn [mbind result_bind]. destruct (bounded_value_bytes v) as [n|] eqn:En; [|done].
    apply bounded_ok in En as [-> _]. cbn [fallible map_err mbind result_bind].
    replace (json_len (Object m) - json_len old + json_len v) with (json_len (Object (map_insert k v m))) by lia.
    specialize (IH (map_insert k v m) Hnd (map_insert_sorted k v m Hs)).
    assert (Hk' : ∀ k', k' ∈ fields.*1 → map_get k' (map_insert k v m) = map_get k' vars).
    { intros k' Hin. rewrite map_get_insert, decide_False by (intros ->; done). apply Hk. cbn. by constructor. }
    specialize (IH Hk'). destruct (rewritten_bytes _ _ _) as [n|e]; [|done]. destruct IH as [-> Hall]. split; [done|].
    intros k' [->|Hin]%elem_of_cons; [by eexists|by apply Hall].
Qed.

(** The owners among the values keep their variables sorted. *)
Definition owners_sorted (values : list (str * json)) : Prop :=
  ∀ o m, map_get o values = Some (Object m) → map_sorted m.

Lemma merge_owner_exact values update b own :
  owners_sorted values → map_sorted update.2 → own <= retained_bytes b →
  match merge_owner values update (b, own) with
  | Ok (v, (b', own')) =>
      ∃ vars, map_get update.1 values = Some (Object vars) ∧ v = Object (extend_map update.2 vars) ∧
        (∀ k, k ∈ update.2.*1 → is_Some (map_get k vars)) ∧
        own' = own + json_len v ∧ b' = set_retained (retained_bytes b + json_len v) b ∧ retained_bytes b' <= reserved_bytes b
  | Err e => e ≠ Prelude.Panic
  end.
Proof using All.
  intros Hs Hu Hown. unfold merge_owner. destruct (map_get update.1 values) as [current|] eqn:Ec; [|done].
  cbn [ok_or fallible map_err mbind result_bind]. destruct current as [| | | | |vars]; try done. cbn [as_object ok_or fallible map_err mbind result_bind].
  destruct (bounded_value_bytes (Object vars)) as [n|] eqn:En; [|done]. apply bounded_ok in En as [-> _]. cbn [fallible map_err mbind result_bind].
  pose proof (rewritten_exact vars update.2 vars (sorted_nodup _ Hu) (Hs _ _ Ec) (λ _ _, eq_refl)) as Hr.
  destruct (rewritten_bytes vars update.2 (json_len (Object vars))) as [bytes|e]; [|exact Hr]. destruct Hr as [-> Hall].
  cbn [mbind result_bind]. destruct (retain_bytes _ (b, own)) as [st|e] eqn:Er; [|intros ->; by apply retain_bytes_panic in Er].
  apply retain_bytes_ok in Er as (_ & Hres & ->). cbn [mbind result_bind fst snd] in *.
  destruct (bounded_value_bytes (Object (extend_map update.2 vars))) as [n|] eqn:En; [|done]. cbn [fallible map_err mbind result_bind].
  rewrite release_ok by (cbn; lia). cbn [mbind result_bind fst snd set_retained retained_bytes]. exists vars. split_and!; try done; try lia.
  unfold set_retained. cbn. f_equal. lia.
Qed.

Lemma prepare_exact values updates b own :
  owners_sorted values → (∀ u, u ∈ updates → map_sorted u.2) → own <= retained_bytes b →
  match prepare values updates (b, own) with
  | Ok (prepared, (b', own')) =>
      prepared.*1 = updates.*1 ∧ own' = own + sum (map (λ x, json_len x.2) prepared) ∧
      b' = set_retained (retained_bytes b + sum (map (λ x, json_len x.2) prepared)) b ∧
      (updates ≠ [] → retained_bytes b' <= reserved_bytes b) ∧
      ∀ o v, (o, v) ∈ prepared → ∃ fields vars, (o, fields) ∈ updates ∧ map_get o values = Some (Object vars) ∧
        v = Object (extend_map fields vars) ∧ ∀ k, k ∈ fields.*1 → is_Some (map_get k vars)
  | Err e => e ≠ Prelude.Panic
  end.
Proof using All.
  intros Hs. revert b own. induction updates as [|u updates IH]; intros b own Hu Hown; cbn [prepare].
  - cbn. split_and!; try done; [lia|destruct b; unfold set_retained; cbn; f_equal; lia|by intros o v ?%not_elem_of_nil].
  - pose proof (merge_owner_exact values u b own Hs (Hu u ltac:(constructor)) Hown) as Hm.
    destruct (merge_owner values u (b, own)) as [[v [b1 own1]]|e]; [|exact Hm].
    destruct Hm as (vars & Hg & Hv & Hall & -> & -> & Hres). cbn [mbind result_bind].
    specialize (IH (set_retained (retained_bytes b + json_len v) b) (own + json_len v) (λ u' Hin, Hu u' ltac:(by constructor)) ltac:(cbn; lia)).
    destruct (prepare values updates _) as [[prepared [b2 own2]]|e]; [|exact IH].
    destruct IH as (Hf & -> & -> & Hres2 & Hall2). cbn [mbind result_bind]. split_and!.
    + cbn. by rewrite Hf.
    + cbn. unfold sum. lia.
    + unfold set_retained. cbn. f_equal. unfold sum. lia.
    + intros _. destruct updates as [|u2 updates]; [|by apply Hres2]. destruct prepared; [|done]. cbn in *. lia.
    + intros o v' [[= -> ->]|Hin]%elem_of_cons.
      * exists u.2, vars. split_and!; try done. destruct u. constructor.
      * destruct (Hall2 _ _ Hin) as (fields & vars' & Hin' & ?). exists fields, vars'. split; [by constructor|done].
Qed.
End merging.

Section merged.
Context `{JsonTextLaws}.

(** The owners with a write *)
Definition written_owners (writes : list (str * str * json)) : list str := (collect_updates writes).*1.

Lemma merge_exactly b values writes :
  owners_sorted values →
  match merge_writes b values writes with
  | Ok (b', values', own) =>
      (∀ o l, variable_of o l values' = match last_write o l writes with Some v => Some v | None => variable_of o l values end) ∧
      (∀ o l, is_Some (last_write o l writes) → is_Some (variable_of o l values)) ∧
      (∀ o, is_Some (map_get o values) → is_Some (map_get o values')) ∧
      (∀ o, o ∉ written_owners writes → map_get o values' = map_get o values) ∧
      owners_sorted values' ∧
      own = sum (map (λ o, default 0 (json_len <$> map_get o values')) (written_owners writes)) ∧
      b' = set_retained (retained_bytes b + own) b ∧ (writes ≠ [] → retained_bytes b' <= reserved_bytes b)
  | Err e => e ≠ Prelude.Panic
  end.
Proof using All.
  intros Hs. unfold merge_writes.
  assert (Hu : ∀ u, u ∈ collect_updates writes → map_sorted u.2).
  { intros [o m] Hin. destruct (collect_updates_get writes o) as (_ & H2 & H3). apply H2. apply map_get_In; [by apply sorted_nodup|done]. }
  pose proof (prepare_exact values (collect_updates writes) b 0 Hs Hu ltac:(lia)) as Hp.
  destruct (prepare values (collect_updates writes) (b, 0)) as [[prepared [b' own]]|e]; [|exact Hp].
  destruct Hp as (Hf & Hown & Hb & Hres & Hall). cbn [mbind result_bind fst snd].
  assert (Hnd : NoDup prepared.*1) by (rewrite Hf; apply sorted_nodup, (collect_updates_get writes [])).
  assert (Hget : ∀ o, map_get o (extend_map prepared values) =
    match map_get o prepared with Some v => Some v | None => map_get o values end) by (intros o; by apply extend_map_get).
  assert (Hin : ∀ o v, map_get o prepared = Some v → ∃ fields vars, map_get o (collect_updates writes) = Some fields ∧
    map_get o values = Some (Object vars) ∧ v = Object (extend_map fields vars) ∧ NoDup fields.*1 ∧ ∀ k, k ∈ fields.*1 → is_Some (map_get k vars)).
  { intros o v Hov%map_get_pair. destruct (Hall _ _ Hov) as (fields & vars & Hin & Hg & Hv & Hk). exists fields, vars.
    destruct (collect_updates_get writes o) as (_ & H2 & H3). apply map_get_In in Hin; [|by apply sorted_nodup].
    split_and!; try done. by apply sorted_nodup, H2. }
  assert (Hnone : ∀ o, map_get o prepared = None → map_get o (collect_updates writes) = None).
  { intros o Hn. destruct (map_get o (collect_updates writes)) eqn:E; [|done]. exfalso.
    assert (Hk : o ∈ prepared.*1) by (rewrite Hf; apply map_get_key; by eexists). apply map_get_key in Hk as [? Hk]. congruence. }
  split_and!.
  - intros o l. unfold variable_of. rewrite Hget. destruct (collect_updates_get writes o) as (<- & _).
    destruct (map_get o prepared) as [v|] eqn:Eo; [|by rewrite (Hnone _ Eo)].
    destruct (Hin _ _ Eo) as (fields & vars & -> & -> & -> & Hndf & _). cbn. by rewrite extend_map_get.
  - intros o l. unfold variable_of. destruct (collect_updates_get writes o) as (<- & _). intros [v Hv].
    destruct (map_get o prepared) as [w|] eqn:Eo; [|by rewrite (Hnone _ Eo) in Hv].
    destruct (Hin _ _ Eo) as (fields & vars & Hfi & -> & _ & _ & Hk). rewrite Hfi in Hv. cbn in Hv |- *.
    apply Hk, map_get_key. by eexists.
  - intros o [v Hv]. rewrite Hget. destruct (map_get o prepared); by eexists.
  - intros o Ho. rewrite Hget. destruct (map_get o prepared) as [v|] eqn:Eo; [|done]. exfalso. apply Ho. unfold written_owners.
    rewrite <- Hf. apply map_get_key. by eexists.
  - intros o m. rewrite Hget. destruct (map_get o prepared) as [v|] eqn:Eo; [|apply Hs].
    destruct (Hin _ _ Eo) as (fields & vars & _ & Hg & -> & _). intros [= <-]. apply extend_map_sorted. by apply (Hs o).
  - rewrite Hown, N.add_0_l. unfold written_owners. rewrite <- Hf, <- list_fmap_compose. f_equal.
    apply map_ext_in. intros [o v] Ho%list_elem_of_In. cbn. rewrite Hget, (map_get_In _ _ _ Hnd Ho). done.
  - rewrite Hb, Hown. done.
  - intros Hw. rewrite Hb. cbn. rewrite Hb in Hres. apply Hres. intros Hc. apply Hw.
    destruct writes as [|w writes] using rev_ind; [done|]. exfalso.
    destruct (collect_updates_get (writes ++ [w]) w.1.1) as (H1 & _). rewrite Hc in H1. specialize (H1 w.1.2). unfold last_write in H1.
    rewrite rev_unit, find_first_cons, bool_decide_eq_true_2 in H1 by (by destruct w as [[??]?]). done.
Qed.
End merged.

(** ** The properties *)

(** A Variable Assigner keeps types and charges exactly what it keeps: on a value and an
    operand of the declared types the result has the variable's type, the reservation grows
    by precisely its encoded size although arrays are charged before they are copied, and no
    subtraction underflows. *)
Theorem assign_sound `{JsonTextLaws} `{Floats} operation t current operand b :
  applies_to operation t = true → typed t current → operand_typed operation t operand →
  match assign operation t current operand (b, 0) with
  | Ok (v, (b', own)) => typed t v ∧ own = json_len v ∧ b' = set_retained (retained_bytes b + json_len v) b
  | Err e => e ≠ Prelude.Panic
  end.
Proof.
  intros Ha Hc Ho. pose proof (assign_exactly operation t current operand b) as He.
  destruct (assign operation t current operand (b, 0)) as [[v [b' own]]|e]; [|exact He].
  destruct He as (Hv & -> & ->). split; [|done]. by eapply assigned_typed.
Qed.

(** C32 Merging the writes of an Assigner sets exactly the written variables to their last
    value, each of which existed, and leaves every other value; the reservation is exactly the
    encoded size of the owners written, computed without building them, and stays within the
    run's; no subtraction underflows. *)
Theorem merge_writes_exact `{JsonTextLaws} b values writes :
  owners_sorted values →
  match merge_writes b values writes with
  | Ok (b', values', own) =>
      (∀ o l, variable_of o l values' = match last_write o l writes with Some v => Some v | None => variable_of o l values end) ∧
      (∀ o l, is_Some (last_write o l writes) → is_Some (variable_of o l values)) ∧
      (∀ o, o ∉ written_owners writes → map_get o values' = map_get o values) ∧
      own = sum (map (λ o, default 0 (json_len <$> map_get o values')) (written_owners writes)) ∧
      b' = set_retained (retained_bytes b + own) b ∧ (writes ≠ [] → retained_bytes b' <= reserved_bytes b)
  | Err e => e ≠ Prelude.Panic
  end.
Proof.
  intros Hs. pose proof (merge_exactly b values writes Hs) as Hm.
  destruct (merge_writes b values writes) as [[[b' values'] own]|e]; [|exact Hm]. tauto.
Qed.

(** ** Examples *)

Module Sizes.
Fixpoint size (v : json) : N :=
  match v with
  | Null | Bool true => 4
  | Bool false => 5
  | Number (PosInt n) => len (dec n)
  | Number (NegInt z) => 1 + len (dec (Z.abs_N z))
  | Number (Float repr) => len repr
  | String s => len s + 2
  | Array l => 2 + sum (map size l) + commas l
  | Object m => 2 + sum (map (λ x, len x.1 + 2 + 1 + size x.2) m) + commas m
  end.
#[export] Instance text_sizes : JsonText := {| json_len := size; key_len k := len k + 2 |}.
#[export] Instance text_laws : JsonTextLaws.
Proof. by split. Defined.
#[export] Instance integer_floats : Floats := {|
  float := Z;
  as_f64 n := match n with PosInt n => Some (Z.of_N n) | NegInt z => Some z | Float _ => None end;
  float_add := Z.add; float_sub := Z.sub; float_mul := Z.mul; float_div := Z.div;
  float_is_zero z := (z =? 0)%Z; is_finite _ := true; integral := Some; float_number := integer_number;
|}.
End Sizes.
Import Sizes.

Definition sample_budgets : RunBudgets :=
  {| steps := 1; agents := 0; model_calls := 0; retained_bytes := 10; reserved_bytes := 1000 |}.

Lemma assign_sound_witness :
  typed TArrayNumber (Array [Number (PosInt 7)]) ∧
  match assign WAppend TArrayNumber (Array [Number (PosInt 7)]) (Some (Number (PosInt 42))) (sample_budgets, 0) with
  | Ok (v, (b', own)) => typed TArrayNumber v ∧ own = json_len v ∧ b' = set_retained (retained_bytes sample_budgets + json_len v) sample_budgets
  | Err e => e ≠ Prelude.Panic
  end.
Proof. split; [repeat constructor|]. apply assign_sound; [vm_compute; reflexivity|repeat constructor..]. Defined.

Example append_charged :
  assign WAppend TArrayNumber (Array [Number (PosInt 7)]) (Some (Number (PosInt 42))) (sample_budgets, 0) =
  Ok (Array [Number (PosInt 7); Number (PosInt 42)], (set_retained 16 sample_budgets, 6)).
Proof. vm_compute. reflexivity. Qed.

Definition sample_values : list (str * json) := [(lit "loop", Object [(lit "a", Number (PosInt 1)); (lit "n", Number (PosInt 1))])].
Definition sample_writes : list (str * str * json) :=
  [(lit "loop", lit "n", Number (PosInt 2)); (lit "loop", lit "n", Number (PosInt 300))].

Lemma sample_values_sorted : owners_sorted sample_values.
Proof.
  intros o m Hg%map_get_pair. apply list_elem_of_singleton in Hg as [= _ ->]. repeat constructor.
Defined.

Lemma merge_writes_exact_witness :
  owners_sorted sample_values ∧
  match merge_writes sample_budgets sample_values sample_writes with
  | Ok (b', values', own) =>
      (∀ o l, variable_of o l values' = match last_write o l sample_writes with Some v => Some v | None => variable_of o l sample_values end) ∧
      (∀ o l, is_Some (last_write o l sample_writes) → is_Some (variable_of o l sample_values)) ∧
      (∀ o, o ∉ written_owners sample_writes → map_get o values' = map_get o sample_values) ∧
      own = sum (map (λ o, default 0 (json_len <$> map_get o values')) (written_owners sample_writes)) ∧
      b' = set_retained (retained_bytes sample_budgets + own) sample_budgets ∧
      (sample_writes ≠ [] → retained_bytes b' <= reserved_bytes sample_budgets)
  | Err e => e ≠ Prelude.Panic
  end.
Proof. split; [apply sample_values_sorted|]. apply merge_writes_exact. apply sample_values_sorted. Defined.

Example merge_charged :
  merge_writes sample_budgets sample_values sample_writes =
  Ok (set_retained 25 sample_budgets, [(lit "loop", Object [(lit "a", Number (PosInt 1)); (lit "n", Number (PosInt 300))])], 15).
Proof. vm_compute. reflexivity. Qed.
