(* ===== verification/WorkflowSchema.v ===== *)
(** The JSON Schemas of Workflow values ([src/src/runtime/workflow.rs],
    [workflow/defaults.rs]): the closed vocabulary a Workflow may use, the proof that every
    value of one schema meets another, and the defaults an input is filled with.

    [jsonschema]'s validator is third party: the class [Validator] is what the sources call,
    [JsonSchema] what JSON Schema documents of it for the schemas of this vocabulary.  The
    source compares numbers in [const] and [enum] as the validator does, so the laws speak of
    the validator's own equality of values.  The unlimited policy of the compiler is taken for
    the [admit] callback of the compatibility proof.  A diagnostic is kept without the names
    formatted into it. *)

From S2P Require Import Message Attempt Prelude Text Json Workflow WorkflowGraph WorkflowBudget.
From stdpp Require Import options.
Open Scope N_scope.

(** [jsonschema::Validator]: why [new] refuses a schema, and [is_valid] *)
Class Validator := {
  schema_error : json → option str;
  is_valid : json → json → bool;
}.

(** ** Reading schemas *)

Definition schema_type (s : json) : option str := get (lit "type") s ≫= as_str.
Definition type_is (t : string) (s : json) : bool := bool_decide (schema_type s = Some (lit t)).
Definition members (k : string) (s : json) : list (str * json) := default [] (get (lit k) s ≫= as_object).
(** [additionalProperties] is [false] *)
Definition closed (s : json) : bool := bool_decide (get (lit "additionalProperties") s = Some (Bool false)).

(** [schema_required] *)
Definition schema_required (s : json) : gset str :=
  list_to_set (omap as_str (default [] (get (lit "required") s ≫= as_array))).

(** [finite_schema_values] *)
Definition finite_schema_values (s : json) : option (list json) :=
  match get (lit "const") s with
  | Some constant =>
      match get (lit "enum") s with
      | Some (Array values) => if bool_decide (constant ∈ values) then Some [constant] else None
      | _ => Some [constant]
      end
  | None => get (lit "enum") s ≫= as_array
  end.

(** [schema_alternatives] *)
Definition schema_alternatives (s : json) : option (list json) :=
  match s with Object [(k, v)] => if decide (k = lit "anyOf") then as_array v else None | _ => None end.

(** [schema_forbids_property] *)
Definition schema_forbids_property (s : json) (key : str) : bool :=
  type_is "object" s && closed s &&
  match get (lit "properties") s ≫= get key with Some _ => false | None => true end.

(** ** The vocabulary *)

Definition WORKFLOW_SCHEMA_KEYWORDS : list str :=
  map lit ["additionalProperties"; "const"; "default"; "description"; "enum"; "items"; "maxLength"; "properties"; "required"; "type"]%string.
Definition WORKFLOW_SCHEMA_TYPES : list str :=
  map lit ["array"; "boolean"; "integer"; "null"; "number"; "object"; "string"]%string.
Definition SCHEMA_DESCRIPTION_BYTES_MAX : N := 4096.

Definition bad_schema (detail : string) : WorkflowCompileError := InvalidSchema (lit detail).
Definition has (k : string) (m : list (str * json)) : bool := bool_decide (is_Some (map_get (lit k) m)).

Section vocabulary.
Context `{JsonText} `{Validator}.

(** The keywords that do not depend on the kind: the vocabulary, [type], [description],
    [const], [enum], [maxLength], [default]. *)
Definition check_finite (m : list (str * json)) : result WorkflowCompileError () :=
  _ ← match map_get (lit "enum") m with
      | Some e =>
          values ← ok_or (bad_schema "enum must be a non-empty array") (as_array e);
          guard_err (bool_decide (values = []) || negb (bool_decide (NoDup values))) (bad_schema "enum must contain unique values")
      | None => Ok ()
      end;
  match map_get (lit "const") m, map_get (lit "enum") m with
  | Some constant, Some (Array values) =>
      guard_err (negb (bool_decide (constant ∈ values))) (bad_schema "const must be included in enum")
  | _, _ => Ok ()
  end.

Definition check_max_length (kind : str) (m : list (str * json)) : result WorkflowCompileError () :=
  match map_get (lit "maxLength") m with
  | Some n =>
      _ ← guard_err (negb (bool_decide (kind = lit "string"))) (bad_schema "maxLength is only valid for string schemas");
      guard_err (negb (match as_u64 n with Some n => (1 <=? n) && (n <=? MAX_VALUE_BYTES) | None => false end))
        (at_path (lit "maxLength") (bad_schema "maxLength must be an integer from 1 to 65536"))
  | None => Ok ()
  end.

Definition check_default (m : list (str * json)) : result WorkflowCompileError () :=
  match map_get (lit "default") m with
  | Some value =>
      let constraint := Object (map_remove (lit "default") m) in
      guard_err (negb (bool_decide (schema_error constraint = None) && is_valid constraint value))
        (at_path (lit "default") (bad_schema "default does not satisfy its own schema"))
  | None => Ok ()
  end.

Definition finite_values (m : list (str * json)) : list json :=
  option_list (map_get (lit "const") m) ++ option_list (map_get (lit "default") m) ++
  default [] (map_get (lit "enum") m ≫= as_array).

Definition check_keywords (m : list (str * json)) : result WorkflowCompileError str :=
  _ ← guard_err (existsb (λ x, negb (bool_decide (x.1 ∈ WORKFLOW_SCHEMA_KEYWORDS))) m) (bad_schema "unsupported keyword");
  kind ← ok_or (bad_schema "must declare one string type") (map_get (lit "type") m ≫= as_str);
  _ ← guard_err (match map_get (lit "description") m with
                 | Some d => match as_str d with Some t => SCHEMA_DESCRIPTION_BYTES_MAX <? len t | None => true end
                 | None => false
                 end)
        (at_path (lit "description") (bad_schema "schema description must be a string of at most 4096 UTF-8 bytes"));
  _ ← guard_err (negb (bool_decide (kind ∈ WORKFLOW_SCHEMA_TYPES))) (bad_schema "unsupported type");
  _ ← guard_err (bool_decide (kind ∈ [lit "integer"; lit "number"]) && (has "const" m || has "enum" m))
        (bad_schema "numeric const/enum are outside the conservative static subset");
  _ ← check_finite m;
  _ ← check_max_length kind m;
  _ ← check_default m;
  _ ← try_for_each (λ v, map_err (λ _, bad_schema "finite value") (_ ← bounded_value_bytes v; Ok ())) (finite_values m);
  Ok kind.

(** The names in [required]: strings, declared and distinct *)
Fixpoint check_required (properties : list (str * json)) (seen : list str) (names : list json) : result WorkflowCompileError () :=
  match names with
  | [] => Ok ()
  | name :: names =>
      name ← ok_or (bad_schema "required must be a string") (as_str name);
      _ ← guard_err (negb (bool_decide (is_Some (map_get name properties)))) (bad_schema "required field has no property schema");
      _ ← guard_err (bool_decide (name ∈ seen)) (bad_schema "required contains duplicate field");
      check_required properties (name :: seen) names
  end.

Definition forbids (ks : list string) (detail : string) (m : list (str * json)) : result WorkflowCompileError () :=
  guard_err (existsb (λ k, has k m) ks) (bad_schema detail).

(** The keywords of one kind; [check] is the recursion. *)
Definition check_object (check : json → result WorkflowCompileError ()) (m : list (str * json)) : result WorkflowCompileError () :=
  _ ← match map_get (lit "properties") m with
      | Some p =>
          ps ← ok_or (bad_schema "properties must be an object") (as_object p);
          try_for_each (λ x, map_err (at_path (lit "properties." ++ x.1)) (check x.2)) ps
      | None => Ok ()
      end;
  _ ← match map_get (lit "required") m with
      | Some r =>
          names ← ok_or (bad_schema "required must be an array of property names") (as_array r);
          check_required (members "properties" (Object m)) [] names
      | None => Ok ()
      end;
  _ ← match map_get (lit "additionalProperties") m with
      | Some a => guard_err (match a with Bool _ => false | _ => true end) (bad_schema "additionalProperties must be boolean")
      | None => Ok ()
      end;
  forbids ["items"%string] "items is only valid for array schemas" m.

Definition check_array (check : json → result WorkflowCompileError ()) (m : list (str * json)) : result WorkflowCompileError () :=
  _ ← match map_get (lit "items") m with
      | Some items =>
          _ ← ok_or (bad_schema "items must be one schema object") (as_object items);
          map_err (at_path (lit "items")) (check items)
      | None => Ok ()
      end;
  forbids ["properties"; "required"; "additionalProperties"]%string "only valid for object schemas" m.

(** [validate_workflow_schema_at], with the levels below [MAX_VALUE_DEPTH] left *)
Fixpoint validate_workflow_schema_at (levels : nat) (schema : json) : result WorkflowCompileError () :=
  match levels with
  | O => Err (bad_schema "schema depth exceeded")
  | S levels =>
      m ← ok_or (bad_schema "workflow schema must be an object") (as_object schema);
      kind ← check_keywords m;
      if decide (kind = lit "object") then check_object (validate_workflow_schema_at levels) m
      else if decide (kind = lit "array") then check_array (validate_workflow_schema_at levels) m
      else forbids ["properties"; "required"; "additionalProperties"; "items"]%string "incompatible with scalar type" m
  end.

(** [validate_workflow_schema] *)
Definition validate_workflow_schema (schema : json) : result WorkflowCompileError () :=
  validate_workflow_schema_at (N.to_nat (MAX_VALUE_DEPTH + 1)) schema.

(** [validate_root_schema] *)
Definition validate_root_schema (schema : json) : result WorkflowCompileError () :=
  _ ← validate_workflow_schema schema;
  _ ← guard_err (negb (type_is "object" schema)) (bad_schema "workflow schema must have root type object");
  match schema_error schema with Some e => Err (InvalidSchema e) | None => Ok () end.

(** [validate_commit] *)
Definition validate_commit (schema v : json) : result WorkflowRunError () :=
  _ ← match schema_error schema with Some e => Err (InvalidValue e) | None => Ok () end;
  guard_err (negb (is_valid schema v)) (InvalidValue (lit "block commit violates frozen schema")).
End vocabulary.

(** ** Compatibility *)

(** A loop that answers at the first refusal, or at the first success; [None] is a search
    out of fuel. *)
Section search.
Context {A : Type} (f : A → option bool).

Fixpoint all_of (l : list A) : option bool :=
  match l with [] => Some true | x :: l => b ← f x; if b : bool then all_of l else Some false end.
Fixpoint any_of (l : list A) : option bool :=
  match l with [] => Some false | x :: l => b ← f x; if b : bool then Some true else any_of l end.
End search.

Section compatible.
Context `{Validator}.

Definition type_compatible (actual expected : str) : bool :=
  bool_decide (actual = expected) || bool_decide (actual = lit "integer") && bool_decide (expected = lit "number").

Definition length_compatible (actual expected : json) : bool :=
  match get (lit "maxLength") expected ≫= as_u64 with
  | Some expected_max =>
      match get (lit "maxLength") actual ≫= as_u64 with Some actual_max => actual_max <=? expected_max | None => false end
  | None => true
  end.

(** The members of two object schemas; [check] is the recursion. *)
Definition object_compatible (check : json → json → option bool) (actual expected : json) : option bool :=
  let expected_properties := members "properties" expected in
  let actual_properties := members "properties" actual in
  let required := forallb (λ key, bool_decide (is_Some (map_get key actual_properties)) &&
                                  bool_decide (is_Some (map_get key expected_properties)) &&
                                  bool_decide (key ∈ schema_required actual)) (elements (schema_required expected)) in
  if negb required then Some false else
  b ← all_of (λ x, match map_get x.1 actual_properties with
                   | Some actual_property => check actual_property x.2
                   | None => Some (closed actual)
                   end) expected_properties;
  Some (b && (negb (closed expected) ||
              closed actual && negb (existsb (λ x, schema_forbids_property expected x.1) actual_properties))).

Definition items_compatible (check : json → json → option bool) (actual expected : json) : option bool :=
  match get (lit "items") actual, get (lit "items") expected with
  | Some a, Some e => check a e
  | None, Some _ => Some false
  | _, None => Some true
  end.

(** [schemas_compatible_with] *)
Fixpoint compatible_within (fuel : nat) (actual expected : json) : option bool :=
  match fuel with
  | O => None
  | S fuel =>
      match finite_schema_values actual, schema_alternatives actual, schema_alternatives expected with
      | Some values, _, _ =>
          Some (negb (bool_decide (values = [])) && bool_decide (schema_error expected = None) && forallb (is_valid expected) values)
      | None, Some alternatives, _ =>
          if decide (alternatives = []) then Some false else all_of (λ a, compatible_within fuel a expected) alternatives
      | None, None, Some alternatives => any_of (compatible_within fuel actual) alternatives
      | None, None, None =>
          match finite_schema_values expected, schema_type actual, schema_type expected with
          | None, Some actual_type, Some expected_type =>
              if negb (type_compatible actual_type expected_type) || negb (length_compatible actual expected) then Some false
              else if decide (expected_type = lit "object") then object_compatible (compatible_within fuel) actual expected
              else if decide (expected_type = lit "array") then items_compatible (compatible_within fuel) actual expected
              else Some true
          | _, _, _ => Some false
          end
      end
  end.

(** [schemas_compatible] *)
Definition schemas_compatible (actual expected : json) : bool :=
  default false (compatible_within (S (N.to_nat (value_depth actual + value_depth expected))) actual expected).
End compatible.

(** ** Defaults *)

(** [schema_with_defaults_required] *)
Fixpoint schema_with_defaults_required (schema : json) : json :=
  match schema with
  | Object m =>
      let filled := map (λ x, (x.1, match x.2 with
        | Object ps => if decide (x.1 = lit "properties") then Object (map (λ p, (p.1, schema_with_defaults_required p.2)) ps)
                       else if decide (x.1 = lit "items") then schema_with_defaults_required x.2 else x.2
        | _ => x.2
        end)) m in
      let defaulted := map fst (filter (λ p, is_Some (get (lit "default") p.2)) (members "properties" schema)) in
      Object (match defaulted with
              | [] => filled
              | _ => let required := ascending (schema_required schema) in
                     map_insert (lit "required")
                       (Array (map String (required ++ filter (λ name, name ∉ required) defaulted))) filled
              end)
  | _ => schema
  end.

(** The normalization budget *)
Record Budget := { bytes : N; work : N }.
Definition MAX_NORMALIZATION_WORK : N := 65536.
Definition exceeded : WorkflowRunError := LimitExceeded RetainedData.

(** [visit], with its check of the depth left to [normalize] *)
Definition visit (b : Budget) : result WorkflowRunError Budget :=
  _ ← guard_err (work b =? MAX_NORMALIZATION_WORK) exceeded; Ok {| bytes := bytes b; work := work b + 1 |}.

Definition charge (n : N) (b : Budget) : result WorkflowRunError Budget :=
  _ ← guard_err (MAX_VALUE_BYTES - bytes b <? n) exceeded; Ok {| bytes := bytes b + n; work := work b |}.

Section normalize.
Context `{JsonText}.

(** The comma, the colon and the name of a member *)
Definition property (name : str) (first : bool) (b : Budget) : result WorkflowRunError Budget :=
  b ← charge (N.b2n (negb first) + 1) b; charge (key_len name) b.

Definition is_empty_list {A} (l : list A) : bool := match l with [] => true | _ => false end.

Section steps.
Variable normal : option json → json → Budget → result WorkflowRunError (json * Budget).

(** The members that are present *)
Fixpoint normal_fields (properties : option (list (str * json))) (fields done : list (str * json)) (b : Budget)
    : result WorkflowRunError (list (str * json) * Budget) :=
  match fields with
  | [] => Ok (done, b)
  | (name, field) :: fields =>
      b ← property name (is_empty_list done) b;
      '(field, b) ← normal (properties ≫= map_get name) field b;
      normal_fields properties fields (map_insert name field done) b
  end.

(** The defaults of the members that are absent *)
Fixpoint normal_defaults (fields properties done : list (str * json)) (b : Budget)
    : result WorkflowRunError (list (str * json) * Budget) :=
  match properties with
  | [] => Ok (done, b)
  | (name, p) :: properties =>
      b ← visit b;
      match map_get name fields, get (lit "default") p with
      | None, Some value =>
          b ← property name (is_empty_list done) b;
          '(field, b) ← normal (Some p) value b;
          normal_defaults fields properties (map_insert name field done) b
      | _, _ => normal_defaults fields properties done b
      end
  end.

Fixpoint normal_items (schema : option json) (items done : list json) (b : Budget)
    : result WorkflowRunError (list json * Budget) :=
  match items with
  | [] => Ok (done, b)
  | item :: items =>
      b ← charge (N.b2n (negb (is_empty_list done))) b;
      '(item, b) ← normal schema item b;
      normal_items schema items (done ++ [item]) b
  end.
End steps.

(** [normalize], with the levels below [MAX_VALUE_DEPTH] left *)
Fixpoint normalize (levels : nat) (schema : option json) (value : json) (b : Budget) : result WorkflowRunError (json * Budget) :=
  match levels with
  | O => Err exceeded
  | S levels =>
      b ← visit b;
      match value with
      | Object fields =>
          b ← charge 2 b;
          let properties := s ← schema; get (lit "properties") s ≫= as_object in
          '(done, b) ← normal_fields (normalize levels) properties fields [] b;
          '(done, b) ← normal_defaults (normalize levels) fields (default [] properties) done b;
          Ok (Object done, b)
      | Array items =>
          b ← charge 2 b;
          '(done, b) ← normal_items (normalize levels) (schema ≫= get (lit "items")) items [] b;
          Ok (Array done, b)
      | _ => b ← charge (json_len value) b; Ok (value, b)
      end
  end.

(** [apply_schema_defaults] *)
Definition apply_schema_defaults (schema value : json) : result WorkflowRunError json :=
  '(value, _) ← normalize (N.to_nat (MAX_VALUE_DEPTH + 1)) (Some schema) value {| bytes := 0; work := 0 |}; Ok value.
End normalize.

(** ** What JSON Schema documents *)

(** The schemas of the vocabulary, and the pure unions of derived contracts *)
Inductive supported : json → Prop :=
| supported_union l : (∀ s, s ∈ l → supported s) → supported (Object [(lit "anyOf", Array l)])
| supported_plain m t :
    (∀ k, k ∈ m.*1 → k ∈ WORKFLOW_SCHEMA_KEYWORDS) →
    map_get (lit "type") m = Some (String t) → t ∈ WORKFLOW_SCHEMA_TYPES →
    (∀ e, map_get (lit "enum") m = Some e → ∃ l, e = Array l ∧ ∀ c, map_get (lit "const") m = Some c → c ∈ l) →
    (∀ n, map_get (lit "maxLength") m = Some n → ∃ k, n = Number (PosInt k)) →
    (∀ p, map_get (lit "properties") m = Some p → ∃ ps, p = Object ps) →
    (∀ ps k p, map_get (lit "properties") m = Some (Object ps) → map_get k ps = Some p → supported p) →
    (∀ r, map_get (lit "required") m = Some r → ∃ ks, r = Array (map String ks)) →
    (∀ a, map_get (lit "additionalProperties") m = Some a → ∃ b, a = Bool b) →
    (∀ s, map_get (lit "items") m = Some s → supported s) →
    supported (Object m).

Section documented.
Context `{Validator} (equal : relation json) (whole : str → Prop).

(** [type]: an integer is a number without a fraction. *)
Definition has_type (t : str) (v : json) : Prop :=
  match v with
  | Null => t = lit "null"
  | Bool _ => t = lit "boolean"
  | Number n => t = lit "number" ∨ t = lit "integer" ∧ match n with Float r => whole r | _ => True end
  | String _ => t = lit "string"
  | Array _ => t = lit "array"
  | Object _ => t = lit "object"
  end.

(** The assertions of a schema, keyword by keyword; [maxLength] counts characters. *)
Record meets (s v : json) : Prop := {
  meets_type t : get (lit "type") s = Some (String t) → has_type t v;
  meets_const c : get (lit "const") s = Some c → equal v c;
  meets_enum l : get (lit "enum") s = Some (Array l) → ∃ c, c ∈ l ∧ equal v c;
  meets_length n text : get (lit "maxLength") s = Some (Number (PosInt n)) → v = String text → N.of_nat (length text) <= n;
  meets_required names fields k :
    get (lit "required") s = Some (Array names) → v = Object fields → String k ∈ names → is_Some (map_get k fields);
  meets_properties ps fields k p x :
    get (lit "properties") s = Some (Object ps) → v = Object fields → map_get k ps = Some p → map_get k fields = Some x →
    is_valid p x = true;
  meets_closed fields k x :
    closed s = true → v = Object fields → map_get k fields = Some x → is_Some (map_get k (members "properties" s));
  meets_items s' l x : get (lit "items") s = Some s' → v = Array l → x ∈ l → is_valid s' x = true;
  meets_union l : get (lit "anyOf") s = Some (Array l) → ∃ s', s' ∈ l ∧ is_valid s' v = true;
}.
End documented.

(** The documented behaviour of the validator, up to its equality of values *)
Class JsonSchema `{Validator} := {
  equal : relation json;
  whole : str → Prop;
  equal_equivalence :: Equivalence equal;
  is_valid_proper :: Proper ((=) ==> equal ==> (=)) is_valid;
  is_valid_iff s v : supported s → is_valid s v = true ↔ meets equal whole s v;
}.

(** ** Depths and fuel *)

Lemma depth_item v l : v ∈ l → value_depth v < value_depth (Array l).
Proof.
  cbn. induction l as [|x l IH]; [by intros ?%not_elem_of_nil|]. cbn. intros [->|Hv]%elem_of_cons; [lia|].
  specialize (IH Hv). lia.
Qed.
Lemma depth_member k v m : map_get k m = Some v → value_depth v < value_depth (Object m).
Proof.
  cbn. induction m as [|[k' x] m IH]; cbn; [done|]. case_decide; [intros [= ->]; lia|]. intros Hv. specialize (IH Hv). lia.
Qed.
Lemma depth_get k v s : get k s = Some v → value_depth v < value_depth s.
Proof. destruct s; try done. apply depth_member. Qed.

Lemma depth_entry k v m : (k, v) ∈ m → value_depth v < value_depth (Object m).
Proof.
  cbn. induction m as [|[k' x] m IH]; [by intros ?%not_elem_of_nil|]. cbn.
  intros [[= <- <-]|Hv]%elem_of_cons; [lia|]. specialize (IH Hv). lia.
Qed.

Lemma members_entry k key v s : (key, v) ∈ members k s → value_depth v < value_depth s.
Proof.
  unfold members. destruct (get (lit k) s) as [p|] eqn:Hp; cbn; [|by intros ?%not_elem_of_nil].
  destruct p as [| | | | |ps]; cbn; try by intros ?%not_elem_of_nil.
  intros Hv%depth_entry. apply depth_get in Hp. lia.
Qed.
Lemma members_get k key v s : map_get key (members k s) = Some v → value_depth v < value_depth s.
Proof. intros Hv%map_get_pair. by eapply members_entry. Qed.

Lemma alternatives_shape s l : schema_alternatives s = Some l → s = Object [(lit "anyOf", Array l)].
Proof.
  destruct s as [| | | | |[|[k v] [|]]]; try done. cbn. case_decide; [|done]. destruct v; try done. intros [= ->]. by subst.
Qed.
Lemma depth_alternative s l a : schema_alternatives s = Some l → a ∈ l → value_depth a < value_depth s.
Proof.
  intros ->%alternatives_shape Ha%depth_item. change (value_depth (Object [(lit "anyOf", Array l)])) with (N.max (value_depth (Array l) + 1) 0). lia.
Qed.

Lemma all_of_some {A} (f : A → option bool) l : (∀ x, x ∈ l → is_Some (f x)) → is_Some (all_of f l).
Proof.
  induction l as [|x l IH]; cbn; [by eexists|]. intros Hl. destruct (Hl x) as [b ->]; [by constructor|]. cbn.
  destruct b; [|by eexists]. apply IH. intros y Hy. apply Hl. by constructor.
Qed.
Lemma any_of_some {A} (f : A → option bool) l : (∀ x, x ∈ l → is_Some (f x)) → is_Some (any_of f l).
Proof.
  induction l as [|x l IH]; cbn; [by eexists|]. intros Hl. destruct (Hl x) as [b ->]; [by constructor|]. cbn.
  destruct b; [by eexists|]. apply IH. intros y Hy. apply Hl. by constructor.
Qed.

Lemma all_of_mono {A} (f g : A → option bool) l r :
  (∀ x b, f x = Some b → g x = Some b) → all_of f l = Some r → all_of g l = Some r.
Proof.
  intros Hfg. induction l as [|x l IH]; cbn; [done|]. destruct (f x) as [b|] eqn:Hx; cbn; [|done].
  rewrite (Hfg x b Hx). cbn. by destruct b.
Qed.
Lemma any_of_mono {A} (f g : A → option bool) l r :
  (∀ x b, f x = Some b → g x = Some b) → any_of f l = Some r → any_of g l = Some r.
Proof.
  intros Hfg. induction l as [|x l IH]; cbn; [done|]. destruct (f x) as [b|] eqn:Hx; cbn; [|done].
  rewrite (Hfg x b Hx). cbn. by destruct b.
Qed.

Lemma all_of_true {A} (f : A → option bool) l : all_of f l = Some true → ∀ x, x ∈ l → f x = Some true.
Proof.
  induction l as [|x l IH]; cbn; [by intros _ x ?%not_elem_of_nil|]. destruct (f x) as [[|]|] eqn:Hx; cbn; try done.
  intros Hl y [->|Hy]%elem_of_cons; auto.
Qed.
Lemma any_of_true {A} (f : A → option bool) l : any_of f l = Some true → ∃ x, x ∈ l ∧ f x = Some true.
Proof.
  induction l as [|x l IH]; cbn; [done|]. destruct (f x) as [[|]|] eqn:Hx; cbn; try done.
  - intros _. exists x. split; [constructor|done].
  - intros (y & Hy & Hf)%IH. exists y. split; [by constructor|done].
Qed.

Section fuel.
Context `{Validator}.

Lemma object_compatible_some check actual expected :
  (∀ a e, value_depth a < value_depth actual → value_depth e < value_depth expected → is_Some (check a e)) →
  is_Some (object_compatible check actual expected).
Proof.
  intros Hc. unfold object_compatible. case_match; [by eexists|].

  match goal with |- is_Some (all_of ?f ?l ≫= _) => destruct (all_of_some f l) as [b ->]; [|by eexists] end.
  intros [k e] He. cbn. destruct (map_get k (members "properties" actual)) as [a|] eqn:Ha; [|by eexists].
  apply Hc; [by eapply members_get|by eapply members_entry].
Qed.

(** The search decides within the depths of the two schemas. *)
Lemma compatible_some fuel actual expected :
  value_depth actual + value_depth expected < N.of_nat fuel → is_Some (compatible_within fuel actual expected).
Proof.
  revert actual expected. induction fuel as [|fuel IH]; intros actual expected Hd; [lia|]. cbn [compatible_within].
  destruct (finite_schema_values actual); [by eexists|].
  destruct (schema_alternatives actual) as [l|] eqn:Hl.
  { case_decide; [by eexists|]. apply all_of_some. intros a Ha. apply IH. apply (depth_alternative _ _ _ Hl) in Ha. lia. }
  destruct (schema_alternatives expected) as [l'|] eqn:Hl'.
  { apply any_of_some. intros e He. apply IH. apply (depth_alternative _ _ _ Hl') in He. lia. }
  destruct (finite_schema_values expected), (schema_type actual), (schema_type expected); try by eexists.
  case_match; [by eexists|]. case_decide.
  { apply object_compatible_some. intros a e ??. apply IH. lia. }
  case_decide; [|by eexists]. unfold items_compatible.
  destruct (get (lit "items") actual) as [a|] eqn:Ha, (get (lit "items") expected) as [e|] eqn:He; try by eexists.
  apply depth_get in Ha, He. apply IH. lia.
Qed.

Lemma object_compatible_mono (f g : json → json → option bool) actual expected r :
  (∀ a e b, f a e = Some b → g a e = Some b) →
  object_compatible f actual expected = Some r → object_compatible g actual expected = Some r.
Proof.
  intros Hfg. unfold object_compatible. case_match; [done|].
  match goal with |- all_of ?f ?l ≫= _ = _ → _ => destruct (all_of f l) as [b|] eqn:Hb; [|done] end.
  intros Hr. eapply all_of_mono in Hb; [by rewrite Hb|]. intros [k e] b'. cbn. destruct (map_get k _); auto.
Qed.

Lemma compatible_step fuel actual expected r :
  compatible_within fuel actual expected = Some r → compatible_within (S fuel) actual expected = Some r.
Proof.
  revert actual expected r. induction fuel as [|fuel IH]; intros actual expected r; [done|].
  set (n := S fuel) at 2. cbn [compatible_within]. subst n.
  destruct (finite_schema_values actual); [done|]. destruct (schema_alternatives actual).
  { case_decide; [done|]. apply all_of_mono. auto. }
  destruct (schema_alternatives expected); [apply any_of_mono; auto|].
  destruct (finite_schema_values expected), (schema_type actual), (schema_type expected); try done.
  case_match; [done|]. case_decide; [apply object_compatible_mono; auto|].
  case_decide; [|done]. unfold items_compatible. destruct (get _ actual), (get _ expected); auto.
Qed.

Lemma compatible_more n fuel actual expected r :
  compatible_within fuel actual expected = Some r → compatible_within (n + fuel) actual expected = Some r.
Proof. intros Hr. induction n as [|n IH]; [done|]. by apply compatible_step. Qed.

(** The answer is the one of the search with any fuel that finds one. *)
Lemma schemas_compatible_fuel fuel actual expected r :
  compatible_within fuel actual expected = Some r → schemas_compatible actual expected = r.
Proof.
  unfold schemas_compatible. set (k := S _). destruct (compatible_some k actual expected) as [r' Hr']; [lia|].
  intros Hr. rewrite Hr'. cbn. apply (compatible_more k) in Hr. apply (compatible_more fuel) in Hr'.
  rewrite Nat.add_comm in Hr'. congruence.
Qed.
End fuel.

(** ** Reading supported schemas *)

Ltac no_union := by (cbv; intros; discriminate).

Lemma supported_enum s e :
  supported s → get (lit "enum") s = Some e → ∃ l, e = Array l ∧ ∀ c, get (lit "const") s = Some c → c ∈ l.
Proof. destruct 1; [no_union|]. eauto. Qed.
Lemma supported_length s n : supported s → get (lit "maxLength") s = Some n → ∃ k, n = Number (PosInt k).
Proof. destruct 1; [no_union|]. eauto. Qed.
Lemma supported_object s p : supported s → get (lit "properties") s = Some p → p = Object (members "properties" s).
Proof.
  destruct 1 as [|m t]; [no_union|]. unfold members. cbn [get]. intros Hp.
  destruct (H4 p Hp) as [ps ->]. by rewrite Hp.
Qed.
Lemma supported_member s k p : supported s → map_get k (members "properties" s) = Some p → supported p.
Proof.
  intros Hs. unfold members. destruct (get (lit "properties") s) as [[| | | | |ps]|] eqn:Hp; cbn; try done.
  destruct Hs; [by revert Hp; cbv; discriminate|]. eauto.
Qed.
Lemma supported_required s r : supported s → get (lit "required") s = Some r → ∃ ks, r = Array (map String ks).
Proof. destruct 1; [no_union|]. eauto. Qed.
Lemma supported_items s i : supported s → get (lit "items") s = Some i → supported i.
Proof. destruct 1; [no_union|]. eauto. Qed.
Lemma supported_alternatives s l : supported s → schema_alternatives s = Some l → ∀ a, a ∈ l → supported a.
Proof.
  intros Hs ->%alternatives_shape. inversion Hs as [? Hl|m t Hk]; subst; [done|]. exfalso.
  assert (Hin : lit "anyOf" ∈ WORKFLOW_SCHEMA_KEYWORDS) by (apply Hk; constructor). revert Hin.
  apply (bool_decide_eq_false_1 (lit "anyOf" ∈ WORKFLOW_SCHEMA_KEYWORDS)). by vm_compute.
Qed.
(** A supported schema is a union or declares its type. *)
Lemma supported_cases s :
  supported s → is_Some (schema_alternatives s) ∨
    schema_alternatives s = None ∧ get (lit "anyOf") s = None ∧ is_Some (schema_type s).
Proof.
  destruct 1 as [l|m t Hk Ht]; [left; eexists; by cbv|]. right.
  assert (Hnot : lit "anyOf" ∉ m.*1).
  { intros Hin%Hk. revert Hin. apply (bool_decide_eq_false_1 (lit "anyOf" ∈ WORKFLOW_SCHEMA_KEYWORDS)). by vm_compute. }
  split_and!.
  - destruct (schema_alternatives (Object m)) as [l|] eqn:Hl; [|done]. apply alternatives_shape in Hl as [= ->].
    destruct Hnot. constructor.
  - cbn [get]. destruct (map_get (lit "anyOf") m) as [x|] eqn:Hx; [|done]. apply map_get_pair in Hx.
    destruct Hnot. apply list_elem_of_fmap. by exists (lit "anyOf", x).
  - unfold schema_type. cbn [get]. rewrite Ht. by eexists.
Qed.

Lemma schema_type_get s t : schema_type s = Some t ↔ get (lit "type") s = Some (String t).
Proof. unfold schema_type. destruct (get _ s) as [[]|]; cbn; naive_solver. Qed.
Lemma type_is_spec t s : type_is t s = true ↔ schema_type s = Some (lit t).
Proof. unfold type_is. by rewrite bool_decide_eq_true. Qed.

Lemma elem_of_required s ks k :
  get (lit "required") s = Some (Array (map String ks)) → k ∈ schema_required s ↔ k ∈ ks.
Proof.
  intros Hr. unfold schema_required. rewrite Hr. cbn. rewrite elem_of_list_to_set.
  replace (omap as_str (map String ks)) with ks; [done|]. clear Hr. by induction ks as [|k' ks IH]; [|cbn; f_equal].
Qed.
Lemma required_get s k :
  supported s → k ∈ schema_required s → ∃ ks, get (lit "required") s = Some (Array (map String ks)) ∧ String k ∈ map String ks.
Proof.
  intros Hs Hk. unfold schema_required in Hk. destruct (get (lit "required") s) as [r|] eqn:Hr; [|cbn in Hk; set_solver].
  destruct (supported_required s r Hs Hr) as [ks ->]. exists ks. split; [done|].
  apply list_elem_of_fmap. exists k. split; [done|]. apply (elem_of_required s ks k Hr). unfold schema_required. by rewrite Hr.
Qed.

Section sound.
Context `{JsonSchema}.

Lemma meets_valid s v : supported s → is_valid s v = true → meets equal whole s v.
Proof using All. intros Hs. by apply is_valid_iff. Qed.

(** A value of a finite schema is one of its values. *)
Lemma finite_valid s vs v :
  supported s → finite_schema_values s = Some vs → is_valid s v = true → ∃ c, c ∈ vs ∧ equal v c.
Proof using All.
  intros Hs Hf Hv%meets_valid; [|done]. unfold finite_schema_values in Hf.
  destruct (get (lit "const") s) as [c|] eqn:Hc.
  - pose proof (meets_const _ _ _ _ Hv c Hc) as Heq. exists c. split; [|done].
    destruct (get (lit "enum") s) as [[]|]; try case_bool_decide; simplify_eq/=; constructor.
  - destruct (get (lit "enum") s) as [e|] eqn:He; [|done]. destruct e; try done. injection Hf as <-.
    by apply (meets_enum _ _ _ _ Hv).
Qed.
Lemma finite_none s : supported s → finite_schema_values s = None → get (lit "const") s = None ∧ get (lit "enum") s = None.
Proof using All.
  intros Hs. unfold finite_schema_values. destruct (get (lit "enum") s) as [e|] eqn:He.
  - destruct (supported_enum s e Hs He) as (l & -> & Hc). destruct (get (lit "const") s) as [c|]; [|done].
    case_bool_decide as Hnin; [done|]. destruct Hnin. auto.
  - by destruct (get (lit "const") s).
Qed.

(** The value as the kind of its schema says *)
Lemma valid_object s v : supported s → is_valid s v = true → schema_type s = Some (lit "object") → ∃ fields, v = Object fields.
Proof using All.
  intros Hs Hv%meets_valid Ht%schema_type_get; [|done]. apply (meets_type _ _ _ _ Hv) in Ht.
  destruct v; cbn in Ht; try (by exfalso; revert Ht; cbv); [|by eexists]; exfalso; destruct Ht as [Ht|[Ht _]]; by revert Ht; cbv.
Qed.
Lemma valid_array s v : supported s → is_valid s v = true → schema_type s = Some (lit "array") → ∃ l, v = Array l.
Proof using All.
  intros Hs Hv%meets_valid Ht%schema_type_get; [|done]. apply (meets_type _ _ _ _ Hv) in Ht.
  destruct v; cbn in Ht; try (by exfalso; revert Ht; cbv); [|by eexists]; exfalso; destruct Ht as [Ht|[Ht _]]; by revert Ht; cbv.
Qed.

Lemma type_compatible_sound t t' v : type_compatible t t' = true → has_type whole t v → has_type whole t' v.
Proof using All.
  unfold type_compatible. intros [->%bool_decide_eq_true|[->%bool_decide_eq_true ->%bool_decide_eq_true]%andb_prop]%orb_prop; [done|].
  destruct v; cbn; try (by cbv; discriminate). by left.
Qed.

Lemma object_sound check actual expected v :
  supported actual → supported expected →
  (∀ a e x, supported a → supported e → check a e = Some true → is_valid a x = true → is_valid e x = true) →
  object_compatible check actual expected = Some true → schema_type expected = Some (lit "object") → is_valid actual v = true →
  (∀ names fields k, get (lit "required") expected = Some (Array names) → v = Object fields → String k ∈ names → is_Some (map_get k fields)) ∧
  (∀ ps fields k p x, get (lit "properties") expected = Some (Object ps) → v = Object fields → map_get k ps = Some p →
     map_get k fields = Some x → is_valid p x = true) ∧
  (∀ fields k x, closed expected = true → v = Object fields → map_get k fields = Some x → is_Some (map_get k (members "properties" expected))).
Proof using All.
  intros Ha He Hcheck Hc Ht Hv. pose proof (meets_valid actual v Ha Hv) as Hm. unfold object_compatible in Hc.
  destruct (negb (forallb _ _)) eqn:Hreq; [done|]. apply negb_false_iff in Hreq. rewrite forallb_forall in Hreq.
  match type of Hc with all_of ?f ?l ≫= _ = _ => destruct (all_of f l) as [b|] eqn:Hall; [|done] end.
  injection Hc as Hc. apply andb_prop in Hc as [-> Hclosed]. pose proof (all_of_true _ _ Hall) as Hp. split_and!.
  - intros names fields k Hr -> Hk. destruct (supported_required expected _ He Hr) as [ks [= ->]].
    apply list_elem_of_fmap in Hk as (k' & [= <-] & Hk).
    assert (Hin : k ∈ schema_required expected) by by apply (elem_of_required expected ks k).
    apply elem_of_elements, list_elem_of_In in Hin. specialize (Hreq k Hin). apply andb_prop in Hreq as [_ Hka%bool_decide_eq_true].
    destruct (required_get actual k Ha Hka) as (ks' & Hr' & Hk'). by apply (meets_required _ _ _ _ Hm _ fields k Hr').
  - intros ps fields k p x Hps -> Hk Hx. assert (Hm' : members "properties" expected = ps) by (unfold members; by rewrite Hps).
    assert (Hin : (k, p) ∈ members "properties" expected) by (rewrite Hm'; by apply map_get_pair).
    specialize (Hp _ Hin). cbn in Hp. destruct (map_get k (members "properties" actual)) as [a|] eqn:Hka.
    + apply (Hcheck a p x); [by apply (supported_member actual k)|by apply (supported_member expected k); [|rewrite Hm']|done|].
      destruct (get (lit "properties") actual) as [pa|] eqn:Hpa; [|by unfold members in Hka; rewrite Hpa in Hka].
      pose proof (supported_object _ _ Ha Hpa) as ->. by apply (meets_properties _ _ _ _ Hm _ fields k a x Hpa).
    + injection Hp as Hcl. destruct (meets_closed _ _ _ _ Hm fields k x Hcl eq_refl Hx) as [? Hs]. congruence.
  - intros fields k x Hcl -> Hx. rewrite Hcl in Hclosed. cbn in Hclosed.
    apply andb_prop in Hclosed as [Hca Hno%negb_true_iff].
    destruct (meets_closed _ _ _ _ Hm fields k x Hca eq_refl Hx) as [a Hka].
    destruct (map_get k (members "properties" expected)) eqn:Hke; [by eexists|]. exfalso.
    apply not_true_iff_false in Hno. apply Hno, existsb_exists. exists (k, a).
    split; [by apply list_elem_of_In, map_get_pair|]. unfold schema_forbids_property. cbn. rewrite Hcl.
    apply type_is_spec in Ht. rewrite Ht. cbn. unfold members in Hke. destruct (get (lit "properties") expected) as [[]|]; try done.
    cbn in Hke |- *. by rewrite Hke.
Qed.

(** A schema without finite values is met when its structure is. *)
Lemma structure_valid expected v t :
  supported expected → finite_schema_values expected = None → schema_alternatives expected = None →
  schema_type expected = Some t → has_type whole t v →
  (∀ n text, get (lit "maxLength") expected = Some (Number (PosInt n)) → v = String text → N.of_nat (length text) <= n) →
  (∀ names fields k, get (lit "required") expected = Some (Array names) → v = Object fields → String k ∈ names → is_Some (map_get k fields)) →
  (∀ ps fields k p x, get (lit "properties") expected = Some (Object ps) → v = Object fields → map_get k ps = Some p →
     map_get k fields = Some x → is_valid p x = true) →
  (∀ fields k x, closed expected = true → v = Object fields → map_get k fields = Some x → is_Some (map_get k (members "properties" expected))) →
  (∀ s' l x, get (lit "items") expected = Some s' → v = Array l → x ∈ l → is_valid s' x = true) →
  is_valid expected v = true.
Proof using All.
  intros Hs Hf Hn Ht Hv Hl Hr Hp Hc Hi. apply is_valid_iff; [done|]. destruct (finite_none _ Hs Hf) as [Hconst Henum].
  apply schema_type_get in Ht. split; auto; try congruence.
  destruct (supported_cases _ Hs) as [[l Hl']|(_ & Hany & _)]; congruence.
Qed.

Lemma is_object v fields : v = Object fields → ∀ t, has_type whole t v → t = lit "object".
Proof using All. by intros -> t. Qed.
Lemma is_array_value v l : v = Array l → ∀ t, has_type whole t v → t = lit "array".
Proof using All. by intros -> t. Qed.

Lemma length_sound actual expected v :
  supported actual → supported expected → length_compatible actual expected = true → is_valid actual v = true →
  ∀ n text, get (lit "maxLength") expected = Some (Number (PosInt n)) → v = String text → N.of_nat (length text) <= n.
Proof using All.
  intros Ha He Hl Hv%meets_valid n text Hn ->; [|done]. unfold length_compatible in Hl. rewrite Hn in Hl. cbn in Hl.
  destruct (get (lit "maxLength") actual) as [m|] eqn:Hm; [|done]. destruct (supported_length actual m Ha Hm) as [k ->].
  cbn in Hl. apply N.leb_le in Hl. pose proof (meets_length _ _ _ _ Hv k text Hm eq_refl). lia.
Qed.

(** Every value of the one schema meets the other. *)
Lemma compatible_sound fuel actual expected v :
  supported actual → supported expected → compatible_within fuel actual expected = Some true →
  is_valid actual v = true → is_valid expected v = true.
Proof using All.
  revert actual expected v. induction fuel as [|fuel IH]; intros actual expected v Ha He Hc Hv; [done|].
  cbn [compatible_within] in Hc. destruct (finite_schema_values actual) as [vs|] eqn:Hf.
  { injection Hc as Hc. apply andb_prop in Hc as [_ Hall]. rewrite forallb_forall in Hall.
    destruct (finite_valid actual vs v Ha Hf Hv) as (c & Hin & ->). by apply Hall, list_elem_of_In. }
  destruct (schema_alternatives actual) as [l|] eqn:Hl.
  { case_decide; [done|]. pose proof (all_of_true _ _ Hc) as Hall. pose proof (alternatives_shape _ _ Hl) as ->.
    destruct (meets_union _ _ _ _ (meets_valid _ v Ha Hv) l) as (a & Hin & Hva); [by cbv|].
    apply (IH a); auto. by apply (supported_alternatives _ _ Ha Hl). }
  destruct (schema_alternatives expected) as [l'|] eqn:Hl'.
  { apply any_of_true in Hc as (e & Hin & Hc). pose proof (alternatives_shape _ _ Hl') as ->.
    assert (Hve : is_valid e v = true) by (apply (IH actual e); auto; by apply (supported_alternatives _ _ He Hl')).
    apply is_valid_iff; [done|]. split; try (by cbv; intros; discriminate). intros l0 Hl0. cbv in Hl0. injection Hl0 as <-. eauto. }
  destruct (finite_schema_values expected) eqn:Hfe, (schema_type actual) as [t|] eqn:Ht, (schema_type expected) as [t'|] eqn:Ht'; try done.
  destruct (negb _ || negb _) eqn:Hg; [done|]. apply orb_false_iff in Hg as [Htc%negb_false_iff Hlc%negb_false_iff].
  assert (Hty : has_type whole t' v).
  { apply (type_compatible_sound t); [done|]. by apply (meets_type _ _ _ _ (meets_valid _ _ Ha Hv)), schema_type_get. }
  pose proof (length_sound _ _ _ Ha He Hlc Hv) as Hlen. case_decide as Hobj; [|case_decide as Harr].
  - subst t'. destruct (object_sound _ _ _ _ Ha He IH Hc Ht' Hv) as (Hr & Hp & Hcl).
    apply (structure_valid _ _ _ He Hfe Hl' Ht' Hty); auto. intros s' l x _ -> _. by revert Hty; cbv.
  - subst t'. apply (structure_valid _ _ _ He Hfe Hl' Ht' Hty); auto; try (intros; subst; by revert Hty; cbv).
    intros s' l x Hs' -> Hx. unfold items_compatible in Hc. rewrite Hs' in Hc.
    destruct (get (lit "items") actual) as [a|] eqn:Hai; [|done].
    apply (IH a s'); [by apply (supported_items actual)|by apply (supported_items expected)|done|].
    by apply (meets_items _ _ _ _ (meets_valid _ _ Ha Hv) a l x Hai).
  - apply (structure_valid _ _ _ He Hfe Hl' Ht' Hty); auto; intros; subst; exfalso; eauto using is_object, is_array_value.
Qed.
End sound.

(** ** An accepted schema is supported *)

Lemma option_case_ok {E A} (o : option A) (f : A → result E ()) u :
  match o with Some a => f a | None => Ok () end = Ok u → ∀ a, o = Some a → f a = Ok ().
Proof. intros Hm a ->. by destruct u. Qed.

Section accepted.
Context `{JsonText} `{Validator}.

Lemma check_required_ok properties seen names :
  check_required properties seen names = Ok () → ∃ ks, names = map String ks.
Proof.
  revert seen. induction names as [|name names IH]; intros seen; cbn; [by exists []|].
  intros (k & Hk & Hc)%bind_ok. apply bind_ok in Hc as (_ & _ & Hc). apply bind_ok in Hc as (_ & _ & Hc).
  destruct (IH _ Hc) as [ks ->]. destruct name; try done. injection Hk as ->. by exists (k :: ks).
Qed.

Record keywords (m : list (str * json)) (kind : str) : Prop := {
  kw_known k : k ∈ m.*1 → k ∈ WORKFLOW_SCHEMA_KEYWORDS;
  kw_type : map_get (lit "type") m = Some (String kind);
  kw_kind : kind ∈ WORKFLOW_SCHEMA_TYPES;
  kw_enum e : map_get (lit "enum") m = Some e → ∃ l, e = Array l ∧ ∀ c, map_get (lit "const") m = Some c → c ∈ l;
  kw_length n : map_get (lit "maxLength") m = Some n → ∃ k, n = Number (PosInt k);
}.

Lemma check_finite_ok m e :
  check_finite m = Ok () → map_get (lit "enum") m = Some e → ∃ l, e = Array l ∧ ∀ c, map_get (lit "const") m = Some c → c ∈ l.
Proof.
  unfold check_finite. intros Hc He. rewrite He in Hc. apply bind_ok in Hc as (u & Hl & Hc).
  apply bind_ok in Hl as (l & Hl%ok_or_ok & _). destruct e; try done. injection Hl as ->. exists l. split; [done|].
  intros c Hconst. rewrite Hconst in Hc. by apply guard_err_ok, negb_false_iff, bool_decide_eq_true in Hc.
Qed.

Lemma check_keywords_ok m kind : check_keywords m = Ok kind → keywords m kind.
Proof.
  unfold check_keywords. intros Hc. apply bind_ok in Hc as (? & Hk%guard_err_ok & Hc).
  apply bind_ok in Hc as (kind' & Ht%ok_or_ok & Hc). apply bind_ok in Hc as (? & _ & Hc).
  apply bind_ok in Hc as (? & Hkind%guard_err_ok & Hc). apply bind_ok in Hc as (? & _ & Hc).
  apply bind_ok in Hc as ([] & Hfin & Hc). apply bind_ok in Hc as ([] & Hlen & Hc).
  apply bind_ok in Hc as (? & _ & Hc). apply bind_ok in Hc as (? & _ & [= ->]).
  split.
  - intros k (kv & -> & Hx)%list_elem_of_fmap. apply not_true_iff_false in Hk.
    destruct (decide (kv.1 ∈ WORKFLOW_SCHEMA_KEYWORDS)) as [|Hn]; [done|]. destruct Hk. apply existsb_exists. exists kv.
    split; [by apply list_elem_of_In|]. by rewrite bool_decide_eq_false_2.
  - destruct (map_get (lit "type") m) as [[]|]; try done. by injection Ht as ->.
  - by apply negb_false_iff, bool_decide_eq_true in Hkind.
  - intros e. by apply check_finite_ok.
  - intros n Hn. unfold check_max_length in Hlen. rewrite Hn in Hlen. apply bind_ok in Hlen as (? & _ & Hlen%guard_err_ok).
    destruct n as [| |[]| | |]; try done. by eexists.
Qed.

Lemma forbids_ok ks detail m : forbids ks detail m = Ok () → ∀ k, k ∈ ks → map_get (lit k) m = None.
Proof.
  intros Hf%guard_err_ok k Hk. destruct (map_get (lit k) m) eqn:E; [|done]. apply not_true_iff_false in Hf. destruct Hf.
  apply existsb_exists. exists k. split; [by apply list_elem_of_In|]. unfold has. rewrite E. by apply bool_decide_eq_true.
Qed.

Ltac absent Hno :=
  exfalso; match goal with Hm : map_get (lit ?k) _ = Some _ |- _ => rewrite (Hno k) in Hm by (repeat constructor); done end.

(** The members of one kind, where the recursion establishes [supported]. *)
Record kind_members (m : list (str * json)) : Prop := {
  km_properties p : map_get (lit "properties") m = Some p → ∃ ps, p = Object ps;
  km_property ps k p : map_get (lit "properties") m = Some (Object ps) → map_get k ps = Some p → supported p;
  km_required r : map_get (lit "required") m = Some r → ∃ ks, r = Array (map String ks);
  km_additional a : map_get (lit "additionalProperties") m = Some a → ∃ b, a = Bool b;
  km_items s : map_get (lit "items") m = Some s → supported s;
}.

Lemma check_object_ok check m : (∀ s, check s = Ok () → supported s) → check_object check m = Ok () → kind_members m.
Proof.
  unfold check_object. intros Hcheck Hc. apply bind_ok in Hc as (? & Hp & Hc). apply bind_ok in Hc as (? & Hr & Hc).
  apply bind_ok in Hc as (? & Ha & Hf). pose proof (option_case_ok _ _ _ Hp) as Hp'.
  pose proof (option_case_ok _ _ _ Hr) as Hr'. pose proof (option_case_ok _ _ _ Ha) as Ha'. clear Hp Hr Ha. split.
  - intros p Hm. apply Hp' in Hm. apply bind_ok in Hm as (ps & Hps%ok_or_ok & _). destruct p; try done. by eexists.
  - intros ps k p Hm Hk. apply Hp' in Hm. apply bind_ok in Hm as (ps' & [= <-]%ok_or_ok & Hall%try_for_each_ok).
    rewrite Forall_forall in Hall. apply map_get_pair in Hk. apply Hcheck. by apply (Hall (k, p)), map_err_ok in Hk.
  - intros r Hm. apply Hr' in Hm. apply bind_ok in Hm as (names & Hn%ok_or_ok & Hks). destruct r; try done. injection Hn as ->.
    destruct (check_required_ok _ _ _ Hks) as [ks ->]. by eexists.
  - intros a Hm. apply Ha', guard_err_ok in Hm. destruct a; try done. by eexists.
  - intros s Hm. rewrite (forbids_ok _ _ _ Hf "items"%string) in Hm by constructor. done.
Qed.

Lemma check_array_ok check m : (∀ s, check s = Ok () → supported s) → check_array check m = Ok () → kind_members m.
Proof.
  unfold check_array. intros Hcheck Hc. apply bind_ok in Hc as (? & Hi & Hf). pose proof (option_case_ok _ _ _ Hi) as Hi'.
  pose proof (forbids_ok _ _ _ Hf) as Hno.
  split; [intros; absent Hno..|]. intros s Hs. apply Hi', bind_ok in Hs as (? & _ & Hs%map_err_ok). auto.
Qed.

Lemma scalar_ok m :
  forbids ["properties"; "required"; "additionalProperties"; "items"]%string "incompatible with scalar type" m = Ok () → kind_members m.
Proof.
  intros Hf. pose proof (forbids_ok _ _ _ Hf) as Hno. split; intros; absent Hno.
Qed.

Lemma validate_at_supported levels schema : validate_workflow_schema_at levels schema = Ok () → supported schema.
Proof.
  revert schema. induction levels as [|levels IH]; intros schema; [done|]. cbn [validate_workflow_schema_at].
  intros Hv. apply bind_ok in Hv as (m & Hm%ok_or_ok & Hv). destruct schema as [| | | | |m']; try done. injection Hm as ->.
  apply bind_ok in Hv as (kind & Hk%check_keywords_ok & Hv).
  assert (Hms : kind_members m).
  { case_decide; [by eapply check_object_ok|]. case_decide; [by eapply check_array_ok|]. by apply scalar_ok. }
  destruct Hk, Hms. by apply (supported_plain m kind).
Qed.

Lemma validate_supported schema : validate_workflow_schema schema = Ok () → supported schema.
Proof. apply validate_at_supported. Qed.

Lemma validate_commit_ok schema v : validate_commit schema v = Ok () ↔ schema_error schema = None ∧ is_valid schema v = true.
Proof.
  unfold validate_commit. destruct (schema_error schema); cbn; [naive_solver|].
  rewrite guard_err_ok, negb_false_iff. naive_solver.
Qed.
End accepted.

(** ** Defaults: what the compiler assumes of a block's input is there *)

(** Every object of a value is a [BTreeMap]. *)
Fixpoint btrees (v : json) : Prop :=
  match v with
  | Array l => foldr (λ x P, btrees x ∧ P) True l
  | Object m => map_sorted m ∧ foldr (λ x P, btrees x.2 ∧ P) True m
  | _ => True
  end.

Lemma btrees_entry m k v : btrees (Object m) → (k, v) ∈ m → btrees v.
Proof.
  intros [_ Hm]. induction m as [|x m IH]; [by intros ?%not_elem_of_nil|]. destruct Hm as [Hx Hm].
  intros [<-|Hin]%elem_of_cons; auto.
Qed.
Lemma btrees_get s k v : btrees s → get k s = Some v → btrees v.
Proof. destruct s as [| | | | |m]; try done. cbn [get]. intros Ho Hv%map_get_pair. by eapply btrees_entry. Qed.

Lemma map_get_ordered {V} (m : list (str * V)) k v : map_sorted m → (k, v) ∈ m → map_get k m = Some v.
Proof.
  unfold map_sorted. induction m as [|[k' x] m IH]; [by intros _ ?%not_elem_of_nil|]. cbn.
  intros [Hs Hall]%StronglySorted_inv Hin. case_decide as Hk.
  - subst k'. apply elem_of_cons in Hin as [[= ->]|Hin]; [done|]. exfalso. rewrite Forall_forall in Hall.
    eapply str_lt_neq; [apply Hall, list_elem_of_fmap_2, Hin|done].
  - apply elem_of_cons in Hin as [[= -> ->]|Hin]; [done|]. by apply IH.
Qed.

Lemma map_get_keyed {V W} (g : str → V → W) k m :
  map_get k (map (λ x, (x.1, g x.1 x.2)) m) = g k <$> map_get k m.
Proof. induction m as [|[k' v] m IH]; cbn; [done|]. case_decide; subst; [done|]. apply IH. Qed.

Lemma members_ordered k s key v : btrees s → (key, v) ∈ members k s → map_get key (members k s) = Some v ∧ btrees v.
Proof.
  intros Ho. unfold members. destruct (get (lit k) s) as [p|] eqn:Hp; cbn; [|by intros ?%not_elem_of_nil].
  destruct p as [| | | | |ps]; cbn; try by intros ?%not_elem_of_nil.
  apply btrees_get in Hp; [|done]. intros Hin. split; [apply map_get_ordered; [apply Hp|done]|by eapply btrees_entry].
Qed.

(** *** What [schema_with_defaults_required] changes *)

Definition fill (k : str) (v : json) : json :=
  match v with
  | Object ps => if decide (k = lit "properties") then Object (map (λ p, (p.1, schema_with_defaults_required p.2)) ps)
                 else if decide (k = lit "items") then schema_with_defaults_required v else v
  | _ => v
  end.
Definition defaulted (s : json) : list str := map fst (filter (λ p, is_Some (get (lit "default") p.2)) (members "properties" s)).
Definition required_names (s : json) : list str :=
  ascending (schema_required s) ++ filter (λ name, name ∉ ascending (schema_required s)) (defaulted s).

Lemma filled_object m :
  schema_with_defaults_required (Object m) =
    Object (match defaulted (Object m) with
            | [] => map (λ x, (x.1, fill x.1 x.2)) m
            | _ => map_insert (lit "required") (Array (map String (required_names (Object m)))) (map (λ x, (x.1, fill x.1 x.2)) m)
            end).
Proof. reflexivity. Qed.

Lemma filled_get k m :
  get k (schema_with_defaults_required (Object m)) =
    match defaulted (Object m) with
    | [] => fill k <$> map_get k m
    | _ => if decide (k = lit "required") then Some (Array (map String (required_names (Object m)))) else fill k <$> map_get k m
    end.
Proof.
  rewrite filled_object. cbn [get]. destruct (defaulted (Object m)); [by rewrite map_get_keyed|]. rewrite map_get_insert, map_get_keyed. done.
Qed.

Lemma fill_other k v : k ≠ lit "properties" → k ≠ lit "items" → fill k v = v.
Proof. intros. unfold fill. destruct v; try done. by rewrite !decide_False. Qed.
Lemma filled_other k m :
  k ≠ lit "properties" → k ≠ lit "items" → k ≠ lit "required" → get k (schema_with_defaults_required (Object m)) = map_get k m.
Proof.
  intros. rewrite filled_get. transitivity (fill k <$> map_get k m); [destruct (defaulted _); [done|by rewrite decide_False]|].
  destruct (map_get k m); cbn; [by rewrite fill_other|done].
Qed.

Lemma filled_properties s :
  members "properties" (schema_with_defaults_required s) = map (λ p, (p.1, schema_with_defaults_required p.2)) (members "properties" s).
Proof.
  destruct s as [| | | | |m]; try done. unfold members. rewrite filled_get.
  destruct (defaulted (Object m)); [|rewrite decide_False by (by cbv)];
    cbn [get]; by destruct (map_get (lit "properties") m) as [[]|].
Qed.

Lemma filled_items s : get (lit "items") (schema_with_defaults_required s) = schema_with_defaults_required <$> get (lit "items") s.
Proof.
  destruct s as [| | | | |m]; try done. rewrite filled_get.
  transitivity (fill (lit "items") <$> map_get (lit "items") m).
  { destruct (defaulted (Object m)); [done|]. by rewrite decide_False by (by cbv). }
  cbn [get]. destruct (map_get (lit "items") m) as [v|]; [|done]. cbn. f_equal. by destruct v.
Qed.

Lemma filled_union l : schema_with_defaults_required (Object [(lit "anyOf", Array l)]) = Object [(lit "anyOf", Array l)].
Proof. done. Qed.

Lemma elem_of_defaulted s k : k ∈ defaulted s ↔ ∃ p, (k, p) ∈ members "properties" s ∧ is_Some (get (lit "default") p).
Proof.
  unfold defaulted. rewrite list_elem_of_fmap. split.
  - intros ([k' p] & -> & [Hd Hin]%list_elem_of_filter). eauto.
  - intros (p & Hin & Hd). exists (k, p). split; [done|]. by apply list_elem_of_filter.
Qed.

Section filling.
Context `{JsonText}.

(** [x] is what [normalize] made of some value at this schema. *)
Definition normalized (levels : nat) (schema : option json) (x : json) : Prop :=
  ∃ v b b', normalize levels schema v b = Ok (x, b').

Lemma normal_fields_spec levels ps fields done b done' b' :
  normal_fields (normalize levels) ps fields done b = Ok (done', b') →
  (∀ k x, map_get k done' = Some x → map_get k done = Some x ∨ normalized levels (ps ≫= map_get k) x) ∧
  (∀ k, is_Some (map_get k done) ∨ is_Some (map_get k fields) → is_Some (map_get k done')).
Proof.
  revert done b. induction fields as [|[name field] fields IH]; intros done b; cbn [normal_fields].
  { intros [= -> ->]. split; [auto|]. intros k [?|[? ?]]; [done|done]. }
  intros Hn. apply bind_ok in Hn as (b1 & _ & Hn). apply bind_ok in Hn as ([x b2] & Hx & Hn). apply IH in Hn as [Hget Hsome]. split.
  - intros k y [Hy|Hy]%Hget; [|by right]. rewrite map_get_insert in Hy. case_decide; [|by left].
    injection Hy as ->. subst. right. by eexists _, _, _.
  - intros k Hk. apply Hsome. rewrite map_get_insert. cbn in Hk. case_decide; [left; by eexists|]. auto.
Qed.

Lemma normal_defaults_spec levels fields ps done b done' b' :
  normal_defaults (normalize levels) fields ps done b = Ok (done', b') →
  (∀ k, is_Some (map_get k fields) → is_Some (map_get k done)) →
  (∀ k x, map_get k done' = Some x → map_get k done = Some x ∨ ∃ p, (k, p) ∈ ps ∧ normalized levels (Some p) x) ∧
  (∀ k, is_Some (map_get k done) → is_Some (map_get k done')) ∧
  (∀ k p, (k, p) ∈ ps → is_Some (get (lit "default") p) → is_Some (map_get k done')).
Proof.
  revert done b. induction ps as [|[name p] ps IH]; intros done b; cbn [normal_defaults].
  { intros [= -> ->] _. split_and!; [auto|done|by intros k p ?%not_elem_of_nil]. }
  intros Hn Hf. apply bind_ok in Hn as (b1 & _ & Hn).
  assert (Hskip : normal_defaults (normalize levels) fields ps done b1 = Ok (done', b') →
    is_Some (map_get name fields) ∨ get (lit "default") p = None →
    (∀ k x, map_get k done' = Some x → map_get k done = Some x ∨ ∃ p', (k, p') ∈ (name, p) :: ps ∧ normalized levels (Some p') x) ∧
    (∀ k, is_Some (map_get k done) → is_Some (map_get k done')) ∧
    (∀ k p', (k, p') ∈ (name, p) :: ps → is_Some (get (lit "default") p') → is_Some (map_get k done'))).
  { intros Hs Hor. apply IH in Hs as (Hget & Hkeep & Hpres); [|done]. split_and!; [|done|].
    - intros k x [?|(p' & Hin & ?)]%Hget; [by left|]. right. exists p'. split; [by constructor|done].
    - intros k p' [[= -> ->]|Hin]%elem_of_cons Hd; [|by eapply Hpres]. destruct Hor as [Hor|Hor]; [auto|]. rewrite Hor in Hd. by destruct Hd. }
  destruct (map_get name fields) as [y|] eqn:Hy; [by apply Hskip; [|left; eexists]|].
  destruct (get (lit "default") p) as [value|] eqn:Hv; [|by apply Hskip; [|right]].
  apply bind_ok in Hn as (b2 & _ & Hn). apply bind_ok in Hn as ([x b3] & Hx & Hn).
  apply IH in Hn as (Hget & Hkeep & Hpres).
  2: { intros k Hk%Hf. rewrite map_get_insert. case_decide; [by eexists|done]. }
  split_and!.
  - intros k z [Hz|(p' & Hin & ?)]%Hget; [|right; exists p'; split; [by constructor|done]].
    rewrite map_get_insert in Hz. case_decide; [|by left]. injection Hz as ->. subst. right. exists p.
    split; [constructor|by eexists _, _, _].
  - intros k Hk. apply Hkeep. rewrite map_get_insert. case_decide; [by eexists|done].
  - intros k p' [[= -> ->]|Hin]%elem_of_cons Hd; [|by eapply Hpres]. apply Hkeep. rewrite map_get_insert, decide_True by done. by eexists.
Qed.

Lemma normal_items_spec levels schema items done b done' b' :
  normal_items (normalize levels) schema items done b = Ok (done', b') →
  ∀ x, x ∈ done' → x ∈ done ∨ normalized levels schema x.
Proof.
  revert done b. induction items as [|item items IH]; intros done b; cbn [normal_items]; [intros [= -> ->]; auto|].
  intros Hn. apply bind_ok in Hn as (b1 & _ & Hn). apply bind_ok in Hn as ([y b2] & Hy & Hn).
  intros x [[Hx|Hx%list_elem_of_singleton]%elem_of_app|]%(IH _ _ Hn); [by left| |by right]. subst. right. by eexists _, _, _.
Qed.

(** What [normalize] leaves of a value at a schema *)
Lemma normalized_members levels s v :
  btrees s → normalized (S levels) (Some s) v →
  (∀ fields k p x, v = Object fields → map_get k (members "properties" s) = Some p → map_get k fields = Some x → normalized levels (Some p) x) ∧
  (∀ fields k, v = Object fields → k ∈ defaulted s → is_Some (map_get k fields)) ∧
  (∀ l i x, v = Array l → get (lit "items") s = Some i → x ∈ l → normalized levels (Some i) x).
Proof.
  intros Ho (v0 & b & b' & Hn). cbn [normalize] in Hn. apply bind_ok in Hn as (b1 & _ & Hn).
  destruct v0 as [|bo|nu|st|l0|fields0].
  1-4: apply bind_ok in Hn as (? & _ & [= <- <-]); split_and!; intros; discriminate.
  - apply bind_ok in Hn as (b2 & _ & Hn). apply bind_ok in Hn as ([l b3] & Hl & [= <- <-]).
    split_and!; try (intros; discriminate). intros l' i x [= <-] Hi Hx. pose proof (normal_items_spec _ _ _ _ _ _ _ Hl x Hx) as Hor.
    cbn in Hor. rewrite Hi in Hor. destruct Hor as [?%not_elem_of_nil|]; done.
  - apply bind_ok in Hn as (b2 & _ & Hn). apply bind_ok in Hn as ([done b3] & Hf & Hn). apply bind_ok in Hn as ([fields b4] & Hd & [= <- <-]).
    apply normal_fields_spec in Hf as [Hf Hkeep]. apply normal_defaults_spec in Hd as (Hd & _ & Hpres); [|intros; apply Hkeep; auto].
    cbn in Hf, Hd, Hpres. change (default [] (get (lit "properties") s ≫= as_object)) with (members "properties" s) in *.
    split_and!; try (intros; discriminate).
    + intros f k p x [= <-] Hp Hx. apply Hd in Hx as [Hx|(p' & Hin & Hx)].
      * apply Hf in Hx as [?|Hx]; [done|]. unfold members in Hp. destruct (get (lit "properties") s) as [q|]; [|done].
        cbn in Hx, Hp. destruct (as_object q); [|done]. cbn in Hx, Hp. by rewrite Hp in Hx.
      * apply (members_ordered "properties" s) in Hin as [Hin _]; [|done]. by rewrite Hp in Hin; injection Hin as ->.
    + intros f k [= <-] (p & Hin & Hdef)%elem_of_defaulted. by eapply Hpres.
Qed.
End filling.

Lemma filled_is_object m : ∃ m', schema_with_defaults_required (Object m) = Object m' ∧ ∀ k, k ∈ m'.*1 → k ∈ m.*1 ∨ k = lit "required".
Proof.
  assert (Hf : ∀ g : str → json → json, (map (λ x, (x.1, g x.1 x.2)) m).*1 = m.*1).
  { intros g. induction m as [|[k v] m' IH]; cbn; [done|]. by f_equal. }
  eexists. split; [apply filled_object|]. intros k.
  destruct (defaulted _); [rewrite (Hf fill); by left|]. intros [->|Hk]%elem_of_map_insert; [by right|].
  left. by rewrite (Hf fill) in Hk.
Qed.

Lemma filled_required s : supported s → ∀ r, get (lit "required") (schema_with_defaults_required s) = Some r →
  ∃ ks, r = Array (map String ks) ∧ ∀ k, k ∈ ks → k ∈ schema_required s ∨ k ∈ defaulted s.
Proof.
  intros Hs r. destruct s as [| | | | |m]; try done. rewrite filled_get. intros Hr.
  assert (Hcase : fill (lit "required") <$> map_get (lit "required") m = Some r ∨ r = Array (map String (required_names (Object m)))).
  { destruct (defaulted (Object m)); [by left|]. rewrite decide_True in Hr by done. right. congruence. }
  destruct Hcase as [Hm| ->].
  - destruct (map_get (lit "required") m) as [r'|] eqn:Hr'; [|done]. injection Hm as <-.
    destruct (supported_required _ r' Hs Hr') as [ks ->]. exists ks. split; [done|]. intros k Hk. left.
    by apply (elem_of_required (Object m) ks k).
  - exists (required_names (Object m)). split; [done|]. unfold required_names.
    intros k [Hk%elem_of_ascending|[_ Hk]%list_elem_of_filter]%elem_of_app; auto.
Qed.

Lemma filled_supported s : supported s → btrees s → supported (schema_with_defaults_required s).
Proof.
  induction 1 as [l Hl IH|m t Hk Ht Htt He Hm Hp Hps IHp Hr Ha Hi IHi]; intros Ho; [by constructor|].
  assert (Hs : supported (Object m)) by by apply (supported_plain m t).
  destruct (filled_is_object m) as (m' & Hm' & Hkeys).
  assert (Hother : ∀ k, k ≠ lit "properties" → k ≠ lit "items" → k ≠ lit "required" → map_get k m' = map_get k m).
  { intros k ???. rewrite <- (filled_other k m) by done. by rewrite Hm'. }
  assert (Hget : ∀ k, map_get k m' = get k (schema_with_defaults_required (Object m))) by (intros; by rewrite Hm').
  rewrite Hm'. apply (supported_plain m' t).
  - intros k [Hin| ->]%Hkeys; [auto|]. apply (bool_decide_eq_true_1 (lit "required" ∈ WORKFLOW_SCHEMA_KEYWORDS)). by vm_compute.
  - by rewrite Hother by (by cbv).
  - done.
  - intros e. rewrite !Hother by (by cbv). apply He.
  - intros n. rewrite Hother by (by cbv). apply Hm.
  - intros p. rewrite Hget, filled_get. intros Hq.
    assert (Hq' : fill (lit "properties") <$> map_get (lit "properties") m = Some p).
    { destruct (defaulted (Object m)); [done|]. by rewrite decide_False in Hq by (by cbv). }
    destruct (map_get (lit "properties") m) as [q|]; [|done]. destruct (Hp q eq_refl) as [ps ->]. injection Hq' as <-. by eexists.
  - intros ps k p Hq Hkp.
    assert (Hmem : map_get k (members "properties" (schema_with_defaults_required (Object m))) = Some p).
    { rewrite Hm'. unfold members. cbn [get]. by rewrite Hq. }
    rewrite filled_properties, (map_get_map schema_with_defaults_required) in Hmem.
    destruct (map_get k (members "properties" (Object m))) as [p0|] eqn:Hp0; [|done]. injection Hmem as <-.
    apply map_get_pair in Hp0 as Hin. pose proof (members_ordered "properties" _ _ _ Ho Hin) as [_ Hop].
    unfold members in Hp0. cbn [get] in Hp0. destruct (map_get (lit "properties") m) as [q|] eqn:Hq0; [|done].
    destruct (Hp q eq_refl) as [ps' ->]. by apply (IHp ps' k p0).
  - intros r. rewrite Hget. intros (ks & -> & _)%(filled_required _ Hs). by eexists.
  - intros a. rewrite Hother by (by cbv). apply Ha.
  - intros s'. rewrite Hget, filled_items. cbn [get]. destruct (map_get (lit "items") m) as [i|] eqn:Hi0; [|done].
    intros [= <-]. apply IHi; [done|]. by apply (btrees_get (Object m) (lit "items")).
Qed.

Section entry.
Context `{JsonText} `{JsonSchema}.

Lemma filled_valid levels s v :
  supported s → btrees s → normalized levels (Some s) v → is_valid s v = true → is_valid (schema_with_defaults_required s) v = true.
Proof using All.
  revert s v. induction levels as [|levels IH]; intros s v Hs Ho Hn Hv; [by destruct Hn as (? & ? & ? & ?)|].
  destruct s as [| | | | |m]; try by inversion Hs.
  pose proof (meets_valid _ v Hs Hv) as Hm. destruct (normalized_members levels _ v Ho Hn) as (Hp & Hd & Hi).
  apply is_valid_iff; [by apply filled_supported|].
  split; try (intros ?; rewrite filled_other by (by cbv); intros; by eapply Hm).
  - intros names fields k (ks & [= ->] & Hks)%(filled_required _ Hs) -> (k' & [= <-] & Hk)%list_elem_of_fmap.
    destruct (Hks k Hk) as [Hreq|Hdef]; [|by apply Hd].
    destruct (required_get _ k Hs Hreq) as (ks' & Hr' & Hk'). by apply (meets_required _ _ _ _ Hm _ fields k Hr').
  - intros ps fields k p x Hps -> Hk Hx.
    assert (Hmem : map_get k (members "properties" (schema_with_defaults_required (Object m))) = Some p)
      by (unfold members; by rewrite Hps).
    rewrite filled_properties, (map_get_map schema_with_defaults_required) in Hmem.
    destruct (map_get k (members "properties" (Object m))) as [p0|] eqn:Hp0; [|done]. injection Hmem as <-.
    pose proof (supported_member _ _ _ Hs Hp0) as Hsp. apply map_get_pair in Hp0 as Hin.
    pose proof (members_ordered "properties" _ _ _ Ho Hin) as [_ Hop].
    apply IH; [done|done|by apply (Hp fields k p0 x)|].
    destruct (get (lit "properties") (Object m)) as [q|] eqn:Hq; [|by unfold members in Hp0; rewrite Hq in Hp0].
    pose proof (supported_object _ _ Hs Hq) as ->. by apply (meets_properties _ _ _ _ Hm _ fields k p0 x Hq).
  - intros fields k x Hcl -> Hx. rewrite filled_properties, (map_get_map schema_with_defaults_required).
    unfold closed in Hcl. rewrite filled_other in Hcl by (by cbv).
    destruct (meets_closed _ _ _ _ Hm fields k x Hcl eq_refl Hx) as [p0 ->]. by eexists.
  - intros s' l x. rewrite filled_items. destruct (get (lit "items") (Object m)) as [i|] eqn:Hii; [|done]. intros [= <-] -> Hx.
    apply IH; [by apply (supported_items _ _ Hs)|by apply (btrees_get _ (lit "items") _ Ho)|by apply (Hi l i x)|].
    by apply (meets_items _ _ _ _ Hm i l x Hii).
Qed.
End entry.

(** *** What [normalize] charges is what it builds *)

Lemma sum_insert {V} (f : str * V → N) k v m : sum (map f (map_insert k v m)) <= sum (map f m) + f (k, v).
Proof.
  induction m as [|[k' v'] m IH]; cbn [map_insert map sum foldr]; [lia|].
  destruct (str_cmp k k') eqn:E; cbn [map sum foldr]; [|lia|unfold sum in *; lia].
  apply str_cmp_eq in E as ->. lia.
Qed.
Lemma length_insert {V} k (v : V) m : (length (map_insert k v m) <= S (length m))%nat.
Proof. induction m as [|[k' v'] m IH]; cbn; [lia|]. destruct (str_cmp k k'); cbn; lia. Qed.

Section charged.
Context `{JsonTextLaws}.

Lemma charge_ok n b b' : charge n b = Ok b' → bytes b' = bytes b + n ∧ (bytes b <= MAX_VALUE_BYTES → bytes b' <= MAX_VALUE_BYTES).
Proof using All. unfold charge. intros (? & Hg%guard_err_ok%N.ltb_ge & [= <-])%bind_ok. cbn. lia. Qed.
Lemma visit_bytes b b' : visit b = Ok b' → bytes b' = bytes b.
Proof using All. by intros (? & _ & [= <-])%bind_ok. Qed.
Lemma property_ok name first b b' :
  property name first b = Ok b' →
  bytes b' = bytes b + N.b2n (negb first) + 1 + key_len name ∧ (bytes b <= MAX_VALUE_BYTES → bytes b' <= MAX_VALUE_BYTES).
Proof using All. intros (b1 & Hc%charge_ok & Hc'%charge_ok)%bind_ok. lia. Qed.

(** The bytes between the brackets *)
Definition body (m : list (str * json)) : N := sum (map (λ x, key_len x.1 + 1 + json_len x.2) m) + commas m.

Lemma body_insert k v m : body (map_insert k v m) <= body m + N.b2n (negb (is_empty_list m)) + 1 + key_len k + json_len v.
Proof using All.
  unfold body, commas. pose proof (sum_insert (λ x, key_len x.1 + 1 + json_len x.2) k v m) as Hs. cbn [fst snd] in Hs.
  pose proof (length_insert k v m). destruct m; cbn [is_empty_list negb N.b2n]; cbn [length] in *; lia.
Qed.

(** The value fits what was charged for it, and is no deeper than the levels left. *)
Definition fits (levels : nat) (v : json) (b b' : Budget) : Prop :=
  bytes b <= MAX_VALUE_BYTES →
  bytes b + json_len v <= bytes b' ∧ bytes b' <= MAX_VALUE_BYTES ∧ value_depth v < N.of_nat levels.

Lemma depth_insert k v m : value_depth (Object (map_insert k v m)) <= N.max (value_depth v + 1) (value_depth (Object m)).
Proof using All.
  induction m as [|[k' v'] m IH]; cbn; [lia|]. destruct (str_cmp k k'); cbn; [lia|lia|]. cbn in IH. lia.
Qed.
Lemma depth_append v l : value_depth (Array (l ++ [v])) <= N.max (value_depth v + 1) (value_depth (Array l)).
Proof using All. induction l as [|x l IH]; cbn; [lia|]. cbn in IH. lia. Qed.

Section step.
Variables (levels : nat) (normal : option json → json → Budget → result WorkflowRunError (json * Budget)).
Hypothesis normal_fits : ∀ s v b v' b', normal s v b = Ok (v', b') → fits levels v' b b'.

Definition members_fit (m m' : list (str * json)) (b b' : Budget) : Prop :=
  bytes b <= MAX_VALUE_BYTES → value_depth (Object m) <= N.of_nat levels →
  bytes b + body m' <= bytes b' + body m ∧ bytes b' <= MAX_VALUE_BYTES ∧ value_depth (Object m') <= N.of_nat levels.

Lemma insert_fits name v m b b1 b2 :
  property name (is_empty_list m) b = Ok b1 → fits levels v b1 b2 → members_fit m (map_insert name v m) b b2.
Proof using All.
  intros [Hp Hpm]%property_ok Hf Hb Hd. destruct (Hf (Hpm Hb)) as (Hl & Hm & Hv).
  pose proof (body_insert name v m). pose proof (depth_insert name v m). lia.
Qed.
Lemma fit_trans m m1 m2 b b1 b2 : members_fit m m1 b b1 → members_fit m1 m2 b1 b2 → members_fit m m2 b b2.
Proof using All. intros H1 H2 Hb Hd. destruct (H1 Hb Hd) as (? & Hb1 & Hd1). destruct (H2 Hb1 Hd1) as (? & ? & ?). lia. Qed.

Lemma normal_fields_fit ps fields m b m' b' : normal_fields normal ps fields m b = Ok (m', b') → members_fit m m' b b'.
Proof using All.
  revert m b. induction fields as [|[name field] fields IH]; intros m b; cbn [normal_fields].
  { intros [= -> ->] ??. lia. }
  intros (b1 & Hp & Hn)%bind_ok. apply bind_ok in Hn as ([v b2] & Hv & Hn).
  eapply fit_trans; [by eapply insert_fits; [|eapply normal_fits]|by apply IH].
Qed.

Lemma normal_defaults_fit fields ps m b m' b' : normal_defaults normal fields ps m b = Ok (m', b') → members_fit m m' b b'.
Proof using All.
  revert m b. induction ps as [|[name p] ps IH]; intros m b; cbn [normal_defaults].
  { intros [= -> ->] ??. lia. }
  intros (b0 & Hvis%visit_bytes & Hn)%bind_ok.
  assert (Hskip : ∀ r, members_fit m r b0 b' → members_fit m r b b') by (unfold members_fit; rewrite Hvis; auto).
  apply Hskip. destruct (map_get name fields), (get (lit "default") p) as [value|]; try by apply IH.
  apply bind_ok in Hn as (b1 & Hp & Hn). apply bind_ok in Hn as ([v b2] & Hv & Hn).
  eapply fit_trans; [by eapply insert_fits; [|eapply normal_fits]|by apply IH].
Qed.

Lemma normal_items_fit s items l b l' b' :
  normal_items normal s items l b = Ok (l', b') → bytes b <= MAX_VALUE_BYTES → value_depth (Array l) <= N.of_nat levels →
  bytes b + json_len (Array l') <= bytes b' + json_len (Array l) ∧ bytes b' <= MAX_VALUE_BYTES ∧ value_depth (Array l') <= N.of_nat levels.
Proof using All.
  revert l b. induction items as [|item items IH]; intros l b; cbn [normal_items].
  { intros [= -> ->] ??. lia. }
  intros (b1 & [Hc Hcm]%charge_ok & Hn)%bind_ok Hb Hd. apply bind_ok in Hn as ([v b2] & Hv & Hn).
  destruct (normal_fits _ _ _ _ _ Hv (Hcm Hb)) as (Hl & Hb2 & Hdv). pose proof (depth_append v l).
  destruct (IH _ _ Hn Hb2) as (? & ? & ?); [lia|]. rewrite len_append in *.
  assert (Hne : nonempty_array (Array l) = negb (is_empty_list l)) by by destruct l. rewrite Hne in *. lia.
Qed.
End step.

Lemma normalize_fits levels s v b v' b' : normalize levels s v b = Ok (v', b') → fits levels v' b b'.
Proof using All.
  revert s v b v' b'. induction levels as [|levels IH]; intros s v b v' b'; [done|]. cbn [normalize].
  intros (b1 & Hvis%visit_bytes & Hn)%bind_ok Hb.
  destruct v as [|bo|nu|st|l0|fields0].
  1-4: apply bind_ok in Hn as (b2 & [Hc Hcm]%charge_ok & [= <- <-]); cbn [value_depth]; lia.
  - apply bind_ok in Hn as (b2 & [Hc Hcm]%charge_ok & Hn). apply bind_ok in Hn as ([l b3] & Hl & [= <- <-]).
    apply (normal_items_fit levels _ IH) in Hl as (Hlen & ? & ?); [|lia|cbn; lia].
    rewrite (len_array []) in Hlen. unfold commas in Hlen. cbn in Hlen. lia.
  - apply bind_ok in Hn as (b2 & [Hc Hcm]%charge_ok & Hn). apply bind_ok in Hn as ([m b3] & Hf & Hn).
    apply bind_ok in Hn as ([m' b4] & Hd & [= <- <-]).
    apply (normal_fields_fit levels _ IH) in Hf. apply (normal_defaults_fit levels _ IH) in Hd.
    destruct (fit_trans levels _ IH _ _ _ _ _ _ Hf Hd) as (Hbody & ? & ?); [lia|cbn; lia|].
    assert (json_len (Object m') = 2 + body m') by (rewrite len_object; unfold body; lia).
    change (body []) with 0 in Hbody. lia.
Qed.
End charged.

(** ** What the schemas promise *)

Lemma compatible_valid `{JsonSchema} actual expected v :
  supported actual → supported expected → schemas_compatible actual expected = true → is_valid actual v = true → is_valid expected v = true.
Proof.
  intros Ha He Hc. set (fuel := S (N.to_nat (value_depth actual + value_depth expected))).
  destruct (compatible_some fuel actual expected) as [r Hr]; [lia|].
  apply (compatible_sound fuel); [done|done|]. by rewrite Hr, <- (schemas_compatible_fuel _ _ _ _ Hr), Hc.
Qed.

(** C27 Every value of a schema meets each schema it is found compatible with, for all schemas
    of the vocabulary and the unions derived from them; the search always decides. *)
Theorem schemas_compatible_sound `{JsonSchema} actual expected :
  supported actual → supported expected →
  (∃ decided, ∀ more, compatible_within (S (more + N.to_nat (value_depth actual + value_depth expected))) actual expected = Some decided) ∧
  (schemas_compatible actual expected = true → ∀ v, is_valid actual v = true → is_valid expected v = true).
Proof.
  intros Ha He. split.
  - set (fuel := S (N.to_nat (value_depth actual + value_depth expected))).
    destruct (compatible_some fuel actual expected) as [r Hr]; [lia|].
    exists r. intros more. replace (S _) with (more + fuel)%nat by lia. by apply compatible_more.
  - intros Hc v. by apply compatible_valid.
Qed.

Lemma entry_valid `{JsonText} `{JsonSchema} schema input args :
  btrees schema → validate_root_schema schema = Ok () →
  apply_schema_defaults schema input = Ok args → validate_commit schema args = Ok () →
  supported (schema_with_defaults_required schema) ∧ is_valid (schema_with_defaults_required schema) args = true.
Proof.
  intros Ho (u & Hs & _)%bind_ok Ha [_ Hv]%validate_commit_ok. destruct u. apply validate_supported in Hs.
  apply bind_ok in Ha as ([v b] & Hn & [= ->]). split; [by apply filled_supported|].
  eapply filled_valid; eauto. by eexists _, _, _.
Qed.

(** The input a block starts with, once defaults are filled in and the input schema has
    accepted it, also meets the schema the compiler gave [args], where every member with a
    default is required; and it stays within the bounds of a value. *)
Theorem entry_arguments_sound `{JsonTextLaws} `{JsonSchema} schema input args :
  btrees schema → validate_root_schema schema = Ok () →
  apply_schema_defaults schema input = Ok args → validate_commit schema args = Ok () →
  supported (schema_with_defaults_required schema) ∧ is_valid (schema_with_defaults_required schema) args = true ∧
  json_len args <= MAX_VALUE_BYTES ∧ value_depth args <= MAX_VALUE_DEPTH.
Proof.
  intros Ho Hs Ha Hv. destruct (entry_valid schema input args Ho Hs Ha Hv) as [Hsup Hval]. split; [done|]. split; [done|].
  apply bind_ok in Ha as ([v b] & Hn & [= ->]). apply normalize_fits in Hn. destruct Hn as (? & ? & ?); cbn; lia.
Qed.

(** ** A validator *)

Module Checks.

Definition whole_text (repr : str) : Prop := False.
Definition typed_as (t : str) (v : json) : bool :=
  match v with
  | Null => bool_decide (t = lit "null")
  | Bool _ => bool_decide (t = lit "boolean")
  | Number n => bool_decide (t = lit "number") || bool_decide (t = lit "integer") && match n with Float _ => false | _ => true end
  | String _ => bool_decide (t = lit "string")
  | Array _ => bool_decide (t = lit "array")
  | Object _ => bool_decide (t = lit "object")
  end.

Definition present (k : str) (m : list (str * json)) : bool := bool_decide (is_Some (map_get k m)).

(** The assertions that look at the value alone *)
Definition check_value (s v : json) : bool :=
  match get (lit "type") s with Some (String t) => typed_as t v | _ => true end &&
  match get (lit "const") s with Some c => bool_decide (v = c) | None => true end &&
  match get (lit "enum") s with Some (Array l) => bool_decide (v ∈ l) | _ => true end &&
  match get (lit "maxLength") s, v with Some (Number (PosInt n)), String t => N.of_nat (length t) <=? n | _, _ => true end.

(** The assertions of its parts *)
Definition check_fields (check : json → json → bool) (s : json) (fields : list (str * json)) : bool :=
  match get (lit "required") s with
  | Some (Array names) => forallb (λ x, match x with String k => present k fields | _ => true end) names
  | _ => true
  end &&
  forallb (λ k, match map_get k (members "properties" s), map_get k fields with Some p, Some x => check p x | _, _ => true end) (map fst fields) &&
  (negb (closed s) || forallb (λ k, present k (members "properties" s)) (map fst fields)).

Definition check_parts (check : json → json → bool) (s v : json) : bool :=
  match v with
  | Object fields => check_fields check s fields
  | Array l => match get (lit "items") s with Some i => forallb (check i) l | None => true end
  | _ => true
  end &&
  match get (lit "anyOf") s with Some (Array l) => existsb (λ s', check s' v) l | _ => true end.

Fixpoint check (fuel : nat) (s v : json) : bool :=
  match fuel with O => false | S fuel => check_value s v && check_parts (check fuel) s v end.

#[export] Instance checks : Validator := {| schema_error _ := None; is_valid s v := check (S (N.to_nat (value_depth s))) s v |}.

Lemma forallb_same {A} (f g : A → bool) l : (∀ x, x ∈ l → f x = g x) → forallb f l = forallb g l.
Proof.
  induction l as [|x l IH]; cbn; [done|]. intros Hl. rewrite (Hl x), IH; [done| |constructor].
  intros y Hy. apply Hl. by constructor.
Qed.
Lemma existsb_same {A} (f g : A → bool) l : (∀ x, x ∈ l → f x = g x) → existsb f l = existsb g l.
Proof.
  induction l as [|x l IH]; cbn; [done|]. intros Hl. rewrite (Hl x), IH; [done| |constructor].
  intros y Hy. apply Hl. by constructor.
Qed.

Lemma check_parts_same f g s v :
  (∀ s' v', value_depth s' < value_depth s → f s' v' = g s' v') → check_parts f s v = check_parts g s v.
Proof.
  intros Hfg. unfold check_parts. f_equal.
  - destruct v as [| | | |l|fields]; try done.
    + destruct (get (lit "items") s) as [i|] eqn:Hi; [|done]. apply depth_get in Hi. apply forallb_same. auto.
    + unfold check_fields. f_equal. f_equal. apply forallb_same. intros k _.
      destruct (map_get k (members "properties" s)) as [p|] eqn:Hp; [|done]. apply members_get in Hp. destruct (map_get k fields); auto.
  - destruct (get (lit "anyOf") s) as [[| | | |l|]|] eqn:Hl; try done. apply depth_get in Hl.
    apply existsb_same. intros s' Hs'%depth_item. apply Hfg. lia.
Qed.

Lemma check_fuel n m s v : value_depth s < N.of_nat n → value_depth s < N.of_nat m → check n s v = check m s v.
Proof.
  revert m s v. induction n as [|n IH]; intros m s v Hn Hm; [lia|]. destruct m as [|m]; [lia|]. cbn [check]. f_equal.
  apply check_parts_same. intros s' v' Hs'. apply IH; lia.
Qed.

Lemma is_valid_eq s v : is_valid s v = check_value s v && check_parts is_valid s v.
Proof.
  unfold is_valid at 1. cbn [checks check]. f_equal. apply check_parts_same. intros s' v' Hs'. cbn [is_valid checks].
  apply check_fuel; lia.
Qed.

Lemma typed_as_spec t v : typed_as t v = true ↔ has_type whole_text t v.
Proof.
  destruct v as [| |n| | |]; cbn; try apply bool_decide_eq_true. rewrite orb_true_iff, andb_true_iff, !bool_decide_eq_true.
  destruct n; cbn; unfold whole_text; naive_solver.
Qed.

Lemma forallb_spec {A} (f : A → bool) l : forallb f l = true ↔ ∀ x, x ∈ l → f x = true.
Proof. rewrite forallb_forall. by setoid_rewrite list_elem_of_In. Qed.
Lemma present_spec k m : present k m = true ↔ is_Some (map_get k m).
Proof. apply bool_decide_eq_true. Qed.
Lemma elem_of_keys {V} k (m : list (str * V)) : k ∈ map fst m ↔ is_Some (map_get k m).
Proof.
  induction m as [|[k' v] m IH]; cbn; [split; [by intros ?%not_elem_of_nil|by intros [? ?]]|].
  rewrite elem_of_cons, IH. case_decide; subst; [naive_solver|]. naive_solver.
Qed.

Lemma check_fields_spec s fields :
  check_fields is_valid s fields = true ↔
  (∀ names k, get (lit "required") s = Some (Array names) → String k ∈ names → is_Some (map_get k fields)) ∧
  (∀ k p x, map_get k (members "properties" s) = Some p → map_get k fields = Some x → is_valid p x = true) ∧
  (∀ k x, closed s = true → map_get k fields = Some x → is_Some (map_get k (members "properties" s))).
Proof.
  unfold check_fields. rewrite !andb_true_iff, orb_true_iff, negb_true_iff, !forallb_spec.
  setoid_rewrite elem_of_keys. setoid_rewrite present_spec. split.
  - intros [[Hr Hp] Hc]. split_and!.
    + intros names k Hn Hk. rewrite Hn, forallb_spec in Hr. by apply present_spec, (Hr (String k)).
    + intros k p x Hk Hx. specialize (Hp k). rewrite Hk, Hx in Hp. apply Hp. by eexists.
    + intros k x Hcl Hx. destruct Hc as [Hc|Hc]; [congruence|]. apply Hc. by eexists.
  - intros (Hr & Hp & Hc). split_and!.
    + destruct (get (lit "required") s) as [[| | | |names|]|]; try done. apply forallb_spec. intros x Hx.
      destruct x; try done. apply present_spec. by eapply Hr.
    + intros k _. destruct (map_get k (members "properties" s)) eqn:Hk, (map_get k fields) eqn:Hx; eauto.
    + destruct (closed s); [right|by left]. intros k [x Hx]. eauto.
Qed.

Lemma existsb_spec {A} (f : A → bool) l : existsb f l = true ↔ ∃ x, x ∈ l ∧ f x = true.
Proof. rewrite existsb_exists. by setoid_rewrite list_elem_of_In. Qed.

Lemma check_value_spec s v :
  check_value s v = true ↔
  (∀ t, get (lit "type") s = Some (String t) → has_type whole_text t v) ∧
  (∀ c, get (lit "const") s = Some c → v = c) ∧
  (∀ l, get (lit "enum") s = Some (Array l) → v ∈ l) ∧
  (∀ n text, get (lit "maxLength") s = Some (Number (PosInt n)) → v = String text → N.of_nat (length text) <= n).
Proof.
  unfold check_value. rewrite !andb_true_iff.
  match goal with |- ((?a ∧ ?b) ∧ ?c) ∧ ?d ↔ ?a' ∧ ?b' ∧ ?c' ∧ ?d' =>
    assert (a ↔ a') as ->; [|assert (b ↔ b') as ->; [|assert (c ↔ c') as ->; [|assert (d ↔ d') as ->; [|tauto]]]] end.
  - destruct (get (lit "type") s) as [[]|]; rewrite ?typed_as_spec; naive_solver.
  - destruct (get (lit "const") s); rewrite ?bool_decide_eq_true; naive_solver.
  - destruct (get (lit "enum") s) as [[]|]; rewrite ?bool_decide_eq_true; naive_solver.
  - destruct (get (lit "maxLength") s) as [[| |[]| | |]|], v; rewrite ?N.leb_le; naive_solver.
Qed.

#[export] Instance checks_laws : JsonSchema.
Proof.
  refine {| equal := eq; whole := whole_text |}. intros s v _. rewrite is_valid_eq, andb_true_iff, check_value_spec.
  unfold check_parts. rewrite andb_true_iff. split.
  - intros [(Ht & Hc & He & Hl) [Hp Hu]]. split; auto.
    + intros l Hl'. exists v. split; [by apply He|done].
    + intros names fields k Hr -> Hk. by eapply check_fields_spec.
    + intros ps fields k p x Hps -> Hk Hx. apply check_fields_spec in Hp as (_ & Hp & _). apply (Hp k p x); [|done].
      unfold members. by rewrite Hps.
    + intros fields k x Hcl -> Hx. apply check_fields_spec in Hp as (_ & _ & Hp). by apply (Hp k x).
    + intros s' l x Hs' -> Hx. rewrite Hs', forallb_spec in Hp. auto.
    + intros l Hl'. by rewrite Hl', existsb_spec in Hu.
  - intros Hm. split_and!; try (by eapply Hm).
    + intros l Hl. destruct (meets_enum _ _ _ _ Hm l Hl) as (c & Hc & ->). done.
    + destruct v as [| | | |l|fields]; try done.
      * destruct (get (lit "items") s) as [i|] eqn:Hi; [|done]. apply forallb_spec. intros x. by apply (meets_items _ _ _ _ Hm i l x).
      * apply check_fields_spec. split_and!; [intros; by eapply (meets_required _ _ _ _ Hm)| |intros; by eapply (meets_closed _ _ _ _ Hm)].
        intros k p x. unfold members. destruct (get (lit "properties") s) as [[| | | | |ps]|] eqn:Hps; try done.
        intros Hk Hx. by apply (meets_properties _ _ _ _ Hm ps fields k).
    + destruct (get (lit "anyOf") s) as [[| | | |l|]|] eqn:Hl; try done. apply existsb_spec. by apply (meets_union _ _ _ _ Hm).
Defined.
End Checks.
Import Checks Sizes.

(** ** Examples *)

(** An object with a defaulted member, and the contract of the compiler for it *)
Definition sample_input : json :=
  jobj [("type", jstr "object"); ("properties", jobj [("n", kind_schema "integer");
        ("unit", jobj [("type", jstr "string"); ("default", jstr "day"); ("enum", Array [jstr "day"; jstr "week"])])]);
        ("required", Array [jstr "n"]); ("additionalProperties", Bool false)].
Definition sample_expected : json :=
  closed_object [(lit "n", kind_schema "number"); (lit "unit", kind_schema "string")] [lit "n"; lit "unit"].

Lemma sample_input_ok : validate_root_schema sample_input = Ok ().
Proof. vm_compute. reflexivity. Qed.
Lemma sample_supported s : validate_workflow_schema s = Ok () → supported s.
Proof. apply validate_supported. Qed.

Lemma schemas_compatible_sound_witness :
  schemas_compatible (schema_with_defaults_required sample_input) sample_expected = true ∧
  schemas_compatible sample_input sample_expected = false ∧
  is_valid sample_expected (jobj [("n", Number (PosInt 3)); ("unit", jstr "week")]) = true.
Proof.
  split; [vm_compute; reflexivity|]. split; [vm_compute; reflexivity|].
  apply (schemas_compatible_sound (schema_with_defaults_required sample_input) sample_expected).
  - apply sample_supported. vm_compute. reflexivity.
  - apply sample_supported. vm_compute. reflexivity.
  - vm_compute. reflexivity.
  - vm_compute. reflexivity.
Defined.

Lemma entry_arguments_sound_witness :
  apply_schema_defaults sample_input (jobj [("n", Number (PosInt 3))]) = Ok (jobj [("n", Number (PosInt 3)); ("unit", jstr "day")]) ∧
  is_valid (schema_with_defaults_required sample_input) (jobj [("n", Number (PosInt 3)); ("unit", jstr "day")]) = true.
Proof.
  split; [vm_compute; reflexivity|].
  apply (entry_arguments_sound sample_input (jobj [("n", Number (PosInt 3))])).
  - repeat split; cbn; repeat constructor.
  - exact sample_input_ok.
  - vm_compute. reflexivity.
  - vm_compute. reflexivity.
Defined.
