(* ===== verification/WorkflowExpr.v ===== *)
(** The expressions of a Workflow ([src/src/runtime/workflow/expressions.rs],
    [expressions/inference.rs], [references.rs], with [compare] of [transform.rs] and
    [render_parts] of [model.rs]): the schema the compiler infers for a value, the checks of a
    predicate, their evaluation at run time, and the variables they read.

    The compiler runs the inference with its unlimited budget, so the charges are left out,
    and with them the caches of weights and references, which only save work within one
    request; equal schemas are dropped by their value, as the address is only a short cut.
    The encodings of expressions ([AstText]) and of values ([JsonRender]) are serde's, a float is [Floats]
    with its order ([FloatOrder]).  A diagnostic is kept without the names formatted into it. *)

From S2P Require Import Message Attempt Prelude Text Json Workflow WorkflowGraph WorkflowFlow WorkflowBudget WorkflowSchema.
From stdpp Require Import options.
Open Scope N_scope.

(** The lengths of [serde_json::to_vec] of the authored expressions *)
Class AstText := {
  value_len : WorkflowValue → N;
  predicate_len : WorkflowPredicate → N;
}.

(** [serde_json::to_string] *)
Class JsonRender `{JsonText} := { json_text : json → str }.

(** The order of [f64]: [partial_cmp], the [i128] of its integral part, and the sign of
    [fract]. *)
Class FloatOrder `{Floats} := {
  float_cmp : float → float → option comparison;
  float_trunc : float → Z;
  float_fract : float → comparison;
}.

(** A number of [serde_json] is a finite [f64] at least. *)
Class FloatOrderLaws `{FloatOrder} := {
  as_f64_some n : is_Some (as_f64 n);
  float_cmp_some n m f g : as_f64 n = Some f → as_f64 m = Some g → is_Some (float_cmp f g);
}.

Definition MAX_REFERENCE_COMPONENTS : nat := 32.
Definition MAX_MODEL_MESSAGE_PARTS : nat := 64.

(** ** Inference *)

Definition invalid (detail : string) : WorkflowCompileError := InvalidReference (lit detail).
Definition too_large : WorkflowCompileError := invalid "construction depth/byte bound exceeded".

(** [reference_schema_with] *)
Fixpoint field_schema (schema : json) (keys : list str) : result WorkflowCompileError json :=
  match keys with
  | [] => Ok schema
  | key :: keys =>
      _ ← guard_err (negb (type_is "object" schema && bool_decide (key ∈ schema_required schema))) (invalid "unavailable field");
      schema ← ok_or (invalid "invalid field path") (get (lit "properties") schema ≫= get key);
      field_schema schema keys
  end.

Definition reference_schema (path : list str) (available : SchemaMap) : result WorkflowCompileError json :=
  _ ← guard_err (bool_decide (path = []) || (MAX_REFERENCE_COMPONENTS <? length path)%nat ||
                 existsb (λ key, bool_decide (key = []) || (64 <? len key)) path) (invalid "invalid reference path");
  schema ← ok_or (invalid "node references unavailable producer") (first ← head path; map_get first available);
  schema ← field_schema schema (tail path);
  _ ← guard_err (is_null schema) (invalid "reference schema is not yet known");
  Ok schema.

(** [literal_depth] *)
Fixpoint literal_depth (v : json) (depth : N) : result WorkflowCompileError () :=
  _ ← guard_err (MAX_VALUE_DEPTH <? depth) (invalid "literal depth exceeded");
  match v with
  | Object fields => try_for_each (λ x, literal_depth x.2 (depth + 1)) fields
  | Array items => try_for_each (λ x, literal_depth x (depth + 1)) items
  | _ => Ok ()
  end.

(** [json_type] *)
Definition json_type (v : json) : str :=
  lit match v with
      | Null => "null"
      | Bool _ => "boolean"
      | String _ => "string"
      | Array _ => "array"
      | Object _ => "object"
      | Number (PosInt _ | NegInt _) => "integer"
      | Number (Float _) => "number"
      end%string.

(** The elements of a constructed array *)
Inductive Element := Empty | Finite (kind : json) (values : list json) | Contract (schema : json).

Definition distinct (schemas : list json) : list json :=
  foldl (λ seen s, if decide (s ∈ seen) then seen else seen ++ [s]) [] schemas.

Definition const_of (s : json) : json := default Null (get (lit "const") s).
Definition has_const (s : json) : bool := bool_decide (is_Some (get (lit "const") s)).

Section infer.
Context `{AstText} `{Validator} (available : SchemaMap).

(** [element] *)
Definition element (schemas : list json) : result WorkflowCompileError Element :=
  match distinct schemas with
  | [] => Ok Empty
  | (first :: _) as schemas =>
      if forallb has_const schemas then
        _ ← try_for_each (λ s, guard_err (negb (bool_decide (schema_type s = schema_type first)))
              (invalid "constructed arrays require one element type")) schemas;
        Ok (Finite (default Null (get (lit "type") first)) (distinct (map const_of schemas)))
      else
        candidate ← ok_or (invalid "constructed array element contracts are incompatible")
          (find_first (λ candidate, forallb (λ actual, schemas_compatible actual candidate) schemas) schemas);
        Ok (Contract candidate)
  end.

Definition element_schema (e : Element) : json :=
  match e with
  | Empty => jobj [("type", jstr "array"); ("const", Array [])]
  | Contract schema => jobj [("type", jstr "array"); ("items", schema)]
  | Finite kind values => jobj [("type", jstr "array"); ("items", jobj [("type", kind); ("enum", Array values)])]
  end.

(** [template] *)
Fixpoint template_parts (index : N) (parts : list WorkflowValue) : result WorkflowCompileError () :=
  match parts with
  | [] => Ok ()
  | part :: parts =>
      _ ← match part with
          | VLiteral (String _) => Ok ()
          | VReference path => map_err (at_path (lit "parts." ++ dec index)) (_ ← reference_schema path available; Ok ())
          | _ => Err (at_path (lit "parts." ++ dec index) (invalid "template parts are text or references only"))
          end;
      template_parts (index + 1) parts
  end.

Definition template_schema (parts : list WorkflowValue) : result WorkflowCompileError json :=
  _ ← guard_err (MAX_MODEL_MESSAGE_PARTS <? length parts)%nat (invalid "template exceeds its part bound");
  _ ← template_parts 0 parts;
  Ok (kind_schema "string").

Section parts.
Variable infer : WorkflowValue → result WorkflowCompileError json.

Fixpoint infer_fields (fields : list (str * WorkflowValue)) : result WorkflowCompileError (list (str * json)) :=
  match fields with
  | [] => Ok []
  | (key, value) :: fields =>
      _ ← guard_err (bool_decide (key = []) || (64 <? len key)) (invalid "invalid construction field");
      schema ← map_err (at_path (lit "fields." ++ key)) (infer value);
      rest ← infer_fields fields; Ok ((key, schema) :: rest)
  end.

Fixpoint infer_items (index : N) (items : list WorkflowValue) : result WorkflowCompileError (list json) :=
  match items with
  | [] => Ok []
  | item :: items =>
      schema ← map_err (at_path (lit "items." ++ dec index)) (infer item);
      rest ← infer_items (index + 1) items; Ok (schema :: rest)
  end.
End parts.

(** [infer], without a replacement *)
Fixpoint infer (depth : N) (e : WorkflowValue) : result WorkflowCompileError json :=
  _ ← guard_err (MAX_VALUE_DEPTH <? depth) too_large;
  _ ← guard_err (MAX_VALUE_BYTES <? value_len e) too_large;
  match e with
  | VReference path => reference_schema path available
  | VLiteral value =>
      _ ← literal_depth value depth;
      Ok (jobj [("type", String (json_type value)); ("const", value)])
  | VObject fields =>
      children ← infer_fields (λ e, infer (depth + 1) e) fields;
      Ok (closed_object (collect_map children) (map fst fields))
  | VArray items =>
      schemas ← infer_items (λ e, infer (depth + 1) e) 0 items;
      element ← element schemas;
      Ok (element_schema element)
  | VTemplate parts => template_schema parts
  end.

(** [value_schema] *)
Definition value_schema (e : WorkflowValue) (depth : N) : result WorkflowCompileError json := infer depth e.

(** ** Predicates *)

Definition equality_type_supported (kind : str) : bool :=
  bool_decide (kind ∈ map lit ["boolean"; "string"; "null"; "number"; "integer"]%string).
Definition numeric (kind : option str) : bool := bool_decide (kind = Some (lit "number") ∨ kind = Some (lit "integer")).

(** [equality_types_compatible] *)
Definition equality_types_compatible (left right : option str) : bool :=
  numeric left && numeric right ||
  match left with Some kind => equality_type_supported kind && bool_decide (left = right) | None => false end.

Definition is_empty_text (e : WorkflowValue) : bool := match e with VLiteral (String []) => true | _ => false end.

(** The containment check *)
Definition containable (left_schema right_schema : json) (right : WorkflowValue) : bool :=
  if type_is "array" left_schema then
    match get (lit "items") left_schema with
    | Some item => schemas_compatible right_schema item || numeric (schema_type item) && numeric (schema_type right_schema)
    | None =>
        match get (lit "const") left_schema ≫= as_array with
        | Some items =>
            forallb (λ item, equality_types_compatible (Some (json_type item)) (schema_type right_schema)) items &&
            match schema_type right_schema with Some kind => equality_type_supported kind | None => false end
        | None => false
        end
    end
  else if type_is "string" left_schema then type_is "string" right_schema && negb (is_empty_text right)
  else false.

Definition both (left right : WorkflowValue) (depth : N) (check : json → json → bool) (detail : string) : result WorkflowCompileError () :=
  l ← value_schema left (depth + 1); r ← value_schema right (depth + 1); guard_err (negb (check l r)) (invalid detail).

(** [validate_predicate] *)
Fixpoint validate_predicate (depth : N) (p : WorkflowPredicate) : result WorkflowCompileError () :=
  _ ← guard_err ((MAX_VALUE_DEPTH <? depth) || (MAX_VALUE_BYTES <? predicate_len p)) too_large;
  match p with
  | PBoolean value =>
      s ← value_schema value (depth + 1);
      guard_err (negb (type_is "boolean" s)) (IncompatibleReference (lit "predicate requires boolean; no truthiness"))
  | PEqual x y | PNotEqual x y =>
      both x y depth (λ l r, equality_types_compatible (schema_type l) (schema_type r)) "equality requires matching scalar types"
  | PGreater x y | PGreaterEqual x y | PLess x y | PLessEqual x y =>
      both x y depth (λ l r, numeric (schema_type l) && numeric (schema_type r)) "numeric comparison requires two numeric operands"
  | PContains x y | PNotContains x y =>
      both x y depth (λ l r, containable l r y) "containment requires strings or an array with a matching item"
  | PStartsWith x y | PEndsWith x y =>
      _ ← guard_err (is_empty_text y) (invalid "string comparison requires a nonempty value");
      l ← value_schema x (depth + 1);
      _ ← guard_err (negb (type_is "string" l)) (invalid "string comparison requires two string operands");
      r ← value_schema y (depth + 1);
      guard_err (negb (type_is "string" r)) (invalid "string comparison requires two string operands")
  | PEmpty value | PNotEmpty value => _ ← value_schema value (depth + 1); Ok ()
  | PNot p => validate_predicate (depth + 1) p
  | PAnd ps | POr ps =>
      _ ← guard_err (bool_decide (ps = [])) (invalid "boolean composition must be nonempty");
      try_for_each (λ p, validate_predicate (depth + 1) p) ps
  end.
End infer.

(** ** Evaluation *)

Definition invalid_value (detail : string) : WorkflowRunError := InvalidValue (lit detail).

(** [rendered_value] *)
Definition rendered_value `{JsonRender} (v : json) : str := match v with String s => s | v => json_text v end.

Section evaluate.
Context `{JsonRender} (input : json) (values : list (str * json)).

Definition evaluate_reference (path : list str) : result WorkflowRunError json :=
  match path with
  | [] => Err (invalid_value "empty reference")
  | first :: keys =>
      v ← (if decide (first = lit "args") then Ok input else ok_or (UncommittedReference path) (map_get first values));
      ok_or (invalid_value "uncommitted reference") (foldl (λ v key, v ≫= get key) (Some v) keys)
  end.

Section parts.
Variable evaluate : WorkflowValue → result WorkflowRunError json.

(** The loop of [evaluate_object] *)
Fixpoint object_fields (fields : list (str * WorkflowValue)) (done : list (str * json)) (bytes : N)
    : result WorkflowRunError (list (str * json)) :=
  match fields with
  | [] => Ok done
  | (key, e) :: fields =>
      v ← evaluate e;
      n ← bounded_value_bytes v;
      let bytes := bytes + key_len key + n + 1 + N.b2n (negb (is_empty_list done)) in
      _ ← guard_err (MAX_VALUE_BYTES <? bytes) (invalid_value "constructed object byte bound exceeded");
      object_fields fields (map_insert key v done) bytes
  end.

Fixpoint array_items (items : list WorkflowValue) (done : list json) (bytes : N) : result WorkflowRunError (list json) :=
  match items with
  | [] => Ok done
  | item :: items =>
      v ← evaluate item;
      let bytes := bytes + json_len v + 1 in
      _ ← guard_err (MAX_VALUE_BYTES <? bytes - 1) (invalid_value "constructed array byte bound exceeded");
      array_items items (done ++ [v]) bytes
  end.

(** [render_parts_budget] *)
Fixpoint render_parts_budget (parts : list WorkflowValue) (text : str) (remaining : N) : result WorkflowRunError (str * N) :=
  match parts with
  | [] => Ok (text, remaining)
  | part :: parts =>
      v ← evaluate part;
      let rendered := rendered_value v in
      _ ← guard_err (remaining <? len rendered) (invalid_value "rendered text byte budget exceeded");
      render_parts_budget parts (text ++ rendered) (remaining - len rendered)
  end.

(** [render_parts] *)
Definition render_parts (parts : list WorkflowValue) : result WorkflowRunError str :=
  '(text, _) ← render_parts_budget parts [] MAX_VALUE_BYTES; Ok text.
End parts.

(** [evaluate_value] *)
Fixpoint evaluate_value (e : WorkflowValue) : result WorkflowRunError json :=
  v ← match e with
      | VReference path => evaluate_reference path
      | VLiteral value => Ok value
      | VObject fields => Object <$> object_fields (λ e, evaluate_value e) fields [] 2
      | VArray items => Array <$> array_items (λ e, evaluate_value e) items [] 2
      | VTemplate parts => String <$> render_parts (λ e, evaluate_value e) parts
      end;
  _ ← bounded_value_bytes v;
  Ok v.

Definition evaluate_object (fields : list (str * WorkflowValue)) : result WorkflowRunError json :=
  Object <$> object_fields evaluate_value fields [] 2.
End evaluate.

Section compare.
Context `{FloatOrder}.

(** [compare_integer_float] *)
Definition compare_integer_float (integer : Z) (f : float) : comparison :=
  match (integer ?= float_trunc f)%Z with
  | Eq => match float_fract f with Gt => Lt | Lt => Gt | Eq => Eq end
  | order => order
  end.

Definition integer_of (n : json_number) : option Z :=
  match n with PosInt n => Some (Z.of_N n) | NegInt z => Some z | Float _ => None end.

(** [transform::compare] *)
Definition compare (left right : json) : option comparison :=
  match left, right with
  | String a, String b => Some (str_cmp a b)
  | Bool a, Bool b => Some (Bool.compare a b)
  | Number a, Number b =>
      match integer_of a, integer_of b with
      | Some x, Some y => Some (x ?= y)%Z
      | Some x, None => y ← as_f64 b; Some (compare_integer_float x y)
      | None, Some y => x ← as_f64 a; Some (CompOpp (compare_integer_float y x))
      | None, None => x ← as_f64 a; y ← as_f64 b; float_cmp x y
      end
  | _, _ => None
  end.

(** Equality of two operands: by value, of numbers by their order *)
Definition same_value (left right : json) : bool :=
  if is_number left && is_number right then bool_decide (compare left right = Some Eq) else bool_decide (left = right).

(** [is_empty] *)
Definition is_empty (v : json) : bool :=
  match v with
  | Null => true
  | Bool b => negb b
  | Number n => match as_f64 n with Some f => float_is_zero f | None => false end
  | String s => bool_decide (s = [])
  | Array l => bool_decide (l = [])
  | Object m => bool_decide (m = [])
  end.
End compare.

(** [str::starts_with], [ends_with] and [contains] *)
Definition starts_with (s p : str) : bool := bool_decide (take (length p) s = p).
Definition ends_with (s p : str) : bool := bool_decide (drop (length s - length p) s = p).
Fixpoint str_contains (s p : str) : bool := starts_with s p || match s with [] => false | _ :: s => str_contains s p end.

Section predicates.
Context `{JsonRender} `{FloatOrder} (input : json) (values : list (str * json)).
Local Abbreviation eval := (evaluate_value input values).

Definition ordered_by (left right : WorkflowValue) (test : comparison → bool) : result WorkflowRunError bool :=
  l ← eval left; r ← eval right;
  _ ← guard_err (negb (is_number l && is_number r)) (invalid_value "non-numeric comparison operand");
  test <$> ok_or (invalid_value "numeric operands are not comparable") (compare l r).

Definition equality (left right : WorkflowValue) (wanted : bool) : result WorkflowRunError bool :=
  l ← eval left; r ← eval right; Ok (Bool.eqb (same_value l r) wanted).

Definition containment (left right : WorkflowValue) (wanted : bool) : result WorkflowRunError bool :=
  l ← eval left; r ← eval right;
  contains ← match l with
             | Array items => Ok (existsb (λ item, same_value item r) items)
             | String text => str_contains text <$> ok_or (invalid_value "non-string containment operand") (as_str r)
             | _ => Err (invalid_value "containment requires a string or array")
             end;
  Ok (Bool.eqb contains wanted).

Definition text_test (left right : WorkflowValue) (test : str → str → bool) : result WorkflowRunError bool :=
  l ← eval left; r ← eval right;
  l ← ok_or (invalid_value "nonstring left operand") (as_str l);
  r ← ok_or (invalid_value "nonstring right operand") (as_str r);
  Ok (test l r).

(** The loop of [And] and [Or], which stops at the first operand that decides it *)
Fixpoint junction (evaluate : WorkflowPredicate → result WorkflowRunError bool) (conj : bool) (ps : list WorkflowPredicate)
    : result WorkflowRunError bool :=
  match ps with
  | [] => Ok conj
  | p :: ps => v ← evaluate p; if Bool.eqb v conj then junction evaluate conj ps else Ok v
  end.

(** [evaluate_predicate] *)
Fixpoint evaluate_predicate (p : WorkflowPredicate) : result WorkflowRunError bool :=
  match p with
  | PBoolean value => v ← eval value; ok_or (invalid_value "nonboolean predicate") (as_bool v)
  | PEqual x y => equality x y true
  | PNotEqual x y => equality x y false
  | PGreater x y => ordered_by x y (λ o, match o with Gt => true | _ => false end)
  | PGreaterEqual x y => ordered_by x y (λ o, match o with Lt => false | _ => true end)
  | PLess x y => ordered_by x y (λ o, match o with Lt => true | _ => false end)
  | PLessEqual x y => ordered_by x y (λ o, match o with Gt => false | _ => true end)
  | PContains x y => containment x y true
  | PNotContains x y => containment x y false
  | PStartsWith x y => text_test x y starts_with
  | PEndsWith x y => text_test x y ends_with
  | PEmpty value => v ← eval value; Ok (is_empty v)
  | PNotEmpty value => v ← eval value; Ok (negb (is_empty v))
  | PNot p => negb <$> evaluate_predicate p
  | PAnd ps => junction (λ p, evaluate_predicate p) true ps
  | POr ps => junction (λ p, evaluate_predicate p) false ps
  end.
End predicates.

(** ** What evaluation may end with *)

(** The errors of the bounds of a value *)
Definition bound_errors : list WorkflowRunError :=
  map invalid_value ["constructed array byte bound exceeded"; "constructed object byte bound exceeded"; "rendered text byte budget exceeded";
                     "constructed value byte bound exceeded"; "constructed value depth exceeded"]%string.

(** A result that is as promised, or over a bound *)
Definition safe {A} (promise : A → Prop) (m : result WorkflowRunError A) : Prop :=
  match m with Ok a => promise a | Err e => e ∈ bound_errors end.

Lemma safe_bind {A B} (P : A → Prop) (Q : B → Prop) m (f : A → result WorkflowRunError B) :
  safe P m → (∀ a, P a → safe Q (f a)) → safe Q (m ≫= f).
Proof. destruct m; cbn; auto. Qed.
Lemma safe_fmap {A B} (P : A → Prop) (Q : B → Prop) m (f : A → B) : safe P m → (∀ a, P a → Q (f a)) → safe Q (f <$> m).
Proof. destruct m; cbn; auto. Qed.
Lemma safe_weaken {A} (P Q : A → Prop) m : safe P m → (∀ a, P a → Q a) → safe Q m.
Proof. destruct m; cbn; auto. Qed.
Lemma safe_guard {A} (Q : A → Prop) b e (m : result WorkflowRunError A) : e ∈ bound_errors → safe Q m → safe Q (_ ← guard_err b e; m).
Proof. destruct b; cbn; auto. Qed.
Lemma safe_bounded `{JsonText} v : safe (λ _, True) (bounded_value_bytes v).
Proof.
  unfold bounded_value_bytes. apply safe_guard; [do 3 apply list_elem_of_further; constructor|].
  apply safe_guard; [do 4 apply list_elem_of_further; constructor|]. done.
Qed.

Lemma value_induction (P : WorkflowValue → Prop) :
  (∀ path, P (VReference path)) → (∀ v, P (VLiteral v)) →
  (∀ fields, (∀ k e, (k, e) ∈ fields → P e) → P (VObject fields)) →
  (∀ items, (∀ e, e ∈ items → P e) → P (VArray items)) →
  (∀ parts, (∀ e, e ∈ parts → P e) → P (VTemplate parts)) → ∀ e, P e.
Proof.
  intros Hr Hl Ho Ha Ht. fix IH 1. intros [path|v|fields|items|parts].
  - apply Hr.
  - apply Hl.
  - apply Ho. assert (Hall : Forall (λ x, P x.2) fields).
    { induction fields as [|[k' e'] fields IHf]; constructor; [apply IH|apply IHf]. }
    intros k e. by apply (proj1 (Forall_forall _ _) Hall (k, e)).
  - apply Ha. assert (Hall : Forall P items) by (induction items as [|e' items IHf]; constructor; [apply IH|apply IHf]).
    by apply Forall_forall.
  - apply Ht. assert (Hall : Forall P parts) by (induction parts as [|e' parts IHf]; constructor; [apply IH|apply IHf]).
    by apply Forall_forall.
Qed.

Lemma predicate_induction (P : WorkflowPredicate → Prop) :
  (∀ p, match p with PNot _ | PAnd _ | POr _ => True | _ => P p end) →
  (∀ p, P p → P (PNot p)) → (∀ ps, (∀ p, p ∈ ps → P p) → P (PAnd ps)) → (∀ ps, (∀ p, p ∈ ps → P p) → P (POr ps)) → ∀ p, P p.
Proof.
  intros Hb Hn Ha Ho. fix IH 1. intros p. pose proof (Hb p) as Hp. destruct p as [| | | | | | | | | | | | |p|ps|ps]; try exact Hp.
  - apply Hn, IH.
  - apply Ha. assert (Hall : Forall P ps) by (induction ps as [|p' ps IHf]; constructor; [apply IH|apply IHf]).
    by apply Forall_forall.
  - apply Ho. assert (Hall : Forall P ps) by (induction ps as [|p' ps IHf]; constructor; [apply IH|apply IHf]).
    by apply Forall_forall.
Qed.

(** ** Derived schemas *)

Lemma elem_of_distinct s l : s ∈ distinct l ↔ s ∈ l.
Proof.
  unfold distinct. assert (Hg : ∀ seen, s ∈ foldl (λ seen s, if decide (s ∈ seen) then seen else seen ++ [s]) seen l ↔ s ∈ seen ∨ s ∈ l).
  { induction l as [|x l IH]; intros seen; cbn; [set_solver|]. rewrite IH. case_decide; set_solver. }
  rewrite Hg. set_solver.
Qed.

(** A keyword of a derived schema: the keys are literals. *)
Ltac schema_key Hk := first [discriminate Hk | injection Hk as <-].
Ltac known_key := apply (bool_decide_eq_true_1 _); vm_compute; reflexivity.

Lemma supported_kind t : t ∈ WORKFLOW_SCHEMA_TYPES → supported (Object [(lit "type", String t)]).
Proof.
  intros Ht. apply (supported_plain _ t); try done. intros k ->%list_elem_of_singleton. known_key.
Qed.

Lemma supported_const t c : t ∈ WORKFLOW_SCHEMA_TYPES → supported (jobj [("type", String t); ("const", c)]).
Proof.
  intros Ht. change (jobj _) with (Object [(lit "const", c); (lit "type", String t)]). apply (supported_plain _ t); try done.
  intros k [->|[->|Hk]%elem_of_cons]%elem_of_cons; [known_key|known_key|by apply not_elem_of_nil in Hk].
Qed.

Lemma supported_enum_of t l : t ∈ WORKFLOW_SCHEMA_TYPES → supported (jobj [("type", String t); ("enum", Array l)]).
Proof.
  intros Ht. change (jobj _) with (Object [(lit "enum", Array l); (lit "type", String t)]). apply (supported_plain _ t); try done.
  - intros k [->|[->|Hk]%elem_of_cons]%elem_of_cons; [known_key|known_key|by apply not_elem_of_nil in Hk].
  - intros e [= <-]. by exists l.
Qed.

Lemma supported_array s : supported s → supported (jobj [("type", jstr "array"); ("items", s)]).
Proof.
  intros Hs. change (jobj _) with (Object [(lit "items", s); (lit "type", String (lit "array"))]).
  apply (supported_plain _ (lit "array")); try done.
  - intros k [->|[->|Hk]%elem_of_cons]%elem_of_cons; [known_key|known_key|by apply not_elem_of_nil in Hk].
  - known_key.
  - intros s' [= <-]. done.
Qed.

Lemma closed_object_eq properties required :
  closed_object properties required =
    Object [(lit "additionalProperties", Bool false); (lit "properties", Object properties);
            (lit "required", Array (map String required)); (lit "type", String (lit "object"))].
Proof. reflexivity. Qed.

Lemma supported_closed properties required :
  (∀ k p, map_get k properties = Some p → supported p) → supported (closed_object properties required).
Proof.
  intros Hp. rewrite closed_object_eq. apply (supported_plain _ (lit "object")); try done.
  - intros k Hk. repeat (apply elem_of_cons in Hk as [->|Hk]; [known_key|]). by apply not_elem_of_nil in Hk.
  - known_key.
  - intros p [= <-]. by eexists.
  - intros ps k p [= <-]. apply Hp.
  - intros r [= <-]. by eexists.
  - intros a [= <-]. by eexists.
Qed.

(** ** The values of the environment *)

(** The root a reference starts from *)
Definition root (input : json) (values : list (str * json)) (first : str) : option json :=
  if decide (first = lit "args") then Some input else map_get first values.

(** The environment has a value for every schema in scope, and it meets the schema; a schema
    that is not yet known is [Null]. *)
Definition conforms `{Validator} (available : SchemaMap) (input : json) (values : list (str * json)) : Prop :=
  ∀ k s, map_get k available = Some s →
    s = Null ∨ supported s ∧ ∃ v, root input values k = Some v ∧ is_valid s v = true.

Section typed.
Context `{JsonSchema}.

Lemma valid_by s v : supported s → meets equal whole s v → is_valid s v = true.
Proof using All. intros Hs. by apply is_valid_iff. Qed.

(** A value of the literal's schema *)
Lemma const_valid t c : t ∈ WORKFLOW_SCHEMA_TYPES → has_type whole t c → is_valid (jobj [("type", String t); ("const", c)]) c = true.
Proof using All.
  intros Hty Ht. apply valid_by; [by apply supported_const|]. change (jobj _) with (Object [(lit "const", c); (lit "type", String t)]).
  split; try discriminate.
  - intros t' [= <-]. done.
  - intros c' [= <-]. reflexivity.
Qed.

Lemma json_type_type v : json_type v ∈ WORKFLOW_SCHEMA_TYPES ∧ has_type whole (json_type v) v.
Proof using All.
  destruct v as [| |[]| | |]; (split; [known_key|]); first [reflexivity|by left|by right].
Qed.

Lemma kind_valid t v : t ∈ WORKFLOW_SCHEMA_TYPES → has_type whole t v → is_valid (Object [(lit "type", String t)]) v = true.
Proof using All.
  intros Hty Ht. apply valid_by; [by apply supported_kind|]. split; try discriminate. intros t' [= <-]. done.
Qed.

Lemma closed_valid properties required fields :
  (∀ k p, map_get k properties = Some p → supported p) →
  (∀ k, k ∈ required → is_Some (map_get k fields)) →
  (∀ k p x, map_get k properties = Some p → map_get k fields = Some x → is_valid p x = true) →
  (∀ k x, map_get k fields = Some x → is_Some (map_get k properties)) →
  is_valid (closed_object properties required) (Object fields) = true.
Proof using All.
  intros Hs Hr Hp Hc. apply valid_by; [by apply supported_closed|]. rewrite closed_object_eq. split; try discriminate.
  - intros t [= <-]. done.
  - intros names fields' k [= <-] [= <-] (k' & [= <-] & Hk)%list_elem_of_fmap. auto.
  - intros ps fields' k p x [= <-] [= <-]. apply Hp.
  - intros fields' k x _ [= <-] Hx. by eapply Hc.
Qed.

Lemma items_valid s l : supported s → (∀ x, x ∈ l → is_valid s x = true) → is_valid (jobj [("type", jstr "array"); ("items", s)]) (Array l) = true.
Proof using All.
  intros Hs Hl. apply valid_by; [by apply supported_array|].
  change (jobj _) with (Object [(lit "items", s); (lit "type", String (lit "array"))]). split; try discriminate.
  - intros t [= <-]. done.
  - intros s' l' x [= <-] [= <-]. apply Hl.
Qed.

Lemma enum_valid t l v : t ∈ WORKFLOW_SCHEMA_TYPES → has_type whole t v → (∃ c, c ∈ l ∧ equal v c) → is_valid (jobj [("type", String t); ("enum", Array l)]) v = true.
Proof using All.
  intros Hty Ht Hc. apply valid_by; [by apply supported_enum_of|].
  change (jobj _) with (Object [(lit "enum", Array l); (lit "type", String t)]). split; try discriminate.
  - intros t' [= <-]. done.
  - intros l' [= <-]. done.
Qed.

(** A schema with a constant declares its type. *)
Lemma const_type s : supported s → has_const s = true → ∃ t, get (lit "type") s = Some (String t) ∧ schema_type s = Some t ∧ t ∈ WORKFLOW_SCHEMA_TYPES.
Proof using.
  intros Hs Hc%bool_decide_eq_true. destruct Hs as [l|m t]; [by destruct Hc|]. exists t. unfold schema_type. cbn [get].
  split; [done|]. split; [|done]. rewrite H2. done.
Qed.

(** ** Inference is sound *)

(** The members of two maps built side by side *)
Definition paired (props fields : list (str * json)) : Prop :=
  ∀ k, match map_get k props, map_get k fields with
       | Some s, Some x => supported s ∧ is_valid s x = true
       | None, None => True
       | _, _ => False
       end.

Lemma paired_insert props fields k s x :
  paired props fields → supported s → is_valid s x = true → paired (map_insert k s props) (map_insert k x fields).
Proof using All. intros Hp Hs Hx k'. rewrite !map_get_insert. case_decide; [done|]. apply Hp. Qed.

Lemma element_supported schemas el : element schemas = Ok el → Forall supported schemas → supported (element_schema el).
Proof using All.
  unfold element. intros He Hs. rewrite Forall_forall in Hs.
  assert (Hd : ∀ s, s ∈ distinct schemas → supported s) by (intros s Hin; by apply Hs, elem_of_distinct).
  destruct (distinct schemas) as [|first rest]; [injection He as <-; apply (supported_const (lit "array")); known_key|].
  destruct (forallb has_const (first :: rest)) eqn:Hc.
  - apply bind_ok in He as (u & _ & [= <-]). rewrite forallb_forall in Hc.
    destruct (const_type first) as (t & Ht & _ & Hty); [apply Hd; constructor|apply Hc; by left|].
    cbn [element_schema]. rewrite Ht. by apply supported_array, supported_enum_of.
  - apply bind_ok in He as (c & Hf%ok_or_ok & [= <-]). apply find_first_Some in Hf as [Hin _]. by apply supported_array, Hd.
Qed.

Lemma element_sound schemas el l :
  element schemas = Ok el → Forall supported schemas → Forall2 (λ s x, is_valid s x = true) schemas l →
  is_valid (element_schema el) (Array l) = true.
Proof using All.
  unfold element. intros He Hs Hv. pose proof (elem_of_distinct) as Hd. rewrite Forall_forall in Hs.
  assert (Hx : ∀ x, x ∈ l → ∃ s, s ∈ distinct schemas ∧ supported s ∧ is_valid s x = true).
  { intros x (i & Hi)%list_elem_of_lookup. apply (Forall2_lookup_r _ _ _ _ _ Hv) in Hi as (s & Hi & Hsx).
    apply list_elem_of_lookup_2 in Hi. exists s. rewrite Hd. auto. }
  assert (Hd' : ∀ s, s ∈ distinct schemas → supported s) by (intros s Hin; by apply Hs, Hd).
  clear Hs Hv Hd. destruct (distinct schemas) as [|first rest] eqn:Ed.
  { injection He as <-. assert (l = []) as -> by (destruct l as [|x l]; [done|destruct (Hx x) as (s & Hin%not_elem_of_nil & _); [constructor|done]]).
    apply (const_valid (lit "array")); [known_key|done]. }
  destruct (forallb has_const (first :: rest)) eqn:Hc.
  - apply bind_ok in He as (u & Htypes & [= <-]). destruct u. rewrite forallb_forall in Hc.
    apply try_for_each_ok in Htypes. rewrite Forall_forall in Htypes.
    destruct (const_type first) as (t & Ht & Hst & Hty); [apply Hd'; constructor|apply Hc; by left|].
    rewrite Ht. cbn [default]. cbn [element_schema]. pose proof (supported_enum_of t (distinct (map const_of (first :: rest))) Hty) as Hse.
    apply items_valid; [done|]. intros x (s & Hin & Hss & Hsx)%Hx.
    specialize (Htypes s Hin). apply guard_err_ok, negb_false_iff, bool_decide_eq_true in Htypes.
    specialize (Hc s). rewrite <- list_elem_of_In in Hc. specialize (Hc Hin). apply bool_decide_eq_true in Hc as [c Hc].
    pose proof (proj1 (is_valid_iff s x Hss) Hsx) as Hm. apply enum_valid; [done| |].
    + apply (meets_type _ _ _ _ Hm). apply schema_type_get. congruence.
    + exists c. split; [|by apply (meets_const _ _ _ _ Hm)]. apply elem_of_distinct.
      replace c with (const_of s) by (unfold const_of; by rewrite Hc). exact (list_elem_of_fmap_2 const_of (first :: rest) s Hin).
  - apply bind_ok in He as (c & Hf%ok_or_ok & [= <-]). apply find_first_Some in Hf as [Hin Hall]. rewrite forallb_forall in Hall.
    apply items_valid; [auto|]. intros x (s & Hsin & Hss & Hsx)%Hx.
    apply (compatible_valid s c); auto. by apply Hall, list_elem_of_In.
Qed.
End typed.

(** ** Maps that are collected *)

Lemma infer_fields_in infer fields children :
  infer_fields infer fields = Ok children →
  map fst children = map fst fields ∧ ∀ k s, (k, s) ∈ children → ∃ e, (k, e) ∈ fields ∧ infer e = Ok s.
Proof.
  revert children. induction fields as [|[key e] fields IH]; intros children; cbn [infer_fields].
  { intros [= <-]. split; [done|]. by intros k s ?%not_elem_of_nil. }
  intros Hi. apply bind_ok in Hi as (u & _ & Hi). apply bind_ok in Hi as (s & Hs%map_err_ok & Hi).
  apply bind_ok in Hi as (rest & Hrest & [= <-]). destruct (IH rest Hrest) as [Hk Hin]. split; [cbn; by f_equal|].
  intros k s' [[= -> ->]|Hs']%elem_of_cons; [exists e; split; [constructor|done]|].
  destruct (Hin k s' Hs') as (e' & He' & ?). exists e'. split; [by constructor|done].
Qed.

Lemma collect_get {V} (l m : list (str * V)) k v :
  map_get k (foldl (λ m kv, map_insert kv.1 kv.2 m) m l) = Some v → map_get k m = Some v ∨ (k, v) ∈ l.
Proof.
  revert m. induction l as [|[k' v'] l IH]; intros m; cbn [foldl]; [by left|]. intros [Hg|Hin]%IH; [|right; by constructor].
  cbn in Hg. rewrite map_get_insert in Hg. case_decide; [|by left]. injection Hg as ->. subst. right. constructor.
Qed.
Lemma collect_some {V} (l m : list (str * V)) k :
  is_Some (map_get k m) ∨ k ∈ map fst l → is_Some (map_get k (foldl (λ m kv, map_insert kv.1 kv.2 m) m l)).
Proof.
  revert m. induction l as [|[k' v'] l IH]; intros m; cbn [foldl]; [intros [?|?%not_elem_of_nil]; done|].
  cbn [map fst snd]. intros Hor. apply IH. rewrite map_get_insert. case_decide; [left; by eexists|].
  destruct Hor as [?|Hor]; [by left|]. apply elem_of_cons in Hor as [?|?]; [done|by right].
Qed.

Section inference.
Context `{AstText} `{JsonRender} `{JsonSchema}.
Context (available : SchemaMap) (input : json) (values : list (str * json)) (Hconf : conforms available input values).
Local Abbreviation eval := (evaluate_value input values).

Lemma field_schema_null keys s : field_schema Null keys = Ok s → s = Null.
Proof using. destruct keys; cbn; [by intros [= <-]|done]. Qed.

(** A field the compiler resolves is there in every value of the schema. *)
Lemma field_sound keys s s' v :
  field_schema s keys = Ok s' → supported s → is_valid s v = true →
  supported s' ∧ ∃ x, foldl (λ v key, v ≫= get key) (Some v) keys = Some x ∧ is_valid s' x = true.
Proof using All.
  revert s v. induction keys as [|key keys IH]; intros s v; cbn [field_schema foldl]; [intros [= ->]; eauto|].
  intros Hf Hs Hv. apply bind_ok in Hf as (u & Hg%guard_err_ok%negb_false_iff & Hf).
  apply andb_prop in Hg as [Ht%type_is_spec Hr%bool_decide_eq_true].
  apply bind_ok in Hf as (p & Hp%ok_or_ok & Hf). destruct (valid_object s v Hs Hv Ht) as [fields ->].
  pose proof (meets_valid s _ Hs Hv) as Hm. destruct (required_get s key Hs Hr) as (ks & Hreq & Hin).
  destruct (meets_required _ _ _ _ Hm _ fields key Hreq eq_refl Hin) as [x Hx]. cbn [mbind option_bind get]. rewrite Hx.
  destruct (get (lit "properties") s) as [q|] eqn:Hq; [|done]. pose proof (supported_object s q Hs Hq) as ->. cbn in Hp.
  apply (IH p x Hf); [by apply (supported_member s key)|]. by apply (meets_properties _ _ _ _ Hm _ fields key p x Hq).
Qed.

Lemma reference_sound path s :
  reference_schema path available = Ok s →
  supported s ∧ ∃ v, evaluate_reference input values path = Ok v ∧ is_valid s v = true.
Proof using All.
  unfold reference_schema. intros Hr. apply bind_ok in Hr as (u & _ & Hr). apply bind_ok in Hr as (s0 & Hs0%ok_or_ok & Hr).
  apply bind_ok in Hr as (s1 & Hf & Hr). apply bind_ok in Hr as (u' & Hn%guard_err_ok & [= <-]).
  destruct path as [|first keys]; [done|]. cbn in Hs0, Hf.
  destruct (Hconf first s0 Hs0) as [->|(Hs & v & Hroot & Hv)]; [by apply field_schema_null in Hf as ->|].
  destruct (field_sound keys s0 s1 v Hf Hs Hv) as (Hs1 & x & Hx & Hvx). split; [done|]. exists x. split; [|done].
  unfold evaluate_reference. unfold root in Hroot. case_decide; [injection Hroot as ->|rewrite Hroot]; cbn; by rewrite Hx.
Qed.

(** The promise of an inferred schema *)
Definition sound (e : WorkflowValue) : Prop :=
  ∀ depth s, infer available depth e = Ok s → supported s ∧ safe (λ v, is_valid s v = true) (eval e).

Lemma fields_sound depth fields children props done bytes :
  (∀ k e, (k, e) ∈ fields → sound e) → infer_fields (λ e, infer available depth e) fields = Ok children → paired props done →
  safe (λ done', paired (foldl (λ m kv, map_insert kv.1 kv.2 m) props children) done') (object_fields eval fields done bytes).
Proof using All.
  revert children props done bytes. induction fields as [|[key e] fields IH]; intros children props done bytes He; cbn [infer_fields].
  { by intros [= <-]. }
  intros Hi Hp. apply bind_ok in Hi as (u & _ & Hi). apply bind_ok in Hi as (s & Hs%map_err_ok & Hi).
  apply bind_ok in Hi as (rest & Hrest & [= <-]).
  destruct (He key e (list_elem_of_here _ _) depth s Hs) as [Hsup Hsafe]. cbn [object_fields foldl fst snd].
  eapply safe_bind; [exact Hsafe|]. intros v Hv. eapply safe_bind; [apply safe_bounded|]. intros n _.
  apply safe_guard; [by apply list_elem_of_further, list_elem_of_here|].
  apply IH; [intros k e' Hin; apply (He k e'); by constructor|done|by apply paired_insert].
Qed.

Lemma items_sound depth index items schemas done bytes :
  (∀ e, e ∈ items → sound e) → infer_items (λ e, infer available depth e) index items = Ok schemas →
  Forall supported schemas ∧
  safe (λ l, ∃ l', l = done ++ l' ∧ Forall2 (λ s x, is_valid s x = true) schemas l') (array_items eval items done bytes).
Proof using All.
  revert index schemas done bytes. induction items as [|e items IH]; intros index schemas done bytes He; cbn [infer_items].
  { intros [= <-]. split; [done|]. exists []. by rewrite app_nil_r. }
  intros Hi. apply bind_ok in Hi as (s & Hs%map_err_ok & Hi). apply bind_ok in Hi as (rest & Hrest & [= <-]).
  destruct (He e (list_elem_of_here _ _) depth s Hs) as [Hsup Hsafe].
  assert (He' : ∀ e, e ∈ items → sound e) by (intros e' Hin; apply He; by constructor).
  split; [constructor; [done|by eapply (IH _ _ done bytes)]|]. cbn [array_items]. eapply safe_bind; [exact Hsafe|]. intros v Hv.
  apply safe_guard; [by apply list_elem_of_here|].
  eapply safe_weaken; [by apply (IH (index + 1))|]. intros l (l' & -> & Hl'). exists (v :: l'). split; [by rewrite <- app_assoc|]. by constructor.
Qed.

(** The parts of a template are texts and references in scope. *)
Lemma template_sound index parts text remaining :
  template_parts available index parts = Ok () → safe (λ _, True) (render_parts_budget eval parts text remaining).
Proof using All.
  revert index text remaining. induction parts as [|part parts IH]; intros index text remaining; [done|].
  cbn [template_parts render_parts_budget]. intros Ht. apply bind_ok in Ht as (u & Hpart & Ht).
  assert (Hsafe : safe (λ _, True) (eval part)).
  { destruct part as [path|v| | |]; try done; cbn [evaluate_value].
    - apply map_err_ok, bind_ok in Hpart as (s & Hs & _). destruct (reference_sound path s Hs) as (_ & v & Hv & _). rewrite Hv. cbn.
      eapply safe_bind; [apply safe_bounded|done].
    - cbn. eapply safe_bind; [apply safe_bounded|done]. }
  eapply safe_bind; [exact Hsafe|]. intros v _. apply safe_guard; [by do 2 apply list_elem_of_further; apply list_elem_of_here|]. by apply (IH (index + 1)).
Qed.

Lemma bounded_after (Q : json → Prop) m : safe Q m → safe Q (v ← m; _ ← bounded_value_bytes v; Ok v).
Proof using. intros Hm. eapply safe_bind; [exact Hm|]. intros v Hv. by eapply safe_bind; [apply safe_bounded|]. Qed.

Lemma infer_sound e : sound e.
Proof using All.
  induction e as [path|v|fields IH|items IH|parts _] using value_induction; intros depth s; cbn [infer evaluate_value];
    intros Hi; apply bind_ok in Hi as (u1 & _ & Hi); apply bind_ok in Hi as (u2 & _ & Hi).
  - destruct (reference_sound path s Hi) as (Hs & v & -> & Hv). split; [done|]. by apply bounded_after.
  - apply bind_ok in Hi as (u & _ & [= <-]). destruct (json_type_type v) as [Ht Hty].
    split; [by apply supported_const|]. apply bounded_after. by apply const_valid.
  - apply bind_ok in Hi as (children & Hc & [= <-]). destruct (infer_fields_in _ _ _ Hc) as [Hkeys Hin].
    assert (Hsup : ∀ k p, map_get k (collect_map children) = Some p → supported p).
    { intros k p [?|Hk]%collect_get; [done|]. destruct (Hin k p Hk) as (e & He & Hs). by apply (IH k e He (depth + 1)). }
    split; [by apply supported_closed|]. apply bounded_after. eapply safe_fmap; [by apply (fields_sound (depth + 1) fields children [])|].
    cbn beta. intros done Hp. apply closed_valid; [done| | |].
    + intros k Hk. rewrite <- Hkeys in Hk. destruct (collect_some children [] k) as [p Hk']; [by right|].
      specialize (Hp k). unfold collect_map in *. rewrite Hk' in Hp. destruct (map_get k done); [by eexists|done].
    + intros k p x Hk Hx. specialize (Hp k). unfold collect_map in Hk. rewrite Hk, Hx in Hp. apply Hp.
    + intros k x Hx. specialize (Hp k). unfold collect_map. rewrite Hx in Hp. destruct (map_get k _); [by eexists|done].
  - apply bind_ok in Hi as (schemas & Hs & Hi). apply bind_ok in Hi as (el & Hel & [= <-]).
    destruct (items_sound (depth + 1) 0 items schemas [] 2 IH Hs) as [Hall Hsafe].
    assert (Hsup : supported (element_schema el)) by by eapply element_supported. split; [done|].
    apply bounded_after. eapply safe_fmap; [exact Hsafe|]. intros l (l' & -> & Hl'). by apply (element_sound schemas).
  - unfold template_schema in Hi. apply bind_ok in Hi as (u3 & _ & Hi). apply bind_ok in Hi as ([] & Ht & [= <-]).
    change (kind_schema "string") with (Object [(lit "type", String (lit "string"))]).
    split; [apply supported_kind; known_key|]. apply bounded_after. apply (safe_fmap (λ _, True)); [|intros t _; apply kind_valid; [known_key|done]].
    apply (safe_bind (λ _, True)); [by apply (template_sound 0)|]. by intros [] _.
Qed.

(** ** Predicates are sound *)

Lemma value_sound e depth s : value_schema available e depth = Ok s → supported s ∧ safe (λ v, is_valid s v = true) (eval e).
Proof using All. apply infer_sound. Qed.
End inference.

Section predicates_sound.
Context `{AstText} `{JsonRender} `{JsonSchema} `{FloatOrderLaws}.
Context (available : SchemaMap) (input : json) (values : list (str * json)) (Hconf : conforms available input values).
Local Abbreviation eval := (evaluate_value input values).

Lemma valid_type s v t : supported s → is_valid s v = true → schema_type s = Some t → has_type whole t v.
Proof using. intros Hs Hv Ht. apply (meets_type _ _ _ _ (meets_valid s v Hs Hv)). by apply schema_type_get. Qed.

Lemma valid_string s v : supported s → is_valid s v = true → type_is "string" s = true → ∃ t, v = String t.
Proof using All.
  intros Hs Hv Ht%type_is_spec. pose proof (valid_type s v _ Hs Hv Ht) as Hty.
  destruct v; cbn [has_type] in Hty; try discriminate Hty; [by destruct Hty as [Hty|[Hty _]]|by eexists].
Qed.
Lemma valid_bool s v : supported s → is_valid s v = true → type_is "boolean" s = true → ∃ b, v = Bool b.
Proof using All.
  intros Hs Hv Ht%type_is_spec. pose proof (valid_type s v _ Hs Hv Ht) as Hty.
  destruct v; cbn [has_type] in Hty; try discriminate Hty; [by eexists|by destruct Hty as [Hty|[Hty _]]].
Qed.
Lemma valid_number s v : supported s → is_valid s v = true → numeric (schema_type s) = true → ∃ n, v = Number n.
Proof using All.
  intros Hs Hv Ht%bool_decide_eq_true.
  assert (Hor : has_type whole (lit "number") v ∨ has_type whole (lit "integer") v).
  { destruct Ht as [Ht|Ht]; [left|right]; by eapply valid_type. }
  destruct v; cbn [has_type] in Hor; try (destruct Hor as [Hor|Hor]; discriminate Hor). by eexists.
Qed.

Lemma compare_numbers n m : is_Some (compare (Number n) (Number m)).
Proof using All.
  cbn. destruct (as_f64_some n) as [f Hf], (as_f64_some m) as [g Hg].
  destruct (integer_of n), (integer_of m); rewrite ?Hf, ?Hg; cbn; try by eexists. by eapply float_cmp_some.
Qed.

(** Two operands whose schemas passed a check *)
Lemma both_sound l r depth check detail :
  both available l r depth check detail = Ok () →
  ∃ sl sr, check sl sr = true ∧ supported sl ∧ supported sr ∧
    safe (λ v, is_valid sl v = true) (eval l) ∧ safe (λ v, is_valid sr v = true) (eval r).
Proof using All.
  unfold both. intros Hb. apply bind_ok in Hb as (sl & Hl & Hb). apply bind_ok in Hb as (sr & Hr & Hg%guard_err_ok%negb_false_iff).
  destruct (value_sound available input values Hconf l _ _ Hl), (value_sound available input values Hconf r _ _ Hr). by exists sl, sr.
Qed.

Lemma ordered_sound l r depth detail test :
  both available l r depth (λ l r, numeric (schema_type l) && numeric (schema_type r)) detail = Ok () →
  safe (λ _, True) (ordered_by input values l r test).
Proof using All.
  intros (sl & sr & [Hnl Hnr]%andb_prop & Hsl & Hsr & Hl & Hr)%both_sound. unfold ordered_by.
  eapply safe_bind; [exact Hl|]. intros x Hx. eapply safe_bind; [exact Hr|]. intros y Hy.
  destruct (valid_number sl x Hsl Hx Hnl) as [n ->], (valid_number sr y Hsr Hy Hnr) as [m ->]. cbn [is_number andb negb guard_err].
  destruct (compare_numbers n m) as [o ->]. done.
Qed.

Lemma equality_sound l r depth check detail wanted :
  both available l r depth check detail = Ok () → safe (λ _, True) (equality input values l r wanted).
Proof using All.
  intros (sl & sr & _ & _ & _ & Hl & Hr)%both_sound. unfold equality.
  eapply safe_bind; [exact Hl|]. intros x Hx. eapply safe_bind; [exact Hr|]. done.
Qed.

Lemma containment_sound l r depth detail wanted :
  both available l r depth (λ sl sr, containable sl sr r) detail = Ok () → safe (λ _, True) (containment input values l r wanted).
Proof using All.
  intros (sl & sr & Hc & Hsl & Hsr & Hl & Hr)%both_sound. unfold containment.
  eapply safe_bind; [exact Hl|]. intros x Hx. eapply safe_bind; [exact Hr|]. intros y Hy. unfold containable in Hc.
  destruct (type_is "array" sl) eqn:Ha.
  - apply type_is_spec in Ha. destruct (valid_array sl x Hsl Hx Ha) as [items ->]. done.
  - destruct (type_is "string" sl) eqn:Hs; [|done]. apply andb_prop in Hc as [Hsr' _].
    destruct (valid_string sl x Hsl Hx Hs) as [text ->], (valid_string sr y Hsr Hy Hsr') as [text' ->]. done.
Qed.

Lemma text_sound l r depth test :
  (s ← value_schema available l depth; _ ← guard_err (negb (type_is "string" s)) (invalid "string comparison requires two string operands");
   s' ← value_schema available r depth; guard_err (negb (type_is "string" s')) (invalid "string comparison requires two string operands")) = Ok () →
  safe (λ _, True) (text_test input values l r test).
Proof using All.
  intros Hv. apply bind_ok in Hv as (sl & Hl & Hv). apply bind_ok in Hv as (u & Htl%guard_err_ok%negb_false_iff & Hv).
  apply bind_ok in Hv as (sr & Hr & Htr%guard_err_ok%negb_false_iff).
  apply (value_sound available input values Hconf) in Hl as [Hsl Hl], Hr as [Hsr Hr]. unfold text_test.
  eapply safe_bind; [exact Hl|]. intros x Hx. eapply safe_bind; [exact Hr|]. intros y Hy.
  destruct (valid_string sl x Hsl Hx Htl) as [t ->], (valid_string sr y Hsr Hy Htr) as [t' ->]. done.
Qed.

Lemma junction_sound evaluate conj ps : (∀ p, p ∈ ps → safe (λ _, True) (evaluate p)) → safe (λ _, True) (junction evaluate conj ps).
Proof using All.
  induction ps as [|p ps IH]; cbn [junction]; [done|]. intros Hp. eapply safe_bind; [apply Hp; constructor|]. intros v _.
  destruct (Bool.eqb v conj); [|done]. apply IH. intros q Hq. apply Hp. by constructor.
Qed.

Lemma predicate_sound p depth : validate_predicate available depth p = Ok () → safe (λ _, True) (evaluate_predicate input values p).
Proof using All.
  revert depth. pattern p. apply predicate_induction; clear p; [intros p|intros p IH|intros ps IH|intros ps IH].
  - destruct p; try exact I; intros depth Hv; cbn [validate_predicate] in Hv; apply bind_ok in Hv as (u & _ & Hv); cbn [evaluate_predicate];
      eauto using equality_sound, ordered_sound, containment_sound.
    + apply bind_ok in Hv as (s & Hs & Ht%guard_err_ok%negb_false_iff). destruct (value_sound available input values Hconf _ _ _ Hs) as [Hsup Hsafe].
      eapply safe_bind; [exact Hsafe|]. intros v Hv'. by destruct (valid_bool s v Hsup Hv' Ht) as [b ->].
    + apply bind_ok in Hv as (u' & _ & Hv). by eapply text_sound.
    + apply bind_ok in Hv as (u' & _ & Hv). by eapply text_sound.
    + apply bind_ok in Hv as (s & Hs & _). destruct (value_sound available input values Hconf _ _ _ Hs) as [_ Hsafe]. by eapply safe_bind.
    + apply bind_ok in Hv as (s & Hs & _). destruct (value_sound available input values Hconf _ _ _ Hs) as [_ Hsafe]. by eapply safe_bind.
  - intros depth Hv. cbn [validate_predicate] in Hv. apply bind_ok in Hv as (u & _ & Hv). cbn [evaluate_predicate].
    by eapply safe_fmap; [eapply IH|].
  - intros depth Hv. cbn [validate_predicate] in Hv. apply bind_ok in Hv as (u & _ & Hv). apply bind_ok in Hv as (u' & _ & Hv%try_for_each_ok).
    rewrite Forall_forall in Hv. cbn [evaluate_predicate]. apply junction_sound. eauto.
  - intros depth Hv. cbn [validate_predicate] in Hv. apply bind_ok in Hv as (u & _ & Hv). apply bind_ok in Hv as (u' & _ & Hv%try_for_each_ok).
    rewrite Forall_forall in Hv. cbn [evaluate_predicate]. apply junction_sound. eauto.
Qed.
End predicates_sound.

(** ** What an expression reads ([references.rs]) *)

Fixpoint value_reads (e : WorkflowValue) : list (list str) :=
  match e with
  | VReference path => [path]
  | VLiteral _ => []
  | VObject fields => flat_map (λ x, value_reads x.2) fields
  | VArray items | VTemplate items => flat_map value_reads items
  end.

Fixpoint predicate_reads (p : WorkflowPredicate) : list (list str) :=
  match p with
  | PBoolean x | PEmpty x | PNotEmpty x => value_reads x
  | PEqual x y | PNotEqual x y | PGreater x y | PGreaterEqual x y | PLess x y | PLessEqual x y
  | PContains x y | PNotContains x y | PStartsWith x y | PEndsWith x y => value_reads x ++ value_reads y
  | PNot p => predicate_reads p
  | PAnd ps | POr ps => flat_map predicate_reads ps
  end.

Definition list_reads (input : WorkflowValue) (filter : option WorkflowListFilter) (extract : option WorkflowValue) : list (list str) :=
  value_reads input ++
  match filter with
  | Some f => match operator f with LEmpty | LNotEmpty => [] | _ => value_reads (filter_value f) end
  | None => []
  end ++
  match extract with Some e => value_reads e | None => [] end.

(** [references::node], with the reads of nested bodies *)
Fixpoint node_reads (n : WorkflowNodeDefinition) : list (list str) :=
  match n with
  | NStart | NLoopEnd => []
  | NTemplate variables _ | NCode _ variables _ _ _ _ => flat_map (λ x, value_reads x.2) variables
  | NList input filter _ _ extract => list_reads input filter extract
  | NClassifier _ input instruction classes =>
      value_reads input ++ flat_map value_reads (instruction ++ flat_map class_description classes)
  | NAggregate grouped groups => flat_map variables (active_groups groups grouped)
  | NModel _ messages _ _ _ => flat_map (λ m, flat_map value_reads (message_content m)) messages
  | NAgent _ task _ _ _ | NReview task _ _ => flat_map value_reads task
  | NTool _ arguments _ _ _ => value_reads arguments
  | NBranch cases => flat_map (λ c, predicate_reads (condition c)) cases
  | NAssigner items => flat_map (λ i, match operand_value i with Some e => value_reads e | None => [] end) items
  | NReturn outputs => map value_selector outputs
  | NLoop variables break_condition _ body =>
      flat_map (λ v, value_reads (var_value v)) variables ++
      match break_condition with Some p => predicate_reads p | None => [] end ++
      match body with Block _ nodes _ => flat_map (λ x, node_reads x.2) nodes end
  | NIteration iterator output _ _ _ _ body =>
      value_reads iterator ++ value_reads output ++
      match body with Block _ nodes _ => flat_map (λ x, node_reads x.2) nodes end
  end.

(** Two environments that agree on the producers some paths start from *)
Definition agree (input : json) (values values' : list (str * json)) (paths : list (list str)) : Prop :=
  ∀ path first, path ∈ paths → head path = Some first → root input values first = root input values' first.

Lemma agree_part input values values' (l l' : list (list str)) : (∀ p, p ∈ l → p ∈ l') → agree input values values' l' → agree input values values' l.
Proof. intros Hl Ha path first Hp. apply Ha; auto. Qed.

Lemma reads_part {A} (f : A → list (list str)) x l p : x ∈ l → p ∈ f x → p ∈ flat_map f l.
Proof. intros Hx Hp. apply list_elem_of_In, in_flat_map. exists x. split; by apply list_elem_of_In. Qed.

Lemma object_fields_ext `{JsonRender} f g fields done bytes :
  (∀ k e, (k, e) ∈ fields → f e = g e) → object_fields f fields done bytes = object_fields g fields done bytes.
Proof.
  revert done bytes. induction fields as [|[k e] fields IH]; intros acc bytes He; cbn [object_fields]; [done|].
  rewrite (He k e) by constructor. destruct (g e); [|done]. cbn. destruct (bounded_value_bytes a); [|done]. cbn.
  destruct (guard_err _ _); [|done]. apply IH. intros k' e' Hin. apply (He k'). by constructor.
Qed.
Lemma array_items_ext `{JsonRender} f g items done bytes :
  (∀ e, e ∈ items → f e = g e) → array_items f items done bytes = array_items g items done bytes.
Proof.
  revert done bytes. induction items as [|e items IH]; intros acc bytes He; cbn [array_items]; [done|].
  rewrite (He e) by constructor. destruct (g e); [|done]. cbn. destruct (guard_err _ _); [|done]. apply IH. intros e' Hin. apply He. by constructor.
Qed.
Lemma render_parts_ext `{JsonRender} f g parts text remaining :
  (∀ e, e ∈ parts → f e = g e) → render_parts_budget f parts text remaining = render_parts_budget g parts text remaining.
Proof.
  revert text remaining. induction parts as [|e parts IH]; intros text remaining He; cbn [render_parts_budget]; [done|].
  rewrite (He e) by constructor. destruct (g e); [|done]. cbn. destruct (guard_err _ _); [|done]. apply IH. intros e' Hin. apply He. by constructor.
Qed.

Lemma evaluate_reads `{JsonRender} input values values' e :
  agree input values values' (value_reads e) → evaluate_value input values e = evaluate_value input values' e.
Proof.
  induction e as [path|v|fields IH|items IH|parts IH] using value_induction; intros Ha; cbn [evaluate_value]; [|done| | |].
  - replace (evaluate_reference input values path) with (evaluate_reference input values' path); [done|].
    destruct path as [|first keys]; [done|]. specialize (Ha (first :: keys) first (list_elem_of_here _ _) eq_refl).
    unfold evaluate_reference, root in *. case_decide; [done|]. by rewrite Ha.
  - rewrite (object_fields_ext _ (evaluate_value input values')); [done|]. intros k e Hin. apply (IH k e Hin).
    eapply agree_part; [|exact Ha]. intros p Hp. cbn [value_reads]. by apply (reads_part (λ x, value_reads x.2) (k, e)).
  - rewrite (array_items_ext _ (evaluate_value input values')); [done|]. intros e Hin. apply (IH e Hin).
    eapply agree_part; [|exact Ha]. intros p Hp. by apply (reads_part value_reads e).
  - unfold render_parts. rewrite (render_parts_ext _ (evaluate_value input values')); [done|]. intros e Hin. apply (IH e Hin).
    eapply agree_part; [|exact Ha]. intros p Hp. by apply (reads_part value_reads e).
Qed.

Lemma junction_ext evaluate evaluate' conj ps :
  (∀ p, p ∈ ps → evaluate p = evaluate' p) → junction evaluate conj ps = junction evaluate' conj ps.
Proof.
  induction ps as [|p ps IH]; cbn [junction]; [done|]. intros Hp. rewrite (Hp p) by constructor. destruct (evaluate' p); [|done].
  cbn. destruct (Bool.eqb a conj); [|done]. apply IH. intros q Hq. apply Hp. by constructor.
Qed.

Lemma predicate_evaluate_reads `{JsonRender} `{FloatOrder} input values values' p :
  agree input values values' (predicate_reads p) → evaluate_predicate input values p = evaluate_predicate input values' p.
Proof.
  pattern p. apply predicate_induction; clear p; [intros p|intros p IH|intros ps IH|intros ps IH].
  - destruct p; try exact I; intros Ha; cbn [evaluate_predicate predicate_reads] in *;
      unfold equality, ordered_by, containment, text_test; rewrite !(evaluate_reads input values values'); try done;
      (eapply agree_part; [|exact Ha]); intros; apply elem_of_app; auto.
  - intros Ha. cbn [evaluate_predicate]. by rewrite IH.
  - intros Ha. cbn [evaluate_predicate]. apply junction_ext. intros p Hp. apply IH; [done|].
    eapply agree_part; [|exact Ha]. intros q Hq. by apply (reads_part predicate_reads p).
  - intros Ha. cbn [evaluate_predicate]. apply junction_ext. intros p Hp. apply IH; [done|].
    eapply agree_part; [|exact Ha]. intros q Hq. by apply (reads_part predicate_reads p).
Qed.

(** ** What expressions promise *)

(** C26 In every environment that meets the schemas in scope, a value the compiler has typed
    evaluates to a value of its schema, and a condition it has accepted is true or false; the
    only errors are those of the bounds on sizes and depth: no reference is missing, and no
    operand has another type or can not be compared. *)
Theorem expressions_sound `{AstText} `{JsonRender} `{JsonSchema} `{FloatOrderLaws} available input values :
  conforms available input values →
  (∀ depth e schema, value_schema available e depth = Ok schema →
     match evaluate_value input values e with Ok v => is_valid schema v = true | Err error => error ∈ bound_errors end) ∧
  (∀ depth p, validate_predicate available depth p = Ok () →
     match evaluate_predicate input values p with Ok _ => True | Err error => error ∈ bound_errors end).
Proof.
  intros Hc. split.
  - intros depth e schema Hs. by apply (value_sound available input values Hc e depth schema).
  - intros depth p Hp. by apply (predicate_sound available input values Hc p depth).
Qed.

(** An expression and a condition depend on the producers they are said to read and no others. *)
Theorem reads_complete `{JsonRender} `{FloatOrder} input values values' :
  (∀ e, agree input values values' (value_reads e) → evaluate_value input values e = evaluate_value input values' e) ∧
  (∀ p, agree input values values' (predicate_reads p) → evaluate_predicate input values p = evaluate_predicate input values' p).
Proof. split; intros; [by apply evaluate_reads|by apply predicate_evaluate_reads]. Qed.

(** ** Examples *)

Module Printed.
Export Checks.
(** The sizes of values of [WorkflowBudget], and a text of such a size *)
#[export] Instance ast_sizes : AstText := {| value_len _ := 0; predicate_len _ := 0 |}.
#[export] Instance printed : @JsonRender Sizes.text_sizes := {| json_text v := replicate (N.to_nat (Sizes.size v)) 63 |}.
(** Integers, with every printed float read as zero *)
#[export] Instance whole_floats : Floats := {|
  float := Z;
  as_f64 n := match n with PosInt n => Some (Z.of_N n) | NegInt z => Some z | Float _ => Some 0%Z end;
  float_add := Z.add; float_sub := Z.sub; float_mul := Z.mul; float_div := Z.div;
  float_is_zero z := (z =? 0)%Z; is_finite _ := true; integral := Some; float_number := integer_number;
|}.
#[export] Instance whole_order : FloatOrder := {| float_cmp x y := Some (x ?= y)%Z; float_trunc z := z; float_fract _ := Eq |}.
#[export] Instance whole_order_laws : FloatOrderLaws.
Proof. split; [intros []; by eexists|by eexists]. Defined.
End Printed.
Import Sizes Printed.

(** [args] with a number and a list, and the value of a producer [m] *)
Definition sample_available : SchemaMap :=
  [(lit "args", closed_object [(lit "n", kind_schema "integer"); (lit "names", array_schema (kind_schema "string"))] [lit "n"; lit "names"]);
   (lit "m", closed_object [(lit "text", kind_schema "string")] [lit "text"])].
Definition sample_args : json := jobj [("n", Number (PosInt 3)); ("names", Array [jstr "a"; jstr "b"])].
Definition sample_store : list (str * json) := [(lit "m", jobj [("text", jstr "b")])].

Definition ref (path : list string) : WorkflowValue := VReference (map lit path).
Definition sample_expression : WorkflowValue :=
  VObject [(lit "items", VArray [ref ["m"; "text"]; VTemplate [VLiteral (jstr "n = "); ref ["args"; "n"]]])].
Definition sample_condition : WorkflowPredicate :=
  PAnd [PContains (ref ["args"; "names"]) (ref ["m"; "text"]); PNot (PGreater (ref ["args"; "n"]) (VLiteral (Number (PosInt 5))))].

Lemma sample_conforms : conforms sample_available sample_args sample_store.
Proof.
  intros k s Hk. right. unfold sample_available in Hk. cbn [map_get] in Hk. case_decide; [subst|case_decide; [subst|done]]; injection Hk as <-.
  - split; [apply sample_supported; vm_compute; reflexivity|]. eexists. split; vm_compute; reflexivity.
  - split; [apply sample_supported; vm_compute; reflexivity|]. eexists. split; vm_compute; reflexivity.
Defined.

Lemma expressions_sound_witness :
  evaluate_value sample_args sample_store sample_expression = Ok (jobj [("items", Array [jstr "b"; String (lit "n = ?")])]) ∧
  match evaluate_value sample_args sample_store sample_expression with
  | Ok v => is_valid (closed_object [(lit "items", array_schema (kind_schema "string"))] [lit "items"]) v = true
  | Err error => error ∈ bound_errors
  end ∧
  evaluate_predicate sample_args sample_store sample_condition = Ok true ∧
  match evaluate_predicate sample_args sample_store sample_condition with Ok _ => True | Err error => error ∈ bound_errors end.
Proof.
  destruct (expressions_sound sample_available sample_args sample_store sample_conforms) as [Hvalues Hconditions].
  split; [vm_compute; reflexivity|]. split; [apply (Hvalues 0 sample_expression); vm_compute; reflexivity|].
  split; [vm_compute; reflexivity|]. apply (Hconditions 0 sample_condition). vm_compute. reflexivity.
Defined.
