(* ===== verification/WorkflowRun.v ===== *)
(** The execution of a Workflow block ([execute_block_body] and the outcomes of
    [execute_node] in [src/src/runtime/workflow/execution.rs], [chosen_route] of
    [workflow.rs], [review] of [review.rs]).

    The nodes of a block run concurrently.  The state [Graph] is what the loop of
    [execute_block_body] keeps; the futures in [FuturesUnordered] are its [pending] nodes,
    each queued or started with the snapshot it was given.  A step is the first poll of a
    queued node, or the settlement of a started one and what the loop then does; any pending
    node may be next.  The work of a node is what its native owner reports, of which
    [complete] makes the completion as [execute_node] does.  The budgets are the whole
    run's, so a settlement may find any.

    The counts of unsettled predecessors are natural numbers; that the decrement never meets
    zero follows from [fr_wait]. *)

From S2P Require Import Message Attempt Prelude Text Json Workflow WorkflowGraph WorkflowFlow WorkflowBudget WorkflowSchema.
From stdpp Require Import options.
Open Scope nat_scope.

(** ** The completion of a node *)

Record NodeCompletion := {
  c_value : option json;
  c_returned : option json;
  c_port : WorkflowPort;
  c_ended : bool;
  c_writes : list (str * str * json);
  (** the bytes of its reservation *)
  c_bytes : N;
}.

(** [required] and [enum] as JSON Schema has them, of a string member *)
Class ValidatorLaws `{Validator} := {
  valid_choice schema v k props choice ids required :
    is_valid schema v = true → get (lit "type") schema = Some (jstr "object") →
    get (lit "properties") schema = Some (Object props) → map_get k props = Some choice →
    get (lit "enum") choice = Some (Array (map String ids)) →
    get (lit "required") schema = Some (Array required) → String k ∈ required →
    ∃ id, id ∈ ids ∧ get k v = Some (String id);
}.

(** What the native owner of a node reports, before [execute_node] chooses its exit. *)
Inductive NodeReport :=
| Done
| Committed (value : json)
(** a settled failure or timeout after the retries: its type and message *)
| Unsuccessful (error_type error_message : str) (status : ToolExecutionStatus)
| Conditions (truths : list (result WorkflowRunError bool))
(** the index of the chosen action, which the validation of the response keeps within the
    actions, or nobody answered in time *)
| Answered (answer : option nat) (shown : str)
| Classified (value : json) (name : str)
| Wrote (writes : list (str * str * json))
| ReturnedValue (value : json)
| Refused (e : WorkflowRunError).

(** [classifier_result_schema] *)
Definition classifier_result_schema : json :=
  let usage := default Null (get (lit "properties") (model_output_schema ModelText) ≫= get (lit "usage")) in
  closed_object (collect_map [(lit "class_id", kind_schema "string"); (lit "class_name", kind_schema "string");
                              (lit "class_label", kind_schema "string"); (lit "usage", usage)])
    (map lit ["class_id"; "class_name"; "class_label"; "usage"]%string).

Section completion.
Context `{Validator}.

Definition error_value (error_type error_message : str) : json :=
  jobj [("error_type", String error_type); ("error_message", String error_message)].

(** [MDefaultValue]'s value *)
Definition model_default (text : str) (structured_output : option json) : json :=
  let zero := Number (PosInt 0) in
  let v := jobj [("text", String text); ("reasoning_content", String []);
                 ("usage", jobj [("input_tokens", zero); ("output_tokens", zero); ("total_tokens", zero)])] in
  match structured_output with Some s => put (lit "structured_output") s v | None => v end.

(** [chosen_route] *)
Definition chosen_route (v : json) : WorkflowPort :=
  case (default [] (get AGENT_ROUTE_FIELD v ≫= as_str)).

(** The exit of the first case that holds *)
Fixpoint first_case (cases : list WorkflowBranchCase) (truths : list (result WorkflowRunError bool)) : result WorkflowRunError WorkflowPort :=
  match cases, truths with
  | c :: cases, truth :: truths => b ← truth; if b : bool then Ok (case (case_id c)) else first_case cases truths
  | _, _ => Ok PFalse
  end.

Definition plain (value : option json) (port : WorkflowPort) (bytes : N) : NodeCompletion :=
  {| c_value := value; c_returned := None; c_port := port; c_ended := false; c_writes := []; c_bytes := bytes |}.

(** An outcome that is either the value or goes to the node's error strategy; only a Model
    finds out about [stop] here, the other owners refuse by themselves. *)
Definition value_or_strategy (schema : json) (on_error : WorkflowValueErrorStrategy) (stop : ToolExecutionStatus → WorkflowRunError)
    (report : NodeReport) (bytes : N) : result WorkflowRunError NodeCompletion :=
  match report with
  | Refused e => Err e
  | Committed v => _ ← validate_commit schema v; Ok (plain (Some v) PNext bytes)
  | Unsuccessful kind message status =>
      match on_error with
      | VStop => Err (stop status)
      | VDefaultValue v => _ ← validate_commit schema v; Ok (plain (Some v) PNext bytes)
      | VFailBranch => _ ← validate_commit error_schema (error_value kind message); Ok (plain (Some (error_value kind message)) PFail bytes)
      end
  | _ => Err (InvalidProgram (lit "unexpected report"))
  end.

Definition find_class (v : json) (classes : list WorkflowClassifierClass) : result WorkflowRunError WorkflowClassifierClass :=
  id ← ok_or (InvalidValue (lit "Classifier returned no class ID"))
         (s ← get (lit "structured_output") v; i ← get (lit "class_id") s; as_str i);
  ok_or (InvalidValue (lit "Classifier returned an unknown class ID")) (find_first (λ c, bool_decide (class_id c = id)) classes).

Definition unexpected : WorkflowRunError := InvalidProgram (lit "unexpected report").

(** [execute_node], from the report of its native work; [schema] is the frozen schema of the
    value where the language does not give it, [bytes] what the node has retained *)
Definition complete (id : str) (n : WorkflowNodeDefinition) (schema : json) (bytes : N) (report : NodeReport)
    : result WorkflowRunError NodeCompletion :=
  match n, report with
  | _, Refused e => Err e
  | NStart, Done => Ok (plain None PNext bytes)
  | (NTemplate _ _ | NList _ _ _ _ _ | NAggregate _ _ | NLoop _ _ _ _ | NIteration _ _ _ _ _ _ _), Committed v =>
      _ ← validate_commit schema v; Ok (plain (Some v) PNext bytes)
  | NLoopEnd, Done =>
      Ok {| c_value := None; c_returned := None; c_port := PNext; c_ended := true; c_writes := []; c_bytes := bytes |}
  | NAssigner _, Wrote writes =>
      Ok {| c_value := None; c_returned := None; c_port := PNext; c_ended := false; c_writes := writes; c_bytes := bytes |}
  | NReview _ actions _, Answered answer shown =>
      action ← match answer with
               | Some i => ok_or (InvalidValue (lit "action")) (action_id <$> actions !! i)
               | None => Ok REVIEW_TIMEOUT_PORT
               end;
      Ok (plain (Some (jobj [("action", String action); ("content", String shown)])) (case action) bytes)
  | NModel _ _ output _ on_error, _ =>
      value_or_strategy (model_output_schema output)
        (match on_error with
         | MStop => VStop
         | MDefaultValue text structured_output => VDefaultValue (model_default text structured_output)
         | MFailBranch => VFailBranch
         end) (ModelFailed id) report bytes
  | NClassifier _ _ _ classes, Classified v name =>
      class ← find_class v classes;
      let value := jobj [("class_id", String (class_id class)); ("class_name", String name); ("class_label", String (class_label class));
                         ("usage", default Null (get (lit "usage") v))] in
      _ ← validate_commit classifier_result_schema value;
      Ok (plain (Some value) (case (class_id class)) bytes)
  | (NTool _ _ _ _ on_error | NCode _ _ _ _ _ on_error), _ => value_or_strategy schema on_error (λ _, unexpected) report bytes
  | NAgent _ _ output routes on_error, _ =>
      c ← value_or_strategy (agent_value_schema output routes) on_error (λ _, unexpected) report bytes;
      match routes, c_value c with
      | _ :: _, Some v => if decide (c_port c = PFail) then Ok c else Ok (plain (Some v) (chosen_route v) bytes)
      | _, _ => Ok c
      end
  | NBranch cases, Conditions truths => port ← first_case cases truths; Ok (plain None port bytes)
  | NReturn _, ReturnedValue v =>
      _ ← validate_commit schema v;
      Ok {| c_value := None; c_returned := Some v; c_port := PNext; c_ended := false; c_writes := []; c_bytes := bytes |}
  | _, _ => Err unexpected
  end.
End completion.

(** The kinds of node that commit a value. *)
Definition produces (n : WorkflowNodeDefinition) : bool :=
  match n with NStart | NLoopEnd | NAssigner _ | NBranch _ | NReturn _ => false | _ => true end.

(** ** The graph *)

(** A future of [pending]: its node, the values and failed producers it may read, and
    whether it has been polled. *)
Record Pending := {
  p_node : str; p_scope : list (str * json); p_failed : gset str; p_started : bool
}.

(** The bookkeeping of edges: how many predecessors each node waits for, which nodes a taken
    edge has activated, and which of those may be admitted. *)
Record Frontier := {
  waiting : list (str * nat);
  activated : gset str;
  (** a [BTreeSet] *)
  ready : list (str * ());
}.

Record Graph := {
  values : list (str * json);
  failed_outputs : gset str;
  frontier : Frontier;
  pending : list Pending;
  admitting : bool;
  failures : list (str * WorkflowRunError);
  returned : list (str * json);
  ended : bool;
  (** the bytes of the block's own reservation *)
  own_bytes : N;
}.

(** One edge of a resolved node that was left by [p], or not run. *)
Definition resolve_edge (p : option WorkflowPort) (st : Frontier * list (str * option WorkflowPort)) (e : WorkflowEdgeProgram)
    : Frontier * list (str * option WorkflowPort) :=
  let f := st.1 in
  let active := if decide (p = Some (port e)) then {[to e]} ∪ activated f else activated f in
  let remaining := count_of (to e) (waiting f) - 1 in
  let counts := map_insert (to e) remaining (waiting f) in
  if decide (remaining = 0) then
    if decide (to e ∈ active) then
      ({| waiting := counts; activated := active; ready := map_insert (to e) () (ready f) |}, st.2)
    else ({| waiting := counts; activated := active; ready := ready f |}, st.2 ++ [(to e, None)])
  else ({| waiting := counts; activated := active; ready := ready f |}, st.2).

(** The worklist of resolved nodes, with one turn per node as fuel *)
Fixpoint resolve (fuel : nat) (out : list (str * list WorkflowEdgeProgram)) (f : Frontier)
    (resolved : list (str * option WorkflowPort)) : Frontier * list (str * option WorkflowPort) :=
  match fuel, resolved with
  | S fuel, (from, p) :: resolved =>
      let '(f, resolved) := foldl (resolve_edge p) (f, resolved) (edges_of from out) in
      resolve fuel out f resolved
  | _, _ => (f, resolved)
  end.

Section graph.
Context `{JsonText} (b : WorkflowBlock) (cf : ControlFlow).

(** The state before the loop *)
Definition initial_frontier : Frontier :=
  {| waiting := foldl (λ m e, map_insert (to e) (S (count_of (to e) m)) m) (map (λ x, (x.1, 0)) (block_nodes b))
                  (mjoin (map snd (outgoing cf)));
     activated := {[entry cf]};
     ready := [(entry cf, ())] |}.

Definition set_frontier (f : Frontier) (g : Graph) : Graph :=
  {| values := values g; failed_outputs := failed_outputs g; frontier := f; pending := pending g; admitting := admitting g;
     failures := failures g; returned := returned g; ended := ended g; own_bytes := own_bytes g |}.
Definition set_pending (l : list Pending) (g : Graph) : Graph :=
  {| values := values g; failed_outputs := failed_outputs g; frontier := frontier g; pending := l; admitting := admitting g;
     failures := failures g; returned := returned g; ended := ended g; own_bytes := own_bytes g |}.
Definition set_own_bytes (n : N) (g : Graph) : Graph :=
  {| values := values g; failed_outputs := failed_outputs g; frontier := frontier g; pending := pending g; admitting := admitting g;
     failures := failures g; returned := returned g; ended := ended g; own_bytes := n |}.
(** [admitting.store(false)] and [failures.insert] *)
Definition fail_node (id : str) (e : WorkflowRunError) (g : Graph) : Graph :=
  {| values := values g; failed_outputs := failed_outputs g; frontier := frontier g; pending := pending g; admitting := false;
     failures := map_insert id e (failures g); returned := returned g; ended := ended g; own_bytes := own_bytes g |}.

(** The head of the loop: without a failure, everything ready becomes pending. *)
Definition admit_ready (g : Graph) : Graph :=
  match failures g with
  | [] =>
      let f := frontier g in
      set_frontier {| waiting := waiting f; activated := activated f; ready := [] |}
        (set_pending (pending g ++ map (λ x, {| p_node := x.1; p_scope := values g; p_failed := failed_outputs g; p_started := false |})
                                     (ready f)) g)
  | _ => g
  end.

Definition initial (scope : list (str * json)) : Graph :=
  admit_ready {| values := scope; failed_outputs := ∅; frontier := initial_frontier; pending := []; admitting := true; failures := [];
                 returned := []; ended := false; own_bytes := 0%N |}.

Definition remove_pending (id : str) (g : Graph) : Graph := set_pending (filter (λ p, p_node p ≠ id) (pending g)) g.
Definition pending_of (id : str) (g : Graph) : option Pending := find_first (λ p, bool_decide (p_node p = id)) (pending g).

(** The first poll of a queued node: it starts, or it finds the graph no longer admitting
    and ends without a result. *)
Definition poll (id : str) (g : Graph) : option Graph :=
  p ← pending_of id g;
  if p_started p then None
  else if admitting g then
    Some (set_pending (map (λ q, if decide (p_node q = id)
      then {| p_node := id; p_scope := p_scope q; p_failed := p_failed q; p_started := true |} else q) (pending g)) g)
  else Some (admit_ready (remove_pending id g)).

Definition is_assigner (id : str) : bool :=
  match map_get id (block_nodes b) with Some (NAssigner _) => true | _ => false end.

(** What a completion whose writes were merged changes *)
Definition commit (id : str) (c : NodeCompletion) (merged : list (str * json)) (own : N) (g : Graph) : Graph :=
  set_frontier (resolve (length (outgoing cf)) (outgoing cf) (frontier g) [(id, Some (c_port c))]).1
    {| values := match c_value c with Some v => map_insert id v merged | None => merged end;
       failed_outputs := if decide (c_port c = PFail) then {[id]} ∪ failed_outputs g else failed_outputs g;
       frontier := frontier g; pending := pending g; admitting := admitting g; failures := failures g;
       returned := match c_returned c with Some v => map_insert id v (returned g) | None => returned g end;
       ended := ended g || c_ended c; own_bytes := own_bytes g + own |}.

(** The settlement of a started node, to the next head of the loop: the run's budgets, the
    graph, and what became of the completion. *)
Definition settle (budgets : RunBudgets) (id : str) (r : result WorkflowRunError NodeCompletion) (g : Graph)
    : result (fault WorkflowRunError) (RunBudgets * Graph * result WorkflowRunError NodeCompletion) :=
  let g := remove_pending id g in
  match r with
  | Err e => Ok (budgets, admit_ready (fail_node id e g), Err e)
  | Ok c =>
      let merged := merge_writes budgets (values g) (c_writes c) in
      let after_merge := match merged with Ok (budgets, _, _) => budgets | Err _ => budgets end in
      budgets ← (if is_assigner id then drop_reservation (c_bytes c) after_merge else Ok after_merge);
      let g := if is_assigner id then g else set_own_bytes (own_bytes g + c_bytes c) g in
      match merged with
      | Err Prelude.Panic => Err Prelude.Panic
      | Err (Prelude.Fail e) => Ok (budgets, admit_ready (fail_node id e g), Err e)
      | Ok (_, merged, own) => Ok (budgets, admit_ready (commit id c merged own g), Ok c)
      end
  end.

(** What the block returns once nothing is pending *)
Definition finish (cancelled : option ToolCancellationCause) (g : Graph)
    : result WorkflowRunError (list (str * json) * list (str * json) * bool) :=
  match merged_failures (failures g) with
  | Some e => Err e
  | None => _ ← check_active cancelled; Ok (values g, returned g, ended g)
  end.

(** ** Runs *)

Inductive event :=
| Started (id : str) (scope : list (str * json)) (failed : gset str)
| Gated (id : str)
| Settled (id : str) (r : result WorkflowRunError NodeCompletion).
End graph.

(** ** Completions leave by an exit of their node *)

(** What the check of an Agent's output establishes: its schema is an object's. *)
Definition object_schema (schema : json) : Prop :=
  get (lit "type") schema = Some (jstr "object") ∧
  match get (lit "properties") schema with Some (Object _) | None => True | Some _ => False end.
Definition agent_output_ok (n : WorkflowNodeDefinition) : Prop :=
  match n with NAgent _ _ (AgentJsonSchema schema) _ _ => object_schema schema | _ => True end.

Lemma get_put k k' v j : (∃ m, j = Object m) → get k (put k' v j) = if decide (k = k') then Some v else get k j.
Proof. intros [m ->]. cbn. apply map_get_insert. Qed.
Lemma put_object k v j : (∃ m, j = Object m) → ∃ m, put k v j = Object m.
Proof. intros [m ->]. by eexists. Qed.

(** The terminal schema of a routed Agent requires a choice among the routes. *)
Lemma terminal_choice output routes schema0 :
  routes ≠ [] → schema0 = match structured output with Some schema => schema | None => agent_text_schema end → object_schema schema0 →
  ∃ props required, let s := agent_value_schema output routes in
    get (lit "type") s = Some (jstr "object") ∧ get (lit "properties") s = Some (Object props) ∧
    map_get AGENT_ROUTE_FIELD props = Some (route_choice routes) ∧ get (lit "required") s = Some (Array required) ∧
    String AGENT_ROUTE_FIELD ∈ required.
Proof.
  intros Hr Hs0 [Ht Hp].
  assert (Hobj : ∃ m, schema0 = Object m) by (destruct schema0; try done; by eexists).
  set (choice := put AGENT_ROUTE_FIELD (route_choice routes) (default Null (get (lit "properties") schema0))).
  set (s1 := put (lit "properties") choice schema0).
  assert (Hs : agent_value_schema output routes =
    put (lit "required") (match get (lit "required") s1 with
      | Some (Array required) => Array (required ++ [String AGENT_ROUTE_FIELD]) | _ => Array [String AGENT_ROUTE_FIELD] end) s1).
  { subst s1 choice schema0. unfold agent_value_schema, agent_terminal_schema. destruct output, routes; done. }
  assert (Hch : ∃ props, choice = Object props ∧ map_get AGENT_ROUTE_FIELD props = Some (route_choice routes)).
  { subst choice. destruct (get (lit "properties") schema0) as [[]|]; try done; cbn; eexists; (split; [done|]);
      [by rewrite map_get_insert, decide_True|cbn; by rewrite decide_True]. }
  destruct Hch as (props & Hch & Hc). pose proof (put_object (lit "properties") choice schema0 Hobj) as Hobj1. fold s1 in Hobj1.
  exists props. rewrite Hs. cbv zeta.
  assert (Hget : ∀ k v, k ≠ lit "required" → get k (put (lit "required") v s1) = get k s1).
  { intros k v Hk. by rewrite get_put, decide_False. }
  assert (Hty : get (lit "type") s1 = Some (jstr "object")) by (subst s1; by rewrite get_put, decide_False).
  assert (Hpr : get (lit "properties") s1 = Some (Object props)) by (subst s1; by rewrite get_put, decide_True, Hch).
  destruct (match get (lit "required") s1 with Some (Array _) => true | _ => false end) eqn:E.
  - destruct (get (lit "required") s1) as [[]|]; try done. eexists. rewrite !Hget by done. split_and!; try done.
    + rewrite get_put, decide_True by done. done.
    + apply elem_of_app. right. constructor.
  - exists [String AGENT_ROUTE_FIELD]. rewrite !Hget by done. split_and!; try done; [|constructor].
    rewrite get_put, decide_True by done. destruct (get (lit "required") s1) as [[]|]; done.
Qed.

Section exits.
Context `{ValidatorLaws}.

(** A validated value of a routed Agent names one of its routes. *)
Lemma route_chosen output routes v :
  routes ≠ [] → match output with AgentJsonSchema schema => object_schema schema | AgentText => True end →
  is_valid (agent_value_schema output routes) v = true → chosen_route v ∈ map case (map route_id routes).
Proof using All.
  intros Hr Hout Hv.
  destruct (terminal_choice output routes _ Hr eq_refl) as (props & required & Ht & Hp & Hc & Hq & Hin).
  { by destruct output. }
  destruct (valid_choice _ v AGENT_ROUTE_FIELD props (route_choice routes) (map route_id routes) required Hv Ht Hp Hc) as (id & Hid & Hg); try done.
  { by rewrite map_map. }
  unfold chosen_route. rewrite Hg. cbn. by apply (list_elem_of_fmap_2 case).
Qed.

Lemma value_or_strategy_ok schema on_error stop report bytes c :
  value_or_strategy schema on_error stop report bytes = Ok c →
  is_Some (c_value c) ∧ (c_port c = PNext ∧ (∃ v, c_value c = Some v ∧ is_valid schema v = true) ∨ c_port c = PFail ∧ on_error = VFailBranch).
Proof using.
  intros Hc. unfold value_or_strategy in Hc.
  assert (Hval : ∀ v, (_ ← validate_commit schema v; Ok (plain (Some v) PNext bytes)) = Ok c →
    is_Some (c_value c) ∧ (c_port c = PNext ∧ (∃ v, c_value c = Some v ∧ is_valid schema v = true) ∨ c_port c = PFail ∧ on_error = VFailBranch)).
  { intros v Hv. apply bind_ok in Hv as ([] & [_ Hu]%validate_commit_ok & [= <-]). split; [by eexists|]. left. cbn. eauto. }
  destruct report; try done; [by apply (Hval value)|]. destruct on_error; [done|by apply (Hval value)|].
  apply bind_ok in Hc as (u & _ & [= <-]). split; [by eexists|]. by right.
Qed.

Lemma first_case_exit cases truths p : first_case cases truths = Ok p → p ∈ map case (map case_id cases) ++ [PFalse].
Proof using.
  revert truths. induction cases as [|c cases IH]; intros truths Hp; [injection Hp as <-; constructor|].
  destruct truths as [|t truths]; [injection Hp as <-; cbn; apply elem_of_cons; right; apply elem_of_app; right; constructor|].
  cbn in Hp. apply bind_ok in Hp as ([] & _ & Hp); [injection Hp as <-; constructor|]. cbn. apply elem_of_cons. right. by eapply IH.
Qed.

(** Whatever a node's owner reports, its completion leaves by an exit of the node, and has a
    value when the node produces one. *)
Lemma complete_exit id n schema bytes report c :
  agent_output_ok n → complete id n schema bytes report = Ok c →
  c_port c ∈ exits n ∧ (produces n = true → is_Some (c_value c)).
Proof using All.
  intros Hout Hc. unfold complete in Hc.
  destruct n as [| | |m i ins classes|l vs c0 o r e| |m ms o r e| | | | |content actions tm|se a re r e|pr ta o routes e|cases|];
    try (destruct report; try done; first [injection Hc as <-|apply bind_ok in Hc as (u & _ & [= <-])];
         split; [constructor|try done; by eexists]).
  - destruct report; try done. apply bind_ok in Hc as (class & Hcl & Hc). apply bind_ok in Hc as (u & _ & [= <-]).
    split; [|by eexists]. apply bind_ok in Hcl as (id' & _ & Hf%ok_or_ok%find_first_Some). cbn [exits named_exits c_port plain].
    apply (list_elem_of_fmap_2 case), (list_elem_of_fmap_2 class_id). by destruct Hf.
  - assert (Hv : value_or_strategy schema e (λ _, unexpected) report bytes = Ok c) by (by destruct report).
    apply value_or_strategy_ok in Hv as [Hs [[-> _]|[-> ->]]]; (split; [|done]); [constructor|]. cbn. constructor. constructor.
  - assert (Hv : value_or_strategy (model_output_schema o) (match e with MStop => VStop | MDefaultValue t s => VDefaultValue (model_default t s)
      | MFailBranch => VFailBranch end) (ModelFailed id) report bytes = Ok c) by (by destruct report).
    apply value_or_strategy_ok in Hv as [Hs [[-> _]|[-> He]]]; (split; [|done]); [constructor|]. destruct e; try done. cbn. constructor. constructor.
  - destruct report as [| | |  |answer shown| | | |]; try done. apply bind_ok in Hc as (action & Ha & [= <-]). split; [|by eexists].
    cbn [exits named_exits c_port plain]. apply elem_of_app. destruct answer as [i|].
    + left. apply ok_or_ok, fmap_Some in Ha as (a & Ha & ->). apply (list_elem_of_fmap_2 case), (list_elem_of_fmap_2 action_id).
      by eapply list_elem_of_lookup_2.
    + injection Ha as <-. right. constructor.
  - assert (Hv : value_or_strategy schema e (λ _, unexpected) report bytes = Ok c) by (by destruct report).
    apply value_or_strategy_ok in Hv as [Hs [[-> _]|[-> ->]]]; (split; [|done]); [constructor|]. cbn. constructor. constructor.
  - assert (Hv : ∃ c0, value_or_strategy (agent_value_schema o routes) e (λ _, unexpected) report bytes = Ok c0 ∧
      match routes, c_value c0 with
      | _ :: _, Some v => if decide (c_port c0 = PFail) then c = c0 else c = plain (Some v) (chosen_route v) bytes
      | _, _ => c = c0 end).
    { assert (Hb : (c ← value_or_strategy (agent_value_schema o routes) e (λ _, unexpected) report bytes;
        match routes, c_value c with
        | _ :: _, Some v => if decide (c_port c = PFail) then Ok c else Ok (plain (Some v) (chosen_route v) bytes)
        | _, _ => Ok c end) = Ok c) by (by destruct report).
      apply bind_ok in Hb as (c0 & Hv & Hb). exists c0. split; [done|].
      destruct routes; [by injection Hb|]. destruct (c_value c0); [|by injection Hb]. by case_decide; injection Hb. }
    destruct Hv as (c0 & Hv & Hb). apply value_or_strategy_ok in Hv as [[v Hs] Hv]. rewrite Hs in Hb.
    assert (Hfail : e = VFailBranch → PFail ∈ exits (NAgent pr ta o routes e)).
    { intros ->. cbn [exits]. apply elem_of_app. right. constructor. }
    destruct Hv as [[Hp (v' & Hv' & Hval)]|[Hp He]].
    + rewrite Hs in Hv'. injection Hv' as <-. destruct routes as [|r0 routes].
      * subst c0. rewrite Hp. split; [|by rewrite Hs]. cbn. constructor.
      * rewrite decide_False in Hb by congruence. subst c. split; [|by eexists]. cbn [plain c_port exits]. apply elem_of_app. left.
        cbn [named_exits]. apply (route_chosen o (r0 :: routes) v); [done| |done]. by destruct o.
    + assert (c = c0) as -> by (destruct routes; [done|by rewrite decide_True in Hb]). rewrite Hp. split; [by apply Hfail|by rewrite Hs].
  - destruct report; try done. apply bind_ok in Hc as (p & Hp & [= <-]). split; [|done]. by eapply first_case_exit.
Qed.
End exits.

(** ** The frontier *)

Lemma filter_ext_in {A} (P Q : A → Prop) `{∀ x, Decision (P x)} `{∀ x, Decision (Q x)} (l : list A) :
  (∀ x, x ∈ l → P x ↔ Q x) → filter P l = filter Q l.
Proof.
  induction l as [|x l IH]; [done|]. intros Hpq. rewrite !filter_cons.
  rewrite IH by (intros y Hy; apply Hpq; by constructor). pose proof (Hpq x ltac:(constructor)). repeat case_decide; tauto || done.
Qed.

Section frontier.
Context (out : list (str * list WorkflowEdgeProgram)) (start : str).
Context (keys : list str).
Hypothesis keys_nodup : NoDup keys.
Hypothesis closed : ∀ n e, e ∈ edges_of n out → n ∈ keys ∧ to e ∈ keys.
Hypothesis keys_length : length out = length keys.

(** The edges of the nodes not yet resolved *)
Definition rest (done : list str) : list WorkflowEdgeProgram := edges_from (filter (λ n, n ∉ done) keys) out.

Lemma rest_cons n done k : n ∈ keys → n ∉ done → hits k (rest done) = hits k (rest (n :: done)) + hits k (edges_of n out).
Proof using keys_nodup.
  unfold rest. clear closed keys_length. induction keys as [|x l IH]; [by intros ?%not_elem_of_nil|].
  apply NoDup_cons in keys_nodup as [Hx Hnd]. intros Hin Hn. rewrite !filter_cons.
  assert (Hcons : ∀ y ns, hits k (edges_from (y :: ns) out) = hits k (edges_of y out) + hits k (edges_from ns out)) by (intros; apply hits_app).
  apply elem_of_cons in Hin as [<-|Hin].
  - rewrite decide_True by done. rewrite (decide_False (P := n ∉ n :: done)) by (intros Hc; apply Hc; constructor).
    rewrite Hcons, Nat.add_comm. f_equal. f_equal. f_equal. apply filter_ext_in.
    intros y Hy. rewrite not_elem_of_cons. split; [|by intros [? ?]]. intros Hd. split; [by intros ->|done].
  - assert (Hne : n ≠ x) by (by intros ->). specialize (IH Hnd Hin Hn). destruct (decide (x ∉ done)).
    + rewrite (decide_True (P := x ∉ n :: done)) by (apply not_elem_of_cons; done). rewrite !Hcons, IH. lia.
    + rewrite (decide_False (P := x ∉ n :: done)); [done|]. by rewrite not_elem_of_cons; intros [? ?].
Qed.

Lemma rest_zero done k : hits k (rest done) = 0 ↔ ∀ n, leads out n k → n ∈ done.
Proof using closed.
  destruct (decide (hits k (rest done) = 0)) as [Hz|Hz].
  - split; [|done]. intros _ n (e & He & Hk)%leads_iff. destruct (decide (n ∈ done)) as [|Hn]; [done|]. exfalso.
    assert (Hp : hits k (rest done) ≠ 0); [|done]. apply hits_pos. exists e. split; [|done]. apply list_elem_of_join.
    exists (edges_of n out). split; [done|]. apply list_elem_of_fmap. exists n. split; [done|]. apply list_elem_of_filter.
    split; [done|]. by apply (closed n e).
  - split; [done|]. intros Ha. exfalso. apply hits_pos in Hz as (e & He & Hk). apply list_elem_of_join in He as (es & He & Hes).
    apply list_elem_of_fmap in Hes as (n & -> & [Hn _]%list_elem_of_filter). apply Hn, Ha, leads_iff. eauto.
Qed.

(** All edges of one resolved node. *)
Lemma resolve_edges p es f q c :
  (∀ k, count_of k (waiting f) = c k + hits k es) →
  let st := foldl (resolve_edge p) (f, q) es in
  (∀ k, count_of k (waiting st.1) = c k) ∧
  (∀ k, k ∈ activated st.1 ↔ k ∈ activated f ∨ ∃ e, e ∈ es ∧ to e = k ∧ p = Some (port e)) ∧
  (∀ k, k ∈ (ready st.1).*1 ↔ k ∈ (ready f).*1 ∨ c k = 0 ∧ hits k es ≠ 0 ∧ k ∈ activated st.1) ∧
  (map_sorted (ready f) → map_sorted (ready st.1)) ∧
  ∃ l, st.2 = q ++ l ∧ NoDup l.*1 ∧ ∀ k p', (k, p') ∈ l ↔ p' = None ∧ c k = 0 ∧ hits k es ≠ 0 ∧ k ∉ activated st.1.
Proof using All.
  revert f q. induction es as [|e es IH]; intros f q Hc; cbn [foldl].
  - cbn [fst snd]. split_and!; [intros k; rewrite Hc; apply Nat.add_0_r|..].
    + intros k. split; [by left|]. by intros [?|(e & ?%not_elem_of_nil & _)].
    + intros k. split; [by left|]. by intros [?|(_ & Hh & _)].
    + done.
    + exists []. rewrite app_nil_r. split_and!; [done|constructor|]. intros k p'.
      split; [by intros ?%not_elem_of_nil|by intros (_ & _ & Hh & _)].
  - assert (Hh : ∀ k, hits k (e :: es) = (if decide (to e = k) then 1 else 0) + hits k es).
    { intros k. unfold hits. rewrite filter_cons. by case_decide. }
    assert (Hrem : count_of (to e) (waiting f) - 1 = c (to e) + hits (to e) es).
    { rewrite Hc, Hh, decide_True by done. lia. }
    set (active := if decide (p = Some (port e)) then {[to e]} ∪ activated f else activated f).
    assert (Hact : ∀ k, k ∈ active ↔ k ∈ activated f ∨ to e = k ∧ p = Some (port e)).
    { intros k. subst active. case_decide; [rewrite elem_of_union, elem_of_singleton|]; naive_solver. }
    destruct (resolve_edge p (f, q) e) as [f1 q1] eqn:E. unfold resolve_edge in E. cbn [fst snd] in E. fold active in E. rewrite Hrem in E.
    assert (H1 : waiting f1 = map_insert (to e) (c (to e) + hits (to e) es) (waiting f) ∧ activated f1 = active ∧
      ready f1 = (if decide (c (to e) + hits (to e) es = 0) then if decide (to e ∈ active) then map_insert (to e) () (ready f) else ready f else ready f) ∧
      q1 = (if decide (c (to e) + hits (to e) es = 0) then if decide (to e ∈ active) then q else q ++ [(to e, None)] else q)).
    { repeat case_decide; injection E as <- <-; done. }
    destruct H1 as (Hw & Ha & Hr & ->). clear E.
    destruct (IH f1 (if decide (c (to e) + hits (to e) es = 0) then if decide (to e ∈ active) then q else q ++ [(to e, None)] else q))
      as (I1 & I2 & I3 & I4 & l & I5 & I6 & I7); clear IH.
    { intros k. rewrite Hw, count_of_insert. destruct (decide (k = to e)) as [->|Hk]; [done|]. rewrite Hc, Hh, decide_False by congruence. done. }
    set (st := foldl (resolve_edge p) _ es) in *.
    assert (Hact' : ∀ k, k ∈ activated st.1 ↔ k ∈ activated f ∨ ∃ e', e' ∈ e :: es ∧ to e' = k ∧ p = Some (port e')).
    { intros k. rewrite I2, Ha, Hact. split.
      - intros [[?|[? ?]]|(e' & ? & ?)]; [by left|right; exists e; split; [constructor|done]|right; exists e'; split; [by constructor|done]].
      - intros [?|(e' & [->|?]%elem_of_cons & ?)]; [auto|auto|right; eauto]. }
    (** at the last edge into a node its activation is decided *)
    assert (Hlast : hits (to e) es = 0 → to e ∈ active ↔ to e ∈ activated st.1).
    { intros Hz. rewrite I2, Ha. split; [by left|]. intros [?|(e' & He' & Ht & _)]; [done|].
      assert (hits (to e) es ≠ 0); [|done]. apply hits_pos. eauto. }
    assert (Hkeys : ∀ k v, k ∈ (map_insert (to e) v (ready f)).*1 ↔ k = to e ∨ k ∈ (ready f).*1).
    { intros k v. rewrite !map_get_key, map_get_insert. destruct (decide (k = to e)) as [->|Hk]; [split; [by left|by eexists]|]. naive_solver. }
    split_and!; [exact I1|exact Hact'|..].
    + intros k. rewrite I3, Hr, Hh. destruct (decide (c (to e) + hits (to e) es = 0)) as [Hz|Hz].
      * destruct (decide (to e ∈ active)) as [Hin|Hin]; rewrite ?Hkeys; (destruct (decide (to e = k)) as [Hk|Hk]; [subst k|naive_solver lia]).
        -- pose proof (proj1 (Hlast ltac:(lia)) Hin). naive_solver lia.
        -- pose proof (λ h, Hin (proj2 (Hlast ltac:(lia)) h)). naive_solver lia.
      * destruct (decide (to e = k)) as [Hk|Hk]; [subst k|]; naive_solver lia.
    + intros Hs. apply I4. rewrite Hr. repeat case_decide; [by apply map_insert_sorted|done..].
    + rewrite I5. destruct (decide (c (to e) + hits (to e) es = 0)) as [Hz|Hz]; [destruct (decide (to e ∈ active)) as [Hin|Hin]|].
      * exists l. split_and!; [done|done|]. intros k p'. rewrite I7, Hh. pose proof (proj1 (Hlast ltac:(lia)) Hin).
        destruct (decide (to e = k)) as [Hk|Hk]; [subst k|]; naive_solver lia.
      * exists ((to e, None) :: l). rewrite <- app_assoc. pose proof (λ h, Hin (proj2 (Hlast ltac:(lia)) h)) as Hna. split_and!; [done| |].
        -- cbn. constructor; [|done]. intros ([k p'] & Hk & Hl)%list_elem_of_fmap. cbn in Hk. subst k. apply I7 in Hl. lia.
        -- intros k p'. rewrite elem_of_cons, I7, Hh. destruct (decide (to e = k)) as [Hk|Hk]; [subst k|]; naive_solver lia.
      * exists l. split_and!; [done|done|]. intros k p'. rewrite I7, Hh. destruct (decide (to e = k)) as [Hk|Hk]; [subst k|]; naive_solver lia.
Qed.

(** What holds between two turns: [done] are the resolved nodes with the exit they left by,
    [queue] those whose edges are still to be followed, [busy] the nodes admitted so far. *)
Record frontier_ok (f : Frontier) (queue done : list (str * option WorkflowPort)) (busy : str → Prop) : Prop := {
  fr_nodup : NoDup (done.*1 ++ queue.*1);
  fr_keys n : n ∈ done.*1 ++ queue.*1 → n ∈ keys;
  fr_wait k : count_of k (waiting f) = hits k (rest done.*1);
  fr_act m : m ∈ activated f ↔ m = start ∨ ∃ n e, (n, Some (port e)) ∈ done ∧ e ∈ edges_of n out ∧ to e = m;
  fr_done n p : (n, p) ∈ done ++ queue → count_of n (waiting f) = 0 ∧ (is_Some p ↔ n ∈ activated f) ∧ (is_Some p → busy n);
  fr_ready n : n ∈ (ready f).*1 → count_of n (waiting f) = 0 ∧ n ∈ activated f ∧ n ∈ keys ∧ ¬ busy n;
  fr_busy n : busy n → count_of n (waiting f) = 0 ∧ n ∈ activated f ∧ n ∈ keys;
  fr_all n : n ∈ keys → count_of n (waiting f) = 0 → n ∈ (ready f).*1 ∨ busy n ∨ n ∈ done.*1 ++ queue.*1;
  fr_sorted : map_sorted (ready f);
}.

Lemma resolve_turn f from p queue done busy :
  frontier_ok f ((from, p) :: queue) done busy →
  let st := foldl (resolve_edge p) (f, queue) (edges_of from out) in
  frontier_ok st.1 st.2 ((from, p) :: done) busy ∧
  ∃ l, st.2 = queue ++ l ∧ ∀ n p', (n, p') ∈ l → p' = None.
Proof using All.
  intros Hf st. destruct Hf as [Hnd Hk Hw Ha Hd Hr Hb Hall Hs]. cbn [fmap list_fmap fst] in *.
  assert (Hfk : from ∈ keys) by (apply Hk, elem_of_app; right; constructor).
  assert (Hfd : from ∉ done.*1).
  { apply NoDup_app in Hnd as (_ & Hd' & _). intros Hin. apply (Hd' _ Hin). constructor. }
  destruct (resolve_edges p (edges_of from out) f queue (λ k, hits k (rest (from :: done.*1)))) as (R1 & R2 & R3 & R4 & l & R5 & R6 & R7).
  { intros k. by rewrite Hw, (rest_cons from). }
  fold st in R1, R2, R3, R4, R5, R7.
  assert (Hcut : ∀ k, count_of k (waiting f) = count_of k (waiting st.1) + hits k (edges_of from out)).
  { intros k. by rewrite R1, Hw, (rest_cons from). }
  assert (Hkeep : ∀ n, count_of n (waiting f) = 0 → count_of n (waiting st.1) = 0 ∧ (n ∈ activated st.1 ↔ n ∈ activated f)).
  { intros n Hz. specialize (Hcut n). split; [lia|]. rewrite R2. split; [|by left]. intros [?|(e & He & Ht & _)]; [done|].
    assert (hits n (edges_of from out) ≠ 0) by (apply hits_pos; eauto). lia. }
  assert (Hnew : ∀ n, hits n (edges_of from out) ≠ 0 → n ∈ keys ∧ n ∉ done.*1 ++ from :: queue.*1 ∧ ¬ busy n ∧ n ∉ (ready f).*1).
  { intros n Hh. pose proof (Hcut n) as Hc. apply hits_pos in Hh as (e & He & Ht). split_and!.
    - rewrite <- Ht. by apply (closed from).
    - intros Hin. assert (Hz : count_of n (waiting f) = 0); [|assert (hits n (edges_of from out) ≠ 0) by (apply hits_pos; eauto); lia].
      change (n ∈ done.*1 ++ ((from, p) :: queue).*1) in Hin. rewrite <- fmap_app in Hin.
      apply list_elem_of_fmap in Hin as ([n' p'] & -> & Hin). by apply (Hd n' p').
    - intros Hbn. assert (hits n (edges_of from out) ≠ 0) by (apply hits_pos; eauto). apply Hb in Hbn as [? _]. lia.
    - intros Hrn. assert (hits n (edges_of from out) ≠ 0) by (apply hits_pos; eauto). apply Hr in Hrn as [? _]. lia. }
  assert (Hl : ∀ n, n ∈ l.*1 ↔ (n, None) ∈ l).
  { intros n. split; [|by intros Hin; apply (list_elem_of_fmap_2 fst _ (n, None))]. intros ([n' p'] & -> & Hin)%list_elem_of_fmap.
    pose proof Hin as Hin'. apply R7 in Hin' as [-> _]. done. }
  assert (Hperm : ∀ n, n ∈ ((from, p) :: done).*1 ++ (queue ++ l).*1 ↔ n ∈ done.*1 ++ from :: queue.*1 ∨ (n, None) ∈ l).
  { intros n. cbn [fmap list_fmap fst]. rewrite fmap_app, <- Hl. repeat (rewrite elem_of_app || rewrite elem_of_cons). tauto. }
  assert (Hlast : ∀ n p', (n, p') ∈ l → p' = None) by (intros n p' Hin; by apply R7 in Hin as [-> _]).
  split; [|by exists l]. split; rewrite ?R5.
  - cbn [fmap list_fmap fst]. rewrite fmap_app.
    assert (E : from :: done.*1 ++ queue.*1 ++ l.*1 ≡ₚ (done.*1 ++ from :: queue.*1) ++ l.*1).
    { rewrite <- app_assoc. cbn. by rewrite <- Permutation_middle. }
    cbn. rewrite E. apply NoDup_app. split_and!; [done| |done].
    intros n Hin Hin'. apply Hl, R7 in Hin' as (_ & _ & Hh & _). apply Hnew in Hh as (_ & Hh & _). by apply Hh.
  - intros n [Hin|Hin]%Hperm; [by apply Hk|]. apply R7 in Hin as (_ & _ & Hh & _). by apply Hnew in Hh as [? _].
  - intros k. rewrite R1. done.
  - intros m. rewrite R2, Ha. split.
    + intros [[?|(n & e & ? & ?)]|(e & He & Ht & ->)]; [by left|right; exists n, e; split; [by constructor|done]|].
      right. exists from, e. split; [constructor|done].
    + intros [?|(n & e & [[= -> <-]|Hin]%elem_of_cons & He & Ht)]; [by left; left|right; eauto|left; right; eauto].
  - intros n p' Hin. assert (Hin' : (n, p') ∈ done ++ (from, p) :: queue ∨ (n, p') ∈ l).
    { cbn in Hin. repeat (rewrite elem_of_app in Hin || rewrite elem_of_cons in Hin). repeat (rewrite elem_of_app || rewrite elem_of_cons). tauto. }
    destruct Hin' as [Hin'|Hin'].
    + apply Hd in Hin' as (Hz & Hact & Hbn). destruct (Hkeep _ Hz) as [? E]. rewrite E. done.
    + apply R7 in Hin' as (-> & Hz & _ & Hna). split_and!; [by rewrite R1| |by intros [??]]. split; [by intros [??]|done].
  - intros n [Hin|(Hz & Hh & Hact)]%R3.
    + apply Hr in Hin as (Hz & Hact & Hkn & Hbn). destruct (Hkeep _ Hz) as [? E]. rewrite E. done.
    + destruct (Hnew _ Hh) as (Hkn & _ & Hbn & _). rewrite R1. done.
  - intros n (Hz & Hact & Hkn)%Hb. destruct (Hkeep _ Hz) as [? E]. rewrite E. done.
  - intros n Hkn Hz. rewrite Hperm, R3. destruct (decide (hits n (edges_of from out) = 0)) as [Hh|Hh].
    + specialize (Hcut n). destruct (Hall n Hkn ltac:(lia)) as [?|[?|?]]; auto.
    + rewrite R1 in Hz. destruct (decide (n ∈ activated st.1)); [auto|]. right. right. right. apply R7. done.
  - by apply R4.
Qed.

Lemma resolve_ok fuel f queue done busy :
  frontier_ok f queue done busy → length keys ≤ fuel + length done →
  ∃ done', frontier_ok (resolve fuel out f queue).1 [] done' busy ∧ (resolve fuel out f queue).2 = [] ∧
    (∀ x, x ∈ done ++ queue → x ∈ done') ∧ ∀ n p, (n, Some p) ∈ done' → (n, Some p) ∈ done ++ queue.
Proof using All.
  revert f queue done. induction fuel as [|fuel IH]; intros f queue done Hf Hl.
  - assert (queue = []) as ->.
    { destruct queue as [|x queue]; [done|]. exfalso. pose proof (fr_nodup _ _ _ _ Hf) as Hnd.
      pose proof (submseteq_length _ _ (NoDup_submseteq _ _ Hnd (fr_keys _ _ _ _ Hf))) as Hle. rewrite length_app, !length_fmap in Hle. cbn in Hle. lia. }
    exists done. rewrite app_nil_r. done.
  - destruct queue as [|[from p] queue]; [exists done; rewrite app_nil_r; done|].
    cbn [resolve]. destruct (resolve_turn f from p queue done busy Hf) as [Hf' (l & Hq & Hl')].
    destruct (foldl (resolve_edge p) (f, queue) (edges_of from out)) as [f' queue']. cbn [fst snd] in *.
    destruct (IH f' queue' ((from, p) :: done) Hf' ltac:(cbn; lia)) as (done' & Hok & Hnil & Hin & Hsome). exists done'. split; [done|]. split; [done|]. subst queue'. split.
    + intros x Hx. apply Hin. rewrite !elem_of_app, !elem_of_cons in *. tauto.
    + intros n q Hn. apply Hsome in Hn. rewrite !elem_of_app, !elem_of_cons in *.
      destruct Hn as [[?|?]|[?|Hn]]; try tauto. by apply Hl' in Hn.
Qed.
End frontier.

(** ** Runs of a block *)

Definition starts (tr : list event) : list str := omap (λ e, match e with Started n _ _ => Some n | _ => None end) tr.
(** The nodes whose future has ended, and those that completed *)
Definition finished (tr : list event) : list str := omap (λ e, match e with Gated n | Settled n _ => Some n | _ => None end) tr.
Definition completed (tr : list event) : list (str * NodeCompletion) :=
  omap (λ e, match e with Settled n (Ok c) => Some (n, c) | _ => None end) tr.

Definition value_sorted (v : json) : Prop := match v with Object m => map_sorted m | _ => True end.

Section runs.
Context `{JsonTextLaws} `{ValidatorLaws}.
Context (b : WorkflowBlock) (cf : ControlFlow) (scope0 : list (str * json)).

(** What the native work of a node may end with. *)
Definition node_ok (n : str) (r : result WorkflowRunError NodeCompletion) : Prop :=
  match r with
  | Ok c =>
      ∃ nd schema bytes report, map_get n (block_nodes b) = Some nd ∧ complete n nd schema bytes report = Ok c ∧
        (∀ v, c_value c = Some v → value_sorted v) ∧
        ∀ o l v, (o, l, v) ∈ c_writes c → ∃ items item, nd = NAssigner items ∧ item ∈ items ∧ variable item = [o; l]
  | Err _ => True
  end.

Inductive run : list event → Graph → Prop :=
| run_initial : run [] (initial b cf scope0)
| run_start tr g g' id p :
    run tr g → pending_of id g = Some p → admitting g = true → poll id g = Some g' →
    run (tr ++ [Started id (p_scope p) (p_failed p)]) g'
| run_gate tr g g' id :
    run tr g → admitting g = false → poll id g = Some g' → run (tr ++ [Gated id]) g'
| run_settle tr g g' id p budgets budgets' r r' :
    run tr g → pending_of id g = Some p → p_started p = true → node_ok id r →
    settle b cf budgets id r g = Ok (budgets', g', r') → run (tr ++ [Settled id r']) g'.

(** What the checks of the block establish. *)
Hypothesis Hsorted : map_sorted (block_nodes b).
Hypothesis Hflow : flow_ok b cf.
Hypothesis Hscope : owners_sorted scope0.
Hypothesis Hagents : ∀ n nd, map_get n (block_nodes b) = Some nd → agent_output_ok nd.
(** A Variable Assigner writes variables of the Loops around the block. *)
Hypothesis Hassign : ∀ n items item o, map_get n (block_nodes b) = Some (NAssigner items) → item ∈ items →
  head (variable item) = Some o → o ∉ (block_nodes b).*1.

Local Notation out := (outgoing cf).
Local Notation keys := (outgoing cf).*1.
Local Notation front := (frontier_ok out (entry cf) keys).

Lemma keys_nodes : keys = (block_nodes b).*1.
Proof using All. apply (flow_keys b cf Hflow). Qed.
Lemma keys_nodup : NoDup keys.
Proof using All. rewrite keys_nodes. by apply sorted_nodup. Qed.
Lemma keys_closed n e : e ∈ edges_of n out → n ∈ keys ∧ to e ∈ keys.
Proof using All.
  intros (d & nd & _ & _ & Hg & _ & Hs & _)%(flow_edges b cf Hflow). rewrite keys_nodes, !map_get_key. split; [by eexists|done].
Qed.
Lemma keys_entry : entry cf ∈ keys.
Proof using All. rewrite keys_nodes, map_get_key. exists NStart. by apply (flow_start b cf Hflow). Qed.

(** A node that waits for nobody has all its predecessors behind it. *)
Lemma ancestors_done f done busy n a :
  front f [] done busy → count_of n (waiting f) = 0 → tc (leads out) a n → a ∈ done.*1.
Proof using All.
  intros Hf. revert n. assert (Hstep : ∀ n k, count_of n (waiting f) = 0 → leads out k n → k ∈ done.*1 ∧ count_of k (waiting f) = 0).
  { intros n k Hz Hl. rewrite (fr_wait _ _ _ _ _ _ _ Hf) in Hz. apply (rest_zero out keys keys_closed) with (n := k) in Hz; [|done].
    split; [done|]. apply list_elem_of_fmap in Hz as ([k' p] & -> & Hin). apply (fr_done _ _ _ _ _ _ _ Hf k' p). rewrite app_nil_r. done. }
  intros n Hz Ht. revert n Ht Hz. apply (tc_ind_r (λ n, count_of n (waiting f) = 0 → a ∈ done.*1)).
  - intros n Hl Hz. by apply (Hstep n).
  - intros k n _ Hl IH Hz. apply IH. by apply (Hstep n k).
Qed.

Lemma order_ind (P : str → Prop) : (∀ n, n ∈ keys → (∀ k, leads out k n → P k) → P n) → ∀ n, n ∈ keys → P n.
Proof using All.
  intros Hstep. assert (Hpre : ∀ pre post, topological cf = pre ++ post → ∀ n, n ∈ pre → P n).
  { induction pre as [|x pre IH] using rev_ind; intros post Ho n Hn; [by apply not_elem_of_nil in Hn|]. rewrite <- app_assoc in Ho.
    apply elem_of_app in Hn as [Hn|Hn%list_elem_of_singleton]; [by eapply IH|]. subst x. apply Hstep.
    - rewrite keys_nodes, (flow_nodes b cf Hflow), Ho. apply elem_of_app. right. constructor.
    - intros k Hl. apply (IH _ Ho). apply (flow_order b cf Hflow pre n post Ho); [|done]. apply leads_iff in Hl as (e & He & _). by apply (keys_closed k e). }
  intros n Hn. apply (Hpre (topological cf) []); [by rewrite app_nil_r|]. by rewrite <- (flow_nodes b cf Hflow), <- keys_nodes.
Qed.

(** What a node was given to read: its predecessors are resolved, the value of each that
    completed is there, and those that failed are known. *)
Definition snapshot_ok (tr : list event) (done : list (str * option WorkflowPort)) (n : str) (scope : list (str * json)) (failed : gset str) : Prop :=
  ∀ a, tc (leads out) a n → a ∈ done.*1 ∧ ∀ c, (a, c) ∈ completed tr →
    (∀ v, c_value c = Some v → map_get a scope = Some v) ∧ (a ∈ failed ↔ c_port c = PFail).

(** The invariant of the loop: [done] are the resolved nodes. *)
Record loop_ok (tr : list event) (g : Graph) (done : list (str * option WorkflowPort)) : Prop := {
  lo_front : front (frontier g) [] done (λ n, n ∈ map p_node (pending g) ∨ n ∈ finished tr);
  lo_done n p : (n, Some p) ∈ done ↔ ∃ c, (n, c) ∈ completed tr ∧ c_port c = p;
  lo_nodup : NoDup (map p_node (pending g) ++ finished tr);
  lo_starts : NoDup (starts tr);
  lo_started n : n ∈ starts tr → n ∈ map p_node (pending g) ∨ n ∈ finished tr;
  lo_pending p : p ∈ pending g → p_started p = true ↔ p_node p ∈ starts tr;
  lo_settled n r : Settled n r ∈ tr → n ∈ starts tr;
  lo_open : failures g = [] ↔ admitting g = true;
  lo_finished n : failures g = [] → n ∈ finished tr → n ∈ (completed tr).*1;
  lo_failed n e : map_get n (failures g) = Some e ↔ Settled n (Err e) ∈ tr;
  lo_completed n c : (n, c) ∈ completed tr → node_ok n (Ok c);
  lo_values n c v : (n, c) ∈ completed tr → c_value c = Some v → map_get n (values g) = Some v;
  lo_fails n : n ∈ failed_outputs g ↔ ∃ c, (n, c) ∈ completed tr ∧ c_port c = PFail;
  lo_snapshots p : p ∈ pending g → snapshot_ok tr done (p_node p) (p_scope p) (p_failed p);
  lo_events n scope failed : Started n scope failed ∈ tr → snapshot_ok tr done n scope failed;
  lo_sorted : owners_sorted (values g);
}.

Lemma completed_finished tr n c : (n, c) ∈ completed tr → n ∈ finished tr.
Proof using.
  unfold completed, finished. rewrite !list_elem_of_omap. intros ([| |n' []] & Hin & [= <- <-]). eexists. split; [done|]. done.
Qed.

Lemma completed_unique tr n c c' : NoDup (finished tr) → (n, c) ∈ completed tr → (n, c') ∈ completed tr → c = c'.
Proof using.
  induction tr as [|e tr IH]; [by intros _ ?%not_elem_of_nil|]. unfold finished, completed. cbn [omap list_omap].
  destruct e as [? ? ?|m|m [c0|e]]; cbn; fold (finished tr) (completed tr); [done|intros [_ Hnd]%NoDup_cons; by apply IH| |intros [_ Hnd]%NoDup_cons; by apply IH].
  intros [Hm Hnd]%NoDup_cons [[= -> ->]|Hc]%elem_of_cons [[= <-]|Hc']%elem_of_cons; try done; [subst..|by apply IH];
    exfalso; apply Hm; by eapply completed_finished.
Qed.

(** Admission at the head of the loop. *)
Lemma admit_ready_ok tr g done : loop_ok tr g done → loop_ok tr (admit_ready g) done ∧ (failures g = [] → ready (frontier (admit_ready g)) = []).
Proof using All.
  intros Hl. unfold admit_ready. destruct (failures g) as [|x fs] eqn:Ef; [|by split]. split; [|done].
  destruct Hl as [Hf Hd Hnd Hst Hsd Hp Hse Ho Hfi Hfa Hco Hv Hfo Hsn Hev Hso].
  set (fresh := map (λ x, {| p_node := x.1; p_scope := values g; p_failed := failed_outputs g; p_started := false |}) (ready (frontier g))).
  assert (Hfresh : map p_node fresh = (ready (frontier g)).*1) by (unfold fresh; by rewrite map_map).
  assert (Hbusy : ∀ n, n ∈ map p_node (pending g ++ fresh) ∨ n ∈ finished tr ↔
    n ∈ (ready (frontier g)).*1 ∨ n ∈ map p_node (pending g) ∨ n ∈ finished tr).
  { intros n. rewrite map_app, Hfresh, elem_of_app. tauto. }
  assert (Hsnap : ∀ n, n ∈ (ready (frontier g)).*1 → snapshot_ok tr done n (values g) (failed_outputs g)).
  { intros n Hn a Ha. apply (fr_ready _ _ _ _ _ _ _ Hf) in Hn as (Hz & _). split; [by eapply ancestors_done|]. intros c Hc. split; [by intros v; apply (Hv _ _ _ Hc)|].
    rewrite Hfo. split; [|by eauto]. intros (c' & Hc' & Hp'). apply NoDup_app in Hnd as (_ & _ & Hnd).
    by rewrite (completed_unique tr a c c' Hnd Hc Hc'). }
  split; cbn [frontier pending values failed_outputs admitting failures set_frontier set_pending]; try done.
  - destruct Hf as [F1 F2 F3 F4 F5 F6 F7 F8 F9]. split; cbn [waiting activated ready]; try done.
    + intros n p Hin. destruct (F5 n p Hin) as (? & ? & ?). split_and!; try done. rewrite Hbusy. auto.
    + by intros n ?%not_elem_of_nil.
    + intros n [Hn|Hn]%Hbusy; [apply F6 in Hn as (? & ? & ? & _); done|by apply F7].
    + intros n Hk Hz. rewrite Hbusy. destruct (F8 n Hk Hz) as [?|[?|?]]; auto.
    + constructor.
  - rewrite map_app, Hfresh, <- app_assoc. apply NoDup_app in Hnd as (N1 & N2 & N3). apply NoDup_app.
    assert (Hdisj : ∀ n, n ∈ (ready (frontier g)).*1 → n ∉ map p_node (pending g) ∧ n ∉ finished tr).
    { intros n Hn. apply (fr_ready _ _ _ _ _ _ _ Hf) in Hn as (_ & _ & _ & Hb). tauto. }
    split_and!; [done| |apply NoDup_app; split_and!; [by apply sorted_nodup, (fr_sorted _ _ _ _ _ _ _ Hf)| |done]].
    + intros n Hn [Hr|Hr]%elem_of_app; [by apply Hdisj in Hr as [? _]|by apply (N2 n)].
    + intros n Hn. by apply Hdisj.
  - intros n Hn. apply Hbusy. right. by apply Hsd.
  - intros p [Hin|Hin]%elem_of_app; [by apply Hp|]. apply list_elem_of_fmap in Hin as ([n u] & -> & Hin). cbn. split; [done|].
    intros Hs. apply Hsd in Hs. apply (list_elem_of_fmap_2 fst) in Hin. by apply (fr_ready _ _ _ _ _ _ _ Hf) in Hin as (_ & _ & _ & Hb).
  - intros p [Hin|Hin]%elem_of_app; [by apply Hsn|]. apply list_elem_of_fmap in Hin as ([n u] & -> & Hin). cbn.
    apply Hsnap. by apply (list_elem_of_fmap_2 fst _ (n, u)).
Qed.

Lemma count_all m es k :
  count_of k (foldl (λ m e, map_insert (to e) (S (count_of (to e) m)) m) m es) = count_of k m + hits k es.
Proof using.
  revert m. induction es as [|e es IH]; intros m; cbn [foldl]; [cbn; lia|]. rewrite IH, count_of_insert.
  unfold hits. rewrite filter_cons. destruct (decide (k = to e)) as [->|Hk]; [rewrite decide_True by done; cbn; lia|].
  by rewrite decide_False by congruence.
Qed.

Lemma initial_front busy : (∀ n, ¬ busy n) → front (initial_frontier b cf) [] [] busy.
Proof using All.
  intros Hb.
  assert (Hw : ∀ k, count_of k (waiting (initial_frontier b cf)) = hits k (rest out keys [])).
  { intros k. cbn [waiting initial_frontier]. rewrite count_all. unfold count_of at 1. rewrite (map_get_map (λ _, 0)).
    assert (default 0 ((λ _, 0) <$> map_get k (block_nodes b)) = 0) as -> by (by destruct (map_get k (block_nodes b))).
    unfold rest. rewrite <- (edges_from_keys out keys_nodup). cbn [Nat.add]. f_equal. f_equal. symmetry.
    induction keys as [|x l IH]; [done|]. rewrite filter_cons, decide_True by apply not_elem_of_nil. by rewrite IH. }
  assert (Hz : ∀ n, count_of n (waiting (initial_frontier b cf)) = 0 ↔ ∀ k, ¬ leads out k n).
  { intros n. rewrite Hw, (rest_zero out keys keys_closed). split; intros Hn k Hl; [by apply Hn, not_elem_of_nil in Hl|by apply Hn in Hl]. }
  split; try (by intros n ?%Hb).
  - constructor.
  - by intros n ?%not_elem_of_nil.
  - exact Hw.
  - intros m. cbn [activated initial_frontier]. rewrite elem_of_singleton. split; [by left|].
    by intros [?|(n & e & ?%not_elem_of_nil & _)].
  - by intros n p ?%not_elem_of_nil.
  - intros n Hn. cbn in Hn. apply list_elem_of_singleton in Hn as ->. split_and!; [apply Hz; intros k; apply (flow_source b cf Hflow)|cbn [activated initial_frontier]; by apply elem_of_singleton|apply keys_entry|apply Hb].
  - intros n Hk Hn. left. cbn. apply list_elem_of_singleton. rewrite Hz in Hn. rewrite keys_nodes in Hk.
    pose proof (flow_reach b cf Hflow n Hk) as Hr. apply rtc_tc in Hr. destruct Hr as [?|Ht]; [done|]. apply tc_last in Ht as (k & _ & Hl). by apply Hn in Hl.
  - repeat constructor.
Qed.

Lemma initial_ok : loop_ok [] (initial b cf scope0) [].
Proof using All.
  apply admit_ready_ok. split; cbn [frontier pending values failed_outputs admitting failures].
  - apply initial_front. by intros n [?%not_elem_of_nil|?%not_elem_of_nil].
  - intros n p. split; [by intros ?%not_elem_of_nil|]. by intros (c & ?%not_elem_of_nil & _).
  - constructor.
  - constructor.
  - by intros n ?%not_elem_of_nil.
  - by intros p ?%not_elem_of_nil.
  - by intros n r ?%not_elem_of_nil.
  - done.
  - by intros n _ ?%not_elem_of_nil.
  - intros n e. split; [done|by intros ?%not_elem_of_nil].
  - by intros n c ?%not_elem_of_nil.
  - by intros n c v ?%not_elem_of_nil.
  - intros n. rewrite elem_of_empty. split; [done|]. by intros (c & ?%not_elem_of_nil & _).
  - by intros p ?%not_elem_of_nil.
  - by intros n scope failed ?%not_elem_of_nil.
  - exact Hscope.
Qed.

Lemma busy_ext f queue done (busy busy' : str → Prop) : front f queue done busy → (∀ n, busy n ↔ busy' n) → front f queue done busy'.
Proof using.
  intros [F1 F2 F3 F4 F5 F6 F7 F8 F9] Hb. split; try done.
  - intros n p Hin. destruct (F5 n p Hin) as (? & ? & ?). rewrite <- Hb. done.
  - intros n Hn. rewrite <- Hb. by apply F6.
  - intros n Hn%Hb. by apply F7.
  - intros n. rewrite <- Hb. by apply F8.
Qed.

Lemma snapshot_mono tr tr' done done' n scope failed :
  snapshot_ok tr done n scope failed → (∀ a, a ∈ done.*1 → a ∈ done'.*1) →
  (∀ a c, a ∈ done.*1 → (a, c) ∈ completed tr' → (a, c) ∈ completed tr) → snapshot_ok tr' done' n scope failed.
Proof using.
  intros Hs Hd Hc a Ha. destruct (Hs a Ha) as [Hin Hall]. split; [by apply Hd|]. intros c Hac. apply Hall. by apply Hc.
Qed.

Lemma completed_app tr tr' : completed (tr ++ tr') = completed tr ++ completed tr'.
Proof using. apply omap_app. Qed.
Lemma finished_app tr tr' : finished (tr ++ tr') = finished tr ++ finished tr'.
Proof using. apply omap_app. Qed.
Lemma starts_app tr tr' : starts (tr ++ tr') = starts tr ++ starts tr'.
Proof using. apply omap_app. Qed.

Lemma pending_of_in id g p : pending_of id g = Some p → p ∈ pending g ∧ p_node p = id.
Proof using. by intros [Hin Hp%bool_decide_eq_true]%find_first_Some. Qed.

Lemma remaining_nodes id (l : list Pending) : map p_node (filter (λ p, p_node p ≠ id) l) = filter (λ n, n ≠ id) (map p_node l).
Proof using.
  induction l as [|p l IH]; [done|]. cbn [map]. rewrite !filter_cons. destruct (decide (p_node p ≠ id)); cbn [map]; by rewrite IH.
Qed.

(** A node leaves [pending] and has finished. *)
Lemma retire_busy id l fin : id ∈ map p_node l →
  (∀ n, n ∈ map p_node (filter (λ p, p_node p ≠ id) l) ∨ n ∈ fin ++ [id] ↔ n ∈ map p_node l ∨ n ∈ fin).
Proof using.
  intros Hid n. rewrite remaining_nodes, list_elem_of_filter, elem_of_app, list_elem_of_singleton.
  destruct (decide (n = id)) as [->|]; tauto.
Qed.
Lemma retire_nodup id l fin : id ∈ map p_node l → NoDup (map p_node l ++ fin) →
  NoDup (map p_node (filter (λ p, p_node p ≠ id) l) ++ fin ++ [id]).
Proof using.
  intros Hid (N1 & N2 & N3)%NoDup_app. rewrite remaining_nodes. apply NoDup_app. split_and!; [by apply NoDup_filter| |].
  - intros n [Hn Hin]%list_elem_of_filter [Hf|Hf%list_elem_of_singleton]%elem_of_app; [by apply (N2 n)|done].
  - apply NoDup_app. split_and!; [done| |apply NoDup_singleton]. intros n Hn ->%list_elem_of_singleton. by apply (N2 id).
Qed.

Lemma start_ok tr g done g' id p :
  loop_ok tr g done → pending_of id g = Some p → admitting g = true → poll id g = Some g' →
  loop_ok (tr ++ [Started id (p_scope p) (p_failed p)]) g' done ∧ id ∉ starts tr.
Proof using All.
  intros [Hf Hd Hnd Hst Hsd Hp Hse Ho Hfi Hfa Hco Hv Hfo Hsn Hev Hso] Hpo Had Hpoll. unfold poll in Hpoll. rewrite Hpo, Had in Hpoll.
  cbn [mbind option_bind] in Hpoll. destruct (p_started p) eqn:Es; [done|]. injection Hpoll as <-.
  destruct (pending_of_in _ _ _ Hpo) as [Hin Hid].
  assert (Hns : id ∉ starts tr). { rewrite <- Hid, <- Hp by done. by rewrite Es. }
  set (mark := λ q, if decide (p_node q = id) then {| p_node := id; p_scope := p_scope q; p_failed := p_failed q; p_started := true |} else q).
  assert (Hnodes : map p_node (map mark (pending g)) = map p_node (pending g)).
  { rewrite map_map. apply map_ext. intros q. unfold mark. by case_decide. }
  assert (Hmark : ∀ q, q ∈ map mark (pending g) → ∃ q0, q0 ∈ pending g ∧ p_node q = p_node q0 ∧ p_scope q = p_scope q0 ∧ p_failed q = p_failed q0 ∧
    (p_started q = true ↔ p_node q0 = id ∨ p_started q0 = true)).
  { intros q (q0 & -> & Hq)%list_elem_of_fmap. exists q0. split; [done|]. unfold mark. case_decide; cbn; naive_solver. }
  split; [|done].
  assert (Hcomp : completed (tr ++ [Started id (p_scope p) (p_failed p)]) = completed tr) by (rewrite completed_app; cbn; apply app_nil_r).
  assert (Hfin : finished (tr ++ [Started id (p_scope p) (p_failed p)]) = finished tr) by (rewrite finished_app; cbn; apply app_nil_r).
  assert (Hstt : starts (tr ++ [Started id (p_scope p) (p_failed p)]) = starts tr ++ [id]) by (by rewrite starts_app).
  assert (Hsnap : ∀ n sc fo, snapshot_ok tr done n sc fo → snapshot_ok (tr ++ [Started id (p_scope p) (p_failed p)]) done n sc fo).
  { intros n sc fo Hs. eapply snapshot_mono; [exact Hs|done|]. intros a c _. by rewrite Hcomp. }
  split; cbn [frontier pending values failed_outputs admitting failures set_pending];
    rewrite ?Hcomp, ?Hfin, ?Hstt, ?Hnodes; try done.
  - apply NoDup_app. split_and!; [done| |apply NoDup_singleton]. by intros n Hn ->%list_elem_of_singleton.
  - intros n [Hn|Hn%list_elem_of_singleton]%elem_of_app; [by apply Hsd|]. subst n. left. rewrite <- Hid. by apply list_elem_of_fmap_2.
  - intros q (q0 & Hq0 & En & _ & _ & E)%Hmark. rewrite E, En, elem_of_app, list_elem_of_singleton, (Hp q0 Hq0). tauto.
  - intros n r [Hn|Hn%list_elem_of_singleton]%elem_of_app; [|done]. rewrite elem_of_app. left. by eapply Hse.
  - intros n e. rewrite Hfa, elem_of_app, list_elem_of_singleton. naive_solver.
  - intros q (q0 & Hq0 & En & E1 & E2 & _)%Hmark. rewrite En, E1, E2. by apply Hsnap, Hsn.
  - intros n sc fo [Hn|Hn%list_elem_of_singleton]%elem_of_app; [by apply Hsnap, Hev|]. injection Hn as -> -> ->. apply Hsnap. rewrite <- Hid.
    by apply Hsn.
Qed.

(** The end of a future that leaves the frontier as it is. *)
Lemma gate_ok tr g done g' id :
  loop_ok tr g done → admitting g = false → poll id g = Some g' → loop_ok (tr ++ [Gated id]) g' done.
Proof using All.
  intros [Hf Hd Hnd Hst Hsd Hp Hse Ho Hfi Hfa Hco Hv Hfo Hsn Hev Hso] Had Hpoll. unfold poll in Hpoll.
  destruct (pending_of id g) as [p|] eqn:Hpo; [|done]. cbn [mbind option_bind] in Hpoll. rewrite Had in Hpoll.
  destruct (p_started p) eqn:Es; [done|]. injection Hpoll as <-. destruct (pending_of_in _ _ _ Hpo) as [Hin Hid].
  assert (Hidp : id ∈ map p_node (pending g)) by (rewrite <- Hid; by apply list_elem_of_fmap_2).
  apply admit_ready_ok.
  assert (Hcomp : completed (tr ++ [Gated id]) = completed tr) by (rewrite completed_app; cbn; apply app_nil_r).
  assert (Hfin : finished (tr ++ [Gated id]) = finished tr ++ [id]) by (by rewrite finished_app).
  assert (Hstt : starts (tr ++ [Gated id]) = starts tr) by (rewrite starts_app; cbn; apply app_nil_r).
  assert (Hsnap : ∀ n sc fo, snapshot_ok tr done n sc fo → snapshot_ok (tr ++ [Gated id]) done n sc fo).
  { intros n sc fo Hs. eapply snapshot_mono; [exact Hs|done|]. intros a c _. by rewrite Hcomp. }
  split; cbn [frontier pending values failed_outputs admitting failures set_pending remove_pending];
    rewrite ?Hcomp, ?Hfin, ?Hstt; try done.
  - eapply busy_ext; [exact Hf|]. intros n. symmetry. by apply retire_busy.
  - by apply retire_nodup.
  - intros n Hn. apply retire_busy; [done|]. by apply Hsd.
  - intros q [_ Hq]%list_elem_of_filter. by apply Hp.
  - intros n r [Hn|Hn%list_elem_of_singleton]%elem_of_app; [by eapply Hse|done].
  - intros n Hfl. exfalso. apply Ho in Hfl. congruence.
  - intros n e. rewrite Hfa, elem_of_app, list_elem_of_singleton. naive_solver.
  - intros q [_ Hq]%list_elem_of_filter. by apply Hsnap, Hsn.
  - intros n sc fo [Hn|Hn%list_elem_of_singleton]%elem_of_app; [by apply Hsnap, Hev|done].
Qed.

Lemma fail_ok tr g done id p e n_own :
  loop_ok tr g done → pending_of id g = Some p → p_started p = true →
  loop_ok (tr ++ [Settled id (Err e)]) (admit_ready (fail_node id e (set_own_bytes n_own (remove_pending id g)))) done.
Proof using All.
  intros [Hf Hd Hnd Hst Hsd Hp Hse Ho Hfi Hfa Hco Hv Hfo Hsn Hev Hso] Hpo Es. destruct (pending_of_in _ _ _ Hpo) as [Hin Hid].
  assert (Hidp : id ∈ map p_node (pending g)) by (rewrite <- Hid; by apply list_elem_of_fmap_2).
  apply admit_ready_ok.
  assert (Hcomp : completed (tr ++ [Settled id (Err e)]) = completed tr) by (rewrite completed_app; cbn; apply app_nil_r).
  assert (Hfin : finished (tr ++ [Settled id (Err e)]) = finished tr ++ [id]) by (by rewrite finished_app).
  assert (Hstt : starts (tr ++ [Settled id (Err e)]) = starts tr) by (rewrite starts_app; cbn; apply app_nil_r).
  assert (Hsnap : ∀ n sc fo, snapshot_ok tr done n sc fo → snapshot_ok (tr ++ [Settled id (Err e)]) done n sc fo).
  { intros n sc fo Hs. eapply snapshot_mono; [exact Hs|done|]. intros a c _. by rewrite Hcomp. }
  assert (Hnew : ∀ r, Settled id r ∉ tr).
  { intros r Hr. apply NoDup_app in Hnd as (_ & Hnd & _). apply (Hnd id Hidp). unfold finished. apply list_elem_of_omap. by exists (Settled id r). }
  assert (Hne : map_insert id e (failures g) ≠ []).
  { intros Hn. pose proof (map_get_insert id id e (failures g)) as Hg. rewrite Hn, decide_True in Hg by done. done. }
  split; cbn [frontier pending values failed_outputs admitting failures set_pending remove_pending fail_node set_own_bytes];
    rewrite ?Hcomp, ?Hfin, ?Hstt; try done.
  - eapply busy_ext; [exact Hf|]. intros n. symmetry. by apply retire_busy.
  - by apply retire_nodup.
  - intros n Hn. apply retire_busy; [done|]. by apply Hsd.
  - intros q [_ Hq]%list_elem_of_filter. by apply Hp.
  - intros n r [Hn|Hn%list_elem_of_singleton]%elem_of_app; [by eapply Hse|]. injection Hn as -> ->. rewrite <- Hid. by apply Hp.
  - intros n e'. rewrite map_get_insert, elem_of_app, list_elem_of_singleton. destruct (decide (n = id)) as [->|Hn].
    + split; [by intros [= ->]; right|]. intros [Hn|[= ->]]; [by apply Hnew in Hn|done].
    + rewrite Hfa. split; [by left|]. intros [?|[= -> ->]]; done.
  - intros q [_ Hq]%list_elem_of_filter. by apply Hsnap, Hsn.
  - intros n sc fo [Hn|Hn%list_elem_of_singleton]%elem_of_app; [by apply Hsnap, Hev|done].
Qed.

Lemma frontier_push f done busy id p :
  front f [] done busy → busy id → id ∉ done.*1 → front f [(id, Some p)] done busy.
Proof using.
  intros [F1 F2 F3 F4 F5 F6 F7 F8 F9] Hb Hd. rewrite !app_nil_r in *. destruct (F7 id Hb) as (Hz & Ha & Hk). split; try done.
  - cbn. apply NoDup_app. split_and!; [done| |apply NoDup_singleton]. by intros n Hn ->%list_elem_of_singleton.
  - intros n [Hn|Hn]%elem_of_app; [by apply F2|]. cbn in Hn. by apply list_elem_of_singleton in Hn as ->.
  - intros n q [Hn|Hn]%elem_of_app; [by apply F5|]. apply list_elem_of_singleton in Hn as [= -> ->]. split_and!; [done| |done].
    split; [done|by eexists].
  - intros n Hn Hzn. rewrite elem_of_app. destruct (F8 n Hn Hzn) as [?|[?|?]]; auto.
Qed.

Lemma written_owner o writes : o ∈ written_owners writes → ∃ l v, (o, l, v) ∈ writes.
Proof using.
  unfold written_owners, collect_updates. induction writes as [|[[o' l] v] writes IH] using rev_ind; [by intros ?%not_elem_of_nil|].
  rewrite foldl_app. cbn [foldl fst snd]. intros [->|Hin]%elem_of_map_insert.
  - exists l, v. apply elem_of_app. right. constructor.
  - destruct (IH Hin) as (l' & v' & ?). exists l', v'. apply elem_of_app. by left.
Qed.

Lemma not_written n c : node_ok n (Ok c) → ∀ o, o ∈ written_owners (c_writes c) → o ∉ keys.
Proof using All.
  intros (nd & schema & bytes & report & Hg & _ & _ & Hw) o (l & v & Ho)%written_owner.
  destruct (Hw _ _ _ Ho) as (items & item & -> & Hi & Hv). rewrite keys_nodes. apply (Hassign n items item); [done..|]. by rewrite Hv.
Qed.

Lemma commit_step_ok tr g done id p c budgets budgets' merged own n_own :
  loop_ok tr g done → pending_of id g = Some p → p_started p = true → node_ok id (Ok c) →
  merge_writes budgets (values g) (c_writes c) = Ok (budgets', merged, own) →
  ∃ done', loop_ok (tr ++ [Settled id (Ok c)]) (admit_ready (commit cf id c merged own (set_own_bytes n_own (remove_pending id g)))) done' ∧
    ∀ x, x ∈ done → x ∈ done'.
Proof using All.
  intros [Hf Hd Hnd Hst Hsd Hp Hse Ho Hfi Hfa Hco Hv Hfo Hsn Hev Hso] Hpo Es Hc Hm. destruct (pending_of_in _ _ _ Hpo) as [Hin Hid].
  assert (Hidp : id ∈ map p_node (pending g)) by (rewrite <- Hid; by apply list_elem_of_fmap_2).
  assert (Hidf : id ∉ finished tr) by (apply NoDup_app in Hnd as (_ & Hnd & _); by apply Hnd).
  pose proof (merge_exactly budgets (values g) (c_writes c) Hso) as Hme. rewrite Hm in Hme.
  destruct Hme as (_ & _ & _ & Hother & Hso' & _).
  assert (Hidd : id ∉ done.*1).
  { intros ([n q] & -> & Hn)%list_elem_of_fmap. cbn in *. destruct q as [q|].
    - apply Hd in Hn as (c' & Hc' & _). by apply Hidf, (completed_finished _ _ c').
    - destruct (fr_done _ _ _ _ _ _ _ Hf n None) as (_ & Ha & _); [by rewrite app_nil_r|].
      assert (Hact : n ∈ activated (frontier g)) by (apply (fr_busy _ _ _ _ _ _ _ Hf); by left). apply Ha in Hact as [? [=]]. }
  destruct (resolve_ok out (entry cf) keys keys_nodup keys_closed ltac:(by rewrite length_fmap) (length out) (frontier g) [(id, Some (c_port c))] done
    (λ n, n ∈ map p_node (pending g) ∨ n ∈ finished tr)) as (done' & Hf' & _ & Hsub & Hsome).
  { by apply frontier_push; [|left|]. }
  { rewrite length_fmap. lia. }
  exists done'. split; [apply admit_ready_ok|intros x Hx; by apply Hsub, elem_of_app; left].
  assert (Hcomp : completed (tr ++ [Settled id (Ok c)]) = completed tr ++ [(id, c)]) by (by rewrite completed_app).
  assert (Hfin : finished (tr ++ [Settled id (Ok c)]) = finished tr ++ [id]) by (by rewrite finished_app).
  assert (Hstt : starts (tr ++ [Settled id (Ok c)]) = starts tr) by (rewrite starts_app; cbn; apply app_nil_r).
  assert (Hcin : ∀ n c', (n, c') ∈ completed (tr ++ [Settled id (Ok c)]) ↔ (n, c') ∈ completed tr ∨ n = id ∧ c' = c).
  { intros n c'. rewrite Hcomp, elem_of_app, list_elem_of_singleton. split; (intros [?|Hx]; [by left|right]); [by injection Hx|by destruct Hx as [-> ->]]. }
  assert (Hsubk : ∀ a, a ∈ done.*1 → a ∈ done'.*1).
  { intros a ([n q] & -> & Hn)%list_elem_of_fmap. apply (list_elem_of_fmap_2 fst). apply Hsub, elem_of_app. by left. }
  assert (Hsnap : ∀ n sc fo, snapshot_ok tr done n sc fo → snapshot_ok (tr ++ [Settled id (Ok c)]) done' n sc fo).
  { intros n sc fo Hs. eapply snapshot_mono; [exact Hs|done|]. intros a c' Ha [?|[-> _]]%Hcin; done. }
  assert (Hnew : ∀ n, n ∈ finished tr → n ≠ id) by (by intros n Hn ->).
  split; unfold commit; cbn [frontier pending values failed_outputs admitting failures set_pending set_frontier remove_pending set_own_bytes];
    rewrite ?Hfin, ?Hstt; try done.
  - eapply busy_ext; [exact Hf'|]. intros n. symmetry. by apply retire_busy.
  - intros n q. split.
    + intros [Hn|Hn]%Hsome%elem_of_app.
      * apply Hd in Hn as (c' & Hc' & <-). exists c'. rewrite Hcin. auto.
      * apply list_elem_of_singleton in Hn as [= -> ->]. exists c. rewrite Hcin. auto.
    + intros (c' & Hc' & <-). apply Hsub, elem_of_app. apply Hcin in Hc' as [Hc'|[-> ->]]; [left; apply Hd; by exists c'|right; constructor].
  - by apply retire_nodup.
  - intros n Hn. apply retire_busy; [done|]. by apply Hsd.
  - intros q [_ Hq]%list_elem_of_filter. by apply Hp.
  - intros n r [Hn|Hn%list_elem_of_singleton]%elem_of_app; [by eapply Hse|]. injection Hn as -> ->. rewrite <- Hid. by apply Hp.
  - intros n Hfl [Hn|Hn%list_elem_of_singleton]%elem_of_app; rewrite Hcomp, fmap_app, elem_of_app; [left; by apply Hfi|right; subst; constructor].
  - intros n e. rewrite Hfa, elem_of_app, list_elem_of_singleton. naive_solver.
  - intros n c' [Hn|[-> ->]]%Hcin; [by apply Hco|done].
  - intros n c' v Hn Hcv.
    assert (Hold : (n, c') ∈ completed tr → map_get n merged = Some v).
    { intros Hn'. rewrite Hother; [by apply (Hv n c')|]. intros Hw. apply (not_written id c Hc n Hw).
      destruct (Hco n c' Hn') as (nd & _ & _ & _ & Hg & _). rewrite keys_nodes, map_get_key. by eexists. }
    apply Hcin in Hn as [Hn|[-> ->]]; [|by rewrite Hcv, map_get_insert, decide_True].
    destruct (c_value c); [|by apply Hold]. rewrite map_get_insert, decide_False; [by apply Hold|]. apply Hnew. by eapply completed_finished.
  - intros n. transitivity (n ∈ failed_outputs g ∨ n = id ∧ c_port c = PFail).
    + case_decide; [rewrite elem_of_union, elem_of_singleton|]; naive_solver.
    + rewrite Hfo. split.
      * intros [(c' & Hc' & ?)|[-> ?]]; [exists c'|exists c]; rewrite Hcin; auto.
      * intros (c' & [Hc'|[-> ->]]%Hcin & ?); [left; eauto|by right].
  - intros q [_ Hq]%list_elem_of_filter. by apply Hsnap, Hsn.
  - intros n sc fo [Hn|Hn%list_elem_of_singleton]%elem_of_app; [by apply Hsnap, Hev|done].
  - intros o m. destruct Hc as (nd & schema & bytes & report & _ & _ & Hvs & _). destruct (c_value c) as [v|] eqn:Ecv; [|apply Hso'].
    rewrite map_get_insert. case_decide; [|apply Hso']. intros [= ->]. by apply (Hvs (Object m)).
Qed.

Lemma set_own_id g : set_own_bytes (own_bytes g) g = g.
Proof using. by destruct g. Qed.

Lemma settle_step_ok tr g done id p budgets r budgets' g' r' :
  loop_ok tr g done → pending_of id g = Some p → p_started p = true → node_ok id r →
  settle b cf budgets id r g = Ok (budgets', g', r') →
  (∃ done', loop_ok (tr ++ [Settled id r']) g' done' ∧ ∀ x, x ∈ done → x ∈ done') ∧ (failures g' = [] → ready (frontier g') = []).
Proof using All.
  intros Hl Hpo Es Hr Hs.
  assert (Hadm : ∀ tr' g0 done', loop_ok tr' (admit_ready g0) done' → failures (admit_ready g0) = [] → ready (frontier (admit_ready g0)) = []).
  { intros tr' g0 done' _. unfold admit_ready. destruct (failures g0) eqn:E; [done|]. by rewrite E. }
  unfold settle in Hs. destruct r as [c|e].
  - apply bind_ok in Hs as (b1 & _ & Hs). change (values (remove_pending id g)) with (values g) in Hs.
    assert (Hown : ∃ n, (if is_assigner b id then remove_pending id g else set_own_bytes (own_bytes (remove_pending id g) + c_bytes c)%N (remove_pending id g))
      = set_own_bytes n (remove_pending id g)).
    { destruct (is_assigner b id); eexists; [symmetry; apply set_own_id|done]. }
    destruct Hown as [n_own Hown]. rewrite Hown in Hs.
    destruct (merge_writes budgets (values g) (c_writes c)) as [[[b2 merged] own]|[|e]] eqn:Em; [|done|].
    + injection Hs as _ <- <-. destruct (commit_step_ok tr g done id p c budgets b2 merged own n_own Hl Hpo Es Hr Em) as (done' & Hl' & Hsub).
      split; [by exists done'|]. by eapply Hadm.
    + injection Hs as _ <- <-. pose proof (fail_ok tr g done id p e n_own Hl Hpo Es) as Hl'. split; [by exists done|]. by eapply Hadm.
  - injection Hs as _ <- <-. pose proof (fail_ok tr g done id p e (own_bytes (remove_pending id g)) Hl Hpo Es) as Hl'. rewrite set_own_id in Hl'.
    split; [by exists done|]. by eapply Hadm.
Qed.

(** The invariant holds of every run, and resolved nodes stay so. *)
Lemma run_prefix tr g :
  run tr g → (failures g = [] → ready (frontier g) = []) ∧
  ∀ pre post, tr = pre ++ post → ∃ g0 done0 done, run pre g0 ∧ loop_ok pre g0 done0 ∧ loop_ok tr g done ∧ ∀ x, x ∈ done0 → x ∈ done.
Proof using All.
  assert (Hext : ∀ tr g e g', run (tr ++ [e]) g' →
    (∀ pre post, tr = pre ++ post → ∃ g0 done0 done, run pre g0 ∧ loop_ok pre g0 done0 ∧ loop_ok tr g done ∧ ∀ x, x ∈ done0 → x ∈ done) →
    (∀ done, loop_ok tr g done → ∃ done', loop_ok (tr ++ [e]) g' done' ∧ ∀ x, x ∈ done → x ∈ done') →
    ∀ pre post, tr ++ [e] = pre ++ post → ∃ g0 done0 done, run pre g0 ∧ loop_ok pre g0 done0 ∧ loop_ok (tr ++ [e]) g' done ∧ ∀ x, x ∈ done0 → x ∈ done).
  { intros tr0 g0 e g' Hrun IH Hstep pre post E. destruct post as [|x post _] using rev_ind.
    - rewrite app_nil_r in E. subst pre. destruct (IH tr0 [] ltac:(by rewrite app_nil_r)) as (_ & _ & done & _ & _ & Hl & _).
      destruct (Hstep _ Hl) as (done' & Hl' & _). by exists g', done', done'.
    - rewrite app_assoc in E. apply app_inj_tail in E as [E ->]. destruct (IH pre post E) as (g1 & done0 & done & Hr & H0' & Hl & Hsub).
      destruct (Hstep _ Hl) as (done' & Hl' & Hsub'). exists g1, done0, done'. split_and!; auto. }
  induction 1 as [|tr g g' id p Hrun [Hr IH] Hp Ha Hpoll|tr g g' id Hrun [Hr IH] Ha Hpoll|tr g g' id p budgets budgets' r r' Hrun [Hr IH] Hp Hs Hn Hst].
  - split; [done|]. intros pre post E. symmetry in E. apply app_eq_nil in E as [-> ->]. exists (initial b cf scope0), [], [].
    split_and!; [constructor|apply initial_ok..|done].
  - split.
    + unfold poll in Hpoll. rewrite Hp, Ha in Hpoll. cbn in Hpoll. destruct (p_started p); [done|]. injection Hpoll as <-. exact Hr.
    + eapply Hext; [by eapply run_start|exact IH|]. intros done Hl. exists done. split; [by eapply start_ok|done].
  - assert (Hstep : ∀ done, loop_ok tr g done → ∃ done', loop_ok (tr ++ [Gated id]) g' done' ∧ ∀ x, x ∈ done → x ∈ done').
    { intros done Hl. exists done. split; [by eapply gate_ok|done]. }
    split; [|eapply Hext; [by eapply run_gate|exact IH|exact Hstep]]. intros Hf. exfalso.
    destruct (IH tr [] ltac:(by rewrite app_nil_r)) as (_ & _ & done & _ & _ & Hl & _).
    destruct (Hstep _ Hl) as (done' & Hl' & _). apply (lo_open _ _ _ Hl') in Hf. unfold poll in Hpoll.
    destruct (pending_of id g) as [p|]; [|done]. cbn in Hpoll. rewrite Ha in Hpoll. destruct (p_started p); [done|]. injection Hpoll as <-.
    unfold admit_ready in Hf. cbn [failures remove_pending set_pending] in Hf. destruct (failures g); cbn in Hf; congruence.
  - split.
    + destruct (IH tr [] ltac:(by rewrite app_nil_r)) as (_ & _ & done & _ & _ & Hl & _). by eapply settle_step_ok.
    + eapply Hext; [by eapply run_settle|exact IH|]. intros done Hl. by destruct (settle_step_ok _ _ _ _ _ _ _ _ _ _ Hl Hp Hs Hn Hst) as [? _].
Qed.

Lemma run_ok tr g : run tr g → ∃ done, loop_ok tr g done.
Proof using All.
  intros Hrun. destruct (run_prefix tr g Hrun) as [_ Hp]. destruct (Hp tr [] ltac:(by rewrite app_nil_r)) as (_ & _ & done & _ & _ & Hl & _).
  by exists done.
Qed.

(** ** The choices a run makes *)

Definition completion_of (tr : list event) (n : str) : option NodeCompletion :=
  snd <$> find_first (λ x, bool_decide (x.1 = n)) (completed tr).

(** The exits taken so far, and any exit of the other nodes *)
Definition run_choice (tr : list event) (n : str) : WorkflowPort :=
  match completion_of tr n with
  | Some c => c_port c
  | None => default PNext (nd ← map_get n (block_nodes b); head (exits nd))
  end.

Lemma completion_of_in tr n c : NoDup (finished tr) → (n, c) ∈ completed tr → completion_of tr n = Some c.
Proof using.
  intros Hnd Hin. unfold completion_of. destruct (find_first _ (completed tr)) as [[n' c']|] eqn:E.
  - apply find_first_Some in E as [Hin' Hn%bool_decide_eq_true]. cbn in *. subst n'. f_equal. by eapply completed_unique.
  - pose proof (proj1 (find_first_None _ _) E _ Hin) as Hf. by apply bool_decide_eq_false in Hf.
Qed.

Section choice.
Context (tr : list event) (g : Graph) (done : list (str * option WorkflowPort)).
Hypothesis Hl : loop_ok tr g done.

Lemma choice_finished : NoDup (finished tr).
Proof using All. by pose proof (lo_nodup _ _ _ Hl) as (_ & _ & ?)%NoDup_app. Qed.

Lemma choice_completed n c : (n, c) ∈ completed tr → run_choice tr n = c_port c.
Proof using All. intros Hc. unfold run_choice. by rewrite (completion_of_in tr n c choice_finished Hc). Qed.

(** An activated node is reached by the choices. *)
Lemma activated_reached n : n ∈ activated (frontier g) → reached cf (run_choice tr) n.
Proof using All.
  intros Ha. assert (Hk : n ∈ keys).
  { apply (fr_act _ _ _ _ _ _ _ (lo_front _ _ _ Hl)) in Ha as [->|(k & e & _ & He & <-)]; [apply keys_entry|by apply (keys_closed k)]. }
  revert Ha. revert n Hk. apply (order_ind (λ n, n ∈ activated (frontier g) → reached cf (run_choice tr) n)). intros n _ IH Ha.
  apply (fr_act _ _ _ _ _ _ _ (lo_front _ _ _ Hl)) in Ha as [->|(k & e & Hd & He & <-)]; [constructor|].
  apply (lo_done _ _ _ Hl) in Hd as (c & Hc & Hp). apply (reached_edge _ _ k e); [|done|by rewrite (choice_completed k c)].
  apply IH; [apply leads_iff; eauto|]. apply (fr_busy _ _ _ _ _ _ _ (lo_front _ _ _ Hl)). right. by eapply completed_finished.
Qed.

(** A resolved node completed when the choices reach it. *)
Lemma reached_completed n : reached cf (run_choice tr) n → n ∈ done.*1 → ∃ c, (n, c) ∈ completed tr.
Proof using All.
  pose proof (lo_front _ _ _ Hl) as Hf.
  assert (Hact : ∀ m, m ∈ activated (frontier g) → m ∈ done.*1 → ∃ c, (m, c) ∈ completed tr).
  { intros m Ha ([m' q] & -> & Hm)%list_elem_of_fmap. cbn in *. assert (Hq : is_Some q).
    { apply (fr_done _ _ _ _ _ _ _ Hf m' q); [by rewrite app_nil_r|done]. }
    destruct Hq as [q' ->]. apply (lo_done _ _ _ Hl) in Hm as (c & Hc & _). by exists c. }
  induction 1 as [|n e Hr IH He Hp]; intros Hd; apply Hact; try done; apply (fr_act _ _ _ _ _ _ _ Hf); [by left|right].
  assert (Hn : n ∈ done.*1).
  { apply list_elem_of_fmap in Hd as ([m q] & E & Hm). cbn in E. apply (ancestors_done _ _ _ m n Hf); [|apply tc_once; rewrite <- E; apply leads_iff; eauto].
    apply (fr_done _ _ _ _ _ _ _ Hf m q). by rewrite app_nil_r. }
  destruct (IH Hn) as [c Hc]. exists n, e. split; [|done]. apply (lo_done _ _ _ Hl). exists c. split; [done|].
  by rewrite <- (choice_completed n c Hc).
Qed.

Lemma started_reached n : n ∈ starts tr → reached cf (run_choice tr) n.
Proof using All.
  intros Hn%(lo_started _ _ _ Hl). apply activated_reached. by apply (fr_busy _ _ _ _ _ _ _ (lo_front _ _ _ Hl)).
Qed.

Lemma choice_legal n nd : map_get n (block_nodes b) = Some nd → is_Some (completion_of tr n) ∨ exits nd ≠ [] → run_choice tr n ∈ exits nd.
Proof using All.
  intros Hg Hn. unfold run_choice. destruct (completion_of tr n) as [c|] eqn:E.
  - unfold completion_of in E. apply fmap_Some in E as ([n' c'] & E & ->). apply find_first_Some in E as [Hin Hn'%bool_decide_eq_true]. cbn in *. subst n'.
    apply (lo_completed _ _ _ Hl) in Hin as (nd' & schema & bytes & report & Hg' & Hc & _). rewrite Hg in Hg'. injection Hg' as <-.
    apply complete_exit in Hc as [? _]; [done|by apply (Hagents n)].
  - rewrite Hg. cbn. destruct Hn as [[? [=]]|Hn]. destruct (exits nd); [done|constructor].
Qed.
End choice.

(** A run that ends without a failure resolves every node. *)
Lemma all_resolved tr g done :
  loop_ok tr g done → failures g = [] → ready (frontier g) = [] → pending g = [] → ∀ n, n ∈ keys → n ∈ done.*1.
Proof using All.
  intros Hl Hfa Hr Hp. apply order_ind. intros n Hk IH. pose proof (lo_front _ _ _ Hl) as Hf.
  destruct (fr_all _ _ _ _ _ _ _ Hf n Hk) as [Hn|[[Hn|Hn]|Hn]].
  - rewrite (fr_wait _ _ _ _ _ _ _ Hf). apply rest_zero; [apply keys_closed|done].
  - rewrite Hr in Hn. by apply not_elem_of_nil in Hn.
  - rewrite Hp in Hn. by apply not_elem_of_nil in Hn.
  - apply (lo_finished _ _ _ Hl n Hfa) in Hn. apply list_elem_of_fmap in Hn as ([m c] & -> & Hc).
    apply (list_elem_of_fmap_2 fst _ (m, Some (c_port c))). apply (lo_done _ _ _ Hl). by exists c.
  - by rewrite app_nil_r in Hn.
Qed.
End runs.

(** ** What a run promises *)

(** What the compilation of a block establishes, and the sorted values around it. *)
Record checked (b : WorkflowBlock) (cf : ControlFlow) (scope0 : list (str * json)) : Prop := {
  ck_sorted : map_sorted (block_nodes b);
  ck_flow : control_flow b = Ok cf;
  ck_agents n nd : map_get n (block_nodes b) = Some nd → agent_output_ok nd;
  ck_assign n items item o : map_get n (block_nodes b) = Some (NAssigner items) → item ∈ items →
    head (variable item) = Some o → o ∉ (block_nodes b).*1;
  ck_scope : owners_sorted scope0;
}.

Section promises.
Context `{JsonTextLaws} `{ValidatorLaws}.
Context (b : WorkflowBlock) (cf : ControlFlow) (scope0 : list (str * json)).
Hypothesis Hck : checked b cf scope0.

Lemma ck_flow_ok : flow_ok b cf.
Proof using All. apply control_flow_ok; [apply (ck_sorted _ _ _ Hck)|apply (ck_flow _ _ _ Hck)]. Qed.

Lemma checked_prefix tr g : run b cf scope0 tr g → (failures g = [] → ready (frontier g) = []) ∧
  ∀ pre post, tr = pre ++ post → ∃ g0 done0 done, run b cf scope0 pre g0 ∧ loop_ok b cf pre g0 done0 ∧ loop_ok b cf tr g done ∧ ∀ x, x ∈ done0 → x ∈ done.
Proof using All.
  destruct Hck as [Hs Hc Ha Hi Ho]. pose proof ck_flow_ok as Hf. by eapply run_prefix.
Qed.
Lemma checked_ok tr g : run b cf scope0 tr g → ∃ done, loop_ok b cf tr g done.
Proof using All.
  destruct Hck as [Hs Hc Ha Hi Ho]. pose proof ck_flow_ok as Hf. by eapply run_ok.
Qed.

Lemma run_last tr e g : run b cf scope0 (tr ++ [e]) g → ∃ g0, run b cf scope0 tr g0 ∧
  match e with Started _ _ _ => admitting g0 = true | _ => True end.
Proof using.
  intros Hr. inversion Hr as [E|tr0 g0 g' id p Hrun Hp Ha Hpoll E|tr0 g0 g' id Hrun Ha Hpoll E|tr0 g0 g' id p budgets budgets' r r' Hrun Hp Hs Hn Hst E];
    [by destruct tr|apply app_inj_tail in E as [-> <-]; eauto..].
Qed.

Lemma starts_keys tr g done n : loop_ok b cf tr g done → n ∈ starts tr ∨ n ∈ finished tr → n ∈ (outgoing cf).*1.
Proof using.
  intros Hl Hn. apply (fr_busy _ _ _ _ _ _ _ (lo_front _ _ _ _ _ Hl)). destruct Hn as [Hn|?]; [by apply (lo_started _ _ _ _ _ Hl)|by right].
Qed.

Lemma starts_once tr g pre n sc fo post :
  run b cf scope0 tr g → tr = pre ++ Started n sc fo :: post →
  (∀ m e, Settled m (Err e) ∉ pre) ∧
  ∀ a, tc (leads (outgoing cf)) a n →
    (∃ c, (a, c) ∈ completed pre ∧ (∀ v, c_value c = Some v → map_get a sc = Some v) ∧ (a ∈ fo ↔ c_port c = PFail)) ∨ a ∉ starts tr.
Proof using All.
  intros Hr E. destruct (checked_prefix tr g Hr) as [_ Hp].
  destruct (Hp (pre ++ [Started n sc fo]) post ltac:(by rewrite <- app_assoc)) as (g1 & done1 & done & Hr1 & Hl1 & Hl & Hsub).
  destruct (run_last _ _ _ Hr1) as (g0 & Hr0 & Had). destruct (checked_ok _ _ Hr0) as (done0 & Hl0). split.
  - intros m e Hm. apply (lo_failed _ _ _ _ _ Hl0) in Hm. apply (lo_open _ _ _ _ _ Hl0) in Had. by rewrite Had in Hm.
  - intros a Ha. assert (Hcp : completed (pre ++ [Started n sc fo]) = completed pre) by (rewrite completed_app; cbn; apply app_nil_r).
    destruct (lo_events _ _ _ _ _ Hl1 n sc fo ltac:(apply elem_of_app; right; constructor) a Ha) as [Hd Hc]. rewrite Hcp in Hc.
    apply list_elem_of_fmap in Hd as ([a' q] & -> & Hd). cbn [fst] in *. destruct q as [q|].
    + left. apply (lo_done _ _ _ _ _ Hl1) in Hd as (c & Hac & _). rewrite Hcp in Hac. exists c. split; [done|]. by apply Hc.
    + right. intros Hs%(lo_started _ _ _ _ _ Hl). apply (fr_busy _ _ _ _ _ _ _ (lo_front _ _ _ _ _ Hl)) in Hs as (_ & Hact & _).
      destruct (fr_done _ _ _ _ _ _ _ (lo_front _ _ _ _ _ Hl) a' None) as (_ & Hn & _); [rewrite app_nil_r; by apply Hsub|].
      by apply Hn in Hact as [? [=]].
Qed.

Lemma failures_none g : merged_failures (failures g) = None → failures g = [].
Proof using. destruct (failures g) as [|[? ?] [|? ?]]; done. Qed.

Lemma outcome_exact tr g :
  run b cf scope0 tr g → pending g = [] →
  match finish None g with
  | Ok (vs, _, _) =>
      ∃ chosen, legal b cf chosen ∧ (∀ n, n ∈ starts tr ↔ reached cf chosen n) ∧
        ∀ n, n ∈ starts tr → ∃ c, (n, c) ∈ completed tr ∧ chosen n = c_port c ∧ ∀ v, c_value c = Some v → map_get n vs = Some v
  | Err e => ∃ failed, merged_failures failed = Some e ∧ ∀ n e', map_get n failed = Some e' ↔ Settled n (Err e') ∈ tr
  end.
Proof using All.
  intros Hr Hp. destruct (checked_ok tr g Hr) as (done & Hl). unfold finish.
  destruct (merged_failures (failures g)) as [e|] eqn:Em.
  { exists (failures g). split; [done|]. intros n e'. apply (lo_failed _ _ _ _ _ Hl). }
  cbn [check_active mbind result_bind]. apply failures_none in Em. destruct (checked_prefix tr g Hr) as [Hrd _]. specialize (Hrd Em).
  destruct Hck as [Hs Hc Hag Hi Ho]. pose proof ck_flow_ok as Hf.
  assert (Hall : ∀ n, n ∈ (outgoing cf).*1 → n ∈ done.*1) by (by eapply all_resolved).
  assert (Hcs : ∀ n c, (n, c) ∈ completed tr → n ∈ starts tr).
  { intros n c Hc'. apply (lo_settled _ _ _ _ _ Hl n (Ok c)). unfold completed in Hc'.
    apply list_elem_of_omap in Hc' as ([| |m []] & Hin & [= -> ->]). done. }
  assert (Hsc : ∀ n, n ∈ starts tr → ∃ c, (n, c) ∈ completed tr).
  { intros n Hn. apply (lo_started _ _ _ _ _ Hl) in Hn as [Hn|Hn]; [rewrite Hp in Hn; by apply not_elem_of_nil in Hn|].
    apply (lo_finished _ _ _ _ _ Hl n Em) in Hn. apply list_elem_of_fmap in Hn as ([m c] & -> & Hc'). by exists c. }
  assert (Hrc : ∀ n, reached cf (run_choice b tr) n → ∃ c, (n, c) ∈ completed tr).
  { intros n Hn. eapply reached_completed; [done..|]. apply Hall. destruct Hn as [|k e _ He _]; [by eapply keys_entry|by eapply (keys_closed b cf scope0 Hs Hf Ho Hag Hi k)]. }
  exists (run_choice b tr). split_and!.
  - intros n nd Hn Hg. destruct (Hrc n Hn) as [c Hnc]. eapply choice_legal; [done..|]. left.
    rewrite (completion_of_in tr n c); [by eexists| |done]. by eapply choice_finished.
  - intros n. split; [by eapply started_reached|]. intros [c Hnc]%Hrc. by eapply Hcs.
  - intros n [c Hnc]%Hsc. exists c. split; [done|]. split; [by eapply choice_completed|]. intros v Hv. by apply (lo_values _ _ _ _ _ Hl n c).
Qed.

Lemma scope_met `{BddLaws} s tr g n sc fo after base p schema :
  exits_ok b → activation_scopes b cf = Ok s → run b cf scope0 tr g → Started n sc fo ∈ tr →
  map_get p (scope s n after base) = Some schema →
  map_get p base = Some schema ∨
  ∃ c, (p, c) ∈ completed tr ∧ (∀ v, c_value c = Some v → map_get p sc = Some v) ∧ (p ∈ fo ↔ c_port c = PFail) ∧
    (∀ nd, map_get p (block_nodes b) = Some nd → produces nd = true → is_Some (map_get p sc)) ∧
    (p ∉ fo ∧ (m ← map_get p after; map_get p m) = Some schema ∨ p ∈ fo ∧ schema = error_schema).
Proof using All.
  intros He Hs Hr Hin Hp. destruct (checked_ok tr g Hr) as (done & Hl). destruct Hck as [Hso Hc Hag Hi Ho]. pose proof ck_flow_ok as Hf.
  assert (Hlegal : legal b cf (run_choice b tr)).
  { intros m nd _ Hg. eapply choice_legal; [done..|]. right. by apply (He m nd). }
  assert (Hst : n ∈ starts tr) by (unfold starts; apply list_elem_of_omap; by exists (Started n sc fo)).
  assert (Hreach : reached cf (run_choice b tr) n) by (by eapply started_reached).
  destruct (scope_entry b cf s (run_choice b tr) Hso Hf He Hlegal Hs n after base p schema Hreach Hp) as [?|(Ht & Hrp & Hport)]; [by left|right].
  destruct (lo_events _ _ _ _ _ Hl n sc fo Hin p Ht) as [Hd Hall].
  assert (Hpc : ∃ c, (p, c) ∈ completed tr) by (by eapply reached_completed).
  destruct Hpc as [c Hpc]. destruct (Hall c Hpc) as [Hv Hfo]. exists c. split; [done|]. split; [done|]. split; [done|].
  assert (Hch : run_choice b tr p = c_port c) by (by eapply choice_completed). rewrite Hch in Hport. split.
  - intros nd Hg Hprod. destruct (lo_completed _ _ _ _ _ Hl p c Hpc) as (nd' & sch & bytes & report & Hg' & Hcomp & _).
    rewrite Hg in Hg'. injection Hg' as <-. apply complete_exit in Hcomp as [_ Hval]; [|by apply (Hag p)].
    destruct (Hval Hprod) as [v Hcv]. exists v. by apply Hv.
  - rewrite Hfo. exact Hport.
Qed.

Lemma events_split tr : length tr = length (starts tr) + length (finished tr).
Proof using.
  induction tr as [|e tr IH]; [done|]. unfold starts, finished. cbn [length omap list_omap]. fold (starts tr) (finished tr).
  destruct e; cbn; fold (starts tr) (finished tr); lia.
Qed.

Lemma run_length tr g : run b cf scope0 tr g → length tr <= 2 * length (block_nodes b).
Proof using All.
  intros Hr. destruct (checked_ok tr g Hr) as (done & Hl). rewrite events_split.
  assert (Hk : length (block_nodes b) = length (outgoing cf).*1).
  { rewrite (flow_keys b cf ck_flow_ok). by rewrite length_fmap. }
  pose proof (lo_nodup _ _ _ _ _ Hl) as (_ & _ & Hnd)%NoDup_app.
  pose proof (submseteq_length _ _ (NoDup_submseteq _ _ (lo_starts _ _ _ _ _ Hl) (λ n Hn, starts_keys tr g done n Hl (or_introl Hn)))).
  pose proof (submseteq_length _ _ (NoDup_submseteq _ _ Hnd (λ n Hn, starts_keys tr g done n Hl (or_intror Hn)))). lia.
Qed.

(** What the owner of a node reserved is the run's. *)
Definition owned (budgets : RunBudgets) (r : result WorkflowRunError NodeCompletion) : Prop :=
  match r with Ok c => (c_bytes c <= retained_bytes budgets)%N | Err _ => True end.

Lemma step_possible tr g p :
  run b cf scope0 tr g → p ∈ pending g →
  if p_started p then ∀ budgets r, node_ok b (p_node p) r → owned budgets r →
    ∃ budgets' g' r', settle b cf budgets (p_node p) r g = Ok (budgets', g', r')
  else ∃ g', poll (p_node p) g = Some g'.
Proof using All.
  intros Hr Hin. destruct (checked_ok tr g Hr) as (done & Hl).
  assert (Hpo : pending_of (p_node p) g = Some p).
  { unfold pending_of. destruct (find_first _ (pending g)) as [q|] eqn:E.
    - apply find_first_Some in E as [Hq Hn%bool_decide_eq_true]. f_equal. pose proof (lo_nodup _ _ _ _ _ Hl) as (Hnd & _)%NoDup_app.
      by apply (NoDup_map_inj p_node (pending g)).
    - pose proof (proj1 (find_first_None _ _) E p Hin) as Hf. by apply bool_decide_eq_false in Hf. }
  destruct (p_started p) eqn:Es.
  - intros budgets r _ Hown. destruct r as [c|e]; [|by do 3 eexists]. unfold settle. change (values (remove_pending (p_node p) g)) with (values g).
    pose proof (merge_exactly budgets (values g) (c_writes c) (lo_sorted _ _ _ _ _ Hl)) as Hm. cbn in Hown.
    destruct (merge_writes budgets (values g) (c_writes c)) as [[[b2 merged] own]|[|e]]; [|done|].
    + destruct Hm as (_ & _ & _ & _ & _ & _ & -> & _).
      destruct (is_assigner b (p_node p)); [unfold drop_reservation; rewrite checked_sub_ok by (cbn; lia)|]; cbn [mbind result_bind]; by do 3 eexists.
    + destruct (is_assigner b (p_node p)); [unfold drop_reservation; rewrite checked_sub_ok by done|]; cbn [mbind result_bind]; by do 3 eexists.
  - unfold poll. rewrite Hpo. cbn. rewrite Es. destruct (admitting g); by eexists.
Qed.
End promises.

(** C29 A node of a block starts at most once, never after a failure, and only when every
    node before it is settled: each such node has completed, its value is the one the starting
    node reads and its failure is known, or it does not run at all. *)
Theorem node_starts_once `{JsonTextLaws} `{ValidatorLaws} b cf scope0 tr g :
  checked b cf scope0 → run b cf scope0 tr g →
  NoDup (starts tr) ∧
  ∀ pre n sc fo post, tr = pre ++ Started n sc fo :: post →
    (∀ m e, Settled m (Err e) ∉ pre) ∧
    ∀ a, tc (leads (outgoing cf)) a n →
      (∃ c, (a, c) ∈ completed pre ∧ (∀ v, c_value c = Some v → map_get a sc = Some v) ∧ (a ∈ fo ↔ c_port c = PFail)) ∨ a ∉ starts tr.
Proof.
  intros Hck Hr. split.
  - destruct (checked_ok b cf scope0 Hck tr g Hr) as [done Hl]. apply (lo_starts _ _ _ _ _ Hl).
  - intros pre n sc fo post E. by apply (starts_once b cf scope0 Hck tr g pre n sc fo post).
Qed.

(** C30 A block that has nothing pending has run exactly the nodes the exits taken lead to:
    without a failure, the started nodes are those reached from Start under the exits their
    completions chose, each completed, with its value among the block's values; otherwise the
    block's error is the failure of the nodes that failed, all of them. *)
Theorem block_outcome_exact `{JsonTextLaws} `{ValidatorLaws} b cf scope0 tr g :
  checked b cf scope0 → run b cf scope0 tr g → pending g = [] →
  match finish None g with
  | Ok (vs, _, _) =>
      ∃ chosen, legal b cf chosen ∧ (∀ n, n ∈ starts tr ↔ reached cf chosen n) ∧
        ∀ n, n ∈ starts tr → ∃ c, (n, c) ∈ completed tr ∧ chosen n = c_port c ∧ ∀ v, c_value c = Some v → map_get n vs = Some v
  | Err e => ∃ failed, merged_failures failed = Some e ∧ ∀ n e', map_get n failed = Some e' ↔ Settled n (Err e') ∈ tr
  end.
Proof. intros Hck. apply (outcome_exact b cf scope0 Hck). Qed.

(** C28 The scope the compiler gives a node is there when the node runs: at its start every
    producer in the scope has completed, its value is in the node's snapshot, and the schema is
    that of the value: the producer's own after a success, the error's after a failure sent
    down its branch. *)
Theorem scope_available `{JsonTextLaws} `{ValidatorLaws} `{BddLaws} b cf scope0 s tr g n sc fo after p schema :
  checked b cf scope0 → exits_ok b → activation_scopes b cf = Ok s → run b cf scope0 tr g → Started n sc fo ∈ tr →
  map_get p (scope s n after []) = Some schema →
  ∃ c, (p, c) ∈ completed tr ∧ (∀ v, c_value c = Some v → map_get p sc = Some v) ∧
    (∀ nd, map_get p (block_nodes b) = Some nd → produces nd = true → is_Some (map_get p sc)) ∧
    (p ∉ fo ∧ (m ← map_get p after; map_get p m) = Some schema ∨ p ∈ fo ∧ schema = error_schema).
Proof.
  intros Hck He Hs Hr Hin Hp. destruct (scope_met b cf scope0 Hck s tr g n sc fo after [] p schema) as [?|(c & Hc & Hv & _ & Hrest)]; try done.
  by exists c.
Qed.

(** C31 A block ends: a run has at most two steps per node, and every pending node can take
    its step in every reachable state: a queued one is polled, and whatever a started one's
    owner reports, its settlement returns without a panic. *)
Theorem block_progress `{JsonTextLaws} `{ValidatorLaws} b cf scope0 tr g :
  checked b cf scope0 → run b cf scope0 tr g →
  length tr <= 2 * length (block_nodes b) ∧
  ∀ p, p ∈ pending g →
    if p_started p then ∀ budgets r, node_ok b (p_node p) r → owned budgets r →
      ∃ budgets' g' r', settle b cf budgets (p_node p) r g = Ok (budgets', g', r')
    else ∃ g', poll (p_node p) g = Some g'.
Proof.
  intros Hck Hr. split; [by eapply run_length|]. intros p. by apply (step_possible b cf scope0 Hck tr).
Qed.

(** ** An example run *)

Module Example_run.
Import Sizes Formulas Checks.

(** The validator of [WorkflowSchema] finds the required choices among strings. *)
#[export] Instance checks_choices : ValidatorLaws.
Proof.
  split. intros schema v k props choice ids required Hv Ht Hp Hk He Hr Hin. rewrite is_valid_eq in Hv. apply andb_prop in Hv as [Hc Hv].
  apply check_value_spec in Hc as (Hty & _). apply andb_prop in Hv as [Hv _]. specialize (Hty _ Ht).
  destruct v as [| | | | |fields]; try discriminate Hty; [by destruct Hty as [Hty|[Hty _]]|].
  apply check_fields_spec in Hv as (Hreq & Hprops & _). destruct (Hreq _ _ Hr Hin) as [x Hx].
  specialize (Hprops k choice x). unfold members in Hprops. rewrite Hp in Hprops. specialize (Hprops Hk Hx).
  rewrite is_valid_eq in Hprops. apply andb_prop in Hprops as [(_ & _ & Henum & _)%check_value_spec _].
  apply Henum in He as (id & -> & Hid)%list_elem_of_fmap. exists id. split; [done|]. exact Hx.
Defined.

(** What may happen next *)
Inductive action := Poll (id : str) | Settle (id : str) (r : result WorkflowRunError NodeCompletion).

Definition budgets0 : RunBudgets := {| steps := 0; agents := 0; model_calls := 0; retained_bytes := 1000; reserved_bytes := 2000 |}.

Definition act_once (b : WorkflowBlock) (cf : ControlFlow) (a : action) (st : list event * Graph) : option (list event * Graph) :=
  match a with
  | Poll id =>
      p ← pending_of id st.2;
      g ← poll id st.2;
      Some (st.1 ++ [if admitting st.2 then Started id (p_scope p) (p_failed p) else Gated id], g)
  | Settle id r =>
      p ← pending_of id st.2;
      if p_started p then
        match settle b cf budgets0 id r st.2 with Ok (_, g, r') => Some (st.1 ++ [Settled id r'], g) | Err _ => None end
      else None
  end.

Fixpoint drive (b : WorkflowBlock) (cf : ControlFlow) (l : list action) (st : list event * Graph) : option (list event * Graph) :=
  match l with [] => Some st | a :: l => st ← act_once b cf a st; drive b cf l st end.

Lemma drive_run b cf scope0 l st st' :
  Forall (λ a, match a with Settle id r => node_ok b id r | Poll _ => True end) l →
  run b cf scope0 st.1 st.2 → drive b cf l st = Some st' → run b cf scope0 st'.1 st'.2.
Proof.
  intros Hl. revert st. induction Hl as [|a l Ha _ IH]; intros st Hr Hd; cbn in Hd; [by injection Hd as <-|].
  destruct (act_once b cf a st) as [st1|] eqn:E; [|done]. apply (IH st1); [|done]. destruct a as [id|id r]; cbn [act_once] in E.
  - destruct (pending_of id st.2) as [p|] eqn:Ep; [|done]. cbn [mbind option_bind] in E. destruct (poll id st.2) as [g|] eqn:Eg; [|done].
    injection E as <-. cbn [fst snd]. destruct (admitting st.2) eqn:Ea; [by eapply run_start|by eapply run_gate].
  - destruct (pending_of id st.2) as [p|] eqn:Ep; [|done]. cbn [mbind option_bind] in E. destruct (p_started p) eqn:Es; [|done].
    destruct (settle b cf budgets0 id r st.2) as [[[budgets g] r']|] eqn:Eg; [|done]. injection E as <-. by eapply run_settle.
Defined.

Definition model_value : json :=
  let zero := Number (PosInt 0) in
  jobj [("text", jstr "hello"); ("reasoning_content", jstr ""); ("usage", jobj [("input_tokens", zero); ("output_tokens", zero); ("total_tokens", zero)])].
Definition settled_ok (id : string) (n : WorkflowNodeDefinition) (report : NodeReport) : action :=
  Settle (lit id) (complete (lit id) n Null 0%N report).

(** The branch of [sample] takes its case, the model answers, the template and Return follow. *)
Definition script : list action :=
  [Poll (lit "s"); settled_ok "s" NStart Done;
   Poll (lit "c"); settled_ok "c" (NBranch [if_case]) (Conditions [Ok true]);
   Poll (lit "m"); settled_ok "m" (model_node MFailBranch) (Committed model_value);
   Poll (lit "x"); settled_ok "x" (NTemplate [] []) (Committed (jobj [("output", jstr "hi")]));
   Poll (lit "r"); settled_ok "r" (NReturn []) (ReturnedValue (jobj []))].

Definition last_state : list event * Graph :=
  default ([], initial sample sample_flow []) (drive sample sample_flow script ([], initial sample sample_flow [])).

Lemma script_ok : Forall (λ a, match a with Settle id r => node_ok sample id r | Poll _ => True end) script.
Proof.
  assert (Hn : ∀ id n report, map_get (lit id) (block_nodes sample) = Some n →
    match complete (lit id) n Null 0%N report with
    | Ok c => match c_value c with Some v => value_sorted v | None => True end ∧ c_writes c = []
    | Err _ => True
    end → node_ok sample (lit id) (complete (lit id) n Null 0%N report)).
  { intros id n report Hg Hc. destruct (complete (lit id) n Null 0%N report) as [c|e] eqn:E; [|done]. destruct Hc as [Hv Hw].
    exists n, Null, 0%N, report. split_and!; [done|done| |].
    - intros v Ev. by rewrite Ev in Hv.
    - intros o l v. by rewrite Hw; intros ?%not_elem_of_nil. }
  unfold script, settled_ok. repeat apply Forall_cons_2; try exact I; try apply Forall_nil_2;
    (apply Hn; [vm_compute; reflexivity|vm_compute; repeat constructor]).
Defined.

Lemma last_run : run sample sample_flow [] last_state.1 last_state.2.
Proof.
  eapply (drive_run sample sample_flow [] script ([], initial sample sample_flow [])); [apply script_ok|constructor|].
  vm_compute. reflexivity.
Defined.

Lemma sample_checked : checked sample sample_flow [].
Proof.
  split; [apply sample_sorted|apply sample_accepted|..].
  - intros n nd Hg%map_get_pair. cbn in Hg. set_unfold in Hg.
    by destruct Hg as [[= _ ->]|[[= _ ->]|[[= _ ->]|[[= _ ->]|[[= _ ->]|[]]]]]].
  - intros n items item o Hg%map_get_pair. cbn in Hg. set_unfold in Hg.
    by destruct Hg as [[= _ ?]|[[= _ ?]|[[= _ ?]|[[= _ ?]|[[= _ ?]|[]]]]]].
  - by intros o m Hg.
Defined.

Lemma node_starts_once_witness : starts last_state.1 = map lit ["s"; "c"; "m"; "x"; "r"]%string ∧ NoDup (starts last_state.1).
Proof. split; [vm_compute; reflexivity|]. apply (node_starts_once sample sample_flow [] last_state.1 last_state.2 sample_checked last_run). Defined.

Lemma block_outcome_exact_witness :
  pending last_state.2 = [] ∧
  match finish None last_state.2 with
  | Ok (vs, _, _) =>
      ∃ chosen, legal sample sample_flow chosen ∧ (∀ n, n ∈ starts last_state.1 ↔ reached sample_flow chosen n) ∧
        ∀ n, n ∈ starts last_state.1 → ∃ c, (n, c) ∈ completed last_state.1 ∧ chosen n = c_port c ∧ ∀ v, c_value c = Some v → map_get n vs = Some v
  | Err e => ∃ failed, merged_failures failed = Some e ∧ ∀ n e', map_get n failed = Some e' ↔ Settled n (Err e') ∈ last_state.1
  end.
Proof.
  split; [vm_compute; reflexivity|]. apply (block_outcome_exact sample sample_flow [] last_state.1 last_state.2 sample_checked last_run).
  vm_compute. reflexivity.
Defined.

(** The template starts with the model's value before it. *)
Lemma template_started : Started (lit "x") [(lit "m", model_value)] ∅ ∈ last_state.1.
Proof. apply (list_elem_of_lookup_2 _ 6). vm_compute. reflexivity. Defined.

Lemma scope_available_witness :
  map_get (lit "m") (scope sample_scopes (lit "x") sample_after []) = Some (model_output_schema ModelText) ∧
  ∃ c, (lit "m", c) ∈ completed last_state.1 ∧ (∀ v, c_value c = Some v → map_get (lit "m") [(lit "m", model_value)] = Some v) ∧
    (∀ nd, map_get (lit "m") (block_nodes sample) = Some nd → produces nd = true → is_Some (map_get (lit "m") [(lit "m", model_value)])) ∧
    (lit "m" ∉ (∅ : gset str) ∧ (m ← map_get (lit "m") sample_after; map_get (lit "m") m) = Some (model_output_schema ModelText) ∨
     lit "m" ∈ (∅ : gset str) ∧ model_output_schema ModelText = error_schema).
Proof.
  split; [vm_compute; reflexivity|].
  apply (scope_available sample sample_flow [] sample_scopes last_state.1 last_state.2 (lit "x") [(lit "m", model_value)] ∅ sample_after (lit "m")
    (model_output_schema ModelText) sample_checked sample_exits sample_scopes_ok last_run template_started).
  vm_compute. reflexivity.
Defined.

Lemma block_progress_witness : pending (initial sample sample_flow []) ≠ [] ∧ length last_state.1 <= 2 * length (block_nodes sample).
Proof.
  split; [by vm_compute|]. apply (block_progress sample sample_flow [] last_state.1 last_state.2 sample_checked last_run).
Defined.
End Example_run.
