(* ===== verification/WorkflowSound.v ===== *)
(** What a compiled Workflow block never does at run time: the schemas of [WorkflowSchema] and
    the expressions of [WorkflowExpr] meet the runs of [WorkflowRun].

    The values of a run are those its nodes committed, each checked against the frozen schema
    of its node ([contract]); the scope of a node is the one [WorkflowFlow] computes over the
    block's input.  So the environment a started node evaluates its expressions in meets the
    schemas they were compiled against. *)

From S2P Require Import Message Attempt Prelude Text Json Workflow WorkflowGraph WorkflowFlow WorkflowBudget WorkflowSchema WorkflowExpr WorkflowRun.
From stdpp Require Import options.
Open Scope N_scope.

(** [review::result_schema] *)
Definition review_schema (actions : list WorkflowReviewAction) : json :=
  closed_object
    (collect_map [(lit "action", jobj [("type", jstr "string"); ("enum", Array (map String (map action_id actions ++ [REVIEW_TIMEOUT_PORT])))]);
                  (lit "content", kind_schema "string")])
    (map lit ["action"; "content"]%string).

(** The schema the value of a node has, by the exit it took; [frozen] is that of the kinds whose
    schema the compiler derives. *)
Definition contract (n : WorkflowNodeDefinition) (frozen : json) (p : WorkflowPort) : json :=
  match n with
  | NModel _ _ output _ _ => if decide (p = PFail) then error_schema else model_output_schema output
  | NAgent _ _ output routes _ => if decide (p = PFail) then error_schema else agent_value_schema output routes
  | NTool _ _ _ _ _ | NCode _ _ _ _ _ _ => if decide (p = PFail) then error_schema else frozen
  | NClassifier _ _ _ _ => classifier_result_schema
  | NReview _ actions _ => review_schema actions
  | _ => frozen
  end.

Lemma supported_text : supported (kind_schema "string").
Proof. apply (supported_kind (lit "string")). known_key. Qed.

Lemma review_supported actions k p :
  map_get k [(lit "action", jobj [("type", jstr "string"); ("enum", Array (map String (map action_id actions ++ [REVIEW_TIMEOUT_PORT])))]);
             (lit "content", kind_schema "string")] = Some p → supported p.
Proof.
  cbn [map_get]. case_decide; [intros [= <-]; apply (supported_enum_of (lit "string")); known_key|].
  case_decide; [intros [= <-]; apply supported_text|done].
Qed.

Section valid.
Context `{JsonSchema}.

Lemma commit_valid {A} schema v (m : result WorkflowRunError A) c :
  (_ ← validate_commit schema v; m) = Ok c → is_valid schema v = true ∧ m = Ok c.
Proof using. intros (u & Hv & Hm)%bind_ok. destruct u. by apply validate_commit_ok in Hv as [_ Hv]. Qed.

Lemma text_valid t : is_valid (kind_schema "string") (String t) = true.
Proof using All. apply (kind_valid (lit "string")); [known_key|done]. Qed.

(** What a person's answer becomes meets the schema of a Human Input node. *)
Lemma review_valid actions action shown :
  action ∈ map action_id actions ++ [REVIEW_TIMEOUT_PORT] →
  is_valid (review_schema actions) (jobj [("action", String action); ("content", String shown)]) = true.
Proof using All.
  intros Ha. unfold review_schema.
  change (collect_map _) with [(lit "action", jobj [("type", jstr "string"); ("enum", Array (map String (map action_id actions ++ [REVIEW_TIMEOUT_PORT])))]);
                               (lit "content", kind_schema "string")].
  change (jobj [("action", String action); ("content", String shown)]) with (Object [(lit "action", String action); (lit "content", String shown)]).
  apply closed_valid; [apply review_supported| | |].
  - intros k [->|[->|Hk]%elem_of_cons]%elem_of_cons; [by eexists|by eexists|by apply not_elem_of_nil in Hk].
  - intros k p x Hp Hx. cbn [map_get] in Hp, Hx. case_decide; [|case_decide; [|done]]; injection Hp as <-; injection Hx as <-.
    + apply (enum_valid (lit "string")); [known_key|done|]. exists (String action). split; [|reflexivity].
      by apply (list_elem_of_fmap_2 String).
    + apply text_valid.
  - intros k x Hx. cbn [map_get] in Hx |- *. case_decide; [by eexists|]. case_decide; [by eexists|done].
Qed.

Lemma strategy_valid schema on_error stop report bytes c v :
  value_or_strategy schema on_error stop report bytes = Ok c → c_value c = Some v →
  is_valid (if decide (c_port c = PFail) then error_schema else schema) v = true.
Proof using.
  unfold value_or_strategy. intros Hc Hv. destruct report; try done; [|destruct on_error; [done| |]].
  all: apply commit_valid in Hc as [Hval [= <-]]; injection Hv as <-; exact Hval.
Qed.

(** Whatever a node commits meets its contract at the exit it leaves by. *)
Lemma complete_valid id n frozen bytes report c v :
  complete id n frozen bytes report = Ok c → c_value c = Some v → is_valid (contract n frozen (c_port c)) v = true.
Proof using All.
  intros Hc Hv. unfold complete in Hc. destruct n; cbn [contract].
  all: try (destruct report; try done; first [apply commit_valid in Hc as [Hval [= <-]]|injection Hc as <-];
            try discriminate Hv; injection Hv as <-; exact Hval).
  - destruct report; try done. apply bind_ok in Hc as (class & _ & Hc). apply commit_valid in Hc as [Hval [= <-]]. by injection Hv as <-.
  - apply (strategy_valid _ on_error (λ _, unexpected) report bytes); [by destruct report|done].
  - eapply strategy_valid; [|done]. by destruct report.
  - destruct report as [| | | |answer shown| | | |]; try done. apply bind_ok in Hc as (action & Ha & [= <-]). injection Hv as <-.
    apply review_valid, elem_of_app. destruct answer as [i|]; [|injection Ha as <-; right; constructor].
    left. apply ok_or_ok, fmap_Some in Ha as (x & Hx & ->). apply (list_elem_of_fmap_2 action_id). by eapply list_elem_of_lookup_2.
  - apply (strategy_valid _ on_error (λ _, unexpected) report bytes); [by destruct report|done].
  - assert (Hb : (c ← value_or_strategy (agent_value_schema output routes) on_error (λ _, unexpected) report bytes;
      match routes, c_value c with
      | _ :: _, Some v => if decide (c_port c = PFail) then Ok c else Ok (plain (Some v) (chosen_route v) bytes)
      | _, _ => Ok c end) = Ok c) by (by destruct report).
    apply bind_ok in Hb as (c0 & Hc0 & Hb). pose proof (strategy_valid _ _ _ _ _ _ v Hc0) as Hval.
    destruct routes as [|route routes]; [injection Hb as <-; by apply Hval|].
    destruct (c_value c0) as [v0|] eqn:E; [|injection Hb as <-; congruence].
    case_decide as Hp; [injection Hb as <-; rewrite decide_True by done; apply Hval; congruence|]. injection Hb as <-. injection Hv as <-. cbn [plain c_port].
    rewrite decide_False by (unfold chosen_route, case; by case_decide). apply Hval. congruence.
  - destruct report; try done. apply bind_ok in Hc as (p & _ & [= <-]). done.
Qed.
End valid.

Lemma error_supported : supported error_schema.
Proof.
  apply (supported_closed [(lit "error_message", kind_schema "string"); (lit "error_type", kind_schema "string")]).
  intros k p. cbn [map_get]. case_decide; [intros [= <-]; apply supported_text|].
  case_decide; [intros [= <-]; apply supported_text|done].
Qed.

Lemma contract_success n frozen p : p ≠ PFail → contract n frozen p = contract n frozen PNext.
Proof. intros Hp. destruct n; cbn [contract]; rewrite ?decide_False by done; reflexivity. Qed.
Lemma contract_failure n frozen : has_fail_branch n = true → contract n frozen PFail = error_schema.
Proof. by destruct n. Qed.

(** ** A run of a compiled block *)

(** What the compiler's walk over the nodes leaves: the schemas [after] each node are the
    contracts of the nodes that have a value. *)
Definition compiled (b : WorkflowBlock) (frozen : str → json) (after : list (str * SchemaMap)) : Prop :=
  ∀ p nd schema, map_get p (block_nodes b) = Some nd → (m ← map_get p after; map_get p m) = Some schema →
    produces nd = true ∧ schema = contract nd (frozen p) PNext ∧ supported schema.

(** The input a root block starts with ([execute_block]) *)
Definition entered `{JsonText} `{Validator} (schema raw args : json) : Prop :=
  btrees schema ∧ validate_root_schema schema = Ok () ∧
  apply_schema_defaults schema raw = Ok args ∧ validate_commit schema args = Ok ().

(** [SchemaMap::from_schema] *)
Definition from_schema (schema : json) : SchemaMap := [(lit "args", schema_with_defaults_required schema)].

Section sound.
Context `{JsonTextLaws} `{JsonSchema} `{!ValidatorLaws} `{BddLaws}.
Context (b : WorkflowBlock) (cf : ControlFlow) (s : ActivationScopes) (frozen : str → json) (after : list (str * SchemaMap)).
Hypothesis Hck : checked b cf [].
Hypothesis Hexits : exits_ok b.
Hypothesis Hscopes : activation_scopes b cf = Ok s.
Hypothesis Hcompiled : compiled b frozen after.

(** Every completion is [execute_node]'s with the frozen schema of the program. *)
Definition executed (tr : list event) : Prop :=
  ∀ n c, (n, c) ∈ completed tr → ∃ nd bytes report,
    map_get n (block_nodes b) = Some nd ∧ complete n nd (frozen n) bytes report = Ok c.

(** No node is named [args]. *)
Lemma node_name n nd : map_get n (block_nodes b) = Some nd → n ≠ lit "args".
Proof using Hck.
  intros Hn. pose proof (ck_flow _ _ _ Hck) as Hf. unfold control_flow in Hf.
  apply bind_ok in Hf as (? & _ & Hf). apply bind_ok in Hf as (? & _ & Hf).
  apply bind_ok in Hf as (? & Hnames%try_for_each_ok & _). rewrite Forall_forall in Hnames. apply map_get_pair in Hn.
  specialize (Hnames _ Hn). apply guard_err_ok, orb_false_iff in Hnames as [Hne _]. by apply bool_decide_eq_false in Hne.
Qed.

Lemma environment_conforms raw args tr g n sc fo :
  entered (block_input b) raw args → run b cf [] tr g → executed tr → Started n sc fo ∈ tr →
  conforms (scope s n after (from_schema (block_input b))) args sc.
Proof using All.
  intros (Ho & Hroot & Hdef & Hcommit) Hr Hex Hin k schema Hk. right.
  destruct (scope_met b cf [] Hck s tr g n sc fo after _ k schema Hexits Hscopes Hr Hin Hk) as [Hbase|(c & Hc & Hsc & Hfo & _ & Hport)].
  - cbn [from_schema map_get] in Hbase. case_decide; [subst k; injection Hbase as <-|done].
    destruct (entry_valid (block_input b) raw args Ho Hroot Hdef Hcommit) as [Hs Hv]. split; [done|]. exists args. split; [|done].
    unfold root. by rewrite decide_True.
  - destruct (Hex k c Hc) as (nd & bytes & report & Hnd & Hcomp). unfold root. rewrite decide_False by (by eapply node_name).
    pose proof (complete_exit k nd _ bytes report c (ck_agents _ _ _ Hck k nd Hnd) Hcomp) as [Hexit Hval].
    assert (Hcase : supported schema ∧ produces nd = true ∧ contract nd (frozen k) (c_port c) = schema).
    { destruct Hport as [[Hnf Hs]|[Hf ->]].
      - destruct (Hcompiled k nd schema Hnd Hs) as (Hp & -> & Hsup). split; [done|]. split; [done|].
        apply contract_success. by rewrite <- Hfo.
      - split; [apply error_supported|]. apply Hfo in Hf. rewrite Hf in Hexit |- *. apply fail_exit in Hexit.
        split; [by destruct nd|by apply contract_failure]. }
    destruct Hcase as (Hsup & Hp & <-). split; [done|]. destruct (Hval Hp) as [v Hv]. exists v.
    split; [by apply Hsc|]. by eapply complete_valid.
Qed.
End sound.

(** C25 No expression of a compiled block goes wrong: when a node of the root block starts, every
    value the compiler typed in its scope evaluates, from the input and the values committed so
    far, to a value of its schema, and every condition it accepted is decided, unless a bound
    on sizes or depth is exceeded. *)
Theorem started_node_safe `{JsonTextLaws} `{JsonSchema} `{!ValidatorLaws} `{BddLaws} `{AstText} `{!JsonRender} `{FloatOrderLaws}
    b cf s frozen after raw args tr g n sc fo :
  checked b cf [] → exits_ok b → activation_scopes b cf = Ok s → compiled b frozen after → entered (block_input b) raw args →
  run b cf [] tr g → executed b frozen tr → Started n sc fo ∈ tr →
  let available := scope s n after (from_schema (block_input b)) in
  (∀ e depth schema, value_schema available e depth = Ok schema →
     match evaluate_value args sc e with Ok v => is_valid schema v = true | Err error => error ∈ bound_errors end) ∧
  (∀ p depth, validate_predicate available depth p = Ok () →
     match evaluate_predicate args sc p with Ok _ => True | Err error => error ∈ bound_errors end).
Proof.
  intros Hck He Hs Hc Hen Hr Hex Hin available.
  pose proof (environment_conforms b cf s frozen after Hck He Hs Hc raw args tr g n sc fo Hen Hr Hex Hin) as Hconf. split.
  - intros e depth schema Hsch. by apply (value_sound available args sc Hconf e depth schema).
  - intros p depth Hp. by apply (predicate_sound available args sc Hconf p depth).
Qed.

(** ** An example *)

Module Example_sound.
Import Sizes Printed Formulas Example_run.

(** What the template of [sample] may read: the model's text, and the unit of the input *)
Definition greeting : WorkflowValue := VTemplate [ref ["m"; "text"]; VLiteral (jstr " by the "); ref ["args"; "unit"]].

Definition committed_by (l : list action) : list (str * NodeCompletion) :=
  omap (λ a, match a with Settle id (Ok c) => Some (id, c) | _ => None end) l.
Definition of_program (x : str * NodeCompletion) : Prop :=
  ∃ nd bytes report, map_get x.1 (block_nodes sample) = Some nd ∧ complete x.1 nd Null bytes report = Ok x.2.

Lemma of_program_settled (id : string) n report rest :
  map_get (lit id) (block_nodes sample) = Some n → Forall of_program (committed_by rest) →
  Forall of_program (committed_by (settled_ok id n report :: rest)).
Proof.
  intros Hg Hr. unfold settled_ok, committed_by. cbn [omap list_omap]. destruct (complete (lit id) n Null 0 report) as [c|] eqn:E; [|done].
  constructor; [|done]. by exists n, 0, report.
Defined.
Lemma of_program_polled (id : string) rest : Forall of_program (committed_by rest) → Forall of_program (committed_by (Poll (lit id) :: rest)).
Proof. done. Defined.

Lemma sample_executed : executed sample (λ _, Null) last_state.1.
Proof.
  intros n c Hc. assert (Hall : Forall of_program (completed last_state.1)).
  { replace (completed last_state.1) with (committed_by script) by (vm_compute; reflexivity). unfold script.
    repeat first [apply of_program_polled | apply of_program_settled; [vm_compute; reflexivity|] | apply Forall_nil_2]. }
  rewrite Forall_forall in Hall. apply (Hall (n, c) Hc).
Defined.

Lemma sample_compiled : compiled sample (λ _, Null) sample_after.
Proof.
  intros p nd schema Hnd Hs. unfold sample_after in Hs. cbn [map_get] in Hs. case_decide; [subst p|done]. cbn in Hs.
  injection Hs as <-. vm_compute in Hnd. injection Hnd as <-. split; [done|]. split; [done|].
  apply sample_supported. vm_compute. reflexivity.
Defined.

Definition sample_day : json := jobj [("unit", jstr "day")].
Lemma sample_entered : entered (block_input sample) (jobj []) sample_day.
Proof. split_and!; [repeat split; repeat constructor|vm_compute; reflexivity..]. Defined.

Lemma started_node_safe_witness :
  evaluate_value sample_day [(lit "m", model_value)] greeting = Ok (jstr "hello by the day") ∧
  match evaluate_value sample_day [(lit "m", model_value)] greeting with
  | Ok v => is_valid (kind_schema "string") v = true
  | Err error => error ∈ bound_errors
  end.
Proof.
  split; [vm_compute; reflexivity|].
  apply (proj1 (started_node_safe sample sample_flow sample_scopes (λ _, Null) sample_after (jobj []) sample_day last_state.1 last_state.2 (lit "x")
    [(lit "m", model_value)] ∅ sample_checked sample_exits sample_scopes_ok sample_compiled sample_entered last_run sample_executed template_started)
    greeting 0 (kind_schema "string")).
  vm_compute. reflexivity.
Defined.
End Example_sound.
